(* ===== verification/_CoqProject ===== *)
-Q . S2P
Prelude.v
Revision.v
Reader.v
Session.v
Limits.v
Utf8.v
Wire.v
TypeParser.v
SkipColumn.v
Arena.v
ColumnReader.v
Framing.v
BlockReader.v
RawReader.v
BlockWriter.v
Columns.v
CompoundColumns.v
DynamicVariant.v
AnyColumn.v
TypedBlocks.v
Divergences.v
Chunked.v
StreamWrapper.v
Duplex.v
Compression.v
BlockPackets.v
Transport.v
Boundary.v
Response.v
Totality.v
Incremental.v
Handshake.v
Packets.v
AsyncReader.v
SyncResponse.v
QueryStream.v
StreamDelivery.v
QueryPacket.v
Schema.v
SyncClient.v
Conversation.v
Pool.v
PoolLifecycle.v
