(* ===== verification/Prelude.v ===== *)
(** * Verification of st-clickhouse-lib

    st-clickhouse-lib is a client for ClickHouse's native TCP protocol, with a synchronous
    and an asynchronous engine over shared code.  This library models the wire format and the
    typed columns, the transport layers, the handshake, queries and responses, the blocking
    client over all of them, and the pool of the asynchronous engine, and proves what makes
    them correct.

    ** The program's parts, and where they are modelled

    A response comes off a socket.  The chunked transport and the compression layer may
    wrap it; a packet loop splits it into packets; a Data packet carries a block: a header
    and columns, each with a name, a type name and bytes whose extent only the type
    determines.  Several families of readers find that extent: buffered parsers over a
    complete response, which skip over a column; stream readers, which copy it into an arena;
    and the readers of the asynchronous engine.  Typed columns decode the bytes.  A client
    establishes a connection by the handshake and then sends queries and inserts over it.

    Foundations:
    - [Prelude] (this file): byte strings, errors and messages, the monads with their
      notation, bounded recursion ([deep]), generic lemmas, tactics and hints.
    - [Reader]: functions over a buffer and a position ([parser]), functions over a stream
      ([reader], a tree of [read_exact] calls), the [Read] interface of transports and its
      laws ([ReadLaws]).  [exec_run] is proved once: a reader over a lawful transport
      behaves as on the bytes that the transport serves.
    - [Session]: code that writes and reads, played against a server ([Peer]).
    - [Duplex]: the same for streams that are read and written ([io], [performs]).
    - [Incremental]: parsers of a buffer that is still being filled ([steady]).
    - [Revision] (src/shared/protocol_revision.rs, packet.rs), [Limits] (src/src/limits.rs),
      [Utf8] (the parts of [core::str] the code uses), [Wire] (src/shared/wire.rs,
      async_wire.rs), [TypeParser] (src/shared/type_parser.rs): the leaves.

    Blocks:
    - [SkipColumn] (src/shared/skip_column.rs): extent of a column in a buffer.
    - [Arena], [ColumnReader], [BlockReader] (src/src/sync/protocol/response.rs,
      src/shared/block.rs): the stream readers of columns and the readers of blocks;
      [Framing] relates the stream readers of columns to the skipper.
    - [RawReader] (src/src/connection/raw_block_reader.rs) and [AsyncReader]
      (src/src/connection/block_reader.rs, io.rs, src/src/cursor.rs): the readers of the
      asynchronous engine, of raw and of decoded blocks.
    - [BlockWriter] (src/shared/block_writer.rs): writing blocks.
    - [Divergences]: evaluated inputs on which the readers disagree.

    Typed columns:
    - [Columns], [CompoundColumns] (src/shared/column): the traits as classes, the columns,
      and the laws that compound columns take over from their components.
    - [DynamicVariant] (src/shared/dynamic_variant.rs): rows with types of their own.
    - [AnyColumn] (src/src/column/any.rs, src/src/sync/column/any.rs): columns of a type
      known at run time.
    - [TypedBlocks]: typed values into a block, over the wire, and back.

    Transport:
    - [Chunked] (src/src/sync/chunked.rs), [StreamWrapper] (the asynchronous twin in
      src/src/pool.rs), [Compression] (src/src/sync/compression/mod.rs): the layers between
      socket and packets, each a transport over the one below; [Transport] stacks them, and
      [Boundary] says where a chunked connection stands after a response.

    Protocol and clients:
    - [Handshake] (src/src/sync/protocol/handshake.rs, src/src/protocol/handshake.rs,
      src/shared/ssh_auth.rs): both engines.
    - [QueryPacket] (src/src/sync/query_packet.rs, src/src/connection/query_packet.rs, the
      client information, settings and parameters): both engines.
    - [Response] (src/src/sync/protocol/response_packets.rs): packets of a complete response,
      and [Totality]: that parsing them comes to an end on every input;
      [Packets] (src/src/sync/client.rs, src/src/connection/io.rs): the small packets off a
      stream, both engines; [BlockPackets]: packets with a block.
    - [SyncResponse]: the response loops of src/src/sync/client.rs; [QueryStream],
      [StreamDelivery]: its streaming queries; [Schema] (src/src/schema.rs,
      src/src/sync/schema.rs): table names and schemas; [SyncClient]: its methods;
      [Conversation]: sequences of them with a server.
    - [Pool] (src/src/pool.rs, src/src/error.rs): what each operation of the pool does;
      dialing is a [task], a sequence of critical sections between which other tasks may
      change what they share.  [PoolLifecycle]: the methods of the client that hold a guard
      (src/src/connection: ops.rs, metadata.rs, commands.rs, query_builder.rs, batch.rs,
      block_stream.rs, insert_session.rs) as steps between their await points, and every
      interleaving of them with the pool and with dropped futures.

    Definitions carry the names of the source.  A definition whose name is not in the
    source is a piece of one function (a loop body, a branch, a step of a recursion), or a
    reference that the code is compared with, and its comment says which.

    ** How the code is rendered

    A [Vec<u8>], a slice or a string is a list of bytes.  A [usize], [u64] or [u32] is a [Z]
    in its range: arithmetic that the source checks is checked here with the source's error,
    arithmetic that wraps is taken modulo the width, arithmetic that would overflow
    unchecked is the error [ModelPanic].  [usize] has 64 bits; buffers are at most
    [isize::MAX] long, as Rust guarantees.  [&mut usize] positions, the arena with its
    budget, and the state of readers, streams, connections and the pool are passed
    explicitly.  A [Result] is [result]; messages are kept as format strings with their
    arguments.  An [async fn] that only awaits [read_exact] is a [reader]; an [AsyncRead] is a
    function that may answer [Pending]; time is an integer.

    ** Bounds on recursion

    Structural recursion is a [Fixpoint].  Loops that the data bounds have fuel, and the fuel
    is proved to be enough: eleven steps for a varint (the eleventh byte is refused), the
    length of the buffer for the packet loop (and [packet_loop_terminates] shows that no loop
    below it runs out of its rounds either, on any buffer), one level per
    eight bytes for Dynamic states ([dynamic_recursion_bounded]), one level of a type name
    per call and eight more for the geo types ([NAME_LEVELS]) for the asynchronous readers.
    Loops that only the transport bounds use [deep], which allows [2 ^ h] rounds: [2 ^ 63] for
    loops that take a byte of the stream per round, more than a stream of [isize::MAX] bytes
    can feed, and [2 ^ 27] for the raw column readers, which charge a byte of a 64 MiB budget
    per level.  The error [ModelFuel] marks what would lie beyond; theorems that give the
    result of a reader exclude it.  Loops that need not end (a streaming query on a socket
    that ended) take their rounds as an argument, and that they do not end is a theorem
    ([truncated_response_never_returns]).

    ** What the theorems show

    - Framing: the buffered skipper stays in bounds ([skip_column_data_in_bounds]); stream
      readers copy exactly what it skips ([read_column_records_skipped]), discarding drops
      exactly that ([discard_column_matches_skip]); whole blocks agree
      ([streamed_block_is_buffered], [block_view_is_block], [discard_block_matches_read]).
    - The asynchronous readers: raw blocks are the bytes of the wire ([raw_block_is_wire]),
      recorded as the blocking engine records them ([raw_columns_alike]); decoded columns are
      those of a reference ([async_column_reference]) and written blocks come back
      ([async_block_roundtrip]).
    - Round trips: strings, type names, blocks, compressed packets, frames
      ([read_write_string], [parse_type_display], [write_block_roundtrip],
      [compressed_packet_roundtrip], [frame_roundtrip]); exact capacities ([capacity_exact]).
    - Typed columns: what is written is read back ([typed_columns_roundtrip],
      [typed_block_roundtrip]), columns have the type that is declared
      ([any_column_well_typed]), Dynamic and Variant values are delimited as the framing
      delimits them and refused exactly for strings that are not UTF-8
      ([decode_follows_framing], [variant_rows_decoded]).
    - Layers: the chunked and the decompressing reader are transparent for every reader
      over every transport ([chunked_reader_transparent],
      [decompressing_reader_transparent], [async_chunking_transparent]), interrupted reads
      lose nothing ([interrupted_reads_lose_nothing]), what the frame decoder accepts is
      bounded and checked ([decode_frame_sound]), and the layers compose
      ([block_through_transport]).
    - Handshake and queries: the handshake agrees with the server on a revision
      ([handshake_establishes]) and a query packet says what it is meant to say
      ([query_packet_understood]); the engines send the same bytes ([engines_connect_alike],
      [engines_send_same_query]).
    - Responses: a response means what its packets mean, buffered ([parse_response_correct]),
      read off the connection ([response_read_exactly], [response_loops_agree]) and streamed
      ([stream_delivers]); server errors surface ([exception_packet_surfaces]).
    - The client: a query gets its answer ([query_answered]), a sequence of them stays in step
      ([conversation_in_step]), an insert follows the protocol ([insert_protocol]), and an
      oversized response leaves a usable connection ([budget_breach_recovers]).
    - Pool: a working server is found while other tasks leave it alone
      ([connect_reaches_live_address]), the bounds of the circuit breaker hold at every moment
      ([breaker_invariant]), the outcome of [get] on every path, no connection in the middle
      of an exchange in an idle slot, whatever futures are dropped and with three exceptions
      that are shown to be real ([idle_connections_clean]), the metric of connections in use.
    - Flaws, each proved on an input, at the end of the file of their component and in
      [Divergences]: type arguments that are lost, readers that disagree, a panic that a
      type name triggers, slots poisoned by a protocol error, a resumed stream or a dropped
      Ping, an address list that shrinks under a loop, a stream that never ends.

    Each theorem's comment states its scope.  Three conditions recur: [wf_block] (and with it
    [wf_packet]) asks that the columns of a block are of types whose bytes are stored as they
    are sent ([verbatim]: no LowCardinality, JSON or Dynamic); [discardable_packet] that the
    discarding reader supports them (no Nothing, Variant or Dynamic); and the clock stays
    before the deadline of the response.

    ** What is not modelled

    CityHash128, LZ4 and ZSTD are third-party code: parameters, with their documented
    behaviour as laws, which a concrete instance satisfies; so is the signature of an SSH key.
    The socket, TLS, DNS, the clock and the runtimes are interfaces.  Not modelled: the
    decompressing stream and the packet loops of the asynchronous engine (src/src/connection),
    which depend on timeouts of the runtime and on callbacks; its cursor and builders, which
    pass blocks and arguments on; and how a socket is opened and configured.  The row traits
    and derive macros, the Python bindings and the test programs are outside the
    development. *)

From Stdlib Require Import String ZArith Lia Bool List.
From Stdlib Require Import Strings.Byte.
From coqutil Require Import Byte Word.LittleEndianList.
Import ListNotations.

Open Scope Z_scope.
Open Scope list_scope.

(** Split conjunctions, and nothing else. *)
Ltac conj := repeat match goal with |- _ /\ _ => split end.

(** ** Byte strings

    A Rust [&[u8]], [Vec<u8>], [bytes::Bytes] and the UTF-8 payload of a
    [String] or [&str] are all lists of bytes.  [str "..."] is a byte-string
    literal. *)
Abbreviation bytes := (list Init.Byte.byte).

Definition str (s : string) : bytes := list_byte_of_string s.

Fixpoint bytes_eqb (a b : bytes) : bool :=
  match a, b with
  | [], [] => true
  | x :: a', y :: b' => Byte.eqb x y && bytes_eqb a' b'
  | _, _ => false
  end.

Lemma bytes_eqb_eq a b : bytes_eqb a b = true <-> a = b.
Proof.
  revert b; induction a as [|x a IH]; destruct b as [|y b]; cbn; split; intros H;
    try discriminate; auto.
  - apply andb_prop in H as [H1 H2].
    f_equal; [now apply byte_dec_bl | now apply IH].
  - injection H as -> ->. apply andb_true_intro; split.
    + now apply byte_dec_lb.
    + now apply IH.
Qed.

Lemma bytes_eqb_refl a : bytes_eqb a a = true.
Proof. now apply bytes_eqb_eq. Qed.

Lemma bytes_eqb_spec a b : BoolSpec (a = b) (a <> b) (bytes_eqb a b).
Proof.
  destruct (bytes_eqb a b) eqn:E; constructor.
  - now apply bytes_eqb_eq.
  - intros ->. now rewrite bytes_eqb_refl in E.
Qed.

(** [blen] is [slice::len] as an unbounded integer. *)
Definition blen {A} (l : list A) : Z := Z.of_nat (length l).

Lemma blen_nonneg {A} (l : list A) : 0 <= blen l.
Proof. unfold blen; lia. Qed.

Lemma blen_app {A} (a b : list A) : blen (a ++ b) = blen a + blen b.
Proof. unfold blen. rewrite length_app. lia. Qed.

Lemma blen_cons {A} (x : A) l : blen (x :: l) = 1 + blen l.
Proof. unfold blen. cbn [length]. lia. Qed.

Lemma blen_nil {A} : blen (@nil A) = 0.
Proof. reflexivity. Qed.

Lemma blen_zero {A} (l : list A) : blen l = 0 -> l = [].
Proof. destruct l; [reflexivity|]. rewrite blen_cons. pose proof (blen_nonneg l). lia. Qed.

(** [take n l] and [drop n l] are [&l[..n]] and [&l[n..]] for [0 <= n <= len];
    [slice l a b] is [&l[a..b]]. *)
Definition take {A} (n : Z) (l : list A) : list A := firstn (Z.to_nat n) l.
Definition drop {A} (n : Z) (l : list A) : list A := skipn (Z.to_nat n) l.
Definition slice {A} (l : list A) (a b : Z) : list A := take (b - a) (drop a l).

Lemma blen_take {A} n (l : list A) : 0 <= n <= blen l -> blen (take n l) = n.
Proof. unfold blen, take. rewrite length_firstn. lia. Qed.

Lemma blen_drop {A} n (l : list A) : 0 <= n <= blen l -> blen (drop n l) = blen l - n.
Proof. unfold blen, drop. rewrite length_skipn. lia. Qed.

Lemma take_drop {A} n (l : list A) : take n l ++ drop n l = l.
Proof. apply firstn_skipn. Qed.

Lemma take_0 {A} (l : list A) : take 0 l = [].
Proof. reflexivity. Qed.

Lemma drop_0 {A} (l : list A) : drop 0 l = l.
Proof. reflexivity. Qed.

Lemma drop_drop {A} a b (l : list A) : 0 <= a -> 0 <= b -> drop a (drop b l) = drop (a + b) l.
Proof.
  intros. unfold drop. rewrite skipn_skipn. f_equal. lia.
Qed.

Lemma take_app_exact {A} (a b : list A) : take (blen a) (a ++ b) = a.
Proof.
  unfold take, blen. rewrite Nat2Z.id, firstn_app, Nat.sub_diag, firstn_all. cbn.
  apply app_nil_r.
Qed.

Lemma drop_app_exact {A} (a b : list A) : drop (blen a) (a ++ b) = b.
Proof.
  unfold drop, blen. rewrite Nat2Z.id, skipn_app, Nat.sub_diag, skipn_all. reflexivity.
Qed.

Lemma take_app_len {A} n (a b : list A) : blen a = n -> take n (a ++ b) = a.
Proof. intros <-. apply take_app_exact. Qed.

Lemma drop_app_len {A} n (a b : list A) : blen a = n -> drop n (a ++ b) = b.
Proof. intros <-. apply drop_app_exact. Qed.

Lemma take_app_ge {A} n (a b : list A) : blen a <= n -> take n (a ++ b) = a ++ take (n - blen a) b.
Proof.
  unfold take, blen. intros Hn. rewrite firstn_app, firstn_all2 by lia. do 2 f_equal. lia.
Qed.

Lemma drop_app_ge {A} n (a b : list A) : blen a <= n -> drop n (a ++ b) = drop (n - blen a) b.
Proof.
  unfold drop, blen. intros Hn. rewrite skipn_app, skipn_all2 by lia. cbn [app]. f_equal. lia.
Qed.

Lemma drop_app_le {A} n (a b : list A) : n <= blen a -> drop n (a ++ b) = drop n a ++ b.
Proof.
  unfold drop, blen. intros Hn. rewrite skipn_app.
  now replace (Z.to_nat n - length a)%nat with 0%nat by lia.
Qed.

Lemma drop_take {A} n k (l : list A) : 0 <= n <= k -> drop n (take k l) = take (k - n) (drop n l).
Proof.
  intros Hn. unfold drop, take. rewrite skipn_firstn_comm. f_equal. lia.
Qed.

Lemma drop_all {A} (l : list A) : drop (blen l) l = [].
Proof. unfold drop, blen. rewrite Nat2Z.id. apply skipn_all. Qed.

Lemma take_all {A} (l : list A) : take (blen l) l = l.
Proof. unfold take, blen. rewrite Nat2Z.id. apply firstn_all. Qed.

Lemma blen_slice {A} (l : list A) a b :
  0 <= a <= b -> b <= blen l -> blen (slice l a b) = b - a.
Proof. intros. unfold slice. apply blen_take. rewrite blen_drop; lia. Qed.

Lemma drop_past {A} n (l : list A) : blen l <= n -> drop n l = [].
Proof. unfold blen, drop. intros. apply skipn_all2. lia. Qed.

Lemma slice_nil {A} (l : list A) a : slice l a a = [].
Proof. unfold slice. now rewrite Z.sub_diag. Qed.

Lemma slice_app {A} (l : list A) a b c :
  0 <= a <= b -> b <= c -> slice l a b ++ slice l b c = slice l a c.
Proof.
  intros Hab Hbc. unfold slice, take, drop.
  replace (Z.to_nat b) with (Z.to_nat (b - a) + Z.to_nat a)%nat by lia.
  rewrite <- skipn_skipn.
  generalize (skipn (Z.to_nat a) l); intros m.
  replace (Z.to_nat (c - a)) with (Z.to_nat (b - a) + Z.to_nat (c - b))%nat by lia.
  generalize (Z.to_nat (b - a)) (Z.to_nat (c - b)); clear; intros i j.
  revert m; induction i as [|i IH]; intros [|x m]; cbn; try reflexivity.
  - now rewrite !firstn_nil.
  - f_equal. apply IH.
Qed.

Lemma slice_drop {A} (l : list A) a b : 0 <= a <= b -> slice l a b ++ drop b l = drop a l.
Proof.
  intros. unfold slice. rewrite <- (take_drop (b - a) (drop a l)) at 2. f_equal.
  rewrite drop_drop by lia. f_equal. lia.
Qed.

(** ** Machine integers

    [usize] is the 64-bit target's; [u64 -> usize] conversions therefore always
    succeed, and are written with [usize_try_from] as in the code. *)
Definition U8_MAX : Z := 255.
Definition U16_MAX : Z := 2 ^ 16 - 1.
Definition U32_MAX : Z := 2 ^ 32 - 1.
Definition U64_MAX : Z := 2 ^ 64 - 1.
Definition USIZE_MAX : Z := 2 ^ 64 - 1.

(** No slice or vector holds more than [isize::MAX] bytes. *)
Definition ISIZE_MAX : Z := 2 ^ 63 - 1.

(** [a << s] on [u64]. *)
Definition u64_shl (a s : Z) : Z := Z.shiftl a s mod 2 ^ 64.

(** [usize::checked_add], [usize::checked_mul], [usize::checked_sub]. *)
Definition checked_add (a b : Z) : option Z :=
  if a + b <=? USIZE_MAX then Some (a + b) else None.

Definition checked_mul (a b : Z) : option Z :=
  if a * b <=? USIZE_MAX then Some (a * b) else None.

Definition checked_sub (a b : Z) : option Z :=
  if b <=? a then Some (a - b) else None.

(** [usize::try_from(v : u64)], [u32::try_from], [u16::try_from], [u8::try_from]. *)
Definition try_from_max (max v : Z) : option Z := if v <=? max then Some v else None.
Definition usize_try_from (v : Z) : option Z := try_from_max USIZE_MAX v.
Definition u32_try_from (v : Z) : option Z := try_from_max U32_MAX v.

(** Little-endian integers of [n] bytes. *)
Definition from_le (bs : bytes) : Z := le_combine bs.
Definition to_le (n : nat) (z : Z) : bytes := le_split n z.

(** [i32::from_le_bytes] and [i32::to_le_bytes]. *)
Definition i32_of_u32 (u : Z) : Z := if u <? 2 ^ 31 then u else u - 2 ^ 32.
Definition i32_from_le (bs : bytes) : Z := i32_of_u32 (from_le bs).
Definition i32_to_le (z : Z) : bytes := to_le 4 z.

Lemma blen_to_le n z : blen (to_le n z) = Z.of_nat n.
Proof. unfold blen, to_le. now rewrite length_le_split. Qed.

Lemma from_to_le n z : 0 <= z < 2 ^ (8 * Z.of_nat n) -> from_le (to_le n z) = z.
Proof.
  intros. unfold from_le, to_le. rewrite le_combine_split. apply Z.mod_small.
  now rewrite Z.mul_comm.
Qed.

Lemma to_from_le bs : to_le (length bs) (from_le bs) = bs.
Proof. apply split_le_combine. Qed.

Lemma from_le_bound bs : 0 <= from_le bs < 2 ^ (8 * blen bs).
Proof. apply le_combine_bound. Qed.

Lemma i32_from_to_le z : - 2 ^ 31 <= z < 2 ^ 31 -> i32_from_le (i32_to_le z) = z.
Proof.
  intros Hz. unfold i32_from_le, i32_to_le, from_le, to_le.
  rewrite le_combine_split. change (2 ^ (Z.of_nat 4 * 8)) with (2 ^ 32).
  unfold i32_of_u32.
  destruct (Z.leb_spec 0 z).
  - rewrite Z.mod_small by lia. destruct (Z.ltb_spec z (2 ^ 31)); lia.
  - replace (z mod 2 ^ 32) with (z + 2 ^ 32).
    + destruct (Z.ltb_spec (z + 2 ^ 32) (2 ^ 31)); lia.
    + rewrite <- (Z.mod_add z 1) by lia. rewrite Z.mod_small; lia.
Qed.

(** ** Errors and results

    A formatted message is kept as its format string and its arguments.  The
    two [Model*] constructors are not values of the Rust enum: [ModelFuel] says
    that a definition's recursion bound was too small, [ModelPanic] that the
    Rust expression panics. *)
Inductive message :=
| Msg (fmt : string) (args : list arg)
with arg :=
| AZ (z : Z)
| AS (s : bytes)
| AM (m : message).

Inductive io_kind :=
| UnexpectedEof
| InvalidData (m : message)
| TimedOut (m : message)
| WouldBlock (m : message).

Inductive error :=
| Protocol (m : message)
| Io (k : io_kind)
| Compression (m : message)
| Authentication (m : message)
| ServerError (code : Z) (name : bytes) (msg : bytes)
| Timeout (m : message)
| Config (m : message)
| ResponseTooLarge (limit received : Z)
| ModelFuel
| ModelPanic.

Definition msg (s : string) : message := Msg s [].

Inductive result (E A : Type) : Type :=
| Ok (a : A)
| Err (e : E).
Arguments Ok {E A} a.
Arguments Err {E A} e.

Definition is_ok {E A} (r : result E A) : bool :=
  match r with Ok _ => true | Err _ => false end.

Definition map_err {E F A} (f : E -> F) (r : result E A) : result F A :=
  match r with Ok a => Ok a | Err e => Err (f e) end.

Definition ok_or {E A} (o : option A) (e : E) : result E A :=
  match o with Some a => Ok a | None => Err e end.

Lemma ok_or_inv {E A} (o : option A) (e : E) a : ok_or o e = Ok a -> o = Some a.
Proof. destruct o; cbn; congruence. Qed.

(** ** Monads

    One notation for the monads of the development: [result E], the buffer
    parsers, the readers and the arena readers. *)
Class Monad (M : Type -> Type) := {
  ret : forall {A}, A -> M A;
  bind : forall {A B}, M A -> (A -> M B) -> M B;
}.

Declare Scope monad_scope.
Delimit Scope monad_scope with monad.
Notation "'let*' x ':=' c 'in' k" := (bind c (fun x => k))
  (at level 10, x pattern, c at level 100, k at level 200) : monad_scope.
Notation "c ;; k" := (bind c (fun _ => k))
  (at level 100, k at level 200, right associativity) : monad_scope.
Open Scope monad_scope.

#[export] Instance option_monad : Monad option := {
  ret A a := Some a;
  bind A B m f := match m with Some a => f a | None => None end;
}.

#[export] Instance result_monad E : Monad (result E) := {
  ret A a := Ok a;
  bind A B m f := match m with Ok a => f a | Err e => Err e end;
}.

Lemma result_bind_inv {E A B} (m : result E A) (f : A -> result E B) b :
  bind m f = Ok b -> exists a, m = Ok a /\ f a = Ok b.
Proof. destruct m; cbn; [eauto | discriminate]. Qed.

(** A loop [for _ in 0..n] whose body is a monadic action. *)
Fixpoint repeat_n {M} `{Monad M} (n : nat) (body : M unit) : M unit :=
  match n with
  | O => ret tt
  | S n => body ;; repeat_n n body
  end.

(** A loop [for x in l] that runs an action for each element. *)
Definition for_each {M} `{Monad M} {A} (l : list A) (body : A -> M unit) : M unit :=
  (fix for_each (l : list A) : M unit :=
     match l with
     | [] => ret tt
     | x :: l => body x ;; for_each l
     end) l.

Lemma for_each_cons {M} `{Monad M} {A} x (l : list A) (body : A -> M unit) :
  for_each (x :: l) body = (body x ;; for_each l body).
Proof. reflexivity. Qed.

(** A loop that pushes one result per iteration. *)
Fixpoint collect_n {M} `{Monad M} {A} (n : nat) (body : M A) : M (list A) :=
  match n with
  | O => ret []
  | S n => let* x := body in let* xs := collect_n n body in ret (x :: xs)
  end.

(** A loop that pushes one result per element of [l]. *)
Definition map_each {M} `{Monad M} {A B} (l : list A) (body : A -> M B) : M (list B) :=
  (fix map_each (l : list A) : M (list B) :=
     match l with
     | [] => ret []
     | x :: l => let* y := body x in let* ys := map_each l in ret (y :: ys)
     end) l.

Lemma map_each_cons {M} `{Monad M} {A B} x (l : list A) (body : A -> M B) :
  map_each (x :: l) body =
  (let* y := body x in let* ys := map_each l body in ret (y :: ys)).
Proof. reflexivity. Qed.

(** ** Deep recursion

    [deep h step bottom] unfolds [step] [2 ^ h] times around [bottom]; each
    unfolding is delayed until the recursive call is made, so that a bound far
    beyond what a run can reach costs nothing. *)
Fixpoint deep {A R} (h : nat) (step : (A -> R) -> A -> R) (bottom : A -> R) : A -> R :=
  match h with
  | O => step bottom
  | S h => deep h step (fun a => deep h step bottom a)
  end.

Lemma deep_ind {A R} (step : (A -> R) -> A -> R) (P : Z -> (A -> R) -> Prop) :
  (forall n f, P n f -> P (n + 1) (step f)) ->
  forall h n f, P n f -> P (n + 2 ^ Z.of_nat h) (deep h step f).
Proof.
  intros Hstep. induction h as [|h IH]; intros n f H; [now apply Hstep|].
  rewrite Nat2Z.inj_succ, Z.pow_succ_r, <- Z.add_diag, Z.add_assoc by lia. now apply IH, IH.
Qed.

(** Two bounded recursions whose steps keep a relation are related. *)
Lemma deep_related {A B B'} (P : (A -> B) -> (A -> B') -> Prop) step step' :
  (forall f g, P f g -> P (step f) (step' g)) ->
  forall h f g, P f g -> P (deep h step f) (deep h step' g).
Proof. intros Hs. induction h as [|h IH]; intros f g Hfg; [now apply Hs|]. cbn [deep]. now apply IH, IH. Qed.


Lemma usize_try_from_nonneg v n : 0 <= v -> usize_try_from v = Some n -> 0 <= n.
Proof. unfold usize_try_from, try_from_max. intros Hv E. destruct (_ <=? _); [now injection E as <-|discriminate]. Qed.

(** ** Automation *)
Create HintDb wire discriminated.
Create Rewrite HintDb blen.

#[export] Hint Rewrite @blen_app @blen_cons @blen_nil @blen_to_le : blen.

(** Split the boolean comparisons of the goal and of the context. *)
Ltac bool_cases :=
  repeat match goal with
  | |- context [if ?a <? ?b then _ else _] => destruct (Z.ltb_spec a b)
  | |- context [if ?a <=? ?b then _ else _] => destruct (Z.leb_spec a b)
  | |- context [if ?a =? ?b then _ else _] => destruct (Z.eqb_spec a b)
  | H : context [if ?a <? ?b then _ else _] |- _ => destruct (Z.ltb_spec a b)
  | H : context [if ?a <=? ?b then _ else _] |- _ => destruct (Z.leb_spec a b)
  | H : context [if ?a =? ?b then _ else _] |- _ => destruct (Z.eqb_spec a b)
  end.

Lemma Ok_inj {E A} (a b : A) : Ok (E := E) a = Ok b -> a = b.
Proof. congruence. Qed.

Lemma Some_inj {A} (a b : A) : Some a = Some b -> a = b.
Proof. congruence. Qed.

(** Turn equations between constructors into equations between arguments (with
    lemmas rather than [injection], which would reduce the arguments). *)
Ltac inj :=
  repeat match goal with
  | H : Ok _ = Ok _ |- _ => apply Ok_inj in H; try subst
  | H : Some _ = Some _ |- _ => apply Some_inj in H; try subst
  | H : (_, _) = (_, _) |- _ => apply pair_equal_spec in H as [? ?]; try subst
  | H : Ok _ = Err _ |- _ => discriminate H
  | H : Err _ = Ok _ |- _ => discriminate H
  | H : Some _ = None |- _ => discriminate H
  | H : None = Some _ |- _ => discriminate H
  end.

Lemma checked_add_inv a b c : checked_add a b = Some c -> c = a + b /\ a + b <= USIZE_MAX.
Proof. unfold checked_add. bool_cases; intros; inj; lia. Qed.

Lemma checked_mul_inv a b c : checked_mul a b = Some c -> c = a * b /\ a * b <= USIZE_MAX.
Proof. unfold checked_mul. bool_cases; intros; inj; lia. Qed.

Lemma checked_sub_inv a b c : checked_sub a b = Some c -> c = a - b /\ b <= a.
Proof. unfold checked_sub. bool_cases; intros; inj; lia. Qed.

Lemma map_err_inv {E F A} (f : E -> F) (r : result E A) a : map_err f r = Ok a -> r = Ok a.
Proof. destruct r; cbn; intros; inj; auto; discriminate. Qed.
