(* ===== verification/Revision.v ===== *)
(** * Protocol revisions and packet codes ([shared/protocol_revision.rs], [shared/packet.rs])

    The revisions from which a field is on the wire, the range of revisions the client
    accepts for itself, and the codes of the packets in both directions. *)

From Stdlib Require Import String ZArith Lia Bool List.
From S2P Require Import Prelude.
Import ListNotations.

Definition DBMS_MIN_REVISION_WITH_CLIENT_INFO : Z := 54032.
Definition DBMS_MIN_REVISION_WITH_SERVER_TIMEZONE : Z := 54058.
Definition DBMS_MIN_REVISION_WITH_QUOTA_KEY_IN_CLIENT_INFO : Z := 54060.
Definition DBMS_MIN_REVISION_WITH_SERVER_DISPLAY_NAME : Z := 54372.
Definition DBMS_MIN_REVISION_WITH_VERSION_PATCH : Z := 54401.
Definition DBMS_MIN_REVISION_WITH_CLIENT_WRITE_INFO : Z := 54420.
Definition DBMS_MIN_REVISION_WITH_SETTINGS_SERIALIZED_AS_STRINGS : Z := 54429.
Definition DBMS_MIN_REVISION_WITH_INTERSERVER_SECRET : Z := 54441.
Definition DBMS_MIN_REVISION_WITH_OPENTELEMETRY : Z := 54442.
Definition DBMS_MIN_REVISION_WITH_DISTRIBUTED_DEPTH : Z := 54448.
Definition DBMS_MIN_REVISION_WITH_INITIAL_QUERY_START_TIME : Z := 54449.
Definition DBMS_MIN_REVISION_WITH_PARALLEL_REPLICAS : Z := 54453.
Definition DBMS_MIN_PROTOCOL_VERSION_WITH_ADDENDUM : Z := 54458.
Definition DBMS_MIN_PROTOCOL_VERSION_WITH_PARAMETERS : Z := 54459.
Definition DBMS_MIN_PROTOCOL_VERSION_WITH_SERVER_QUERY_TIME_IN_PROGRESS : Z := 54460.
Definition DBMS_MIN_PROTOCOL_VERSION_WITH_PASSWORD_COMPLEXITY_RULES : Z := 54461.
Definition DBMS_MIN_REVISION_WITH_INTERSERVER_SECRET_V2 : Z := 54462.
Definition DBMS_MIN_PROTOCOL_VERSION_WITH_TOTAL_BYTES_IN_PROGRESS : Z := 54463.
Definition DBMS_MIN_PROTOCOL_VERSION_WITH_TIMEZONE_UPDATES : Z := 54464.
Definition DBMS_MIN_REVISION_WITH_SPARSE_SERIALIZATION : Z := 54465.
Definition DBMS_MIN_REVISION_WITH_SSH_AUTHENTICATION : Z := 54466.
Definition DBMS_MIN_REVISION_WITH_TABLES_STATUS : Z := 54226.
Definition DBMS_MIN_REVISION_WITH_TABLE_READ_ONLY_CHECK : Z := 54467.
Definition DBMS_MIN_REVISION_WITH_ROWS_BEFORE_AGGREGATION : Z := 54469.
Definition DBMS_MIN_PROTOCOL_VERSION_WITH_CHUNKED_PACKETS : Z := 54470.
Definition DBMS_MIN_REVISION_WITH_VERSIONED_PARALLEL_REPLICAS_PROTOCOL : Z := 54471.
Definition DBMS_MIN_PROTOCOL_VERSION_WITH_INTERSERVER_EXTERNALLY_GRANTED_ROLES : Z := 54472.
Definition DBMS_MIN_REVISION_WITH_V2_DYNAMIC_AND_JSON_SERIALIZATION : Z := 54473.
Definition DBMS_MIN_REVISION_WITH_SERVER_SETTINGS : Z := 54474.
Definition DBMS_MIN_REVISION_WITH_QUERY_AND_LINE_NUMBERS : Z := 54475.
Definition DBMS_MIN_REVISION_WITH_JWT_IN_INTERSERVER : Z := 54476.
Definition DBMS_MIN_REVISION_WITH_QUERY_PLAN_SERIALIZATION : Z := 54477.
Definition DBMS_MIN_REVISION_WITH_PARALLEL_BLOCK_MARSHALLING : Z := 54478.
Definition DBMS_MIN_REVISION_WITH_VERSIONED_CLUSTER_FUNCTION_PROTOCOL : Z := 54479.
Definition DBMS_MIN_REVISION_WITH_OUT_OF_ORDER_BUCKETS_IN_AGGREGATION : Z := 54480.
Definition DBMS_MIN_REVISION_WITH_COMPRESSED_LOGS_PROFILE_EVENTS_COLUMNS : Z := 54481.
Definition DBMS_MIN_REVISION_WITH_REPLICATED_SERIALIZATION : Z := 54482.
Definition DBMS_MIN_REVISION_WITH_NULLABLE_SPARSE_SERIALIZATION : Z := 54483.
Definition DBMS_PARALLEL_REPLICAS_PROTOCOL_VERSION : Z := 7.
Definition DBMS_CLUSTER_PROCESSING_PROTOCOL_VERSION : Z := 6.
Definition DEFAULT_PROTOCOL_REVISION : Z := DBMS_MIN_REVISION_WITH_NULLABLE_SPARSE_SERIALIZATION.
Definition MIN_SUPPORTED_PROTOCOL_REVISION : Z := DBMS_MIN_PROTOCOL_VERSION_WITH_PARAMETERS.
Definition MAX_SUPPORTED_PROTOCOL_REVISION : Z := DBMS_MIN_REVISION_WITH_NULLABLE_SPARSE_SERIALIZATION.

Definition effective_revision (client_revision server_revision : Z) : Z :=
  Z.min client_revision server_revision.

Definition validate_supported_revision (revision : Z) : result message unit :=
  if revision <? MIN_SUPPORTED_PROTOCOL_REVISION
  then Err (Msg "protocol revision {revision} is below the supported minimum {MIN_SUPPORTED_PROTOCOL_REVISION}"
                [AZ revision; AZ MIN_SUPPORTED_PROTOCOL_REVISION])
  else if MAX_SUPPORTED_PROTOCOL_REVISION <? revision
  then Err (Msg "protocol revision {revision} is not enabled; max supported is {MAX_SUPPORTED_PROTOCOL_REVISION}"
                [AZ revision; AZ MAX_SUPPORTED_PROTOCOL_REVISION])
  else Ok tt.

(** ** Packet codes *)

Module ServerPacket.
Inductive t :=
| Hello
| Data
| Exception
| Progress
| Pong
| EndOfStream
| ProfileInfo
| Totals
| Extremes
| TablesStatusResponse
| Log
| TableColumns
| PartUUIDs
| ReadTaskRequest
| ProfileEvents
| MergeTreeAllRangesAnnouncement
| MergeTreeReadTaskRequest
| TimezoneUpdate
| SSHChallenge.

(** [self as u64] *)
Definition code (p : t) : Z :=
  match p with
  | Hello => 0
  | Data => 1
  | Exception => 2
  | Progress => 3
  | Pong => 4
  | EndOfStream => 5
  | ProfileInfo => 6
  | Totals => 7
  | Extremes => 8
  | TablesStatusResponse => 9
  | Log => 10
  | TableColumns => 11
  | PartUUIDs => 12
  | ReadTaskRequest => 13
  | ProfileEvents => 14
  | MergeTreeAllRangesAnnouncement => 15
  | MergeTreeReadTaskRequest => 16
  | TimezoneUpdate => 17
  | SSHChallenge => 18
  end.

Definition from_u64 (code : Z) : result error t :=
  match code with
  | 0 => Ok Hello
  | 1 => Ok Data
  | 2 => Ok Exception
  | 3 => Ok Progress
  | 4 => Ok Pong
  | 5 => Ok EndOfStream
  | 6 => Ok ProfileInfo
  | 7 => Ok Totals
  | 8 => Ok Extremes
  | 9 => Ok TablesStatusResponse
  | 10 => Ok Log
  | 11 => Ok TableColumns
  | 12 => Ok PartUUIDs
  | 13 => Ok ReadTaskRequest
  | 14 => Ok ProfileEvents
  | 15 => Ok MergeTreeAllRangesAnnouncement
  | 16 => Ok MergeTreeReadTaskRequest
  | 17 => Ok TimezoneUpdate
  | 18 => Ok SSHChallenge
  | _ => Err (Protocol (Msg "unknown server packet: {code}" [AZ code]))
  end.
End ServerPacket.

Module ClientPacket.
Inductive t :=
| Hello
| Query
| Data
| Cancel
| Ping
| TablesStatusRequest
| KeepAlive
| Scalar
| IgnoredPartUUIDs
| ReadTaskResponse
| MergeTreeReadTaskResponse
| SSHChallengeRequest
| SSHChallengeResponse
| QueryPlan.

Definition code (p : t) : Z :=
  match p with
  | Hello => 0
  | Query => 1
  | Data => 2
  | Cancel => 3
  | Ping => 4
  | TablesStatusRequest => 5
  | KeepAlive => 6
  | Scalar => 7
  | IgnoredPartUUIDs => 8
  | ReadTaskResponse => 9
  | MergeTreeReadTaskResponse => 10
  | SSHChallengeRequest => 11
  | SSHChallengeResponse => 12
  | QueryPlan => 13
  end.
End ClientPacket.

Lemma validate_supported_revision_ok revision :
  validate_supported_revision revision = Ok tt <->
  MIN_SUPPORTED_PROTOCOL_REVISION <= revision <= MAX_SUPPORTED_PROTOCOL_REVISION.
Proof. unfold validate_supported_revision. bool_cases; split; intros; try discriminate; try lia; reflexivity. Qed.

Lemma server_packet_roundtrip code p : ServerPacket.from_u64 code = Ok p <-> ServerPacket.code p = code.
Proof.
  split; [|intros <-; now destruct p].
  unfold ServerPacket.from_u64. intros H.
  repeat match type of H with context [match ?x with _ => _ end] => destruct x end;
    inj; try discriminate; reflexivity.
Qed.
