(* ===== verification/Reader.v ===== *)
(** * Buffer parsers, stream readers and the [Read] interface

    - [parser] models the functions over [(buf: &[u8], pos: &mut usize)];
    - [reader] models the functions over [reader: &mut R where R: Read]; such a
      function only ever calls [read_exact], so it is a tree of [read_exact]
      calls, independent of the transport;
    - [Read] is the [std::io::Read] trait, [read_exact] std's loop over [read],
      [exec] runs a [reader] on any implementation, and [run] runs it on a plain
      byte list;
    - [ReadLaws] is what a transport promises: which bytes it still serves and
      how it ends.  [exec_run] discharges, once for all readers, that running
      over a lawful transport is running over the bytes it serves. *)

From Stdlib Require Import String ZArith Lia Bool List Morphisms RelationClasses.
From S2P Require Import Prelude.
Import ListNotations.

(** ** Computations that can fail with an [Error] *)
Class MonadResult (M : Type -> Type) := lift : forall {A}, result error A -> M A.

#[export] Instance result_lift : MonadResult (result error) := fun A r => r.

Definition throw {M} `{MonadResult M} {A} (e : error) : M A := lift (Err e).

(** [Err(String)] results of [limits.rs] are mapped to [Error::Protocol]. *)
Definition protocol {A} (r : result message A) : result error A := map_err Protocol r.

(** ** Buffer parsers *)
Definition parser (A : Type) : Type := bytes -> Z -> result error (A * Z).

#[export] Instance parser_monad : Monad parser := {
  ret A a := fun buf pos => Ok (a, pos);
  bind A B m f := fun buf pos =>
    match m buf pos with
    | Ok (a, pos') => f a buf pos'
    | Err e => Err e
    end;
}.

#[export] Instance parser_lift : MonadResult parser :=
  fun A r buf pos => match r with Ok a => Ok (a, pos) | Err e => Err e end.

(** The current value of [*pos]. *)
Definition get_pos : parser Z := fun buf pos => Ok (pos, pos).

(** The whole buffer, for the slices [&buf[a..b]] of bytes already skipped. *)
Definition get_slice (a b : Z) : parser bytes := fun buf pos => Ok (slice buf a b, pos).

Lemma parser_bind_inv {A B} (m : parser A) (f : A -> parser B) buf pos r :
  bind m f buf pos = Ok r ->
  exists a pos', m buf pos = Ok (a, pos') /\ f a buf pos' = Ok r.
Proof.
  cbn. destruct (m buf pos) as [[a p]|e] eqn:E; [|discriminate].
  intros H. exists a, p. now rewrite H.
Qed.

Lemma parser_bind_ok {A B} (m : parser A) (f : A -> parser B) buf pos a pos' :
  m buf pos = Ok (a, pos') -> bind m f buf pos = f a buf pos'.
Proof. cbn. now intros ->. Qed.

Lemma parser_lift_inv {A} (r : result error A) buf pos a pos' :
  lift (M := parser) r buf pos = Ok (a, pos') -> r = Ok a /\ pos' = pos.
Proof. unfold lift, parser_lift. destruct r; intros; inj; auto. Qed.

(** ** Stream readers *)
Inductive reader (A : Type) : Type :=
| RRet (a : A)
| RFail (e : error)
| RRead (n : Z) (k : bytes -> reader A).
Arguments RRet {A} a.
Arguments RFail {A} e.
Arguments RRead {A} n k.

Fixpoint rbind {A B} (m : reader A) (f : A -> reader B) : reader B :=
  match m with
  | RRet a => f a
  | RFail e => RFail e
  | RRead n k => RRead n (fun bs => rbind (k bs) f)
  end.

#[export] Instance reader_monad : Monad reader := { ret A a := RRet a; bind A B := rbind }.

#[export] Instance reader_lift : MonadResult reader :=
  fun A r => match r with Ok a => RRet a | Err e => RFail e end.

(** [reader.read_exact(&mut buf[..n])?] *)
Definition read_exact_r (n : Z) : reader bytes := RRead n RRet.

(** Running a reader on the bytes [l] of a stream that then fails with [eof]. *)
Fixpoint run_with {A} (eof : error) (m : reader A) (l : bytes) : result error (A * bytes) :=
  match m with
  | RRet a => Ok (a, l)
  | RFail e => Err e
  | RRead n k =>
      if n <=? blen l then run_with eof (k (take n l)) (drop n l) else Err eof
  end.

Definition run {A} (m : reader A) (l : bytes) : result error (A * bytes) :=
  run_with (Io UnexpectedEof) m l.

Lemma run_with_bind {A B} eof (m : reader A) (f : A -> reader B) l :
  run_with eof (bind m f) l =
  match run_with eof m l with
  | Ok (a, l') => run_with eof (f a) l'
  | Err e => Err e
  end.
Proof.
  revert l; induction m as [a|e|n k IH]; intros l; cbn; auto.
  now destruct (n <=? blen l).
Qed.

Lemma run_bind {A B} (m : reader A) (f : A -> reader B) l :
  run (bind m f) l =
  match run m l with
  | Ok (a, l') => run (f a) l'
  | Err e => Err e
  end.
Proof. apply run_with_bind. Qed.

Lemma run_bind_inv {A B} (m : reader A) (f : A -> reader B) l r :
  run (bind m f) l = Ok r ->
  exists a l', run m l = Ok (a, l') /\ run (f a) l' = Ok r.
Proof.
  rewrite run_bind. destruct (run m l) as [[a l']|e]; [eauto | discriminate].
Qed.

Lemma run_bind_ok {A B} (m : reader A) (f : A -> reader B) l a l' :
  run m l = Ok (a, l') -> run (bind m f) l = run (f a) l'.
Proof. intros H. now rewrite run_bind, H. Qed.

Lemma run_ret {A} (a : A) l : run (ret a) l = Ok (a, l).
Proof. reflexivity. Qed.

Lemma run_throw {A} (e : error) l : run (throw (A := A) e) l = Err e.
Proof. reflexivity. Qed.

Lemma run_read_exact n l :
  run (read_exact_r n) l =
  if n <=? blen l then Ok (take n l, drop n l) else Err (Io UnexpectedEof).
Proof. reflexivity. Qed.

Lemma run_read_exact_inv n l bs l' :
  run (read_exact_r n) l = Ok (bs, l') -> n <= blen l /\ bs = take n l /\ l' = drop n l.
Proof. rewrite run_read_exact. bool_cases; intros; inj; auto. Qed.

Lemma run_read_exact_app n bs l : blen bs = n -> run (read_exact_r n) (bs ++ l) = Ok (bs, l).
Proof.
  intros H. rewrite run_read_exact, blen_app, take_app_len, drop_app_len by assumption.
  pose proof (blen_nonneg l). now destruct (Z.leb_spec n (blen bs + blen l)); [|lia].
Qed.

Lemma run_lift {A} (r : result error A) l :
  run (lift (M := reader) r) l = match r with Ok a => Ok (a, l) | Err e => Err e end.
Proof. now destruct r. Qed.

Lemma run_lift_inv {A} (r : result error A) l a l' :
  run (lift r) l = Ok (a, l') -> r = Ok a /\ l' = l.
Proof. rewrite run_lift. destruct r; intros; inj; auto. Qed.

(** A successful run does not depend on the error at the end of the stream. *)
Lemma run_with_ok {A} eof eof' (m : reader A) l r : run_with eof m l = Ok r -> run_with eof' m l = Ok r.
Proof.
  revert l; induction m as [b|e|n k IH]; intros l; cbn [run_with]; auto.
  destruct (n <=? blen l); [apply IH|discriminate].
Qed.

(** A reader does not see what follows the bytes it consumes. *)
Lemma run_app {A} (m : reader A) l a r rest :
  run m l = Ok (a, r) -> run m (l ++ rest) = Ok (a, r ++ rest).
Proof.
  revert l; induction m as [b|e|n k IH]; intros l H; unfold run in *; cbn [run_with] in *.
  - now inj.
  - discriminate.
  - destruct (Z.leb_spec n (blen l)) as [Hle|]; [|discriminate].
    destruct (Z.leb_spec n (blen (l ++ rest))) as [_|Hgt].
    + replace (take n (l ++ rest)) with (take n l).
      * replace (drop n (l ++ rest)) with (drop n l ++ rest); [now apply IH|].
        unfold drop. rewrite skipn_app. unfold blen in Hle.
        now replace (Z.to_nat n - length l)%nat with 0%nat by lia.
      * unfold take. rewrite firstn_app. unfold blen in Hle.
        replace (Z.to_nat n - length l)%nat with 0%nat by lia. now rewrite app_nil_r.
    + rewrite blen_app in Hgt. pose proof (blen_nonneg rest). lia.
Qed.

(** A reader leaves no more than it is given. *)
Lemma run_leaves {A} (m : reader A) l a r : run m l = Ok (a, r) -> blen r <= blen l.
Proof.
  revert l; induction m as [b|e|n k IH]; intros l H; unfold run in *; cbn [run_with] in *; [inj; lia|discriminate|].
  destruct (Z.leb_spec n (blen l)); [|discriminate]. apply IH in H.
  unfold drop, blen in *. rewrite length_skipn in H. lia.
Qed.

(** Nor does it need it. *)
Lemma run_prefix {A} (m : reader A) l a rest : run m (l ++ rest) = Ok (a, rest) -> run m l = Ok (a, []).
Proof.
  revert l; induction m as [b|e|n k IH]; intros l H; [|discriminate|].
  - cbn in H. injection H as -> H. apply (f_equal blen) in H. rewrite blen_app in H.
    destruct l as [|x l]; [reflexivity|]. rewrite blen_cons in H. pose proof (blen_nonneg l). lia.
  - unfold run in *. cbn [run_with] in *. rewrite blen_app in H. destruct (Z.leb_spec n (blen l + blen rest)); [|discriminate].
    assert (n <= blen l) as Hn.
    { pose proof (blen_nonneg l). destruct (Z.le_gt_cases n 0); [lia|]. apply (run_leaves (k _)) in H.
      rewrite blen_drop in H by (rewrite blen_app; lia). rewrite blen_app in H. lia. }
    destruct (Z.leb_spec n (blen l)); [|lia]. rewrite drop_app_le in H by assumption.
    replace (take n (l ++ rest)) with (take n l) in H; [now apply IH|].
    unfold take, blen in *. rewrite firstn_app. replace (Z.to_nat n - length l)%nat with 0%nat by lia. now rewrite app_nil_r.
Qed.

(** A loop that reads at least one byte per round is unfolded [2 ^ STREAM_BITS]
    times, more than a stream of [ISIZE_MAX] bytes can feed. *)
Definition STREAM_BITS : nat := 63.

(** ** The [Read] trait *)
Class Read (R : Type) := read : nat -> R -> result error (bytes * R).

(** [std::io::Read::read_exact]: call [read] until the buffer is full; a
    zero-length read before that is [UnexpectedEof].  Every other call makes
    progress, so the number of bytes still wanted bounds the number of calls. *)
Fixpoint read_exact_loop {R} `{Read R} (fuel n : nat) (acc : bytes) (r : R)
  : result error (bytes * R) :=
  match n with
  | O => Ok (acc, r)
  | S _ =>
      match fuel with
      | O => Err ModelFuel
      | S fuel =>
          match read n r with
          | Err e => Err e
          | Ok ([], _) => Err (Io UnexpectedEof)
          | Ok (bs, r') => read_exact_loop fuel (n - length bs) (acc ++ bs) r'
          end
      end
  end.

Definition read_exact {R} `{Read R} (n : nat) (r : R) : result error (bytes * R) :=
  read_exact_loop n n [] r.

(** Running a stream reader on an implementation of [Read]. *)
Fixpoint exec {R} `{Read R} {A} (m : reader A) (r : R) : result error (A * R) :=
  match m with
  | RRet a => Ok (a, r)
  | RFail e => Err e
  | RRead n k =>
      match read_exact (Z.to_nat n) r with
      | Ok (bs, r') => exec (k bs) r'
      | Err e => Err e
      end
  end.

(** How a transport ends: a clean end of file ([read] returns [Ok(0)]) or an
    error. *)
Inductive ending :=
| Eof
| Broken (e : error).

Definition end_error (e : ending) : error :=
  match e with Eof => Io UnexpectedEof | Broken e => e end.

(** What a transport promises to its readers. *)
Class ReadLaws (R : Type) `{Read R} := {
  rinv : R -> Prop;
  content : R -> bytes;
  ends : R -> ending;
  read_law : forall n r, rinv r -> (0 < n)%nat ->
    match read n r with
    | Ok (bs, r') =>
        rinv r' /\ (length bs <= n)%nat /\ content r = bs ++ content r' /\
        ends r' = ends r /\ (bs = [] -> content r = [] /\ ends r = Eof)
    | Err e => content r = [] /\ ends r = Broken e
    end;
}.

Section Laws.
Context {R : Type} `{ReadLaws R}.

Lemma read_exact_loop_spec fuel n acc r :
  rinv r -> (n <= fuel)%nat ->
  if (n <=? length (content r))%nat then
    exists r', read_exact_loop fuel n acc r = Ok (acc ++ firstn n (content r), r') /\
               rinv r' /\ content r' = skipn n (content r) /\ ends r' = ends r
  else read_exact_loop fuel n acc r = Err (end_error (ends r)).
Proof.
  revert n acc r; induction fuel as [|fuel IH]; intros [|n] acc r Hr Hle; try lia.
  - exists r. cbn. now rewrite app_nil_r.
  - exists r. cbn. now rewrite app_nil_r.
  - cbn [read_exact_loop].
    pose proof (read_law (S n) r Hr ltac:(lia)) as Hlaw.
    destruct (read (S n) r) as [[bs r']|e].
    + destruct Hlaw as (Hr' & Hlen & Hc & He & Hnil).
      destruct bs as [|b bs].
      * destruct (Hnil eq_refl) as [-> ->]. reflexivity.
      * cbn [length] in Hlen. specialize (IH (S n - length (b :: bs))%nat (acc ++ b :: bs) r' Hr').
        cbn [length] in IH |- *. specialize (IH ltac:(lia)). rewrite Hc.
        destruct (Nat.leb_spec (S n - S (length bs)) (length (content r'))) as [Hge|Hlt].
        -- destruct (Nat.leb_spec (S n) (length ((b :: bs) ++ content r')))
             as [_|Hlt]; [|rewrite length_app in Hlt; cbn in Hlt; lia].
           destruct IH as (r'' & -> & Hr'' & Hc'' & He''). exists r''.
           rewrite firstn_app, skipn_app, (firstn_all2 (n := S n) (b :: bs)), (skipn_all2 (n := S n) (b :: bs)) by (cbn; lia).
           rewrite app_assoc. cbn [length app].
           split; [reflexivity|]. split; [assumption|]. split; [assumption|congruence].
        -- destruct (Nat.leb_spec (S n) (length ((b :: bs) ++ content r')))
             as [Hge|_]; [rewrite length_app in Hge; cbn in Hge; lia|].
           now rewrite IH, He.
    + destruct Hlaw as [-> ->]. reflexivity.
Qed.

Lemma exec_with {A} (m : reader A) r :
  rinv r ->
  match run_with (end_error (ends r)) m (content r) with
  | Ok (a, l) => exists r', exec m r = Ok (a, r') /\ rinv r' /\ content r' = l /\ ends r' = ends r
  | Err e => exec m r = Err e
  end.
Proof.
  revert r; induction m as [a|e|n k IH]; intros r Hr; cbn [run_with exec].
  - now exists r.
  - reflexivity.
  - unfold read_exact.
    pose proof (read_exact_loop_spec (Z.to_nat n) (Z.to_nat n) [] r Hr ltac:(lia)) as Hs.
    unfold blen. destruct (Z.leb_spec n (Z.of_nat (length (content r)))) as [Hle|Hlt].
    + destruct (Nat.leb_spec (Z.to_nat n) (length (content r))) as [_|]; [|lia].
      destruct Hs as (r' & -> & Hr' & Hc' & He'). cbn [app].
      unfold take, drop. rewrite <- Hc', <- He'.
      specialize (IH (firstn (Z.to_nat n) (content r)) r' Hr').
      destruct (run_with _ _ _) as [[a l]|e]; [|assumption].
      destruct IH as (r'' & -> & ? & ? & ?). exists r''. auto.
    + destruct (Nat.leb_spec (Z.to_nat n) (length (content r))) as [|_]; [lia|].
      now rewrite Hs.
Qed.
End Laws.

(** ** Two basic transports

    [std::io::Cursor] over a byte vector, and a socket that delivers its bytes
    in arbitrary non-empty segments (short reads). *)
#[export] Instance cursor_read : Read bytes := fun n l => Ok (firstn n l, skipn n l).

#[export] Program Instance cursor_laws : ReadLaws bytes := {
  rinv l := True;
  content l := l;
  ends l := Eof;
}.
Next Obligation.
  split; [exact I|]. split; [rewrite length_firstn; lia|].
  split; [now rewrite firstn_skipn|]. split; [reflexivity|].
  intros E. destruct r; [auto|]. destruct n; [lia|discriminate].
Qed.

Record socket := Socket { segments : list bytes }.

#[export] Instance socket_read : Read socket := fun n s =>
  match segments s with
  | [] => Ok ([], s)
  | seg :: rest =>
      Ok (firstn n seg, Socket (match skipn n seg with [] => rest | seg' => seg' :: rest end))
  end.

#[export] Program Instance socket_laws : ReadLaws socket := {
  rinv s := Forall (fun seg => seg <> []) (segments s);
  content s := concat (segments s);
  ends s := Eof;
}.
Next Obligation.
  unfold read, socket_read. destruct r as [[|seg rest]]; cbn [segments] in *.
  - cbn. repeat split; auto; lia.
  - inversion H as [|? ? Hseg Hrest]; subst.
    split; [|split; [|split; [|split; [reflexivity|]]]].
    + destruct (skipn n seg) eqn:E; cbn; [assumption|]. constructor; [discriminate|assumption].
    + rewrite length_firstn; lia.
    + cbn [concat]. rewrite <- (firstn_skipn n seg) at 1. rewrite <- app_assoc. f_equal.
      now destruct (skipn n seg).
    + intros E. destruct n; [lia|]. destruct seg; [easy|discriminate].
Qed.

(** ** Buffer parsers against stream readers

    [agrees p m]: on every position of every buffer, the buffer parser [p] and
    the stream reader [m] run on the bytes from that position on accept the same
    inputs with the same value and consume the same bytes.  The lemmas below
    make the property compositional. *)
Definition agrees {A} (p : parser A) (m : reader A) : Prop :=
  forall buf pos, 0 <= pos <= blen buf -> blen buf <= ISIZE_MAX ->
  match run m (drop pos buf) with
  | Ok (a, rest) =>
      exists pos', p buf pos = Ok (a, pos') /\ pos <= pos' <= blen buf /\ rest = drop pos' buf
  | Err _ => exists e, p buf pos = Err e
  end.

Lemma agrees_ret {A} (a : A) : agrees (ret a) (ret a).
Proof. intros buf pos H _. cbn. exists pos. repeat split; auto; lia. Qed.

Lemma agrees_throw {A} (e e' : error) : agrees (A := A) (throw e) (throw e').
Proof. intros buf pos H _. cbn. eauto. Qed.

Lemma agrees_lift {A} (r : result error A) : agrees (lift r) (lift r).
Proof. destruct r; [apply agrees_ret | apply agrees_throw]. Qed.

(** Validators that accept the same values may report different messages. *)
Lemma agrees_lift2 {A} (r r' : result error A) :
  (forall a, r = Ok a <-> r' = Ok a) -> agrees (lift r) (lift r').
Proof.
  intros H. destruct r as [a|e], r' as [a'|e'].
  - pose proof (proj1 (H a) eq_refl) as E. injection E as ->. apply agrees_ret.
  - now discriminate (proj1 (H a) eq_refl).
  - now discriminate (proj2 (H a') eq_refl).
  - apply agrees_throw.
Qed.

Lemma agrees_bind {A B} (p : parser A) (m : reader A) (f : A -> parser B) (g : A -> reader B) :
  agrees p m -> (forall a, agrees (f a) (g a)) -> agrees (bind p f) (bind m g).
Proof.
  intros Hp Hf buf pos Hpos Hbuf. specialize (Hp buf pos Hpos Hbuf).
  rewrite run_bind. destruct (run m (drop pos buf)) as [[a rest]|e].
  - destruct Hp as (p1 & E & Hp1 & ->).
    specialize (Hf a buf p1 ltac:(lia) Hbuf). cbn. rewrite E.
    destruct (run (g a) (drop p1 buf)) as [[b rest']|e]; [|assumption].
    destruct Hf as (p2 & -> & ? & ->). exists p2. repeat split; auto; lia.
  - destruct Hp as [e' E]. cbn. rewrite E. eauto.
Qed.

(** The bind rule with what is known of the intermediate value. *)
Lemma agrees_bind_if {A B} (P : A -> Prop) (p : parser A) (m : reader A)
    (f : A -> parser B) (g : A -> reader B) :
  agrees p m -> (forall buf pos a pos', p buf pos = Ok (a, pos') -> P a) ->
  (forall a, P a -> agrees (f a) (g a)) -> agrees (bind p f) (bind m g).
Proof.
  intros Hp HP Hf buf pos Hpos Hbuf. specialize (Hp buf pos Hpos Hbuf).
  rewrite run_bind. destruct (run m (drop pos buf)) as [[a rest]|e].
  - destruct Hp as (p1 & E & Hp1 & ->).
    specialize (Hf a (HP _ _ _ _ E) buf p1 ltac:(lia) Hbuf). cbn. rewrite E.
    destruct (run (g a) (drop p1 buf)) as [[b rest']|e]; [|assumption].
    destruct Hf as (p2 & -> & ? & ->). exists p2. repeat split; auto; lia.
  - destruct Hp as [e' E]. cbn. rewrite E. eauto.
Qed.

Lemma agrees_repeat_n n (p : parser unit) (m : reader unit) :
  agrees p m -> agrees (repeat_n n p) (repeat_n n m).
Proof.
  intros H. induction n as [|n IH]; [apply agrees_ret|].
  apply agrees_bind; auto.
Qed.

Lemma agrees_for_each {A} (l : list A) (p : A -> parser unit) (m : A -> reader unit) :
  Forall (fun a => agrees (p a) (m a)) l -> agrees (for_each l p) (for_each l m).
Proof.
  induction 1; [apply agrees_ret|]. rewrite !for_each_cons. apply agrees_bind; auto.
Qed.

Lemma agrees_collect_n {A} n (p : parser A) (m : reader A) :
  agrees p m -> agrees (collect_n n p) (collect_n n m).
Proof.
  intros H. induction n as [|n IH]; [apply agrees_ret|].
  apply agrees_bind; [assumption|]. intros a. apply agrees_bind; [assumption|].
  intros l. apply agrees_ret.
Qed.

Create HintDb agrees discriminated.
#[export] Hint Resolve agrees_ret agrees_throw agrees_lift agrees_bind agrees_repeat_n
  agrees_for_each agrees_collect_n : agrees.

(** ** Buffer parsers only move forward

    [advances p]: a successful run leaves the position between where it was and
    the end of the buffer, so the slices between two positions are in bounds. *)
Definition advances {A} (p : parser A) : Prop :=
  forall buf pos a pos', 0 <= pos <= blen buf -> p buf pos = Ok (a, pos') ->
  pos <= pos' <= blen buf.

Lemma advances_ret {A} (a : A) : advances (ret a).
Proof. intros buf pos b pos' Hpos H. cbn in H. inj. lia. Qed.

Lemma advances_throw {A} (e : error) : advances (A := A) (throw e).
Proof. intros buf pos b pos' Hpos H. discriminate H. Qed.

Lemma advances_lift {A} (r : result error A) : advances (lift r).
Proof. destruct r; [apply advances_ret | apply advances_throw]. Qed.

Lemma advances_bind {A B} (p : parser A) (f : A -> parser B) :
  advances p -> (forall a, advances (f a)) -> advances (bind p f).
Proof.
  intros Hp Hf buf pos b pos' Hpos H. apply parser_bind_inv in H as (a & p1 & H1 & H2).
  apply Hp in H1; [|assumption]. apply Hf in H2; lia.
Qed.

Lemma advances_get_pos : advances get_pos.
Proof. intros buf pos b pos' Hpos H. cbn in H. unfold get_pos in H. inj. lia. Qed.

Lemma advances_get_slice a b : advances (get_slice a b).
Proof. intros buf pos c pos' Hpos H. unfold get_slice in H. inj. lia. Qed.

Lemma advances_if {A} (b : bool) (p q : parser A) :
  advances p -> advances q -> advances (if b then p else q).
Proof. now destruct b. Qed.

Lemma advances_repeat_n n (p : parser unit) : advances p -> advances (repeat_n n p).
Proof.
  intros H. induction n as [|n IH]; [apply advances_ret|]. now apply advances_bind.
Qed.

Lemma advances_collect_n {A} n (p : parser A) : advances p -> advances (collect_n n p).
Proof.
  intros H. induction n as [|n IH]; [apply advances_ret|].
  repeat (apply advances_bind; auto; intros). apply advances_ret.
Qed.

Lemma advances_for_each {A} (l : list A) (f : A -> parser unit) :
  Forall (fun a => advances (f a)) l -> advances (for_each l f).
Proof.
  induction 1 as [|x l Hx Hl IH]; [apply advances_ret|]. rewrite for_each_cons.
  now apply advances_bind.
Qed.

Lemma advances_map_each {A B} (l : list A) (f : A -> parser B) :
  Forall (fun a => advances (f a)) l -> advances (map_each l f).
Proof.
  induction 1 as [|x l Hx Hl IH]; [apply advances_ret|]. rewrite map_each_cons.
  repeat (apply advances_bind; auto; intros). apply advances_ret.
Qed.

Create HintDb advances discriminated.
#[export] Hint Resolve advances_ret advances_throw advances_lift advances_get_pos
  advances_get_slice advances_repeat_n advances_collect_n : advances.

(** Prove that a parser advances, following its structure. *)
Ltac advances :=
  intros; cbv zeta;
  repeat first
    [ solve [auto with advances]
    | apply advances_bind; intros
    | apply advances_if
    | apply advances_repeat_n
    | apply advances_collect_n
    | lazymatch goal with |- advances (match ?x with _ => _ end) => destruct x end ].

(** ** Parsers up to extensional equality *)
Definition parser_eq {A} (p q : parser A) : Prop := forall buf pos, p buf pos = q buf pos.

#[export] Instance parser_eq_equiv A : Equivalence (@parser_eq A).
Proof.
  split; red; unfold parser_eq; intros; [reflexivity|now symmetry|]. etransitivity; eauto.
Qed.

#[export] Instance bind_proper A B :
  Proper (parser_eq ==> pointwise_relation A parser_eq ==> parser_eq) (bind (B := B)).
Proof.
  intros p q Hp f g Hf buf pos. cbn. rewrite Hp. destruct (q buf pos) as [[a pos']|e]; [|reflexivity].
  apply Hf.
Qed.

Lemma for_each_proper {A} (l : list A) (f g : A -> parser unit) :
  (forall a, In a l -> parser_eq (f a) (g a)) -> parser_eq (for_each l f) (for_each l g).
Proof.
  induction l as [|x l IH]; intros H; [reflexivity|]. rewrite !for_each_cons.
  apply bind_proper; [apply H; now left|]. intros _. apply IH. intros a Ha. apply H. now right.
Qed.

#[export] Instance collect_n_proper A n : Proper (parser_eq ==> parser_eq) (collect_n (A := A) n).
Proof.
  intros p q H. induction n as [|n IH]; [reflexivity|]. cbn [collect_n].
  apply bind_proper; [assumption|]. intros a. apply bind_proper; [assumption|reflexivity].
Qed.

(** [same_from buf lo p q]: the parsers coincide on [buf] from position [lo] on. *)
Definition same_from {A} (buf : bytes) (lo : Z) (p q : parser A) : Prop :=
  forall pos, lo <= pos <= blen buf -> p buf pos = q buf pos.

Lemma same_from_refl {A} buf lo (p : parser A) : same_from buf lo p p.
Proof. intros pos _. reflexivity. Qed.

Lemma same_from_bind {A B} buf lo (p q : parser A) (f g : A -> parser B) :
  0 <= lo -> advances p -> same_from buf lo p q -> (forall a, same_from buf lo (f a) (g a)) ->
  same_from buf lo (bind p f) (bind q g).
Proof.
  intros Hlo Ha Hp Hf pos Hpos. cbn. rewrite <- (Hp pos Hpos).
  destruct (p buf pos) as [[a pos']|e] eqn:E; [|reflexivity].
  apply Ha in E; [|lia]. apply Hf. lia.
Qed.

Lemma same_from_collect_n {A} buf lo n (p q : parser A) :
  0 <= lo -> advances p -> same_from buf lo p q ->
  same_from buf lo (collect_n n p) (collect_n n q).
Proof.
  intros Hlo Ha Hp. induction n as [|n IH]; [apply same_from_refl|].
  apply same_from_bind; auto. intros x. apply same_from_bind; auto; [now apply advances_collect_n|].
  intros xs. apply same_from_refl.
Qed.

Lemma same_from_map_each {A B} buf lo (l : list A) (f g : A -> parser B) :
  0 <= lo -> Forall (fun a => advances (f a) /\ same_from buf lo (f a) (g a)) l ->
  same_from buf lo (map_each l f) (map_each l g).
Proof.
  intros Hlo. induction 1 as [|x l [Hx Hs] Hl IH]; [apply same_from_refl|]. rewrite !map_each_cons.
  apply same_from_bind; auto. intros y. apply same_from_bind; auto.
  - apply advances_map_each. eapply Forall_impl; [|exact Hl]. now intros a [? _].
  - intros ys. apply same_from_refl.
Qed.
