(* ===== verification/Session.v ===== *)
(** * Conversations with the server

    Code that both writes to and reads from a connection (the handshake, a ping, a query
    with its response) is a [session]: a tree of [write_all] and [read_exact] calls.  The
    other side is a [Peer]: a state and what it answers to the bytes it hears.  Playing a
    session against a peer keeps the order of the calls: a byte can only be read after
    the peer has sent it, and the peer sends only in answer to what was written. *)

From Stdlib Require Import String ZArith Lia Bool List.
From S2P Require Import Prelude Reader.
Import ListNotations.

Inductive session (A : Type) : Type :=
| SRet (a : A)
| SFail (e : error)
| SSend (w : bytes) (k : session A)
| SRecv (n : Z) (k : bytes -> session A).
Arguments SRet {A} a.
Arguments SFail {A} e.
Arguments SSend {A} w k.
Arguments SRecv {A} n k.

Fixpoint sbind {A B} (m : session A) (f : A -> session B) : session B :=
  match m with
  | SRet a => f a
  | SFail e => SFail e
  | SSend w k => SSend w (sbind k f)
  | SRecv n k => SRecv n (fun bs => sbind (k bs) f)
  end.

#[export] Instance session_monad : Monad session := { ret A a := SRet a; bind A B := sbind }.

#[export] Instance session_lift : MonadResult session :=
  fun A r => match r with Ok a => SRet a | Err e => SFail e end.

(** [stream.write_all(&w)?; stream.flush()?] *)
Definition send (w : bytes) : session unit := SSend w (SRet tt).

(** A function that only reads. *)
Fixpoint recv {A} (m : reader A) : session A :=
  match m with
  | RRet a => SRet a
  | RFail e => SFail e
  | RRead n k => SRecv n (fun bs => recv (k bs))
  end.

(** The other side of a connection: what it answers when it hears [w] in state [s]. *)
Class Peer (S : Type) := hears : S -> bytes -> S * bytes.

(** Playing a session: [inbox] holds what the peer has sent and is not read yet. *)
Fixpoint play {S} `{Peer S} {A} (m : session A) (s : S) (inbox : bytes) : result error (A * (S * bytes)) :=
  match m with
  | SRet a => Ok (a, (s, inbox))
  | SFail e => Err e
  | SSend w k => let (s, answer) := hears s w in play k s (inbox ++ answer)
  | SRecv n k =>
      if n <=? blen inbox then play (k (take n inbox)) s (drop n inbox) else Err (Io UnexpectedEof)
  end.

Section Play.
Context {S : Type} `{Peer S}.

Lemma play_bind {A B} (m : session A) (f : A -> session B) s inbox :
  play (bind m f) s inbox =
  match play m s inbox with
  | Ok (a, (s, inbox)) => play (f a) s inbox
  | Err e => Err e
  end.
Proof.
  revert s inbox; induction m as [a|e|w k IH|n k IH]; intros s inbox; cbn; try reflexivity.
  - destruct (hears s w) as [s' answer]. apply IH.
  - destruct (n <=? blen inbox); [apply IH|reflexivity].
Qed.

Lemma play_recv {A} (m : reader A) s inbox :
  play (recv m) s inbox =
  match run m inbox with Ok (a, rest) => Ok (a, (s, rest)) | Err e => Err e end.
Proof.
  revert inbox; induction m as [a|e|n k IH]; intros inbox; cbn; try reflexivity.
  unfold run. cbn [run_with]. destruct (n <=? blen inbox); [apply IH|reflexivity].
Qed.

Lemma play_bind_ok {A B} (m : session A) (f : A -> session B) s inbox a s' inbox' :
  play m s inbox = Ok (a, (s', inbox')) -> play (bind m f) s inbox = play (f a) s' inbox'.
Proof. intros E. now rewrite play_bind, E. Qed.

Lemma play_send w s inbox s' answer :
  hears s w = (s', answer) -> play (send w) s inbox = Ok (tt, (s', inbox ++ answer)).
Proof. intros E. cbn. now rewrite E. Qed.

Lemma play_recv_ok {A} (m : reader A) s inbox a rest :
  run m inbox = Ok (a, rest) -> play (recv m) s inbox = Ok (a, (s, rest)).
Proof. intros E. now rewrite play_recv, E. Qed.

Lemma play_lift {A} (r : result error A) s inbox :
  play (lift (M := session) r) s inbox = match r with Ok a => Ok (a, (s, inbox)) | Err e => Err e end.
Proof. now destruct r. Qed.
End Play.

(** ** Sessions that behave alike

    Two sessions that, against every peer, end with related results in the same state, or
    both fail: they write the same bytes at the same points and read the same ones. *)
Definition alike {A B} (R : A -> B -> Prop) (m : session A) (m' : session B) : Prop :=
  forall S (P : Peer S) (s : S) inbox,
  match play m s inbox, play m' s inbox with
  | Ok (a, end_), Ok (b, end_') => R a b /\ end_ = end_'
  | Err _, Err _ => True
  | _, _ => False
  end.

(** The same for readers. *)
Definition reads_alike {A B} (R : A -> B -> Prop) (m : reader A) (m' : reader B) : Prop :=
  forall l,
  match run m l, run m' l with
  | Ok (a, rest), Ok (b, rest') => R a b /\ rest = rest'
  | Err _, Err _ => True
  | _, _ => False
  end.

Lemma reads_alike_ret {A B} (R : A -> B -> Prop) a b : R a b -> reads_alike R (ret a) (ret b).
Proof. intros HR l. cbn. auto. Qed.

Lemma reads_alike_throw {A B} (R : A -> B -> Prop) (e e' : error) : reads_alike R (throw e) (throw e').
Proof. intros l. exact I. Qed.

Lemma reads_alike_lift {A B} (R : A -> B -> Prop) (r : result error A) (r' : result error B) :
  match r, r' with Ok a, Ok b => R a b | Err _, Err _ => True | _, _ => False end ->
  reads_alike R (lift r) (lift r').
Proof. intros HR l. rewrite !run_lift. destruct r, r'; auto. Qed.

Lemma reads_alike_bind {A A' B B'} (R : A -> A' -> Prop) (R' : B -> B' -> Prop) m m' f f' :
  reads_alike R m m' -> (forall a b, R a b -> reads_alike R' (f a) (f' b)) ->
  reads_alike R' (bind m f) (bind m' f').
Proof.
  intros Hm Hf l. specialize (Hm l). rewrite !run_bind.
  destruct (run m l) as [[a rest]|e], (run m' l) as [[b rest']|e']; try contradiction; auto.
  destruct Hm as [Hab ->]. now apply Hf.
Qed.

Lemma reads_alike_bind_if {A B B'} (P : A -> Prop) (R' : B -> B' -> Prop) (m m' : reader A) f f' :
  reads_alike eq m m' -> (forall l a rest, run m l = Ok (a, rest) -> P a) ->
  (forall a, P a -> reads_alike R' (f a) (f' a)) -> reads_alike R' (bind m f) (bind m' f').
Proof.
  intros Hm HP Hf l. specialize (Hm l). specialize (HP l). rewrite !run_bind.
  destruct (run m l) as [[a rest]|e], (run m' l) as [[b rest']|e']; try contradiction; auto.
  destruct Hm as [<- <-]. apply Hf. eauto.
Qed.

Lemma reads_alike_if {A B} (R : A -> B -> Prop) (c : bool) m m' n n' :
  reads_alike R m m' -> reads_alike R n n' -> reads_alike R (if c then m else n) (if c then m' else n').
Proof. now destruct c. Qed.

Lemma reads_alike_eq {A} (m m' : reader A) : (forall l, run m l = run m' l) -> reads_alike eq m m'.
Proof. intros E l. rewrite E. destruct (run m' l) as [[a rest]|e]; auto. Qed.

Lemma reads_alike_refl {A} (m : reader A) : reads_alike eq m m.
Proof. now apply reads_alike_eq. Qed.

Lemma reads_alike_collect_n {A} n (m m' : reader A) :
  reads_alike eq m m' -> reads_alike eq (collect_n n m) (collect_n n m').
Proof.
  intros Hm. induction n as [|n IH]; [now apply reads_alike_ret|]. cbn [collect_n].
  eapply reads_alike_bind; [exact Hm|]. intros a ? <-.
  eapply reads_alike_bind; [exact IH|]. intros l ? <-. now apply reads_alike_ret.
Qed.

Lemma reads_alike_repeat_n n (m m' : reader unit) :
  reads_alike eq m m' -> reads_alike eq (repeat_n n m) (repeat_n n m').
Proof.
  intros Hm. induction n as [|n IH]; [now apply reads_alike_ret|]. cbn [repeat_n].
  eapply reads_alike_bind; [exact Hm|]. intros a ? <-. exact IH.
Qed.

Lemma alike_bind {A A' B B'} (R : A -> A' -> Prop) (R' : B -> B' -> Prop) m m' f f' :
  alike R m m' -> (forall a b, R a b -> alike R' (f a) (f' b)) -> alike R' (bind m f) (bind m' f').
Proof.
  intros Hm Hf S P s inbox. specialize (Hm S P s inbox). rewrite !play_bind.
  destruct (play m s inbox) as [[a [s1 l1]]|e], (play m' s inbox) as [[b [s2 l2]]|e']; try contradiction; auto.
  destruct Hm as [Hab E]. injection E as -> ->. now apply Hf.
Qed.

Lemma alike_ret {A B} (R : A -> B -> Prop) a b : R a b -> alike R (ret a) (ret b).
Proof. intros HR S P s inbox. cbn. auto. Qed.

Lemma alike_throw {A B} (R : A -> B -> Prop) (e e' : error) : alike R (throw e) (throw e').
Proof. intros S P s inbox. exact I. Qed.

Lemma alike_lift {A B} (R : A -> B -> Prop) (r : result error A) (r' : result error B) :
  match r, r' with Ok a, Ok b => R a b | Err _, Err _ => True | _, _ => False end ->
  alike R (lift r) (lift r').
Proof. intros HR S P s inbox. rewrite !play_lift. destruct r, r'; auto. Qed.

Lemma alike_send w : alike eq (send w) (send w).
Proof. intros S P s inbox. cbn. destruct (hears s w). auto. Qed.

Lemma alike_recv {A B} (R : A -> B -> Prop) m m' : reads_alike R m m' -> alike R (recv m) (recv m').
Proof.
  intros Hm S P s inbox. specialize (Hm inbox). rewrite !play_recv.
  destruct (run m inbox) as [[a rest]|e], (run m' inbox) as [[b rest']|e']; try contradiction; auto.
  destruct Hm as [Hab ->]. auto.
Qed.

Lemma alike_if {A B} (R : A -> B -> Prop) (c : bool) m m' n n' :
  alike R m m' -> alike R n n' -> alike R (if c then m else n) (if c then m' else n').
Proof. now destruct c. Qed.

Create HintDb alike discriminated.

#[export] Hint Resolve reads_alike_ret reads_alike_throw reads_alike_refl alike_throw alike_send : alike.

(** One step of a comparison: the next reads agree, and go on with equal results. *)
Ltac alike_step :=
  match goal with
  | |- reads_alike _ (bind _ _) (bind _ _) =>
      apply (reads_alike_bind eq); [solve [eauto with alike]|intros ? ? <-]
  | |- reads_alike _ (if _ then _ else _) (if _ then _ else _) => apply reads_alike_if
  end.

(** ** A peer that follows a script

    It answers each whole message it expects with the scripted reply, and stays silent
    otherwise. *)
Record Scripted := mkScripted { script : list (bytes * bytes); heard : bytes }.

#[export] Instance scripted_peer : Peer Scripted := fun s w =>
  match script s with
  | (expected, reply) :: rest =>
      if bytes_eqb expected w then (mkScripted rest (heard s ++ w), reply)
      else (mkScripted (script s) (heard s ++ w), [])
  | [] => (mkScripted [] (heard s ++ w), [])
  end.

(** ** Reading what was written

    [reads m w a]: [m] takes exactly the bytes [w] off a stream that starts with them, and
    returns [a]. *)
Definition reads {A} (m : reader A) (w : bytes) (a : A) : Prop :=
  forall rest, run m (w ++ rest) = Ok (a, rest).

Lemma reads_ret {A} (a : A) : reads (ret a) [] a.
Proof. intros rest. reflexivity. Qed.

Lemma reads_lift {A} (r : result error A) a : r = Ok a -> reads (lift r) [] a.
Proof. intros -> rest. reflexivity. Qed.

Lemma reads_bind {A B} (m : reader A) (f : A -> reader B) w1 w2 a b :
  reads m w1 a -> reads (f a) w2 b -> reads (bind m f) (w1 ++ w2) b.
Proof. intros Hm Hf rest. rewrite <- app_assoc. now rewrite (run_bind_ok _ _ _ _ _ (Hm _)). Qed.

Lemma reads_last {A B} (m : reader A) (f : A -> reader B) w a b :
  reads m w a -> reads (f a) [] b -> reads (bind m f) w b.
Proof. intros Hm Hf. rewrite <- (app_nil_r w). now apply (reads_bind _ _ _ _ a). Qed.

Lemma reads_first {A B} (m : reader A) (f : A -> reader B) w a b :
  reads m [] a -> reads (f a) w b -> reads (bind m f) w b.
Proof. intros Hm Hf. now apply (reads_bind _ _ [] w a). Qed.

Lemma reads_exact n w : blen w = n -> reads (read_exact_r n) w w.
Proof. intros Hn rest. now apply run_read_exact_app. Qed.

Lemma reads_collect_n {A} (m : reader A) (write : A -> bytes) (l : list A) :
  Forall (fun a => reads m (write a) a) l -> reads (collect_n (length l) m) (concat (map write l)) l.
Proof.
  induction 1 as [|a l Ha Hl IH]; [apply reads_ret|]. cbn [map concat length collect_n].
  eapply reads_bind; [exact Ha|]. eapply reads_last; [exact IH|]. apply reads_ret.
Qed.

Lemma reads_alike_reads {A B} (R : A -> B -> Prop) (m : reader A) (m' : reader B) w a :
  reads_alike R m m' -> reads m w a -> forall rest, exists b, run m' (w ++ rest) = Ok (b, rest) /\ R a b.
Proof.
  intros Hm Ha rest. specialize (Hm (w ++ rest)). rewrite Ha in Hm.
  destruct (run m' (w ++ rest)) as [[b rest']|e]; [|contradiction]. destruct Hm as [HR ->]. eauto.
Qed.
