(* ===== verification/Limits.v ===== *)
(** * Transport allocation limits ([src/limits.rs])

    Constants, the [checked_*] validators of server-controlled lengths and
    counts, and the cumulative [ResponseBudget]. *)

From Stdlib Require Import String ZArith Lia Bool List Sorted.
From S2P Require Import Prelude Reader.
Import ListNotations.

Definition MAX_CHUNK_LEN : Z := 64 * 1024 * 1024.
Definition MAX_FRAME_SIZE : Z := 64 * 1024 * 1024.
Definition MAX_PASSWORD_COMPLEXITY_RULES : Z := 65536.
Definition MAX_JSON_DYNAMIC_ITEMS : Z := 65536.
Definition MAX_BLOCK_COLUMNS : Z := 65536.
Definition MAX_BLOCK_ROWS : Z := 10000000.
Definition MAX_PART_UUIDS : Z := 1048576.
Definition MAX_EXCEPTION_CHAIN_DEPTH : Z := 1000.
Definition MAX_STRING_BYTES : Z := 0x00FFFFFF.
Definition MAX_COLUMN_BYTES : Z := 64 * 1024 * 1024.
Definition MAX_BLOCK_BYTES : Z := 1024 * 1024 * 1024.
Definition DEFAULT_MAX_RESPONSE_SIZE : Z := 256 * 1024 * 1024.

Definition checked_string_len (value : Z) (what : bytes) : result message Z :=
  let too_large := Msg "{what} {value} exceeds limit {MAX_STRING_BYTES}"
                       [AS what; AZ value; AZ MAX_STRING_BYTES] in
  let* value := ok_or (usize_try_from value) too_large in
  if MAX_STRING_BYTES <? value then Err too_large else Ok value.

Definition checked_column_bytes (acc add : Z) (what : bytes) : result message Z :=
  let* total := ok_or (checked_add acc add)
                      (Msg "{what} cumulative byte length overflow" [AS what]) in
  if MAX_COLUMN_BYTES <? total
  then Err (Msg "{what} cumulative byte length {total} exceeds limit {MAX_COLUMN_BYTES}"
                [AS what; AZ total; AZ MAX_COLUMN_BYTES])
  else Ok total.

Definition checked_block_bytes (acc add : Z) (what : bytes) : result message Z :=
  let* total := ok_or (checked_add acc add)
                      (Msg "{what} cumulative byte length overflow" [AS what]) in
  if MAX_BLOCK_BYTES <? total
  then Err (Msg "{what} cumulative byte length {total} exceeds limit {MAX_BLOCK_BYTES}"
                [AS what; AZ total; AZ MAX_BLOCK_BYTES])
  else Ok total.

Definition checked_column_len (rows width : Z) (what : bytes) : result message Z :=
  let* len := ok_or (checked_mul rows width) (Msg "{what} byte length overflow" [AS what]) in
  if MAX_COLUMN_BYTES <? len
  then Err (Msg "{what} byte length {len} exceeds limit {MAX_COLUMN_BYTES}"
                [AS what; AZ len; AZ MAX_COLUMN_BYTES])
  else Ok len.

Definition checked_nested_total (value : Z) (what : bytes) : result message Z :=
  let too_large := Msg "{what} total {value} exceeds limit {MAX_BLOCK_ROWS}"
                       [AS what; AZ value; AZ MAX_BLOCK_ROWS] in
  let* value := ok_or (usize_try_from value) too_large in
  if MAX_BLOCK_ROWS <? value then Err too_large else Ok value.

Definition checked_monotonic_offset (prev value : Z) (what : bytes) : result message Z :=
  let* value := checked_nested_total value what in
  if value <? prev
  then Err (Msg "{what} decreased from {prev} to {value}" [AS what; AZ prev; AZ value])
  else Ok value.

Definition checked_count (value : Z) (what : bytes) (max : Z) : result message Z :=
  let limit := match try_from_max U64_MAX max with Some m => m | None => U64_MAX end in
  let too_large := Msg "{what} count {value} exceeds limit {max}" [AS what; AZ value; AZ max] in
  if limit <? value then Err too_large
  else ok_or (usize_try_from value) too_large.

(** ** The running response budget *)
Record ResponseBudget := mkResponseBudget { limit : Z; used : Z }.

Definition new_budget (limit : Z) : ResponseBudget := mkResponseBudget limit 0.

Definition charge (b : ResponseBudget) (n : Z) : result unit unit * ResponseBudget :=
  match checked_add (used b) n with
  | Some used' =>
      (if limit b <? used' then Err tt else Ok tt, mkResponseBudget (limit b) used')
  | None => (Err tt, b)
  end.

Definition reset (b : ResponseBudget) : ResponseBudget := mkResponseBudget (limit b) 0.

(** ** Inversion lemmas *)
Lemma ok_or_bind_inv {E A B} (o : option A) (e : E) (f : A -> result E B) b :
  bind (ok_or o e) f = Ok b -> exists a, o = Some a /\ f a = Ok b.
Proof. destruct o; cbn; [eauto|discriminate]. Qed.

Lemma try_from_max_inv max v a : try_from_max max v = Some a -> a = v /\ v <= max.
Proof. unfold try_from_max. bool_cases; intros; inj; auto. Qed.

Lemma checked_string_len_inv v what n :
  checked_string_len v what = Ok n -> n = v /\ v <= MAX_STRING_BYTES.
Proof.
  unfold checked_string_len. intros H. apply ok_or_bind_inv in H as (a & Ha & H).
  apply try_from_max_inv in Ha as [-> _]. bool_cases; inj; auto.
Qed.

Lemma checked_string_len_ok v what :
  v <= MAX_STRING_BYTES -> checked_string_len v what = Ok v.
Proof.
  intros Hv. unfold checked_string_len, usize_try_from, try_from_max.
  destruct (Z.leb_spec v USIZE_MAX) as [_|Hc];
    [|unfold MAX_STRING_BYTES, USIZE_MAX in *; lia].
  cbn [ok_or bind result_monad]. now destruct (Z.ltb_spec MAX_STRING_BYTES v); [lia|].
Qed.

Lemma checked_column_bytes_inv acc add what n :
  checked_column_bytes acc add what = Ok n -> n = acc + add /\ acc + add <= MAX_COLUMN_BYTES.
Proof.
  unfold checked_column_bytes. intros H. apply ok_or_bind_inv in H as (a & Ha & H).
  apply checked_add_inv in Ha as [-> _]. bool_cases; inj; auto.
Qed.

Lemma checked_block_bytes_inv acc add what n :
  checked_block_bytes acc add what = Ok n -> n = acc + add /\ acc + add <= MAX_BLOCK_BYTES.
Proof.
  unfold checked_block_bytes. intros H. apply ok_or_bind_inv in H as (a & Ha & H).
  apply checked_add_inv in Ha as [-> _]. bool_cases; inj; auto.
Qed.

Lemma checked_column_len_inv rows width what n :
  checked_column_len rows width what = Ok n ->
  n = rows * width /\ rows * width <= MAX_COLUMN_BYTES.
Proof.
  unfold checked_column_len. intros H. apply ok_or_bind_inv in H as (a & Ha & H).
  apply checked_mul_inv in Ha as [-> _]. bool_cases; inj; auto.
Qed.

(** The validator's verdict does not depend on the name it reports. *)
Lemma checked_column_len_what rows width what what' n :
  checked_column_len rows width what = Ok n -> checked_column_len rows width what' = Ok n.
Proof.
  unfold checked_column_len. destruct (checked_mul rows width); cbn; [|discriminate].
  bool_cases; auto; discriminate.
Qed.

Lemma checked_nested_total_inv v what n :
  checked_nested_total v what = Ok n -> n = v /\ v <= MAX_BLOCK_ROWS.
Proof.
  unfold checked_nested_total. intros H. apply ok_or_bind_inv in H as (a & Ha & H).
  apply try_from_max_inv in Ha as [-> _]. bool_cases; inj; auto.
Qed.

Lemma checked_nested_total_ok v what :
  v <= MAX_BLOCK_ROWS -> checked_nested_total v what = Ok v.
Proof.
  intros Hv. unfold checked_nested_total, usize_try_from, try_from_max.
  destruct (Z.leb_spec v USIZE_MAX) as [_|Hc];
    [|unfold MAX_BLOCK_ROWS, USIZE_MAX in *; lia].
  cbn [ok_or bind result_monad]. now destruct (Z.ltb_spec MAX_BLOCK_ROWS v); [lia|].
Qed.

Lemma checked_monotonic_offset_inv prev v what n :
  checked_monotonic_offset prev v what = Ok n -> n = v /\ prev <= v <= MAX_BLOCK_ROWS.
Proof.
  unfold checked_monotonic_offset. intros H. apply result_bind_inv in H as (a & Ha & H).
  apply checked_nested_total_inv in Ha as [-> Hle]. bool_cases; inj; lia.
Qed.

Lemma checked_monotonic_offset_ok prev v what :
  prev <= v <= MAX_BLOCK_ROWS -> checked_monotonic_offset prev v what = Ok v.
Proof.
  intros [Hp Hv]. unfold checked_monotonic_offset.
  rewrite checked_nested_total_ok by assumption. cbn.
  now destruct (Z.ltb_spec v prev); [lia|].
Qed.

Lemma checked_count_inv v what max n :
  checked_count v what max = Ok n -> 0 <= max <= U64_MAX -> n = v /\ v <= max.
Proof.
  unfold checked_count. intros H Hm. unfold try_from_max in H at 1.
  destruct (Z.leb_spec max U64_MAX); [|lia]. bool_cases; [discriminate|].
  apply ok_or_inv, try_from_max_inv in H as [-> _]. auto.
Qed.

Lemma checked_count_ok v what max :
  v <= max -> 0 <= max <= U64_MAX -> checked_count v what max = Ok v.
Proof.
  intros Hv Hm. unfold checked_count. unfold try_from_max at 1.
  destruct (Z.leb_spec max U64_MAX); [|lia].
  destruct (Z.ltb_spec max v); [lia|]. unfold usize_try_from, try_from_max.
  destruct (Z.leb_spec v USIZE_MAX); [reflexivity|]. unfold U64_MAX, USIZE_MAX in *; lia.
Qed.

(** ** Offset columns

    The loops over Array/Map offsets fold [checked_monotonic_offset] over the
    decoded values, starting at zero. *)
Fixpoint fold_offsets (prev : Z) (offs : list Z) (what : bytes) : result message Z :=
  match offs with
  | [] => Ok prev
  | o :: offs => let* t := checked_monotonic_offset prev o what in fold_offsets t offs what
  end.

(** The prefix sums are non-decreasing from [prev] and end below the row cap. *)
Definition offsets_ok (prev : Z) (offs : list Z) : Prop :=
  Sorted Z.le (prev :: offs) /\ Forall (fun o => o <= MAX_BLOCK_ROWS) offs.

Lemma fold_offsets_ok prev offs what :
  offsets_ok prev offs -> fold_offsets prev offs what = Ok (last offs prev).
Proof.
  revert prev; induction offs as [|o offs IH]; intros prev [Hs Hf]; [reflexivity|].
  inversion Hs as [|? ? Hs' Hhd]; subst. inversion Hhd; subst. inversion Hf; subst.
  cbn [fold_offsets]. rewrite checked_monotonic_offset_ok by lia. cbn [bind result_monad].
  rewrite IH by (split; assumption). f_equal.
  destruct offs as [|o' offs]; [reflexivity|]. cbn [last].
  clear; revert o'; induction offs; cbn; auto.
Qed.

Lemma fold_offsets_inv prev offs what t :
  fold_offsets prev offs what = Ok t -> offsets_ok prev offs /\ t = last offs prev.
Proof.
  revert prev t; induction offs as [|o offs IH]; intros prev t H.
  - cbn in *. inj. split; [split; repeat constructor | reflexivity].
  - cbn [fold_offsets] in H. apply result_bind_inv in H as (a & Ha & H).
    apply checked_monotonic_offset_inv in Ha as [-> Hr].
    apply IH in H as [[Hs Hf] ->]. split.
    + split; constructor; auto; [constructor; lia | lia].
    + destruct offs as [|o' offs]; [reflexivity|]. cbn [last].
      clear; revert o'; induction offs; cbn; auto.
Qed.

(** The offset validator accepts exactly the non-decreasing prefix sums
    below [MAX_BLOCK_ROWS], and returns the last one (the inner row count). *)
Theorem fold_offsets_spec offs what t :
  fold_offsets 0 offs what = Ok t <-> offsets_ok 0 offs /\ t = last offs 0.
Proof.
  split; [apply fold_offsets_inv|]. intros [H ->]. now apply fold_offsets_ok.
Qed.

(** ** Accumulating a response *)

(** An accumulating API charges the blocks it retains one after the other and
    stops at the first breach. *)
Fixpoint charge_all (b : ResponseBudget) (sizes : list Z) : result unit unit * ResponseBudget :=
  match sizes with
  | [] => (Ok tt, b)
  | n :: sizes =>
      match charge b n with
      | (Ok _, b') => charge_all b' sizes
      | (Err e, b') => (Err e, b')
      end
  end.

Definition sum (l : list Z) : Z := fold_right Z.add 0 l.

Lemma charge_all_limit b sizes : limit (snd (charge_all b sizes)) = limit b.
Proof.
  revert b; induction sizes as [|n sizes IH]; intros b; cbn; [reflexivity|].
  unfold charge. destruct (checked_add (used b) n); cbn; [|reflexivity].
  bool_cases; cbn; [reflexivity|]. now rewrite IH.
Qed.

Lemma charge_all_used b sizes :
  fst (charge_all b sizes) = Ok tt -> used (snd (charge_all b sizes)) = used b + sum sizes.
Proof.
  revert b; induction sizes as [|n sizes IH]; intros b; cbn; [lia|].
  unfold charge. destruct (checked_add (used b) n) as [u|] eqn:E; cbn; [|discriminate].
  apply checked_add_inv in E as [-> _]. bool_cases; cbn; [discriminate|].
  intros H'. rewrite IH by assumption. cbn. unfold sum. lia.
Qed.

Lemma charge_all_ok b sizes :
  Forall (fun n => 0 <= n) sizes -> 0 <= limit b <= USIZE_MAX -> used b <= limit b ->
  fst (charge_all b sizes) = Ok tt <-> used b + sum sizes <= limit b.
Proof.
  revert b; induction sizes as [|n sizes IH]; intros b Hf Hl Hu.
  - cbn. split; [lia|reflexivity].
  - inversion Hf as [|? ? Hn Hf']; subst.
    assert (0 <= sum sizes) as Hs
      by (clear - Hf'; induction Hf'; cbn; [lia|]; unfold sum in *; lia).
    cbn [charge_all sum fold_right]. fold (sum sizes). unfold charge, checked_add.
    destruct (Z.leb_spec (used b + n) USIZE_MAX) as [Hle|Hgt]; cbn.
    + destruct (Z.ltb_spec (limit b) (used b + n)) as [Hlt|Hge]; cbn.
      * split; [discriminate|lia].
      * rewrite IH by (cbn; auto; lia). cbn. lia.
    + split; [discriminate|lia].
Qed.

(** Charging a response's blocks succeeds exactly when their total payload
    is within the configured limit, and then the budget holds that total. *)
Theorem charge_all_spec (lim : Z) (sizes : list Z) :
  0 <= lim <= USIZE_MAX -> Forall (fun n => 0 <= n) sizes ->
  (fst (charge_all (new_budget lim) sizes) = Ok tt <-> sum sizes <= lim) /\
  (fst (charge_all (new_budget lim) sizes) = Ok tt ->
   used (snd (charge_all (new_budget lim) sizes)) = sum sizes).
Proof.
  intros Hl Hf. split.
  - apply (charge_all_ok (new_budget lim) sizes Hf Hl). cbn; lia.
  - apply (charge_all_used (new_budget lim)).
Qed.

Lemma charge_all_spec_witness :
  fst (charge_all (new_budget 32) [16; 16]) = Ok tt <-> 32 <= 32.
Proof.
  apply (charge_all_spec 32 [16; 16]); [unfold USIZE_MAX; lia | repeat constructor; lia].
Defined.
