(* ===== verification/Utf8.v ===== *)
(** * UTF-8 validation, as the code uses it from the standard library

    [str::from_utf8] / [String::from_utf8] accept exactly the well-formed UTF-8
    byte sequences (no overlong forms, no surrogates, at most U+10FFFF), and
    [String::from_utf8_lossy] replaces every maximal ill-formed subsequence by
    U+FFFD.  Both follow the scan of [core::str::Utf8Chunks]. *)

From Stdlib Require Import String ZArith Lia Bool List.
From Stdlib Require Import Strings.Byte.
From coqutil Require Import Byte.
From S2P Require Import Prelude.
Import ListNotations.

(** [b & 192 == 128], where a missing byte reads as zero. *)
Definition is_cont (o : option Init.Byte.byte) : bool :=
  match o with Some b => Z.land (byte.unsigned b) 192 =? 128 | None => false end.

Definition in_range (o : option Init.Byte.byte) (lo hi : Z) : bool :=
  match o with
  | Some b => (lo <=? byte.unsigned b) && (byte.unsigned b <=? hi)
  | None => false
  end.

(** The second byte of a three- or four-byte sequence that starts with [x]. *)
Definition second_ok3 (x : Z) (o : option Init.Byte.byte) : bool :=
  if x =? 0xE0 then in_range o 0xA0 0xBF
  else if x =? 0xED then in_range o 0x80 0x9F
  else in_range o 0x80 0xBF.

Definition second_ok4 (x : Z) (o : option Init.Byte.byte) : bool :=
  if x =? 0xF0 then in_range o 0x90 0xBF
  else if x =? 0xF4 then in_range o 0x80 0x8F
  else in_range o 0x80 0xBF.

(** One step of the scan: whether the next sequence is well formed, and how many
    bytes it (or the maximal ill-formed prefix) takes. *)
Definition utf8_step (l : bytes) : bool * nat :=
  match l with
  | [] => (true, 0%nat)
  | b :: t =>
      let x := byte.unsigned b in
      if x <? 128 then (true, 1%nat)
      else if (0xC2 <=? x) && (x <=? 0xDF) then
        if is_cont (nth_error t 0) then (true, 2%nat) else (false, 1%nat)
      else if (0xE0 <=? x) && (x <=? 0xEF) then
        if second_ok3 x (nth_error t 0) then
          if is_cont (nth_error t 1) then (true, 3%nat) else (false, 2%nat)
        else (false, 1%nat)
      else if (0xF0 <=? x) && (x <=? 0xF4) then
        if second_ok4 x (nth_error t 0) then
          if is_cont (nth_error t 1) then
            if is_cont (nth_error t 2) then (true, 4%nat) else (false, 3%nat)
          else (false, 2%nat)
        else (false, 1%nat)
      else (false, 1%nat)
  end.

Fixpoint utf8_valid_loop (fuel : nat) (l : bytes) : bool :=
  match l, fuel with
  | [], _ => true
  | _, O => false
  | _, S fuel => let '(ok, n) := utf8_step l in ok && utf8_valid_loop fuel (skipn n l)
  end.

(** [std::str::from_utf8(l).is_ok()] *)
Definition utf8_valid (l : bytes) : bool := utf8_valid_loop (length l) l.

(** U+FFFD REPLACEMENT CHARACTER *)
Definition replacement : bytes := [xef; xbf; xbd].

Fixpoint utf8_lossy_loop (fuel : nat) (l : bytes) : bytes :=
  match l, fuel with
  | [], _ => []
  | _, O => []
  | _, S fuel =>
      let '(ok, n) := utf8_step l in
      (if ok then firstn n l else replacement) ++ utf8_lossy_loop fuel (skipn n l)
  end.

(** [String::from_utf8_lossy(l)] *)
Definition from_utf8_lossy (l : bytes) : bytes := utf8_lossy_loop (length l) l.

(** ** The scan *)

(** A successful step looks only at the bytes it takes, and they are there. *)
Lemma utf8_step_ok l n :
  utf8_step l = (true, n) -> l <> [] ->
  (1 <= n <= length l)%nat /\ forall rest, utf8_step (firstn n l ++ rest) = (true, n).
Proof.
  intros H Hne. destruct l as [|b t]; [easy|]. clear Hne. unfold utf8_step in H.
  destruct (byte.unsigned b <? 128) eqn:E1; [injection H as <-; split; [cbn; lia|]|].
  { intros rest. cbn. now rewrite E1. }
  destruct ((0xC2 <=? byte.unsigned b) && (byte.unsigned b <=? 0xDF)) eqn:E2;
  [|destruct ((0xE0 <=? byte.unsigned b) && (byte.unsigned b <=? 0xEF)) eqn:E3;
  [|destruct ((0xF0 <=? byte.unsigned b) && (byte.unsigned b <=? 0xF4)) eqn:E4; [|discriminate]]].
  all: destruct t as [|b1 t]; cbn [nth_error] in H.
  all: repeat match type of H with
       | (if ?c then _ else _) = _ => destruct c eqn:?; try discriminate H
       end.
  all: injection H as <-; try discriminate.
  all: try (unfold second_ok3, second_ok4 in *; repeat match goal with
       | H : (if ?c then _ else _) = true |- _ => destruct c
       end; discriminate).
  all: try (destruct t as [|b2 t]; [discriminate|]).
  all: try (destruct t as [|b3 t]; [discriminate|]).
  all: split; [cbn; lia|]; intros rest; cbn [firstn app utf8_step nth_error] in *.
  all: rewrite ?E1, ?E2, ?E3, ?E4;
       repeat match goal with
       | E : ?c = true |- context [if ?c then _ else _] => rewrite E
       end; reflexivity.
Qed.

Lemma utf8_step_progress l ok n : utf8_step l = (ok, n) -> l <> [] -> (1 <= n)%nat.
Proof.
  destruct l as [|b t]; [easy|]. intros H _. unfold utf8_step in H.
  repeat match type of H with
         | (if ?c then _ else _) = _ => destruct c
         end; injection H as <- <-; lia.
Qed.

Lemma utf8_valid_fuel f1 f2 l :
  (length l <= f1)%nat -> (length l <= f2)%nat -> utf8_valid_loop f1 l = utf8_valid_loop f2 l.
Proof.
  revert f2 l; induction f1 as [|f1 IH]; intros f2 [|b t] H1 H2; cbn in H1; try lia.
  - now destruct f2.
  - now destruct f2.
  - destruct f2 as [|f2]; [cbn in H2; lia|].
    cbn [utf8_valid_loop]. destruct (utf8_step (b :: t)) as [ok n] eqn:E.
    apply utf8_step_progress in E; [|discriminate].
    f_equal. apply IH; rewrite length_skipn; cbn [length] in *; lia.
Qed.

Lemma utf8_valid_nil : utf8_valid [] = true.
Proof. reflexivity. Qed.

(** Well-formed characters can be prepended to well-formed text. *)
Lemma utf8_valid_char c rest :
  c <> [] -> utf8_step (c ++ rest) = (true, length c) -> utf8_valid rest = true ->
  utf8_valid (c ++ rest) = true.
Proof.
  intros Hne Hs Hr. unfold utf8_valid. destruct c as [|b c]; [easy|].
  cbn [app length utf8_valid_loop] in *. rewrite Hs. cbn [andb skipn].
  rewrite skipn_app, Nat.sub_diag, skipn_all. cbn [app skipn].
  rewrite <- Hr. apply utf8_valid_fuel; rewrite ?length_app; lia.
Qed.

Lemma utf8_valid_step l n rest :
  utf8_step l = (true, n) -> l <> [] -> utf8_valid rest = true ->
  utf8_valid (firstn n l ++ rest) = true.
Proof.
  intros H Hne Hr. destruct (utf8_step_ok l n H Hne) as [Hn Hs].
  apply utf8_valid_char; [|rewrite Hs, length_firstn; f_equal; lia|assumption].
  destruct l, n; cbn in *; try easy; lia.
Qed.

Lemma replacement_step : utf8_step replacement = (true, 3%nat).
Proof. reflexivity. Qed.

(** The text that [from_utf8_lossy] produces is well-formed UTF-8, so the
    names and messages of server exceptions are valid [String]s. *)
Lemma from_utf8_lossy_valid (l : bytes) : utf8_valid (from_utf8_lossy l) = true.
Proof.
  unfold from_utf8_lossy. generalize (length l) at 1. intros fuel. revert l.
  induction fuel as [|fuel IH]; intros [|b t]; try reflexivity.
  cbn [utf8_lossy_loop]. destruct (utf8_step (b :: t)) as [ok n] eqn:E. destruct ok.
  - apply utf8_valid_step; [assumption|discriminate|apply IH].
  - change replacement with (firstn 3 replacement).
    apply utf8_valid_step; [reflexivity|discriminate|apply IH].
Qed.

(** [from_utf8_lossy] leaves well-formed text unchanged. *)
Lemma from_utf8_lossy_id (l : bytes) : utf8_valid l = true -> from_utf8_lossy l = l.
Proof.
  unfold utf8_valid, from_utf8_lossy. generalize (length l). intros fuel. revert l.
  induction fuel as [|fuel IH]; intros [|b t] H; try reflexivity; try discriminate.
  cbn [utf8_valid_loop] in H. cbn [utf8_lossy_loop].
  destruct (utf8_step (b :: t)) as [ok n]. apply andb_prop in H as [-> H].
  rewrite IH by assumption. apply firstn_skipn.
Qed.
(** ASCII text is well formed. *)
Lemma utf8_valid_ascii l :
  Forall (fun b => byte.unsigned b < 128) l -> utf8_valid l = true.
Proof.
  unfold utf8_valid. induction 1 as [|b l Hb Hl IH]; [reflexivity|].
  cbn [length utf8_valid_loop utf8_step].
  destruct (Z.ltb_spec (byte.unsigned b) 128); [exact IH | lia].
Qed.
