(* ===== verification/Wire.v ===== *)
(** * Binary wire format ([shared/wire.rs], [shared/async_wire.rs])

    Varints, length-prefixed strings and fixed-width integers, for streams
    ([read_*], [async_read_*]), for buffers ([parse_*]) and for output
    ([write_*], [encode_varint]: the bytes they append). *)

From Stdlib Require Import String ZArith Lia Bool List.
From Stdlib Require Import Strings.Byte.
From coqutil Require Import Byte.
From S2P Require Import Prelude Reader Limits Utf8.
Import ListNotations.

(** The single byte of a one-byte read. *)
Definition byte0 (bs : bytes) : Z :=
  match bs with b :: _ => byte.unsigned b | [] => 0 end.

Definition varint_overflow : error := Protocol (msg "varint overflow").

(** ** Streams *)

(** The loop of [read_varint]: ten bytes at most, so eleven tests of [shift]. *)
Fixpoint read_varint_loop (fuel : nat) (r shift : Z) : reader Z :=
  match fuel with
  | O => throw ModelFuel
  | S fuel =>
      if 64 <=? shift then throw varint_overflow
      else
        let* bs := read_exact_r 1 in
        let b := byte0 bs in
        if (shift =? 63) && (1 <? Z.land b 0x7F) then throw varint_overflow
        else
          let r := Z.lor r (u64_shl (Z.land b 0x7F) shift) in
          if Z.land b 0x80 =? 0 then ret r else read_varint_loop fuel r (shift + 7)
  end.

Definition read_varint : reader Z := read_varint_loop 11 0 0.

Fixpoint async_read_varint_loop (fuel : nat) (result shift : Z) : reader Z :=
  match fuel with
  | O => throw ModelFuel
  | S fuel =>
      let* bs := read_exact_r 1 in
      let b := byte0 bs in
      if (shift =? 63) && (1 <? Z.land b 0x7F) then throw varint_overflow
      else
        let result := Z.lor result (u64_shl (Z.land b 0x7F) shift) in
        if Z.land b 0x80 =? 0 then ret result
        else
          let shift := shift + 7 in
          if 64 <=? shift then throw varint_overflow
          else async_read_varint_loop fuel result shift
  end.

Definition async_read_varint : reader Z := async_read_varint_loop 10 0 0.

(** [checked_string_len] of [wire.rs] (its own message). *)
Definition wire_checked_string_len (value : Z) : result error Z :=
  let* value := ok_or (usize_try_from value) (Protocol (msg "string length too large")) in
  if MAX_STRING_BYTES <? value
  then Err (Protocol (Msg "string length {value} exceeds clickhouse-cpp limit {MAX_STRING_BYTES}"
                          [AZ value; AZ MAX_STRING_BYTES]))
  else Ok value.

Definition read_string_bytes : reader bytes :=
  let* v := read_varint in
  let* len := lift (wire_checked_string_len v) in
  read_exact_r len.

(** [String::from_utf8(buf)] with the error mapped to [Error::Protocol]. *)
Definition from_utf8 (what : string) (s : bytes) : result error bytes :=
  if utf8_valid s then Ok s else Err (Protocol (Msg what [AS s])).

Definition read_string : reader bytes :=
  let* v := read_varint in
  let* len := lift (wire_checked_string_len v) in
  let* buf := read_exact_r len in
  lift (from_utf8 "invalid utf8: {e}" buf).

Definition read_string_unchecked : reader bytes := read_string.

Definition read_bytes (n : Z) : reader bytes := read_exact_r n.

Definition async_read_string_bytes : reader bytes :=
  let* v := async_read_varint in
  let* len := lift (wire_checked_string_len v) in
  read_exact_r len.

Definition async_read_string : reader bytes :=
  let* v := async_read_varint in
  let* len := lift (wire_checked_string_len v) in
  let* buf := read_exact_r len in
  lift (from_utf8 "invalid UTF-8: {e}" buf).

Definition async_read_exact (n : Z) : reader bytes := read_exact_r n.

Definition async_read_i32 : reader Z :=
  let* buf := read_exact_r 4 in ret (i32_from_le buf).

(** ** Output *)

(** The loop of [write_varint] and [encode_varint]: a [u64] takes ten rounds. *)
Fixpoint encode_varint_loop (fuel : nat) (v : Z) : bytes :=
  match fuel with
  | O => []
  | S fuel =>
      let byte := Z.land v 0x7F in
      let v := Z.shiftr v 7 in
      let byte := if v =? 0 then byte else Z.lor byte 0x80 in
      byte.of_Z byte :: (if v =? 0 then [] else encode_varint_loop fuel v)
  end.

Definition encode_varint (v : Z) : bytes := encode_varint_loop 10 v.

Definition write_varint (v : Z) : bytes := encode_varint v.

Definition write_string (s : bytes) : bytes := write_varint (blen s) ++ s.

Definition write_string_bytes (value : bytes) : bytes := write_varint (blen value) ++ value.

Definition write_bytes (data : bytes) : bytes := data.

(** [varint_len] of [shared/block_writer.rs]. *)
Fixpoint varint_len_loop (fuel : nat) (value len : Z) : Z :=
  match fuel with
  | O => len
  | S fuel => if 0x80 <=? value then varint_len_loop fuel (Z.shiftr value 7) (len + 1) else len
  end.

Definition varint_len (value : Z) : Z := varint_len_loop 10 value 1.

(** ** Buffers *)

Definition parse_eof (what : string) : error := Protocol (msg what).

Fixpoint parse_varint_loop (fuel : nat) (r shift : Z) : parser Z :=
  match fuel with
  | O => throw ModelFuel
  | S fuel => fun buf pos =>
      if blen buf <=? pos then Err (parse_eof "unexpected end of buffer parsing varint")
      else
        let b := byte0 (drop pos buf) in
        let pos := pos + 1 in
        if 63 <? shift then Err varint_overflow
        else if (shift =? 63) && (1 <? Z.land b 0x7F) then Err varint_overflow
        else
          let r := Z.lor r (u64_shl (Z.land b 0x7F) shift) in
          if Z.land b 0x80 =? 0 then Ok (r, pos)
          else parse_varint_loop fuel r (shift + 7) buf pos
  end.

Definition parse_varint : parser Z := parse_varint_loop 11 0 0.

Definition parse_bytes (n : Z) : parser bytes := fun buf pos =>
  match checked_add pos n with
  | None => Err (Protocol (msg "byte length overflow"))
  | Some end_ =>
      if blen buf <? end_ then Err (parse_eof "unexpected end of buffer parsing bytes")
      else Ok (slice buf pos end_, end_)
  end.

Definition parse_string_bytes : parser bytes :=
  let* v := parse_varint in
  let* len := lift (wire_checked_string_len v) in
  parse_bytes len.

(** The tail of [parse_string]: bounds check, UTF-8 check, advance. *)
Definition parse_utf8_slice (len : Z) : parser bytes := fun buf pos =>
  match checked_add pos len with
  | None => Err (Protocol (msg "string length overflow"))
  | Some end_ =>
      if blen buf <? end_ then Err (parse_eof "unexpected end of buffer parsing string")
      else if utf8_valid (slice buf pos end_) then Ok (slice buf pos end_, end_)
      else Err (Protocol (msg "invalid utf8 in response"))
  end.

Definition parse_string : parser bytes :=
  let* v := parse_varint in
  let* len := lift (wire_checked_string_len v) in
  parse_utf8_slice len.

Definition parse_string_unchecked : parser bytes := parse_string.

Definition parse_i32 : parser Z := fun buf pos =>
  match checked_add pos 4 with
  | None => Err (Protocol (msg "i32 length overflow"))
  | Some end_ =>
      if blen buf <? end_ then Err (parse_eof "unexpected end of buffer parsing i32")
      else Ok (i32_from_le (slice buf pos end_), pos + 4)
  end.

(** ** The varint format

    [varint enc v]: [enc] is a base-128 little-endian encoding of [v], every
    byte but the last carrying the continuation bit. *)
Inductive varint : bytes -> Z -> Prop :=
| varint_last b : byte.unsigned b < 128 -> varint [b] (byte.unsigned b)
| varint_more b enc v :
    128 <= byte.unsigned b -> varint enc v ->
    varint (b :: enc) (byte.unsigned b - 128 + 128 * v).

Lemma byte_low7 b : Z.land (byte.unsigned b) 0x7F = byte.unsigned b mod 128.
Proof. change 0x7F with (Z.ones 7). now rewrite Z.land_ones. Qed.

Lemma byte_cont b : (Z.land (byte.unsigned b) 0x80 =? 0) = (byte.unsigned b <? 128).
Proof. destruct b; reflexivity. Qed.

Lemma byte_low7_small b : byte.unsigned b < 128 -> Z.land (byte.unsigned b) 0x7F = byte.unsigned b.
Proof. intros. rewrite byte_low7. apply Z.mod_small. pose proof (byte.unsigned_range b); lia. Qed.

Lemma byte_low7_big b :
  128 <= byte.unsigned b -> Z.land (byte.unsigned b) 0x7F = byte.unsigned b - 128.
Proof.
  intros. rewrite byte_low7. pose proof (byte.unsigned_range b).
  rewrite <- (Z.mod_add (byte.unsigned b) (-1) 128) by lia. apply Z.mod_small. lia.
Qed.

Lemma varint_nonneg enc v : varint enc v -> 0 <= v.
Proof. induction 1; pose proof (byte.unsigned_range b); lia. Qed.

Lemma varint_length enc v : varint enc v -> 1 <= blen enc.
Proof. destruct 1 as [b|b enc]; [reflexivity|]. rewrite blen_cons. pose proof (blen_nonneg enc). lia. Qed.

(** The decoder's accumulation step, when no bit is shifted out. *)
Lemma accumulate r x shift :
  0 <= shift -> 0 <= r < 2 ^ shift -> 0 <= x -> x * 2 ^ shift < 2 ^ 64 ->
  Z.lor r (u64_shl x shift) = r + x * 2 ^ shift.
Proof.
  intros Hs Hr Hx Hm. unfold u64_shl. rewrite Z.shiftl_mul_pow2 by lia.
  rewrite Z.mod_small by nia. rewrite <- Z.add_lor_land.
  enough (Z.land r (x * 2 ^ shift) = 0) by lia.
  apply Z.bits_inj'. intros i Hi. rewrite Z.land_spec, Z.bits_0.
  destruct (Z.ltb_spec i shift).
  - rewrite Z.mul_pow2_bits_low by lia. apply andb_false_r.
  - rewrite <- (Z.mod_small r (2 ^ shift)) by lia. now rewrite Z.mod_pow2_bits_high by lia.
Qed.

Lemma accumulate_fits r x shift :
  0 <= shift <= 64 -> 0 <= r < 2 ^ shift -> x * 2 ^ shift < 2 ^ 64 ->
  r + x * 2 ^ shift < 2 ^ 64.
Proof.
  intros Hs Hr Hx.
  replace 64 with (64 - shift + shift) in * by lia. rewrite Z.pow_add_r in * by lia.
  assert (x < 2 ^ (64 - shift)) by (apply (Z.mul_lt_mono_pos_r (2 ^ shift)); lia). nia.
Qed.

Lemma run_read1 l :
  run (read_exact_r 1) l = match l with [] => Err (Io UnexpectedEof) | b :: l => Ok ([b], l) end.
Proof.
  rewrite run_read_exact. destruct l as [|b l]; [reflexivity|].
  destruct (Z.leb_spec 1 (blen (b :: l))) as [_|H]; [reflexivity|].
  rewrite blen_cons in H. pose proof (blen_nonneg l). lia.
Qed.

Lemma run_bind_read1 {A} (f : bytes -> reader A) b l :
  run (bind (read_exact_r 1) f) (b :: l) = run (f [b]) l.
Proof. now rewrite run_bind, run_read1. Qed.

(** The invariant of the decoding loops after [i] bytes. *)
Lemma read_varint_loop_ok enc v :
  varint enc v ->
  forall fuel r shift rest,
  0 <= shift -> 0 <= r < 2 ^ shift -> r + v * 2 ^ shift < 2 ^ 64 ->
  shift + 7 * (blen enc - 1) <= 63 -> (length enc <= fuel)%nat ->
  run (read_varint_loop fuel r shift) (enc ++ rest) = Ok (r + v * 2 ^ shift, rest).
Proof.
  induction 1 as [b Hb|b enc v Hb He IH]; intros fuel r shift rest Hs Hr Hv Hlen Hf;
    (destruct fuel as [|fuel]; [cbn in Hf; lia|]);
    pose proof (byte.unsigned_range b) as Hrange; cbn [app read_varint_loop].
  - change (blen [b]) with 1 in Hlen.
    destruct (Z.leb_spec 64 shift); [lia|].
    rewrite run_bind_read1. cbn [byte0].
    rewrite byte_cont, byte_low7_small by lia.
    destruct (Z.eqb_spec shift 63) as [->|]; [destruct (Z.ltb_spec 1 (byte.unsigned b)); [lia|]|];
      cbn [andb]; (destruct (Z.ltb_spec (byte.unsigned b) 128); [|lia]);
      rewrite run_ret, accumulate by lia; reflexivity.
  - rewrite blen_cons in Hlen. pose proof (varint_length _ _ He).
    pose proof (varint_nonneg _ _ He).
    destruct (Z.leb_spec 64 shift); [lia|].
    rewrite run_bind_read1. cbn [byte0].
    rewrite byte_cont, byte_low7_big by lia.
    destruct (Z.eqb_spec shift 63); [lia|]. cbn [andb].
    destruct (Z.ltb_spec (byte.unsigned b) 128); [lia|].
    assert (2 ^ (shift + 7) = 2 ^ shift * 128) as Hpow by (rewrite Z.pow_add_r by lia; reflexivity).
    assert (0 < 2 ^ shift) by (apply Z.pow_pos_nonneg; lia).
    rewrite accumulate by nia.
    rewrite IH; rewrite ?Hpow; [|lia|nia|nia|lia|cbn in Hf; lia].
    do 2 f_equal. ring.
Qed.

Lemma read_varint_loop_inv fuel :
  forall i r l w rest,
  0 <= i -> 0 <= r < 2 ^ (7 * i) ->
  run (read_varint_loop fuel r (7 * i)) l = Ok (w, rest) ->
  exists enc v, l = enc ++ rest /\ varint enc v /\ w = r + v * 2 ^ (7 * i) /\
    w < 2 ^ 64 /\ i + blen enc <= 10.
Proof.
  induction fuel as [|fuel IH]; intros i r l w rest Hi Hr H; [discriminate|].
  cbn [read_varint_loop] in H. destruct (Z.leb_spec 64 (7 * i)); [discriminate|].
  apply run_bind_inv in H as (bs & l' & Hread & H). rewrite run_read1 in Hread.
  destruct l as [|b l]; [discriminate|]. inj. cbn [byte0] in H.
  pose proof (byte.unsigned_range b) as Hrange.
  assert (0 < 2 ^ (7 * i)) by (apply Z.pow_pos_nonneg; lia).
  assert (2 ^ (7 * (i + 1)) = 2 ^ (7 * i) * 128) as Hpow
    by (replace (7 * (i + 1)) with (7 * i + 7) by lia; rewrite Z.pow_add_r by lia; reflexivity).
  destruct ((7 * i =? 63) && (1 <? Z.land (byte.unsigned b) 127)) eqn:Hov; [discriminate|].
  assert (Z.land (byte.unsigned b) 127 * 2 ^ (7 * i) < 2 ^ 64) as Hfit.
  { apply andb_false_iff in Hov. rewrite byte_low7 in *.
    pose proof (Z.mod_pos_bound (byte.unsigned b) 128 ltac:(lia)).
    destruct (Z.eqb_spec (7 * i) 63) as [E|].
    - destruct Hov as [?|Hov]; [discriminate|]. apply Z.ltb_ge in Hov.
      rewrite E. lia.
    - assert (2 ^ (7 * i) <= 2 ^ 56) by (apply Z.pow_le_mono_r; lia).
      change (2 ^ 64) with (256 * 2 ^ 56). nia. }
  rewrite byte_cont in H. destruct (Z.ltb_spec (byte.unsigned b) 128) as [Hb|Hb].
  - rewrite byte_low7_small in Hfit, H by lia. rewrite run_ret in H. inj.
    exists [b], (byte.unsigned b). rewrite accumulate by (assumption || lia).
    split; [reflexivity|]. split; [now constructor|]. split; [reflexivity|].
    split; [|change (blen [b]) with 1; lia].
    apply accumulate_fits; lia.
  - rewrite byte_low7_big in Hfit, H by lia.
    rewrite accumulate in H by (assumption || lia).
    replace (7 * i + 7) with (7 * (i + 1)) in H by lia.
    apply IH in H as (enc & v & -> & He & -> & Hw & Hlen); [|lia|rewrite Hpow; nia].
    exists (b :: enc), (byte.unsigned b - 128 + 128 * v).
    split; [reflexivity|]. split; [now constructor|]. rewrite Hpow in *.
    split; [ring|]. split; [assumption|]. rewrite blen_cons. lia.
Qed.

Lemma read_varint_inv l w rest :
  run read_varint l = Ok (w, rest) ->
  exists enc, l = enc ++ rest /\ varint enc w /\ w <= U64_MAX /\ blen enc <= 10.
Proof.
  unfold read_varint, U64_MAX. intros H.
  change (read_varint_loop 11 0 0) with (read_varint_loop 11 0 (7 * 0)) in H.
  apply read_varint_loop_inv in H as (enc & v & -> & He & -> & Hw & Hlen); try lia.
  exists enc. change (2 ^ (7 * 0)) with 1 in *. rewrite Z.mul_1_r, Z.add_0_l in *.
  repeat split; auto; lia.
Qed.

Lemma read_varint_ok enc w rest :
  varint enc w -> w <= U64_MAX -> blen enc <= 10 ->
  run read_varint (enc ++ rest) = Ok (w, rest).
Proof.
  unfold read_varint, U64_MAX. intros He Hw Hlen.
  pose proof (varint_nonneg _ _ He).
  rewrite (read_varint_loop_ok enc w He); change (2 ^ 0) with 1; try lia.
  - now rewrite Z.add_0_l, Z.mul_1_r.
  - unfold blen in Hlen. lia.
Qed.

(** [read_varint] accepts exactly the varints of at most ten bytes whose
    value fits a [u64], returns that value and leaves the rest of the stream. *)
Theorem read_varint_spec (l : bytes) (w : Z) (rest : bytes) :
  run read_varint l = Ok (w, rest) <->
  exists enc, l = enc ++ rest /\ varint enc w /\ w <= U64_MAX /\ blen enc <= 10.
Proof.
  split; [apply read_varint_inv|]. intros (enc & -> & He & Hw & Hlen).
  now apply read_varint_ok.
Qed.

(** ** Encoding *)

Lemma unsigned_of_Z_small z : 0 <= z < 256 -> byte.unsigned (byte.of_Z z) = z.
Proof. intros. rewrite byte.unsigned_of_Z. now apply Z.mod_small. Qed.

Lemma low7_or_cont v : 0 <= v -> Z.lor (Z.land v 0x7F) 0x80 = v mod 128 + 128.
Proof.
  intros. change 0x7F with (Z.ones 7). rewrite Z.land_ones by lia.
  change (2 ^ 7) with 128. rewrite <- Z.add_lor_land.
  enough (Z.land (v mod 128) 128 = 0) by lia.
  apply Z.bits_inj'. intros i Hi. rewrite Z.land_spec, Z.bits_0.
  change 128 with (2 ^ 7) at 2. rewrite Z.pow2_bits_eqb by lia.
  destruct (Z.eqb_spec 7 i) as [<-|]; [|apply andb_false_r].
  change 128 with (2 ^ 7). now rewrite Z.mod_pow2_bits_high by lia.
Qed.

Lemma encode_varint_loop_varint fuel v :
  0 <= v < 2 ^ (7 * Z.of_nat fuel) -> (0 < fuel)%nat ->
  varint (encode_varint_loop fuel v) v /\ (length (encode_varint_loop fuel v) <= fuel)%nat.
Proof.
  revert v; induction fuel as [|fuel IH]; intros v Hv Hf; [lia|].
  cbn [encode_varint_loop]. rewrite Z.shiftr_div_pow2 by lia. change (2 ^ 7) with 128.
  pose proof (Z.div_mod v 128 ltac:(lia)) as Hdm.
  pose proof (Z.mod_pos_bound v 128 ltac:(lia)) as Hm.
  destruct (Z.eqb_spec (v / 128) 0) as [E|E].
  - split; [|cbn; lia]. change 0x7F with (Z.ones 7). rewrite Z.land_ones by lia.
    change (2 ^ 7) with 128.
    assert (byte.unsigned (byte.of_Z (v mod 128)) = v) as Hu
      by (rewrite unsigned_of_Z_small; lia).
    rewrite <- Hu at 2. apply varint_last. lia.
  - rewrite low7_or_cont by lia.
    assert (byte.unsigned (byte.of_Z (v mod 128 + 128)) = v mod 128 + 128) as Hu
      by (apply unsigned_of_Z_small; lia).
    assert (0 <= v / 128 < 2 ^ (7 * Z.of_nat fuel)) as Hv'.
    { split; [apply Z.div_pos; lia|]. apply Z.div_lt_upper_bound; [lia|].
      rewrite Nat2Z.inj_succ, Z.mul_succ_r, Z.pow_add_r in Hv by lia.
      change (2 ^ 7) with 128 in Hv. lia. }
    assert (0 < fuel)%nat by (destruct fuel; [cbn in Hv'; lia|lia]).
    destruct (IH (v / 128) Hv' ltac:(assumption)) as [He Hl]. split; [|cbn; lia].
    replace v with (byte.unsigned (byte.of_Z (v mod 128 + 128)) - 128 + 128 * (v / 128)) at 3
      by lia.
    constructor; [lia|assumption].
Qed.

Lemma encode_varint_varint v :
  0 <= v <= U64_MAX -> varint (encode_varint v) v /\ blen (encode_varint v) <= 10.
Proof.
  intros Hv. unfold encode_varint.
  destruct (encode_varint_loop_varint 10 v) as [H1 H2]; [unfold U64_MAX in Hv; cbn; lia|lia|].
  split; [assumption|]. unfold blen. lia.
Qed.

Lemma read_encode_varint v rest :
  0 <= v <= U64_MAX -> run read_varint (encode_varint v ++ rest) = Ok (v, rest).
Proof.
  intros Hv. destruct (encode_varint_varint v Hv). apply read_varint_ok; auto; lia.
Qed.

(** The capacity computed for a varint is the number of bytes written. *)
Lemma varint_len_loop_spec fuel v len :
  0 <= v < 2 ^ (7 * Z.of_nat fuel) -> (0 < fuel)%nat ->
  varint_len_loop fuel v len = len - 1 + blen (encode_varint_loop fuel v).
Proof.
  revert v len; induction fuel as [|fuel IH]; intros v len Hv Hf; [lia|].
  cbn [varint_len_loop encode_varint_loop]. rewrite Z.shiftr_div_pow2 by lia.
  change (2 ^ 7) with 128. rewrite blen_cons.
  pose proof (Z.div_mod v 128 ltac:(lia)). pose proof (Z.mod_pos_bound v 128 ltac:(lia)).
  destruct (Z.leb_spec 0x80 v); destruct (Z.eqb_spec (v / 128) 0); try lia.
  - assert (0 <= v / 128 < 2 ^ (7 * Z.of_nat fuel)) as Hv'.
    { split; [apply Z.div_pos; lia|]. apply Z.div_lt_upper_bound; [lia|].
      rewrite Nat2Z.inj_succ, Z.mul_succ_r, Z.pow_add_r in Hv by lia.
      change (2 ^ 7) with 128 in Hv. lia. }
    assert (0 < fuel)%nat by (destruct fuel; [cbn in Hv'; lia|lia]).
    rewrite IH by assumption. lia.
  - change (blen []) with 0. lia.
Qed.

Lemma varint_len_spec v : 0 <= v <= U64_MAX -> varint_len v = blen (encode_varint v).
Proof.
  intros. unfold varint_len, encode_varint.
  rewrite varint_len_loop_spec; [lia| |lia].
  change (2 ^ (7 * Z.of_nat 10)) with (2 ^ 70). unfold U64_MAX in *. lia.
Qed.

Lemma varint_len_bound v : 0 <= v <= U64_MAX -> 1 <= varint_len v <= 10.
Proof.
  intros Hv. rewrite varint_len_spec by assumption.
  destruct (encode_varint_varint v Hv) as [H ?]. apply varint_length in H. lia.
Qed.

(** ** Strings *)

Lemma wire_checked_string_len_ok v :
  v <= MAX_STRING_BYTES -> wire_checked_string_len v = Ok v.
Proof.
  intros H. unfold wire_checked_string_len, usize_try_from, try_from_max.
  destruct (Z.leb_spec v USIZE_MAX) as [_|Hc];
    [|unfold MAX_STRING_BYTES, USIZE_MAX in *; lia].
  cbn [ok_or bind result_monad]. now destruct (Z.ltb_spec MAX_STRING_BYTES v); [lia|].
Qed.

Lemma wire_checked_string_len_inv v n :
  wire_checked_string_len v = Ok n -> n = v /\ v <= MAX_STRING_BYTES.
Proof.
  unfold wire_checked_string_len. intros H. apply ok_or_bind_inv in H as (a & Ha & H).
  apply try_from_max_inv in Ha as [-> _]. bool_cases; inj; auto.
Qed.

Lemma read_write_string_bytes s rest :
  blen s <= MAX_STRING_BYTES ->
  run read_string_bytes (write_string_bytes s ++ rest) = Ok (s, rest).
Proof.
  intros Hs. pose proof (blen_nonneg s). unfold read_string_bytes, write_string_bytes, write_varint.
  rewrite <- app_assoc. erewrite run_bind_ok by (apply read_encode_varint;
    unfold MAX_STRING_BYTES, U64_MAX in *; lia).
  erewrite run_bind_ok by (rewrite run_lift, wire_checked_string_len_ok by lia; reflexivity).
  rewrite run_read_exact, take_app_exact, drop_app_exact.
  rewrite blen_app. pose proof (blen_nonneg rest).
  now destruct (Z.leb_spec (blen s) (blen s + blen rest)); [|lia].
Qed.

Lemma read_string_of_bytes :
  forall l, run read_string l =
  run (let* buf := read_string_bytes in lift (from_utf8 "invalid utf8: {e}" buf)) l.
Proof.
  intros l. unfold read_string, read_string_bytes. rewrite !run_bind.
  destruct (run read_varint l) as [[v l1]|e]; [|reflexivity]. rewrite !run_bind.
  destruct (run (lift (wire_checked_string_len v)) l1) as [[len l2]|e]; [|reflexivity].
  apply run_bind.
Qed.

Lemma read_string_written (s rest : bytes) :
  utf8_valid s = true -> blen s <= MAX_STRING_BYTES ->
  run read_string (write_string s ++ rest) = Ok (s, rest).
Proof.
  intros Hu Hs. rewrite read_string_of_bytes.
  erewrite run_bind_ok by (now apply read_write_string_bytes).
  unfold from_utf8. now rewrite Hu.
Qed.

(** Every valid UTF-8 string of at most [MAX_STRING_BYTES] bytes that
    [write_string] puts on the wire is read back by [read_string], which leaves
    the bytes after it. *)
Theorem read_write_string (s rest : bytes) :
  utf8_valid s = true -> blen s <= MAX_STRING_BYTES ->
  run read_string (write_string s ++ rest) = Ok (s, rest).
Proof. apply read_string_written. Qed.

Lemma read_write_string_witness :
  run read_string (write_string (str "SELECT 1") ++ [x00]) = Ok (str "SELECT 1", [x00]).
Proof. apply read_write_string; [reflexivity|]. vm_compute. discriminate. Defined.

(** ** Buffer parsers agree with stream readers *)

Lemma agrees_parse_varint_loop fuel :
  forall r shift, agrees (parse_varint_loop fuel r shift) (read_varint_loop fuel r shift).
Proof.
  induction fuel as [|fuel IH]; intros r shift; [apply agrees_throw|].
  intros buf pos Hpos Hbuf. cbn [parse_varint_loop read_varint_loop].
  destruct (Z.leb_spec 64 shift) as [Hshift|Hshift].
  - rewrite run_throw. destruct (blen buf <=? pos); [eauto|].
    destruct (Z.ltb_spec 63 shift); [eauto|lia].
  - destruct (Z.leb_spec (blen buf) pos) as [Hend|Hend].
    + replace pos with (blen buf) by lia. rewrite drop_all by lia.
      rewrite run_bind, run_read1. eauto.
    + destruct (Z.ltb_spec 63 shift); [lia|].
      destruct (drop pos buf) as [|b l] eqn:E.
      { exfalso. apply (f_equal blen) in E. rewrite blen_drop in E by lia.
        change (blen []) with 0 in E. lia. }
      assert (l = drop (pos + 1) buf) as ->.
      { replace (pos + 1) with (1 + pos) by lia. rewrite <- drop_drop, E by lia. reflexivity. }
      rewrite run_bind_read1. cbn [byte0].
      destruct ((shift =? 63) && (1 <? Z.land (byte.unsigned b) 127)); [rewrite run_throw; eauto|].
      destruct (Z.land (byte.unsigned b) 128 =? 0).
      * rewrite run_ret. exists (pos + 1). repeat split; auto; lia.
      * specialize (IH (Z.lor r (u64_shl (Z.land (byte.unsigned b) 127) shift)) (shift + 7)
                       buf (pos + 1) ltac:(lia) Hbuf).
        destruct (run _ _) as [[v rest]|e]; [|assumption].
        destruct IH as (pos' & ? & ? & ?). exists pos'. repeat split; auto; lia.
Qed.

Lemma agrees_parse_varint : agrees parse_varint read_varint.
Proof. apply agrees_parse_varint_loop. Qed.

Lemma agrees_parse_bytes n : 0 <= n -> agrees (parse_bytes n) (read_exact_r n).
Proof.
  intros Hn buf pos Hpos Hbuf. rewrite run_read_exact, blen_drop by lia.
  unfold parse_bytes, checked_add.
  destruct (Z.leb_spec n (blen buf - pos)).
  - destruct (Z.leb_spec (pos + n) USIZE_MAX); [|unfold USIZE_MAX, ISIZE_MAX in *; lia].
    destruct (Z.ltb_spec (blen buf) (pos + n)); [lia|]. exists (pos + n).
    unfold slice. replace (pos + n - pos) with n by lia.
    rewrite drop_drop by lia. replace (n + pos) with (pos + n) by lia.
    repeat split; auto; lia.
  - destruct (pos + n <=? USIZE_MAX); [|eauto].
    destruct (Z.ltb_spec (blen buf) (pos + n)); [eauto|lia].
Qed.

Lemma read_varint_range l v rest : run read_varint l = Ok (v, rest) -> 0 <= v <= U64_MAX.
Proof.
  intros H. apply read_varint_inv in H as (enc & _ & He & ? & _).
  split; [now apply (varint_nonneg enc)|assumption].
Qed.

Lemma parse_varint_nonneg buf pos v pos' : parse_varint buf pos = Ok (v, pos') -> 0 <= v.
Proof.
  assert (forall fuel r shift pos, 0 <= r -> parse_varint_loop fuel r shift buf pos = Ok (v, pos') ->
          0 <= v) as Hloop.
  { induction fuel as [|fuel IH]; intros r shift p Hr; [discriminate|]. cbn [parse_varint_loop].
    destruct (blen buf <=? p); [discriminate|]. destruct (63 <? shift); [discriminate|].
    destruct (_ && _); [discriminate|].
    assert (0 <= Z.lor r (u64_shl (Z.land (byte0 (drop p buf)) 127) shift)).
    { apply Z.lor_nonneg. split; [assumption|]. apply Z.mod_pos_bound. lia. }
    destruct (_ =? 0); intros H'; inj; eauto. }
  apply Hloop. lia.
Qed.


Lemma agrees_parse_string_bytes : agrees parse_string_bytes read_string_bytes.
Proof.
  eapply agrees_bind_if; [apply agrees_parse_varint|apply parse_varint_nonneg|].
  intros v Hv. apply (agrees_bind_if (fun len => 0 <= len)); [apply agrees_lift| |].
  - intros buf pos len pos' H. apply parser_lift_inv in H as [H _].
    apply wire_checked_string_len_inv in H. lia.
  - intros len Hlen. now apply agrees_parse_bytes.
Qed.

(** [parse_utf8_slice] is [parse_bytes] followed by the UTF-8 check. *)
Lemma agrees_parse_utf8_slice n :
  0 <= n ->
  agrees (parse_utf8_slice n)
         (let* buf := read_exact_r n in lift (from_utf8 "invalid utf8: {e}" buf)).
Proof.
  intros Hn buf pos Hpos Hbuf. pose proof (agrees_parse_bytes n Hn buf pos Hpos Hbuf) as H.
  rewrite run_bind. unfold parse_bytes in H. unfold parse_utf8_slice.
  destruct (run (read_exact_r n) (drop pos buf)) as [[bs rest]|e].
  - destruct H as (pos' & H & Hpos' & ->).
    destruct (checked_add pos n) as [end_|]; [|discriminate].
    destruct (blen buf <? end_); [discriminate|]. inj. rewrite run_lift. unfold from_utf8.
    destruct (utf8_valid (slice buf pos pos')); eauto.
  - destruct H as [e' H]. destruct (checked_add pos n); [|eauto].
    destruct (blen buf <? _); [eauto|discriminate].
Qed.

Lemma agrees_parse_string : agrees parse_string read_string.
Proof.
  eapply agrees_bind_if; [apply agrees_parse_varint|apply parse_varint_nonneg|].
  intros v Hv. apply (agrees_bind_if (fun len => 0 <= len)); [apply agrees_lift| |].
  - intros buf pos len pos' H. apply parser_lift_inv in H as [H _].
    apply wire_checked_string_len_inv in H. lia.
  - intros len Hlen. now apply agrees_parse_utf8_slice.
Qed.

Lemma agrees_parse_i32 : agrees parse_i32 async_read_i32.
Proof.
  intros buf pos Hpos Hbuf. pose proof (agrees_parse_bytes 4 ltac:(lia) buf pos Hpos Hbuf) as H.
  unfold async_read_i32. rewrite run_bind. unfold parse_bytes in H. unfold parse_i32.
  destruct (run (read_exact_r 4) (drop pos buf)) as [[bs rest]|e].
  - destruct H as (pos' & H & Hpos' & ->).
    destruct (checked_add pos 4) as [end_|] eqn:E; [|discriminate].
    apply checked_add_inv in E as [-> _].
    destruct (blen buf <? pos + 4); [discriminate|]. inj. rewrite run_ret. eauto.
  - destruct H as [e' H]. destruct (checked_add pos 4); [|eauto].
    destruct (blen buf <? _); [eauto|discriminate].
Qed.

#[export] Hint Resolve agrees_parse_varint agrees_parse_bytes agrees_parse_string_bytes
  agrees_parse_string agrees_parse_i32 : agrees.

(** On every buffer position, the in-memory parsers of strings, raw strings,
    varints and [i32]s accept the same bytes as the stream readers, with the same
    value and the same number of bytes consumed. *)
Theorem buffer_parsers_agree_with_stream_readers :
  agrees parse_varint read_varint /\ agrees parse_string_bytes read_string_bytes /\
  agrees parse_string read_string /\ agrees parse_i32 async_read_i32.
Proof. repeat split; auto with agrees. Qed.

(** ** The async readers *)

Lemma async_read_varint_loop_eq eof fuel :
  forall r shift l, shift < 64 <= shift + 7 * Z.of_nat fuel ->
  run_with eof (async_read_varint_loop fuel r shift) l =
  run_with eof (read_varint_loop (S fuel) r shift) l.
Proof.
  induction fuel as [|fuel IH]; intros r shift l Hs; [lia|].
  cbn [async_read_varint_loop]. remember (S fuel) as fuel' eqn:Ef. cbn [read_varint_loop].
  destruct (Z.leb_spec 64 shift); [lia|]. rewrite !run_with_bind.
  destruct (run_with eof (read_exact_r 1) l) as [[bs l']|e]; [|reflexivity].
  destruct (_ && _); [reflexivity|]. destruct (_ =? 0); [reflexivity|].
  destruct (Z.leb_spec 64 (shift + 7)).
  - subst fuel'. cbn [read_varint_loop]. now destruct (Z.leb_spec 64 (shift + 7)); [|lia].
  - subst fuel'. apply IH. lia.
Qed.

Lemma async_read_varint_eq eof l :
  run_with eof async_read_varint l = run_with eof read_varint l.
Proof. apply async_read_varint_loop_eq. lia. Qed.

(** The async readers decode what the sync ones decode: the same result or
    error on every stream, however it ends. *)
Theorem async_wire_equiv (eof : error) (l : bytes) :
  run_with eof async_read_varint l = run_with eof read_varint l /\
  run_with eof async_read_string_bytes l = run_with eof read_string_bytes l.
Proof.
  split; [apply async_read_varint_eq|].
  unfold async_read_string_bytes, read_string_bytes.
  now rewrite !run_with_bind, async_read_varint_eq.
Qed.

(** ** The buffer parsers advance *)

Lemma advances_parse_varint_loop fuel r shift : advances (parse_varint_loop fuel r shift).
Proof.
  revert r shift; induction fuel as [|fuel IH]; intros r shift; [apply advances_throw|].
  intros buf pos v pos' Hpos. cbn [parse_varint_loop].
  destruct (Z.leb_spec (blen buf) pos); [discriminate|]. destruct (63 <? shift); [discriminate|].
  destruct (_ && _); [discriminate|]. destruct (_ =? 0).
  - intros. inj. lia.
  - intros H'. apply IH in H'; lia.
Qed.

Lemma advances_parse_varint : advances parse_varint.
Proof. apply advances_parse_varint_loop. Qed.

Lemma advances_parse_bytes n : 0 <= n -> advances (parse_bytes n).
Proof.
  intros Hn buf pos v pos' Hpos. unfold parse_bytes.
  destruct (checked_add pos n) as [e|] eqn:E; [|discriminate].
  apply checked_add_inv in E as [-> _]. destruct (Z.ltb_spec (blen buf) (pos + n)); [discriminate|].
  intros. inj. lia.
Qed.

Lemma parse_varint_bind_advances {A} (f : Z -> parser A) :
  (forall v, 0 <= v -> advances (f v)) -> advances (let* v := parse_varint in f v).
Proof.
  intros Hf buf pos a pos' Hpos H. apply parser_bind_inv in H as (v & p1 & H1 & H2).
  pose proof (parse_varint_nonneg _ _ _ _ H1). apply advances_parse_varint in H1; [|assumption].
  apply Hf in H2; lia.
Qed.

Lemma advances_parse_string_bytes : advances parse_string_bytes.
Proof.
  apply parse_varint_bind_advances. intros v Hv buf pos a pos' Hpos H.
  apply parser_bind_inv in H as (len & p1 & H1 & H2). apply parser_lift_inv in H1 as [H1 ->].
  apply wire_checked_string_len_inv in H1 as [-> _]. now apply advances_parse_bytes in H2.
Qed.

#[export] Hint Resolve advances_parse_varint advances_parse_string_bytes : advances.
#[export] Hint Extern 2 (advances (parse_bytes _)) => apply advances_parse_bytes; lia : advances.

Lemma parse_varint_progress buf pos v pos' :
  0 <= pos <= blen buf -> parse_varint buf pos = Ok (v, pos') -> pos < pos' <= blen buf.
Proof.
  intros Hpos. unfold parse_varint. change 11%nat with (S 10). generalize 10%nat as fuel. intros fuel.
  cbn [parse_varint_loop].
  destruct (Z.leb_spec (blen buf) pos); [discriminate|]. destruct (63 <? 0); [discriminate|].
  destruct (_ && _); [discriminate|]. destruct (_ =? 0).
  - intros. inj. lia.
  - intros H'. apply advances_parse_varint_loop in H'; lia.
Qed.
