(* ===== verification/TypeParser.v ===== *)
(** * Type names ([shared/type_parser.rs])

    [ColumnType], its [fixed_width] and [Display], the recursive-descent
    [parse_type] and [parse_enum_labels], over strings as UTF-8 byte lists.  The
    searched characters ([(], [)], [,], quotes, digits) are ASCII, so searching
    bytes is searching characters; [trim] removes Unicode white space. *)

From Stdlib Require Import String ZArith Lia Bool List.
From Stdlib Require Import Strings.Byte.
From coqutil Require Import Byte.
From S2P Require Import Prelude.
Import ListNotations.

#[local] Set Warnings "-register-all".

Inductive ColumnType : Type :=
| UInt8 | UInt16 | UInt32 | UInt64 | UInt128 | UInt256
| Int8 | Int16 | Int32 | Int64 | Int128 | Int256
| Float32 | Float64 | TBool
| TString
| FixedString (n : Z)
| Date | Date32 | DateTime
| DateTime64 (scale : Z)
| Decimal (precision scale : Z)
| UUID | IPv4 | IPv6
| Enum8 | Enum16
| Nullable (inner : ColumnType)
| Array (inner : ColumnType)
| TMap (k v : ColumnType)
| Tuple (types : list ColumnType)
| LowCardinality (inner : ColumnType)
| AggregateFunction | SimpleAggregateFunction
| Nothing | Time
| Time64 (scale : Z)
| JSON
| Variant (types : list ColumnType)
| Dynamic
| Point | Ring | Polygon | MultiPolygon
| Other (s : bytes).

(** Bytes per row of the fixed-size types. *)
Definition fixed_width (ct : ColumnType) : option Z :=
  match ct with
  | UInt8 | Int8 | TBool | Enum8 => Some 1
  | UInt16 | Int16 | Date | Enum16 => Some 2
  | UInt32 | Int32 | Float32 | Date32 | DateTime | Time | IPv4 => Some 4
  | UInt64 | Int64 | Float64 | DateTime64 _ | Time64 _ => Some 8
  | IPv6 => Some 16
  | UInt128 | Int128 | UUID => Some 16
  | UInt256 | Int256 => Some 32
  | FixedString n => Some n
  | Decimal p _ =>
      if (1 <=? p) && (p <=? 9) then Some 4
      else if (10 <=? p) && (p <=? 18) then Some 8
      else if (19 <=? p) && (p <=? 38) then Some 16
      else if (39 <=? p) && (p <=? 76) then Some 32
      else None
  | Nothing => Some 0
  | Point => Some 16
  | _ => None
  end.

(** ** Integers in decimal *)

(** [write!(f, "{n}")] of an unsigned integer; a [u64] has at most 20 digits. *)
Fixpoint digits (fuel : nat) (n : Z) : bytes :=
  match fuel with
  | O => []
  | S fuel =>
      (if n / 10 =? 0 then [] else digits fuel (n / 10)) ++ [byte.of_Z (48 + n mod 10)]
  end.

Definition show (n : Z) : bytes := digits 20 n.

Definition is_digit (b : byte) : bool :=
  (48 <=? byte.unsigned b) && (byte.unsigned b <=? 57).

(** [str::parse] for the integer types: the digits from left to right with the
    checked arithmetic of the target type, whose range is [lo, hi]. *)
Fixpoint parse_digits (neg : bool) (lo hi acc : Z) (s : bytes) : result message Z :=
  match s with
  | [] => Ok acc
  | b :: s =>
      if negb (is_digit b) then Err (msg "invalid digit found in string")
      else
        let d := byte.unsigned b - 48 in
        let acc := if neg then acc * 10 - d else acc * 10 + d in
        if acc <? lo then Err (msg "number too small to fit in target type")
        else if hi <? acc then Err (msg "number too large to fit in target type")
        else parse_digits neg lo hi acc s
  end.

Definition parse_uint (max : Z) (s : bytes) : result message Z :=
  match s with
  | [] => Err (msg "cannot parse integer from empty string")
  | ["+"%byte] | ["-"%byte] => Err (msg "invalid digit found in string")
  | "+"%byte :: s => parse_digits false 0 max 0 s
  | s => parse_digits false 0 max 0 s
  end.

Definition parse_i16 (s : bytes) : result message Z :=
  match s with
  | [] => Err (msg "cannot parse integer from empty string")
  | ["+"%byte] | ["-"%byte] => Err (msg "invalid digit found in string")
  | "+"%byte :: s => parse_digits false (-32768) 32767 0 s
  | "-"%byte :: s => parse_digits true (-32768) 32767 0 s
  | s => parse_digits false (-32768) 32767 0 s
  end.

(** ** String operations of the standard library *)

(** [str::find] of an ASCII character. *)
Fixpoint find_from (p : byte -> bool) (i : Z) (s : bytes) : option Z :=
  match s with
  | [] => None
  | b :: s => if p b then Some i else find_from p (i + 1) s
  end.

Definition find (c : byte) (s : bytes) : option Z := find_from (Byte.eqb c) 0 s.

Fixpoint strip_prefix (p s : bytes) : option bytes :=
  match p, s with
  | [], _ => Some s
  | a :: p, b :: s => if Byte.eqb a b then strip_prefix p s else None
  | _ :: _, [] => None
  end.

Definition starts_with (p s : bytes) : bool :=
  match strip_prefix p s with Some _ => true | None => false end.

Definition strip_suffix (p s : bytes) : option bytes :=
  match strip_prefix (rev p) (rev s) with Some r => Some (rev r) | None => None end.

Definition ends_with (c : byte) (s : bytes) : bool :=
  match strip_suffix [c] s with Some _ => true | None => false end.

(** [char::is_whitespace], as the UTF-8 encodings of the white space characters. *)
Definition ascii_space (b : byte) : bool :=
  ((9 <=? byte.unsigned b) && (byte.unsigned b <=? 13)) || (byte.unsigned b =? 32).

Definition space2 (a b : byte) : bool :=
  Byte.eqb a xc2 && (Byte.eqb b x85 || Byte.eqb b xa0).

Definition space3 (a b c : byte) : bool :=
  (Byte.eqb a xe1 && Byte.eqb b x9a && Byte.eqb c x80) ||
  (Byte.eqb a xe2 && Byte.eqb b x80 &&
     (((128 <=? byte.unsigned c) && (byte.unsigned c <=? 138)) ||
      Byte.eqb c xa8 || Byte.eqb c xa9 || Byte.eqb c xaf)) ||
  (Byte.eqb a xe2 && Byte.eqb b x81 && Byte.eqb c x9f) ||
  (Byte.eqb a xe3 && Byte.eqb b x80 && Byte.eqb c x80).

(** [str::trim_start] and [str::trim_end]: one character per step. *)
Fixpoint trim_start (s : bytes) : bytes :=
  match s with
  | a :: s1 =>
      if ascii_space a then trim_start s1
      else match s1 with
           | b :: s2 =>
               if space2 a b then trim_start s2
               else match s2 with
                    | c :: s3 => if space3 a b c then trim_start s3 else s
                    | [] => s
                    end
           | [] => s
           end
  | [] => []
  end.

(** On the reversed string, so the bytes of a character come last first. *)
Fixpoint trim_rev (s : bytes) : bytes :=
  match s with
  | c :: s1 =>
      if ascii_space c then trim_rev s1
      else match s1 with
           | b :: s2 =>
               if space2 b c then trim_rev s2
               else match s2 with
                    | a :: s3 => if space3 a b c then trim_rev s3 else s
                    | [] => s
                    end
           | [] => s
           end
  | [] => []
  end.

Definition trim_end (s : bytes) : bytes := rev (trim_rev (rev s)).

Definition trim (s : bytes) : bytes := trim_end (trim_start s).

(** [str::trim_start_matches] and [str::trim_end_matches]: repeated prefix and
    suffix removal, at most once per byte. *)
Fixpoint trim_start_matches (fuel : nat) (p s : bytes) : bytes :=
  match fuel with
  | O => s
  | S fuel => match strip_prefix p s with
              | Some s' => trim_start_matches fuel p s'
              | None => s
              end
  end.

Fixpoint trim_end_matches (fuel : nat) (p s : bytes) : bytes :=
  match fuel with
  | O => s
  | S fuel => match strip_suffix p s with
              | Some s' => trim_end_matches fuel p s'
              | None => s
              end
  end.

(** The first piece of [s.split(',')]. *)
Definition split_first (s : bytes) : bytes :=
  match find ","%byte s with Some i => take i s | None => s end.

(** ** [Display] *)

(** The elements of a list separated by a comma and a space. *)
Fixpoint comma_sep (l : list bytes) : bytes :=
  match l with
  | [] => []
  | [t] => t
  | t :: l => t ++ str ", " ++ comma_sep l
  end.

Definition wrap (name : string) (inner : bytes) : bytes :=
  str name ++ str "(" ++ inner ++ str ")".

Fixpoint to_string (ct : ColumnType) : bytes :=
  match ct with
  | UInt8 => str "UInt8" | UInt16 => str "UInt16" | UInt32 => str "UInt32"
  | UInt64 => str "UInt64" | UInt128 => str "UInt128" | UInt256 => str "UInt256"
  | Int8 => str "Int8" | Int16 => str "Int16" | Int32 => str "Int32"
  | Int64 => str "Int64" | Int128 => str "Int128" | Int256 => str "Int256"
  | Float32 => str "Float32" | Float64 => str "Float64"
  | TBool => str "Bool" | TString => str "String"
  | FixedString n => wrap "FixedString" (show n)
  | Date => str "Date" | Date32 => str "Date32" | DateTime => str "DateTime"
  | DateTime64 s => wrap "DateTime64" (show s)
  | Decimal p s => wrap "Decimal" (show p ++ str ", " ++ show s)
  | UUID => str "UUID" | IPv4 => str "IPv4" | IPv6 => str "IPv6"
  | Enum8 => str "Enum8" | Enum16 => str "Enum16"
  | Nullable inner => wrap "Nullable" (to_string inner)
  | Array inner => wrap "Array" (to_string inner)
  | TMap k v => wrap "Map" (to_string k ++ str ", " ++ to_string v)
  | Tuple types => wrap "Tuple" (comma_sep (map to_string types))
  | LowCardinality inner => wrap "LowCardinality" (to_string inner)
  | AggregateFunction => str "AggregateFunction"
  | SimpleAggregateFunction => str "SimpleAggregateFunction"
  | Nothing => str "Nothing" | Time => str "Time"
  | Time64 s => wrap "Time64" (show s)
  | JSON => str "JSON"
  | Variant types => wrap "Variant" (comma_sep (map to_string types))
  | Dynamic => str "Dynamic" | Point => str "Point" | Ring => str "Ring"
  | Polygon => str "Polygon" | MultiPolygon => str "MultiPolygon"
  | Other s => s
  end.

(** ** [parse_type] *)

Fixpoint find_comma_loop (depth i : Z) (s : bytes) : option Z :=
  match s with
  | [] => None
  | ch :: s =>
      if Byte.eqb ch "("%byte then find_comma_loop (depth + 1) (i + 1) s
      else if Byte.eqb ch ")"%byte then find_comma_loop (depth - 1) (i + 1) s
      else if Byte.eqb ch ","%byte && (depth =? 0) then Some i
      else find_comma_loop depth (i + 1) s
  end.

Definition find_top_level_comma (s : bytes) : option Z := find_comma_loop 0 0 s.

Definition MAX_TYPE_NESTING : nat := 256.

(** The types without parameters, by name. *)
Definition simple_types : list (string * ColumnType) := [
  ("UInt8", UInt8); ("UInt16", UInt16); ("UInt32", UInt32); ("UInt64", UInt64);
  ("UInt128", UInt128); ("UInt256", UInt256); ("Int8", Int8); ("Int16", Int16);
  ("Int32", Int32); ("Int64", Int64); ("Int128", Int128); ("Int256", Int256);
  ("Float32", Float32); ("Float64", Float64); ("Bool", TBool); ("String", TString);
  ("JSON", JSON); ("Json", JSON); ("Dynamic", Dynamic); ("Point", Point); ("Ring", Ring);
  ("Polygon", Polygon); ("MultiPolygon", MultiPolygon); ("Date", Date);
  ("Date32", Date32); ("Nothing", Nothing); ("Time", Time); ("DateTime", DateTime);
  ("UUID", UUID); ("IPv4", IPv4); ("IPv6", IPv6)]%string.

Fixpoint lookup_type (l : list (string * ColumnType)) (base : bytes) : option ColumnType :=
  match l with
  | [] => None
  | (name, ct) :: l => if bytes_eqb base (str name) then Some ct else lookup_type l base
  end.

Definition u32_param (what : string) (s : bytes) : result message Z :=
  map_err (fun e => Msg what [AM e]) (parse_uint U32_MAX (trim s)).

(** The branch of a name without parentheses. *)
Definition parse_simple (base s : bytes) : result message ColumnType :=
  match lookup_type simple_types base with
  | Some ct => Ok ct
  | None =>
      if starts_with (str "Time64") base then
        let s := trim_end_matches (length base) (str ")")
                   (trim_start_matches (length base) (str "Time64(") base) in
        let* scale := map_err (fun _ => msg "invalid Time64") (parse_uint U32_MAX s) in
        Ok (Time64 scale)
      else Ok (Other s)
  end.

(** The loop over the elements of [Tuple] and [Variant]; each round drops at
    least the comma, so [length remaining + 1] rounds are enough. *)
Fixpoint parse_type_list (p : bytes -> result message ColumnType) (fuel : nat)
    (remaining : bytes) : result message (list ColumnType) :=
  match fuel with
  | O => Err (msg "fuel")
  | S fuel =>
      match remaining with
      | [] => Ok []
      | _ =>
          match find_top_level_comma remaining with
          | Some pos =>
              let* t := p (take pos remaining) in
              let* types := parse_type_list p fuel (drop (pos + 1) remaining) in
              Ok (t :: types)
          | None => let* t := p remaining in Ok [t]
          end
      end
  end.

Definition named (base : bytes) (name : string) : bool := bytes_eqb base (str name).

(** The branch of a name with parentheses; [p] is the recursive call. *)
Definition parse_nested (p : bytes -> result message ColumnType) (s base inner : bytes)
  : result message ColumnType :=
  if named base "Nullable" then let* t := p inner in Ok (Nullable t)
  else if named base "Array" then let* t := p inner in Ok (Array t)
  else if named base "Map" then
    let* comma := ok_or (find_top_level_comma inner)
                        (Msg "cannot parse Map types from: {inner}" [AS inner]) in
    let* kt := p (take comma inner) in
    let* vt := p (drop (comma + 1) inner) in
    Ok (TMap kt vt)
  else if named base "Tuple" then
    let* types := parse_type_list p (S (length inner)) inner in Ok (Tuple types)
  else if named base "LowCardinality" then let* t := p inner in Ok (LowCardinality t)
  else if named base "Enum8" then Ok Enum8
  else if named base "Enum16" then Ok Enum16
  else if named base "FixedString" then
    let* n := map_err (fun e => Msg "FixedString: {e}" [AM e]) (parse_uint USIZE_MAX (trim inner)) in
    Ok (FixedString n)
  else if named base "DateTime64" then
    let* scale := u32_param "DateTime64: {e}" (split_first inner) in Ok (DateTime64 scale)
  else if named base "DateTime" then Ok DateTime
  else if named base "Time64" then
    let* scale := u32_param "Time64: {e}" (split_first inner) in Ok (Time64 scale)
  else if named base "Decimal32" then
    let* scale := u32_param "Decimal32: {e}" inner in Ok (Decimal 9 scale)
  else if named base "Decimal64" then
    let* scale := u32_param "Decimal64: {e}" inner in Ok (Decimal 18 scale)
  else if named base "Decimal128" then
    let* scale := u32_param "Decimal128: {e}" inner in Ok (Decimal 38 scale)
  else if named base "Decimal256" then
    let* scale := u32_param "Decimal256: {e}" inner in Ok (Decimal 76 scale)
  else if named base "Decimal" then
    match find ","%byte inner with
    | None => Err (Msg "Decimal needs precision,scale: {s}" [AS s])
    | Some i =>
        let* precision := u32_param "Decimal precision: {e}" (take i inner) in
        let* scale := u32_param "Decimal scale: {e}" (drop (i + 1) inner) in
        Ok (Decimal precision scale)
    end
  else if named base "Variant" then
    let* types := parse_type_list p (S (length inner)) inner in Ok (Variant types)
  else if named base "Object" || named base "object" then Ok JSON
  else if named base "AggregateFunction" then Ok AggregateFunction
  else if named base "SimpleAggregateFunction" then Ok SimpleAggregateFunction
  else Ok (Other s).

(** [parse_type_rec s depth], where [levels] is [MAX_TYPE_NESTING + 1 - depth]:
    the number of levels left is the recursion's measure, and none left is the
    test [depth > MAX_TYPE_NESTING]. *)
Fixpoint parse_type_rec (levels : nat) (s : bytes) : result message ColumnType :=
  match levels with
  | O => Err (Msg "type nesting exceeds {MAX_TYPE_NESTING} levels" [AZ (Z.of_nat MAX_TYPE_NESTING)])
  | S levels =>
      let s := trim s in
      let paren := find "("%byte s in
      let base_end := match paren with Some i => i | None => blen s end in
      let base := take base_end s in
      match base with
      | [] => Err (msg "empty type name")
      | _ =>
          match paren with
          | Some paren_pos =>
              if negb (ends_with ")"%byte s) || (blen s <=? paren_pos + 1)
              then Err (Msg "malformed type name (unclosed paren): {s}" [AS s])
              else
                let inner := trim (slice s (paren_pos + 1) (blen s - 1)) in
                parse_nested (parse_type_rec levels) s base inner
          | None => parse_simple base s
          end
      end
  end.

Definition parse_type (s : bytes) : result message ColumnType :=
  parse_type_rec (S MAX_TYPE_NESTING) s.

(** ** [parse_enum_labels] *)

Definition enum_value_char (b : byte) : bool := is_digit b || Byte.eqb b "-"%byte.

(** One label per round, each consuming its quotes. *)
Fixpoint parse_labels_loop (fuel : nat) (remaining : bytes) (labels : list (bytes * Z))
  : option (list (bytes * Z)) :=
  match fuel with
  | O => None
  | S fuel =>
      match remaining with
      | [] => Some labels
      | _ =>
          let* remaining := strip_prefix (str "'") (trim remaining) in
          let* quote_end := find "'"%byte remaining in
          let label := take quote_end remaining in
          let remaining := trim (drop (quote_end + 1) remaining) in
          let* remaining := strip_prefix (str "=") remaining in
          let remaining := trim remaining in
          let value_end := match find_from (fun b => negb (enum_value_char b)) 0 remaining with
                           | Some i => i | None => blen remaining end in
          let* value := match parse_i16 (take value_end remaining) with
                        | Ok v => Some v | Err _ => None end in
          let remaining := trim (drop value_end remaining) in
          let labels := labels ++ [(label, value)] in
          if starts_with (str ",") remaining
          then parse_labels_loop fuel (drop 1 remaining) labels
          else Some labels
      end
  end.

Definition parse_enum_labels (type_name : bytes) : option (list (bytes * Z)) :=
  let trimmed := trim type_name in
  let* inner := match strip_prefix (str "Enum8(") trimmed with
                | Some r => Some r
                | None => strip_prefix (str "Enum16(") trimmed
                end in
  let* inner := strip_suffix (str ")") inner in
  let inner := trim inner in
  parse_labels_loop (S (length inner)) inner [].

(** ** Induction over types with the elements of tuples and variants *)
Section Induction.
Variable P : ColumnType -> Prop.
Hypothesis Hnullable : forall t, P t -> P (Nullable t).
Hypothesis Harray : forall t, P t -> P (Array t).
Hypothesis Hmap : forall k v, P k -> P v -> P (TMap k v).
Hypothesis Htuple : forall ts, Forall P ts -> P (Tuple ts).
Hypothesis Hlc : forall t, P t -> P (LowCardinality t).
Hypothesis Hvariant : forall ts, Forall P ts -> P (Variant ts).
Hypothesis Hleaf : forall t,
  match t with
  | Nullable _ | Array _ | TMap _ _ | Tuple _ | LowCardinality _ | Variant _ => True
  | _ => P t
  end.

Fixpoint ColumnType_nested_ind (t : ColumnType) : P t :=
  let all := fix all (ts : list ColumnType) : Forall P ts :=
    match ts with
    | [] => Forall_nil P
    | t :: ts => Forall_cons t (ColumnType_nested_ind t) (all ts)
    end in
  match t with
  | Nullable t => Hnullable t (ColumnType_nested_ind t)
  | Array t => Harray t (ColumnType_nested_ind t)
  | TMap k v => Hmap k v (ColumnType_nested_ind k) (ColumnType_nested_ind v)
  | Tuple ts => Htuple ts (all ts)
  | LowCardinality t => Hlc t (ColumnType_nested_ind t)
  | Variant ts => Hvariant ts (all ts)
  | t => Hleaf t
  end.
End Induction.

(** Nested induction on the type [t] of the goal. *)
Ltac type_induction t :=
  revert t;
  match goal with |- forall t, @?P t => apply (ColumnType_nested_ind P); cbv beta end.

(** ** Types that print to a name that parses back

    [Display] drops the arguments of [Enum8], [Enum16], [AggregateFunction] and
    [SimpleAggregateFunction], so their names do not parse back to them. *)
Fixpoint printable (ct : ColumnType) : bool :=
  match ct with
  | FixedString n => (0 <=? n) && (n <=? USIZE_MAX)
  | DateTime64 s | Time64 s => (0 <=? s) && (s <=? U32_MAX)
  | Decimal p s => (0 <=? p) && (p <=? U32_MAX) && (0 <=? s) && (s <=? U32_MAX)
  | Nullable t | Array t | LowCardinality t => printable t
  | TMap k v => printable k && printable v
  | Tuple ts | Variant ts => forallb printable ts
  | Enum8 | Enum16 | AggregateFunction | SimpleAggregateFunction | Other _ => false
  | _ => true
  end.

Fixpoint nesting (ct : ColumnType) : nat :=
  match ct with
  | Nullable t | Array t | LowCardinality t => S (nesting t)
  | TMap k v => S (Nat.max (nesting k) (nesting v))
  | Tuple ts | Variant ts => list_max (map (fun t => S (nesting t)) ts)
  | _ => 0
  end.

Lemma nesting_list ts L :
  (list_max (map (fun t => S (nesting t)) ts) <= L)%nat <-> Forall (fun t => (nesting t < L)%nat) ts.
Proof. rewrite list_max_le, Forall_map. reflexivity. Qed.

(** *** White space *)

Definition solid (b : byte) : bool := negb (ascii_space b) && (byte.unsigned b <? 128).

Definition solid_start (s : bytes) : bool := forallb solid (firstn 1 s).
Definition solid_ends (s : bytes) : bool := solid_start s && solid_start (rev s).

Lemma solid_spaces a :
  solid a = true ->
  ascii_space a = false /\ (forall b, space2 a b = false) /\ (forall b, space2 b a = false) /\
  (forall b c, space3 a b c = false) /\ (forall b c, space3 b c a = false).
Proof.
  destruct a; intros H; try discriminate H; repeat split; try reflexivity; intros;
    unfold space2, space3; cbn [Byte.eqb byte.unsigned]; 
    repeat (rewrite ?andb_false_r, ?orb_false_r; cbn); try reflexivity.
Qed.

Lemma trim_start_solid s : solid_start s = true -> trim_start s = s.
Proof.
  destruct s as [|a s]; [reflexivity|]. cbn [solid_start firstn forallb].
  unfold solid_start. cbn [firstn forallb]. rewrite andb_true_r. intros H.
  apply solid_spaces in H as (H1 & H2 & _ & H3 & _). cbn [trim_start]. rewrite H1.
  destruct s as [|b s]; [reflexivity|]. rewrite H2. destruct s; [reflexivity|]. now rewrite H3.
Qed.

Lemma trim_rev_solid s : solid_start s = true -> trim_rev s = s.
Proof.
  destruct s as [|a s]; [reflexivity|].
  unfold solid_start. cbn [firstn forallb]. rewrite andb_true_r. intros H.
  apply solid_spaces in H as (H1 & _ & H2 & _ & H3). cbn [trim_rev]. rewrite H1.
  destruct s as [|b s]; [reflexivity|]. rewrite H2. destruct s; [reflexivity|]. now rewrite H3.
Qed.

Lemma trim_solid s : solid_ends s = true -> trim s = s.
Proof.
  intros H. apply andb_prop in H as [H1 H2]. unfold trim, trim_end.
  now rewrite trim_start_solid, trim_rev_solid, rev_involutive.
Qed.

Lemma trim_space s : trim (" "%byte :: s) = trim s.
Proof. reflexivity. Qed.

(** *** Commas

    [inert d s]: scanning [s] for a top-level comma from depth [d] or deeper
    passes over it and comes back to the same depth. *)
Definition inert (d : Z) (s : bytes) : Prop :=
  forall depth i rest, d <= depth ->
  find_comma_loop depth i (s ++ rest) = find_comma_loop depth (i + blen s) rest.

Definition plain_char (b : byte) : bool :=
  negb (Byte.eqb b "("%byte) && negb (Byte.eqb b ")"%byte) && negb (Byte.eqb b ","%byte).

Lemma inert_nil d : inert d [].
Proof. intros depth i rest _. cbn [app]. f_equal. change (blen []) with 0. lia. Qed.

Lemma inert_app d a b : inert d a -> inert d b -> inert d (a ++ b).
Proof.
  intros Ha Hb depth i rest Hd. rewrite <- app_assoc, Ha, Hb, blen_app by assumption.
  f_equal. lia.
Qed.

Lemma inert_weaken d d' s : d <= d' -> inert d s -> inert d' s.
Proof. intros Hd H depth i rest Hd'. apply H. lia. Qed.

Lemma inert_plain d s : forallb plain_char s = true -> inert d s.
Proof.
  induction s as [|b s IH]; intros H; [apply inert_nil|].
  cbn [forallb] in H. apply andb_prop in H as [Hb Hs]. unfold plain_char in Hb.
  apply andb_prop in Hb as [Hb Hb3]. apply andb_prop in Hb as [Hb1 Hb2].
  apply negb_true_iff in Hb1, Hb2, Hb3.
  intros depth i rest Hd. cbn [app find_comma_loop]. rewrite Hb1, Hb2, Hb3. cbn [andb].
  rewrite IH by assumption. rewrite blen_cons. f_equal. lia.
Qed.

Lemma inert_comma d : 1 <= d -> inert d (str ", ").
Proof.
  intros Hd depth i rest H. change (str ", ") with [","%byte; " "%byte].
  cbn [app find_comma_loop Byte.eqb]. cbn.
  destruct (Z.eqb_spec depth 0); [lia|]. f_equal. change (blen _) with 2. lia.
Qed.

Lemma inert_parens s : inert 1 s -> inert 0 (str "(" ++ s ++ str ")").
Proof.
  intros Hs depth i rest Hd. rewrite <- !app_assoc.
  change (str "(") with ["("%byte]. change (str ")") with [")"%byte].
  change (find_comma_loop depth i (["("%byte] ++ s ++ [")"%byte] ++ rest))
    with (find_comma_loop (depth + 1) (i + 1) (s ++ [")"%byte] ++ rest)).
  rewrite Hs by lia.
  change (find_comma_loop (depth + 1) (i + 1 + blen s) ([")"%byte] ++ rest))
    with (find_comma_loop (depth + 1 - 1) (i + 1 + blen s + 1) rest).
  rewrite !blen_app. change (blen ["("%byte]) with 1. change (blen [")"%byte]) with 1.
  f_equal; lia.
Qed.

Lemma inert_wrap name inner :
  forallb plain_char (str name) = true -> inert 1 inner -> inert 0 (wrap name inner).
Proof. intros Hn Hi. apply inert_app; [now apply inert_plain|now apply inert_parens]. Qed.

Lemma inert_comma_sep l : Forall (inert 0) l -> inert 1 (comma_sep l).
Proof.
  induction 1 as [|s l Hs Hl IH]; [apply inert_nil|].
  destruct l as [|s' l]; [now apply (inert_weaken 0)|].
  change (comma_sep (s :: s' :: l)) with (s ++ str ", " ++ comma_sep (s' :: l)).
  apply inert_app; [now apply (inert_weaken 0)|]. apply inert_app; [now apply inert_comma|assumption].
Qed.

(** *** Numbers *)

Lemma digit_byte d : 0 <= d < 10 ->
  is_digit (byte.of_Z (48 + d)) = true /\ byte.unsigned (byte.of_Z (48 + d)) = 48 + d /\
  solid (byte.of_Z (48 + d)) = true /\ plain_char (byte.of_Z (48 + d)) = true.
Proof.
  intros H. assert (d = 0 \/ d = 1 \/ d = 2 \/ d = 3 \/ d = 4 \/ d = 5 \/ d = 6 \/ d = 7 \/
    d = 8 \/ d = 9) as Hd by lia.
  repeat (destruct Hd as [->|Hd]; [repeat split; reflexivity|]). subst. repeat split; reflexivity.
Qed.

Lemma digits_all (p : byte -> bool) fuel n :
  (forall d, 0 <= d < 10 -> p (byte.of_Z (48 + d)) = true) ->
  0 <= n -> forallb p (digits fuel n) = true.
Proof.
  intros Hp. revert n; induction fuel as [|fuel IH]; intros n Hn; [reflexivity|].
  cbn [digits]. rewrite forallb_app. cbn [forallb].
  rewrite Hp by (apply Z.mod_pos_bound; lia). rewrite !andb_true_r.
  destruct (n / 10 =? 0); [reflexivity|]. apply IH. apply Z.div_pos; lia.
Qed.

Lemma parse_digits_app max acc a b :
  parse_digits false 0 max acc (a ++ b) =
  match parse_digits false 0 max acc a with
  | Ok v => parse_digits false 0 max v b
  | Err e => Err e
  end.
Proof.
  revert acc; induction a as [|x a IH]; intros acc; [reflexivity|].
  cbn [app parse_digits]. destruct (negb (is_digit x)); [reflexivity|].
  destruct (_ <? 0); [reflexivity|]. destruct (max <? _); [reflexivity|]. apply IH.
Qed.

Lemma parse_show_digits max fuel n :
  0 <= n <= max -> n < 10 ^ Z.of_nat fuel ->
  parse_digits false 0 max 0 (digits fuel n) = Ok n.
Proof.
  revert n; induction fuel as [|fuel IH]; intros n Hn Hlt; [cbn in *; f_equal; lia|].
  cbn [digits]. rewrite parse_digits_app.
  pose proof (Z.div_mod n 10 ltac:(lia)). pose proof (Z.mod_pos_bound n 10 ltac:(lia)) as Hm.
  destruct (digit_byte (n mod 10) Hm) as (Hd & Hu & _).
  assert (parse_digits false 0 max (n / 10) [byte.of_Z (48 + n mod 10)] = Ok n) as Hlast.
  { cbn [parse_digits]. rewrite Hd, Hu. cbn [negb].
    replace (n / 10 * 10 + (48 + n mod 10 - 48)) with n by lia.
    destruct (Z.ltb_spec n 0); [lia|]. now destruct (Z.ltb_spec max n); [lia|]. }
  destruct (Z.eqb_spec (n / 10) 0) as [E|E].
  - rewrite E in Hlast. exact Hlast.
  - rewrite IH; [assumption|split; [apply Z.div_pos; lia|apply Z.div_le_upper_bound; lia]|].
    apply Z.div_lt_upper_bound; [lia|].
    rewrite Nat2Z.inj_succ, Z.pow_succ_r in Hlt by lia. lia.
Qed.

Lemma parse_uint_digits max s :
  forallb is_digit s = true -> s <> [] -> parse_uint max s = parse_digits false 0 max 0 s.
Proof.
  intros Hs Hn. destruct s as [|b s]; [easy|]. cbn [forallb] in Hs.
  apply andb_prop in Hs as [Hb _]. now destruct b; try discriminate Hb; destruct s.
Qed.

Lemma show_nonempty n : show n <> [].
Proof. unfold show. cbn [digits]. intros E. now apply app_eq_nil in E as [_ E]. Qed.

Lemma parse_show max n : 0 <= n <= max -> max <= U64_MAX -> parse_uint max (show n) = Ok n.
Proof.
  intros Hn Hmax. rewrite parse_uint_digits; [|apply digits_all; [|lia]|apply show_nonempty].
  - apply parse_show_digits; [assumption|]. unfold U64_MAX in Hmax. 
    change (10 ^ Z.of_nat 20) with 100000000000000000000. lia.
  - intros d Hd. now apply digit_byte.
Qed.

Lemma show_plain n : 0 <= n -> forallb plain_char (show n) = true.
Proof. intros. apply digits_all; [|assumption]. intros d Hd. now apply digit_byte. Qed.

Lemma show_solid n : 0 <= n -> forallb solid (show n) = true.
Proof. intros. apply digits_all; [|assumption]. intros d Hd. now apply digit_byte. Qed.

(** *** Names with parentheses *)

Lemma solid_ends_of_all s : forallb solid s = true -> solid_ends s = true.
Proof.
  intros H. assert (forall l, forallb solid l = true -> solid_start l = true) as Hstart.
  { intros [|b l] Hl; [reflexivity|]. cbn [forallb] in Hl. apply andb_prop in Hl as [Hb _].
    unfold solid_start. cbn [firstn forallb]. now rewrite Hb. }
  unfold solid_ends. rewrite Hstart by assumption. apply Hstart.
  apply forallb_forall. intros x Hx. apply in_rev in Hx. now apply (proj1 (forallb_forall _ _) H).
Qed.

Lemma solid_start_app a b : a <> [] -> solid_start (a ++ b) = solid_start a.
Proof. now destruct a. Qed.

(** A text that starts like [a] and ends like [b]. *)
Lemma solid_ends_join a m b :
  a <> [] -> b <> [] -> solid_ends a = true -> solid_ends b = true ->
  solid_ends (a ++ m ++ b) = true.
Proof.
  intros Ha Hb Hsa Hsb. apply andb_prop in Hsa as [Hsa _]. apply andb_prop in Hsb as [_ Hsb].
  unfold solid_ends. rewrite solid_start_app, Hsa by assumption.
  rewrite !rev_app_distr, <- app_assoc, solid_start_app, Hsb; [reflexivity|].
  intros E. apply (f_equal (@rev _)) in E. now rewrite rev_involutive in E.
Qed.

Lemma find_from_app p a b i :
  forallb (fun c => negb (p c)) a = true ->
  find_from p i (a ++ b) = find_from p (i + blen a) b.
Proof.
  revert i; induction a as [|x a IH]; intros i H; cbn [app].
  - f_equal. change (blen []) with 0. lia.
  - cbn [forallb] in H. apply andb_prop in H as [Hx Ha]. apply negb_true_iff in Hx.
    cbn [find_from]. rewrite Hx, IH, blen_cons by assumption. f_equal. lia.
Qed.

Lemma find_none c a : forallb (fun x => negb (Byte.eqb c x)) a = true -> find c a = None.
Proof.
  intros H. unfold find. rewrite <- (app_nil_r a). now rewrite find_from_app.
Qed.

Lemma ends_with_snoc c s : ends_with c (s ++ [c]) = true.
Proof.
  unfold ends_with, strip_suffix. rewrite rev_app_distr. cbn [rev app strip_prefix].
  assert (Byte.eqb c c = true) as -> by now apply Byte.byte_dec_lb. reflexivity.
Qed.

(** The names the parser dispatches on. *)
Definition type_name (name : bytes) : bool :=
  match name with [] => false | _ => true end && solid_ends name && forallb plain_char name.

Lemma plain_no_paren s :
  forallb plain_char s = true -> forallb (fun x => negb (Byte.eqb "("%byte x)) s = true.
Proof.
  rewrite !forallb_forall. intros H x Hx. specialize (H x Hx). now destruct x.
Qed.

Lemma plain_no_comma s :
  forallb plain_char s = true -> forallb (fun x => negb (Byte.eqb ","%byte x)) s = true.
Proof.
  rewrite !forallb_forall. intros H x Hx. specialize (H x Hx). now destruct x.
Qed.

Lemma wrap_solid name inner : type_name (str name) = true -> solid_ends (wrap name inner) = true.
Proof.
  intros H. apply andb_prop in H as [H _]. apply andb_prop in H as [Hn Hs].
  unfold wrap. replace (str name ++ str "(" ++ inner ++ str ")")
    with (str name ++ (str "(" ++ inner) ++ str ")") by now rewrite <- !app_assoc.
  apply solid_ends_join; [now intros E; rewrite E in Hn|discriminate|assumption|reflexivity].
Qed.

(** One level of parsing a parenthesised name. *)
Lemma parse_wrap levels name inner :
  type_name (str name) = true -> trim inner = inner ->
  parse_type_rec (S levels) (wrap name inner) =
  parse_nested (parse_type_rec levels) (wrap name inner) (str name) inner.
Proof.
  intros Hname Hinner. cbn [parse_type_rec]. rewrite trim_solid by now apply wrap_solid.
  unfold type_name in Hname. apply andb_prop in Hname as [Hn Hplain].
  apply andb_prop in Hn as [Hn _].
  unfold find, wrap. rewrite find_from_app by now apply plain_no_paren.
  change (find_from _ _ (str "(" ++ inner ++ str ")")) with (Some (0 + blen (str name))).
  rewrite Z.add_0_l. rewrite take_app_exact.
  destruct (str name) as [|c base] eqn:Ebase; [discriminate|]. rewrite <- Ebase in *.
  assert (ends_with ")" (str name ++ str "(" ++ inner ++ str ")") = true) as ->
    by (rewrite !app_assoc; apply ends_with_snoc).
  rewrite !blen_app. pose proof (blen_nonneg inner).
  change (blen (str "(")) with 1. change (blen (str ")")) with 1. cbn [negb orb].
  destruct (Z.leb_spec (blen (str name) + (1 + (blen inner + 1))) (blen (str name) + 1)); [lia|].
  f_equal. rewrite <- Hinner. f_equal. rewrite Hinner. unfold slice.
  rewrite app_assoc. replace (blen (str name) + 1) with (blen (str name ++ str "("))
    by (rewrite blen_app; reflexivity).
  rewrite drop_app_exact. rewrite blen_app. change (blen (str "(")) with 1.
  match goal with |- take ?n _ = _ => replace n with (blen inner) by lia end.
  apply take_app_exact.
Qed.

(** *** Lists of types *)

Lemma take_inert_comma s rest :
  inert 0 s -> find_top_level_comma (s ++ str ", " ++ rest) = Some (blen s) /\
  take (blen s) (s ++ str ", " ++ rest) = s /\
  drop (blen s + 1) (s ++ str ", " ++ rest) = " "%byte :: rest.
Proof.
  intros Hs. split; [|split].
  - unfold find_top_level_comma. rewrite Hs by lia. reflexivity.
  - apply take_app_exact.
  - replace (blen s + 1) with (1 + blen s) by lia. pose proof (blen_nonneg s).
    rewrite <- drop_drop by lia. now rewrite drop_app_exact.
Qed.

Lemma find_comma_inert s : inert 0 s -> find_top_level_comma s = None.
Proof.
  intros Hs. unfold find_top_level_comma. rewrite <- (app_nil_r s). now rewrite Hs by lia.
Qed.

Lemma find_comma_shift k s : forall d i,
  find_comma_loop d (k + i) s = option_map (Z.add k) (find_comma_loop d i s).
Proof.
  induction s as [|x s IH]; intros d i; [reflexivity|]. cbn [find_comma_loop].
  rewrite <- !Z.add_assoc, !IH.
  destruct (Byte.eqb x "("); [reflexivity|]. destruct (Byte.eqb x ")"); [reflexivity|].
  now destruct (Byte.eqb x "," && (d =? 0)).
Qed.

Lemma find_comma_bound s : forall d i pos,
  find_comma_loop d i s = Some pos -> i <= pos < i + blen s.
Proof.
  induction s as [|x s IH]; intros d i pos H; [discriminate|]. cbn [find_comma_loop] in H.
  rewrite blen_cons. pose proof (blen_nonneg s).
  destruct (Byte.eqb x "("); [apply IH in H; lia|].
  destruct (Byte.eqb x ")"); [apply IH in H; lia|].
  destruct (_ && _); [inj; lia|apply IH in H; lia].
Qed.

Section ListOfTypes.
Variable p : bytes -> result message ColumnType.
Hypothesis p_space : forall s, p (" "%byte :: s) = p s.

Lemma parse_type_list_cons fuel s :
  s <> [] ->
  parse_type_list p (S fuel) s =
  match find_top_level_comma s with
  | Some pos =>
      let* t := p (take pos s) in
      let* types := parse_type_list p fuel (drop (pos + 1) s) in
      Ok (t :: types)
  | None => let* t := p s in Ok [t]
  end.
Proof. now destruct s. Qed.

Lemma parse_type_list_space fuel s :
  s <> [] -> parse_type_list p fuel (" "%byte :: s) = parse_type_list p fuel s.
Proof.
  intros Hs. destruct fuel as [|fuel]; [reflexivity|].
  rewrite !parse_type_list_cons by easy. unfold find_top_level_comma.
  change (find_comma_loop 0 0 (" "%byte :: s)) with (find_comma_loop 0 (1 + 0) s).
  rewrite find_comma_shift.
  destruct (find_comma_loop 0 0 s) as [pos|] eqn:E; cbn [option_map]; [|now rewrite p_space].
  apply find_comma_bound in E.
  replace (take (1 + pos) (" "%byte :: s)) with (" "%byte :: take pos s)
    by (unfold take; now rewrite Z2Nat.inj_add by lia).
  replace (drop (1 + pos + 1) (" "%byte :: s)) with (drop (pos + 1) s)
    by (unfold drop; now replace (Z.to_nat (1 + pos + 1)) with (S (Z.to_nat (pos + 1))) by lia).
  now rewrite p_space.
Qed.

Lemma parse_type_list_ok ts fuel :
  Forall (fun t => inert 0 (to_string t) /\ to_string t <> [] /\ p (to_string t) = Ok t) ts ->
  (length ts < fuel)%nat ->
  parse_type_list p fuel (comma_sep (map to_string ts)) = Ok ts.
Proof.
  intros H. revert fuel. induction H as [|t ts (Hi & Hn & Hp) Hts IH]; intros fuel Hf;
    (destruct fuel as [|fuel]; [cbn in Hf; lia|]); [reflexivity|].
  cbn [length] in Hf. destruct ts as [|t' ts].
  - cbn [map comma_sep]. rewrite parse_type_list_cons, find_comma_inert, Hp by assumption.
    reflexivity.
  - change (comma_sep (map to_string (t :: t' :: ts)))
      with (to_string t ++ str ", " ++ comma_sep (map to_string (t' :: ts))).
    destruct (take_inert_comma (to_string t) (comma_sep (map to_string (t' :: ts))) Hi)
      as (Hc & Ht & Hd).
    rewrite parse_type_list_cons by (intros E; apply app_eq_nil in E as [E _]; contradiction).
    rewrite Hc, Ht, Hd, Hp. cbn [bind result_monad].
    assert (comma_sep (map to_string (t' :: ts)) <> []) as Hne.
    { inversion Hts as [|? ? (_ & Hn' & _)]; subst. destruct ts; [assumption|].
      intros E. apply app_eq_nil in E as [E _]. contradiction. }
    rewrite parse_type_list_space, IH by (assumption || lia).
    reflexivity.
Qed.
End ListOfTypes.

(** *** The round trip *)

Lemma to_string_shape t :
  printable t = true -> inert 0 (to_string t) /\ solid_ends (to_string t) = true /\ to_string t <> [].
Proof.
  assert (forall name inner, type_name (str name) = true -> inert 1 inner ->
    inert 0 (wrap name inner) /\ solid_ends (wrap name inner) = true /\ wrap name inner <> []) as Hwrap.
  { intros name inner Hn Hi. pose proof Hn as Hn'. apply andb_prop in Hn' as [Hn' Hp].
    apply andb_prop in Hn' as [Hn' _].
    split; [now apply inert_wrap|]. split; [now apply wrap_solid|].
    unfold wrap. now destruct (str name). }
  assert (forall n, 0 <= n -> inert 1 (show n)) as Hshow
    by (intros; now apply inert_plain, show_plain).
  type_induction t; cbn [printable to_string].
  - intros t IH Hp. destruct (IH Hp) as [Hin _]. apply Hwrap; [reflexivity|now apply (inert_weaken 0)].
  - intros t IH Hp. destruct (IH Hp) as [Hin _]. apply Hwrap; [reflexivity|now apply (inert_weaken 0)].
  - intros k v IHk IHv Hp. apply andb_prop in Hp as [Hk Hv].
    destruct (IHk Hk) as [Hik _], (IHv Hv) as [Hiv _]. apply Hwrap; [reflexivity|].
    repeat apply inert_app; [|now apply inert_comma|]; now apply (inert_weaken 0).
  - intros ts H Hp. apply Hwrap; [reflexivity|]. apply inert_comma_sep, Forall_map.
    rewrite forallb_forall in Hp. rewrite Forall_forall in *. intros t Ht. now apply H; auto.
  - intros t IH Hp. destruct (IH Hp) as [Hin _]. apply Hwrap; [reflexivity|now apply (inert_weaken 0)].
  - intros ts H Hp. apply Hwrap; [reflexivity|]. apply inert_comma_sep, Forall_map.
    rewrite forallb_forall in Hp. rewrite Forall_forall in *. intros t Ht. now apply H; auto.
  - intros t. destruct t; try exact I; intros Hp; try discriminate Hp; cbn [printable to_string] in *;
      try (split; [now apply inert_plain|split; [reflexivity|discriminate]]);
      apply Hwrap; try reflexivity; repeat rewrite andb_true_iff in Hp;
      first [apply Hshow; lia|apply inert_app;
        [apply Hshow; lia|apply inert_app; [apply inert_comma; lia|apply Hshow; lia]]].
Qed.

Lemma comma_sep_solid l :
  Forall (fun s => solid_ends s = true /\ s <> []) l -> solid_ends (comma_sep l) = true.
Proof.
  induction 1 as [|s l [Hs Hn] Hl IH]; [reflexivity|]. destruct l as [|s' l]; [assumption|].
  change (comma_sep (s :: s' :: l)) with (s ++ str ", " ++ comma_sep (s' :: l)).
  apply solid_ends_join; auto. inversion Hl as [|? ? [_ Hn'] _]; subst.
  destruct l; [assumption|]. cbn [comma_sep]. intros E. now apply app_eq_nil in E as [E _].
Qed.

Lemma length_comma_sep l :
  Forall (fun s => s <> []) l -> (length l <= length (comma_sep l))%nat.
Proof.
  induction 1 as [|s l Hs Hl IH]; [reflexivity|]. destruct l as [|s' l].
  - destruct s; [easy|]. cbn. lia.
  - change (comma_sep (s :: s' :: l)) with (s ++ str ", " ++ comma_sep (s' :: l)).
    rewrite !length_app. change (length (str ", ")) with 2%nat. cbn [length] in *. lia.
Qed.

Lemma u32_param_show what n : 0 <= n <= U32_MAX -> u32_param what (show n) = Ok n.
Proof.
  intros Hn. unfold u32_param. rewrite trim_solid by (apply solid_ends_of_all, show_solid; lia).
  now rewrite parse_show by (unfold U32_MAX, U64_MAX in *; lia).
Qed.

Lemma split_first_show n : 0 <= n -> split_first (show n) = show n.
Proof. intros Hn. unfold split_first. now rewrite find_none by now apply plain_no_comma, show_plain. Qed.

Lemma parse_type_rec_space levels s : parse_type_rec levels (" "%byte :: s) = parse_type_rec levels s.
Proof. destruct levels; [reflexivity|]. cbn [parse_type_rec]. now rewrite trim_space. Qed.

Lemma parse_to_string_list levels ts :
  Forall (fun t => printable t = true -> (nesting t < levels)%nat ->
                   parse_type_rec levels (to_string t) = Ok t) ts ->
  forallb printable ts = true -> (list_max (map (fun t => S (nesting t)) ts) <= levels)%nat ->
  let inner := comma_sep (map to_string ts) in
  trim inner = inner /\
  parse_type_list (parse_type_rec levels) (S (length inner)) inner = Ok ts.
Proof.
  intros IH Hp Hlt inner. rewrite forallb_forall in Hp. apply nesting_list in Hlt.
  split.
  - apply trim_solid, comma_sep_solid, Forall_map, Forall_forall.
    intros t Ht. now apply to_string_shape, Hp.
  - apply parse_type_list_ok; [apply parse_type_rec_space| |].
    + rewrite Forall_forall in *. intros t Ht.
      destruct (to_string_shape t (Hp t Ht)) as (? & _ & ?). auto.
    + unfold inner. rewrite <- (length_map to_string) at 1. apply Nat.lt_succ_r, length_comma_sep.
      apply Forall_map, Forall_forall. intros t Ht. now apply to_string_shape, Hp.
Qed.

(** The three shapes of parenthesised types: one type, a list, one number. *)
Section Shapes.
Variable levels : nat.

Lemma parse_wrapper (C : ColumnType -> ColumnType) name t :
  type_name (str name) = true ->
  (forall p s inner, parse_nested p s (str name) inner = let* t := p inner in Ok (C t)) ->
  printable t = true -> parse_type_rec levels (to_string t) = Ok t ->
  parse_type_rec (S levels) (wrap name (to_string t)) = Ok (C t).
Proof.
  intros Hn Hd Hp IH. rewrite parse_wrap, Hd, IH; [reflexivity|assumption|].
  now apply trim_solid, to_string_shape.
Qed.

Lemma parse_list_wrapper (C : list ColumnType -> ColumnType) name ts :
  type_name (str name) = true ->
  (forall p s inner, parse_nested p s (str name) inner =
     let* ts := parse_type_list p (S (length inner)) inner in Ok (C ts)) ->
  Forall (fun t => printable t = true -> (nesting t < levels)%nat ->
                   parse_type_rec levels (to_string t) = Ok t) ts ->
  forallb printable ts = true -> (list_max (map (fun t => S (nesting t)) ts) <= levels)%nat ->
  parse_type_rec (S levels) (wrap name (comma_sep (map to_string ts))) = Ok (C ts).
Proof.
  intros Hn Hd IH Hp Hl. destruct (parse_to_string_list levels ts IH Hp Hl) as [Ht Hts].
  now rewrite parse_wrap, Hd, Hts by assumption.
Qed.

Lemma parse_number_wrapper name n t :
  type_name (str name) = true -> 0 <= n ->
  (forall p s, parse_nested p s (str name) (show n) = Ok t) ->
  parse_type_rec (S levels) (wrap name (show n)) = Ok t.
Proof.
  intros Hn H0 Hd. rewrite parse_wrap; [apply Hd|assumption|].
  now apply trim_solid, solid_ends_of_all, show_solid.
Qed.

Lemma parse_map k v :
  printable k = true -> printable v = true ->
  parse_type_rec levels (to_string k) = Ok k -> parse_type_rec levels (to_string v) = Ok v ->
  parse_type_rec (S levels) (to_string (TMap k v)) = Ok (TMap k v).
Proof.
  intros Hk Hv IHk IHv. cbn [to_string].
  destruct (to_string_shape k Hk) as (Hik & Hsk & Hnk), (to_string_shape v Hv) as (_ & Hsv & Hnv).
  rewrite parse_wrap; [|reflexivity|now apply trim_solid, solid_ends_join].
  destruct (take_inert_comma (to_string k) (to_string v) Hik) as (Hc & Ht & Hd).
  assert (forall p s inner, parse_nested p s (str "Map") inner =
    let* comma := ok_or (find_top_level_comma inner)
                        (Msg "cannot parse Map types from: {inner}" [AS inner]) in
    let* kt := p (take comma inner) in
    let* vt := p (drop (comma + 1) inner) in Ok (TMap kt vt)) as -> by reflexivity.
  rewrite Hc. cbn [ok_or bind result_monad].
  now rewrite Ht, Hd, parse_type_rec_space, IHk, IHv.
Qed.

Lemma parse_decimal p s :
  0 <= p <= U32_MAX -> 0 <= s <= U32_MAX ->
  parse_type_rec (S levels) (to_string (Decimal p s)) = Ok (Decimal p s).
Proof.
  intros Hp Hs. cbn [to_string]. rewrite parse_wrap; [|reflexivity|].
  2: { apply trim_solid, solid_ends_join; try apply show_nonempty;
       apply solid_ends_of_all, show_solid; lia. }
  assert (forall q t inner, parse_nested q t (str "Decimal") inner =
    match find ","%byte inner with
    | None => Err (Msg "Decimal needs precision,scale: {s}" [AS t])
    | Some i =>
        let* precision := u32_param "Decimal precision: {e}" (take i inner) in
        let* scale := u32_param "Decimal scale: {e}" (drop (i + 1) inner) in
        Ok (Decimal precision scale)
    end) as -> by reflexivity.
  unfold find. rewrite find_from_app by (apply plain_no_comma, show_plain; lia).
  change (find_from _ _ (str ", " ++ show s)) with (Some (0 + blen (show p))).
  rewrite Z.add_0_l, take_app_exact, u32_param_show by assumption. cbn [bind result_monad].
  replace (drop (blen (show p) + 1) (show p ++ str ", " ++ show s)) with (" "%byte :: show s).
  - unfold u32_param. rewrite trim_space. fold (u32_param "Decimal scale: {e}" (show s)).
    now rewrite u32_param_show.
  - symmetry. apply take_inert_comma. apply inert_plain, show_plain. lia.
Qed.
End Shapes.

Lemma parse_to_string t :
  forall levels, printable t = true -> (nesting t < levels)%nat ->
  parse_type_rec levels (to_string t) = Ok t.
Proof.
  type_induction t; cbn [printable nesting].
  - intros t IH [|levels] Hp Hn; [lia|]. apply parse_wrapper; auto with arith.
  - intros t IH [|levels] Hp Hn; [lia|]. apply parse_wrapper; auto with arith.
  - intros k v IHk IHv [|levels] Hp Hn; [lia|]. apply andb_prop in Hp as [Hk Hv].
    apply parse_map; auto; [apply IHk|apply IHv]; auto; lia.
  - intros ts IH [|levels] Hp Hn; [lia|]. apply parse_list_wrapper; auto with arith.
    eapply Forall_impl; [|exact IH]. auto.
  - intros t IH [|levels] Hp Hn; [lia|]. apply parse_wrapper; auto with arith.
  - intros ts IH [|levels] Hp Hn; [lia|]. apply parse_list_wrapper; auto with arith.
    eapply Forall_impl; [|exact IH]. auto.
  - intros t. destruct t; try exact I; intros [|levels] Hp Hn; try lia; try discriminate Hp;
      cbn [printable to_string] in *; rewrite ?andb_true_iff in Hp;
      lazymatch goal with
      | |- context [show _ ++ _] => apply parse_decimal; lia
      | |- context [show _] => apply parse_number_wrapper; [reflexivity|lia|intros p s]
      | |- _ => reflexivity
      end.
    + change (parse_nested _ _ _ _) with
        (let* n := map_err (fun e => Msg "FixedString: {e}" [AM e])
                     (parse_uint USIZE_MAX (trim (show n))) in Ok (FixedString n)).
      rewrite trim_solid by (apply solid_ends_of_all, show_solid; lia).
      now rewrite parse_show by (unfold USIZE_MAX, U64_MAX in *; lia).
    + change (parse_nested _ _ _ _) with
        (let* n := u32_param "DateTime64: {e}" (split_first (show scale)) in Ok (DateTime64 n)).
      now rewrite split_first_show, u32_param_show by lia.
    + change (parse_nested _ _ _ _) with
        (let* n := u32_param "Time64: {e}" (split_first (show scale)) in Ok (Time64 n)).
      now rewrite split_first_show, u32_param_show by lia.
Qed.

(** C31: printing a type and parsing the name gives the type back, for every type built from
    the constructors whose arguments [Display] prints (not enums, aggregate functions and the
    unknown types of [Other]) with arguments in range, nested at most [MAX_TYPE_NESTING]
    deep. *)
Theorem parse_type_display (t : ColumnType) :
  printable t = true -> (nesting t <= MAX_TYPE_NESTING)%nat -> parse_type (to_string t) = Ok t.
Proof. intros Hp Hn. apply parse_to_string; [assumption|lia]. Qed.

Lemma parse_type_display_witness :
  let t := TMap (LowCardinality TString) (Tuple [Array (Nullable (Decimal 38 6)); Point; FixedString 16]) in
  parse_type (to_string t) = Ok t.
Proof. apply parse_type_display; [reflexivity|]. unfold MAX_TYPE_NESTING. cbn. lia. Defined.

(** *** What a parsed type satisfies *)

(** The integer parameters are in the range of their Rust types. *)
Fixpoint wf_type (ct : ColumnType) : bool :=
  match ct with
  | FixedString n => (0 <=? n) && (n <=? USIZE_MAX)
  | DateTime64 s | Time64 s => (0 <=? s) && (s <=? U32_MAX)
  | Decimal p s => (0 <=? p) && (p <=? U32_MAX) && (0 <=? s) && (s <=? U32_MAX)
  | Nullable t | Array t | LowCardinality t => wf_type t
  | TMap k v => wf_type k && wf_type v
  | Tuple ts | Variant ts => forallb wf_type ts
  | _ => true
  end.

(** [bounded L t]: well-formed and nested less than [L] deep. *)
Definition bounded (L : nat) (t : ColumnType) : Prop := wf_type t = true /\ (nesting t < L)%nat.

Lemma parse_digits_range max acc s n :
  0 <= acc <= max -> parse_digits false 0 max acc s = Ok n -> 0 <= n <= max.
Proof.
  revert acc; induction s as [|b s IH]; intros acc Hacc H; [cbn in H; inj; assumption|].
  cbn [parse_digits] in H. destruct (negb (is_digit b)); [discriminate|].
  destruct (Z.ltb_spec (acc * 10 + (byte.unsigned b - 48)) 0); [discriminate|].
  destruct (Z.ltb_spec max (acc * 10 + (byte.unsigned b - 48))); [discriminate|].
  apply IH in H; lia.
Qed.

Lemma parse_uint_range max s n : 0 <= max -> parse_uint max s = Ok n -> 0 <= n <= max.
Proof.
  intros Hmax. unfold parse_uint. destruct s as [|b s]; [discriminate|].
  assert (forall l, parse_digits false 0 max 0 l = Ok n -> 0 <= n <= max) as Hd
    by (intros l; apply parse_digits_range; lia).
  destruct b; try apply Hd; destruct s; try discriminate; apply Hd.
Qed.

Lemma u32_param_range what s n : u32_param what s = Ok n -> 0 <= n <= U32_MAX.
Proof. intros H. apply map_err_inv, parse_uint_range in H; [assumption|]. unfold U32_MAX. lia. Qed.

Lemma parse_type_list_bounded (p : bytes -> result message ColumnType) L fuel :
  (forall s t, p s = Ok t -> bounded L t) ->
  forall s ts, parse_type_list p fuel s = Ok ts -> Forall (bounded L) ts.
Proof.
  intros Hp. induction fuel as [|fuel IH]; intros s ts H; [discriminate|].
  destruct s as [|c s]; [cbn in H; inj; constructor|].
  rewrite parse_type_list_cons in H by easy.
  destruct (find_top_level_comma (c :: s)) as [pos|].
  - apply result_bind_inv in H as (t & Ht & H). apply result_bind_inv in H as (ts' & Hts & H).
    inj. constructor; eauto.
  - apply result_bind_inv in H as (t & Ht & H). inj. constructor; [eauto|constructor].
Qed.

Lemma bounded_list L ts :
  Forall (bounded L) ts ->
  forallb wf_type ts = true /\ (list_max (map (fun t => S (nesting t)) ts) < S L)%nat.
Proof.
  intros H. split.
  - apply forallb_forall. rewrite Forall_forall in H. intros t Ht. now apply H.
  - apply Nat.lt_succ_r, nesting_list. eapply Forall_impl; [|exact H]. now intros t [_ ?].
Qed.

Lemma parse_nested_bounded (p : bytes -> result message ColumnType) L s base inner t :
  (forall s t, p s = Ok t -> bounded L t) ->
  parse_nested p s base inner = Ok t -> bounded (S L) t.
Proof.
  intros Hp. unfold parse_nested.
  repeat match goal with
  | |- (if ?b then _ else _) = _ -> _ => destruct b
  | |- (match ?o with Some _ => _ | None => _ end) = _ -> _ => destruct o
  end; intros H; try discriminate;
  repeat (apply result_bind_inv in H as (? & ? & H)); inj; unfold bounded; cbn [wf_type nesting];
  repeat match goal with
  | H : p _ = Ok _ |- _ => apply Hp in H as [? ?]
  | H : parse_type_list p _ _ = Ok _ |- _ =>
      apply (parse_type_list_bounded p L) in H; [apply bounded_list in H as [? ?]|assumption]
  | H : u32_param _ _ = Ok _ |- _ => apply u32_param_range in H
  | H : map_err _ (parse_uint USIZE_MAX _) = Ok _ |- _ =>
      apply map_err_inv, parse_uint_range in H; [|unfold USIZE_MAX; lia]
  end; unfold U32_MAX in *;
  (split; [rewrite ?andb_true_iff; repeat split; (assumption || reflexivity || lia)|lia]).
Qed.

Lemma parse_simple_bounded L base s t : parse_simple base s = Ok t -> bounded (S L) t.
Proof.
  unfold parse_simple. destruct (lookup_type simple_types base) as [ct|] eqn:E.
  - intros H. inj. assert (Forall (fun e => bounded (S L) (snd e)) simple_types) as Hall
      by (repeat (apply Forall_cons; [split; [reflexivity|cbn; lia]|]); apply Forall_nil). revert E.
    induction Hall as [|[n c] tl Hc _ IHl]; [discriminate|].
    cbn [lookup_type]. destruct (bytes_eqb _ _); [intros; inj; exact Hc|exact IHl].
  - destruct (starts_with _ _); intros H; [apply result_bind_inv in H as (n & Hn & H)|]; inj;
      (split; [|cbn; lia]); [|reflexivity].
    apply map_err_inv, parse_uint_range in Hn; [|unfold U32_MAX; lia]. cbn [wf_type].
    apply andb_true_intro. lia.
Qed.

Lemma parse_type_rec_bounded levels s t : parse_type_rec levels s = Ok t -> bounded levels t.
Proof.
  revert s t; induction levels as [|levels IH]; intros s t H; [discriminate|].
  cbn [parse_type_rec] in H. destruct (take _ _); [discriminate|].
  destruct (find _ _) as [pos|]; [|now apply (parse_simple_bounded levels) in H].
  destruct (_ || _); [discriminate|]. now apply (parse_nested_bounded _ levels) in H.
Qed.

Lemma parse_type_wf s t : parse_type s = Ok t -> wf_type t = true.
Proof. intros H. now apply parse_type_rec_bounded in H as [? _]. Qed.

(** Whatever type name the server sends, a type that [parse_type] returns
    has its integer parameters in the range of their Rust types and is nested at
    most [MAX_TYPE_NESTING] deep, so the recursive consumers of [ColumnType]
    (printing, dropping, skipping) have a bounded depth. *)
Theorem parse_type_bounded (s : bytes) (t : ColumnType) :
  parse_type s = Ok t -> wf_type t = true /\ (nesting t <= MAX_TYPE_NESTING)%nat.
Proof. intros H. apply parse_type_rec_bounded in H as [? ?]. split; [assumption|lia]. Qed.

Lemma parse_type_bounded_witness :
  wf_type (Array (FixedString 16)) = true /\
  (nesting (Array (FixedString 16)) <= MAX_TYPE_NESTING)%nat.
Proof. apply (parse_type_bounded (str "Array( FixedString(16) )")). reflexivity. Defined.

(** The loop over a list of types never runs out of rounds. *)
Lemma parse_type_list_fuel (p : bytes -> result message ColumnType) s :
  forall fuel fuel', (length s < fuel)%nat -> (length s < fuel')%nat ->
  parse_type_list p fuel s = parse_type_list p fuel' s.
Proof.
  induction s as [s IH] using (induction_ltof1 _ (@length byte)).
  intros [|fuel] [|fuel'] H H'; try lia. destruct s as [|c s]; [reflexivity|].
  rewrite !parse_type_list_cons by easy.
  destruct (find_top_level_comma (c :: s)) as [pos|] eqn:E; [|reflexivity].
  apply find_comma_bound in E. destruct (p _) as [t|e]; [|reflexivity]. cbn [bind result_monad].
  unfold ltof in IH. assert (length (drop (pos + 1) (c :: s)) < length (c :: s))%nat as Hlt.
  { unfold drop. rewrite length_skipn. cbn [length]. lia. }
  now rewrite (IH _ Hlt fuel fuel') by lia.
Qed.

(** The names printed for [Enum8], [Enum16], [AggregateFunction] and
    [SimpleAggregateFunction] carry no arguments and parse to [Other]: [Display]
    is not inverted by [parse_type] there. *)
Theorem display_drops_arguments (t : ColumnType) :
  In t [Enum8; Enum16; AggregateFunction; SimpleAggregateFunction] ->
  parse_type (to_string t) = Ok (Other (to_string t)).
Proof. cbn [In]. intros [<-|[<-|[<-|[<-|[]]]]]; reflexivity. Qed.

Lemma display_drops_arguments_witness :
  parse_type (str "Enum8") = Ok (Other (str "Enum8")).
Proof. apply (display_drops_arguments Enum8). cbn. auto. Defined.
