(* ===== verification/SkipColumn.v ===== *)
(** * Skipping columns of buffered blocks ([shared/skip_column.rs])

    [skip_column_data] advances a position over the bytes of one column of a
    fully buffered block.  The functions of the file are mutually recursive; they
    are cut into
    - leaf columns ([skip_simple]) and the shapes shared by the recursive cases
      ([array_of], [lc_column], [variant_body], [counted_subcolumns]), which take
      the recursive call as an argument;
    - [skip_state_prefix] and [skip_body_raw], structural in the column type and
      parameterised by the Dynamic case;
    - [skip_dynamic_state] and [skip_dynamic_body], which go through type names
      read from the wire.  The former recurses at most once per eight bytes of
      the buffer, the latter once per Dynamic level of the state it is given;
      both bounds are the fuel they are run with. *)

From Stdlib Require Import String ZArith Lia Bool List.
From Stdlib Require Import Strings.Byte.
From coqutil Require Import Byte.
From S2P Require Import Prelude Reader Limits Utf8 Wire TypeParser.
Import ListNotations.

#[local] Set Warnings "-register-all".

(** ** Nested JSON *)

Fixpoint nested_json_below (ct : ColumnType) (is_nested : bool) : bool :=
  match ct with
  | JSON => is_nested
  | Nullable inner | Array inner | LowCardinality inner => nested_json_below inner true
  | TMap k v => nested_json_below k true || nested_json_below v true
  | Tuple elems => existsb (fun e => nested_json_below e true) elems
  | Variant types => existsb (fun t => nested_json_below t true) types
  | Dynamic => false
  | _ => false
  end.

Definition contains_nested_json (ct : ColumnType) : bool := nested_json_below ct false.

(** ** Leaves *)

Definition checked_len (rows width : Z) : result error Z :=
  protocol (checked_column_len rows width (str "column byte length")).

Definition skip_checked_usize (value : Z) (name : bytes) : result error Z :=
  ok_or (usize_try_from value) (Protocol (Msg "{name} count too large" [AS name])).

Definition advance_pos (len : Z) : parser unit := fun buf pos =>
  match checked_add pos len with
  | None => Err (Protocol (msg "buffer position overflow"))
  | Some end_ =>
      if blen buf <? end_
      then Err (Protocol (msg "unexpected end of buffer skipping column data"))
      else Ok (tt, end_)
  end.

Definition skip_fixed (rows width : Z) : parser unit :=
  let* len := lift (checked_len rows width) in advance_pos len.

Definition skip_string_rows (rows : Z) (length_name : bytes) : parser unit :=
  repeat_n (Z.to_nat rows)
    (let* v := parse_varint in
     let* len := lift (protocol (checked_string_len v length_name)) in
     advance_pos len).

(** [parse_bytes] returns exactly eight bytes, so the conversion cannot fail. *)
Definition read_u64_le (name : bytes) : parser Z :=
  let* bytes := parse_bytes 8 in ret (from_le bytes).

(** [slice::chunks_exact] and [slice::as_chunks]: the full chunks. *)
Fixpoint chunks_loop (fuel width : nat) (l : bytes) : list bytes :=
  match fuel with
  | O => []
  | S fuel =>
      if (width <=? length l)%nat then firstn width l :: chunks_loop fuel width (skipn width l)
      else []
  end.

Definition chunks_exact (width : Z) (l : bytes) : list bytes :=
  chunks_loop (length l) (Z.to_nat width) l.

Definition skip_offset_bytes (nbytes : Z) (name : bytes) : parser Z := fun buf pos =>
  match checked_add pos nbytes with
  | None => Err (Protocol (msg "buffer position overflow"))
  | Some off_end =>
      if blen buf <? off_end
      then Err (Protocol (msg "unexpected end of buffer parsing array offsets"))
      else
        let* total := protocol (fold_offsets 0 (map from_le (chunks_exact 8 (slice buf pos off_end)))
                                             name) in
        Ok (total, off_end)
  end.

Definition skip_offsets (rows : Z) (name : bytes) : parser Z :=
  let* nbytes := lift (checked_len rows 8) in skip_offset_bytes nbytes name.

Definition json_version_error (version : Z) : error :=
  Protocol (Msg "materialized JSON reads require string serialization version 1 or 4, got {version}"
                [AZ version]).

Definition skip_materialized_json (rows : Z) : parser unit :=
  let* version := read_u64_le (str "JSON version") in
  if negb (version =? 1) && negb (version =? 4)
  then throw (json_version_error version)
  else skip_string_rows rows (str "JSON string length").

(** The columns without components: the non-recursive arms of
    [skip_column_data]. *)
Definition skip_simple (ct : ColumnType) (rows : Z) : parser unit :=
  match ct with
  | UInt8 | Int8 | TBool | Enum8 => advance_pos rows
  | UInt16 | Int16 | Date | Enum16 => skip_fixed rows 2
  | UInt32 | Int32 | Float32 | Date32 | DateTime | Time | IPv4 => skip_fixed rows 4
  | UInt64 | Int64 | Float64 | DateTime64 _ | Time64 _ => skip_fixed rows 8
  | UInt128 | Int128 | UUID | IPv6 => skip_fixed rows 16
  | UInt256 | Int256 => skip_fixed rows 32
  | FixedString n => skip_fixed rows n
  | Decimal p _ =>
      if (1 <=? p) && (p <=? 9) then skip_fixed rows 4
      else if (10 <=? p) && (p <=? 18) then skip_fixed rows 8
      else if (19 <=? p) && (p <=? 38) then skip_fixed rows 16
      else if (39 <=? p) && (p <=? 76) then skip_fixed rows 32
      else throw (Protocol (Msg "unsupported Decimal precision {precision}" [AZ p]))
  | Nothing => advance_pos rows
  | TString | Other _ => skip_string_rows rows (str "string value length")
  | _ => throw (Protocol (Msg "{ct} columns are not supported in buffered block reads"
                              [AS (to_string ct)]))
  end.

(** ** Shapes of the recursive cases *)

(** The test [rows == 0] that opens every column function. *)
Definition nonzero (rows : Z) (p : parser unit) : parser unit :=
  if rows =? 0 then ret tt else p.

Definition array_of (name : bytes) (inner : Z -> parser unit) (rows : Z) : parser unit :=
  let* total := skip_offsets rows name in
  if 0 <? total then inner total else ret tt.

Definition lc_idx_width (version serial_type : Z) : result error Z :=
  if negb (version =? 1)
  then Err (Protocol (Msg "unsupported LowCardinality key serialization version {version}" [AZ version]))
  else if negb (Z.land serial_type (Z.shiftl 1 8) =? 0)
  then Err (Protocol (msg "LowCardinality global dictionaries are not supported"))
  else if Z.land serial_type (Z.shiftl 1 9) =? 0
  then Err (Protocol (msg "LowCardinality additional keys flag is missing"))
  else Ok (Z.shiftl 1 (Z.land serial_type 0x3)).

(** [skip_lc_column], with the skipping of the dictionary as [dict]. *)
Definition lc_column (dict : Z -> parser unit) (rows : Z) : parser unit :=
  let* meta := parse_bytes 24 in
  let version := from_le (slice meta 0 8) in
  let serial_type := from_le (slice meta 8 16) in
  let* idx_width := lift (lc_idx_width version serial_type) in
  let* num_keys := lift (protocol (checked_count (from_le (slice meta 16 24))
                                                 (str "LowCardinality key") MAX_JSON_DYNAMIC_ITEMS)) in
  (if 0 <? num_keys then dict num_keys else ret tt) ;;
  let* count_bytes := parse_bytes 8 in
  let* indexes := lift (skip_checked_usize (from_le count_bytes) (str "LowCardinality indexes")) in
  if negb (indexes =? rows)
  then throw (Protocol (Msg "LowCardinality index count {indexes} does not match row count {rows}"
                            [AZ indexes; AZ rows]))
  else let* len := lift (checked_len indexes idx_width) in advance_pos len.

(** [vec![0usize; n]] and [counts[idx] += 1]. *)
Fixpoint incr_nth (l : list Z) (i : nat) : list Z :=
  match l, i with
  | [], _ => []
  | c :: l, O => (c + 1) :: l
  | c :: l, S i => c :: incr_nth l i
  end.

(** The discriminator scan of a Variant: out-of-range values are NULL. *)
Definition variant_counts (n : nat) (discriminators : bytes) : list Z :=
  fold_left (fun counts d => incr_nth counts (Z.to_nat (byte.unsigned d)))
            discriminators (repeat 0 n).

(** The discriminator scans of a Dynamic column: [null] is the NULL marker and
    any other out-of-range value an error. *)
Fixpoint dynamic_counts {A} (decode : A -> result error Z) (null : Z) (what : string)
    (counts : list Z) (items : list A) : result error (list Z) :=
  match items with
  | [] => Ok counts
  | item :: items =>
      let* idx := decode item in
      if idx <? blen counts
      then dynamic_counts decode null what (incr_nth counts (Z.to_nat idx)) items
      else if negb (idx =? null) then Err (Protocol (Msg what [AZ idx; AZ (blen counts)]))
      else dynamic_counts decode null what counts items
  end.

Definition dynamic_discriminator_width (type_count : Z) : Z :=
  if type_count <=? U8_MAX then 1
  else if type_count <=? U16_MAX then 2
  else if type_count <=? U32_MAX then 4 else 8.

Definition decode_dynamic_discriminator (bytes : bytes) : result error Z :=
  match length bytes with
  | 1%nat | 2%nat | 4%nat | 8%nat =>
      skip_checked_usize (from_le bytes) (str "Dynamic discriminator")
  | _ => Err (Protocol (msg "unsupported Dynamic discriminator width"))
  end.

(** The loop over the subcolumns with their observed counts. *)
Fixpoint skip_counted (bodies : list (Z -> parser unit)) (counts : list Z) : parser unit :=
  match bodies, counts with
  | body :: bodies, count :: counts =>
      (if count =? 0 then ret tt else body count) ;; skip_counted bodies counts
  | _, _ => ret tt
  end.

(** [skip_variant_body], with one body per alternative. *)
Definition variant_body (bodies : list (Z -> parser unit)) (rows : Z) : parser unit :=
  let* mode := read_u64_le (str "Variant serialization mode") in
  if (rows =? 0) || (blen bodies =? 0) then ret tt
  else if mode =? 0 then
    let* start := get_pos in
    advance_pos rows ;;
    let* discriminators := get_slice start (start + rows) in
    skip_counted bodies (variant_counts (length bodies) discriminators)
  else if mode =? 1 then
    let* d := read_u64_le (str "Variant compact discriminator") in
    let* discriminator := lift (skip_checked_usize d (str "Variant compact discriminator")) in
    let* r := read_u64_le (str "Variant compact rows") in
    let* compact_rows := lift (skip_checked_usize r (str "Variant compact rows")) in
    if rows <? compact_rows
    then throw (Protocol (Msg "Variant compact rows {compact_rows} exceeds row count {rows}"
                              [AZ compact_rows; AZ rows]))
    else if (discriminator <? blen bodies) && (0 <? compact_rows)
    then nth (Z.to_nat discriminator) bodies (fun _ => ret tt) compact_rows
    else ret tt
  else throw (Protocol (Msg "unknown Variant serialization mode {other}" [AZ mode])).

(** ** State prefixes *)

(** [SkipState], [DynamicSkipState] and [JsonSkipState]. *)
Inductive SkipState : Type :=
| SNone
| SNullable (s : SkipState)
| SArray (s : SkipState)
| SMap (k v : SkipState)
| STuple (l : list SkipState)
| SLowCardinality (s : SkipState)
| SVariant (l : list SkipState)
| SDynamic (d : DynamicSkipState)
| SJson (j : JsonSkipState)
with DynamicSkipState : Type :=
| mkDynamic (version : Z) (type_names : list bytes) (type_states : list SkipState)
with JsonSkipState : Type :=
| mkJson (version : Z) (dynamic_paths : list DynamicSkipState).

(** The number of Dynamic levels of a state. *)
Fixpoint state_depth (s : SkipState) : nat :=
  match s with
  | SNone => 0
  | SNullable s | SArray s | SLowCardinality s => state_depth s
  | SMap k v => Nat.max (state_depth k) (state_depth v)
  | STuple l | SVariant l => list_max (map state_depth l)
  | SDynamic d => dynamic_depth d
  | SJson j => json_depth j
  end
with dynamic_depth (d : DynamicSkipState) : nat :=
  match d with mkDynamic _ _ states => S (list_max (map state_depth states)) end
with json_depth (j : JsonSkipState) : nat :=
  match j with mkJson _ paths => list_max (map dynamic_depth paths) end.

Definition read_type_names (count_name : bytes) : parser (list bytes) :=
  let* v := parse_varint in
  let* type_count := lift (protocol (checked_count v count_name MAX_JSON_DYNAMIC_ITEMS)) in
  collect_n (Z.to_nat type_count)
    (let* bs := parse_string_bytes in
     lift (from_utf8 "dynamic type name utf8: {e}" bs)).

Definition parse_dynamic_type (type_name : bytes) : result error ColumnType :=
  map_err (fun e => Protocol (Msg "bad dynamic type '{type_name}': {e}" [AS type_name; AM e]))
          (parse_type type_name).

(** The dynamic paths of versions 0 and 3. *)
Definition skip_json_paths (dynamic : parser DynamicSkipState) : parser (list DynamicSkipState) :=
  let* v := parse_varint in
  let* paths_count := lift (protocol (checked_count v (str "JSON path") MAX_JSON_DYNAMIC_ITEMS)) in
  repeat_n (Z.to_nat paths_count) (parse_string_bytes ;; ret tt) ;;
  collect_n (Z.to_nat paths_count) dynamic.

Definition skip_json_state (dynamic : parser DynamicSkipState) : parser JsonSkipState :=
  let* version := read_u64_le (str "JSON serialization version") in
  if (version =? 1) || (version =? 4) then ret (mkJson version [])
  else if version =? 3 then
    let* dynamic_paths := skip_json_paths dynamic in ret (mkJson version dynamic_paths)
  else if version =? 0 then
    parse_varint ;;
    let* dynamic_paths := skip_json_paths dynamic in ret (mkJson version dynamic_paths)
  else throw (Protocol (Msg "unknown JSON serialization version {other}" [AZ version])).

Fixpoint skip_state_prefix_with (dynamic : parser DynamicSkipState) (ct : ColumnType)
  : parser SkipState :=
  match ct with
  | Nullable inner => let* s := skip_state_prefix_with dynamic inner in ret (SNullable s)
  | Array inner => let* s := skip_state_prefix_with dynamic inner in ret (SArray s)
  | TMap key value =>
      let* k := skip_state_prefix_with dynamic key in
      let* v := skip_state_prefix_with dynamic value in
      ret (SMap k v)
  | Tuple elems =>
      let* states := map_each elems (skip_state_prefix_with dynamic) in ret (STuple states)
  | LowCardinality inner =>
      let* s := skip_state_prefix_with dynamic inner in ret (SLowCardinality s)
  | Variant types =>
      let* states := map_each types (skip_state_prefix_with dynamic) in ret (SVariant states)
  | Dynamic => let* d := dynamic in ret (SDynamic d)
  | JSON => let* j := skip_json_state dynamic in ret (SJson j)
  | _ => ret SNone
  end.

(** The type names of a Dynamic prefix, by version. *)
Definition skip_dynamic_names (version : Z) : parser (list bytes) :=
  if version =? 0 then ret []
  else if version =? 1 then
    parse_varint ;;
    let* type_names := read_type_names (str "dynamic subcolumn types") in
    read_u64_le (str "Dynamic variant version") ;;
    ret type_names
  else if (version =? 2) || (version =? 3) then read_type_names (str "dynamic subcolumn types")
  else throw (Protocol (Msg "unknown Dynamic subcolumn serialization version {other}" [AZ version])).

Fixpoint skip_dynamic_state_fuel (fuel : nat) : parser DynamicSkipState :=
  match fuel with
  | O => throw ModelFuel
  | S fuel =>
      let* version := read_u64_le (str "Dynamic serialization version") in
      let* type_names := skip_dynamic_names version in
      let* type_states :=
        map_each type_names (fun type_name =>
          let* ct := lift (parse_dynamic_type type_name) in
          skip_state_prefix_with (skip_dynamic_state_fuel fuel) ct) in
      ret (mkDynamic version type_names type_states)
  end.

(** Every nested call has consumed eight more bytes. *)
Definition skip_dynamic_state : parser DynamicSkipState := fun buf pos =>
  skip_dynamic_state_fuel (S (Z.to_nat (blen buf / 8))) buf pos.

Definition skip_state_prefix (ct : ColumnType) : parser SkipState :=
  skip_state_prefix_with skip_dynamic_state ct.

(** ** Bodies after a state prefix *)

Definition skip_json_body_raw (dynamic_body : DynamicSkipState -> Z -> parser unit)
    (state : JsonSkipState) (rows : Z) : parser unit :=
  let 'mkJson version dynamic_paths := state in
  if (version =? 1) || (version =? 4) then skip_string_rows rows (str "JSON string length")
  else if version =? 3 then
    for_each dynamic_paths (fun dynamic => dynamic_body dynamic rows)
  else if version =? 0 then
    for_each dynamic_paths (fun dynamic => dynamic_body dynamic rows) ;;
    skip_fixed rows 8
  else throw (Protocol (Msg "unknown JSON serialization version {other}" [AZ version])).

(** The bodies of the elements [types], with the state of the same index or
    [SNone]. *)
Section Bodies.
Context {M : Type}.
Variable f : ColumnType -> SkipState -> Z -> M.

Fixpoint bodies (types : list ColumnType) (states : list SkipState) : list (Z -> M) :=
  match types with
  | [] => []
  | t :: types => f t (hd SNone states) :: bodies types (tl states)
  end.
End Bodies.

(** The components of the geo types: arrays of pairs of [Float64]. *)
Definition skip_point (rows : Z) : parser unit :=
  nonzero rows (skip_fixed rows 8 ;; skip_fixed rows 8).

Definition skip_ring (rows : Z) : parser unit :=
  nonzero rows (array_of (str "array offset") skip_point rows).

Definition skip_polygon (rows : Z) : parser unit :=
  nonzero rows (array_of (str "array offset") skip_ring rows).

Fixpoint skip_body_raw_with (dynamic_body : DynamicSkipState -> Z -> parser unit)
    (ct : ColumnType) (state : SkipState) (rows : Z) : parser unit :=
  nonzero rows
    match ct with
    | Nullable inner =>
        advance_pos rows ;;
        skip_body_raw_with dynamic_body inner
          (match state with SNullable s => s | _ => SNone end) rows
    | Array inner =>
        array_of (str "array offset")
          (skip_body_raw_with dynamic_body inner (match state with SArray s => s | _ => SNone end))
          rows
    | TMap key value =>
        let '(key_state, value_state) := match state with SMap k v => (k, v) | _ => (SNone, SNone) end in
        array_of (str "map offset")
          (fun total => skip_body_raw_with dynamic_body key key_state total ;;
                        skip_body_raw_with dynamic_body value value_state total)
          rows
    | Tuple elems =>
        let states := match state with STuple l => l | _ => [] end in
        for_each (bodies (skip_body_raw_with dynamic_body) elems states) (fun body => body rows)
    | LowCardinality inner =>
        lc_column (skip_body_raw_with dynamic_body inner
                     (match state with SLowCardinality s => s | _ => SNone end)) rows
    | JSON =>
        match state with
        | SJson j => skip_json_body_raw dynamic_body j rows
        | _ => throw (Protocol (msg "missing JSON state prefix"))
        end
    | Dynamic =>
        match state with
        | SDynamic d => dynamic_body d rows
        | _ => throw (Protocol (msg "missing Dynamic state prefix"))
        end
    | Variant types =>
        let states := match state with SVariant l => l | _ => [] end in
        variant_body (bodies (skip_body_raw_with dynamic_body) types states) rows
    | Point => skip_fixed rows 8 ;; skip_fixed rows 8
    | Ring => array_of (str "array offset") skip_point rows
    | Polygon => array_of (str "array offset") skip_ring rows
    | MultiPolygon => array_of (str "array offset") skip_polygon rows
    | _ => skip_simple ct rows
    end.

(** [skip_counted_subcolumns]: the type of a subcolumn is parsed when its turn
    comes and it has rows. *)
Definition counted_bodies (body : ColumnType -> SkipState -> Z -> parser unit)
    (type_names : list bytes) (type_states : list SkipState) : list (Z -> parser unit) :=
  map (fun '(i, type_name) count =>
         let* ct := lift (parse_dynamic_type type_name) in
         body ct (nth i type_states SNone) count)
      (combine (seq 0 (length type_names)) type_names).

Fixpoint skip_dynamic_body_fuel (fuel : nat) (state : DynamicSkipState) (rows : Z) : parser unit :=
  match fuel with
  | O => throw ModelFuel
  | S fuel =>
      let 'mkDynamic version type_names type_states := state in
      let n := blen type_names in
      let subcolumns :=
        counted_bodies (skip_body_raw_with (skip_dynamic_body_fuel fuel)) type_names type_states in
      if (rows =? 0) || (n =? 0) then ret tt
      else if version =? 0 then ret tt
      else if version =? 1 then
        let* start := get_pos in
        advance_pos rows ;;
        let* discriminators := get_slice start (start + rows) in
        let* counts := lift (dynamic_counts (fun d => Ok (byte.unsigned d)) U8_MAX
          "deprecated Dynamic discriminator {idx} exceeds type count {}"
          (repeat 0 (length type_names)) discriminators) in
        skip_counted subcolumns counts
      else if (version =? 2) || (version =? 3) then
        let width := dynamic_discriminator_width n in
        let* start := get_pos in
        let* len := lift (checked_len rows width) in
        advance_pos len ;;
        let* end_ := get_pos in
        let* chunk_bytes := get_slice start end_ in
        let* counts := lift (dynamic_counts decode_dynamic_discriminator n
          "Dynamic discriminator {idx} exceeds type count {}"
          (repeat 0 (length type_names)) (chunks_exact width chunk_bytes)) in
        skip_counted subcolumns counts
      else throw (Protocol (Msg "unknown Dynamic serialization version {other}" [AZ version]))
  end.

Definition skip_dynamic_body (state : DynamicSkipState) (rows : Z) : parser unit :=
  skip_dynamic_body_fuel (dynamic_depth state) state rows.

Definition skip_body_raw : ColumnType -> SkipState -> Z -> parser unit :=
  skip_body_raw_with skip_dynamic_body.

(** ** [skip_column_data] *)

Fixpoint skip_column_data (ct : ColumnType) (rows : Z) : parser unit :=
  nonzero rows
    match ct with
    | JSON => skip_materialized_json rows
    | Nullable inner => advance_pos rows ;; skip_column_data inner rows
    | Array inner => array_of (str "array offset") (skip_column_data inner) rows
    | TMap key value =>
        array_of (str "map offset")
          (fun total => skip_column_data key total ;; skip_column_data value total) rows
    | Tuple elems => for_each elems (fun elem => skip_column_data elem rows)
    | Point => skip_fixed rows 8 ;; skip_fixed rows 8
    | Ring => array_of (str "array offset") skip_point rows
    | Polygon => array_of (str "array offset") skip_ring rows
    | MultiPolygon => array_of (str "array offset") skip_polygon rows
    | LowCardinality inner => lc_column (skip_body_raw inner SNone) rows
    | Variant types =>
        let* states := map_each types skip_state_prefix in
        variant_body (bodies skip_body_raw types states) rows
    | Dynamic => let* state := skip_dynamic_state in skip_dynamic_body state rows
    | _ => skip_simple ct rows
    end.

(** A type name the parser rejects is skipped as strings. *)
Definition skip_column_data_by_name (type_name : bytes) (rows : Z) : parser unit :=
  match parse_type type_name with
  | Ok ct => skip_column_data ct rows
  | Err _ => skip_string_rows rows (str "string value length")
  end.

(** ** The position stays in the buffer *)

Lemma advances_advance_pos len : 0 <= len -> advances (advance_pos len).
Proof.
  intros Hl buf pos v pos' Hpos. unfold advance_pos.
  destruct (checked_add pos len) as [e|] eqn:E; [|discriminate].
  apply checked_add_inv in E as [-> _]. destruct (Z.ltb_spec (blen buf) (pos + len)); [discriminate|].
  intros. inj. lia.
Qed.

Lemma checked_len_inv rows width n :
  checked_len rows width = Ok n -> n = rows * width /\ rows * width <= MAX_COLUMN_BYTES.
Proof. intros H. apply map_err_inv in H. now apply checked_column_len_inv in H. Qed.

Lemma lift_bind_advances {A B} (r : result error A) (f : A -> parser B) :
  (forall a, r = Ok a -> advances (f a)) -> advances (let* a := lift r in f a).
Proof.
  intros Hf. destruct r as [a|e]; [now apply Hf|]. intros buf pos b pos' _ H. discriminate H.
Qed.

Lemma advances_skip_fixed rows width : 0 <= rows -> 0 <= width -> advances (skip_fixed rows width).
Proof.
  intros Hr Hw. apply lift_bind_advances. intros n H. apply checked_len_inv in H as [-> _].
  apply advances_advance_pos. nia.
Qed.

Lemma advances_skip_string_rows rows name : advances (skip_string_rows rows name).
Proof.
  apply advances_repeat_n, parse_varint_bind_advances. intros v Hv.
  apply lift_bind_advances. intros n H. apply map_err_inv, checked_string_len_inv in H as [-> _].
  now apply advances_advance_pos.
Qed.

Lemma advances_read_u64_le name : advances (read_u64_le name).
Proof. unfold read_u64_le. advances. Qed.

Lemma advances_skip_offsets rows name : 0 <= rows -> advances (skip_offsets rows name).
Proof.
  intros Hr. apply lift_bind_advances. intros n H. apply checked_len_inv in H as [-> _].
  intros buf pos v pos' Hpos. unfold skip_offset_bytes.
  destruct (checked_add pos (rows * 8)) as [e|] eqn:E; [|discriminate].
  apply checked_add_inv in E as [-> _]. destruct (Z.ltb_spec (blen buf) (pos + rows * 8)); [discriminate|].
  intros H'. apply result_bind_inv in H' as (t & _ & H'). inj. lia.
Qed.

#[export] Hint Resolve advances_skip_fixed advances_skip_string_rows advances_read_u64_le
  advances_advance_pos : advances.
#[export] Hint Extern 3 (advances (skip_fixed _ _)) => apply advances_skip_fixed; lia : advances.

Lemma advances_skip_simple ct rows :
  wf_type ct = true -> 0 <= rows -> advances (skip_simple ct rows).
Proof.
  intros Hwf Hr. destruct ct; cbn [skip_simple]; cbn [wf_type] in Hwf; advances.
Qed.

Lemma advances_nonzero rows p : (0 < rows -> advances p) -> 0 <= rows -> advances (nonzero rows p).
Proof.
  intros Hp Hr. unfold nonzero. destruct (Z.eqb_spec rows 0); [apply advances_ret|]. apply Hp. lia.
Qed.

Lemma advances_array_of name inner rows :
  0 <= rows -> (forall total, 0 <= total -> advances (inner total)) ->
  advances (array_of name inner rows).
Proof.
  intros Hr Hi. apply advances_bind; [now apply advances_skip_offsets|]. intros total.
  destruct (Z.ltb_spec 0 total); [|apply advances_ret]. apply Hi. lia.
Qed.

Lemma lc_idx_width_pos v t w : lc_idx_width v t = Ok w -> 1 <= w <= 8.
Proof.
  unfold lc_idx_width. destruct (negb _); [discriminate|]. destruct (negb _); [discriminate|].
  destruct (_ =? 0); [discriminate|]. intros. inj.
  change 3 with (Z.ones 2). rewrite Z.land_ones by lia.
  pose proof (Z.mod_pos_bound t (2 ^ 2) ltac:(lia)) as Hm. change (2 ^ 2) with 4 in *.
  rewrite Z.shiftl_mul_pow2 by lia.
  assert (t mod 4 = 0 \/ t mod 4 = 1 \/ t mod 4 = 2 \/ t mod 4 = 3) as [->|[->|[->| ->]]] by lia; lia.
Qed.

Lemma advances_lc_column dict rows :
  0 <= rows -> (forall n, 0 <= n -> advances (dict n)) -> advances (lc_column dict rows).
Proof.
  intros Hr Hd. unfold lc_column. apply advances_bind; [advances|]. intros meta.
  apply lift_bind_advances. intros w Hw. apply lc_idx_width_pos in Hw.
  apply lift_bind_advances. intros n _. apply advances_bind.
  { destruct (Z.ltb_spec 0 n); [apply Hd; lia|apply advances_ret]. }
  intros _. apply advances_bind; [advances|]. intros count. apply advances_bind; [advances|].
  intros indexes. destruct (Z.eqb_spec indexes rows) as [->|]; [|apply advances_throw].
  cbn [negb]. apply lift_bind_advances. intros len Hlen. apply checked_len_inv in Hlen as [-> _].
  apply advances_advance_pos. nia.
Qed.

Definition nonneg (l : list Z) : Prop := Forall (fun c => 0 <= c) l.

Lemma nonneg_incr l i : nonneg l -> nonneg (incr_nth l i).
Proof.
  intros H. revert i; induction H as [|c l Hc Hl IH]; intros [|i]; cbn; constructor; auto; try lia.
  apply IH.
Qed.

Lemma nonneg_zeros n : nonneg (repeat 0 n).
Proof. apply Forall_forall. intros c Hc. apply repeat_spec in Hc. lia. Qed.

Lemma nonneg_variant_counts n ds : nonneg (variant_counts n ds).
Proof.
  unfold variant_counts. generalize (nonneg_zeros n). generalize (repeat 0 n).
  induction ds as [|d ds IH]; intros l Hl; [assumption|]. cbn. now apply IH, nonneg_incr.
Qed.

Lemma nonneg_dynamic_counts {A} (decode : A -> result error Z) null what items :
  forall counts counts', nonneg counts ->
  dynamic_counts decode null what counts items = Ok counts' -> nonneg counts'.
Proof.
  induction items as [|x items IH]; intros counts counts' Hc H; cbn [dynamic_counts] in H.
  - inj. assumption.
  - apply result_bind_inv in H as (idx & _ & H). destruct (_ <? _).
    + apply IH in H; [assumption|]. now apply nonneg_incr.
    + destruct (negb _); [discriminate|]. now apply IH in H.
Qed.

Definition advancing_bodies (bodies : list (Z -> parser unit)) : Prop :=
  Forall (fun body => forall n, 0 <= n -> advances (body n)) bodies.

Lemma advances_skip_counted bodies counts :
  advancing_bodies bodies -> nonneg counts -> advances (skip_counted bodies counts).
Proof.
  intros Hb. revert counts. induction Hb as [|body bodies Hbody Hbs IH]; intros [|c counts] Hc;
    cbn [skip_counted]; try apply advances_ret. inversion Hc; subst.
  apply advances_bind; [|intros _; now apply IH]. apply advances_if; [apply advances_ret|auto].
Qed.

Lemma advances_variant_body bodies rows :
  advancing_bodies bodies -> 0 <= rows -> advances (variant_body bodies rows).
Proof.
  intros Hb Hr. unfold variant_body. apply advances_bind; [advances|]. intros mode.
  apply advances_if; [apply advances_ret|]. apply advances_if.
  - apply advances_bind; [advances|]. intros start. apply advances_bind; [advances|]. intros _.
    apply advances_bind; [advances|]. intros ds.
    apply advances_skip_counted; [assumption|apply nonneg_variant_counts].
  - apply advances_if; [|apply advances_throw].
    do 4 (apply advances_bind; [advances|intros ?]). apply advances_if; [apply advances_throw|].
    destruct (Z.ltb_spec 0 a2); [|rewrite andb_false_r; apply advances_ret].
    apply advances_if; [|apply advances_ret].
    destruct (nth_in_or_default (Z.to_nat a0) bodies (fun _ => ret tt)) as [Hin| ->];
      [|apply advances_ret].
    unfold advancing_bodies in Hb. rewrite Forall_forall in Hb. apply Hb; [assumption|lia].
Qed.

(** *** State prefixes and bodies *)

Lemma advances_skip_json_paths dynamic : advances dynamic -> advances (skip_json_paths dynamic).
Proof. intros H. unfold skip_json_paths. advances. Qed.

Lemma advances_skip_json_state dynamic : advances dynamic -> advances (skip_json_state dynamic).
Proof.
  intros H. pose proof (advances_skip_json_paths _ H). unfold skip_json_state. advances.
Qed.

Lemma advances_state_prefix dynamic ct :
  advances dynamic -> advances (skip_state_prefix_with dynamic ct).
Proof.
  intros Hd. type_induction ct; cbn [skip_state_prefix_with]; intros;
    try (advances; fail).
  - apply advances_bind; [now apply advances_map_each|advances].
  - apply advances_bind; [now apply advances_map_each|advances].
  - destruct t; try exact I; cbn [skip_state_prefix_with]; try apply advances_ret.
    + apply advances_bind; [now apply advances_skip_json_state|advances].
    + advances.
Qed.

Lemma advances_read_type_names name : advances (read_type_names name).
Proof. unfold read_type_names. advances. Qed.

Lemma advances_skip_dynamic_names version : advances (skip_dynamic_names version).
Proof. pose proof advances_read_type_names. unfold skip_dynamic_names. advances. Qed.

Lemma advances_skip_dynamic_state_fuel fuel : advances (skip_dynamic_state_fuel fuel).
Proof.
  induction fuel as [|fuel IH]; [apply advances_throw|]. cbn [skip_dynamic_state_fuel].
  apply advances_bind; [advances|]. intros version.
  apply advances_bind; [apply advances_skip_dynamic_names|]. intros names.
  apply advances_bind; [|advances]. apply advances_map_each, Forall_forall. intros name _.
  apply advances_bind; [advances|]. intros ct. now apply advances_state_prefix.
Qed.

Lemma advances_skip_dynamic_state : advances skip_dynamic_state.
Proof. intros buf. apply advances_skip_dynamic_state_fuel. Qed.

Section AdvancingBodies.
Variable dynamic_body : DynamicSkipState -> Z -> parser unit.
Hypothesis dynamic_body_advances : forall d rows, 0 <= rows -> advances (dynamic_body d rows).

Lemma advances_skip_point rows : 0 <= rows -> advances (skip_point rows).
Proof. intros. apply advances_nonzero; [|assumption]. intros. advances. Qed.

Lemma advances_skip_ring rows : 0 <= rows -> advances (skip_ring rows).
Proof.
  intros. apply advances_nonzero; [|assumption]. intros.
  apply advances_array_of; [assumption|apply advances_skip_point].
Qed.

Lemma advances_skip_polygon rows : 0 <= rows -> advances (skip_polygon rows).
Proof.
  intros. apply advances_nonzero; [|assumption]. intros.
  apply advances_array_of; [assumption|apply advances_skip_ring].
Qed.

Lemma advances_json_body j rows : 0 <= rows -> advances (skip_json_body_raw dynamic_body j rows).
Proof.
  intros Hr. destruct j as [v paths]. cbn [skip_json_body_raw].
  assert (advances (for_each paths (fun d => dynamic_body d rows)))
    by (apply advances_for_each, Forall_forall; auto).
  advances.
Qed.

Lemma advancing_bodies_of f types states :
  Forall (fun t => forall s n, 0 <= n -> advances (f t s n)) types ->
  advancing_bodies (bodies f types states).
Proof.
  intros H. revert states. induction H as [|t types Ht Hts IH]; intros states; constructor; auto.
  apply IH.
Qed.

Lemma advances_skip_body_raw_with ct :
  wf_type ct = true -> forall state rows, 0 <= rows ->
  advances (skip_body_raw_with dynamic_body ct state rows).
Proof.
  type_induction ct; cbn [wf_type].
  - intros t IH Hwf s rows Hr. apply advances_nonzero; [intros|assumption].
    apply advances_bind; [advances|auto].
  - intros t IH Hwf s rows Hr. apply advances_nonzero; [intros|assumption].
    apply advances_array_of; auto.
  - intros k v IHk IHv Hwf s rows Hr. apply andb_prop in Hwf as [Hk Hv].
    apply advances_nonzero; [intros|assumption].
    destruct (match s with SMap k v => (k, v) | _ => (SNone, SNone) end) as [ks vs].
    apply advances_array_of; [assumption|]. intros total Ht. apply advances_bind; auto.
  - intros ts IH Hwf s rows Hr. apply advances_nonzero; [intros|assumption].
    apply advances_for_each. rewrite forallb_forall in Hwf. rewrite Forall_forall in IH.
    eapply Forall_impl; [|apply (advancing_bodies_of (skip_body_raw_with dynamic_body) ts)].
    + intros body Hb. now apply Hb.
    + apply Forall_forall. auto.
  - intros t IH Hwf s rows Hr. apply advances_nonzero; [intros|assumption].
    apply advances_lc_column; auto.
  - intros ts IH Hwf s rows Hr. apply advances_nonzero; [intros|assumption].
    apply advances_variant_body; [|assumption]. apply advancing_bodies_of.
    rewrite forallb_forall in Hwf. rewrite Forall_forall in *. auto.
  - pose proof advances_skip_point. pose proof advances_skip_ring. pose proof advances_skip_polygon.
    intros t. destruct t; try exact I; intros Hwf state rows Hr; cbn [skip_body_raw_with];
      (apply advances_nonzero; [intros|assumption]);
      try (now apply advances_skip_simple); try (now apply advances_array_of); try (advances; fail).
    destruct state; try apply advances_throw. now apply advances_json_body.
Qed.
End AdvancingBodies.

Lemma advancing_counted body names states :
  (forall ct s n, wf_type ct = true -> 0 <= n -> advances (body ct s n)) ->
  advancing_bodies (counted_bodies body names states).
Proof.
  intros Hb. apply Forall_map, Forall_forall. intros [i name] _ n Hn. cbn.
  apply lift_bind_advances. intros ct H. apply Hb; [|assumption].
  apply map_err_inv in H. now apply parse_type_wf in H.
Qed.

Lemma dynamic_width_pos n : 1 <= dynamic_discriminator_width n <= 8.
Proof. unfold dynamic_discriminator_width. bool_cases; lia. Qed.

Lemma advances_skip_dynamic_body_fuel fuel :
  forall state rows, 0 <= rows -> advances (skip_dynamic_body_fuel fuel state rows).
Proof.
  induction fuel as [|fuel IH]; intros [version names states] rows Hr; [apply advances_throw|].
  cbn [skip_dynamic_body_fuel]. set (sub := counted_bodies _ _ _).
  assert (advancing_bodies sub) as Hsub.
  { apply advancing_counted. intros ct s n Hwf Hn. apply advances_skip_body_raw_with; auto. }
  pose proof (nonneg_zeros (length names)) as Hz. pose proof (dynamic_width_pos (blen names)).
  assert (forall A (decode : A -> _) null what items,
    advances (let* counts := lift (dynamic_counts decode null what (repeat 0 (length names)) items) in
              skip_counted sub counts)) as Hcounted.
  { intros. apply lift_bind_advances. intros counts Hc. apply nonneg_dynamic_counts in Hc; [|assumption].
    now apply advances_skip_counted. }
  repeat apply advances_if; try (advances; fail).
  apply advances_bind; [advances|intros start]. apply lift_bind_advances. intros len Hlen.
  apply checked_len_inv in Hlen as [-> _].
  apply advances_bind; [apply advances_advance_pos; nia|intros _]. advances.
Qed.

Lemma advances_skip_dynamic_body state rows : 0 <= rows -> advances (skip_dynamic_body state rows).
Proof. apply advances_skip_dynamic_body_fuel. Qed.

Lemma advances_skip_column_data ct :
  wf_type ct = true -> forall rows, 0 <= rows -> advances (skip_column_data ct rows).
Proof.
  pose proof advances_skip_dynamic_body as Hdyn. pose proof advances_skip_dynamic_state.
  type_induction ct; cbn [wf_type].
  - intros t IH Hwf rows Hr. apply advances_nonzero; [intros|assumption].
    apply advances_bind; [advances|auto].
  - intros t IH Hwf rows Hr. apply advances_nonzero; [intros|assumption].
    apply advances_array_of; auto.
  - intros k v IHk IHv Hwf rows Hr. apply andb_prop in Hwf as [Hk Hv].
    apply advances_nonzero; [intros|assumption].
    apply advances_array_of; [assumption|]. intros total Ht. apply advances_bind; auto.
  - intros ts IH Hwf rows Hr. apply advances_nonzero; [intros|assumption].
    apply advances_for_each. rewrite forallb_forall in Hwf. rewrite Forall_forall in *. auto.
  - intros t IH Hwf rows Hr. apply advances_nonzero; [intros|assumption].
    apply advances_lc_column; [assumption|]. intros n Hn. now apply advances_skip_body_raw_with.
  - intros ts IH Hwf rows Hr. apply advances_nonzero; [intros|assumption].
    apply advances_bind.
    + apply advances_map_each, Forall_forall. intros t _. now apply advances_state_prefix.
    + intros states. apply advances_variant_body; [|assumption]. apply advancing_bodies_of.
      rewrite forallb_forall in Hwf. apply Forall_forall. intros t Ht s n Hn.
      apply advances_skip_body_raw_with; auto.
  - pose proof advances_skip_point. pose proof advances_skip_ring. pose proof advances_skip_polygon.
    intros t. destruct t; try exact I; intros Hwf rows Hr; cbn [skip_column_data];
      (apply advances_nonzero; [intros|assumption]);
      try (now apply advances_skip_simple); try (now apply advances_array_of); try (advances; fail).
Qed.

(** C17: where skipping a column succeeds, of any type the parser accepts and over any bytes,
    the position has not moved backwards or past the end of the buffer; the column slices
    [&buf[start..end]] taken between two positions are in bounds. *)
Theorem skip_column_data_in_bounds (name : bytes) (rows : Z) (buf : bytes) (pos pos' : Z) :
  0 <= rows -> 0 <= pos <= blen buf ->
  skip_column_data_by_name name rows buf pos = Ok (tt, pos') -> pos <= pos' <= blen buf.
Proof.
  intros Hr Hpos. unfold skip_column_data_by_name. destruct (parse_type name) as [ct|e] eqn:E.
  - apply advances_skip_column_data; [now apply parse_type_wf in E|assumption..].
  - now apply advances_skip_string_rows.
Qed.

Lemma skip_column_data_in_bounds_witness :
  let column := to_le 8 2 ++ to_le 8 3 ++ [x07; x08; x09] in
  skip_column_data_by_name (str "Array(UInt8)") 2 (x00 :: column) 1 = Ok (tt, 20) /\ 1 <= 20 <= blen (x00 :: column).
Proof.
  intros column. split; [reflexivity|].
  apply (skip_column_data_in_bounds (str "Array(UInt8)") 2 (x00 :: column) 1 20);
    [lia|split; [lia|discriminate]|reflexivity].
Defined.

(** ** The recursion depth is enough *)

Lemma same_from_json_state buf lo d1 d2 :
  0 <= lo -> advances d1 -> same_from buf lo d1 d2 ->
  same_from buf lo (skip_json_state d1) (skip_json_state d2).
Proof.
  intros Hlo Ha Hs.
  assert (same_from buf lo (skip_json_paths d1) (skip_json_paths d2)) as Hpaths.
  { unfold skip_json_paths. do 3 (apply same_from_bind; [assumption|advances|apply same_from_refl|intros ?]).
    now apply same_from_collect_n. }
  pose proof (advances_skip_json_paths d1 Ha).
  unfold skip_json_state. apply same_from_bind; [assumption|advances|apply same_from_refl|].
  intros v. destruct (_ || _); [apply same_from_refl|]. destruct (v =? 3).
  - apply same_from_bind; auto. intros. apply same_from_refl.
  - destruct (v =? 0); [|apply same_from_refl].
    apply same_from_bind; [assumption|advances|apply same_from_refl|intros _].
    apply same_from_bind; auto. intros. apply same_from_refl.
Qed.

Lemma same_from_state_prefix buf lo d1 d2 ct :
  0 <= lo -> advances d1 -> same_from buf lo d1 d2 ->
  same_from buf lo (skip_state_prefix_with d1 ct) (skip_state_prefix_with d2 ct).
Proof.
  intros Hlo Ha Hs. pose proof (fun ct => advances_state_prefix d1 ct Ha) as Hadv.
  type_induction ct; cbn [skip_state_prefix_with]; intros.
  - apply same_from_bind; auto. intros. apply same_from_refl.
  - apply same_from_bind; auto. intros. apply same_from_refl.
  - do 2 (apply same_from_bind; auto; intros ?). apply same_from_refl.
  - apply same_from_bind; auto; [apply advances_map_each, Forall_forall; auto| |intros; apply same_from_refl].
    apply same_from_map_each; [assumption|]. eapply Forall_impl; [|exact H]. cbn. auto.
  - apply same_from_bind; auto. intros. apply same_from_refl.
  - apply same_from_bind; auto; [apply advances_map_each, Forall_forall; auto| |intros; apply same_from_refl].
    apply same_from_map_each; [assumption|]. eapply Forall_impl; [|exact H]. cbn. auto.
  - destruct t; try exact I; cbn [skip_state_prefix_with]; try apply same_from_refl.
    + apply same_from_bind; auto; [now apply advances_skip_json_state|now apply same_from_json_state|].
      intros. apply same_from_refl.
    + apply same_from_bind; auto. intros. apply same_from_refl.
Qed.

Lemma read_u64_le_pos name buf pos v pos' :
  read_u64_le name buf pos = Ok (v, pos') -> pos' = pos + 8 /\ pos + 8 <= blen buf /\ 0 <= v < 2 ^ 64.
Proof.
  intros H. apply parser_bind_inv in H as (bs & p1 & H1 & H2). cbn in H2. inj.
  unfold parse_bytes in H1. destruct (checked_add pos 8) as [e|] eqn:E; [|discriminate].
  apply checked_add_inv in E as [-> _]. destruct (Z.ltb_spec (blen buf) (pos + 8)); [discriminate|].
  inj. repeat split; try lia; pose proof (from_le_bound (slice buf pos (pos + 8))) as Hb; [lia|].
  eapply Z.lt_le_trans; [apply Hb|]. apply Z.pow_le_mono_r; [lia|].
  unfold slice, take, drop. unfold blen. rewrite length_firstn. lia.
Qed.

Lemma skip_dynamic_state_fuel_enough buf fuel1 :
  forall fuel2 lo, 0 <= lo ->
  blen buf - lo < 8 * Z.of_nat fuel1 -> blen buf - lo < 8 * Z.of_nat fuel2 ->
  same_from buf lo (skip_dynamic_state_fuel fuel1) (skip_dynamic_state_fuel fuel2).
Proof.
  induction fuel1 as [|fuel1 IH]; intros fuel2 lo Hlo H1 H2 pos Hpos; [lia|].
  destruct fuel2 as [|fuel2]; [lia|]. cbn [skip_dynamic_state_fuel].
  destruct (read_u64_le (str "Dynamic serialization version") buf pos) as [[v p1]|e] eqn:E;
    [|cbn [bind parser_monad]; now rewrite E].
  rewrite !(parser_bind_ok _ _ _ _ _ _ E). apply read_u64_le_pos in E as (-> & Hp1 & _).
  enough (same_from buf (lo + 8) (let* type_names := skip_dynamic_names v in
    let* type_states := map_each type_names (fun type_name =>
      let* ct := lift (parse_dynamic_type type_name) in
      skip_state_prefix_with (skip_dynamic_state_fuel fuel1) ct) in
    ret (mkDynamic v type_names type_states)) (let* type_names := skip_dynamic_names v in
    let* type_states := map_each type_names (fun type_name =>
      let* ct := lift (parse_dynamic_type type_name) in
      skip_state_prefix_with (skip_dynamic_state_fuel fuel2) ct) in
    ret (mkDynamic v type_names type_states))) as Hs by (apply Hs; lia).
  specialize (IH fuel2 (lo + 8) ltac:(lia) ltac:(lia) ltac:(lia)).
  pose proof (advances_skip_dynamic_state_fuel fuel1) as Hadv.
  apply same_from_bind; [lia|apply advances_skip_dynamic_names|apply same_from_refl|intros names].
  assert (forall name, advances (let* ct := lift (parse_dynamic_type name) in
            skip_state_prefix_with (skip_dynamic_state_fuel fuel1) ct)) as Ha
    by (intros; apply advances_bind; [advances|]; intros; now apply advances_state_prefix).
  apply same_from_bind; [lia|apply advances_map_each, Forall_forall; auto| |intros; apply same_from_refl].
  apply same_from_map_each; [lia|]. apply Forall_forall. intros name _. split; [apply Ha|].
  apply same_from_bind; [lia|advances|apply same_from_refl|]. intros ct.
  apply same_from_state_prefix; [lia|assumption|assumption].
Qed.

(** Two lists of bodies that behave alike. *)
Definition same_bodies : list (Z -> parser unit) -> list (Z -> parser unit) -> Prop :=
  Forall2 (fun f g => forall n, parser_eq (f n) (g n)).

Lemma array_of_ext name f g rows :
  (forall n, parser_eq (f n) (g n)) -> parser_eq (array_of name f rows) (array_of name g rows).
Proof.
  intros H. apply bind_proper; [reflexivity|]. intros total. destruct (0 <? total); [apply H|reflexivity].
Qed.

Lemma lc_column_ext f g rows :
  (forall n, parser_eq (f n) (g n)) -> parser_eq (lc_column f rows) (lc_column g rows).
Proof.
  intros H. unfold lc_column. do 3 (apply bind_proper; [reflexivity|intros ?]).
  apply bind_proper; [|reflexivity]. destruct (0 <? _); [apply H|reflexivity].
Qed.

Lemma skip_counted_ext bs1 bs2 counts :
  same_bodies bs1 bs2 -> parser_eq (skip_counted bs1 counts) (skip_counted bs2 counts).
Proof.
  intros H. revert counts; induction H as [|f g bs1 bs2 Hfg _ IH]; intros [|c counts]; try reflexivity.
  cbn [skip_counted]. apply bind_proper; [destruct (c =? 0); [reflexivity|apply Hfg]|].
  intros _. apply IH.
Qed.

Lemma same_bodies_length bs1 bs2 : same_bodies bs1 bs2 -> length bs1 = length bs2.
Proof. induction 1; cbn; congruence. Qed.

Lemma same_bodies_nth bs1 bs2 i n :
  same_bodies bs1 bs2 ->
  parser_eq (nth i bs1 (fun _ => ret tt) n) (nth i bs2 (fun _ => ret tt) n).
Proof.
  intros H. revert i; induction H as [|f g bs1 bs2 Hfg _ IH]; intros [|i]; try reflexivity; cbn;
    [apply Hfg|apply IH].
Qed.

Lemma variant_body_ext bs1 bs2 rows :
  same_bodies bs1 bs2 -> parser_eq (variant_body bs1 rows) (variant_body bs2 rows).
Proof.
  intros H. unfold variant_body. apply bind_proper; [reflexivity|]. intros mode.
  unfold blen. rewrite (same_bodies_length _ _ H). destruct (_ || _); [reflexivity|].
  destruct (mode =? 0).
  - do 3 (apply bind_proper; [reflexivity|intros ?]). now apply skip_counted_ext.
  - destruct (mode =? 1); [|reflexivity]. do 4 (apply bind_proper; [reflexivity|intros ?]).
    destruct (_ <? _); [reflexivity|]. destruct (_ && _); [|reflexivity]. now apply same_bodies_nth.
Qed.

Lemma nonzero_ext rows p q : parser_eq p q -> parser_eq (nonzero rows p) (nonzero rows q).
Proof. intros H. unfold nonzero. destruct (rows =? 0); [reflexivity|assumption]. Qed.

(** The body of a column depends on the Dynamic case only for the states inside
    its own state. *)
Section DepthOfBodies.
Variables d1 d2 : DynamicSkipState -> Z -> parser unit.
Variable L : nat.
Hypothesis same_below : forall d rows, (dynamic_depth d <= L)%nat -> parser_eq (d1 d rows) (d2 d rows).

Lemma json_body_ext j rows :
  (json_depth j <= L)%nat -> parser_eq (skip_json_body_raw d1 j rows) (skip_json_body_raw d2 j rows).
Proof.
  destruct j as [v paths]. cbn [json_depth]. intros Hj. apply list_max_le in Hj.
  rewrite Forall_map, Forall_forall in Hj.
  assert (parser_eq (for_each paths (fun d => d1 d rows)) (for_each paths (fun d => d2 d rows)))
    by (apply for_each_proper; auto).
  cbn [skip_json_body_raw]. destruct (_ || _); [reflexivity|]. destruct (v =? 3); [assumption|].
  destruct (v =? 0); [|reflexivity]. apply bind_proper; [assumption|reflexivity].
Qed.

Lemma bodies_ext types states :
  Forall (fun t => forall s, (state_depth s <= L)%nat -> forall rows,
    parser_eq (skip_body_raw_with d1 t s rows) (skip_body_raw_with d2 t s rows)) types ->
  (list_max (map state_depth states) <= L)%nat ->
  same_bodies (bodies (skip_body_raw_with d1) types states)
              (bodies (skip_body_raw_with d2) types states).
Proof.
  intros H. revert states. induction H as [|t types Ht _ IH]; intros states Hs; constructor.
  - apply Ht. destruct states as [|s states]; cbn in *; lia.
  - apply IH. destruct states as [|s states]; cbn in *; lia.
Qed.

Lemma skip_body_raw_with_ext ct :
  forall state, (state_depth state <= L)%nat -> forall rows,
  parser_eq (skip_body_raw_with d1 ct state rows) (skip_body_raw_with d2 ct state rows).
Proof.
  type_induction ct; cbn [skip_body_raw_with].
  - intros t IH s Hs rows. apply nonzero_ext, bind_proper; [reflexivity|]. intros _.
    apply IH. destruct s; cbn in *; lia.
  - intros t IH s Hs rows. apply nonzero_ext, array_of_ext. apply IH. destruct s; cbn in *; lia.
  - intros k v IHk IHv s Hs rows. apply nonzero_ext.
    destruct s; cbn in *; apply array_of_ext; intros n;
      (apply bind_proper; [apply IHk; cbn; lia|intros _; apply IHv; cbn; lia]).
  - intros ts IH s Hs rows. apply nonzero_ext.
    assert (same_bodies (bodies (skip_body_raw_with d1) ts (match s with STuple l => l | _ => [] end))
                        (bodies (skip_body_raw_with d2) ts (match s with STuple l => l | _ => [] end)))
      as Hb by (apply bodies_ext; [assumption|destruct s; cbn in *; lia]).
    induction Hb as [|f g b1 b2 Hfg _ IHb]; [reflexivity|]. rewrite !for_each_cons.
    apply bind_proper; [apply Hfg|]. intros _. exact IHb.
  - intros t IH s Hs rows. apply nonzero_ext, lc_column_ext. apply IH. destruct s; cbn in *; lia.
  - intros ts IH s Hs rows. apply nonzero_ext, variant_body_ext, bodies_ext; [assumption|].
    destruct s; cbn in *; lia.
  - intros t. destruct t; try exact I; intros state Hs rows; cbn [skip_body_raw_with];
      try reflexivity; apply nonzero_ext; destruct state; try reflexivity.
    + now apply json_body_ext.
    + now apply same_below.
Qed.
End DepthOfBodies.

Lemma skip_dynamic_body_fuel_enough fuel1 :
  forall fuel2 state rows, (dynamic_depth state <= fuel1)%nat -> (dynamic_depth state <= fuel2)%nat ->
  parser_eq (skip_dynamic_body_fuel fuel1 state rows) (skip_dynamic_body_fuel fuel2 state rows).
Proof.
  induction fuel1 as [|fuel1 IH]; intros fuel2 [version names states] rows H1 H2;
    cbn [dynamic_depth] in *; [lia|]. destruct fuel2 as [|fuel2]; [lia|].
  cbn [skip_dynamic_body_fuel]. apply le_S_n in H1, H2. set (L := list_max (map state_depth states)) in *.
  assert (same_bodies (counted_bodies (skip_body_raw_with (skip_dynamic_body_fuel fuel1)) names states)
                      (counted_bodies (skip_body_raw_with (skip_dynamic_body_fuel fuel2)) names states)) as Hb.
  { unfold counted_bodies. induction (combine _ names) as [|[i name] l IHl]; constructor; [|exact IHl].
    intros n. apply bind_proper; [reflexivity|]. intros ct.
    apply (skip_body_raw_with_ext _ _ L); [intros d r Hd; apply IH; lia|].
    destruct (nth_in_or_default i states SNone) as [Hin| ->]; [|cbn; lia].
    assert (Forall (fun k => (k <= L)%nat) (map state_depth states)) as Hall by now apply list_max_le.
    rewrite Forall_map, Forall_forall in Hall. auto. }
  destruct (_ || _); [reflexivity|]. destruct (version =? 0); [reflexivity|].
  destruct (version =? 1); [|destruct (_ || _); [|reflexivity]].
  - do 4 (apply bind_proper; [reflexivity|intros ?]). now apply skip_counted_ext.
  - do 6 (apply bind_proper; [reflexivity|intros ?]). now apply skip_counted_ext.
Qed.

(** The recursion through type names read from the wire terminates: reading
    a Dynamic state needs at most one level per eight bytes of the buffer, and
    skipping a Dynamic body one level per Dynamic state nested in its state.
    More depth never changes the result. *)
Theorem dynamic_recursion_bounded (buf : bytes) (pos : Z) (k : nat)
    (state : DynamicSkipState) (rows : Z) :
  0 <= pos <= blen buf ->
  skip_dynamic_state buf pos = skip_dynamic_state_fuel (S (Z.to_nat (blen buf / 8)) + k) buf pos /\
  parser_eq (skip_dynamic_body state rows) (skip_dynamic_body_fuel (dynamic_depth state + k) state rows).
Proof.
  intros Hpos. split.
  - pose proof (Z.div_mod (blen buf) 8 ltac:(lia)). pose proof (Z.mod_pos_bound (blen buf) 8 ltac:(lia)).
    pose proof (Z.div_pos (blen buf) 8 ltac:(lia) ltac:(lia)).
    apply (skip_dynamic_state_fuel_enough buf _ _ pos); lia.
  - apply skip_dynamic_body_fuel_enough; lia.
Qed.

(** A Dynamic column nested in a Dynamic column, and the depth it needs. *)
Lemma dynamic_recursion_bounded_witness :
  let level := to_le 8 2 ++ [x01] ++ write_string (str "Dynamic") in
  let buf := level ++ to_le 8 0 in
  let state := mkDynamic 2 [str "Dynamic"] [SDynamic (mkDynamic 0 [] [])] in
  skip_dynamic_state buf 0 = skip_dynamic_state_fuel (S (Z.to_nat (blen buf / 8)) + 1) buf 0 /\
  parser_eq (skip_dynamic_body state 0) (skip_dynamic_body_fuel (dynamic_depth state + 1) state 0).
Proof. intros level buf state. apply dynamic_recursion_bounded. split; [lia|discriminate]. Defined.
