(* ===== verification/Arena.v ===== *)
(** * The arena readers of [sync/protocol/response.rs]

    The streaming column readers append the bytes they read to a shared arena
    [data: &mut Vec<u8>] and charge them to a column budget
    [budget: &mut usize].  [arena] is that state over the stream readers of
    [Reader]; the primitives that read, charge and append are here. *)

From Stdlib Require Import String ZArith Lia Bool List.
From Stdlib Require Import Strings.Byte.
From coqutil Require Import Byte.
From S2P Require Import Prelude Reader Limits Utf8 Wire TypeParser SkipColumn.
Import ListNotations.

Definition arena (A : Type) : Type := bytes -> Z -> reader (A * bytes * Z).

#[export] Instance arena_monad : Monad arena := {
  ret A a := fun data budget => RRet (a, data, budget);
  bind A B m f := fun data budget => rbind (m data budget) (fun '(a, data, budget) => f a data budget);
}.

#[export] Instance arena_lift : MonadResult arena :=
  fun A r data budget => match r with Ok a => RRet (a, data, budget) | Err e => RFail e end.

(** A read that is neither charged nor appended. *)
Definition unrecorded {A} (m : reader A) : arena A := fun data budget =>
  rbind m (fun a => RRet (a, data, budget)).

(** [data.len()] and [&data[start..end]]. *)
Definition data_len : arena Z := fun data budget => RRet (blen data, data, budget).

Definition data_slice (start end_ : Z) : arena bytes := fun data budget =>
  RRet (slice data start end_, data, budget).

(** [&data[start..]]. *)
Definition data_from (start : Z) : arena bytes := fun data budget =>
  RRet (drop start data, data, budget).

(** [data.extend_from_slice(bytes)]. *)
Definition append (bs : bytes) : arena unit := fun data budget => RRet (tt, data ++ bs, budget).

(** Run [m] on an arena and a budget of its own; the arena is returned. *)
Definition with_arena {A} (m : arena A) : arena (A * bytes) := fun data budget =>
  rbind (m [] MAX_COLUMN_BYTES) (fun '(a, inner, _) => RRet ((a, inner), data, budget)).

Definition charge_budget (len : Z) (what : bytes) : arena unit := fun data budget =>
  match checked_sub budget len with
  | None => RFail (Protocol (Msg "{what} cumulative byte length exceeds limit {}"
                                 [AS what; AZ MAX_COLUMN_BYTES]))
  | Some remaining => RRet (tt, data, remaining)
  end.

(** The bounds check, the charge, the read and the append, in this order. *)
Definition read_exact_into (len : Z) : arena unit :=
  if len =? 0 then ret tt
  else if MAX_COLUMN_BYTES <? len
  then throw (Protocol (Msg "column byte length {len} exceeds limit {}" [AZ len; AZ MAX_COLUMN_BYTES]))
  else
    charge_budget len (str "column") ;;
    let* start := data_len in
    lift (ok_or (checked_add start len) (Protocol (msg "column buffer length overflow"))) ;;
    let* bs := unrecorded (read_exact_r len) in
    append bs.

Fixpoint read_varint_into_loop (fuel : nat) (r shift : Z) : arena Z :=
  match fuel with
  | O => throw ModelFuel
  | S fuel =>
      if 64 <=? shift then throw varint_overflow
      else
        let* bs := unrecorded (read_exact_r 1) in
        charge_budget 1 (str "column") ;;
        append bs ;;
        let b := byte0 bs in
        if (shift =? 63) && (1 <? Z.land b 0x7F) then throw varint_overflow
        else
          let r := Z.lor r (u64_shl (Z.land b 0x7F) shift) in
          if Z.land b 0x80 =? 0 then ret r else read_varint_into_loop fuel r (shift + 7)
  end.

Definition read_varint_into : arena Z := read_varint_into_loop 11 0 0.

Definition read_u64_into : arena Z :=
  let* start := data_len in
  read_exact_into 8 ;;
  let* bytes := data_slice start (start + 8) in
  ret (from_le bytes).

Definition read_string_into (name : bytes) : arena bytes :=
  let* v := read_varint_into in
  let* len := lift (protocol (checked_string_len v name)) in
  let* start := data_len in
  read_exact_into len ;;
  let* bytes := data_slice start (start + len) in
  lift (from_utf8 "invalid UTF-8 string: {e}" bytes).

(** ** Running *)

Lemma run_arena_bind {A B} (m : arena A) (f : A -> arena B) data budget l :
  run (bind m f data budget) l =
  match run (m data budget) l with
  | Ok ((a, data', budget'), l') => run (f a data' budget') l'
  | Err e => Err e
  end.
Proof.
  change (bind m f data budget) with
    (bind (m data budget) (fun '(a, data', budget') => f a data' budget')).
  rewrite run_bind. now destruct (run (m data budget) l) as [[[[a d] b] l']|e].
Qed.

Lemma run_append bs data budget l : run (append bs data budget) l = Ok ((tt, data ++ bs, budget), l).
Proof. reflexivity. Qed.

Lemma run_arena_bind_inv {A B} (m : arena A) (f : A -> arena B) data budget l r :
  run (bind m f data budget) l = Ok r ->
  exists a data' budget' l', run (m data budget) l = Ok ((a, data', budget'), l') /\
                             run (f a data' budget') l' = Ok r.
Proof.
  rewrite run_arena_bind. destruct (run (m data budget) l) as [[[[a d] b] l']|e]; [|discriminate].
  intros H. now exists a, d, b, l'.
Qed.

(** ** Recording buffer parsers

    [records m p]: with a budget of at most [MAX_COLUMN_BYTES], the arena reader
    [m] succeeds on a stream exactly when the buffer parser [p] succeeds on the
    same bytes and they fit in the budget; it returns the same value, appends
    exactly the bytes [p] skips and charges exactly their number. *)
Definition recorded {A} (p : parser A) (buf : bytes) (pos : Z) (data : bytes) (budget : Z)
    (a : A) (data' : bytes) (budget' : Z) (rest : bytes) : Prop :=
  exists pos', p buf pos = Ok (a, pos') /\ rest = drop pos' buf /\
    data' = data ++ slice buf pos pos' /\ budget' = budget - (pos' - pos) /\ 0 <= budget'.

Record records {A} (m : arena A) (p : parser A) : Prop := {
  records_advances : advances p;
  records_sound : forall buf pos data budget a data' budget' rest,
    0 <= pos <= blen buf -> blen buf <= ISIZE_MAX -> 0 <= budget <= MAX_COLUMN_BYTES ->
    run (m data budget) (drop pos buf) = Ok ((a, data', budget'), rest) ->
    recorded p buf pos data budget a data' budget' rest;
  records_complete : forall buf pos data budget a data' budget' rest,
    0 <= pos <= blen buf -> blen buf <= ISIZE_MAX -> 0 <= budget <= MAX_COLUMN_BYTES ->
    blen data + blen buf - pos <= ISIZE_MAX ->
    recorded p buf pos data budget a data' budget' rest ->
    run (m data budget) (drop pos buf) = Ok ((a, data', budget'), rest);
}.
Arguments records_advances {A m p}.
Arguments records_sound {A m p}.
Arguments records_complete {A m p}.

Lemma records_ret {A} (a : A) : records (ret a) (ret a).
Proof.
  split; [apply advances_ret| |]; intros buf pos data budget a' data' budget' rest Hpos _ Hb.
  - intros H. cbn in H. inj. exists pos. rewrite slice_nil, app_nil_r. repeat split; auto; lia.
  - intros _ (pos' & H & -> & -> & -> & _). cbn in H. inj. rewrite slice_nil, app_nil_r. cbn.
    repeat f_equal; lia.
Qed.

Lemma records_throw {A} (e e' : error) : records (A := A) (throw e) (throw e').
Proof.
  split; [apply advances_throw| |]; intros buf pos data budget a' data' budget' rest Hpos _ Hb.
  - discriminate.
  - intros _ (pos' & H & _). discriminate.
Qed.

Lemma records_lift {A} (r r' : result error A) :
  (forall a, r = Ok a <-> r' = Ok a) -> records (lift r) (lift r').
Proof.
  intros H. destruct r as [a|e], r' as [a'|e'].
  - pose proof (proj1 (H a) eq_refl). inj. apply records_ret.
  - now discriminate (proj1 (H a) eq_refl).
  - now discriminate (proj2 (H a') eq_refl).
  - apply records_throw.
Qed.

(** The bind rule, with what is known of the intermediate value. *)
Lemma records_bind_if {A B} (P : A -> Prop) (m : arena A) (p : parser A)
    (f : A -> arena B) (g : A -> parser B) :
  records m p -> (forall buf pos a pos', p buf pos = Ok (a, pos') -> P a) ->
  advances (bind p g) ->
  (forall a, P a -> records (f a) (g a)) -> records (bind m f) (bind p g).
Proof.
  intros [Ha Hs Hc] HP Hadv Hf.
  split; [assumption| |]; intros buf pos data budget b data' budget' rest Hpos Hbuf Hb.
  - intros H. apply run_arena_bind_inv in H as (a & d1 & b1 & l1 & H1 & H2).
    apply Hs in H1 as (p1 & E & -> & -> & -> & Hb1); try assumption.
    pose proof (Ha _ _ _ _ Hpos E) as Hp1. pose proof (HP _ _ _ _ E) as HPa.
    apply (Hf a HPa) in H2 as (p2 & E2 & -> & -> & -> & Hb2); try lia.
    assert (p1 <= p2 <= blen buf) by (eapply (records_advances (Hf a HPa)); [|exact E2]; lia).
    exists p2. rewrite <- app_assoc, slice_app by lia.
    rewrite (parser_bind_ok _ _ _ _ _ _ E). repeat split; auto; lia.
  - intros Hdata (p2 & H & -> & -> & -> & Hb2). apply parser_bind_inv in H as (a & p1 & E & E2).
    pose proof (Ha _ _ _ _ Hpos E) as Hp1. pose proof (HP _ _ _ _ E) as HPa.
    assert (p1 <= p2 <= blen buf) as Hp2 by (eapply (records_advances (Hf a HPa)); [|exact E2]; lia).
    rewrite run_arena_bind.
    rewrite (Hc buf pos data budget a (data ++ slice buf pos p1) (budget - (p1 - pos))
               (drop p1 buf) Hpos Hbuf Hb Hdata) by (exists p1; repeat split; auto; lia).
    apply (Hf a HPa); try lia; [rewrite blen_app, blen_slice by lia; lia|].
    exists p2. rewrite <- app_assoc, slice_app by lia. repeat split; auto; lia.
Qed.

Lemma records_bind {A B} (m : arena A) (p : parser A) (f : A -> arena B) (g : A -> parser B) :
  records m p -> (forall a, records (f a) (g a)) -> records (bind m f) (bind p g).
Proof.
  intros Hm Hf. apply (records_bind_if (fun _ => True)); auto.
  apply advances_bind; [apply Hm|]. intros a. apply Hf.
Qed.

Lemma records_if {A} (b : bool) (m1 m2 : arena A) (p1 p2 : parser A) :
  records m1 p1 -> records m2 p2 -> records (if b then m1 else m2) (if b then p1 else p2).
Proof. now destruct b. Qed.

Lemma records_repeat_n n (m : arena unit) (p : parser unit) :
  records m p -> records (repeat_n n m) (repeat_n n p).
Proof.
  intros H. induction n as [|n IH]; [apply records_ret|]. now apply records_bind.
Qed.

Lemma records_for_each {A} (l : list A) (f : A -> arena unit) (g : A -> parser unit) :
  Forall (fun a => records (f a) (g a)) l -> records (for_each l f) (for_each l g).
Proof.
  induction 1; [apply records_ret|]. rewrite !for_each_cons. now apply records_bind.
Qed.

Lemma records_map_each {A B} (l : list A) (f : A -> arena B) (g : A -> parser B) :
  Forall (fun a => records (f a) (g a)) l -> records (map_each l f) (map_each l g).
Proof.
  induction 1; [apply records_ret|]. rewrite !map_each_cons.
  repeat (apply records_bind; [assumption|intros ?]). apply records_ret.
Qed.

(** [records] only sees the successes of the parser, within one column's bytes. *)
Definition same_accepts {A} (p q : parser A) : Prop :=
  forall buf pos a pos', 0 <= pos <= blen buf -> blen buf <= ISIZE_MAX ->
  pos' - pos <= MAX_COLUMN_BYTES -> p buf pos = Ok (a, pos') <-> q buf pos = Ok (a, pos').

Lemma same_accepts_records {A} (m : arena A) (p q : parser A) :
  same_accepts p q -> advances q -> records m p -> records m q.
Proof.
  intros E Hq [Ha Hs Hc]. split; [assumption| |]; intros buf pos data budget a data' budget' rest H1 H2 H3.
  - intros H. apply Hs in H as (pos' & Hp & Hrest); try assumption.
    exists pos'. split; [apply E; auto; lia|assumption].
  - intros H4 (pos' & Hp & Hrest). apply Hc; try assumption.
    exists pos'. split; [apply E; auto; lia|assumption].
Qed.

Lemma parser_eq_accepts {A} (p q : parser A) : parser_eq p q -> same_accepts p q.
Proof. intros E buf pos a pos' _ _ _. now rewrite E. Qed.

Create HintDb records discriminated.
#[export] Hint Resolve records_ret records_throw records_repeat_n : records.

(** ** The primitives *)

Lemma run_unrecorded {A} (m : reader A) data budget l :
  run (unrecorded m data budget) l =
  match run m l with Ok (a, l') => Ok ((a, data, budget), l') | Err e => Err e end.
Proof.
  unfold unrecorded. change (rbind m _) with (bind m (fun a => RRet (a, data, budget))).
  rewrite run_bind. now destruct (run m l) as [[a l']|e].
Qed.

Lemma take_drop_slice (buf : bytes) pos n : take n (drop pos buf) = slice buf pos (pos + n).
Proof. unfold slice. f_equal. lia. Qed.

(** What a successful [read_exact_into] does. *)
Lemma run_read_exact_into n data budget l :
  0 <= n -> 0 <= budget <= MAX_COLUMN_BYTES ->
  forall r, run (read_exact_into n data budget) l = Ok r <->
  n <= budget /\ n <= blen l /\ (0 < n -> blen data + n <= USIZE_MAX) /\
  r = ((tt, data ++ take n l, budget - n), drop n l).
Proof.
  intros Hn Hb r. unfold read_exact_into. destruct (Z.eqb_spec n 0) as [->|Hn0].
  - rewrite take_0, drop_0, app_nil_r, Z.sub_0_r. cbn. pose proof (blen_nonneg l).
    split; [intros; inj; repeat split; lia|]. now intros (_ & _ & _ & ->).
  - destruct (Z.ltb_spec MAX_COLUMN_BYTES n) as [Hmax|Hmax].
    { split; [discriminate|lia]. }
    rewrite run_arena_bind. unfold charge_budget, checked_sub.
    destruct (Z.leb_spec n budget) as [Hle|Hgt]; [|split; [discriminate|lia]].
    change (run (RRet (tt, data, budget - n)) l) with (Ok (E := error) ((tt, data, budget - n), l)).
    cbv iota beta. rewrite run_arena_bind.
    change (run (data_len data (budget - n)) l) with (Ok (E := error) ((blen data, data, budget - n), l)).
    cbv iota beta. rewrite run_arena_bind. unfold checked_add.
    destruct (Z.leb_spec (blen data + n) USIZE_MAX); [|split; [discriminate|lia]].
    change (run (lift (M := arena) (ok_or (Some (blen data + n)) _) data (budget - n)) l)
      with (Ok (E := error) ((blen data + n, data, budget - n), l)).
    cbv iota beta. rewrite run_arena_bind, run_unrecorded, run_read_exact.
    destruct (Z.leb_spec n (blen l)); [|split; [discriminate|lia]].
    split; [intros H'; cbn in H'; inj; repeat split; auto; lia|]. now intros (_ & _ & _ & ->).
Qed.

Lemma advance_pos_ok n (buf : bytes) pos r :
  0 <= n -> 0 <= pos -> blen buf <= ISIZE_MAX ->
  advance_pos n buf pos = Ok r <-> r = (tt, pos + n) /\ pos + n <= blen buf.
Proof.
  intros Hn Hpos Hbuf. unfold advance_pos, checked_add. destruct (Z.leb_spec (pos + n) USIZE_MAX).
  - destruct (Z.ltb_spec (blen buf) (pos + n)); split; try discriminate; try lia.
    + intros H'. inj. auto.
    + now intros [-> _].
  - split; [discriminate|]. unfold ISIZE_MAX, USIZE_MAX in *. lia.
Qed.

Lemma records_read_exact_into n : 0 <= n -> records (read_exact_into n) (advance_pos n).
Proof.
  intros Hn. split; [now apply advances_advance_pos| |];
    intros buf pos data budget [] data' budget' rest Hpos Hbuf Hb;
    rewrite run_read_exact_into, blen_drop, drop_drop, take_drop_slice by lia;
    replace (n + pos) with (pos + n) by lia.
  - intros (H1 & H2 & _ & H3). inj. exists (pos + n). rewrite advance_pos_ok by lia.
    repeat split; auto; lia.
  - intros Hdata (pos' & H & -> & -> & -> & H0). rewrite advance_pos_ok in H by lia.
    destruct H as [H ?]. inj. unfold ISIZE_MAX, USIZE_MAX in *.
    repeat split; try lia. repeat f_equal. lia.
Qed.

Lemma run_charge_budget n what data budget l r :
  run (charge_budget n what data budget) l = Ok r <-> n <= budget /\ r = ((tt, data, budget - n), l).
Proof.
  unfold charge_budget, checked_sub. destruct (Z.leb_spec n budget); cbn.
  - split; [intros; inj; auto|]. now intros [_ ->].
  - split; [discriminate|lia].
Qed.

(** One byte, charged and appended. *)
Lemma run_recorded_byte {A} (f : bytes -> arena A) data budget l r :
  0 <= budget ->
  run ((let* bs := unrecorded (read_exact_r 1) in
        charge_budget 1 (str "column") ;; append bs ;; f bs) data budget) l = Ok r <->
  exists b l', l = b :: l' /\ 1 <= budget /\ run (f [b] (data ++ [b]) (budget - 1)) l' = Ok r.
Proof.
  intros Hb. rewrite run_arena_bind, run_unrecorded, run_read1. destruct l as [|b l].
  - split; [discriminate|]. now intros (? & ? & ? & _).
  - rewrite run_arena_bind. split.
    + destruct (run (charge_budget 1 (str "column") data budget) l) as [q|e] eqn:E; [|discriminate].
      apply run_charge_budget in E as [? ->]. rewrite run_arena_bind. cbn [append run run_with].
      intros H'. exists b, l. auto.
    + intros (b' & l' & H & H1 & H2). injection H as <- <-.
      rewrite (proj2 (run_charge_budget 1 _ _ _ _ _)) by (split; [assumption|reflexivity]).
      exact H2.
Qed.

Lemma slice_one (buf : bytes) pos b l :
  0 <= pos -> drop pos buf = b :: l -> slice buf pos (pos + 1) = [b] /\ drop (pos + 1) buf = l /\
  pos < blen buf.
Proof.
  intros Hpos E. unfold slice. replace (pos + 1 - pos) with 1 by lia. rewrite E.
  split; [reflexivity|]. split.
  - replace (pos + 1) with (1 + pos) by lia. rewrite <- drop_drop, E by lia. reflexivity.
  - destruct (Z.ltb_spec pos (blen buf)); [assumption|]. rewrite drop_past in E by lia. discriminate.
Qed.

Lemma records_read_varint_into_loop fuel : forall r shift,
  records (read_varint_into_loop fuel r shift) (parse_varint_loop fuel r shift).
Proof.
  induction fuel as [|fuel IH]; intros r shift; [apply records_throw|].
  split; [apply advances_parse_varint_loop| |];
    intros buf pos data budget v data' budget' rest Hpos Hbuf Hb;
    cbn [read_varint_into_loop parse_varint_loop]; destruct (Z.leb_spec 64 shift) as [Hs|Hs].
  - discriminate.
  - rewrite run_recorded_byte by lia. intros (b & l & E & H1 & H2).
    destruct (slice_one _ _ _ _ (proj1 Hpos) E) as (Hsl & Hdrop & Hend).
    unfold recorded. cbn [parse_varint_loop].
    destruct (Z.leb_spec (blen buf) pos); [lia|]. destruct (Z.ltb_spec 63 shift); [lia|].
    rewrite E. cbn [byte0] in *. destruct (_ && _); [discriminate|]. destruct (_ =? 0).
    + cbn in H2. inj. exists (pos + 1). rewrite Hsl. repeat split; auto; lia.
    + rewrite <- Hdrop in H2. apply IH in H2 as (p2 & E2 & -> & -> & -> & Hb2); try lia.
      assert (pos + 1 <= p2 <= blen buf)
        by (eapply advances_parse_varint_loop; [|exact E2]; lia).
      exists p2. rewrite <- app_assoc, <- Hsl, slice_app by lia. repeat split; auto; lia.
  - intros Hdata (p & H & _). cbn [parse_varint_loop] in H. destruct (_ <=? _); [discriminate|].
    destruct (Z.ltb_spec 63 shift); [discriminate|lia].
  - intros Hdata (p2 & H & -> & -> & -> & H0). cbn [parse_varint_loop] in H.
    destruct (Z.leb_spec (blen buf) pos); [discriminate|].
    destruct (Z.ltb_spec 63 shift); [discriminate|].
    destruct (drop pos buf) as [|b l] eqn:E.
    { apply (f_equal blen) in E. rewrite blen_drop in E by lia. change (blen []) with 0 in E. lia. }
    destruct (slice_one _ _ _ _ (proj1 Hpos) E) as (Hsl & Hdrop & _). cbn [byte0] in *.
    rewrite run_recorded_byte by lia. exists b, l. split; [reflexivity|]. cbn [byte0].
    destruct (_ && _); [discriminate|]. destruct (_ =? 0).
    + inj. rewrite Hsl. split; [lia|]. cbn. repeat f_equal. lia.
    + assert (pos + 1 <= p2 <= blen buf)
        by (eapply advances_parse_varint_loop; [|exact H]; lia).
      split; [lia|]. rewrite <- Hdrop. apply IH; try lia;
        [rewrite blen_app; change (blen [b]) with 1; lia|].
      exists p2. rewrite <- app_assoc, <- Hsl, slice_app by lia. repeat split; auto; lia.
Qed.

Lemma records_read_varint_into : records read_varint_into parse_varint.
Proof. apply records_read_varint_into_loop. Qed.

(** *** Bytes that are read and then looked at in the arena *)

Definition arena_eq {A} (m m' : arena A) : Prop :=
  forall data budget l, run (m data budget) l = run (m' data budget) l.

Lemma arena_eq_records {A} (m m' : arena A) (p : parser A) :
  arena_eq m m' -> records m p -> records m' p.
Proof.
  intros E [Ha Hs Hc]. split; [assumption| |];
    intros buf pos data budget a data' budget' rest; rewrite <- E; [apply Hs|apply Hc].
Qed.

Lemma arena_assoc {A B C} (m : arena A) (f : A -> arena B) (g : B -> arena C) :
  arena_eq (bind (bind m f) g) (bind m (fun a => bind (f a) g)).
Proof.
  intros data budget l. rewrite !run_arena_bind.
  destruct (run (m data budget) l) as [[[[a d] b] l']|e]; [|reflexivity].
  now rewrite run_arena_bind.
Qed.

Lemma arena_bind_eq {A B} (m : arena A) (f g : A -> arena B) :
  (forall a, arena_eq (f a) (g a)) -> arena_eq (bind m f) (bind m g).
Proof.
  intros H data budget l. rewrite !run_arena_bind.
  destruct (run (m data budget) l) as [[[[a d] b] l']|e]; [apply H|reflexivity].
Qed.

Definition read_bytes_into (n : Z) : arena bytes :=
  let* start := data_len in read_exact_into n ;; data_slice start (start + n).

(** A parser that takes the next [n] bytes. *)
Definition takes (n : Z) (p : parser bytes) : Prop :=
  forall buf pos r, 0 <= pos <= blen buf -> blen buf <= ISIZE_MAX ->
  p buf pos = Ok r <-> r = (slice buf pos (pos + n), pos + n) /\ pos + n <= blen buf.

Lemma takes_parse_bytes n : 0 <= n -> takes n (parse_bytes n).
Proof.
  intros Hn buf pos r Hpos Hbuf. unfold parse_bytes, checked_add.
  destruct (Z.leb_spec (pos + n) USIZE_MAX); [|unfold ISIZE_MAX, USIZE_MAX in *; split; [discriminate|lia]].
  destruct (Z.ltb_spec (blen buf) (pos + n)); split; try discriminate; try lia.
  - intros H'. inj. auto.
  - now intros [-> _].
Qed.

Definition skip_and_take (n : Z) : parser bytes :=
  let* start := get_pos in advance_pos n ;; get_slice start (start + n).

Lemma takes_skip_and_take n : 0 <= n -> takes n (skip_and_take n).
Proof.
  intros Hn buf pos r Hpos Hbuf. unfold skip_and_take. cbn [bind parser_monad]. unfold get_pos.
  destruct (advance_pos n buf pos) as [[[] p']|e] eqn:E.
  - apply advance_pos_ok in E as [E ?]; try lia. inj. unfold get_slice.
    split; [intros H'; inj; auto|]. now intros [-> _].
  - split; [discriminate|]. intros [_ H].
    assert (advance_pos n buf pos = Ok (tt, pos + n)) as E' by (apply advance_pos_ok; auto; lia).
    congruence.
Qed.

Lemma slice_app_exact (data bs : bytes) n :
  blen bs = n -> slice (data ++ bs) (blen data) (blen data + n) = bs.
Proof.
  intros <-. unfold slice. rewrite drop_app_exact.
  replace (blen data + blen bs - blen data) with (blen bs) by lia. apply take_all.
Qed.

Lemma run_read_bytes_into n data budget l :
  0 <= n -> 0 <= budget <= MAX_COLUMN_BYTES ->
  forall r, run (read_bytes_into n data budget) l = Ok r <->
  n <= budget /\ n <= blen l /\ (0 < n -> blen data + n <= USIZE_MAX) /\
  r = ((take n l, data ++ take n l, budget - n), drop n l).
Proof.
  intros Hn Hb r. unfold read_bytes_into. rewrite run_arena_bind.
  change (run (data_len data budget) l) with (Ok (E := error) ((blen data, data, budget), l)).
  cbv iota beta. rewrite run_arena_bind. split.
  - destruct (run (read_exact_into n data budget) l) as [q|e] eqn:E; [|discriminate].
    apply run_read_exact_into in E as (H1 & H2 & H3 & ->); try lia. cbn. intros. inj.
    rewrite slice_app_exact by (apply blen_take; lia). auto.
  - intros (H1 & H2 & H3 & ->).
    rewrite (proj2 (run_read_exact_into n data budget l Hn Hb
      ((tt, data ++ take n l, budget - n), drop n l))) by auto.
    cbn. now rewrite slice_app_exact by (apply blen_take; lia).
Qed.

Lemma records_read_bytes_into n p : 0 <= n -> advances p -> takes n p -> records (read_bytes_into n) p.
Proof.
  intros Hn Ha Ht. split; [assumption| |];
    intros buf pos data budget bs data' budget' rest Hpos Hbuf Hb;
    rewrite run_read_bytes_into, blen_drop, drop_drop, take_drop_slice by lia;
    replace (n + pos) with (pos + n) by lia.
  - intros (H1 & H2 & _ & H3). inj. exists (pos + n).
    split; [apply Ht; auto; split; [reflexivity|lia]|]. repeat split; auto; lia.
  - intros Hdata (pos' & H & -> & -> & -> & H0). apply Ht in H as [H Hle]; try assumption. inj.
    unfold ISIZE_MAX, USIZE_MAX in *. repeat split; try lia. repeat f_equal. lia.
Qed.

(** The same with the rest of the arena. *)
Definition read_tail_into (n : Z) : arena bytes :=
  let* start := data_len in read_exact_into n ;; data_from start.

Lemma run_read_tail_into n data budget l :
  0 <= n -> 0 <= budget <= MAX_COLUMN_BYTES ->
  run (read_tail_into n data budget) l = run (read_bytes_into n data budget) l.
Proof.
  intros Hn Hb. unfold read_tail_into, read_bytes_into. rewrite !run_arena_bind.
  change (run (data_len data budget) l) with (Ok (E := error) ((blen data, data, budget), l)).
  cbv iota beta. rewrite !run_arena_bind.
  destruct (run (read_exact_into n data budget) l) as [q|e] eqn:E; [|reflexivity].
  apply run_read_exact_into in E as (_ & Hl & _ & ->); try lia. cbn.
  rewrite slice_app_exact by (apply blen_take; lia). now rewrite drop_app_exact.
Qed.

Lemma records_read_tail_into n p : 0 <= n -> advances p -> takes n p -> records (read_tail_into n) p.
Proof.
  intros Hn Ha Ht. pose proof (records_read_bytes_into n p Hn Ha Ht) as [_ Hs Hc].
  split; [assumption| |]; intros buf pos data budget bs data' budget' rest Hpos Hbuf Hb;
    rewrite run_read_tail_into by lia; [now apply Hs|now apply Hc].
Qed.

Lemma records_read_u64_into name : records read_u64_into (read_u64_le name).
Proof.
  apply (arena_eq_records (let* bs := read_bytes_into 8 in ret (from_le bs))).
  - unfold read_bytes_into, read_u64_into. intros d b l. rewrite arena_assoc. apply arena_bind_eq.
    intros start. apply arena_assoc.
  - apply records_bind; [|intros bs; apply records_ret].
    apply records_read_bytes_into; [lia|advances|now apply takes_parse_bytes].
Qed.
