(* ===== verification/ColumnReader.v ===== *)
(** * Streaming column readers ([sync/protocol/response.rs])

    [read_column_data_into] reads one column from the stream into the arena, in
    the layout the column decoders expect (JSON without its version,
    LowCardinality materialized); [read_column_body_raw_into] keeps the wire
    layout of Variant and Dynamic subcolumns; [discard_column_data] reads a
    column and drops it.

    The raw readers are mutually recursive through type names: a Variant reads
    its alternatives by printing and re-parsing their types, a Dynamic column by
    parsing names from the wire.  Each level first charges at least one byte to
    the column budget, so [2 ^ RAW_LEVELS] levels are never reached. *)

From Stdlib Require Import String ZArith Lia Bool List.
From Stdlib Require Import Strings.Byte.
From coqutil Require Import Byte.
From S2P Require Import Prelude Reader Limits Utf8 Wire TypeParser SkipColumn Arena.
Import ListNotations.

(** [MAX_COLUMN_BYTES] is [2 ^ 26]. *)
Definition RAW_LEVELS : nat := 27.

Definition column_len (rows width : Z) (what : string) : result error Z :=
  protocol (checked_column_len rows width (str what)).

Definition checked_usize (value : Z) (name : string) : result error Z :=
  ok_or (usize_try_from value) (Protocol (Msg "{name} count too large" [AS (str name)])).

Definition zero_rows (rows : Z) (m : arena unit) : arena unit :=
  if rows =? 0 then ret tt else m.

Definition read_fixed_into (rows width : Z) (what : string) : arena unit :=
  let* len := lift (column_len rows width what) in read_exact_into len.

(** The loop over the varint-prefixed strings of a column. *)
Definition read_string_rows_into (rows : Z) (length_name : string) : arena unit :=
  repeat_n (Z.to_nat rows)
    (let* v := read_varint_into in
     let* len := lift (protocol (checked_string_len v (str length_name))) in
     read_exact_into len).

Definition read_offsets_into (rows : Z) (name : string) : arena Z :=
  let* nbytes := lift (column_len rows 8 name) in
  let* start := data_len in
  read_exact_into nbytes ;;
  let* offsets := data_from start in
  lift (protocol (fold_offsets 0 (map from_le (chunks_exact 8 offsets)) (str name))).

(** ** LowCardinality materialization *)

Definition read_lc_index (data : bytes) (row width : Z) : result error Z :=
  let overflow := Protocol (msg "LowCardinality index overflow") in
  let* start := ok_or (checked_mul row width) overflow in
  let* end_ := ok_or (checked_add start width) overflow in
  if blen data <? end_ then Err (Protocol (msg "LowCardinality index data is truncated"))
  else if (width =? 1) || (width =? 2) || (width =? 4) || (width =? 8)
  then checked_usize (from_le (slice data start end_)) "LowCardinality index"
  else Err (Protocol (Msg "unsupported LowCardinality index width {width}" [AZ width])).

(** The rows [0..num_idx]. *)
Definition row_numbers (num_idx : Z) : list Z := map Z.of_nat (seq 0 (Z.to_nat num_idx)).

Definition materialize_lc_fixed (dict : bytes) (width : Z) (indexes : bytes) (idx_width num_idx : Z)
  : result error bytes :=
  let overflow := Protocol (msg "LowCardinality index overflow") in
  column_len num_idx width "LowCardinality materialized column" ;;
  let* rows := map_each (row_numbers num_idx) (fun row =>
    let* idx := read_lc_index indexes row idx_width in
    let* start := ok_or (checked_mul idx width) overflow in
    let* end_ := ok_or (checked_add start width) overflow in
    if blen dict <? end_
    then Err (Protocol (msg "LowCardinality dictionary index out of bounds"))
    else Ok (slice dict start end_)) in
  Ok (concat rows).

(** The ranges of the varint-prefixed strings of a dictionary; every entry takes
    at least one byte. *)
Fixpoint lc_string_entries (fuel : nat) (dict : bytes) (pos : Z) : result error (list (Z * Z)) :=
  match fuel with
  | O => Err ModelFuel
  | S fuel =>
      if pos <? blen dict then
        let start := pos in
        let* (v, pos) := parse_varint dict pos in
        let* len := checked_usize v "LowCardinality string" in
        let* end_ := ok_or (checked_add pos len) (Protocol (msg "LowCardinality string overflow")) in
        if blen dict <? end_
        then Err (Protocol (msg "LowCardinality string dictionary is truncated"))
        else let* entries := lc_string_entries fuel dict end_ in Ok ((start, end_) :: entries)
      else Ok []
  end.

Fixpoint expand_strings (dict : bytes) (entries : list (Z * Z)) (indexes : bytes) (idx_width : Z)
    (total : Z) (rows : list Z) : result error bytes :=
  match rows with
  | [] => Ok []
  | row :: rows =>
      let* idx := read_lc_index indexes row idx_width in
      let* (start, end_) := ok_or (nth_error entries (Z.to_nat idx))
        (Protocol (msg "LowCardinality dictionary index out of bounds")) in
      let* total := protocol (checked_column_bytes total (end_ - start)
                                (str "LowCardinality materialized column")) in
      let* out := expand_strings dict entries indexes idx_width total rows in
      Ok (slice dict start end_ ++ out)
  end.

Definition materialize_lc_string (dict indexes : bytes) (idx_width num_idx : Z) : result error bytes :=
  let* entries := lc_string_entries (S (length dict)) dict 0 in
  expand_strings dict entries indexes idx_width 0 (row_numbers num_idx).

(** [dict.len() / (width + 1)]: for the largest [width] the addition overflows
    (a panic where overflow is checked) or wraps to a division by zero (a panic
    as well). *)
Definition infer_lc_dictionary_rows (dict : bytes) (inner : ColumnType) : result error Z :=
  match fixed_width inner with
  | Some width => if USIZE_MAX <? width + 1 then Err ModelPanic else Ok (blen dict / (width + 1))
  | None => Err (Protocol (msg "LowCardinality Nullable variable-width materialization is not supported"))
  end.

Fixpoint materialize_low_cardinality_inner (dict_data : bytes) (inner : ColumnType) (indexes : bytes)
    (idx_width num_idx : Z) : result error bytes :=
  match inner with
  | UInt8 | Int8 | TBool | Enum8 => materialize_lc_fixed dict_data 1 indexes idx_width num_idx
  | UInt16 | Int16 | Date | Enum16 => materialize_lc_fixed dict_data 2 indexes idx_width num_idx
  | UInt32 | Int32 | Float32 | Date32 | DateTime | Time | IPv4 =>
      materialize_lc_fixed dict_data 4 indexes idx_width num_idx
  | UInt64 | Int64 | Float64 | DateTime64 _ | Time64 _ =>
      materialize_lc_fixed dict_data 8 indexes idx_width num_idx
  | UInt128 | Int128 | UUID | IPv6 => materialize_lc_fixed dict_data 16 indexes idx_width num_idx
  | UInt256 | Int256 => materialize_lc_fixed dict_data 32 indexes idx_width num_idx
  | FixedString n => materialize_lc_fixed dict_data n indexes idx_width num_idx
  | TString | JSON | Other _ => materialize_lc_string dict_data indexes idx_width num_idx
  | Nullable value =>
      (* materialize_lc_nullable *)
      let* dict_rows := infer_lc_dictionary_rows dict_data value in
      let* (nulls, pos) := parse_bytes dict_rows dict_data 0 in
      let value_dict := drop pos dict_data in
      let* values := materialize_low_cardinality_inner value_dict value indexes idx_width num_idx in
      protocol (checked_column_bytes num_idx (blen values) (str "LowCardinality materialized column")) ;;
      let* flags := map_each (row_numbers num_idx) (fun row =>
        let* idx := read_lc_index indexes row idx_width in
        ok_or (nth_error nulls (Z.to_nat idx))
              (Protocol (msg "LowCardinality nullable index out of bounds"))) in
      Ok (flags ++ values)
  | _ => Err (Protocol (Msg "LowCardinality({inner}) materialization is not supported"
                            [AS (to_string inner)]))
  end.

(** The 24-byte header: version, serialization type and key count. *)
Definition lc_header (meta : bytes) : result error (Z * Z) :=
  let version := from_le (slice meta 0 8) in
  let serial_type := from_le (slice meta 8 16) in
  let* idx_width := lc_idx_width version serial_type in
  let* num_keys := protocol (checked_count (from_le (slice meta 16 24)) (str "LowCardinality key")
                                           MAX_JSON_DYNAMIC_ITEMS) in
  Ok (idx_width, num_keys).

Definition lc_index_count (count : bytes) (rows : Z) : result error Z :=
  let* indexes := checked_usize (from_le count) "LowCardinality indexes" in
  if negb (indexes =? rows)
  then Err (Protocol (Msg "LowCardinality index count {indexes} does not match row count {rows}"
                          [AZ indexes; AZ rows]))
  else Ok indexes.

(** [dict] reads the dictionary into an arena of its own. *)
Definition read_low_cardinality_into (dict : Z -> arena unit) (inner : ColumnType) (rows : Z)
  : arena unit :=
  let* meta := unrecorded (read_exact_r 24) in
  let* (idx_width, num_keys) := lift (lc_header meta) in
  let* (_, dict_data) := with_arena (dict num_keys) in
  let* count := unrecorded (read_exact_r 8) in
  let* indexes := lift (lc_index_count count rows) in
  let* index_len := lift (column_len indexes idx_width "LowCardinality index") in
  charge_budget index_len (str "column") ;;
  let* index_data := unrecorded (read_exact_r index_len) in
  let* materialized :=
    lift (materialize_low_cardinality_inner dict_data inner index_data idx_width indexes) in
  append materialized.

(** ** State prefixes

    [RawColumnState], [DynamicRawState] and [JsonRawState] have the constructors
    and fields of [SkipState], [DynamicSkipState] and [JsonSkipState]. *)
Definition RawColumnState : Type := SkipState.
Definition DynamicRawState : Type := DynamicSkipState.
Definition JsonRawState : Type := JsonSkipState.

Definition read_json_paths_into (dynamic : arena DynamicRawState) : arena (list DynamicRawState) :=
  let* v := read_varint_into in
  let* paths_count := lift (protocol (checked_count v (str "JSON path") MAX_JSON_DYNAMIC_ITEMS)) in
  repeat_n (Z.to_nat paths_count) (read_string_into (str "JSON path length") ;; ret tt) ;;
  collect_n (Z.to_nat paths_count) dynamic.

Definition read_json_state_prefix_into (dynamic : arena DynamicRawState) : arena JsonRawState :=
  let* version := read_u64_into in
  if (version =? 1) || (version =? 4) then ret (mkJson version [])
  else if version =? 3 then
    let* dynamic_paths := read_json_paths_into dynamic in ret (mkJson version dynamic_paths)
  else if version =? 0 then
    read_varint_into ;;
    let* dynamic_paths := read_json_paths_into dynamic in ret (mkJson version dynamic_paths)
  else throw (Protocol (Msg "unknown JSON serialization version {other}" [AZ version])).

Fixpoint read_state_prefix_with (dynamic : arena DynamicRawState) (ct : ColumnType)
  : arena RawColumnState :=
  match ct with
  | Nullable inner => let* s := read_state_prefix_with dynamic inner in ret (SNullable s)
  | Array inner => let* s := read_state_prefix_with dynamic inner in ret (SArray s)
  | TMap key value =>
      let* k := read_state_prefix_with dynamic key in
      let* v := read_state_prefix_with dynamic value in
      ret (SMap k v)
  | Tuple elems =>
      let* states := map_each elems (read_state_prefix_with dynamic) in ret (STuple states)
  | LowCardinality inner =>
      let* s := read_state_prefix_with dynamic inner in ret (SLowCardinality s)
  | Variant types =>
      let* states := map_each types (read_state_prefix_with dynamic) in ret (SVariant states)
  | Dynamic => let* d := dynamic in ret (SDynamic d)
  | JSON => let* j := read_json_state_prefix_into dynamic in ret (SJson j)
  | _ => ret SNone
  end.

Definition read_dynamic_type_names_into (count_name : bytes) : arena (list bytes) :=
  let* v := read_varint_into in
  let* type_count := lift (protocol (checked_count v count_name MAX_JSON_DYNAMIC_ITEMS)) in
  collect_n (Z.to_nat type_count) (read_string_into (str "dynamic type length")).

Definition read_dynamic_names_into (version : Z) : arena (list bytes) :=
  if version =? 0 then ret []
  else if version =? 1 then
    read_varint_into ;;
    let* type_names := read_dynamic_type_names_into (str "dynamic subcolumn types") in
    read_u64_into ;;
    ret type_names
  else if (version =? 2) || (version =? 3) then
    read_dynamic_type_names_into (str "dynamic subcolumn types")
  else throw (Protocol (Msg "unknown Dynamic subcolumn serialization version {other}" [AZ version])).

Definition dynamic_state_step (self : unit -> arena DynamicRawState) (_ : unit)
  : arena DynamicRawState :=
  let* version := read_u64_into in
  let* type_names := read_dynamic_names_into version in
  let* type_states := map_each type_names (fun type_name =>
    let* ct := lift (parse_dynamic_type type_name) in
    read_state_prefix_with (self tt) ct) in
  ret (mkDynamic version type_names type_states).

Definition read_dynamic_state_prefix_into : arena DynamicRawState :=
  deep RAW_LEVELS dynamic_state_step (fun _ => throw ModelFuel) tt.

Definition read_column_state_prefix_into (ct : ColumnType) : arena RawColumnState :=
  read_state_prefix_with read_dynamic_state_prefix_into ct.

(** ** Raw bodies *)

(** The recursive call of the raw readers. *)
Definition raw_body : Type := ColumnType * RawColumnState * Z -> arena unit.

(** [read_dynamic_subcolumns_into]. *)
Fixpoint read_subcolumns_from (sub : raw_body) (i : nat) (type_names : list bytes)
    (type_states : list RawColumnState) (counts : list Z) : arena unit :=
  match type_names, counts with
  | type_name :: type_names, count :: counts =>
      (if count =? 0 then ret tt
       else let* ct := lift (parse_dynamic_type type_name) in
            sub (ct, nth i type_states SNone, count)) ;;
      read_subcolumns_from sub (S i) type_names type_states counts
  | _, _ => ret tt
  end.

Definition read_dynamic_subcolumns_into (sub : raw_body) (type_names : list bytes)
    (type_states : list RawColumnState) (counts : list Z) : arena unit :=
  read_subcolumns_from sub 0 type_names type_states counts.

Definition read_deprecated_dynamic_values_into (sub : raw_body) (type_names : list bytes)
    (type_states : list RawColumnState) (rows : Z) : arena unit :=
  if (rows =? 0) || (blen type_names =? 0) then ret tt
  else
    let* start := data_len in
    read_exact_into rows ;;
    let* discriminators := data_slice start (start + rows) in
    let* counts := lift (dynamic_counts (fun d => Ok (byte.unsigned d)) U8_MAX
      "deprecated Dynamic discriminator {idx} exceeds type count {}"
      (repeat 0 (length type_names)) discriminators) in
    read_dynamic_subcolumns_into sub type_names type_states counts.

Definition read_flattened_dynamic_values_into (sub : raw_body) (type_names : list bytes)
    (type_states : list RawColumnState) (rows : Z) : arena unit :=
  if (rows =? 0) || (blen type_names =? 0) then ret tt
  else
    let width := dynamic_discriminator_width (blen type_names) in
    let* len := lift (column_len rows width "Dynamic discriminators") in
    let* start := data_len in
    read_exact_into len ;;
    let* discriminators := data_slice start (start + len) in
    let* counts := lift (dynamic_counts decode_dynamic_discriminator (blen type_names)
      "Dynamic discriminator {idx} exceeds type count {}"
      (repeat 0 (length type_names)) (chunks_exact width discriminators)) in
    read_dynamic_subcolumns_into sub type_names type_states counts.

Definition read_dynamic_body_into (sub : raw_body) (state : DynamicRawState) (rows : Z) : arena unit :=
  let 'mkDynamic version type_names type_states := state in
  if version =? 0 then ret tt
  else if version =? 1 then read_deprecated_dynamic_values_into sub type_names type_states rows
  else if (version =? 2) || (version =? 3)
  then read_flattened_dynamic_values_into sub type_names type_states rows
  else throw (Protocol (Msg "unknown Dynamic serialization version {other}" [AZ version])).

Definition read_json_body_into (sub : raw_body) (state : JsonRawState) (rows : Z) : arena unit :=
  let 'mkJson version dynamic_paths := state in
  if (version =? 1) || (version =? 4) then read_string_rows_into rows "JSON string length"
  else if version =? 3 then
    for_each dynamic_paths (fun dynamic => read_dynamic_body_into sub dynamic rows)
  else if version =? 0 then
    for_each dynamic_paths (fun dynamic => read_dynamic_body_into sub dynamic rows) ;;
    read_fixed_into rows 8 "JSON offsets"
  else throw (Protocol (Msg "unknown JSON serialization version {other}" [AZ version])).

(** The discriminator scan, with zero- or one-based discriminators. *)
Definition variant_scan (one_based : bool) (n : nat) (discriminators : bytes) : list Z :=
  fold_left (fun counts d =>
      let idx := if one_based then checked_sub (byte.unsigned d) 1 else Some (byte.unsigned d) in
      match idx with
      | Some idx => incr_nth counts (Z.to_nat idx)
      | None => counts
      end) discriminators (repeat 0 n).

Definition read_variant_types_body_into (sub : raw_body) (type_names : list bytes)
    (type_states : list RawColumnState) (rows : Z) (one_based_discriminators : bool) : arena unit :=
  let* mode := read_u64_into in
  if (rows =? 0) || (blen type_names =? 0) then ret tt
  else if mode =? 0 then
    let* start := data_len in
    read_exact_into rows ;;
    let* discriminators := data_slice start (start + rows) in
    read_dynamic_subcolumns_into sub type_names type_states
      (variant_scan one_based_discriminators (length type_names) discriminators)
  else if mode =? 1 then
    let* d := read_u64_into in
    let* discriminator := lift (checked_usize d "Variant compact discriminator") in
    let discriminator := if one_based_discriminators then Z.max 0 (discriminator - 1) else discriminator in
    let* r := read_u64_into in
    let* compact_rows := lift (checked_usize r "Variant compact rows") in
    if rows <? compact_rows
    then throw (Protocol (Msg "Variant compact rows {compact_rows} exceeds row count {rows}"
                              [AZ compact_rows; AZ rows]))
    else if (discriminator <? blen type_names) && (0 <? compact_rows) then
      let type_name := nth (Z.to_nat discriminator) type_names [] in
      let* ct := lift (map_err (fun e => Protocol (Msg "bad variant type '{}': {e}" [AS type_name; AM e]))
                               (parse_type type_name)) in
      sub (ct, nth (Z.to_nat discriminator) type_states SNone, compact_rows)
    else ret tt
  else throw (Protocol (Msg "unknown Variant serialization mode {other}" [AZ mode])).

Definition read_variant_body_into (sub : raw_body) (types : list ColumnType)
    (type_states : list RawColumnState) (rows : Z) : arena unit :=
  read_variant_types_body_into sub (map to_string types) type_states rows false.

(** The loop over the offsets of raw arrays and maps, one [u64] at a time. *)
Fixpoint read_offset_rows (n : nat) (name : string) (total : Z) : arena Z :=
  match n with
  | O => ret total
  | S n =>
      let* offset := read_u64_into in
      let* total := lift (protocol (checked_monotonic_offset total offset (str name))) in
      read_offset_rows n name total
  end.

Definition raw_array (name : string) (inner : Z -> arena unit) (rows : Z) : arena unit :=
  let* total := read_offset_rows (Z.to_nat rows) name 0 in
  if 0 <? total then inner total else ret tt.

Definition read_lc_body_raw_into (dict : Z -> arena unit) (rows : Z) : arena unit :=
  let* start := data_len in
  read_exact_into 24 ;;
  let* meta := data_slice start (start + 24) in
  let version := from_le (slice meta 0 8) in
  if negb (version =? 1)
  then throw (Protocol (Msg "unsupported LowCardinality key serialization version {version}" [AZ version]))
  else
    let serial_type := from_le (slice meta 8 16) in
    let* num_keys := lift (protocol (checked_count (from_le (slice meta 16 24))
                             (str "LowCardinality key") MAX_JSON_DYNAMIC_ITEMS)) in
    let idx_width := Z.shiftl 1 (Z.land serial_type 0x3) in
    (if 0 <? num_keys then dict num_keys else ret tt) ;;
    let* count := read_u64_into in
    let* indexes := lift (checked_usize count "LowCardinality indexes") in
    if negb (indexes =? rows)
    then throw (Protocol (Msg "LowCardinality index count {indexes} does not match row count {rows}"
                              [AZ indexes; AZ rows]))
    else read_fixed_into indexes idx_width "LowCardinality index".

Definition read_point_raw (rows : Z) : arena unit :=
  zero_rows rows (read_fixed_into rows 8 "fixed-width column" ;;
                  read_fixed_into rows 8 "fixed-width column").

Definition read_ring_raw (rows : Z) : arena unit :=
  zero_rows rows (raw_array "array offset" read_point_raw rows).

Definition read_polygon_raw (rows : Z) : arena unit :=
  zero_rows rows (raw_array "array offset" read_ring_raw rows).

(** The columns without components. *)
Definition read_simple_raw (ct : ColumnType) (rows : Z) : arena unit :=
  match ct with
  | TString | Other _ => read_string_rows_into rows "string value length"
  | FixedString n => read_fixed_into rows n "FixedString column"
  | AggregateFunction | SimpleAggregateFunction =>
      throw (Protocol (Msg "raw capture does not support type {ct}" [AS (to_string ct)]))
  | _ =>
      let* width := lift (ok_or (fixed_width ct) (Protocol (Msg "unknown type {ct}" [AS (to_string ct)]))) in
      read_fixed_into rows width "fixed-width column"
  end.

Fixpoint read_raw_with (sub : raw_body) (ct : ColumnType) (state : RawColumnState) (rows : Z)
  : arena unit :=
  zero_rows rows
    match ct with
    | Nullable inner =>
        read_exact_into rows ;;
        read_raw_with sub inner (match state with SNullable s => s | _ => SNone end) rows
    | Array inner =>
        raw_array "array offset"
          (read_raw_with sub inner (match state with SArray s => s | _ => SNone end)) rows
    | TMap key value =>
        let '(key_state, value_state) := match state with SMap k v => (k, v) | _ => (SNone, SNone) end in
        raw_array "map offset"
          (fun total => read_raw_with sub key key_state total ;;
                        read_raw_with sub value value_state total) rows
    | Tuple elems =>
        let states := match state with STuple l => l | _ => [] end in
        for_each (bodies (read_raw_with sub) elems states) (fun body => body rows)
    | LowCardinality inner =>
        read_lc_body_raw_into
          (read_raw_with sub inner (match state with SLowCardinality s => s | _ => SNone end)) rows
    | JSON =>
        match state with
        | SJson j => read_json_body_into sub j rows
        | _ => throw (Protocol (msg "missing JSON state prefix"))
        end
    | Dynamic =>
        match state with
        | SDynamic d => read_dynamic_body_into sub d rows
        | _ => throw (Protocol (msg "missing Dynamic state prefix"))
        end
    | Variant types =>
        read_variant_body_into sub types (match state with SVariant l => l | _ => [] end) rows
    | Point => read_fixed_into rows 8 "fixed-width column" ;; read_fixed_into rows 8 "fixed-width column"
    | Ring => raw_array "array offset" read_point_raw rows
    | Polygon => raw_array "array offset" read_ring_raw rows
    | MultiPolygon => raw_array "array offset" read_polygon_raw rows
    | _ => read_simple_raw ct rows
    end.

Definition raw_step (self : raw_body) : raw_body :=
  fun '(ct, state, rows) => read_raw_with self ct state rows.

Definition raw_recursion : raw_body := deep RAW_LEVELS raw_step (fun _ => throw ModelFuel).

Definition read_column_body_raw_into (ct : ColumnType) (state : RawColumnState) (rows : Z) : arena unit :=
  raw_recursion (ct, state, rows).

(** ** [read_column_data_into] *)

Definition unsupported_streaming (ct : ColumnType) : error :=
  Protocol (Msg "streaming read unsupported for column type {ct:?}" [AS (to_string ct)]).

(** The columns without components. *)
Definition read_simple_into (ct : ColumnType) (rows : Z) : arena unit :=
  match ct with
  | UInt8 | Int8 | TBool | Enum8 => read_exact_into rows
  | UInt16 | Int16 | Date | Enum16 => read_fixed_into rows 2 "fixed-width column"
  | UInt32 | Int32 | Float32 | Date32 | DateTime | Time | IPv4 =>
      read_fixed_into rows 4 "fixed-width column"
  | UInt64 | Int64 | Float64 | DateTime64 _ | Time64 _ => read_fixed_into rows 8 "fixed-width column"
  | UInt128 | Int128 | UUID | IPv6 => read_fixed_into rows 16 "fixed-width column"
  | UInt256 | Int256 => read_fixed_into rows 32 "fixed-width column"
  | Decimal p _ =>
      if (1 <=? p) && (p <=? 9) then read_fixed_into rows 4 "fixed-width column"
      else if (10 <=? p) && (p <=? 18) then read_fixed_into rows 8 "fixed-width column"
      else if (19 <=? p) && (p <=? 38) then read_fixed_into rows 16 "fixed-width column"
      else if (39 <=? p) && (p <=? 76) then read_fixed_into rows 32 "fixed-width column"
      else throw (Protocol (Msg "unsupported Decimal precision {precision}" [AZ p]))
  | Nothing => read_exact_into rows
  | TString => read_string_rows_into rows "string value length"
  | FixedString n => read_fixed_into rows n "FixedString column"
  | _ => throw (unsupported_streaming ct)
  end.

(** Materialized JSON: the version is read but not recorded. *)
Definition read_json_into (rows : Z) : arena unit :=
  let* ver := unrecorded (read_exact_r 8) in
  let version := from_le ver in
  if negb (version =? 1) && negb (version =? 4)
  then throw (json_version_error version)
  else read_string_rows_into rows "JSON string length".

Definition array_into (name : string) (inner : Z -> arena unit) (rows : Z) : arena unit :=
  let* elem_rows := read_offsets_into rows name in inner elem_rows.

Definition read_point_into (rows : Z) : arena unit :=
  zero_rows rows (read_fixed_into rows 8 "fixed-width column" ;;
                  read_fixed_into rows 8 "fixed-width column").

Definition read_ring_into (rows : Z) : arena unit :=
  zero_rows rows (array_into "array offset" read_point_into rows).

Definition read_polygon_into (rows : Z) : arena unit :=
  zero_rows rows (array_into "array offset" read_ring_into rows).

Fixpoint read_column_data_into (ct : ColumnType) (rows : Z) : arena unit :=
  zero_rows rows
    match ct with
    | JSON => read_json_into rows
    | Nullable inner => read_exact_into rows ;; read_column_data_into inner rows
    | Array inner => array_into "array offset" (read_column_data_into inner) rows
    | TMap k v =>
        array_into "map offset"
          (fun elem_rows => read_column_data_into k elem_rows ;; read_column_data_into v elem_rows) rows
    | Tuple elems => for_each elems (fun elem => read_column_data_into elem rows)
    | LowCardinality inner => read_low_cardinality_into (read_column_data_into inner) inner rows
    | Point => read_fixed_into rows 8 "fixed-width column" ;; read_fixed_into rows 8 "fixed-width column"
    | Ring => array_into "array offset" read_point_into rows
    | Polygon => array_into "array offset" read_ring_into rows
    | MultiPolygon => array_into "array offset" read_polygon_into rows
    | Dynamic =>
        let* state := read_dynamic_state_prefix_into in
        read_dynamic_body_into raw_recursion state rows
    | Variant types =>
        let* states := map_each types read_column_state_prefix_into in
        read_variant_body_into raw_recursion types states rows
    | _ => read_simple_into ct rows
    end.

(** ** [discard_column_data] *)

(** Reads of at most 16 KiB each. *)
Definition DISCARD_CHUNK : Z := 16 * 1024.

Fixpoint discard_exact_loop (fuel : nat) (len : Z) : reader unit :=
  match fuel with
  | O => throw ModelFuel
  | S fuel =>
      if len =? 0 then ret tt
      else
        let n := Z.min len DISCARD_CHUNK in
        read_exact_r n ;; discard_exact_loop fuel (len - n)
  end.

Definition discard_exact (len : Z) : reader unit :=
  discard_exact_loop (Z.to_nat (len / DISCARD_CHUNK + 2)) len.

Definition discard_fixed (rows width : Z) (what : string) : reader unit :=
  let* len := lift (column_len rows width what) in discard_exact len.

Definition discard_string_rows (rows : Z) (length_name : string) : reader unit :=
  repeat_n (Z.to_nat rows)
    (let* v := read_varint in
     let* len := lift (protocol (checked_string_len v (str length_name))) in
     discard_exact len).

Fixpoint discard_offsets_loop (n : nat) (name : string) (total : Z) : reader Z :=
  match n with
  | O => ret total
  | S n =>
      let* offset := read_exact_r 8 in
      let* total := lift (protocol (checked_monotonic_offset total (from_le offset) (str name))) in
      discard_offsets_loop n name total
  end.

Definition discard_offsets (rows : Z) (name : string) : reader Z :=
  discard_offsets_loop (Z.to_nat rows) name 0.

Definition discard_array (name : string) (inner : Z -> reader unit) (rows : Z) : reader unit :=
  let* elem_rows := discard_offsets rows name in inner elem_rows.

Definition zero_rows_r (rows : Z) (m : reader unit) : reader unit := if rows =? 0 then ret tt else m.

Definition discard_low_cardinality (dict : Z -> reader unit) (rows : Z) : reader unit :=
  zero_rows_r rows
    (let* meta := read_exact_r 24 in
     let* (idx_width, num_keys) := lift (lc_header meta) in
     dict num_keys ;;
     let* count := read_exact_r 8 in
     let* indexes := lift (lc_index_count count rows) in
     discard_fixed indexes idx_width "LowCardinality index").

Definition discard_simple (ct : ColumnType) (rows : Z) : reader unit :=
  match ct with
  | UInt8 | Int8 | TBool | Enum8 => discard_exact rows
  | UInt16 | Int16 | Date | Enum16 => discard_fixed rows 2 "fixed-width column"
  | UInt32 | Int32 | Float32 | Date32 | DateTime | Time | IPv4 =>
      discard_fixed rows 4 "fixed-width column"
  | UInt64 | Int64 | Float64 | DateTime64 _ | Time64 _ => discard_fixed rows 8 "fixed-width column"
  | UInt128 | Int128 | UUID | IPv6 => discard_fixed rows 16 "fixed-width column"
  | UInt256 | Int256 => discard_fixed rows 32 "fixed-width column"
  | Decimal p _ =>
      if (1 <=? p) && (p <=? 9) then discard_fixed rows 4 "fixed-width column"
      else if (10 <=? p) && (p <=? 18) then discard_fixed rows 8 "fixed-width column"
      else if (19 <=? p) && (p <=? 38) then discard_fixed rows 16 "fixed-width column"
      else if (39 <=? p) && (p <=? 76) then discard_fixed rows 32 "fixed-width column"
      else throw (Protocol (Msg "unsupported Decimal precision {precision}" [AZ p]))
  | TString => discard_string_rows rows "string value length"
  | FixedString n => discard_fixed rows n "FixedString column"
  | _ => throw (Protocol (Msg "discard unsupported for column type {ct:?}" [AS (to_string ct)]))
  end.

Definition discard_json (rows : Z) : reader unit :=
  let* ver := read_exact_r 8 in
  let version := from_le ver in
  if negb (version =? 1) && negb (version =? 4)
  then throw (json_version_error version)
  else discard_string_rows rows "JSON string length".

Definition discard_point (rows : Z) : reader unit :=
  zero_rows_r rows (discard_fixed rows 8 "fixed-width column" ;; discard_fixed rows 8 "fixed-width column").

Definition discard_ring (rows : Z) : reader unit :=
  zero_rows_r rows (discard_array "array offset" discard_point rows).

Definition discard_polygon (rows : Z) : reader unit :=
  zero_rows_r rows (discard_array "array offset" discard_ring rows).

Fixpoint discard_column_data (ct : ColumnType) (rows : Z) : reader unit :=
  zero_rows_r rows
    match ct with
    | JSON => discard_json rows
    | Nullable inner => discard_exact rows ;; discard_column_data inner rows
    | Array inner => discard_array "array offset" (discard_column_data inner) rows
    | TMap k v =>
        discard_array "map offset"
          (fun elem_rows => discard_column_data k elem_rows ;; discard_column_data v elem_rows) rows
    | Tuple elems => for_each elems (fun elem => discard_column_data elem rows)
    | LowCardinality inner => discard_low_cardinality (discard_column_data inner) rows
    | Point => discard_fixed rows 8 "fixed-width column" ;; discard_fixed rows 8 "fixed-width column"
    | Ring => discard_array "array offset" discard_point rows
    | Polygon => discard_array "array offset" discard_ring rows
    | MultiPolygon => discard_array "array offset" discard_polygon rows
    | _ => discard_simple ct rows
    end.

(** ** The geo types are arrays of pairs *)

Lemma read_geo_unfold rows data budget l :
  run (read_column_data_into Ring rows data budget) l =
  run (read_column_data_into (Array Point) rows data budget) l /\
  run (read_column_data_into Polygon rows data budget) l =
  run (read_column_data_into (Array Ring) rows data budget) l /\
  run (read_column_data_into MultiPolygon rows data budget) l =
  run (read_column_data_into (Array Polygon) rows data budget) l.
Proof. repeat split. Qed.
