(* ===== verification/Framing.v ===== *)
(** * One framing for the buffered and the streaming readers

    [shared/skip_column.rs] says that skipping a buffered column mirrors the
    streaming readers.  Here that is proved: [read_column_data_into] records
    exactly the bytes [skip_column_data] skips, for the types whose decoder layout
    is the wire layout; [discard_column_data] drops them. *)

From Stdlib Require Import String ZArith Lia Bool List.
From Stdlib Require Import Strings.Byte.
From coqutil Require Import Byte.
From S2P Require Import Prelude Reader Limits Utf8 Wire TypeParser SkipColumn Arena ColumnReader.
Import ListNotations.

(** ** Leaves *)

Lemma same_accepts_sym {A} (p q : parser A) : same_accepts p q -> same_accepts q p.
Proof. intros H buf pos a pos' H1 H2 H3. symmetry. now apply H. Qed.

Lemma column_len_checked rows width what n :
  column_len rows width what = Ok n <-> checked_len rows width = Ok n.
Proof.
  unfold column_len, checked_len, protocol, checked_column_len.
  destruct (checked_mul rows width); cbn; [|easy]. destruct (_ <? _); cbn; easy.
Qed.

Lemma checked_len_ok rows width :
  rows * width <= MAX_COLUMN_BYTES -> checked_len rows width = Ok (rows * width).
Proof.
  intros H. unfold checked_len, checked_column_len, checked_mul.
  destruct (Z.leb_spec (rows * width) USIZE_MAX); [|unfold MAX_COLUMN_BYTES, USIZE_MAX in *; lia].
  cbn [ok_or bind result_monad].
  now destruct (Z.ltb_spec MAX_COLUMN_BYTES (rows * width)); [lia|].
Qed.

Lemma records_fixed rows width what :
  0 <= rows -> 0 <= width -> records (read_fixed_into rows width what) (skip_fixed rows width).
Proof.
  intros Hr Hw. apply (records_bind_if (fun n => 0 <= n)).
  - apply records_lift. intros n. apply column_len_checked.
  - intros buf pos n pos' H. apply parser_lift_inv in H as [H _]. apply checked_len_inv in H as [-> _]. nia.
  - now apply advances_skip_fixed.
  - intros n Hn. now apply records_read_exact_into.
Qed.

Lemma skip_fixed_ok rows width buf pos r :
  0 <= rows -> 0 <= width -> 0 <= pos -> blen buf <= ISIZE_MAX ->
  skip_fixed rows width buf pos = Ok r <->
  rows * width <= MAX_COLUMN_BYTES /\ r = (tt, pos + rows * width) /\ pos + rows * width <= blen buf.
Proof.
  intros Hr Hw Hpos Hbuf. unfold skip_fixed. split.
  - intros H. apply parser_bind_inv in H as (n & p & H1 & H). apply parser_lift_inv in H1 as [H1 ->].
    apply checked_len_inv in H1 as [-> H1]. apply advance_pos_ok in H as [-> ?]; auto; nia.
  - intros (H1 & -> & H2).
    cbn. rewrite checked_len_ok by assumption. apply advance_pos_ok; auto; nia.
Qed.

(** One-byte columns are not subject to the product check. *)
Lemma skip_fixed_1 rows : 0 <= rows -> same_accepts (skip_fixed rows 1) (advance_pos rows).
Proof.
  intros Hr buf pos [] pos' Hpos Hbuf Hle.
  rewrite skip_fixed_ok, advance_pos_ok by lia. rewrite Z.mul_1_r. split.
  - intros (_ & H1 & H2). auto.
  - intros (H1 & H2). inj. repeat split; auto; lia.
Qed.

Lemma records_string_rows rows name name' :
  records (read_string_rows_into rows name) (skip_string_rows rows name').
Proof.
  apply records_repeat_n. apply (records_bind_if (fun v => 0 <= v)).
  - apply records_read_varint_into.
  - apply parse_varint_nonneg.
  - apply parse_varint_bind_advances. intros v Hv. apply lift_bind_advances. intros n H.
    apply map_err_inv, checked_string_len_inv in H as [-> _]. now apply advances_advance_pos.
  - intros v Hv. apply (records_bind_if (fun n => 0 <= n)).
    + apply records_lift. intros n. unfold protocol.
      split; intros H; apply map_err_inv, checked_string_len_inv in H as [-> ?];
        now rewrite checked_string_len_ok.
    + intros buf pos n pos' H. apply parser_lift_inv in H as [H _].
      apply map_err_inv, checked_string_len_inv in H as [-> _]. assumption.
    + apply lift_bind_advances. intros n H.
      apply map_err_inv, checked_string_len_inv in H as [-> _]. now apply advances_advance_pos.
    + intros n Hn. now apply records_read_exact_into.
Qed.

Lemma records_zero_rows rows m p :
  (rows <> 0 -> records m p) -> records (zero_rows rows m) (nonzero rows p).
Proof.
  intros H. unfold zero_rows, nonzero. destruct (Z.eqb_spec rows 0); [apply records_ret|auto].
Qed.

(** ** Offsets *)

(** The offsets one by one: the loop of the raw and of the discarding readers. *)
Fixpoint offsets_loop (n : nat) (name : bytes) (total : Z) : parser Z :=
  match n with
  | O => ret total
  | S n =>
      let* offset := read_u64_le name in
      let* total := lift (protocol (checked_monotonic_offset total offset name)) in
      offsets_loop n name total
  end.

Lemma advances_offsets_loop n name total : advances (offsets_loop n name total).
Proof. revert total; induction n as [|n IH]; intros; cbn [offsets_loop]; advances. Qed.

Lemma read_u64_le_ok name buf pos r :
  0 <= pos <= blen buf -> blen buf <= ISIZE_MAX ->
  read_u64_le name buf pos = Ok r <->
  r = (from_le (slice buf pos (pos + 8)), pos + 8) /\ pos + 8 <= blen buf.
Proof.
  intros Hpos Hbuf. unfold read_u64_le. split.
  - intros H. apply parser_bind_inv in H as (bs & p & H1 & H).
    apply takes_parse_bytes in H1 as [H1 ?]; try lia. inj. cbn in H. inj. auto.
  - intros [-> H]. erewrite parser_bind_ok; [reflexivity|].
    apply takes_parse_bytes; auto; lia.
Qed.

Lemma chunks_exact_cons width (l : bytes) :
  0 < width -> width <= blen l ->
  chunks_exact width l = take width l :: chunks_exact width (drop width l).
Proof.
  intros Hw Hl. unfold chunks_exact, take, drop. unfold blen in Hl.
  destruct (length l) as [|n] eqn:E; [lia|]. cbn [chunks_loop].
  destruct (Nat.leb_spec (Z.to_nat width) (length l)); [|lia]. f_equal.
  rewrite length_skipn, E.
  assert (forall f1 f2 (l : bytes), (length l <= f1)%nat -> (length l <= f2)%nat ->
    chunks_loop f1 (Z.to_nat width) l = chunks_loop f2 (Z.to_nat width) l) as Hfuel.
  { induction f1 as [|f1 IH]; intros [|f2] l' H1 H2; try reflexivity; cbn [chunks_loop].
    - destruct (Nat.leb_spec (Z.to_nat width) (length l')); [lia|reflexivity].
    - destruct (Nat.leb_spec (Z.to_nat width) (length l')); [lia|reflexivity].
    - destruct (Nat.leb_spec (Z.to_nat width) (length l')); [|reflexivity]. f_equal.
      apply IH; rewrite length_skipn; lia. }
  apply Hfuel; rewrite length_skipn; lia.
Qed.

Lemma chunks_slice buf pos w end_ :
  0 < w -> 0 <= pos -> pos + w <= end_ <= blen buf ->
  chunks_exact w (slice buf pos end_) = slice buf pos (pos + w) :: chunks_exact w (slice buf (pos + w) end_).
Proof.
  intros Hw Hpos Hend. rewrite chunks_exact_cons by (rewrite ?blen_slice; lia).
  rewrite <- (slice_app buf pos (pos + w) end_) by lia.
  assert (blen (slice buf pos (pos + w)) = w) as Hlen by (rewrite blen_slice; lia).
  now rewrite take_app_len, drop_app_len.
Qed.

Lemma offsets_loop_ok n name : forall total buf pos r,
  0 <= pos <= blen buf -> blen buf <= ISIZE_MAX ->
  offsets_loop n name total buf pos = Ok r <->
  exists t, r = (t, pos + 8 * Z.of_nat n) /\ pos + 8 * Z.of_nat n <= blen buf /\
    fold_offsets total (map from_le (chunks_exact 8 (slice buf pos (pos + 8 * Z.of_nat n)))) name = Ok t.
Proof.
  induction n as [|n IH]; intros total buf pos r Hpos Hbuf.
  - change (8 * Z.of_nat 0) with 0. rewrite Z.add_0_r, slice_nil. cbn. split.
    + intros H. inj. exists total. auto with zarith.
    + intros (t & -> & _ & H). now inj.
  - cbn [offsets_loop]. replace (pos + 8 * Z.of_nat (S n)) with (pos + 8 + 8 * Z.of_nat n) by lia. split.
    + intros H. apply parser_bind_inv in H as (o & p1 & H1 & H).
      apply read_u64_le_ok in H1 as [H1 Hp]; try assumption. inj.
      apply parser_bind_inv in H as (t & p2 & H2 & H). apply parser_lift_inv in H2 as [H2 ->].
      apply map_err_inv in H2. apply IH in H as (t' & -> & Hle & Hf); try lia.
      exists t'. repeat split; auto. rewrite chunks_slice by lia. cbn [map fold_offsets].
      now rewrite H2.
    + intros (t & -> & Hle & Hf). rewrite chunks_slice in Hf by lia. cbn [map fold_offsets] in Hf.
      apply result_bind_inv in Hf as (t1 & H1 & Hf).
      erewrite parser_bind_ok by (apply read_u64_le_ok; [assumption..|split; [reflexivity|lia]]).
      erewrite parser_bind_ok by (rewrite H1; reflexivity).
      apply IH; try lia. exists t. auto.
Qed.

Lemma skip_offsets_ok rows name buf pos r :
  0 <= rows -> 0 <= pos <= blen buf -> blen buf <= ISIZE_MAX ->
  skip_offsets rows name buf pos = Ok r <->
  rows * 8 <= MAX_COLUMN_BYTES /\
  exists t, r = (t, pos + rows * 8) /\ pos + rows * 8 <= blen buf /\
    fold_offsets 0 (map from_le (chunks_exact 8 (slice buf pos (pos + rows * 8)))) name = Ok t.
Proof.
  intros Hr Hpos Hbuf. unfold skip_offsets. split.
  - intros H. apply parser_bind_inv in H as (n & p & H1 & H). apply parser_lift_inv in H1 as [H1 ->].
    apply checked_len_inv in H1 as [-> H1]. split; [assumption|].
    unfold skip_offset_bytes, checked_add in H.
    destruct (Z.leb_spec (pos + rows * 8) USIZE_MAX); [|discriminate].
    destruct (Z.ltb_spec (blen buf) (pos + rows * 8)); [discriminate|].
    apply result_bind_inv in H as (t & Ht & H). inj. apply map_err_inv in Ht. eauto.
  - intros (H1 & t & -> & H2 & Hf).
    rewrite checked_len_ok by assumption. cbn. unfold skip_offset_bytes, checked_add.
    destruct (Z.leb_spec (pos + rows * 8) USIZE_MAX); [|unfold ISIZE_MAX, USIZE_MAX in *; lia].
    destruct (Z.ltb_spec (blen buf) (pos + rows * 8)); [lia|]. now rewrite Hf.
Qed.

Lemma offsets_loop_accepts rows name :
  0 <= rows -> same_accepts (offsets_loop (Z.to_nat rows) name 0) (skip_offsets rows name).
Proof.
  intros Hr buf pos t pos' Hpos Hbuf Hcap. rewrite offsets_loop_ok, skip_offsets_ok by assumption.
  rewrite Z2Nat.id by assumption. rewrite (Z.mul_comm 8 rows). split.
  - intros (t' & H & H1 & H2). inj. split; [lia|]. eauto.
  - intros (_ & t' & H & H1 & H2). inj. eauto.
Qed.

Lemma records_read_offsets_into rows name :
  0 <= rows -> records (read_offsets_into rows name) (skip_offsets rows (str name)).
Proof.
  intros Hr. set (F := fun bs => protocol (fold_offsets 0 (map from_le (chunks_exact 8 bs)) (str name))).
  apply (same_accepts_records _ (let* n := lift (checked_len rows 8) in
           let* bs := parse_bytes n in lift (F bs))).
  - intros buf pos t pos' Hpos Hbuf _. rewrite skip_offsets_ok by assumption. split.
    + intros H. apply parser_bind_inv in H as (n & p & H1 & H). apply parser_lift_inv in H1 as [H1 ->].
      apply checked_len_inv in H1 as [-> H1]. apply parser_bind_inv in H as (bs & p & H2 & H).
      apply takes_parse_bytes in H2 as [H2 ?]; try lia. inj. apply parser_lift_inv in H as [H ->].
      apply map_err_inv in H. split; [assumption|]. eauto.
    + intros (H1 & t' & H & H2 & Hf). inj.
      rewrite checked_len_ok by assumption. erewrite parser_bind_ok by reflexivity.
      erewrite parser_bind_ok by (apply takes_parse_bytes; [lia|assumption..|split; [reflexivity|lia]]).
      unfold F. now rewrite Hf.
  - now apply advances_skip_offsets.
  - apply (arena_eq_records (let* nbytes := lift (column_len rows 8 name) in
             let* bs := read_tail_into nbytes in lift (F bs))).
    { apply arena_bind_eq. intros n d b l. unfold read_tail_into. rewrite arena_assoc.
      apply arena_bind_eq. intros start. apply arena_assoc. }
    apply (records_bind_if (fun n => 0 <= n)).
    + apply records_lift. intros n. apply column_len_checked.
    + intros buf pos n pos' H. apply parser_lift_inv in H as [H _]. apply checked_len_inv in H. lia.
    + apply lift_bind_advances. intros n H. apply checked_len_inv in H as [-> _]. advances.
    + intros n Hn. apply records_bind; [|intros bs; now apply records_lift].
      apply records_read_tail_into; [assumption|advances|now apply takes_parse_bytes].
Qed.

Lemma records_read_offset_rows n name : forall total,
  records (read_offset_rows n name total) (offsets_loop n (str name) total).
Proof.
  induction n as [|n IH]; intros total; [apply records_ret|].
  cbn [read_offset_rows offsets_loop]. apply records_bind; [apply records_read_u64_into|]. intros o.
  apply records_bind; [now apply records_lift|apply IH].
Qed.

Lemma records_raw_array name inner inner' rows :
  0 <= rows -> (forall n, 0 <= n -> records (inner n) (inner' n)) ->
  records (raw_array name inner rows) (array_of (str name) inner' rows).
Proof.
  intros Hr Hi. apply records_bind.
  - apply (same_accepts_records _ _ _ (offsets_loop_accepts rows (str name) Hr)).
    + now apply advances_skip_offsets.
    + apply records_read_offset_rows.
  - intros total. destruct (Z.ltb_spec 0 total); [apply Hi; lia|apply records_ret].
Qed.

Lemma skip_offsets_nonneg rows name buf pos t pos' :
  skip_offsets rows name buf pos = Ok (t, pos') -> 0 <= t.
Proof.
  intros H. apply parser_bind_inv in H as (n & p & H1 & H). unfold skip_offset_bytes in H.
  destruct (checked_add p n); [|discriminate]. destruct (_ <? _); [discriminate|].
  apply result_bind_inv in H as (t' & Ht & H). inj. apply map_err_inv, fold_offsets_inv in Ht as [_ ->].
  assert (Forall (fun z => 0 <= z) (map from_le (chunks_exact 8 (slice buf p pos')))) as Hall
    by (apply Forall_map, Forall_forall; intros; apply from_le_bound).
  induction Hall as [|x l Hx Hl IH]; cbn; [lia|]. now destruct l.
Qed.

(** The materializing readers call the inner reader even for no elements. *)
Lemma records_array_into name inner inner' rows :
  0 <= rows -> (forall n, 0 <= n -> records (inner n) (inner' n)) -> parser_eq (inner' 0) (ret tt) ->
  records (array_into name inner rows) (array_of (str name) inner' rows).
Proof.
  intros Hr Hi H0. apply (records_bind_if (fun t => 0 <= t)).
  - now apply records_read_offsets_into.
  - intros buf pos t pos'. apply skip_offsets_nonneg.
  - apply advances_array_of; [assumption|]. intros n Hn. now apply Hi.
  - intros t Ht. destruct (Z.ltb_spec 0 t); [now apply Hi|]. replace t with 0 by lia.
    apply (same_accepts_records _ (inner' 0)); [now apply parser_eq_accepts|apply advances_ret|].
    apply Hi. lia.
Qed.

(** ** Raw bodies of Variant alternatives *)

(** The types a Variant reads back after printing and re-parsing them, with no
    Dynamic part; a raw [Nothing] and a raw LowCardinality header are read
    differently (see the findings). *)
Fixpoint raw_static (ct : ColumnType) : bool :=
  match ct with
  | LowCardinality _ | JSON | Dynamic | Nothing => false
  | Nullable t | Array t => raw_static t
  | TMap k v => raw_static k && raw_static v
  | Tuple ts | Variant ts => forallb raw_static ts
  | _ => printable ct
  end.

Lemma raw_static_printable ct : raw_static ct = true -> printable ct = true.
Proof.
  type_induction ct; cbn [raw_static printable]; auto; try discriminate.
  - intros k v Hk Hv H. apply andb_prop in H as [? ?]. now rewrite Hk, Hv.
  - intros ts H Hs. rewrite forallb_forall in *. rewrite Forall_forall in H. auto.
  - intros ts H Hs. rewrite forallb_forall in *. rewrite Forall_forall in H. auto.
  - intros t. destruct t; try exact I; cbn; auto.
Qed.

Lemma records_simple_raw ct rows :
  raw_static ct = true -> 0 <= rows ->
  match ct with
  | Nullable _ | Array _ | TMap _ _ | Tuple _ | Variant _ | Point | Ring | Polygon | MultiPolygon => True
  | _ => records (read_simple_raw ct rows) (skip_simple ct rows)
  end.
Proof.
  intros Hs Hr.
  assert (records (read_fixed_into rows 1 "fixed-width column") (advance_pos rows)) as H1.
  { apply (same_accepts_records _ (skip_fixed rows 1)); [now apply skip_fixed_1| |].
    - now apply advances_advance_pos.
    - apply records_fixed; lia. }
  destruct ct; try exact I; try discriminate Hs; cbn [read_simple_raw skip_simple fixed_width];
    try exact H1; try (apply records_fixed; lia); try apply records_string_rows.
  - cbn [raw_static printable] in Hs. apply records_fixed; lia.
  - repeat match goal with
    | |- context [if ?b then Some _ else _] => destruct b
    end; try (apply records_fixed; lia). apply records_throw.
Qed.

(** The recursive call agrees with skipping for every type nested less than [L]
    deep. *)
Section Raw.
Variable dyn : DynamicSkipState -> Z -> parser unit.

Definition raw_agrees (L : nat) (sub : raw_body) : Prop :=
  forall ct state rows, raw_static ct = true -> (nesting ct < L)%nat -> 0 <= rows ->
  records (sub (ct, state, rows)) (skip_body_raw_with dyn ct state rows).

Lemma hd_skipn (l : list SkipState) i : hd SNone (skipn i l) = nth i l SNone.
Proof. revert i; induction l as [|x l IH]; intros [|i]; cbn; auto. Qed.

Lemma tl_skipn (l : list SkipState) i : tl (skipn i l) = skipn (S i) l.
Proof.
  revert i; induction l as [|x l IH]; intros [|i]; cbn [skipn tl]; auto.
Qed.

Definition readable (L : nat) (t : ColumnType) : Prop :=
  raw_static t = true /\ (nesting t < L)%nat /\ parse_type (to_string t) = Ok t.

Lemma readable_all L ts :
  (L <= S MAX_TYPE_NESTING)%nat -> forallb raw_static ts = true ->
  (list_max (map (fun t => S (nesting t)) ts) <= L)%nat -> Forall (readable L) ts.
Proof.
  intros HL Hs Hn. apply nesting_list in Hn. rewrite forallb_forall in Hs. rewrite Forall_forall in *.
  intros t Ht. specialize (Hn t Ht). repeat split; auto.
  apply parse_to_string; [now apply raw_static_printable, Hs|lia].
Qed.

Lemma records_subcolumns L sub types :
  raw_agrees L sub -> Forall (readable L) types ->
  forall i states counts, nonneg counts ->
  records (read_subcolumns_from sub i (map to_string types) states counts)
          (skip_counted (bodies (skip_body_raw_with dyn) types (skipn i states)) counts).
Proof.
  intros Hsub. induction 1 as [|t types (Hs & Hn & Hp) _ IH]; intros i states [|c counts] Hc;
    try apply records_ret. inversion Hc; subst.
  cbn [map read_subcolumns_from bodies skip_counted]. rewrite hd_skipn, tl_skipn.
  apply records_bind; [|intros _; now apply IH]. apply records_if; [apply records_ret|].
  unfold parse_dynamic_type. rewrite Hp. cbn [map_err].
  apply (arena_eq_records (sub (t, nth i states SNone, c))); [intros d b l; reflexivity|].
  now apply Hsub.
Qed.

Lemma bodies_length {M} (f : ColumnType -> SkipState -> Z -> M) types states :
  length (bodies f types states) = length types.
Proof. revert states; induction types as [|t types IH]; intros states; cbn; auto. Qed.

Lemma bodies_nth f types : forall states i t,
  nth_error types i = Some t ->
  nth i (bodies f types states) (fun _ => ret (M := parser) tt) = f t (nth i states SNone).
Proof.
  induction types as [|t types IH]; intros states [|i] t' H; try discriminate; cbn in *.
  - inj. now destruct states.
  - rewrite (IH (tl states) i t' H). now destruct states; [destruct i|].
Qed.

Lemma records_variant L sub types states rows :
  raw_agrees L sub -> Forall (readable L) types -> 0 <= rows ->
  records (read_variant_body_into sub types states rows)
          (variant_body (bodies (skip_body_raw_with dyn) types states) rows).
Proof.
  intros Hsub Ht Hr. unfold read_variant_body_into, read_variant_types_body_into, variant_body.
  apply records_bind; [apply records_read_u64_into|]. intros mode.
  replace (blen (map to_string types)) with (blen types) by (unfold blen; now rewrite length_map).
  replace (blen (bodies (skip_body_raw_with dyn) types states)) with (blen types)
    by (unfold blen; now rewrite bodies_length).
  destruct ((rows =? 0) || (blen types =? 0)) eqn:Hempty; [apply records_ret|].
  apply records_if; [|apply records_if; [|apply records_throw]].
  - rewrite length_map, bodies_length.
    set (K := fun ds => read_dynamic_subcolumns_into sub (map to_string types) states
                          (variant_scan false (length types) ds)).
    set (K' := fun ds => skip_counted (bodies (skip_body_raw_with dyn) types states)
                           (variant_counts (length types) ds)).
    apply (arena_eq_records (let* ds := read_bytes_into rows in K ds)).
    { intros d b l. unfold read_bytes_into. rewrite arena_assoc. apply arena_bind_eq. intros start.
      apply arena_assoc. }
    assert (forall ds, records (K ds) (K' ds)) as HK.
    { intros ds. apply (records_subcolumns L sub types Hsub Ht 0). apply nonneg_variant_counts. }
    apply (same_accepts_records _ (let* ds := skip_and_take rows in K' ds)).
    + intros buf pos a pos' _ _ _. unfold skip_and_take. cbn. unfold get_pos.
      destruct (advance_pos rows buf pos) as [[[] p]|e]; reflexivity.
    + do 3 (apply advances_bind; [advances|intros ?]). apply HK.
    + apply records_bind; [|exact HK].
      apply records_read_bytes_into; [assumption|unfold skip_and_take; advances|].
      now apply takes_skip_and_take.
  - apply records_bind; [apply records_read_u64_into|intros d].
    apply records_bind; [now apply records_lift|intros disc].
    apply records_bind; [apply records_read_u64_into|intros r].
    apply records_bind; [now apply records_lift|intros n].
    apply records_if; [apply records_throw|].
    destruct (Z.ltb_spec disc (blen types)) as [Hd|]; [|apply records_ret].
    destruct (Z.ltb_spec 0 n) as [Hn|]; [|apply records_ret]. cbn [andb].
    destruct (nth_error types (Z.to_nat disc)) as [t|] eqn:E.
    2: { apply nth_error_None in E. unfold blen in *. apply orb_false_iff in Hempty as [_ Hempty].
         apply Z.eqb_neq in Hempty. lia. }
    rewrite (bodies_nth _ _ _ _ _ E).
    rewrite (nth_error_nth (map to_string types) (Z.to_nat disc) [] (map_nth_error to_string _ _ E)).
    rewrite Forall_forall in Ht. destruct (Ht t (nth_error_In _ _ E)) as (Hst & Hnt & Hpt).
    rewrite Hpt. cbn [map_err].
    apply (arena_eq_records (sub (t, nth (Z.to_nat disc) states SNone, n))); [intros ? ? ?; reflexivity|].
    apply Hsub; auto; lia.
Qed.

Lemma records_bodies rows f types states :
  Forall (fun t => forall s, records (f t s rows) (skip_body_raw_with dyn t s rows)) types ->
  records (for_each (bodies f types states) (fun body => body rows))
          (for_each (bodies (skip_body_raw_with dyn) types states) (fun body => body rows)).
Proof.
  intros H. revert states. induction H as [|t types Ht _ IH]; intros states; [apply records_ret|].
  cbn [bodies]. rewrite !for_each_cons. apply records_bind; [apply Ht|intros _; apply IH].
Qed.

Lemma records_point_raw rows : 0 <= rows -> records (read_point_raw rows) (skip_point rows).
Proof. intros. apply records_zero_rows. intros _. apply records_bind; intros; apply records_fixed; lia. Qed.

Lemma records_ring_raw rows : 0 <= rows -> records (read_ring_raw rows) (skip_ring rows).
Proof.
  intros. apply records_zero_rows. intros _. apply records_raw_array; [assumption|apply records_point_raw].
Qed.

Lemma records_polygon_raw rows : 0 <= rows -> records (read_polygon_raw rows) (skip_polygon rows).
Proof.
  intros. apply records_zero_rows. intros _. apply records_raw_array; [assumption|apply records_ring_raw].
Qed.

(** One level of the raw reader over a recursive call that agrees below. *)
Lemma records_raw L sub ct :
  raw_agrees L sub -> (L <= S MAX_TYPE_NESTING)%nat ->
  raw_static ct = true -> (nesting ct <= L)%nat -> forall state rows, 0 <= rows ->
  records (read_raw_with sub ct state rows) (skip_body_raw_with dyn ct state rows).
Proof.
  intros Hsub HL. type_induction ct; cbn [raw_static nesting].
  - intros t IH Hs Hn state rows Hr. apply records_zero_rows. intros _.
    apply records_bind; [now apply records_read_exact_into|intros _]. apply IH; auto; lia.
  - intros t IH Hs Hn state rows Hr. apply records_zero_rows. intros _.
    apply records_raw_array; [assumption|]. intros n Hn'. apply IH; auto; lia.
  - intros k v IHk IHv Hs Hn state rows Hr. apply andb_prop in Hs as [Hk Hv].
    apply records_zero_rows. intros _.
    destruct (match state with SMap k v => (k, v) | _ => (SNone, SNone) end) as [ks vs].
    apply records_raw_array; [assumption|]. intros n Hn'.
    apply records_bind; [apply IHk|intros _; apply IHv]; auto; lia.
  - intros ts IH Hs Hn state rows Hr. apply records_zero_rows. intros _. apply records_bodies.
    apply nesting_list in Hn. rewrite forallb_forall in Hs. rewrite Forall_forall in *.
    intros t Ht s. apply IH; auto. specialize (Hn t Ht). lia.
  - discriminate.
  - intros ts _ Hs Hn state rows Hr. apply records_zero_rows. intros _.
    apply (records_variant L); auto. now apply readable_all.
  - intros t. destruct t; try exact I; intros Hs Hn state rows Hr; try discriminate Hs;
      (apply records_zero_rows; intros _);
      try exact (records_simple_raw _ _ Hs Hr).
    + apply records_bind; intros; apply records_fixed; lia.
    + apply records_raw_array; [assumption|apply records_point_raw].
    + apply records_raw_array; [assumption|apply records_ring_raw].
    + apply records_raw_array; [assumption|apply records_polygon_raw].
Qed.

Lemma raw_agrees_step L sub :
  raw_agrees L sub -> (L <= S MAX_TYPE_NESTING)%nat -> raw_agrees (S L) (raw_step sub).
Proof. intros Hsub HL ct state rows Hs Hn Hr. apply (records_raw L); auto. lia. Qed.

Lemma raw_agrees_le L L' sub : (L' <= L)%nat -> raw_agrees L sub -> raw_agrees L' sub.
Proof. intros HL H ct state rows Hs Hn Hr. apply H; auto. lia. Qed.

(** [deep h] adds [2 ^ h] levels, up to the nesting cap of types. *)
Lemma raw_agrees_deep h : forall L sub,
  raw_agrees L sub ->
  raw_agrees (Nat.min (L + 2 ^ h) (S MAX_TYPE_NESTING)) (deep h raw_step sub).
Proof.
  induction h as [|h IH]; intros L sub H; cbn [deep].
  - destruct (Nat.le_gt_cases L (S MAX_TYPE_NESTING)) as [HL|HL].
    + apply (raw_agrees_le (S L)); [cbn; lia|]. now apply raw_agrees_step.
    + apply (raw_agrees_le (S (S MAX_TYPE_NESTING))); [lia|]. apply raw_agrees_step; [|lia].
      apply (raw_agrees_le L); [lia|assumption].
  - apply (raw_agrees_le (Nat.min (Nat.min (L + 2 ^ h) (S MAX_TYPE_NESTING) + 2 ^ h) (S MAX_TYPE_NESTING)));
      [cbn; lia|].
    apply IH. intros ct state rows Hs Hn Hr. now apply (IH L sub H).
Qed.

Lemma raw_agrees_recursion : raw_agrees (S MAX_TYPE_NESTING) raw_recursion.
Proof.
  apply (raw_agrees_le (Nat.min (0 + 2 ^ RAW_LEVELS) (S MAX_TYPE_NESTING))).
  - assert (9 <= RAW_LEVELS)%nat as H by (unfold RAW_LEVELS; lia).
    pose proof (Nat.pow_le_mono_r 2 9 RAW_LEVELS ltac:(lia) H) as Hp.
    change (2 ^ 9)%nat with 512%nat in Hp. unfold MAX_TYPE_NESTING. lia.
  - apply raw_agrees_deep. intros ct state rows _ Hn. lia.
Qed.
End Raw.

(** ** Whole columns *)

(** The types whose decoder layout is the wire layout: everything but JSON,
    LowCardinality, Dynamic and unknown names, with static alternatives in
    Variants. *)
Fixpoint verbatim (ct : ColumnType) : bool :=
  match ct with
  | LowCardinality _ | JSON | Dynamic | Other _ => false
  | Nullable t | Array t => verbatim t
  | TMap k v => verbatim k && verbatim v
  | Tuple ts => forallb verbatim ts
  | Variant ts => forallb raw_static ts
  | _ => true
  end.

Lemma records_state_prefix d d' ct :
  raw_static ct = true -> records (read_state_prefix_with d ct) (skip_state_prefix_with d' ct).
Proof.
  type_induction ct; cbn [raw_static read_state_prefix_with skip_state_prefix_with]; try discriminate.
  - intros t IH Hs. apply records_bind; [auto|intros; apply records_ret].
  - intros t IH Hs. apply records_bind; [auto|intros; apply records_ret].
  - intros k v IHk IHv Hs. apply andb_prop in Hs as [? ?].
    repeat (apply records_bind; [auto|intros ?]). apply records_ret.
  - intros ts IH Hs. apply records_bind; [|intros; apply records_ret]. apply records_map_each.
    rewrite forallb_forall in Hs. rewrite Forall_forall in *. auto.
  - intros ts IH Hs. apply records_bind; [|intros; apply records_ret]. apply records_map_each.
    rewrite forallb_forall in Hs. rewrite Forall_forall in *. auto.
  - intros t. destruct t; try exact I; intros Hs; try discriminate Hs; apply records_ret.
Qed.

Lemma records_simple_into ct rows :
  wf_type ct = true -> verbatim ct = true -> 0 <= rows ->
  match ct with
  | Nullable _ | Array _ | TMap _ _ | Tuple _ | Variant _ | Point | Ring | Polygon | MultiPolygon => True
  | _ => records (read_simple_into ct rows) (skip_simple ct rows)
  end.
Proof.
  intros Hwf Hv Hr. destruct ct; try exact I; try discriminate Hv;
    cbn [read_simple_into skip_simple wf_type] in *; try (now apply records_read_exact_into);
    try (apply records_fixed; lia); try apply records_string_rows; try apply records_throw.
  repeat apply records_if; try (apply records_fixed; lia). apply records_throw.
Qed.

Lemma records_point_into rows : 0 <= rows -> records (read_point_into rows) (skip_point rows).
Proof. intros. apply records_zero_rows. intros _. apply records_bind; intros; apply records_fixed; lia. Qed.

Lemma records_ring_into rows : 0 <= rows -> records (read_ring_into rows) (skip_ring rows).
Proof.
  intros. apply records_zero_rows. intros _.
  apply (records_array_into "array offset"); [assumption|apply records_point_into|reflexivity].
Qed.

Lemma records_polygon_into rows : 0 <= rows -> records (read_polygon_into rows) (skip_polygon rows).
Proof.
  intros. apply records_zero_rows. intros _.
  apply (records_array_into "array offset"); [assumption|apply records_ring_into|reflexivity].
Qed.

Lemma records_column ct :
  wf_type ct = true -> verbatim ct = true -> (nesting ct <= MAX_TYPE_NESTING)%nat ->
  forall rows, 0 <= rows -> records (read_column_data_into ct rows) (skip_column_data ct rows).
Proof.
  type_induction ct; cbn [wf_type verbatim nesting].
  - intros t IH Hwf Hv Hn rows Hr. apply records_zero_rows. intros _.
    apply records_bind; [now apply records_read_exact_into|intros _; apply IH; auto; lia].
  - intros t IH Hwf Hv Hn rows Hr. apply records_zero_rows. intros _.
    apply records_array_into; [assumption|intros; apply IH; auto; lia|]. destruct t; reflexivity.
  - intros k v IHk IHv Hwf Hv Hn rows Hr. apply andb_prop in Hwf as [? ?], Hv as [? ?].
    apply records_zero_rows. intros _.
    apply (records_array_into "map offset" (fun n => read_column_data_into k n ;; read_column_data_into v n)
             (fun n => skip_column_data k n ;; skip_column_data v n)); [assumption| |].
    + intros n Hn'. apply records_bind; [apply IHk|intros _; apply IHv]; auto; lia.
    + destruct k, v; reflexivity.
  - intros ts IH Hwf Hv Hn rows Hr. apply records_zero_rows. intros _. apply records_for_each.
    apply nesting_list in Hn. rewrite forallb_forall in Hwf, Hv. rewrite Forall_forall in *.
    intros t Ht. specialize (Hn t Ht). apply IH; auto. lia.
  - discriminate.
  - intros ts _ Hwf Hv Hn rows Hr. apply records_zero_rows. intros _. apply records_bind.
    + apply records_map_each. rewrite forallb_forall in Hv. apply Forall_forall. intros t Ht.
      now apply records_state_prefix, Hv.
    + intros states. apply (records_variant _ (S MAX_TYPE_NESTING)); auto.
      * apply raw_agrees_recursion.
      * apply readable_all; auto.
  - intros t. destruct t; try exact I; intros Hwf Hv Hn rows Hr; try discriminate Hv;
      (apply records_zero_rows; intros _);
      try exact (records_simple_into _ _ Hwf Hv Hr).
    + apply records_bind; intros; apply records_fixed; lia.
    + apply (records_array_into "array offset"); [assumption|apply records_point_into|reflexivity].
    + apply (records_array_into "array offset"); [assumption|apply records_ring_into|reflexivity].
    + apply (records_array_into "array offset"); [assumption|apply records_polygon_into|reflexivity].
Qed.

(** C16: the streaming reader and the buffered skipper frame a column alike: for
    every type whose decoder layout is the wire layout, [read_column_data_into]
    succeeds on a stream exactly when [skip_column_data] succeeds on the same bytes
    and the column fits the budget, and then the arena has grown by exactly the
    slice the skipper passes over and the budget shrunk by its length. *)
Theorem read_column_records_skipped (name : bytes) (ct : ColumnType) (rows : Z)
    (buf : bytes) (pos : Z) (data data' rest : bytes) (budget budget' : Z) :
  parse_type name = Ok ct -> verbatim ct = true ->
  0 <= rows -> 0 <= pos <= blen buf -> blen buf <= ISIZE_MAX ->
  blen data + blen buf - pos <= ISIZE_MAX -> 0 <= budget <= MAX_COLUMN_BYTES ->
  run (read_column_data_into ct rows data budget) (drop pos buf) = Ok ((tt, data', budget'), rest) <->
  exists pos', skip_column_data ct rows buf pos = Ok (tt, pos') /\ rest = drop pos' buf /\
    data' = data ++ slice buf pos pos' /\ budget' = budget - (pos' - pos) /\ 0 <= budget'.
Proof.
  intros Hp Hv Hr Hpos Hbuf Hdata Hb. apply parse_type_rec_bounded in Hp as [Hwf Hn].
  assert (records (read_column_data_into ct rows) (skip_column_data ct rows)) as [_ Hs Hc]
    by (apply records_column; auto; lia).
  split; [now apply Hs|now apply Hc].
Qed.

Lemma read_column_records_skipped_witness :
  let ct := Variant [UInt8; Array TString] in
  let column := to_le 8 0 ++ [x00; x01; xff] ++ [x2a] ++ to_le 8 2 ++ [x01; x61; x00] in
  run (read_column_data_into ct 3 [] MAX_COLUMN_BYTES) (drop 0 (column ++ [x07]))
    = Ok ((tt, column, MAX_COLUMN_BYTES - blen column), [x07]).
Proof.
  intros ct column.
  apply (read_column_records_skipped (str "Variant(UInt8, Array(String))") ct 3 (column ++ [x07]) 0);
    [reflexivity|reflexivity|lia|split; [lia|discriminate]|discriminate|discriminate|split; discriminate|].
  exists (blen column). repeat split. discriminate.
Defined.

(** ** Discarding

    [covers p m]: whenever the buffer parser [p] succeeds, the stream reader [m]
    succeeds on the same bytes, returns the same value and consumes as many.  (The
    converse fails: discarding does not cap the length of an offset column.) *)
Definition covers {A} (p : parser A) (m : reader A) : Prop :=
  advances p /\
  forall buf pos a pos', 0 <= pos <= blen buf -> blen buf <= ISIZE_MAX ->
  p buf pos = Ok (a, pos') -> run m (drop pos buf) = Ok (a, drop pos' buf).

Lemma covers_ret {A} (a : A) : covers (ret a) (ret a).
Proof. split; [apply advances_ret|]. intros buf pos b pos' _ _ H. cbn in H. now inj. Qed.

Lemma covers_throw {A} (e : error) (m : reader A) : covers (throw e) m.
Proof. split; [apply advances_throw|]. intros buf pos b pos' _ _ H. discriminate H. Qed.

Lemma covers_lift {A} (r r' : result error A) :
  (forall a, r = Ok a -> r' = Ok a) -> covers (lift r) (lift r').
Proof.
  intros H. destruct r as [a|e]; [|apply covers_throw]. rewrite (H a eq_refl). apply covers_ret.
Qed.

Lemma covers_bind_if {A B} (P : A -> Prop) (p : parser A) (m : reader A)
    (f : A -> parser B) (g : A -> reader B) :
  covers p m -> (forall buf pos a pos', p buf pos = Ok (a, pos') -> P a) -> advances (bind p f) ->
  (forall a, P a -> covers (f a) (g a)) -> covers (bind p f) (bind m g).
Proof.
  intros [Ha Hp] HP Hadv Hf. split; [assumption|]. intros buf pos b pos' Hpos Hbuf H.
  apply parser_bind_inv in H as (a & p1 & H1 & H2). pose proof (HP _ _ _ _ H1) as HPa.
  pose proof (Ha _ _ _ _ Hpos H1). apply Hp in H1; try assumption.
  rewrite (run_bind_ok _ _ _ _ _ H1). apply (Hf a HPa); auto. lia.
Qed.

Lemma covers_bind {A B} (p : parser A) (m : reader A) (f : A -> parser B) (g : A -> reader B) :
  covers p m -> (forall a, covers (f a) (g a)) -> covers (bind p f) (bind m g).
Proof.
  intros Hp Hf. apply (covers_bind_if (fun _ => True)); auto.
  apply advances_bind; [apply Hp|intros a; apply Hf].
Qed.

Lemma covers_if {A} (b : bool) (p1 p2 : parser A) (m1 m2 : reader A) :
  covers p1 m1 -> covers p2 m2 -> covers (if b then p1 else p2) (if b then m1 else m2).
Proof. now destruct b. Qed.

Lemma covers_repeat_n n (p : parser unit) (m : reader unit) :
  covers p m -> covers (repeat_n n p) (repeat_n n m).
Proof. intros H. induction n as [|n IH]; [apply covers_ret|]. now apply covers_bind. Qed.

Lemma covers_for_each {A} (l : list A) (f : A -> parser unit) (g : A -> reader unit) :
  Forall (fun a => covers (f a) (g a)) l -> covers (for_each l f) (for_each l g).
Proof. induction 1; [apply covers_ret|]. rewrite !for_each_cons. now apply covers_bind. Qed.

Lemma covers_agrees {A} (p : parser A) (m : reader A) : advances p -> agrees p m -> covers p m.
Proof.
  intros Ha H. split; [assumption|]. intros buf pos a pos' Hpos Hbuf E.
  specialize (H buf pos Hpos Hbuf). destruct (run m (drop pos buf)) as [[b rest]|e].
  - destruct H as (p1 & E1 & _ & ->). rewrite E1 in E. now inj.
  - destruct H as [e' E1]. rewrite E1 in E. discriminate.
Qed.

Lemma covers_parse_varint : covers parse_varint read_varint.
Proof. apply covers_agrees; auto with advances agrees. Qed.

Lemma covers_parse_bytes n : 0 <= n -> covers (parse_bytes n) (read_exact_r n).
Proof. intros. apply covers_agrees; auto with advances agrees. Qed.

Lemma covers_zero_rows rows p m :
  (rows <> 0 -> covers p m) -> covers (nonzero rows p) (zero_rows_r rows m).
Proof.
  intros H. unfold nonzero, zero_rows_r. destruct (Z.eqb_spec rows 0); [apply covers_ret|auto].
Qed.

(** Reading in pieces of at most [DISCARD_CHUNK] bytes is dropping the bytes. *)
Lemma discard_exact_loop_ok fuel : forall len l,
  0 <= len <= blen l -> len <= (Z.of_nat fuel - 1) * DISCARD_CHUNK ->
  run (discard_exact_loop fuel len) l = Ok (tt, drop len l).
Proof.
  induction fuel as [|fuel IH]; intros len l Hlen Hf; [unfold DISCARD_CHUNK in *; lia|].
  cbn [discard_exact_loop]. destruct (Z.eqb_spec len 0) as [->|Hne]; [now rewrite drop_0|].
  set (n := Z.min len DISCARD_CHUNK). assert (0 < n <= len) by (unfold n, DISCARD_CHUNK; lia).
  rewrite run_bind, run_read_exact. destruct (Z.leb_spec n (blen l)); [|lia].
  rewrite IH.
  - rewrite drop_drop by lia. now replace (len - n + n) with len by lia.
  - rewrite blen_drop by lia. lia.
  - unfold n, DISCARD_CHUNK in *. lia.
Qed.

Lemma run_discard_exact len l :
  0 <= len <= blen l -> run (discard_exact len) l = Ok (tt, drop len l).
Proof.
  intros H. apply discard_exact_loop_ok; [assumption|].
  pose proof (Z.div_mod len DISCARD_CHUNK ltac:(discriminate)).
  pose proof (Z.mod_pos_bound len DISCARD_CHUNK ltac:(reflexivity)).
  assert (0 <= len / DISCARD_CHUNK) by (apply Z.div_pos; unfold DISCARD_CHUNK; lia).
  rewrite Z2Nat.id by lia. unfold DISCARD_CHUNK in *. lia.
Qed.

Lemma covers_discard_exact len : 0 <= len -> covers (advance_pos len) (discard_exact len).
Proof.
  intros Hl. split; [now apply advances_advance_pos|]. intros buf pos [] pos' Hpos Hbuf H.
  apply advance_pos_ok in H as [H ?]; try lia. inj.
  rewrite run_discard_exact by (rewrite blen_drop; lia). rewrite drop_drop by lia.
  now replace (len + pos) with (pos + len) by lia.
Qed.

Lemma covers_discard_fixed rows width what :
  0 <= rows -> 0 <= width -> covers (skip_fixed rows width) (discard_fixed rows width what).
Proof.
  intros Hr Hw. apply (covers_bind_if (fun n => 0 <= n)).
  - apply covers_lift. intros n. apply column_len_checked.
  - intros buf pos n pos' H. apply parser_lift_inv in H as [H _]. apply checked_len_inv in H as [-> _]. nia.
  - now apply advances_skip_fixed.
  - intros n Hn. now apply covers_discard_exact.
Qed.

Lemma covers_discard_string_rows rows name name' :
  covers (skip_string_rows rows name) (discard_string_rows rows name').
Proof.
  apply covers_repeat_n.
  assert (forall v, 0 <= v -> advances (let* len := lift (protocol (checked_string_len v name)) in advance_pos len))
    as Hadv.
  { intros v Hv. apply lift_bind_advances. intros n H.
    apply map_err_inv, checked_string_len_inv in H as [-> _]. now apply advances_advance_pos. }
  apply (covers_bind_if (fun v => 0 <= v)); [apply covers_parse_varint|apply parse_varint_nonneg| |].
  - now apply parse_varint_bind_advances.
  - intros v Hv. apply (covers_bind_if (fun n => 0 <= n)); [| |now apply Hadv|].
    + apply covers_lift. intros n H. apply map_err_inv, checked_string_len_inv in H as [-> ?].
      unfold protocol. now rewrite checked_string_len_ok.
    + intros buf pos n pos' H. apply parser_lift_inv in H as [H _].
      apply map_err_inv, checked_string_len_inv in H as [-> _]. assumption.
    + intros n Hn. now apply covers_discard_exact.
Qed.

Lemma covers_discard_offsets_loop n name : forall total,
  covers (offsets_loop n (str name) total) (discard_offsets_loop n name total).
Proof.
  induction n as [|n IH]; intros total; [apply covers_ret|].
  split; [apply advances_offsets_loop|]. intros buf pos a pos' Hpos Hbuf H.
  cbn [offsets_loop] in H. apply parser_bind_inv in H as (o & p1 & H1 & H).
  apply read_u64_le_ok in H1 as [H1 Hp]; try assumption. inj.
  apply parser_bind_inv in H as (t & p2 & H2 & H). apply parser_lift_inv in H2 as [H2 ->].
  cbn [discard_offsets_loop]. rewrite run_bind, run_read_exact, blen_drop by lia.
  destruct (Z.leb_spec 8 (blen buf - pos)); [|lia]. rewrite run_bind, run_lift, take_drop_slice, H2.
  rewrite drop_drop by lia. replace (8 + pos) with (pos + 8) by lia. apply IH in H; auto. lia.
Qed.

Lemma covers_discard_array name inner inner' rows :
  0 <= rows -> (forall n, 0 <= n -> covers (inner' n) (inner n)) -> parser_eq (inner' 0) (ret tt) ->
  covers (array_of (str name) inner' rows) (discard_array name inner rows).
Proof.
  intros Hr Hi H0. apply (covers_bind_if (fun t => 0 <= t)).
  - split; [now apply advances_skip_offsets|]. intros buf pos a pos' Hpos Hbuf H.
    apply covers_discard_offsets_loop; auto. rewrite offsets_loop_ok by assumption.
    apply skip_offsets_ok in H as (_ & t & H & ? & ?); try assumption. inj.
    rewrite Z2Nat.id by assumption. rewrite (Z.mul_comm 8 rows). eauto.
  - intros buf pos t pos'. apply skip_offsets_nonneg.
  - apply advances_array_of; [assumption|]. intros n Hn. now apply Hi.
  - intros t Ht. destruct (Z.ltb_spec 0 t) as [|Hle]; [now apply Hi|]. replace t with 0 by lia.
    destruct (Hi 0 ltac:(lia)) as [Ha Hc]. split; [apply advances_ret|].
    intros buf pos a pos' Hpos Hbuf H. rewrite <- H0 in H. now apply Hc.
Qed.

(** The two header checks of LowCardinality are the same. *)
Lemma lc_column_inv dict rows buf pos pos' :
  0 <= rows -> (forall n, 0 <= n -> advances (dict n)) ->
  0 <= pos <= blen buf -> blen buf <= ISIZE_MAX -> lc_column dict rows buf pos = Ok (tt, pos') ->
  exists width keys p1,
    lc_header (slice buf pos (pos + 24)) = Ok (width, keys) /\ pos + 24 <= p1 /\ p1 + 8 <= blen buf /\
    (if 0 <? keys then dict keys else ret tt) buf (pos + 24) = Ok (tt, p1) /\
    lc_index_count (slice buf p1 (p1 + 8)) rows = Ok rows /\
    0 <= keys /\ 1 <= width /\ rows * width <= MAX_COLUMN_BYTES /\
    pos' = p1 + 8 + rows * width /\ pos' <= blen buf.
Proof.
  intros Hr Hd Hpos Hbuf H. unfold lc_column in H.
  apply parser_bind_inv in H as (meta & p1 & H1 & H). apply takes_parse_bytes in H1 as [H1 Hp1]; try lia. inj.
  set (meta := slice buf pos (pos + 24)) in *.
  apply parser_bind_inv in H as (w & p1 & Hw & H). apply parser_lift_inv in Hw as [Hw ->].
  apply parser_bind_inv in H as (k & p1 & Hk & H). apply parser_lift_inv in Hk as [Hk ->].
  assert (0 <= k) as Hk0.
  { pose proof (from_le_bound (slice meta 16 24)). apply map_err_inv in Hk.
    apply checked_count_inv in Hk as [-> _]; [lia|split; discriminate]. }
  apply parser_bind_inv in H as ([] & p1 & Hdict & H).
  assert (pos + 24 <= p1 <= blen buf) as Hp2.
  { destruct (Z.ltb_spec 0 k); [eapply Hd; [exact Hk0| |exact Hdict]; lia|cbn in Hdict; inj; lia]. }
  apply parser_bind_inv in H as (c & p2 & Hc & H). apply takes_parse_bytes in Hc as [Hc Hp3]; try lia. inj.
  apply parser_bind_inv in H as (i & p2 & Hi & H). apply parser_lift_inv in Hi as [Hi ->].
  destruct (Z.eqb_spec i rows) as [->|]; [|discriminate H]. cbn [negb] in H.
  pose proof (lc_idx_width_pos _ _ _ Hw) as Hwpos.
  apply parser_bind_inv in H as (n & p2 & Hn & H). apply parser_lift_inv in Hn as [Hn ->].
  apply checked_len_inv in Hn as [-> Hcap]. apply advance_pos_ok in H as [H Hend]; try nia. inj.
  exists w, k, p1. unfold lc_header, lc_index_count. fold meta.
  rewrite Hw. cbn [bind result_monad]. rewrite Hk.
  change (checked_usize (from_le (slice buf p1 (p1 + 8))) "LowCardinality indexes" = Ok rows) in Hi.
  rewrite Hi. cbn [bind result_monad].
  rewrite Z.eqb_refl. repeat split; auto; lia.
Qed.

Lemma covers_lc_column dict dict' rows :
  0 < rows -> (forall n, 0 <= n -> covers (dict n) (dict' n)) ->
  (forall l, run (dict' 0) l = Ok (tt, l)) ->
  covers (lc_column dict rows) (discard_low_cardinality dict' rows).
Proof.
  intros Hr Hd H0.
  assert (forall n, 0 <= n -> advances (dict n)) as Hadv by (intros; now apply Hd).
  split; [now apply advances_lc_column; [lia|]|].
  intros buf pos [] pos' Hpos Hbuf H.
  apply lc_column_inv in H as (w & k & p1 & Hh & Hp1 & Hp1' & Hdict & Hc & Hk & Hw & Hcap & -> & Hend);
    try assumption; [|lia].
  unfold discard_low_cardinality, zero_rows_r. destruct (Z.eqb_spec rows 0); [lia|].
  rewrite run_bind, run_read_exact, blen_drop, take_drop_slice, drop_drop by lia.
  destruct (Z.leb_spec 24 (blen buf - pos)); [|lia].
  rewrite run_bind, run_lift, Hh. replace (24 + pos) with (pos + 24) by lia.
  assert (run (dict' k) (drop (pos + 24) buf) = Ok (tt, drop p1 buf)) as Hd'.
  { destruct (Z.ltb_spec 0 k); [apply Hd; auto; lia|]. replace k with 0 by lia. rewrite H0.
    cbn in Hdict. now inj. }
  rewrite (run_bind_ok _ _ _ _ _ Hd').
  rewrite run_bind, run_read_exact, blen_drop, take_drop_slice, drop_drop by lia.
  destruct (Z.leb_spec 8 (blen buf - p1)); [|lia]. rewrite run_bind, run_lift, Hc.
  unfold discard_fixed. rewrite run_bind, run_lift.
  rewrite (proj2 (column_len_checked rows w _ (rows * w)) (checked_len_ok _ _ Hcap)).
  rewrite run_discard_exact by (rewrite blen_drop; nia). rewrite drop_drop by nia.
  now replace (rows * w + (8 + p1)) with (p1 + 8 + rows * w) by lia.
Qed.

(** The types [discard_column_data] supports. *)
Fixpoint discardable (ct : ColumnType) : bool :=
  match ct with
  | Nothing | Other _ | Variant _ | Dynamic => false
  | Nullable t | Array t | LowCardinality t => discardable t
  | TMap k v => discardable k && discardable v
  | Tuple ts => forallb discardable ts
  | _ => true
  end.

Lemma discard_zero ct l : run (discard_column_data ct 0) l = Ok (tt, l).
Proof. now destruct ct. Qed.

Lemma covers_discard_simple ct rows :
  wf_type ct = true -> discardable ct = true -> 0 <= rows ->
  match ct with
  | Nullable _ | Array _ | TMap _ _ | Tuple _ | LowCardinality _ | Point | Ring | Polygon
  | MultiPolygon | JSON => True
  | _ => covers (skip_simple ct rows) (discard_simple ct rows)
  end.
Proof.
  intros Hwf Hv Hr. destruct ct; try exact I; try discriminate Hv;
    cbn [discard_simple skip_simple wf_type] in *; try (now apply covers_discard_exact);
    try (apply covers_discard_fixed; lia); try apply covers_discard_string_rows; try apply covers_throw.
  repeat apply covers_if; try (apply covers_discard_fixed; lia). apply covers_throw.
Qed.

Lemma covers_point rows : 0 <= rows -> covers (skip_point rows) (discard_point rows).
Proof. intros. apply covers_zero_rows. intros _. apply covers_bind; intros; apply covers_discard_fixed; lia. Qed.

Lemma covers_ring rows : 0 <= rows -> covers (skip_ring rows) (discard_ring rows).
Proof.
  intros. apply covers_zero_rows. intros _.
  apply (covers_discard_array "array offset"); [assumption|apply covers_point|reflexivity].
Qed.

Lemma covers_polygon rows : 0 <= rows -> covers (skip_polygon rows) (discard_polygon rows).
Proof.
  intros. apply covers_zero_rows. intros _.
  apply (covers_discard_array "array offset"); [assumption|apply covers_ring|reflexivity].
Qed.

Lemma covers_u64 {A} name (f : Z -> parser A) (g : Z -> reader A) :
  (forall v, covers (f v) (g v)) ->
  covers (let* v := read_u64_le name in f v) (let* bs := read_exact_r 8 in g (from_le bs)).
Proof.
  intros Hf. split; [apply advances_bind; [advances|intros v; apply Hf]|].
  intros buf pos a pos' Hpos Hbuf H. apply parser_bind_inv in H as (v & p1 & H1 & H).
  apply read_u64_le_ok in H1 as [H1 Hp]; try assumption. inj.
  rewrite run_bind, run_read_exact, blen_drop, take_drop_slice, drop_drop by lia.
  destruct (Z.leb_spec 8 (blen buf - pos)); [|lia]. replace (8 + pos) with (pos + 8) by lia.
  apply Hf in H; auto. lia.
Qed.

Lemma covers_json rows : covers (skip_materialized_json rows) (discard_json rows).
Proof.
  apply (covers_u64 _
    (fun v => if negb (v =? 1) && negb (v =? 4) then throw (json_version_error v)
              else skip_string_rows rows (str "JSON string length"))
    (fun v => if negb (v =? 1) && negb (v =? 4) then throw (json_version_error v)
              else discard_string_rows rows "JSON string length")).
  intros v. apply covers_if; [apply covers_throw|apply covers_discard_string_rows].
Qed.

Lemma covers_bodies rows dyn ts :
  Forall (fun t => covers (skip_body_raw_with dyn t SNone rows) (discard_column_data t rows)) ts ->
  covers (for_each (bodies (skip_body_raw_with dyn) ts []) (fun body => body rows))
         (for_each ts (fun t => discard_column_data t rows)).
Proof.
  induction 1 as [|t ts Ht _ IH]; [apply covers_ret|]. cbn [bodies hd tl]. rewrite !for_each_cons.
  now apply covers_bind.
Qed.

(** The dictionary of a LowCardinality column, skipped raw and without state. *)
Lemma covers_raw dyn ct :
  wf_type ct = true -> discardable ct = true -> forall rows, 0 <= rows ->
  covers (skip_body_raw_with dyn ct SNone rows) (discard_column_data ct rows).
Proof.
  type_induction ct; cbn [wf_type discardable].
  - intros t IH Hwf Hd rows Hr. apply covers_zero_rows. intros _.
    apply covers_bind; [now apply covers_discard_exact|auto].
  - intros t IH Hwf Hd rows Hr. apply covers_zero_rows. intros _.
    apply (covers_discard_array "array offset"); auto. destruct t; reflexivity.
  - intros k v IHk IHv Hwf Hd rows Hr. apply andb_prop in Hwf as [? ?], Hd as [? ?].
    apply covers_zero_rows. intros _.
    apply (covers_discard_array "map offset" (fun n => discard_column_data k n ;; discard_column_data v n)
      (fun n => skip_body_raw_with dyn k SNone n ;; skip_body_raw_with dyn v SNone n)); [assumption| |].
    + intros n Hn. apply covers_bind; auto.
    + destruct k, v; reflexivity.
  - intros ts IH Hwf Hd rows Hr. apply covers_zero_rows. intros _. apply covers_bodies.
    rewrite forallb_forall in Hwf, Hd. rewrite Forall_forall in *. auto.
  - intros t IH Hwf Hd rows Hr. apply covers_zero_rows. intros Hr0.
    apply covers_lc_column; [lia|auto|apply discard_zero].
  - discriminate.
  - intros t. destruct t; try exact I; intros Hwf Hd rows Hr; try discriminate Hd;
      (apply covers_zero_rows; intros _);
      try exact (covers_discard_simple _ _ Hwf Hd Hr); try apply covers_throw.
    + apply covers_bind; intros; apply covers_discard_fixed; lia.
    + apply (covers_discard_array "array offset"); [assumption|apply covers_point|reflexivity].
    + apply (covers_discard_array "array offset"); [assumption|apply covers_ring|reflexivity].
    + apply (covers_discard_array "array offset"); [assumption|apply covers_polygon|reflexivity].
Qed.

Lemma covers_column ct :
  wf_type ct = true -> discardable ct = true -> forall rows, 0 <= rows ->
  covers (skip_column_data ct rows) (discard_column_data ct rows).
Proof.
  type_induction ct; cbn [wf_type discardable].
  - intros t IH Hwf Hd rows Hr. apply covers_zero_rows. intros _.
    apply covers_bind; [now apply covers_discard_exact|auto].
  - intros t IH Hwf Hd rows Hr. apply covers_zero_rows. intros _.
    apply (covers_discard_array "array offset"); auto. destruct t; reflexivity.
  - intros k v IHk IHv Hwf Hd rows Hr. apply andb_prop in Hwf as [? ?], Hd as [? ?].
    apply covers_zero_rows. intros _.
    apply (covers_discard_array "map offset" (fun n => discard_column_data k n ;; discard_column_data v n)
      (fun n => skip_column_data k n ;; skip_column_data v n)); [assumption| |].
    + intros n Hn. apply covers_bind; auto.
    + destruct k, v; reflexivity.
  - intros ts IH Hwf Hd rows Hr. apply covers_zero_rows. intros _. apply covers_for_each.
    rewrite forallb_forall in Hwf, Hd. rewrite Forall_forall in *. auto.
  - intros t _ Hwf Hd rows Hr. apply covers_zero_rows. intros Hr0.
    apply covers_lc_column; [lia|intros; now apply covers_raw|apply discard_zero].
  - discriminate.
  - intros t. destruct t; try exact I; intros Hwf Hd rows Hr; try discriminate Hd;
      (apply covers_zero_rows; intros _);
      try exact (covers_discard_simple _ _ Hwf Hd Hr); try apply covers_json.
    + apply covers_bind; intros; apply covers_discard_fixed; lia.
    + apply (covers_discard_array "array offset"); [assumption|apply covers_point|reflexivity].
    + apply (covers_discard_array "array offset"); [assumption|apply covers_ring|reflexivity].
    + apply (covers_discard_array "array offset"); [assumption|apply covers_polygon|reflexivity].
Qed.

(** Discarding a column from a stream consumes exactly the bytes the
    buffered parser skips for it, LowCardinality and JSON columns included. *)
Theorem discard_column_matches_skip (name : bytes) (ct : ColumnType) (rows : Z)
    (buf : bytes) (pos pos' : Z) :
  parse_type name = Ok ct -> discardable ct = true ->
  0 <= rows -> 0 <= pos <= blen buf -> blen buf <= ISIZE_MAX ->
  skip_column_data ct rows buf pos = Ok (tt, pos') ->
  run (discard_column_data ct rows) (drop pos buf) = Ok (tt, drop pos' buf).
Proof.
  intros Hp Hd Hr Hpos Hbuf. apply parse_type_wf in Hp.
  now apply covers_column.
Qed.

Lemma discard_column_matches_skip_witness :
  let ct := LowCardinality TString in
  let column := to_le 8 1 ++ to_le 8 512 ++ to_le 8 2 ++ [x00; x01; x61] ++ to_le 8 3 ++ [x01; x00; x01] in
  run (discard_column_data ct 3) (drop 0 (column ++ [x07])) = Ok (tt, [x07]).
Proof.
  intros ct column.
  apply (discard_column_matches_skip (str "LowCardinality(String)") ct 3 (column ++ [x07]) 0 (blen column));
    [reflexivity|reflexivity|lia|split; [lia|discriminate]|discriminate|reflexivity].
Defined.
