(* ===== verification/BlockReader.v ===== *)
(** * Blocks ([sync/protocol/response.rs], [shared/block.rs])

    A block body is read from a fully buffered response ([parse_block_body]),
    from a stream into owned columns ([read_block_body]) or into a borrowed view
    ([read_block_body_view]), or dropped ([discard_block_body]).  The streaming
    readers append all columns of a block to one arena and slice it at the end. *)

From Stdlib Require Import String ZArith Lia Bool List.
From Stdlib Require Import Strings.Byte.
From coqutil Require Import Byte.
From S2P Require Import Prelude Reader Limits Utf8 Wire TypeParser SkipColumn Arena ColumnReader Framing.
Import ListNotations.

Record ColumnInfo := mkColumnInfo {
  name : bytes;
  type_name : bytes;
  data : bytes;
  lc_materialized : bytes;
}.

Record Block := mkBlock { columns : list ColumnInfo; rows : Z }.

(** [BlockView] with its [ColumnView]s. *)
Record ColumnView := mkColumnView { view_name : bytes; view_type_name : bytes; view_data : bytes }.
Record BlockView := mkBlockView { view_columns : list ColumnView; view_rows : Z }.

Definition empty_block : Block := mkBlock [] 0.

(** ** BlockInfo

    Field numbers up to a zero (or an unknown number).  Every round reads at
    least one byte: [2 ^ 63] rounds are more than a stream can hold. *)
Fixpoint skip_block_info_fuel (fuel : nat) : parser unit :=
  match fuel with
  | O => throw ModelFuel
  | S fuel =>
      let* d := parse_varint in
      if d =? 0 then ret tt
      else if d =? 1 then advance_pos 1 ;; skip_block_info_fuel fuel
      else if d =? 2 then advance_pos 4 ;; skip_block_info_fuel fuel
      else if d =? 3 then parse_varint ;; skip_block_info_fuel fuel
      else ret tt
  end.

Definition skip_block_info : parser unit := fun buf pos =>
  skip_block_info_fuel (S (length buf)) buf pos.


Definition block_info_step (self : unit -> reader unit) (_ : unit) : reader unit :=
  let* d := read_varint in
  if d =? 0 then ret tt
  else if d =? 1 then read_exact_r 1 ;; self tt
  else if d =? 2 then read_exact_r 4 ;; self tt
  else if d =? 3 then read_varint ;; self tt
  else ret tt.

Definition skip_block_info_from_reader : reader unit :=
  deep STREAM_BITS block_info_step (fun _ => throw ModelFuel) tt.

(** ** Column types *)

(** The names [parse_column_type] recognizes before calling [parse_type]. *)
Definition fast_types : list (string * ColumnType) := [
  ("UInt8", UInt8); ("UInt16", UInt16); ("UInt32", UInt32); ("UInt64", UInt64);
  ("Int8", Int8); ("Int16", Int16); ("Int32", Int32); ("Int64", Int64);
  ("Float32", Float32); ("Float64", Float64); ("String", TString); ("Date", Date);
  ("DateTime", DateTime); ("UUID", UUID); ("Bool", TBool); ("IPv4", IPv4); ("IPv6", IPv6);
  ("Date32", Date32); ("UInt128", UInt128); ("UInt256", UInt256);
  ("Int128", Int128); ("Int256", Int256)]%string.

Definition parse_type_checked (type_name : bytes) : result error ColumnType :=
  map_err (fun e => Protocol (Msg "bad type '{type_name}': {e}" [AS type_name; AM e]))
          (parse_type type_name).

Definition parse_column_type (type_name : bytes) : result error ColumnType :=
  match lookup_type fast_types type_name with
  | Some ct => Ok ct
  | None => parse_type_checked type_name
  end.

(** ** Buffered blocks *)

Definition materialized_column_data_start (buf : bytes) (start : Z) (ct : ColumnType) (rows : Z)
  : result error Z :=
  if (0 <? rows) && contains_nested_json ct
  then Err (Protocol (Msg "nested JSON columns are not supported in buffered block reads (column type {ct})"
                          [AS (to_string ct)]))
  else
    match ct with
    | JSON =>
        if rows =? 0 then Ok start
        else
          let* end_ := ok_or (checked_add start 8) (Protocol (msg "JSON version offset overflow")) in
          if blen buf <? end_
          then Err (Protocol (msg "unexpected end of buffer parsing JSON version"))
          else Ok end_
    | _ => Ok start
    end.

Definition read_low_cardinality_from_buffer (inner : ColumnType) (rows : Z) : parser bytes :=
  if rows =? 0 then ret []
  else
    let* meta := parse_bytes 24 in
    let* (idx_width, num_keys) := lift (lc_header meta) in
    let* dict_start := get_pos in
    skip_column_data inner num_keys ;;
    let* dict_end := get_pos in
    let* dict_data := get_slice dict_start dict_end in
    let* count_bytes := parse_bytes 8 in
    let* indexes := lift (lc_index_count count_bytes rows) in
    let* index_len := lift (column_len indexes idx_width "LowCardinality index") in
    let* index_data := parse_bytes index_len in
    lift (materialize_low_cardinality_inner dict_data inner index_data idx_width indexes).

(** [materialized_column_data_start] reads the buffer at an earlier position. *)
Definition column_data_start (start : Z) (ct : ColumnType) (rows : Z) : parser Z := fun buf pos =>
  match materialized_column_data_start buf start ct rows with
  | Ok s => Ok (s, pos)
  | Err e => Err e
  end.

Definition parse_column_bytes (ct : ColumnType) (num_rows : Z) : parser bytes :=
  match ct with
  | LowCardinality inner => read_low_cardinality_from_buffer inner num_rows
  | _ =>
      let* col_start := get_pos in
      skip_column_data ct num_rows ;;
      let* col_end := get_pos in
      let* col_data_start := column_data_start col_start ct num_rows in
      get_slice col_data_start col_end
  end.

(** One column; [type_of] is [parse_type] in [parse_block_body] and
    [parse_column_type] in [parse_block_body_shared]. *)
Definition parse_column (type_of : bytes -> result error ColumnType) (num_rows : Z) : parser ColumnInfo :=
  let* name := parse_string in
  let* type_name := parse_string in
  parse_bytes 1 ;;
  let* ct := lift (type_of type_name) in
  let* data := parse_column_bytes ct num_rows in
  ret (mkColumnInfo name type_name data []).

Definition parse_block_body_with (type_of : bytes -> result error ColumnType) : parser Block :=
  skip_block_info ;;
  let* c := parse_varint in
  let* num_cols := lift (protocol (checked_count c (str "block column") MAX_BLOCK_COLUMNS)) in
  let* r := parse_varint in
  let* num_rows := lift (protocol (checked_count r (str "block row") MAX_BLOCK_ROWS)) in
  let* columns := collect_n (Z.to_nat num_cols) (parse_column type_of num_rows) in
  ret (mkBlock columns num_rows).

Definition parse_block_body : parser Block := parse_block_body_with parse_type_checked.
Definition parse_block_body_shared : parser Block := parse_block_body_with parse_column_type.

Definition parse_block : parser Block := parse_string ;; parse_block_body.
Definition parse_block_shared : parser Block := parse_string ;; parse_block_body_shared.

(** ** Streamed blocks *)

(** The columns and rows of a block header. *)
Definition read_block_counts : reader (Z * Z) :=
  skip_block_info_from_reader ;;
  let* c := read_varint in
  let* num_cols := lift (protocol (checked_count c (str "block column") MAX_BLOCK_COLUMNS)) in
  let* r := read_varint in
  let* num_rows := lift (protocol (checked_count r (str "block row") MAX_BLOCK_ROWS)) in
  ret (num_cols, num_rows).

(** Name, type name and the custom serialization byte, which must be zero. *)
Definition read_column_header : reader (bytes * bytes * ColumnType) :=
  let* name := read_string in
  let* type_name := read_string_unchecked in
  let* custom_serialization := read_exact_r 1 in
  if negb (byte0 custom_serialization =? 0)
  then throw (Protocol (Msg "unsupported custom serialization for column '{name}'" [AS name]))
  else
    let* ct := lift (parse_column_type type_name) in
    ret (name, type_name, ct).

(** [PendingColumn]: the range of the arena that holds the column. *)
Record PendingColumn := mkPending { p_name : bytes; p_type_name : bytes; p_start : Z; p_end : Z }.

Fixpoint read_pending (n : nat) (num_rows : Z) (arena : bytes) : reader (list PendingColumn * bytes) :=
  match n with
  | O => ret ([], arena)
  | S n =>
      let* (name, type_name, ct) := read_column_header in
      let start := blen arena in
      let* (_, arena, _) := read_column_data_into ct num_rows arena MAX_COLUMN_BYTES in
      let end_ := blen arena in
      let* (pending, arena) := read_pending n num_rows arena in
      ret (mkPending name type_name start end_ :: pending, arena)
  end.

Definition read_block_body : reader Block :=
  let* (num_cols, num_rows) := read_block_counts in
  if (num_cols =? 0) && (num_rows =? 0) then ret empty_block
  else
    let* (pending, shared) := read_pending (Z.to_nat num_cols) num_rows [] in
    ret (mkBlock (map (fun col => mkColumnInfo (p_name col) (p_type_name col)
                                    (slice shared (p_start col) (p_end col)) []) pending) num_rows).

Definition read_block : reader Block := read_string ;; read_block_body.

Definition read_block_body_view (visitor : BlockView -> result error unit) : reader unit :=
  let* (num_cols, num_rows) := read_block_counts in
  if (num_cols =? 0) && (num_rows =? 0) then lift (visitor (mkBlockView [] 0))
  else
    let* (pending, arena) := read_pending (Z.to_nat num_cols) num_rows [] in
    lift (visitor (mkBlockView (map (fun col => mkColumnView (p_name col) (p_type_name col)
                                       (slice arena (p_start col) (p_end col))) pending) num_rows)).

Definition read_block_view (visitor : BlockView -> result error unit) : reader unit :=
  read_string ;; read_block_body_view visitor.

Definition discard_block_body : reader Z :=
  let* (num_cols, num_rows) := read_block_counts in
  repeat_n (Z.to_nat num_cols)
    (let* (name, type_name, ct) := read_column_header in discard_column_data ct num_rows) ;;
  ret num_rows.

Definition discard_block : reader Z := read_string ;; discard_block_body.

(** ** The fast path for type names *)

Lemma lookup_type_in l n ct :
  lookup_type l n = Some ct -> exists s, In (s, ct) l /\ n = str s.
Proof.
  induction l as [|[s c] l IH]; [discriminate|]. cbn [lookup_type].
  destruct (bytes_eqb_spec n (str s)) as [->|_].
  - intros. inj. exists s. split; [now left|reflexivity].
  - intros H. apply IH in H as (s' & Hs & ->). exists s'. split; [now right|reflexivity].
Qed.

Lemma parse_column_type_checked n : parse_column_type n = parse_type_checked n.
Proof.
  unfold parse_column_type. destruct (lookup_type fast_types n) as [ct|] eqn:E; [|reflexivity].
  apply lookup_type_in in E as (s & Hs & ->).
  assert (Forall (fun e => Ok (snd e) = parse_type_checked (str (fst e))) fast_types) as Hall
    by (repeat (apply Forall_cons; [reflexivity|]); apply Forall_nil).
  rewrite Forall_forall in Hall. exact (Hall _ Hs).
Qed.

(** ** BlockInfo: the two loops agree *)

(** [agrees] at one position. *)
Definition agrees_at {A} (p : parser A) (m : reader A) (buf : bytes) (pos : Z) : Prop :=
  match run m (drop pos buf) with
  | Ok (a, rest) =>
      exists pos', p buf pos = Ok (a, pos') /\ pos <= pos' <= blen buf /\ rest = drop pos' buf
  | Err _ => exists e, p buf pos = Err e
  end.

Lemma agrees_at_bind {A B} (p : parser A) (m : reader A) (f : A -> parser B) (g : A -> reader B) buf pos :
  agrees_at p m buf pos ->
  (forall a pos', p buf pos = Ok (a, pos') -> pos <= pos' <= blen buf -> agrees_at (f a) (g a) buf pos') ->
  agrees_at (bind p f) (bind m g) buf pos.
Proof.
  intros Hp Hf. unfold agrees_at in *. rewrite run_bind.
  destruct (run m (drop pos buf)) as [[a rest]|e].
  - destruct Hp as (p1 & E & Hp1 & ->). specialize (Hf a p1 E Hp1).
    rewrite (parser_bind_ok _ _ _ _ _ _ E). destruct (run (g a) (drop p1 buf)) as [[b rest']|e']; [|assumption].
    destruct Hf as (p2 & ? & ? & ?). exists p2. repeat split; auto; lia.
  - destruct Hp as [e' E]. exists e'. cbn. now rewrite E.
Qed.

Lemma agrees_advance n : 0 <= n -> agrees (advance_pos n) (read_exact_r n ;; ret tt).
Proof.
  intros Hn buf pos Hpos Hbuf. rewrite run_bind, run_read_exact, blen_drop by lia.
  destruct (Z.leb_spec n (blen buf - pos)).
  - exists (pos + n). rewrite advance_pos_ok, drop_drop by lia.
    replace (n + pos) with (pos + n) by lia. repeat split; auto; lia.
  - destruct (advance_pos n buf pos) as [r|e] eqn:E; [|eauto].
    apply advance_pos_ok in E; lia.
Qed.

Lemma skip_block_info_agrees_at n :
  0 <= n -> forall self : unit -> reader unit,
  (forall fuel buf pos, 0 <= pos <= blen buf -> blen buf <= ISIZE_MAX ->
     blen buf - pos < n -> blen buf - pos < Z.of_nat fuel ->
     agrees_at (skip_block_info_fuel fuel) (self tt) buf pos) ->
  forall fuel buf pos, 0 <= pos <= blen buf -> blen buf <= ISIZE_MAX ->
  blen buf - pos < n + 1 -> blen buf - pos < Z.of_nat fuel ->
  agrees_at (skip_block_info_fuel fuel) (block_info_step self tt) buf pos.
Proof.
  intros Hn self Hself fuel buf pos Hpos Hbuf Hl Hf. destruct fuel as [|fuel]; [lia|].
  cbn [skip_block_info_fuel block_info_step]. unfold block_info_step.
  apply agrees_at_bind; [now apply agrees_parse_varint|]. intros d p1 E Hp1.
  apply parse_varint_progress in E; [|assumption].
  assert (forall (p : parser unit) (m : reader unit), agrees p m ->
    agrees_at (p ;; skip_block_info_fuel fuel) (m ;; self tt) buf p1) as Hrest.
  { intros p m Ha. apply agrees_at_bind; [now apply Ha; [lia|]|]. intros _ p2 _ Hp2.
    apply Hself; lia. }
  assert (forall k, 0 <= k -> agrees_at (advance_pos k ;; skip_block_info_fuel fuel)
                                        (read_exact_r k ;; self tt) buf p1) as Hadv.
  { intros k Hk. pose proof (Hrest _ _ (agrees_advance k Hk)) as H.
    unfold agrees_at in *. rewrite !run_bind in *.
    now destruct (run (read_exact_r k) (drop p1 buf)) as [[? ?]|?]. }
  destruct (d =? 0); [apply agrees_ret; [lia|assumption]|].
  destruct (d =? 1); [apply Hadv; lia|]. destruct (d =? 2); [apply Hadv; lia|].
  destruct (d =? 3); [|apply agrees_ret; [lia|assumption]].
  apply agrees_at_bind; [apply agrees_parse_varint; [lia|assumption]|]. intros v p2 _ Hp2.
  apply Hself; lia.
Qed.

Lemma deep_block_info_agrees_at h bottom fuel buf pos :
  0 <= pos <= blen buf -> blen buf <= ISIZE_MAX ->
  blen buf - pos < 2 ^ Z.of_nat h -> blen buf - pos < Z.of_nat fuel ->
  agrees_at (skip_block_info_fuel fuel) (deep h block_info_step bottom tt) buf pos.
Proof.
  pose proof (deep_ind block_info_step (fun n f => 0 <= n /\
    forall fuel buf pos, 0 <= pos <= blen buf -> blen buf <= ISIZE_MAX ->
     blen buf - pos < n -> blen buf - pos < Z.of_nat fuel ->
     agrees_at (skip_block_info_fuel fuel) (f tt) buf pos)) as H.
  intros Hpos Hbuf Hh Hf. eapply H; [| |exact Hpos|exact Hbuf|rewrite Z.add_0_l; exact Hh|exact Hf].
  - intros n f [Hn Hself]. split; [lia|]. intros. now apply (skip_block_info_agrees_at n).
  - split; [lia|]. intros. lia.
Qed.

Lemma deep_block_info_agrees h bottom :
  ISIZE_MAX < 2 ^ Z.of_nat h -> agrees skip_block_info (deep h block_info_step bottom tt).
Proof.
  intros Hh buf pos Hpos Hbuf. apply deep_block_info_agrees_at; auto; [lia|]. unfold blen in *. lia.
Qed.

Lemma skip_block_info_from_reader_unfold :
  skip_block_info_from_reader = deep STREAM_BITS block_info_step (fun _ => throw ModelFuel) tt.
Proof. reflexivity. Qed.

Lemma agrees_skip_block_info : agrees skip_block_info skip_block_info_from_reader.
Proof. rewrite skip_block_info_from_reader_unfold. apply deep_block_info_agrees. reflexivity. Qed.

(** ** One column, streamed and buffered *)

(** The types the streaming and the buffered reader decode alike. *)
Definition streamable (ct : ColumnType) : bool :=
  match ct with
  | JSON => true
  | LowCardinality inner => verbatim inner
  | _ => verbatim ct
  end.

Lemma run_unrecorded_read_inv n d b buf pos r :
  0 <= n -> 0 <= pos <= blen buf ->
  run (unrecorded (read_exact_r n) d b) (drop pos buf) = Ok r ->
  pos + n <= blen buf /\ r = ((slice buf pos (pos + n), d, b), drop (pos + n) buf).
Proof.
  intros Hn Hpos. rewrite run_unrecorded, run_read_exact, blen_drop, take_drop_slice, drop_drop by lia.
  destruct (Z.leb_spec n (blen buf - pos)); [|discriminate]. intros H'. inj.
  replace (n + pos) with (pos + n) by lia. split; [lia|reflexivity].
Qed.

Lemma run_arena_lift_inv {A} (r : result error A) d b l q :
  run (lift (M := arena) r d b) l = Ok q -> exists a, r = Ok a /\ q = ((a, d, b), l).
Proof. destruct r as [a|e]; cbn; intros; inj; eauto. Qed.

Lemma nested_json_verbatim ct nested : verbatim ct = true -> nested_json_below ct nested = false.
Proof.
  assert (forall t n, raw_static t = true -> nested_json_below t n = false) as Hraw.
  { intros t. type_induction t; cbn [raw_static nested_json_below]; auto; try discriminate.
    - intros k v Hk Hv n H. apply andb_prop in H as [? ?]. now rewrite Hk, Hv.
    - intros ts H n Hs. rewrite forallb_forall in Hs. rewrite Forall_forall in H.
      apply not_true_iff_false. intros E. apply existsb_exists in E as (t & Ht & E).
      rewrite H in E; auto; discriminate.
    - intros ts H n Hs. rewrite forallb_forall in Hs. rewrite Forall_forall in H.
      apply not_true_iff_false. intros E. apply existsb_exists in E as (t & Ht & E).
      rewrite H in E; auto; discriminate.
    - intros t. destruct t; try exact I; intros; try discriminate; reflexivity. }
  revert nested. type_induction ct; cbn [verbatim nested_json_below]; auto; try discriminate.
  - intros k v Hk Hv n H. apply andb_prop in H as [? ?]. now rewrite Hk, Hv.
  - intros ts H n Hs. rewrite forallb_forall in Hs. rewrite Forall_forall in H.
    apply not_true_iff_false. intros E. apply existsb_exists in E as (t & Ht & E).
    rewrite H in E; auto; discriminate.
  - intros ts _ n Hs. rewrite forallb_forall in Hs.
    apply not_true_iff_false. intros E. apply existsb_exists in E as (t & Ht & E).
    rewrite Hraw in E; auto; discriminate.
  - intros t. destruct t; try exact I; intros; try discriminate; reflexivity.
Qed.

(** What the buffered parser returns for a column. *)
Definition column_agrees (ct : ColumnType) (n : Z) (arena : bytes) (buf : bytes) (pos : Z)
    (arena' rest : bytes) : Prop :=
  exists bs pos', parse_column_bytes ct n buf pos = Ok (bs, pos') /\ pos <= pos' <= blen buf /\
    rest = drop pos' buf /\ arena' = arena ++ bs.

Lemma column_agrees_verbatim ct n arena budget' buf pos arena' rest :
  wf_type ct = true -> verbatim ct = true -> (nesting ct <= MAX_TYPE_NESTING)%nat -> 0 <= n ->
  0 <= pos <= blen buf -> blen buf <= ISIZE_MAX ->
  run (read_column_data_into ct n arena MAX_COLUMN_BYTES) (drop pos buf)
    = Ok ((tt, arena', budget'), rest) ->
  column_agrees ct n arena buf pos arena' rest.
Proof.
  intros Hwf Hv Hn Hr Hpos Hbuf H.
  pose proof (records_column ct Hwf Hv Hn n Hr) as [Hadv Hrec _].
  apply Hrec in H as (pos' & E & -> & -> & _ & _); try assumption;
    [|unfold MAX_COLUMN_BYTES; lia].
  exists (slice buf pos pos'), pos'. split; [|repeat split; auto; eapply Hadv; eauto].
  assert (materialized_column_data_start buf pos ct n = Ok pos) as Hstart.
  { unfold materialized_column_data_start, contains_nested_json.
    rewrite nested_json_verbatim, andb_false_r by assumption. now destruct ct. }
  unfold parse_column_bytes. destruct ct; try discriminate Hv; cbn [bind parser_monad];
    unfold get_pos; rewrite E; unfold column_data_start; rewrite Hstart; reflexivity.
Qed.

Lemma column_agrees_json n arena budget' buf pos arena' rest :
  0 <= n -> 0 <= pos <= blen buf -> blen buf <= ISIZE_MAX ->
  run (read_column_data_into JSON n arena MAX_COLUMN_BYTES) (drop pos buf)
    = Ok ((tt, arena', budget'), rest) ->
  column_agrees JSON n arena buf pos arena' rest.
Proof.
  intros Hr Hpos Hbuf H. cbn [read_column_data_into] in H.
  unfold zero_rows in H. destruct (Z.eqb_spec n 0) as [->|Hn].
  { cbn in H. inj. exists [], pos. rewrite app_nil_r. split; [|repeat split; auto; lia].
    unfold parse_column_bytes. cbn. unfold get_pos, column_data_start, materialized_column_data_start. cbn.
    unfold get_slice. now rewrite slice_nil. }
  unfold read_json_into in H. apply run_arena_bind_inv in H as (v & d1 & b1 & l1 & H1 & H).
  apply run_unrecorded_read_inv in H1 as [Hle H1]; try lia. inj.
  destruct (negb _ && negb _) eqn:Hv; [discriminate H|].
  pose proof (records_string_rows n "JSON string length" (str "JSON string length")) as [Hadv Hrec _].
  apply Hrec in H as (pos' & E & -> & -> & _ & _); try lia; [|unfold MAX_COLUMN_BYTES; lia].
  exists (slice buf (pos + 8) pos'), pos'.
  assert (pos + 8 <= pos' <= blen buf) as Hpos' by (eapply Hadv; [|exact E]; lia).
  split; [|repeat split; auto; lia].
  assert (skip_column_data JSON n buf pos = Ok (tt, pos')) as Hskip.
  { cbn [skip_column_data]. unfold nonzero. destruct (Z.eqb_spec n 0); [lia|].
    unfold skip_materialized_json.
    erewrite parser_bind_ok by (apply read_u64_le_ok; [assumption..|split; [reflexivity|lia]]).
    rewrite Hv. exact E. }
  assert (materialized_column_data_start buf pos JSON n = Ok (pos + 8)) as Hstart.
  { unfold materialized_column_data_start. cbn [contains_nested_json nested_json_below].
    rewrite andb_false_r. destruct (Z.eqb_spec n 0); [lia|]. unfold checked_add.
    destruct (Z.leb_spec (pos + 8) USIZE_MAX); [|unfold ISIZE_MAX, USIZE_MAX in *; lia].
    cbn. now destruct (Z.ltb_spec (blen buf) (pos + 8)); [lia|]. }
  unfold parse_column_bytes. cbn [bind parser_monad]. unfold get_pos. rewrite Hskip.
  unfold column_data_start. rewrite Hstart. reflexivity.
Qed.

Lemma lc_header_inv meta w k : lc_header meta = Ok (w, k) -> 1 <= w <= 8 /\ 0 <= k.
Proof.
  unfold lc_header. intros H. apply result_bind_inv in H as (w' & Hw & H).
  apply result_bind_inv in H as (k' & Hk & H). inj. apply lc_idx_width_pos in Hw. split; [assumption|].
  apply map_err_inv in Hk. pose proof (from_le_bound (slice meta 16 24)).
  apply checked_count_inv in Hk as [-> _]; [lia|split; discriminate].
Qed.

Lemma lc_index_count_inv bs n i : lc_index_count bs n = Ok i -> i = n.
Proof.
  unfold lc_index_count. intros H. apply result_bind_inv in H as (j & _ & H).
  destruct (Z.eqb_spec j n); cbn in H; now inj.
Qed.

Lemma column_agrees_lc inner n arena budget' buf pos arena' rest :
  wf_type inner = true -> verbatim inner = true -> (nesting inner <= MAX_TYPE_NESTING)%nat -> 0 <= n ->
  0 <= pos <= blen buf -> blen buf <= ISIZE_MAX ->
  run (read_column_data_into (LowCardinality inner) n arena MAX_COLUMN_BYTES) (drop pos buf)
    = Ok ((tt, arena', budget'), rest) ->
  column_agrees (LowCardinality inner) n arena buf pos arena' rest.
Proof.
  intros Hwf Hv Hn Hr Hpos Hbuf H. unfold column_agrees, parse_column_bytes.
  cbn [read_column_data_into] in H. unfold zero_rows in H. unfold read_low_cardinality_from_buffer.
  destruct (Z.eqb_spec n 0) as [->|Hn0].
  { cbn in H. inj. exists [], pos. rewrite app_nil_r. repeat split; auto; lia. }
  unfold read_low_cardinality_into in H.
  apply run_arena_bind_inv in H as (meta & e1 & f1 & g1 & H1 & H).
  apply run_unrecorded_read_inv in H1 as [Hle1 H1]; try lia. inj.
  apply run_arena_bind_inv in H as ([w k] & e2 & f2 & g2 & H1 & H).
  apply run_arena_lift_inv in H1 as (wk & Hh & H1). inj.
  pose proof (lc_header_inv _ _ _ Hh) as [Hw Hk].
  apply run_arena_bind_inv in H as ([u dict] & e3 & f3 & g3 & H1 & H).
  unfold with_arena in H1. change (rbind ?m ?f) with (bind m f) in H1.
  apply run_bind_inv in H1 as ([[u' dict'] b'] & l' & Hdict & H1). cbn in H1. inj. destruct u.
  pose proof (records_column inner Hwf Hv Hn k Hk) as [Hadv Hrec _].
  apply Hrec in Hdict as (p1 & E1 & -> & -> & _ & _); try lia;
    [|unfold MAX_COLUMN_BYTES; lia].
  assert (pos + 24 <= p1 <= blen buf) as Hp1 by (eapply Hadv; [|exact E1]; lia).
  apply run_arena_bind_inv in H as (count & e4 & f4 & g4 & H1 & H).
  apply run_unrecorded_read_inv in H1 as [Hle2 H1]; try lia. inj.
  apply run_arena_bind_inv in H as (i & e5 & f5 & g5 & H1 & H).
  apply run_arena_lift_inv in H1 as (i' & Hi & H1). inj. pose proof (lc_index_count_inv _ _ _ Hi) as ->.
  apply run_arena_bind_inv in H as (len & e6 & f6 & g6 & H1 & H).
  apply run_arena_lift_inv in H1 as (len' & Hlen & H1). inj.
  pose proof (proj1 (column_len_checked _ _ _ _) Hlen) as Hlen'. apply checked_len_inv in Hlen' as [-> _].
  apply run_arena_bind_inv in H as (u & e7 & f7 & g7 & H1 & H).
  apply run_charge_budget in H1 as [_ H1]. inj.
  apply run_arena_bind_inv in H as (idx & e8 & f8 & g8 & H1 & H).
  apply run_unrecorded_read_inv in H1 as [Hle3 H1]; try nia. inj.
  apply run_arena_bind_inv in H as (out & e9 & f9 & g9 & H1 & H).
  apply run_arena_lift_inv in H1 as (out' & Hout & H1). inj. rewrite run_append in H. inj.
  exists out', (p1 + 8 + n * w). split; [|repeat split; auto; nia].
  erewrite parser_bind_ok by (apply takes_parse_bytes; [lia|assumption..|split; [reflexivity|lia]]).
  erewrite parser_bind_ok by (rewrite Hh; reflexivity).
  cbv beta iota. erewrite parser_bind_ok by reflexivity. erewrite parser_bind_ok by exact E1.
  erewrite parser_bind_ok by reflexivity. erewrite parser_bind_ok by reflexivity.
  erewrite parser_bind_ok by (apply takes_parse_bytes; [lia|lia|assumption|split; [reflexivity|lia]]).
  erewrite parser_bind_ok by (rewrite Hi; reflexivity).
  erewrite parser_bind_ok by (rewrite Hlen; reflexivity).
  erewrite parser_bind_ok by (apply takes_parse_bytes; [nia|lia|assumption|split; [reflexivity|lia]]).
  cbn [app] in Hout. now rewrite Hout.
Qed.

Lemma column_agrees_streamable ct n arena budget' buf pos arena' rest :
  wf_type ct = true -> streamable ct = true -> (nesting ct <= MAX_TYPE_NESTING)%nat -> 0 <= n ->
  0 <= pos <= blen buf -> blen buf <= ISIZE_MAX ->
  run (read_column_data_into ct n arena MAX_COLUMN_BYTES) (drop pos buf)
    = Ok ((tt, arena', budget'), rest) ->
  column_agrees ct n arena buf pos arena' rest.
Proof.
  intros Hwf Hs Hn Hr Hpos Hbuf H. destruct ct;
    try (eapply column_agrees_verbatim; eassumption); try discriminate Hs.
  - eapply column_agrees_lc; try eassumption. cbn [nesting] in Hn. lia.
  - eapply column_agrees_json; eassumption.
Qed.

(** ** A block, streamed and buffered *)

Lemma agrees_ok {A} (p : parser A) (m : reader A) buf pos a rest :
  agrees p m -> 0 <= pos <= blen buf -> blen buf <= ISIZE_MAX -> run m (drop pos buf) = Ok (a, rest) ->
  exists pos', p buf pos = Ok (a, pos') /\ pos <= pos' <= blen buf /\ rest = drop pos' buf.
Proof. intros H Hpos Hbuf E. specialize (H buf pos Hpos Hbuf). now rewrite E in H. Qed.

(** The header of a block: BlockInfo, column count, row count. *)
Definition parse_block_counts : parser (Z * Z) :=
  skip_block_info ;;
  let* c := parse_varint in
  let* num_cols := lift (protocol (checked_count c (str "block column") MAX_BLOCK_COLUMNS)) in
  let* r := parse_varint in
  let* num_rows := lift (protocol (checked_count r (str "block row") MAX_BLOCK_ROWS)) in
  ret (num_cols, num_rows).

Lemma agrees_block_counts : agrees parse_block_counts read_block_counts.
Proof.
  unfold parse_block_counts, read_block_counts.
  apply agrees_bind; [exact agrees_skip_block_info|intros _].
  apply agrees_bind; [exact agrees_parse_varint|intros c]. apply agrees_bind; [apply agrees_lift|intros nc].
  apply agrees_bind; [exact agrees_parse_varint|intros r]. apply agrees_bind; [apply agrees_lift|intros nr].
  apply agrees_ret.
Qed.

Lemma parse_block_body_counts type_of buf pos :
  parse_block_body_with type_of buf pos =
  bind parse_block_counts (fun '(num_cols, num_rows) =>
    let* columns := collect_n (Z.to_nat num_cols) (parse_column type_of num_rows) in
    ret (mkBlock columns num_rows)) buf pos.
Proof.
  unfold parse_block_body_with, parse_block_counts. cbn [bind parser_monad].
  destruct (skip_block_info buf pos) as [[[] p1]|]; [|reflexivity].
  destruct (parse_varint buf p1) as [[c p2]|]; [|reflexivity].
  destruct (lift (M := parser) _ buf p2) as [[nc p3]|]; [|reflexivity].
  destruct (parse_varint buf p3) as [[r p4]|]; [|reflexivity].
  now destruct (lift (M := parser) _ buf p4) as [[nr p5]|].
Qed.

Lemma parse_block_body_with_ext f g buf pos :
  (forall n, f n = g n) -> parse_block_body_with f buf pos = parse_block_body_with g buf pos.
Proof.
  intros H. rewrite !parse_block_body_counts. apply bind_proper; [reflexivity|]. intros [c r].
  apply bind_proper; [|reflexivity]. apply collect_n_proper.
  unfold parse_column. do 3 (apply bind_proper; [reflexivity|intros ?]). now rewrite H.
Qed.

Lemma parse_block_counts_nonneg buf pos c r pos' :
  parse_block_counts buf pos = Ok ((c, r), pos') -> 0 <= c /\ 0 <= r.
Proof.
  unfold parse_block_counts. intros H. apply parser_bind_inv in H as (? & p1 & _ & H).
  apply parser_bind_inv in H as (v & p2 & Hv & H). apply parser_bind_inv in H as (c' & p3 & Hc & H).
  apply parser_bind_inv in H as (w & p4 & Hw & H). apply parser_bind_inv in H as (r' & p5 & Hr & H).
  apply parse_varint_nonneg in Hv, Hw. apply parser_lift_inv in Hc as [Hc _], Hr as [Hr _].
  apply map_err_inv in Hc, Hr. apply checked_count_inv in Hc as [-> _], Hr as [-> _];
    try (split; discriminate). cbn in H. inj. auto.
Qed.

Definition streamable_name (type_name : bytes) : bool :=
  match parse_type type_name with Ok ct => streamable ct | Err _ => false end.

(** A pending column, cut out of the shared arena. *)
Definition column_of (shared : bytes) (col : PendingColumn) : ColumnInfo :=
  mkColumnInfo (p_name col) (p_type_name col) (slice shared (p_start col) (p_end col)) [].

Lemma read_column_header_inv buf pos name type_name ct rest :
  0 <= pos <= blen buf -> blen buf <= ISIZE_MAX ->
  run read_column_header (drop pos buf) = Ok ((name, type_name, ct), rest) ->
  parse_type type_name = Ok ct /\ exists pos', pos <= pos' <= blen buf /\ rest = drop pos' buf /\
  forall n, parse_column parse_column_type n buf pos =
    bind (parse_column_bytes ct n) (fun data => ret (mkColumnInfo name type_name data [])) buf pos'.
Proof.
  intros Hpos Hbuf H. apply run_bind_inv in H as (nm & l1 & H1 & H).
  apply (agrees_ok _ _ _ _ _ _ agrees_parse_string) in H1 as (p1 & E1 & Hp1 & ->); try assumption.
  apply run_bind_inv in H as (tn & l2 & H2 & H).
  apply (agrees_ok _ _ _ _ _ _ agrees_parse_string) in H2 as (p2 & E2 & Hp2 & ->); try lia.
  apply run_bind_inv in H as (cs & l3 & H3 & H).
  apply (agrees_ok _ _ _ _ _ _ (agrees_parse_bytes 1 ltac:(lia))) in H3 as (p3 & E3 & Hp3 & ->); try lia.
  destruct (negb _); [discriminate|]. apply run_bind_inv in H as (ct' & l4 & H4 & H).
  apply run_lift_inv in H4 as [H4 ->]. cbn in H. inj. split.
  - rewrite parse_column_type_checked in H4. now apply map_err_inv in H4.
  - exists p3. repeat split; try lia. intros n. unfold parse_column.
    rewrite (parser_bind_ok _ _ _ _ _ _ E1), (parser_bind_ok _ _ _ _ _ _ E2), (parser_bind_ok _ _ _ _ _ _ E3).
    erewrite parser_bind_ok by (rewrite H4; reflexivity). reflexivity.
Qed.

Lemma read_pending_collect rows buf : 0 <= rows -> blen buf <= ISIZE_MAX ->
  forall n arena pos pending shared rest, 0 <= pos <= blen buf ->
  run (read_pending n rows arena) (drop pos buf) = Ok ((pending, shared), rest) ->
  Forall (fun col => streamable_name (p_type_name col) = true) pending ->
  exists tail pos', shared = arena ++ tail /\ rest = drop pos' buf /\ pos <= pos' <= blen buf /\
    collect_n n (parse_column parse_column_type rows) buf pos = Ok (map (column_of shared) pending, pos').
Proof.
  intros Hrows Hbuf n. induction n as [|n IH]; intros arena pos pending shared rest Hpos H Hs.
  { cbn in H. inj. exists [], pos. rewrite app_nil_r. repeat split; lia. }
  cbn [read_pending] in H. apply run_bind_inv in H as ([[nm tn] ct] & l1 & Hh & H).
  apply read_column_header_inv in Hh as (Hct & p1 & Hp1 & -> & Hcol); try assumption.
  apply run_bind_inv in H as ([[u a1] b1] & l2 & Hd & H). destruct u.
  apply run_bind_inv in H as ([pend final] & l3 & Hrest & H). cbn in H. inj.
  inversion Hs as [|? ? Hs1 Hs2]. subst. cbn [p_type_name] in Hs1.
  unfold streamable_name in Hs1. rewrite Hct in Hs1.
  pose proof (parse_type_rec_bounded _ _ _ Hct) as [Hwf Hnest].
  apply column_agrees_streamable in Hd as (bs & p2 & E & Hp2 & -> & ->); try lia; try assumption.
  apply IH in Hrest as (tail & p3 & -> & -> & Hp3 & Hcollect); try lia; try assumption.
  exists (bs ++ tail), p3. rewrite app_assoc. repeat split; try lia.
  cbn [collect_n].
  erewrite parser_bind_ok by (rewrite Hcol; erewrite parser_bind_ok by exact E; reflexivity).
  rewrite (parser_bind_ok _ _ _ _ _ _ Hcollect). unfold column_of at 2. cbn.
  repeat f_equal. rewrite <- app_assoc. unfold slice. rewrite drop_app_exact, blen_app.
  symmetry. apply take_app_len. lia.
Qed.

Definition read_block_columns : Z * Z -> reader Block := fun '(num_cols, num_rows) =>
  if (num_cols =? 0) && (num_rows =? 0) then ret empty_block
  else
    let* (pending, shared) := read_pending (Z.to_nat num_cols) num_rows [] in
    ret (mkBlock (map (column_of shared) pending) num_rows).

Lemma read_block_body_unfold : read_block_body = bind read_block_counts read_block_columns.
Proof. reflexivity. Qed.

Lemma streamed_block_buffered (buf : bytes) (pos : Z) (b : Block) (rest : bytes) :
  0 <= pos <= blen buf -> blen buf <= ISIZE_MAX ->
  run read_block_body (drop pos buf) = Ok (b, rest) ->
  Forall (fun col => streamable_name (type_name col) = true) (columns b) ->
  exists pos', parse_block_body buf pos = Ok (b, pos') /\ parse_block_body_shared buf pos = Ok (b, pos') /\
    rest = drop pos' buf /\ pos <= pos' <= blen buf.
Proof.
  intros Hpos Hbuf H Hs. rewrite read_block_body_unfold in H.
  apply run_bind_inv in H as ([c r] & l1 & H1 & H).
  apply (agrees_ok _ _ _ _ _ _ agrees_block_counts) in H1 as (p1 & E1 & Hp1 & ->); try assumption.
  pose proof (parse_block_counts_nonneg _ _ _ _ _ E1) as [Hc Hr].
  assert (exists p2, collect_n (Z.to_nat c) (parse_column parse_column_type r) buf p1
            = Ok (columns b, p2) /\ rows b = r /\ rest = drop p2 buf /\ p1 <= p2 <= blen buf)
    as (p2 & E2 & Hrows & -> & Hp2).
  { unfold read_block_columns in H. destruct ((c =? 0) && (r =? 0)) eqn:E0.
    - apply andb_prop in E0 as [Ec Er]. apply Z.eqb_eq in Ec, Er. subst c r. cbn in H. inj. exists p1. repeat split; lia.
    - apply run_bind_inv in H as ([pending shared] & l2 & H2 & H). cbn in H. inj. cbn [columns] in *.
      apply read_pending_collect in H2 as (tail & p2 & _ & -> & Hp2 & E2); try lia; try assumption.
      + exists p2. now rewrite E2.
      + rewrite Forall_map in Hs. exact Hs. }
  assert (parse_block_body_shared buf pos = Ok (b, p2)) as Hshared.
  { unfold parse_block_body_shared. rewrite parse_block_body_counts, (parser_bind_ok _ _ _ _ _ _ E1).
    rewrite (parser_bind_ok _ _ _ _ _ _ E2). destruct b. cbn in *. now subst. }
  exists p2. repeat split; auto; try lia. rewrite <- Hshared.
  apply parse_block_body_with_ext. intros n. symmetry. apply parse_column_type_checked.
Qed.

(** C1: reading a block off the stream column by column gives the block the buffered
    parser finds in the same bytes, and stops at the same place, whenever its column
    types are ones the two readers decode alike.  Both buffered parsers, with and
    without the fast path for type names, are covered. *)
Theorem streamed_block_is_buffered (buf : bytes) (pos : Z) (b : Block) (rest : bytes) :
  0 <= pos <= blen buf -> blen buf <= ISIZE_MAX ->
  run read_block_body (drop pos buf) = Ok (b, rest) ->
  Forall (fun col => streamable_name (type_name col) = true) (columns b) ->
  exists pos', parse_block_body buf pos = Ok (b, pos') /\ parse_block_body_shared buf pos = Ok (b, pos') /\
    rest = drop pos' buf.
Proof.
  intros Hpos Hbuf H Hs. destruct (streamed_block_buffered _ _ _ _ Hpos Hbuf H Hs) as (p & ? & ? & ? & _). eauto.
Qed.

(** Two rows: a [UInt8] column, and a [LowCardinality(String)] column over the keys
    [""] and ["x"]. *)
Definition sample_block : bytes :=
  [x00; x02; x02] ++
  [x01; x61; x05] ++ str "UInt8" ++ [x00; x07; x08] ++
  [x01; x62; x16] ++ str "LowCardinality(String)" ++ [x00] ++
  to_le 8 1 ++ to_le 8 512 ++ to_le 8 2 ++ [x00; x01; x78] ++ to_le 8 2 ++ [x01; x00].

Lemma streamed_block_is_buffered_witness :
  exists pos', parse_block_body sample_block 0
    = Ok (mkBlock [mkColumnInfo (str "a") (str "UInt8") [x07; x08] [];
                   mkColumnInfo (str "b") (str "LowCardinality(String)") [x01; x78; x00] []] 2, pos').
Proof.
  destruct (streamed_block_is_buffered sample_block 0
    (mkBlock [mkColumnInfo (str "a") (str "UInt8") [x07; x08] [];
              mkColumnInfo (str "b") (str "LowCardinality(String)") [x01; x78; x00] []] 2) [])
    as (pos' & H & _).
  - split; [lia|discriminate].
  - discriminate.
  - vm_compute. reflexivity.
  - repeat constructor.
  - now exists pos'.
Defined.

(** ** Visiting and discarding blocks *)

Definition view_of (b : Block) : BlockView :=
  mkBlockView (map (fun c => mkColumnView (name c) (type_name c) (data c)) (columns b)) (rows b).

Definition view_block_columns (visitor : BlockView -> result error unit) : Z * Z -> reader unit :=
  fun '(num_cols, num_rows) =>
  if (num_cols =? 0) && (num_rows =? 0) then lift (visitor (mkBlockView [] 0))
  else
    let* (pending, arena) := read_pending (Z.to_nat num_cols) num_rows [] in
    lift (visitor (mkBlockView (map (fun col => mkColumnView (p_name col) (p_type_name col)
                                       (slice arena (p_start col) (p_end col))) pending) num_rows)).

Lemma read_block_body_view_unfold visitor :
  read_block_body_view visitor = bind read_block_counts (view_block_columns visitor).
Proof. reflexivity. Qed.

Lemma run_view_block_columns visitor cr l :
  run (view_block_columns visitor cr) l =
  run (bind (read_block_columns cr) (fun b => lift (visitor (view_of b)))) l.
Proof.
  destruct cr as [c r]. unfold view_block_columns, read_block_columns. destruct (_ && _); [reflexivity|].
  rewrite !run_bind. destruct (run (read_pending _ _ _) l) as [[[pending shared] l']|e]; [|reflexivity].
  rewrite run_ret. unfold view_of. cbn [columns rows]. now rewrite map_map.
Qed.

(** The borrowed read is the owned read: on every stream, [read_block_view] hands
    its visitor exactly the columns and rows [read_block] returns, fails where it
    fails, and reports the visitor's error only after the whole block is consumed. *)
Theorem block_view_is_block (visitor : BlockView -> result error unit) (l : bytes) :
  run (read_block_view visitor) l =
  match run read_block l with
  | Ok (b, rest) => match visitor (view_of b) with Ok u => Ok (u, rest) | Err e => Err e end
  | Err e => Err e
  end.
Proof.
  unfold read_block_view, read_block. rewrite read_block_body_view_unfold, read_block_body_unfold.
  rewrite !run_bind. destruct (run read_string l) as [[nm l1]|e]; [|reflexivity].
  rewrite !run_bind. destruct (run read_block_counts l1) as [[cr l2]|e]; [|reflexivity].
  rewrite run_view_block_columns, run_bind.
  destruct (run (read_block_columns cr) l2) as [[b l3]|e]; [|reflexivity]. apply run_lift.
Qed.

Definition discard_columns : Z * Z -> reader Z := fun '(num_cols, num_rows) =>
  repeat_n (Z.to_nat num_cols)
    (let* (name, type_name, ct) := read_column_header in discard_column_data ct num_rows) ;;
  ret num_rows.

Lemma discard_block_body_unfold : discard_block_body = bind read_block_counts discard_columns.
Proof. reflexivity. Qed.

(** The types [discard_column_data] supports, framed as the reader frames them. *)
Definition discardable_name (type_name : bytes) : bool :=
  match parse_type type_name with Ok ct => verbatim ct && discardable ct | Err _ => false end.

Lemma discard_pending rows buf : 0 <= rows -> blen buf <= ISIZE_MAX ->
  forall n arena pos pending shared rest, 0 <= pos <= blen buf ->
  run (read_pending n rows arena) (drop pos buf) = Ok ((pending, shared), rest) ->
  Forall (fun col => discardable_name (p_type_name col) = true) pending ->
  run (repeat_n n (let* (name, type_name, ct) := read_column_header in discard_column_data ct rows))
      (drop pos buf) = Ok (tt, rest).
Proof.
  intros Hrows Hbuf n. induction n as [|n IH]; intros arena pos pending shared rest Hpos H Hs.
  { cbn in H. now inj. }
  cbn [read_pending] in H. apply run_bind_inv in H as ([[nm tn] ct] & l1 & Hh & H).
  pose proof Hh as Hh'. apply read_column_header_inv in Hh as (Hct & p1 & Hp1 & -> & _); try assumption.
  apply run_bind_inv in H as ([[u a1] b1] & l2 & Hd & H). destruct u.
  apply run_bind_inv in H as ([pend final] & l3 & Hrest & H). cbn in H. inj.
  inversion Hs as [|? ? Hs1 Hs2]. subst. cbn [p_type_name] in Hs1.
  unfold discardable_name in Hs1. rewrite Hct in Hs1. apply andb_prop in Hs1 as [Hv Hdis].
  pose proof (parse_type_rec_bounded _ _ _ Hct) as [Hwf Hnest].
  assert (records (read_column_data_into ct rows) (skip_column_data ct rows)) as [Hadv Hsound _]
    by (apply records_column; auto; lia).
  apply Hsound in Hd as (p2 & E & -> & _); try lia; [|unfold MAX_COLUMN_BYTES; lia].
  assert (p1 <= p2 <= blen buf) by (eapply Hadv; [|exact E]; lia).
  pose proof (covers_column ct Hwf Hdis rows Hrows) as [_ Hcov].
  apply Hcov in E; try lia. cbn [repeat_n]. rewrite run_bind, run_bind, Hh', E.
  eapply IH; try eassumption. lia.
Qed.

Lemma discard_matches (buf : bytes) (pos : Z) (b : Block) (rest : bytes) :
  0 <= pos <= blen buf -> blen buf <= ISIZE_MAX ->
  run read_block_body (drop pos buf) = Ok (b, rest) ->
  Forall (fun col => discardable_name (type_name col) = true) (columns b) ->
  run discard_block_body (drop pos buf) = Ok (rows b, rest).
Proof.
  intros Hpos Hbuf H Hs. rewrite read_block_body_unfold in H. rewrite discard_block_body_unfold.
  apply run_bind_inv in H as ([c r] & l1 & H1 & H). rewrite (run_bind_ok _ _ _ _ _ H1).
  apply (agrees_ok _ _ _ _ _ _ agrees_block_counts) in H1 as (p1 & E1 & Hp1 & ->); try assumption.
  pose proof (parse_block_counts_nonneg _ _ _ _ _ E1) as [Hc Hr].
  unfold read_block_columns in H. unfold discard_columns. destruct ((c =? 0) && (r =? 0)) eqn:E0.
  - apply andb_prop in E0 as [Ec Er]. apply Z.eqb_eq in Ec, Er. subst c r. cbn in H. now inj.
  - apply run_bind_inv in H as ([pending shared] & l2 & H2 & H). cbn in H. inj. cbn [columns] in *.
    rewrite Forall_map in Hs. eapply discard_pending in H2; try eassumption; [|lia].
    now rewrite (run_bind_ok _ _ _ _ _ H2).
Qed.

(** Discarding a block consumes exactly the bytes reading it consumes and returns
    its row count, for every block whose column types discarding supports. *)
Theorem discard_block_matches_read (buf : bytes) (pos : Z) (b : Block) (rest : bytes) :
  0 <= pos <= blen buf -> blen buf <= ISIZE_MAX ->
  run read_block_body (drop pos buf) = Ok (b, rest) ->
  Forall (fun col => discardable_name (type_name col) = true) (columns b) ->
  run discard_block_body (drop pos buf) = Ok (rows b, rest).
Proof. exact (discard_matches buf pos b rest). Qed.

Lemma discard_block_matches_read_witness :
  run discard_block_body (drop 0 ([x00; x01; x02; x01; x61; x05] ++ str "UInt8" ++ [x00; x07; x08; x2a]))
    = Ok (2, [x2a]).
Proof.
  apply (discard_block_matches_read
    ([x00; x01; x02; x01; x61; x05] ++ str "UInt8" ++ [x00; x07; x08; x2a]) 0
    (mkBlock [mkColumnInfo (str "a") (str "UInt8") [x07; x08] []] 2) [x2a]).
  - split; [lia|discriminate].
  - discriminate.
  - vm_compute. reflexivity.
  - repeat constructor.
Defined.
