(* ===== verification/RawReader.v ===== *)
(** * Raw blocks of the asynchronous engine ([connection/raw_block_reader.rs])

    [read_raw_data_block] keeps the bytes of a block as they came from the server.  The
    recorded readers append what they read to [out: &mut Vec<u8>] and charge it to a budget,
    which is the [arena] of [Arena]; they are the asynchronous twins of the readers of
    [ColumnReader] and differ from them in the offsets of arrays, which are read in one piece,
    and in the checks of a LowCardinality header.

    Two theorems: the data of a raw block are exactly the bytes of the stream behind the table
    name, whatever the types of its columns are; and a column the recorder accepts is recorded
    with the same bytes, budget and end by the raw reader of the blocking engine.  The converse
    does not hold: that reader accepts flags of a LowCardinality header that the recorder
    refuses ([lc_flags_differ]). *)

From Stdlib Require Import String ZArith Lia Bool List.
From Stdlib Require Import Strings.Byte.
From coqutil Require Import Byte.
From S2P Require Import Prelude Reader Limits Utf8 Wire TypeParser SkipColumn Arena ColumnReader Framing BlockReader.
Import ListNotations.

(** ** Primitives *)

Definition read_exact_recorded (len : Z) : arena unit :=
  if MAX_COLUMN_BYTES <? len
  then throw (Protocol (Msg "raw column byte length {len} exceeds limit {}" [AZ len; AZ MAX_COLUMN_BYTES]))
  else
    charge_budget len (str "raw column") ;;
    let* start := data_len in
    lift (ok_or (checked_add start len) (Protocol (msg "raw block length overflow"))) ;;
    let* bs := unrecorded (read_exact_r len) in
    append bs.

Fixpoint read_varint_recorded_loop (fuel : nat) (result shift : Z) : arena Z :=
  match fuel with
  | O => throw ModelFuel
  | S fuel =>
      if 64 <=? shift then throw varint_overflow
      else
        let* byte := unrecorded (read_exact_r 1) in
        charge_budget 1 (str "raw column") ;;
        append byte ;;
        let b := byte0 byte in
        if (shift =? 63) && (1 <? Z.land b 0x7F) then throw varint_overflow
        else
          let result := Z.lor result (u64_shl (Z.land b 0x7F) shift) in
          if Z.land b 0x80 =? 0 then ret result else read_varint_recorded_loop fuel result (shift + 7)
  end.

Definition read_varint_recorded : arena Z := read_varint_recorded_loop 11 0 0.

Definition read_string_recorded (length_name : string) : arena bytes :=
  let* v := read_varint_recorded in
  let* len := lift (protocol (checked_string_len v (str length_name))) in
  let* start := data_len in
  read_exact_recorded len ;;
  let* bytes := data_from start in
  lift (if utf8_valid bytes then Ok bytes
        else Err (Protocol (Msg "utf8 in {length_name}: {e}" [AS (str length_name); AS bytes]))).

Definition read_u64_recorded : arena Z :=
  let* start := data_len in
  read_exact_recorded 8 ;;
  let* bytes := data_slice start (start + 8) in
  ret (from_le bytes).

Definition read_fixed_recorded (rows width : Z) (what : string) : arena unit :=
  let* len := lift (column_len rows width what) in read_exact_recorded len.

Definition read_string_rows_recorded (rows : Z) (length_name : string) : arena unit :=
  repeat_n (Z.to_nat rows)
    (let* v := read_varint_recorded in
     let* len := lift (protocol (checked_string_len v (str length_name))) in
     read_exact_recorded len).

(** ** State prefixes *)

Definition read_json_paths_recorded (dynamic : arena DynamicRawState) : arena (list DynamicRawState) :=
  let* v := read_varint_recorded in
  let* paths_count := lift (protocol (checked_count v (str "JSON path") MAX_JSON_DYNAMIC_ITEMS)) in
  repeat_n (Z.to_nat paths_count) (read_string_recorded "JSON path length" ;; ret tt) ;;
  collect_n (Z.to_nat paths_count) dynamic.

Definition read_json_state_prefix_recorded (dynamic : arena DynamicRawState) : arena JsonRawState :=
  let* version := read_u64_recorded in
  if (version =? 1) || (version =? 4) then ret (mkJson version [])
  else if version =? 3 then
    let* dynamic_paths := read_json_paths_recorded dynamic in ret (mkJson version dynamic_paths)
  else if version =? 0 then
    let* _max_dynamic_paths := read_varint_recorded in
    let* dynamic_paths := read_json_paths_recorded dynamic in ret (mkJson version dynamic_paths)
  else throw (Protocol (Msg "unknown JSON serialization version {other}" [AZ version])).

Fixpoint state_prefix_recorded_with (dynamic : arena DynamicRawState) (ct : ColumnType) : arena RawColumnState :=
  match ct with
  | Nullable inner => let* s := state_prefix_recorded_with dynamic inner in ret (SNullable s)
  | Array inner => let* s := state_prefix_recorded_with dynamic inner in ret (SArray s)
  | TMap key value =>
      let* k := state_prefix_recorded_with dynamic key in
      let* v := state_prefix_recorded_with dynamic value in
      ret (SMap k v)
  | Tuple elems =>
      let* states := map_each elems (state_prefix_recorded_with dynamic) in ret (STuple states)
  | LowCardinality inner =>
      let* s := state_prefix_recorded_with dynamic inner in ret (SLowCardinality s)
  | Variant types =>
      let* states := map_each types (state_prefix_recorded_with dynamic) in ret (SVariant states)
  | Dynamic => let* d := dynamic in ret (SDynamic d)
  | JSON => let* j := read_json_state_prefix_recorded dynamic in ret (SJson j)
  | _ => ret SNone
  end.

Definition read_dynamic_type_names_recorded (count_name : string) : arena (list bytes) :=
  let* v := read_varint_recorded in
  let* type_count := lift (protocol (checked_count v (str count_name) MAX_JSON_DYNAMIC_ITEMS)) in
  collect_n (Z.to_nat type_count) (read_string_recorded "dynamic type length").

Definition dynamic_names_recorded (version : Z) : arena (list bytes) :=
  if version =? 0 then ret []
  else if version =? 1 then
    let* _max_types := read_varint_recorded in
    let* type_names := read_dynamic_type_names_recorded "dynamic subcolumn types" in
    let* _variant_version := read_u64_recorded in
    ret type_names
  else if (version =? 2) || (version =? 3) then read_dynamic_type_names_recorded "dynamic subcolumn types"
  else throw (Protocol (Msg "unknown Dynamic subcolumn serialization version {other}" [AZ version])).

Definition dynamic_state_recorded_step (self : unit -> arena DynamicRawState) (_ : unit) : arena DynamicRawState :=
  let* version := read_u64_recorded in
  let* type_names := dynamic_names_recorded version in
  let* type_states := map_each type_names (fun type_name =>
    let* ct := lift (parse_dynamic_type type_name) in
    state_prefix_recorded_with (self tt) ct) in
  ret (mkDynamic version type_names type_states).

(** Each level charges the eight bytes of its version. *)
Definition read_dynamic_state_prefix_recorded : arena DynamicRawState :=
  deep RAW_LEVELS dynamic_state_recorded_step (fun _ => throw ModelFuel) tt.

Definition read_column_state_prefix_recorded (ct : ColumnType) : arena RawColumnState :=
  state_prefix_recorded_with read_dynamic_state_prefix_recorded ct.

Definition variant_states (state : RawColumnState) : list RawColumnState :=
  match state with SVariant states => states | _ => [] end.

(** ** Bodies *)

Definition bad_type (what : string) (type_name : bytes) : result error ColumnType :=
  map_err (fun e => Protocol (Msg what [AS type_name; AM e])) (parse_type type_name).

(** The loop over the subcolumns with their observed counts. *)
Fixpoint subcolumns_recorded (sub : raw_body) (what : string) (i : nat) (type_names : list bytes)
    (type_states : list RawColumnState) (counts : list Z) : arena unit :=
  match type_names, counts with
  | type_name :: type_names, count :: counts =>
      (if 0 <? count then
         let* ct := lift (bad_type what type_name) in
         sub (ct, nth i type_states SNone, count)
       else ret tt) ;;
      subcolumns_recorded sub what (S i) type_names type_states counts
  | _, _ => ret tt
  end.

Definition read_deprecated_dynamic_values_recorded (sub : raw_body) (type_names : list bytes)
    (type_states : list RawColumnState) (rows : Z) : arena unit :=
  if (rows =? 0) || (blen type_names =? 0) then ret tt
  else
    let* start := data_len in
    read_exact_recorded rows ;;
    let* discriminators := data_slice start (start + rows) in
    let* counts := lift (dynamic_counts (fun d => Ok (byte.unsigned d)) U8_MAX
      "deprecated Dynamic discriminator {idx} exceeds type count {}"
      (repeat 0 (length type_names)) discriminators) in
    subcolumns_recorded sub "bad dynamic type '{type_name}': {e}" 0 type_names type_states counts.

Definition read_flattened_dynamic_values_recorded (sub : raw_body) (type_names : list bytes)
    (type_states : list RawColumnState) (rows : Z) : arena unit :=
  if (rows =? 0) || (blen type_names =? 0) then ret tt
  else
    let width := dynamic_discriminator_width (blen type_names) in
    let* len := lift (column_len rows width "Dynamic discriminators") in
    let* start := data_len in
    read_exact_recorded len ;;
    let* discriminators := data_slice start (start + len) in
    let* counts := lift (dynamic_counts decode_dynamic_discriminator (blen type_names)
      "Dynamic discriminator {idx} exceeds type count {}"
      (repeat 0 (length type_names)) (chunks_exact width discriminators)) in
    subcolumns_recorded sub "bad dynamic type '{type_name}': {e}" 0 type_names type_states counts.

Definition read_dynamic_body_raw_recorded (sub : raw_body) (state : DynamicRawState) (rows : Z) : arena unit :=
  let 'mkDynamic version type_names type_states := state in
  if version =? 0 then ret tt
  else if version =? 1 then read_deprecated_dynamic_values_recorded sub type_names type_states rows
  else if (version =? 2) || (version =? 3)
  then read_flattened_dynamic_values_recorded sub type_names type_states rows
  else throw (Protocol (Msg "unknown Dynamic serialization version {other}" [AZ version])).

Definition read_json_body_raw_recorded (sub : raw_body) (state : JsonRawState) (rows : Z) : arena unit :=
  let 'mkJson version dynamic_paths := state in
  if (version =? 1) || (version =? 4) then read_string_rows_recorded rows "JSON string length"
  else if version =? 3 then
    for_each dynamic_paths (fun dynamic => read_dynamic_body_raw_recorded sub dynamic rows)
  else if version =? 0 then
    for_each dynamic_paths (fun dynamic => read_dynamic_body_raw_recorded sub dynamic rows) ;;
    read_fixed_recorded rows 8 "JSON offsets"
  else throw (Protocol (Msg "unknown JSON serialization version {other}" [AZ version])).

Definition read_variant_types_body_raw_recorded (sub : raw_body) (type_names : list bytes)
    (type_states : list RawColumnState) (rows : Z) (one_based_discriminators : bool) : arena unit :=
  let* mode := read_u64_recorded in
  if (rows =? 0) || (blen type_names =? 0) then ret tt
  else if mode =? 0 then
    let* start := data_len in
    read_exact_recorded rows ;;
    let* discriminators := data_slice start (start + rows) in
    subcolumns_recorded sub "bad variant type '{type_name}': {e}" 0 type_names type_states
      (variant_scan one_based_discriminators (length type_names) discriminators)
  else if mode =? 1 then
    let* d := read_u64_recorded in
    let* discriminator := lift (checked_usize d "Variant compact discriminator") in
    let discriminator := if one_based_discriminators then Z.max 0 (discriminator - 1) else discriminator in
    let* r := read_u64_recorded in
    let* compact_rows := lift (checked_usize r "Variant compact rows") in
    if rows <? compact_rows
    then throw (Protocol (Msg "Variant compact rows {compact_rows} exceeds row count {rows}"
                              [AZ compact_rows; AZ rows]))
    else if (discriminator <? blen type_names) && (0 <? compact_rows) then
      let* ct := lift (bad_type "bad variant type '{}': {e}" (nth (Z.to_nat discriminator) type_names [])) in
      sub (ct, nth (Z.to_nat discriminator) type_states SNone, compact_rows)
    else ret tt
  else throw (Protocol (Msg "unknown Variant serialization mode {other}" [AZ mode])).

Definition read_variant_body_raw_recorded (sub : raw_body) (types : list ColumnType)
    (type_states : list RawColumnState) (rows : Z) : arena unit :=
  read_variant_types_body_raw_recorded sub (map to_string types) type_states rows false.

(** The offsets are read in one piece and scanned in the arena. *)
Definition read_offsets_recorded (rows : Z) (name : string) : arena Z :=
  let* nbytes := lift (column_len rows 8 name) in
  let* start := data_len in
  read_exact_recorded nbytes ;;
  let* offsets := data_from start in
  lift (protocol (fold_offsets 0 (map from_le (chunks_exact 8 offsets)) (str name))).

Definition array_recorded (name : string) (inner : Z -> arena unit) (rows : Z) : arena unit :=
  let* total := read_offsets_recorded rows name in
  if 0 <? total then inner total else ret tt.

Definition read_lc_body_raw_recorded (dict : Z -> arena unit) (rows : Z) : arena unit :=
  let* start := data_len in
  read_exact_recorded 24 ;;
  let* meta := data_slice start (start + 24) in
  let serial_type := from_le (slice meta 8 16) in
  let version := from_le (slice meta 0 8) in
  let* num_keys := lift (protocol (checked_count (from_le (slice meta 16 24))
                           (str "LowCardinality key") MAX_JSON_DYNAMIC_ITEMS)) in
  let* idx_width := lift (lc_idx_width version serial_type) in
  (if 0 <? num_keys then dict num_keys else ret tt) ;;
  let* count := read_u64_recorded in
  let* indexes := lift (checked_usize count "LowCardinality indexes") in
  if negb (indexes =? rows)
  then throw (Protocol (Msg "LowCardinality index count {indexes} does not match row count {rows}"
                            [AZ indexes; AZ rows]))
  else read_fixed_recorded indexes idx_width "LowCardinality index".

Definition point_recorded (rows : Z) : arena unit :=
  zero_rows rows (read_fixed_recorded rows 8 "fixed-width column" ;;
                  read_fixed_recorded rows 8 "fixed-width column").

Definition ring_recorded (rows : Z) : arena unit :=
  zero_rows rows (array_recorded "array offset" point_recorded rows).

Definition polygon_recorded (rows : Z) : arena unit :=
  zero_rows rows (array_recorded "array offset" ring_recorded rows).

(** The columns without components. *)
Definition simple_recorded (ct : ColumnType) (rows : Z) : arena unit :=
  match ct with
  | TString | Other _ => read_string_rows_recorded rows "string value length"
  | FixedString n => read_fixed_recorded rows n "FixedString column"
  | AggregateFunction | SimpleAggregateFunction =>
      throw (Protocol (Msg "query_raw does not support raw capture for type {ct}" [AS (to_string ct)]))
  | _ =>
      let* width := lift (ok_or (fixed_width ct) (Protocol (Msg "unknown type {ct}" [AS (to_string ct)]))) in
      read_fixed_recorded rows width "fixed-width column"
  end.

Fixpoint body_recorded_with (sub : raw_body) (ct : ColumnType) (state : RawColumnState) (rows : Z) : arena unit :=
  zero_rows rows
    match ct with
    | Nullable inner =>
        read_exact_recorded rows ;;
        body_recorded_with sub inner (match state with SNullable s => s | _ => SNone end) rows
    | Array inner =>
        array_recorded "array offset"
          (body_recorded_with sub inner (match state with SArray s => s | _ => SNone end)) rows
    | TMap key value =>
        let '(key_state, value_state) := match state with SMap k v => (k, v) | _ => (SNone, SNone) end in
        array_recorded "map offset"
          (fun total => body_recorded_with sub key key_state total ;;
                        body_recorded_with sub value value_state total) rows
    | Tuple elems =>
        let states := match state with STuple l => l | _ => [] end in
        for_each (bodies (body_recorded_with sub) elems states) (fun body => body rows)
    | LowCardinality inner =>
        read_lc_body_raw_recorded
          (body_recorded_with sub inner (match state with SLowCardinality s => s | _ => SNone end)) rows
    | JSON =>
        match state with
        | SJson j => read_json_body_raw_recorded sub j rows
        | _ => throw (Protocol (msg "missing JSON state prefix"))
        end
    | Dynamic =>
        match state with
        | SDynamic d => read_dynamic_body_raw_recorded sub d rows
        | _ => throw (Protocol (msg "missing Dynamic state prefix"))
        end
    | Variant types => read_variant_body_raw_recorded sub types (variant_states state) rows
    | Point => read_fixed_recorded rows 8 "fixed-width column" ;; read_fixed_recorded rows 8 "fixed-width column"
    | Ring => array_recorded "array offset" point_recorded rows
    | Polygon => array_recorded "array offset" ring_recorded rows
    | MultiPolygon => array_recorded "array offset" polygon_recorded rows
    | _ => simple_recorded ct rows
    end.

Definition recorded_step (self : raw_body) : raw_body :=
  fun '(ct, state, rows) => body_recorded_with self ct state rows.

(** A level that goes through a type name charges at least one byte first. *)
Definition recorded_recursion : raw_body := deep RAW_LEVELS recorded_step (fun _ => throw ModelFuel).

Definition read_column_body_raw_recorded (ct : ColumnType) (state : RawColumnState) (rows : Z) : arena unit :=
  recorded_recursion (ct, state, rows).

Definition read_column_raw_recorded (type_name : bytes) (rows : Z) : arena unit :=
  let* ct := lift (bad_type "bad type '{type_name}': {e}" type_name) in
  let* state := read_column_state_prefix_recorded ct in
  read_column_body_raw_recorded ct state rows.

(** ** Blocks *)

(** [RawBlock] of [shared/block.rs]. *)
Record RawBlock := mkRawBlock { raw_table_name : bytes; raw_columns : Z; raw_rows : Z; raw_data : bytes }.

(** The fields of BlockInfo; each charges the byte of its number. *)
Definition block_info_recorded_step (self : unit -> arena unit) (_ : unit) : arena unit :=
  let* dim := read_varint_recorded in
  if dim =? 0 then ret tt
  else if dim =? 1 then read_exact_recorded 1 ;; self tt
  else if dim =? 2 then read_exact_recorded 4 ;; self tt
  else if dim =? 3 then let* _ := read_varint_recorded in self tt
  else throw (Protocol (Msg "unknown BlockInfo field {dim}" [AZ dim])).

Definition block_info_recorded : arena unit :=
  deep RAW_LEVELS block_info_recorded_step (fun _ => throw ModelFuel) tt.

Definition block_counts_recorded : arena (Z * Z) :=
  block_info_recorded ;;
  let* c := read_varint_recorded in
  let* columns := lift (protocol (checked_count c (str "block column") MAX_BLOCK_COLUMNS)) in
  let* r := read_varint_recorded in
  let* rows := lift (protocol (checked_count r (str "block row") MAX_BLOCK_ROWS)) in
  ret (columns, rows).

(** One column: the names are charged to [name_budget], the custom serialization byte to
    [meta_budget] and the values to a budget of their own. *)
Fixpoint columns_recorded (n : nat) (rows : Z) (raw : bytes) (name_budget meta_budget : Z) : reader bytes :=
  match n with
  | O => ret raw
  | S n =>
      let* (_name, raw, name_budget) := read_string_recorded "column name length" raw name_budget in
      let* (type_name, raw, name_budget) := read_string_recorded "column type length" raw name_budget in
      let* (_, raw, meta_budget) := read_exact_recorded 1 raw meta_budget in
      let* raw :=
        if 0 <? rows then
          let* (_, raw, _) := read_column_raw_recorded type_name rows raw MAX_COLUMN_BYTES in ret raw
        else ret raw in
      columns_recorded n rows raw name_budget meta_budget
  end.

Definition read_raw_data_block : reader RawBlock :=
  let* (table_name, _, name_budget) := read_string_recorded "table name length" [] MAX_COLUMN_BYTES in
  let* (counts, raw, meta_budget) := block_counts_recorded [] MAX_COLUMN_BYTES in
  let '(columns, rows) := counts in
  let* raw := columns_recorded (Z.to_nat columns) rows raw name_budget meta_budget in
  ret (mkRawBlock table_name columns rows raw).

(** ** A raw block is the bytes of the stream

    [tapes m]: what [m] takes from the stream is what it appends to the arena. *)
Definition tapes {A} (m : arena A) : Prop :=
  forall data budget l a data' budget' rest,
  run (m data budget) l = Ok ((a, data', budget'), rest) -> exists w, l = w ++ rest /\ data' = data ++ w.

Lemma tapes_quiet {A} (m : arena A) :
  (forall data budget l a data' budget' rest, run (m data budget) l = Ok ((a, data', budget'), rest) -> l = rest /\ data' = data) ->
  tapes m.
Proof. intros H data budget l a data' budget' rest E. apply H in E as [-> ->]. exists []. now rewrite app_nil_r. Qed.

Lemma tapes_ret {A} (a : A) : tapes (ret a).
Proof. apply tapes_quiet. intros data budget l a' data' budget' rest E. cbn in E. now inj. Qed.

Lemma tapes_lift {A} (r : result error A) : tapes (lift r).
Proof. apply tapes_quiet. intros data budget l a' data' budget' rest E. destruct r; [|discriminate]. cbn in E. now inj. Qed.

Lemma tapes_throw {A} (e : error) : tapes (A := A) (throw e).
Proof. apply (tapes_lift (Err e)). Qed.

Lemma tapes_bind {A B} (m : arena A) (f : A -> arena B) : tapes m -> (forall a, tapes (f a)) -> tapes (bind m f).
Proof.
  intros Hm Hf data budget l b data' budget' rest E. apply run_arena_bind_inv in E as (a & d1 & b1 & l1 & E1 & E2).
  apply Hm in E1 as (w1 & -> & ->). apply Hf in E2 as (w2 & -> & ->). exists (w1 ++ w2). now rewrite <- !app_assoc.
Qed.

Lemma tapes_if {A} (b : bool) (m1 m2 : arena A) : tapes m1 -> tapes m2 -> tapes (if b then m1 else m2).
Proof. now destruct b. Qed.

Lemma tapes_repeat_n n (m : arena unit) : tapes m -> tapes (repeat_n n m).
Proof. intros Hm. induction n as [|n IH]; [apply tapes_ret|]. now apply tapes_bind. Qed.

Lemma tapes_collect_n {A} n (m : arena A) : tapes m -> tapes (collect_n n m).
Proof.
  intros Hm. induction n as [|n IH]; [apply tapes_ret|]. apply tapes_bind; [exact Hm|intros x].
  apply tapes_bind; [exact IH|intros xs; apply tapes_ret].
Qed.

Lemma tapes_for_each {A} (l : list A) (f : A -> arena unit) : (forall a, In a l -> tapes (f a)) -> tapes (for_each l f).
Proof.
  induction l as [|a l IH]; intros H; [apply tapes_ret|]. rewrite for_each_cons.
  apply tapes_bind; [apply H; now left|]. intros _. apply IH. intros b Hb. apply H. now right.
Qed.

Lemma tapes_map_each {A B} (l : list A) (f : A -> arena B) : (forall a, In a l -> tapes (f a)) -> tapes (map_each l f).
Proof.
  induction l as [|a l IH]; intros H; [apply tapes_ret|]. rewrite map_each_cons.
  apply tapes_bind; [apply H; now left|]. intros b. apply tapes_bind; [|intros bs; apply tapes_ret].
  apply IH. intros c Hc. apply H. now right.
Qed.

Lemma tapes_data_len : tapes data_len.
Proof. apply tapes_quiet. intros data budget l a data' budget' rest E. cbn in E. now inj. Qed.

Lemma tapes_data_slice start end_ : tapes (data_slice start end_).
Proof. apply tapes_quiet. intros data budget l a data' budget' rest E. cbn in E. now inj. Qed.

Lemma tapes_data_from start : tapes (data_from start).
Proof. apply tapes_quiet. intros data budget l a data' budget' rest E. cbn in E. now inj. Qed.

Lemma tapes_charge n what : tapes (charge_budget n what).
Proof.
  apply tapes_quiet. intros data budget l a data' budget' rest E. apply run_charge_budget in E as [_ E]. now inj.
Qed.

(** A read and the append behind it. *)
Lemma tapes_read {A} n (f : bytes -> arena A) (g : bytes -> arena A) :
  (forall bs data budget l, run (f bs data budget) l = run (g bs (data ++ bs) budget) l) -> (forall bs, tapes (g bs)) ->
  tapes (let* bs := unrecorded (read_exact_r n) in f bs).
Proof.
  intros Hf Hg data budget l a data' budget' rest E. rewrite run_arena_bind, run_unrecorded, run_read_exact in E.
  destruct (n <=? blen l); [|discriminate]. rewrite Hf in E. apply Hg in E as (w & E & ->).
  exists (take n l ++ w). now rewrite <- !app_assoc, <- E, take_drop.
Qed.

Create HintDb tapes discriminated.
#[export] Hint Resolve tapes_ret tapes_lift tapes_throw tapes_bind tapes_if tapes_repeat_n tapes_collect_n tapes_data_len
  tapes_data_slice tapes_data_from tapes_charge : tapes.

(** Follow the structure of a recorded reader. *)
Ltac tapes :=
  repeat first
    [ progress intros
    | solve [auto with tapes nocore]
    | apply tapes_bind | apply tapes_if | apply tapes_repeat_n | apply tapes_collect_n | apply tapes_map_each | apply tapes_for_each
    | match goal with |- tapes (match ?x with _ => _ end) => destruct x end ].

Lemma tapes_exact n : tapes (read_exact_recorded n).
Proof.
  unfold read_exact_recorded. apply tapes_if; [tapes|]. do 3 (apply tapes_bind; [tapes|intros ?]).
  apply (tapes_read n _ (fun _ => ret tt)); [reflexivity|tapes].
Qed.
#[export] Hint Resolve tapes_exact : tapes.

Lemma tapes_varint_loop fuel : forall result shift, tapes (read_varint_recorded_loop fuel result shift).
Proof.
  induction fuel as [|fuel IH]; intros result shift; cbn [read_varint_recorded_loop]; [tapes|]. apply tapes_if; [tapes|].
  intros data budget l a data' budget' rest E. rewrite run_arena_bind, run_unrecorded, run_read_exact in E.
  destruct (1 <=? blen l); [|discriminate]. apply run_arena_bind_inv in E as ([] & d1 & b1 & l1 & E1 & E).
  apply run_charge_budget in E1 as [_ E1]. inj. apply run_arena_bind_inv in E as ([] & d2 & b2 & l2 & E2 & E).
  rewrite run_append in E2. inj.
  assert (exists w, drop 1 l = w ++ rest /\ data' = (data ++ take 1 l) ++ w) as (w & E1 & ->).
  { revert E. match goal with |- run (?m _ _) _ = _ -> _ => assert (tapes m) as Hm by (tapes; apply IH) end. apply Hm. }
  exists (take 1 l ++ w). now rewrite <- !app_assoc, <- E1, take_drop.
Qed.

Lemma tapes_varint : tapes read_varint_recorded.
Proof. apply tapes_varint_loop. Qed.
#[export] Hint Resolve tapes_varint : tapes.

Lemma tapes_string name : tapes (read_string_recorded name).
Proof. unfold read_string_recorded. tapes. Qed.

Lemma tapes_u64 : tapes read_u64_recorded.
Proof. unfold read_u64_recorded. tapes. Qed.

Lemma tapes_fixed rows width what : tapes (read_fixed_recorded rows width what).
Proof. unfold read_fixed_recorded. tapes. Qed.

Lemma tapes_string_rows rows name : tapes (read_string_rows_recorded rows name).
Proof. unfold read_string_rows_recorded. tapes. Qed.
#[export] Hint Resolve tapes_string tapes_u64 tapes_fixed tapes_string_rows : tapes.

(** *** State prefixes *)

Lemma tapes_json_state dynamic : tapes dynamic -> tapes (read_json_state_prefix_recorded dynamic).
Proof. intros Hd. unfold read_json_state_prefix_recorded, read_json_paths_recorded. tapes. Qed.

Lemma tapes_state_prefix dynamic ct : tapes dynamic -> tapes (state_prefix_recorded_with dynamic ct).
Proof.
  intros Hd. pose proof (tapes_json_state dynamic Hd).
  type_induction ct; cbn [state_prefix_recorded_with]; try (intros; tapes; fail).
  - intros ts IH. rewrite Forall_forall in IH. tapes; auto.
  - intros ts IH. rewrite Forall_forall in IH. tapes; auto.
  - intros t. destruct t; try exact I; cbn [state_prefix_recorded_with]; tapes.
Qed.

Lemma tapes_dynamic_names version : tapes (dynamic_names_recorded version).
Proof. unfold dynamic_names_recorded, read_dynamic_type_names_recorded. tapes. Qed.
#[export] Hint Resolve tapes_dynamic_names : tapes.

(** The bound on the levels plays no part. *)
Lemma tapes_deep {X A} (step : (X -> arena A) -> X -> arena A) h (f : X -> arena A) :
  (forall self, (forall x, tapes (self x)) -> forall x, tapes (step self x)) -> (forall x, tapes (f x)) ->
  forall x, tapes (deep h step f x).
Proof.
  intros Hstep Hf. apply (deep_ind step (fun _ g => forall x, tapes (g x)) ltac:(auto) h 0 f Hf).
Qed.

Lemma tapes_dynamic_state : tapes read_dynamic_state_prefix_recorded.
Proof.
  apply (tapes_deep dynamic_state_recorded_step); [|intros; apply tapes_throw]. intros self Hself [].
  unfold dynamic_state_recorded_step. tapes. now apply tapes_state_prefix.
Qed.

Lemma tapes_column_state ct : tapes (read_column_state_prefix_recorded ct).
Proof. apply tapes_state_prefix, tapes_dynamic_state. Qed.

(** *** Bodies *)

Section Bodies.
Context (sub : raw_body) (Hsub : forall x, tapes (sub x)).

Lemma tapes_subcolumns what type_names : forall i type_states counts,
  tapes (subcolumns_recorded sub what i type_names type_states counts).
Proof. induction type_names as [|t type_names IH]; intros i type_states [|c counts]; cbn [subcolumns_recorded]; tapes; auto. Qed.

Lemma tapes_dynamic_body state rows : tapes (read_dynamic_body_raw_recorded sub state rows).
Proof.
  pose proof tapes_subcolumns. destruct state. cbn [read_dynamic_body_raw_recorded].
  unfold read_deprecated_dynamic_values_recorded, read_flattened_dynamic_values_recorded. cbv zeta. tapes; auto.
Qed.

Lemma tapes_json_body state rows : tapes (read_json_body_raw_recorded sub state rows).
Proof. pose proof tapes_dynamic_body. destruct state. cbn [read_json_body_raw_recorded]. tapes; auto. Qed.

Lemma tapes_variant_body types type_states rows : tapes (read_variant_body_raw_recorded sub types type_states rows).
Proof.
  pose proof tapes_subcolumns. unfold read_variant_body_raw_recorded, read_variant_types_body_raw_recorded. cbv zeta. tapes; auto.
Qed.

Lemma tapes_array name inner rows : (forall n, tapes (inner n)) -> tapes (array_recorded name inner rows).
Proof. intros Hi. unfold array_recorded, read_offsets_recorded. tapes; auto. Qed.

Lemma tapes_lc dict rows : (forall n, tapes (dict n)) -> tapes (read_lc_body_raw_recorded dict rows).
Proof. intros Hd. unfold read_lc_body_raw_recorded. cbv zeta. tapes; auto. Qed.

Lemma tapes_zero_rows rows m : tapes m -> tapes (zero_rows rows m).
Proof. intros Hm. unfold zero_rows. tapes; auto. Qed.

Lemma tapes_point rows : tapes (point_recorded rows).
Proof. apply tapes_zero_rows. tapes. Qed.

Lemma tapes_ring rows : tapes (ring_recorded rows).
Proof. apply tapes_zero_rows, tapes_array, tapes_point. Qed.

Lemma tapes_polygon rows : tapes (polygon_recorded rows).
Proof. apply tapes_zero_rows, tapes_array, tapes_ring. Qed.

Lemma tapes_bodies (f : ColumnType -> RawColumnState -> Z -> arena unit) rows types : forall states,
  Forall (fun t => forall s n, tapes (f t s n)) types -> tapes (for_each (bodies f types states) (fun body => body rows)).
Proof.
  induction types as [|t types IH]; intros states H; [apply tapes_ret|]. inversion H; subst. cbn [bodies]. rewrite for_each_cons.
  apply tapes_bind; auto.
Qed.

Lemma tapes_body ct : forall state rows, tapes (body_recorded_with sub ct state rows).
Proof.
  type_induction ct; cbn [body_recorded_with].
  - intros t IH state rows. apply tapes_zero_rows. tapes; auto.
  - intros t IH state rows. apply tapes_zero_rows, tapes_array; auto.
  - intros k v IHk IHv state rows. apply tapes_zero_rows.
    destruct (match state with SMap k v => (k, v) | _ => (SNone, SNone) end). apply tapes_array. tapes; auto.
  - intros ts IH state rows. apply tapes_zero_rows, tapes_bodies, IH.
  - intros t IH state rows. apply tapes_zero_rows, tapes_lc; auto.
  - intros ts _ state rows. apply tapes_zero_rows, tapes_variant_body.
  - intros t. destruct t; try exact I; intros state rows; apply tapes_zero_rows; try apply tapes_array;
      auto using tapes_point, tapes_ring, tapes_polygon; try (unfold simple_recorded; tapes; fail);
      destruct state; tapes; auto using tapes_json_body, tapes_dynamic_body.
Qed.
End Bodies.

Lemma tapes_column_body ct state rows : tapes (read_column_body_raw_recorded ct state rows).
Proof.
  apply (tapes_deep recorded_step); [|intros; apply tapes_throw]. intros self Hself [[t s] n]. now apply tapes_body.
Qed.

Lemma tapes_column type_name rows : tapes (read_column_raw_recorded type_name rows).
Proof.
  pose proof tapes_column_state. pose proof tapes_column_body. unfold read_column_raw_recorded. tapes; auto.
Qed.

(** ** The two engines read raw columns alike

    [refines m m']: within one column's budget, what [m] accepts [m'] accepts with the same
    value, arena, budget and rest. *)
Definition refines {A} (m m' : arena A) : Prop :=
  forall data budget l a data' budget' rest, 0 <= budget <= MAX_COLUMN_BYTES -> blen data + blen l <= ISIZE_MAX ->
  run (m data budget) l = Ok ((a, data', budget'), rest) ->
  run (m' data budget) l = Ok ((a, data', budget'), rest) /\ 0 <= budget' <= MAX_COLUMN_BYTES /\ blen data' + blen rest <= ISIZE_MAX.

Lemma refines_ret {A} (a : A) : refines (ret a) (ret a).
Proof. intros data budget l a' data' budget' rest Hb Hl E. cbn in E |- *. now inj. Qed.

Lemma refines_throw {A} (e : error) (m : arena A) : refines (throw e) m.
Proof. intros data budget l a' data' budget' rest Hb Hl E. discriminate. Qed.

Lemma refines_lift {A} (r r' : result error A) : (forall a, r = Ok a -> r' = Ok a) -> refines (lift r) (lift r').
Proof.
  intros H data budget l a' data' budget' rest Hb Hl E. destruct r as [a|e]; [|discriminate]. rewrite (H a eq_refl).
  cbn in E |- *. now inj.
Qed.

(** The bind rule, with what is known of the intermediate value. *)
Lemma refines_bind_if {A B} (P : A -> Prop) (m m' : arena A) (f f' : A -> arena B) :
  refines m m' -> (forall data budget l a data' budget' rest, run (m data budget) l = Ok ((a, data', budget'), rest) -> P a) ->
  (forall a, P a -> refines (f a) (f' a)) -> refines (bind m f) (bind m' f').
Proof.
  intros Hm HP Hf data budget l b data' budget' rest Hb Hl E. apply run_arena_bind_inv in E as (a & d1 & b1 & l1 & E1 & E2).
  pose proof (HP _ _ _ _ _ _ _ E1) as Ha. apply Hm in E1 as (E1 & Hb1 & Hl1); auto. rewrite run_arena_bind, E1. now apply Hf.
Qed.

Lemma refines_bind {A B} (m m' : arena A) (f f' : A -> arena B) :
  refines m m' -> (forall a, refines (f a) (f' a)) -> refines (bind m f) (bind m' f').
Proof. intros Hm Hf. now apply (refines_bind_if (fun _ => True)). Qed.

Lemma refines_lift_bind {A B} (r r' : result error A) (f f' : A -> arena B) :
  (forall a, r = Ok a -> r' = Ok a) -> (forall a, r = Ok a -> refines (f a) (f' a)) -> refines (let* a := lift r in f a) (let* a := lift r' in f' a).
Proof.
  intros Hr Hf. apply (refines_bind_if (fun a => r = Ok a)); [now apply refines_lift| |exact Hf].
  intros data budget l a data' budget' rest E. destruct r; [|discriminate]. cbn in E. now inj.
Qed.

Lemma refines_trans {A} (m1 m2 m3 : arena A) : refines m1 m2 -> refines m2 m3 -> refines m1 m3.
Proof. intros H1 H2 data budget l a data' budget' rest Hb Hl E. destruct (H1 _ _ _ _ _ _ _ Hb Hl E) as (E1 & _). exact (H2 _ _ _ _ _ _ _ Hb Hl E1). Qed.

Lemma refines_if {A} (b : bool) (m1 m2 m1' m2' : arena A) :
  refines m1 m1' -> refines m2 m2' -> refines (if b then m1 else m2) (if b then m1' else m2').
Proof. now destruct b. Qed.

Lemma refines_repeat_n n (m m' : arena unit) : refines m m' -> refines (repeat_n n m) (repeat_n n m').
Proof. intros Hm. induction n as [|n IH]; [apply refines_ret|]. now apply refines_bind. Qed.

Lemma refines_collect_n {A} n (m m' : arena A) : refines m m' -> refines (collect_n n m) (collect_n n m').
Proof.
  intros Hm. induction n as [|n IH]; [apply refines_ret|]. apply refines_bind; [exact Hm|intros x].
  apply refines_bind; [exact IH|intros xs; apply refines_ret].
Qed.

Lemma refines_for_each {A} (l : list A) (f f' : A -> arena unit) :
  (forall a, In a l -> refines (f a) (f' a)) -> refines (for_each l f) (for_each l f').
Proof.
  induction l as [|a l IH]; intros H; [apply refines_ret|]. rewrite !for_each_cons.
  apply refines_bind; [apply H; now left|]. intros _. apply IH. intros b Hb. apply H. now right.
Qed.

Lemma refines_map_each {A B} (l : list A) (f f' : A -> arena B) :
  (forall a, In a l -> refines (f a) (f' a)) -> refines (map_each l f) (map_each l f').
Proof.
  induction l as [|a l IH]; intros H; [apply refines_ret|]. rewrite !map_each_cons.
  apply refines_bind; [apply H; now left|]. intros b. apply refines_bind; [|intros bs; apply refines_ret].
  apply IH. intros c Hc. apply H. now right.
Qed.

Lemma refines_quiet {A} (f : bytes -> A) : refines (fun data budget => RRet (f data, data, budget)) (fun data budget => RRet (f data, data, budget)).
Proof. intros data budget l a data' budget' rest Hb Hl E. cbn in E |- *. now inj. Qed.

Lemma refines_data_len : refines data_len data_len.
Proof. exact (refines_quiet blen). Qed.

Lemma refines_data_slice start end_ : refines (data_slice start end_) (data_slice start end_).
Proof. exact (refines_quiet (fun data => slice data start end_)). Qed.

Lemma refines_data_from start : refines (data_from start) (data_from start).
Proof. exact (refines_quiet (drop start)). Qed.

Create HintDb refines discriminated.
#[export] Hint Resolve refines_ret refines_throw refines_data_len refines_data_slice refines_data_from : refines.

(** Follow the structure of two readers at once. *)
Ltac refines :=
  repeat first
    [ progress intros
    | solve [auto with refines nocore]
    | apply refines_lift; solve [auto] | apply refines_bind | apply refines_if | apply refines_repeat_n | apply refines_collect_n
    | apply refines_map_each | apply refines_for_each ].

Lemma run_read_exact_recorded n data budget l r : run (read_exact_recorded n data budget) l = Ok r ->
  n <= MAX_COLUMN_BYTES /\ n <= budget /\ n <= blen l /\ r = ((tt, data ++ take n l, budget - n), drop n l).
Proof.
  unfold read_exact_recorded. destruct (Z.ltb_spec MAX_COLUMN_BYTES n) as [|Hmax]; [discriminate|].
  rewrite run_arena_bind. unfold charge_budget, checked_sub. destruct (Z.leb_spec n budget) as [Hc|]; [|discriminate].
  change (run (RRet (tt, data, budget - n)) l) with (Ok (E := error) ((tt, data, budget - n), l)). cbv iota beta.
  rewrite run_arena_bind. change (run (data_len data (budget - n)) l) with (Ok (E := error) ((blen data, data, budget - n), l)).
  cbv iota beta. rewrite run_arena_bind. destruct (checked_add (blen data) n) as [end_|]; [|discriminate].
  change (run (lift (M := arena) (ok_or (Some end_) _) data (budget - n)) l) with (Ok (E := error) ((end_, data, budget - n), l)).
  cbv iota beta. rewrite run_arena_bind, run_unrecorded, run_read_exact. destruct (Z.leb_spec n (blen l)); [|discriminate].
  rewrite run_append. intros E. apply Ok_inj in E. auto.
Qed.

Lemma refines_exact n : 0 <= n -> refines (read_exact_recorded n) (read_exact_into n).
Proof.
  intros Hn data budget l [] data' budget' rest Hb Hl E. apply run_read_exact_recorded in E as (Hmax & Hc & Hlen & E). inj.
  pose proof (blen_nonneg data). split; [|split; [lia|]].
  - apply run_read_exact_into; auto. unfold ISIZE_MAX, USIZE_MAX in *. repeat split; auto; lia.
  - rewrite blen_app, blen_take, blen_drop by lia. lia.
Qed.
#[export] Hint Resolve refines_exact : refines.

Lemma refines_varint_loop fuel : forall r shift, refines (read_varint_recorded_loop fuel r shift) (read_varint_into_loop fuel r shift).
Proof.
  induction fuel as [|fuel IH]; intros r shift; cbn [read_varint_recorded_loop read_varint_into_loop]; [refines|].
  apply refines_if; [refines|]. intros data budget l a data' budget' rest Hb Hl.
  rewrite !run_arena_bind, !run_unrecorded, run_read1. destruct l as [|b l]; [discriminate|].
  rewrite !run_arena_bind. unfold charge_budget, checked_sub. destruct (Z.leb_spec 1 budget) as [Hc|]; [|discriminate].
  change (run (RRet (tt, data, budget - 1)) l) with (Ok (E := error) ((tt, data, budget - 1), l)). cbv iota beta.
  rewrite !run_arena_bind, !run_append. cbv iota beta zeta. cbn [byte0].
  assert (blen (data ++ [b]) + blen l <= ISIZE_MAX) as Hl' by (rewrite blen_app, !blen_cons, blen_nil in *; lia).
  destruct (_ && _); [discriminate|]. destruct (_ =? 0); [|apply IH; [lia|exact Hl']]. apply refines_ret; [lia|exact Hl'].
Qed.

Lemma refines_varint : refines read_varint_recorded read_varint_into.
Proof. apply refines_varint_loop. Qed.

Lemma varint_recorded_nonneg fuel : forall r shift, 0 <= r -> forall data budget l v data' budget' rest,
  run (read_varint_recorded_loop fuel r shift data budget) l = Ok ((v, data', budget'), rest) -> 0 <= v.
Proof.
  induction fuel as [|fuel IH]; intros r shift Hr data budget l v data' budget' rest; cbn [read_varint_recorded_loop]; [discriminate|].
  destruct (_ <=? _); [discriminate|]. intros E. apply run_arena_bind_inv in E as (bs & d1 & b1 & l1 & _ & E).
  apply run_arena_bind_inv in E as ([] & d2 & b2 & l2 & _ & E). apply run_arena_bind_inv in E as ([] & d3 & b3 & l3 & _ & E).
  destruct (_ && _); [discriminate|].
  assert (0 <= Z.lor r (u64_shl (Z.land (byte0 bs) 127) shift)) as Hr' by (apply Z.lor_nonneg; split; [assumption|]; apply Z.mod_pos_bound; lia).
  destruct (_ =? 0); [cbn in E; inj; exact Hr'|]. exact (IH _ _ Hr' _ _ _ _ _ _ _ E).
Qed.

(** A number that is then used as it came. *)
Lemma refines_varint_bind {B} (f f' : Z -> arena B) : (forall v, 0 <= v -> refines (f v) (f' v)) ->
  refines (let* v := read_varint_recorded in f v) (let* v := read_varint_into in f' v).
Proof.
  intros Hf. apply (refines_bind_if (fun v => 0 <= v)); [apply refines_varint| |exact Hf].
  intros data budget l v data' budget' rest. now apply (varint_recorded_nonneg 11 0 0).
Qed.

Lemma refines_u64 : refines read_u64_recorded read_u64_into.
Proof.
  apply refines_bind; [apply refines_data_len|intros start]. apply refines_bind; [apply refines_exact; lia|intros []].
  apply refines_bind; [apply refines_data_slice|intros bs]. apply refines_ret.
Qed.

Lemma u64_recorded_nonneg data budget l v data' budget' rest :
  run (read_u64_recorded data budget) l = Ok ((v, data', budget'), rest) -> 0 <= v.
Proof.
  intros E. apply run_arena_bind_inv in E as (st & d1 & b1 & l1 & _ & E). apply run_arena_bind_inv in E as ([] & d2 & b2 & l2 & _ & E).
  apply run_arena_bind_inv in E as (bs & d3 & b3 & l3 & _ & E). cbn in E. inj. apply from_le_bound.
Qed.

Lemma refines_u64_bind {B} (f f' : Z -> arena B) : (forall v, 0 <= v -> refines (f v) (f' v)) ->
  refines (let* v := read_u64_recorded in f v) (let* v := read_u64_into in f' v).
Proof. intros Hf. apply (refines_bind_if (fun v => 0 <= v)); [apply refines_u64|exact u64_recorded_nonneg|exact Hf]. Qed.

Lemma refines_string_len {B} v name name' (f f' : Z -> arena B) : 0 <= v -> (forall n, 0 <= n -> refines (f n) (f' n)) ->
  refines (let* n := lift (protocol (checked_string_len v name)) in f n) (let* n := lift (protocol (checked_string_len v name')) in f' n).
Proof.
  intros Hv Hf. apply refines_lift_bind; intros n E; apply map_err_inv, checked_string_len_inv in E as [-> Hmax].
  - unfold protocol. now rewrite checked_string_len_ok.
  - now apply Hf.
Qed.

Lemma refines_fixed rows width what : 0 <= rows -> 0 <= width -> refines (read_fixed_recorded rows width what) (read_fixed_into rows width what).
Proof.
  intros Hr Hw. apply refines_lift_bind; [auto|]. intros n E. apply map_err_inv, checked_column_len_inv in E as [-> _].
  apply refines_exact. lia.
Qed.

Lemma refines_string_rows rows name : refines (read_string_rows_recorded rows name) (read_string_rows_into rows name).
Proof.
  apply refines_repeat_n, refines_varint_bind. intros v Hv. apply refines_string_len; [exact Hv|]. exact refines_exact.
Qed.
#[export] Hint Resolve refines_varint refines_u64 refines_fixed refines_string_rows : refines.

Lemma refines_tail {B} n (f f' : bytes -> arena B) : 0 <= n -> (forall bs, refines (f bs) (f' bs)) ->
  refines (let* start := data_len in read_exact_recorded n ;; let* bs := data_from start in f bs)
          (let* start := data_len in read_exact_into n ;; let* bs := data_slice start (start + n) in f' bs).
Proof.
  intros Hn Hf data budget l a data' budget' rest Hb Hl. rewrite !run_arena_bind.
  change (run (data_len data budget) l) with (Ok (E := error) ((blen data, data, budget), l)). cbv iota beta. rewrite !run_arena_bind.
  destruct (run (read_exact_recorded n data budget) l) as [[[[[] d1] b1] l1]|e] eqn:E; [|discriminate].
  destruct (refines_exact n Hn _ _ _ _ _ _ _ Hb Hl E) as (E' & Hb1 & Hl1). rewrite E'. rewrite !run_arena_bind.
  apply run_read_exact_recorded in E as (_ & _ & Hlen & E). injection E as -> _ _. cbn [data_from data_slice run run_with].
  rewrite drop_app_exact. replace (slice (data ++ take n l) (blen data) (blen data + n)) with (take n l); [now apply Hf|].
  unfold slice. rewrite drop_app_exact. replace (blen data + n - blen data) with n by lia. symmetry.
  rewrite <- (take_all (take n l)) at 2. f_equal. rewrite blen_take; lia.
Qed.

Lemma refines_string name : refines (read_string_recorded name) (read_string_into (str name)).
Proof.
  unfold read_string_recorded, read_string_into. apply refines_varint_bind. intros v Hv. apply refines_string_len; [exact Hv|]. intros n Hn.
  apply refines_tail; [exact Hn|]. intros bs. apply refines_lift. intros s. unfold from_utf8. destruct (utf8_valid bs); [auto|discriminate].
Qed.

Lemma refines_json_paths d d' : refines d d' -> refines (read_json_paths_recorded d) (read_json_paths_into d').
Proof.
  intros Hd. apply refines_bind; [apply refines_varint|intros v]. apply refines_bind; [now apply refines_lift|intros n].
  apply refines_bind; [|intros _; now apply refines_collect_n]. apply refines_repeat_n, refines_bind; [apply refines_string|intros; apply refines_ret].
Qed.

Lemma refines_json_state d d' : refines d d' -> refines (read_json_state_prefix_recorded d) (read_json_state_prefix_into d').
Proof.
  intros Hd. pose proof (refines_json_paths d d' Hd). unfold read_json_state_prefix_recorded, read_json_state_prefix_into. refines.
Qed.

Lemma refines_state_prefix d d' ct : refines d d' -> refines (state_prefix_recorded_with d ct) (read_state_prefix_with d' ct).
Proof.
  intros Hd. pose proof (refines_json_state d d' Hd).
  type_induction ct; cbn [state_prefix_recorded_with read_state_prefix_with]; try (intros; refines; fail).
  - intros ts IH. rewrite Forall_forall in IH. refines; auto.
  - intros ts IH. rewrite Forall_forall in IH. refines; auto.
  - intros t. destruct t; try exact I; cbn [state_prefix_recorded_with read_state_prefix_with]; refines.
Qed.

Lemma refines_dynamic_names version : refines (dynamic_names_recorded version) (read_dynamic_names_into version).
Proof.
  assert (refines (read_dynamic_type_names_recorded "dynamic subcolumn types") (read_dynamic_type_names_into (str "dynamic subcolumn types"))).
  { pose proof (refines_string "dynamic type length"). unfold read_dynamic_type_names_recorded, read_dynamic_type_names_into. refines. }
  unfold dynamic_names_recorded, read_dynamic_names_into. refines.
Qed.

(** Two recursions of the same depth, one step at a time. *)
Lemma refines_dynamic_state : refines read_dynamic_state_prefix_recorded read_dynamic_state_prefix_into.
Proof.
  apply (deep_related (fun f f' => refines (f tt) (f' tt)) dynamic_state_recorded_step dynamic_state_step).
  - intros f f' Hf. unfold dynamic_state_recorded_step, dynamic_state_step.
    apply refines_bind; [apply refines_u64|intros version]. apply refines_bind; [apply refines_dynamic_names|intros names].
    apply refines_bind; [|intros; apply refines_ret]. apply refines_map_each. intros name _.
    apply refines_bind; [now apply refines_lift|intros ct]. now apply refines_state_prefix.
  - apply refines_throw.
Qed.

Lemma refines_column_state ct : refines (read_column_state_prefix_recorded ct) (read_column_state_prefix_into ct).
Proof. apply refines_state_prefix, refines_dynamic_state. Qed.

(** *** Bodies *)

(** The recursive calls agree on columns with rows. *)
Definition bodies_refine (sub sub' : raw_body) : Prop :=
  forall ct state rows, wf_type ct = true -> 0 <= rows -> refines (sub (ct, state, rows)) (sub' (ct, state, rows)).

Lemma refines_offsets rows name : 0 <= rows -> refines (read_offsets_recorded rows name) (read_offset_rows (Z.to_nat rows) name 0).
Proof.
  intros Hr. apply (refines_trans _ (read_offsets_into rows name)).
  - unfold read_offsets_recorded, read_offsets_into. apply refines_lift_bind; [auto|]. intros n E.
    apply map_err_inv, checked_column_len_inv in E as [-> _]. apply refines_bind; [apply refines_data_len|intros start].
    apply refines_bind; [apply refines_exact; lia|intros _]. apply refines_bind; [apply refines_data_from|intros bs]. now apply refines_lift.
  - intros data budget l a data' budget' rest Hb Hl E. pose proof (blen_nonneg data). pose proof (blen_nonneg l).
    destruct (records_read_offsets_into rows name Hr) as [Hadv Hs _]. rewrite <- (drop_0 l) in E.
    apply Hs in E as (pos' & E & -> & -> & -> & Hb'); [|lia..].
    pose proof (Hadv l 0 a pos' ltac:(lia) E) as Hpos. rewrite blen_app, blen_slice, blen_drop by lia. split; [|lia].
    rewrite <- (drop_0 l) at 1. apply (records_complete (records_read_offset_rows (Z.to_nat rows) name 0)); try lia.
    exists pos'. repeat split; auto. apply offsets_loop_accepts; auto; lia.
Qed.

Lemma refines_array name inner inner' rows : 0 <= rows -> (forall n, 0 <= n -> refines (inner n) (inner' n)) ->
  refines (array_recorded name inner rows) (raw_array name inner' rows).
Proof.
  intros Hr Hi. apply refines_bind; [now apply refines_offsets|]. intros total.
  destruct (Z.ltb_spec 0 total); [apply Hi; lia|apply refines_ret].
Qed.

Lemma refines_lift_ok {A B} (a : A) (f : A -> arena B) (m : arena B) : refines (f a) m -> refines (let* a := lift (Ok a) in f a) m.
Proof. intros H. exact H. Qed.

Lemma lc_width_ok version serial_type w : lc_idx_width version serial_type = Ok w -> version = 1 /\ w = Z.shiftl 1 (Z.land serial_type 3).
Proof.
  unfold lc_idx_width. destruct (Z.eqb_spec version 1); [|discriminate]. cbn [negb]. destruct (negb _); [discriminate|].
  destruct (_ =? 0); [discriminate|]. intros E. apply Ok_inj in E. auto.
Qed.

Lemma refines_lc dict dict' rows : (forall n, 0 <= n -> refines (dict n) (dict' n)) ->
  refines (read_lc_body_raw_recorded dict rows) (read_lc_body_raw_into dict' rows).
Proof.
  intros Hd. unfold read_lc_body_raw_recorded, read_lc_body_raw_into.
  apply refines_bind; [apply refines_data_len|intros start]. apply refines_bind; [apply refines_exact; lia|intros _].
  apply refines_bind; [apply refines_data_slice|intros meta]. cbv zeta.
  set (version := from_le (slice meta 0 8)). set (serial_type := from_le (slice meta 8 16)).
  destruct (lc_idx_width version serial_type) as [w|e] eqn:Ew.
  2: { intros data budget l a data' budget' rest _ _ E. apply run_arena_bind_inv in E as (n & d1 & b1 & l1 & _ & E). discriminate. }
  pose proof (lc_idx_width_pos _ _ _ Ew) as Hw. apply lc_width_ok in Ew as [-> ->]. cbn [Z.eqb Pos.eqb negb].
  apply refines_bind; [now apply refines_lift|intros num_keys].
  apply refines_lift_ok. apply refines_bind; [destruct (Z.ltb_spec 0 num_keys); [apply Hd; lia|apply refines_ret]|intros _].
  apply refines_u64_bind. intros count Hcount. apply refines_lift_bind; [auto|]. intros indexes Hi.
  apply ok_or_inv, usize_try_from_nonneg in Hi; [|exact Hcount]. apply refines_if; [apply refines_throw|]. apply refines_fixed; lia.
Qed.

Lemma refines_zero_rows rows m m' : (rows <> 0 -> refines m m') -> refines (zero_rows rows m) (zero_rows rows m').
Proof. intros Hm. unfold zero_rows. destruct (Z.eqb_spec rows 0); [apply refines_ret|auto]. Qed.

Lemma refines_point rows : 0 <= rows -> refines (point_recorded rows) (read_point_raw rows).
Proof. intros Hr. apply refines_zero_rows. intros _. apply refines_bind; intros; apply refines_fixed; lia. Qed.

Lemma refines_ring rows : 0 <= rows -> refines (ring_recorded rows) (read_ring_raw rows).
Proof. intros Hr. apply refines_zero_rows. intros _. apply refines_array; [exact Hr|exact refines_point]. Qed.

Lemma refines_polygon rows : 0 <= rows -> refines (polygon_recorded rows) (read_polygon_raw rows).
Proof. intros Hr. apply refines_zero_rows. intros _. apply refines_array; [exact Hr|exact refines_ring]. Qed.

Lemma fixed_width_nonneg ct w : wf_type ct = true -> fixed_width ct = Some w -> 0 <= w.
Proof.
  destruct ct; cbn; try discriminate; intros Hwf E; repeat match type of E with context [if ?b then _ else _] => destruct b end;
    try discriminate; injection E as <-; lia.
Qed.

Section Engines.
Context (sub sub' : raw_body) (Hsub : bodies_refine sub sub').

Lemma refines_subcolumns what type_names : forall i type_states counts, nonneg counts ->
  refines (subcolumns_recorded sub what i type_names type_states counts) (read_subcolumns_from sub' i type_names type_states counts).
Proof.
  induction type_names as [|name type_names IH]; intros i type_states [|c counts] Hc; cbn [subcolumns_recorded read_subcolumns_from];
    try apply refines_ret.
  inversion Hc; subst. apply refines_bind; [|intros _; now apply IH].
  destruct (Z.ltb_spec 0 c), (Z.eqb_spec c 0); try lia; [|apply refines_ret]. unfold bad_type, parse_dynamic_type.
  destruct (parse_type name) as [ct|e] eqn:E; [|apply refines_throw]. apply Hsub; [exact (proj1 (parse_type_rec_bounded _ _ _ E))|lia].
Qed.

(** What was recorded and is then looked at. *)
Lemma refines_slice {B} n (f f' : bytes -> arena B) : 0 <= n -> (forall bs, refines (f bs) (f' bs)) ->
  refines (let* start := data_len in read_exact_recorded n ;; let* bs := data_slice start (start + n) in f bs)
          (let* start := data_len in read_exact_into n ;; let* bs := data_slice start (start + n) in f' bs).
Proof.
  intros Hn Hf. apply refines_bind; [apply refines_data_len|intros start]. apply refines_bind; [now apply refines_exact|intros _].
  apply refines_bind; [apply refines_data_slice|exact Hf].
Qed.

Lemma refines_counted {A} (decode : A -> result error Z) null what what' names type_states (items : list A) :
  refines (let* counts := lift (dynamic_counts decode null what (repeat 0 (length names)) items) in
           subcolumns_recorded sub what' 0 names type_states counts)
          (let* counts := lift (dynamic_counts decode null what (repeat 0 (length names)) items) in
           read_dynamic_subcolumns_into sub' names type_states counts).
Proof.
  apply refines_lift_bind; [auto|]. intros counts E. apply refines_subcolumns. eapply nonneg_dynamic_counts; [|exact E]. apply nonneg_zeros.
Qed.

Lemma refines_dynamic_body state rows : 0 <= rows ->
  refines (read_dynamic_body_raw_recorded sub state rows) (read_dynamic_body_into sub' state rows).
Proof.
  intros Hr. destruct state as [version names states]. cbn [read_dynamic_body_raw_recorded read_dynamic_body_into].
  apply refines_if; [apply refines_ret|]. apply refines_if; [|apply refines_if; [|apply refines_throw]].
  - apply refines_if; [apply refines_ret|]. apply refines_slice; [exact Hr|]. intros bs. apply refines_counted.
  - apply refines_if; [apply refines_ret|]. cbv zeta. apply refines_lift_bind; [auto|]. intros n E.
    apply map_err_inv, checked_column_len_inv in E as [-> _]. pose proof (dynamic_width_pos (blen names)).
    apply refines_slice; [nia|]. intros bs. apply refines_counted.
Qed.

Lemma refines_json_body state rows : 0 <= rows ->
  refines (read_json_body_raw_recorded sub state rows) (read_json_body_into sub' state rows).
Proof.
  intros Hr. destruct state as [version paths]. cbn [read_json_body_raw_recorded read_json_body_into].
  assert (refines (for_each paths (fun d => read_dynamic_body_raw_recorded sub d rows)) (for_each paths (fun d => read_dynamic_body_into sub' d rows)))
    by (apply refines_for_each; intros; now apply refines_dynamic_body).
  apply refines_if; [apply refines_string_rows|]. apply refines_if; [assumption|]. apply refines_if; [|apply refines_throw].
  apply refines_bind; [assumption|intros _]. apply refines_fixed; lia.
Qed.

Lemma refines_variant types states rows : 0 <= rows ->
  refines (read_variant_body_raw_recorded sub types states rows) (read_variant_body_into sub' types states rows).
Proof.
  intros Hr. unfold read_variant_body_raw_recorded, read_variant_body_into, read_variant_types_body_raw_recorded, read_variant_types_body_into.
  apply refines_bind; [apply refines_u64|intros mode]. apply refines_if; [apply refines_ret|]. apply refines_if; [|apply refines_if; [|apply refines_throw]].
  - apply refines_slice; [exact Hr|]. intros bs. apply refines_subcolumns. apply nonneg_variant_counts.
  - apply refines_bind; [apply refines_u64|intros d]. apply refines_bind; [now apply refines_lift|intros disc]. cbv zeta iota.
    apply refines_bind; [apply refines_u64|intros r]. apply refines_bind; [now apply refines_lift|intros n].
    apply refines_if; [apply refines_throw|]. destruct (_ <? blen _); [|apply refines_ret]. destruct (Z.ltb_spec 0 n); [|apply refines_ret].
    cbn [andb]. unfold bad_type. destruct (parse_type _) as [ct|e] eqn:E; [|apply refines_throw].
    apply Hsub; [exact (proj1 (parse_type_rec_bounded _ _ _ E))|lia].
Qed.

Lemma refines_bodies rows types : forall states,
  Forall (fun t => forall s, refines (body_recorded_with sub t s rows) (read_raw_with sub' t s rows)) types ->
  refines (for_each (bodies (body_recorded_with sub) types states) (fun body => body rows))
          (for_each (bodies (read_raw_with sub') types states) (fun body => body rows)).
Proof.
  induction types as [|t types IH]; intros states H; [apply refines_ret|]. inversion H; subst. cbn [bodies]. rewrite !for_each_cons.
  apply refines_bind; [auto|intros _; now apply IH].
Qed.

Lemma refines_simple ct rows : wf_type ct = true -> 0 <= rows -> refines (simple_recorded ct rows) (read_simple_raw ct rows).
Proof.
  intros Hwf Hr. pose proof (fixed_width_nonneg ct) as Hw.
  assert (refines (let* width := lift (ok_or (fixed_width ct) (Protocol (Msg "unknown type {ct}" [AS (to_string ct)]))) in
                   read_fixed_recorded rows width "fixed-width column")
                  (let* width := lift (ok_or (fixed_width ct) (Protocol (Msg "unknown type {ct}" [AS (to_string ct)]))) in
                   read_fixed_into rows width "fixed-width column")) as Hfix.
  { apply refines_lift_bind; [auto|]. intros w E. apply ok_or_inv in E. apply refines_fixed; auto. }
  destruct ct; try exact Hfix; cbn [simple_recorded read_simple_raw]; try apply refines_string_rows; try apply refines_throw.
  cbn in Hwf. apply refines_fixed; lia.
Qed.

Lemma refines_body ct : wf_type ct = true -> forall state rows, 0 <= rows ->
  refines (body_recorded_with sub ct state rows) (read_raw_with sub' ct state rows).
Proof.
  type_induction ct; cbn [wf_type body_recorded_with read_raw_with].
  - intros t IH Hwf state rows Hr. apply refines_zero_rows. intros _. apply refines_bind; [now apply refines_exact|intros _; now apply IH].
  - intros t IH Hwf state rows Hr. apply refines_zero_rows. intros _. apply refines_array; auto.
  - intros k v IHk IHv Hwf state rows Hr. apply andb_prop in Hwf as [Hk Hv]. apply refines_zero_rows. intros _.
    destruct (match state with SMap k v => (k, v) | _ => (SNone, SNone) end). apply refines_array; [exact Hr|]. intros n Hn.
    apply refines_bind; auto.
  - intros ts IH Hwf state rows Hr. apply refines_zero_rows. intros _. apply refines_bodies. rewrite forallb_forall in Hwf.
    rewrite Forall_forall in *. auto.
  - intros t IH Hwf state rows Hr. apply refines_zero_rows. intros _. apply refines_lc. auto.
  - intros ts _ Hwf state rows Hr. apply refines_zero_rows. intros _. now apply refines_variant.
  - intros t. destruct t; try exact I; intros Hwf state rows Hr; apply refines_zero_rows; intros _;
      try exact (refines_simple _ _ Hwf Hr).
    + destruct state; try apply refines_throw. now apply refines_json_body.
    + destruct state; try apply refines_throw. now apply refines_dynamic_body.
    + apply refines_bind; intros; apply refines_fixed; lia.
    + apply refines_array; [exact Hr|exact refines_point].
    + apply refines_array; [exact Hr|exact refines_ring].
    + apply refines_array; [exact Hr|exact refines_polygon].
Qed.
End Engines.

Lemma refines_recursion : bodies_refine recorded_recursion raw_recursion.
Proof.
  apply (deep_related bodies_refine recorded_step raw_step).
  - intros f f' Hf ct state rows Hwf Hr. now apply refines_body.
  - intros ct state rows _ _. apply refines_throw.
Qed.

(** ** Block headers *)

(** [mirrors m r]: what the recorded reader [m] accepts the plain reader [r] accepts with the
    same value and rest. *)
Definition mirrors {A} (m : arena A) (r : reader A) : Prop :=
  forall data budget l a data' budget' rest, run (m data budget) l = Ok ((a, data', budget'), rest) -> run r l = Ok (a, rest).

Lemma mirrors_bind {A B} (m : arena A) (r : reader A) (f : A -> arena B) (g : A -> reader B) :
  mirrors m r -> (forall a, mirrors (f a) (g a)) -> mirrors (bind m f) (bind r g).
Proof.
  intros Hm Hf data budget l b data' budget' rest E. apply run_arena_bind_inv in E as (a & d1 & b1 & l1 & E1 & E2).
  apply Hm in E1. rewrite (run_bind_ok _ _ _ _ _ E1). exact (Hf a _ _ _ _ _ _ _ E2).
Qed.

Lemma mirrors_ret {A} (a : A) : mirrors (ret a) (ret a).
Proof. intros data budget l a' data' budget' rest E. cbn in E |- *. now inj. Qed.

Lemma mirrors_throw {A} (e : error) (r : reader A) : mirrors (throw e) r.
Proof. intros data budget l a' data' budget' rest E. discriminate. Qed.

Lemma mirrors_lift {A} (r r' : result error A) : (forall a, r = Ok a -> r' = Ok a) -> mirrors (lift r) (lift r').
Proof.
  intros H data budget l a' data' budget' rest E. destruct r as [a|e]; [|discriminate]. rewrite (H a eq_refl). cbn in E |- *. now inj.
Qed.

Lemma mirrors_if {A} (b : bool) (m1 m2 : arena A) (r1 r2 : reader A) :
  mirrors m1 r1 -> mirrors m2 r2 -> mirrors (if b then m1 else m2) (if b then r1 else r2).
Proof. now destruct b. Qed.

Lemma mirrors_varint_loop fuel : forall r shift, mirrors (read_varint_recorded_loop fuel r shift) (read_varint_loop fuel r shift).
Proof.
  induction fuel as [|fuel IH]; intros r shift; cbn [read_varint_recorded_loop read_varint_loop]; [apply mirrors_throw|].
  apply mirrors_if; [apply mirrors_throw|]. intros data budget l a data' budget' rest E.
  apply run_arena_bind_inv in E as (bs & d1 & b1 & l1 & E1 & E). rewrite run_unrecorded in E1.
  destruct (run (read_exact_r 1) l) as [[bs' l']|] eqn:Er; [|discriminate]. apply Ok_inj in E1. injection E1 as -> _ _ ->.
  rewrite (run_bind_ok _ _ _ _ _ Er). clear Er. apply run_arena_bind_inv in E as ([] & d2 & b2 & l2 & E2 & E).
  apply run_charge_budget in E2 as [_ E2]. injection E2 as -> -> ->. apply run_arena_bind_inv in E as ([] & d3 & b3 & l3 & E3 & E).
  rewrite run_append in E3. apply Ok_inj in E3. injection E3 as <- <- <-. revert E. cbv zeta.
  apply mirrors_if; [apply mirrors_throw|]. apply mirrors_if; [apply mirrors_ret|apply IH].
Qed.

Lemma mirrors_varint : mirrors read_varint_recorded read_varint.
Proof. apply mirrors_varint_loop. Qed.

Lemma mirrors_exact n : mirrors (read_exact_recorded n) (read_exact_r n ;; ret tt).
Proof.
  intros data budget l [] data' budget' rest E. apply run_read_exact_recorded in E as (_ & _ & Hlen & E). injection E as _ _ ->.
  rewrite run_bind, run_read_exact. now destruct (Z.leb_spec n (blen l)); [|lia].
Qed.

(** More rounds than are used. *)
Lemma deep_split {X Y} (step : (X -> Y) -> X -> Y) h h' f : (h <= h')%nat -> exists g, deep h' step f = deep h step g.
Proof.
  intros H. revert f. induction H as [|h' H IH]; intros f; [now exists f|]. cbn [deep].
  destruct (IH (fun a => deep h' step f a)) as [g E]. now exists g.
Qed.

Lemma mirrors_deep {X A} (step : (X -> arena A) -> X -> arena A) (step' : (X -> reader A) -> X -> reader A) h h' f f' :
  (h <= h')%nat -> (forall g g', (forall x, mirrors (g x) (g' x)) -> forall x, mirrors (step g x) (step' g' x)) ->
  (forall g' x, mirrors (f x) (g' x)) -> forall x, mirrors (deep h step f x) (deep h' step' f' x).
Proof.
  intros Hh Hstep Hf. destruct (deep_split step' h h' f' Hh) as [g ->]. clear Hh. generalize (fun x => Hf g x). clear Hf. revert f g.
  induction h as [|h IH]; intros f g Hfg x; [now apply Hstep|]. cbn [deep]. apply IH. intros y. now apply IH.
Qed.

Lemma mirrors_exact_then {A} n (m : arena A) (r : reader A) : mirrors m r -> mirrors (read_exact_recorded n ;; m) (read_exact_r n ;; r).
Proof.
  intros Hm data budget l a data' budget' rest E. apply run_arena_bind_inv in E as ([] & d1 & b1 & l1 & E1 & E).
  apply run_read_exact_recorded in E1 as (_ & _ & Hlen & E1). injection E1 as -> -> ->.
  rewrite run_bind, run_read_exact. destruct (Z.leb_spec n (blen l)); [|lia]. exact (Hm _ _ _ _ _ _ _ E).
Qed.

Lemma mirrors_block_info : mirrors block_info_recorded skip_block_info_from_reader.
Proof.
  apply (mirrors_deep block_info_recorded_step block_info_step); [unfold RAW_LEVELS, STREAM_BITS; lia| |intros; apply mirrors_throw].
  intros g g' Hg []. unfold block_info_recorded_step, block_info_step. apply mirrors_bind; [apply mirrors_varint|intros d].
  apply mirrors_if; [apply mirrors_ret|]. apply mirrors_if; [now apply mirrors_exact_then|]. apply mirrors_if; [now apply mirrors_exact_then|].
  apply mirrors_if; [|apply mirrors_throw]. apply mirrors_bind; [apply mirrors_varint|intros _; apply Hg].
Qed.

Lemma mirrors_counts : mirrors block_counts_recorded read_block_counts.
Proof.
  unfold block_counts_recorded, read_block_counts. apply mirrors_bind; [exact mirrors_block_info|intros _].
  apply mirrors_bind; [apply mirrors_varint|intros c]. apply mirrors_bind; [now apply mirrors_lift|intros columns].
  apply mirrors_bind; [apply mirrors_varint|intros r]. apply mirrors_bind; [now apply mirrors_lift|intros rows]. apply mirrors_ret.
Qed.

Lemma wire_string_len v name n : protocol (checked_string_len v name) = Ok n -> wire_checked_string_len v = Ok n.
Proof.
  intros E. apply map_err_inv in E. unfold checked_string_len in E. unfold wire_checked_string_len.
  destruct (usize_try_from v); [|discriminate]. cbn in E |- *. destruct (_ <? _); [discriminate|]. apply Ok_inj in E. now subst.
Qed.

Lemma mirrors_string name : mirrors (read_string_recorded name) read_string.
Proof.
  unfold read_string_recorded, read_string. apply mirrors_bind; [apply mirrors_varint|intros v].
  apply mirrors_bind; [apply mirrors_lift, wire_string_len|intros n]. intros data budget l a data' budget' rest E.
  apply run_arena_bind_inv in E as (start & d1 & b1 & l1 & E1 & E). cbn in E1. apply Ok_inj in E1. injection E1 as <- <- <- <-.
  apply run_arena_bind_inv in E as ([] & d1 & b1 & l1 & E1 & E). apply run_read_exact_recorded in E1 as (_ & _ & Hlen & E1).
  injection E1 as -> -> ->. rewrite run_bind, run_read_exact. destruct (Z.leb_spec n (blen l)); [|lia].
  rewrite run_arena_bind in E. cbn [data_from run run_with] in E. rewrite drop_app_exact in E. revert E. apply mirrors_lift.
  intros s. unfold from_utf8. destruct (utf8_valid _); [auto|discriminate].
Qed.

(** What the columns take from the stream is appended. *)
Lemma columns_taped n : forall rows raw name_budget meta_budget l raw' rest,
  run (columns_recorded n rows raw name_budget meta_budget) l = Ok (raw', rest) -> exists w, l = w ++ rest /\ raw' = raw ++ w.
Proof.
  induction n as [|n IH]; intros rows raw nb mb l raw' rest E; cbn [columns_recorded] in E.
  { cbn in E. inj. exists []. now rewrite app_nil_r. }
  apply run_bind_inv in E as ([[name r1] nb1] & l1 & E1 & E). apply tapes_string in E1 as (w1 & -> & ->).
  apply run_bind_inv in E as ([[type r2] nb2] & l2 & E2 & E). apply tapes_string in E2 as (w2 & -> & ->).
  apply run_bind_inv in E as ([[[] r3] mb3] & l3 & E3 & E). apply tapes_exact in E3 as (w3 & -> & ->).
  apply run_bind_inv in E as (r4 & l4 & E4 & E).
  assert (exists w4, l3 = w4 ++ l4 /\ r4 = (((raw ++ w1) ++ w2) ++ w3) ++ w4) as (w4 & -> & ->).
  { destruct (0 <? rows); [|cbn in E4; inj; exists []; now rewrite app_nil_r].
    apply run_bind_inv in E4 as ([[[] r5] b5] & l5 & E5 & E4). apply tapes_column in E5 as (w & -> & ->). cbn in E4. inj. now exists w. }
  apply IH in E as (w5 & -> & ->). exists (w1 ++ w2 ++ w3 ++ w4 ++ w5). now rewrite <- !app_assoc.
Qed.

(** C2: a raw block is what the server sent.  When [read_raw_data_block] succeeds, the stream
    held the table name, then exactly the bytes kept in the block, whatever the types of its
    columns are, and the counts of the block are those that the header in these bytes
    states. *)
Theorem raw_block_is_wire (l : bytes) (b : RawBlock) (rest : bytes) :
  run read_raw_data_block l = Ok (b, rest) ->
  run read_string l = Ok (raw_table_name b, raw_data b ++ rest) /\
  exists columns, run read_block_counts (raw_data b ++ rest) = Ok ((raw_columns b, raw_rows b), columns ++ rest) /\
    exists header, raw_data b = header ++ columns.
Proof.
  intros E. apply run_bind_inv in E as ([[name r0] nb] & l1 & E1 & E). apply mirrors_string in E1.
  apply run_bind_inv in E as ([[[c r] r1] mb] & l2 & E2 & E). pose proof (mirrors_counts _ _ _ _ _ _ _ E2) as Hcounts.
  assert (exists header, l1 = header ++ l2 /\ r1 = header) as (header & -> & ->).
  { assert (tapes block_counts_recorded) as Ht; [|destruct (Ht _ _ _ _ _ _ _ E2) as (w & Hw & ->); now exists w].
    assert (tapes block_info_recorded) by (apply (tapes_deep block_info_recorded_step); [|intros; apply tapes_throw];
      intros self Hself []; unfold block_info_recorded_step; tapes).
    unfold block_counts_recorded. tapes. }
  apply run_bind_inv in E as (r2 & l3 & E3 & E). apply columns_taped in E3 as (w & -> & ->). cbn in E. inj.
  cbn [raw_table_name raw_data raw_columns raw_rows]. rewrite <- app_assoc. split; [exact E1|]. exists w. split; [exact Hcounts|now exists header].
Qed.


Lemma raw_block_is_wire_witness :
  run read_string ([x01; x74] ++ sample_block ++ [x09]) = Ok (str "t", sample_block ++ [x09]) /\
  exists columns, run read_block_counts (sample_block ++ [x09]) = Ok ((2, 2), columns ++ [x09]) /\
    exists header, sample_block = header ++ columns.
Proof.
  apply (raw_block_is_wire ([x01; x74] ++ sample_block ++ [x09]) (mkRawBlock (str "t") 2 2 sample_block) [x09]).
  vm_compute. reflexivity.
Defined.

(** C3: the engines read raw columns alike.  A column of any type that the asynchronous
    recorded reader accepts, its Dynamic, JSON and Variant parts with the types named on the
    wire included, is read by the blocking engine's raw reader with the same bytes recorded,
    the same charge and the same place left in the stream.  (The blocking reader accepts more:
    it does not look at the flags of a LowCardinality header.) *)
Theorem raw_columns_alike (type_name : bytes) (ct : ColumnType) (rows : Z) (data : bytes) (budget : Z) (l : bytes)
    (data' : bytes) (budget' : Z) (rest : bytes) :
  parse_type type_name = Ok ct -> 0 <= rows -> 0 <= budget <= MAX_COLUMN_BYTES -> blen data + blen l <= ISIZE_MAX ->
  run (read_column_raw_recorded type_name rows data budget) l = Ok ((tt, data', budget'), rest) ->
  run ((let* state := read_column_state_prefix_into ct in read_column_body_raw_into ct state rows) data budget) l =
    Ok ((tt, data', budget'), rest).
Proof.
  intros Hp Hr Hb Hl. unfold read_column_raw_recorded, bad_type. rewrite Hp. cbn [map_err].
  assert (refines (let* state := read_column_state_prefix_recorded ct in read_column_body_raw_recorded ct state rows)
                  (let* state := read_column_state_prefix_into ct in read_column_body_raw_into ct state rows)) as H.
  { apply refines_bind; [apply refines_column_state|intros state].
    apply (refines_recursion ct state rows); [exact (proj1 (parse_type_rec_bounded _ _ _ Hp))|exact Hr]. }
  intros E. exact (proj1 (H _ _ _ _ _ _ _ Hb Hl E)).
Qed.

(** A Dynamic column with two types, the values of one of them nested. *)
Definition dynamic_sample : bytes :=
  to_le 8 2 ++ [x02; x05] ++ str "UInt8" ++ [x0d] ++ str "Array(String)" ++
  [x01; x00; x02] ++ [x2a] ++ to_le 8 2 ++ [x01; x61; x00].

Lemma raw_columns_alike_witness :
  run ((let* state := read_column_state_prefix_into Dynamic in read_column_body_raw_into Dynamic state 3) [] MAX_COLUMN_BYTES)
      (dynamic_sample ++ [x07]) = Ok ((tt, dynamic_sample, MAX_COLUMN_BYTES - blen dynamic_sample), [x07]).
Proof.
  apply (raw_columns_alike (str "Dynamic") Dynamic 3 [] MAX_COLUMN_BYTES (dynamic_sample ++ [x07])).
  - reflexivity.
  - lia.
  - split; discriminate.
  - discriminate.
  - vm_compute. reflexivity.
Defined.

(** The flags of a LowCardinality header are looked at by one engine only. *)
Lemma lc_flags_differ :
  let column := to_le 8 1 ++ to_le 8 0 ++ to_le 8 1 ++ [x01; x61] ++ to_le 8 1 ++ [x00] in
  is_ok (run (read_column_raw_recorded (str "LowCardinality(String)") 1 [] MAX_COLUMN_BYTES) column) = false /\
  is_ok (run (read_column_body_raw_into (LowCardinality TString) SNone 1 [] MAX_COLUMN_BYTES) column) = true.
Proof. vm_compute. auto. Qed.
