(* ===== verification/BlockWriter.v ===== *)
(** * Writing native blocks

    [shared/block_writer.rs]: the bytes of a block and of a Data packet, the
    capacity computed for them, and the accessors of [shared/block.rs] that size a
    block.  A block that is written is read back by both block readers; the
    capacity is the number of bytes written. *)

From Stdlib Require Import String ZArith Lia Bool List.
From Stdlib Require Import Strings.Byte.
From coqutil Require Import Byte.
From S2P Require Import Prelude Reader Limits Utf8 Wire TypeParser SkipColumn Arena ColumnReader Framing BlockReader.
Import ListNotations.

Open Scope Z_scope.
Open Scope list_scope.

(** ** Writers

    Each writer is the bytes it appends to the output vector. *)

Definition write_column (col : ColumnInfo) : bytes :=
  write_string (name col) ++ write_string (type_name col) ++ [x00] ++ data col.

(** BlockInfo: field 1 is [is_overflows = 0], field 2 is [bucket_num = -1]. *)
Definition write_block_info : bytes :=
  write_varint 1 ++ [x00] ++ write_varint 2 ++ to_le 4 (-1) ++ write_varint 0.

Definition write_block (block : Block) : bytes :=
  write_block_info ++ write_varint (blen (columns block)) ++ write_varint (rows block) ++
  concat (map write_column (columns block)).

Definition write_data_packet (table_name : bytes) (block : Block) : bytes :=
  write_varint 2 ++ write_string table_name ++ write_block block.

(** ** Sizes

    The sums are taken in [usize], which wraps in a release build. *)
Definition usize_wrap (n : Z) : Z := n mod (USIZE_MAX + 1).

Definition column_capacity (col : ColumnInfo) : Z :=
  varint_len (blen (name col)) + blen (name col) +
  varint_len (blen (type_name col)) + blen (type_name col) + 1 + blen (data col).

Definition block_capacity (block : Block) : Z :=
  usize_wrap
    (varint_len 1 + 1 + varint_len 2 + 4 + varint_len 0 +
     varint_len (blen (columns block)) + varint_len (rows block) +
     sum (map column_capacity (columns block))).

Definition data_packet_capacity (table_name : bytes) (block : Block) : Z :=
  usize_wrap (varint_len 2 + varint_len (blen table_name) + blen table_name + block_capacity block).

Definition payload_bytes (block : Block) : Z :=
  usize_wrap (sum (map (fun c => blen (data c) + blen (lc_materialized c)) (columns block))).

(** The buffer a column is decoded from. *)
Definition column_buf (info : ColumnInfo) : bytes :=
  if starts_with (str "LowCardinality(") (type_name info) && negb (blen (lc_materialized info) =? 0)
  then lc_materialized info
  else data info.

(** ** Well-formed blocks

    What a block must satisfy for its bytes to be a block again: the header fields
    are within the protocol's limits, and the data of each column is one column of
    the declared type and row count, and nothing more. *)

Definition framed (ct : ColumnType) (rows : Z) (data : bytes) : bool :=
  match skip_column_data ct rows data 0 with
  | Ok (_, pos) => pos =? blen data
  | Err _ => false
  end.

Definition wire_text (s : bytes) : bool := utf8_valid s && (blen s <=? MAX_STRING_BYTES).

Definition wf_column (rows : Z) (col : ColumnInfo) : bool :=
  wire_text (name col) && wire_text (type_name col) &&
  match parse_type (type_name col) with
  | Ok ct => verbatim ct && framed ct rows (data col)
  | Err _ => false
  end &&
  (blen (data col) <=? MAX_COLUMN_BYTES) && (blen (lc_materialized col) =? 0).

Definition wf_block (block : Block) : bool :=
  (blen (columns block) <=? MAX_BLOCK_COLUMNS) &&
  (0 <=? rows block) && (rows block <=? MAX_BLOCK_ROWS) &&
  forallb (wf_column (rows block)) (columns block).

(** ** Round trip *)

Lemma wire_text_inv s : wire_text s = true -> utf8_valid s = true /\ blen s <= MAX_STRING_BYTES.
Proof. unfold wire_text. intros H. apply andb_prop in H as [? H]. split; [assumption|lia]. Qed.

Lemma framed_inv ct n bs :
  framed ct n bs = true -> skip_column_data ct n bs 0 = Ok (tt, blen bs).
Proof.
  unfold framed. destruct (skip_column_data ct n bs 0) as [[[] pos]|e]; [|discriminate].
  intros H. apply Z.eqb_eq in H. now subst.
Qed.

Lemma wf_column_inv n col :
  wf_column n col = true ->
  wire_text (name col) = true /\ wire_text (type_name col) = true /\
  blen (data col) <= MAX_COLUMN_BYTES /\ lc_materialized col = [] /\
  exists ct, parse_type (type_name col) = Ok ct /\ verbatim ct = true /\ framed ct n (data col) = true.
Proof.
  unfold wf_column. intros H. rewrite !andb_true_iff in H.
  destruct H as ((((H1 & H2) & H3) & H4) & H5).
  destruct (parse_type (type_name col)) as [ct|e]; [|discriminate].
  apply andb_prop in H3 as [Hv Hf]. repeat split; auto; try lia; [|eauto].
  destruct (lc_materialized col); [reflexivity|]. discriminate.
Qed.

Lemma read_column_header_written nm tn ct rest :
  wire_text nm = true -> wire_text tn = true -> parse_type tn = Ok ct ->
  run read_column_header (write_string nm ++ write_string tn ++ [x00] ++ rest) = Ok ((nm, tn, ct), rest).
Proof.
  intros Hn Ht Hct. apply wire_text_inv in Hn as [? ?], Ht as [? ?]. unfold read_column_header.
  erewrite run_bind_ok by (now apply read_string_written).
  erewrite run_bind_ok by (now apply read_string_written).
  erewrite run_bind_ok by (rewrite run_read_exact; cbn [app]; rewrite blen_cons;
    destruct (Z.leb_spec 1 (1 + blen rest)); [reflexivity|pose proof (blen_nonneg rest); lia]).
  change (negb (byte0 (take 1 (x00 :: rest)) =? 0)) with false. cbv iota.
  erewrite run_bind_ok; [reflexivity|].
  rewrite run_lift, parse_column_type_checked. unfold parse_type_checked. now rewrite Hct.
Qed.

Lemma read_column_data_written ct n bs arena rest :
  wf_type ct = true -> verbatim ct = true -> (nesting ct <= MAX_TYPE_NESTING)%nat -> 0 <= n ->
  framed ct n bs = true -> blen bs <= MAX_COLUMN_BYTES -> blen arena + MAX_COLUMN_BYTES <= ISIZE_MAX ->
  run (read_column_data_into ct n arena MAX_COLUMN_BYTES) (bs ++ rest)
    = Ok ((tt, arena ++ bs, MAX_COLUMN_BYTES - blen bs), rest).
Proof.
  intros Hwf Hv Hn Hr Hf Hlen Harena. pose proof (blen_nonneg bs). pose proof (blen_nonneg arena).
  change rest with ([] ++ rest) at 2. apply run_app. change bs with (drop 0 bs) at 1.
  apply (records_complete (records_column ct Hwf Hv Hn n Hr));
    unfold MAX_COLUMN_BYTES, ISIZE_MAX in *; try lia.
  exists (blen bs). rewrite drop_all. unfold slice. rewrite drop_0, Z.sub_0_r, take_all.
  repeat split; auto; try lia. now apply framed_inv.
Qed.

Definition data_of (cols : list ColumnInfo) : bytes := concat (map data cols).

Lemma read_pending_written n rest : 0 <= n ->
  forall cols arena, forallb (wf_column n) cols = true ->
  blen arena + blen cols * MAX_COLUMN_BYTES <= ISIZE_MAX ->
  exists pending,
    run (read_pending (length cols) n arena) (concat (map write_column cols) ++ rest)
      = Ok ((pending, arena ++ data_of cols), rest) /\
    map (column_of (arena ++ data_of cols)) pending = cols.
Proof.
  intros Hn cols. induction cols as [|col cols IH]; intros arena Hwf Hsize.
  { exists []. unfold data_of. cbn. now rewrite app_nil_r. }
  cbn [forallb] in Hwf. apply andb_prop in Hwf as [Hcol Hwf].
  apply wf_column_inv in Hcol as (Hnm & Htn & Hlen & Hlc & ct & Hct & Hv & Hf).
  pose proof (parse_type_rec_bounded _ _ _ Hct) as [Hwft Hnest].
  pose proof (blen_nonneg cols). rewrite blen_cons in Hsize.
  destruct (IH (arena ++ data col) Hwf) as (pending & Hrun & Hmap);
    [rewrite blen_app; unfold MAX_COLUMN_BYTES in *; lia|].
  exists (mkPending (name col) (type_name col) (blen arena) (blen (arena ++ data col)) :: pending).
  unfold data_of in *. cbn [map concat length]. rewrite app_assoc. split.
  - cbn [read_pending]. unfold write_column at 1. rewrite <- !app_assoc.
    erewrite run_bind_ok by (apply read_column_header_written; eassumption). cbv beta iota.
    erewrite run_bind_ok by (apply read_column_data_written; auto; unfold MAX_COLUMN_BYTES in *; lia).
    cbv beta iota. rewrite (run_bind_ok _ _ _ _ _ Hrun). rewrite <- app_assoc. reflexivity.
  - cbn [map]. rewrite Hmap. f_equal. unfold column_of. cbn.
    rewrite <- app_assoc. unfold slice. rewrite drop_app_exact, blen_app.
    rewrite take_app_len by lia. destruct col; cbn in *. now subst.
Qed.

(** The BlockInfo the writer emits is the one the reader skips. *)
Lemma skip_written_block_info rest :
  run skip_block_info_from_reader (write_block_info ++ rest) = Ok (tt, rest).
Proof.
  change rest with ([] ++ rest) at 2. apply run_app. vm_compute. reflexivity.
Qed.

Lemma wf_block_inv b :
  wf_block b = true ->
  blen (columns b) <= MAX_BLOCK_COLUMNS /\ 0 <= rows b <= MAX_BLOCK_ROWS /\
  forallb (wf_column (rows b)) (columns b) = true.
Proof. unfold wf_block. rewrite !andb_true_iff. intros (((? & ?) & ?) & ?). repeat split; auto; lia. Qed.

Lemma read_counts_written b rest :
  wf_block b = true ->
  run read_block_counts (write_block_info ++ write_varint (blen (columns b)) ++ write_varint (rows b) ++ rest)
    = Ok ((blen (columns b), rows b), rest).
Proof.
  intros Hwf. apply wf_block_inv in Hwf as (Hc & Hr & _). pose proof (blen_nonneg (columns b)).
  unfold read_block_counts, write_varint. unfold MAX_BLOCK_COLUMNS, MAX_BLOCK_ROWS in *.
  erewrite run_bind_ok by apply skip_written_block_info.
  erewrite run_bind_ok by (apply read_encode_varint; unfold U64_MAX; lia).
  erewrite run_bind_ok by (rewrite run_lift; unfold protocol; rewrite checked_count_ok
    by (unfold USIZE_MAX, U64_MAX; lia); reflexivity).
  erewrite run_bind_ok by (apply read_encode_varint; unfold U64_MAX; lia).
  erewrite run_bind_ok by (rewrite run_lift; unfold protocol; rewrite checked_count_ok
    by (unfold USIZE_MAX, U64_MAX; lia); reflexivity).
  reflexivity.
Qed.

Lemma read_block_written b rest :
  wf_block b = true -> run read_block_body (write_block b ++ rest) = Ok (b, rest).
Proof.
  intros Hwf. rewrite read_block_body_unfold. unfold write_block. rewrite <- !app_assoc.
  rewrite (run_bind_ok _ _ _ _ _ (read_counts_written b _ Hwf)).
  apply wf_block_inv in Hwf as (Hc & Hr & Hcols). unfold read_block_columns.
  destruct ((_ =? 0) && (_ =? 0)) eqn:E0.
  - apply andb_prop in E0 as [Ec Er]. apply Z.eqb_eq in Ec, Er. destruct b as [cols r]. cbn in *.
    destruct cols; [|rewrite blen_cons in Ec; pose proof (blen_nonneg cols); lia]. now subst.
  - destruct (read_pending_written (rows b) rest (proj1 Hr) (columns b) [] Hcols) as (pending & Hrun & Hmap).
    { change (blen []) with 0. unfold MAX_BLOCK_COLUMNS, MAX_COLUMN_BYTES, ISIZE_MAX in *. lia. }
    replace (Z.to_nat (blen (columns b))) with (length (columns b)) by (unfold blen; lia).
    rewrite (run_bind_ok _ _ _ _ _ Hrun). cbv beta iota. rewrite Hmap. now destruct b.
Qed.

Lemma wf_block_streamable b :
  wf_block b = true -> Forall (fun col => streamable_name (type_name col) = true) (columns b).
Proof.
  intros H. apply wf_block_inv in H as (_ & _ & H). rewrite forallb_forall in H. apply Forall_forall.
  intros col Hin. apply H, wf_column_inv in Hin as (_ & _ & _ & _ & ct & Hct & Hv & _).
  unfold streamable_name. rewrite Hct. destruct ct; auto; discriminate.
Qed.

(** C11: a well-formed block survives the wire: the stream reader gives back the block
    [write_block] wrote and leaves the bytes after it, and so does the buffered
    parser, which stops at the end of the written bytes. *)
Theorem write_block_roundtrip (b : Block) (rest : bytes) :
  wf_block b = true ->
  run read_block_body (write_block b ++ rest) = Ok (b, rest) /\
  (blen (write_block b ++ rest) <= ISIZE_MAX ->
   parse_block_body (write_block b ++ rest) 0 = Ok (b, blen (write_block b))).
Proof.
  intros Hwf. pose proof (read_block_written b rest Hwf) as Hrun. split; [assumption|]. intros Hsize.
  destruct (streamed_block_buffered (write_block b ++ rest) 0 b rest) as (p & Hp & _ & Hrest & Hle); auto.
  { pose proof (blen_nonneg (write_block b ++ rest)). lia. }
  { now apply wf_block_streamable. }
  rewrite Hp. repeat f_equal. apply (f_equal blen) in Hrest.
  rewrite blen_drop, blen_app in Hrest by lia. lia.
Qed.

Definition written_sample : Block :=
  mkBlock [mkColumnInfo (str "id") (str "UInt16") [x01; x00; x02; x00] [];
           mkColumnInfo (str "tags") (str "Array(String)")
             (to_le 8 1 ++ to_le 8 3 ++ [x01; x61; x00; x02; x62; x63]) []] 2.

Lemma write_block_roundtrip_witness :
  run read_block_body (write_block written_sample ++ [x2a]) = Ok (written_sample, [x2a]).
Proof. apply (write_block_roundtrip written_sample [x2a]). reflexivity. Defined.

(** ** Capacities *)

Lemma varint_len_written v : 0 <= v <= U64_MAX -> blen (write_varint v) = varint_len v.
Proof. intros. symmetry. now apply varint_len_spec. Qed.

Lemma column_capacity_exact col :
  blen (write_column col) <= U64_MAX -> column_capacity col = blen (write_column col).
Proof.
  unfold write_column, write_string, column_capacity. rewrite !blen_app, !blen_cons, blen_nil.
  pose proof (blen_nonneg (name col)). pose proof (blen_nonneg (type_name col)).
  pose proof (blen_nonneg (data col)). pose proof (blen_nonneg (write_varint (blen (name col)))).
  pose proof (blen_nonneg (write_varint (blen (type_name col)))).
  intros. rewrite !varint_len_written by lia. lia.
Qed.

Lemma columns_capacity_exact cols :
  blen (concat (map write_column cols)) <= U64_MAX ->
  sum (map column_capacity cols) = blen (concat (map write_column cols)).
Proof.
  induction cols as [|col cols IH]; [reflexivity|]. cbn [map concat sum fold_right].
  rewrite blen_app. intros H. pose proof (blen_nonneg (write_column col)).
  pose proof (blen_nonneg (concat (map write_column cols))).
  rewrite column_capacity_exact by lia. unfold sum in IH. rewrite IH by lia. reflexivity.
Qed.

(** The lengths of the constant fields. *)
Ltac constant_lengths :=
  change (blen (write_varint 0)) with 1 in *; change (blen (write_varint 1)) with 1 in *;
  change (blen (write_varint 2)) with 1 in *; change (blen (to_le 4 (-1))) with 4 in *;
  change (blen [x00]) with 1 in *; change (varint_len 0) with 1 in *;
  change (varint_len 1) with 1 in *; change (varint_len 2) with 1 in *;
  unfold USIZE_MAX, U64_MAX in *.

Lemma columns_fit cols : blen cols <= blen (concat (map write_column cols)).
Proof.
  induction cols as [|c cols IH]; [reflexivity|]. cbn [map concat].
  rewrite blen_app, blen_cons. unfold write_column at 1. rewrite !blen_app.
  pose proof (blen_nonneg (write_string (name c))). pose proof (blen_nonneg (write_string (type_name c))).
  pose proof (blen_nonneg (data c)). constant_lengths. lia.
Qed.

Lemma block_capacity_written b :
  0 <= rows b <= U64_MAX -> blen (write_block b) <= USIZE_MAX -> block_capacity b = blen (write_block b).
Proof.
  intros Hr. unfold block_capacity, write_block, write_block_info. rewrite !blen_app. intros H.
  pose proof (blen_nonneg (concat (map write_column (columns b)))).
  pose proof (blen_nonneg (write_varint (rows b))).
  pose proof (blen_nonneg (write_varint (blen (columns b)))).
  pose proof (blen_nonneg (columns b)). pose proof (columns_fit (columns b)).
  rewrite columns_capacity_exact by (constant_lengths; lia).
  assert (blen (columns b) <= U64_MAX) as Hc by (constant_lengths; lia).
  pose proof (varint_len_written (rows b) Hr). pose proof (varint_len_written (blen (columns b)) ltac:(lia)).
  unfold usize_wrap. rewrite Z.mod_small; constant_lengths; lia.
Qed.

(** The capacities reserved before serializing are exact: a block and a Data packet
    take as many bytes as [block_capacity] and [data_packet_capacity] say, whenever
    that number is a [usize] at all. *)
Theorem capacity_exact (table_name : bytes) (b : Block) :
  0 <= rows b <= U64_MAX -> blen (write_data_packet table_name b) <= USIZE_MAX ->
  block_capacity b = blen (write_block b) /\
  data_packet_capacity table_name b = blen (write_data_packet table_name b).
Proof.
  intros Hr. unfold data_packet_capacity, write_data_packet, write_string. rewrite !blen_app. intros H.
  pose proof (blen_nonneg table_name). pose proof (blen_nonneg (write_varint (blen table_name))).
  pose proof (blen_nonneg (write_block b)). pose proof (blen_nonneg (write_varint 2)).
  rewrite block_capacity_written by lia. split; [reflexivity|].
  pose proof (varint_len_written (blen table_name) ltac:(constant_lengths; lia)).
  unfold usize_wrap. rewrite Z.mod_small; constant_lengths; lia.
Qed.

Lemma capacity_exact_witness : block_capacity written_sample = blen (write_block written_sample).
Proof. apply (capacity_exact (str "t") written_sample); [split|]; discriminate. Defined.

(** The block reader stores the decoded bytes of a LowCardinality column in [data],
    under the LowCardinality type name.  Such a block cannot be written back: its
    bytes are no block. *)
Theorem lc_block_not_rewritable :
  exists (l : bytes) (b : Block) (e : error),
    run read_block_body l = Ok (b, []) /\ run read_block_body (write_block b) = Err e.
Proof.
  exists sample_block. do 2 eexists. split.
  - vm_compute. reflexivity.
  - vm_compute. reflexivity.
Qed.
