(* ===== verification/Columns.v ===== *)
(** * Typed columns: the traits and the columns without components

    src/shared/column/plain.rs, string.rs and fixed_string.rs, with the traits of
    src/src/column/mod.rs and the [ReadColumnContext] of src/shared/block.rs.

    - [context] models the functions over [&mut ReadColumnContext];
    - [ClickHouseValue], [PlainColumn] and [ClickHouseColumn] are the traits (the
      methods of [ClickHouseColumnData] belong to the column's class);
    - [ColumnLaws] is what a column type promises to its users and to the compound
      columns built on it: what [write_column] writes, [read_column] reads back;
    - [CheckedColumn] is the other direction: whatever [read_column] accepts is a
      column whose rows can all be fetched. *)

From Stdlib Require Import String ZArith Lia Bool List.
From Stdlib Require Import Strings.Byte.
From coqutil Require Import Byte.
From S2P Require Import Prelude Reader Limits Utf8 Wire.
Import ListNotations.

(** ** ReadColumnContext *)

Record ReadColumnContext := mkContext { ctx_rows : Z; ctx_pos : Z; ctx_buf : bytes }.

Definition new_context (rows : Z) (buf : bytes) : ReadColumnContext := mkContext rows 0 buf.

Definition context (A : Type) : Type := ReadColumnContext -> result error (A * ReadColumnContext).

#[export] Instance context_monad : Monad context := {
  ret A a := fun ctx => Ok (a, ctx);
  bind A B m f := fun ctx =>
    match m ctx with
    | Ok (a, ctx') => f a ctx'
    | Err e => Err e
    end;
}.

#[export] Instance context_lift : MonadResult context :=
  fun A r ctx => match r with Ok a => Ok (a, ctx) | Err e => Err e end.

(** The fields of [ctx], and the assignments [ctx.rows = n] and [ctx.pos = p]. *)
Definition get_rows : context Z := fun ctx => Ok (ctx_rows ctx, ctx).
Definition get_ctx : context ReadColumnContext := fun ctx => Ok (ctx, ctx).
Definition set_rows (n : Z) : context unit := fun ctx => Ok (tt, mkContext n (ctx_pos ctx) (ctx_buf ctx)).
Definition set_pos (p : Z) : context unit := fun ctx => Ok (tt, mkContext (ctx_rows ctx) p (ctx_buf ctx)).

Definition ctx_read_exact (n : Z) : context bytes := fun ctx =>
  let start := ctx_pos ctx in
  match checked_add start n with
  | None => Err (Protocol (Msg "ReadColumnContext: requested {n} bytes at offset {start}, length overflow"
                               [AZ n; AZ start]))
  | Some end_ =>
      if blen (ctx_buf ctx) <? end_
      then Err (Protocol (Msg "ReadColumnContext: requested {n} bytes at offset {start}, buffer len {}"
                              [AZ n; AZ start; AZ (blen (ctx_buf ctx))]))
      else Ok (slice (ctx_buf ctx) start end_, mkContext (ctx_rows ctx) end_ (ctx_buf ctx))
  end.

Definition read_rows_bytes (width : Z) : context bytes :=
  let* rows := get_rows in
  let* n := lift (ok_or (checked_mul rows width)
                        (Protocol (msg "ReadColumnContext: row byte length overflow"))) in
  ctx_read_exact n.

(** [as_chunks::<8>().0] and [chunks_exact(width)]: the full chunks. *)
Fixpoint full_chunks (n : nat) (width : Z) (l : bytes) : list bytes :=
  match n with
  | O => []
  | S n => take width l :: full_chunks n width (drop width l)
  end.

Definition as_chunks (width : Z) (l : bytes) : list bytes :=
  full_chunks (Z.to_nat (blen l / width)) width l.

Definition read_offsets : context (list Z) :=
  let* rows := get_rows in
  if rows =? 0 then ret []
  else
    let* bytes := read_rows_bytes 8 in
    ret (map from_le (as_chunks 8 bytes)).

(** ** The traits

    [read_from] is the function on the bytes of the stream, [write_to] and
    [write_column] are the bytes they append to the output. *)
Class ClickHouseValue (T : Type) := {
  ch_type_name : bytes;
  read_from : bytes -> result error (T * bytes);
  write_to : T -> result error bytes;
}.

(** [for val in data { val.write_to(buf)?; }] *)
Definition write_each {T} `{ClickHouseValue T} (data : list T) : result error bytes :=
  let* parts := map_each data write_to in
  Ok (concat parts).

Class ClickHouseColumn (T : Type) `{ClickHouseValue T} := {
  ColumnData : Type;
  read_column : context ColumnData;
  write_column : list T -> result error bytes;
  column_len : ColumnData -> Z;
  column_get : ColumnData -> Z -> result error T;
}.

(** [PlainColumn]: the values are their bytes in memory (the targets are
    little-endian). *)
Class PlainColumn (T : Type) `{ClickHouseValue T} := {
  size_of : Z;
  align_of : Z;
  of_memory : bytes -> T;
}.
Arguments size_of T {_ _}.
Arguments align_of T {_ _}.
Arguments ColumnData T {_ _}.
Arguments read_column T {_ _}.

(** [Default::default()]. *)
Class Default (T : Type) := default : T.

(** ** PlainColumnData *)

Record PlainColumnData (T : Type) := mkPlain { plain_buf : bytes; plain_count : Z }.
Arguments mkPlain {T} plain_buf plain_count.
Arguments plain_buf {T} p.
Arguments plain_count {T} p.

Section Plain.
Context {T : Type} `{PlainColumn T}.

Definition empty_plain : PlainColumnData T := mkPlain [] 0.

Definition read_from_bytes (bytes : bytes) (count : Z) : result error (PlainColumnData T) :=
  let* nbytes := ok_or (checked_mul count (size_of T))
                       (Protocol (msg "PlainColumnData: element count overflows byte length")) in
  if blen bytes <? nbytes
  then Err (Protocol (Msg "PlainColumnData: {count} elements need {nbytes} bytes, backing slice has {}"
                          [AZ count; AZ nbytes; AZ (blen bytes)]))
  else Ok (mkPlain bytes count).

Definition plain_get (c : PlainColumnData T) (index : Z) : result error T :=
  if plain_count c <=? index
  then Err (Protocol (Msg "PlainColumnData: index {index} out of bounds (len {})"
                          [AZ index; AZ (plain_count c)]))
  else
    let* offset := ok_or (checked_mul index (size_of T))
                         (Protocol (msg "PlainColumnData: index byte offset overflow")) in
    if (blen (plain_buf c) <? offset) || (blen (plain_buf c) - offset <? size_of T)
    then Err (Protocol (msg "PlainColumnData: buffer shorter than logical length"))
    else Ok (of_memory (slice (plain_buf c) offset (offset + size_of T))).

(** [as_slice], for a buffer at address [addr]: the elements in memory order, if
    that address is aligned. *)
Definition plain_as_slice (addr : Z) (c : PlainColumnData T) : option (list T) :=
  if plain_count c =? 0 then Some []
  else
    let* nbytes := checked_mul (plain_count c) (size_of T) in
    if blen (plain_buf c) <? nbytes then None
    else if addr mod align_of T =? 0
    then Some (map of_memory (full_chunks (Z.to_nat (plain_count c)) (size_of T) (plain_buf c)))
    else None.

Definition plain_read_column : context (PlainColumnData T) :=
  let* len := get_rows in
  let* nbytes := lift (ok_or (checked_mul len (size_of T)) (Protocol (msg "column size overflow"))) in
  let* bytes := ctx_read_exact nbytes in
  ret (mkPlain bytes len).
End Plain.

(** [impl_plain_column_column!] *)
#[export] Instance plain_column (T : Type) `{PlainColumn T} : ClickHouseColumn T := {
  ColumnData := PlainColumnData T;
  read_column := plain_read_column;
  write_column := write_each;
  column_len := plain_count;
  column_get := plain_get;
}.

(** ** Numbers

    [num k] is the machine type [k]; floats are their IEEE bit patterns. *)
Inductive prim := U8 | U16 | U32 | U64 | U128 | I8 | I16 | I32 | I64 | I128 | F32 | F64.

Record num (k : prim) := Num { num_val : Z }.
Arguments Num {k} num_val.
Arguments num_val {k} n.

Definition prim_size (k : prim) : Z :=
  match k with
  | U8 | I8 => 1
  | U16 | I16 => 2
  | U32 | I32 | F32 => 4
  | U64 | I64 | F64 => 8
  | U128 | I128 => 16
  end.

Definition prim_signed (k : prim) : bool :=
  match k with I8 | I16 | I32 | I64 | I128 => true | _ => false end.

(** Two's complement: the signed value of an unsigned one of [bits] bits. *)
Definition to_signed (bits u : Z) : Z := if u <? 2 ^ (bits - 1) then u else u - 2 ^ bits.

(** [from_le_bytes] and [to_le_bytes] of the machine types. *)
Definition num_from_le (k : prim) (bs : bytes) : num k :=
  Num (if prim_signed k then to_signed (8 * prim_size k) (from_le bs) else from_le bs).

Definition num_to_le (k : prim) (v : num k) : bytes := to_le (Z.to_nat (prim_size k)) (num_val v).

(** [read_from]s that fill a fixed array. *)
Definition read_array {T} (n : Z) (f : bytes -> T) : bytes -> result error (T * bytes) :=
  run (let* buf := read_exact_r n in ret (f buf)).

Definition prim_type_name (k : prim) : bytes :=
  str match k with
      | U8 => "UInt8" | U16 => "UInt16" | U32 => "UInt32" | U64 => "UInt64" | U128 => "UInt128"
      | I8 => "Int8" | I16 => "Int16" | I32 => "Int32" | I64 => "Int64" | I128 => "Int128"
      | F32 => "Float32" | F64 => "Float64"
      end.

#[export] Instance num_value (k : prim) : ClickHouseValue (num k) := {
  ch_type_name := prim_type_name k;
  read_from := read_array (prim_size k) (num_from_le k);
  write_to v := Ok (num_to_le k v);
}.

#[export] Instance num_plain (k : prim) : PlainColumn (num k) := {
  size_of := prim_size k;
  align_of := prim_size k;
  of_memory := num_from_le k;
}.

#[export] Instance num_default (k : prim) : Default (num k) := Num 0.

(** ** Wrappers of numbers *)

Record date := mkDate { date_days : num U16 }.
Record datetime := mkDateTime { datetime_secs : num U32 }.
Record uuid := Uuid { uuid_val : num U128 }.
Record ipv4 := Ipv4 { ipv4_val : num U32 }.
Record ipv6 := Ipv6 { ipv6_val : num U128 }.
Record datetime64 := DateTime64Value { datetime64_val : num I64 }.
Record decimal32 := Decimal32 { decimal32_val : num I32 }.
Record decimal64 := Decimal64 { decimal64_val : num I64 }.
Record decimal128 := Decimal128 { decimal128_val : num I128 }.

(** [#[repr(transparent)]] wrappers over a number: [impl ClickHouseValue] with
    [from_le_bytes] and [to_le_bytes], and [PlainColumn]. *)
Definition wrapped_value {T} (k : prim) (name : string) (wrap : num k -> T) (unwrap : T -> num k)
  : ClickHouseValue T := {|
  ch_type_name := str name;
  read_from := read_array (prim_size k) (fun buf => wrap (num_from_le k buf));
  write_to v := Ok (num_to_le k (unwrap v));
|}.

Definition wrapped_plain {T} (k : prim) (wrap : num k -> T) `{ClickHouseValue T} : PlainColumn T := {|
  size_of := prim_size k;
  align_of := prim_size k;
  of_memory buf := wrap (num_from_le k buf);
|}.

#[export] Instance date_value : ClickHouseValue date := wrapped_value U16 "Date" mkDate date_days.
#[export] Instance date_plain : PlainColumn date := wrapped_plain U16 mkDate.
#[export] Instance datetime_value : ClickHouseValue datetime := wrapped_value U32 "DateTime" mkDateTime datetime_secs.
#[export] Instance datetime_plain : PlainColumn datetime := wrapped_plain U32 mkDateTime.
#[export] Instance uuid_value : ClickHouseValue uuid := wrapped_value U128 "UUID" Uuid uuid_val.
#[export] Instance uuid_plain : PlainColumn uuid := wrapped_plain U128 Uuid.
#[export] Instance ipv4_value : ClickHouseValue ipv4 := wrapped_value U32 "IPv4" Ipv4 ipv4_val.
#[export] Instance ipv4_plain : PlainColumn ipv4 := wrapped_plain U32 Ipv4.
#[export] Instance datetime64_value : ClickHouseValue datetime64 :=
  wrapped_value I64 "DateTime64" DateTime64Value datetime64_val.
#[export] Instance datetime64_plain : PlainColumn datetime64 := wrapped_plain I64 DateTime64Value.
#[export] Instance decimal32_value : ClickHouseValue decimal32 :=
  wrapped_value I32 "Decimal32" Decimal32 decimal32_val.
#[export] Instance decimal32_plain : PlainColumn decimal32 := wrapped_plain I32 Decimal32.
#[export] Instance decimal64_value : ClickHouseValue decimal64 :=
  wrapped_value I64 "Decimal64" Decimal64 decimal64_val.
#[export] Instance decimal64_plain : PlainColumn decimal64 := wrapped_plain I64 Decimal64.
#[export] Instance decimal128_value : ClickHouseValue decimal128 :=
  wrapped_value I128 "Decimal128" Decimal128 decimal128_val.
#[export] Instance decimal128_plain : PlainColumn decimal128 := wrapped_plain I128 Decimal128.

(** ** 256-bit values, kept as their 32 bytes *)

Record uint256 := mkUInt256 { uint256_bytes : bytes }.
Record int256 := mkInt256 { int256_bytes : bytes }.
Record decimal256 := Decimal256 { decimal256_bytes : bytes }.

Definition array32_value {T} (name : string) (wrap : bytes -> T) (unwrap : T -> bytes) : ClickHouseValue T := {|
  ch_type_name := str name;
  read_from := read_array 32 wrap;
  write_to v := Ok (unwrap v);
|}.

Definition array32_plain {T} (wrap : bytes -> T) `{ClickHouseValue T} : PlainColumn T :=
  {| size_of := 32; align_of := 1; of_memory := wrap |}.

#[export] Instance uint256_value : ClickHouseValue uint256 := array32_value "UInt256" mkUInt256 uint256_bytes.
#[export] Instance uint256_plain : PlainColumn uint256 := array32_plain mkUInt256.
#[export] Instance int256_value : ClickHouseValue int256 := array32_value "Int256" mkInt256 int256_bytes.
#[export] Instance int256_plain : PlainColumn int256 := array32_plain mkInt256.
#[export] Instance decimal256_value : ClickHouseValue decimal256 :=
  array32_value "Decimal256" Decimal256 decimal256_bytes.
#[export] Instance decimal256_plain : PlainColumn decimal256 := array32_plain Decimal256.

(** ** Conversions of the wrappers *)

(** [to_be_bytes] and [from_be_bytes]. *)
Definition num_to_be (k : prim) (v : num k) : bytes := rev (num_to_le k v).
Definition num_from_be (k : prim) (bs : bytes) : num k := num_from_le k (rev bs).

(** The display order of a UUID swaps the 64-bit halves of the wire's. *)
Definition uuid_as_bytes (u : uuid) : bytes :=
  let wire := num_to_be U128 (uuid_val u) in
  slice wire 8 16 ++ slice wire 0 8.

Definition uuid_from_bytes (bytes : bytes) : uuid :=
  Uuid (num_from_be U128 (slice bytes 8 16 ++ slice bytes 0 8)).

(** [{:02x}] *)
Definition hex_digit (d : Z) : byte :=
  nth (Z.to_nat d) (str "0123456789abcdef") x00.

Definition hex2 (b : byte) : bytes :=
  [hex_digit (byte.unsigned b / 16); hex_digit (byte.unsigned b mod 16)].

Definition hex (bs : bytes) : bytes := concat (map hex2 bs).

Definition to_hyphenated (u : uuid) : bytes :=
  let b := uuid_as_bytes u in
  hex (slice b 0 4) ++ str "-" ++ hex (slice b 4 6) ++ str "-" ++ hex (slice b 6 8) ++ str "-" ++
  hex (slice b 8 10) ++ str "-" ++ hex (slice b 10 16).

(** [std::net::Ipv4Addr] and [Ipv6Addr] are their octets. *)
Definition ipv4_to_std (a : ipv4) : bytes := num_to_be U32 (ipv4_val a).
Definition ipv4_from_std (octets : bytes) : ipv4 := Ipv4 (num_from_be U32 octets).
Definition ipv6_to_std (a : ipv6) : bytes := num_to_be U128 (ipv6_val a).
Definition ipv6_from_std (octets : bytes) : ipv6 := Ipv6 (num_from_be U128 octets).

(** [10i64.pow(scale)], [self.0 / divisor] and [ts * multiplier] overflow
    unchecked. *)
Definition i64_pow10 (scale : Z) : result error Z :=
  if 10 ^ scale <? 2 ^ 63 then Ok (10 ^ scale) else Err ModelPanic.

Definition to_timestamp (v : datetime64) (scale : Z) : result error (num I64) :=
  let* divisor := i64_pow10 scale in
  Ok (Num (Z.quot (num_val (datetime64_val v)) divisor)).

Definition from_timestamp (ts : num I64) (scale : Z) : result error datetime64 :=
  let* multiplier := i64_pow10 scale in
  let v := num_val ts * multiplier in
  if (- 2 ^ 63 <=? v) && (v <? 2 ^ 63) then Ok (DateTime64Value (Num v)) else Err ModelPanic.

(** ** IPv6: network byte order, hence its own column data *)

#[export] Instance ipv6_value : ClickHouseValue ipv6 := {
  ch_type_name := str "IPv6";
  read_from := read_array 16 (fun buf => Ipv6 (num_from_be U128 buf));
  write_to v := Ok (num_to_be U128 (ipv6_val v));
}.

Record Ipv6ColumnData := mkIpv6Column { ipv6_buf : bytes; ipv6_count : Z }.

(** [&buf[a..b]] panics out of range. *)
Definition index_slice (buf : bytes) (a b : Z) : result error bytes :=
  if (a <=? b) && (b <=? blen buf) then Ok (slice buf a b) else Err ModelPanic.

Definition ipv6_get (c : Ipv6ColumnData) (index : Z) : result error ipv6 :=
  if ipv6_count c <=? index
  then Err (Protocol (Msg "Ipv6ColumnData: index {index} out of bounds (len {})"
                          [AZ index; AZ (ipv6_count c)]))
  else
    let* offset := ok_or (checked_mul index 16) (Protocol (msg "IPv6 column offset overflow")) in
    let* bytes := index_slice (ipv6_buf c) offset (offset + 16) in
    Ok (Ipv6 (num_from_be U128 bytes)).

Definition ipv6_read_column : context Ipv6ColumnData :=
  let* rows := get_rows in
  let* nbytes := lift (ok_or (checked_mul rows 16) (Protocol (msg "IPv6 column size overflow"))) in
  let* bytes := ctx_read_exact nbytes in
  ret (mkIpv6Column bytes rows).

#[export] Instance ipv6_column : ClickHouseColumn ipv6 := {
  ColumnData := Ipv6ColumnData;
  read_column := ipv6_read_column;
  write_column := write_each;
  column_len := ipv6_count;
  column_get := ipv6_get;
}.

(** ** bool *)

Definition bool_byte (b : bool) : byte := if b then x01 else x00.

#[export] Instance bool_value : ClickHouseValue bool := {
  ch_type_name := str "Bool";
  read_from := read_array 1 (fun buf => negb (byte0 buf =? 0));
  write_to v := Ok [bool_byte v];
}.

Record BoolColumnData := mkBoolColumn { bool_bytes : bytes }.

Definition bool_get (c : BoolColumnData) (index : Z) : result error bool :=
  if blen (bool_bytes c) <=? index
  then Err (Protocol (msg "BoolColumnData: index out of bounds"))
  else Ok (negb (byte0 (drop index (bool_bytes c)) =? 0)).

Definition bool_read_column : context BoolColumnData :=
  let* rows := get_rows in
  let* bytes := ctx_read_exact rows in
  ret (mkBoolColumn bytes).

#[export] Instance bool_column : ClickHouseColumn bool := {
  ColumnData := BoolColumnData;
  read_column := bool_read_column;
  write_column data := Ok (map bool_byte data);
  column_len c := blen (bool_bytes c);
  column_get := bool_get;
}.

#[export] Instance bool_default : Default bool := false.

(** ** Strings *)

(** [String]: UTF-8 bytes. *)
Record text := Text { text_bytes : bytes }.

(** [read_varint_from_slice] of string.rs. *)
Fixpoint varint_slice_loop (data : bytes) (result shift consumed : Z) : Prelude.result error (Z * Z) :=
  match data with
  | [] => Err (Protocol (msg "unexpected end of data in varint"))
  | b :: data =>
      let byte := byte.unsigned b in
      let consumed := consumed + 1 in
      if (shift =? 63) && (1 <? Z.land byte 0x7F) then Err varint_overflow
      else
        let result := Z.lor result (u64_shl (Z.land byte 0x7F) shift) in
        if Z.land byte 0x80 =? 0 then Ok (result, consumed)
        else
          let shift := shift + 7 in
          if 64 <=? shift then Err varint_overflow
          else varint_slice_loop data result shift consumed
  end.

Definition read_varint_from_slice (data : bytes) : result error (Z * Z) := varint_slice_loop data 0 0 0.

Record StringColumnData := mkStrings { str_ranges : list (Z * Z); str_data : bytes }.

Definition str_range (c : StringColumnData) (index : Z) : result error (Z * Z) :=
  ok_or (nth_error (str_ranges c) (Z.to_nat index))
        (Protocol (msg "StringColumnData: index out of bounds")).

(** [data.get(start..end)] *)
Definition get_slice_opt (data : bytes) (start end_ : Z) : option bytes :=
  if (start <=? end_) && (end_ <=? blen data) then Some (slice data start end_) else None.

Definition str_get_bytes (c : StringColumnData) (index : Z) : result error bytes :=
  let* (start, end_) := str_range c index in
  ok_or (get_slice_opt (str_data c) start end_) (Protocol (msg "StringColumnData: invalid range")).

Definition str_get_string (c : StringColumnData) (index : Z) : result error text :=
  let* bytes := str_get_bytes c index in
  Ok (Text (from_utf8_lossy bytes)).

Definition str_get_str (c : StringColumnData) (index : Z) : result error bytes :=
  let* bytes := str_get_bytes c index in
  if utf8_valid bytes then Ok bytes
  else Err (Protocol (Msg "invalid UTF-8 at row {index}: {e}" [AZ index])).

(** [vec![0u8; len]] panics above [isize::MAX]. *)
Definition alloc (len : Z) : result error unit := if ISIZE_MAX <? len then Err ModelPanic else Ok tt.

#[export] Instance text_value : ClickHouseValue text := {
  ch_type_name := str "String";
  read_from := run (let* len := read_varint in
                    lift (alloc len) ;;
                    let* buf := read_exact_r len in
                    let* s := lift (from_utf8 "invalid UTF-8 in String: {e}" buf) in
                    ret (Text s));
  write_to v := Ok (write_varint (blen (text_bytes v)) ++ text_bytes v);
}.

(** The scan of [String::read_column]: the range of every body, relative to the
    position the column starts at.  The slice [&ctx.buf[ctx.pos + scan_pos..]] is
    taken before every row, and panics when a body reaches beyond the buffer. *)
Fixpoint scan_strings (n : nat) (buf : bytes) (pos scan_pos : Z) : result error (list (Z * Z) * Z) :=
  match n with
  | O => Ok ([], scan_pos)
  | S n =>
      if blen buf <? pos + scan_pos then Err ModelPanic
      else
        let* (len, consumed) := read_varint_from_slice (drop (pos + scan_pos) buf) in
        let body_start := scan_pos + consumed in
        let* body_end := ok_or (checked_add body_start len)
                               (Protocol (msg "StringColumnData: body range overflow")) in
        let* (ranges, scan_pos) := scan_strings n buf pos body_end in
        Ok ((body_start, body_end) :: ranges, scan_pos)
  end.

Definition text_read_column : context StringColumnData :=
  let* rows := get_rows in
  if rows =? 0 then ret (mkStrings [] [])
  else
    let* ctx := get_ctx in
    let* (ranges, scan_pos) := lift (scan_strings (Z.to_nat rows) (ctx_buf ctx) (ctx_pos ctx) 0) in
    let* data := ctx_read_exact scan_pos in
    ret (mkStrings ranges data).

#[export] Instance text_column : ClickHouseColumn text := {
  ColumnData := StringColumnData;
  read_column := text_read_column;
  write_column := write_each;
  column_len c := blen (str_ranges c);
  column_get := str_get_string;
}.

#[export] Instance text_default : Default text := Text [].

(** ** FixedString *)

Record fixed_string := FixedStringBytes { fixed_bytes : bytes }.

Record FixedStringColumnData := mkFixedStrings { fs_data : bytes; fs_n : Z; fs_count : Z }.

Definition fs_get_bytes (c : FixedStringColumnData) (index : Z) : result error bytes :=
  if fs_count c <=? index
  then Err (Protocol (Msg "FixedStringColumnData: index {index} out of bounds (len {})"
                          [AZ index; AZ (fs_count c)]))
  else
    let start := index * fs_n c in
    let end_ := start + fs_n c in
    index_slice (fs_data c) start end_.

#[export] Instance fixed_string_value : ClickHouseValue fixed_string := {
  ch_type_name := str "FixedString";
  read_from := read_array 0 FixedStringBytes;
  write_to v := Ok (fixed_bytes v);
}.

(** The width is the length of the whole buffer over the number of rows. *)
Definition fixed_string_read_column : context FixedStringColumnData :=
  let* count := get_rows in
  if count =? 0 then ret (mkFixedStrings [] 0 0)
  else
    let* ctx := get_ctx in
    let n := blen (ctx_buf ctx) / count in
    let* nbytes := lift (ok_or (checked_mul count n) (Protocol (msg "FixedString size overflow"))) in
    let* data := ctx_read_exact nbytes in
    ret (mkFixedStrings data n count).

#[export] Instance fixed_string_column : ClickHouseColumn fixed_string := {
  ColumnData := FixedStringColumnData;
  read_column := fixed_string_read_column;
  write_column := write_each;
  column_len := fs_count;
  column_get c i := let* b := fs_get_bytes c i in Ok (FixedStringBytes b);
}.

(** ** JSON, as text *)

Record json_value := JsonValue { json_text : bytes }.

Record JsonColumnData := mkJsonColumn { json_data : bytes; json_offsets : list Z }.

Definition json_get_string (c : JsonColumnData) (index : Z) : result error bytes :=
  let* end_ := ok_or (nth_error (json_offsets c) (Z.to_nat index))
                     (Protocol (msg "JsonColumnData: index out of range")) in
  let start := if index =? 0 then 0 else nth (Z.to_nat (index - 1)) (json_offsets c) 0 in
  let* bytes := ok_or (get_slice_opt (json_data c) start end_)
                      (Protocol (msg "JsonColumnData: invalid byte range")) in
  Ok (from_utf8_lossy bytes).

(** [read_varint_from_slice] of plain.rs: the value is a [usize]. *)
Definition json_varint_from_slice (data : bytes) : result error (Z * Z) :=
  let* (value, consumed) := read_varint_from_slice data in
  let* value := ok_or (usize_try_from value) (Protocol (msg "length does not fit usize")) in
  Ok (value, consumed).

Fixpoint json_read_rows (n : nat) (data : bytes) (offsets : list Z) : context JsonColumnData :=
  match n with
  | O => ret (mkJsonColumn data offsets)
  | S n =>
      let* ctx := get_ctx in
      let* (len, consumed) := lift (json_varint_from_slice (drop (ctx_pos ctx) (ctx_buf ctx))) in
      let* pos := lift (ok_or (checked_add (ctx_pos ctx) consumed)
                              (Protocol (msg "JSON column position overflow"))) in
      set_pos pos ;;
      let* body := ctx_read_exact len in
      json_read_rows n (data ++ body) (offsets ++ [blen (data ++ body)])
  end.

Definition json_read_column : context JsonColumnData :=
  let* rows := get_rows in
  json_read_rows (Z.to_nat rows) [] [].

(** [write_string_to_buf]: a length of at most ten groups of seven bits. *)
Fixpoint write_len_loop (fuel : nat) (v : Z) : bytes :=
  match fuel with
  | O => []
  | S fuel =>
      byte.of_Z (Z.lor (Z.land v 0x7F) (if 0x7F <? v then 0x80 else 0)) ::
      (let v := Z.shiftr v 7 in if v =? 0 then [] else write_len_loop fuel v)
  end.

Definition write_string_to_buf (s : bytes) : bytes := write_len_loop 10 (blen s) ++ s.

(** [read_from] takes the rest of the stream ([read_to_end]). *)
#[export] Instance json_value_impl : ClickHouseValue json_value := {
  ch_type_name := str "JSON";
  read_from l := Ok (JsonValue (from_utf8_lossy l), []);
  write_to v := Ok (json_text v);
}.

#[export] Instance json_column : ClickHouseColumn json_value := {
  ColumnData := JsonColumnData;
  read_column := json_read_column;
  write_column data := Ok (concat (map (fun v => write_string_to_buf (json_text v)) data));
  column_len c := blen (json_offsets c);
  column_get c i := let* s := json_get_string c i in Ok (JsonValue s);
}.

(** * Laws *)

(** ** Contexts

    [reads m n n' bs P]: wherever the bytes [bs] stand in a buffer, [m] started there
    with [n] rows consumes exactly them, leaves [n'] rows, and its result satisfies
    [P]. *)
Definition reads {A} (m : context A) (n n' : Z) (bs : bytes) (P : A -> Prop) : Prop :=
  forall pre rest, blen (pre ++ bs ++ rest) <= ISIZE_MAX ->
  exists a, m (mkContext n (blen pre) (pre ++ bs ++ rest)) =
              Ok (a, mkContext n' (blen pre + blen bs) (pre ++ bs ++ rest)) /\ P a.

Lemma col_reads_ret {A} (a : A) n (P : A -> Prop) : P a -> reads (ret a) n n [] P.
Proof. intros H pre rest _. exists a. cbn. now rewrite Z.add_0_r. Qed.

Lemma col_reads_bind {A B} (m : context A) (f : A -> context B) n1 n2 n3 bs1 bs2 P Q :
  reads m n1 n2 bs1 P -> (forall a, P a -> reads (f a) n2 n3 bs2 Q) ->
  reads (bind m f) n1 n3 (bs1 ++ bs2) Q.
Proof.
  intros Hm Hf pre rest Hlen. rewrite <- app_assoc in Hlen |- *.
  destruct (Hm pre (bs2 ++ rest) Hlen) as (a & Ha & HP). cbn. rewrite Ha.
  assert (pre ++ bs1 ++ bs2 ++ rest = (pre ++ bs1) ++ bs2 ++ rest) as E by now rewrite <- app_assoc.
  rewrite E in Hlen |- *. destruct (Hf a HP (pre ++ bs1) rest Hlen) as (b & Hb & HQ).
  rewrite blen_app in Hb. exists b. split; [|assumption]. rewrite Hb, blen_app. do 3 f_equal. lia.
Qed.

Lemma reads_get_rows n : reads get_rows n n [] (eq n).
Proof. intros pre rest _. exists n. cbn. now rewrite Z.add_0_r. Qed.

Lemma reads_set_rows n n' : reads (set_rows n') n n' [] (eq tt).
Proof. intros pre rest _. exists tt. cbn. now rewrite Z.add_0_r. Qed.

Lemma col_reads_lift {A} (r : result error A) n a : r = Ok a -> reads (lift r) n n [] (eq a).
Proof. intros -> pre rest _. exists a. cbn. now rewrite Z.add_0_r. Qed.

Lemma col_reads_exact n bs : reads (ctx_read_exact (blen bs)) n n bs (eq bs).
Proof.
  intros pre rest Hlen. exists bs. split; [|reflexivity]. unfold ctx_read_exact. cbn [ctx_pos ctx_buf ctx_rows].
  rewrite !blen_app in *. pose proof (blen_nonneg rest).
  unfold checked_add. destruct (Z.leb_spec (blen pre + blen bs) USIZE_MAX);
    [|unfold ISIZE_MAX, USIZE_MAX in *; lia].
  destruct (Z.ltb_spec (blen pre + (blen bs + blen rest)) (blen pre + blen bs)); [lia|].
  unfold slice. rewrite drop_app_exact, take_app_len by lia. reflexivity.
Qed.

(** A prefix that consumes nothing. *)
Lemma reads_bind_nil {A B} (m : context A) (f : A -> context B) n1 n2 n3 bs P Q :
  reads m n1 n2 [] P -> (forall a, P a -> reads (f a) n2 n3 bs Q) -> reads (bind m f) n1 n3 bs Q.
Proof. apply (col_reads_bind m f n1 n2 n3 [] bs). Qed.

(** A suffix that consumes nothing. *)
Lemma col_reads_map {A B} (m : context A) (f : A -> context B) n1 n2 n3 bs P Q :
  reads m n1 n2 bs P -> (forall a, P a -> reads (f a) n2 n3 [] Q) -> reads (bind m f) n1 n3 bs Q.
Proof. intros Hm Hf. rewrite <- (app_nil_r bs). now apply (col_reads_bind m f n1 n2 n3 bs [] P). Qed.

(** The total length of what is read is known to fit. *)
Lemma reads_fits {A} (m : context A) n n' bs P :
  (blen bs <= ISIZE_MAX -> reads m n n' bs P) -> reads m n n' bs P.
Proof.
  intros H pre rest Hlen. apply H; [|assumption].
  rewrite !blen_app in Hlen. pose proof (blen_nonneg pre). pose proof (blen_nonneg rest). lia.
Qed.

Lemma checked_mul_ok a b : a * b <= ISIZE_MAX -> checked_mul a b = Some (a * b).
Proof. intros. unfold checked_mul. destruct (Z.leb_spec (a * b) USIZE_MAX); [reflexivity|unfold ISIZE_MAX, USIZE_MAX in *; lia]. Qed.

Lemma reads_rows_bytes n w bs : blen bs = n * w -> reads (read_rows_bytes w) n n bs (eq bs).
Proof.
  intros Hlen. apply reads_fits. intros Hfit.
  apply (reads_bind_nil _ _ _ _ _ _ _ _ (reads_get_rows n)). intros ? <-.
  apply (reads_bind_nil _ _ _ n _ _ (eq (blen bs))); [|intros ? <-; apply col_reads_exact].
  apply col_reads_lift. rewrite checked_mul_ok by lia. cbn. now rewrite Hlen.
Qed.

(** ** Chunks *)

Lemma full_chunks_concat w (parts : list bytes) rest :
  Forall (fun p => blen p = w) parts -> full_chunks (length parts) w (concat parts ++ rest) = parts.
Proof.
  induction 1 as [|p parts Hp _ IH]; [reflexivity|]. cbn [length full_chunks concat].
  rewrite <- app_assoc, take_app_len, drop_app_len by assumption. now rewrite IH.
Qed.

Lemma blen_concat w (parts : list bytes) :
  Forall (fun p => blen p = w) parts -> blen (concat parts) = blen parts * w.
Proof.
  induction 1 as [|p parts Hp _ IH]; [reflexivity|]. cbn [concat].
  rewrite blen_app, blen_cons. lia.
Qed.

Lemma as_chunks_concat w (parts : list bytes) :
  0 < w -> Forall (fun p => blen p = w) parts -> as_chunks w (concat parts) = parts.
Proof.
  intros Hw H. unfold as_chunks. rewrite (blen_concat w) by assumption.
  rewrite Z.div_mul by lia. unfold blen at 1. rewrite Nat2Z.id.
  rewrite <- (app_nil_r (concat parts)). now apply full_chunks_concat.
Qed.

Lemma length_full_chunks n w l : length (full_chunks n w l) = n.
Proof. revert l; induction n as [|n IH]; intros l; [reflexivity|]. cbn. now rewrite IH. Qed.

Lemma nth_full_chunks w n l i :
  0 <= w -> (i < n)%nat ->
  nth_error (full_chunks n w l) i = Some (slice l (Z.of_nat i * w) (Z.of_nat i * w + w)).
Proof.
  intros Hw. revert l i; induction n as [|n IH]; intros l i Hi; [lia|].
  destruct i as [|i]; cbn [full_chunks nth_error].
  - unfold slice. rewrite Z.mul_0_l, Z.add_0_l, Z.sub_0_r, drop_0. reflexivity.
  - rewrite IH by lia. f_equal. unfold slice. rewrite drop_drop by lia.
    f_equal; [|f_equal]; lia.
Qed.

Lemma reads_offsets (offsets : list Z) :
  Forall (fun o => 0 <= o <= U64_MAX) offsets ->
  reads read_offsets (blen offsets) (blen offsets) (concat (map (to_le 8) offsets)) (eq offsets).
Proof.
  intros Hoff. apply (reads_bind_nil _ _ _ _ _ _ _ _ (reads_get_rows _)). intros ? <-.
  assert (Forall (fun p => blen p = 8) (map (to_le 8) offsets)) as Hparts
    by (apply Forall_map, Forall_forall; intros; now rewrite blen_to_le).
  destruct (Z.eqb_spec (blen offsets) 0) as [E|_].
  - apply blen_zero in E as ->. now apply col_reads_ret.
  - apply (col_reads_map _ _ _ (blen offsets) _ _ (eq (concat (map (to_le 8) offsets)))).
    + apply reads_rows_bytes. rewrite (blen_concat 8) by assumption. unfold blen. now rewrite length_map.
    + intros ? <-. apply col_reads_ret. rewrite as_chunks_concat by (lia || assumption).
      rewrite map_map. clear Hparts. induction Hoff as [|o l Ho _ IH]; [reflexivity|]. cbn [map].
      rewrite <- IH. f_equal. symmetry. apply from_to_le. unfold U64_MAX in Ho. cbn. lia.
Qed.

(** ** What a column type promises *)

(** The rows of a column: each one can be fetched, and an index beyond them is a
    protocol error. *)
Definition column_holds {T} `{ClickHouseColumn T} (c : ColumnData T) (vs : list T) : Prop :=
  column_len c = blen vs /\
  forall i, 0 <= i ->
  match nth_error vs (Z.to_nat i) with
  | Some v => column_get c i = Ok v
  | None => exists m, column_get c i = Err (Protocol m)
  end.

Class ColumnLaws (T : Type) `{ClickHouseColumn T} := {
  valid : T -> Prop;
  column_written : forall vs, Forall valid vs ->
    exists bs, write_column vs = Ok bs /\
               reads (read_column T) (blen vs) (blen vs) bs (fun c => column_holds c vs);
}.

(** A column type whose columns are written value by value, each of at least a byte. *)
Class RowWise (T : Type) `{ColumnLaws T} : Prop := {
  row_wise : forall vs, write_column vs = write_each vs;
  value_bytes : forall v bs, valid v -> write_to v = Ok bs -> 1 <= blen bs;
}.

(** A row-wise column, written with the values of [write_to]. *)
Lemma column_written_each {T} `{ColumnLaws T} `{!RowWise T} vs :
  Forall valid vs ->
  exists bs, write_each vs = Ok bs /\
             reads (read_column T) (blen vs) (blen vs) bs (fun c => column_holds c vs).
Proof. intros Hv. destruct (column_written vs Hv) as (bs & Hw & Hr). rewrite row_wise in Hw. eauto. Qed.

(** Every value of a row-wise column takes a byte. *)
Lemma row_wise_count {T} `{RowWise T} vs : forall bs,
  Forall valid vs -> write_each vs = Ok bs -> blen vs <= blen bs.
Proof.
  induction vs as [|v vs IH]; intros bs Hv Hw; [apply blen_nonneg|]. inversion Hv as [|? ? Hvv Hvs]; subst.
  unfold write_each in Hw. rewrite map_each_cons in Hw. cbn in Hw.
  destruct (write_to v) as [b|e] eqn:Ev; [|discriminate].
  destruct (map_each vs write_to) as [parts|e] eqn:Evs; [|discriminate]. inj. cbn [concat].
  apply value_bytes in Ev; [|assumption]. rewrite blen_app, blen_cons.
  enough (blen vs <= blen (concat parts)) by lia. apply IH; [assumption|].
  unfold write_each. cbn. now rewrite Evs.
Qed.

Lemma write_each_nil {T} `{ClickHouseValue T} : write_each (T := T) [] = Ok [].
Proof. reflexivity. Qed.

Lemma write_each_cons {T} `{ClickHouseValue T} (v : T) vs bs bss :
  write_to v = Ok bs -> write_each vs = Ok bss -> write_each (v :: vs) = Ok (bs ++ bss).
Proof.
  intros Hv Hvs. unfold write_each in *. rewrite map_each_cons. cbn. rewrite Hv.
  cbn in Hvs. destruct (map_each vs write_to) as [parts|e]; [|discriminate]. inj. reflexivity.
Qed.

Lemma write_each_app {T} `{ClickHouseValue T} (vs ws : list T) bs cs :
  write_each vs = Ok bs -> write_each ws = Ok cs -> write_each (vs ++ ws) = Ok (bs ++ cs).
Proof.
  revert bs; induction vs as [|v vs IH]; intros bs Hv Hw; cbn [app].
  - rewrite write_each_nil in Hv. inj. assumption.
  - unfold write_each in Hv. rewrite map_each_cons in Hv. cbn in Hv.
    destruct (write_to v) as [b|e] eqn:Ev; [|discriminate].
    destruct (map_each vs write_to) as [parts|e] eqn:Evs; [|discriminate].
    inj. cbn [concat]. rewrite <- app_assoc. apply write_each_cons; [assumption|].
    apply IH; [|assumption]. unfold write_each. cbn. now rewrite Evs.
Qed.

(** Values written one by one. *)
Lemma write_each_parts {T} `{ClickHouseValue T} (P : T -> bytes -> Prop) (vs : list T) :
  Forall (fun v => exists bs, write_to v = Ok bs /\ P v bs) vs ->
  exists parts, write_each vs = Ok (concat parts) /\ Forall2 P vs parts.
Proof.
  induction 1 as [|v vs (bs & Hw & HP) _ (parts & Hws & HPs)]; [now exists []|].
  exists (bs :: parts). split; [|now constructor]. now apply write_each_cons.
Qed.

Lemma nth_error_lt {A} (l : list A) i a : nth_error l i = Some a -> (i < length l)%nat.
Proof. intros H. apply nth_error_Some. congruence. Qed.

Lemma Forall2_nth {A B} (P : A -> B -> Prop) l1 l2 i a b :
  Forall2 P l1 l2 -> nth_error l1 i = Some a -> nth_error l2 i = Some b -> P a b.
Proof.
  intros Hp. revert i. induction Hp as [|x y l1 l2 Hxy _ IH]; intros [|i] Ha Hb; cbn in *; try discriminate.
  - congruence.
  - eauto.
Qed.

(** Values of a fixed width [w], each decoded from its part by [f]. *)
Section Parts.
Context {T : Type} (w : Z) (f : bytes -> T) (vs : list T) (parts : list bytes).
Hypothesis Hparts : Forall2 (fun v p => blen p = w /\ f p = v) vs parts.

Lemma parts_width : Forall (fun p => blen p = w) parts.
Proof.
  clear - Hparts. revert Hparts. induction 1 as [|v p vs' ps [Hp _] _ IH]; constructor; assumption.
Qed.

Lemma parts_length : blen (concat parts) = blen vs * w.
Proof. rewrite (blen_concat w) by apply parts_width. unfold blen. now rewrite (Forall2_length Hparts). Qed.

Lemma parts_get i v :
  0 <= w -> 0 <= i -> nth_error vs (Z.to_nat i) = Some v ->
  f (slice (concat parts) (i * w) (i * w + w)) = v.
Proof.
  intros Hw Hi Ev. pose proof (nth_error_lt _ _ _ Ev) as Hlt. pose proof (Forall2_length Hparts) as Hl.
  assert (nth_error (full_chunks (length parts) w (concat parts)) (Z.to_nat i) =
          Some (slice (concat parts) (i * w) (i * w + w))) as Hn
    by (rewrite nth_full_chunks, Z2Nat.id by lia; reflexivity).
  rewrite <- (app_nil_r (concat parts)), full_chunks_concat in Hn by apply parts_width.
  rewrite app_nil_r in Hn. exact (proj2 (Forall2_nth _ _ _ _ _ _ Hparts Ev Hn)).
Qed.
End Parts.

(** ** Plain columns *)

Class PlainLaws (T : Type) `{PlainColumn T} := {
  plain_valid : T -> Prop;
  size_pos : 0 < size_of T;
  write_plain : forall v, plain_valid v -> exists bs, write_to v = Ok bs /\ blen bs = size_of T /\ of_memory bs = v;
  memory_valid : forall bs, blen bs = size_of T -> plain_valid (of_memory bs);
}.

Section PlainLaws.
Context {T : Type} `{PlainLaws T}.

Lemma plain_get_slice (c : PlainColumnData T) i :
  0 <= i < plain_count c -> plain_count c * size_of T <= blen (plain_buf c) <= ISIZE_MAX ->
  plain_get c i = Ok (of_memory (slice (plain_buf c) (i * size_of T) (i * size_of T + size_of T))).
Proof.
  intros Hi Hlen. pose proof size_pos. unfold plain_get.
  destruct (Z.leb_spec (plain_count c) i); [lia|].
  assert (i * size_of T + size_of T <= plain_count c * size_of T) by nia.
  rewrite checked_mul_ok by lia. cbn [ok_or]. cbn -[slice].
  destruct (Z.ltb_spec (blen (plain_buf c)) (i * size_of T)); [lia|].
  destruct (Z.ltb_spec (blen (plain_buf c) - i * size_of T) (size_of T)); [lia|reflexivity].
Qed.

Lemma plain_get_out (c : PlainColumnData T) i :
  plain_count c <= i -> exists m, plain_get c i = Err (Protocol m).
Proof. intros Hi. unfold plain_get. destruct (Z.leb_spec (plain_count c) i); [eauto|lia]. Qed.

(** [as_slice] is the fetched values. *)
Lemma plain_as_slice_get (addr : Z) (c : PlainColumnData T) l i v :
  0 <= plain_count c -> blen (plain_buf c) <= ISIZE_MAX ->
  plain_as_slice addr c = Some l -> nth_error l i = Some v -> plain_get c (Z.of_nat i) = Ok v.
Proof.
  intros Hc Hmax. unfold plain_as_slice. destruct (Z.eqb_spec (plain_count c) 0).
  { intros ? Hn. inj. now destruct i. }
  cbn. destruct (checked_mul _ _) as [nb|] eqn:E; [|discriminate]. apply checked_mul_inv in E as [-> _].
  destruct (Z.ltb_spec (blen (plain_buf c)) (plain_count c * size_of T)); [discriminate|].
  destruct (_ =? 0); [|discriminate]. intros ? Hn. inj. rewrite nth_error_map in Hn.
  pose proof size_pos. destruct (Nat.ltb_spec i (Z.to_nat (plain_count c))) as [Hi|Hi].
  - rewrite nth_full_chunks in Hn by lia. cbn in Hn. inj. apply plain_get_slice; lia.
  - replace (nth_error _ i) with (@None bytes) in Hn; [discriminate|]. symmetry. apply nth_error_None.
    now rewrite length_full_chunks.
Qed.

Lemma plain_written (vs : list T) :
  Forall plain_valid vs ->
  exists parts, write_each vs = Ok (concat parts) /\
    Forall2 (fun v p => blen p = size_of T /\ of_memory p = v) vs parts.
Proof.
  intros Hv. apply write_each_parts. eapply Forall_impl; [|exact Hv]. intros v Hvv.
  destruct (write_plain v Hvv) as (bs & ? & ? & ?). eauto.
Qed.

Lemma plain_holds (vs : list T) parts :
  Forall2 (fun v p => blen p = size_of T /\ of_memory p = v) vs parts -> blen (concat parts) <= ISIZE_MAX ->
  column_holds (mkPlain (T := T) (concat parts) (blen vs)) vs.
Proof.
  intros Hp Hlen. split; [reflexivity|]. intros i Hi. cbn [column_get plain_column].
  pose proof (size_pos (T := T)). rewrite (parts_length _ _ _ _ Hp) in Hlen.
  destruct (nth_error vs (Z.to_nat i)) as [v|] eqn:Ev.
  - pose proof (nth_error_lt _ _ _ Ev). rewrite plain_get_slice; cbn [plain_buf plain_count].
    + f_equal. apply (parts_get _ _ vs); auto; lia.
    + unfold blen. lia.
    + rewrite (parts_length _ _ _ _ Hp). lia.
  - apply plain_get_out. apply nth_error_None in Ev. cbn. unfold blen. lia.
Qed.

Lemma reads_plain (vs : list T) parts :
  Forall2 (fun v p => blen p = size_of T /\ of_memory p = v) vs parts ->
  reads plain_read_column (blen vs) (blen vs) (concat parts) (fun c => column_holds (T := T) c vs).
Proof.
  intros Hp. apply reads_fits. intros Hfit. pose proof (parts_length _ _ _ _ Hp) as Hlen.
  apply (reads_bind_nil _ _ _ _ _ _ _ _ (reads_get_rows _)). intros ? <-.
  apply (reads_bind_nil _ _ _ (blen vs) _ _ (eq (blen (concat parts)))).
  { apply col_reads_lift. rewrite checked_mul_ok by lia. cbn. now rewrite Hlen. }
  intros ? <-. apply (col_reads_map _ _ _ _ _ _ _ _ (col_reads_exact _ _)). intros ? <-.
  apply col_reads_ret. now apply plain_holds.
Qed.

#[export] Instance plain_column_laws : ColumnLaws T.
Proof.
  refine {| valid := plain_valid |}. intros vs Hv. destruct (plain_written vs Hv) as (parts & Hw & Hp).
  exists (concat parts). split; [exact Hw|]. now apply reads_plain.
Defined.

#[export] Instance plain_row_wise : RowWise T.
Proof.
  split; [reflexivity|]. intros v bs Hv Hw. destruct (write_plain v Hv) as (bs' & Hw' & Hlen & _).
  pose proof size_pos. assert (bs = bs') as -> by congruence. lia.
Qed.
End PlainLaws.

(** ** Numbers *)

Definition num_ok (k : prim) (v : num k) : Prop :=
  if prim_signed k then - 2 ^ (8 * prim_size k - 1) <= num_val v < 2 ^ (8 * prim_size k - 1)
  else 0 <= num_val v < 2 ^ (8 * prim_size k).

Lemma prim_size_pos k : 0 < prim_size k.
Proof. now destruct k. Qed.

Lemma to_signed_mod bits v :
  0 < bits -> - 2 ^ (bits - 1) <= v < 2 ^ (bits - 1) -> to_signed bits (v mod 2 ^ bits) = v.
Proof.
  intros Hb Hv. unfold to_signed.
  assert (2 ^ bits = 2 * 2 ^ (bits - 1)) as E by (rewrite <- Z.pow_succ_r by lia; f_equal; lia).
  destruct (Z.leb_spec 0 v).
  - rewrite Z.mod_small by lia. bool_cases; lia.
  - replace (v mod 2 ^ bits) with (v + 2 ^ bits).
    + bool_cases; lia.
    + rewrite <- (Z.mod_add v 1) by lia. rewrite Z.mod_small; lia.
Qed.

Lemma to_signed_range bits u : 0 < bits -> 0 <= u < 2 ^ bits -> - 2 ^ (bits - 1) <= to_signed bits u < 2 ^ (bits - 1).
Proof.
  intros Hb Hu. assert (2 ^ bits = 2 * 2 ^ (bits - 1)) as E by (rewrite <- Z.pow_succ_r by lia; f_equal; lia).
  unfold to_signed. bool_cases; lia.
Qed.

Lemma blen_num_to_le k v : blen (num_to_le k v) = prim_size k.
Proof. unfold num_to_le. rewrite blen_to_le. pose proof (prim_size_pos k). lia. Qed.

Lemma num_from_to_le k v : num_ok k v -> num_from_le k (num_to_le k v) = v.
Proof.
  destruct v as [v]. unfold num_ok, num_from_le, num_to_le, from_le, to_le. cbn [num_val]. intros Hv.
  rewrite LittleEndianList.le_combine_split. pose proof (prim_size_pos k).
  replace (Z.of_nat (Z.to_nat (prim_size k)) * 8) with (8 * prim_size k) by lia. f_equal.
  destruct (prim_signed k); [apply to_signed_mod; lia|apply Z.mod_small; lia].
Qed.

Lemma num_from_le_ok k bs : blen bs = prim_size k -> num_ok k (num_from_le k bs).
Proof.
  intros Hlen. pose proof (from_le_bound bs) as Hb. rewrite Hlen in Hb.
  unfold num_ok, num_from_le. cbn [num_val]. pose proof (prim_size_pos k).
  destruct (prim_signed k); [apply to_signed_range; lia|lia].
Qed.

Lemma blen_rev (l : bytes) : blen (rev l) = blen l.
Proof. unfold blen. now rewrite length_rev. Qed.

Lemma num_from_to_be k v : num_ok k v -> num_from_be k (num_to_be k v) = v.
Proof. intros Hv. unfold num_from_be, num_to_be. rewrite rev_involutive. now apply num_from_to_le. Qed.

#[export] Instance num_laws k : PlainLaws (num k).
Proof.
  refine {| plain_valid := num_ok k |}.
  - apply prim_size_pos.
  - intros v Hv. exists (num_to_le k v). conj; [reflexivity|apply blen_num_to_le|now apply num_from_to_le].
  - intros bs Hbs. now apply num_from_le_ok.
Defined.

(** The wrappers inherit the laws of the number they wrap. *)
Lemma wrapped_laws {T} (k : prim) (name : string) (wrap : num k -> T) (unwrap : T -> num k) :
  (forall v, wrap (unwrap v) = v) -> (forall n, unwrap (wrap n) = n) ->
  @PlainLaws T (wrapped_value k name wrap unwrap) (@wrapped_plain T k wrap (wrapped_value k name wrap unwrap)).
Proof.
  intros H1 H2. refine {| plain_valid := fun v : T => num_ok k (unwrap v) |}.
  - apply prim_size_pos.
  - intros v Hv. exists (num_to_le k (unwrap v)). conj; [reflexivity|apply blen_num_to_le|].
    cbn. rewrite num_from_to_le by assumption. apply H1.
  - intros bs Hbs. cbn. rewrite H2. now apply num_from_le_ok.
Defined.

#[export] Instance date_laws : PlainLaws date.
Proof. now apply wrapped_laws; intros []. Defined.
#[export] Instance datetime_laws : PlainLaws datetime.
Proof. now apply wrapped_laws; intros []. Defined.
#[export] Instance uuid_laws : PlainLaws uuid.
Proof. now apply wrapped_laws; intros []. Defined.
#[export] Instance ipv4_laws : PlainLaws ipv4.
Proof. now apply wrapped_laws; intros []. Defined.
#[export] Instance datetime64_laws : PlainLaws datetime64.
Proof. now apply wrapped_laws; intros []. Defined.
#[export] Instance decimal32_laws : PlainLaws decimal32.
Proof. now apply wrapped_laws; intros []. Defined.
#[export] Instance decimal64_laws : PlainLaws decimal64.
Proof. now apply wrapped_laws; intros []. Defined.
#[export] Instance decimal128_laws : PlainLaws decimal128.
Proof. now apply wrapped_laws; intros []. Defined.

Lemma array32_laws {T} (name : string) (wrap : bytes -> T) (unwrap : T -> bytes) :
  (forall v, wrap (unwrap v) = v) -> (forall n, unwrap (wrap n) = n) ->
  @PlainLaws T (array32_value name wrap unwrap) (@array32_plain T wrap (array32_value name wrap unwrap)).
Proof.
  intros H1 H2. refine {| plain_valid := fun v : T => blen (unwrap v) = 32 |}.
  - reflexivity.
  - intros v Hv. exists (unwrap v). conj; [reflexivity|exact Hv|apply H1].
  - intros bs Hbs. cbn. now rewrite H2.
Defined.

#[export] Instance uint256_laws : PlainLaws uint256.
Proof. now apply array32_laws; intros []. Defined.
#[export] Instance int256_laws : PlainLaws int256.
Proof. now apply array32_laws; intros []. Defined.
#[export] Instance decimal256_laws : PlainLaws decimal256.
Proof. now apply array32_laws; intros []. Defined.

(** ** Conversions *)

Lemma uuid_bytes_length u : blen (uuid_as_bytes u) = 16.
Proof.
  unfold uuid_as_bytes, num_to_be. rewrite blen_app.
  rewrite !blen_slice; rewrite ?blen_rev, ?blen_num_to_le; cbn; lia.
Qed.

Lemma slice_of_app {A} (a b : list A) n : blen a = n -> slice (a ++ b) n (n + blen b) = b /\ slice (a ++ b) 0 n = a.
Proof.
  intros Hn. unfold slice. rewrite drop_app_len by assumption. split.
  - replace (n + blen b - n) with (blen b) by lia. apply take_all.
  - rewrite drop_0, Z.sub_0_r. now apply take_app_len.
Qed.

Lemma swap_halves (l : bytes) : blen l = 16 ->
  let s := slice l 8 16 ++ slice l 0 8 in slice s 8 16 ++ slice s 0 8 = l.
Proof.
  intros Hl. cbv zeta.
  destruct (slice_of_app (slice l 8 16) (slice l 0 8) 8) as [E1 E2]; [apply blen_slice; lia|].
  rewrite (blen_slice l 0 8) in E1 by lia. change (8 + (8 - 0)) with 16 in E1. rewrite E1, E2.
  rewrite slice_app by lia. rewrite <- Hl. unfold slice. rewrite drop_0, Z.sub_0_r. apply take_all.
Qed.

Lemma uuid_bytes_roundtrip u : plain_valid u -> uuid_from_bytes (uuid_as_bytes u) = u.
Proof.
  destruct u as [v]. intros Hv. unfold uuid_from_bytes, uuid_as_bytes. cbn [uuid_val] in *.
  rewrite swap_halves by (unfold num_to_be; now rewrite blen_rev, blen_num_to_le).
  f_equal. now apply num_from_to_be.
Qed.

Lemma ipv4_std_roundtrip a : plain_valid a -> ipv4_from_std (ipv4_to_std a) = a.
Proof. destruct a as [v]. intros Hv. unfold ipv4_from_std, ipv4_to_std. f_equal. now apply num_from_to_be. Qed.

Lemma ipv6_std_roundtrip a : num_ok U128 (ipv6_val a) -> ipv6_from_std (ipv6_to_std a) = a.
Proof. destruct a as [v]. intros Hv. unfold ipv6_from_std, ipv6_to_std. f_equal. now apply num_from_to_be. Qed.

(** Whole seconds survive [from_timestamp] and [to_timestamp], at the scales the
    multiplication does not overflow at. *)
Lemma timestamp_roundtrip ts scale v :
  0 <= scale -> from_timestamp ts scale = Ok v -> to_timestamp v scale = Ok ts.
Proof.
  intros Hs. unfold from_timestamp, to_timestamp. cbn. destruct (i64_pow10 scale) as [m|e] eqn:Em; [|discriminate].
  destruct (_ && _); [|discriminate]. intros H. inj. destruct ts as [t]. cbn. do 2 f_equal.
  unfold i64_pow10 in Em. destruct (_ <? _); [|discriminate]. inj.
  apply Z.quot_mul. pose proof (Z.pow_pos_nonneg 10 scale). lia.
Qed.

(** ** IPv6 and bool *)

Definition ipv6_valid (v : ipv6) : Prop := num_ok U128 (ipv6_val v).

Lemma ipv6_get_slice c i :
  0 <= i < ipv6_count c -> ipv6_count c * 16 <= blen (ipv6_buf c) <= ISIZE_MAX ->
  ipv6_get c i = Ok (Ipv6 (num_from_be U128 (slice (ipv6_buf c) (i * 16) (i * 16 + 16)))).
Proof.
  intros Hi Hlen. unfold ipv6_get. destruct (Z.leb_spec (ipv6_count c) i); [lia|].
  rewrite checked_mul_ok by lia. cbn [ok_or]. cbn -[slice index_slice num_from_be]. unfold index_slice.
  destruct (Z.leb_spec (i * 16) (i * 16 + 16)); [|lia].
  destruct (Z.leb_spec (i * 16 + 16) (blen (ipv6_buf c))); [reflexivity|lia].
Qed.

Lemma ipv6_written vs :
  Forall ipv6_valid vs ->
  exists parts, write_each vs = Ok (concat parts) /\
    Forall2 (fun v p => blen p = 16 /\ Ipv6 (num_from_be U128 p) = v) vs parts.
Proof.
  intros Hv. apply write_each_parts. eapply Forall_impl; [|exact Hv]. intros [v] Hvv.
  exists (num_to_be U128 v). conj; [reflexivity| |].
  - unfold num_to_be. now rewrite blen_rev, blen_num_to_le.
  - f_equal. now apply num_from_to_be.
Qed.

#[export] Instance ipv6_column_laws : ColumnLaws ipv6.
Proof.
  refine {| valid := ipv6_valid |}. intros vs Hv. destruct (ipv6_written vs Hv) as (parts & Hw & Hp).
  exists (concat parts). split; [exact Hw|]. apply reads_fits. intros Hfit.
  pose proof (parts_length _ _ _ _ Hp) as Hlen.
  apply (reads_bind_nil _ _ _ _ _ _ _ _ (reads_get_rows _)). intros ? <-.
  apply (reads_bind_nil _ _ _ (blen vs) _ _ (eq (blen (concat parts)))).
  { apply col_reads_lift. rewrite checked_mul_ok by lia. cbn. now rewrite Hlen. }
  intros ? <-. apply (col_reads_map _ _ _ _ _ _ _ _ (col_reads_exact _ _)). intros ? <-. apply col_reads_ret.
  split; [reflexivity|]. intros i Hi. cbn [column_get ipv6_column].
  destruct (nth_error vs (Z.to_nat i)) as [v|] eqn:Ev.
  - pose proof (nth_error_lt _ _ _ Ev). rewrite ipv6_get_slice; cbn [ipv6_buf ipv6_count].
    + f_equal. apply (parts_get _ _ vs parts Hp i v ltac:(lia) Hi Ev).
    + unfold blen. lia.
    + lia.
  - apply nth_error_None in Ev. unfold ipv6_get. cbn [ipv6_count].
    destruct (Z.leb_spec (blen vs) i); [eauto|unfold blen in *; lia].
Defined.

#[export] Instance ipv6_row_wise : RowWise ipv6.
Proof.
  split; [reflexivity|]. intros v bs _ Hw. cbn [write_to ipv6_value] in Hw. inj.
  unfold num_to_be. rewrite blen_rev, blen_num_to_le. cbn. lia.
Qed.

Lemma bool_byte_value b : negb (byte.unsigned (bool_byte b) =? 0) = b.
Proof. now destruct b. Qed.

#[export] Instance bool_column_laws : ColumnLaws bool.
Proof.
  refine {| valid := fun _ => True |}. intros vs _. exists (map bool_byte vs). split; [reflexivity|].
  assert (blen (map bool_byte vs) = blen vs) as Hlen by (unfold blen; now rewrite length_map).
  apply (reads_bind_nil _ _ _ _ _ _ _ _ (reads_get_rows _)). intros ? <-.
  rewrite <- Hlen at 1. apply (col_reads_map _ _ _ _ _ _ _ _ (col_reads_exact _ _)). intros ? <-. apply col_reads_ret.
  split; [exact Hlen|]. intros i Hi. cbn [column_get bool_column]. unfold bool_get. cbn [bool_bytes].
  rewrite Hlen. destruct (nth_error vs (Z.to_nat i)) as [v|] eqn:Ev.
  - pose proof (nth_error_lt _ _ _ Ev). destruct (Z.leb_spec (blen vs) i); [unfold blen in *; lia|].
    unfold drop. rewrite skipn_map. apply nth_error_split in Ev as (l1 & l2 & -> & El).
    rewrite <- El, skipn_app, skipn_all, Nat.sub_diag. cbn. now rewrite bool_byte_value.
  - apply nth_error_None in Ev. destruct (Z.leb_spec (blen vs) i); [eauto|unfold blen in *; lia].
Defined.

#[export] Instance bool_row_wise : RowWise bool.
Proof.
  split; [|intros v bs _ Hw; cbn in Hw; inj; cbn; lia].
  intros vs. cbn [write_column bool_column]. symmetry.
  induction vs as [|v vs IH]; [reflexivity|]. now apply (write_each_cons v vs [bool_byte v]).
Qed.

(** ** Strings *)

(** The slice decoder of varints agrees with the stream decoder. *)
Lemma varint_slice_loop_agrees fuel : forall r shift data c,
  shift < 64 <= shift + 7 * Z.of_nat fuel ->
  match run (async_read_varint_loop fuel r shift) data with
  | Ok (v, rest) => varint_slice_loop data r shift c = Ok (v, c + (blen data - blen rest))
  | Err _ => exists m, varint_slice_loop data r shift c = Err (Protocol m)
  end.
Proof.
  induction fuel as [|fuel IH]; intros r shift data c Hs; [lia|].
  cbn [async_read_varint_loop]. destruct data as [|b data].
  - rewrite run_bind, run_read1. cbn. eauto.
  - rewrite run_bind_read1. cbn [byte0 varint_slice_loop].
    destruct (_ && _); [cbn; unfold varint_overflow; eauto|]. destruct (_ =? 0).
    + rewrite run_ret, blen_cons. do 2 f_equal. lia.
    + destruct (Z.leb_spec 64 (shift + 7)); [cbn; unfold varint_overflow; eauto|].
      specialize (IH (Z.lor r (u64_shl (Z.land (byte.unsigned b) 127) shift)) (shift + 7) data (c + 1) ltac:(lia)).
      destruct (run _ data) as [[v rest]|e]; [|assumption]. rewrite IH, blen_cons. do 2 f_equal. lia.
Qed.

Lemma read_varint_from_slice_agrees data :
  match run read_varint data with
  | Ok (v, rest) => read_varint_from_slice data = Ok (v, blen data - blen rest)
  | Err _ => exists m, read_varint_from_slice data = Err (Protocol m)
  end.
Proof.
  pose proof (varint_slice_loop_agrees 10 0 0 data 0 ltac:(lia)) as H.
  unfold run in *. rewrite <- (async_read_varint_eq (Io UnexpectedEof) data). unfold async_read_varint.
  destruct (run_with _ _ data) as [[v rest]|e]; exact H.
Qed.

Lemma read_varint_slice_written v rest :
  0 <= v <= U64_MAX -> read_varint_from_slice (encode_varint v ++ rest) = Ok (v, blen (encode_varint v)).
Proof.
  intros Hv. pose proof (read_varint_from_slice_agrees (encode_varint v ++ rest)) as H.
  rewrite read_encode_varint, blen_app in H by assumption. rewrite H. do 2 f_equal. lia.
Qed.

Definition text_valid (v : text) : Prop := utf8_valid (text_bytes v) = true.

Definition encode_text (v : text) : bytes := write_varint (blen (text_bytes v)) ++ text_bytes v.

Lemma write_each_text vs : write_each vs = Ok (concat (map encode_text vs)).
Proof. induction vs as [|v vs IH]; [reflexivity|]. now apply (write_each_cons v vs (encode_text v)). Qed.

(** Where the bodies of [vs] lie when the first of them starts at [scan]. *)
Fixpoint body_ranges (scan : Z) (vs : list text) : list (Z * Z) :=
  match vs with
  | [] => []
  | v :: vs =>
      let start := scan + blen (write_varint (blen (text_bytes v))) in
      let end_ := start + blen (text_bytes v) in
      (start, end_) :: body_ranges end_ vs
  end.

(** After a body comes the next string. *)
Lemma scan_next v vs buf pos scan rest :
  0 <= pos -> 0 <= scan ->
  drop (pos + scan) buf = concat (map encode_text (v :: vs)) ++ rest ->
  drop (pos + (scan + blen (encode_varint (blen (text_bytes v))) + blen (text_bytes v))) buf =
  concat (map encode_text vs) ++ rest.
Proof.
  intros Hpos Hscan Hdrop.
  pose proof (blen_nonneg (text_bytes v)). pose proof (blen_nonneg (encode_varint (blen (text_bytes v)))).
  replace (pos + _) with (blen (encode_text v) + (pos + scan))
    by (unfold encode_text, write_varint; rewrite blen_app; lia).
  rewrite <- drop_drop by (try apply blen_nonneg; lia). rewrite Hdrop. cbn [map concat].
  rewrite <- app_assoc. apply drop_app_exact.
Qed.

Lemma scan_strings_written vs : forall buf pos scan rest,
  blen buf <= ISIZE_MAX -> 0 <= pos -> 0 <= scan -> pos + scan <= blen buf ->
  drop (pos + scan) buf = concat (map encode_text vs) ++ rest ->
  scan_strings (length vs) buf pos scan = Ok (body_ranges scan vs, scan + blen (concat (map encode_text vs))).
Proof.
  induction vs as [|v vs IH]; intros buf pos scan rest Hmax Hpos Hscan Hle Hdrop.
  - cbn. now rewrite Z.add_0_r.
  - cbn [length scan_strings]. destruct (Z.ltb_spec (blen buf) (pos + scan)); [lia|].
    assert (blen buf = pos + scan + blen (concat (map encode_text (v :: vs)) ++ rest)) as Hb
      by (rewrite <- Hdrop, blen_drop; lia).
    cbn [map concat] in Hb. unfold encode_text at 1 in Hb. unfold write_varint in Hb. rewrite !blen_app in Hb.
    pose proof (blen_nonneg (text_bytes v)) as Hv. pose proof (blen_nonneg (encode_varint (blen (text_bytes v)))) as He.
    pose proof (blen_nonneg (concat (map encode_text vs))) as Hc. pose proof (blen_nonneg rest) as Hr.
    rewrite Hdrop. cbn [map concat]. unfold encode_text at 1 3. unfold write_varint. rewrite <- !app_assoc.
    rewrite read_varint_slice_written by (unfold ISIZE_MAX, U64_MAX in *; lia).
    cbn [bind result_monad]. unfold checked_add.
    destruct (Z.leb_spec (scan + blen (encode_varint (blen (text_bytes v))) + blen (text_bytes v)) USIZE_MAX);
      [|unfold ISIZE_MAX, USIZE_MAX in *; lia].
    cbn [ok_or bind result_monad].
    rewrite (IH buf pos _ rest) by (try lia; apply (scan_next v vs); assumption).
    cbn [bind result_monad]. do 2 f_equal. rewrite !blen_app. lia.
Qed.

Lemma body_ranges_nth vs : forall scan data i v,
  0 <= scan <= blen data -> drop scan data = concat (map encode_text vs) -> nth_error vs i = Some v ->
  exists a b, nth_error (body_ranges scan vs) i = Some (a, b) /\ get_slice_opt data a b = Some (text_bytes v).
Proof.
  induction vs as [|w vs IH]; intros scan data i v Hscan Hdrop Hi; [now destruct i|].
  assert (blen data = scan + blen (concat (map encode_text (w :: vs)))) as Hlen by (rewrite <- Hdrop, blen_drop; lia).
  cbn [map concat] in Hlen. unfold encode_text at 1 in Hlen. rewrite !blen_app in Hlen.
  pose proof (blen_nonneg (text_bytes w)). pose proof (blen_nonneg (write_varint (blen (text_bytes w)))).
  pose proof (blen_nonneg (concat (map encode_text vs))).
  destruct i as [|i]; cbn [nth_error body_ranges] in *.
  - inj. eexists _, _. split; [reflexivity|]. unfold get_slice_opt.
    destruct (_ <=? _) eqn:E1; [|lia]. destruct (_ <=? blen data) eqn:E2; [|lia]. cbn [andb]. f_equal. unfold slice.
    rewrite (Z.add_comm scan), <- drop_drop by lia. rewrite Hdrop. cbn [map concat]. unfold encode_text at 1.
    rewrite <- app_assoc, drop_app_exact. apply take_app_len. lia.
  - apply IH; [lia| |assumption]. rewrite <- (app_nil_r (concat (map encode_text vs))).
    apply (scan_next w vs data 0 scan []); [lia..|]. now rewrite app_nil_r.
Qed.

Lemma length_body_ranges scan vs : length (body_ranges scan vs) = length vs.
Proof. revert scan; induction vs as [|v vs IH]; intros scan; cbn; [reflexivity|now rewrite IH]. Qed.

Lemma text_holds vs :
  Forall text_valid vs -> column_holds (T := text) (mkStrings (body_ranges 0 vs) (concat (map encode_text vs))) vs.
Proof.
  intros Hv. split; [cbn; unfold blen; now rewrite length_body_ranges|]. intros i Hi.
  cbn [column_get text_column]. unfold str_get_string, str_get_bytes, str_range. cbn [str_ranges str_data].
  destruct (nth_error vs (Z.to_nat i)) as [[v]|] eqn:Ev.
  - destruct (body_ranges_nth vs 0 (concat (map encode_text vs)) (Z.to_nat i) (Text v))
      as (a & b & -> & Hs); [pose proof (blen_nonneg (concat (map encode_text vs))); lia|apply drop_0|assumption|].
    cbn [ok_or bind result_monad]. rewrite Hs. cbn. do 2 f_equal. apply from_utf8_lossy_id.
    rewrite Forall_forall in Hv. exact (Hv _ (nth_error_In _ _ Ev)).
  - replace (nth_error (body_ranges 0 vs) (Z.to_nat i)) with (@None (Z * Z)); [cbn; eauto|].
    symmetry. apply nth_error_None. rewrite length_body_ranges. now apply nth_error_None.
Qed.

#[export] Instance text_column_laws : ColumnLaws text.
Proof.
  refine {| valid := text_valid |}. intros vs Hv. exists (concat (map encode_text vs)).
  split; [apply write_each_text|]. apply (reads_bind_nil _ _ _ _ _ _ _ _ (reads_get_rows _)). intros ? <-.
  destruct (Z.eqb_spec (blen vs) 0) as [E|_].
  { apply blen_zero in E as ->. apply col_reads_ret. exact (text_holds [] Hv). }
  intros pre rest Hlen. exists (mkStrings (body_ranges 0 vs) (concat (map encode_text vs))).
  split; [|now apply text_holds].
  cbn [bind context_monad get_ctx ctx_buf ctx_pos]. unfold blen at 1. rewrite Nat2Z.id.
  rewrite (scan_strings_written vs _ (blen pre) 0 rest Hlen).
  - cbn [lift context_lift Z.add].
    destruct (col_reads_exact (blen vs) (concat (map encode_text vs)) pre rest Hlen) as (bs & Hbs & <-).
    rewrite Hbs. reflexivity.
  - apply blen_nonneg.
  - lia.
  - rewrite !blen_app, Z.add_0_r. pose proof (blen_nonneg (concat (map encode_text vs))). pose proof (blen_nonneg rest). lia.
  - rewrite Z.add_0_r. apply drop_app_exact.
Defined.

#[export] Instance text_row_wise : RowWise text.
Proof.
  split; [reflexivity|]. intros [v] bs _ Hw. cbn [write_to text_value] in Hw. inj. rewrite blen_app.
  unfold write_varint, encode_varint. cbn [encode_varint_loop]. rewrite blen_cons.
  pose proof (blen_nonneg v). cbn [text_bytes].
  match goal with |- context [blen (if ?b then ?x else ?y)] => pose proof (blen_nonneg (if b then x else y)) end. lia.
Qed.

(** [get_str] borrows what [get] copies, on valid UTF-8. *)
Lemma str_get_str_get c i s : str_get_str c i = Ok s -> str_get_string c i = Ok (Text s).
Proof.
  unfold str_get_str, str_get_string. intros H. apply result_bind_inv in H as (bs & -> & H).
  cbn [bind result_monad]. destruct (utf8_valid bs) eqn:E; [|discriminate]. inj. now rewrite from_utf8_lossy_id.
Qed.

(** ** JSON *)

Lemma write_len_loop_encode fuel v : 0 <= v -> write_len_loop fuel v = encode_varint_loop fuel v.
Proof.
  revert v; induction fuel as [|fuel IH]; intros v Hv; [reflexivity|]. cbn [write_len_loop encode_varint_loop].
  rewrite IH by (apply Z.shiftr_nonneg; lia). f_equal. f_equal.
  rewrite Z.shiftr_div_pow2 by lia. change (2 ^ 7) with 128.
  destruct (Z.ltb_spec 127 v); destruct (Z.eqb_spec (v / 128) 0) as [E|E]; try reflexivity.
  - apply Z.div_small_iff in E; lia.
  - now rewrite Z.lor_0_r.
  - now rewrite Z.div_small in E by lia.
Qed.

Lemma write_string_to_buf_encode s : write_string_to_buf s = write_string s.
Proof.
  unfold write_string_to_buf, write_string, write_varint, encode_varint.
  now rewrite write_len_loop_encode by apply blen_nonneg.
Qed.

Definition json_valid (v : json_value) : Prop := utf8_valid (json_text v) = true.

(** The ends of the texts, the first starting at [start]. *)
Fixpoint text_ends (start : Z) (vs : list json_value) : list Z :=
  match vs with
  | [] => []
  | v :: vs => let e := start + blen (json_text v) in e :: text_ends e vs
  end.

Lemma json_read_rows_written vs : forall n data offsets,
  reads (json_read_rows (length vs) data offsets) n n
        (concat (map (fun v => write_string_to_buf (json_text v)) vs))
        (eq (mkJsonColumn (data ++ concat (map json_text vs)) (offsets ++ text_ends (blen data) vs))).
Proof.
  induction vs as [|v vs IH]; intros n data offsets.
  { apply col_reads_ret. cbn. now rewrite !app_nil_r. }
  cbn [map concat length json_read_rows text_ends]. intros pre rest Hlen.
  rewrite write_string_to_buf_encode in *. unfold write_string in *. rewrite <- !app_assoc in *.
  set (enc := write_varint (blen (json_text v))) in *.
  set (tail := concat (map (fun v => write_string_to_buf (json_text v)) vs)) in *.
  rewrite !blen_app in Hlen. pose proof (blen_nonneg pre). pose proof (blen_nonneg enc).
  pose proof (blen_nonneg (json_text v)). pose proof (blen_nonneg tail). pose proof (blen_nonneg rest).
  cbn [bind context_monad get_ctx ctx_buf ctx_pos]. rewrite drop_app_exact. unfold json_varint_from_slice.
  unfold enc at 1. unfold write_varint. rewrite read_varint_slice_written by (unfold ISIZE_MAX, U64_MAX in *; lia).
  fold (write_varint (blen (json_text v))). fold enc. cbn [bind result_monad].
  assert (usize_try_from (blen (json_text v)) = Some (blen (json_text v))) as ->.
  { unfold usize_try_from, try_from_max. bool_cases; [reflexivity|unfold ISIZE_MAX, USIZE_MAX in *; lia]. }
  cbn [ok_or bind result_monad lift context_lift]. unfold checked_add.
  destruct (Z.leb_spec (blen pre + blen enc) USIZE_MAX); [|unfold ISIZE_MAX, USIZE_MAX in *; lia].
  cbn [ok_or lift context_lift set_pos ctx_rows ctx_buf].
  assert (reads (let* body := ctx_read_exact (blen (json_text v)) in
                 json_read_rows (length vs) (data ++ body) (offsets ++ [blen (data ++ body)])) n n
            (json_text v ++ tail)
            (eq (mkJsonColumn (data ++ json_text v ++ concat (map json_text vs))
                              (offsets ++ blen data + blen (json_text v) :: text_ends (blen data + blen (json_text v)) vs)))) as Hbody.
  { apply (col_reads_bind _ _ _ _ _ _ _ _ _ (col_reads_exact n (json_text v))). intros ? <-.
    specialize (IH n (data ++ json_text v) (offsets ++ [blen (data ++ json_text v)])).
    rewrite blen_app in IH |- *. rewrite <- !app_assoc in IH. exact IH. }
  destruct (Hbody (pre ++ enc) rest) as (c & Hc & <-).
  { rewrite <- !app_assoc, !blen_app. lia. }
  rewrite <- !app_assoc, !blen_app in Hc. eexists. split; [|reflexivity].
  cbn [bind context_monad] in Hc. rewrite Hc. rewrite !blen_app. do 3 f_equal. lia.
Qed.

Lemma length_text_ends start vs : length (text_ends start vs) = length vs.
Proof. revert start; induction vs as [|v vs IH]; intros start; cbn; [reflexivity|now rewrite IH]. Qed.

(** The text of row [i] lies between the ends of rows [i - 1] and [i]. *)
Lemma text_ends_nth vs : forall start data i v,
  0 <= start <= blen data -> drop start data = concat (map json_text vs) -> nth_error vs i = Some v ->
  exists e, nth_error (text_ends start vs) i = Some e /\
    get_slice_opt data (match i with O => start | S j => nth j (text_ends start vs) 0 end) e = Some (json_text v).
Proof.
  induction vs as [|w vs IH]; intros start data i v Hs Hdrop Hi; [now destruct i|].
  assert (blen data = start + blen (concat (map json_text (w :: vs)))) as Hlen by (rewrite <- Hdrop, blen_drop; lia).
  cbn [map concat] in Hlen. rewrite blen_app in Hlen.
  pose proof (blen_nonneg (json_text w)). pose proof (blen_nonneg (concat (map json_text vs))).
  destruct i as [|i]; cbn [nth_error text_ends] in *.
  - inj. eexists. split; [reflexivity|]. unfold get_slice_opt.
    destruct (_ <=? _) eqn:E1; [|lia]. destruct (_ <=? blen data) eqn:E2; [|lia]. cbn [andb]. f_equal.
    unfold slice. rewrite Hdrop. cbn [map concat]. apply take_app_len. lia.
  - destruct (IH (start + blen (json_text w)) data i v) as (e & He & Hsl); [lia| |assumption|].
    + rewrite (Z.add_comm start), <- drop_drop by lia. rewrite Hdrop. cbn [map concat]. apply drop_app_exact.
    + exists e. split; [exact He|]. destruct i; exact Hsl.
Qed.

#[export] Instance json_column_laws : ColumnLaws json_value.
Proof.
  refine {| valid := json_valid |}. intros vs Hv. eexists. split; [reflexivity|].
  apply (reads_bind_nil _ _ _ _ _ _ _ _ (reads_get_rows _)). intros ? <-. unfold blen at 1. rewrite Nat2Z.id.
  intros pre rest Hlen. destruct (json_read_rows_written vs (blen vs) [] [] pre rest Hlen) as (c & Hc & <-).
  eexists. split; [exact Hc|]. split; [cbn; unfold blen; now rewrite length_text_ends|]. intros i Hi.
  cbn [column_get json_column app blen length Z.of_nat]. unfold json_get_string. cbn [json_offsets json_data].
  destruct (nth_error vs (Z.to_nat i)) as [[v]|] eqn:Ev.
  - destruct (text_ends_nth vs 0 (concat (map json_text vs)) (Z.to_nat i) (JsonValue v)) as (e & He & Hs);
      [pose proof (blen_nonneg (concat (map json_text vs))); lia|apply drop_0|assumption|].
    rewrite He. cbn [ok_or bind result_monad].
    replace (if i =? 0 then 0 else _) with (match Z.to_nat i with O => 0 | S j => nth j (text_ends 0 vs) 0 end).
    + rewrite Hs. cbn. do 2 f_equal. apply from_utf8_lossy_id.
      rewrite Forall_forall in Hv. exact (Hv _ (nth_error_In _ _ Ev)).
    + destruct (Z.eqb_spec i 0) as [->|]; [reflexivity|].
      now replace (Z.to_nat i) with (S (Z.to_nat (i - 1))) by lia.
  - replace (nth_error (text_ends 0 vs) (Z.to_nat i)) with (@None Z); [cbn; eauto|].
    symmetry. apply nth_error_None. rewrite length_text_ends. now apply nth_error_None.
Defined.
