(* ===== verification/CompoundColumns.v ===== *)
(** * Typed columns: the compound ones

    src/shared/column/nullable.rs, array.rs, map.rs, tuple.rs and geo.rs, over the
    traits of [Columns].  A compound column is read component by component, each with
    its own [read_column]; it is written with the [write_to] of its elements, which is
    the native layout only when the element type is row-wise ([RowWise]).  The laws
    carry over from such elements; what happens with others is evaluated at the end. *)

From Stdlib Require Import String ZArith Lia Bool List.
From Stdlib Require Import Strings.Byte.
From coqutil Require Import Byte.
From S2P Require Import Prelude Reader Limits Utf8 Wire Columns.
Import ListNotations.

(** ** Nullable *)

Record NullableColumnData (D : Type) := mkNullable { null_mask : bytes; null_inner : D }.
Arguments mkNullable {D} null_mask null_inner.
Arguments null_mask {D} n.
Arguments null_inner {D} n.

Definition is_null {D} (c : NullableColumnData D) (index : Z) : bool :=
  match nth_error (null_mask c) (Z.to_nat index) with
  | Some b => negb (byte.unsigned b =? 0)
  | None => false
  end.

Section Nullable.
Context {T : Type} `{ClickHouseColumn T} `{Default T}.

#[export] Instance option_value : ClickHouseValue (option T) := {
  ch_type_name := str "Nullable(T)";
  read_from l :=
    let* (flag, l) := run (read_exact_r 1) l in
    if negb (byte0 flag =? 0) then Ok (None, l)
    else let* (v, l) := read_from l in Ok (Some v, l);
  write_to v :=
    match v with
    | None => Ok [x01]
    | Some v => let* bs := write_to v in Ok (x00 :: bs)
    end;
}.

Definition nullable_get (c : NullableColumnData (ColumnData T)) (index : Z) : result error (option T) :=
  if is_null c index then Ok None
  else let* v := column_get (null_inner c) index in Ok (Some v).

Definition nullable_read_column : context (NullableColumnData (ColumnData T)) :=
  let* rows := get_rows in
  let* mask := ctx_read_exact rows in
  let* inner := read_column T in
  ret (mkNullable mask inner).

Definition null_byte (v : option T) : byte := match v with None => x01 | Some _ => x00 end.

Definition or_default (v : option T) : T := match v with Some v => v | None => default end.

Definition nullable_write_column (data : list (option T)) : result error bytes :=
  let* values := write_each (map or_default data) in
  Ok (map null_byte data ++ values).

#[export] Instance nullable_column : ClickHouseColumn (option T) := {
  ColumnData := NullableColumnData (ColumnData T);
  read_column := nullable_read_column;
  write_column := nullable_write_column;
  column_len c := blen (null_mask c);
  column_get := nullable_get;
}.
End Nullable.

#[export] Instance option_default T : Default (option T) := None.

(** ** Offsets: the shape of Array, Map and the geo columns *)

(** [element_range] (Array, Map): the bounds of row [index]. *)
Definition element_range (what : string) (offsets : list Z) (index : Z) : result error (Z * Z) :=
  let* start :=
    if index =? 0 then Ok 0
    else ok_or (nth_error offsets (Z.to_nat (index - 1))) (Protocol (msg what)) in
  let* end_ := ok_or (nth_error offsets (Z.to_nat index)) (Protocol (msg what)) in
  Ok (start, end_).

(** [Vec::with_capacity(end - start)]: the subtraction underflows. *)
Definition capacity (start end_ : Z) : result error Z :=
  if end_ <? start then Err ModelPanic else Ok (end_ - start).

(** [for i in start..start + n { result.push(get(i)?); }] *)
Fixpoint get_each {A} (get : Z -> result error A) (n : nat) (start : Z) : result error (list A) :=
  match n with
  | O => Ok []
  | S n => let* a := get start in let* l := get_each get n (start + 1) in Ok (a :: l)
  end.

(** Running a reader of elements with [ctx.rows = total], the rows being restored
    after it. *)
Definition with_rows {A} (total : Z) (m : context A) : context A :=
  let* saved := get_rows in
  set_rows total ;;
  let* a := m in
  set_rows saved ;;
  ret a.

(** [offsets[rows - 1]] *)
Definition last_offset (offsets : list Z) : Z := last offsets 0.

(** The cumulative sizes, as they are written. *)
Fixpoint cumulative (acc : Z) (sizes : list Z) : list Z :=
  match sizes with
  | [] => []
  | n :: sizes => (acc + n) :: cumulative (acc + n) sizes
  end.

Definition write_offsets (sizes : list Z) : bytes := concat (map (to_le 8) (cumulative 0 sizes)).

(** ** Array *)

Record ArrayColumnData (D : Type) := mkArray { array_offsets : list Z; array_inner : D }.
Arguments mkArray {D} array_offsets array_inner.
Arguments array_offsets {D} a.
Arguments array_inner {D} a.

Section Array.
Context {T : Type} `{ClickHouseColumn T}.

#[export] Instance vec_value : ClickHouseValue (list T) := {
  ch_type_name := ch_type_name (T := T);
  read_from _ := Err (Protocol (msg "Vec<T> RowBinary read not supported (use Native format)"));
  write_to _ := Err (Protocol (msg "Vec<T> RowBinary write not supported"));
}.

Definition array_get (c : ArrayColumnData (ColumnData T)) (index : Z) : result error (list T) :=
  let* (start, end_) := element_range "ArrayColumnData: index out of bounds" (array_offsets c) index in
  let* n := capacity start end_ in
  get_each (column_get (array_inner c)) (Z.to_nat n) start.

Definition array_read_column : context (ArrayColumnData (ColumnData T)) :=
  let* rows := get_rows in
  if rows =? 0 then let* inner := read_column T in ret (mkArray [] inner)
  else
    let* offsets := read_offsets in
    let* inner := with_rows (last_offset offsets) (read_column T) in
    ret (mkArray offsets inner).

Definition array_write_column (data : list (list T)) : result error bytes :=
  let* elems := write_each (concat data) in
  Ok (write_offsets (map blen data) ++ elems).

#[export] Instance array_column : ClickHouseColumn (list T) := {
  ColumnData := ArrayColumnData (ColumnData T);
  read_column := array_read_column;
  write_column := array_write_column;
  column_len c := blen (array_offsets c);
  column_get := array_get;
}.
End Array.

#[export] Instance vec_default T : Default (list T) := [].

(** ** Map

    A [HashMap] is the list of its entries in iteration order, which [keys] and
    [values] share. *)
Record hash_map (K V : Type) := HashMap { entries : list (K * V) }.
Arguments HashMap {K V} entries.
Arguments entries {K V} h.

(** [Eq] of the keys. *)
Class KeyEq (K : Type) := key_eqb : K -> K -> bool.

Fixpoint insert_entry {K V} `{KeyEq K} (k : K) (v : V) (l : list (K * V)) : list (K * V) :=
  match l with
  | [] => [(k, v)]
  | (k', v') :: l => if key_eqb k k' then (k, v) :: l else (k', v') :: insert_entry k v l
  end.

Record MapColumnData (D E : Type) := mkMap { map_offsets : list Z; map_keys : D; map_values : E }.
Arguments mkMap {D E} map_offsets map_keys map_values.
Arguments map_offsets {D E} m.
Arguments map_keys {D E} m.
Arguments map_values {D E} m.

Section Map.
Context {K V : Type} `{ClickHouseColumn K} `{ClickHouseColumn V} `{KeyEq K}.

#[export] Instance map_value : ClickHouseValue (hash_map K V) := {
  ch_type_name := str "Map";
  read_from _ := Err (Protocol (msg "HashMap RowBinary read not supported"));
  write_to _ := Err (Protocol (msg "HashMap RowBinary write not supported"));
}.

(** The loop of [get]: one insertion per index. *)
Fixpoint insert_range (c : MapColumnData (ColumnData K) (ColumnData V)) (n : nat) (i : Z) (m : list (K * V))
  : result error (list (K * V)) :=
  match n with
  | O => Ok m
  | S n =>
      let* k := column_get (map_keys c) i in
      let* v := column_get (map_values c) i in
      insert_range c n (i + 1) (insert_entry k v m)
  end.

Definition map_get (c : MapColumnData (ColumnData K) (ColumnData V)) (index : Z) : result error (hash_map K V) :=
  let* (start, end_) := element_range "MapColumnData: index out of bounds" (map_offsets c) index in
  let* n := capacity start end_ in
  let* m := insert_range c (Z.to_nat n) start [] in
  Ok (HashMap m).

Definition map_read_column : context (MapColumnData (ColumnData K) (ColumnData V)) :=
  let* rows := get_rows in
  if rows =? 0 then
    let* keys := read_column K in
    let* values := read_column V in
    ret (mkMap [] keys values)
  else
    let* offsets := read_offsets in
    let* (keys, values) :=
      with_rows (last_offset offsets)
        (let* keys := read_column K in let* values := read_column V in ret (keys, values)) in
    ret (mkMap offsets keys values).

Definition map_write_column (data : list (hash_map K V)) : result error bytes :=
  let all := concat (map entries data) in
  let* keys := write_each (map fst all) in
  let* values := write_each (map snd all) in
  Ok (write_offsets (map (fun m => blen (entries m)) data) ++ keys ++ values).

#[export] Instance map_column : ClickHouseColumn (hash_map K V) := {
  ColumnData := MapColumnData (ColumnData K) (ColumnData V);
  read_column := map_read_column;
  write_column := map_write_column;
  column_len c := blen (map_offsets c);
  column_get := map_get;
}.
End Map.

(** ** Tuples

    The Rust tuples [(T1, ..., Tn)], from two to eight components.  A tuple's
    [write_to] writes nothing, and so does [write_column] from five components on. *)

#[local] Set Implicit Arguments.
#[local] Set Maximal Implicit Insertion.

(** [impl ClickHouseValue] of every tuple. *)
Definition tuple_value (T : Type) : ClickHouseValue T := {|
  ch_type_name := str "Tuple";
  read_from _ := Err (Protocol (msg "tuple single read not supported"));
  write_to _ := Ok [];
|}.

Record tuple2 (T1 T2 : Type) := Tup2 { t2_1 : T1; t2_2 : T2 }.

Record Tuple2Data (D1 D2 : Type) := mkTuple2 { d2_1 : D1; d2_2 : D2; d2_rows : Z }.

Section Tuple2.
Context {T1 T2 : Type} `{ClickHouseColumn T1} `{ClickHouseColumn T2}.

#[export] Instance tuple2_value : ClickHouseValue (tuple2 T1 T2) := tuple_value (tuple2 T1 T2).

Definition tuple2_get (c : Tuple2Data (ColumnData T1) (ColumnData T2)) (index : Z) : result error (tuple2 T1 T2) :=
  let* v1 := column_get (d2_1 c) index in
  let* v2 := column_get (d2_2 c) index in
  Ok (Tup2 v1 v2).

Definition tuple2_read_column : context (Tuple2Data (ColumnData T1) (ColumnData T2)) :=
  let* rows := get_rows in
  let* col1 := read_column T1 in
  let* col2 := read_column T2 in
  ret (mkTuple2 col1 col2 rows).

Definition tuple2_write_column (data : list (tuple2 T1 T2)) : result error bytes :=
  let* bs1 := write_each (map t2_1 data) in
  let* bs2 := write_each (map t2_2 data) in
  Ok (bs1 ++ bs2).

#[export] Instance tuple2_column : ClickHouseColumn (tuple2 T1 T2) := {
  ColumnData := Tuple2Data (ColumnData T1) (ColumnData T2);
  read_column := tuple2_read_column;
  write_column := tuple2_write_column;
  column_len := d2_rows;
  column_get := tuple2_get;
}.
End Tuple2.

Record tuple3 (T1 T2 T3 : Type) := Tup3 { t3_1 : T1; t3_2 : T2; t3_3 : T3 }.

Record Tuple3Data (D1 D2 D3 : Type) := mkTuple3 { d3_1 : D1; d3_2 : D2; d3_3 : D3; d3_rows : Z }.

Section Tuple3.
Context {T1 T2 T3 : Type} `{ClickHouseColumn T1} `{ClickHouseColumn T2} `{ClickHouseColumn T3}.

#[export] Instance tuple3_value : ClickHouseValue (tuple3 T1 T2 T3) := tuple_value (tuple3 T1 T2 T3).

Definition tuple3_get (c : Tuple3Data (ColumnData T1) (ColumnData T2) (ColumnData T3)) (index : Z) : result error (tuple3 T1 T2 T3) :=
  let* v1 := column_get (d3_1 c) index in
  let* v2 := column_get (d3_2 c) index in
  let* v3 := column_get (d3_3 c) index in
  Ok (Tup3 v1 v2 v3).

Definition tuple3_read_column : context (Tuple3Data (ColumnData T1) (ColumnData T2) (ColumnData T3)) :=
  let* rows := get_rows in
  let* col1 := read_column T1 in
  let* col2 := read_column T2 in
  let* col3 := read_column T3 in
  ret (mkTuple3 col1 col2 col3 rows).

Definition tuple3_write_column (data : list (tuple3 T1 T2 T3)) : result error bytes :=
  let* bs1 := write_each (map t3_1 data) in
  let* bs2 := write_each (map t3_2 data) in
  let* bs3 := write_each (map t3_3 data) in
  Ok (bs1 ++ bs2 ++ bs3).

#[export] Instance tuple3_column : ClickHouseColumn (tuple3 T1 T2 T3) := {
  ColumnData := Tuple3Data (ColumnData T1) (ColumnData T2) (ColumnData T3);
  read_column := tuple3_read_column;
  write_column := tuple3_write_column;
  column_len := d3_rows;
  column_get := tuple3_get;
}.
End Tuple3.

Record tuple4 (T1 T2 T3 T4 : Type) := Tup4 { t4_1 : T1; t4_2 : T2; t4_3 : T3; t4_4 : T4 }.

Record Tuple4Data (D1 D2 D3 D4 : Type) := mkTuple4 { d4_1 : D1; d4_2 : D2; d4_3 : D3; d4_4 : D4; d4_rows : Z }.

Section Tuple4.
Context {T1 T2 T3 T4 : Type} `{ClickHouseColumn T1} `{ClickHouseColumn T2} `{ClickHouseColumn T3} `{ClickHouseColumn T4}.

#[export] Instance tuple4_value : ClickHouseValue (tuple4 T1 T2 T3 T4) := tuple_value (tuple4 T1 T2 T3 T4).

Definition tuple4_get (c : Tuple4Data (ColumnData T1) (ColumnData T2) (ColumnData T3) (ColumnData T4)) (index : Z) : result error (tuple4 T1 T2 T3 T4) :=
  let* v1 := column_get (d4_1 c) index in
  let* v2 := column_get (d4_2 c) index in
  let* v3 := column_get (d4_3 c) index in
  let* v4 := column_get (d4_4 c) index in
  Ok (Tup4 v1 v2 v3 v4).

Definition tuple4_read_column : context (Tuple4Data (ColumnData T1) (ColumnData T2) (ColumnData T3) (ColumnData T4)) :=
  let* rows := get_rows in
  let* col1 := read_column T1 in
  let* col2 := read_column T2 in
  let* col3 := read_column T3 in
  let* col4 := read_column T4 in
  ret (mkTuple4 col1 col2 col3 col4 rows).

Definition tuple4_write_column (data : list (tuple4 T1 T2 T3 T4)) : result error bytes :=
  let* bs1 := write_each (map t4_1 data) in
  let* bs2 := write_each (map t4_2 data) in
  let* bs3 := write_each (map t4_3 data) in
  let* bs4 := write_each (map t4_4 data) in
  Ok (bs1 ++ bs2 ++ bs3 ++ bs4).

#[export] Instance tuple4_column : ClickHouseColumn (tuple4 T1 T2 T3 T4) := {
  ColumnData := Tuple4Data (ColumnData T1) (ColumnData T2) (ColumnData T3) (ColumnData T4);
  read_column := tuple4_read_column;
  write_column := tuple4_write_column;
  column_len := d4_rows;
  column_get := tuple4_get;
}.
End Tuple4.

Record tuple5 (T1 T2 T3 T4 T5 : Type) := Tup5 { t5_1 : T1; t5_2 : T2; t5_3 : T3; t5_4 : T4; t5_5 : T5 }.

Record Tuple5Data (D1 D2 D3 D4 D5 : Type) := mkTuple5 { d5_1 : D1; d5_2 : D2; d5_3 : D3; d5_4 : D4; d5_5 : D5; d5_rows : Z }.

Section Tuple5.
Context {T1 T2 T3 T4 T5 : Type} `{ClickHouseColumn T1} `{ClickHouseColumn T2} `{ClickHouseColumn T3} `{ClickHouseColumn T4} `{ClickHouseColumn T5}.

#[export] Instance tuple5_value : ClickHouseValue (tuple5 T1 T2 T3 T4 T5) := tuple_value (tuple5 T1 T2 T3 T4 T5).

Definition tuple5_get (c : Tuple5Data (ColumnData T1) (ColumnData T2) (ColumnData T3) (ColumnData T4) (ColumnData T5)) (index : Z) : result error (tuple5 T1 T2 T3 T4 T5) :=
  let* v1 := column_get (d5_1 c) index in
  let* v2 := column_get (d5_2 c) index in
  let* v3 := column_get (d5_3 c) index in
  let* v4 := column_get (d5_4 c) index in
  let* v5 := column_get (d5_5 c) index in
  Ok (Tup5 v1 v2 v3 v4 v5).

Definition tuple5_read_column : context (Tuple5Data (ColumnData T1) (ColumnData T2) (ColumnData T3) (ColumnData T4) (ColumnData T5)) :=
  let* rows := get_rows in
  let* col1 := read_column T1 in
  let* col2 := read_column T2 in
  let* col3 := read_column T3 in
  let* col4 := read_column T4 in
  let* col5 := read_column T5 in
  ret (mkTuple5 col1 col2 col3 col4 col5 rows).

#[export] Instance tuple5_column : ClickHouseColumn (tuple5 T1 T2 T3 T4 T5) := {
  ColumnData := Tuple5Data (ColumnData T1) (ColumnData T2) (ColumnData T3) (ColumnData T4) (ColumnData T5);
  read_column := tuple5_read_column;
  write_column _ := Ok [];
  column_len := d5_rows;
  column_get := tuple5_get;
}.
End Tuple5.

Record tuple6 (T1 T2 T3 T4 T5 T6 : Type) := Tup6 { t6_1 : T1; t6_2 : T2; t6_3 : T3; t6_4 : T4; t6_5 : T5; t6_6 : T6 }.

Record Tuple6Data (D1 D2 D3 D4 D5 D6 : Type) := mkTuple6 { d6_1 : D1; d6_2 : D2; d6_3 : D3; d6_4 : D4; d6_5 : D5; d6_6 : D6; d6_rows : Z }.

Section Tuple6.
Context {T1 T2 T3 T4 T5 T6 : Type} `{ClickHouseColumn T1} `{ClickHouseColumn T2} `{ClickHouseColumn T3} `{ClickHouseColumn T4} `{ClickHouseColumn T5} `{ClickHouseColumn T6}.

#[export] Instance tuple6_value : ClickHouseValue (tuple6 T1 T2 T3 T4 T5 T6) := tuple_value (tuple6 T1 T2 T3 T4 T5 T6).

Definition tuple6_get (c : Tuple6Data (ColumnData T1) (ColumnData T2) (ColumnData T3) (ColumnData T4) (ColumnData T5) (ColumnData T6)) (index : Z) : result error (tuple6 T1 T2 T3 T4 T5 T6) :=
  let* v1 := column_get (d6_1 c) index in
  let* v2 := column_get (d6_2 c) index in
  let* v3 := column_get (d6_3 c) index in
  let* v4 := column_get (d6_4 c) index in
  let* v5 := column_get (d6_5 c) index in
  let* v6 := column_get (d6_6 c) index in
  Ok (Tup6 v1 v2 v3 v4 v5 v6).

Definition tuple6_read_column : context (Tuple6Data (ColumnData T1) (ColumnData T2) (ColumnData T3) (ColumnData T4) (ColumnData T5) (ColumnData T6)) :=
  let* rows := get_rows in
  let* col1 := read_column T1 in
  let* col2 := read_column T2 in
  let* col3 := read_column T3 in
  let* col4 := read_column T4 in
  let* col5 := read_column T5 in
  let* col6 := read_column T6 in
  ret (mkTuple6 col1 col2 col3 col4 col5 col6 rows).

#[export] Instance tuple6_column : ClickHouseColumn (tuple6 T1 T2 T3 T4 T5 T6) := {
  ColumnData := Tuple6Data (ColumnData T1) (ColumnData T2) (ColumnData T3) (ColumnData T4) (ColumnData T5) (ColumnData T6);
  read_column := tuple6_read_column;
  write_column _ := Ok [];
  column_len := d6_rows;
  column_get := tuple6_get;
}.
End Tuple6.

Record tuple7 (T1 T2 T3 T4 T5 T6 T7 : Type) := Tup7 { t7_1 : T1; t7_2 : T2; t7_3 : T3; t7_4 : T4; t7_5 : T5; t7_6 : T6; t7_7 : T7 }.

Record Tuple7Data (D1 D2 D3 D4 D5 D6 D7 : Type) := mkTuple7 { d7_1 : D1; d7_2 : D2; d7_3 : D3; d7_4 : D4; d7_5 : D5; d7_6 : D6; d7_7 : D7; d7_rows : Z }.

Section Tuple7.
Context {T1 T2 T3 T4 T5 T6 T7 : Type} `{ClickHouseColumn T1} `{ClickHouseColumn T2} `{ClickHouseColumn T3} `{ClickHouseColumn T4} `{ClickHouseColumn T5} `{ClickHouseColumn T6} `{ClickHouseColumn T7}.

#[export] Instance tuple7_value : ClickHouseValue (tuple7 T1 T2 T3 T4 T5 T6 T7) := tuple_value (tuple7 T1 T2 T3 T4 T5 T6 T7).

Definition tuple7_get (c : Tuple7Data (ColumnData T1) (ColumnData T2) (ColumnData T3) (ColumnData T4) (ColumnData T5) (ColumnData T6) (ColumnData T7)) (index : Z) : result error (tuple7 T1 T2 T3 T4 T5 T6 T7) :=
  let* v1 := column_get (d7_1 c) index in
  let* v2 := column_get (d7_2 c) index in
  let* v3 := column_get (d7_3 c) index in
  let* v4 := column_get (d7_4 c) index in
  let* v5 := column_get (d7_5 c) index in
  let* v6 := column_get (d7_6 c) index in
  let* v7 := column_get (d7_7 c) index in
  Ok (Tup7 v1 v2 v3 v4 v5 v6 v7).

Definition tuple7_read_column : context (Tuple7Data (ColumnData T1) (ColumnData T2) (ColumnData T3) (ColumnData T4) (ColumnData T5) (ColumnData T6) (ColumnData T7)) :=
  let* rows := get_rows in
  let* col1 := read_column T1 in
  let* col2 := read_column T2 in
  let* col3 := read_column T3 in
  let* col4 := read_column T4 in
  let* col5 := read_column T5 in
  let* col6 := read_column T6 in
  let* col7 := read_column T7 in
  ret (mkTuple7 col1 col2 col3 col4 col5 col6 col7 rows).

#[export] Instance tuple7_column : ClickHouseColumn (tuple7 T1 T2 T3 T4 T5 T6 T7) := {
  ColumnData := Tuple7Data (ColumnData T1) (ColumnData T2) (ColumnData T3) (ColumnData T4) (ColumnData T5) (ColumnData T6) (ColumnData T7);
  read_column := tuple7_read_column;
  write_column _ := Ok [];
  column_len := d7_rows;
  column_get := tuple7_get;
}.
End Tuple7.

Record tuple8 (T1 T2 T3 T4 T5 T6 T7 T8 : Type) := Tup8 { t8_1 : T1; t8_2 : T2; t8_3 : T3; t8_4 : T4; t8_5 : T5; t8_6 : T6; t8_7 : T7; t8_8 : T8 }.

Record Tuple8Data (D1 D2 D3 D4 D5 D6 D7 D8 : Type) := mkTuple8 { d8_1 : D1; d8_2 : D2; d8_3 : D3; d8_4 : D4; d8_5 : D5; d8_6 : D6; d8_7 : D7; d8_8 : D8; d8_rows : Z }.

Section Tuple8.
Context {T1 T2 T3 T4 T5 T6 T7 T8 : Type} `{ClickHouseColumn T1} `{ClickHouseColumn T2} `{ClickHouseColumn T3} `{ClickHouseColumn T4} `{ClickHouseColumn T5} `{ClickHouseColumn T6} `{ClickHouseColumn T7} `{ClickHouseColumn T8}.

#[export] Instance tuple8_value : ClickHouseValue (tuple8 T1 T2 T3 T4 T5 T6 T7 T8) := tuple_value (tuple8 T1 T2 T3 T4 T5 T6 T7 T8).

Definition tuple8_get (c : Tuple8Data (ColumnData T1) (ColumnData T2) (ColumnData T3) (ColumnData T4) (ColumnData T5) (ColumnData T6) (ColumnData T7) (ColumnData T8)) (index : Z) : result error (tuple8 T1 T2 T3 T4 T5 T6 T7 T8) :=
  let* v1 := column_get (d8_1 c) index in
  let* v2 := column_get (d8_2 c) index in
  let* v3 := column_get (d8_3 c) index in
  let* v4 := column_get (d8_4 c) index in
  let* v5 := column_get (d8_5 c) index in
  let* v6 := column_get (d8_6 c) index in
  let* v7 := column_get (d8_7 c) index in
  let* v8 := column_get (d8_8 c) index in
  Ok (Tup8 v1 v2 v3 v4 v5 v6 v7 v8).

Definition tuple8_read_column : context (Tuple8Data (ColumnData T1) (ColumnData T2) (ColumnData T3) (ColumnData T4) (ColumnData T5) (ColumnData T6) (ColumnData T7) (ColumnData T8)) :=
  let* rows := get_rows in
  let* col1 := read_column T1 in
  let* col2 := read_column T2 in
  let* col3 := read_column T3 in
  let* col4 := read_column T4 in
  let* col5 := read_column T5 in
  let* col6 := read_column T6 in
  let* col7 := read_column T7 in
  let* col8 := read_column T8 in
  ret (mkTuple8 col1 col2 col3 col4 col5 col6 col7 col8 rows).

#[export] Instance tuple8_column : ClickHouseColumn (tuple8 T1 T2 T3 T4 T5 T6 T7 T8) := {
  ColumnData := Tuple8Data (ColumnData T1) (ColumnData T2) (ColumnData T3) (ColumnData T4) (ColumnData T5) (ColumnData T6) (ColumnData T7) (ColumnData T8);
  read_column := tuple8_read_column;
  write_column _ := Ok [];
  column_len := d8_rows;
  column_get := tuple8_get;
}.
End Tuple8.

#[local] Unset Implicit Arguments.
#[local] Unset Maximal Implicit Insertion.

(** ** Geo columns *)

Record point := mkPoint { point_x : num F64; point_y : num F64 }.
Record ring := mkRing { ring_points : list point }.
Record polygon := mkPolygon { polygon_rings : list ring }.
Record multi_polygon := mkMultiPolygon { polygons : list polygon }.

(** [PointColumnData]: all x values, then all y values. *)
Record PointColumnData := mkPoints { points_data : PlainColumnData (num F64); points_count : Z }.

Definition get_point (c : PointColumnData) (index : Z) : result error point :=
  let* x := plain_get (points_data c) index in
  let* y := plain_get (points_data c) (points_count c + index) in
  Ok (mkPoint x y).

#[export] Instance point_value : ClickHouseValue point := {
  ch_type_name := str "Tuple(Float64, Float64)";
  read_from :=
    run (let* buf_x := read_exact_r 8 in
         let* buf_y := read_exact_r 8 in
         ret (mkPoint (num_from_le F64 buf_x) (num_from_le F64 buf_y)));
  write_to p := Ok (num_to_le F64 (point_x p) ++ num_to_le F64 (point_y p));
}.

Definition point_read_column : context PointColumnData :=
  let* count := get_rows in
  let* nrows := lift (ok_or (checked_mul count 2) (Protocol (msg "Point column size overflow"))) in
  let* nbytes := lift (ok_or (checked_mul count 16) (Protocol (msg "Point column size overflow"))) in
  let* bytes := ctx_read_exact nbytes in
  let* inner := lift (read_from_bytes bytes nrows) in
  ret (mkPoints inner count).

Definition point_write_column (data : list point) : result error bytes :=
  Ok (concat (map (fun p => num_to_le F64 (point_x p)) data) ++
      concat (map (fun p => num_to_le F64 (point_y p)) data)).

#[export] Instance point_column : ClickHouseColumn point := {
  ColumnData := PointColumnData;
  read_column := point_read_column;
  write_column := point_write_column;
  column_len := points_count;
  column_get := get_point;
}.

(** [impl ClickHouseValue] of the nested geo types. *)
Definition geo_value (T : Type) (name read write : string) : ClickHouseValue T := {|
  ch_type_name := str name;
  read_from _ := Err (Protocol (msg read));
  write_to _ := Err (Protocol (msg write));
|}.

#[export] Instance ring_value : ClickHouseValue ring :=
  geo_value ring "Array(Tuple(Float64, Float64))"
    "Ring RowBinary read not supported" "Ring RowBinary write not supported".
#[export] Instance polygon_value : ClickHouseValue polygon :=
  geo_value polygon "Array(Array(Tuple(Float64, Float64)))"
    "Polygon RowBinary read not supported" "Polygon RowBinary write not supported".
#[export] Instance multi_polygon_value : ClickHouseValue multi_polygon :=
  geo_value multi_polygon "Array(Array(Array(Tuple(Float64, Float64))))"
    "MultiPolygon RowBinary read not supported" "MultiPolygon RowBinary write not supported".

(** [point_range], [ring_range] and [poly_range]: [offsets[index - 1]] and
    [offsets[index]] panic out of range. *)
Definition geo_range (offsets : list Z) (index : Z) : result error (Z * Z) :=
  let* start := if index =? 0 then Ok 0 else ok_or (nth_error offsets (Z.to_nat (index - 1))) ModelPanic in
  let* end_ := ok_or (nth_error offsets (Z.to_nat index)) ModelPanic in
  Ok (start, end_).

(** [get_ring], [get_polygon] and [get_multipolygon], over the getter of the level
    below. *)
Definition geo_get {A} (offsets : list Z) (get : Z -> result error A) (index : Z) : result error (list A) :=
  let* (start, end_) := geo_range offsets index in
  let* n := capacity start end_ in
  get_each get (Z.to_nat n) start.

(** Their [read_column]s: nothing is read for no rows. *)
Definition geo_read_column {D} (empty : D) (inner : context D) : context (ArrayColumnData D) :=
  let* rows := get_rows in
  if rows =? 0 then ret (mkArray [] empty)
  else
    let* offsets := read_offsets in
    let* data := with_rows (last_offset offsets) inner in
    ret (mkArray offsets data).

Definition RingColumnData : Type := ArrayColumnData PointColumnData.
Definition PolygonColumnData : Type := ArrayColumnData RingColumnData.
Definition MultiPolygonColumnData : Type := ArrayColumnData PolygonColumnData.

Definition empty_points : PointColumnData := mkPoints empty_plain 0.
Definition empty_rings : RingColumnData := mkArray [] empty_points.
Definition empty_polygons : PolygonColumnData := mkArray [] empty_rings.

Definition get_ring (c : RingColumnData) (index : Z) : result error ring :=
  let* points := geo_get (array_offsets c) (get_point (array_inner c)) index in
  Ok (mkRing points).

Definition get_polygon (c : PolygonColumnData) (index : Z) : result error polygon :=
  let* rings := geo_get (array_offsets c) (get_ring (array_inner c)) index in
  Ok (mkPolygon rings).

Definition get_multipolygon (c : MultiPolygonColumnData) (index : Z) : result error multi_polygon :=
  let* polys := geo_get (array_offsets c) (get_polygon (array_inner c)) index in
  Ok (mkMultiPolygon polys).

Definition ring_read_column : context RingColumnData := geo_read_column empty_points point_read_column.
Definition polygon_read_column : context PolygonColumnData := geo_read_column empty_rings ring_read_column.
Definition multi_polygon_read_column : context MultiPolygonColumnData :=
  geo_read_column empty_polygons polygon_read_column.

#[export] Instance ring_column : ClickHouseColumn ring := {
  ColumnData := RingColumnData;
  read_column := ring_read_column;
  write_column _ := Err (Protocol (msg "Ring write not yet implemented"));
  column_len c := blen (array_offsets c);
  column_get := get_ring;
}.

#[export] Instance polygon_column : ClickHouseColumn polygon := {
  ColumnData := PolygonColumnData;
  read_column := polygon_read_column;
  write_column _ := Err (Protocol (msg "Polygon write not yet implemented"));
  column_len c := blen (array_offsets c);
  column_get := get_polygon;
}.

#[export] Instance multi_polygon_column : ClickHouseColumn multi_polygon := {
  ColumnData := MultiPolygonColumnData;
  read_column := multi_polygon_read_column;
  write_column _ := Err (Protocol (msg "MultiPolygon write not yet implemented"));
  column_len c := blen (array_offsets c);
  column_get := get_multipolygon;
}.

(** * Laws *)

(** A default value is a valid one. *)
Class DefaultValid (T : Type) `{ColumnLaws T} `{Default T} : Prop := default_valid : valid (default : T).

#[export] Instance num_default_valid k : DefaultValid (num k).
Proof. now destruct k. Qed.
#[export] Instance bool_default_valid : DefaultValid bool.
Proof. exact I. Qed.
#[export] Instance text_default_valid : DefaultValid text.
Proof. reflexivity. Qed.

(** ** Nullable *)

Section NullableLaws.
Context {T : Type} `{RowWise T} `{Default T} `{!DefaultValid T}.

Definition option_valid (v : option T) : Prop := match v with Some v => valid v | None => True end.

Lemma or_default_valid vs : Forall option_valid vs -> Forall valid (map or_default vs).
Proof. induction 1 as [|[v|] vs Hv _ IH]; constructor; auto using default_valid. Qed.

Lemma nullable_holds (vs : list (option T)) (c : ColumnData T) :
  column_holds c (map or_default vs) -> column_holds (T := option T) (mkNullable (map null_byte vs) c) vs.
Proof.
  intros [Hlen Hget]. split; [cbn; unfold blen; now rewrite length_map|]. intros i Hi.
  specialize (Hget i Hi). rewrite nth_error_map in Hget.
  cbn [column_get nullable_column]. unfold nullable_get, is_null. cbn [null_mask null_inner].
  rewrite nth_error_map. destruct (nth_error vs (Z.to_nat i)) as [[v|]|]; cbn in *.
  - now rewrite Hget.
  - reflexivity.
  - destruct Hget as [m ->]. eauto.
Qed.

#[export] Instance nullable_column_laws : ColumnLaws (option T).
Proof.
  refine {| valid := option_valid |}. intros vs Hv.
  destruct (column_written_each (map or_default vs) (or_default_valid vs Hv)) as (bs & Hw & Hr).
  exists (map null_byte vs ++ bs). split.
  - cbn [write_column nullable_column]. unfold nullable_write_column. now rewrite Hw.
  - assert (blen (map null_byte vs) = blen vs) as Hm by (unfold blen; now rewrite length_map).
    assert (blen (map or_default vs) = blen vs) as Hl by (unfold blen; now rewrite length_map).
    rewrite Hl in Hr. apply (reads_bind_nil _ _ _ _ _ _ _ _ (reads_get_rows _)). intros ? <-.
    rewrite <- Hm at 1. apply (col_reads_bind _ _ _ _ _ _ _ _ _ (col_reads_exact _ _)). intros ? <-.
    apply (col_reads_map _ _ _ _ _ _ _ _ Hr). intros c Hc. apply col_reads_ret. now apply nullable_holds.
Defined.
End NullableLaws.

(** ** Offsets *)

Lemma length_cumulative acc sizes : length (cumulative acc sizes) = length sizes.
Proof. revert acc; induction sizes as [|n sizes IH]; intros acc; cbn; [reflexivity|now rewrite IH]. Qed.

Lemma to_nat_blen {A} (l : list A) : Z.to_nat (blen l) = length l.
Proof. apply Nat2Z.id. Qed.

Lemma blen_map {A B} (f : A -> B) l : blen (map f l) = blen l.
Proof. unfold blen. now rewrite length_map. Qed.

Lemma blen_cumulative {A} acc (data : list (list A)) : blen (cumulative acc (map blen data)) = blen data.
Proof. unfold blen at 1. now rewrite length_cumulative, length_map. Qed.

Lemma cumulative_nth {A} (data : list (list A)) : forall acc i l,
  nth_error data i = Some l ->
  nth_error (cumulative acc (map blen data)) i = Some (acc + blen (concat (firstn i data)) + blen l).
Proof.
  induction data as [|x data IH]; intros acc i l Hi; [now destruct i|].
  destruct i as [|i]; cbn in *.
  - inj. now rewrite Z.add_0_r.
  - rewrite (IH _ _ l Hi), blen_app. f_equal. lia.
Qed.

Lemma cumulative_range {A} (data : list (list A)) acc :
  Forall (fun o => acc <= o <= acc + blen (concat data)) (cumulative acc (map blen data)).
Proof.
  revert acc; induction data as [|x data IH]; intros acc; [constructor|]. cbn [map cumulative concat].
  rewrite blen_app. pose proof (blen_nonneg x). pose proof (blen_nonneg (concat data)).
  constructor; [lia|]. eapply Forall_impl; [|apply IH]. cbn. lia.
Qed.

Lemma last_cumulative {A} (data : list (list A)) acc :
  data <> [] -> last (cumulative acc (map blen data)) 0 = acc + blen (concat data).
Proof.
  revert acc; induction data as [|x data IH]; intros acc Hne; [easy|]. cbn [map cumulative concat]. rewrite blen_app.
  destruct data as [|y data]; [cbn; lia|].
  specialize (IH (acc + blen x) ltac:(discriminate)). cbn [map cumulative] in IH |- *.
  cbn [last]. cbn [last] in IH. rewrite IH. lia.
Qed.

Lemma firstn_S_nth {A} (l : list A) i a : nth_error l i = Some a -> firstn (S i) l = firstn i l ++ [a].
Proof.
  revert i; induction l as [|x l IH]; intros [|i] Hi; cbn in *; try discriminate; [congruence|].
  f_equal. now apply IH.
Qed.

Lemma element_range_written {A} what (data : list (list A)) i :
  0 <= i ->
  match nth_error data (Z.to_nat i) with
  | Some l => element_range what (cumulative 0 (map blen data)) i =
              Ok (blen (concat (firstn (Z.to_nat i) data)), blen (concat (firstn (Z.to_nat i) data)) + blen l)
  | None => exists m, element_range what (cumulative 0 (map blen data)) i = Err (Protocol m)
  end.
Proof.
  intros Hi. unfold element_range.
  assert (nth_error data (Z.to_nat i) = None -> nth_error (cumulative 0 (map blen data)) (Z.to_nat i) = None) as Hout.
  { intros E. apply nth_error_None. rewrite length_cumulative, length_map. now apply nth_error_None. }
  destruct (nth_error data (Z.to_nat i)) as [l|] eqn:El.
  - rewrite (cumulative_nth data 0 _ l El). destruct (Z.eqb_spec i 0) as [->|Hne]; [reflexivity|].
    replace (Z.to_nat i) with (S (Z.to_nat (i - 1))) in El |- * by lia.
    destruct (nth_error data (Z.to_nat (i - 1))) as [p|] eqn:Ep.
    + rewrite (cumulative_nth data 0 _ p Ep). cbn [ok_or bind result_monad].
      rewrite (firstn_S_nth data _ p Ep), concat_app, blen_app. cbn [concat]. rewrite app_nil_r. reflexivity.
    + apply nth_error_None in Ep. pose proof (nth_error_lt _ _ _ El). lia.
  - rewrite Hout by reflexivity. destruct (Z.eqb_spec i 0); [cbn; eauto|].
    destruct (nth_error _ (Z.to_nat (i - 1))); cbn; eauto.
Qed.

Lemma capacity_ok start n : 0 <= n -> capacity start (start + n) = Ok n.
Proof. intros. unfold capacity. bool_cases; [lia|]. f_equal. lia. Qed.

(** The elements of a column from [a] on. *)
Lemma get_each_holds {T} `{ClickHouseColumn T} (c : ColumnData T) (before l after : list T) :
  column_holds c (before ++ l ++ after) -> get_each (column_get c) (length l) (blen before) = Ok l.
Proof.
  intros [_ Hget]. revert before Hget; induction l as [|x l IH]; intros before Hget; [reflexivity|].
  cbn [length get_each]. pose proof (Hget (blen before) (blen_nonneg _)) as Hx.
  unfold blen in Hx. rewrite Nat2Z.id, nth_error_app2, Nat.sub_diag in Hx by lia. cbn in Hx. unfold blen at 1.
  rewrite Hx. cbn [bind result_monad].
  specialize (IH (before ++ [x])). rewrite blen_app, <- app_assoc in IH. cbn [app] in IH.
  change (blen [x]) with 1 in IH. now rewrite IH.
Qed.

Lemma concat_split {A} (data : list (list A)) i l :
  nth_error data i = Some l -> concat data = concat (firstn i data) ++ l ++ concat (skipn (S i) data).
Proof.
  intros Hi. apply nth_error_split in Hi as (l1 & l2 & -> & <-).
  rewrite firstn_app, firstn_all, Nat.sub_diag, firstn_O, app_nil_r, skipn_app, (skipn_all2 (n := S (length l1)) l1) by lia.
  replace (S (length l1) - length l1)%nat with 1%nat by lia. cbn [skipn app]. now rewrite concat_app.
Qed.

Lemma reads_with_rows {A} (m : context A) n total bs P :
  reads m total total bs P -> reads (with_rows total m) n n bs P.
Proof.
  intros Hm. apply (reads_bind_nil _ _ _ _ _ _ _ _ (reads_get_rows _)). intros ? <-.
  apply (reads_bind_nil _ _ _ _ _ _ _ _ (reads_set_rows _ _)). intros _ _.
  apply (col_reads_map _ _ _ _ _ _ _ _ Hm). intros a Ha.
  apply (reads_bind_nil _ _ _ _ _ _ _ _ (reads_set_rows _ _)). intros _ _. now apply col_reads_ret.
Qed.

(** ** Array *)

Section ArrayReads.
Context {T : Type} `{ClickHouseColumn T}.

Lemma array_holds (data : list (list T)) (c : ColumnData T) :
  column_holds c (concat data) ->
  column_holds (T := list T) (mkArray (cumulative 0 (map blen data)) c) data.
Proof.
  intros Hc. split; [apply blen_cumulative|]. intros i Hi.
  cbn [column_get array_column]. unfold array_get. cbn [array_offsets array_inner].
  pose proof (element_range_written "ArrayColumnData: index out of bounds" data i Hi) as Hr.
  destruct (nth_error data (Z.to_nat i)) as [l|] eqn:El.
  - rewrite Hr. cbn [bind result_monad]. rewrite capacity_ok by apply blen_nonneg. cbn [bind result_monad].
    rewrite to_nat_blen. rewrite (concat_split data _ l El) in Hc. now apply get_each_holds in Hc.
  - destruct Hr as [m ->]. cbn. eauto.
Qed.

(** Arrays of any column type are read when their elements are. *)
Lemma reads_array (data : list (list T)) bs :
  Forall (fun o => 0 <= o <= U64_MAX) (cumulative 0 (map blen data)) ->
  reads (read_column T) (blen (concat data)) (blen (concat data)) bs (fun c => column_holds c (concat data)) ->
  reads (read_column (list T)) (blen data) (blen data) (write_offsets (map blen data) ++ bs)
        (fun c => column_holds c data).
Proof.
  intros Hoff Hr. pose proof (reads_offsets _ Hoff) as Hro. rewrite blen_cumulative in Hro.
  apply (reads_bind_nil _ _ _ _ _ _ _ _ (reads_get_rows _)). intros ? <-.
  destruct (Z.eqb_spec (blen data) 0) as [E|Hne].
  - apply blen_zero in E as ->. cbn in *. apply (col_reads_map _ _ _ _ _ _ _ _ Hr). intros c Hc.
    apply col_reads_ret. exact (array_holds [] c Hc).
  - apply (col_reads_bind _ _ _ _ _ _ _ _ _ Hro). intros ? <-.
    eapply (col_reads_map _ _ _ _ _ _ (fun c => column_holds c (concat data))).
    + apply reads_with_rows. unfold last_offset. rewrite last_cumulative by (intros ->; easy). exact Hr.
    + intros c Hc. apply col_reads_ret. now apply array_holds.
Qed.
End ArrayReads.

Section ArrayLaws.
Context {T : Type} `{RowWise T}.

Definition vec_valid (l : list T) : Prop := Forall valid l.

Lemma vec_valid_concat data : Forall vec_valid data -> Forall valid (concat data).
Proof. induction 1 as [|l data Hl _ IH]; [constructor|]. cbn. now apply Forall_app. Qed.

(** The offsets of [data] are 64-bit numbers when its elements fit in memory. *)
Lemma offsets_fit (data : list (list T)) bs :
  Forall vec_valid data -> write_each (concat data) = Ok bs ->
  blen (write_offsets (map blen data) ++ bs) <= ISIZE_MAX ->
  Forall (fun o => 0 <= o <= U64_MAX) (cumulative 0 (map blen data)).
Proof.
  intros Hv Hw Hlen. pose proof (row_wise_count _ _ (vec_valid_concat _ Hv) Hw) as Hc.
  rewrite blen_app in Hlen. pose proof (blen_nonneg (write_offsets (map blen data))).
  eapply Forall_impl; [|apply cumulative_range]. cbn. intros o Ho. unfold ISIZE_MAX, U64_MAX in *. lia.
Qed.

#[export] Instance array_column_laws : ColumnLaws (list T).
Proof.
  refine {| valid := vec_valid |}. intros data Hv.
  destruct (column_written_each (concat data) (vec_valid_concat data Hv)) as (bs & Hw & Hr).
  exists (write_offsets (map blen data) ++ bs). split.
  { cbn [write_column array_column]. unfold array_write_column. now rewrite Hw. }
  apply reads_fits. intros Hfit. apply reads_array; [|exact Hr]. exact (offsets_fit data bs Hv Hw Hfit).
Defined.
End ArrayLaws.

(** ** Map *)

(** [Eq] of the keys is equality. *)
Class KeyEqLaws (K : Type) `{KeyEq K} : Prop := key_eqb_eq : forall a b, key_eqb a b = true <-> a = b.

Section MapLaws.
Context {K V : Type} `{RowWise K} `{RowWise V} `{KeyEqLaws K}.

Definition map_valid (m : hash_map K V) : Prop :=
  Forall valid (map fst (entries m)) /\ Forall valid (map snd (entries m)) /\ NoDup (map fst (entries m)).

Lemma insert_new (k : K) (v : V) l : ~ In k (map fst l) -> insert_entry k v l = l ++ [(k, v)].
Proof.
  induction l as [|[k' v'] l IH]; intros Hn; cbn; [reflexivity|].
  destruct (key_eqb k k') eqn:E; [apply key_eqb_eq in E as ->; cbn in Hn; tauto|].
  rewrite IH; [reflexivity|]. cbn in Hn. tauto.
Qed.

(** Inserting the entries of a map one after the other rebuilds it. *)
Lemma insert_range_holds c (before l after : list (K * V)) acc :
  column_holds (map_keys c) (map fst (before ++ l ++ after)) ->
  column_holds (map_values c) (map snd (before ++ l ++ after)) ->
  NoDup (map fst (acc ++ l)) ->
  insert_range c (length l) (blen before) acc = Ok (acc ++ l).
Proof.
  revert before acc; induction l as [|[k v] l IH]; intros before acc Hk Hv Hd.
  { cbn. now rewrite app_nil_r. }
  cbn [length insert_range].
  assert (nth_error (before ++ ((k, v) :: l) ++ after) (Z.to_nat (blen before)) = Some (k, v)) as Hn.
  { unfold blen. rewrite Nat2Z.id, nth_error_app2, Nat.sub_diag by lia. reflexivity. }
  pose proof (proj2 Hk (blen before) (blen_nonneg _)) as Hk1. rewrite nth_error_map, Hn in Hk1. cbn [option_map fst] in Hk1.
  pose proof (proj2 Hv (blen before) (blen_nonneg _)) as Hv1. rewrite nth_error_map, Hn in Hv1. cbn [option_map snd] in Hv1.
  rewrite Hk1. cbn [bind result_monad]. rewrite Hv1.
  rewrite map_app in Hd. cbn [map fst] in Hd. rewrite insert_new by (apply NoDup_remove_2 in Hd; rewrite in_app_iff in Hd; tauto).
  specialize (IH (before ++ [(k, v)]) (acc ++ [(k, v)])).
  rewrite blen_app, <- !app_assoc in IH. cbn [app] in IH, Hk, Hv. change (blen [(k, v)]) with 1 in IH.
  rewrite IH; [reflexivity|assumption..|]. rewrite !map_app. cbn [map fst]. exact Hd.
Qed.

Lemma map_holds (data : list (hash_map K V)) (ck : ColumnData K) (cv : ColumnData V) :
  Forall map_valid data ->
  column_holds ck (map fst (concat (map entries data))) -> column_holds cv (map snd (concat (map entries data))) ->
  column_holds (T := hash_map K V) (mkMap (cumulative 0 (map blen (map entries data))) ck cv) data.
Proof.
  intros Hd Hk Hv. split; [cbn; now rewrite blen_cumulative, blen_map|]. intros i Hi.
  cbn [column_get map_column]. unfold map_get. cbn [map_offsets].
  pose proof (element_range_written "MapColumnData: index out of bounds" (map entries data) i Hi) as Hr.
  rewrite nth_error_map in Hr. destruct (nth_error data (Z.to_nat i)) as [[l]|] eqn:El; cbn [option_map entries] in Hr.
  - rewrite Hr. cbn [bind result_monad]. rewrite capacity_ok by apply blen_nonneg. cbn [bind result_monad].
    assert (nth_error (map entries data) (Z.to_nat i) = Some l) as El' by (rewrite nth_error_map, El; reflexivity).
    rewrite (concat_split _ _ l El') in Hk, Hv. rewrite to_nat_blen.
    rewrite Forall_forall in Hd. destruct (Hd _ (nth_error_In _ _ El)) as (_ & _ & Hnd).
    rewrite (insert_range_holds (mkMap _ ck cv) _ l _ [] Hk Hv Hnd). reflexivity.
  - destruct Hr as [m ->]. cbn. eauto.
Qed.

Lemma map_valid_parts (data : list (hash_map K V)) :
  Forall map_valid data ->
  Forall valid (map fst (concat (map entries data))) /\ Forall valid (map snd (concat (map entries data))).
Proof.
  induction 1 as [|m data (Hk & Hv & _) _ [IHk IHv]]; [split; constructor|]. cbn [map concat]. rewrite !map_app.
  split; now apply Forall_app.
Qed.

#[export] Instance map_column_laws : ColumnLaws (hash_map K V).
Proof.
  refine {| valid := map_valid |}. intros data Hv. destruct (map_valid_parts data Hv) as [Hvk Hvv].
  destruct (column_written_each _ Hvk) as (ks & Hwk & Hrk). destruct (column_written_each _ Hvv) as (vs & Hwv & Hrv).
  set (all := concat (map entries data)) in *.
  exists (write_offsets (map blen (map entries data)) ++ ks ++ vs). split.
  { cbn [write_column map_column]. unfold map_write_column. fold all. rewrite Hwk. cbn [bind result_monad].
    rewrite Hwv, map_map. reflexivity. }
  assert (blen (map fst all) = blen all /\ blen (map snd all) = blen all) as [Hlk Hlv] by (now rewrite !blen_map).
  rewrite Hlk in Hrk. rewrite Hlv in Hrv. apply reads_fits. intros Hfit.
  assert (Forall (fun o => 0 <= o <= U64_MAX) (cumulative 0 (map blen (map entries data)))) as Hoff.
  { pose proof (row_wise_count _ _ Hvk Hwk) as Hc. rewrite Hlk in Hc. rewrite !blen_app in Hfit.
    pose proof (blen_nonneg vs). pose proof (blen_nonneg (write_offsets (map blen (map entries data)))).
    eapply Forall_impl; [|apply cumulative_range]. fold all. cbn. intros o Ho. unfold ISIZE_MAX, U64_MAX in *. lia. }
  pose proof (reads_offsets _ Hoff) as Hro. rewrite blen_cumulative, blen_map in Hro.
  apply (reads_bind_nil _ _ _ _ _ _ _ _ (reads_get_rows _)). intros ? <-.
  destruct (Z.eqb_spec (blen data) 0) as [E|Hne].
  - apply blen_zero in E as ->. cbn in all. subst all. cbn in *.
    apply (col_reads_bind _ _ _ _ _ _ _ _ _ Hrk). intros ck Hck. apply (col_reads_map _ _ _ _ _ _ _ _ Hrv). intros cv Hcv.
    apply col_reads_ret. exact (map_holds [] ck cv Hv Hck Hcv).
  - apply (col_reads_bind _ _ _ _ _ _ _ _ _ Hro). intros ? <-.
    eapply (col_reads_map _ _ _ _ _ _ (fun kv => column_holds (fst kv) (map fst all) /\ column_holds (snd kv) (map snd all))).
    + apply reads_with_rows. unfold last_offset. rewrite last_cumulative by (now destruct data).
      apply (col_reads_bind _ _ _ _ _ _ _ _ _ Hrk). intros ck Hck. apply (col_reads_map _ _ _ _ _ _ _ _ Hrv). intros cv Hcv.
      now apply col_reads_ret.
    + intros [ck cv] [Hck Hcv]. apply col_reads_ret. now apply map_holds.
Defined.
End MapLaws.

(** ** Tuples *)

Section Tuple2Laws.
Context {T1 T2 : Type} `{RowWise T1} `{RowWise T2}.

Definition tuple2_valid (t : tuple2 T1 T2) : Prop := valid (t2_1 t) /\ valid (t2_2 t).

Lemma tuple2_holds (vs : list (tuple2 T1 T2)) (c1 : ColumnData T1) (c2 : ColumnData T2) :
  column_holds c1 (map t2_1 vs) ->
  column_holds c2 (map t2_2 vs) ->
  column_holds (T := tuple2 T1 T2) (mkTuple2 c1 c2 (blen vs)) vs.
Proof.
  intros [_ H1'] [_ H2']. split; [reflexivity|]. intros i Hi.
  specialize (H1' i Hi). rewrite nth_error_map in H1'.
  specialize (H2' i Hi). rewrite nth_error_map in H2'.
  cbn [column_get tuple2_column]. unfold tuple2_get. destruct (nth_error vs (Z.to_nat i)) as [[]|]; cbn in *.
  - now rewrite H1', H2'.
  - destruct H1' as [m ->]. eauto.
Qed.

#[export] Instance tuple2_column_laws : ColumnLaws (tuple2 T1 T2).
Proof.
  refine {| valid := tuple2_valid |}. intros vs Hv.
  destruct (column_written_each (map t2_1 vs)) as (bs1 & Hw1 & Hr1);
    [apply Forall_map; eapply Forall_impl; [|exact Hv]; intros t Ht; apply Ht|].
  destruct (column_written_each (map t2_2 vs)) as (bs2 & Hw2 & Hr2);
    [apply Forall_map; eapply Forall_impl; [|exact Hv]; intros t Ht; apply Ht|].
  rewrite blen_map in Hr1. rewrite blen_map in Hr2.
  exists (bs1 ++ bs2). split.
  { cbn [write_column tuple2_column]. unfold tuple2_write_column. now rewrite Hw1, Hw2. }
  apply (reads_bind_nil _ _ _ _ _ _ _ _ (reads_get_rows _)). intros ? <-.
  apply (col_reads_bind _ _ _ _ _ _ _ _ _ Hr1). intros c1 Hc1.
  apply (col_reads_map _ _ _ _ _ _ _ _ Hr2). intros c2 Hc2. apply col_reads_ret. now apply tuple2_holds.
Defined.
End Tuple2Laws.

Section Tuple3Laws.
Context {T1 T2 T3 : Type} `{RowWise T1} `{RowWise T2} `{RowWise T3}.

Definition tuple3_valid (t : tuple3 T1 T2 T3) : Prop := valid (t3_1 t) /\ valid (t3_2 t) /\ valid (t3_3 t).

Lemma tuple3_holds (vs : list (tuple3 T1 T2 T3)) (c1 : ColumnData T1) (c2 : ColumnData T2) (c3 : ColumnData T3) :
  column_holds c1 (map t3_1 vs) ->
  column_holds c2 (map t3_2 vs) ->
  column_holds c3 (map t3_3 vs) ->
  column_holds (T := tuple3 T1 T2 T3) (mkTuple3 c1 c2 c3 (blen vs)) vs.
Proof.
  intros [_ H1'] [_ H2'] [_ H3']. split; [reflexivity|]. intros i Hi.
  specialize (H1' i Hi). rewrite nth_error_map in H1'.
  specialize (H2' i Hi). rewrite nth_error_map in H2'.
  specialize (H3' i Hi). rewrite nth_error_map in H3'.
  cbn [column_get tuple3_column]. unfold tuple3_get. destruct (nth_error vs (Z.to_nat i)) as [[]|]; cbn in *.
  - now rewrite H1', H2', H3'.
  - destruct H1' as [m ->]. eauto.
Qed.

#[export] Instance tuple3_column_laws : ColumnLaws (tuple3 T1 T2 T3).
Proof.
  refine {| valid := tuple3_valid |}. intros vs Hv.
  destruct (column_written_each (map t3_1 vs)) as (bs1 & Hw1 & Hr1);
    [apply Forall_map; eapply Forall_impl; [|exact Hv]; intros t Ht; apply Ht|].
  destruct (column_written_each (map t3_2 vs)) as (bs2 & Hw2 & Hr2);
    [apply Forall_map; eapply Forall_impl; [|exact Hv]; intros t Ht; apply Ht|].
  destruct (column_written_each (map t3_3 vs)) as (bs3 & Hw3 & Hr3);
    [apply Forall_map; eapply Forall_impl; [|exact Hv]; intros t Ht; apply Ht|].
  rewrite blen_map in Hr1. rewrite blen_map in Hr2. rewrite blen_map in Hr3.
  exists (bs1 ++ bs2 ++ bs3). split.
  { cbn [write_column tuple3_column]. unfold tuple3_write_column. now rewrite Hw1, Hw2, Hw3. }
  apply (reads_bind_nil _ _ _ _ _ _ _ _ (reads_get_rows _)). intros ? <-.
  apply (col_reads_bind _ _ _ _ _ _ _ _ _ Hr1). intros c1 Hc1.
  apply (col_reads_bind _ _ _ _ _ _ _ _ _ Hr2). intros c2 Hc2.
  apply (col_reads_map _ _ _ _ _ _ _ _ Hr3). intros c3 Hc3. apply col_reads_ret. now apply tuple3_holds.
Defined.
End Tuple3Laws.

Section Tuple4Laws.
Context {T1 T2 T3 T4 : Type} `{RowWise T1} `{RowWise T2} `{RowWise T3} `{RowWise T4}.

Definition tuple4_valid (t : tuple4 T1 T2 T3 T4) : Prop := valid (t4_1 t) /\ valid (t4_2 t) /\ valid (t4_3 t) /\ valid (t4_4 t).

Lemma tuple4_holds (vs : list (tuple4 T1 T2 T3 T4)) (c1 : ColumnData T1) (c2 : ColumnData T2) (c3 : ColumnData T3) (c4 : ColumnData T4) :
  column_holds c1 (map t4_1 vs) ->
  column_holds c2 (map t4_2 vs) ->
  column_holds c3 (map t4_3 vs) ->
  column_holds c4 (map t4_4 vs) ->
  column_holds (T := tuple4 T1 T2 T3 T4) (mkTuple4 c1 c2 c3 c4 (blen vs)) vs.
Proof.
  intros [_ H1'] [_ H2'] [_ H3'] [_ H4']. split; [reflexivity|]. intros i Hi.
  specialize (H1' i Hi). rewrite nth_error_map in H1'.
  specialize (H2' i Hi). rewrite nth_error_map in H2'.
  specialize (H3' i Hi). rewrite nth_error_map in H3'.
  specialize (H4' i Hi). rewrite nth_error_map in H4'.
  cbn [column_get tuple4_column]. unfold tuple4_get. destruct (nth_error vs (Z.to_nat i)) as [[]|]; cbn in *.
  - now rewrite H1', H2', H3', H4'.
  - destruct H1' as [m ->]. eauto.
Qed.

#[export] Instance tuple4_column_laws : ColumnLaws (tuple4 T1 T2 T3 T4).
Proof.
  refine {| valid := tuple4_valid |}. intros vs Hv.
  destruct (column_written_each (map t4_1 vs)) as (bs1 & Hw1 & Hr1);
    [apply Forall_map; eapply Forall_impl; [|exact Hv]; intros t Ht; apply Ht|].
  destruct (column_written_each (map t4_2 vs)) as (bs2 & Hw2 & Hr2);
    [apply Forall_map; eapply Forall_impl; [|exact Hv]; intros t Ht; apply Ht|].
  destruct (column_written_each (map t4_3 vs)) as (bs3 & Hw3 & Hr3);
    [apply Forall_map; eapply Forall_impl; [|exact Hv]; intros t Ht; apply Ht|].
  destruct (column_written_each (map t4_4 vs)) as (bs4 & Hw4 & Hr4);
    [apply Forall_map; eapply Forall_impl; [|exact Hv]; intros t Ht; apply Ht|].
  rewrite blen_map in Hr1. rewrite blen_map in Hr2. rewrite blen_map in Hr3. rewrite blen_map in Hr4.
  exists (bs1 ++ bs2 ++ bs3 ++ bs4). split.
  { cbn [write_column tuple4_column]. unfold tuple4_write_column. now rewrite Hw1, Hw2, Hw3, Hw4. }
  apply (reads_bind_nil _ _ _ _ _ _ _ _ (reads_get_rows _)). intros ? <-.
  apply (col_reads_bind _ _ _ _ _ _ _ _ _ Hr1). intros c1 Hc1.
  apply (col_reads_bind _ _ _ _ _ _ _ _ _ Hr2). intros c2 Hc2.
  apply (col_reads_bind _ _ _ _ _ _ _ _ _ Hr3). intros c3 Hc3.
  apply (col_reads_map _ _ _ _ _ _ _ _ Hr4). intros c4 Hc4. apply col_reads_ret. now apply tuple4_holds.
Defined.
End Tuple4Laws.

(** ** Points *)

Definition point_valid (p : point) : Prop := num_ok F64 (point_x p) /\ num_ok F64 (point_y p).

Lemma num_parts {A} k (f : A -> num k) (vs : list A) :
  Forall (fun v => num_ok k (f v)) vs ->
  Forall2 (fun v p => blen p = size_of (num k) /\ of_memory p = v) (map f vs) (map (fun v => num_to_le k (f v)) vs).
Proof.
  induction 1 as [|v vs Hv _ IH]; constructor; [|assumption].
  split; [apply blen_num_to_le|]. cbn. now apply num_from_to_le.
Qed.

Lemma point_holds (vs : list point) (d : PlainColumnData (num F64)) :
  column_holds (T := num F64) d (map point_x vs ++ map point_y vs) -> column_holds (T := point) (mkPoints d (blen vs)) vs.
Proof.
  intros [_ Hd]. split; [reflexivity|]. intros i Hi. cbn [column_get point_column]. unfold get_point. cbn [points_data points_count].
  pose proof (Hd i Hi) as Hx. pose proof (Hd (blen vs + i) ltac:(pose proof (blen_nonneg vs); lia)) as Hy.
  cbn [column_get plain_column] in Hx, Hy. rewrite nth_error_app2 in Hy by (rewrite length_map; unfold blen; lia).
  replace (Z.to_nat (blen vs + i) - length (map point_x vs))%nat with (Z.to_nat i) in Hy
    by (rewrite length_map; unfold blen; lia).
  rewrite nth_error_map in Hy. destruct (nth_error vs (Z.to_nat i)) as [[x y]|] eqn:Ev.
  - rewrite nth_error_app1, nth_error_map, Ev in Hx by (rewrite length_map; now apply nth_error_lt in Ev).
    cbn in Hx, Hy. rewrite Hx. cbn [bind result_monad]. rewrite Hy. reflexivity.
  - cbn in Hy. destruct Hy as [m Hy]. destruct (nth_error _ (Z.to_nat i)) in Hx.
    + rewrite Hx. cbn [bind result_monad]. rewrite Hy. eauto.
    + destruct Hx as [m' Hx]. rewrite Hx. cbn. eauto.
Qed.

#[export] Instance point_column_laws : ColumnLaws point.
Proof.
  refine {| valid := point_valid |}. intros vs Hv. eexists. split; [reflexivity|]. rewrite <- concat_app.
  set (parts := map _ vs ++ map _ vs).
  assert (Forall2 (fun v p => blen p = size_of (num F64) /\ of_memory p = v) (map point_x vs ++ map point_y vs) parts) as Hp
    by (apply Forall2_app; apply num_parts; eapply Forall_impl; try exact Hv; intros p Hp; apply Hp).
  pose proof (parts_length _ _ _ _ Hp) as Hlen. rewrite blen_app, !blen_map in Hlen. cbn [size_of num_plain prim_size] in Hlen.
  apply reads_fits. intros Hfit. pose proof (blen_nonneg vs).
  apply (reads_bind_nil _ _ _ _ _ _ _ _ (reads_get_rows _)). intros ? <-.
  apply (reads_bind_nil _ _ _ (blen vs) _ _ (eq (blen vs * 2)));
    [apply col_reads_lift; now rewrite checked_mul_ok by lia|]. intros ? <-.
  apply (reads_bind_nil _ _ _ (blen vs) _ _ (eq (blen (concat parts))));
    [apply col_reads_lift; rewrite checked_mul_ok by lia; cbn; f_equal; lia|]. intros ? <-.
  apply (col_reads_map _ _ _ _ _ _ _ _ (col_reads_exact _ _)). intros ? <-.
  apply (reads_bind_nil _ _ _ (blen vs) _ _ (eq (mkPlain (concat parts) (blen vs * 2)))).
  - apply col_reads_lift. unfold read_from_bytes. cbn [size_of num_plain prim_size]. rewrite checked_mul_ok by lia.
    cbn -[blen Z.mul]. destruct (Z.ltb_spec (blen (concat parts)) (blen vs * 2 * 8)); [lia|reflexivity].
  - intros ? <-. apply col_reads_ret. apply point_holds. pose proof (plain_holds _ _ Hp Hfit) as Hh.
    rewrite blen_app, !blen_map in Hh. now replace (blen vs * 2) with (blen vs + blen vs) by lia.
Defined.

(** * Round trips *)

(** What [write_column] writes for [vs], [read_column] reads back wherever it stands
    in a buffer. *)
Definition roundtrips {T} `{ClickHouseColumn T} (vs : list T) : Prop :=
  exists bs, write_column vs = Ok bs /\
             reads (read_column T) (blen vs) (blen vs) bs (fun c => column_holds c vs).

(** C12: typed columns survive the wire.  For element types that are written value by value
    (numbers, dates, UUIDs, addresses, decimals, booleans, strings), a column of them, and
    one level of [Option], [Vec], [HashMap] and of the tuples (K, V), (K, V, V) and (K, V, K,
    V) over them, is read back from what [write_column] wrote, wherever it stands in the
    buffer and consuming exactly those bytes: the column has the rows that were written,
    [get] returns each of them, and an index beyond them is a protocol error. *)
Theorem typed_columns_roundtrip {K V : Type} `{RowWise K} `{RowWise V} `{Default V} `{!DefaultValid V} `{KeyEqLaws K} :
  (forall vs : list V, Forall valid vs -> roundtrips vs) /\
  (forall vs : list (option V), Forall option_valid vs -> roundtrips vs) /\
  (forall vs : list (list V), Forall vec_valid vs -> roundtrips vs) /\
  (forall vs : list (hash_map K V), Forall map_valid vs -> roundtrips vs) /\
  (forall vs : list (tuple2 K V), Forall tuple2_valid vs -> roundtrips vs) /\
  (forall vs : list (tuple3 K V V), Forall tuple3_valid vs -> roundtrips vs) /\
  (forall vs : list (tuple4 K V K V), Forall tuple4_valid vs -> roundtrips vs).
Proof. conj; intros vs Hv; now apply column_written. Qed.

#[export] Instance text_eq : KeyEq text := fun a b => bytes_eqb (text_bytes a) (text_bytes b).
#[export] Instance text_eq_laws : KeyEqLaws text.
Proof. intros [a] [b]. unfold key_eqb, text_eq. cbn. rewrite bytes_eqb_eq. split; [now intros ->|congruence]. Qed.

Lemma typed_columns_roundtrip_witness :
  roundtrips [HashMap [(Text (str "x"), Num (k := U64) 42); (Text (str "y"), Num 99)]; HashMap []] /\
  roundtrips [[Num (k := U64) 1; Num 2]; []; [Num 3]] /\
  roundtrips [Some (Num (k := U64) 7); None].
Proof.
  destruct (typed_columns_roundtrip (K := text) (V := num U64)) as (_ & Ho & Hl & Hm & _).
  conj.
  - apply Hm. repeat constructor; cbn; (lia || intuition discriminate).
  - apply Hl. repeat constructor; cbn; lia.
  - apply Ho. repeat constructor; cbn; lia.
Defined.

(** ** Elements that are not written value by value

    [write_column] of a compound column calls [write_to] on its elements.  That is the
    row format; where it differs from the native column format, what is written is not
    what a reader expects. *)

Lemma write_each_tuples {A B} (vs : list (tuple2 A B)) : write_each (H := tuple2_value) vs = Ok [].
Proof.
  induction vs as [|v vs IH]; [reflexivity|]. now apply (write_each_cons v vs [] []).
Qed.

(** An [Array(Point)] of one row, in the native layout of the points [vs]. *)
Lemma written_points (vs : list point) :
  Forall point_valid vs -> blen vs <= U64_MAX ->
  exists bs, write_column vs = Ok bs /\
  reads (read_column (list point)) 1 1 (to_le 8 (blen vs) ++ bs) (fun c => column_get c 0 = Ok vs).
Proof.
  intros Hv Hlen. assert (Forall (valid (T := point)) vs) as Hv' by exact Hv.
  destruct (column_written vs Hv') as (bs & Hw & Hr). exists bs. split; [exact Hw|].
  pose proof (reads_array [vs] bs) as Ha. cbn [concat map cumulative] in Ha. rewrite app_nil_r in Ha.
  intros pre rest Hfit. destruct (Ha ltac:(pose proof (blen_nonneg vs); repeat constructor; lia) Hr pre rest Hfit) as (c & Hc & [_ Hg]).
  exists c. split; [exact Hc|]. exact (Hg 0 ltac:(lia)).
Qed.

(** Compound columns of elements that are not row-wise lose data silently.  An
    [Array] of tuples and a tuple of five components are written without their values,
    and the two points of an [Array(Point)] come back with their coordinates
    transposed; all without an error. *)
Theorem nested_writes_lose_data :
  (forall data : list (list (tuple2 (num U64) text)),
     write_column data = Ok (write_offsets (map blen data))) /\
  (forall data : list (tuple5 (num U64) (num U64) (num U64) (num U64) (num U64)), write_column data = Ok []) /\
  (forall p q, point_valid p -> point_valid q ->
     exists bs, write_column [[p; q]] = Ok bs /\
     reads (read_column (list point)) 1 1 bs
       (fun c => column_get c 0 = Ok [mkPoint (point_x p) (point_x q); mkPoint (point_y p) (point_y q)])).
Proof.
  conj.
  - intros data. cbn [write_column array_column]. unfold array_write_column.
    rewrite write_each_tuples. cbn. now rewrite app_nil_r.
  - reflexivity.
  - intros p q [Hpx Hpy] [Hqx Hqy].
    destruct (written_points [mkPoint (point_x p) (point_x q); mkPoint (point_y p) (point_y q)])
      as (bs & Hw & Hr); [repeat (apply Forall_cons; [now split|]); apply Forall_nil|discriminate|].
    eexists. split; [reflexivity|]. cbn [write_column point_column] in Hw. unfold point_write_column in Hw.
    cbn [map point_x point_y concat] in Hw. inj. rewrite !app_nil_r, <- !app_assoc in *. exact Hr.
Qed.

(** Row [i] of a written column read back. *)
Definition read_back {T} `{ClickHouseColumn T} (vs : list T) (i : Z) : result error T :=
  let* bs := write_column vs in
  let* (c, _) := read_column T (new_context (blen vs) bs) in
  column_get c i.

(** An [Array] of [Option]s interleaves flags and values, where the reader expects the
    flags first: the second element comes back as NULL. *)
Lemma array_of_options_misread :
  read_back [[Some (Num (k := U64) 1); Some (Num 2)]] 0 = Ok [Some (Num 0); None].
Proof. vm_compute. reflexivity. Qed.

(** [FixedStringBytes::read_column] divides the length of the whole buffer, not of
    what remains of it: behind another column it asks for more than there is. *)
Lemma fixed_string_behind_column_refused :
  read_back [Tup2 (Num (k := U8) 1) (FixedStringBytes (str "abc")); Tup2 (Num 2) (FixedStringBytes (str "def"))] 0 =
  Err (Protocol (Msg "ReadColumnContext: requested {n} bytes at offset {start}, buffer len {}" [AZ 8; AZ 2; AZ 8])).
Proof. vm_compute. reflexivity. Qed.

(** A string whose length passes the end of the buffer is a panic, not an error, when
    another row follows. *)
Lemma string_column_panics : read_column text (new_context 2 [x05; x61]) = Err ModelPanic.
Proof. vm_compute. reflexivity. Qed.

(** Offsets are not checked to increase: a row whose end lies before its start
    underflows a subtraction. *)
Lemma array_get_panics :
  (let* (c, _) := read_column (list (num U8)) (new_context 2 (to_le 8 2 ++ to_le 8 1 ++ [x07])) in
   column_get c 1) = Err ModelPanic.
Proof. vm_compute. reflexivity. Qed.

(** An index beyond the rows of a geo column is a panic. *)
Lemma ring_get_panics :
  (let* (c, _) := read_column ring (new_context 0 []) in column_get c 0) = Err ModelPanic.
Proof. vm_compute. reflexivity. Qed.
