(* ===== verification/DynamicVariant.v ===== *)
(** * Dynamic and Variant columns, decoded row by row

    src/shared/dynamic_variant.rs: [decode_column_values] decodes a column of any type
    into [DynamicFieldValue]s; [VariantColumnData::read_native] and
    [DynamicColumnData::read_native] decode the columns whose rows have types of their
    own.  The functions over [(data, pos)] are [parser]s.

    The theorems relate this decoder to the two others: on a column that the framing
    accepts ([skip_column_data]) it ends where the framing ends and yields one value
    per row, and its numbers are those of the typed columns. *)

From Stdlib Require Import String ZArith Lia Bool List Sorted.
From Stdlib Require Import Strings.Byte.
From coqutil Require Import Byte.
From S2P Require Import Prelude Reader Limits Utf8 Wire TypeParser SkipColumn Arena ColumnReader Framing Columns.
Import ListNotations.

#[local] Set Warnings "-register-all".

Inductive DynamicFieldValue : Type :=
| VNull
| VBool (b : bool)
| VUInt8 (v : num U8) | VUInt16 (v : num U16) | VUInt32 (v : num U32) | VUInt64 (v : num U64)
| VUInt128 (v : num U128) | VUInt256 (v : uint256)
| VInt8 (v : num I8) | VInt16 (v : num I16) | VInt32 (v : num I32) | VInt64 (v : num I64)
| VInt128 (v : num I128) | VInt256 (v : int256)
| VFloat32 (v : num F32) | VFloat64 (v : num F64)
| VDate (v : date) | VDate32 (v : num I32) | VDateTime (v : datetime)
| VDateTime64 (value : datetime64) (scale : Z)
| VTime (v : num I32)
| VTime64 (value : num I64) (scale : Z)
| VDecimal32 (value : decimal32) (scale : Z)
| VDecimal64 (value : decimal64) (scale : Z)
| VDecimal128 (value : decimal128) (scale : Z)
| VDecimal256 (value : decimal256) (scale : Z)
| VUuid (v : uuid) | VIpv4 (v : ipv4) | VIpv6 (v : ipv6)
| VEnum8 (v : num I8) | VEnum16 (v : num I16)
| VString (s : bytes)
| VFixedString (b : bytes)
| VJson (s : bytes)
| VArray (l : list DynamicFieldValue)
| VMap (l : list (DynamicFieldValue * DynamicFieldValue))
| VTuple (l : list DynamicFieldValue)
| VRaw (type_name bytes : bytes).

Definition as_u64 (v : DynamicFieldValue) : option Z :=
  match v with
  | VUInt8 v => Some (num_val v)
  | VUInt16 v => Some (num_val v)
  | VUInt32 v => Some (num_val v)
  | VUInt64 v => Some (num_val v)
  | VDate v => Some (num_val (date_days v))
  | VDateTime v => Some (num_val (datetime_secs v))
  | _ => None
  end.

Definition as_i64 (v : DynamicFieldValue) : option Z :=
  match v with
  | VInt8 v => Some (num_val v)
  | VInt16 v => Some (num_val v)
  | VInt32 v => Some (num_val v)
  | VInt64 v => Some (num_val v)
  | VDate32 v | VTime v => Some (num_val v)
  | VDateTime64 value _ => Some (num_val (datetime64_val value))
  | VTime64 value _ => Some (num_val value)
  | _ => None
  end.

Definition as_str (v : DynamicFieldValue) : option bytes :=
  match v with VString v | VJson v => Some v | _ => None end.

Record DynamicTypedValue := mkTyped { type_index : Z; typed_name : bytes; typed : DynamicFieldValue }.

(** ** Primitives over [(data, pos)] *)

Fixpoint parse_varint_checked_loop (fuel : nat) (result shift : Z) : parser Z :=
  match fuel with
  | O => throw (Protocol (msg "varint too long"))
  | S fuel => fun data pos =>
      if blen data <=? pos then Err (Protocol (msg "unexpected eof reading varint"))
      else
        let b := byte0 (drop pos data) in
        let pos := pos + 1 in
        if (shift =? 63) && (1 <? Z.land b 0x7f) then Err varint_overflow
        else
          let result := Z.lor result (u64_shl (Z.land b 0x7f) shift) in
          if Z.land b 0x80 =? 0 then Ok (result, pos)
          else parse_varint_checked_loop fuel result (shift + 7) data pos
  end.

Definition parse_varint_checked : parser Z := parse_varint_checked_loop 10 0 0.

Definition checked_usize_local (value : Z) (what : string) : result error Z :=
  ok_or (usize_try_from value) (Protocol (Msg "{what} too large" [AS (str what)])).

Definition parse_exact (len : Z) : parser bytes := fun data pos =>
  match checked_add pos len with
  | None => Err (Protocol (msg "buffer position overflow"))
  | Some end_ =>
      if blen data <? end_ then Err (Protocol (msg "unexpected eof reading column"))
      else Ok (slice data pos end_, end_)
  end.

(** The body of a string: bounds, UTF-8, advance. *)
Definition utf8_slice_checked (len : Z) : parser bytes := fun data pos =>
  match checked_add pos len with
  | None => Err (Protocol (msg "string length overflow"))
  | Some end_ =>
      if blen data <? end_ then Err (Protocol (msg "unexpected eof reading string"))
      else if utf8_valid (slice data pos end_) then Ok (slice data pos end_, end_)
      else Err (Protocol (msg "invalid utf8 string: {e}"))
  end.

Definition parse_string_checked : parser bytes :=
  let* v := parse_varint_checked in
  let* len := lift (checked_usize_local v "string length") in
  utf8_slice_checked len.

Definition parse_u64_le : parser Z :=
  let* bytes := parse_exact 8 in
  ret (from_le bytes).

(** [Vec::<String>::with_capacity(n)]: a [String] is three words, and a capacity beyond
    [isize::MAX] bytes panics. *)
Definition strings_with_capacity (n : Z) : result error unit :=
  if 24 * n <=? ISIZE_MAX then Ok tt else Err ModelPanic.

Definition parse_dynamic_type_header : parser (list ColumnType * list bytes) :=
  let* v := parse_varint_checked in
  let* type_count := lift (checked_usize_local v "dynamic types") in
  lift (strings_with_capacity type_count) ;;
  let* both := collect_n (Z.to_nat type_count)
    (let* type_name := parse_string_checked in
     let* t := lift (map_err Protocol (parse_type type_name)) in
     ret (t, type_name)) in
  ret (map fst both, map snd both).

Definition checked_len_local (rows width : Z) : result error Z :=
  ok_or (checked_mul rows width) (Protocol (msg "column length overflow")).

Definition parse_offsets (rows : Z) : parser (list Z) :=
  collect_n (Z.to_nat rows)
    (let* v := parse_u64_le in lift (checked_usize_local v "offset")).

(** ** State prefixes *)

(** The paths of a JSON state, then one Dynamic state for each. *)
Definition skip_json_paths_local (dynamic : parser unit) : parser unit :=
  let* v := parse_varint_checked in
  let* paths := lift (checked_usize_local v "JSON dynamic paths") in
  repeat_n (Z.to_nat paths) (parse_string_checked ;; ret tt) ;;
  repeat_n (Z.to_nat paths) dynamic.

(** [skip_state_prefix_for_type], with the arm of [Dynamic] as [dynamic]. *)
Fixpoint skip_prefix_with (dynamic : parser unit) (typ : ColumnType) : parser unit :=
  match typ with
  | Nullable inner | Array inner | LowCardinality inner => skip_prefix_with dynamic inner
  | TMap key value => skip_prefix_with dynamic key ;; skip_prefix_with dynamic value
  | Tuple types | Variant types => for_each types (skip_prefix_with dynamic)
  | Dynamic => dynamic
  | JSON =>
      let* version := parse_u64_le in
      if (version =? 1) || (version =? 4) then ret tt
      else if version =? 0 then parse_varint_checked ;; skip_json_paths_local dynamic
      else if version =? 3 then skip_json_paths_local dynamic
      else throw (Protocol (Msg "unknown nested JSON serialization version {other}" [AZ version]))
  | _ => ret tt
  end.

(** The arm of [Dynamic]: its types may contain Dynamic again, after at least the
    eight bytes of the version. *)
Fixpoint skip_dynamic_prefix_fuel (fuel : nat) : parser unit :=
  match fuel with
  | O => throw ModelFuel
  | S fuel =>
      let* version := parse_u64_le in
      if version =? 0 then ret tt
      else if version =? 1 then
        parse_varint_checked ;;
        let* (types, _) := parse_dynamic_type_header in
        parse_u64_le ;;
        for_each types (skip_prefix_with (skip_dynamic_prefix_fuel fuel))
      else if (version =? 2) || (version =? 3) then
        let* (types, _) := parse_dynamic_type_header in
        for_each types (skip_prefix_with (skip_dynamic_prefix_fuel fuel))
      else throw (Protocol (Msg "unknown nested Dynamic serialization version {other}" [AZ version]))
  end.

Definition skip_dynamic_prefix : parser unit := fun data pos =>
  skip_dynamic_prefix_fuel (S (Z.to_nat ((blen data - pos) / 8))) data pos.

Definition skip_state_prefix_for_type (typ : ColumnType) : parser unit := skip_prefix_with skip_dynamic_prefix typ.

Definition skip_state_prefixes_for_types (types : list ColumnType) : parser unit :=
  for_each types skip_state_prefix_for_type.

(** ** Columns of values *)

(** [decode_fixed] *)
Definition decode_fixed (rows width : Z) (f : bytes -> DynamicFieldValue) : parser (list DynamicFieldValue) :=
  let* len := lift (ok_or (checked_mul rows width) (Protocol (msg "fixed column length overflow"))) in
  let* bytes := parse_exact len in
  ret (map f (chunks_exact width bytes)).

(** [for &v in parse_exact(data, pos, rows)?] *)
Definition decode_bytes (rows : Z) (f : bytes -> DynamicFieldValue) : parser (list DynamicFieldValue) :=
  let* bytes := parse_exact rows in
  ret (map (fun b => f [b]) bytes).

(** The rows of an Array or Map between the elements that the offsets name:
    [values[prev..end]] with [end = offset.min(len)]. *)
Fixpoint split_rows {A} (values : list A) (prev : Z) (offsets : list Z) : result error (list (list A)) :=
  match offsets with
  | [] => Ok []
  | offset :: offsets =>
      let end_ := Z.min offset (blen values) in
      if end_ <? prev then Err ModelPanic
      else let* rest := split_rows values end_ offsets in Ok (slice values prev end_ :: rest)
  end.

(** [offsets.last().copied().unwrap_or(0)] *)
Definition last_or_zero (offsets : list Z) : Z := last offsets 0.

(** Row [row] of the element columns of a Tuple. *)
Definition tuple_row (columns : list (list DynamicFieldValue)) (row : nat) : DynamicFieldValue :=
  VTuple (flat_map (fun column => match nth_error column row with Some v => [v] | None => [] end) columns).

(** The rows of a Variant or Dynamic column: each one takes the next value of its
    type; a discriminator that is no type is NULL. *)
Fixpoint place_rows (what : string) (type_names : list bytes) (decoded : list (list DynamicFieldValue))
    (offsets : list Z) (discriminators : list Z) : result error (list (option DynamicTypedValue)) :=
  match discriminators with
  | [] => Ok []
  | type_index :: discriminators =>
      if blen decoded <=? type_index then
        let* rest := place_rows what type_names decoded offsets discriminators in
        Ok (None :: rest)
      else
        let value_index := nth (Z.to_nat type_index) offsets 0 in
        let* value := ok_or (nth_error (nth (Z.to_nat type_index) decoded []) (Z.to_nat value_index))
                            (Protocol (msg what)) in
        let* rest := place_rows what type_names decoded (incr_nth offsets (Z.to_nat type_index)) discriminators in
        Ok (Some (mkTyped type_index (nth (Z.to_nat type_index) type_names []) value) :: rest)
  end.

(** The columns of the types, with the number of rows of each. *)
Fixpoint decode_counted (decoders : list (Z -> parser (list DynamicFieldValue))) (counts : list Z)
  : parser (list (list DynamicFieldValue)) :=
  match decoders, counts with
  | decode :: decoders, count :: counts =>
      let* column := decode count in
      let* columns := decode_counted decoders counts in
      ret (column :: columns)
  | _, _ => ret []
  end.

(** [parse_variant_basic], with one decoder per alternative. *)
Definition variant_basic (decoders : list (Z -> parser (list DynamicFieldValue))) (type_names : list bytes)
    (rows : Z) : parser (list (option DynamicTypedValue)) :=
  let* discriminators := parse_exact rows in
  let* decoded := decode_counted decoders (variant_counts (length decoders) discriminators) in
  lift (place_rows "variant row index out of bounds" type_names decoded (repeat 0 (length decoders))
                   (map byte.unsigned discriminators)).

(** [parse_variant_compact] *)
Definition variant_compact (decoders : list (Z -> parser (list DynamicFieldValue))) (type_names : list bytes)
    (rows : Z) : parser (list (option DynamicTypedValue)) :=
  let* d := parse_u64_le in
  let* type_index := lift (checked_usize_local d "variant discriminator") in
  let* r := parse_u64_le in
  let* compact_rows := lift (checked_usize_local r "variant compact rows") in
  match nth_error decoders (Z.to_nat type_index) with
  | None => ret (repeat None (Z.to_nat rows))
  | Some decode =>
      let* decoded := decode compact_rows in
      ret (map (fun i => Some (mkTyped type_index (nth (Z.to_nat type_index) type_names []) (nth i decoded VNull)))
               (seq 0 (Z.to_nat rows)))
  end.

(** [parse_variant_values] *)
Definition variant_values (decoders : list (Z -> parser (list DynamicFieldValue))) (type_names : list bytes)
    (rows : Z) : parser (list (option DynamicTypedValue)) :=
  let* mode := parse_u64_le in
  if mode =? 0 then variant_basic decoders type_names rows
  else if mode =? 1 then variant_compact decoders type_names rows
  else throw (Protocol (Msg "unknown Variant serialization mode {other}" [AZ mode])).

(** [skip_typed_value_column] *)
Fixpoint skip_typed_value_column (typ : ColumnType) (rows : Z) : parser unit :=
  let fixed width := let* len := lift (checked_len_local rows width) in parse_exact len ;; ret tt in
  match typ with
  | UInt8 | Int8 | TBool | Enum8 => parse_exact rows ;; ret tt
  | UInt16 | Int16 | Date | Enum16 => fixed 2
  | UInt32 | Int32 | Float32 | Date32 | DateTime | IPv4 | Time => fixed 4
  | UInt64 | Int64 | Float64 | DateTime64 _ | Time64 _ => fixed 8
  | UInt128 | Int128 | UUID => fixed 16
  | UInt256 | Int256 => fixed 32
  | IPv6 => fixed 16
  | TString | JSON =>
      repeat_n (Z.to_nat rows)
        (let* v := parse_varint_checked in
         let* len := lift (checked_usize_local v "string length") in
         parse_exact len ;; ret tt)
  | FixedString n => fixed n
  | Nullable inner => parse_exact rows ;; skip_typed_value_column inner rows
  | Array inner =>
      let* offsets := parse_offsets rows in
      skip_typed_value_column inner (last_or_zero offsets)
  | TMap key value =>
      let* offsets := parse_offsets rows in
      let total := last_or_zero offsets in
      skip_typed_value_column key total ;; skip_typed_value_column value total
  | Tuple types => for_each types (fun inner => skip_typed_value_column inner rows)
  | LowCardinality inner => skip_typed_value_column inner rows
  | Nothing => ret tt
  | Decimal p s =>
      if (1 <=? p) && (p <=? 9) then fixed 4
      else if (10 <=? p) && (p <=? 18) then fixed 8
      else if (19 <=? p) && (p <=? 38) then fixed 16
      else if (39 <=? p) && (p <=? 76) then fixed 32
      else fun data pos => Ok (tt, blen data)
  | _ => fun data pos => Ok (tt, blen data)
  end.

(** The last arm of [decode_column_values]: every row gets the bytes of the column. *)
Definition decode_raw (typ : ColumnType) (rows : Z) : parser (list DynamicFieldValue) :=
  let* start := get_pos in
  skip_typed_value_column typ rows ;;
  let* end_ := get_pos in
  let* bytes := get_slice start end_ in
  ret (repeat (VRaw (to_string typ) bytes) (Z.to_nat rows)).

(** The capacity reserved for [rows] values is not modelled: the rows of a column that
    the framing delimits, and the elements of its arrays, are bounded by their bytes. *)
Fixpoint decode_column_values (typ : ColumnType) (rows : Z) : parser (list DynamicFieldValue) :=
  match typ with
  | TBool => decode_bytes rows (fun b => VBool (negb (byte0 b =? 0)))
  | UInt8 => decode_bytes rows (fun b => VUInt8 (num_from_le U8 b))
  | Int8 => decode_bytes rows (fun b => VInt8 (num_from_le I8 b))
  | UInt16 => decode_fixed rows 2 (fun b => VUInt16 (num_from_le U16 b))
  | Int16 => decode_fixed rows 2 (fun b => VInt16 (num_from_le I16 b))
  | UInt32 => decode_fixed rows 4 (fun b => VUInt32 (num_from_le U32 b))
  | Int32 => decode_fixed rows 4 (fun b => VInt32 (num_from_le I32 b))
  | Float32 => decode_fixed rows 4 (fun b => VFloat32 (num_from_le F32 b))
  | UInt64 => decode_fixed rows 8 (fun b => VUInt64 (num_from_le U64 b))
  | Int64 => decode_fixed rows 8 (fun b => VInt64 (num_from_le I64 b))
  | Float64 => decode_fixed rows 8 (fun b => VFloat64 (num_from_le F64 b))
  | UInt128 => decode_fixed rows 16 (fun b => VUInt128 (num_from_le U128 b))
  | Int128 => decode_fixed rows 16 (fun b => VInt128 (num_from_le I128 b))
  | UInt256 => decode_fixed rows 32 (fun b => VUInt256 (mkUInt256 b))
  | Int256 => decode_fixed rows 32 (fun b => VInt256 (mkInt256 b))
  | Date => decode_fixed rows 2 (fun b => VDate (mkDate (num_from_le U16 b)))
  | Date32 => decode_fixed rows 4 (fun b => VDate32 (num_from_le I32 b))
  | DateTime => decode_fixed rows 4 (fun b => VDateTime (mkDateTime (num_from_le U32 b)))
  | DateTime64 scale => decode_fixed rows 8 (fun b => VDateTime64 (DateTime64Value (num_from_le I64 b)) scale)
  | Time => decode_fixed rows 4 (fun b => VTime (num_from_le I32 b))
  | Time64 scale => decode_fixed rows 8 (fun b => VTime64 (num_from_le I64 b) scale)
  | Decimal p scale =>
      if (1 <=? p) && (p <=? 9) then
        decode_fixed rows 4 (fun b => VDecimal32 (Decimal32 (num_from_le I32 b)) scale)
      else if (10 <=? p) && (p <=? 18) then
        decode_fixed rows 8 (fun b => VDecimal64 (Decimal64 (num_from_le I64 b)) scale)
      else if (19 <=? p) && (p <=? 38) then
        decode_fixed rows 16 (fun b => VDecimal128 (Decimal128 (num_from_le I128 b)) scale)
      else if (39 <=? p) && (p <=? 76) then
        decode_fixed rows 32 (fun b => VDecimal256 (Decimal256 b) scale)
      else decode_raw typ rows
  | UUID => decode_fixed rows 16 (fun b => VUuid (Uuid (num_from_le U128 b)))
  | IPv4 => decode_fixed rows 4 (fun b => VIpv4 (Ipv4 (num_from_le U32 b)))
  | IPv6 => decode_fixed rows 16 (fun b => VIpv6 (Ipv6 (num_from_le U128 b)))
  | Enum8 => decode_bytes rows (fun b => VEnum8 (num_from_le I8 b))
  | Enum16 => decode_fixed rows 2 (fun b => VEnum16 (num_from_le I16 b))
  | TString => collect_n (Z.to_nat rows) (let* s := parse_string_checked in ret (VString s))
  | JSON => collect_n (Z.to_nat rows) (let* s := parse_string_checked in ret (VJson s))
  | Nothing => ret (repeat VNull (Z.to_nat rows))
  | FixedString n => collect_n (Z.to_nat rows) (let* b := parse_exact n in ret (VFixedString b))
  | Nullable inner =>
      let* nulls := parse_exact rows in
      let* inner_values := decode_column_values inner rows in
      ret (map (fun '(is_null, value) => if negb (byte.unsigned is_null =? 0) then VNull else value)
               (combine nulls inner_values))
  | Array inner =>
      let* offsets := parse_offsets rows in
      let* values := decode_column_values inner (last_or_zero offsets) in
      let* rows_out := lift (split_rows values 0 offsets) in
      ret (map VArray rows_out)
  | TMap key value =>
      let* offsets := parse_offsets rows in
      let total := last_or_zero offsets in
      let* keys := decode_column_values key total in
      let* values := decode_column_values value total in
      let* rows_out := lift (split_rows (combine keys values) 0 offsets) in
      ret (map VMap rows_out)
  | Tuple types =>
      let* columns := map_each types (fun inner => decode_column_values inner rows) in
      ret (map (tuple_row columns) (seq 0 (Z.to_nat rows)))
  | LowCardinality inner => decode_column_values inner rows
  | Variant types =>
      let* values := variant_values (map decode_column_values types) (map to_string types) rows in
      ret (map (fun value => match value with Some t => typed t | None => VNull end) values)
  | _ => decode_raw typ rows
  end.

(** ** The columns *)

Record VariantColumnData := mkVariantColumn {
  var_data : bytes;
  var_count : Z;
  var_num_variants : Z;
  var_typed_values : option (list (option DynamicTypedValue));
}.

Definition new_variant_column (data : bytes) (count num_variants : Z) : VariantColumnData :=
  mkVariantColumn data count num_variants None.

Definition variant_read_native (type_name : bytes) (rows : Z) (data : bytes) : result error VariantColumnData :=
  let* ct := map_err Protocol (parse_type type_name) in
  match ct with
  | Variant types =>
      let* (typed_values, _) := variant_values (map decode_column_values types) (map to_string types) rows data 0 in
      Ok (mkVariantColumn data rows (blen types) (Some typed_values))
  | other => Err (Protocol (Msg "expected Variant type, got {other}" [AS (to_string other)]))
  end.

(** [typed_value] of both columns. *)
Definition typed_value (values : option (list (option DynamicTypedValue))) (index : Z) : option DynamicTypedValue :=
  match values with
  | Some values => match nth_error values (Z.to_nat index) with Some v => v | None => None end
  | None => None
  end.

Definition discriminator (c : VariantColumnData) (index : Z) : Z :=
  match typed_value (var_typed_values c) index with
  | Some v => if type_index v <=? U8_MAX then type_index v else byte0 (drop index (var_data c))
  | None => byte0 (drop index (var_data c))
  end.

(** [&self.data[self.count..]] panics when the column is shorter. *)
Definition variant_raw_bytes (c : VariantColumnData) : result error bytes :=
  index_slice (var_data c) (var_count c) (blen (var_data c)).

Record DynamicColumnData := mkDynamicColumn {
  dyn_data : bytes;
  dyn_count : Z;
  dyn_typed_values : option (list (option DynamicTypedValue));
}.

Definition new_dynamic_column (data : bytes) (count : Z) : DynamicColumnData := mkDynamicColumn data count None.

(** [materialize_dynamic_rows_usize] *)
Definition materialize_rows (types : list ColumnType) (type_names : list bytes) (discriminators counts : list Z)
  : parser (list (option DynamicTypedValue)) :=
  let* decoded := decode_counted (map decode_column_values types) counts in
  lift (place_rows "dynamic row index out of bounds" type_names decoded (repeat 0 (length types)) discriminators).

(** The scan of the discriminators of version 1. *)
Fixpoint deprecated_counts (counts : list Z) (discriminators : bytes) : result error (list Z) :=
  match discriminators with
  | [] => Ok counts
  | disc :: discriminators =>
      let idx := byte.unsigned disc in
      if idx =? U8_MAX then deprecated_counts counts discriminators
      else if idx <? blen counts then deprecated_counts (incr_nth counts (Z.to_nat idx)) discriminators
      else Err (Protocol (Msg "deprecated Dynamic discriminator {idx} exceeds type count {}" [AZ idx; AZ (blen counts)]))
  end.

(** [parse_deprecated_dynamic_values], with [materialize_dynamic_rows]: the byte 255
    is NULL. *)
Definition deprecated_dynamic_values (rows : Z) (types : list ColumnType) (type_names : list bytes)
  : parser (list (option DynamicTypedValue)) :=
  let* discriminators := parse_exact rows in
  let* counts := lift (deprecated_counts (repeat 0 (length types)) discriminators) in
  let wide := map (fun d => if byte.unsigned d =? U8_MAX then blen types else byte.unsigned d) discriminators in
  materialize_rows types type_names wide counts.

(** [decode_dynamic_discriminator] of this file. *)
Definition decode_discriminator (bytes : bytes) : result error Z :=
  match length bytes with
  | 1%nat | 2%nat | 4%nat | 8%nat => checked_usize_local (from_le bytes) "Dynamic discriminator"
  | _ => Err (Protocol (msg "unsupported Dynamic discriminator width"))
  end.

(** The scan of the discriminators of versions 2 and 3: the number of types is NULL. *)
Fixpoint flat_counts (counts : list Z) (chunks : list bytes) : result error (list Z * list Z) :=
  match chunks with
  | [] => Ok ([], counts)
  | chunk :: chunks =>
      let* idx := decode_discriminator chunk in
      if idx <? blen counts then
        let* (ds, counts) := flat_counts (incr_nth counts (Z.to_nat idx)) chunks in Ok (idx :: ds, counts)
      else if negb (idx =? blen counts)
      then Err (Protocol (Msg "Dynamic discriminator {idx} exceeds type count {}" [AZ idx; AZ (blen counts)]))
      else let* (ds, counts) := flat_counts counts chunks in Ok (idx :: ds, counts)
  end.

Definition flat_dynamic_values (rows : Z) (types : list ColumnType) (type_names : list bytes)
  : parser (list (option DynamicTypedValue)) :=
  let width := dynamic_discriminator_width (blen types) in
  let* len := lift (checked_len_local rows width) in
  let* bytes := parse_exact len in
  let* (discriminators, counts) := lift (flat_counts (repeat 0 (length types)) (chunks_exact width bytes)) in
  materialize_rows types type_names discriminators counts.

Definition dynamic_values (rows : Z) : parser (list (option DynamicTypedValue)) :=
  let* version := parse_u64_le in
  if version =? 1 then
    parse_varint_checked ;;
    let* (types, type_names) := parse_dynamic_type_header in
    parse_u64_le ;;
    skip_state_prefixes_for_types types ;;
    deprecated_dynamic_values rows types type_names
  else if (version =? 2) || (version =? 3) then
    let* (types, type_names) := parse_dynamic_type_header in
    skip_state_prefixes_for_types types ;;
    flat_dynamic_values rows types type_names
  else throw (Protocol (Msg "unknown Dynamic serialization version {other}" [AZ version])).

Definition dynamic_read_native (rows : Z) (data : bytes) : result error DynamicColumnData :=
  let* (typed_values, _) := dynamic_values rows data 0 in
  Ok (mkDynamicColumn data rows (Some typed_values)).

(** ** The untyped columns of plain.rs: the bytes as they stand *)

Record variant_value := VariantValue { variant_bytes : bytes }.
Record dynamic_value := DynamicValue { dynamic_bytes : bytes }.

#[export] Instance variant_value_impl : ClickHouseValue variant_value := {
  ch_type_name := str "Variant";
  read_from l := Ok (VariantValue l, []);
  write_to v := Ok (variant_bytes v);
}.

(** The slice [&ctx.buf[discriminant_offset..]] panics when the discriminators pass the
    end of the buffer. *)
Definition variant_read_column : context VariantColumnData :=
  let* count := get_rows in
  let* ctx := get_ctx in
  if blen (ctx_buf ctx) <? ctx_pos ctx + 8 then ret (new_variant_column [] count 0)
  else
    let mode := from_le (slice (ctx_buf ctx) (ctx_pos ctx) (ctx_pos ctx + 8)) in
    let pos := ctx_pos ctx + 8 in
    set_pos pos ;;
    if (mode =? 1) && (blen (ctx_buf ctx) <? pos + 16) then ret (new_variant_column [] count 0)
    else
      let discriminant_offset := if mode =? 1 then pos + 16 else pos + count in
      let* remaining := lift (index_slice (ctx_buf ctx) discriminant_offset (blen (ctx_buf ctx))) in
      set_pos (blen (ctx_buf ctx)) ;;
      ret (new_variant_column remaining count 0).

#[export] Instance variant_column : ClickHouseColumn variant_value := {
  ColumnData := VariantColumnData;
  read_column := variant_read_column;
  write_column data := Ok (concat (map variant_bytes data));
  column_len := var_count;
  column_get c _ := Ok (VariantValue (var_data c));
}.

#[export] Instance dynamic_value_impl : ClickHouseValue dynamic_value := {
  ch_type_name := str "Dynamic";
  read_from l := Ok (DynamicValue l, []);
  write_to v := Ok (dynamic_bytes v);
}.

Definition dynamic_read_column : context DynamicColumnData :=
  let* count := get_rows in
  let* ctx := get_ctx in
  set_pos (blen (ctx_buf ctx)) ;;
  ret (new_dynamic_column (drop (ctx_pos ctx) (ctx_buf ctx)) count).

#[export] Instance dynamic_column : ClickHouseColumn dynamic_value := {
  ColumnData := DynamicColumnData;
  read_column := dynamic_read_column;
  write_column data := Ok (concat (map dynamic_bytes data));
  column_len := dyn_count;
  column_get c _ := Ok (DynamicValue (dyn_data c));
}.

(** * The decoder follows the framing *)

(** The types whose columns are laid out without state prefixes, and that are decoded
    value by value. *)
Fixpoint decodable (ct : ColumnType) : bool :=
  match ct with
  | Nullable t | Array t => decodable t
  | TMap k v => decodable k && decodable v
  | Tuple ts => forallb decodable ts
  | LowCardinality _ | AggregateFunction | SimpleAggregateFunction | Nothing | JSON | Variant _ | Dynamic
  | Point | Ring | Polygon | MultiPolygon | Other _ => false
  | Decimal p _ => (1 <=? p) && (p <=? 76)
  | _ => true
  end.

(** ** The strings of a column

    [column_texts] walks a column as the framing delimits it and collects the bytes of
    its strings, whether or not they are UTF-8. *)
Definition string_text : parser bytes :=
  let* v := parse_varint in
  let* len := lift (protocol (checked_string_len v (str "string value length"))) in
  let* start := get_pos in
  advance_pos len ;;
  get_slice start (start + len).

Definition array_texts (name : bytes) (inner : Z -> parser (list bytes)) (rows : Z) : parser (list bytes) :=
  let* total := skip_offsets rows name in
  if 0 <? total then inner total else ret [].

Fixpoint column_texts (ct : ColumnType) (rows : Z) : parser (list bytes) :=
  if rows =? 0 then ret []
  else
    match ct with
    | TString => collect_n (Z.to_nat rows) string_text
    | Nullable inner => advance_pos rows ;; column_texts inner rows
    | Array inner => array_texts (str "array offset") (column_texts inner) rows
    | TMap key value =>
        array_texts (str "map offset")
          (fun total => let* keys := column_texts key total in
                        let* values := column_texts value total in
                        ret (keys ++ values)) rows
    | Tuple elems =>
        let* texts := map_each elems (fun elem => column_texts elem rows) in
        ret (concat texts)
    | _ => skip_column_data ct rows ;; ret []
    end.

(** The same for the alternatives of a [Variant] column. *)
Fixpoint texts_counted (bodies : list (Z -> parser (list bytes))) (counts : list Z) : parser (list bytes) :=
  match bodies, counts with
  | body :: bodies, count :: counts =>
      let* texts := (if count =? 0 then ret [] else body count) in
      let* others := texts_counted bodies counts in
      ret (texts ++ others)
  | _, _ => ret []
  end.

Definition variant_texts (bodies : list (Z -> parser (list bytes))) (rows : Z) : parser (list bytes) :=
  let* mode := read_u64_le (str "Variant serialization mode") in
  if mode =? 0 then
    let* start := get_pos in
    advance_pos rows ;;
    let* discriminators := get_slice start (start + rows) in
    texts_counted bodies (variant_counts (length bodies) discriminators)
  else if mode =? 1 then
    let* d := read_u64_le (str "Variant compact discriminator") in
    let* discriminator := lift (skip_checked_usize d (str "Variant compact discriminator")) in
    let* r := read_u64_le (str "Variant compact rows") in
    let* compact_rows := lift (skip_checked_usize r (str "Variant compact rows")) in
    if rows <? compact_rows
    then throw (Protocol (Msg "Variant compact rows {compact_rows} exceeds row count {rows}"
                              [AZ compact_rows; AZ rows]))
    else if (discriminator <? blen bodies) && (0 <? compact_rows)
    then nth (Z.to_nat discriminator) bodies (fun _ => ret []) compact_rows
    else ret []
  else throw (Protocol (Msg "unknown Variant serialization mode {other}" [AZ mode])).

Definition all_utf8 (texts : list bytes) : bool := forallb utf8_valid texts.

Definition not_utf8 : error := Protocol (msg "invalid utf8 string: {e}").

(** ** A parser that follows another one

    [shadows p t]: wherever [p] succeeds, [t] succeeds with the same end. *)
Definition shadows {A T} (p : parser A) (t : parser T) : Prop :=
  forall buf pos a pos', 0 <= pos <= blen buf -> blen buf <= ISIZE_MAX -> p buf pos = Ok (a, pos') ->
  exists x, t buf pos = Ok (x, pos').

(** [follows V p q R]: wherever [p] succeeds with a result that [V] accepts, [q] succeeds
    with the same end and a result related by [R]; where [V] refuses it, [q] reports
    text that is not UTF-8. *)
Definition follows {A B} (V : A -> bool) (p : parser A) (q : parser B) (R : A -> B -> Prop) : Prop :=
  forall buf pos a pos', 0 <= pos <= blen buf -> blen buf <= ISIZE_MAX -> p buf pos = Ok (a, pos') ->
  match q buf pos with
  | Ok (b, end_) => end_ = pos' /\ V a = true /\ R a b
  | Err e => V a = false /\ e = not_utf8
  end.

(** A part without strings. *)
Definition plain {A} (a : A) : bool := true.

Lemma shadows_bind {A T U} (p : parser A) (f : A -> parser T) (h : A -> parser U) :
  advances p -> (forall a, shadows (f a) (h a)) -> shadows (bind p f) (bind p h).
Proof.
  intros Ha Hf buf pos c pos' Hpos Hbuf H. apply parser_bind_inv in H as (a & p1 & H1 & H2).
  pose proof (Ha _ _ _ _ Hpos H1). destruct (Hf a buf p1 c pos') as [x Hx]; [lia|assumption..|].
  exists x. now erewrite parser_bind_ok by exact H1.
Qed.

Lemma shadows_seq {A T B U} (p : parser A) (t : parser T) (f : A -> parser B) (h : T -> parser U) :
  advances p -> shadows p t -> (forall a x, shadows (f a) (h x)) -> shadows (bind p f) (bind t h).
Proof.
  intros Ha Ht Hf buf pos c pos' Hpos Hbuf H. apply parser_bind_inv in H as (a & p1 & H1 & H2).
  pose proof (Ha _ _ _ _ Hpos H1). destruct (Ht _ _ _ _ Hpos Hbuf H1) as [x Hx].
  destruct (Hf a x buf p1 c pos') as [y Hy]; [lia|assumption..|]. exists y. now erewrite parser_bind_ok by exact Hx.
Qed.

Lemma shadows_ret {A T} (a : A) (x : T) : shadows (ret a) (ret x).
Proof. intros buf pos c pos' _ _ H. cbn in *. inj. eauto. Qed.

Lemma shadows_map {A T U} (p : parser A) (t : parser T) (g : T -> U) :
  shadows p t -> shadows p (let* x := t in ret (g x)).
Proof.
  intros H buf pos a pos' Hpos Hbuf Hp. destruct (H _ _ _ _ Hpos Hbuf Hp) as [x Hx].
  exists (g x). now erewrite parser_bind_ok by exact Hx.
Qed.

Lemma follows_ret {A B} (V : A -> bool) a (b : B) (R : A -> B -> Prop) :
  V a = true -> R a b -> follows V (ret a) (ret b) R.
Proof. intros HV H buf pos a' pos' _ _ Hp. cbn in *. inj. auto. Qed.

Lemma follows_bind {A A' B B'} V V' (p : parser A) (q : parser B) (f : A -> parser A') (g : B -> parser B') R S :
  advances p -> follows V p q R -> (forall a b, V a = true -> R a b -> follows V' (f a) (g b) S) ->
  (forall a buf pos c pos', V a = false -> f a buf pos = Ok (c, pos') -> V' c = false) ->
  follows V' (bind p f) (bind q g) S.
Proof.
  intros Ha Hpq Hfg Hbad buf pos c pos' Hpos Hbuf H. apply parser_bind_inv in H as (a & p1 & H1 & H2).
  pose proof (Ha _ _ _ _ Hpos H1). specialize (Hpq _ _ _ _ Hpos Hbuf H1). cbn.
  destruct (q buf pos) as [[b p2]|e]; [|destruct Hpq as [HV ->]; split; [now apply Hbad in H2|reflexivity]].
  destruct Hpq as (-> & HV & HR). apply (Hfg a b HV HR buf p1 c pos'); auto; lia.
Qed.

Lemma follows_bind_plain {A A' B B'} V' (p : parser A) (q : parser B) (f : A -> parser A') (g : B -> parser B') R S :
  advances p -> follows plain p q R -> (forall a b, R a b -> follows V' (f a) (g b) S) ->
  follows V' (bind p f) (bind q g) S.
Proof. intros Ha Hpq Hfg. eapply follows_bind; [eassumption..|auto|]. intros; discriminate. Qed.

(** The decoder may compute on after the delimiter is done. *)
Lemma follows_map {A B B'} V (p : parser A) (q : parser B) (g : B -> parser B') R (S : A -> B' -> Prop) :
  advances p -> follows V p q R -> (forall a b, V a = true -> R a b -> follows V (ret a) (g b) S) ->
  follows V p (bind q g) S.
Proof.
  intros Ha Hpq Hg buf pos a pos' Hpos Hbuf H. pose proof (Ha _ _ _ _ Hpos H).
  specialize (Hpq _ _ _ _ Hpos Hbuf H). cbn. destruct (q buf pos) as [[b p2]|e]; [|assumption].
  destruct Hpq as (-> & HV & HR). apply (Hg a b HV HR buf pos' a pos'); auto; lia.
Qed.

Lemma follows_weaken {A B} V (p : parser A) (q : parser B) (R S : A -> B -> Prop) :
  (forall a b, R a b -> S a b) -> follows V p q R -> follows V p q S.
Proof.
  intros HS H buf pos a pos' Hpos Hbuf Hp. specialize (H _ _ _ _ Hpos Hbuf Hp).
  destruct (q buf pos) as [[b p2]|e]; intuition auto.
Qed.

Lemma follows_eq {A B} V (p : parser A) (q q' : parser B) R : parser_eq q q' -> follows V p q R -> follows V p q' R.
Proof. intros E H buf pos a pos' Hpos Hbuf Hp. rewrite <- E. now apply H. Qed.

(** A part without strings, seen as a column without strings. *)
Lemma follows_no_text {A B} (p : parser A) (q : parser B) (R : B -> Prop) :
  follows plain p q (fun _ b => R b) -> follows all_utf8 (p ;; ret []) q (fun _ b => R b).
Proof.
  intros H buf pos a pos' Hpos Hbuf Hp. apply parser_bind_inv in Hp as (x & p1 & H1 & H2). cbn in H2. inj.
  specialize (H _ _ _ _ Hpos Hbuf H1). destruct (q buf pos) as [[b p2]|e]; [auto|]. now destruct H.
Qed.

Lemma all_utf8_app a b : all_utf8 (a ++ b) = all_utf8 a && all_utf8 b.
Proof. apply forallb_app. Qed.

Lemma parse_exact_ok n data pos :
  0 <= n -> 0 <= pos -> pos + n <= blen data -> blen data <= ISIZE_MAX ->
  parse_exact n data pos = Ok (slice data pos (pos + n), pos + n).
Proof.
  intros Hn Hpos Hle Hmax. unfold parse_exact, checked_add.
  destruct (Z.leb_spec (pos + n) USIZE_MAX); [|unfold ISIZE_MAX, USIZE_MAX in *; lia].
  now destruct (Z.ltb_spec (blen data) (pos + n)); [lia|].
Qed.

Lemma parse_exact_inv n data pos bs pos' :
  parse_exact n data pos = Ok (bs, pos') -> bs = slice data pos (pos + n) /\ pos' = pos + n.
Proof.
  unfold parse_exact. destruct (checked_add pos n) as [e|] eqn:E; [|discriminate]. apply checked_add_inv in E as [-> _].
  destruct (blen data <? pos + n); [discriminate|]. intros H. now inj.
Qed.

Lemma follows_exact n : 0 <= n -> follows plain (advance_pos n) (parse_exact n) (fun _ bs => blen bs = n).
Proof.
  intros Hn buf pos [] pos' Hpos Hbuf H. apply advance_pos_ok in H as [H Hle]; [|lia..]. inj.
  rewrite parse_exact_ok by lia. split; [reflexivity|]; split; [reflexivity|]. rewrite blen_slice; lia.
Qed.

Lemma length_chunks_exact w n l :
  0 < w -> blen l = Z.of_nat n * w -> length (chunks_exact w l) = n.
Proof.
  intros Hw. revert l; induction n as [|n IH]; intros l Hl.
  - assert (l = []) as -> by (apply blen_zero; lia). reflexivity.
  - rewrite chunks_exact_cons by nia. cbn [length]. f_equal. apply IH. rewrite blen_drop; nia.
Qed.

Lemma follows_fixed rows w f :
  0 <= rows -> 0 < w -> follows plain (skip_fixed rows w) (decode_fixed rows w f) (fun _ vs => blen vs = rows).
Proof.
  intros Hr Hw buf pos [] pos' Hpos Hbuf H. apply skip_fixed_ok in H as (Hcap & H & Hle); [|lia..]. inj.
  unfold decode_fixed. rewrite checked_mul_ok by (unfold MAX_COLUMN_BYTES, ISIZE_MAX in *; lia). cbn [ok_or].
  erewrite parser_bind_ok by reflexivity. assert (0 <= rows * w) as Hn by nia.
  rewrite (parser_bind_ok _ _ _ _ _ _ (parse_exact_ok _ _ _ Hn (proj1 Hpos) Hle Hbuf)).
  split; [reflexivity|]; split; [reflexivity|]. unfold blen. rewrite length_map, (length_chunks_exact w (Z.to_nat rows)); [lia|assumption|].
  rewrite blen_slice; nia.
Qed.

Lemma follows_bytes rows f :
  0 <= rows -> follows plain (advance_pos rows) (decode_bytes rows f) (fun _ vs => blen vs = rows).
Proof.
  intros Hr. eapply follows_map; [now apply advances_advance_pos|now apply follows_exact|].
  intros [] bs _ Hbs. apply follows_ret; [reflexivity|]. unfold blen in *. now rewrite length_map.
Qed.

(** The local varint decoder. *)
Lemma parse_varint_checked_loop_ok fuel : forall fuel' r shift buf pos v pos',
  shift < 64 <= shift + 7 * Z.of_nat fuel ->
  parse_varint_loop fuel' r shift buf pos = Ok (v, pos') ->
  parse_varint_checked_loop fuel r shift buf pos = Ok (v, pos').
Proof.
  induction fuel as [|fuel IH]; intros fuel' r shift buf pos v pos' Hs H; [lia|].
  destruct fuel' as [|fuel']; [discriminate|]. cbn [parse_varint_loop parse_varint_checked_loop] in *.
  destruct (_ <=? pos); [discriminate|]. destruct (Z.ltb_spec 63 shift); [lia|].
  destruct (_ && _); [discriminate|]. destruct (_ =? 0); [assumption|].
  destruct (Z.ltb_spec (shift + 7) 64); [apply (IH fuel'); [lia|assumption]|].
  destruct fuel' as [|fuel']; [discriminate|]. cbn [parse_varint_loop] in H.
  destruct (_ <=? pos + 1); [discriminate|]. now destruct (Z.ltb_spec 63 (shift + 7)); [|lia].
Qed.

Lemma parse_varint_checked_ok buf pos v pos' :
  parse_varint buf pos = Ok (v, pos') -> parse_varint_checked buf pos = Ok (v, pos').
Proof. apply parse_varint_checked_loop_ok. lia. Qed.

Lemma string_text_inv buf pos s pos' :
  0 <= pos <= blen buf -> blen buf <= ISIZE_MAX -> string_text buf pos = Ok (s, pos') ->
  exists v start, parse_varint buf pos = Ok (v, start) /\ 0 <= v <= MAX_STRING_BYTES /\ pos <= start /\
    pos' = start + v /\ pos' <= blen buf /\ s = slice buf start pos'.
Proof.
  intros Hpos Hbuf H. apply parser_bind_inv in H as (v & p1 & H1 & H).
  pose proof (advances_parse_varint _ _ _ _ Hpos H1) as Ha. pose proof (parse_varint_nonneg _ _ _ _ H1) as Hv.
  apply parser_bind_inv in H as (len & p2 & H2 & H). apply parser_lift_inv in H2 as [H2 ->].
  apply map_err_inv, checked_string_len_inv in H2 as [-> Hlen].
  apply parser_bind_inv in H as (start & p2 & H2 & H). cbn in H2. injection H2 as <- <-.
  apply parser_bind_inv in H as ([] & p3 & H3 & H). apply advance_pos_ok in H3 as [H3 Hle]; [|lia..]. cbn in H.
  injection H as <- <-. injection H3 as ->. exists v, p1. conj; auto; lia.
Qed.

Lemma advances_string_text : advances string_text.
Proof.
  apply parse_varint_bind_advances. intros v Hv.
  apply lift_bind_advances. intros n H. apply map_err_inv, checked_string_len_inv in H as [-> _].
  intros buf pos s pos' Hpos H. cbn in H. destruct (advance_pos v buf pos) as [[[] p1]|e] eqn:E; [|discriminate].
  cbn in H. injection H as _ <-. exact (advances_advance_pos v Hv _ _ _ _ Hpos E).
Qed.

Lemma follows_string : follows utf8_valid string_text parse_string_checked eq.
Proof.
  intros buf pos s pos' Hpos Hbuf H. apply string_text_inv in H as (v & p1 & H1 & Hv & Hp1 & -> & Hle & ->); [|assumption..].
  unfold parse_string_checked. rewrite (parser_bind_ok _ _ _ _ _ _ (parse_varint_checked_ok _ _ _ _ H1)).
  assert (checked_usize_local v "string length" = Ok v) as ->.
  { unfold checked_usize_local, usize_try_from, try_from_max.
    bool_cases; [reflexivity|unfold MAX_STRING_BYTES, USIZE_MAX in *; lia]. }
  erewrite parser_bind_ok by reflexivity. unfold utf8_slice_checked, checked_add.
  destruct (Z.leb_spec (p1 + v) USIZE_MAX); [|unfold ISIZE_MAX, USIZE_MAX in *; lia].
  destruct (Z.ltb_spec (blen buf) (p1 + v)); [lia|]. destruct (utf8_valid _) eqn:E; auto.
Qed.

Lemma follows_strings n :
  follows all_utf8 (collect_n n string_text) (collect_n n (let* s := parse_string_checked in ret (VString s)))
    (fun texts vs => vs = map VString texts /\ length vs = n).
Proof.
  induction n as [|n IH]; [now apply follows_ret|]. cbn [collect_n].
  apply (follows_bind utf8_valid all_utf8 _ _ _ _ (fun s v => v = VString s)); [apply advances_string_text| | |].
  - eapply follows_map; [apply advances_string_text|exact follows_string|]. intros s ? Hs <-. now apply follows_ret.
  - intros s v Hs ->. eapply follows_bind; [apply advances_collect_n, advances_string_text|exact IH|..].
    + intros l vs Hl [-> Hn]. apply follows_ret; [cbn; rewrite Hs; exact Hl|]. cbn. now rewrite Hn.
    + intros l buf pos c pos' Hl H. cbn in H. inj. cbn. unfold all_utf8 in Hl. now rewrite Hl, andb_false_r.
  - intros s buf pos c pos' Hs H. apply parser_bind_inv in H as (l & p & _ & H). cbn in H. inj. cbn. now rewrite Hs.
Qed.

Lemma collect_offsets_ok n : forall buf pos,
  0 <= pos -> pos + 8 * Z.of_nat n <= blen buf -> blen buf <= ISIZE_MAX ->
  collect_n n (let* v := parse_u64_le in lift (checked_usize_local v "offset")) buf pos =
  Ok (map from_le (chunks_exact 8 (slice buf pos (pos + 8 * Z.of_nat n))), pos + 8 * Z.of_nat n).
Proof.
  induction n as [|n IH]; intros buf pos Hpos Hle Hmax.
  - change (8 * Z.of_nat 0) with 0. rewrite Z.add_0_r, slice_nil. reflexivity.
  - cbn [collect_n]. replace (pos + 8 * Z.of_nat (S n)) with (pos + 8 + 8 * Z.of_nat n) in * by lia.
    rewrite chunks_slice by lia. cbn [map].
    assert (parse_u64_le buf pos = Ok (from_le (slice buf pos (pos + 8)), pos + 8)) as Hu.
    { unfold parse_u64_le. erewrite parser_bind_ok by (apply parse_exact_ok; lia). reflexivity. }
    pose proof (from_le_bound (slice buf pos (pos + 8))) as Hb. rewrite blen_slice in Hb by lia.
    assert (checked_usize_local (from_le (slice buf pos (pos + 8))) "offset" = Ok (from_le (slice buf pos (pos + 8)))) as Hc.
    { unfold checked_usize_local, usize_try_from, try_from_max. unfold USIZE_MAX.
      replace (8 * (pos + 8 - pos)) with 64 in Hb by lia. bool_cases; [reflexivity|lia]. }
    erewrite parser_bind_ok; [|erewrite parser_bind_ok by exact Hu; rewrite Hc; reflexivity].
    erewrite parser_bind_ok by (apply IH; lia). reflexivity.
Qed.

Lemma follows_offsets rows name :
  0 <= rows ->
  follows plain (skip_offsets rows name) (parse_offsets rows)
    (fun t offs => blen offs = rows /\ offsets_ok 0 offs /\ t = last_or_zero offs).
Proof.
  intros Hr buf pos t pos' Hpos Hbuf H. apply skip_offsets_ok in H as (_ & t' & H & Hle & Hf); [|lia..]. inj.
  unfold parse_offsets. replace (rows * 8) with (8 * Z.of_nat (Z.to_nat rows)) in * by lia.
  rewrite collect_offsets_ok by lia. split; [reflexivity|]; split; [reflexivity|]. apply fold_offsets_inv in Hf as [Hok ->].
  conj; [|exact Hok|reflexivity]. unfold blen. rewrite length_map, (length_chunks_exact 8 (Z.to_nat rows)); [lia..|].
  rewrite blen_slice; lia.
Qed.

Lemma offsets_below_last prev offs :
  Sorted Z.le (prev :: offs) -> prev <= last offs prev /\ Forall (fun o => o <= last offs prev) offs.
Proof.
  revert prev; induction offs as [|o offs IH]; intros prev Hs; [split; [cbn; lia|constructor]|].
  inversion Hs as [|? ? Hs' Hhd]; subst. inversion Hhd; subst. destruct (IH o Hs') as [Hle Hall].
  assert (last (o :: offs) prev = last offs o) as E.
  { destruct offs as [|o' offs]; [reflexivity|]. cbn [last]. clear. revert o'. induction offs; cbn; auto. }
  rewrite E. split; [lia|]. now constructor.
Qed.

Lemma split_rows_ok {A} (values : list A) offs : forall prev,
  Sorted Z.le (prev :: offs) -> Forall (fun o => o <= blen values) offs ->
  exists l, split_rows values prev offs = Ok l /\ length l = length offs.
Proof.
  induction offs as [|o offs IH]; intros prev Hs Ho; [now exists []|].
  inversion Hs as [|? ? Hs' Hhd]; subst. inversion Hhd; subst. inversion Ho; subst.
  cbn [split_rows]. rewrite Z.min_l by assumption. destruct (Z.ltb_spec o prev); [lia|].
  destruct (IH o Hs') as (l & -> & Hl); [assumption|]. eexists. split; [reflexivity|]. cbn. now rewrite Hl.
Qed.

Lemma split_rows_total {A} (values : list A) offs :
  offsets_ok 0 offs -> blen values = last_or_zero offs ->
  exists l, split_rows values 0 offs = Ok l /\ length l = length offs.
Proof.
  intros [Hs _] Hv. apply split_rows_ok; [assumption|]. rewrite Hv. unfold last_or_zero.
  apply offsets_below_last in Hs as [_ Hs]. exact Hs.
Qed.

(** A column of no rows takes no bytes. *)
Lemma parse_exact_zero data pos : 0 <= pos <= blen data -> blen data <= ISIZE_MAX -> parse_exact 0 data pos = Ok ([], pos).
Proof. intros Hpos Hmax. rewrite parse_exact_ok by lia. now rewrite Z.add_0_r, slice_nil. Qed.

Lemma decode_fixed_zero w f data pos :
  0 <= pos <= blen data -> blen data <= ISIZE_MAX -> decode_fixed 0 w f data pos = Ok ([], pos).
Proof.
  intros Hpos Hmax. unfold decode_fixed. rewrite checked_mul_ok by (unfold ISIZE_MAX; lia). cbn [Z.mul ok_or].
  erewrite parser_bind_ok by reflexivity. now rewrite (parser_bind_ok _ _ _ _ _ _ (parse_exact_zero data pos Hpos Hmax)).
Qed.

Lemma decode_bytes_zero f data pos :
  0 <= pos <= blen data -> blen data <= ISIZE_MAX -> decode_bytes 0 f data pos = Ok ([], pos).
Proof. intros Hpos Hmax. unfold decode_bytes. now rewrite (parser_bind_ok _ _ _ _ _ _ (parse_exact_zero data pos Hpos Hmax)). Qed.

Lemma decode_zero ct data pos :
  0 <= pos <= blen data -> blen data <= ISIZE_MAX -> decodable ct = true ->
  decode_column_values ct 0 data pos = Ok ([], pos).
Proof.
  intros Hpos Hmax. type_induction ct.
  - intros t IH Hd. cbn [decode_column_values]. rewrite (parser_bind_ok _ _ _ _ _ _ (parse_exact_zero data pos Hpos Hmax)).
    now rewrite (parser_bind_ok _ _ _ _ _ _ (IH Hd)).
  - intros t IH Hd. cbn [decode_column_values].
    rewrite (parser_bind_ok _ _ _ _ _ pos (eq_refl : parse_offsets 0 data pos = Ok ([], pos))).
    now rewrite (parser_bind_ok _ _ _ _ _ _ (IH Hd)).
  - intros k v IHk IHv Hd. cbn [decodable] in Hd. apply andb_prop in Hd as [Hk Hv]. cbn [decode_column_values].
    rewrite (parser_bind_ok _ _ _ _ _ pos (eq_refl : parse_offsets 0 data pos = Ok ([], pos))). cbv zeta.
    rewrite (parser_bind_ok _ _ _ _ _ _ (IHk Hk)). now rewrite (parser_bind_ok _ _ _ _ _ _ (IHv Hv)).
  - intros ts IH Hd. cbn [decode_column_values decodable] in *.
    assert (exists cols, map_each ts (fun inner => decode_column_values inner 0) data pos = Ok (cols, pos)) as [cols Hc].
    { induction IH as [|t ts Ht _ IH]; [now exists []|]. cbn [forallb] in Hd. apply andb_prop in Hd as [H1 H2].
      destruct (IH H2) as [cols Hc]. exists ([] :: cols). rewrite map_each_cons.
      rewrite (parser_bind_ok _ _ _ _ _ _ (Ht H1)). now rewrite (parser_bind_ok _ _ _ _ _ _ Hc). }
    now rewrite (parser_bind_ok _ _ _ _ _ _ Hc).
  - discriminate.
  - discriminate.
  - destruct t; cbn [decodable]; try exact I; try discriminate; intros Hd; cbn [decode_column_values];
      try (now apply decode_fixed_zero); try (now apply decode_bytes_zero); try reflexivity.
    apply andb_prop in Hd as [H1 H2].
    repeat match goal with |- context [if ?b then _ else _] => destruct b eqn:? end; try (now apply decode_fixed_zero). lia.
Qed.

Lemma follows_fixed_strings rows n :
  0 <= rows -> 0 <= n ->
  follows plain (skip_fixed rows n) (collect_n (Z.to_nat rows) (let* b := parse_exact n in ret (VFixedString b)))
    (fun _ vs => blen vs = rows).
Proof.
  intros Hr Hn buf pos [] pos' Hpos Hbuf H. apply skip_fixed_ok in H as (_ & H & Hle); [|lia..]. inj.
  replace (rows * n) with (Z.of_nat (Z.to_nat rows) * n) in * by lia.
  assert (exists vs, collect_n (Z.to_nat rows) (let* b := parse_exact n in ret (VFixedString b)) buf pos =
                     Ok (vs, pos + Z.of_nat (Z.to_nat rows) * n) /\ length vs = Z.to_nat rows) as (vs & -> & Hl).
  { clear Hr. revert pos Hpos Hle; induction (Z.to_nat rows) as [|k IH]; intros pos Hpos Hle.
    - exists []. now rewrite Z.add_0_r.
    - cbn [collect_n]. rewrite Nat2Z.inj_succ, Z.mul_succ_l in *. destruct (IH (pos + n)) as (vs & E & Hvs); [nia..|]. exists (VFixedString (slice buf pos (pos + n)) :: vs).
      assert (pos + n <= blen buf) as Hn' by nia.
      erewrite parser_bind_ok; [|erewrite parser_bind_ok by (apply parse_exact_ok; lia); reflexivity].
      erewrite parser_bind_ok by exact E. split; [cbn; do 2 f_equal; lia|cbn; lia]. }
  split; [reflexivity|]; split; [reflexivity|]. unfold blen. lia.
Qed.

Lemma follows_nonempty rows p (q : parser (list DynamicFieldValue)) :
  (rows = 0 -> forall data pos, 0 <= pos <= blen data -> blen data <= ISIZE_MAX -> q data pos = Ok ([], pos)) ->
  (rows <> 0 -> follows all_utf8 p q (fun _ vs => blen vs = rows)) ->
  follows all_utf8 (if rows =? 0 then ret [] else p) q (fun _ vs => blen vs = rows).
Proof.
  intros H0 H1. destruct (Z.eqb_spec rows 0) as [->|]; [|auto].
  intros buf pos a pos' Hpos Hbuf H. cbn in H. inj. rewrite H0 by auto. auto.
Qed.

(** The offsets and the flattened elements of an array or a map, regrouped by row. *)
Lemma follows_rows {A} name rows (inner : Z -> parser (list bytes)) (q : Z -> parser (list A)) (v : list A -> DynamicFieldValue) :
  0 <= rows ->
  (forall data pos, 0 <= pos <= blen data -> blen data <= ISIZE_MAX -> q 0 data pos = Ok ([], pos)) ->
  (forall total, 0 <= total -> advances (inner total)) ->
  (forall total, 0 <= total -> follows all_utf8 (inner total) (q total) (fun _ vs => blen vs = total)) ->
  follows all_utf8 (array_texts name inner rows)
    (let* offsets := parse_offsets rows in
     let* values := q (last_or_zero offsets) in
     let* rows_out := lift (split_rows values 0 offsets) in
     ret (map v rows_out)) (fun _ vs => blen vs = rows).
Proof.
  intros Hr H0 Ha Hf. eapply follows_bind_plain; [now apply advances_skip_offsets|now apply follows_offsets|].
  intros t offs (Hlen & Hok & ->). pose proof (proj1 (offsets_below_last _ _ (proj1 Hok))) as Ht.
  change (last offs 0) with (last_or_zero offs) in Ht.
  eapply follows_map with (R := fun _ vs => blen vs = last_or_zero offs).
  - destruct (0 <? last_or_zero offs); [auto|apply advances_ret].
  - destruct (Z.ltb_spec 0 (last_or_zero offs)); [auto|]. replace (last_or_zero offs) with 0 by lia.
    intros buf pos a pos' Hpos Hbuf E. cbn in E. inj. now rewrite H0.
  - intros l vs Hl Hvs. destruct (split_rows_total vs offs Hok Hvs) as (out & -> & Hout).
    apply follows_ret; [assumption|]. unfold blen in *. rewrite length_map. lia.
Qed.

(** Two columns one after the other. *)
Lemma follows_pair {B B'} (p p' : parser (list bytes)) (q : parser B) (q' : parser B') R R' :
  advances p -> advances p' -> follows all_utf8 p q (fun _ b => R b) -> follows all_utf8 p' q' (fun _ b => R' b) ->
  follows all_utf8 (let* a := p in let* a' := p' in ret (a ++ a')) (let* b := q in let* b' := q' in ret (b, b'))
    (fun _ bs => R (fst bs) /\ R' (snd bs)).
Proof.
  intros Ha Ha' H H'. eapply follows_bind; [exact Ha|exact H|..].
  - intros a b Hva Hb. eapply follows_bind; [exact Ha'|exact H'|..].
    + intros a' b' Hva' Hb'. apply follows_ret; [now rewrite all_utf8_app, Hva, Hva'|auto].
    + intros a' buf pos c pos' Hv E. cbn in E. inj. now rewrite all_utf8_app, Hv, andb_false_r.
  - intros a buf pos c pos' Hv E. apply parser_bind_inv in E as (a' & p1 & _ & E). cbn in E. inj.
    now rewrite all_utf8_app, Hv.
Qed.

Lemma follows_entries rows (skip_k skip_v : Z -> parser (list bytes)) (k v : Z -> parser (list DynamicFieldValue)) :
  0 <= rows ->
  (forall data pos, 0 <= pos <= blen data -> blen data <= ISIZE_MAX -> k 0 data pos = Ok ([], pos)) ->
  (forall data pos, 0 <= pos <= blen data -> blen data <= ISIZE_MAX -> v 0 data pos = Ok ([], pos)) ->
  (forall total, 0 <= total -> advances (skip_k total)) -> (forall total, 0 <= total -> advances (skip_v total)) ->
  (forall total, 0 <= total -> follows all_utf8 (skip_k total) (k total) (fun _ vs => blen vs = total)) ->
  (forall total, 0 <= total -> follows all_utf8 (skip_v total) (v total) (fun _ vs => blen vs = total)) ->
  follows all_utf8
    (array_texts (str "map offset")
       (fun total => let* keys := skip_k total in let* values := skip_v total in ret (keys ++ values)) rows)
    (let* offsets := parse_offsets rows in
     let total := last_or_zero offsets in
     let* keys := k total in
     let* values := v total in
     let* rows_out := lift (split_rows (combine keys values) 0 offsets) in
     ret (map VMap rows_out)) (fun _ vs => blen vs = rows).
Proof.
  intros Hr Hk0 Hv0 Hka Hva Hk Hv.
  set (both := fun total => let* kv := (let* keys := k total in let* values := v total in ret (keys, values)) in
                            ret (combine (fst kv) (snd kv))).
  eapply follows_eq; [|apply (follows_rows (str "map offset") rows _ both VMap Hr)].
  - intros buf pos. unfold both. cbn. destruct (parse_offsets rows buf pos) as [[o p]|]; [|reflexivity].
    destruct (k _ buf p) as [[ks p1]|]; [|reflexivity]. now destruct (v _ buf p1) as [[vs p2]|].
  - intros data pos Hp Hm. unfold both. cbn. rewrite Hk0, Hv0 by assumption. reflexivity.
  - intros total Ht. specialize (Hka total Ht). specialize (Hva total Ht).
    apply advances_bind; [assumption|]. intros ks. apply advances_bind; [assumption|]. intros vs. apply advances_ret.
  - intros total Ht. specialize (Hka total Ht). specialize (Hva total Ht). eapply follows_map.
    + apply advances_bind; [assumption|]. intros ks. apply advances_bind; [assumption|]. intros vs. apply advances_ret.
    + apply (follows_pair _ _ _ _ _ _ Hka Hva (Hk total Ht) (Hv total Ht)).
    + intros l [ks vs] Hl [Hks Hvs]. apply follows_ret; [assumption|]. cbn in *. unfold blen in *. rewrite length_combine. lia.
Qed.

(** ** The strings of a column are found by the framing *)

Lemma shadows_nonempty rows (p : parser unit) (t : parser (list bytes)) : shadows p t -> shadows (nonzero rows p) (if rows =? 0 then ret [] else t).
Proof. intros H. unfold nonzero. destruct (rows =? 0); [apply shadows_ret|exact H]. Qed.

Lemma shadows_array name (p : Z -> parser unit) t rows :
  0 <= rows -> (forall total, 0 <= total -> shadows (p total) (t total)) ->
  shadows (array_of name p rows) (array_texts name t rows).
Proof.
  intros Hr H. apply shadows_bind; [now apply advances_skip_offsets|]. intros total.
  destruct (Z.ltb_spec 0 total); [apply H; lia|apply shadows_ret].
Qed.

Lemma shadows_string_rows rows :
  shadows (skip_string_rows rows (str "string value length")) (collect_n (Z.to_nat rows) string_text).
Proof.
  unfold skip_string_rows. induction (Z.to_nat rows) as [|n IH]; [apply shadows_ret|]. cbn [repeat_n collect_n].
  apply shadows_seq.
  - apply parse_varint_bind_advances. intros v Hv. apply lift_bind_advances. intros len H.
    apply map_err_inv, checked_string_len_inv in H as [-> _]. now apply advances_advance_pos.
  - apply shadows_bind; [advances|]. intros v. apply shadows_bind; [advances|]. intros len buf pos [] pos' _ _ H.
    exists (slice buf pos (pos + len)). cbn. now rewrite H.
  - intros _ s. now apply shadows_map.
Qed.

Lemma shadows_elements rows ts :
  Forall (fun t => advances (skip_column_data t rows) /\ shadows (skip_column_data t rows) (column_texts t rows)) ts ->
  shadows (for_each ts (fun t => skip_column_data t rows)) (map_each ts (fun t => column_texts t rows)).
Proof.
  induction 1 as [|t ts [Ha Ht] _ IH]; [apply shadows_ret|]. rewrite for_each_cons, map_each_cons.
  apply shadows_seq; [assumption..|]. intros _ l. now apply shadows_map.
Qed.

Lemma shadows_no_text ct rows :
  shadows (skip_column_data ct rows) (if rows =? 0 then ret [] else skip_column_data ct rows ;; ret ([] : list bytes)).
Proof.
  intros buf pos [] pos' Hpos Hbuf H. destruct (Z.eqb_spec rows 0) as [->|].
  - exists []. destruct ct; cbn in H |- *; congruence.
  - exists []. now erewrite parser_bind_ok by exact H.
Qed.

Lemma shadows_texts ct :
  wf_type ct = true -> forall rows, 0 <= rows -> shadows (skip_column_data ct rows) (column_texts ct rows).
Proof.
  type_induction ct.
  - intros t IH Hw rows Hr. apply shadows_nonempty. apply shadows_bind; [now apply advances_advance_pos|]. intros _. now apply IH.
  - intros t IH Hw rows Hr. apply shadows_nonempty, shadows_array; [assumption|]. now apply IH.
  - intros k v IHk IHv Hw rows Hr. cbn [wf_type] in Hw. apply andb_prop in Hw as [Hwk Hwv].
    apply shadows_nonempty, shadows_array; [assumption|]. intros total Ht. apply shadows_seq; [now apply advances_skip_column_data|auto|].
    intros _ ks. apply shadows_map. auto.
  - intros ts IH Hw rows Hr. apply shadows_nonempty, shadows_map, shadows_elements. cbn [wf_type] in Hw.
    rewrite forallb_forall in Hw. rewrite Forall_forall in *. intros t Ht. split; [|now apply IH; auto].
    apply advances_skip_column_data; auto.
  - intros t _ Hw rows Hr. now apply shadows_no_text.
  - intros ts _ Hw rows Hr. now apply shadows_no_text.
  - intros t. destruct t; try exact I; intros Hw rows Hr; try (now apply shadows_no_text).
    apply shadows_nonempty, shadows_string_rows.
Qed.

Lemma advances_array_texts name t rows :
  0 <= rows -> (forall total, 0 <= total -> advances (t total)) -> advances (array_texts name t rows).
Proof.
  intros Hr H. apply advances_bind; [now apply advances_skip_offsets|]. intros total.
  destruct (Z.ltb_spec 0 total); [apply H; lia|apply advances_ret].
Qed.

Lemma advances_texts ct : wf_type ct = true -> forall rows, 0 <= rows -> advances (column_texts ct rows).
Proof.
  assert (forall rows (t : parser (list bytes)), advances t -> advances (if rows =? 0 then ret [] else t)) as Hz.
  { intros rows t H. destruct (rows =? 0); [apply advances_ret|exact H]. }
  type_induction ct.
  - intros t IH Hw rows Hr. apply Hz, advances_bind; [now apply advances_advance_pos|]. intros _. now apply IH.
  - intros t IH Hw rows Hr. apply Hz, advances_array_texts; [assumption|]. now apply IH.
  - intros k v IHk IHv Hw rows Hr. cbn [wf_type] in Hw. apply andb_prop in Hw as [Hwk Hwv].
    apply Hz, advances_array_texts; [assumption|]. intros total Ht. apply advances_bind; [auto|]. intros ks.
    apply advances_bind; [auto|]. intros vs. apply advances_ret.
  - intros ts IH Hw rows Hr. cbn [wf_type] in Hw. rewrite forallb_forall in Hw. rewrite Forall_forall in IH.
    apply Hz, advances_bind; [|intros; apply advances_ret]. apply advances_map_each, Forall_forall. intros t Ht. now apply IH; auto.
  - intros t _ Hw rows Hr. apply Hz, advances_bind; [now apply advances_skip_column_data|intros; apply advances_ret].
  - intros ts _ Hw rows Hr. apply Hz, advances_bind; [now apply advances_skip_column_data|intros; apply advances_ret].
  - intros t. destruct t; try exact I; intros Hw rows Hr; apply Hz;
      try (apply advances_bind; [now apply advances_skip_column_data|intros; apply advances_ret]).
    apply advances_collect_n, advances_string_text.
Qed.

Lemma follows_tuple ts rows :
  0 <= rows -> forallb wf_type ts = true ->
  Forall (fun t => follows all_utf8 (column_texts t rows) (decode_column_values t rows) (fun _ vs => blen vs = rows)) ts ->
  follows all_utf8 (let* texts := map_each ts (fun t => column_texts t rows) in ret (concat texts))
    (map_each ts (fun t => decode_column_values t rows)) (fun _ cols => Forall (fun vs => blen vs = rows) cols).
Proof.
  intros Hr Hw IH. induction IH as [|t ts Ht _ IH]; [now apply follows_ret|].
  cbn [forallb] in *. apply andb_prop in Hw as [Hw Hws]. specialize (IH Hws).
  assert (advances (let* texts := map_each ts (fun t => column_texts t rows) in ret (concat texts))) as Ha.
  { apply advances_bind; [|intros; apply advances_ret]. apply advances_map_each, Forall_forall. intros x Hx.
    rewrite forallb_forall in Hws. apply advances_texts; auto. }
  pose proof (follows_pair _ _ _ _ _ _ (advances_texts t Hw rows Hr) Ha Ht IH) as Hp.
  intros buf pos l pos' Hpos Hbuf H. apply parser_bind_inv in H as (ll & p1 & H & E). cbn in E. injection E as <- <-.
  rewrite map_each_cons in H. rewrite map_each_cons. apply parser_bind_inv in H as (l1 & p2 & H1 & H).
  apply parser_bind_inv in H as (ls & p3 & H2 & E). cbn in E. injection E as <- <-.
  specialize (Hp buf pos (l1 ++ concat ls) p3 Hpos Hbuf). cbn [concat]. lapply Hp; clear Hp.
  - cbn. destruct (decode_column_values t rows buf pos) as [[vs q]|e]; [|auto].
    destruct (map_each ts (fun t => decode_column_values t rows) buf q) as [[cols q']|e]; [|auto]. cbn. intros (-> & Hl & Hvs & Hcols). auto.
  - erewrite parser_bind_ok by exact H1. erewrite parser_bind_ok; [reflexivity|]. now erewrite parser_bind_ok by exact H2.
Qed.

Lemma follows_skip_simple t rows :
  0 <= rows -> wf_type t = true -> decodable t = true ->
  match t with Nullable _ | Array _ | TMap _ _ | Tuple _ | LowCardinality _ | Variant _ | TString => False | _ => True end ->
  follows plain (skip_simple t rows) (decode_column_values t rows) (fun _ vs => blen vs = rows).
Proof.
  intros Hr Hw Hd Ht. destruct t; try contradiction; try discriminate Hd; cbn [skip_simple decode_column_values];
    try (apply follows_fixed; lia); try (now apply follows_bytes).
  - cbn [wf_type] in Hw. apply follows_fixed_strings; lia.
  - cbn [decodable] in Hd. repeat match goal with |- context [if ?b then _ else _] => destruct b eqn:? end;
      try (apply follows_fixed; lia). lia.
Qed.

(** The decoder of [Dynamic] values follows [skip_column_data]. *)
Lemma follows_decode ct :
  wf_type ct = true -> decodable ct = true -> forall rows, 0 <= rows ->
  follows all_utf8 (column_texts ct rows) (decode_column_values ct rows) (fun _ vs => blen vs = rows).
Proof.
  type_induction ct.
  - intros t IH Hw Hd rows Hr. apply follows_nonempty; [intros -> ? ? ? ?; now apply decode_zero|intros _].
    cbn [decode_column_values]. eapply follows_bind_plain; [now apply advances_advance_pos|now apply follows_exact|].
    intros [] nulls Hn. eapply follows_map; [now apply advances_texts|now apply IH|].
    intros l vs Hl Hvs. apply follows_ret; [assumption|]. unfold blen in *. rewrite length_map, length_combine. lia.
  - intros t IH Hw Hd rows Hr. apply follows_nonempty; [intros -> ? ? ? ?; now apply decode_zero|intros _].
    apply follows_rows; [assumption|intros; now apply decode_zero|now apply advances_texts|now apply IH].
  - intros k v IHk IHv Hw Hd rows Hr. apply follows_nonempty; [intros -> ? ? ? ?; now apply decode_zero|intros _].
    cbn [wf_type decodable] in *. apply andb_prop in Hw as [Hwk Hwv]. apply andb_prop in Hd as [Hdk Hdv].
    apply follows_entries; [assumption|intros; now apply decode_zero|intros; now apply decode_zero
      |now apply advances_texts|now apply advances_texts|now apply IHk|now apply IHv].
  - intros ts IH Hw Hd rows Hr. apply follows_nonempty; [intros -> ? ? ? ?; now apply decode_zero|intros _].
    cbn [wf_type decodable] in Hw, Hd. cbn [decode_column_values]. eapply follows_map; [|apply follows_tuple|].
    + apply advances_bind; [|intros; apply advances_ret]. apply advances_map_each, Forall_forall. intros x Hx.
      rewrite forallb_forall in Hw. apply advances_texts; auto.
    + assumption.
    + assumption.
    + rewrite forallb_forall in Hw, Hd. rewrite Forall_forall in *. auto.
    + intros l cols Hl _. apply follows_ret; [assumption|]. unfold blen. rewrite length_map, length_seq. lia.
  - discriminate.
  - discriminate.
  - destruct t; try exact I; intros Hw Hd rows Hr; try discriminate Hd;
      (apply follows_nonempty; [intros -> ? ? ? ?; now apply decode_zero|intros Hn]);
      try (apply follows_no_text; cbn [skip_column_data]; unfold nonzero; destruct (Z.eqb_spec rows 0); [lia|];
           apply follows_skip_simple; auto).
    eapply follows_weaken; [|apply follows_strings]. intros l vs [_ Hvs]. unfold blen. lia.
Qed.

(** ** Variant columns *)

(** Types without a state prefix are delimited the same way behind a prefix. *)
Lemma skip_body_decodable dyn ct :
  decodable ct = true -> forall s rows, parser_eq (skip_body_raw_with dyn ct s rows) (skip_column_data ct rows).
Proof.
  assert (forall rows (p q : parser unit), parser_eq p q -> parser_eq (nonzero rows p) (nonzero rows q)) as Hz.
  { intros rows p q E. unfold nonzero. now destruct (rows =? 0). }
  assert (forall name (f g : Z -> parser unit) rows, (forall n, parser_eq (f n) (g n)) ->
            parser_eq (array_of name f rows) (array_of name g rows)) as Ha.
  { intros name f g rows E. unfold array_of. apply bind_proper; [reflexivity|]. intros n.
    destruct (0 <? n); [apply E|reflexivity]. }
  type_induction ct; cbn [decodable].
  - intros t IH Hd s rows. apply Hz. apply bind_proper; [reflexivity|]. intros []. now apply IH.
  - intros t IH Hd s rows. apply Hz, Ha. intros n. now apply IH.
  - intros k v IHk IHv Hd s rows. apply andb_prop in Hd as [Hk Hv]. cbn [skip_body_raw_with skip_column_data]. apply Hz.
    set (ks := match s with SMap k v => (k, v) | _ => (SNone, SNone) end). destruct ks as [sk sv]. apply Ha.
    intros n. apply bind_proper; [now apply IHk|]. intros []. now apply IHv.
  - intros ts IH Hd s rows. cbn [skip_body_raw_with skip_column_data]. apply Hz.
    generalize (match s with STuple l => l | _ => [] end). clear s.
    induction IH as [|t ts Ht _ IH]; intros l; [reflexivity|]. cbn [forallb bodies] in *. apply andb_prop in Hd as [H1 H2].
    rewrite !for_each_cons. apply bind_proper; [now apply Ht|]. intros []. now apply IH.
  - discriminate.
  - discriminate.
  - destruct t; try exact I; try discriminate; intros; reflexivity.
Qed.

Lemma skip_prefix_decodable dyn ct buf pos :
  decodable ct = true -> exists s, skip_state_prefix_with dyn ct buf pos = Ok (s, pos).
Proof.
  type_induction ct; cbn [decodable skip_state_prefix_with].
  - intros t IH Hd. destruct (IH Hd) as [s E]. eexists. erewrite parser_bind_ok by exact E. reflexivity.
  - intros t IH Hd. destruct (IH Hd) as [s E]. eexists. erewrite parser_bind_ok by exact E. reflexivity.
  - intros k v IHk IHv Hd. apply andb_prop in Hd as [Hk Hv]. destruct (IHk Hk) as [s E]. destruct (IHv Hv) as [s' E'].
    eexists. erewrite parser_bind_ok by exact E. erewrite parser_bind_ok by exact E'. reflexivity.
  - intros ts IH Hd. enough (exists l, map_each ts (skip_state_prefix_with dyn) buf pos = Ok (l, pos)) as [l E].
    { eexists. erewrite parser_bind_ok by exact E. reflexivity. }
    induction IH as [|t ts Ht _ IH]; [now exists []|]. cbn [forallb] in Hd. apply andb_prop in Hd as [H1 H2].
    destruct (Ht H1) as [s E]. destruct (IH H2) as [l E']. eexists. rewrite map_each_cons.
    erewrite parser_bind_ok by exact E. erewrite parser_bind_ok by exact E'. reflexivity.
  - discriminate.
  - discriminate.
  - destruct t; try exact I; try discriminate; intros; eexists; reflexivity.
Qed.

Lemma skip_prefixes_decodable types buf pos :
  forallb decodable types = true -> exists l, map_each types skip_state_prefix buf pos = Ok (l, pos).
Proof.
  intros Hd. destruct (skip_prefix_decodable skip_dynamic_state (Tuple types) buf pos Hd) as [s E].
  cbn [skip_state_prefix_with] in E. apply parser_bind_inv in E as (l & p & E & E'). cbn in E'. inj. eauto.
Qed.

(** The value of row [i]: the next one of the column of its alternative, counting the
    rows of that alternative before it. *)
Definition placed (type_names : list bytes) (decoded : list (list DynamicFieldValue)) (offsets ds : list Z) (i : nat)
  : option DynamicTypedValue :=
  let d := nth i ds 0 in
  if blen decoded <=? d then None
  else Some (mkTyped d (nth (Z.to_nat d) type_names [])
               (nth (Z.to_nat (nth (Z.to_nat d) offsets 0) + count_occ Z.eq_dec (firstn i ds) d)
                    (nth (Z.to_nat d) decoded []) VNull)).

Lemma nth_incr_nth l i j : nth j (incr_nth l i) 0 = nth j l 0 + (if (j =? i)%nat && (i <? length l)%nat then 1 else 0).
Proof.
  revert i j; induction l as [|c l IH]; intros [|i] [|j]; cbn [incr_nth nth length Nat.eqb]; try (cbn; lia).
  - now rewrite andb_false_r.
  - rewrite IH. reflexivity.
Qed.

Lemma length_incr_nth l i : length (incr_nth l i) = length l.
Proof. revert i; induction l as [|c l IH]; intros [|i]; cbn; auto. Qed.

Lemma nonneg_nth l i : nonneg l -> 0 <= nth i l 0.
Proof.
  intros Hl. destruct (nth_in_or_default i l 0) as [Hin| ->]; [|lia].
  unfold nonneg in Hl. rewrite Forall_forall in Hl. now apply Hl.
Qed.

Lemma placed_next names decoded offsets d ds i :
  length offsets = length decoded -> nonneg offsets -> 0 <= d -> nonneg ds ->
  placed names decoded offsets (d :: ds) (S i) =
  placed names decoded (if blen decoded <=? d then offsets else incr_nth offsets (Z.to_nat d)) ds i.
Proof.
  intros Hlen Hoff Hd Hds. pose proof (nonneg_nth ds i Hds) as He. pose proof (nonneg_nth offsets (Z.to_nat d) Hoff) as Ho.
  unfold placed. cbn [nth firstn count_occ]. destruct (Z.leb_spec (blen decoded) (nth i ds 0)) as [|Hin]; [reflexivity|].
  destruct (Z.leb_spec (blen decoded) d) as [|Hd']; [now destruct (Z.eq_dec d (nth i ds 0)); [lia|]|].
  rewrite nth_incr_nth. unfold blen in Hd'. destruct (Nat.ltb_spec (Z.to_nat d) (length offsets)); [|lia].
  rewrite andb_true_r. destruct (Z.eq_dec d (nth i ds 0)) as [<-|Hne].
  - rewrite Nat.eqb_refl. do 3 f_equal. lia.
  - destruct (Nat.eqb_spec (Z.to_nat (nth i ds 0)) (Z.to_nat d)); [lia|]. now rewrite Z.add_0_r.
Qed.

Lemma place_rows_ok what names decoded ds : forall offsets,
  length offsets = length decoded -> nonneg offsets -> nonneg ds ->
  (forall d, 0 <= d < blen decoded ->
     nth (Z.to_nat d) offsets 0 + Z.of_nat (count_occ Z.eq_dec ds d) <= blen (nth (Z.to_nat d) decoded [])) ->
  place_rows what names decoded offsets ds = Ok (map (placed names decoded offsets ds) (seq 0 (length ds))).
Proof.
  induction ds as [|d ds IH]; intros offsets Hlen Hoff Hds Hfit; [reflexivity|]. inversion Hds as [|? ? Hd Hds']; subst.
  cbn [place_rows length seq map]. rewrite <- seq_shift, map_map.
  rewrite (map_ext _ _ (fun i => placed_next names decoded offsets d ds i Hlen Hoff Hd Hds')).
  unfold placed at 1. cbn [nth firstn count_occ]. rewrite Nat.add_0_r. destruct (Z.leb_spec (blen decoded) d) as [Hout|Hin].
  - rewrite IH; [reflexivity|assumption..|]. intros x Hx. specialize (Hfit x Hx). cbn [count_occ] in Hfit.
    now destruct (Z.eq_dec d x); [lia|].
  - pose proof (Hfit d (conj Hd Hin)) as Hf. cbn [count_occ] in Hf. destruct (Z.eq_dec d d) as [_|]; [|easy].
    pose proof (nonneg_nth offsets (Z.to_nat d) Hoff). unfold blen in Hin.
    rewrite (nth_error_nth' _ VNull) by (unfold blen in Hf; lia). cbn [ok_or bind result_monad].
    rewrite IH; [reflexivity|now rewrite length_incr_nth|now apply nonneg_incr|assumption|].
    intros x Hx. specialize (Hfit x Hx). rewrite nth_incr_nth. cbn [count_occ] in Hfit.
    destruct (Nat.ltb_spec (Z.to_nat d) (length offsets)); [|lia]. rewrite andb_true_r.
    destruct (Z.eq_dec d x) as [->|Hne]; [rewrite Nat.eqb_refl; lia|].
    destruct (Nat.eqb_spec (Z.to_nat x) (Z.to_nat d)); lia.
Qed.

Lemma variant_counts_occ n ds d :
  0 <= d < Z.of_nat n ->
  nth (Z.to_nat d) (variant_counts n ds) 0 = Z.of_nat (count_occ Z.eq_dec (map byte.unsigned ds) d).
Proof.
  intros Hd. unfold variant_counts.
  enough (forall l, length l = n -> nth (Z.to_nat d) (fold_left (fun counts d => incr_nth counts (Z.to_nat (byte.unsigned d))) ds l) 0 =
    nth (Z.to_nat d) l 0 + Z.of_nat (count_occ Z.eq_dec (map byte.unsigned ds) d)) as H.
  { rewrite H by apply repeat_length. rewrite nth_repeat. lia. }
  induction ds as [|x ds IH]; intros l Hl; [cbn; lia|]. cbn [fold_left map count_occ].
  rewrite IH by (now rewrite length_incr_nth). rewrite nth_incr_nth. pose proof (byte.unsigned_range x).
  destruct (Z.eq_dec (byte.unsigned x) d) as [->|Hne].
  - rewrite Nat.eqb_refl. destruct (Nat.ltb_spec (Z.to_nat d) (length l)); cbn [andb]; lia.
  - destruct (Nat.eqb_spec (Z.to_nat d) (Z.to_nat (byte.unsigned x))); cbn [andb]; lia.
Qed.

Lemma length_variant_counts n ds : length (variant_counts n ds) = n.
Proof.
  unfold variant_counts. enough (forall l, length (fold_left (fun counts d => incr_nth counts (Z.to_nat (byte.unsigned d))) ds l) = length l)
    as -> by apply repeat_length.
  induction ds as [|x ds IH]; intros l; [reflexivity|]. cbn [fold_left]. now rewrite IH, length_incr_nth.
Qed.

(** A decoder that follows the function delimiting its columns, for every row count. *)
Definition follows_each (texts : Z -> parser (list bytes)) (decode : Z -> parser (list DynamicFieldValue)) : Prop :=
  (forall data pos, 0 <= pos <= blen data -> blen data <= ISIZE_MAX -> decode 0 data pos = Ok ([], pos)) /\
  (forall n, 0 <= n -> advances (texts n)) /\
  (forall n, 0 <= n -> follows all_utf8 (texts n) (decode n) (fun _ vs => blen vs = n)).

Lemma advances_texts_counted texts decoders :
  Forall2 follows_each texts decoders -> forall counts, nonneg counts -> advances (texts_counted texts counts).
Proof.
  induction 1 as [|t d texts decoders (_ & Ha & _) _ IH]; intros [|c counts] Hc; try apply advances_ret.
  inversion Hc; subst. cbn [texts_counted]. apply advances_bind; [destruct (c =? 0); [apply advances_ret|auto]|].
  intros l. apply advances_bind; [auto|]. intros l'. apply advances_ret.
Qed.

Lemma follows_counted (texts : list (Z -> parser (list bytes))) (decoders : list (Z -> parser (list DynamicFieldValue))) :
  Forall2 follows_each texts decoders ->
  forall counts, length counts = length decoders -> nonneg counts ->
  follows all_utf8 (texts_counted texts counts) (decode_counted decoders counts) (fun _ cols => map blen cols = counts).
Proof.
  induction 1 as [|t decode texts decoders (H0 & Ha & Hf) Hall IH]; intros [|c counts] Hlen Hc; try discriminate.
  { now apply follows_ret. }
  inversion Hc; subst. injection Hlen as Hlen. cbn [texts_counted decode_counted].
  set (first := if c =? 0 then ret [] else t c).
  assert (advances first) as Ha1 by (unfold first; destruct (c =? 0); [apply advances_ret|auto]).
  assert (follows all_utf8 first (decode c) (fun _ vs => blen vs = c)) as Hf1.
  { unfold first. destruct (Z.eqb_spec c 0) as [->|]; [|auto]. intros buf pos a pos' Hpos Hbuf E. cbn in E. inj. now rewrite H0. }
  pose proof (advances_texts_counted _ _ Hall counts ltac:(assumption)) as Ha2.
  pose proof (follows_pair _ _ _ _ (fun vs => blen vs = c) (fun cols => map blen cols = counts) Ha1 Ha2 Hf1
                (IH counts Hlen ltac:(assumption))) as Hp.
  eapply follows_eq; [|eapply follows_map with (g := fun cs => ret (fst cs :: snd cs)); [|exact Hp|]].
  - intros buf pos. cbn. destruct (decode c buf pos) as [[vs p]|e]; [|reflexivity].
    now destruct (decode_counted decoders counts buf p) as [[cols q]|e].
  - apply advances_bind; [assumption|]. intros l. apply advances_bind; [assumption|]. intros l'. apply advances_ret.
  - intros l [vs cols] Hl [Hvs Hcols]. apply follows_ret; [assumption|]. cbn in *. now rewrite Hvs, Hcols.
Qed.

(** The discriminators are a slice of the column. *)
Lemma follows_slice {A B} V n (f : bytes -> parser A) (g : bytes -> parser B) (R : A -> B -> Prop) :
  0 <= n -> (forall ds, blen ds = n -> follows V (f ds) (g ds) R) ->
  follows V (let* start := get_pos in advance_pos n ;; let* ds := get_slice start (start + n) in f ds)
              (let* ds := parse_exact n in g ds) R.
Proof.
  intros Hn Hfg buf pos a pos' Hpos Hbuf H. apply parser_bind_inv in H as (start & p0 & E0 & H). cbn in E0. injection E0 as <- <-.
  apply parser_bind_inv in H as ([] & p1 & E1 & H). apply advance_pos_ok in E1 as [E1 Hle]; [|lia..]. injection E1 as ->.
  apply parser_bind_inv in H as (ds & p2 & E2 & H). cbn in E2. injection E2 as <- <-.
  rewrite (parser_bind_ok _ _ _ _ _ _ (parse_exact_ok n buf pos Hn (proj1 Hpos) Hle Hbuf)).
  apply Hfg in H; [assumption|rewrite blen_slice; lia|lia|assumption].
Qed.

Lemma follows_u64 name : follows plain (read_u64_le name) parse_u64_le (fun a b => a = b /\ 0 <= a <= U64_MAX).
Proof.
  intros buf pos a pos' Hpos Hbuf H. pose proof (read_u64_le_pos _ _ _ _ _ H) as (_ & _ & Ha).
  apply read_u64_le_ok in H as [H Hle]; [|lia..]. inj. unfold parse_u64_le.
  rewrite (parser_bind_ok _ _ _ _ _ _ (parse_exact_ok 8 buf pos ltac:(lia) (proj1 Hpos) Hle Hbuf)).
  split; [reflexivity|]. split; [reflexivity|]. split; [reflexivity|]. unfold U64_MAX. lia.
Qed.

Lemma follows_usize v name what :
  0 <= v <= U64_MAX ->
  follows plain (lift (skip_checked_usize v name)) (lift (checked_usize_local v what)) (fun a b => a = v /\ b = v).
Proof.
  intros Hv. unfold skip_checked_usize, checked_usize_local, usize_try_from, try_from_max.
  bool_cases; [|unfold U64_MAX, USIZE_MAX in *; lia]. now apply follows_ret.
Qed.

(** Whatever the counts, a value is never taken from another row. *)
Lemma place_rows_inv what names decoded ds : forall offsets vs,
  length offsets = length decoded -> nonneg offsets -> nonneg ds ->
  place_rows what names decoded offsets ds = Ok vs ->
  vs = map (placed names decoded offsets ds) (seq 0 (length ds)).
Proof.
  induction ds as [|d ds IH]; intros offsets vs Hlen Hoff Hds H; [cbn in H; now inj|].
  inversion Hds as [|? ? Hd Hds']; subst. cbn [place_rows length seq map] in *. rewrite <- seq_shift, map_map.
  rewrite (map_ext _ _ (fun i => placed_next names decoded offsets d ds i Hlen Hoff Hd Hds')).
  unfold placed at 1. cbn [nth firstn count_occ]. rewrite Nat.add_0_r. destruct (blen decoded <=? d).
  - apply result_bind_inv in H as (rest & H & E). inj. apply IH in H; [|assumption..]. now rewrite H.
  - apply result_bind_inv in H as (v & Hv & H). apply result_bind_inv in H as (rest & H & E). inj.
    apply IH in H; [|now rewrite length_incr_nth|now apply nonneg_incr|assumption]. rewrite H.
    destruct (nth_error _ _) as [x|] eqn:Ex; cbn in Hv; inj. apply nth_error_nth with (d := VNull) in Ex. now rewrite Ex.
Qed.

Lemma nonneg_bytes ds : nonneg (map byte.unsigned ds).
Proof. apply Forall_map, Forall_forall. intros b _. apply byte.unsigned_range. Qed.

Lemma decode_counted_length decoders : forall counts data pos cols pos',
  length counts = length decoders ->
  decode_counted decoders counts data pos = Ok (cols, pos') -> length cols = length decoders.
Proof.
  induction decoders as [|f decoders IH]; intros [|c counts] data pos cols pos' Hl H; try discriminate Hl; cbn [decode_counted] in H.
  - cbn in H. now inj.
  - apply parser_bind_inv in H as (col & p1 & _ & H). apply parser_bind_inv in H as (cs & p2 & H & E).
    cbn in E. inj. cbn. f_equal. eapply IH; [|exact H]. now injection Hl.
Qed.

Lemma variant_basic_inv decoders names rows data pos vs pos' :
  variant_basic decoders names rows data pos = Ok (vs, pos') ->
  exists ds cols,
    parse_exact rows data pos = Ok (ds, pos + rows) /\
    decode_counted decoders (variant_counts (length decoders) ds) data (pos + rows) = Ok (cols, pos') /\
    vs = map (placed names cols (repeat 0 (length decoders)) (map byte.unsigned ds)) (seq 0 (length ds)).
Proof.
  intros H. apply parser_bind_inv in H as (ds & p1 & H1 & H). apply parser_bind_inv in H as (cols & p2 & H2 & H).
  apply parser_lift_inv in H as [H ->]. destruct (parse_exact_inv _ _ _ _ _ H1) as [_ ->].
  exists ds, cols. conj; [assumption..|].
  apply place_rows_inv in H; [now rewrite length_map in H| |apply nonneg_zeros|apply nonneg_bytes].
  apply decode_counted_length in H2; [|apply length_variant_counts]. now rewrite repeat_length, H2.
Qed.

Lemma follows_each_types types :
  forallb wf_type types = true -> forallb decodable types = true ->
  Forall2 follows_each (map column_texts types) (map decode_column_values types).
Proof.
  induction types as [|t types IH]; intros Hw Hd; [constructor|].
  cbn [forallb map] in *. apply andb_prop in Hw as [Hw Hws]. apply andb_prop in Hd as [Hd Hds].
  constructor; [|auto]. split; [|split].
  - intros. now apply decode_zero.
  - now apply advances_texts.
  - now apply follows_decode.
Qed.

Lemma variant_counts_fit (cols : list (list DynamicFieldValue)) ds d :
  map blen cols = variant_counts (length cols) ds -> 0 <= d < blen cols ->
  nth (Z.to_nat d) (repeat 0 (length cols)) 0 + Z.of_nat (count_occ Z.eq_dec (map byte.unsigned ds) d)
  <= blen (nth (Z.to_nat d) cols []).
Proof.
  intros Hc Hd. rewrite nth_repeat, <- (variant_counts_occ (length cols)) by exact Hd. rewrite <- Hc.
  change 0 with (blen (@nil DynamicFieldValue)) at 2. rewrite map_nth. lia.
Qed.

Section VariantFollows.
Context (texts : list (Z -> parser (list bytes))) (decoders : list (Z -> parser (list DynamicFieldValue))).
Context (Heach : Forall2 follows_each texts decoders) (names : list bytes).

Lemma follows_basic rows :
  0 <= rows ->
  follows all_utf8 (let* start := get_pos in
               advance_pos rows ;;
               let* discriminators := get_slice start (start + rows) in
               texts_counted texts (variant_counts (length texts) discriminators))
              (variant_basic decoders names rows) (fun _ vs => blen vs = rows).
Proof.
  intros Hr. pose proof (Forall2_length Heach) as Hlen. apply follows_slice; [assumption|]. intros ds Hds.
  rewrite Hlen. pose proof (length_variant_counts (length decoders) ds) as Hvc.
  eapply follows_map; [|apply follows_counted; [exact Heach|exact Hvc|apply nonneg_variant_counts]|].
  { eapply advances_texts_counted; [exact Heach|apply nonneg_variant_counts]. }
  intros l cols Hutf Hcols. assert (length cols = length decoders) as Hl by (rewrite <- Hvc, <- Hcols; now rewrite length_map).
  rewrite place_rows_ok; [|now rewrite repeat_length|apply nonneg_zeros|apply nonneg_bytes|].
  - apply follows_ret; [assumption|]. unfold blen in *. rewrite !length_map, length_seq. lia.
  - intros d Hd. rewrite <- Hl. rewrite <- Hl in Hcols. now apply variant_counts_fit.
Qed.

Lemma follows_compact rows :
  0 <= rows ->
  follows all_utf8 (let* d := read_u64_le (str "Variant compact discriminator") in
               let* discriminator := lift (skip_checked_usize d (str "Variant compact discriminator")) in
               let* r := read_u64_le (str "Variant compact rows") in
               let* compact_rows := lift (skip_checked_usize r (str "Variant compact rows")) in
               if rows <? compact_rows
               then throw (Protocol (Msg "Variant compact rows {compact_rows} exceeds row count {rows}"
                                         [AZ compact_rows; AZ rows]))
               else if (discriminator <? blen texts) && (0 <? compact_rows)
               then nth (Z.to_nat discriminator) texts (fun _ => ret []) compact_rows
               else ret [])
              (variant_compact decoders names rows) (fun _ vs => blen vs = rows).
Proof.
  intros Hr. eapply follows_bind_plain; [apply advances_read_u64_le|apply follows_u64|]. intros d ? [<- Hd].
  eapply follows_bind_plain; [advances|now apply follows_usize|]. intros d1 d2 [-> ->].
  eapply follows_bind_plain; [apply advances_read_u64_le|apply follows_u64|]. intros r ? [<- Hr'].
  eapply follows_bind_plain; [advances|now apply follows_usize|]. intros r1 r2 [-> ->].
  destruct (rows <? r); [intros ? ? ? ? _ _ E; discriminate E|].
  assert (forall (x : parser (list (option DynamicTypedValue))),
    (forall buf pos, 0 <= pos <= blen buf -> blen buf <= ISIZE_MAX -> exists l, x buf pos = Ok (l, pos) /\ blen l = rows) ->
    follows all_utf8 (ret []) x (fun _ vs => blen vs = rows)) as Hret.
  { intros x Hx buf pos a pos' Hpos Hbuf E. cbn in E. inj. destruct (Hx buf pos' Hpos Hbuf) as (l & -> & Hl). auto. }
  pose proof (Forall2_length Heach) as Hlen.
  destruct (nth_error decoders (Z.to_nat d)) as [decode|] eqn:E.
  - pose proof (nth_error_lt _ _ _ E) as Hlt.
    destruct (nth_error texts (Z.to_nat d)) as [text|] eqn:E'; [|apply nth_error_None in E'; lia].
    destruct (Forall2_nth _ _ _ _ _ _ Heach E' E) as (H0 & Ha & Hf).
    replace (d <? blen texts) with true by (unfold blen; lia). cbn [andb].
    apply nth_error_nth with (d := fun _ => ret []) in E'. rewrite E'.
    destruct (Z.ltb_spec 0 r).
    + eapply follows_map; [now apply Ha|now apply Hf|]. intros l vs Hl _. apply follows_ret; [assumption|].
      unfold blen. rewrite length_map, length_seq. lia.
    + replace r with 0 by lia. apply Hret. intros buf pos Hpos Hbuf.
      rewrite (parser_bind_ok _ _ _ _ _ _ (H0 buf pos Hpos Hbuf)). cbn. eexists. split; [reflexivity|].
      unfold blen. rewrite length_map, length_seq. lia.
  - apply nth_error_None in E. replace (d <? blen texts) with false by (unfold blen; lia). cbn [andb].
    apply Hret. intros. eexists. split; [reflexivity|]. unfold blen. rewrite repeat_length. lia.
Qed.

Lemma follows_variant rows :
  0 <= rows ->
  follows all_utf8 (variant_texts texts rows) (variant_values decoders names rows) (fun _ vs => blen vs = rows).
Proof.
  intros Hr. unfold variant_texts, variant_values.
  eapply follows_bind_plain; [apply advances_read_u64_le|apply follows_u64|]. intros mode ? [<- _].
  destruct (mode =? 0); [now apply follows_basic|]. destruct (mode =? 1); [now apply follows_compact|].
  intros buf pos a pos' _ _ E. discriminate E.
Qed.
End VariantFollows.

(** The framing of an alternative finds its strings. *)
Definition shadows_each (skip : Z -> parser unit) (texts : Z -> parser (list bytes)) : Prop :=
  forall n, 0 <= n -> advances (skip n) /\ shadows (skip n) (texts n).

Lemma shadows_counted skips texts :
  Forall2 shadows_each skips texts ->
  forall counts, nonneg counts -> shadows (skip_counted skips counts) (texts_counted texts counts).
Proof.
  induction 1 as [|p t ps ts Hpt _ IH]; intros [|c counts] Hc; [apply shadows_ret..|].
  inversion Hc as [|? ? Hc0 Hcs]; subst. cbn [skip_counted texts_counted]. apply shadows_seq.
  - destruct (c =? 0); [apply advances_ret|now apply Hpt].
  - destruct (c =? 0); [apply shadows_ret|now apply Hpt].
  - intros _ l. apply shadows_map. auto.
Qed.

Lemma shadows_variant_body skips texts rows :
  Forall2 shadows_each skips texts -> 0 < rows -> skips <> [] ->
  shadows (variant_body skips rows) (variant_texts texts rows).
Proof.
  intros Heach Hr Hne. pose proof (Forall2_length Heach) as Hlen. unfold variant_body, variant_texts.
  apply shadows_bind; [apply advances_read_u64_le|]. intros mode.
  assert ((rows =? 0) || (blen skips =? 0) = false) as ->.
  { apply orb_false_iff. split; apply Z.eqb_neq; [lia|]. destruct skips; [easy|]. unfold blen. cbn [length]. lia. }
  destruct (mode =? 0); [|destruct (mode =? 1); [|intros buf pos a pos' _ _ E; discriminate E]].
  - apply shadows_bind; [advances|]. intros start. apply shadows_bind; [apply advances_advance_pos; lia|]. intros _.
    apply shadows_bind; [advances|]. intros ds. rewrite Hlen. apply shadows_counted; [exact Heach|apply nonneg_variant_counts].
  - apply shadows_bind; [apply advances_read_u64_le|]. intros d. apply shadows_bind; [advances|]. intros d'.
    apply shadows_bind; [apply advances_read_u64_le|]. intros r. apply shadows_bind; [advances|]. intros n.
    destruct (rows <? n); [intros buf pos a pos' _ _ E; discriminate E|].
    unfold blen. rewrite Hlen. destruct (Z.ltb_spec 0 n); [|rewrite andb_false_r; apply shadows_ret].
    destruct (Z.ltb_spec d' (Z.of_nat (length texts))); [|apply shadows_ret]. cbn [andb].
    assert (Z.to_nat d' < length texts)%nat as Hlt by (destruct skips; [easy|]; cbn [length] in *; lia).
    assert (Z.to_nat d' < length skips)%nat as Hlt' by lia.
    apply (Forall2_nth _ _ _ _ _ _ Heach (nth_error_nth' _ (fun _ => ret tt) Hlt') (nth_error_nth' _ (fun _ => ret []) Hlt)). lia.
Qed.

Lemma shadows_each_types states types :
  forallb wf_type types = true -> forallb decodable types = true ->
  Forall2 shadows_each (bodies skip_body_raw types states) (map column_texts types).
Proof.
  revert states; induction types as [|t types IH]; intros states Hw Hd; [constructor|].
  cbn [forallb bodies map] in *. apply andb_prop in Hw as [Hw Hws]. apply andb_prop in Hd as [Hd Hds].
  constructor; [|auto]. pose proof (skip_body_decodable skip_dynamic_body t Hd) as E. intros n Hn. split.
  - intros buf pos a pos' Hpos H. unfold skip_body_raw in H. rewrite E in H.
    now apply (advances_skip_column_data t Hw n Hn) in H.
  - intros buf pos a pos' Hpos Hbuf H. unfold skip_body_raw in H. rewrite E in H.
    now apply (shadows_texts t Hw n Hn buf pos a pos').
Qed.

Lemma shadows_variant types rows :
  types <> [] -> forallb wf_type types = true -> forallb decodable types = true -> 0 < rows ->
  shadows (skip_column_data (Variant types) rows) (variant_texts (map column_texts types) rows).
Proof.
  intros Hne Hw Hd Hr buf pos a pos' Hpos Hbuf H. cbn [skip_column_data] in H. unfold nonzero in H.
  destruct (Z.eqb_spec rows 0) as [|_]; [lia|].
  destruct (skip_prefixes_decodable types buf pos Hd) as [states E]. rewrite (parser_bind_ok _ _ _ _ _ _ E) in H.
  pose proof (shadows_each_types states types Hw Hd) as Heach.
  assert (bodies skip_body_raw types states <> []) as Hne' by (destruct types; [easy|discriminate]).
  exact (shadows_variant_body _ _ rows Heach Hr Hne' buf pos a pos' Hpos Hbuf H).
Qed.

(** * Properties *)





(** ** Where the decoder and the other readers of a column differ *)

(** The count of types in a [Dynamic] header is taken as a capacity before a single name
    is read. *)
Lemma dynamic_count_panics : parse_dynamic_type_header (write_varint (2 ^ 62)) 0 = Err ModelPanic.
Proof. vm_compute. reflexivity. Qed.

(** The bytes of [::1]: the column of addresses reads them in network order. *)
Lemma ipv6_value_reversed :
  let loopback := repeat x00 15 ++ [x01] in
  decode_column_values IPv6 1 loopback 0 = Ok ([VIpv6 (Ipv6 (Num (2 ^ 120)))], 16) /\
  (let* (c, _) := read_column ipv6 (new_context 1 loopback) in column_get (T := ipv6) c 0) = Ok (Ipv6 (Num 1)).
Proof. vm_compute. split; reflexivity. Qed.

(** A [Nothing] column in front of another one: the framing skips its bytes, the decoder
    reads them as the next column. *)
Lemma nothing_value_misaligned :
  skip_column_data (Tuple [Nothing; UInt8]) 2 [x00; x00; x07; x08] 0 = Ok (tt, 4) /\
  decode_column_values (Tuple [Nothing; UInt8]) 2 [x00; x00; x07; x08] 0 =
    Ok ([VTuple [VNull; VUInt8 (Num 0)]; VTuple [VNull; VUInt8 (Num 0)]], 2).
Proof. vm_compute. split; reflexivity. Qed.
