(* ===== verification/AnyColumn.v ===== *)
(** * Columns of a type known at run time

    src/column/any.rs and src/sync/column/any.rs: [AnyColumnData], the dispatch
    [read_column_by_type] over a parsed type, [to_typed], [plain_slice] and
    [into_owned]; and the accessors of [Block] in shared/block.rs that decode a column
    by name or index, for a type fixed at compile time or not.

    The two APIs have the same text but for enum columns, which the asynchronous one
    keeps as [AnyEnum]; [Api] selects the arm. *)

From Stdlib Require Import String ZArith Lia Bool List.
From Stdlib Require Import Strings.Byte.
From coqutil Require Import Byte.
From S2P Require Import Prelude Reader Limits Utf8 Wire TypeParser SkipColumn Arena ColumnReader Framing BlockReader BlockWriter Columns CompoundColumns DynamicVariant.
Import ListNotations.

Inductive Api := SyncApi | AsyncApi.

Record RawMapColumnData := mkRawMap { raw_offsets : list Z; keys_data : bytes; values_data : bytes }.
Record RawTupleColumnData := mkRawTuple { raw_elements : list bytes }.
Record EnumColumnData := mkEnumColumn { enum_values : list (num I64); enum_type_name : bytes }.

Inductive AnyColumnData :=
| AnyUInt8 (c : PlainColumnData (num U8))
| AnyUInt16 (c : PlainColumnData (num U16))
| AnyUInt32 (c : PlainColumnData (num U32))
| AnyUInt64 (c : PlainColumnData (num U64))
| AnyUInt128 (c : PlainColumnData (num U128))
| AnyInt8 (c : PlainColumnData (num I8))
| AnyInt16 (c : PlainColumnData (num I16))
| AnyInt32 (c : PlainColumnData (num I32))
| AnyInt64 (c : PlainColumnData (num I64))
| AnyInt128 (c : PlainColumnData (num I128))
| AnyFloat32 (c : PlainColumnData (num F32))
| AnyFloat64 (c : PlainColumnData (num F64))
| AnyString (c : StringColumnData)
| AnyFixedString (c : FixedStringColumnData)
| AnyDateTime64 (c : PlainColumnData datetime64)
| AnyDecimal32 (c : PlainColumnData decimal32)
| AnyDecimal64 (c : PlainColumnData decimal64)
| AnyDecimal128 (c : PlainColumnData decimal128)
| AnyDecimal256 (c : PlainColumnData decimal256)
| AnyUInt256 (c : PlainColumnData uint256)
| AnyInt256 (c : PlainColumnData int256)
| AnyBool (c : BoolColumnData)
| AnyDate (c : PlainColumnData date)
| AnyDateTime (c : PlainColumnData datetime)
| AnyUuid (c : PlainColumnData uuid)
| AnyIPv4 (c : PlainColumnData ipv4)
| AnyIPv6 (c : Ipv6ColumnData)
| AnyJSON (c : JsonColumnData)
| AnyVariant (c : VariantColumnData)
| AnyDynamic (c : DynamicColumnData)
| AnyAggregateFunction (c : DynamicColumnData)
| AnySimpleAggregateFunction (c : DynamicColumnData)
| AnyNullable (inner : AnyColumnData)
| AnyArray (inner : AnyColumnData)
| AnyEnum (c : EnumColumnData)
| AnyMap (c : RawMapColumnData)
| AnyTuple (c : RawTupleColumnData)
| AnyUnknown.

(** ** Lengths and names *)

(** The length of an array is that of its elements, the length of a tuple the number
    of its elements. *)
Fixpoint any_len (c : AnyColumnData) : Z :=
  match c with
  | AnyUInt8 c => plain_count c
  | AnyUInt16 c => plain_count c
  | AnyUInt32 c => plain_count c
  | AnyUInt64 c => plain_count c
  | AnyUInt128 c => plain_count c
  | AnyInt8 c => plain_count c
  | AnyInt16 c => plain_count c
  | AnyInt32 c => plain_count c
  | AnyInt64 c => plain_count c
  | AnyInt128 c => plain_count c
  | AnyFloat32 c => plain_count c
  | AnyFloat64 c => plain_count c
  | AnyString c => column_len (T := text) c
  | AnyFixedString c => column_len (T := fixed_string) c
  | AnyDateTime64 c => plain_count c
  | AnyDecimal32 c => plain_count c
  | AnyDecimal64 c => plain_count c
  | AnyDecimal128 c => plain_count c
  | AnyDecimal256 c => plain_count c
  | AnyUInt256 c => plain_count c
  | AnyInt256 c => plain_count c
  | AnyBool c => column_len (T := bool) c
  | AnyDate c => plain_count c
  | AnyDateTime c => plain_count c
  | AnyUuid c => plain_count c
  | AnyIPv4 c => plain_count c
  | AnyIPv6 c => column_len (T := ipv6) c
  | AnyJSON c => column_len (T := json_value) c
  | AnyVariant c => column_len (T := variant_value) c
  | AnyDynamic c => column_len (T := dynamic_value) c
  | AnyAggregateFunction c => column_len (T := dynamic_value) c
  | AnySimpleAggregateFunction c => column_len (T := dynamic_value) c
  | AnyNullable c => any_len c
  | AnyArray c => any_len c
  | AnyEnum c => blen (enum_values c)
  | AnyMap m => blen (raw_offsets m)
  | AnyTuple t => blen (raw_elements t)
  | AnyUnknown => 0
  end.

Definition any_is_empty (c : AnyColumnData) : bool := any_len c =? 0.

Fixpoint column_data_size (c : AnyColumnData) (n : Z) : option Z :=
  match c with
  | AnyUInt8 _ | AnyInt8 _ | AnyBool _ => Some n
  | AnyUInt16 _ | AnyInt16 _ | AnyDate _ => checked_mul n 2
  | AnyUInt32 _ | AnyInt32 _ | AnyFloat32 _ | AnyDateTime _ | AnyIPv4 _ => checked_mul n 4
  | AnyUInt64 _ | AnyInt64 _ | AnyFloat64 _ | AnyDateTime64 _ => checked_mul n 8
  | AnyUInt128 _ | AnyInt128 _ | AnyUuid _ | AnyIPv6 _ => checked_mul n 16
  | AnyUInt256 _ | AnyInt256 _ => checked_mul n 32
  | AnyDecimal32 _ => checked_mul n 4
  | AnyDecimal64 _ => checked_mul n 8
  | AnyDecimal128 _ => checked_mul n 16
  | AnyDecimal256 _ => checked_mul n 32
  | AnyFixedString _ => None
  | AnyString _ | AnyJSON _ => None
  | AnyNullable inner => let* s := column_data_size inner n in checked_add s n
  | AnyArray inner => let* _ := column_data_size inner 0 in Some 0
  | _ => None
  end.

Definition any_type_name (c : AnyColumnData) : bytes :=
  str match c with
      | AnyUInt8 _ => "UInt8"
      | AnyUInt16 _ => "UInt16"
      | AnyUInt32 _ => "UInt32"
      | AnyUInt64 _ => "UInt64"
      | AnyUInt128 _ => "UInt128"
      | AnyInt8 _ => "Int8"
      | AnyInt16 _ => "Int16"
      | AnyInt32 _ => "Int32"
      | AnyInt64 _ => "Int64"
      | AnyInt128 _ => "Int128"
      | AnyFloat32 _ => "Float32"
      | AnyFloat64 _ => "Float64"
      | AnyString _ => "String"
      | AnyFixedString _ => "FixedString"
      | AnyBool _ => "Bool"
      | AnyDate _ => "Date"
      | AnyDateTime _ => "DateTime"
      | AnyUuid _ => "Uuid"
      | AnyIPv4 _ => "IPv4"
      | AnyIPv6 _ => "IPv6"
      | AnyJSON _ => "JSON"
      | AnyVariant _ => "Variant"
      | AnyDynamic _ => "Dynamic"
      | AnyAggregateFunction _ => "AggregateFunction"
      | AnySimpleAggregateFunction _ => "SimpleAggregateFunction"
      | AnyDateTime64 _ => "DateTime64"
      | AnyDecimal32 _ => "Decimal32"
      | AnyDecimal64 _ => "Decimal64"
      | AnyDecimal128 _ => "Decimal128"
      | AnyDecimal256 _ => "Decimal256"
      | AnyUInt256 _ => "UInt256"
      | AnyInt256 _ => "Int256"
      | AnyNullable _ => "Nullable"
      | AnyArray _ => "Array"
      | AnyEnum _ => "Enum"
      | AnyMap _ => "Map"
      | AnyTuple _ => "Tuple"
      | AnyUnknown => "Unknown"
      end.

(** ** Reading by type *)

(** [ctx.read_exact(ctx.buf.len() - ctx.pos)] *)
Definition read_remaining : context bytes :=
  let* ctx := get_ctx in
  if blen (ctx_buf ctx) <? ctx_pos ctx then lift (Err ModelPanic)
  else ctx_read_exact (blen (ctx_buf ctx) - ctx_pos ctx).

(** Read a column and return the bytes it takes: [&ctx.buf[start..end]]. *)
Definition column_bytes (column : context AnyColumnData) : context bytes :=
  let* before := get_ctx in
  column ;;
  let* after := get_ctx in
  lift (index_slice (ctx_buf after) (ctx_pos before) (ctx_pos after)).

(** The arms of the compound types, with the readers of their components. *)
Definition any_nullable (inner : context AnyColumnData) : context AnyColumnData :=
  let* n := get_rows in
  ctx_read_exact n ;;
  let* inner := inner in
  ret (AnyNullable inner).

Definition any_array (inner : context AnyColumnData) : context AnyColumnData :=
  let* n := get_rows in
  if n =? 0 then ret (AnyArray AnyUnknown)
  else
    let* offsets := read_offsets in
    let* inner := with_rows (last_offset offsets) inner in
    ret (AnyArray inner).

Definition any_map (key value : context AnyColumnData) : context AnyColumnData :=
  let* n := get_rows in
  if n =? 0 then ret (AnyMap (mkRawMap [] [] []))
  else
    let* offsets := read_offsets in
    let* (keys, values) := with_rows (last_offset offsets)
                             (let* keys := column_bytes key in
                              let* values := column_bytes value in
                              ret (keys, values)) in
    ret (AnyMap (mkRawMap offsets keys values)).

Definition any_tuple (elements : list (context AnyColumnData)) : context AnyColumnData :=
  let* slices := map_each elements column_bytes in
  ret (AnyTuple (mkRawTuple slices)).

Definition any_fixed_string (n : Z) : context AnyColumnData :=
  let* data := read_rows_bytes n in
  let* count := get_rows in
  ret (AnyFixedString (mkFixedStrings data n count)).

(** [<$ty>::read_column(ctx).map(AnyColumnData::$any)] *)
Definition any_of {A} (column : context A) (wrap : A -> AnyColumnData) : context AnyColumnData :=
  let* c := column in ret (wrap c).

(** [for i in 0..n { values.push(col.get(i).unwrap_or(0) as i64); }] *)
Definition values_or_zero {k} (c : PlainColumnData (num k)) (n : Z) : list (num I64) :=
  map (fun i => match plain_get c (Z.of_nat i) with Ok v => Num (num_val v) | Err _ => Num 0 end)
      (seq 0 (Z.to_nat n)).

Definition any_enum {k} (column : context (PlainColumnData (num k))) : context AnyColumnData :=
  let* n := get_rows in
  let* col := column in
  ret (AnyEnum (mkEnumColumn (values_or_zero col n) [])).

(** The calls for [Tuple(vec![Float64, Float64])], [Array(Point)], ... *)
Definition any_point : context AnyColumnData :=
  any_tuple [any_of (read_column (num F64)) AnyFloat64; any_of (read_column (num F64)) AnyFloat64].
Definition any_ring : context AnyColumnData := any_array any_point.
Definition any_polygon : context AnyColumnData := any_array any_ring.

Fixpoint read_column_by_type (api : Api) (ct : ColumnType) : context AnyColumnData :=
  match ct with
  | UInt8 => any_of (read_column (num U8)) AnyUInt8
  | UInt16 => any_of (read_column (num U16)) AnyUInt16
  | UInt32 => any_of (read_column (num U32)) AnyUInt32
  | UInt64 => any_of (read_column (num U64)) AnyUInt64
  | UInt128 => any_of (read_column (num U128)) AnyUInt128
  | Int8 => any_of (read_column (num I8)) AnyInt8
  | Int16 => any_of (read_column (num I16)) AnyInt16
  | Int32 => any_of (read_column (num I32)) AnyInt32
  | Int64 => any_of (read_column (num I64)) AnyInt64
  | Int128 => any_of (read_column (num I128)) AnyInt128
  | Float32 => any_of (read_column (num F32)) AnyFloat32
  | Float64 => any_of (read_column (num F64)) AnyFloat64
  | UInt256 => any_of (read_column uint256) AnyUInt256
  | Int256 => any_of (read_column int256) AnyInt256
  | TBool => any_of (read_column bool) AnyBool
  | Date => any_of (read_column date) AnyDate
  | DateTime => any_of (read_column datetime) AnyDateTime
  | DateTime64 _ => any_of (read_column datetime64) AnyDateTime64
  | IPv4 => any_of (read_column ipv4) AnyIPv4
  | IPv6 => any_of (read_column ipv6) AnyIPv6
  | UUID => any_of (read_column uuid) AnyUuid
  | Time => any_of (read_column datetime) AnyDateTime
  | Time64 _ => any_of (read_column datetime64) AnyDateTime64
  | JSON => any_of (read_column json_value) AnyJSON
  | Variant _ => any_of (read_column variant_value) AnyVariant
  | Dynamic => any_of (read_column dynamic_value) AnyDynamic
  | TString => any_of (read_column text) AnyString
  | FixedString n => any_fixed_string n
  | Nullable inner => any_nullable (read_column_by_type api inner)
  | Array inner => any_array (read_column_by_type api inner)
  | TMap k v => any_map (read_column_by_type api k) (read_column_by_type api v)
  | LowCardinality inner => read_column_by_type api inner
  | Date32 => any_of (read_column (num I32)) AnyInt32
  | Nothing =>
      let* n := get_rows in
      ctx_read_exact n ;;
      ret AnyUnknown
  | AggregateFunction | SimpleAggregateFunction =>
      let* data := read_remaining in
      let* n := get_rows in
      ret (AnyAggregateFunction (new_dynamic_column data n))
  | Enum8 =>
      match api with
      | SyncApi => any_of (read_column (num I8)) AnyInt8
      | AsyncApi => any_enum (read_column (num I8))
      end
  | Enum16 =>
      match api with
      | SyncApi => any_of (read_column (num I16)) AnyInt16
      | AsyncApi => any_enum (read_column (num I16))
      end
  | Decimal p _ =>
      if p <=? 9 then any_of (read_column decimal32) AnyDecimal32
      else if p <=? 18 then any_of (read_column decimal64) AnyDecimal64
      else if p <=? 38 then any_of (read_column decimal128) AnyDecimal128
      else any_of (read_column decimal256) AnyDecimal256
  | Tuple elems => any_tuple (map (read_column_by_type api) elems)
  | Point => any_point
  | Ring => any_ring
  | Polygon => any_polygon
  | MultiPolygon => any_array any_polygon
  | Other _ => read_remaining ;; ret AnyUnknown
  end.

(** ** Typed access

    The Rust types [to_typed] and [plain_slice] recognize by their [TypeId]; [ROther] is
    any other one. *)
Inductive rust_type :=
| RNum (k : prim) | RBool | RDate | RDateTime | RUuid | RIpv4 | RIpv6 | RDateTime64Value
| RDecimal32 | RDecimal64 | RDecimal128 | RDecimal256 | RUInt256 | RInt256
| RString | RFixedStringBytes | RJsonValue | RVariantValue | RDynamicValue
| ROther.

Definition rust_value (t : rust_type) : Type :=
  match t with
  | RNum k => num k
  | RBool => bool
  | RDate => date
  | RDateTime => datetime
  | RUuid => uuid
  | RIpv4 => ipv4
  | RIpv6 => ipv6
  | RDateTime64Value => datetime64
  | RDecimal32 => decimal32
  | RDecimal64 => decimal64
  | RDecimal128 => decimal128
  | RDecimal256 => decimal256
  | RUInt256 => uint256
  | RInt256 => int256
  | RString => text
  | RFixedStringBytes => fixed_string
  | RJsonValue => json_value
  | RVariantValue => variant_value
  | RDynamicValue => dynamic_value
  | ROther => Empty_set
  end.

(** The two arms of the asynchronous API that narrow an enum value. *)
Definition enum_get (k : prim) (what : string) (c : EnumColumnData) (row_index : Z) : result error (num k) :=
  let* value := ok_or (nth_error (enum_values c) (Z.to_nat row_index))
                      (Protocol (Msg "Enum: index {row_index} out of bounds (len {})"
                                     [AZ row_index; AZ (blen (enum_values c))])) in
  let bits := 8 * prim_size k in
  if (- 2 ^ (bits - 1) <=? num_val value) && (num_val value <? 2 ^ (bits - 1)) then Ok (Num (num_val value))
  else Err (Protocol (Msg what [AZ (num_val value)])).

Section ToTyped.
(** The text of [std::any::type_name::<T>()]. *)
Context (requested : bytes).

Definition mismatch {A} (c : AnyColumnData) : result error A :=
  Err (Protocol (Msg "type mismatch: cannot read {} as {}" [AS (any_type_name c); AS requested])).

Definition num_to_typed (k : prim) (c : AnyColumnData) (i : Z) : result error (num k) :=
  match k, c with
  | U8, AnyUInt8 col => plain_get col i
  | U16, AnyUInt16 col => plain_get col i
  | U32, AnyUInt32 col => plain_get col i
  | U64, AnyUInt64 col => plain_get col i
  | U128, AnyUInt128 col => plain_get col i
  | I8, AnyInt8 col => plain_get col i
  | I16, AnyInt16 col => plain_get col i
  | I32, AnyInt32 col => plain_get col i
  | I64, AnyInt64 col => plain_get col i
  | I128, AnyInt128 col => plain_get col i
  | F32, AnyFloat32 col => plain_get col i
  | F64, AnyFloat64 col => plain_get col i
  | I8, AnyEnum col => enum_get I8 "Enum value {value} does not fit i8" col i
  | I16, AnyEnum col => enum_get I16 "Enum value {value} does not fit i16" col i
  | _, _ => mismatch c
  end.

(** Between equal types the size and alignment test of [copy_value_checked] passes and
    the copy is the value. *)
Definition to_typed (t : rust_type) (c : AnyColumnData) (i : Z) : result error (rust_value t) :=
  match t return result error (rust_value t) with
  | RNum k => num_to_typed k c i
  | RBool => match c with AnyBool col => column_get (T := bool) col i | _ => mismatch c end
  | RDate => match c with AnyDate col => plain_get col i | _ => mismatch c end
  | RDateTime => match c with AnyDateTime col => plain_get col i | _ => mismatch c end
  | RUuid => match c with AnyUuid col => plain_get col i | _ => mismatch c end
  | RIpv4 => match c with AnyIPv4 col => plain_get col i | _ => mismatch c end
  | RIpv6 => match c with AnyIPv6 col => column_get (T := ipv6) col i | _ => mismatch c end
  | RDateTime64Value => match c with AnyDateTime64 col => plain_get col i | _ => mismatch c end
  | RDecimal32 => match c with AnyDecimal32 col => plain_get col i | _ => mismatch c end
  | RDecimal64 => match c with AnyDecimal64 col => plain_get col i | _ => mismatch c end
  | RDecimal128 => match c with AnyDecimal128 col => plain_get col i | _ => mismatch c end
  | RDecimal256 => match c with AnyDecimal256 col => plain_get col i | _ => mismatch c end
  | RUInt256 => match c with AnyUInt256 col => plain_get col i | _ => mismatch c end
  | RInt256 => match c with AnyInt256 col => plain_get col i | _ => mismatch c end
  | RString => match c with AnyString col => column_get (T := text) col i | _ => mismatch c end
  | RFixedStringBytes => match c with AnyFixedString col => column_get (T := fixed_string) col i | _ => mismatch c end
  | RJsonValue => match c with AnyJSON col => column_get (T := json_value) col i | _ => mismatch c end
  | RVariantValue => match c with AnyVariant col => column_get (T := variant_value) col i | _ => mismatch c end
  | RDynamicValue =>
      match c with
      | AnyDynamic col | AnyAggregateFunction col | AnySimpleAggregateFunction col =>
          column_get (T := dynamic_value) col i
      | _ => mismatch c
      end
  | ROther => mismatch c
  end.
End ToTyped.

(** [plain_slice], for a column buffer at address [addr]. *)
Definition num_plain_slice (addr : Z) (k : prim) (c : AnyColumnData) : option (list (num k)) :=
  match k, c with
  | U8, AnyUInt8 col => plain_as_slice addr col
  | U16, AnyUInt16 col => plain_as_slice addr col
  | U32, AnyUInt32 col => plain_as_slice addr col
  | U64, AnyUInt64 col => plain_as_slice addr col
  | U128, AnyUInt128 col => plain_as_slice addr col
  | I8, AnyInt8 col => plain_as_slice addr col
  | I16, AnyInt16 col => plain_as_slice addr col
  | I32, AnyInt32 col => plain_as_slice addr col
  | I64, AnyInt64 col => plain_as_slice addr col
  | I128, AnyInt128 col => plain_as_slice addr col
  | F32, AnyFloat32 col => plain_as_slice addr col
  | F64, AnyFloat64 col => plain_as_slice addr col
  | _, _ => None
  end.

Definition plain_slice (addr : Z) (t : rust_type) (c : AnyColumnData) : option (list (rust_value t)) :=
  match t return option (list (rust_value t)) with
  | RNum k => num_plain_slice addr k c
  | RDateTime64Value => match c with AnyDateTime64 col => plain_as_slice addr col | _ => None end
  | RDecimal32 => match c with AnyDecimal32 col => plain_as_slice addr col | _ => None end
  | RDecimal64 => match c with AnyDecimal64 col => plain_as_slice addr col | _ => None end
  | RDecimal128 => match c with AnyDecimal128 col => plain_as_slice addr col | _ => None end
  | RDecimal256 => match c with AnyDecimal256 col => plain_as_slice addr col | _ => None end
  | RUInt256 => match c with AnyUInt256 col => plain_as_slice addr col | _ => None end
  | RInt256 => match c with AnyInt256 col => plain_as_slice addr col | _ => None end
  | RDate => match c with AnyDate col => plain_as_slice addr col | _ => None end
  | RDateTime => match c with AnyDateTime col => plain_as_slice addr col | _ => None end
  | RUuid => match c with AnyUuid col => plain_as_slice addr col | _ => None end
  | RIpv4 => match c with AnyIPv4 col => plain_as_slice addr col | _ => None end
  | _ => None
  end.

(** ** Owned columns (synchronous API) *)

Inductive OwnedColumnData :=
| OwnedUInt (v : list (num U64))
| OwnedInt (v : list (num I64))
| OwnedFloat (v : list (num F64))
| OwnedString (v : list bytes)
| OwnedBool (v : list bool)
| OwnedNull (n : Z)
| OwnedUnknown.

(** [v as f64] of an [f32]: exact; a NaN keeps its sign and payload and is quiet. *)
Definition f64_of_f32 (v : num F32) : num F64 :=
  let b := num_val v in
  let sign := Z.shiftl (Z.shiftr b 31) 63 in
  let e := Z.land (Z.shiftr b 23) 255 in
  let m := Z.land b (2 ^ 23 - 1) in
  let k := Z.log2 m in
  Num (sign +
       if e =? 255 then
         Z.shiftl 2047 52 + Z.shiftl (if m =? 0 then 0 else Z.lor m (2 ^ 22)) 29
       else if negb (e =? 0) then Z.shiftl (e - 127 + 1023) 52 + Z.shiftl m 29
       else if m =? 0 then 0
       else Z.shiftl (k - 149 + 1023) 52 + Z.shiftl (m - 2 ^ k) (52 - k)).

Fixpoint concat_sep (sep : bytes) (l : list bytes) : bytes :=
  match l with
  | [] => []
  | [x] => x
  | x :: l => x ++ sep ++ concat_sep sep l
  end.

(** [Ipv4Addr] and [Ipv6Addr] as text. *)
Definition ipv4_to_string (octets : bytes) : bytes :=
  concat_sep (str ".") (map (fun b => show (byte.unsigned b)) octets).

(** [{:x}] of a 16-bit segment. *)
Definition hex_segment (s : Z) : bytes :=
  let digits := [s / 4096; s / 256 mod 16; s / 16 mod 16; s mod 16] in
  map hex_digit ((fix trim l := match l with
                               | [d] => [d]
                               | d :: l => if d =? 0 then trim l else d :: l
                               | [] => []
                               end) digits).

Fixpoint segments (l : bytes) : list Z :=
  match l with
  | a :: b :: l => (byte.unsigned a * 256 + byte.unsigned b) :: segments l
  | _ => []
  end.

(** The scan for the longest run of zero segments: (start, length). *)
Fixpoint longest_zeroes (i : Z) (current longest : Z * Z) (l : list Z) : Z * Z :=
  match l with
  | [] => longest
  | s :: l =>
      if s =? 0 then
        let start := if snd current =? 0 then i else fst current in
        let current := (start, snd current + 1) in
        longest_zeroes (i + 1) current (if snd longest <? snd current then current else longest) l
      else longest_zeroes (i + 1) (0, 0) longest l
  end.

Definition fmt_segments (l : list Z) : bytes := concat_sep (str ":") (map hex_segment l).

Definition ipv6_to_string (octets : bytes) : bytes :=
  if (from_le (take 10 octets) =? 0) && (from_le (slice octets 10 12) =? 65535)
  then str "::ffff:" ++ ipv4_to_string (drop 12 octets)
  else
    let l := segments octets in
    let (start, len) := longest_zeroes 0 (0, 0) (0, 0) l in
    if 1 <? len then fmt_segments (take start l) ++ str "::" ++ fmt_segments (drop (start + len) l)
    else fmt_segments l.

(** [for i in 0..len { v.push(get(i).map(f).unwrap_or(dflt)); }]; a panic of [get] is
    one of the loop. *)
Definition each_or {A B} (len : Z) (get : Z -> result error A) (f : A -> B) (dflt : B) : result error (list B) :=
  map_each (seq 0 (Z.to_nat len)) (fun i =>
    match get (Z.of_nat i) with
    | Ok a => Ok (f a)
    | Err ModelPanic => Err ModelPanic
    | Err _ => Ok dflt
    end).

(** The numeric [as] and [From] conversions that keep the value. *)
Definition widen {j k} (v : num j) : num k := Num (num_val v).

Fixpoint into_owned (c : AnyColumnData) : result error OwnedColumnData :=
  let len := any_len c in
  match c with
  | AnyUInt8 col => let* v := each_or len (plain_get col) widen (Num 0) in Ok (OwnedUInt v)
  | AnyUInt16 col => let* v := each_or len (plain_get col) widen (Num 0) in Ok (OwnedUInt v)
  | AnyUInt32 col => let* v := each_or len (plain_get col) widen (Num 0) in Ok (OwnedUInt v)
  | AnyUInt64 col => let* v := each_or len (plain_get col) (fun v => v) (Num 0) in Ok (OwnedUInt v)
  | AnyInt8 col => let* v := each_or len (plain_get col) widen (Num 0) in Ok (OwnedInt v)
  | AnyInt16 col => let* v := each_or len (plain_get col) widen (Num 0) in Ok (OwnedInt v)
  | AnyInt32 col => let* v := each_or len (plain_get col) widen (Num 0) in Ok (OwnedInt v)
  | AnyInt64 col => let* v := each_or len (plain_get col) (fun v => v) (Num 0) in Ok (OwnedInt v)
  | AnyFloat32 col => let* v := each_or len (plain_get col) f64_of_f32 (Num 0) in Ok (OwnedFloat v)
  | AnyFloat64 col => let* v := each_or len (plain_get col) (fun v => v) (Num 0) in Ok (OwnedFloat v)
  | AnyString col => let* v := each_or len (str_get_string col) text_bytes [] in Ok (OwnedString v)
  | AnyFixedString col => let* v := each_or len (fs_get_bytes col) from_utf8_lossy [] in Ok (OwnedString v)
  | AnyBool col => let* v := each_or len (bool_get col) (fun v => v) false in Ok (OwnedBool v)
  | AnyDate col => let* v := each_or len (plain_get col) (fun d => widen (date_days d)) (Num 0) in Ok (OwnedInt v)
  | AnyDateTime col => let* v := each_or len (plain_get col) (fun d => widen (datetime_secs d)) (Num 0) in Ok (OwnedInt v)
  | AnyDateTime64 col => let* v := each_or len (plain_get col) datetime64_val (Num 0) in Ok (OwnedInt v)
  | AnyUuid col => let* v := each_or len (plain_get col) to_hyphenated [] in Ok (OwnedString v)
  | AnyIPv4 col => let* v := each_or len (plain_get col) (fun ip => ipv4_to_string (ipv4_to_std ip)) [] in Ok (OwnedString v)
  | AnyIPv6 col => let* v := each_or len (ipv6_get col) (fun ip => ipv6_to_string (ipv6_to_std ip)) [] in Ok (OwnedString v)
  | AnyJSON col => let* v := each_or len (json_get_string col) (fun s => s) [] in Ok (OwnedString v)
  | AnyNullable inner | AnyArray inner => into_owned inner
  | AnyMap _ | AnyTuple _ => Ok (OwnedNull len)
  | AnyUInt128 _ | AnyInt128 _ | AnyDecimal32 _ | AnyDecimal64 _ | AnyDecimal128 _ | AnyDecimal256 _
  | AnyUInt256 _ | AnyInt256 _ | AnyVariant _ | AnyDynamic _ | AnyAggregateFunction _
  | AnySimpleAggregateFunction _ => Ok (if len =? 0 then OwnedUnknown else OwnedNull len)
  (* the synchronous API has no such column *)
  | AnyEnum _ => Ok OwnedUnknown
  | AnyUnknown => Ok OwnedUnknown
  end.

(** ** The columns of a block *)

Definition find_column (block : Block) (wanted : bytes) : result error ColumnInfo :=
  ok_or (List.find (fun c => bytes_eqb (name c) wanted) (columns block))
        (Protocol (Msg "column '{name}' not found" [AS wanted])).

Definition column_at (block : Block) (index : Z) : result error ColumnInfo :=
  ok_or (nth_error (columns block) (Z.to_nat index))
        (Protocol (Msg "column at index {index} not found" [AZ index])).

(** Decode a column in a fresh context over its buffer. *)
Definition decode_column {A} (block : Block) (info : ColumnInfo) (column : context A) : result error A :=
  let* (c, _) := column (new_context (rows block) (column_buf info)) in
  Ok c.

Definition column_by_index (T : Type) `{ClickHouseColumn T} (block : Block) (index : Z) : result error (ColumnData T) :=
  let* info := column_at block index in
  decode_column block info (read_column T).

Definition column (T : Type) `{ClickHouseColumn T} (block : Block) (wanted : bytes) : result error (ColumnData T) :=
  let* info := find_column block wanted in
  decode_column block info (read_column T).

Definition block_variant_column (block : Block) (wanted : bytes) : result error VariantColumnData :=
  let* info := find_column block wanted in
  variant_read_native (type_name info) (rows block) (column_buf info).

Definition block_dynamic_column (block : Block) (wanted : bytes) : result error DynamicColumnData :=
  let* info := find_column block wanted in
  if negb (bytes_eqb (type_name info) (str "Dynamic"))
  then Err (Protocol (Msg "expected Dynamic column '{name}', got {}" [AS wanted; AS (type_name info)]))
  else dynamic_read_native (rows block) (column_buf info).

Definition read_column_by_index (api : Api) (block : Block) (index : Z) : result error AnyColumnData :=
  let* info := column_at block index in
  let* ct := map_err (fun e => Protocol (Msg "bad type '{}': {e}" [AS (type_name info); AM e]))
                     (parse_type (type_name info)) in
  decode_column block info (read_column_by_type api ct).

Definition read_column_by_name (api : Api) (block : Block) (wanted : bytes) : result error AnyColumnData :=
  let* info := find_column block wanted in
  let* ct := map_err (fun e => Protocol (Msg "cannot parse type '{}': {e}" [AS (type_name info); AM e]))
                     (parse_type (type_name info)) in
  decode_column block info (read_column_by_type api ct).

Definition block_row_count (block : Block) : Z := rows block.
Definition block_column_count (block : Block) : Z := blen (columns block).

(** [Block::to_owned]: the buffers are copied. *)
Definition block_to_owned (block : Block) : Block :=
  mkBlock (map (fun c => mkColumnInfo (name c) (type_name c) (data c)
                           (if negb (blen (lc_materialized c) =? 0) then lc_materialized c else []))
               (columns block)) (rows block).

(** * Well-typed columns *)

(** A column of [n] rows: every row can be fetched, an index beyond them is a protocol
    error. *)
Definition rows_are {A} (n len : Z) (get : Z -> result error A) : Prop :=
  len = n /\
  forall i, 0 <= i ->
  if i <? n then exists v, get i = Ok v else exists m, get i = Err (Protocol m).

(** The column of a geo point: two columns of coordinates, each as its bytes. *)
Definition point_typed (n : Z) (c : AnyColumnData) : Prop :=
  match c with
  | AnyTuple t => Forall2 (fun ct element => framed ct n element = true) [Float64; Float64] (raw_elements t)
  | _ => False
  end.

(** An array column: the elements of all rows, as one column of them. *)
Definition array_typed (inner : Z -> AnyColumnData -> Prop) (n : Z) (c : AnyColumnData) : Prop :=
  match c with
  | AnyArray c => if n =? 0 then c = AnyUnknown else exists total, 0 <= total /\ inner total c
  | _ => False
  end.

(** The column [read_column_by_type] promises for a type, with [n] rows. *)
Fixpoint any_typed (api : Api) (ct : ColumnType) (n : Z) (c : AnyColumnData) : Prop :=
  match ct, c with
  | UInt8, AnyUInt8 col => rows_are n (plain_count col) (plain_get col)
  | UInt16, AnyUInt16 col => rows_are n (plain_count col) (plain_get col)
  | UInt32, AnyUInt32 col => rows_are n (plain_count col) (plain_get col)
  | UInt64, AnyUInt64 col => rows_are n (plain_count col) (plain_get col)
  | UInt128, AnyUInt128 col => rows_are n (plain_count col) (plain_get col)
  | Int8, AnyInt8 col => rows_are n (plain_count col) (plain_get col)
  | Int16, AnyInt16 col => rows_are n (plain_count col) (plain_get col)
  | (Int32 | Date32), AnyInt32 col => rows_are n (plain_count col) (plain_get col)
  | Int64, AnyInt64 col => rows_are n (plain_count col) (plain_get col)
  | Int128, AnyInt128 col => rows_are n (plain_count col) (plain_get col)
  | Float32, AnyFloat32 col => rows_are n (plain_count col) (plain_get col)
  | Float64, AnyFloat64 col => rows_are n (plain_count col) (plain_get col)
  | UInt256, AnyUInt256 col => rows_are n (plain_count col) (plain_get col)
  | Int256, AnyInt256 col => rows_are n (plain_count col) (plain_get col)
  | TBool, AnyBool col => rows_are n (blen (bool_bytes col)) (bool_get col)
  | Date, AnyDate col => rows_are n (plain_count col) (plain_get col)
  | (DateTime | Time), AnyDateTime col => rows_are n (plain_count col) (plain_get col)
  | (DateTime64 _ | Time64 _), AnyDateTime64 col => rows_are n (plain_count col) (plain_get col)
  | IPv4, AnyIPv4 col => rows_are n (plain_count col) (plain_get col)
  | IPv6, AnyIPv6 col => rows_are n (ipv6_count col) (ipv6_get col)
  | UUID, AnyUuid col => rows_are n (plain_count col) (plain_get col)
  | TString, AnyString col => rows_are n (blen (str_ranges col)) (str_get_string col)
  | FixedString w, AnyFixedString col => fs_n col = w /\ rows_are n (fs_count col) (fs_get_bytes col)
  | Decimal p _, AnyDecimal32 col => 1 <= p <= 9 /\ rows_are n (plain_count col) (plain_get col)
  | Decimal p _, AnyDecimal64 col => 10 <= p <= 18 /\ rows_are n (plain_count col) (plain_get col)
  | Decimal p _, AnyDecimal128 col => 19 <= p <= 38 /\ rows_are n (plain_count col) (plain_get col)
  | Decimal p _, AnyDecimal256 col => 39 <= p <= 76 /\ rows_are n (plain_count col) (plain_get col)
  | Enum8, AnyInt8 col => api = SyncApi /\ rows_are n (plain_count col) (plain_get col)
  | Enum16, AnyInt16 col => api = SyncApi /\ rows_are n (plain_count col) (plain_get col)
  | Enum8, AnyEnum col => api = AsyncApi /\ rows_are n (blen (enum_values col)) (enum_get I8 "Enum value {value} does not fit i8" col)
  | Enum16, AnyEnum col => api = AsyncApi /\ rows_are n (blen (enum_values col)) (enum_get I16 "Enum value {value} does not fit i16" col)
  | Nullable t, AnyNullable c => any_typed api t n c
  | Array t, _ => array_typed (any_typed api t) n c
  | TMap k v, AnyMap m =>
      blen (raw_offsets m) = n /\
      framed k (last (raw_offsets m) 0) (keys_data m) = true /\
      framed v (last (raw_offsets m) 0) (values_data m) = true
  | Tuple ts, AnyTuple t => Forall2 (fun ct element => framed ct n element = true) ts (raw_elements t)
  | Point, _ => point_typed n c
  | Ring, _ => array_typed point_typed n c
  | Polygon, _ => array_typed (array_typed point_typed) n c
  | MultiPolygon, _ => array_typed (array_typed (array_typed point_typed)) n c
  | Nothing, AnyUnknown => True
  | _, _ => False
  end.

(** The types whose columns stand in a block as [read_column_by_type] reads them. *)
Fixpoint readable (ct : ColumnType) : bool :=
  match ct with
  | Nullable t | Array t => readable t
  | TMap k v => readable k && readable v
  | Tuple ts => forallb readable ts
  | Decimal p _ => (1 <=? p) && (p <=? 76)
  | LowCardinality _ | AggregateFunction | SimpleAggregateFunction | JSON | Variant _ | Dynamic | Other _ => false
  | _ => true
  end.

(** [decodes p n m R]: a column of [n] rows that [p] delimits is read by [m], to its
    end. *)
Definition decodes {A} (p : parser unit) (n : Z) (m : context A) (R : A -> Prop) : Prop :=
  forall buf pos pos', 0 <= pos <= blen buf -> blen buf <= MAX_COLUMN_BYTES -> p buf pos = Ok (tt, pos') ->
  exists c, m (mkContext n pos buf) = Ok (c, mkContext n pos' buf) /\ R c.

(** A column is far below the size of the address space. *)
Lemma column_isize (buf : bytes) : blen buf <= MAX_COLUMN_BYTES -> blen buf <= ISIZE_MAX.
Proof. unfold MAX_COLUMN_BYTES, ISIZE_MAX. lia. Qed.

Lemma ctx_read_exact_ok w n pos buf :
  0 <= w -> 0 <= pos -> pos + w <= blen buf -> blen buf <= ISIZE_MAX ->
  ctx_read_exact w (mkContext n pos buf) = Ok (slice buf pos (pos + w), mkContext n (pos + w) buf).
Proof.
  intros Hw Hpos Hle Hmax. unfold ctx_read_exact, checked_add. cbn [ctx_pos ctx_buf ctx_rows].
  destruct (Z.leb_spec (pos + w) USIZE_MAX); [|unfold ISIZE_MAX, USIZE_MAX in *; lia].
  destruct (Z.ltb_spec (blen buf) (pos + w)); [lia|reflexivity].
Qed.

Lemma context_bind_ok {A B} (m : context A) (f : A -> context B) ctx a ctx' :
  m ctx = Ok (a, ctx') -> bind m f ctx = f a ctx'.
Proof. intros H. cbn. now rewrite H. Qed.

Lemma decodes_map {A B} p n (m : context A) (f : A -> context B) (R : A -> Prop) (S : B -> Prop) :
  decodes p n m R -> (forall a, R a -> exists b, S b /\ forall ctx, f a ctx = Ok (b, ctx)) ->
  decodes p n (bind m f) S.
Proof.
  intros Hm Hf buf pos pos' Hpos Hbuf H. destruct (Hm _ _ _ Hpos Hbuf H) as (a & E & HR).
  destruct (Hf a HR) as (b & HS & Eb). exists b. split; [|assumption]. erewrite context_bind_ok by exact E. apply Eb.
Qed.

Lemma decodes_wrap {A} p n (m : context A) (wrap : A -> AnyColumnData) (R : A -> Prop) :
  decodes p n m R -> decodes p n (any_of m wrap) (fun c => exists a, c = wrap a /\ R a).
Proof. intros H. eapply decodes_map; [exact H|]. intros a Ha. exists (wrap a). split; [eauto|reflexivity]. Qed.

(** ** Leaves *)

Lemma plain_rows_are {T} `{PlainLaws T} n bs :
  0 <= n -> blen bs = n * size_of T -> blen bs <= ISIZE_MAX ->
  rows_are n (plain_count (mkPlain (T := T) bs n)) (plain_get (mkPlain bs n)).
Proof.
  intros Hn Hlen Hmax. split; [reflexivity|]. intros i Hi. destruct (Z.ltb_spec i n).
  - rewrite plain_get_slice by (cbn [plain_count plain_buf]; lia). eauto.
  - now apply plain_get_out.
Qed.

(** [p] delimits [n] elements of [w] bytes. *)
Definition delimits (p : parser unit) (n w : Z) : Prop :=
  forall buf pos pos', 0 <= pos <= blen buf -> blen buf <= MAX_COLUMN_BYTES -> p buf pos = Ok (tt, pos') ->
  pos' = pos + n * w /\ pos' <= blen buf.

Lemma decodes_plain_data {T} `{PlainLaws T} p n :
  0 <= n -> delimits p n (size_of T) ->
  decodes p n (read_column T)
    (fun col => plain_count col = n /\ blen (plain_buf col) = n * size_of T /\ blen (plain_buf col) <= ISIZE_MAX).
Proof.
  intros Hn Hp buf pos pos' Hpos Hbuf E. pose proof (column_isize _ Hbuf) as Hsize. apply Hp in E as [-> Hle]; [|assumption..].
  pose proof (size_pos (T := T)) as Hs. assert (0 <= n * size_of T) as Hw by nia.
  exists (mkPlain (slice buf pos (pos + n * size_of T)) n). split.
  - cbn [read_column plain_column]. unfold plain_read_column.
    erewrite context_bind_ok by reflexivity. cbn [ctx_rows]. rewrite checked_mul_ok by lia. cbn [ok_or].
    erewrite context_bind_ok by reflexivity.
    now erewrite context_bind_ok by (apply ctx_read_exact_ok; lia).
  - cbn [plain_count plain_buf]. rewrite blen_slice; lia.
Qed.

Lemma decodes_plain {T} `{PlainLaws T} p n :
  0 <= n -> delimits p n (size_of T) ->
  decodes p n (read_column T) (fun col => rows_are n (plain_count col) (plain_get col)).
Proof.
  intros Hn Hp buf pos pos' Hpos Hbuf E. pose proof (column_isize _ Hbuf) as Hsize.
  destruct (decodes_plain_data p n Hn Hp buf pos pos' Hpos Hbuf E) as ([bs count] & Ec & Hc & Hl & Hm).
  cbn [plain_count plain_buf] in *. subst count. exists (mkPlain bs n). split; [exact Ec|]. now apply plain_rows_are.
Qed.

Lemma skip_fixed_delimits n w : 0 <= n -> 0 <= w -> delimits (skip_fixed n w) n w.
Proof. intros Hn Hw buf pos pos' Hpos Hbuf H. pose proof (column_isize _ Hbuf) as Hsize. apply skip_fixed_ok in H as (_ & H & Hle); [|lia..]. inj. auto. Qed.

Lemma advance_delimits n : 0 <= n -> delimits (advance_pos n) n 1.
Proof. intros Hn buf pos pos' Hpos Hbuf H. pose proof (column_isize _ Hbuf) as Hsize. apply advance_pos_ok in H as [H Hle]; [|lia..]. inj. lia. Qed.

Lemma decodes_bool n : 0 <= n ->
  decodes (advance_pos n) n (read_column bool) (fun col => rows_are n (blen (bool_bytes col)) (bool_get col)).
Proof.
  intros Hn buf pos pos' Hpos Hbuf E. pose proof (column_isize _ Hbuf) as Hsize. apply advance_pos_ok in E as [E Hle]; [|lia..]. inj.
  exists (mkBoolColumn (slice buf pos (pos + n))). split.
  - cbn [read_column bool_column]. unfold bool_read_column. erewrite context_bind_ok by reflexivity. cbn [ctx_rows].
    now erewrite context_bind_ok by (apply ctx_read_exact_ok; lia).
  - assert (blen (slice buf pos (pos + n)) = n) as Hl by (rewrite blen_slice; lia).
    split; [exact Hl|]. intros i Hi. unfold bool_get. cbn [bool_bytes]. rewrite Hl.
    destruct (Z.leb_spec n i), (Z.ltb_spec i n); try lia; eauto.
Qed.

Lemma decodes_ipv6 n : 0 <= n ->
  decodes (skip_fixed n 16) n (read_column ipv6) (fun col => rows_are n (ipv6_count col) (ipv6_get col)).
Proof.
  intros Hn buf pos pos' Hpos Hbuf E. pose proof (column_isize _ Hbuf) as Hsize. apply skip_fixed_ok in E as (_ & E & Hle); [|lia..]. inj.
  exists (mkIpv6Column (slice buf pos (pos + n * 16)) n). split.
  - cbn [read_column ipv6_column]. unfold ipv6_read_column. erewrite context_bind_ok by reflexivity. cbn [ctx_rows].
    rewrite checked_mul_ok by lia. cbn [ok_or]. erewrite context_bind_ok by reflexivity.
    now erewrite context_bind_ok by (apply ctx_read_exact_ok; lia).
  - split; [reflexivity|]. intros i Hi. destruct (Z.ltb_spec i n).
    + rewrite ipv6_get_slice; [eauto|cbn; lia|]. cbn [ipv6_count ipv6_buf]. rewrite blen_slice; lia.
    + unfold ipv6_get. cbn [ipv6_count]. destruct (Z.leb_spec n i); [eauto|lia].
Qed.

Lemma decodes_fixed_string n w : 0 <= n -> 0 <= w ->
  decodes (skip_fixed n w) n (any_fixed_string w)
    (fun c => exists col, c = AnyFixedString col /\ fs_n col = w /\ rows_are n (fs_count col) (fs_get_bytes col)).
Proof.
  intros Hn Hw buf pos pos' Hpos Hbuf E. pose proof (column_isize _ Hbuf) as Hsize. apply skip_fixed_ok in E as (_ & E & Hle); [|lia..]. inj.
  assert (0 <= n * w) by nia. assert (blen (slice buf pos (pos + n * w)) = n * w) as Hl by (rewrite blen_slice; lia).
  assert (read_rows_bytes w (mkContext n pos buf) =
          Ok (slice buf pos (pos + n * w), mkContext n (pos + n * w) buf)) as Hr.
  { unfold read_rows_bytes. erewrite context_bind_ok by reflexivity. cbn [ctx_rows]. rewrite checked_mul_ok by lia.
    cbn [ok_or]. erewrite context_bind_ok by reflexivity. apply ctx_read_exact_ok; lia. }
  eexists. split.
  - unfold any_fixed_string. erewrite context_bind_ok by exact Hr. reflexivity.
  - eexists. split; [reflexivity|]. split; [reflexivity|]. split; [reflexivity|]. intros i Hi.
    unfold fs_get_bytes, index_slice. cbn [fs_count fs_n fs_data ctx_rows]. rewrite Hl.
    destruct (Z.leb_spec n i), (Z.ltb_spec i n); try lia; [eauto|].
    assert (i * w + w <= n * w) by nia.
    destruct (Z.leb_spec (i * w) (i * w + w)); [|lia]. destruct (Z.leb_spec (i * w + w) (n * w)); [|lia]. cbn. eauto.
Qed.

(** The strings [skip_string_rows] steps over are the ranges of the scan. *)
Lemma varint_slice_parsed buf pos v pos' :
  0 <= pos <= blen buf -> blen buf <= ISIZE_MAX -> parse_varint buf pos = Ok (v, pos') ->
  read_varint_from_slice (drop pos buf) = Ok (v, pos' - pos).
Proof.
  intros Hpos Hbuf H. pose proof (advances_parse_varint _ _ _ _ Hpos H) as Ha.
  pose proof (agrees_parse_varint buf pos Hpos Hbuf) as Hag. rewrite H in Hag.
  pose proof (read_varint_from_slice_agrees (drop pos buf)) as Hs.
  destruct (run read_varint (drop pos buf)) as [[v' rest]|e]; [|now destruct Hag].
  destruct Hag as (p & E & _ & ->). injection E as <- <-. rewrite Hs, !blen_drop by lia. do 2 f_equal. lia.
Qed.

Lemma scan_skipped k : forall buf pos p pos',
  0 <= pos <= p -> p <= blen buf -> blen buf <= ISIZE_MAX ->
  repeat_n k (let* v := parse_varint in
              let* len := lift (protocol (checked_string_len v (str "string value length"))) in
              advance_pos len) buf p = Ok (tt, pos') ->
  exists ranges, scan_strings k buf pos (p - pos) = Ok (ranges, pos' - pos) /\ length ranges = k /\
    p <= pos' <= blen buf /\ Forall (fun '(a, b) => p - pos <= a <= b /\ b <= pos' - pos) ranges.
Proof.
  induction k as [|k IH]; intros buf pos p pos' Hpos Hp Hbuf H.
  { cbn in H. inj. exists []. conj; [reflexivity|reflexivity|lia..|constructor]. }
  cbn [repeat_n] in H. apply parser_bind_inv in H as ([] & q & H1 & H).
  apply parser_bind_inv in H1 as (v & p1 & Hv & H1). apply parser_bind_inv in H1 as (len & p2 & H2 & H1).
  apply parser_lift_inv in H2 as [H2 ->]. apply map_err_inv, checked_string_len_inv in H2 as [-> Hlen].
  assert (0 <= p <= blen buf) as Hp0 by lia. pose proof (advances_parse_varint _ _ _ _ Hp0 Hv) as Ha.
  pose proof (parse_varint_nonneg _ _ _ _ Hv) as Hnn.
  apply advance_pos_ok in H1 as [H1 Hle]; [|lia..]. injection H1 as ->.
  destruct (IH buf pos (p1 + v) pos' ltac:(lia) Hle Hbuf H) as (ranges & E & Hl & Hend & Hall).
  exists ((p1 - pos, p1 + v - pos) :: ranges). cbn [scan_strings].
  replace (pos + (p - pos)) with p by lia. destruct (Z.ltb_spec (blen buf) p); [lia|].
  rewrite (varint_slice_parsed buf p v p1) by (lia || assumption). cbn [bind result_monad].
  replace (p - pos + (p1 - p)) with (p1 - pos) by lia. unfold checked_add.
  destruct (Z.leb_spec (p1 - pos + v) USIZE_MAX); [|unfold ISIZE_MAX, USIZE_MAX in *; lia]. cbn [ok_or bind result_monad].
  replace (p1 - pos + v) with (p1 + v - pos) by lia. rewrite E. cbn [bind result_monad]. conj; [reflexivity|cbn; lia|lia..|].
  constructor; [lia|]. eapply Forall_impl; [|exact Hall]. intros [a b]. lia.
Qed.

Lemma decodes_text n : 0 < n ->
  decodes (skip_string_rows n (str "string value length")) n (read_column text)
    (fun col => rows_are n (blen (str_ranges col)) (str_get_string col)).
Proof.
  intros Hn buf pos pos' Hpos Hbuf E. pose proof (column_isize _ Hbuf) as Hsize. unfold skip_string_rows in E.
  destruct (scan_skipped _ buf pos pos pos' ltac:(lia) ltac:(lia) Hsize E) as (ranges & Es & Hl & Hend & Hall).
  rewrite Z.sub_diag in *. exists (mkStrings ranges (slice buf pos pos')). split.
  - cbn [read_column text_column]. unfold text_read_column. erewrite context_bind_ok by reflexivity. cbn [ctx_rows].
    destruct (Z.eqb_spec n 0); [lia|]. erewrite context_bind_ok by reflexivity. cbn [ctx_pos ctx_buf]. rewrite Es.
    erewrite context_bind_ok by reflexivity. cbv beta iota. erewrite context_bind_ok by (apply ctx_read_exact_ok; lia).
    now replace (pos + (pos' - pos)) with pos' by lia.
  - split; [cbn; unfold blen; lia|]. intros i Hi. unfold str_get_string, str_get_bytes, str_range. cbn [str_ranges str_data].
    destruct (Z.ltb_spec i n).
    + destruct (nth_error ranges (Z.to_nat i)) as [[a b]|] eqn:Er; [|apply nth_error_None in Er; lia].
      rewrite Forall_forall in Hall. specialize (Hall _ (nth_error_In _ _ Er)). cbn in Hall.
      cbn [ok_or bind result_monad]. unfold get_slice_opt. rewrite blen_slice by lia.
      destruct (Z.leb_spec a b); [|lia]. destruct (Z.leb_spec b (pos' - pos)); [|lia]. cbn. eauto.
    + replace (nth_error ranges (Z.to_nat i)) with (@None (Z * Z)) by (symmetry; apply nth_error_None; lia). cbn. eauto.
Qed.

(** ** Compound columns *)

Lemma full_chunks_exact w n l :
  0 < w -> blen l = Z.of_nat n * w -> full_chunks n w l = chunks_exact w l.
Proof.
  intros Hw. revert l; induction n as [|n IH]; intros l Hl.
  - assert (l = []) as -> by (apply blen_zero; lia). reflexivity.
  - rewrite chunks_exact_cons by nia. cbn [full_chunks]. f_equal. apply IH. rewrite blen_drop; nia.
Qed.

Lemma read_offsets_ok n name t buf pos pos' :
  0 < n -> 0 <= pos <= blen buf -> blen buf <= ISIZE_MAX -> skip_offsets n name buf pos = Ok (t, pos') ->
  exists offs, read_offsets (mkContext n pos buf) = Ok (offs, mkContext n pos' buf) /\
    blen offs = n /\ last_offset offs = t /\ 0 <= t /\ pos <= pos' <= blen buf.
Proof.
  intros Hn Hpos Hbuf H. apply skip_offsets_ok in H as (_ & t' & H & Hle & Hf); [|lia..]. injection H as -> ->.
  apply fold_offsets_inv in Hf as [Hok ->].
  assert (blen (slice buf pos (pos + n * 8)) = n * 8) as Hl by (rewrite blen_slice; lia).
  exists (map from_le (chunks_exact 8 (slice buf pos (pos + n * 8)))). conj; try lia.
  - unfold read_offsets. erewrite context_bind_ok by reflexivity. cbn [ctx_rows].
    destruct (Z.eqb_spec n 0); [lia|]. unfold read_rows_bytes.
    erewrite context_bind_ok; [|erewrite context_bind_ok by reflexivity; cbn [ctx_rows];
      rewrite checked_mul_ok by lia; cbn [ok_or]; erewrite context_bind_ok by reflexivity; apply ctx_read_exact_ok; lia].
    unfold as_chunks. rewrite Hl, Z.div_mul by lia. now rewrite full_chunks_exact by lia.
  - unfold blen. rewrite length_map, (length_chunks_exact 8 (Z.to_nat n)); lia.
  - reflexivity.
  - exact (proj1 (offsets_below_last _ _ (proj1 Hok))).
Qed.

Lemma with_rows_ok {A} (m : context A) n total pos buf a pos' :
  m (mkContext total pos buf) = Ok (a, mkContext total pos' buf) ->
  with_rows total m (mkContext n pos buf) = Ok (a, mkContext n pos' buf).
Proof. intros H. unfold with_rows. cbn. now rewrite H. Qed.

(** Offsets, then a part of as many rows as the last offset says. *)
Lemma decodes_offsets {A} name n (inner : Z -> parser unit) (m : context A) (R : Z -> A -> Prop)
    (f : list Z -> A -> context AnyColumnData) (S : AnyColumnData -> Prop) (empty : AnyColumnData) :
  0 <= n -> n <> 0 ->
  (forall pos buf, 0 <= pos <= blen buf -> blen buf <= MAX_COLUMN_BYTES ->
     exists c, m (mkContext 0 pos buf) = Ok (c, mkContext 0 pos buf) /\ R 0 c) ->
  (forall total, 0 <= total -> decodes (inner total) total m (R total)) ->
  (forall offs total a, 0 <= total -> blen offs = n -> last_offset offs = total -> R total a ->
     exists b, S b /\ forall ctx, f offs a ctx = Ok (b, ctx)) ->
  decodes (array_of name inner n) n
    (let* rows := get_rows in
     if rows =? 0 then ret empty
     else
       let* offsets := read_offsets in
       let* a := with_rows (last_offset offsets) m in
       f offsets a) S.
Proof.
  intros Hn Hne Hz Hm HS buf pos pos' Hpos Hbuf H. pose proof (column_isize _ Hbuf) as Hsize. apply parser_bind_inv in H as (t & p & H1 & H).
  destruct (read_offsets_ok n name t buf pos p ltac:(lia) Hpos Hsize H1) as (offs & E & Hl & Hlast & Ht & Hp).
  erewrite context_bind_ok by reflexivity. cbn [ctx_rows]. destruct (Z.eqb_spec n 0); [lia|].
  erewrite context_bind_ok by exact E. rewrite Hlast.
  assert (exists a, m (mkContext t p buf) = Ok (a, mkContext t pos' buf) /\ R t a) as (a & Ea & Ha).
  { destruct (Z.ltb_spec 0 t); [apply (Hm t Ht buf p pos'); [lia|assumption..]|].
    replace t with 0 in * by lia. cbn in H. inj. apply Hz; [lia|assumption]. }
  destruct (HS offs t a Ht Hl Hlast Ha) as (b & Hb & Eb). exists b. split; [|assumption].
  erewrite context_bind_ok by (apply with_rows_ok; exact Ea). apply Eb.
Qed.

Lemma decodes_nullable n p m R :
  0 <= n -> advances p -> decodes p n m R ->
  decodes (advance_pos n ;; p) n (any_nullable m) (fun c => exists inner, c = AnyNullable inner /\ R inner).
Proof.
  intros Hn Ha Hm buf pos pos' Hpos Hbuf H. pose proof (column_isize _ Hbuf) as Hsize. apply parser_bind_inv in H as ([] & q & H1 & H).
  apply advance_pos_ok in H1 as [H1 Hle]; [|lia..]. injection H1 as ->.
  destruct (Hm buf (pos + n) pos') as (c & E & Hc); [lia|assumption..|].
  exists (AnyNullable c). split; [|eauto]. unfold any_nullable. erewrite context_bind_ok by reflexivity. cbn [ctx_rows].
  erewrite context_bind_ok by (apply ctx_read_exact_ok; lia). now erewrite context_bind_ok by exact E.
Qed.

(** [cut p F]: the bytes [p] delimits, on their own, satisfy [F]. *)
Definition cut (p : parser unit) (F : bytes -> Prop) : Prop :=
  forall buf pos pos', 0 <= pos <= blen buf -> blen buf <= MAX_COLUMN_BYTES -> p buf pos = Ok (tt, pos') ->
  F (slice buf pos pos').

Lemma decodes_bytes n p m R F :
  advances p -> decodes p n m R -> cut p F -> decodes p n (column_bytes m) F.
Proof.
  intros Ha Hm Hc buf pos pos' Hpos Hbuf H. pose proof (Ha _ _ _ _ Hpos H) as Hp.
  destruct (Hm buf pos pos' Hpos Hbuf H) as (c & E & _). exists (slice buf pos pos'). split; [|now apply Hc].
  unfold column_bytes. erewrite context_bind_ok by reflexivity. erewrite context_bind_ok by exact E.
  erewrite context_bind_ok by reflexivity. cbn [ctx_buf ctx_pos]. unfold index_slice.
  destruct (Z.leb_spec pos pos'); [|lia]. destruct (Z.leb_spec pos' (blen buf)); [|lia]. reflexivity.
Qed.

Lemma readable_verbatim ct : readable ct = true -> verbatim ct = true.
Proof.
  type_induction ct; cbn [readable verbatim]; try discriminate; auto.
  - intros k v IHk IHv H. apply andb_prop in H as [Hk Hv]. now rewrite IHk, IHv.
  - intros ts IH H. rewrite forallb_forall in *. rewrite Forall_forall in IH. auto.
  - intros t. destruct t; try exact I; try discriminate; reflexivity.
Qed.

(** The bytes of a column are a column of their own. *)
Lemma column_cut ct n :
  wf_type ct = true -> readable ct = true -> (nesting ct <= MAX_TYPE_NESTING)%nat -> 0 <= n ->
  cut (skip_column_data ct n) (fun b => framed ct n b = true).
Proof.
  intros Hw Hr Hn Hn0 buf pos pos' Hpos Hbuf H. pose proof (column_isize _ Hbuf).
  destruct (records_column ct Hw (readable_verbatim ct Hr) Hn n Hn0) as [Ha Hs Hc].
  pose proof (Ha _ _ _ _ Hpos H) as Hp. assert (blen (slice buf pos pos') = pos' - pos) as Hl by (apply blen_slice; lia).
  pose proof (Hc buf pos [] MAX_COLUMN_BYTES tt (slice buf pos pos') (MAX_COLUMN_BYTES - (pos' - pos)) (drop pos' buf)) as Hrun.
  rewrite <- (slice_drop buf pos pos') in Hrun by lia. lapply Hrun; [clear Hrun; intros Hrun|assumption].
  do 3 (lapply Hrun; [clear Hrun; intros Hrun|unfold MAX_COLUMN_BYTES, blen in *; cbn [length]; lia]).
  lapply Hrun; [clear Hrun; intros Hrun|exists pos'; conj; auto; unfold MAX_COLUMN_BYTES in *; lia].
  apply run_prefix in Hrun. rewrite <- (drop_0 (slice buf pos pos')) in Hrun at 1.
  apply Hs in Hrun as (p & E & _ & _ & Hb & _); [|unfold MAX_COLUMN_BYTES in *; lia..].
  unfold framed. rewrite E. lia.
Qed.

Lemma decodes_weaken {A} p n (m : context A) (R S : A -> Prop) :
  (forall a, R a -> S a) -> decodes p n m R -> decodes p n m S.
Proof. intros HS H buf pos pos' Hpos Hbuf E. destruct (H _ _ _ Hpos Hbuf E) as (c & ? & ?). eauto. Qed.

(** The values of an enum column fit the width of its type. *)
Lemma enum_rows_are (k : prim) what n (col : PlainColumnData (num k)) :
  prim_signed k = true -> 0 <= n -> plain_count col = n -> n * prim_size k <= blen (plain_buf col) <= ISIZE_MAX ->
  rows_are n (blen (values_or_zero col n)) (enum_get k what (mkEnumColumn (values_or_zero col n) [])).
Proof.
  intros Hk Hn Hc Hlen. unfold values_or_zero. split; [rewrite blen_map; unfold blen; rewrite length_seq; lia|].
  intros i Hi. unfold enum_get. cbn [enum_values]. rewrite nth_error_map.
  destruct (Z.ltb_spec i n).
  - rewrite (nth_error_nth' _ 0%nat), seq_nth by (rewrite ?length_seq; lia). cbn [option_map ok_or bind result_monad].
    rewrite Nat.add_0_l, Z2Nat.id, plain_get_slice by (cbn [size_of num_plain]; lia). cbn [num_val].
    pose proof (prim_size_pos k) as Hs. assert (i * prim_size k + prim_size k <= n * prim_size k) by nia.
    pose proof (num_from_le_ok k (slice (plain_buf col) (i * prim_size k) (i * prim_size k + prim_size k))) as Hok.
    rewrite blen_slice in Hok by lia. specialize (Hok ltac:(lia)). unfold num_ok in Hok. rewrite Hk in Hok.
    change (of_memory ?b) with (num_from_le k b). cbn [size_of num_plain].
    destruct (Z.leb_spec (- 2 ^ (8 * prim_size k - 1)) (num_val (num_from_le k (slice (plain_buf col) (i * prim_size k) (i * prim_size k + prim_size k))))); [|lia].
    destruct (Z.ltb_spec (num_val (num_from_le k (slice (plain_buf col) (i * prim_size k) (i * prim_size k + prim_size k)))) (2 ^ (8 * prim_size k - 1))); [|lia].
    cbn. eauto.
  - replace (nth_error (seq 0 (Z.to_nat n)) (Z.to_nat i)) with (@None nat)
      by (symmetry; apply nth_error_None; rewrite length_seq; lia). cbn. eauto.
Qed.

Lemma decodes_enum (k : prim) what p n :
  prim_signed k = true -> 0 <= n -> delimits p n (size_of (num k)) ->
  decodes p n (any_enum (read_column (num k)))
    (fun c => exists col, c = AnyEnum col /\ rows_are n (blen (enum_values col)) (enum_get k what col)).
Proof.
  intros Hk Hn Hp buf pos pos' Hpos Hbuf E. pose proof (column_isize _ Hbuf) as Hsize.
  destruct (decodes_plain_data (T := num k) p n Hn Hp buf pos pos' Hpos Hbuf E) as (col & Ec & Hc & Hl & Hm).
  exists (AnyEnum (mkEnumColumn (values_or_zero col n) [])). split.
  - unfold any_enum. erewrite context_bind_ok by reflexivity. erewrite context_bind_ok by exact Ec. reflexivity.
  - eexists. split; [reflexivity|]. cbn [enum_values]. cbn [size_of num_plain] in Hl. apply enum_rows_are; [assumption..|lia].
Qed.

Ltac plain_leaf :=
  match goal with |- decodes ?p _ (any_of _ ?wrap) _ =>
    eapply decodes_weaken; [|apply (decodes_wrap p _ _ wrap), decodes_plain;
      [assumption|first [now apply advance_delimits | apply skip_fixed_delimits; cbn; lia]]]
  end; intros ? (? & -> & ?); cbn [any_typed]; auto.

(** The types without components. *)
Definition scalar (ct : ColumnType) : bool :=
  match ct with
  | Nullable _ | Array _ | TMap _ _ | Tuple _ | Point | Ring | Polygon | MultiPolygon => false
  | _ => true
  end.

Lemma decodes_simple api ct n :
  0 <= n -> wf_type ct = true -> readable ct = true ->
  scalar ct = true ->
  decodes (skip_simple ct n) n (read_column_by_type api ct) (any_typed api ct n).
Proof.
  intros Hn Hw Hr Ht. destruct ct; try discriminate Ht; try discriminate Hr;
    cbn [skip_simple read_column_by_type]; try plain_leaf.
  - eapply decodes_weaken; [|apply decodes_wrap, decodes_bool; assumption]. now intros ? (? & -> & ?).
  - destruct (Z.eqb_spec n 0) as [->|].
    + intros buf pos pos' Hpos Hbuf E. pose proof (column_isize _ Hbuf) as Hsize. cbn in E. inj. eexists. split; [reflexivity|]. split; [reflexivity|].
      intros i Hi. destruct (Z.ltb_spec i 0); [lia|]. unfold str_get_string, str_get_bytes, str_range. cbn [str_ranges].
      rewrite nth_error_nil. cbn. eauto.
    + eapply decodes_weaken; [|apply decodes_wrap, decodes_text; lia]. now intros ? (? & -> & ?).
  - cbn [wf_type] in Hw. eapply decodes_weaken; [|apply decodes_fixed_string; lia]. now intros ? (? & -> & ?).
  - cbn [readable] in Hr. apply andb_prop in Hr as [H1 H2].
    repeat match goal with |- context [if ?b then _ else _] => destruct b eqn:? end; try lia; plain_leaf; split; (lia || auto).
  - eapply decodes_weaken; [|apply decodes_wrap, decodes_ipv6; assumption]. now intros ? (? & -> & ?).
  - destruct api; [plain_leaf|]. eapply decodes_weaken; [|apply (decodes_enum I8); [reflexivity|assumption|now apply advance_delimits]].
    intros ? (? & -> & Hc). cbn [any_typed]. split; [reflexivity|exact Hc].
  - destruct api; [plain_leaf|]. eapply decodes_weaken; [|apply (decodes_enum I16); [reflexivity|assumption|apply skip_fixed_delimits; cbn; lia]].
    intros ? (? & -> & Hc). cbn [any_typed]. split; [reflexivity|exact Hc].
  - intros buf pos pos' Hpos Hbuf E. pose proof (column_isize _ Hbuf) as Hsize. apply advance_pos_ok in E as [E Hle]; [|lia..]. inj. exists AnyUnknown. split; [|exact I].
    erewrite context_bind_ok by reflexivity. cbn [ctx_rows]. now erewrite context_bind_ok by (apply ctx_read_exact_ok; lia).
Qed.

Lemma skip_simple_zero ct buf pos :
  0 <= pos <= blen buf -> blen buf <= MAX_COLUMN_BYTES -> wf_type ct = true -> readable ct = true ->
  scalar ct = true ->
  skip_simple ct 0 buf pos = Ok (tt, pos).
Proof.
  intros Hpos Hbuf Hw Hr Ht. pose proof (column_isize _ Hbuf) as Hsize.
  assert (advance_pos 0 buf pos = Ok (tt, pos)) as Ha by (apply advance_pos_ok; [lia..|]; split; [do 2 f_equal|]; lia).
  assert (forall w, 0 <= w -> skip_fixed 0 w buf pos = Ok (tt, pos)) as Hf
    by (intros w Hw'; apply skip_fixed_ok; [lia..|]; conj; [unfold MAX_COLUMN_BYTES|do 2 f_equal|]; lia).
  destruct ct; try discriminate Ht; try discriminate Hr; cbn [skip_simple wf_type readable] in *;
    try exact Ha; try (apply Hf; lia); try reflexivity.
  repeat match goal with |- context [if ?b then _ else _] => destruct b eqn:? end; try (apply Hf; lia). lia.
Qed.

Lemma simple_zero api ct buf pos :
  0 <= pos <= blen buf -> blen buf <= MAX_COLUMN_BYTES -> wf_type ct = true -> readable ct = true ->
  scalar ct = true ->
  exists c, read_column_by_type api ct (mkContext 0 pos buf) = Ok (c, mkContext 0 pos buf) /\ any_typed api ct 0 c.
Proof.
  intros Hpos Hbuf Hw Hr Ht. apply (decodes_simple api ct 0 (Z.le_refl 0) Hw Hr Ht buf pos pos Hpos Hbuf).
  now apply skip_simple_zero.
Qed.

(** ** All types *)

Lemma decodes_imp {A} (p q : parser unit) n (m : context A) R :
  (forall buf pos pos', 0 <= pos <= blen buf -> blen buf <= MAX_COLUMN_BYTES ->
     p buf pos = Ok (tt, pos') -> q buf pos = Ok (tt, pos')) ->
  decodes q n m R -> decodes p n m R.
Proof. intros E H buf pos pos' Hpos Hbuf Hp. apply H; auto. Qed.

(** The elements of a tuple, each as its bytes. *)
Definition element_decodes (n : Z) (read : ColumnType -> context AnyColumnData) (ct : ColumnType) : Prop :=
  advances (skip_column_data ct n) /\ decodes (skip_column_data ct n) n (read ct) (fun _ => True) /\
  cut (skip_column_data ct n) (fun b => framed ct n b = true).

Lemma decodes_elements n read ts :
  Forall (element_decodes n read) ts ->
  decodes (for_each ts (fun t => skip_column_data t n)) n (map_each (map read ts) column_bytes)
    (Forall2 (fun ct b => framed ct n b = true) ts).
Proof.
  induction 1 as [|t ts (Ha & Hd & Hc) _ IH]; intros buf pos pos' Hpos Hbuf H.
  - cbn in H. inj. exists []. split; [reflexivity|constructor].
  - rewrite for_each_cons in H. apply parser_bind_inv in H as ([] & q & H1 & H).
    pose proof (Ha _ _ _ _ Hpos H1) as Hq. destruct (decodes_bytes n _ _ _ _ Ha Hd Hc buf pos q Hpos Hbuf H1) as (b & E & Hb).
    destruct (IH buf q pos' ltac:(lia) Hbuf H) as (l & El & Hl). exists (b :: l). cbn [map]. rewrite map_each_cons.
    split; [|now constructor].
    erewrite context_bind_ok by exact E. now erewrite context_bind_ok by exact El.
Qed.

Lemma decodes_tuple n read ts :
  Forall (element_decodes n read) ts ->
  decodes (for_each ts (fun t => skip_column_data t n)) n (any_tuple (map read ts))
    (fun c => exists t, c = AnyTuple t /\ Forall2 (fun ct b => framed ct n b = true) ts (raw_elements t)).
Proof.
  intros H. eapply decodes_map; [now apply (decodes_elements n read ts)|].
  intros l Hl. eexists. split; [|reflexivity]. eexists. split; [reflexivity|exact Hl].
Qed.

Lemma skip_zero ct : readable ct = true -> skip_column_data ct 0 = ret tt.
Proof. destruct ct; try discriminate; reflexivity. Qed.

Lemma framed_zero ct : readable ct = true -> framed ct 0 [] = true.
Proof. intros H. unfold framed. now rewrite skip_zero. Qed.

Lemma cut_zero ct : readable ct = true -> cut (skip_column_data ct 0) (fun b => framed ct 0 b = true).
Proof.
  intros H buf pos pos' _ _ E. rewrite skip_zero in E by assumption. cbn in E. inj. rewrite slice_nil. now apply framed_zero.
Qed.

Lemma element_coordinate n : 0 <= n -> element_decodes n (read_column_by_type SyncApi) Float64.
Proof.
  intros Hn. split; [now apply advances_skip_column_data|]. split; [|apply column_cut; [reflexivity..|cbn; lia|assumption]].
  intros buf pos pos' Hpos Hbuf E. pose proof (column_isize _ Hbuf). cbn [skip_column_data] in E. unfold nonzero in E.
  destruct (Z.eqb_spec n 0) as [->|].
  - cbn in E. inj. destruct (simple_zero SyncApi Float64 buf pos' Hpos Hbuf eq_refl eq_refl eq_refl) as (c & E & _). eauto.
  - destruct (decodes_simple SyncApi Float64 n Hn eq_refl eq_refl eq_refl buf pos pos' Hpos Hbuf E) as (c & Ec & _). eauto.
Qed.

Lemma decodes_point n : 0 <= n -> decodes (skip_point n) n any_point (point_typed n).
Proof.
  intros Hn. eapply decodes_weaken with (R := fun c => exists t, c = AnyTuple t /\
    Forall2 (fun ct b => framed ct n b = true) [Float64; Float64] (raw_elements t)); [now intros ? (t & -> & Ht)|].
  eapply decodes_imp; [|apply (decodes_tuple n (read_column_by_type SyncApi) [Float64; Float64])].
  - intros buf pos pos' _ _ E. unfold skip_point, nonzero in E. destruct (Z.eqb_spec n 0) as [->|Hne]; [exact E|].
    assert (skip_column_data Float64 n = skip_fixed n 8) as Es
      by (cbn [skip_column_data]; unfold nonzero; now destruct (Z.eqb_spec n 0)).
    apply parser_bind_inv in E as ([] & q & E1 & E2). rewrite for_each_cons, Es.
    erewrite parser_bind_ok by exact E1. rewrite for_each_cons, Es. now erewrite parser_bind_ok by exact E2.
  - pose proof (element_coordinate n Hn). now apply Forall_cons, Forall_cons, Forall_nil.
Qed.

(** An empty column of any readable type. *)
Definition reads_empty (m : context AnyColumnData) (R : AnyColumnData -> Prop) : Prop :=
  forall buf pos, 0 <= pos <= blen buf -> blen buf <= MAX_COLUMN_BYTES ->
  exists c, m (mkContext 0 pos buf) = Ok (c, mkContext 0 pos buf) /\ R c.

Lemma any_zero api ct :
  wf_type ct = true -> readable ct = true -> reads_empty (read_column_by_type api ct) (any_typed api ct 0).
Proof.
  type_induction ct.
  - intros t IH Hw Hr buf pos Hpos Hbuf. destruct (IH Hw Hr buf pos Hpos Hbuf) as (c & E & Hc). exists (AnyNullable c).
    split; [|exact Hc]. pose proof (column_isize _ Hbuf).
    cbn [read_column_by_type]. unfold any_nullable. erewrite context_bind_ok by reflexivity. cbn [ctx_rows].
    erewrite context_bind_ok by (apply ctx_read_exact_ok; lia). rewrite Z.add_0_r. now erewrite context_bind_ok by exact E.
  - intros t _ _ _ buf pos _ _. exists (AnyArray AnyUnknown). split; reflexivity.
  - intros k v _ _ _ Hr buf pos _ _. cbn [readable] in Hr. apply andb_prop in Hr as [Hk Hv]. eexists. split; [reflexivity|].
    cbn -[framed]. conj; [reflexivity|now apply framed_zero..].
  - intros ts IH Hw Hr buf pos Hpos Hbuf. cbn [wf_type readable] in *. rewrite forallb_forall in Hw, Hr.
    rewrite Forall_forall in IH.
    destruct (decodes_tuple 0 (read_column_by_type api) ts) with (buf := buf) (pos := pos) (pos' := pos)
      as (c & E & t & -> & Ht); [|assumption..| |now exists (AnyTuple t)].
    + apply Forall_forall. intros t Ht. split; [now apply advances_skip_column_data; auto|]. split; [|now apply cut_zero; auto].
      intros b p p' Hp Hb E. rewrite skip_zero in E by auto. cbn in E. inj.
      destruct (IH t Ht (Hw t Ht) (Hr t Ht) b p' Hp Hb) as (c & Ec & _). eauto.
    + clear - Hr. induction ts as [|t ts IH]; [reflexivity|]. rewrite for_each_cons, skip_zero by (apply Hr; now left).
      apply IH. intros x Hx. apply Hr. now right.
  - discriminate.
  - discriminate.
  - intros t. destruct t; try exact I; intros Hw Hr buf pos Hpos Hbuf; try discriminate Hr; try (now apply simple_zero).
    + apply (decodes_point 0 (Z.le_refl 0) buf pos pos Hpos Hbuf). reflexivity.
    + exists (AnyArray AnyUnknown). split; reflexivity.
    + exists (AnyArray AnyUnknown). split; reflexivity.
    + exists (AnyArray AnyUnknown). split; reflexivity.
Qed.

Lemma decodes_nonzero n p m R :
  (n = 0 -> reads_empty m R) -> (n <> 0 -> decodes p n m R) -> decodes (nonzero n p) n m R.
Proof.
  intros H0 H1 buf pos pos' Hpos Hbuf H. unfold nonzero in H. destruct (Z.eqb_spec n 0) as [->|]; [|now apply H1].
  cbn in H. inj. now apply H0.
Qed.

(** The levels of the geo types. *)
Lemma decodes_level (skip : Z -> parser unit) (m : context AnyColumnData) (R : Z -> AnyColumnData -> Prop) n :
  0 <= n -> reads_empty m (R 0) -> (forall n, 0 <= n -> decodes (skip n) n m (R n)) ->
  decodes (nonzero n (array_of (str "array offset") skip n)) n (any_array m) (array_typed R n).
Proof.
  intros Hn Hz Hm. apply decodes_nonzero.
  - intros -> pos buf _ _. eexists. split; reflexivity.
  - intros Hne. apply (decodes_offsets _ _ _ _ R (fun _ a => ret (AnyArray a))); auto.
    intros offs total a Ht _ _ Ha. exists (AnyArray a). split; [|reflexivity]. cbn.
    destruct (Z.eqb_spec n 0); [lia|eauto].
Qed.

Lemma decodes_skip_ring n : 0 <= n -> decodes (skip_ring n) n any_ring (array_typed point_typed n).
Proof.
  intros Hn. apply decodes_level; [assumption|exact (any_zero SyncApi Point eq_refl eq_refl)|apply decodes_point].
Qed.

Lemma decodes_skip_polygon n : 0 <= n -> decodes (skip_polygon n) n any_polygon (array_typed (array_typed point_typed) n).
Proof.
  intros Hn. apply decodes_level; [assumption|exact (any_zero SyncApi Ring eq_refl eq_refl)|apply decodes_skip_ring].
Qed.

(** The keys and the values of a map, as their bytes. *)
Definition entry_bytes (key value : context AnyColumnData) : context (bytes * bytes) :=
  let* keys := column_bytes key in
  let* values := column_bytes value in
  ret (keys, values).

Lemma decodes_entries api n k v :
  element_decodes n (read_column_by_type api) k -> element_decodes n (read_column_by_type api) v ->
  decodes (skip_column_data k n ;; skip_column_data v n) n
    (entry_bytes (read_column_by_type api k) (read_column_by_type api v))
    (fun '(kb, vb) => framed k n kb = true /\ framed v n vb = true).
Proof.
  intros (Hp & Hk & Hck) (Hq & Hv & Hcv) buf pos pos' Hpos Hbuf H. apply parser_bind_inv in H as ([] & r & H1 & H2).
  pose proof (Hp _ _ _ _ Hpos H1) as Hr.
  destruct (decodes_bytes n _ _ _ _ Hp Hk Hck buf pos r Hpos Hbuf H1) as (kb & Ek & Hkb).
  destruct (decodes_bytes n _ _ _ _ Hq Hv Hcv buf r pos' ltac:(lia) Hbuf H2) as (vb & Ev & Hvb).
  exists (kb, vb). split; [|auto]. unfold entry_bytes. erewrite context_bind_ok by exact Ek.
  now erewrite context_bind_ok by exact Ev.
Qed.

Lemma element_zero api t :
  wf_type t = true -> readable t = true -> element_decodes 0 (read_column_by_type api) t.
Proof.
  intros Hw Hr. split; [now apply advances_skip_column_data|]. split; [|now apply cut_zero].
  intros b p p' Hp Hb E. rewrite skip_zero in E by auto. cbn in E. inj.
  destruct (any_zero api t Hw Hr b p' Hp Hb) as (c & Ec & _). eauto.
Qed.

Lemma decodes_any api ct :
  wf_type ct = true -> readable ct = true -> (nesting ct <= MAX_TYPE_NESTING)%nat -> forall n, 0 <= n ->
  decodes (skip_column_data ct n) n (read_column_by_type api ct) (any_typed api ct n).
Proof.
  type_induction ct.
  - intros t IH Hw Hr Hd n Hn. apply decodes_nonzero; [intros ->; now apply any_zero|intros _]. cbn [nesting] in Hd.
    eapply decodes_weaken; [|apply decodes_nullable; [assumption|now apply advances_skip_column_data|apply IH; auto; lia]].
    now intros ? (inner & -> & Hi).
  - intros t IH Hw Hr Hd n Hn. cbn [nesting] in Hd. apply (decodes_level _ _ (any_typed api t)).
    + assumption.
    + now apply any_zero.
    + intros k Hk. apply IH; auto; lia.
  - intros k v IHk IHv Hw Hr Hd n Hn. apply decodes_nonzero; [intros ->; now apply any_zero|intros Hne].
    cbn [wf_type readable nesting] in Hw, Hr, Hd. apply andb_prop in Hw as [Hwk Hwv]. apply andb_prop in Hr as [Hrk Hrv].
    apply (decodes_offsets _ _ _ (entry_bytes (read_column_by_type api k) (read_column_by_type api v))
             (fun total '(kb, vb) => framed k total kb = true /\ framed v total vb = true)
             (fun offs '(keys, values) => ret (AnyMap (mkRawMap offs keys values)))); auto.
    + intros pos buf Hp Hb. apply (decodes_entries api 0 k v (element_zero api k Hwk Hrk) (element_zero api v Hwv Hrv) buf pos pos Hp Hb).
      now rewrite !skip_zero.
    + intros total Ht. apply decodes_entries.
      * split; [now apply advances_skip_column_data|]. split; [|apply column_cut; auto; lia].
        eapply decodes_weaken; [|apply IHk; auto; lia]. auto.
      * split; [now apply advances_skip_column_data|]. split; [|apply column_cut; auto; lia].
        eapply decodes_weaken; [|apply IHv; auto; lia]. auto.
    + intros offs total [ks vs] _ Hl <- [Hks Hvs]. eexists. split; [|reflexivity]. cbn -[framed]. auto.
  - intros ts IH Hw Hr Hd n Hn. apply decodes_nonzero; [intros ->; now apply any_zero|intros Hne].
    cbn [nesting wf_type readable] in *. apply nesting_list in Hd. rewrite forallb_forall in Hw, Hr. rewrite Forall_forall in *.
    eapply decodes_weaken; [|apply decodes_tuple].
    + now intros ? (t & -> & Ht).
    + apply Forall_forall. intros t Ht. specialize (Hd t Ht). split; [now apply advances_skip_column_data; auto|].
      split; [|apply column_cut; auto; lia]. eapply decodes_weaken; [|apply IH; auto; lia]. auto.
  - discriminate.
  - discriminate.
  - intros t. destruct t; try exact I; intros Hw Hr Hd rows Hn; try discriminate Hr;
      try (apply decodes_nonzero; [intros ->; now apply any_zero|intros Hne]; now apply decodes_simple).
    + now apply decodes_point.
    + now apply decodes_skip_ring.
    + now apply decodes_skip_polygon.
    + apply (decodes_level _ _ (array_typed (array_typed point_typed)));
        [assumption|exact (any_zero SyncApi Polygon eq_refl eq_refl)|apply decodes_skip_polygon].
Qed.

(** * Properties *)

Lemma find_column_in b wanted info : find_column b wanted = Ok info -> In info (columns b).
Proof.
  unfold find_column. destruct (List.find _ _) as [c|] eqn:E; [|discriminate]. intros H. cbn in H. inj.
  now apply find_some in E as [E _].
Qed.

Lemma column_buf_plain n info : wf_column n info = true -> column_buf info = data info.
Proof.
  intros H. apply wf_column_inv in H as (_ & _ & _ & Hlc & _). unfold column_buf. rewrite Hlc. cbn. now rewrite andb_false_r.
Qed.

Lemma read_well_typed api b info ct :
  wf_block b = true -> In info (columns b) -> parse_type (type_name info) = Ok ct -> readable ct = true ->
  exists c, decode_column b info (read_column_by_type api ct) = Ok c /\ any_typed api ct (rows b) c.
Proof.
  intros Hb Hin Hct Hr. apply wf_block_inv in Hb as (_ & Hrows & Hcols).
  rewrite forallb_forall in Hcols. specialize (Hcols _ Hin). pose proof (column_buf_plain _ _ Hcols) as Hbuf.
  apply wf_column_inv in Hcols as (_ & _ & Hlen & _ & ct' & Hct' & _ & Hf). rewrite Hct in Hct'. injection Hct' as <-.
  apply framed_inv in Hf. pose proof (blen_nonneg (data info)). pose proof (parse_type_rec_bounded _ _ _ Hct) as [Hw Hd].
  destruct (decodes_any api ct Hw Hr ltac:(lia) (rows b) (proj1 Hrows) (data info) 0 (blen (data info)))
    as (c & E & Hc); [lia|assumption|exact Hf|].
  exists c. split; [|exact Hc]. unfold decode_column, new_context. rewrite Hbuf, E. reflexivity.
Qed.

(** C18: Reading a column of a well-formed block by name or by index, without knowing its
    type, succeeds and gives the variant of [AnyColumnData] its declared type calls for,
    for every type but LowCardinality, JSON, Variant, Dynamic, aggregate states and
    unknown ones, none of them nested either.  A scalar, string or enum column has the
    block's rows, each of which can be fetched, and an index beyond them is a protocol
    error; Nullable is the column of its inner type; an array is one typed column of the
    elements of all its rows (its offsets are not kept, so the number of elements is not
    claimed), and geo columns are such arrays of pairs of Float64 columns; a map has one
    offset per row and the bytes of a key and a value column with as many rows as the
    last offset says, a tuple the bytes of one column per element with the block's rows,
    each delimited as its type prescribes; a Nothing column is [AnyUnknown]. *)
Theorem any_column_well_typed (api : Api) (b : Block) (wanted : bytes) (info : ColumnInfo) (ct : ColumnType) (i : Z) :
  wf_block b = true ->
  (find_column b wanted = Ok info ->
   parse_type (type_name info) = Ok ct -> readable ct = true ->
   exists c, read_column_by_name api b wanted = Ok c /\ any_typed api ct (rows b) c) /\
  (column_at b i = Ok info ->
   parse_type (type_name info) = Ok ct -> readable ct = true ->
   exists c, read_column_by_index api b i = Ok c /\ any_typed api ct (rows b) c).
Proof.
  intros Hb. split; intros Hf Hct Hr.
  - destruct (read_well_typed api b info ct Hb (find_column_in _ _ _ Hf) Hct Hr) as (c & E & Hc). exists c.
    split; [|exact Hc]. unfold read_column_by_name. rewrite Hf. cbn [bind result_monad]. rewrite Hct. exact E.
  - assert (In info (columns b)) as Hin.
    { unfold column_at in Hf. destruct (nth_error _ _) eqn:En; [|discriminate]. cbn in Hf. inj. now apply nth_error_In in En. }
    destruct (read_well_typed api b info ct Hb Hin Hct Hr) as (c & E & Hc). exists c.
    split; [|exact Hc]. unfold read_column_by_index. rewrite Hf. cbn [bind result_monad]. rewrite Hct. exact E.
Qed.

Lemma any_column_well_typed_witness :
  exists c, read_column_by_name SyncApi written_sample (str "tags") = Ok c /\
            any_typed SyncApi (Array TString) 2 c.
Proof.
  apply (proj1 (any_column_well_typed SyncApi written_sample (str "tags")
    (mkColumnInfo (str "tags") (str "Array(String)") (to_le 8 1 ++ to_le 8 3 ++ [x01; x61; x00; x02; x62; x63]) [])
    (Array TString) 0 eq_refl)); reflexivity.
Defined.

(** What [AnyColumnData] does not keep.  [len] of a tuple column is the number of its
    elements and [len] of an array column the number of all elements, not the rows; the
    null mask of a Nullable column is dropped, so [into_owned] returns a value for a NULL
    row; and [into_owned] flattens an array. *)
Theorem any_column_forgets :
  let read ct rows buf := match read_column_by_type SyncApi ct (new_context rows buf) with
                          | Ok (c, _) => c
                          | Err _ => AnyUnknown
                          end in
  any_len (read (Tuple [UInt8; UInt8]) 3 [x01; x02; x03; x04; x05; x06]) = 2 /\
  any_len (read (Array UInt8) 2 (to_le 8 1 ++ to_le 8 3 ++ [x07; x08; x09])) = 3 /\
  into_owned (read (Nullable UInt8) 2 [x01; x00; x05; x07]) = Ok (OwnedUInt [Num 5; Num 7]) /\
  into_owned (read (Array UInt8) 2 (to_le 8 1 ++ to_le 8 3 ++ [x07; x08; x09])) = Ok (OwnedUInt [Num 7; Num 8; Num 9]).
Proof. vm_compute. repeat split; reflexivity. Qed.
