(* ===== verification/TypedBlocks.v ===== *)
(** * From typed values to a block and back

    The path of an insert and of a select composed: the values of a column are written
    with [write_column] (src/column/mod.rs and shared/column/), stand in a [Block], go
    over the wire through [write_block] (shared/block_writer.rs) and the block readers,
    and are fetched from the received block with [Block::column] or without knowing
    their type (shared/block.rs).

    [WireColumn T ct] says that what is written for values of [T] is a column of type
    [ct] to the function that delimits columns; it is proved for the scalar types and
    carried through [Option], [Vec] and tuples. *)

From Stdlib Require Import String ZArith Lia Bool List Sorted.
From Stdlib Require Import Strings.Byte.
From coqutil Require Import Byte.
From S2P Require Import Prelude Reader Limits Utf8 Wire TypeParser SkipColumn Arena ColumnReader Framing BlockReader BlockWriter Columns CompoundColumns DynamicVariant AnyColumn.
Import ListNotations.

(** [bs] is a column of [n] rows, wherever it stands. *)
Definition lays (ct : ColumnType) (n : Z) (bs : bytes) : Prop :=
  forall pre post, blen (pre ++ bs ++ post) <= ISIZE_MAX ->
  skip_column_data ct n (pre ++ bs ++ post) (blen pre) = Ok (tt, blen pre + blen bs).

Class WireColumn (T : Type) `{ColumnLaws T} (ct : ColumnType) := {
  (** Beyond [valid]: what the limits of the protocol ask for. *)
  wire_ok : list T -> Prop;
  wire_lays : forall vs bs, Forall valid vs -> wire_ok vs -> Columns.write_column vs = Ok bs ->
    blen bs <= MAX_COLUMN_BYTES -> lays ct (blen vs) bs;
}.
Arguments wire_ok {T _ _ _} ct {_} _.

(** ** Scalars *)

(** Columns of a scalar type that take [size_of T] bytes per row. *)
Class PlainWire (T : Type) `{PlainColumn T} (ct : ColumnType) : Prop :=
  plain_wire : forall n, skip_column_data ct n = nonzero n (skip_fixed n (size_of T)) \/
                         skip_column_data ct n = nonzero n (advance_pos n) /\ size_of T = 1.

Lemma lays_fixed n w bs pre post :
  0 <= n -> 0 <= w -> blen bs = n * w -> blen bs <= MAX_COLUMN_BYTES -> blen (pre ++ bs ++ post) <= ISIZE_MAX ->
  nonzero n (skip_fixed n w) (pre ++ bs ++ post) (blen pre) = Ok (tt, blen pre + blen bs).
Proof.
  intros Hn Hw Hlen Hmax Hfit. pose proof (blen_nonneg pre). pose proof (blen_nonneg post).
  unfold nonzero. destruct (Z.eqb_spec n 0) as [->|]; [rewrite Hlen; cbn; do 3 f_equal; lia|].
  apply skip_fixed_ok; [lia..|]. rewrite !blen_app in *. conj; [lia|do 2 f_equal|]; lia.
Qed.

Lemma lays_advance bs pre post :
  blen (pre ++ bs ++ post) <= ISIZE_MAX ->
  advance_pos (blen bs) (pre ++ bs ++ post) (blen pre) = Ok (tt, blen pre + blen bs).
Proof.
  intros Hfit. pose proof (blen_nonneg pre). pose proof (blen_nonneg post). pose proof (blen_nonneg bs).
  apply advance_pos_ok; [lia..|]. rewrite !blen_app in *. split; [reflexivity|lia].
Qed.

Lemma lays_bytes bs pre post :
  blen (pre ++ bs ++ post) <= ISIZE_MAX ->
  nonzero (blen bs) (advance_pos (blen bs)) (pre ++ bs ++ post) (blen pre) = Ok (tt, blen pre + blen bs).
Proof.
  intros Hfit. unfold nonzero. destruct (Z.eqb_spec (blen bs) 0) as [E|]; [cbn; do 3 f_equal; lia|]. now apply lays_advance.
Qed.

#[export] Instance plain_wire_column {T} `{PlainLaws T} ct `{!PlainWire T ct} : WireColumn T ct.
Proof.
  refine {| wire_ok := fun _ => True |}. intros vs bs Hv _ Hw Hmax pre post Hfit.
  destruct (plain_written vs Hv) as (parts & Hw' & Hp). cbn [Columns.write_column plain_column] in Hw.
  rewrite Hw' in Hw. injection Hw as <-. pose proof (parts_length _ _ _ _ Hp) as Hlen.
  pose proof (size_pos (T := T)). pose proof (blen_nonneg vs).
  destruct (plain_wire (T := T) (ct := ct) (blen vs)) as [-> | [-> E]].
  - apply lays_fixed; auto; lia.
  - rewrite E, Z.mul_1_r in Hlen. rewrite <- Hlen. now apply lays_bytes.
Defined.

#[export] Instance u8_wire : PlainWire (num U8) UInt8. Proof. right. now split. Qed.
#[export] Instance i8_wire : PlainWire (num I8) Int8. Proof. right. now split. Qed.
#[export] Instance enum8_wire : PlainWire (num I8) Enum8. Proof. right. now split. Qed.
#[export] Instance u16_wire : PlainWire (num U16) UInt16. Proof. now left. Qed.
#[export] Instance i16_wire : PlainWire (num I16) Int16. Proof. now left. Qed.
#[export] Instance enum16_wire : PlainWire (num I16) Enum16. Proof. now left. Qed.
#[export] Instance u32_wire : PlainWire (num U32) UInt32. Proof. now left. Qed.
#[export] Instance i32_wire : PlainWire (num I32) Int32. Proof. now left. Qed.
#[export] Instance f32_wire : PlainWire (num F32) Float32. Proof. now left. Qed.
#[export] Instance u64_wire : PlainWire (num U64) UInt64. Proof. now left. Qed.
#[export] Instance i64_wire : PlainWire (num I64) Int64. Proof. now left. Qed.
#[export] Instance f64_wire : PlainWire (num F64) Float64. Proof. now left. Qed.
#[export] Instance u128_wire : PlainWire (num U128) UInt128. Proof. now left. Qed.
#[export] Instance i128_wire : PlainWire (num I128) Int128. Proof. now left. Qed.
#[export] Instance u256_wire : PlainWire uint256 UInt256. Proof. now left. Qed.
#[export] Instance i256_wire : PlainWire int256 Int256. Proof. now left. Qed.
#[export] Instance date_wire : PlainWire date Date. Proof. now left. Qed.
#[export] Instance date32_wire : PlainWire (num I32) Date32. Proof. now left. Qed.
#[export] Instance datetime_wire : PlainWire datetime DateTime. Proof. now left. Qed.
#[export] Instance datetime64_wire scale : PlainWire datetime64 (DateTime64 scale). Proof. now left. Qed.
#[export] Instance uuid_wire : PlainWire uuid UUID. Proof. now left. Qed.
#[export] Instance ipv4_wire : PlainWire ipv4 IPv4. Proof. now left. Qed.

#[export] Instance bool_wire : WireColumn bool TBool.
Proof.
  refine {| wire_ok := fun _ => True |}. intros vs bs _ _ Hw _ pre post Hfit.
  cbn in Hw. injection Hw as <-. rewrite <- (blen_map bool_byte vs). now apply lays_bytes.
Defined.

#[export] Instance ipv6_wire : WireColumn ipv6 IPv6.
Proof.
  refine {| wire_ok := fun _ => True |}. intros vs bs Hv _ Hw Hmax pre post Hfit.
  destruct (ipv6_written vs Hv) as (parts & Hw' & Hp). cbn [Columns.write_column ipv6_column] in Hw.
  rewrite Hw' in Hw. injection Hw as <-. pose proof (parts_length _ _ _ _ Hp) as Hlen.
  pose proof (blen_nonneg vs). apply lays_fixed; auto; lia.
Defined.

(** Strings no longer than the protocol allows. *)
Definition short (v : text) : Prop := blen (text_bytes v) <= MAX_STRING_BYTES.

Lemma skip_written_string v pre post :
  short v -> blen (pre ++ encode_text v ++ post) <= ISIZE_MAX ->
  (let* n := parse_varint in
   let* len := lift (protocol (checked_string_len n (str "string value length"))) in
   advance_pos len) (pre ++ encode_text v ++ post) (blen pre) = Ok (tt, blen pre + blen (encode_text v)).
Proof.
  intros Hs Hfit. unfold short in Hs. unfold encode_text, write_varint in *. pose proof (blen_nonneg (text_bytes v)) as Hn.
  set (n := blen (text_bytes v)) in *. pose proof (blen_nonneg pre). pose proof (blen_nonneg post).
  rewrite <- !app_assoc in *.
  assert (parse_varint (pre ++ encode_varint n ++ text_bytes v ++ post) (blen pre) =
          Ok (n, blen pre + blen (encode_varint n))) as Ev.
  { pose proof (agrees_parse_varint (pre ++ encode_varint n ++ text_bytes v ++ post) (blen pre)) as Ha.
    rewrite drop_app_exact, read_encode_varint in Ha by (unfold MAX_STRING_BYTES, U64_MAX in *; lia).
    rewrite !blen_app in Ha. pose proof (blen_nonneg (encode_varint n)). rewrite !blen_app in Hfit.
    destruct Ha as (p & E & Hp & Hd); [lia..|]. rewrite E. do 2 f_equal. apply (f_equal blen) in Hd.
    rewrite blen_drop, !blen_app in Hd by (rewrite !blen_app; lia). lia. }
  erewrite parser_bind_ok by exact Ev. unfold protocol. rewrite checked_string_len_ok by lia. cbn [map_err].
  erewrite parser_bind_ok by reflexivity. rewrite app_assoc in *.
  replace (blen pre + blen (encode_varint n)) with (blen (pre ++ encode_varint n)) by (rewrite blen_app; lia).
  pose proof (lays_advance (text_bytes v) (pre ++ encode_varint n) post Hfit) as E. fold n in E. rewrite E.
  rewrite !blen_app. do 2 f_equal. fold n. lia.
Qed.

#[export] Instance text_wire : WireColumn text TString.
Proof.
  refine {| wire_ok := Forall short |}. intros vs bs _ Hs Hw _. cbn [Columns.write_column text_column] in Hw.
  rewrite write_each_text in Hw. injection Hw as <-. intros pre post Hfit.
  cbn [skip_column_data skip_simple]. unfold skip_string_rows, nonzero. rewrite to_nat_blen.
  enough (repeat_n (length vs) (let* n := parse_varint in
     let* len := lift (protocol (checked_string_len n (str "string value length"))) in advance_pos len)
     (pre ++ concat (map encode_text vs) ++ post) (blen pre) = Ok (tt, blen pre + blen (concat (map encode_text vs)))) as Er.
  { destruct (Z.eqb_spec (blen vs) 0) as [E|]; [|exact Er]. apply blen_zero in E as ->. cbn. do 2 f_equal. lia. }
  revert pre Hfit. induction Hs as [|v vs Hv _ IH]; intros pre Hfit; [cbn; do 2 f_equal; lia|].
  cbn [length repeat_n map concat] in *. rewrite <- app_assoc in *.
  erewrite parser_bind_ok by (now apply skip_written_string). rewrite app_assoc in *.
  replace (blen pre + blen (encode_text v)) with (blen (pre ++ encode_text v)) by (rewrite blen_app; lia).
  rewrite IH by assumption. rewrite !blen_app. do 2 f_equal. lia.
Defined.

(** ** Compound types *)

Lemma lays_app p n ct bs1 bs2 :
  (forall pre post, blen (pre ++ bs1 ++ post) <= ISIZE_MAX -> p (pre ++ bs1 ++ post) (blen pre) = Ok (tt, blen pre + blen bs1)) ->
  lays ct n bs2 ->
  forall pre post, blen (pre ++ (bs1 ++ bs2) ++ post) <= ISIZE_MAX ->
  (p ;; skip_column_data ct n) (pre ++ (bs1 ++ bs2) ++ post) (blen pre) = Ok (tt, blen pre + blen (bs1 ++ bs2)).
Proof.
  intros H1 H2 pre post Hfit. rewrite <- app_assoc in *. erewrite parser_bind_ok by (now apply H1).
  rewrite app_assoc in *. replace (blen pre + blen bs1) with (blen (pre ++ bs1)) by (rewrite blen_app; lia).
  rewrite H2 by assumption. rewrite !blen_app. do 2 f_equal. lia.
Qed.

Lemma lays_nonzero n p bs pre post :
  (n = 0 -> bs = []) -> (n <> 0 -> p (pre ++ bs ++ post) (blen pre) = Ok (tt, blen pre + blen bs)) ->
  nonzero n p (pre ++ bs ++ post) (blen pre) = Ok (tt, blen pre + blen bs).
Proof.
  intros H0 H1. unfold nonzero. destruct (Z.eqb_spec n 0) as [E|]; [|now apply H1]. rewrite (H0 E). cbn. do 2 f_equal. lia.
Qed.

Lemma write_each_empty {T} `{ClickHouseValue T} (vs : list T) bs : blen vs = 0 -> write_each vs = Ok bs -> bs = [].
Proof. intros E Hw. apply blen_zero in E as ->. cbn in Hw. congruence. Qed.

Lemma blen_write_offsets {A} (data : list (list A)) : blen (write_offsets (map blen data)) = blen data * 8.
Proof.
  unfold write_offsets. rewrite (blen_concat 8) by (apply Forall_map, Forall_forall; intros; now rewrite blen_to_le).
  now rewrite blen_map, blen_cumulative.
Qed.

Section Compound.
Context {T : Type} `{RowWise T} (ct : ColumnType) `{!WireColumn T ct}.

(** Elements written value by value. *)
Lemma elements_lay (vs : list T) bs :
  Forall valid vs -> wire_ok ct vs -> write_each vs = Ok bs -> blen bs <= MAX_COLUMN_BYTES -> lays ct (blen vs) bs.
Proof. intros Hv Hok Hw Hmax. apply wire_lays; auto. now rewrite row_wise. Qed.

#[export] Instance nullable_wire `{Default T} `{!DefaultValid T} : WireColumn (option T) (Nullable ct).
Proof.
  refine {| wire_ok := fun vs => wire_ok ct (map or_default vs) |}. intros vs bs Hv Hok Hw Hmax pre post Hfit.
  cbn [Columns.write_column nullable_column] in Hw. unfold nullable_write_column in Hw.
  destruct (write_each (map or_default vs)) as [inner|e] eqn:Ei; [|discriminate]. cbn in Hw. injection Hw as <-.
  assert (blen (map null_byte vs) = blen vs) as Hm by (unfold blen; now rewrite length_map).
  assert (blen (map or_default vs) = blen vs) as Hl by (unfold blen; now rewrite length_map).
  pose proof (blen_nonneg (map null_byte vs)) as Hn. rewrite blen_app in Hmax.
  cbn [skip_column_data]. apply lays_nonzero.
  - intros E. rewrite <- Hl in E. rewrite (write_each_empty _ _ E Ei). rewrite Hl in E. apply blen_zero in E as ->. reflexivity.
  - intros _. apply lays_app; [|rewrite <- Hl; apply elements_lay; [now apply or_default_valid|assumption..|lia]|assumption].
    intros pre' post' Hfit'. rewrite <- Hm at 1. now apply lays_advance.
Defined.

Lemma cumulative_sorted {A} (data : list (list A)) acc : Sorted Z.le (acc :: cumulative acc (map blen data)).
Proof.
  revert acc; induction data as [|l data IH]; intros acc; [repeat constructor|]. cbn [map cumulative].
  constructor; [apply IH|]. constructor. pose proof (blen_nonneg l). lia.
Qed.

Lemma offsets_decoded (offs : list Z) :
  Forall (fun o => 0 <= o <= U64_MAX) offs -> map from_le (chunks_exact 8 (concat (map (to_le 8) offs))) = offs.
Proof.
  intros Hoff. assert (Forall (fun p => blen p = 8) (map (to_le 8) offs)) as Hp
    by (apply Forall_map, Forall_forall; intros; now rewrite blen_to_le).
  assert (blen (concat (map (to_le 8) offs)) = blen offs * 8) as Hl
    by (rewrite (blen_concat 8) by assumption; unfold blen; now rewrite length_map).
  rewrite <- (full_chunks_exact 8 (length offs)) by (unfold blen in *; lia).
  replace (length offs) with (Z.to_nat (blen (concat (map (to_le 8) offs)) / 8)) by (rewrite Hl, Z.div_mul; unfold blen; lia).
  change (full_chunks (Z.to_nat (?x / 8)) 8 ?l) with (as_chunks 8 l). rewrite as_chunks_concat by (lia || assumption).
  rewrite map_map. clear -Hoff. induction Hoff as [|o l Ho _ IH]; [reflexivity|]. cbn [map]. rewrite IH. f_equal.
  apply from_to_le. unfold U64_MAX in Ho. cbn. lia.
Qed.

Lemma skip_written_offsets {A} (data : list (list A)) name pre post :
  blen data * 8 <= MAX_COLUMN_BYTES -> blen (concat data) <= MAX_BLOCK_ROWS ->
  blen (pre ++ write_offsets (map blen data) ++ post) <= ISIZE_MAX ->
  skip_offsets (blen data) name (pre ++ write_offsets (map blen data) ++ post) (blen pre) =
  Ok (blen (concat data), blen pre + blen data * 8).
Proof.
  intros Hmax Hrows Hfit. pose proof (cumulative_range data 0) as Hr. set (offs := cumulative 0 (map blen data)) in *.
  pose proof (blen_write_offsets data) as Hl.
  pose proof (blen_nonneg pre). pose proof (blen_nonneg post). pose proof (blen_nonneg data). rewrite !blen_app in Hfit.
  apply skip_offsets_ok; [lia|rewrite !blen_app; lia..|]. split; [assumption|]. exists (blen (concat data)).
  split; [reflexivity|]. split; [rewrite !blen_app; lia|].
  replace (slice _ _ _) with (write_offsets (map blen data))
    by (rewrite <- Hl; unfold slice; rewrite drop_app_exact, take_app_len by lia; reflexivity).
  unfold write_offsets. fold offs. rewrite offsets_decoded
    by (eapply Forall_impl; [|exact Hr]; cbn; intros o Ho; unfold MAX_BLOCK_ROWS, U64_MAX in *; lia).
  rewrite fold_offsets_ok.
  - f_equal. destruct data as [|l data]; [reflexivity|]. unfold offs. now rewrite last_cumulative.
  - split; [apply cumulative_sorted|]. eapply Forall_impl; [|exact Hr]. cbn. lia.
Qed.

#[export] Instance array_wire : WireColumn (list T) (Array ct).
Proof.
  refine {| wire_ok := fun data => wire_ok ct (concat data) /\ blen (concat data) <= MAX_BLOCK_ROWS |}.
  intros data bs Hv [Hok Hrows] Hw Hmax pre post Hfit. cbn [Columns.write_column array_column] in Hw.
  unfold array_write_column in Hw. destruct (write_each (concat data)) as [inner|e] eqn:Ei; [|discriminate].
  cbn in Hw. injection Hw as <-. pose proof (blen_nonneg (concat data)).
  pose proof (blen_write_offsets data) as Hl.
  rewrite blen_app in Hmax. pose proof (blen_nonneg inner). pose proof (blen_nonneg data).
  cbn [skip_column_data]. apply lays_nonzero.
  { intros E. apply blen_zero in E as ->. cbn in Ei. now injection Ei as <-. }
  intros _. unfold array_of. rewrite <- app_assoc in *.
  erewrite parser_bind_ok by (apply skip_written_offsets; [lia|assumption..]).
  destruct (Z.ltb_spec 0 (blen (concat data))).
  - rewrite app_assoc in *. replace (blen pre + blen data * 8) with (blen (pre ++ write_offsets (map blen data))) by (rewrite blen_app; lia).
    rewrite (elements_lay (concat data) inner); [|now apply vec_valid_concat|assumption..|lia|assumption].
    rewrite !blen_app. do 2 f_equal. lia.
  - rewrite (write_each_empty (concat data) inner) by (lia || assumption). rewrite app_nil_r, Hl. reflexivity.
Defined.
End Compound.

Section Pairs.
Context {K V : Type} `{RowWise K} `{RowWise V} (kt vt : ColumnType) `{!WireColumn K kt} `{!WireColumn V vt}.

Lemma lays_pair n (ks : list K) (vs : list V) kb vb :
  Forall valid ks -> Forall valid vs -> wire_ok kt ks -> wire_ok vt vs -> blen ks = n -> blen vs = n ->
  write_each ks = Ok kb -> write_each vs = Ok vb -> blen kb + blen vb <= MAX_COLUMN_BYTES ->
  forall pre post, blen (pre ++ (kb ++ vb) ++ post) <= ISIZE_MAX ->
  (skip_column_data kt n ;; skip_column_data vt n) (pre ++ (kb ++ vb) ++ post) (blen pre) = Ok (tt, blen pre + blen (kb ++ vb)).
Proof.
  intros Hk Hv Hok Hov Hkn Hvn Hwk Hwv Hmax. pose proof (blen_nonneg kb). pose proof (blen_nonneg vb). apply lays_app.
  - rewrite <- Hkn. apply (elements_lay kt); auto. lia.
  - rewrite <- Hvn. apply (elements_lay vt); auto. lia.
Qed.

#[export] Instance tuple2_wire : WireColumn (tuple2 K V) (Tuple [kt; vt]).
Proof.
  refine {| wire_ok := fun vs => wire_ok kt (map t2_1 vs) /\ wire_ok vt (map t2_2 vs) |}.
  intros vs bs Hv [Hok Hov] Hw Hmax pre post Hfit. cbn [Columns.write_column tuple2_column] in Hw. unfold tuple2_write_column in Hw.
  destruct (write_each (map t2_1 vs)) as [kb|e] eqn:Ek; [|discriminate]. cbn [bind result_monad] in Hw.
  destruct (write_each (map t2_2 vs)) as [vb|e] eqn:Ev; [|discriminate]. cbn in Hw. injection Hw as <-.
  assert (Forall valid (map t2_1 vs) /\ Forall valid (map t2_2 vs)) as [Hvk Hvv]
    by (split; apply Forall_map; eapply Forall_impl; try exact Hv; intros t Ht; apply Ht).
  assert (blen (map t2_1 vs) = blen vs /\ blen (map t2_2 vs) = blen vs) as [Hk Hn] by (now rewrite !blen_map).
  rewrite blen_app in Hmax. cbn [skip_column_data]. apply lays_nonzero.
  - intros E. rewrite <- Hk in E. rewrite (write_each_empty _ _ E Ek). rewrite Hk, <- Hn in E. now rewrite (write_each_empty _ _ E Ev).
  - intros _. rewrite !for_each_cons. cbn [for_each].
    pose proof (lays_pair (blen vs) _ _ kb vb Hvk Hvv Hok Hov Hk Hn Ek Ev Hmax pre post Hfit) as Hp.
    revert Hp. cbn -[skip_column_data blen]. destruct (skip_column_data kt _ _ _) as [[[] q]|]; [|auto].
    now destruct (skip_column_data vt _ _ _) as [[[] r]|].
Defined.

#[export] Instance map_wire `{KeyEqLaws K} : WireColumn (hash_map K V) (TMap kt vt).
Proof.
  refine {| wire_ok := fun data =>
    let all := concat (map entries data) in
    wire_ok kt (map fst all) /\ wire_ok vt (map snd all) /\ blen all <= MAX_BLOCK_ROWS |}.
  intros data bs Hv (Hok & Hov & Hrows) Hw Hmax pre post Hfit. destruct (map_valid_parts data Hv) as [Hvk Hvv].
  cbn [Columns.write_column map_column] in Hw. unfold map_write_column in Hw. set (all := concat (map entries data)) in *.
  destruct (write_each (map fst all)) as [kb|e] eqn:Ek; [|discriminate]. cbn [bind result_monad] in Hw.
  destruct (write_each (map snd all)) as [vb|e] eqn:Ev; [|discriminate]. cbn [bind result_monad] in Hw.
  rewrite <- (map_map entries blen) in Hw. injection Hw as <-.
  assert (blen (map fst all) = blen all /\ blen (map snd all) = blen all) as [Hk Hn] by (now rewrite !blen_map).
  pose proof (blen_write_offsets (map entries data)) as Hl. rewrite blen_map in Hl.
  pose proof (blen_nonneg kb). pose proof (blen_nonneg vb). pose proof (blen_nonneg data). pose proof (blen_nonneg all).
  rewrite !blen_app in Hmax. cbn [skip_column_data]. apply lays_nonzero.
  { intros E. apply blen_zero in E as ->. cbn in all, Ek, Ev. injection Ek as <-. now injection Ev as <-. }
  intros _. unfold array_of. rewrite <- app_assoc in *. rewrite <- (blen_map entries data).
  erewrite parser_bind_ok by (apply skip_written_offsets; [rewrite blen_map; lia|assumption..]).
  fold all. destruct (Z.ltb_spec 0 (blen all)).
  - rewrite app_assoc in *. rewrite blen_map, <- Hl, <- blen_app.
    rewrite (lays_pair (blen all) _ _ kb vb Hvk Hvv Hok Hov Hk Hn Ek Ev) by (lia || assumption).
    rewrite !blen_app. do 2 f_equal. lia.
  - rewrite (write_each_empty (map fst all) kb), (write_each_empty (map snd all) vb) by (lia || assumption).
    rewrite !app_nil_r, Hl, blen_map. reflexivity.
Defined.
End Pairs.

(** * The round trip *)

Lemma lays_framed ct n bs : lays ct n bs -> blen bs <= ISIZE_MAX -> framed ct n bs = true.
Proof.
  intros H Hmax. specialize (H [] []). rewrite app_nil_r in H. cbn [app] in H. unfold framed.
  change (blen (@nil byte)) with 0 in H. rewrite H by assumption. apply Z.eqb_refl.
Qed.

Lemma find_column_at before col after n :
  ~ In (name col) (map name before) ->
  find_column (mkBlock (before ++ col :: after) n) (name col) = Ok col.
Proof.
  intros Hn. unfold find_column. cbn [columns].
  enough (List.find (fun c => bytes_eqb (name c) (name col)) (before ++ col :: after) = Some col) as -> by reflexivity.
  induction before as [|c before IH]; cbn [app List.find]; [now rewrite bytes_eqb_refl|].
  cbn [map In] in Hn. destruct (bytes_eqb_spec (name c) (name col)) as [E|_]; [tauto|]. apply IH. tauto.
Qed.

Lemma column_at_middle before col after n :
  column_at (mkBlock (before ++ col :: after) n) (blen before) = Ok col.
Proof. unfold column_at. cbn [columns]. now rewrite to_nat_blen, nth_error_app2, Nat.sub_diag by lia. Qed.

Lemma decode_typed {T} `{ColumnLaws T} (vs : list T) b info bs :
  Columns.write_column vs = Ok bs -> reads (read_column T) (blen vs) (blen vs) bs (fun c => column_holds c vs) ->
  rows b = blen vs -> column_buf info = bs -> blen bs <= ISIZE_MAX ->
  exists c, decode_column b info (read_column T) = Ok c /\ column_holds c vs.
Proof.
  intros Hw Hr Hb Hi Hmax. destruct (Hr [] [] ltac:(now rewrite app_nil_r)) as (c & E & Hc). exists c. split; [|exact Hc].
  unfold decode_column, new_context. rewrite Hb, Hi. rewrite app_nil_r in E. cbn [app] in E. change (blen (@nil byte)) with 0 in E.
  now rewrite E.
Qed.

(** C10: Typed columns survive the whole path of an insert and a select.  Take values that
    are scalars or strings written value by value, or one level of [Option], [Vec], [HashMap]
    or pair over them (not [Vec]s of tuples or of [Option]s), laid out as the type [ct],
    which is stored as it is sent.  Written into a block beside any other well-formed
    columns, they come back: what is read from the wire is that block, and [Block::column]
    and [Block::column_by_index] on it give a column that holds exactly the values that were
    written.  Read without knowing the type, the column has the type its name declares. *)
Theorem typed_block_roundtrip {T : Type} {Hval : ClickHouseValue T} {Hcol : ClickHouseColumn T} {Hlaws : ColumnLaws T}
    (ct : ColumnType) {Hwire : WireColumn T ct}
    (vs : list T) (nm tn rest : bytes) (before after : list ColumnInfo) :
  Forall valid vs -> wire_ok ct vs ->
  parse_type tn = Ok ct -> verbatim ct = true -> wire_text nm = true -> wire_text tn = true ->
  ~ In nm (map name before) -> blen vs <= MAX_BLOCK_ROWS ->
  blen (before ++ after) < MAX_BLOCK_COLUMNS -> forallb (wf_column (blen vs)) (before ++ after) = true ->
  exists bs, Columns.write_column vs = Ok bs /\
  (blen bs <= MAX_COLUMN_BYTES ->
   let b := mkBlock (before ++ mkColumnInfo nm tn bs [] :: after) (blen vs) in
   run read_block_body (write_block b ++ rest) = Ok (b, rest) /\
   (exists c, column T b nm = Ok c /\ column_by_index T b (blen before) = Ok c /\ column_holds c vs) /\
   (readable ct = true -> forall api,
    exists c, read_column_by_name api b nm = Ok c /\ any_typed api ct (blen vs) c)).
Proof.
  intros Hv Hok Hct Hver Hnm Htn Hfresh Hrows Hcols Hwf. destruct (column_written vs Hv) as (bs & Hw & Hr).
  exists bs. split; [exact Hw|]. intros Hmax b. set (info := mkColumnInfo nm tn bs []) in *.
  assert (blen bs <= ISIZE_MAX) as Hfit by (unfold MAX_COLUMN_BYTES, ISIZE_MAX in *; lia).
  assert (wf_column (blen vs) info = true) as Hinfo.
  { unfold wf_column, info. cbn [name type_name data lc_materialized]. rewrite Hnm, Htn, Hct, Hver.
    rewrite (lays_framed ct _ bs) by (try assumption; now apply wire_lays).
    destruct (Z.leb_spec (blen bs) MAX_COLUMN_BYTES); [reflexivity|lia]. }
  assert (wf_block b = true) as Hb.
  { unfold wf_block, b. cbn [columns rows]. rewrite forallb_app in *. cbn [forallb]. apply andb_prop in Hwf as [-> ->].
    rewrite Hinfo. cbn [andb]. pose proof (blen_nonneg vs). rewrite blen_app in Hcols. rewrite blen_app, blen_cons.
    destruct (Z.leb_spec (blen before + (1 + blen after)) MAX_BLOCK_COLUMNS); [|lia].
    destruct (Z.leb_spec 0 (blen vs)); [|lia]. destruct (Z.leb_spec (blen vs) MAX_BLOCK_ROWS); [reflexivity|lia]. }
  assert (find_column b nm = Ok info) as Hfind by exact (find_column_at before info after (blen vs) Hfresh).
  assert (column_buf info = bs) as Hbuf by (unfold column_buf; cbn; now rewrite andb_false_r).
  split; [now apply read_block_written|]. split.
  - destruct (decode_typed vs b info bs Hw Hr eq_refl Hbuf Hfit) as (c & E & Hc). exists c.
    split; [|split; [|exact Hc]]; [unfold column; now rewrite Hfind|].
    unfold column_by_index. unfold b. now rewrite column_at_middle.
  - intros Hread api. destruct (read_well_typed api b info ct Hb (find_column_in _ _ _ Hfind) Hct Hread) as (c & E & Hc).
    exists c. split; [|exact Hc]. unfold read_column_by_name. rewrite Hfind. cbn [bind result_monad]. cbn [type_name info].
    rewrite Hct. exact E.
Qed.

Lemma typed_block_roundtrip_witness :
  let vs := [[Text (str "a")]; [Text (str ""); Text (str "bc")]] in
  exists bs, Columns.write_column vs = Ok bs /\
  let b := mkBlock [mkColumnInfo (str "id") (str "UInt16") [x01; x00; x02; x00] [];
                    mkColumnInfo (str "tags") (str "Array(String)") bs []] 2 in
  run read_block_body (write_block b ++ [x2a]) = Ok (b, [x2a]) /\
  exists c, column (list text) b (str "tags") = Ok c /\ column_holds c vs.
Proof.
  intros vs. destruct (typed_block_roundtrip (Array TString) vs (str "tags") (str "Array(String)") [x2a]
    [mkColumnInfo (str "id") (str "UInt16") [x01; x00; x02; x00] []] []) as (bs & Hw & H).
  - repeat constructor.
  - split; [repeat constructor; vm_compute; congruence|vm_compute; congruence].
  - reflexivity.
  - reflexivity.
  - reflexivity.
  - reflexivity.
  - vm_compute. intuition discriminate.
  - vm_compute. congruence.
  - reflexivity.
  - reflexivity.
  - exists bs. split; [exact Hw|]. destruct H as (H1 & (c & Hc & _ & Hh) & _).
    + vm_compute in Hw. injection Hw as <-. vm_compute. congruence.
    + split; [exact H1|]. exists c. split; [exact Hc|exact Hh].
Defined.
