(* ===== verification/Divergences.v ===== *)
(** * Where the block readers part

    The inputs on which the readers of [sync/protocol/response.rs] disagree with
    each other, each as an evaluated example; they delimit the equivalences of
    [Framing] and [BlockReader].  The bytes are blocks with one column, built by
    [block_with] as a server writes them. *)

From Stdlib Require Import String ZArith Lia Bool List.
From Stdlib Require Import Strings.Byte.
From coqutil Require Import Byte.
From S2P Require Import Prelude Reader Limits Utf8 Wire TypeParser SkipColumn Arena ColumnReader Framing BlockReader BlockWriter.
Import ListNotations.

Definition block_with (type_name : string) (custom : Init.Byte.byte) (rows : Z) (column : bytes) : bytes :=
  write_block_info ++ write_varint 1 ++ write_varint rows ++
  write_string (str "c") ++ write_string (str type_name) ++ [custom] ++ column.

(** The block is framed by the buffered parser, which takes all of it, and refused by
    the stream reader. *)
Definition only_buffered (l : bytes) : Prop :=
  (exists b, parse_block_body l 0 = Ok (b, blen l)) /\ is_ok (run read_block_body l) = false.

(** The buffered parser passes over the custom serialization byte; the stream
    reader refuses any value but zero. *)
Theorem custom_serialization_only_streamed_checks :
  only_buffered (block_with "UInt8" x01 1 [x07]).
Proof. split; [eexists|]; vm_compute; reflexivity. Qed.

(** A Variant body is read through the printed names of its types, and an enum prints
    without its labels: the stream reader takes the enum's values for strings. *)
Theorem variant_of_enum_misread :
  only_buffered (block_with "Variant(Enum8('a' = 1), UInt8)" x00 2 (to_le 8 0 ++ [x00; x00; x01; x01])).
Proof. split; [eexists|]; vm_compute; reflexivity. Qed.

(** A [Nothing] value inside a Variant takes one byte for the skipper and none for the
    stream reader. *)
Theorem nothing_in_variant_misread :
  exists b, parse_block_body (block_with "Variant(Nothing, UInt8)" x00 1 (to_le 8 0 ++ [x00; x30])) 0
              = Ok (b, blen (block_with "Variant(Nothing, UInt8)" x00 1 (to_le 8 0 ++ [x00; x30]))) /\
  exists b', run read_block_body (block_with "Variant(Nothing, UInt8)" x00 1 (to_le 8 0 ++ [x00; x30]))
              = Ok (b', [x30]).
Proof. eexists. split; [|eexists]; vm_compute; reflexivity. Qed.

(** A LowCardinality column with the key-type flags of a global dictionary is refused by
    the skipper and accepted by the raw stream reader. *)
Theorem lc_flags_only_skipper_checks :
  let column := to_le 8 0 ++ [x00] ++ to_le 8 1 ++ to_le 8 256 ++ to_le 8 1 ++ [x05] ++ to_le 8 1 ++ [x00] in
  let l := block_with "Variant(LowCardinality(UInt8), String)" x00 1 column in
  is_ok (parse_block_body l 0) = false /\ is_ok (run read_block_body l) = true.
Proof. split; vm_compute; reflexivity. Qed.

(** A server can make the reader panic: the width of a FixedString is taken from
    the type name, and [infer_lc_dictionary_rows] adds one to it before dividing.  The
    addition overflows (and, where it wraps, the division is by zero), in both the
    buffered and the streaming reader. *)
Theorem lc_nullable_fixed_string_panics :
  let l := block_with "LowCardinality(Nullable(FixedString(18446744073709551615)))" x00 1
             (to_le 8 1 ++ to_le 8 512 ++ to_le 8 0 ++ to_le 8 1 ++ [x00]) in
  parse_block_body l 0 = Err ModelPanic /\ run read_block_body l = Err ModelPanic.
Proof. split; vm_compute; reflexivity. Qed.

(** A type that both readers support cannot be discarded. *)
Theorem variant_not_discardable :
  let l := block_with "Variant(String, UInt8)" x00 1 (to_le 8 0 ++ [x01; x30]) in
  is_ok (run read_block_body l) = true /\ is_ok (run discard_block_body l) = false.
Proof. split; vm_compute; reflexivity. Qed.

(** The element names of a named tuple are not stripped: each element is taken for a type
    the parser does not know, and skipped as strings. *)
Theorem named_tuple_misread :
  parse_type (str "Tuple(a UInt8, b UInt8)") = Ok (Tuple [Other (str "a UInt8"); Other (str "b UInt8")]) /\
  skip_column_data_by_name (str "Tuple(UInt8, UInt8)") 1 [x01; x00] 0 = Ok (tt, 2) /\
  skip_column_data_by_name (str "Tuple(a UInt8, b UInt8)") 1 [x01; x00] 0 =
    Err (Protocol (msg "unexpected end of buffer parsing varint")).
Proof. conj; vm_compute; reflexivity. Qed.
