(* ===== verification/Chunked.v ===== *)
(** * Chunked transport ([sync/chunked.rs])

    Negotiation of the framing, the chunk writer and [ChunkedReader], the [Read]
    adapter that strips chunk headers.  [dechunk] is the reference meaning of a
    chunked byte stream; [ChunkedReader] over any transport is shown to be a
    transport whose content is the dechunked content, so that every reader of the
    development runs on it unchanged. *)

From Stdlib Require Import String ZArith Lia Bool List.
From Stdlib Require Import Strings.Byte.
From coqutil Require Import Byte.
From S2P Require Import Prelude Revision Reader Limits Utf8 Wire TypeParser.
Import ListNotations.

(** ** Negotiation *)

Record ChunkedNegotiation := mkNegotiation {
  send_mode : bytes;
  recv_mode : bytes;
  send_chunked : bool;
  recv_chunked : bool;
}.

Definition mode_name (chunked : bool) : bytes := str (if chunked then "chunked" else "notchunked").

(** [str::ends_with] for a string pattern. *)
Definition has_suffix (p s : bytes) : bool :=
  match strip_suffix p s with Some _ => true | None => false end.

Definition choose_chunked_mode (server_capability client_capability : bytes) (direction : string)
  : result error bool :=
  let server_chunked := starts_with (str "chunked") server_capability in
  let server_optional := has_suffix (str "_optional") server_capability in
  let client_chunked := starts_with (str "chunked") client_capability in
  let client_optional := has_suffix (str "_optional") client_capability in
  if server_optional then Ok client_chunked
  else if client_optional then Ok server_chunked
  else if negb (Bool.eqb client_chunked server_chunked)
  then Err (Protocol (Msg "incompatible chunked protocol for {direction}: client requests {}, server requires {}"
                          [AS (str direction); AS (mode_name client_chunked); AS (mode_name server_chunked)]))
  else Ok server_chunked.

(** The fields of [ServerInfo] and [ClientConfig] the negotiation looks at. *)
Record ChunkedOffer := mkOffer {
  negotiated_revision : Z;
  proto_send_chunked_srv : bytes;
  proto_recv_chunked_srv : bytes;
  chunked_mode : bytes * bytes;
}.

Definition negotiate_chunked_transport (o : ChunkedOffer) : result error ChunkedNegotiation :=
  if negotiated_revision o <? DBMS_MIN_PROTOCOL_VERSION_WITH_CHUNKED_PACKETS then
    let requested_send_chunked := bytes_eqb (fst (chunked_mode o)) (str "chunked") in
    let requested_recv_chunked := bytes_eqb (snd (chunked_mode o)) (str "chunked") in
    if requested_send_chunked || requested_recv_chunked
    then Err (Protocol (msg "server revision does not support chunked native protocol"))
    else Ok (mkNegotiation (str "notchunked") (str "notchunked") false false)
  else
    let* send_chunked := choose_chunked_mode (proto_recv_chunked_srv o) (fst (chunked_mode o)) "send" in
    let* recv_chunked := choose_chunked_mode (proto_send_chunked_srv o) (snd (chunked_mode o)) "recv" in
    Ok (mkNegotiation (mode_name send_chunked) (mode_name recv_chunked) send_chunked recv_chunked).

(** ** Writing *)

Definition write_chunk_header (len : Z) : result error bytes :=
  if len <=? U32_MAX then Ok (to_le 4 len)
  else Err (Protocol (Msg "chunked packet too large: {len} bytes" [AZ len])).

Definition write_chunked_packet (pkt : bytes) : result error bytes :=
  let* header := write_chunk_header (blen pkt) in
  Ok (header ++ pkt ++ to_le 4 0).

Definition write_cancel_packet (chunked_send : bool) : result error bytes :=
  if chunked_send then write_chunked_packet [x03] else Ok [x03].

(** ** Reading *)

Definition chunk_too_long (len : Z) : error :=
  Io (InvalidData (Msg "chunked transport chunk length {len} exceeds maximum {}" [AZ len; AZ MAX_CHUNK_LEN])).

Definition next_chunk_step (self : unit -> reader bytes) (_ : unit) : reader bytes :=
  let* len_buf := read_exact_r 4 in
  let len := from_le len_buf in
  if len =? 0 then self tt
  else if MAX_CHUNK_LEN <? len then throw (chunk_too_long len)
  else read_exact_r len.

Definition read_next_chunk : reader bytes :=
  deep STREAM_BITS next_chunk_step (fun _ => throw ModelFuel) tt.

Record ChunkedReader (R : Type) := mkChunked { inner : R; chunk : bytes; pos : Z }.
Arguments mkChunked {R}.
Arguments inner {R}.
Arguments chunk {R}.
Arguments pos {R}.

Definition new_chunked_reader {R} (inner : R) : ChunkedReader R := mkChunked inner [] 0.

Definition serve_chunk {R} (n : nat) (inner : R) (chunk : bytes) (pos : Z)
  : result error (bytes * ChunkedReader R) :=
  let n := Z.min (Z.of_nat n) (blen chunk - pos) in
  Ok (slice chunk pos (pos + n), mkChunked inner chunk (pos + n)).

Definition chunked_read_with (next : reader bytes) {R} `{Read R} (n : nat) (r : ChunkedReader R)
  : result error (bytes * ChunkedReader R) :=
  match n with
  | O => Ok ([], r)
  | S _ =>
      if blen (chunk r) <=? pos r
      then match exec next (inner r) with
           | Ok (chunk, inner) => serve_chunk n inner chunk 0
           | Err e => Err e
           end
      else serve_chunk n (inner r) (chunk r) (pos r)
  end.

#[export] Instance chunked_read {R} `{Read R} : Read (ChunkedReader R) :=
  chunked_read_with read_next_chunk.

(** ** The chunked format

    [dechunk eof l]: the payload of the chunked stream [l] and the error its reader
    ends with, [eof] being what reading past the end of [l] gives.  A chunk that is
    cut off contributes nothing. *)
Fixpoint dechunk_fuel (fuel : nat) (eof : error) (l : bytes) : bytes * error :=
  match fuel with
  | O => ([], ModelFuel)
  | S fuel =>
      if blen l <? 4 then ([], eof)
      else
        let len := from_le (take 4 l) in
        let rest := drop 4 l in
        if len =? 0 then dechunk_fuel fuel eof rest
        else if MAX_CHUNK_LEN <? len then ([], chunk_too_long len)
        else if blen rest <? len then ([], eof)
        else
          let '(payload, e) := dechunk_fuel fuel eof (drop len rest) in
          (take len rest ++ payload, e)
  end.

Definition dechunk (eof : error) (l : bytes) : bytes * error := dechunk_fuel (S (length l)) eof l.

(** ** Negotiation: what each side allows *)

(** A capability allows a mode when it is optional or names it. *)
Definition allows (capability : bytes) (chunked : bool) : Prop :=
  has_suffix (str "_optional") capability = true \/ starts_with (str "chunked") capability = chunked.

(** The chosen mode is one that both sides allow, the client's own preference when
    the server leaves the choice, and there is an error exactly when no mode suits
    both. *)
Theorem choose_chunked_mode_sound (server client : bytes) (direction : string) :
  match choose_chunked_mode server client direction with
  | Ok chunked =>
      allows server chunked /\ allows client chunked /\
      (has_suffix (str "_optional") server = true -> chunked = starts_with (str "chunked") client)
  | Err _ => forall chunked, ~ (allows server chunked /\ allows client chunked)
  end.
Proof.
  unfold choose_chunked_mode, allows.
  destruct (has_suffix _ server) eqn:Es; [auto|].
  destruct (has_suffix _ client) eqn:Ec; [intuition congruence|].
  destruct (starts_with _ client), (starts_with _ server); cbn; intuition congruence.
Qed.

(** ** The chunk reader against the format *)

Lemma dechunk_fuel_enough eof : forall fuel l, (length l < fuel)%nat ->
  dechunk_fuel fuel eof l = dechunk eof l.
Proof.
  unfold dechunk.
  enough (forall fuel fuel' l, (length l < fuel)%nat -> (length l < fuel')%nat ->
            dechunk_fuel fuel eof l = dechunk_fuel fuel' eof l) as H by (intros; apply H; lia).
  induction fuel as [|fuel IH]; intros [|fuel'] l Hf Hf'; try lia. cbn [dechunk_fuel].
  destruct (Z.ltb_spec (blen l) 4) as [|H4]; [reflexivity|].
  assert (length (drop 4 l) < length l)%nat as Hlt
    by (unfold drop, blen in *; rewrite length_skipn; lia).
  destruct (_ =? 0); [apply IH; lia|]. destruct (_ <? _); [reflexivity|]. destruct (_ <? _); [reflexivity|].
  rewrite (IH fuel'); [reflexivity| |]; unfold drop at 1; rewrite length_skipn; lia.
Qed.

Lemma dechunk_unfold eof l :
  dechunk eof l =
  if blen l <? 4 then ([], eof)
  else
    let len := from_le (take 4 l) in
    let rest := drop 4 l in
    if len =? 0 then dechunk eof rest
    else if MAX_CHUNK_LEN <? len then ([], chunk_too_long len)
    else if blen rest <? len then ([], eof)
    else (take len rest ++ fst (dechunk eof (drop len rest)), snd (dechunk eof (drop len rest))).
Proof.
  unfold dechunk at 1. cbn [dechunk_fuel]. destruct (Z.ltb_spec (blen l) 4) as [|H4]; [reflexivity|].
  assert (length (drop 4 l) < length l)%nat as Hlt
    by (unfold drop, blen in *; rewrite length_skipn; lia).
  cbv zeta. destruct (_ =? 0); [apply dechunk_fuel_enough; lia|].
  destruct (_ <? _); [reflexivity|]. destruct (_ <? _); [reflexivity|].
  rewrite dechunk_fuel_enough by (unfold drop at 1; rewrite length_skipn; lia).
  now destruct (dechunk _ _).
Qed.

(** What the loop of [read_next_chunk] gives on a stream. *)
Definition next_chunk_ok (eof : error) (m : reader bytes) (l : bytes) : Prop :=
  match run_with eof m l with
  | Ok (bs, rest) =>
      bs <> [] /\ dechunk eof l = (bs ++ fst (dechunk eof rest), snd (dechunk eof rest)) /\
      blen rest <= blen l
  | Err e => dechunk eof l = ([], e)
  end.

Lemma next_chunk_step_ok n eof self :
  0 <= n -> (forall l, blen l < n -> next_chunk_ok eof (self tt) l) ->
  forall l, blen l < n + 1 -> next_chunk_ok eof (next_chunk_step self tt) l.
Proof.
  intros Hn Hself l Hl. unfold next_chunk_ok, next_chunk_step.
  rewrite run_with_bind, dechunk_unfold. cbn [run_with read_exact_r].
  destruct (Z.leb_spec 4 (blen l)) as [H4|H4]; destruct (Z.ltb_spec (blen l) 4) as [H4'|H4']; try lia;
    [|reflexivity].
  cbv zeta. assert (blen (drop 4 l) = blen l - 4) as Hd by (apply blen_drop; lia).
  destruct (Z.eqb_spec (from_le (take 4 l)) 0) as [_|Hz].
  - specialize (Hself (drop 4 l) ltac:(lia)). unfold next_chunk_ok in Hself.
    destruct (run_with eof (self tt) (drop 4 l)) as [[bs rest]|e]; intuition lia.
  - pose proof (from_le_bound (take 4 l)). destruct (_ <? _); [reflexivity|].
    cbn [run_with read_exact_r].
    destruct (Z.leb_spec (from_le (take 4 l)) (blen (drop 4 l))) as [Hle|Hgt];
      destruct (Z.ltb_spec (blen (drop 4 l)) (from_le (take 4 l))); try lia; [|reflexivity].
    split; [|split; [reflexivity|rewrite blen_drop; lia]].
    intros E. apply (f_equal blen) in E. rewrite blen_take in E by lia. rewrite blen_nil in E. lia.
Qed.

Lemma deep_next_chunk_ok eof h bottom l :
  blen l < 2 ^ Z.of_nat h -> next_chunk_ok eof (deep h next_chunk_step bottom tt) l.
Proof.
  pose proof (deep_ind next_chunk_step (fun n f => 0 <= n /\
    forall l, blen l < n -> next_chunk_ok eof (f tt) l)) as H.
  intros Hl. eapply H; [| |rewrite Z.add_0_l; exact Hl].
  - intros n f [Hn Hself]. split; [lia|]. now apply next_chunk_step_ok.
  - split; [lia|]. intros l' Hl'. pose proof (blen_nonneg l'). lia.
Qed.

Lemma read_next_chunk_unfold :
  read_next_chunk = deep STREAM_BITS next_chunk_step (fun _ => throw ModelFuel) tt.
Proof. reflexivity. Qed.

Lemma read_next_chunk_ok eof l : blen l <= ISIZE_MAX -> next_chunk_ok eof read_next_chunk l.
Proof.
  intros Hl. rewrite read_next_chunk_unfold. apply deep_next_chunk_ok.
  unfold ISIZE_MAX in Hl. change (2 ^ Z.of_nat STREAM_BITS) with (2 ^ 63). lia.
Qed.

(** ** [ChunkedReader] as a transport *)
Section Transport.
Context {R : Type} `{ReadLaws R}.

Definition plain (r : R) : bytes * error := dechunk (end_error (ends r)) (content r).

Lemma serve_chunk_law n (r : R) (c : bytes) (p : Z) :
  rinv r -> blen (content r) <= ISIZE_MAX -> 0 <= p < blen c -> (0 < n)%nat ->
  exists bs r', serve_chunk n r c p = Ok (bs, r') /\ bs <> [] /\ (length bs <= n)%nat /\
    inner r' = r /\ chunk r' = c /\ p <= pos r' <= blen c /\ drop p c = bs ++ drop (pos r') c.
Proof.
  intros Hr Hc Hp Hn. unfold serve_chunk. do 2 eexists. split; [reflexivity|]. cbn [inner chunk pos].
  set (k := Z.min (Z.of_nat n) (blen c - p)). assert (blen (slice c p (p + k)) = k) as Hk
    by (rewrite blen_slice; lia).
  repeat split; try lia.
  - intros E. rewrite E, blen_nil in Hk. lia.
  - unfold blen in Hk. lia.
  - unfold slice. rewrite <- (take_drop (p + k - p) (drop p c)) at 1.
    rewrite drop_drop by lia. now replace (p + k - p + p) with (p + k) by lia.
Qed.

Definition chunked_inv (r : ChunkedReader R) : Prop :=
  rinv (inner r) /\ 0 <= pos r <= blen (chunk r) /\ blen (content (inner r)) <= ISIZE_MAX.

Definition chunked_content (r : ChunkedReader R) : bytes :=
  drop (pos r) (chunk r) ++ fst (plain (inner r)).

Definition chunked_ends (r : ChunkedReader R) : ending := Broken (snd (plain (inner r))).

Lemma chunked_read_with_law next n r :
  (forall eof l, blen l <= ISIZE_MAX -> next_chunk_ok eof next l) ->
  chunked_inv r -> (0 < n)%nat ->
  match chunked_read_with next n r with
  | Ok (bs, r') =>
      chunked_inv r' /\ (length bs <= n)%nat /\ chunked_content r = bs ++ chunked_content r' /\
      chunked_ends r' = chunked_ends r /\ (bs = [] -> chunked_content r = [] /\ chunked_ends r = Eof)
  | Err e => chunked_content r = [] /\ chunked_ends r = Broken e
  end.
Proof.
  intros Hok (Hr & Hp & Hc) Hn. unfold chunked_inv, chunked_content, chunked_ends, chunked_read_with.
  destruct n as [|n]; [lia|].
  destruct (Z.leb_spec (blen (chunk r)) (pos r)) as [Hend|Hmore].
  - rewrite drop_past by assumption. cbn [app].
    pose proof (exec_with next (inner r) Hr) as Hexec.
    pose proof (Hok (end_error (ends (inner r))) _ Hc) as Hnext.
    unfold next_chunk_ok in Hnext.
    destruct (run_with _ _ _) as [[bs rest]|e].
    + destruct Hexec as (r' & -> & Hr' & Hc' & He'), Hnext as (Hbs & Hd & Hle).
      destruct (serve_chunk_law (S n) r' bs 0) as (out & r'' & -> & Hout & Hlen & Hi & Hch & Hp' & Hcat);
        auto; [subst; lia|destruct bs; [easy|rewrite blen_cons; pose proof (blen_nonneg bs); lia]|].
      rewrite Hi, Hch. unfold plain. rewrite Hc', He', Hd. cbn [fst snd].
      rewrite drop_0 in Hcat. repeat split; auto; try lia; try easy.
      now rewrite Hcat, <- app_assoc at 1.
    + rewrite Hexec. unfold plain. rewrite Hnext. split; reflexivity.
  - destruct (serve_chunk_law (S n) (inner r) (chunk r) (pos r))
      as (out & r'' & -> & Hout & Hlen & Hi & Hch & Hp' & Hcat); auto; [lia|].
    rewrite Hi, Hch, Hcat, <- app_assoc. repeat split; auto; try lia; try easy.
Qed.

#[export] Instance chunked_laws : ReadLaws (ChunkedReader R) := {|
  rinv := chunked_inv;
  content := chunked_content;
  ends := chunked_ends;
  read_law n r := chunked_read_with_law read_next_chunk n r read_next_chunk_ok;
|}.

End Transport.

(** ** Writer and reader together *)

Lemma write_chunked_packet_ok pkt wire :
  write_chunked_packet pkt = Ok wire -> wire = to_le 4 (blen pkt) ++ pkt ++ to_le 4 0 /\ blen pkt <= U32_MAX.
Proof.
  unfold write_chunked_packet, write_chunk_header. intros H.
  apply result_bind_inv in H as (h & Hh & H). destruct (Z.leb_spec (blen pkt) U32_MAX); [|discriminate].
  inj. auto.
Qed.

Lemma take4_header n l : take 4 (to_le 4 n ++ l) = to_le 4 n.
Proof. apply take_app_len. apply blen_to_le. Qed.

Lemma drop4_header n l : drop 4 (to_le 4 n ++ l) = l.
Proof. apply drop_app_len. apply blen_to_le. Qed.

Lemma dechunk_zero eof l : dechunk eof (to_le 4 0 ++ l) = dechunk eof l.
Proof.
  rewrite dechunk_unfold, blen_app, blen_to_le, take4_header, drop4_header.
  pose proof (blen_nonneg l). destruct (Z.ltb_spec (Z.of_nat 4 + blen l) 4); [lia|].
  cbv zeta. rewrite from_to_le by (split; [lia|reflexivity]). reflexivity.
Qed.

Lemma dechunk_written eof pkt wire l :
  write_chunked_packet pkt = Ok wire -> blen pkt <= MAX_CHUNK_LEN ->
  dechunk eof (wire ++ l) = (pkt ++ fst (dechunk eof l), snd (dechunk eof l)).
Proof.
  intros Hw Hmax. apply write_chunked_packet_ok in Hw as [-> Hu]. rewrite <- !app_assoc.
  pose proof (blen_nonneg pkt). pose proof (blen_nonneg l).
  rewrite dechunk_unfold, take4_header, drop4_header, !blen_app, !blen_to_le.
  destruct (Z.ltb_spec (Z.of_nat 4 + (blen pkt + (Z.of_nat 4 + blen l))) 4); [lia|].
  cbv zeta. rewrite from_to_le by (unfold U32_MAX in Hu; change (2 ^ (8 * Z.of_nat 4)) with 4294967296; lia).
  destruct (Z.eqb_spec (blen pkt) 0) as [E0|].
  - destruct pkt; [|rewrite blen_cons in E0; pose proof (blen_nonneg pkt); lia].
    cbn [app]. rewrite dechunk_zero. now destruct (dechunk eof l).
  - destruct (Z.ltb_spec MAX_CHUNK_LEN (blen pkt)); [lia|].
    rewrite take_app_exact, drop_app_exact, dechunk_zero, !blen_app.
    now destruct (Z.ltb_spec (blen pkt + (blen (to_le 4 0) + blen l)) (blen pkt));
      [pose proof (blen_nonneg (to_le 4 0)); lia|].
Qed.

(** The chunked form of a sequence of packets. *)
Fixpoint write_chunked_packets (pkts : list bytes) : result error bytes :=
  match pkts with
  | [] => Ok []
  | pkt :: pkts =>
      let* w := write_chunked_packet pkt in
      let* ws := write_chunked_packets pkts in
      Ok (w ++ ws)
  end.

Lemma dechunk_packets eof pkts : forall wire,
  write_chunked_packets pkts = Ok wire -> Forall (fun pkt => blen pkt <= MAX_CHUNK_LEN) pkts ->
  dechunk eof wire = (concat pkts, eof).
Proof.
  induction pkts as [|pkt pkts IH]; intros wire H Hmax; cbn [write_chunked_packets] in H.
  { inj. reflexivity. }
  apply result_bind_inv in H as (w & Hw & H). apply result_bind_inv in H as (ws & Hws & H). inj.
  inversion Hmax; subst. rewrite (dechunk_written _ _ _ _ Hw) by assumption.
  now rewrite (IH ws).
Qed.

(** C36: chunking is transparent.  Over any transport that delivers the chunked form of some
    packets of at most 64 MiB each (the reader refuses longer chunks), in whatever segments,
    every reader of the protocol behaves on [ChunkedReader] as it does on the plain
    concatenation of the packets; at the end of the stream it sees the end-of-file error. *)
Theorem chunked_reader_transparent {R : Type} `{ReadLaws R} {A : Type}
    (m : reader A) (r : R) (pkts : list bytes) (wire : bytes) :
  rinv r -> ends r = Eof -> content r = wire -> blen wire <= ISIZE_MAX ->
  write_chunked_packets pkts = Ok wire -> Forall (fun pkt => blen pkt <= MAX_CHUNK_LEN) pkts ->
  match run m (concat pkts) with
  | Ok (a, rest) =>
      exists r', exec m (new_chunked_reader r) = Ok (a, r') /\ content r' = rest
  | Err e => exec m (new_chunked_reader r) = Err e
  end.
Proof.
  intros Hr He Hc Hsize Hw Hmax.
  assert (chunked_inv (new_chunked_reader r)) as Hinv by (subst; repeat split; auto; reflexivity).
  pose proof (exec_with m (new_chunked_reader r) Hinv) as Hexec.
  assert (plain r = (concat pkts, Io UnexpectedEof)) as Hplain
    by (unfold plain; rewrite He, Hc; now apply dechunk_packets).
  change (content (new_chunked_reader r)) with (fst (plain r)) in Hexec.
  change (ends (new_chunked_reader r)) with (Broken (snd (plain r))) in Hexec.
  rewrite Hplain in Hexec. cbn [fst snd end_error] in Hexec. unfold run.
  destruct (run_with _ m (concat pkts)) as [[a rest]|e]; [|assumption].
  destruct Hexec as (r' & ? & _ & ? & _). eauto.
Qed.

(** The three packets reach the reader in one-byte segments. *)
Lemma chunked_reader_transparent_witness :
  let pkts := [write_string (str "ab"); [x03]; write_string (str "c")] in
  let wire := to_le 4 3 ++ write_string (str "ab") ++ to_le 4 0 ++ to_le 4 1 ++ [x03] ++ to_le 4 0 ++
              to_le 4 2 ++ write_string (str "c") ++ to_le 4 0 in
  exists r', exec read_string (new_chunked_reader (Socket (map (fun b => [b]) wire))) = Ok (str "ab", r') /\
             content r' = x03 :: write_string (str "c").
Proof.
  intros pkts wire.
  apply (chunked_reader_transparent read_string (Socket (map (fun b => [b]) wire)) pkts wire).
  - cbn. repeat constructor; discriminate.
  - reflexivity.
  - reflexivity.
  - discriminate.
  - reflexivity.
  - repeat constructor; discriminate.
Defined.
