(* ===== verification/StreamWrapper.v ===== *)
(** * The async connection stream ([src/pool.rs], [StreamWrapper])

    [StreamWrapper] is the [AsyncRead] of an async connection: it prefetches raw
    bytes, or strips chunk headers, in a [poll_read] that may be interrupted at any
    socket poll by [Pending] and resumed later, possibly by another future.  All
    of its progress is kept in the wrapper.  [remaining] is what a wrapper has
    still to deliver; [poll_read] is shown to deliver exactly that, whatever the
    pattern of [Pending]s, short reads and buffer sizes. *)

From Stdlib Require Import String ZArith Lia Bool List.
From Stdlib Require Import Strings.Byte.
From coqutil Require Import Byte.
From S2P Require Import Prelude Reader Limits Utf8 Wire TypeParser Chunked.
Import ListNotations.

(** ** Polling a socket *)

Inductive poll (A : Type) : Type :=
| Pending
| Ready (r : result error A).
Arguments Pending {A}.
Arguments Ready {A} r.

(** [poll_inner_read] with room for [n] bytes: what it puts in the buffer. *)
Class PollRead (T : Type) := poll_inner_read : nat -> T -> poll bytes * T.

Class PollLaws (T : Type) `{PollRead T} := {
  tinv : T -> Prop;
  tcontent : T -> bytes;
  tends : T -> ending;
  poll_law : forall n t, tinv t -> (0 < n)%nat ->
    let '(p, t') := poll_inner_read n t in
    tinv t' /\ tends t' = tends t /\
    match p with
    | Pending => tcontent t' = tcontent t
    | Ready (Ok bs) =>
        (length bs <= n)%nat /\ tcontent t = bs ++ tcontent t' /\
        (bs = [] -> tcontent t = [] /\ tends t = Eof)
    | Ready (Err e) => tcontent t = [] /\ tcontent t' = [] /\ tends t = Broken e
    end;
}.

(** ** The wrapper *)

Definition READ_BUF_CAP : Z := 8 * 1024.

Record StreamWrapper (T : Type) := mkStream {
  stream : T;
  use_chunked_send : bool;
  use_chunked_recv : bool;
  buffered : bytes;          (** [chunk] *)
  chunk_pos : Z;
  chunk_fill : Z;
  len_buf : bytes;
  len_pos : Z;
  rd_buf : bytes;
  rd_pos : Z;
  rd_fill : Z;
  bytes_received : Z;        (** the counter of [metrics] *)
}.
Arguments mkStream {T}.
Arguments stream {T}.
Arguments use_chunked_send {T}.
Arguments use_chunked_recv {T}.
Arguments buffered {T}.
Arguments chunk_pos {T}.
Arguments chunk_fill {T}.
Arguments len_buf {T}.
Arguments len_pos {T}.
Arguments rd_buf {T}.
Arguments rd_pos {T}.
Arguments rd_fill {T}.
Arguments bytes_received {T}.

Definition new_stream {T} (t : T) : StreamWrapper T :=
  mkStream t false false [] 0 0 (repeat x00 4) 0 (repeat x00 (Z.to_nat READ_BUF_CAP)) 0 0 0.

Definition set_chunked {T} (s : StreamWrapper T) (send recv : bool) : StreamWrapper T :=
  mkStream (stream s) send recv [] 0 0 (len_buf s) 0 (rd_buf s) 0 0 (bytes_received s).

Definition set_stream {T} (s : StreamWrapper T) (t : T) : StreamWrapper T :=
  mkStream t (use_chunked_send s) (use_chunked_recv s) (buffered s) (chunk_pos s) (chunk_fill s)
    (len_buf s) (len_pos s) (rd_buf s) (rd_pos s) (rd_fill s) (bytes_received s).

Definition set_chunk {T} (s : StreamWrapper T) (chunk : bytes) (pos fill : Z) : StreamWrapper T :=
  mkStream (stream s) (use_chunked_send s) (use_chunked_recv s) chunk pos fill
    (len_buf s) (len_pos s) (rd_buf s) (rd_pos s) (rd_fill s) (bytes_received s).

Definition set_len {T} (s : StreamWrapper T) (buf : bytes) (pos : Z) : StreamWrapper T :=
  mkStream (stream s) (use_chunked_send s) (use_chunked_recv s) (buffered s) (chunk_pos s) (chunk_fill s)
    buf pos (rd_buf s) (rd_pos s) (rd_fill s) (bytes_received s).

Definition set_rd {T} (s : StreamWrapper T) (buf : bytes) (pos fill : Z) : StreamWrapper T :=
  mkStream (stream s) (use_chunked_send s) (use_chunked_recv s) (buffered s) (chunk_pos s) (chunk_fill s)
    (len_buf s) (len_pos s) buf pos fill (bytes_received s).

Definition record_bytes {T} (s : StreamWrapper T) (n : Z) : StreamWrapper T :=
  mkStream (stream s) (use_chunked_send s) (use_chunked_recv s) (buffered s) (chunk_pos s) (chunk_fill s)
    (len_buf s) (len_pos s) (rd_buf s) (rd_pos s) (rd_fill s) (bytes_received s + n).

(** The bytes [write_packet] sends for a packet. *)
Definition write_packet {T} (s : StreamWrapper T) (pkt : bytes) : result error bytes :=
  if use_chunked_send s then write_chunked_packet pkt else Ok pkt.

(** [tcp]: the transport is plain TCP. *)
Definition can_raw_cancel {T} (s : StreamWrapper T) (tcp : bool) : bool :=
  negb (use_chunked_send s) && tcp.

(** [buf[at..][..bs.len()].copy_from_slice(bs)] *)
Definition splice (buf : bytes) (at_ : Z) (bs : bytes) : bytes :=
  take at_ buf ++ bs ++ drop (at_ + blen bs) buf.

(** The [while] loops either run to their end or leave [poll_read]. *)
Inductive flow := Fallthrough | Return (p : poll bytes).

Section Poll.
Context {T : Type} `{PollRead T}.

(** [while this.len_pos < this.len_buf.len()]: every round adds a byte. *)
Fixpoint fill_len (fuel : nat) (s : StreamWrapper T) : flow * StreamWrapper T :=
  if 4 <=? len_pos s then (Fallthrough, s)
  else
    match fuel with
    | O => (Return (Ready (Err ModelFuel)), s)
    | S fuel =>
        match poll_inner_read (Z.to_nat (4 - len_pos s)) (stream s) with
        | (Ready (Ok bs), t) =>
            let n := blen bs in
            if n =? 0 then (Return (Ready (Err (Io UnexpectedEof))), set_stream s t)
            else
              fill_len fuel (set_len (record_bytes (set_stream s t) n)
                                     (splice (len_buf s) (len_pos s) bs) (len_pos s + n))
        | (Ready (Err e), t) => (Return (Ready (Err e)), set_stream s t)
        | (Pending, t) => (Return Pending, set_stream s t)
        end
    end.

(** [while this.chunk_fill < this.chunk.len()] *)
Fixpoint fill_chunk (fuel : nat) (s : StreamWrapper T) : flow * StreamWrapper T :=
  if blen (buffered s) <=? chunk_fill s then (Fallthrough, s)
  else
    match fuel with
    | O => (Return (Ready (Err ModelFuel)), s)
    | S fuel =>
        match poll_inner_read (Z.to_nat (blen (buffered s) - chunk_fill s)) (stream s) with
        | (Ready (Ok bs), t) =>
            let n := blen bs in
            if n =? 0 then (Return (Ready (Err (Io UnexpectedEof))), set_stream s t)
            else
              fill_chunk fuel (set_chunk (record_bytes (set_stream s t) n)
                                 (splice (buffered s) (chunk_fill s) bs) (chunk_pos s) (chunk_fill s + n))
        | (Ready (Err e), t) => (Return (Ready (Err e)), set_stream s t)
        | (Pending, t) => (Return Pending, set_stream s t)
        end
    end.

Definition fill_chunk_full (s : StreamWrapper T) : flow * StreamWrapper T :=
  fill_chunk (Z.to_nat (blen (buffered s) - chunk_fill s)) s.

(** The part of the loop that reads the length of the next chunk and makes room for
    it; [inr] is the [continue] after a zero length. *)
Definition next_header (s : StreamWrapper T) : (flow + unit) * StreamWrapper T :=
  match fill_len 4 s with
  | (Return p, s) => (inl (Return p), s)
  | (Fallthrough, s) =>
      let len := from_le (len_buf s) in
      let s := set_len s (len_buf s) 0 in
      if len =? 0 then (inr tt, s)
      else if MAX_CHUNK_LEN <? len then (inl (Return (Ready (Err (chunk_too_long len)))), s)
      else (inl Fallthrough, set_chunk s (repeat x00 (Z.to_nat len)) (chunk_pos s) (chunk_fill s))
  end.

(** A chunk that has been received and served is dropped. *)
Definition clear_finished (s : StreamWrapper T) : StreamWrapper T :=
  if negb (blen (buffered s) =? 0) && (chunk_fill s =? blen (buffered s))
  then set_chunk s [] 0 0 else s.

(** One round of the [loop] of the chunked branch; [self] is the next round. *)
Definition poll_chunked_step (n : Z) (self : StreamWrapper T -> poll bytes * StreamWrapper T)
    (s : StreamWrapper T) : poll bytes * StreamWrapper T :=
  if chunk_pos s <? chunk_fill s then
    let n := Z.min n (chunk_fill s - chunk_pos s) in
    if n =? 0 then (Ready (Ok []), s)
    else (Ready (Ok (slice (buffered s) (chunk_pos s) (chunk_pos s + n))),
          set_chunk s (buffered s) (chunk_pos s + n) (chunk_fill s))
  else
    let s := clear_finished s in
    let '(header, s) := if blen (buffered s) =? 0 then next_header s else (inl Fallthrough, s) in
    match header with
    | inr _ => self s
    | inl (Return p) => (p, s)
    | inl Fallthrough =>
        match fill_chunk_full s with
        | (Return p, s) => (p, s)
        | (Fallthrough, s) => self s
        end
    end.

(** The raw branch: serve prefetched bytes, or prefetch. *)
Definition serve_rd (n : Z) (s : StreamWrapper T) : poll bytes * StreamWrapper T :=
  let n := Z.min n (rd_fill s - rd_pos s) in
  if n =? 0 then (Ready (Ok []), s)
  else (Ready (Ok (slice (rd_buf s) (rd_pos s) (rd_pos s + n))),
        set_rd s (rd_buf s) (rd_pos s + n) (rd_fill s)).

Definition read_buffered (n : Z) (s : StreamWrapper T) : poll bytes * StreamWrapper T :=
  if (rd_pos s =? rd_fill s) && (blen (rd_buf s) <=? n) then
    match poll_inner_read (Z.to_nat n) (stream s) with
    | (Ready (Ok bs), t) => (Ready (Ok bs), record_bytes (set_stream s t) (blen bs))
    | (p, t) => (p, set_stream s t)
    end
  else if rd_pos s <? rd_fill s then serve_rd n s
  else
    match poll_inner_read (Z.to_nat (blen (rd_buf s))) (stream s) with
    | (Ready (Err e), t) => (Ready (Err e), set_stream s t)
    | (Pending, t) => (Pending, set_stream s t)
    | (Ready (Ok bs), t) =>
        let filled := blen bs in
        let s := set_rd (set_stream s t) (splice (rd_buf s) 0 bs) 0 filled in
        if filled =? 0 then (Ready (Ok []), s) else serve_rd n (record_bytes s filled)
    end.

Definition poll_chunked (n : Z) : StreamWrapper T -> poll bytes * StreamWrapper T :=
  deep STREAM_BITS (poll_chunked_step n) (fun s => (Ready (Err ModelFuel), s)).

(** [poll_read] into a buffer with [n] free bytes: the bytes put into it. *)
Definition poll_read (n : Z) (s : StreamWrapper T) : poll bytes * StreamWrapper T :=
  if negb (use_chunked_recv s) then read_buffered n s else poll_chunked n s.
End Poll.

(** Reduce the projections and updates of a wrapper. *)
Ltac fields :=
  cbn [stream use_chunked_send use_chunked_recv buffered chunk_pos chunk_fill len_buf len_pos rd_buf
       rd_pos rd_fill bytes_received set_stream set_chunk set_len set_rd record_bytes] in *.

(** ** What a wrapper has still to deliver *)

(** The payload of a chunked stream, byte by byte: unlike [dechunk] it counts the bytes
    of a chunk that is cut off, which the wrapper may serve as they arrive. *)
Fixpoint payload_fuel (fuel : nat) (l : bytes) : bytes :=
  match fuel with
  | O => []
  | S fuel =>
      if blen l <? 4 then []
      else
        let len := from_le (take 4 l) in
        let rest := drop 4 l in
        if len =? 0 then payload_fuel fuel rest
        else if MAX_CHUNK_LEN <? len then []
        else take len rest ++ payload_fuel fuel (drop len rest)
  end.

Definition payload (l : bytes) : bytes := payload_fuel (S (length l)) l.

Lemma length_drop_lt n (l : bytes) : 0 < n -> l <> [] -> (length (drop n l) < length l)%nat.
Proof. intros Hn Hl. unfold drop. rewrite length_skipn. destruct l; [easy|cbn [length]; lia]. Qed.

Lemma length_drop_le n (l : bytes) : (length (drop n l) <= length l)%nat.
Proof. unfold drop. rewrite length_skipn. lia. Qed.

Lemma payload_fuel_enough : forall fuel l, (length l < fuel)%nat -> payload_fuel fuel l = payload l.
Proof.
  unfold payload.
  enough (forall fuel fuel' l, (length l < fuel)%nat -> (length l < fuel')%nat ->
            payload_fuel fuel l = payload_fuel fuel' l) as H by (intros; apply H; lia).
  induction fuel as [|fuel IH]; intros [|fuel'] l Hf Hf'; try lia. cbn [payload_fuel].
  destruct (Z.ltb_spec (blen l) 4) as [|H4]; [reflexivity|].
  assert (length (drop 4 l) < length l)%nat as Hlt
    by (apply length_drop_lt; [lia|intros ->; rewrite blen_nil in H4; lia]).
  destruct (_ =? 0); [apply IH; lia|]. destruct (_ <? _); [reflexivity|].
  pose proof (length_drop_le (from_le (take 4 l)) (drop 4 l)). rewrite (IH fuel'); [reflexivity|lia|lia].
Qed.

Lemma payload_unfold l :
  payload l =
  if blen l <? 4 then []
  else
    let len := from_le (take 4 l) in
    let rest := drop 4 l in
    if len =? 0 then payload rest
    else if MAX_CHUNK_LEN <? len then []
    else take len rest ++ payload (drop len rest).
Proof.
  unfold payload at 1. cbn [payload_fuel]. destruct (Z.ltb_spec (blen l) 4) as [|H4]; [reflexivity|].
  assert (length (drop 4 l) < length l)%nat as Hlt
    by (apply length_drop_lt; [lia|intros ->; rewrite blen_nil in H4; lia]).
  cbv zeta. destruct (_ =? 0); [apply payload_fuel_enough; lia|]. destruct (_ <? _); [reflexivity|].
  pose proof (length_drop_le (from_le (take 4 l)) (drop 4 l)). now rewrite payload_fuel_enough by lia.
Qed.

Section Remaining.
Context {T : Type} `{PollLaws T}.
Implicit Types s : StreamWrapper T.

Definition unread s : bytes := tcontent (stream s).

(** The bytes of the chunk header received so far, and the rest of the stream. *)
Definition header_stream s : bytes := take (len_pos s) (len_buf s) ++ unread s.

Definition chunk_need s : Z := blen (buffered s) - chunk_fill s.

Definition pending_payload s : bytes :=
  if blen (buffered s) =? 0 then payload (header_stream s)
  else take (chunk_need s) (unread s) ++ payload (drop (chunk_need s) (unread s)).

Definition remaining s : bytes :=
  if use_chunked_recv s
  then slice (buffered s) (chunk_pos s) (chunk_fill s) ++ pending_payload s
  else slice (rd_buf s) (rd_pos s) (rd_fill s) ++ unread s.

Record wf_stream s : Prop := {
  wf_inner : tinv (stream s);
  wf_unread : blen (unread s) <= ISIZE_MAX - 8;
  wf_len_buf : blen (len_buf s) = 4;
  wf_len_pos : 0 <= len_pos s < 4;
  wf_chunk : 0 <= chunk_pos s <= chunk_fill s;
  wf_fill : chunk_fill s <= blen (buffered s) <= MAX_CHUNK_LEN;
  wf_header : buffered s <> [] -> len_pos s = 0;
  wf_rd : 0 <= rd_pos s <= rd_fill s;
  wf_rd_fill : rd_fill s <= blen (rd_buf s);
  wf_rd_buf : blen (rd_buf s) = READ_BUF_CAP;
}.

(** Bytes are counted once, when they leave the socket. *)
Definition counted s : Z := bytes_received s + blen (unread s).

Lemma poll_stream n (t : T) :
  tinv t -> 0 < n ->
  match poll_inner_read (Z.to_nat n) t with
  | (Pending, t') => tinv t' /\ tends t' = tends t /\ tcontent t' = tcontent t
  | (Ready (Ok bs), t') =>
      tinv t' /\ tends t' = tends t /\ blen bs <= n /\ tcontent t = bs ++ tcontent t' /\
      (blen bs = 0 -> tcontent t = [] /\ tcontent t' = [] /\ tends t = Eof)
  | (Ready (Err e), t') =>
      tinv t' /\ tends t' = tends t /\ tcontent t = [] /\ tcontent t' = [] /\ tends t = Broken e
  end.
Proof.
  intros Ht Hn. pose proof (poll_law (Z.to_nat n) t Ht ltac:(lia)) as Hlaw.
  destruct (poll_inner_read (Z.to_nat n) t) as [[|[bs|e]] t']; [assumption| |tauto].
  destruct Hlaw as (? & ? & ? & Hc & Hnil). repeat split; auto; [unfold blen; lia|..];
    (assert (bs = []) as -> by now apply blen_zero);
    destruct (Hnil eq_refl); cbn [app] in Hc; congruence.
Qed.

Lemma blen_splice buf at_ bs :
  0 <= at_ -> at_ + blen bs <= blen buf -> blen (splice buf at_ bs) = blen buf.
Proof.
  intros Ha Hb. pose proof (blen_nonneg bs). unfold splice. rewrite !blen_app, blen_take, blen_drop; lia.
Qed.

Lemma take_splice buf at_ bs :
  0 <= at_ -> at_ + blen bs <= blen buf -> take (at_ + blen bs) (splice buf at_ bs) = take at_ buf ++ bs.
Proof.
  intros Ha Hb. pose proof (blen_nonneg bs). unfold splice. rewrite app_assoc.
  apply take_app_len. rewrite blen_app, blen_take; lia.
Qed.

(** The states a [while] loop over the socket goes through: only the socket, the
    counter and the buffer being filled change. *)
Lemma fill_len_law fuel : forall s,
  tinv (stream s) -> blen (len_buf s) = 4 -> 0 <= len_pos s <= 4 -> 4 - len_pos s <= Z.of_nat fuel ->
  let '(f, s') := fill_len fuel s in
  (exists t buf p r, s' = mkStream t (use_chunked_send s) (use_chunked_recv s) (buffered s)
     (chunk_pos s) (chunk_fill s) buf p (rd_buf s) (rd_pos s) (rd_fill s) r) /\
  tinv (stream s') /\ tends (stream s') = tends (stream s) /\ counted s' = counted s /\
  blen (len_buf s') = 4 /\ len_pos s <= len_pos s' <= 4 /\ header_stream s' = header_stream s /\
  match f with
  | Fallthrough => len_pos s' = 4
  | Return Pending => len_pos s' < 4
  | Return (Ready (Ok _)) => False
  | Return (Ready (Err e)) =>
      len_pos s' < 4 /\ unread s' = [] /\ e = end_error (tends (stream s))
  end.
Proof.
  induction fuel as [|fuel IH]; intros s Ht Hb Hp Hf; cbn [fill_len];
    destruct (Z.leb_spec 4 (len_pos s)) as [H4|H4]; try lia.
  1-2: (split; [destruct s; do 4 eexists; reflexivity|]; repeat split; auto; lia).
  pose proof (poll_stream (4 - len_pos s) (stream s) Ht ltac:(lia)) as Hpoll.
  destruct (poll_inner_read _ _) as [[|[bs|e]] t].
  - destruct Hpoll as (? & ? & Hc). split; [destruct s; do 4 eexists; reflexivity|].
    unfold counted, header_stream, unread in *. cbn. rewrite Hc. repeat split; auto; lia.
  - destruct Hpoll as (Ht' & He & Hlen & Hc & Hnil). pose proof (blen_nonneg bs).
    destruct (Z.eqb_spec (blen bs) 0) as [E|E].
    + destruct (Hnil E) as (E1 & E2 & E3). split; [destruct s; do 4 eexists; reflexivity|].
      unfold counted, header_stream, unread in *. cbn. rewrite E1, E2, He, E3. repeat split; auto; lia.
    + set (s1 := set_len _ _ _).
      assert (blen (splice (len_buf s) (len_pos s) bs) = 4) as Hb1 by (rewrite blen_splice; lia).
      specialize (IH s1). cbn [s1 set_len record_bytes set_stream stream len_buf len_pos] in IH.
      specialize (IH Ht' Hb1 ltac:(lia) ltac:(lia)).
      destruct (fill_len fuel s1) as [f s'].
      destruct IH as ((t2 & b2 & p2 & r2 & Hs') & Hi & He' & Hcnt & Hb' & Hp' & Hh & Hf').
      assert (header_stream s1 = header_stream s) as Hh1.
      { unfold header_stream, unread. cbn. rewrite take_splice by lia. rewrite Hc. now rewrite <- app_assoc. }
      assert (counted s1 = counted s) as Hc1.
      { unfold counted, unread. cbn. rewrite Hc, blen_app. lia. }
      split; [exists t2, b2, p2, r2; exact Hs'|]. rewrite He in He'. rewrite <- He.
      repeat split; auto; try lia; congruence.
  - destruct Hpoll as (? & ? & Hc & Hc' & Hbr). split; [destruct s; do 4 eexists; reflexivity|].
    unfold counted, header_stream, unread in *. cbn. rewrite Hc, Hc'. repeat split; auto; try lia. now rewrite Hbr.
Qed.

(** The bytes of the current chunk received so far, and the rest of the stream. *)
Definition chunk_stream s : bytes := take (chunk_fill s) (buffered s) ++ unread s.

Lemma fill_chunk_law fuel : forall s,
  tinv (stream s) -> 0 <= chunk_fill s <= blen (buffered s) -> chunk_need s <= Z.of_nat fuel ->
  let '(f, s') := fill_chunk fuel s in
  (exists t ch fill r, s' = mkStream t (use_chunked_send s) (use_chunked_recv s) ch
     (chunk_pos s) fill (len_buf s) (len_pos s) (rd_buf s) (rd_pos s) (rd_fill s) r) /\
  tinv (stream s') /\ tends (stream s') = tends (stream s) /\ counted s' = counted s /\
  blen (buffered s') = blen (buffered s) /\ chunk_fill s <= chunk_fill s' <= blen (buffered s) /\
  chunk_stream s' = chunk_stream s /\
  match f with
  | Fallthrough => chunk_fill s' = blen (buffered s)
  | Return Pending => True
  | Return (Ready (Ok _)) => False
  | Return (Ready (Err e)) => unread s' = [] /\ e = end_error (tends (stream s))
  end.
Proof.
  unfold chunk_need.
  induction fuel as [|fuel IH]; intros s Ht Hp Hf; cbn [fill_chunk];
    destruct (Z.leb_spec (blen (buffered s)) (chunk_fill s)) as [H4|H4]; try lia.
  1-2: (split; [destruct s; do 4 eexists; reflexivity|]; repeat split; auto; lia).
  pose proof (poll_stream (blen (buffered s) - chunk_fill s) (stream s) Ht ltac:(lia)) as Hpoll.
  destruct (poll_inner_read _ _) as [[|[bs|e]] t].
  - destruct Hpoll as (? & ? & Hc). split; [destruct s; do 4 eexists; reflexivity|].
    unfold counted, chunk_stream, unread in *. cbn. rewrite Hc. repeat split; auto; lia.
  - destruct Hpoll as (Ht' & He & Hlen & Hc & Hnil). pose proof (blen_nonneg bs).
    destruct (Z.eqb_spec (blen bs) 0) as [E|E].
    + destruct (Hnil E) as (E1 & E2 & E3). split; [destruct s; do 4 eexists; reflexivity|].
      unfold counted, chunk_stream, unread in *. cbn. rewrite E1, E2, He, E3. repeat split; auto; lia.
    + set (s1 := set_chunk _ _ _ _).
      assert (blen (splice (buffered s) (chunk_fill s) bs) = blen (buffered s)) as Hb1
        by (apply blen_splice; lia).
      specialize (IH s1). cbn [s1 set_chunk record_bytes set_stream stream buffered chunk_fill] in IH.
      rewrite Hb1 in IH. specialize (IH Ht' ltac:(lia) ltac:(lia)).
      destruct (fill_chunk fuel s1) as [f s'].
      destruct IH as ((t2 & b2 & p2 & r2 & Hs') & Hi & He' & Hcnt & Hb' & Hp' & Hh & Hf').
      assert (chunk_stream s1 = chunk_stream s) as Hh1.
      { unfold chunk_stream, unread. cbn. rewrite take_splice by lia. rewrite Hc. now rewrite <- app_assoc. }
      assert (counted s1 = counted s) as Hc1.
      { unfold counted, unread. cbn. rewrite Hc, blen_app. lia. }
      split; [exists t2, b2, p2, r2; exact Hs'|]. rewrite He in He'. rewrite <- He.
      repeat split; auto; try lia; congruence.
  - destruct Hpoll as (? & ? & Hc & Hc' & Hbr). split; [destruct s; do 4 eexists; reflexivity|].
    unfold counted, chunk_stream, unread in *. cbn. rewrite Hc, Hc'. repeat split; auto; try lia. now rewrite Hbr.
Qed.

(** While a chunk is in progress, what remains is decided by its length, the read
    position and [chunk_stream]. *)
Lemma remaining_chunk s :
  use_chunked_recv s = true -> buffered s <> [] ->
  0 <= chunk_pos s <= chunk_fill s -> chunk_fill s <= blen (buffered s) ->
  remaining s = drop (chunk_pos s) (take (blen (buffered s)) (chunk_stream s)) ++
                payload (drop (blen (buffered s)) (chunk_stream s)).
Proof.
  intros Hrecv Hb Hp Hf. unfold remaining, pending_payload. rewrite Hrecv.
  destruct (Z.eqb_spec (blen (buffered s)) 0) as [E|_]; [now apply blen_zero in E|].
  unfold chunk_stream, chunk_need. set (u := unread s). set (c := take (chunk_fill s) (buffered s)).
  assert (blen c = chunk_fill s) as Hc by (apply blen_take; lia).
  rewrite (drop_app_ge (blen (buffered s)) c u), (take_app_ge (blen (buffered s)) c u) by lia.
  rewrite (drop_app_le (chunk_pos s) c) by lia. rewrite Hc, <- app_assoc. f_equal.
  unfold slice, c. now rewrite drop_take by lia.
Qed.

(** ** One poll *)

(** What two states must share for a reader not to tell them apart. *)
Record same_view s s' : Prop := {
  view_remaining : remaining s' = remaining s;
  view_recv : use_chunked_recv s' = use_chunked_recv s;
  view_ends : tends (stream s') = tends (stream s);
  view_counted : counted s' = counted s;
}.

Lemma same_view_refl s : same_view s s.
Proof. now split. Qed.

(** What a poll with room for [n] bytes may give in state [s]. *)
Definition delivers (n : Z) s (out : poll bytes * StreamWrapper T) : Prop :=
  let '(p, s') := out in
  wf_stream s' /\
  match p with
  | Pending => same_view s s'
  | Ready (Ok bs) =>
      blen bs <= n /\ remaining s = bs ++ remaining s' /\
      use_chunked_recv s' = use_chunked_recv s /\ tends (stream s') = tends (stream s) /\
      counted s' = counted s /\
      (bs = [] -> n = 0 \/
         use_chunked_recv s = false /\ remaining s = [] /\ tends (stream s) = Eof)
  | Ready (Err e) =>
      same_view s s' /\ unread s' = [] /\ e = end_error (tends (stream s)) \/
      (exists len, MAX_CHUNK_LEN < len /\ e = chunk_too_long len) /\ remaining s = []
  end.

Lemma delivers_trans n s s1 out : same_view s s1 -> delivers n s1 out -> delivers n s out.
Proof.
  intros [Hr Hv He Hc] Hd. destruct out as [[|[bs|e]] s']; cbn in *; destruct Hd as [Hwf Hd];
    (split; [assumption|]).
  - destruct Hd. split; congruence.
  - rewrite Hr, Hv, He, Hc in *. exact Hd.
  - rewrite He, Hr in *. destruct Hd as [([] & ? & ?)|Hd]; [left|right; exact Hd].
    split; [split; congruence|auto].
Qed.

Lemma serve_law n s :
  wf_stream s -> use_chunked_recv s = true -> 0 <= n -> chunk_pos s < chunk_fill s ->
  forall self, delivers n s (poll_chunked_step n self s).
Proof.
  intros Hwf Hrecv Hn Hlt self. unfold poll_chunked_step.
  destruct (Z.ltb_spec (chunk_pos s) (chunk_fill s)); [|lia].
  destruct (Z.eqb_spec (Z.min n (chunk_fill s - chunk_pos s)) 0) as [E|E].
  - split; [assumption|]. change (blen []) with 0. repeat split; auto; lia.
  - pose proof (wf_chunk s Hwf). pose proof (wf_fill s Hwf). set (k := Z.min _ _) in *.
    split; [destruct Hwf; split; cbn; auto; lia|].
    assert (blen (slice (buffered s) (chunk_pos s) (chunk_pos s + k)) = k) as Hk
      by (rewrite blen_slice; lia).
    repeat split; [lia| |intros E'; rewrite E', blen_nil in Hk; lia].
    unfold remaining, pending_payload, header_stream, chunk_need, unread. cbn. rewrite Hrecv.
    rewrite app_assoc. f_equal. symmetry. apply slice_app; lia.
Qed.

(** Clearing a chunk that has been delivered. *)
Lemma clear_law s :
  wf_stream s -> use_chunked_recv s = true -> buffered s <> [] ->
  chunk_pos s = chunk_fill s -> chunk_fill s = blen (buffered s) ->
  wf_stream (set_chunk s [] 0 0) /\ same_view s (set_chunk s [] 0 0).
Proof.
  intros Hwf Hrecv Hb Hp Hf. pose proof (wf_header s Hwf Hb) as Hl. split.
  - destruct Hwf; split; cbn; auto; lia.
  - split; try reflexivity. unfold remaining, pending_payload, header_stream, chunk_need, unread. cbn.
    rewrite Hrecv, Hp, Hf, Hl, slice_nil, Z.sub_diag, take_0, drop_0. cbn [app].
    destruct (Z.eqb_spec (blen (buffered s)) 0) as [E|_]; [now apply blen_zero in E|reflexivity].
Qed.

Lemma remaining_header s :
  use_chunked_recv s = true -> buffered s = [] -> remaining s = payload (header_stream s).
Proof.
  intros Hrecv Hb. unfold remaining, pending_payload. rewrite Hrecv, Hb. cbn.
  unfold slice, drop, take. now rewrite skipn_nil, firstn_nil.
Qed.

Lemma blen_header_stream s :
  0 <= len_pos s <= blen (len_buf s) -> blen (header_stream s) = len_pos s + blen (unread s).
Proof. intros. unfold header_stream. rewrite blen_app, blen_take by lia. reflexivity. Qed.

Lemma next_header_law n s :
  wf_stream s -> use_chunked_recv s = true -> buffered s = [] ->
  match next_header s with
  | (inl (Return p), s') => delivers n s (p, s')
  | (inl Fallthrough, s') =>
      wf_stream s' /\ same_view s s' /\ buffered s' <> [] /\ chunk_pos s' = 0 /\ chunk_fill s' = 0 /\
      blen (unread s') < blen (unread s)
  | (inr _, s') => wf_stream s' /\ same_view s s' /\ blen (unread s') < blen (unread s)
  end.
Proof.
  intros Hwf Hrecv Hb. pose proof (wf_len_pos s Hwf). pose proof (wf_chunk s Hwf). pose proof (wf_fill s Hwf).
  pose proof (wf_unread s Hwf) as Hu. rewrite Hb, blen_nil in *.
  assert (chunk_pos s = 0 /\ chunk_fill s = 0) as [Hp0 Hf0] by lia.
  pose proof (fill_len_law 4 s (wf_inner s Hwf) (wf_len_buf s Hwf) ltac:(lia) ltac:(lia)) as Hlaw.
  unfold next_header. destruct (fill_len 4 s) as [f s1].
  destruct Hlaw as ((t & buf & p & r & Hs1) & Hi & He & Hcnt & Hlb & Hlp & Hh & Hf).
  assert (len_pos s1 + blen (unread s1) = len_pos s + blen (unread s)) as Hlen.
  { apply (f_equal blen) in Hh. rewrite !blen_header_stream in Hh; rewrite ?(wf_len_buf s Hwf); lia. }
  assert (len_pos s1 < 4 -> wf_stream s1 /\ same_view s s1) as Hsame.
  { intros Hl. split.
    - destruct Hwf. rewrite Hs1 in *. split; cbn in *; rewrite ?Hb in *; auto; try lia. easy.
    - rewrite Hs1 in *. split; cbn in *; auto. rewrite !remaining_header by (cbn; auto). congruence. }
  destruct f as [|[|[bs|e]]]; [|destruct (Hsame Hf); now split|easy|].
  2: { destruct Hf as (Hl & Hun & ->), (Hsame Hl). split; [assumption|]. left. auto. }
  assert (header_stream s = len_buf s1 ++ unread s1) as Hstream.
  { rewrite <- Hh. unfold header_stream. rewrite Hf. f_equal. rewrite <- Hlb. apply take_all. }
  assert (remaining s = let len := from_le (len_buf s1) in
            if len =? 0 then payload (unread s1) else if MAX_CHUNK_LEN <? len then []
            else take len (unread s1) ++ payload (drop len (unread s1))) as Hrem.
  { rewrite remaining_header, Hstream, payload_unfold, blen_app, Hlb, take_app_len, drop_app_len by auto.
    destruct (Z.ltb_spec (4 + blen (unread s1)) 4); [pose proof (blen_nonneg (unread s1)); lia|reflexivity]. }
  cbv zeta in Hrem. clear Hsame. destruct Hwf. rewrite Hs1 in *. unfold unread in *. fields.
  destruct (Z.eqb_spec (from_le buf) 0) as [Hz|Hz]; [|destruct (Z.ltb_spec MAX_CHUNK_LEN (from_le buf)) as [Hm|Hm]].
  - split; [split; unfold unread; fields; rewrite ?Hb, ?blen_nil; auto; try lia; easy|].
    split; [split; fields; auto|unfold unread; fields; lia]. rewrite Hrem, remaining_header by (fields; auto).
    reflexivity.
  - split; [split; unfold unread; fields; rewrite ?Hb, ?blen_nil; auto; try lia; easy|].
    right. split; [eauto|assumption].
  - pose proof (from_le_bound buf).
    assert (blen (repeat x00 (Z.to_nat (from_le buf))) = from_le buf) as Hrep
      by (unfold blen; rewrite repeat_length; lia).
    assert (repeat x00 (Z.to_nat (from_le buf)) <> []) as Hne
      by (intros E; rewrite E, blen_nil in Hrep; lia).
    split; [split; unfold unread; fields; auto; try lia|].
    split; [split; fields; auto|unfold unread; fields; repeat split; auto; lia].
    rewrite Hrem. unfold remaining, pending_payload, chunk_need, unread. cbn.
    rewrite Hrecv, Hrep, Hp0, Hf0, Z.sub_0_r, slice_nil.
    destruct (Z.eqb_spec (from_le buf) 0); [lia|reflexivity].
Qed.

Lemma fill_chunk_full_law n s :
  wf_stream s -> use_chunked_recv s = true -> buffered s <> [] ->
  chunk_pos s = chunk_fill s -> chunk_fill s < blen (buffered s) ->
  match fill_chunk_full s with
  | (Return p, s') => delivers n s (p, s')
  | (Fallthrough, s') =>
      wf_stream s' /\ same_view s s' /\ chunk_pos s' < chunk_fill s' /\ blen (unread s') < blen (unread s)
  end.
Proof.
  intros Hwf Hrecv Hb Hpf Hlt. pose proof (wf_chunk s Hwf). pose proof (wf_fill s Hwf).
  pose proof (fill_chunk_law (Z.to_nat (blen (buffered s) - chunk_fill s)) s (wf_inner s Hwf)
                ltac:(lia) ltac:(unfold chunk_need; lia)) as Hlaw.
  unfold fill_chunk_full. destruct (fill_chunk _ s) as [f s1].
  destruct Hlaw as ((t & ch & fill & r & Hs1) & Hi & He & Hcnt & Hlb & Hlp & Hh & Hf).
  assert (chunk_fill s1 + blen (unread s1) = chunk_fill s + blen (unread s)) as Hlen.
  { apply (f_equal blen) in Hh. unfold chunk_stream in Hh. rewrite !blen_app, !blen_take in Hh; lia. }
  assert (wf_stream s1 /\ same_view s s1) as [Hwf1 Hview].
  { assert (buffered s1 <> []) as Hb1.
    { intros E. rewrite E, blen_nil in Hlb. symmetry in Hlb. now apply blen_zero in Hlb. }
    split.
    - destruct Hwf. rewrite Hs1 in *. split; unfold unread in *; fields; auto; try lia.
    - split; auto; [|rewrite Hs1; reflexivity].
      rewrite !remaining_chunk; try (rewrite Hs1 in *; fields; auto; lia). rewrite Hlb, Hh, Hs1. reflexivity. }
  destruct f as [|[|[bs|e]]]; [|now split|easy|].
  - assert (chunk_pos s1 = chunk_pos s) by (rewrite Hs1; reflexivity).
    split; [assumption|]. split; [assumption|lia].
  - destruct Hf as [Hun ->]. split; [assumption|]. left. auto.
Qed.

(** The rounds left: every round either reads a byte or makes the next one serve. *)
Definition rounds s : Z := blen (unread s) + (if chunk_pos s <? chunk_fill s then 0 else 1).

Lemma clear_finished_law s :
  wf_stream s -> use_chunked_recv s = true -> chunk_fill s <= chunk_pos s ->
  wf_stream (clear_finished s) /\ same_view s (clear_finished s) /\ unread (clear_finished s) = unread s /\
  chunk_pos (clear_finished s) = chunk_fill (clear_finished s) /\
  (buffered (clear_finished s) <> [] -> chunk_fill (clear_finished s) < blen (buffered (clear_finished s))).
Proof.
  intros Hwf Hrecv Hge. pose proof (wf_chunk _ Hwf). pose proof (wf_fill _ Hwf). unfold clear_finished.
  destruct (Z.eqb_spec (blen (buffered s)) 0) as [E|E]; cbn [negb andb].
  - apply blen_zero in E. conj; auto using same_view_refl; try lia. easy.
  - destruct (Z.eqb_spec (chunk_fill s) (blen (buffered s))) as [E'|E'];
      [|conj; auto using same_view_refl; lia].
    destruct (clear_law s) as [? ?]; auto; [intros E0; now rewrite E0 in E|lia|]. conj; auto; easy.
Qed.

Lemma poll_chunked_step_law n k self :
  0 <= n ->
  (forall s, wf_stream s -> use_chunked_recv s = true -> rounds s < k -> delivers n s (self s)) ->
  forall s, wf_stream s -> use_chunked_recv s = true -> rounds s < k + 1 ->
  delivers n s (poll_chunked_step n self s).
Proof.
  intros Hn Hself s0 Hwf0 Hrecv0 Hk. destruct (Z_lt_le_dec (chunk_pos s0) (chunk_fill s0)) as [Hlt|Hge].
  { now apply serve_law. }
  unfold rounds in Hk. unfold poll_chunked_step.
  destruct (Z.ltb_spec (chunk_pos s0) (chunk_fill s0)) as [|_]; [lia|].
  pose proof (wf_chunk _ Hwf0). pose proof (wf_fill _ Hwf0).
  assert (forall s, rounds s <= blen (unread s) + 1) as Hrounds
    by (intros s; unfold rounds; destruct (_ <? _); lia).
  destruct (clear_finished_law s0 Hwf0 Hrecv0 Hge) as (Hwf1 & Hv1 & Hu1 & Hp1 & Hb1).
  set (s1 := clear_finished s0) in *.
  assert (use_chunked_recv s1 = true) as Hrecv1 by (destruct Hv1; congruence).
  apply (delivers_trans _ _ _ _ Hv1). clearbody s1.
  assert (forall s, wf_stream s -> same_view s1 s -> buffered s <> [] -> chunk_pos s = chunk_fill s ->
            chunk_fill s < blen (buffered s) -> blen (unread s) <= blen (unread s0) ->
            delivers n s1 (match fill_chunk_full s with
                           | (Return p, s) => (p, s) | (Fallthrough, s) => self s end)) as Hfill.
  { intros s Hwf Hv Hb Hp Hf Hu. assert (use_chunked_recv s = true) as Hrecv by (destruct Hv; congruence).
    apply (delivers_trans _ _ _ _ Hv). pose proof (fill_chunk_full_law n s Hwf Hrecv Hb Hp Hf) as Hlaw.
    destruct (fill_chunk_full s) as [[|p] s']; [|assumption]. destruct Hlaw as (Hwf' & Hv' & Hlt & Hu').
    apply (delivers_trans _ _ _ _ Hv'). apply Hself; auto; [destruct Hv'; congruence|].
    unfold rounds. destruct (Z.ltb_spec (chunk_pos s') (chunk_fill s')); lia. }
  destruct (Z.eqb_spec (blen (buffered s1)) 0) as [E|E].
  - apply blen_zero in E. pose proof (next_header_law n s1 Hwf1 Hrecv1 E) as Hlaw.
    destruct (next_header s1) as [[[|p]|] s'].
    + destruct Hlaw as (Hwf' & Hv' & Hb' & Hp' & Hf' & Hu'). apply Hfill; auto; try lia; [|rewrite <- Hu1; lia].
      rewrite Hf'. destruct (buffered s'); [easy|]. rewrite blen_cons. pose proof (blen_nonneg l). lia.
    + assumption.
    + destruct Hlaw as (Hwf' & Hv' & Hu'). apply (delivers_trans _ _ _ _ Hv').
      apply Hself; auto; [destruct Hv'; congruence|]. specialize (Hrounds s'). rewrite Hu1 in Hu'. lia.
  - assert (buffered s1 <> []) by (intros E0; now rewrite E0 in E).
    apply Hfill; auto using same_view_refl. rewrite Hu1. lia.
Qed.

Lemma deep_poll_chunked_law n h bottom s :
  0 <= n -> wf_stream s -> use_chunked_recv s = true -> rounds s < 2 ^ Z.of_nat h ->
  delivers n s (deep h (poll_chunked_step n) bottom s).
Proof.
  pose proof (deep_ind (poll_chunked_step n) (fun k f => 0 <= k /\
    forall s, wf_stream s -> use_chunked_recv s = true -> rounds s < k -> delivers n s (f s))) as H1.
  intros Hn Hwf Hrecv Hr. eapply H1; [| |exact Hwf|exact Hrecv|rewrite Z.add_0_l; exact Hr].
  - intros k f [Hk Hself]. split; [lia|]. now apply poll_chunked_step_law.
  - split; [lia|]. intros s' _ _ Hs'. unfold rounds in Hs'. pose proof (blen_nonneg (unread s')).
    destruct (_ <? _); lia.
Qed.

Lemma serve_rd_law n s :
  wf_stream s -> use_chunked_recv s = false -> 0 <= n -> rd_pos s < rd_fill s -> delivers n s (serve_rd n s).
Proof.
  intros Hwf Hrecv Hn Hlt. unfold serve_rd.
  destruct (Z.eqb_spec (Z.min n (rd_fill s - rd_pos s)) 0) as [E|E].
  - split; [assumption|]. change (blen []) with 0. conj; auto; lia.
  - pose proof (wf_rd s Hwf). pose proof (wf_rd_fill s Hwf). set (k := Z.min _ _) in *.
    split; [destruct Hwf; split; cbn; auto; lia|].
    assert (blen (slice (rd_buf s) (rd_pos s) (rd_pos s + k)) = k) as Hk by (rewrite blen_slice; lia).
    conj; auto; [lia| |intros E'; rewrite E', blen_nil in Hk; lia].
    unfold remaining, unread. cbn. rewrite Hrecv, app_assoc. f_equal. symmetry. apply slice_app; lia.
Qed.

(** A refill of the prefetch buffer, and the read served from it. *)
Lemma prefetched_law n s bs t :
  wf_stream s -> use_chunked_recv s = false -> 0 <= n -> rd_pos s = rd_fill s ->
  tinv t -> tends t = tends (stream s) -> blen bs <= blen (rd_buf s) ->
  tcontent (stream s) = bs ++ tcontent t ->
  (blen bs = 0 -> tcontent (stream s) = [] /\ tcontent t = [] /\ tends (stream s) = Eof) ->
  delivers n s (let s' := set_rd (set_stream s t) (splice (rd_buf s) 0 bs) 0 (blen bs) in
                if blen bs =? 0 then (Ready (Ok []), s') else serve_rd n (record_bytes s' (blen bs))).
Proof.
  intros Hwf Hrecv Hn E Ht He Hlen Hc Hnil. cbv zeta. pose proof (blen_nonneg bs).
  assert (remaining s = unread s) as Hempty by (unfold remaining; now rewrite Hrecv, E, slice_nil).
  assert (blen (splice (rd_buf s) 0 bs) = blen (rd_buf s)) as Hsp by (apply blen_splice; lia).
  set (s' := set_rd _ _ _ _). assert (wf_stream s') as Hwf'.
  { destruct Hwf; subst s'; split; unfold unread in *; fields; auto; try lia.
    rewrite Hc, blen_app in wf_unread0. lia. }
  assert (remaining s' = remaining s) as Hrem.
  { rewrite Hempty. unfold remaining, unread, s'. fields. rewrite Hrecv, Hc. f_equal.
    unfold slice. rewrite drop_0, Z.sub_0_r. apply (take_splice (rd_buf s) 0 bs); lia. }
  destruct (Z.eqb_spec (blen bs) 0) as [E0|E0].
  - destruct (Hnil E0) as (E1 & E2 & E3). split; [assumption|]. rewrite Hrem. change (blen []) with 0.
    conj; auto; [|intros _; right; conj; auto; now rewrite Hempty].
    unfold counted, unread, s'. fields. now rewrite E1, E2.
  - apply (delivers_trans _ _ (record_bytes s' (blen bs))).
    + split; auto. unfold counted, unread, s'. fields. rewrite Hc, blen_app. lia.
    + apply serve_rd_law; auto; [|subst s'; fields; lia]. destruct Hwf'; now split.
Qed.

Lemma read_buffered_law n s :
  wf_stream s -> use_chunked_recv s = false -> 0 <= n -> delivers n s (read_buffered n s).
Proof.
  intros Hwf Hrecv Hn. pose proof (wf_rd s Hwf). pose proof (wf_rd_fill s Hwf). pose proof (wf_rd_buf s Hwf).
  assert (0 < blen (rd_buf s)) by (unfold READ_BUF_CAP in *; lia).
  assert (rd_pos s = rd_fill s -> remaining s = unread s) as Hempty.
  { intros E. unfold remaining. now rewrite Hrecv, E, slice_nil. }
  unfold read_buffered. destruct (Z.eqb_spec (rd_pos s) (rd_fill s)) as [E|E]; cbn [andb].
  2: { destruct (Z.ltb_spec (rd_pos s) (rd_fill s)); [now apply serve_rd_law|lia]. }
  specialize (Hempty E).
  assert (forall t, tinv t -> tends t = tends (stream s) -> tcontent t = tcontent (stream s) ->
            wf_stream (set_stream s t) /\ same_view s (set_stream s t)) as Hset.
  { intros t Ht He Hc. split; [destruct Hwf; split; unfold unread in *; fields; auto; now rewrite Hc|].
    split; auto; unfold remaining, counted, unread; fields; rewrite ?Hrecv, ?Hc; reflexivity. }
  destruct (Z.leb_spec (blen (rd_buf s)) n) as [Hbig|Hsmall].
  - pose proof (poll_stream n (stream s) (wf_inner s Hwf) ltac:(lia)) as Hpoll.
    destruct (poll_inner_read _ _) as [[|[bs|e]] t].
    + destruct Hpoll as (? & ? & ?). now apply Hset.
    + destruct Hpoll as (Ht & He & Hlen & Hc & Hnil). pose proof (blen_nonneg bs). split.
      * destruct Hwf; split; unfold unread in *; fields; auto. rewrite Hc, blen_app in wf_unread0. lia.
      * conj; auto; [| |intros ->; right; destruct (Hnil eq_refl) as (? & _ & ?); conj; auto; now rewrite Hempty].
        -- rewrite Hempty. unfold remaining, unread. fields. now rewrite Hrecv, E, slice_nil.
        -- unfold counted, unread. fields. rewrite Hc, blen_app. lia.
    + destruct Hpoll as (Ht & He & Hc & Hc' & Hbr). destruct (Hset t) as [? ?]; auto; [congruence|].
      split; [assumption|]. left. rewrite Hbr. auto.
  - destruct (Z.ltb_spec (rd_pos s) (rd_fill s)); [lia|].
    pose proof (poll_stream (blen (rd_buf s)) (stream s) (wf_inner s Hwf) ltac:(lia)) as Hpoll.
    destruct (poll_inner_read _ _) as [[|[bs|e]] t].
    + destruct Hpoll as (? & ? & ?). now apply Hset.
    + destruct Hpoll as (Ht & He & Hlen & Hc & Hnil). now apply prefetched_law.
    + destruct Hpoll as (Ht & He & Hc & Hc' & Hbr). destruct (Hset t) as [? ?]; auto; [congruence|].
      split; [assumption|]. left. rewrite Hbr. auto.
Qed.

Lemma wf_new_stream (t : T) send recv :
  tinv t -> blen (tcontent t) <= ISIZE_MAX - 8 -> wf_stream (set_chunked (new_stream t) send recv).
Proof.
  intros Ht Hc. assert (blen (repeat x00 (Z.to_nat READ_BUF_CAP)) = READ_BUF_CAP) as Hcap
    by (unfold blen; rewrite repeat_length; unfold READ_BUF_CAP; lia).
  split; unfold set_chunked, new_stream, unread; fields; auto; rewrite ?Hcap, ?blen_nil;
    unfold READ_BUF_CAP, MAX_CHUNK_LEN; try lia; easy.
Qed.

Lemma remaining_new_stream (t : T) send :
  remaining (set_chunked (new_stream t) send true) = payload (tcontent t) /\
  remaining (set_chunked (new_stream t) send false) = tcontent t.
Proof. split; reflexivity. Qed.

Lemma poll_read_law n s : wf_stream s -> 0 <= n -> delivers n s (poll_read n s).
Proof.
  intros Hwf Hn. unfold poll_read. destruct (use_chunked_recv s) eqn:Hrecv; cbn [negb];
    [|now apply read_buffered_law].
  apply deep_poll_chunked_law; auto. pose proof (wf_unread s Hwf). unfold rounds, ISIZE_MAX in *.
  change (2 ^ Z.of_nat STREAM_BITS) with (2 ^ 63). destruct (_ <? _); lia.
Qed.

(** A sequence of polls, of whatever futures, up to the first error. *)
Fixpoint polls (sizes : list Z) s : bytes * option error * StreamWrapper T :=
  match sizes with
  | [] => ([], None, s)
  | n :: sizes =>
      match poll_read n s with
      | (Pending, s) => polls sizes s
      | (Ready (Ok bs), s) => let '(out, e, s) := polls sizes s in (bs ++ out, e, s)
      | (Ready (Err e), s) => ([], Some e, s)
      end
  end.

Lemma polls_law sizes : forall s,
  wf_stream s -> Forall (fun n => 0 <= n) sizes ->
  let '(out, e, s') := polls sizes s in
  wf_stream s' /\
  match e with
  | None => remaining s = out ++ remaining s' /\ counted s' = counted s
  | Some e =>
      remaining s = out ++ remaining s' /\ counted s' = counted s /\ unread s' = [] /\
        e = end_error (tends (stream s)) \/
      remaining s = out /\ exists len, MAX_CHUNK_LEN < len /\ e = chunk_too_long len
  end.
Proof.
  induction sizes as [|n sizes IH]; intros s Hwf Hs; cbn [polls]; [now split|].
  inversion Hs; subst. pose proof (poll_read_law n s Hwf ltac:(assumption)) as Hd.
  destruct (poll_read n s) as [[|[bs|e]] s1]; destruct Hd as [Hwf1 Hd].
  - specialize (IH s1 Hwf1 ltac:(assumption)). destruct (polls sizes s1) as [[out e] s'].
    destruct Hd as [Hr _ He Hc]. rewrite Hr, He, Hc in IH. exact IH.
  - specialize (IH s1 Hwf1 ltac:(assumption)). destruct (polls sizes s1) as [[out e] s'].
    destruct Hd as (_ & -> & _ & He & Hc & _), IH as [Hwf' IH]. rewrite He, Hc in IH.
    split; [assumption|]. rewrite <- app_assoc.
    destruct e as [e|]; [destruct IH as [(<- & ?)|(<- & ?)]; [left|right]; auto|].
    destruct IH as [<- ?]. auto.
  - split; [assumption|]. destruct Hd as [([] & ? & ?)|[? ?]]; [left|right]; auto.
Qed.
End Remaining.

(** ** Interrupted reads *)

(** C14: no byte is lost, repeated or reordered by an interrupted read.  Whatever the
    sequence of polls, of whatever sizes and in whatever futures, and however often
    the socket is not ready, the bytes delivered are what the wrapper had to deliver,
    followed by what it still has; an error is the end of the socket or a chunk over
    the limit; and [bytes_received] counts each byte once. *)
Theorem interrupted_reads_lose_nothing {T} `{PollLaws T} (sizes : list Z) (s : StreamWrapper T) :
  wf_stream s -> Forall (fun n => 0 <= n) sizes ->
  let '(out, e, s') := polls sizes s in
  wf_stream s' /\
  match e with
  | None => remaining s = out ++ remaining s' /\ counted s' = counted s
  | Some e =>
      remaining s = out ++ remaining s' /\ counted s' = counted s /\ unread s' = [] /\
        e = end_error (tends (stream s)) \/
      remaining s = out /\ exists len, MAX_CHUNK_LEN < len /\ e = chunk_too_long len
  end.
Proof. apply polls_law. Qed.

(** A socket that follows a script: data arrives in segments, with [None] for a poll
    that finds it not ready. *)
Record script := Script { events : list (option bytes) }.

#[export] Instance script_poll : PollRead script := fun n t =>
  match events t with
  | [] => (Ready (Ok []), t)
  | None :: rest => (Pending, Script rest)
  | Some seg :: rest =>
      (Ready (Ok (firstn n seg)),
       Script (match skipn n seg with [] => rest | seg' => Some seg' :: rest end))
  end.

Definition arrived (evs : list (option bytes)) : bytes :=
  concat (map (fun e => match e with Some seg => seg | None => [] end) evs).

#[export] Program Instance script_laws : PollLaws script := {
  tinv t := Forall (fun e => e <> Some []) (events t);
  tcontent t := arrived (events t);
  tends t := Eof;
}.
Next Obligation.
  unfold poll_inner_read, script_poll. destruct t as [[|[seg|] rest]]; cbn [events] in *.
  - cbn. repeat split; auto; lia.
  - inversion H as [|? ? Hseg Hrest]; subst. split; [|split; [reflexivity|]].
    + destruct (skipn n seg) eqn:E; [assumption|]. constructor; [discriminate|assumption].
    + split; [rewrite length_firstn; lia|]. split.
      * unfold arrived. cbn [map concat]. rewrite <- (firstn_skipn n seg) at 1. rewrite <- app_assoc. f_equal.
        now destruct (skipn n seg).
      * intros E. destruct n; [lia|]. destruct seg; [easy|discriminate].
  - inversion H; subst. auto.
Qed.

(** A string in two chunks, the stream interrupted inside a header and inside a chunk. *)
Definition interrupted_script : script :=
  Script [Some [x03; x00]; None; Some [x00; x00; x04; x61]; None; Some [x62; x00; x00; x00; x00; x02];
          None; Some [x00; x00; x00; x63; x64]].

Lemma interrupted_reads_lose_nothing_witness :
  exists s', polls [9; 9; 9; 1; 9; 9] (set_chunked (new_stream interrupted_script) true true)
    = ([x04; x61; x62; x63; x64], None, s') /\ remaining s' = [].
Proof.
  set (s0 := set_chunked (new_stream interrupted_script) true true).
  pose proof (interrupted_reads_lose_nothing [9; 9; 9; 1; 9; 9] s0) as Hlaw.
  destruct (polls _ s0) as [[out e] s'] eqn:E.
  assert (fst (out, e, s') = ([x04; x61; x62; x63; x64], None)) as Hout by (rewrite <- E; vm_compute; reflexivity).
  cbn [fst] in Hout. injection Hout as -> ->.
  exists s'. split; [reflexivity|]. destruct Hlaw as (_ & Hrem & _).
  - apply wf_new_stream; [cbn; repeat constructor; discriminate|discriminate].
  - repeat constructor; discriminate.
  - assert (remaining s0 = [x04; x61; x62; x63; x64]) as H0 by (vm_compute; reflexivity).
    rewrite H0 in Hrem. now injection Hrem as <-.
Defined.

(** ** Chunked packets through the wrapper *)

(** The two meanings of a chunked stream differ only in a chunk that is cut off. *)
Lemma dechunk_payload eof : forall n l, (length l < n)%nat ->
  exists cut, payload l = fst (dechunk eof l) ++ cut.
Proof.
  induction n as [|n IH]; intros l Hn; [lia|]. rewrite payload_unfold, dechunk_unfold.
  destruct (Z.ltb_spec (blen l) 4) as [|H4]; [now exists []|]. cbv zeta.
  assert (length (drop 4 l) < length l)%nat as Hlt
    by (apply length_drop_lt; [lia|intros ->; rewrite blen_nil in H4; lia]).
  destruct (_ =? 0); [apply IH; lia|]. destruct (MAX_CHUNK_LEN <? _); [now exists []|].
  destruct (_ <? _); [now eexists|].
  pose proof (length_drop_le (from_le (take 4 l)) (drop 4 l)).
  destruct (IH (drop (from_le (take 4 l)) (drop 4 l)) ltac:(lia)) as [cut ->].
  exists cut. cbn [fst]. now rewrite app_assoc.
Qed.

Lemma payload_zero l : payload (to_le 4 0 ++ l) = payload l.
Proof.
  rewrite payload_unfold, blen_app, blen_to_le, take4_header, drop4_header.
  pose proof (blen_nonneg l). destruct (Z.ltb_spec (Z.of_nat 4 + blen l) 4); [lia|].
  cbv zeta. rewrite from_to_le by (split; [lia|reflexivity]). reflexivity.
Qed.

Lemma payload_written pkt wire l :
  write_chunked_packet pkt = Ok wire -> blen pkt <= MAX_CHUNK_LEN -> payload (wire ++ l) = pkt ++ payload l.
Proof.
  intros Hw Hmax. apply write_chunked_packet_ok in Hw as [-> Hu]. rewrite <- !app_assoc.
  pose proof (blen_nonneg pkt). pose proof (blen_nonneg l).
  rewrite payload_unfold, take4_header, drop4_header, !blen_app, !blen_to_le.
  destruct (Z.ltb_spec (Z.of_nat 4 + (blen pkt + (Z.of_nat 4 + blen l))) 4); [lia|].
  cbv zeta. rewrite from_to_le by (unfold U32_MAX in Hu; change (2 ^ (8 * Z.of_nat 4)) with 4294967296; lia).
  destruct (Z.eqb_spec (blen pkt) 0) as [E0|].
  - apply blen_zero in E0. subst. cbn [app]. apply payload_zero.
  - destruct (Z.ltb_spec MAX_CHUNK_LEN (blen pkt)); [lia|].
    now rewrite take_app_exact, drop_app_exact, payload_zero.
Qed.

Lemma payload_packets pkts : forall wire,
  write_chunked_packets pkts = Ok wire -> Forall (fun pkt => blen pkt <= MAX_CHUNK_LEN) pkts ->
  payload wire = concat pkts.
Proof.
  induction pkts as [|pkt pkts IH]; intros wire H Hmax; cbn [write_chunked_packets] in H.
  { inj. reflexivity. }
  apply result_bind_inv in H as (w & Hw & H). apply result_bind_inv in H as (ws & Hws & H). inj.
  inversion Hmax; subst. rewrite (payload_written _ _ _ Hw) by assumption. cbn [concat]. f_equal. auto.
Qed.

(** The async side of chunking is transparent as well: over a socket that carries
    the chunked form of some packets, every sequence of polls of the wrapper delivers
    an initial segment of their concatenation, and the rest of it while there is no
    error. *)
Theorem async_chunking_transparent {T} `{PollLaws T} (t : T) (send : bool) (sizes : list Z)
    (pkts : list bytes) (wire : bytes) :
  tinv t -> tcontent t = wire -> blen wire <= ISIZE_MAX - 8 ->
  write_chunked_packets pkts = Ok wire -> Forall (fun pkt => blen pkt <= MAX_CHUNK_LEN) pkts ->
  Forall (fun n => 0 <= n) sizes ->
  let '(out, e, s') := polls sizes (set_chunked (new_stream t) send true) in
  exists tail, concat pkts = out ++ tail /\ (e = None -> tail = remaining s').
Proof.
  intros Ht Hc Hsize Hw Hmax Hs. subst wire.
  pose proof (polls_law sizes _ (wf_new_stream t send true Ht Hsize) Hs) as Hlaw.
  destruct (polls sizes _) as [[out e] s']. destruct Hlaw as [_ Hlaw].
  rewrite (proj1 (remaining_new_stream t send)), (payload_packets _ _ Hw Hmax) in Hlaw.
  destruct e as [e|]; [destruct Hlaw as [[-> _]|[-> _]]|destruct Hlaw as [-> _]].
  - exists (remaining s'). split; [reflexivity|discriminate].
  - exists []. split; [now rewrite app_nil_r|discriminate].
  - exists (remaining s'). auto.
Qed.

Lemma async_chunking_transparent_witness :
  let t := Script [Some (to_le 4 1 ++ [x03; x00; x00]); None; Some [x00; x00; x02]; Some [x00; x00; x00; x07];
                   None; Some [x08; x00; x00; x00; x00]] in
  let '(out, e, s') := polls [4; 4; 1; 4; 4] (set_chunked (new_stream t) true true) in
  exists tail, [x03; x07; x08] = out ++ tail /\ (e = None -> tail = remaining s').
Proof.
  intros t.
  apply (async_chunking_transparent t true [4; 4; 1; 4; 4] [[x03]; [x07; x08]]
    (to_le 4 1 ++ [x03] ++ to_le 4 0 ++ to_le 4 2 ++ [x07; x08] ++ to_le 4 0)).
  - repeat constructor; discriminate.
  - reflexivity.
  - discriminate.
  - reflexivity.
  - repeat constructor; discriminate.
  - repeat constructor; discriminate.
Defined.
