(* ===== verification/Duplex.v ===== *)
(** * Connections that are read and written ([R: Read + Write])

    The response loops of the blocking client run over any stream that can be read and
    written.  Such code is an [io] action on the stream; [performs] says which bytes an
    action takes off the stream and which it writes. *)

From Stdlib Require Import String ZArith Lia Bool List.
From S2P Require Import Prelude Reader Session Chunked.
Import ListNotations.

(** [write_all] and [flush]. *)
Class Write (R : Type) := write_all : bytes -> R -> result error R.

Definition io (R A : Type) : Type := R -> result error (A * R).

#[export] Instance io_monad R : Monad (io R) := {
  ret A a := fun r => Ok (a, r);
  bind A B m f := fun r => match m r with Ok (a, r) => f a r | Err e => Err e end;
}.

#[export] Instance io_lift R : MonadResult (io R) :=
  fun A x r => match x with Ok a => Ok (a, r) | Err e => Err e end.

(** A function that only reads. *)
Definition reading {R} `{Read R} {A} (m : reader A) : io R A := exec m.

Definition writing {R} `{Write R} (w : bytes) : io R unit := fun r =>
  match write_all w r with Ok r => Ok (tt, r) | Err e => Err e end.

(** What a connection promises: the laws of its reading half, and that writing only
    appends to what was sent. *)
Class DuplexLaws (R : Type) `{ReadLaws R} `{Write R} := {
  sent : R -> bytes;
  write_law : forall w r, rinv r -> exists r', write_all w r = Ok r' /\
    rinv r' /\ content r' = content r /\ ends r' = ends r /\ sent r' = sent r ++ w;
  read_sent : forall n r bs r', read n r = Ok (bs, r') -> sent r' = sent r;
}.

(** What no [read] changes, no reader changes. *)
Lemma exec_keeps {R B} `{Read R} (g : R -> B) :
  (forall n r bs r', read n r = Ok (bs, r') -> g r' = g r) ->
  forall A (m : reader A) r a r', exec m r = Ok (a, r') -> g r' = g r.
Proof.
  intros Hg A m.
  assert (forall fuel n acc r bs r', read_exact_loop fuel n acc r = Ok (bs, r') -> g r' = g r) as Hloop.
  { induction fuel as [|fuel IH]; intros [|n] acc r bs r' E; cbn [read_exact_loop] in E; try discriminate;
      try (apply Ok_inj in E; now injection E as _ <-).
    destruct (read (S n) r) as [[got r1]|e] eqn:Er; [|discriminate]. destruct got as [|b got]; [discriminate|].
    rewrite (IH _ _ _ _ _ E). now apply Hg in Er. }
  induction m as [a|e|n k IH]; intros r a' r' E; cbn [exec] in E; try discriminate.
  - apply Ok_inj in E. now injection E as _ <-.
  - destruct (read_exact (Z.to_nat n) r) as [[bs r1]|e] eqn:Er; [|discriminate].
    rewrite (IH bs r1 a' r' E). exact (Hloop _ _ _ _ _ _ Er).
Qed.

Section Performs.
Context {R : Type} `{DuplexLaws R}.

Lemma exec_sent {A} (m : reader A) r a r' : exec m r = Ok (a, r') -> sent r' = sent r.
Proof. apply exec_keeps, read_sent. Qed.

(** A stream that a buffer of the machine could hold. *)
Definition sound (r : R) : Prop := rinv r /\ blen (content r) <= ISIZE_MAX.

(** [performs m w out a]: off a stream that starts with [w], [m] takes exactly [w], returns
    [a] and writes [out]. *)
Definition performs {A} (m : io R A) (w out : bytes) (a : A) : Prop :=
  forall r rest, sound r -> content r = w ++ rest ->
  exists r', m r = Ok (a, r') /\ sound r' /\ content r' = rest /\ ends r' = ends r /\ sent r' = sent r ++ out.

Lemma performs_ret {A} (a : A) : performs (ret a) [] [] a.
Proof. intros r rest Hr Hc. exists r. rewrite app_nil_r. auto. Qed.

Lemma performs_lift {A} (x : result error A) a : x = Ok a -> performs (lift x) [] [] a.
Proof. intros -> r rest Hr Hc. exists r. rewrite app_nil_r. auto. Qed.

Lemma performs_bind {A B} (m : io R A) (f : A -> io R B) w1 w2 o1 o2 a b :
  performs m w1 o1 a -> performs (f a) w2 o2 b -> performs (bind m f) (w1 ++ w2) (o1 ++ o2) b.
Proof.
  intros Hm Hf r rest Hr Hc. rewrite <- app_assoc in Hc.
  destruct (Hm r _ Hr Hc) as (r1 & E1 & Hr1 & Hc1 & He1 & Hs1).
  destruct (Hf r1 _ Hr1 Hc1) as (r2 & E2 & Hr2 & Hc2 & He2 & Hs2).
  exists r2. cbn [bind io_monad]. rewrite E1. conj; auto; [congruence|]. now rewrite Hs2, Hs1, app_assoc.
Qed.

Lemma performs_then {A B} (m : io R A) (f : A -> io R B) w1 w2 out a b :
  performs m w1 [] a -> performs (f a) w2 out b -> performs (bind m f) (w1 ++ w2) out b.
Proof. intros Hm Hf. exact (performs_bind m f w1 w2 [] out a b Hm Hf). Qed.

Lemma performs_last {A B} (m : io R A) (f : A -> io R B) w out a b :
  performs m w out a -> performs (f a) [] [] b -> performs (bind m f) w out b.
Proof.
  intros Hm Hf. rewrite <- (app_nil_r w), <- (app_nil_r out). exact (performs_bind m f w [] out [] a b Hm Hf).
Qed.

Lemma performs_reading {A} (m : reader A) w a : reads m w a -> performs (reading m) w [] a.
Proof.
  intros Hm r rest [Hr Hlen] Hc. pose proof (exec_with m r Hr) as Hexec. rewrite Hc in Hexec.
  rewrite (run_with_ok (Io UnexpectedEof) (end_error (ends r)) _ _ _ (Hm rest)) in Hexec.
  destruct Hexec as (r' & E & Hr' & Hc' & He'). exists r'. unfold reading. rewrite app_nil_r.
  conj; auto; [split; [exact Hr'|]|now apply exec_sent in E].
  rewrite Hc, blen_app in Hlen. pose proof (blen_nonneg w). rewrite Hc'. lia.
Qed.

Lemma performs_writing w : performs (writing w) [] w tt.
Proof.
  intros r rest [Hr Hlen] Hc. destruct (write_law w r Hr) as (r' & E & Hr' & Hc' & He' & Hs').
  exists r'. unfold writing. rewrite E. unfold sound. rewrite Hc'. conj; auto.
Qed.
End Performs.

(** ** A reading half with a record of what was sent *)
Record Wired (R : Type) := mkWired { incoming : R; outgoing : bytes }.
Arguments mkWired {R}.
Arguments incoming {R}.
Arguments outgoing {R}.

#[export] Instance wired_read {R} `{Read R} : Read (Wired R) := fun n c =>
  match read n (incoming c) with
  | Ok (bs, r) => Ok (bs, mkWired r (outgoing c))
  | Err e => Err e
  end.

#[export] Instance wired_write {R} : Write (Wired R) := fun w c => Ok (mkWired (incoming c) (outgoing c ++ w)).

#[export] Instance wired_read_laws {R} `{ReadLaws R} : ReadLaws (Wired R).
Proof.
  refine {| rinv c := rinv (incoming c); content c := content (incoming c); ends c := ends (incoming c) |}.
  intros n c Hc Hn. unfold read, wired_read. pose proof (read_law n (incoming c) Hc Hn) as Hlaw.
  destruct (read n (incoming c)) as [[bs r]|e]; exact Hlaw.
Defined.

#[export] Instance wired_laws {R} `{ReadLaws R} : DuplexLaws (Wired R).
Proof.
  refine {| sent c := outgoing c |}.
  - intros w c Hc. eexists. split; [reflexivity|]. cbn. auto.
  - intros n c bs c' E. unfold read, wired_read in E. destruct (read n (incoming c)) as [[? r]|]; [|discriminate].
    apply Ok_inj in E. now injection E as _ <-.
Defined.

(** ** The chunked reader writes through ([Write for ChunkedReader]) *)

#[export] Instance chunked_write {R} `{Write R} : Write (ChunkedReader R) := fun w r =>
  match write_all w (inner r) with
  | Ok inner => Ok (mkChunked inner (chunk r) (pos r))
  | Err e => Err e
  end.

#[export] Instance chunked_duplex {R} `{DuplexLaws R} : DuplexLaws (ChunkedReader R).
Proof.
  refine {| sent r := sent (inner r) |}.
  { intros w r (Hr & Hp & Hc). destruct (write_law w (inner r) Hr) as (r' & E & Hr' & Hc' & He' & Hs').
    unfold write_all, chunked_write. rewrite E. eexists. split; [reflexivity|].
    cbn [rinv content ends chunked_laws]. unfold chunked_inv, chunked_content, chunked_ends, plain. cbn [inner chunk pos].
    rewrite Hc', He'. auto. }
  intros n r bs r' E. unfold read, chunked_read, chunked_read_with in E. destruct n as [|n].
  { apply Ok_inj in E. now injection E as _ <-. }
  destruct (blen (chunk r) <=? pos r).
  - destruct (exec read_next_chunk (inner r)) as [[c r1]|] eqn:Ex; [|discriminate]. apply Ok_inj in E.
    injection E as _ <-. cbn [inner]. now apply exec_sent in Ex.
  - apply Ok_inj in E. now injection E as _ <-.
Defined.

(** ** [TransportReader]: a [BufReader] whose writes go to the transport *)
Record TransportReader (R : Type) := mkTransportReader { transport : R; buffered : bytes; capacity : nat }.
Arguments mkTransportReader {R}.
Arguments transport {R}.
Arguments buffered {R}.
Arguments capacity {R}.

Definition new_transport_reader {R} (stream : R) (capacity : nat) : TransportReader R :=
  mkTransportReader stream [] capacity.

(** [BufReader::read]: a read at least as large as the buffer goes past it. *)
#[export] Instance transport_read {R} `{Read R} : Read (TransportReader R) := fun n r =>
  match buffered r with
  | [] =>
      if (capacity r <=? n)%nat then
        match read n (transport r) with
        | Ok (bs, t) => Ok (bs, mkTransportReader t [] (capacity r))
        | Err e => Err e
        end
      else
        match read (capacity r) (transport r) with
        | Ok (bs, t) => Ok (firstn n bs, mkTransportReader t (skipn n bs) (capacity r))
        | Err e => Err e
        end
  | held => Ok (firstn n held, mkTransportReader (transport r) (skipn n held) (capacity r))
  end.

#[export] Instance transport_write {R} `{Write R} : Write (TransportReader R) := fun w r =>
  match write_all w (transport r) with
  | Ok t => Ok (mkTransportReader t (buffered r) (capacity r))
  | Err e => Err e
  end.

Lemma transport_read_law {R} `{ReadLaws R} n (r : TransportReader R) :
  rinv (transport r) -> (0 < n)%nat ->
  match read n r with
  | Ok (bs, r') =>
      rinv (transport r') /\ (length bs <= n)%nat /\
      buffered r ++ content (transport r) = bs ++ buffered r' ++ content (transport r') /\
      ends (transport r') = ends (transport r) /\
      (bs = [] -> buffered r ++ content (transport r) = [] /\ ends (transport r) = Eof)
  | Err e => buffered r ++ content (transport r) = [] /\ ends (transport r) = Broken e
  end.
Proof.
  intros Hr Hn. unfold read, transport_read. destruct (buffered r) as [|b held] eqn:Eb; cbn [app].
  - destruct (Nat.leb_spec (capacity r) n).
    + pose proof (read_law n (transport r) Hr Hn) as Hlaw. destruct (read n (transport r)) as [[bs t]|e]; exact Hlaw.
    + pose proof (read_law (capacity r) (transport r) Hr ltac:(lia)) as Hlaw.
      destruct (read (capacity r) (transport r)) as [[bs t]|e]; [|exact Hlaw].
      destruct Hlaw as (Ht & _ & Hc & He & Hnil). cbn [transport buffered]. conj; auto; [apply firstn_le_length| |].
      * now rewrite app_assoc, firstn_skipn.
      * intros E. apply Hnil. destruct bs as [|b bs]; [reflexivity|]. destruct n; [lia|]. discriminate.
  - cbn [transport buffered]. conj; auto; [apply firstn_le_length| |].
    + now rewrite app_assoc, firstn_skipn.
    + destruct n; [lia|]. discriminate.
Qed.

#[export] Instance transport_laws {R} `{ReadLaws R} : ReadLaws (TransportReader R) := {|
  rinv r := rinv (transport r);
  content r := buffered r ++ content (transport r);
  ends r := ends (transport r);
  read_law := transport_read_law;
|}.

#[export] Instance transport_duplex {R} `{DuplexLaws R} : DuplexLaws (TransportReader R).
Proof.
  refine {| sent r := sent (transport r) |}.
  - intros w r Hr. destruct (write_law w (transport r) Hr) as (t & E & Ht & Hc & He & Hs).
    unfold write_all, transport_write. rewrite E. eexists. split; [reflexivity|]. cbn. rewrite Hc. auto.
  - intros n r bs r' E. unfold read, transport_read in E. destruct (buffered r).
    + destruct (_ <=? _)%nat; destruct (read _ (transport r)) as [[? t]|] eqn:Er; try discriminate;
        apply Ok_inj in E; injection E as _ <-; cbn [transport]; now apply read_sent in Er.
    + apply Ok_inj in E. now injection E as _ <-.
Defined.
