(* ===== verification/Compression.v ===== *)
(** * Compression frames ([sync/compression/mod.rs])

    One frame: [encode_frame] and [decode_frame].  A sequence of frames:
    [DecompressingReader], the [Read] adapter that serves the decompressed bytes of
    a packet body.  CityHash128, LZ4 and ZSTD are third-party code: they are the
    fields of [Codecs], with what the frames rely on in [CodecLaws]. *)

From Stdlib Require Import String ZArith Lia Bool List.
From Stdlib Require Import Strings.Byte.
From coqutil Require Import Byte.
From S2P Require Import Prelude Reader Limits Utf8 Wire Chunked.
Import ListNotations.

(** ** Third-party code *)

(** [lz4_flex::block] and [zstd]: [decompress] takes the declared size of the output;
    an error is its text. *)
Record Lz4Codec := mkLz4 {
  lz4_compress : bytes -> bytes;
  lz4_decompress : bytes -> Z -> result message bytes;
}.

Record ZstdCodec := mkZstd {
  zstd_encode_all : bytes -> result message bytes;
  zstd_decompress : bytes -> Z -> result message bytes;
}.

(** [lz4] and [zstd] are [None] when the crate is built without the feature. *)
Class Codecs := {
  city_hash_128 : bytes -> Z * Z;
  lz4 : option Lz4Codec;
  zstd : option ZstdCodec;
}.

(** The hash is a pair of [u64]; a codec decompresses what it compressed. *)
Class CodecLaws `{Codecs} := {
  city_hash_range : forall l, 0 <= fst (city_hash_128 l) < 2 ^ 64 /\ 0 <= snd (city_hash_128 l) < 2 ^ 64;
  lz4_inverts : forall c data, lz4 = Some c ->
    lz4_decompress c (lz4_compress c data) (blen data) = Ok data;
  zstd_inverts : forall c data body, zstd = Some c -> zstd_encode_all c data = Ok body ->
    zstd_decompress c body (blen data) = Ok data;
}.

(** ** Frames *)

Definition HEADER_LEN : Z := 9.
Definition CHECKSUM_LEN : Z := 16.

Inductive CompressionMethod := MNone | Lz4 | Zstd.

Definition method_byte (m : CompressionMethod) : Init.Byte.byte :=
  match m with MNone => x02 | Lz4 => x82 | Zstd => x90 end.

Definition method_from_byte (b : Init.Byte.byte) : option CompressionMethod :=
  match b with
  | x02 => Some MNone
  | x82 => Some Lz4
  | x90 => Some Zstd
  | _ => None
  end.

Section Frames.
Context `{Codecs}.

Definition compress_body (data : bytes) (method : CompressionMethod) : result error bytes :=
  match method with
  | MNone => Ok data
  | Lz4 =>
      match lz4 with
      | Some c => Ok (lz4_compress c data)
      | None => Err (Compression (msg "LZ4 compression requested but 'lz4' feature not enabled"))
      end
  | Zstd =>
      match zstd with
      | Some c => map_err (fun e => Compression (Msg "zstd encode: {e}" [AM e])) (zstd_encode_all c data)
      | None => Err (Compression (msg "ZSTD compression requested but 'zstd' feature not enabled"))
      end
  end.

Definition u32_size (fmt : string) (n : Z) : result error Z :=
  if n <=? U32_MAX then Ok n else Err (Compression (Msg fmt [AZ n])).

Definition checksum_bytes (header_and_body : bytes) : bytes :=
  let '(lo, hi) := city_hash_128 header_and_body in to_le 8 lo ++ to_le 8 hi.

Definition encode_frame (data : bytes) (method : CompressionMethod) : result error bytes :=
  let* body := compress_body data method in
  let* compressed_size :=
    u32_size "compressed frame of {} bytes exceeds the u32 wire size field" (HEADER_LEN + blen body) in
  let* uncompressed_size :=
    u32_size "uncompressed payload of {} bytes exceeds the u32 wire size field" (blen data) in
  let header_and_body :=
    [method_byte method] ++ to_le 4 compressed_size ++ to_le 4 uncompressed_size ++ body in
  Ok (checksum_bytes header_and_body ++ header_and_body).

Definition decompress_body (body : bytes) (method : CompressionMethod) (uncompressed_size : Z)
  : result error bytes :=
  match method with
  | MNone => Ok body
  | Lz4 =>
      match lz4 with
      | Some c => map_err (fun e => Compression (Msg "lz4 decode: {e}" [AM e]))
                          (lz4_decompress c body uncompressed_size)
      | None => Err (Compression (msg "LZ4 decompression requested but 'lz4' feature not enabled"))
      end
  | Zstd =>
      match zstd with
      | Some c => map_err (fun e => Compression (Msg "zstd decode: {e} (declared uncompressed_size {})"
                                                     [AM e; AZ uncompressed_size]))
                          (zstd_decompress c body uncompressed_size)
      | None => Err (Compression (msg "ZSTD decompression requested but 'zstd' feature not enabled"))
      end
  end.

(** The caps checked before a buffer is sized. *)
Definition frame_sizes (header : bytes) : result error (CompressionMethod * Z * Z) :=
  let* method := ok_or (method_from_byte (hd x00 header))
    (Compression (Msg "unknown compression method byte: 0x{:02x}" [AZ (byte0 header)])) in
  let compressed_size := from_le (slice header 1 5) in
  let uncompressed_size := from_le (slice header 5 9) in
  if compressed_size <? HEADER_LEN
  then Err (Compression (Msg "compressed_size {} < header length {}" [AZ compressed_size; AZ HEADER_LEN]))
  else if MAX_FRAME_SIZE <? compressed_size
  then Err (Compression (Msg "compressed_size {} exceeds {} byte frame cap"
                             [AZ compressed_size; AZ MAX_FRAME_SIZE]))
  else if MAX_FRAME_SIZE <? uncompressed_size
  then Err (Compression (Msg "uncompressed_size {} exceeds {} byte frame cap"
                             [AZ uncompressed_size; AZ MAX_FRAME_SIZE]))
  else Ok (method, compressed_size, uncompressed_size).

Definition check_and_inflate (checksum header body : bytes) (method : CompressionMethod)
    (uncompressed_size : Z) : result error bytes :=
  let '(lo, hi) := city_hash_128 (header ++ body) in
  if negb (lo =? from_le (take 8 checksum)) || negb (hi =? from_le (drop 8 checksum))
  then Err (Compression (msg "compression frame checksum mismatch (CityHash128): corruption suspected"))
  else
    let* decompressed := decompress_body body method uncompressed_size in
    if negb (blen decompressed =? uncompressed_size)
    then Err (Compression (Msg "decompressed length {} != uncompressed_size {} declared in header"
                               [AZ (blen decompressed); AZ uncompressed_size]))
    else Ok decompressed.

Definition decode_frame : reader bytes :=
  let* checksum := read_exact_r CHECKSUM_LEN in
  let* header := read_exact_r HEADER_LEN in
  let* (method, compressed_size, uncompressed_size) := lift (frame_sizes header) in
  let* body := read_exact_r (compressed_size - HEADER_LEN) in
  lift (check_and_inflate checksum header body method uncompressed_size).

Definition decode_frame_bytes (data : bytes) : result error bytes :=
  let* (decompressed, _) := run decode_frame data in Ok decompressed.
End Frames.

(** ** One frame *)

Section FrameLaws.
Context `{CodecLaws}.

Lemma compress_decompress data m body :
  compress_body data m = Ok body -> decompress_body body m (blen data) = Ok data.
Proof.
  destruct m; cbn [compress_body decompress_body]; [congruence| |].
  - destruct lz4 as [c|] eqn:E; [|discriminate]. intros. inj. now rewrite (lz4_inverts c) by assumption.
  - destruct zstd as [c|] eqn:E; [|discriminate]. intros Hc. apply map_err_inv in Hc.
    now rewrite (zstd_inverts c data) by assumption.
Qed.

Lemma checksum_split l :
  from_le (take 8 (checksum_bytes l)) = fst (city_hash_128 l) /\
  from_le (drop 8 (checksum_bytes l)) = snd (city_hash_128 l) /\ blen (checksum_bytes l) = CHECKSUM_LEN.
Proof.
  unfold checksum_bytes. destruct (city_hash_range l). destruct (city_hash_128 l) as [lo hi]. cbn [fst snd] in *.
  rewrite take_app_len, drop_app_len by apply blen_to_le. rewrite blen_app, !blen_to_le.
  rewrite !from_to_le by (change (8 * Z.of_nat 8) with 64; assumption). auto.
Qed.

(** The nine bytes of the header. *)
Definition frame_header (m : CompressionMethod) (compressed_size uncompressed_size : Z) : bytes :=
  [method_byte m] ++ to_le 4 compressed_size ++ to_le 4 uncompressed_size.

Lemma blen_frame_header m c u : blen (frame_header m c u) = HEADER_LEN.
Proof. unfold frame_header. now rewrite !blen_app, !blen_to_le. Qed.

Lemma frame_sizes_header m c u :
  HEADER_LEN <= c <= MAX_FRAME_SIZE -> 0 <= u <= MAX_FRAME_SIZE ->
  frame_sizes (frame_header m c u) = Ok (m, c, u).
Proof.
  intros Hc Hu. unfold frame_sizes, frame_header.
  assert (method_from_byte (hd x00 ([method_byte m] ++ to_le 4 c ++ to_le 4 u)) = Some m) as ->
    by now destruct m.
  assert (slice ([method_byte m] ++ to_le 4 c ++ to_le 4 u) 1 5 = to_le 4 c) as ->
    by (apply take_app_len, blen_to_le).
  assert (slice ([method_byte m] ++ to_le 4 c ++ to_le 4 u) 5 9 = to_le 4 u) as ->.
  { unfold slice. change 5 with (1 + 4) at 2. rewrite app_assoc, drop_app_len
      by (rewrite blen_app, blen_to_le; reflexivity). rewrite <- (blen_to_le 4 u) at 1. apply take_all. }
  rewrite !from_to_le by (change (2 ^ (8 * Z.of_nat 4)) with 4294967296;
    unfold HEADER_LEN, MAX_FRAME_SIZE in *; lia).
  cbn [bind result_monad ok_or]. destruct (Z.ltb_spec c HEADER_LEN); [lia|].
  destruct (Z.ltb_spec MAX_FRAME_SIZE c); [lia|]. now destruct (Z.ltb_spec MAX_FRAME_SIZE u); [lia|].
Qed.

Lemma encode_frame_inv data m frame :
  encode_frame data m = Ok frame ->
  exists body, compress_body data m = Ok body /\ HEADER_LEN + blen body <= U32_MAX /\ blen data <= U32_MAX /\
    frame = checksum_bytes (frame_header m (HEADER_LEN + blen body) (blen data) ++ body) ++
            frame_header m (HEADER_LEN + blen body) (blen data) ++ body.
Proof.
  unfold encode_frame, u32_size. intros E. apply result_bind_inv in E as (body & Hb & E).
  apply result_bind_inv in E as (c & Hc & E). apply result_bind_inv in E as (u & Hu & E).
  destruct (Z.leb_spec (HEADER_LEN + blen body) U32_MAX); [|discriminate].
  destruct (Z.leb_spec (blen data) U32_MAX); [|discriminate]. inj.
  exists body. unfold frame_header. rewrite <- !app_assoc. auto.
Qed.

Lemma check_and_inflate_written data m body :
  compress_body data m = Ok body ->
  let header := frame_header m (HEADER_LEN + blen body) (blen data) in
  check_and_inflate (checksum_bytes (header ++ body)) header body m (blen data) = Ok data.
Proof.
  intros Hb header. unfold check_and_inflate.
  destruct (checksum_split (header ++ body)) as (-> & -> & _).
  destruct (city_hash_128 (header ++ body)) as [lo hi]. cbn [fst snd]. rewrite !Z.eqb_refl. cbn [negb orb].
  rewrite (compress_decompress _ _ _ Hb). cbn. now rewrite Z.eqb_refl.
Qed.

Lemma decode_encoded data m frame rest :
  encode_frame data m = Ok frame -> blen data <= MAX_FRAME_SIZE ->
  blen frame <= CHECKSUM_LEN + MAX_FRAME_SIZE ->
  run decode_frame (frame ++ rest) = Ok (data, rest).
Proof.
  intros E Hd Hf. apply encode_frame_inv in E as (body & Hb & Hc & Hu & ->).
  set (header := frame_header m _ _) in *. pose proof (blen_nonneg body). pose proof (blen_nonneg data).
  assert (blen header = HEADER_LEN) as Hh by apply blen_frame_header.
  destruct (checksum_split (header ++ body)) as (_ & _ & Hs). rewrite !blen_app, Hs, Hh in Hf.
  unfold decode_frame. rewrite <- !app_assoc.
  rewrite (run_bind_ok _ _ _ _ _ (run_read_exact_app _ _ _ Hs)).
  rewrite (run_bind_ok _ _ _ _ _ (run_read_exact_app _ _ _ Hh)).
  erewrite run_bind_ok by (rewrite run_lift; unfold header at 1; rewrite frame_sizes_header
    by (unfold HEADER_LEN in *; lia); reflexivity).
  cbv beta iota. rewrite (run_bind_ok _ _ _ body rest) by (apply run_read_exact_app; lia).
  pose proof (check_and_inflate_written data m body Hb) as Hi. cbv zeta in Hi. fold header in Hi.
  now rewrite run_lift, Hi.
Qed.

(** C33: compression frames round-trip: a frame that [encode_frame] makes and whose sizes
    are within the cap of the decoder is decoded to the original data, checksum
    verified, and the bytes after it are left alone. *)
Theorem frame_roundtrip (data : bytes) (m : CompressionMethod) (frame rest : bytes) :
  encode_frame data m = Ok frame -> blen data <= MAX_FRAME_SIZE ->
  blen frame <= CHECKSUM_LEN + MAX_FRAME_SIZE ->
  run decode_frame (frame ++ rest) = Ok (data, rest) /\ decode_frame_bytes frame = Ok data.
Proof.
  intros E Hd Hf. split; [now apply (decode_encoded data m)|].
  unfold decode_frame_bytes. rewrite <- (app_nil_r frame). now rewrite (decode_encoded data m frame []).
Qed.

Lemma frame_sizes_inv header m c u :
  frame_sizes header = Ok (m, c, u) -> HEADER_LEN <= c <= MAX_FRAME_SIZE /\ u <= MAX_FRAME_SIZE.
Proof.
  unfold frame_sizes. intros E. apply result_bind_inv in E as (m' & _ & E).
  destruct (Z.ltb_spec (from_le (slice header 1 5)) HEADER_LEN); [discriminate|].
  destruct (Z.ltb_spec MAX_FRAME_SIZE (from_le (slice header 1 5))); [discriminate|].
  destruct (Z.ltb_spec MAX_FRAME_SIZE (from_le (slice header 5 9))); [discriminate|]. inj. lia.
Qed.

Lemma check_and_inflate_inv checksum header body m u data :
  blen checksum = CHECKSUM_LEN -> check_and_inflate checksum header body m u = Ok data ->
  checksum = checksum_bytes (header ++ body) /\ decompress_body body m u = Ok data /\ blen data = u.
Proof.
  intros Hs. unfold check_and_inflate, checksum_bytes. destruct (city_hash_128 _) as [lo hi].
  destruct (Z.eqb_spec lo (from_le (take 8 checksum))) as [->|]; [|discriminate].
  destruct (Z.eqb_spec hi (from_le (drop 8 checksum))) as [->|]; [|discriminate]. cbn [negb orb].
  intros E. apply result_bind_inv in E as (d & Hd & E).
  destruct (Z.eqb_spec (blen d) u); [|discriminate]. cbn in E. inj. split; [|auto].
  unfold CHECKSUM_LEN in Hs.
  assert (length (take 8 checksum) = 8%nat /\ length (drop 8 checksum) = 8%nat) as [L1 L2]
    by (unfold take, drop, blen in *; rewrite length_firstn, length_skipn; lia).
  pose proof (to_from_le (take 8 checksum)) as T1. pose proof (to_from_le (drop 8 checksum)) as T2.
  rewrite L1 in T1. rewrite L2 in T2. rewrite T1, T2. symmetry. apply take_drop.
Qed.

(** C34: what [decode_frame] accepts is a frame: at most [MAX_FRAME_SIZE] bytes of header
    and body under their own CityHash128 checksum, and it returns at most
    [MAX_FRAME_SIZE] bytes, whatever the sizes the peer declared. *)
Theorem decode_frame_sound (l data rest : bytes) :
  run decode_frame l = Ok (data, rest) ->
  exists header_and_body,
    l = checksum_bytes header_and_body ++ header_and_body ++ rest /\
    HEADER_LEN <= blen header_and_body <= MAX_FRAME_SIZE /\ blen data <= MAX_FRAME_SIZE.
Proof.
  intros E. apply run_bind_inv in E as (checksum & l1 & H1 & E). apply run_read_exact_inv in H1 as (Hl1 & -> & ->).
  apply run_bind_inv in E as (header & l2 & H2 & E). apply run_read_exact_inv in H2 as (Hl2 & -> & ->).
  apply run_bind_inv in E as ([[m c] u] & l3 & H3 & E). apply run_lift_inv in H3 as [H3 ->].
  apply frame_sizes_inv in H3 as [Hc Hu].
  apply run_bind_inv in E as (body & l4 & H4 & E). apply run_read_exact_inv in H4 as (Hl4 & -> & ->).
  apply run_lift_inv in E as [E ->]. unfold CHECKSUM_LEN, HEADER_LEN in *.
  apply check_and_inflate_inv in E as (Hsum & _ & Hlen); [|rewrite blen_take; [reflexivity|lia]].
  exists (take 9 (drop 16 l) ++ take (c - 9) (drop 9 (drop 16 l))). rewrite <- Hsum, blen_app, !blen_take by lia.
  split; [|lia]. now rewrite <- app_assoc, !take_drop.
Qed.
End FrameLaws.

(** ** A sequence of frames *)

(** [Display] of the error type, which the reader puts into its own messages. *)
Definition display_error (e : error) : message :=
  match e with
  | Protocol m => Msg "protocol error: {msg}" [AM m]
  | Io UnexpectedEof => msg "I/O error: failed to fill whole buffer"
  | Io (InvalidData m) | Io (TimedOut m) | Io (WouldBlock m) => Msg "I/O error: {e}" [AM m]
  | Compression m => Msg "compression error: {msg}" [AM m]
  | Authentication m => Msg "authentication error: {msg}" [AM m]
  | ServerError code name text =>
      Msg "server error (code={code}, name={name}): {message}" [AZ code; AS name; AS text]
  | Timeout m => Msg "timeout: {msg}" [AM m]
  | Config m => Msg "configuration error: {msg}" [AM m]
  | ResponseTooLarge limit received =>
      Msg "response too large: decoded {received} bytes of result blocks exceeds max_response_size {limit}; raise ClientConfig::max_response_size (with_max_response_size), or use a streaming API (start_stream/query_with_block_view) which is not size-budgeted"
          [AZ received; AZ limit]
  | ModelFuel | ModelPanic => msg "unreachable"
  end.

Inductive DecompressError :=
| DCompression (m : message)
| DBudget (m : message)
| DIo (k : io_kind).

Definition from_decompress (e : DecompressError) : error :=
  match e with DCompression m => Compression m | DBudget m => Protocol m | DIo k => Io k end.

Definition display_decompress (e : DecompressError) : message :=
  match e with
  | DCompression m | DBudget m => Msg "compressed response: {msg}" [AM m]
  | DIo UnexpectedEof => msg "compressed response I/O: failed to fill whole buffer"
  | DIo (InvalidData m) | DIo (TimedOut m) | DIo (WouldBlock m) => Msg "compressed response I/O: {err}" [AM m]
  end.

Definition FRAME_HEADER_TOTAL : Z := CHECKSUM_LEN + HEADER_LEN.
Definition METHOD_OFFSET : Z := CHECKSUM_LEN.

Record DecompressingReader (R : Type) := mkDecompressing {
  wrapped : R;
  decoded : bytes;       (** [buf] *)
  served : Z;            (** [pos] *)
  plain_body : bool;
  produced : Z;
}.
Arguments mkDecompressing {R}.
Arguments wrapped {R}.
Arguments decoded {R}.
Arguments served {R}.
Arguments plain_body {R}.
Arguments produced {R}.

Section Decompressing.
Context `{Codecs} {R : Type} `{Read R}.

(** A decoded frame, charged to the budget of the block. *)
Definition decode_charged (produced : Z) (frame : bytes) : result DecompressError (bytes * Z) :=
  let* decompressed := map_err (fun e => DCompression (display_error e)) (decode_frame_bytes frame) in
  let* produced := map_err DBudget
    (checked_block_bytes produced (blen decompressed) (str "decompressed block")) in
  Ok (decompressed, produced).

Definition swap_in_decoded (r : DecompressingReader R) (inner : R) (frame : bytes)
  : result DecompressError (DecompressingReader R) :=
  let* (decompressed, produced) := decode_charged (produced r) frame in
  Ok (mkDecompressing inner decompressed 0 (plain_body r) produced).

(** What [new] finds at the start of the body. *)
Inductive sniffed :=
| PlainBody (replay : bytes)
| FirstFrame (frame : bytes).

Definition sniff_body : reader sniffed :=
  let* first := read_exact_r 1 in
  let* more := read_exact_r METHOD_OFFSET in
  let sniff := first ++ more in
  match method_from_byte (nth (Z.to_nat METHOD_OFFSET) sniff x00) with
  | None => ret (PlainBody sniff)
  | Some _ =>
      let* rest := read_exact_r (FRAME_HEADER_TOTAL - METHOD_OFFSET - 1) in
      let frame := sniff ++ rest in
      let compressed_size := from_le (slice frame 17 21) in
      if compressed_size <? HEADER_LEN then ret (PlainBody frame)
      else if MAX_FRAME_SIZE <? compressed_size
      then throw (Compression (Msg "compressed_size {} exceeds {} byte frame cap"
                                   [AZ compressed_size; AZ MAX_FRAME_SIZE]))
      else
        let* body := read_exact_r (compressed_size - HEADER_LEN) in
        ret (FirstFrame (frame ++ body))
  end.

(** [DecompressingReader::new].  An [Io] failure of the sniffing reads is a [DIo] there,
    which [from_decompress] turns back into the [Io] error [exec] reports here. *)
Definition new_decompressing_reader (inner : R) : result error (DecompressingReader R) :=
  let* (s, inner) := exec sniff_body inner in
  match s with
  | PlainBody replay => Ok (mkDecompressing inner replay 0 true 0)
  | FirstFrame frame =>
      map_err from_decompress (swap_in_decoded (mkDecompressing inner [] 0 false 0) inner frame)
  end.

(** The rest of a frame whose first byte has been read. *)
Definition rest_of_frame (first : bytes) : reader bytes :=
  let* rest := read_exact_r (FRAME_HEADER_TOTAL - 1) in
  let frame := first ++ rest in
  let compressed_size := from_le (slice frame 17 21) in
  if compressed_size <? HEADER_LEN
  then throw (Io (InvalidData (Msg "compressed_size {} < header length {}"
                                   [AZ compressed_size; AZ HEADER_LEN])))
  else if MAX_FRAME_SIZE <? compressed_size
  then throw (Io (InvalidData (Msg "compressed_size {} exceeds {} byte frame cap"
                                   [AZ compressed_size; AZ MAX_FRAME_SIZE])))
  else
    let* body := read_exact_r (compressed_size - HEADER_LEN) in
    ret (frame ++ body).

(** [pull_next_frame]: one byte is probed with [read], so that a clean end of the stream
    between frames is told from a frame that is cut off. *)
Definition pull_next_frame (r : DecompressingReader R) : result error (bool * DecompressingReader R) :=
  let* (first, inner) := read 1%nat (wrapped r) in
  match first with
  | [] => Ok (false, mkDecompressing inner (decoded r) (served r) (plain_body r) (produced r))
  | _ =>
      let* (frame, inner) := exec (rest_of_frame first) inner in
      let* r := map_err (fun e => Io (InvalidData (display_decompress e))) (swap_in_decoded r inner frame) in
      Ok (true, r)
  end.

Definition into_pending (r : DecompressingReader R) : bytes := drop (served r) (decoded r).

Definition decompressing_step (n : nat)
    (self : DecompressingReader R -> result error (bytes * DecompressingReader R))
    (r : DecompressingReader R) : result error (bytes * DecompressingReader R) :=
  if served r <? blen (decoded r) then
    let k := Z.min (Z.of_nat n) (blen (decoded r) - served r) in
    Ok (slice (decoded r) (served r) (served r + k),
        mkDecompressing (wrapped r) (decoded r) (served r + k) (plain_body r) (produced r))
  else if plain_body r then
    let* (bs, inner) := read n (wrapped r) in
    Ok (bs, mkDecompressing inner (decoded r) (served r) (plain_body r) (produced r))
  else
    match pull_next_frame r with
    | Err e => Err e
    | Ok (true, r) => self r
    | Ok (false, r) => Ok ([], r)
    end.

#[export] Instance decompressing_read : Read (DecompressingReader R) := fun n r =>
  match n with
  | O => Ok ([], r)
  | S _ => deep STREAM_BITS (decompressing_step n) (fun _ => Err ModelFuel) r
  end.
End Decompressing.

(** ** The content of a frame sequence *)

Section Inflate.
Context `{Codecs}.

Definition whole_frame : reader bytes := let* first := read_exact_r 1 in rest_of_frame first.

(** [inflate e produced l]: the decompressed bytes of the frames in [l] and how their
    reader ends, [e] being how the stream [l] ends and [produced] the number of bytes
    charged before. *)
Fixpoint inflate_fuel (fuel : nat) (e : ending) (produced : Z) (l : bytes) : bytes * ending :=
  match fuel with
  | O => ([], Broken ModelFuel)
  | S fuel =>
      match l with
      | [] => ([], e)
      | _ =>
          match run_with (end_error e) whole_frame l with
          | Err err => ([], Broken err)
          | Ok (frame, rest) =>
              match decode_charged produced frame with
              | Err err => ([], Broken (Io (InvalidData (display_decompress err))))
              | Ok (data, produced) =>
                  let '(more, e') := inflate_fuel fuel e produced rest in (data ++ more, e')
              end
          end
      end
  end.

Definition inflate (e : ending) (produced : Z) (l : bytes) : bytes * ending :=
  inflate_fuel (S (length l)) e produced l.

Lemma rest_of_frame_shrinks eof first l frame rest :
  run_with eof (rest_of_frame first) l = Ok (frame, rest) -> (length rest < length l)%nat.
Proof.
  unfold rest_of_frame. rewrite run_with_bind. cbn [run_with read_exact_r].
  change (FRAME_HEADER_TOTAL - 1) with 24. destruct (Z.leb_spec 24 (blen l)) as [Hl|]; [|discriminate].
  assert (length (drop 24 l) < length l)%nat as Hlt
    by (unfold drop, blen in *; rewrite length_skipn; lia).
  destruct (_ <? _); [discriminate|]. destruct (_ <? _); [discriminate|].
  rewrite run_with_bind. cbn [run_with read_exact_r].
  destruct (_ <=? _); [|discriminate]. intros. cbn in *. inj. unfold drop at 1. rewrite length_skipn. lia.
Qed.

Lemma whole_frame_cons eof b l : run_with eof whole_frame (b :: l) = run_with eof (rest_of_frame [b]) l.
Proof.
  unfold whole_frame. rewrite run_with_bind. cbn [run_with read_exact_r]. rewrite blen_cons.
  pose proof (blen_nonneg l). now destruct (Z.leb_spec 1 (1 + blen l)); [|lia].
Qed.

Lemma inflate_fuel_enough e : forall fuel produced l, (length l < fuel)%nat ->
  inflate_fuel fuel e produced l = inflate e produced l.
Proof.
  unfold inflate.
  enough (forall fuel fuel' p l, (length l < fuel)%nat -> (length l < fuel')%nat ->
            inflate_fuel fuel e p l = inflate_fuel fuel' e p l) as Henough by (intros; apply Henough; lia).
  induction fuel as [|fuel IH]; intros [|fuel'] p l Hf Hf'; try lia. cbn [inflate_fuel].
  destruct l as [|b l]; [reflexivity|]. rewrite whole_frame_cons.
  destruct (run_with _ _ l) as [[frame rest]|err] eqn:E; [|reflexivity].
  apply rest_of_frame_shrinks in E. cbn [length] in *.
  destruct (decode_charged p frame) as [[data p']|]; [|reflexivity]. now rewrite (IH fuel') by lia.
Qed.

Lemma inflate_cons e p b l :
  inflate e p (b :: l) =
  match run_with (end_error e) (rest_of_frame [b]) l with
  | Err err => ([], Broken err)
  | Ok (frame, rest) =>
      match decode_charged p frame with
      | Err err => ([], Broken (Io (InvalidData (display_decompress err))))
      | Ok (data, p') => (data ++ fst (inflate e p' rest), snd (inflate e p' rest))
      end
  end.
Proof.
  unfold inflate at 1. assert (length l < length (b :: l))%nat as Hn by (cbn; lia).
  revert Hn. generalize (length (b :: l)) as n. intros n Hn. cbn [inflate_fuel]. rewrite whole_frame_cons.
  destruct (run_with _ _ l) as [[frame rest]|err] eqn:E; [|reflexivity].
  apply rest_of_frame_shrinks in E. destruct (decode_charged p frame) as [[data p']|]; [|reflexivity].
  rewrite inflate_fuel_enough by lia. now destruct (inflate e p' rest).
Qed.
End Inflate.

(** ** [DecompressingReader] as a transport *)

Section DecompressingLaws.
Context `{Codecs} {R : Type} `{ReadLaws R}.
Implicit Types r : DecompressingReader R.

Definition still_packed r : bytes * ending :=
  if plain_body r then (content (wrapped r), ends (wrapped r))
  else inflate (ends (wrapped r)) (produced r) (content (wrapped r)).

Definition decompressing_inv r : Prop :=
  rinv (wrapped r) /\ 0 <= served r <= blen (decoded r) /\ blen (content (wrapped r)) <= ISIZE_MAX.

Definition decompressing_content r : bytes := into_pending r ++ fst (still_packed r).

Definition decompressing_ends r : ending := snd (still_packed r).

(** The law of [Read] for one call. *)
Definition read_ok n r (out : result error (bytes * DecompressingReader R)) : Prop :=
  match out with
  | Ok (bs, r') =>
      decompressing_inv r' /\ (length bs <= n)%nat /\
      decompressing_content r = bs ++ decompressing_content r' /\
      decompressing_ends r' = decompressing_ends r /\
      (bs = [] -> decompressing_content r = [] /\ decompressing_ends r = Eof)
  | Err e => decompressing_content r = [] /\ decompressing_ends r = Broken e
  end.

Lemma pull_next_frame_law r :
  decompressing_inv r -> plain_body r = false -> served r = blen (decoded r) ->
  match pull_next_frame r with
  | Err e => still_packed r = ([], Broken e)
  | Ok (false, r') => decompressing_inv r' /\ into_pending r' = [] /\
      still_packed r = ([], Eof) /\ still_packed r' = ([], Eof)
  | Ok (true, r') =>
      decompressing_inv r' /\ plain_body r' = false /\
      blen (content (wrapped r')) < blen (content (wrapped r)) /\
      still_packed r = (into_pending r' ++ fst (still_packed r'), snd (still_packed r'))
  end.
Proof.
  intros (Hr & Hs & Hc) Hp Hend. unfold pull_next_frame, still_packed. rewrite Hp.
  pose proof (read_law 1%nat (wrapped r) Hr ltac:(lia)) as Hlaw. cbn [bind result_monad].
  destruct (read 1%nat (wrapped r)) as [[first r1]|e].
  2: { destruct Hlaw as [-> ->]. reflexivity. }
  destruct Hlaw as (Hr1 & Hlen & Hcat & He & Hnil). destruct first as [|b first].
  { destruct (Hnil eq_refl) as [E1 E2]. cbn [app] in Hcat. cbn [plain_body wrapped decoded served produced].
    rewrite ?Hp, He, E2, <- Hcat, E1. unfold decompressing_inv, into_pending. cbn [wrapped decoded served].
    conj; auto; try lia; [rewrite <- Hcat; assumption|apply drop_past; lia]. }
  destruct first; [|cbn in Hlen; lia]. cbn [app] in Hcat. rewrite Hcat, inflate_cons.
  pose proof (exec_with (rest_of_frame [b]) r1 Hr1) as Hexec. rewrite He in Hexec.
  destruct (run_with _ (rest_of_frame [b]) (content r1)) as [[frame rest]|e] eqn:Hrun.
  2: { rewrite Hexec. reflexivity. }
  destruct Hexec as (r2 & -> & Hr2 & Hc2 & He2). unfold swap_in_decoded.
  apply rest_of_frame_shrinks in Hrun. rewrite Hcat in Hc.
  destruct (decode_charged (produced r) frame) as [[data p']|e]; [|reflexivity].
  cbn [bind result_monad map_err plain_body]. unfold decompressing_inv, into_pending.
  cbn [wrapped decoded served produced]. pose proof (blen_nonneg data). rewrite blen_cons in *.
  unfold blen in *. rewrite ?Hp, He2, Hc2. conj; auto; lia.
Qed.

Lemma decompressing_step_law n k self :
  (0 < n)%nat -> 0 <= k ->
  (forall r, decompressing_inv r -> blen (content (wrapped r)) < k -> read_ok n r (self r)) ->
  forall r, decompressing_inv r -> blen (content (wrapped r)) < k + 1 ->
  read_ok n r (decompressing_step n self r).
Proof.
  intros Hn Hk Hself r Hinv Hlt. pose proof Hinv as (Hr & Hs & Hc). unfold decompressing_step.
  destruct (Z.ltb_spec (served r) (blen (decoded r))) as [Hmore|Hend].
  - set (m := Z.min _ _).
    assert (blen (slice (decoded r) (served r) (served r + m)) = m) as Hm by (rewrite blen_slice; lia).
    unfold read_ok, decompressing_inv, decompressing_content, into_pending. cbn [wrapped decoded served].
    conj; auto; try lia; [unfold blen in *; lia| |intros E; rewrite E, blen_nil in Hm; lia].
    change (still_packed (mkDecompressing _ _ _ _ _)) with (still_packed r). rewrite app_assoc. f_equal.
    unfold slice. rewrite <- (take_drop (served r + m - served r) (drop (served r) (decoded r))) at 1.
    rewrite drop_drop by lia. now replace (served r + m - served r + served r) with (served r + m) by lia.
  - assert (into_pending r = []) as Hp by (apply drop_past; lia).
    destruct (plain_body r) eqn:Hplain.
    + pose proof (read_law n (wrapped r) Hr Hn) as Hlaw. cbn [bind result_monad].
      assert (forall r', into_pending r' = into_pending r -> plain_body r' = true ->
                decompressing_content r' = content (wrapped r') /\ decompressing_ends r' = ends (wrapped r')) as Hview.
      { intros r' E1 E2. unfold decompressing_content, decompressing_ends, still_packed. now rewrite E1, E2, Hp. }
      destruct (Hview r eq_refl Hplain) as [Ec Ee]. unfold read_ok.
      destruct (read n (wrapped r)) as [[bs r1]|e]; rewrite Ec, Ee; [|assumption].
      destruct Hlaw as (Hr1 & Hlen & Hcat & He & Hnil).
      edestruct Hview as [-> ->]; [reflexivity|reflexivity|]. cbn [wrapped].
      conj; auto. unfold decompressing_inv. cbn [wrapped decoded served].
      rewrite Hcat, blen_app in Hc. pose proof (blen_nonneg bs). conj; auto; lia.
    + pose proof (pull_next_frame_law r Hinv Hplain ltac:(lia)) as Hpull. unfold read_ok.
      unfold decompressing_content, decompressing_ends.
      destruct (pull_next_frame r) as [[[|] r']|e].
      * destruct Hpull as (Hinv' & Hp' & Hlt' & Hst). specialize (Hself r' Hinv' ltac:(lia)).
        unfold read_ok, decompressing_content, decompressing_ends in Hself.
        rewrite Hst, Hp. cbn [fst snd app]. exact Hself.
      * destruct Hpull as (Hinv' & Hp' & Hst & Hst'). rewrite Hst, Hst', Hp, Hp'. cbn. conj; auto. lia.
      * rewrite Hpull, Hp. auto.
Qed.

Lemma deep_decompressing_law n h bottom r :
  (0 < n)%nat -> decompressing_inv r -> blen (content (wrapped r)) < 2 ^ Z.of_nat h ->
  read_ok n r (deep h (decompressing_step n) bottom r).
Proof.
  pose proof (deep_ind (decompressing_step n) (fun k f => 0 <= k /\
    forall r, decompressing_inv r -> blen (content (wrapped r)) < k -> read_ok n r (f r))) as Hdeep.
  intros Hn Hinv Hr. eapply Hdeep; [| |exact Hinv|rewrite Z.add_0_l; exact Hr].
  - intros k f [Hk Hself]. split; [lia|]. now apply decompressing_step_law.
  - split; [lia|]. intros r' _ Hr'. pose proof (blen_nonneg (content (wrapped r'))). lia.
Qed.

Lemma decompressing_read_law n r :
  decompressing_inv r -> (0 < n)%nat -> read_ok n r (decompressing_read n r).
Proof.
  intros Hinv Hn. unfold decompressing_read. destruct n as [|n]; [lia|].
  apply deep_decompressing_law; auto. destruct Hinv as (_ & _ & Hc).
  unfold ISIZE_MAX in Hc. change (2 ^ Z.of_nat STREAM_BITS) with (2 ^ 63). lia.
Qed.

#[export] Instance decompressing_laws : ReadLaws (DecompressingReader R) := {|
  rinv := decompressing_inv;
  content := decompressing_content;
  ends := decompressing_ends;
  read_law := decompressing_read_law;
|}.
End DecompressingLaws.

(** ** Frames written and read back *)

Section Transparent.
Context `{CodecLaws}.

(** A body flushed as a sequence of frames. *)
Fixpoint encode_frames (m : CompressionMethod) (pieces : list bytes) : result error (list bytes) :=
  match pieces with
  | [] => Ok []
  | piece :: pieces =>
      let* frame := encode_frame piece m in
      let* frames := encode_frames m pieces in
      Ok (frame :: frames)
  end.

(** The sizes the receiving side accepts. *)
Definition frame_fits (piece frame : bytes) : Prop :=
  blen piece <= MAX_FRAME_SIZE /\ blen frame <= CHECKSUM_LEN + MAX_FRAME_SIZE.

(** The fields at their offsets. *)
Lemma encoded_frame_layout data m frame :
  encode_frame data m = Ok frame -> blen frame <= CHECKSUM_LEN + MAX_FRAME_SIZE ->
  exists b f1 rest body,
    frame = b :: f1 ++ rest ++ body /\ blen f1 = METHOD_OFFSET /\ blen rest = 8 /\
    nth (Z.to_nat METHOD_OFFSET) (b :: f1) x00 = method_byte m /\
    from_le (slice (b :: f1 ++ rest) 17 21) = HEADER_LEN + blen body /\
    HEADER_LEN + blen body <= MAX_FRAME_SIZE.
Proof.
  intros E Hf. apply encode_frame_inv in E as (body & Hb & Hc & Hu & ->).
  set (sum := checksum_bytes _) in *. assert (blen sum = CHECKSUM_LEN) as Hsum by apply checksum_split.
  rewrite !blen_app, blen_frame_header, Hsum in Hf. pose proof (blen_nonneg body).
  destruct sum as [|b sum]; [discriminate|]. unfold frame_header.
  exists b, (sum ++ [method_byte m]), (to_le 4 (HEADER_LEN + blen body) ++ to_le 4 (blen data)), body.
  unfold METHOD_OFFSET, CHECKSUM_LEN, HEADER_LEN, U32_MAX in *. rewrite blen_cons in Hsum.
  rewrite !blen_app, !blen_to_le, <- !app_assoc. cbn [app]. conj; try reflexivity; try lia.
  - change (blen [method_byte m]) with 1. lia.
  - change (b :: sum ++ [method_byte m]) with ((b :: sum) ++ [method_byte m]).
    rewrite app_nth2; unfold blen in Hsum; cbn [length];
      [now replace (Z.to_nat 16 - S (length sum))%nat with 0%nat by lia|lia].
  - change (b :: sum ++ method_byte m :: ?l) with ((b :: sum) ++ [method_byte m] ++ l).
    unfold slice. rewrite app_assoc.
    rewrite drop_app_len by (rewrite blen_app, blen_cons; change (blen [method_byte m]) with 1; lia).
    rewrite take_app_len by apply blen_to_le.
    apply from_to_le. change (2 ^ (8 * Z.of_nat 4)) with 4294967296. lia.
Qed.

Lemma run_read_exact_with eof n bs l : blen bs = n -> run_with eof (read_exact_r n) (bs ++ l) = Ok (bs, l).
Proof. intros Hn. apply (run_with_ok (Io UnexpectedEof)), run_read_exact_app, Hn. Qed.

Lemma rest_of_frame_written eof data m frame l :
  encode_frame data m = Ok frame -> blen frame <= CHECKSUM_LEN + MAX_FRAME_SIZE ->
  exists b f, frame = b :: f /\ run_with eof (rest_of_frame [b]) (f ++ l) = Ok (frame, l).
Proof.
  intros E Hf. destruct (encoded_frame_layout _ _ _ E Hf) as (b & f1 & rest & body & -> & Hf1 & Hrest & _ & Hsz & Hcap).
  exists b, (f1 ++ rest ++ body). split; [reflexivity|]. pose proof (blen_nonneg body).
  unfold METHOD_OFFSET, CHECKSUM_LEN in *. unfold rest_of_frame. rewrite run_with_bind, <- !app_assoc, app_assoc.
  rewrite run_read_exact_with by (rewrite blen_app; unfold FRAME_HEADER_TOTAL, CHECKSUM_LEN, HEADER_LEN; lia).
  cbn [app]. rewrite Hsz. destruct (Z.ltb_spec (HEADER_LEN + blen body) HEADER_LEN); [lia|].
  destruct (Z.ltb_spec MAX_FRAME_SIZE (HEADER_LEN + blen body)); [lia|].
  rewrite run_with_bind, run_read_exact_with by lia. cbn. now rewrite app_assoc.
Qed.

Lemma sniff_written eof data m frame l :
  encode_frame data m = Ok frame -> blen frame <= CHECKSUM_LEN + MAX_FRAME_SIZE ->
  run_with eof sniff_body (frame ++ l) = Ok (FirstFrame frame, l).
Proof.
  intros E Hf. destruct (encoded_frame_layout _ _ _ E Hf) as (b & f1 & rest & body & -> & Hf1 & Hrest & Hm & Hsz & Hcap).
  pose proof (blen_nonneg body). unfold sniff_body.
  change ((b :: f1 ++ rest ++ body) ++ l) with ([b] ++ (f1 ++ rest ++ body) ++ l). rewrite <- !app_assoc.
  rewrite run_with_bind, (run_read_exact_with _ 1 [b]) by reflexivity.
  rewrite run_with_bind, run_read_exact_with by assumption. cbn [app]. rewrite Hm.
  replace (method_from_byte (method_byte m)) with (Some m) by now destruct m.
  rewrite run_with_bind, run_read_exact_with by assumption. cbn [app]. rewrite Hsz.
  destruct (Z.ltb_spec (HEADER_LEN + blen body) HEADER_LEN); [lia|].
  destruct (Z.ltb_spec MAX_FRAME_SIZE (HEADER_LEN + blen body)); [lia|].
  rewrite run_with_bind, run_read_exact_with by lia. cbn. now rewrite app_assoc.
Qed.

Lemma decode_charged_written data m frame p :
  encode_frame data m = Ok frame -> frame_fits data frame -> 0 <= p -> p + blen data <= MAX_BLOCK_BYTES ->
  decode_charged p frame = Ok (data, p + blen data).
Proof.
  intros E [Hd Hf] Hp Hb. unfold decode_charged, decode_frame_bytes. pose proof (blen_nonneg data).
  pose proof (decode_encoded data m frame [] E Hd Hf) as Hrun. rewrite app_nil_r in Hrun. rewrite Hrun.
  cbn [bind result_monad map_err]. unfold checked_block_bytes, checked_add.
  destruct (Z.leb_spec (p + blen data) USIZE_MAX); [|unfold MAX_BLOCK_BYTES, USIZE_MAX in *; lia].
  cbn [ok_or bind result_monad]. now destruct (Z.ltb_spec MAX_BLOCK_BYTES (p + blen data)); [lia|].
Qed.

Lemma inflate_written e m pieces : forall frames p,
  encode_frames m pieces = Ok frames -> Forall2 frame_fits pieces frames -> 0 <= p ->
  p + blen (concat pieces) <= MAX_BLOCK_BYTES ->
  inflate e p (concat frames) = (concat pieces, e).
Proof.
  induction pieces as [|d ds IH]; intros frames p E Hfit Hp Hb; cbn [encode_frames] in E.
  { inj. reflexivity. }
  apply result_bind_inv in E as (f & Hf & E). apply result_bind_inv in E as (fs & Hfs & E). inj.
  inversion Hfit as [|? ? ? ? Hfit1 Hfit2]; subst. cbn [concat] in *. rewrite blen_app in Hb.
  pose proof (blen_nonneg d). pose proof (blen_nonneg (concat ds)).
  destruct (rest_of_frame_written (end_error e) d m f (concat fs) Hf (proj2 Hfit1)) as (b & f' & Hbf & Hrun).
  rewrite Hbf at 1. cbn [app]. rewrite inflate_cons, Hrun, (decode_charged_written d m) by (auto; lia).
  now rewrite (IH fs) by (auto; lia).
Qed.

Lemma decompressing_transparent {R : Type} `{ReadLaws R} (r : R)
    (m : CompressionMethod) (piece : bytes) (pieces frames : list bytes) :
  rinv r -> content r = concat frames -> blen (concat frames) <= ISIZE_MAX ->
  encode_frames m (piece :: pieces) = Ok frames -> Forall2 frame_fits (piece :: pieces) frames ->
  blen (concat (piece :: pieces)) <= MAX_BLOCK_BYTES ->
  exists dr, new_decompressing_reader r = Ok dr /\
    forall (A : Type) (k : reader A),
    match run_with (end_error (ends r)) k (concat (piece :: pieces)) with
    | Ok (a, rest) => exists dr', exec k dr = Ok (a, dr') /\ content dr' = rest
    | Err e => exec k dr = Err e
    end.
Proof.
  intros Hr Hc Hsize E Hfit Hb. cbn [encode_frames] in E.
  apply result_bind_inv in E as (f & Hf & E). apply result_bind_inv in E as (fs & Hfs & E). inj.
  inversion Hfit as [|? ? ? ? Hfit1 Hfit2]; subst. cbn [concat] in *. rewrite blen_app in Hb.
  pose proof (blen_nonneg piece). pose proof (blen_nonneg (concat pieces)). pose proof (blen_nonneg f).
  unfold new_decompressing_reader. pose proof (exec_with sniff_body r Hr) as Hexec.
  rewrite Hc, (sniff_written _ _ _ _ _ Hf (proj2 Hfit1)) in Hexec.
  destruct Hexec as (r1 & Hexec & Hr1 & Hc1 & He1). rewrite Hexec. cbn [bind result_monad].
  unfold swap_in_decoded. cbn [produced plain_body].
  rewrite (decode_charged_written piece m) by (auto; lia). cbn [bind result_monad map_err].
  eexists. split; [reflexivity|]. intros A k. set (dr := mkDecompressing _ _ _ _ _).
  assert (decompressing_inv dr) as Hinv.
  { unfold decompressing_inv. cbn [dr wrapped decoded served]. rewrite blen_app in Hsize. rewrite Hc1. conj; auto; lia. }
  assert (still_packed dr = (concat pieces, ends r)) as Hst.
  { unfold still_packed. cbn [dr wrapped plain_body produced]. rewrite Hc1, He1. apply (inflate_written _ m); auto; lia. }
  pose proof (exec_with k dr Hinv) as Hk.
  change (content dr) with (piece ++ fst (still_packed dr)) in Hk.
  change (ends dr) with (snd (still_packed dr)) in Hk. rewrite Hst in Hk. cbn [fst snd] in Hk.
  destruct (run_with _ k _) as [[a rest]|e]; [|assumption]. destruct Hk as (dr' & ? & _ & ? & _). eauto.
Qed.

(** C35: a packet body may be flushed as any number of compression frames.  Over any
    transport that delivers the frames of some pieces, [DecompressingReader] is built
    and then behaves, for every reader of the protocol, as the plain concatenation of
    the pieces, up to the budget of a block. *)
Theorem decompressing_reader_transparent {R : Type} `{ReadLaws R} (r : R)
    (m : CompressionMethod) (piece : bytes) (pieces frames : list bytes) :
  rinv r -> content r = concat frames -> blen (concat frames) <= ISIZE_MAX ->
  encode_frames m (piece :: pieces) = Ok frames -> Forall2 frame_fits (piece :: pieces) frames ->
  blen (concat (piece :: pieces)) <= MAX_BLOCK_BYTES ->
  exists dr, new_decompressing_reader r = Ok dr /\
    forall (A : Type) (k : reader A),
    match run_with (end_error (ends r)) k (concat (piece :: pieces)) with
    | Ok (a, rest) => exists dr', exec k dr = Ok (a, dr') /\ content dr' = rest
    | Err e => exec k dr = Err e
    end.
Proof. apply decompressing_transparent. Qed.
End Transparent.

(** ** A concrete instance of the laws *)

(** A polynomial hash, and a "compressor" that prepends a byte. *)
Definition sample_hash (l : bytes) : Z * Z :=
  (fold_left (fun h b => 31 * h + byte.unsigned b) l 7 mod 2 ^ 64, blen l mod 2 ^ 64).

Definition sample_lz4 : Lz4Codec := mkLz4 (fun l => x1e :: l)
  (fun l n => match l with x1e :: l => if blen l =? n then Ok l else Err (msg "size") | _ => Err (msg "tag") end).

Definition sample_codecs : Codecs := {| city_hash_128 := sample_hash; lz4 := Some sample_lz4; zstd := None |}.

Lemma sample_codec_laws : @CodecLaws sample_codecs.
Proof.
  split.
  - intros l. split; apply Z.mod_pos_bound; reflexivity.
  - intros c data E. apply Some_inj in E. subst. cbn. now rewrite Z.eqb_refl.
  - discriminate.
Qed.

#[local] Existing Instance sample_codecs.

Definition sample_data : bytes := str "INSERT".

Lemma frame_roundtrip_witness :
  exists frame, encode_frame sample_data Lz4 = Ok frame /\ decode_frame_bytes frame = Ok sample_data.
Proof.
  eexists. split; [reflexivity|].
  apply (@frame_roundtrip sample_codecs sample_codec_laws sample_data Lz4 _ []);
    [reflexivity|discriminate|discriminate].
Defined.

Lemma decode_frame_sound_witness :
  exists frame header_and_body, encode_frame sample_data Lz4 = Ok frame /\
    frame ++ [x2a] = checksum_bytes header_and_body ++ header_and_body ++ [x2a].
Proof.
  destruct (@decode_frame_sound sample_codecs
    (match encode_frame sample_data Lz4 with Ok frame => frame | Err _ => [] end ++ [x2a]) sample_data [x2a])
    as (hb & Hhb & _).
  - vm_compute. reflexivity.
  - exists (match encode_frame sample_data Lz4 with Ok frame => frame | Err _ => [] end), hb.
    split; [reflexivity|exact Hhb].
Defined.

(** Two frames, delivered byte by byte. *)
Lemma decompressing_reader_transparent_witness :
  exists frames dr, encode_frames Lz4 [[x02; x61]; [x62; x63]] = Ok frames /\
    new_decompressing_reader (Socket (map (fun b => [b]) (concat frames))) = Ok dr /\
    exists dr', exec read_string dr = Ok (str "ab", dr') /\ content dr' = [x63].
Proof.
  set (frames := match encode_frames Lz4 [[x02; x61]; [x62; x63]] with Ok frames => frames | Err _ => [] end).
  destruct (@decompressing_reader_transparent sample_codecs sample_codec_laws socket _ _
    (Socket (map (fun b => [b]) (concat frames))) Lz4 [x02; x61] [[x62; x63]] frames) as (dr & Hdr & Hk).
  - apply Forall_forall. intros seg Hin. apply in_map_iff in Hin as (b & <- & _). discriminate.
  - reflexivity.
  - discriminate.
  - reflexivity.
  - repeat constructor; discriminate.
  - discriminate.
  - exists frames, dr. split; [reflexivity|]. split; [exact Hdr|]. exact (Hk _ read_string).
Defined.

(** ** Plain bodies

    A body is only passed through when it has at least the 17 bytes that are sniffed:
    a shorter plain body, such as the ten bytes of an empty block, is an error. *)
Theorem short_plain_body_rejected (body : bytes) :
  blen body <= METHOD_OFFSET -> new_decompressing_reader body = Err (Io UnexpectedEof).
Proof.
  intros Hb. unfold new_decompressing_reader. pose proof (exec_with sniff_body body I) as Hexec.
  assert (run_with (Io UnexpectedEof) sniff_body body = Err (Io UnexpectedEof)) as Hrun.
  { unfold sniff_body. rewrite run_with_bind. cbn [run_with read_exact_r].
    destruct (Z.leb_spec 1 (blen body)); [|reflexivity]. rewrite run_with_bind. cbn [run_with read_exact_r].
    rewrite blen_drop by lia. now destruct (Z.leb_spec METHOD_OFFSET (blen body - 1)); [lia|]. }
  cbn [ends content cursor_laws end_error] in Hexec. rewrite Hrun in Hexec. rewrite Hexec. reflexivity.
Qed.
