(* ===== verification/BlockPackets.v ===== *)
(** * Packet bodies of the blocking client ([sync/client.rs])

    The readers of Data-family packets: the table name off the plain stream, the block
    either off the same stream or through a [DecompressingReader] made for this one
    packet.  A packet body may be any number of compression frames; its reader takes
    exactly the frames of the body, so that the next packet starts where it should. *)

From Stdlib Require Import String ZArith Lia Bool List.
From Stdlib Require Import Strings.Byte.
From coqutil Require Import Byte.
From S2P Require Import Prelude Revision Reader Session Limits Utf8 Wire TypeParser SkipColumn Arena ColumnReader Framing BlockReader BlockWriter Chunked Duplex Compression.
Import ListNotations.

(** The error of [DecompressingReader::new] before [from_decompress]. *)
Definition as_decompress (e : error) : DecompressError :=
  match e with
  | Compression m => DCompression m
  | Protocol m => DBudget m
  | Io k => DIo k
  | e => DCompression (display_error e)
  end.

Section Bodies.
Context `{Codecs} {R : Type} `{Read R}.

Definition decompressing (reader : R) : result error (DecompressingReader R) :=
  map_err (fun err => Io (InvalidData (display_decompress (as_decompress err)))) (new_decompressing_reader reader).

(** [f(&mut decompressing(reader)?)]: the wrapper is dropped after the call, its buffer
    with it. *)
Definition inflated {A} (f : reader A) : io R A := fun r =>
  let* dr := decompressing r in
  let* (a, dr) := exec f dr in
  Ok (a, wrapped dr).

Definition body_reader {A} (compressed : bool) (f : reader A) : io R A :=
  if compressed then inflated f else reading f.

Definition read_block_from (compressed : bool) : io R Block :=
  let* _table := reading read_string in
  body_reader compressed read_block_body.

Definition discard_block_from (compressed : bool) : io R Z :=
  let* _table := reading read_string in
  body_reader compressed discard_block_body.

Definition discard_block_body_from (compressed : bool) : io R Z := body_reader compressed discard_block_body.

Definition read_tagged_block_body_from (compressed : bool) : io R unit :=
  let* _tag := reading read_string in
  body_reader compressed read_block_body ;;
  ret tt.

Definition discard_tagged_block_body_from (compressed : bool) : io R unit :=
  let* _tag := reading read_string in
  discard_block_body_from compressed ;;
  ret tt.

(** Both strings are inside the compressed body. *)
Definition read_table_columns_from (compressed : bool) : io R unit :=
  body_reader compressed (let* _table := read_string in let* _columns := read_string in ret tt).
End Bodies.

(** ** Frames followed by other bytes *)

(** Two levels of a bounded recursion. *)
Lemma deep_step {A B} h (step : (A -> B) -> A -> B) f : exists g, deep h step f = step g.
Proof. revert f. induction h as [|h IH]; intros f; [now exists f|]. cbn [deep]. apply IH. Qed.

Lemma deep_steps {A B} h (step : (A -> B) -> A -> B) f : exists g, deep (S h) step f = step (step g).
Proof.
  revert f. induction h as [|h IH]; intros f; [now exists f|]. cbn [deep] in *. apply IH.
Qed.

Section Frames.
Context `{CodecLaws} {R : Type} `{ReadLaws R}.

(** A piece of a body and its frame. *)
Definition framed (m : CompressionMethod) (piece frame : bytes) : Prop :=
  piece <> [] /\ encode_frame piece m = Ok frame /\ frame_fits piece frame.

(** The wrapper has [pending] bytes to serve and then the [pieces], whose frames are still
    on the wire, before the bytes [tail] of the next packet. *)
Record holds (m : CompressionMethod) (dr : DecompressingReader R) (pending : bytes) (pieces frames : list bytes)
    (tail : bytes) : Prop := {
  h_plain : plain_body dr = false;
  h_pending : into_pending dr = pending;
  h_served : 0 <= served dr <= blen (decoded dr);
  h_inner : rinv (wrapped dr);
  h_wire : content (wrapped dr) = concat frames ++ tail;
  h_frames : Forall2 (framed m) pieces frames;
  h_budget : 0 <= produced dr /\ produced dr + blen (concat pieces) <= MAX_BLOCK_BYTES;
}.

Lemma pull_holds m dr piece pieces frame frames tail :
  holds m dr [] (piece :: pieces) (frame :: frames) tail ->
  exists dr', pull_next_frame dr = Ok (true, dr') /\ holds m dr' piece pieces frames tail /\
    ends (wrapped dr') = ends (wrapped dr).
Proof.
  intros [Hp Hpend Hs Hr Hw Hf [Hb0 Hb]]. inversion Hf as [|? ? ? ? (Hne & He & Hfit) Hf']; subst.
  cbn [concat] in *. rewrite blen_app in Hb. pose proof (blen_nonneg (concat pieces)).
  destruct (rest_of_frame_written (end_error (ends (wrapped dr))) piece m frame (concat frames ++ tail) He (proj2 Hfit))
    as (b & f & Hbf & Hrun).
  unfold pull_next_frame. pose proof (read_law 1%nat (wrapped dr) Hr ltac:(lia)) as Hlaw. cbn [bind result_monad].
  rewrite Hw, <- app_assoc, Hbf in Hlaw. cbn [app] in Hlaw.
  destruct (read 1%nat (wrapped dr)) as [[first r1]|e]; [|destruct Hlaw as [E _]; discriminate E].
  destruct Hlaw as (Hr1 & Hlen & Hcat & He1 & Hnil).
  destruct first as [|b' [|? ?]]; [destruct (Hnil eq_refl) as [E _]; discriminate E| |cbn in Hlen; lia].
  cbn [app] in Hcat. injection Hcat as <- Hcat.
  pose proof (exec_with (rest_of_frame [b]) r1 Hr1) as Hexec. rewrite He1, <- Hcat, Hrun in Hexec.
  destruct Hexec as (r2 & -> & Hr2 & Hc2 & He2). cbn [bind result_monad]. unfold swap_in_decoded.
  rewrite (decode_charged_written piece m) by (auto; lia). cbn [bind result_monad map_err].
  eexists. split; [reflexivity|]. split; [|cbn [wrapped]; congruence].
  split; cbn [plain_body wrapped decoded served produced]; auto; pose proof (blen_nonneg piece); lia.
Qed.

(** A read that finds pending bytes serves some of them. *)
Lemma serve_holds m n self dr pending pieces frames tail :
  (0 < n)%nat -> holds m dr pending pieces frames tail -> pending <> [] ->
  exists bs dr' pending', decompressing_step n self dr = Ok (bs, dr') /\ bs <> [] /\ (length bs <= n)%nat /\
    holds m dr' pending' pieces frames tail /\ ends (wrapped dr') = ends (wrapped dr) /\ pending = bs ++ pending'.
Proof.
  intros Hn [Hp Hpend Hs Hr Hw Hf Hb] Hne. unfold decompressing_step. unfold into_pending in Hpend.
  assert (served dr < blen (decoded dr)) as Hlt.
  { destruct (Z.ltb_spec (served dr) (blen (decoded dr))); [assumption|]. rewrite drop_past in Hpend by lia. now subst. }
  destruct (Z.ltb_spec (served dr) (blen (decoded dr))); [|lia]. set (k := Z.min _ _).
  assert (blen (slice (decoded dr) (served dr) (served dr + k)) = k) as Hk by (rewrite blen_slice; lia).
  eexists _, _, (drop (served dr + k) (decoded dr)). split; [reflexivity|].
  conj; auto; [intros E; rewrite E, blen_nil in Hk; lia|unfold blen in *; lia| |].
  - split; cbn [plain_body into_pending wrapped decoded served produced]; auto; lia.
  - rewrite <- Hpend. unfold slice. rewrite <- (take_drop (served dr + k - served dr) (drop (served dr) (decoded dr))) at 1.
    rewrite drop_drop by lia. now replace (served dr + k - served dr + served dr) with (served dr + k) by lia.
Qed.

(** One read serves from the pending bytes or from the next frame. *)
Lemma read_holds m n dr pending pieces frames tail :
  (0 < n)%nat -> holds m dr pending pieces frames tail -> pending ++ concat pieces <> [] ->
  exists bs dr' pending' pieces' frames', read n dr = Ok (bs, dr') /\ bs <> [] /\ (length bs <= n)%nat /\
    holds m dr' pending' pieces' frames' tail /\ ends (wrapped dr') = ends (wrapped dr) /\
    pending ++ concat pieces = bs ++ pending' ++ concat pieces'.
Proof.
  intros Hn Hh Hne. unfold read, decompressing_read. destruct n as [|n]; [lia|].
  destruct (deep_steps 62 (decompressing_step (R := R) (S n)) (fun _ => Err ModelFuel)) as [g Hg].
  change STREAM_BITS with 63%nat. rewrite Hg.
  destruct pending as [|b pending].
  - destruct pieces as [|piece pieces]; [contradiction|]. inversion Hh as [? ? ? ? ? Hf ?].
    inversion Hf as [|? frame ? frames' (Hpne & _) _]; subst.
    destruct (pull_holds m dr piece pieces frame frames' tail Hh) as (dr1 & Hpull & Hh1 & He1).
    destruct (serve_holds m (S n) g dr1 piece pieces frames' tail Hn Hh1 Hpne) as (bs & dr2 & pend' & E & Hb & Hl & Hh2 & He2 & Hcat).
    exists bs, dr2, pend', pieces, frames'. unfold decompressing_step at 1.
    destruct Hh as [Hp Hpend Hs _ _ _ _]. unfold into_pending in Hpend.
    destruct (Z.ltb_spec (served dr) (blen (decoded dr))) as [Hlt|_].
    { apply (f_equal blen) in Hpend. rewrite blen_drop, blen_nil in Hpend by lia. lia. }
    rewrite Hp, Hpull. conj; auto; [congruence|]. cbn [concat app]. rewrite Hcat at 1. now rewrite <- app_assoc.
  - destruct (serve_holds m (S n) (decompressing_step (S n) g) dr (b :: pending) pieces frames tail Hn Hh ltac:(discriminate))
      as (bs & dr1 & pend' & E & Hb & Hl & Hh1 & He1 & Hcat).
    exists bs, dr1, pend', pieces, frames. conj; auto. rewrite Hcat at 1. now rewrite <- app_assoc.
Qed.

Lemma read_exact_holds m tail fuel : forall n acc dr pending pieces frames,
  (n <= fuel)%nat -> holds m dr pending pieces frames tail -> (n <= length (pending ++ concat pieces))%nat ->
  exists dr' pending' pieces' frames',
    read_exact_loop fuel n acc dr = Ok (acc ++ firstn n (pending ++ concat pieces), dr') /\
    holds m dr' pending' pieces' frames' tail /\ ends (wrapped dr') = ends (wrapped dr) /\
    pending' ++ concat pieces' = skipn n (pending ++ concat pieces).
Proof.
  induction fuel as [|fuel IH]; intros [|n] acc dr pending pieces frames Hf Hh Hl; try lia.
  - exists dr, pending, pieces, frames. cbn. now rewrite app_nil_r.
  - exists dr, pending, pieces, frames. cbn. now rewrite app_nil_r.
  - destruct (read_holds m (S n) dr pending pieces frames tail ltac:(lia) Hh) as
      (bs & dr1 & pend1 & pieces1 & frames1 & Hread & Hne & Hbs & Hh1 & He1 & Hcat).
    { intros E. rewrite E in Hl. cbn in Hl. lia. }
    cbn [read_exact_loop]. rewrite Hread. destruct bs as [|b bs]; [contradiction|]. rewrite Hcat in *.
    cbn [length] in Hbs. rewrite length_app in Hl. cbn [length] in Hl.
    destruct (IH (S n - length (b :: bs))%nat (acc ++ b :: bs) dr1 pend1 pieces1 frames1) as
      (dr2 & pend2 & pieces2 & frames2 & E & Hh2 & He2 & Hrest); [cbn [length]; lia|exact Hh1|cbn [length]; lia|].
    exists dr2, pend2, pieces2, frames2.
    rewrite firstn_app, skipn_app, (firstn_all2 (n := S n) (b :: bs)), (skipn_all2 (n := S n) (b :: bs)) by (cbn; lia).
    rewrite app_assoc. conj; auto. congruence.
Qed.

(** A reader takes the bytes it needs and leaves the wrapper in front of the others. *)
Lemma exec_holds {A} m tail (k : reader A) : forall dr pending pieces frames a rest,
  holds m dr pending pieces frames tail -> run k (pending ++ concat pieces) = Ok (a, rest) ->
  exists dr' pending' pieces' frames', exec k dr = Ok (a, dr') /\ holds m dr' pending' pieces' frames' tail /\
    ends (wrapped dr') = ends (wrapped dr) /\ rest = pending' ++ concat pieces'.
Proof.
  induction k as [a|e|n k IH]; intros dr pending pieces frames a' rest Hh E.
  - apply Ok_inj in E. injection E as <- <-. exists dr, pending, pieces, frames. auto.
  - discriminate.
  - unfold run in E. cbn [run_with] in E. destruct (Z.leb_spec n (blen (pending ++ concat pieces))) as [Hle|]; [|discriminate].
    destruct (read_exact_holds m tail (Z.to_nat n) (Z.to_nat n) [] dr pending pieces frames ltac:(lia) Hh) as
      (dr1 & pend1 & pieces1 & frames1 & Ex & Hh1 & He1 & Hrest); [unfold blen in Hle; lia|].
    cbn [exec]. unfold read_exact. rewrite Ex. cbn [app]. fold (take n (pending ++ concat pieces)).
    fold (drop n (pending ++ concat pieces)) in Hrest. rewrite <- Hrest in E.
    destruct (IH _ dr1 pend1 pieces1 frames1 a' rest Hh1 E) as (dr2 & pend2 & pieces2 & frames2 & Ex2 & Hh2 & He2 & Hr2).
    exists dr2, pend2, pieces2, frames2. conj; auto. congruence.
Qed.
End Frames.

(** ** Bodies are taken exactly *)

Section Exact.
Context `{CodecLaws} {R : Type} `{DuplexLaws R}.

Lemma decompressing_sent n (dr : DecompressingReader R) bs dr' :
  read n dr = Ok (bs, dr') -> sent (wrapped dr') = sent (wrapped dr).
Proof.
  unfold read, decompressing_read. destruct n as [|n]; [intros E; apply Ok_inj in E; now injection E as _ <-|].
  revert dr bs dr'. apply (deep_ind (decompressing_step (S n)) (fun _ f => forall dr bs dr',
    f dr = Ok (bs, dr') -> sent (wrapped dr') = sent (wrapped dr))) with (n := 0); [|discriminate].
  intros _ f Hf dr bs dr' E. unfold decompressing_step in E. destruct (_ <? _).
  { apply Ok_inj in E. now injection E as _ <-. }
  destruct (plain_body dr).
  { cbn [bind result_monad] in E. destruct (read (S n) (wrapped dr)) as [[got r]|] eqn:Er; [|discriminate].
    apply Ok_inj in E. injection E as _ <-. now apply read_sent in Er. }
  unfold pull_next_frame in E. cbn [bind result_monad] in E.
  destruct (read 1%nat (wrapped dr)) as [[first r]|] eqn:Er; [|discriminate]. apply read_sent in Er.
  destruct first as [|b first]; [apply Ok_inj in E; now injection E as _ <-|].
  destruct (exec (rest_of_frame (b :: first)) r) as [[frame r']|] eqn:Ef; [|discriminate]. apply exec_sent in Ef.
  unfold swap_in_decoded in E. destruct (decode_charged (produced dr) frame) as [[data p]|]; [|discriminate].
  cbn [bind result_monad map_err] in E. apply Hf in E. cbn [wrapped] in E. congruence.
Qed.

(** The bytes of a packet body: plain, or the frames of its pieces. *)
Inductive body_bytes : bool -> bytes -> bytes -> Prop :=
| plain_bytes data : body_bytes false data data
| framed_bytes m piece pieces frames :
    Forall2 (framed m) (piece :: pieces) frames -> blen (concat (piece :: pieces)) <= MAX_BLOCK_BYTES ->
    body_bytes true (concat (piece :: pieces)) (concat frames).

Lemma all_pieces_read m (pieces frames : list bytes) : Forall2 (framed m) pieces frames -> concat pieces = [] -> frames = [].
Proof.
  intros Hf E. destruct Hf as [|piece frame pieces frames (Hne & _) _]; [reflexivity|].
  cbn in E. now apply app_eq_nil in E as [-> _].
Qed.

(** The wrapper made for one body takes exactly its frames and has nothing pending. *)
Lemma inflate_exact {A} (k : reader A) data w a r rest :
  reads k data a -> body_bytes true data w -> sound r -> content r = w ++ rest ->
  exists dr dr', decompressing (R := R) r = Ok dr /\ exec k dr = Ok (a, dr') /\ into_pending dr' = [] /\ sound (wrapped dr') /\
    content (wrapped dr') = rest /\ ends (wrapped dr') = ends r /\ sent (wrapped dr') = sent r.
Proof.
  intros Hk Hb [Hr Hlen] Hc. inversion Hb as [|m piece pieces frames Hf Hmax]; subst.
  inversion Hf as [|? frame ? frames' (Hne & He & Hfit) Hf']; subst. cbn [concat] in *. rewrite blen_app in Hmax.
  rewrite <- app_assoc in Hc. pose proof (blen_nonneg piece). pose proof (blen_nonneg (concat pieces)).
  unfold decompressing, new_decompressing_reader. pose proof (exec_with sniff_body r Hr) as Hexec.
  rewrite Hc, (sniff_written _ _ _ _ _ He (proj2 Hfit)) in Hexec. destruct Hexec as (r1 & Es & Hr1 & Hc1 & He1).
  rewrite Es. cbn [bind result_monad]. unfold swap_in_decoded. cbn [produced plain_body].
  rewrite (decode_charged_written piece m) by (auto; lia). cbn [bind result_monad map_err].
  set (dr := mkDecompressing _ _ _ _ _). exists dr.
  assert (holds m dr piece pieces frames' rest) as Hh.
  { split; cbn [dr plain_body into_pending wrapped decoded served produced]; auto; lia. }
  specialize (Hk []). rewrite app_nil_r in Hk.
  destruct (exec_holds m rest k dr piece pieces frames' a [] Hh Hk) as (dr' & pend & pieces' & frames'' & E & Hh' & He' & Hnil).
  exists dr'. symmetry in Hnil. apply app_eq_nil in Hnil as [-> Hnil].
  destruct Hh' as [_ Hpend _ Hr' Hw Hf'' _]. rewrite (all_pieces_read m _ _ Hf'' Hnil) in Hw. cbn [concat app] in Hw.
  unfold sound. rewrite Hw. rewrite Hc, !blen_app in Hlen. pose proof (blen_nonneg frame).
  pose proof (blen_nonneg (concat frames')). conj; auto; [lia|cbn [dr wrapped] in He'; congruence|].
  rewrite (exec_keeps (fun d : DecompressingReader R => sent (wrapped d)) decompressing_sent _ _ _ _ _ E).
  cbn [dr wrapped]. now apply exec_sent in Es.
Qed.

Lemma performs_inflated {A} (k : reader A) data w a :
  reads k data a -> body_bytes true data w -> performs (inflated (R := R) k) w [] a.
Proof.
  intros Hk Hb r rest Hr Hc. destruct (inflate_exact k data w a r rest Hk Hb Hr Hc) as (dr & dr' & E & E' & _ & Hr' & Hc' & He & Hs).
  exists (wrapped dr'). unfold inflated. cbn [bind result_monad]. rewrite E, E', app_nil_r. auto.
Qed.

Lemma performs_body {A} (k : reader A) compressed data w a :
  reads k data a -> body_bytes compressed data w -> performs (body_reader (R := R) compressed k) w [] a.
Proof.
  intros Hk Hb. destruct compressed; [now apply (performs_inflated k data)|]. inversion Hb; subst.
  now apply performs_reading.
Qed.
End Exact.
