(* ===== verification/Transport.v ===== *)
(** * The whole read path

    [SyncClient] stacks the transport layers: a block is read by [read_block_from]
    through [DecompressingReader], over [ChunkedReader], over [TransportReader], over the
    socket.  Each layer is a transport ([ReadLaws]) over the one below, so their theorems
    compose: a block comes back from any segmentation, chunking and framing of its bytes.  The
    writer of compressed Data packets (shared/block_writer.rs) is here as well. *)

From Stdlib Require Import String ZArith Lia Bool List.
From Stdlib Require Import Strings.Byte.
From coqutil Require Import Byte.
From S2P Require Import Prelude Reader Limits Utf8 Wire TypeParser SkipColumn Arena ColumnReader Framing BlockReader BlockWriter Chunked Duplex Compression BlockPackets.
Import ListNotations.

(** [write_data_packet_compressed] of shared/block_writer.rs: the block in one frame,
    behind the packet code and the table name. *)
Definition write_data_packet_compressed `{Codecs} (table_name : bytes) (block : Block)
    (method : CompressionMethod) : result error bytes :=
  let* compressed := encode_frame (write_block block) method in
  Ok (write_varint 2 ++ write_string table_name ++ compressed).

Section Packet.
Context `{CodecLaws} {R : Type} `{DuplexLaws R}.

Lemma body_of_block b compressed body :
  wf_block b = true -> body_bytes compressed (write_block b) body ->
  performs (body_reader (R := R) compressed read_block_body) body [] b.
Proof. intros Hb Hbody. eapply performs_body; [|exact Hbody]. intros rest. now apply read_block_written. Qed.

Lemma performs_block_from table b compressed body :
  wire_text table = true -> wf_block b = true -> body_bytes compressed (write_block b) body ->
  performs (read_block_from (R := R) compressed) (write_string table ++ body) [] b.
Proof.
  intros Ht Hb Hbody. eapply performs_then; [|now apply body_of_block].
  apply performs_reading. intros rest. apply wire_text_inv in Ht as [? ?]. now apply read_string_written.
Qed.

(** The writer of compressed Data packets and the reader of compressed block packets
    agree: behind the packet code, [read_block_from] takes exactly the packet and gets the
    block that was written, whatever follows on the connection. *)
Theorem compressed_packet_roundtrip (r : R) (table_name rest pkt : bytes) (b : Block) (m : CompressionMethod) :
  wire_text table_name = true -> wf_block b = true -> write_block b <> [] ->
  write_data_packet_compressed table_name b m = Ok pkt ->
  blen (write_block b) <= MAX_FRAME_SIZE -> blen pkt <= MAX_FRAME_SIZE ->
  sound r -> content r = pkt ++ rest ->
  exists r', (let* code := reading read_varint in let* b := read_block_from true in ret (code, b)) r = Ok (2, b, r') /\
    content r' = rest.
Proof.
  intros Ht Hb Hne Hpkt Hsize Hmax Hr Hc. unfold write_data_packet_compressed in Hpkt.
  apply result_bind_inv in Hpkt as (frame & Hframe & Hpkt). apply Ok_inj in Hpkt. subst pkt.
  rewrite !blen_app in Hmax. pose proof (blen_nonneg (write_varint 2)). pose proof (blen_nonneg (write_string table_name)).
  assert (body_bytes true (write_block b) frame) as Hbody.
  { rewrite <- (app_nil_r (write_block b)), <- (app_nil_r frame).
    apply (framed_bytes m (write_block b) [] [frame]); [|cbn [concat]; rewrite app_nil_r; unfold MAX_BLOCK_BYTES, MAX_FRAME_SIZE in *; lia].
    apply Forall2_cons; [|apply Forall2_nil]. unfold framed, frame_fits, CHECKSUM_LEN. conj; auto; lia. }
  pose (whole := fun code : Z => let* b := read_block_from (R := R) true in ret (code, b)).
  assert (performs (let* code := reading read_varint in whole code) (write_varint 2 ++ write_string table_name ++ frame)
            [] (2, b)) as Hperf.
  { eapply performs_then; [apply performs_reading; intros l; apply read_encode_varint; unfold U64_MAX; lia|].
    eapply performs_last; [exact (performs_block_from table_name b true frame Ht Hb Hbody)|apply performs_ret]. }
  destruct (Hperf r rest Hr Hc) as (r' & E & _ & Hc' & _). exists r'. split; [exact E|exact Hc'].
Qed.
End Packet.

(** The readers a response is read through on a chunked connection. *)
Definition chunked_transport {R} (stream : R) (cap : nat) : ChunkedReader (TransportReader R) :=
  new_chunked_reader (new_transport_reader stream cap).

Section Stack.
Context `{CodecLaws} {R : Type} `{DuplexLaws R}.

Lemma stack_content (r : R) (cap : nat) (pkts : list bytes) (wire : bytes) :
  Forall (fun pkt => blen pkt <= MAX_CHUNK_LEN) pkts -> write_chunked_packets pkts = Ok wire ->
  rinv r -> ends r = Eof -> content r = wire -> blen wire <= ISIZE_MAX -> blen (concat pkts) <= ISIZE_MAX ->
  let c := chunked_transport r cap in sound c /\ content c = concat pkts.
Proof.
  intros Hchunks Hwire Hr He Hc Hsize Hsize' c.
  assert (plain (new_transport_reader r cap) = (concat pkts, Io UnexpectedEof)) as Hplain.
  { unfold plain. change (content (new_transport_reader r cap)) with (content r).
    change (ends (new_transport_reader r cap)) with (ends r). rewrite He, Hc. now apply dechunk_packets. }
  assert (content c = concat pkts) as Hcontent.
  { change (content c) with (fst (plain (new_transport_reader r cap))). now rewrite Hplain. }
  split; [|exact Hcontent]. split; [|now rewrite Hcontent]. split; [exact Hr|]. split; [split; reflexivity|].
  change (blen (content r) <= ISIZE_MAX). now rewrite Hc.
Qed.

(** C9: the layers compose.  A well-formed block packet whose body is plain or compressed in
    any number of frames, with whatever follows it, cut into any packets of at most 64 MiB,
    sent chunked and delivered by the socket in any segments, is read by [read_block_from]
    through the decompressing, the chunked and the buffered reader; exactly its bytes are
    taken, so that the next packet is read from its first byte. *)
Theorem block_through_transport (r : R) (cap : nat) (table : bytes) (b : Block) (compressed : bool)
    (body next : bytes) (pkts : list bytes) (wire : bytes) :
  wire_text table = true -> wf_block b = true -> body_bytes compressed (write_block b) body ->
  concat pkts = write_string table ++ body ++ next ->
  Forall (fun pkt => blen pkt <= MAX_CHUNK_LEN) pkts -> write_chunked_packets pkts = Ok wire ->
  rinv r -> ends r = Eof -> content r = wire -> blen wire <= ISIZE_MAX -> blen (concat pkts) <= ISIZE_MAX ->
  exists c, read_block_from compressed (chunked_transport r cap) = Ok (b, c) /\
    content c = next.
Proof.
  intros Ht Hb Hbody Hpkts Hchunks Hwire Hr He Hc Hsize Hsize'.
  destruct (stack_content r cap pkts wire Hchunks Hwire Hr He Hc Hsize Hsize') as [Hsound Hcontent].
  rewrite Hpkts, app_assoc in Hcontent.
  destruct (performs_block_from table b compressed body Ht Hb Hbody _ next Hsound Hcontent) as (c & E & _ & Hn & _).
  exists c. auto.
Qed.
End Stack.

(** The block of [BlockWriter] in two frames, in packets of ten bytes, byte by byte. *)
Definition in_tens (l : bytes) : list bytes :=
  map (fun i => take 10 (drop (10 * Z.of_nat i) l)) (seq 0 (length l / 10 + 1)).

#[local] Existing Instance sample_codecs.

Definition sample_pieces : bytes * bytes :=
  (take 20 (write_block written_sample), drop 20 (write_block written_sample)).

Definition sample_frames : list bytes :=
  match encode_frames Lz4 [fst sample_pieces; snd sample_pieces] with Ok frames => frames | Err _ => [] end.

(** The packet of the block, then the start of another. *)
Definition sample_wire : bytes :=
  match write_chunked_packets (in_tens (write_string (str "t") ++ concat sample_frames ++ [x05])) with
  | Ok wire => wire
  | Err _ => []
  end.

Definition sample_socket : Wired socket := mkWired (Socket (map (fun b => [b]) sample_wire)) [].

Lemma sample_body : body_bytes true (write_block written_sample) (concat sample_frames).
Proof.
  replace (write_block written_sample) with (concat [fst sample_pieces; snd sample_pieces]) by reflexivity.
  assert (sample_frames = [nth 0 sample_frames []; nth 1 sample_frames []]) as -> by (vm_compute; reflexivity).
  apply (framed_bytes Lz4); [|vm_compute; discriminate].
  apply Forall2_cons; [|apply Forall2_cons; [|apply Forall2_nil]]; (split; [discriminate|]); (split; [vm_compute; reflexivity|]);
    split; vm_compute; discriminate.
Qed.

Lemma block_through_transport_witness :
  exists c, read_block_from true (chunked_transport sample_socket 16) = Ok (written_sample, c) /\
    content c = [x05].
Proof.
  apply (@block_through_transport sample_codecs sample_codec_laws (Wired socket) _ _ _ _ sample_socket 16
    (str "t") written_sample true (concat sample_frames) [x05]
    (in_tens (write_string (str "t") ++ concat sample_frames ++ [x05])) sample_wire).
  - reflexivity.
  - reflexivity.
  - exact sample_body.
  - reflexivity.
  - apply Forall_forall. intros pkt Hin. apply in_map_iff in Hin as (i & <- & _).
    unfold take, blen. rewrite length_firstn. unfold MAX_CHUNK_LEN. lia.
  - reflexivity.
  - apply Forall_forall. intros seg Hin. apply in_map_iff in Hin as (b & <- & _). discriminate.
  - reflexivity.
  - vm_compute. reflexivity.
  - discriminate.
  - discriminate.
Defined.

Definition sample_packet : bytes :=
  match write_data_packet_compressed (str "t") written_sample Lz4 with Ok pkt => pkt | Err _ => [] end.

Lemma compressed_packet_roundtrip_witness :
  exists r', (let* code := reading read_varint in let* b := read_block_from true in ret (code, b))
               (mkWired (sample_packet ++ [x2a]) []) = Ok (2, written_sample, r') /\
    content r' = [x2a].
Proof.
  apply (@compressed_packet_roundtrip sample_codecs sample_codec_laws (Wired bytes) _ _ _ _
    (mkWired (sample_packet ++ [x2a]) []) (str "t") [x2a] sample_packet written_sample Lz4).
  - reflexivity.
  - reflexivity.
  - discriminate.
  - reflexivity.
  - discriminate.
  - discriminate.
  - split; [exact I|discriminate].
  - reflexivity.
Defined.
