(* ===== verification/Boundary.v ===== *)
(** * Where a chunked connection stands after a response

    The client builds a new [TransportReader] and a new [ChunkedReader] for every response
    and drops both with what they hold.  Here the chunked bytes of a connection are a
    sequence of marks, data chunks and the empty chunks that end packets; the readers are
    shown to stop between two marks, so that after the last packet only its end mark is
    left, of which the buffer that is dropped may hold a part. *)

From Stdlib Require Import String ZArith Lia Bool List.
From S2P Require Import Prelude Reader Session Limits Chunked Duplex Compression BlockPackets Transport.
Import ListNotations.

(** A chunk of data, or the empty chunk at the end of a packet. *)
Definition mark := option bytes.

Definition end_mark : bytes := to_le 4 0.

Definition mark_bytes (m : mark) : bytes :=
  match m with Some c => to_le 4 (blen c) ++ c | None => end_mark end.

Definition marks_bytes (ms : list mark) : bytes := concat (map mark_bytes ms).

Definition marks_data (ms : list mark) : bytes := concat (map (fun m => match m with Some c => c | None => [] end) ms).

Definition wf_mark (m : mark) : bool :=
  match m with Some c => (0 <? blen c) && (blen c <=? MAX_CHUNK_LEN) | None => true end.

(** The bytes of a complete packet end in one end mark. *)
Definition ended (ms : list mark) : Prop := exists ms' c, ms = ms' ++ [Some c; None].

Lemma wf_chunk c : wf_mark (Some c) = true -> 0 < blen c <= MAX_CHUNK_LEN.
Proof. cbn. intros H. apply andb_prop in H as [? ?]. lia. Qed.

Lemma chunk_size c : wf_mark (Some c) = true -> from_le (to_le 4 (blen c)) = blen c.
Proof.
  intros H. apply wf_chunk in H. apply from_to_le. unfold MAX_CHUNK_LEN in H. change (2 ^ (8 * Z.of_nat 4)) with 4294967296. lia.
Qed.

Lemma dechunk_chunk eof c l : wf_mark (Some c) = true ->
  dechunk eof (mark_bytes (Some c) ++ l) = (c ++ fst (dechunk eof l), snd (dechunk eof l)).
Proof.
  intros Hc. pose proof (wf_chunk c Hc). pose proof (blen_nonneg l). cbn [mark_bytes].
  rewrite <- app_assoc, dechunk_unfold, take4_header, drop4_header, !blen_app, blen_to_le, chunk_size by exact Hc.
  destruct (Z.ltb_spec (Z.of_nat 4 + (blen c + blen l)) 4); [lia|]. cbv zeta. destruct (Z.eqb_spec (blen c) 0); [lia|].
  destruct (Z.ltb_spec MAX_CHUNK_LEN (blen c)); [lia|]. rewrite blen_app. destruct (Z.ltb_spec (blen c + blen l) (blen c)); [lia|].
  now rewrite take_app_exact, drop_app_exact.
Qed.

Lemma dechunk_marks eof ms : forallb wf_mark ms = true -> dechunk eof (marks_bytes ms) = (marks_data ms, eof).
Proof.
  induction ms as [|[c|] ms IH]; intros Hwf; [reflexivity| |]; cbn [forallb] in Hwf; apply andb_prop in Hwf as [Hc Hwf];
    unfold marks_bytes, marks_data in *; cbn [map concat].
  - now rewrite dechunk_chunk, IH.
  - cbn [app mark_bytes]. unfold end_mark. now rewrite dechunk_zero, IH.
Qed.

(** The next chunk of data, behind any number of end marks. *)
Lemma split_marks ms : marks_data ms = [] /\ Forall (fun m => m = None \/ m = Some []) ms \/
  exists k c rest, ms = repeat None k ++ Some c :: rest.
Proof.
  induction ms as [|[c|] ms IH]; [left; split; [reflexivity|constructor]|right; now exists 0%nat, c, ms|].
  destruct IH as [[Hd Hn]|(k & c & rest & ->)]; [left; split; [exact Hd|constructor; auto]|].
  right. now exists (S k), c, rest.
Qed.

Lemma next_chunk_marks eof c rest k : wf_mark (Some c) = true -> Z.of_nat k < 2 ^ 63 ->
  run_with eof read_next_chunk (marks_bytes (repeat None k ++ Some c :: rest)) = Ok (c, marks_bytes rest).
Proof.
  intros Hc Hk. rewrite read_next_chunk_unfold. pose proof (wf_chunk c Hc) as Hlen.
  pose proof (deep_ind next_chunk_step (fun n f => 0 <= n /\ forall k, Z.of_nat k < n ->
    run_with eof (f tt) (marks_bytes (repeat None k ++ Some c :: rest)) = Ok (c, marks_bytes rest))) as H.
  eapply H; [| |rewrite Z.add_0_l; exact Hk]; [|split; [lia|intros ?; lia]].
  intros n f [Hn Hf]. split; [lia|]. intros [|j] Hj; unfold next_chunk_step; rewrite run_with_bind; cbn [repeat app map].
  - unfold marks_bytes. cbn [map concat mark_bytes]. rewrite <- app_assoc. cbn [run_with read_exact_r].
    rewrite blen_app, blen_to_le, take4_header, drop4_header. pose proof (blen_nonneg (c ++ concat (map mark_bytes rest))).
    destruct (Z.leb_spec 4 (Z.of_nat 4 + blen (c ++ concat (map mark_bytes rest)))); [|lia]. cbv zeta. rewrite chunk_size by exact Hc.
    destruct (Z.eqb_spec (blen c) 0); [lia|]. destruct (Z.ltb_spec MAX_CHUNK_LEN (blen c)); [lia|]. cbn [run_with read_exact_r].
    rewrite blen_app, take_app_exact, drop_app_exact. pose proof (blen_nonneg (concat (map mark_bytes rest))).
    now destruct (Z.leb_spec (blen c) (blen c + blen (concat (map mark_bytes rest)))); [|lia].
  - unfold marks_bytes in *. cbn [map concat mark_bytes]. unfold end_mark at 1. cbn [run_with read_exact_r].
    specialize (Hf j ltac:(lia)). set (l := concat (map mark_bytes (repeat None j ++ Some c :: rest))) in *. rewrite blen_app, blen_to_le, take4_header, drop4_header. pose proof (blen_nonneg l).
    destruct (Z.leb_spec 4 (Z.of_nat 4 + blen l)); [|lia]. cbv zeta. rewrite from_to_le by (split; [lia|reflexivity]).
    exact Hf.
Qed.

Section Boundary.
Context {R : Type} `{DuplexLaws R} (ms : list mark) (wf : forallb wf_mark ms = true).

(** The reader has taken some of the marks; the last of them is the chunk it holds, of
    which it has served at least a byte. *)
Definition at_mark (c : ChunkedReader R) : Prop :=
  exists taken rest, ms = taken ++ rest /\ content (inner c) = marks_bytes rest /\
    (taken = [] /\ chunk c = [] \/ (exists t, taken = t ++ [Some (chunk c)]) /\ 0 < pos c).

Lemma marks_rest taken rest : ms = taken ++ rest -> forallb wf_mark rest = true.
Proof. intros E. rewrite E, forallb_app in wf. now apply andb_prop in wf. Qed.

Lemma serve_moves n (r : R) d p bs c' : 0 <= p < blen d -> (0 < n)%nat ->
  serve_chunk n r d p = Ok (bs, c') -> inner c' = r /\ chunk c' = d /\ 0 < pos c'.
Proof.
  intros Hp Hn E. unfold serve_chunk in E. apply Ok_inj in E. injection E as _ <-. cbn [inner chunk pos]. conj; auto. lia.
Qed.

Lemma read_with_at_mark next n c bs c' :
  (forall eof l, blen l <= ISIZE_MAX -> next_chunk_ok eof next l) ->
  (forall eof d rest k, wf_mark (Some d) = true -> Z.of_nat k < 2 ^ 63 ->
   run_with eof next (marks_bytes (repeat None k ++ Some d :: rest)) = Ok (d, marks_bytes rest)) ->
  chunked_inv c -> at_mark c -> (0 < n)%nat -> chunked_read_with next n c = Ok (bs, c') -> at_mark c'.
Proof.
  intros Hnext Hmarks (Hr & Hp & Hlen) (taken & rest & Ems & Hc & Ht) Hn E. unfold chunked_read_with in E.
  destruct n as [|n]; [lia|]. destruct (Z.leb_spec (blen (chunk c)) (pos c)) as [_|Hmore].
  2: { apply serve_moves in E as (Ei & Ec & Hpos); [|lia..]. exists taken, rest. rewrite Ei, Ec. conj; auto.
       destruct Ht as [[-> E0]|[Ht _]]; [|right; auto]. rewrite E0, blen_nil in Hmore. lia. }
  pose proof (exec_with next (inner c) Hr) as Hexec. pose proof (marks_rest _ _ Ems) as Hwf.
  pose proof (Hnext (end_error (ends (inner c))) _ Hlen) as Hok. unfold next_chunk_ok in Hok.
  destruct (split_marks rest) as [[Hd _]|(k & d & rest' & ->)].
  - rewrite Hc, dechunk_marks, Hd in Hok by exact Hwf. rewrite Hc in Hexec. destruct (run_with _ _ _) as [[b l]|e].
    + destruct Hok as (Hb & Hd' & _). injection Hd' as Hd' _. destruct b; [easy|discriminate].
    + rewrite Hexec in E. discriminate.
  - rewrite forallb_app in Hwf. apply andb_prop in Hwf as [_ Hwf]. cbn [forallb] in Hwf. apply andb_prop in Hwf as [Hd _].
    rewrite Hc in Hexec, Hlen. rewrite Hmarks in Hexec; [|exact Hd|].
    + destruct Hexec as (r' & E' & _ & Hc' & _). rewrite E' in E. apply wf_chunk in Hd.
      apply serve_moves in E as (Ei & Ec & Hpos); [|lia..]. exists (taken ++ repeat None k ++ [Some d]), rest'. rewrite Ei, Ec.
      conj; [|exact Hc'|right; split; [exists (taken ++ repeat None k); now rewrite app_assoc|exact Hpos]].
      now rewrite Ems, <- !app_assoc.
    + unfold marks_bytes in Hlen. rewrite map_app, concat_app, blen_app in Hlen.
      match type of Hlen with blen ?x + blen ?y <= _ => assert (Z.of_nat k <= blen x) as Hk; [|pose proof (blen_nonneg y)] end.
      * clear. induction k as [|k IH]; [reflexivity|]. cbn [repeat map concat mark_bytes]. unfold end_mark.
        rewrite blen_app, blen_to_le. lia.
      * unfold ISIZE_MAX in Hlen. lia.
Qed.

Lemma read_at_mark n c bs c' : chunked_inv c -> at_mark c -> (0 < n)%nat -> read n c = Ok (bs, c') -> at_mark c'.
Proof. exact (read_with_at_mark read_next_chunk n c bs c' read_next_chunk_ok next_chunk_marks). Qed.

(** The laws of the chunked reader, with its place among the marks as an invariant. *)
Definition marked_laws : ReadLaws (ChunkedReader R).
Proof.
  refine {| rinv c := chunked_inv c /\ at_mark c; content := chunked_content; ends := chunked_ends |}.
  intros n c [Hc Hm] Hn. pose proof (read_law n c Hc Hn) as Hlaw. destruct (read n c) as [[bs c']|e] eqn:E; [|exact Hlaw].
  destruct Hlaw as (Hi & Hlaw). split; [|exact Hlaw]. split; [exact Hi|]. eapply read_at_mark; eassumption.
Defined.

Definition marked_duplex : @DuplexLaws (ChunkedReader R) _ marked_laws _.
Proof.
  unshelve refine (@Build_DuplexLaws _ _ marked_laws _ (fun c => sent (inner c)) _ _).
  - intros w c [Hc Hm]. destruct (@write_law _ _ _ _ chunked_duplex w c Hc) as (c' & E & Hi & Hcon & He & Hs). exists c'.
    split; [exact E|]. split; [|auto]. split; [exact Hi|]. destruct Hm as (taken & rest & Ems & Hcin & Ht).
    exists taken, rest. unfold write_all, chunked_write in E.
    destruct (write_law w (inner c) (proj1 Hc)) as (r' & Er & _ & Hr' & _). rewrite Er in E. apply Ok_inj in E. subst c'.
    cbn [inner chunk pos]. rewrite Hr'. auto.
  - intros n c bs c' E. exact (@read_sent _ _ _ _ chunked_duplex n c bs c' E).
Defined.

(** Between two packets: when the data of the first marks was read and no more, the reader
    stands before the end mark of the last packet. *)
Lemma packet_boundary c ms1 ms2 : ms = ms1 ++ ms2 -> ended ms1 -> chunked_inv c -> at_mark c ->
  chunked_content c = marks_data ms2 -> content (inner c) = end_mark ++ marks_bytes ms2.
Proof.
  intros E12 (ms' & last & Ems) (_ & Hpos & _) (taken & rest & E & Hc & Ht) Hdata. rewrite Hc.
  unfold chunked_content, plain in Hdata. rewrite Hc, dechunk_marks in Hdata by (eapply marks_rest; exact E). cbn [fst] in Hdata.
  apply (f_equal blen) in Hdata. rewrite blen_app, blen_drop in Hdata by lia.
  assert (forall a b, marks_data (a ++ b) = marks_data a ++ marks_data b) as Happ
    by (intros; unfold marks_data; now rewrite map_app, concat_app).
  assert (forall a d b, blen (marks_data (a ++ Some d :: b)) = blen (marks_data a) + blen d + blen (marks_data b)) as Hsome.
  { intros a d b. rewrite Happ, blen_app. unfold marks_data at 2. cbn [map concat]. rewrite blen_app. fold (marks_data b). lia. }
  assert (0 < blen last) as Hlast.
  { rewrite E12, Ems, !forallb_app in wf. cbn [forallb] in wf. apply andb_prop in wf as [Hl _]. apply andb_prop in Hl as [_ Hl].
    apply andb_prop in Hl as [Hl _]. now apply wf_chunk in Hl. }
  assert (forall t d, taken = t ++ [Some d] -> forall t', taken <> t' ++ [None]) as Hends.
  { intros t d -> t' H'. apply app_inj_tail in H' as [_ [=]]. }
  rewrite E in E12. apply app_eq_app in E12 as (l & [[Et El]|[E1 El]]).
  - exfalso. destruct Ht as [[-> _]|[(t & Et') Hp]].
    { apply (f_equal (@length _)) in Et. rewrite Ems, !length_app in Et. cbn in Et. lia. }
    destruct (exists_last (l := l)) as (l' & x & ->).
    { intros ->. rewrite app_nil_r, Ems in Et. change [Some last; None] with ([Some last] ++ [@None bytes]) in Et.
      rewrite app_assoc in Et. eapply Hends; eassumption. }
    rewrite Et', app_assoc in Et. apply app_inj_tail in Et as [_ <-]. subst ms2. rewrite <- app_assoc in Hdata. cbn [app] in Hdata.
    rewrite Hsome in Hdata. pose proof (blen_nonneg (marks_data l')). lia.
  - subst rest. rewrite Happ, blen_app in Hdata. pose proof (blen_nonneg (marks_data l)).
    assert (forall a b, l <> a ++ Some last :: b) as Hno.
    { intros a b ->. rewrite Hsome in Hdata. pose proof (blen_nonneg (marks_data a)). pose proof (blen_nonneg (marks_data b)). lia. }
    rewrite E1 in Ems. apply app_eq_app in Ems as (k & [[Ek El]|[_ El]]); [|now apply Hno in El].
    destruct k as [|x [|y [|z k]]]; try discriminate El; cbn [app] in El.
    + symmetry in El. now apply (Hno []) in El.
    + injection El as <- <-. unfold marks_bytes. cbn [app map concat mark_bytes]. reflexivity.
    + injection El as <- <- <-. exfalso. destruct Ht as [[-> _]|[(t & Ht) _]]; [now destruct ms'|].
      change [Some last; None] with ([Some last] ++ [@None bytes]) in Ek. rewrite app_assoc in Ek. eapply Hends; eassumption.
Qed.
End Boundary.

Lemma marks_data_le ms : blen (marks_data ms) <= blen (marks_bytes ms).
Proof.
  unfold marks_data, marks_bytes. induction ms as [|[c|] ms IH]; cbn [map concat mark_bytes]; [reflexivity| |]; unfold end_mark;
    rewrite !blen_app, ?blen_nil, ?blen_to_le; lia.
Qed.

(** A loop that takes the packets of the first marks leaves the stream before their last
    end mark; the chunked reader that is dropped holds nothing. *)
Lemma chunked_loop {R} `{DuplexLaws R} {A} (loop : io (ChunkedReader R) A) ms1 ms2 out x (r : R)
    (wf : forallb wf_mark (ms1 ++ ms2) = true) :
  @performs _ _ _ _ (marked_duplex (ms1 ++ ms2) wf) A loop (marks_data ms1) out x ->
  ended ms1 -> sound r -> content r = marks_bytes (ms1 ++ ms2) ->
  exists c, loop (new_chunked_reader r) = Ok (x, c) /\ sound (inner c) /\
    content (inner c) = end_mark ++ marks_bytes ms2 /\ sent (inner c) = sent r ++ out.
Proof.
  intros Hloop Hend [Hr Hlen] Hc.
  assert (chunked_content (new_chunked_reader r) = marks_data ms1 ++ marks_data ms2) as Hdata.
  { unfold chunked_content, plain. cbn [chunk pos inner new_chunked_reader]. rewrite Hc, dechunk_marks by exact wf.
    unfold marks_data. now rewrite map_app, concat_app. }
  assert (chunked_inv (new_chunked_reader r)) as Hinv by (split; [exact Hr|]; split; [split; reflexivity|exact Hlen]).
  destruct (Hloop (new_chunked_reader r) (marks_data ms2)) as (c & E & [[Hi Hm] _] & Hc' & He & Hs).
  - split; [split; [exact Hinv|]|].
    + exists [], (ms1 ++ ms2). conj; auto.
    + change (blen (chunked_content (new_chunked_reader r)) <= ISIZE_MAX). rewrite Hdata.
      replace (marks_data ms1 ++ marks_data ms2) with (marks_data (ms1 ++ ms2)) by (unfold marks_data; now rewrite map_app, concat_app).
      pose proof (marks_data_le (ms1 ++ ms2)) as Hle. rewrite <- Hc in Hle. lia.
  - exact Hdata.
  - exists c. split; [exact E|].
    pose proof (packet_boundary (ms1 ++ ms2) wf c ms1 ms2 eq_refl Hend Hi Hm Hc') as Hin. destruct Hi as (Hri & _ & Hli).
    conj; [exact (conj Hri Hli)|exact Hin|exact Hs].
Qed.
