(* ===== verification/Response.v ===== *)
(** * Buffered responses ([sync/protocol/response_packets.rs])

    [parse_response] walks the packets of a complete response and returns its data
    blocks, or the server's exception.  The packets a server sends are given as a
    type with their encoding at each protocol revision; parsing their concatenation
    is shown to be what the packets mean. *)

From Stdlib Require Import String ZArith Lia Bool List.
From Stdlib Require Import Strings.Byte.
From coqutil Require Import Byte.
From S2P Require Import Prelude Revision Reader Limits Utf8 Wire TypeParser SkipColumn Arena ColumnReader Framing BlockReader BlockWriter.
Import ListNotations.

(** ** Exceptions *)

Definition show_i32 (z : Z) : bytes := if z <? 0 then str "-" ++ show (- z) else show z.

(** [format!("{name} (code {code}): {message}")] *)
Definition exception_part (code : Z) (name message : bytes) : bytes :=
  name ++ str " (code " ++ show_i32 code ++ str "): " ++ message.

(** [parts.join(" | nested: ")] *)
Fixpoint join_nested (parts : list bytes) : bytes :=
  match parts with
  | [] => []
  | [p] => p
  | p :: parts => p ++ str " | nested: " ++ join_nested parts
  end.

(** The loop of [parse_exception_chain]; the recursion bound is the depth limit. *)
Fixpoint exception_loop (levels : nat) (parts : list bytes) (root : option (Z * bytes))
  : parser (Z * bytes * bytes) :=
  match levels with
  | O => throw (Protocol (Msg "exception nesting too deep: more than {} levels"
                              [AZ MAX_EXCEPTION_CHAIN_DEPTH]))
  | S levels =>
      let* code := parse_i32 in
      let* name_bytes := parse_string_bytes in
      let name := from_utf8_lossy name_bytes in
      let* message_bytes := parse_string_bytes in
      let message := from_utf8_lossy message_bytes in
      let* _stack := parse_string_bytes in
      let parts := parts ++ [exception_part code name message] in
      let root := match root with None => Some (code, name) | Some _ => root end in
      let* flag := parse_bytes 1 in
      if byte0 flag =? 0 then
        let '(code, name) := match root with Some r => r | None => (0, str "unknown") end in
        ret (code, name, join_nested parts)
      else exception_loop levels parts root
  end.

Definition parse_exception_chain : parser (Z * bytes * bytes) :=
  exception_loop (Z.to_nat MAX_EXCEPTION_CHAIN_DEPTH) [] None.

(** ** Packets that are skipped *)

(** [if cond { .. }] *)
Definition when (cond : bool) (p : parser unit) : parser unit := if cond then p else ret tt.

Definition skip_varint : parser unit := parse_varint ;; ret tt.

Definition skip_progress (protocol_revision : Z) : parser unit :=
  skip_varint ;; skip_varint ;; skip_varint ;;
  when (DBMS_MIN_REVISION_WITH_CLIENT_WRITE_INFO <=? protocol_revision) (skip_varint ;; skip_varint) ;;
  when (DBMS_MIN_PROTOCOL_VERSION_WITH_SERVER_QUERY_TIME_IN_PROGRESS <=? protocol_revision) skip_varint ;;
  when (DBMS_MIN_PROTOCOL_VERSION_WITH_TOTAL_BYTES_IN_PROGRESS <=? protocol_revision) skip_varint.

Definition skip_byte : parser unit := parse_bytes 1 ;; ret tt.

Definition skip_profile_info (protocol_revision : Z) : parser unit :=
  skip_varint ;; skip_varint ;; skip_varint ;; skip_byte ;; skip_varint ;; skip_byte ;;
  when (DBMS_MIN_REVISION_WITH_ROWS_BEFORE_AGGREGATION <=? protocol_revision) (skip_byte ;; skip_varint).

Definition packet_len (rows width : Z) : result error Z :=
  ok_or (checked_mul rows width) (Protocol (msg "size overflow")).

Definition packet_usize (value : Z) (name : string) : result error Z :=
  ok_or (usize_try_from value) (Protocol (Msg "{name} too large" [AS (str name)])).

Definition packet_advance (len : Z) : parser unit := fun buf pos =>
  match checked_add pos len with
  | None => Err (Protocol (msg "buffer position overflow"))
  | Some end_ =>
      if blen buf <? end_ then Err (Protocol (msg "unexpected end of buffer skipping packet data"))
      else Ok (tt, end_)
  end.

Definition skip_part_uuids : parser unit :=
  let* v := parse_varint in
  let* count := lift (protocol (checked_count v (str "PartUUID") MAX_PART_UUIDS)) in
  let* len := lift (packet_len count 16) in
  packet_advance len.

Definition parse_u64_le : parser Z := let* bs := parse_bytes 8 in ret (from_le bs).

Definition skip_u64 : parser unit := parse_u64_le ;; ret tt.
Definition skip_string : parser unit := parse_string ;; ret tt.

Definition skip_merge_tree_part_info : parser unit :=
  skip_u64 ;; skip_string ;; skip_u64 ;; skip_u64 ;; skip_u64 ;; skip_u64 ;; skip_byte.

Definition skip_mark_ranges : parser unit :=
  let* v := parse_u64_le in
  let* count := lift (packet_usize v "parallel replica mark ranges") in
  let* len := lift (packet_len count 16) in
  packet_advance len.

Definition skip_part_ranges (version : Z) : parser unit :=
  skip_merge_tree_part_info ;; skip_mark_ranges ;; skip_varint ;;
  when (5 <=? version) skip_string ;; when (6 <=? version) skip_varint.

Definition skip_ranges_in_data_parts_description (version : Z) : parser unit :=
  let* v := parse_varint in
  let* count := lift (packet_usize v "parallel replica part ranges") in
  repeat_n (Z.to_nat count) (skip_part_ranges version).

Definition skip_parallel_read_announcement : parser unit :=
  let version := DBMS_PARALLEL_REPLICAS_PROTOCOL_VERSION in
  skip_u64 ;; skip_byte ;; skip_ranges_in_data_parts_description version ;; skip_u64 ;;
  when (4 <=? version) skip_u64 ;; when (5 <=? version) skip_varint ;;
  when (6 <=? version) skip_varint ;; when (7 <=? version) skip_string.

(** ** The packet loop *)

(** What a packet does to the walk: a block for the result, nothing, or the end. *)
Inductive packet_effect := Push (b : Block) | Nothing_ | Break.

Definition parse_packet (protocol_revision : Z) : parser packet_effect :=
  let* packet_type := parse_varint in
  match packet_type with
  | 1 => let* block := parse_block_shared in ret (Push block)
  | 2 =>
      let* (code, name, message) := parse_exception_chain in
      throw (ServerError code name message)
  | 3 => skip_progress protocol_revision ;; ret Nothing_
  | 4 => ret Nothing_
  | 5 => ret Break
  | 6 => skip_profile_info protocol_revision ;; ret Nothing_
  | 7 | 8 => parse_block_shared ;; ret Nothing_
  | 10 | 14 => parse_string ;; parse_block_body_shared ;; ret Nothing_
  | 11 => parse_string ;; parse_string ;; ret Nothing_
  | 12 => skip_part_uuids ;; ret Nothing_
  | 17 => parse_string ;; ret Nothing_
  | 15 => skip_parallel_read_announcement ;; ret Nothing_
  | 13 | 16 =>
      throw (Protocol (Msg "server requested distributed read task packet {packet_type}; use streaming query APIs so the client can respond"
                           [AZ packet_type]))
  | 18 => throw (Protocol (msg "unexpected SSHChallenge packet after handshake"))
  | other => throw (Protocol (Msg "unknown packet type: {other}" [AZ other]))
  end.

(** [while pos < buf.len()]: every packet has at least one byte. *)
Fixpoint response_loop (fuel : nat) (protocol_revision : Z) (buf : bytes) (blocks : list Block) (pos : Z)
  : result error (list Block) :=
  if blen buf <=? pos then Ok blocks
  else
    match fuel with
    | O => Err ModelFuel
    | S fuel =>
        let* (e, pos) := parse_packet protocol_revision buf pos in
        match e with
        | Push b => response_loop fuel protocol_revision buf (blocks ++ [b]) pos
        | Nothing_ => response_loop fuel protocol_revision buf blocks pos
        | Break => Ok blocks
        end
    end.

Definition parse_response_with_revision (arena : bytes) (protocol_revision : Z)
  : result error (list Block) :=
  response_loop (length arena) protocol_revision arena [] 0.

Definition parse_response (arena : bytes) (protocol_revision : Z) : result error (list Block) :=
  parse_response_with_revision arena protocol_revision.

(** ** What the server sends *)

Record ExceptionEntry := mkEntry { e_code : Z; e_name : bytes; e_message : bytes; e_stack : bytes }.

Record Progress := mkProgress {
  pr_rows : Z; pr_bytes : Z; pr_total_rows : Z;
  pr_written_rows : Z; pr_written_bytes : Z; pr_elapsed : Z; pr_total_bytes : Z;
}.

Record ProfileInfo := mkProfile {
  pi_rows : Z; pi_blocks : Z; pi_bytes : Z; pi_applied_limit : Init.Byte.byte; pi_rows_before_limit : Z;
  pi_calculated : Init.Byte.byte; pi_applied_aggregation : Init.Byte.byte; pi_rows_before_aggregation : Z;
}.

(** The packets of a query response, with the block packets by their code: totals,
    extremes, logs and profile events. *)
Inductive ServerMessage :=
| SData (table : bytes) (b : Block)
| SException (root : ExceptionEntry) (nested : list ExceptionEntry)
| SProgress (p : Progress)
| SPong
| SEndOfStream
| SProfileInfo (p : ProfileInfo)
| SBlock (code : Z) (table : bytes) (b : Block)
| STableColumns (table columns : bytes)
| SPartUUIDs (uuids : bytes)
| STimezoneUpdate (timezone : bytes).

(** One exception of a chain, with the flag that announces the next. *)
Definition write_entry (e : ExceptionEntry) (has_nested : Init.Byte.byte) : bytes :=
  i32_to_le (e_code e) ++ write_string_bytes (e_name e) ++ write_string_bytes (e_message e) ++
  write_string_bytes (e_stack e) ++ [has_nested].

Fixpoint write_chain (root : ExceptionEntry) (nested : list ExceptionEntry) : bytes :=
  match nested with
  | [] => write_entry root x00
  | e :: nested => write_entry root x01 ++ write_chain e nested
  end.

Definition since (min_revision revision : Z) (bs : bytes) : bytes :=
  if min_revision <=? revision then bs else [].

Definition write_progress (revision : Z) (p : Progress) : bytes :=
  write_varint (pr_rows p) ++ write_varint (pr_bytes p) ++ write_varint (pr_total_rows p) ++
  since DBMS_MIN_REVISION_WITH_CLIENT_WRITE_INFO revision
    (write_varint (pr_written_rows p) ++ write_varint (pr_written_bytes p)) ++
  since DBMS_MIN_PROTOCOL_VERSION_WITH_SERVER_QUERY_TIME_IN_PROGRESS revision (write_varint (pr_elapsed p)) ++
  since DBMS_MIN_PROTOCOL_VERSION_WITH_TOTAL_BYTES_IN_PROGRESS revision (write_varint (pr_total_bytes p)).

Definition write_profile_info (revision : Z) (p : ProfileInfo) : bytes :=
  write_varint (pi_rows p) ++ write_varint (pi_blocks p) ++ write_varint (pi_bytes p) ++
  [pi_applied_limit p] ++ write_varint (pi_rows_before_limit p) ++ [pi_calculated p] ++
  since DBMS_MIN_REVISION_WITH_ROWS_BEFORE_AGGREGATION revision
    ([pi_applied_aggregation p] ++ write_varint (pi_rows_before_aggregation p)).

Definition write_message (revision : Z) (m : ServerMessage) : bytes :=
  match m with
  | SData table b => write_varint 1 ++ write_string table ++ write_block b
  | SException root nested => write_varint 2 ++ write_chain root nested
  | SProgress p => write_varint 3 ++ write_progress revision p
  | SPong => write_varint 4
  | SEndOfStream => write_varint 5
  | SProfileInfo p => write_varint 6 ++ write_profile_info revision p
  | SBlock code table b => write_varint code ++ write_string table ++ write_block b
  | STableColumns table columns => write_varint 11 ++ write_string table ++ write_string columns
  | SPartUUIDs uuids => write_varint 12 ++ write_varint (blen uuids / 16) ++ uuids
  | STimezoneUpdate timezone => write_varint 17 ++ write_string timezone
  end.

Definition entry_part (e : ExceptionEntry) : bytes :=
  exception_part (e_code e) (from_utf8_lossy (e_name e)) (from_utf8_lossy (e_message e)).

(** What a chain of exceptions is reported as. *)
Definition chain_error (root : ExceptionEntry) (nested : list ExceptionEntry) : error :=
  ServerError (e_code root) (from_utf8_lossy (e_name root))
    (join_nested (map entry_part (root :: nested))).

(** What a response means: its data blocks up to the end of the stream, or the server's
    exception; [rest] says what becomes of the blocks when the packets stop before. *)
Fixpoint meaning_then (rest : list Block -> result error (list Block)) (ms : list ServerMessage) (blocks : list Block)
  : result error (list Block) :=
  match ms with
  | [] => rest blocks
  | SEndOfStream :: _ => Ok blocks
  | SData _ b :: ms => meaning_then rest ms (blocks ++ [b])
  | SException root nested :: _ => Err (chain_error root nested)
  | _ :: ms => meaning_then rest ms blocks
  end.

Definition meaning : list ServerMessage -> list Block -> result error (list Block) := meaning_then Ok.

(** The packets that end a response with an error: requests a buffered response cannot
    answer, a challenge, and codes the protocol does not have. *)
Definition refused (code : Z) : bool :=
  negb (existsb (Z.eqb code) [1; 2; 3; 4; 5; 6; 7; 8; 10; 11; 12; 14; 15; 17]).

Definition refusal (code : Z) : error :=
  if (code =? 13) || (code =? 16) then
    Protocol (Msg "server requested distributed read task packet {packet_type}; use streaming query APIs so the client can respond"
                  [AZ code])
  else if code =? 18 then Protocol (msg "unexpected SSHChallenge packet after handshake")
  else Protocol (Msg "unknown packet type: {other}" [AZ code]).

(** ** Parsing what was written

    [parses p w a]: wherever the bytes [w] stand in a buffer, [p] takes exactly them and
    returns [a]. *)
Definition parses {A} (p : parser A) (w : bytes) (a : A) : Prop :=
  forall pre suf, blen (pre ++ w ++ suf) <= ISIZE_MAX ->
  p (pre ++ w ++ suf) (blen pre) = Ok (a, blen (pre ++ w)).

Lemma parses_ret {A} (a : A) : parses (ret a) [] a.
Proof. intros pre suf _. now rewrite app_nil_r. Qed.

Lemma parses_lift {A} (r : result error A) a : r = Ok a -> parses (lift r) [] a.
Proof. intros -> pre suf _. now rewrite app_nil_r. Qed.

Lemma parses_bind {A B} (p : parser A) (f : A -> parser B) w1 w2 a b :
  parses p w1 a -> parses (f a) w2 b -> parses (bind p f) (w1 ++ w2) b.
Proof.
  intros Hp Hf pre suf Hs. rewrite <- app_assoc in *.
  rewrite (parser_bind_ok _ _ _ _ _ _ (Hp pre (w2 ++ suf) Hs)).
  rewrite (app_assoc pre), (app_assoc pre w1 w2). apply Hf. now rewrite <- app_assoc.
Qed.

Lemma parses_last {A B} (p : parser A) (f : A -> parser B) w a b :
  parses p w a -> parses (f a) [] b -> parses (bind p f) w b.
Proof. intros Hp Hf. rewrite <- (app_nil_r w). now apply (parses_bind _ _ _ _ a). Qed.

Lemma parses_first {A B} (p : parser A) (f : A -> parser B) w a b :
  parses p [] a -> parses (f a) w b -> parses (bind p f) w b.
Proof. intros Hp Hf. change w with ([] ++ w). now apply (parses_bind _ _ _ _ a). Qed.

Lemma parses_agrees {A} (p : parser A) (m : reader A) w a :
  agrees p m -> (forall rest, run m (w ++ rest) = Ok (a, rest)) -> parses p w a.
Proof.
  intros Hag Hrun pre suf Hs. pose proof (blen_nonneg pre). pose proof (blen_nonneg (w ++ suf)).
  destruct (agrees_ok p m (pre ++ w ++ suf) (blen pre) a suf Hag) as (pos' & E & Hpos & Hsuf); auto.
  - rewrite blen_app. lia.
  - now rewrite drop_app_exact.
  - rewrite E. repeat f_equal. apply (f_equal blen) in Hsuf.
    rewrite blen_drop, !blen_app in Hsuf by lia. rewrite blen_app. lia.
Qed.

Lemma parses_varint v : 0 <= v <= U64_MAX -> parses parse_varint (write_varint v) v.
Proof. intros Hv. apply (parses_agrees _ _ _ _ agrees_parse_varint). intros rest. now apply read_encode_varint. Qed.

Lemma parses_string_bytes s : blen s <= MAX_STRING_BYTES -> parses parse_string_bytes (write_string_bytes s) s.
Proof.
  intros Hs. apply (parses_agrees _ _ _ _ agrees_parse_string_bytes). intros rest. now apply read_write_string_bytes.
Qed.

Lemma parses_string s : wire_text s = true -> parses parse_string (write_string s) s.
Proof.
  intros Hs. apply wire_text_inv in Hs as [? ?].
  apply (parses_agrees _ _ _ _ agrees_parse_string). intros rest. now apply read_string_written.
Qed.

Lemma parses_bytes n bs : blen bs = n -> parses (parse_bytes n) bs bs.
Proof.
  intros Hn. pose proof (blen_nonneg bs). apply (parses_agrees _ _ _ _ (agrees_parse_bytes n ltac:(lia))).
  intros rest. now apply run_read_exact_app.
Qed.

Lemma parses_i32 z : - 2 ^ 31 <= z < 2 ^ 31 -> parses parse_i32 (i32_to_le z) z.
Proof.
  intros Hz. apply (parses_agrees _ _ _ _ agrees_parse_i32). intros rest. unfold async_read_i32.
  rewrite (run_bind_ok _ _ _ (i32_to_le z) rest) by (apply run_read_exact_app, blen_to_le).
  cbn. now rewrite i32_from_to_le.
Qed.

Lemma parses_block b : wf_block b = true -> parses parse_block_body_shared (write_block b) b.
Proof.
  intros Hwf pre suf Hs. pose proof (blen_nonneg pre). pose proof (blen_nonneg (write_block b ++ suf)).
  destruct (streamed_block_buffered (pre ++ write_block b ++ suf) (blen pre) b suf)
    as (pos' & _ & E & Hsuf & Hpos); auto.
  - rewrite blen_app. lia.
  - rewrite drop_app_exact. now apply read_block_written.
  - now apply wf_block_streamable.
  - rewrite E. repeat f_equal. apply (f_equal blen) in Hsuf.
    rewrite blen_drop, !blen_app in Hsuf by lia. rewrite blen_app. lia.
Qed.

Lemma parses_named_block t b :
  wire_text t = true -> wf_block b = true -> parses parse_block_shared (write_string t ++ write_block b) b.
Proof. intros Ht Hb. apply (parses_bind _ _ _ _ t); [now apply parses_string|now apply parses_block]. Qed.

(** *** Skipped fields *)

Definition u64 (v : Z) : Prop := 0 <= v <= U64_MAX.

Lemma parses_skip_varint v : u64 v -> parses skip_varint (write_varint v) tt.
Proof. intros Hv. apply (parses_last _ _ _ v); [now apply parses_varint|apply parses_ret]. Qed.

Lemma parses_skip_byte b : parses skip_byte [b] tt.
Proof. apply (parses_last _ _ _ [b]); [now apply parses_bytes|apply parses_ret]. Qed.

Lemma parses_then (p q : parser unit) w1 w2 :
  parses p w1 tt -> parses q w2 tt -> parses (p ;; q) (w1 ++ w2) tt.
Proof. intros Hp Hq. now apply (parses_bind p (fun _ => q) w1 w2 tt). Qed.

Lemma parses_since min rev p w : parses p w tt -> parses (when (min <=? rev) p) (since min rev w) tt.
Proof. intros Hp. unfold when, since. destruct (min <=? rev); [assumption|apply parses_ret]. Qed.

Create HintDb parses.
#[export] Hint Resolve parses_skip_varint parses_skip_byte parses_then parses_since parses_ret
  parses_string parses_block parses_named_block : parses.

Definition wf_progress (p : Progress) : Prop :=
  u64 (pr_rows p) /\ u64 (pr_bytes p) /\ u64 (pr_total_rows p) /\ u64 (pr_written_rows p) /\
  u64 (pr_written_bytes p) /\ u64 (pr_elapsed p) /\ u64 (pr_total_bytes p).

Lemma parses_progress rev p : wf_progress p -> parses (skip_progress rev) (write_progress rev p) tt.
Proof.
  intros (? & ? & ? & ? & ? & ? & ?). unfold skip_progress, write_progress. auto 12 with parses.
Qed.

Definition wf_profile (p : ProfileInfo) : Prop :=
  u64 (pi_rows p) /\ u64 (pi_blocks p) /\ u64 (pi_bytes p) /\ u64 (pi_rows_before_limit p) /\
  u64 (pi_rows_before_aggregation p).

Lemma parses_profile_info rev p : wf_profile p -> parses (skip_profile_info rev) (write_profile_info rev p) tt.
Proof.
  intros (? & ? & ? & ? & ?). unfold skip_profile_info, write_profile_info. auto 12 with parses.
Qed.

Lemma parses_part_uuids uuids :
  blen uuids mod 16 = 0 -> blen uuids <= 16 * MAX_PART_UUIDS ->
  parses skip_part_uuids (write_varint (blen uuids / 16) ++ uuids) tt.
Proof.
  intros Hmod Hmax. pose proof (blen_nonneg uuids). unfold MAX_PART_UUIDS in *.
  assert (blen uuids = 16 * (blen uuids / 16)) as Hdiv by (rewrite (Z.div_mod (blen uuids) 16) at 1; lia).
  apply (parses_bind _ _ _ _ (blen uuids / 16)); [apply parses_varint; unfold U64_MAX; lia|].
  apply (parses_first _ _ _ (blen uuids / 16)).
  { apply parses_lift. unfold protocol. rewrite checked_count_ok; unfold MAX_PART_UUIDS, U64_MAX; [reflexivity|lia..]. }
  apply (parses_first _ _ _ (blen uuids)).
  { apply parses_lift. unfold packet_len, checked_mul. replace (blen uuids / 16 * 16) with (blen uuids) by lia.
    destruct (Z.leb_spec (blen uuids) USIZE_MAX); [reflexivity|unfold USIZE_MAX in *; lia]. }
  intros pre suf Hs. unfold packet_advance, checked_add. rewrite !blen_app in *.
  pose proof (blen_nonneg suf). unfold ISIZE_MAX in Hs.
  destruct (Z.leb_spec (blen pre + blen uuids) USIZE_MAX); [|unfold USIZE_MAX in *; lia].
  now destruct (Z.ltb_spec (blen pre + (blen uuids + blen suf)) (blen pre + blen uuids)); [lia|].
Qed.

(** *** Exceptions *)

Definition wf_entry (e : ExceptionEntry) : Prop :=
  - 2 ^ 31 <= e_code e < 2 ^ 31 /\ blen (e_name e) <= MAX_STRING_BYTES /\
  blen (e_message e) <= MAX_STRING_BYTES /\ blen (e_stack e) <= MAX_STRING_BYTES.

(** [fails p w e]: wherever the bytes [w] stand in a buffer, [p] fails on them with [e]. *)
Definition fails {A} (p : parser A) (w : bytes) (e : error) : Prop :=
  forall pre suf, blen (pre ++ w ++ suf) <= ISIZE_MAX -> p (pre ++ w ++ suf) (blen pre) = Err e.

Lemma fails_bind {A B} (p : parser A) (f : A -> parser B) w1 w2 a e :
  parses p w1 a -> fails (f a) w2 e -> fails (bind p f) (w1 ++ w2) e.
Proof.
  intros Hp Hf pre suf Hs. rewrite <- app_assoc in *.
  rewrite (parser_bind_ok _ _ _ _ _ _ (Hp pre (w2 ++ suf) Hs)).
  rewrite (app_assoc pre). apply Hf. now rewrite <- app_assoc.
Qed.

Lemma fails_throw {A} (e : error) w : fails (A := A) (throw e) w e.
Proof. intros pre suf _. reflexivity. Qed.

(** The code and name reported for a chain: those of its first exception. *)
Definition root_of (rt : option (Z * bytes)) (e : ExceptionEntry) : Z * bytes :=
  match rt with Some r => r | None => (e_code e, from_utf8_lossy (e_name e)) end.

Lemma parses_chain nested : forall levels e parts rt,
  (length nested < levels)%nat -> Forall wf_entry (e :: nested) ->
  parses (exception_loop levels parts rt) (write_chain e nested)
    (root_of rt e, join_nested (parts ++ map entry_part (e :: nested))).
Proof.
  induction nested as [|e' nested IH]; intros [|levels] e parts rt Hl Hwf; try (cbn in Hl; lia);
    inversion Hwf as [|? ? (Hc & Hn & Hm & Hs) Hwf']; subst; cbn [exception_loop write_chain];
    unfold write_entry; rewrite <- ?app_assoc;
    (apply (parses_bind _ _ _ _ (e_code e)); [now apply parses_i32|]);
    (apply (parses_bind _ _ _ _ (e_name e)); [now apply parses_string_bytes|]);
    (apply (parses_bind _ _ _ _ (e_message e)); [now apply parses_string_bytes|]);
    (apply (parses_bind _ _ _ _ (e_stack e)); [now apply parses_string_bytes|]).
  - apply (parses_last _ _ _ [x00]); [now apply parses_bytes|].
    destruct rt as [[c n]|]; apply parses_ret.
  - apply (parses_bind _ _ _ _ [x01]); [now apply parses_bytes|]. cbn [length] in Hl.
    specialize (IH levels e' (parts ++ [entry_part e]) (Some (root_of rt e)) ltac:(lia) Hwf').
    rewrite <- app_assoc in IH. destruct rt; exact IH.
Qed.

Lemma fails_chain nested : forall levels e parts rt,
  (levels <= length nested)%nat -> Forall wf_entry (e :: nested) ->
  fails (exception_loop levels parts rt) (write_chain e nested)
    (Protocol (Msg "exception nesting too deep: more than {} levels" [AZ MAX_EXCEPTION_CHAIN_DEPTH])).
Proof.
  induction nested as [|e' nested IH]; intros [|levels] e parts rt Hl Hwf; try apply fails_throw;
    [cbn in Hl; lia|].
  inversion Hwf as [|? ? (Hc & Hn & Hm & Hs) Hwf']; subst; cbn [exception_loop write_chain].
  unfold write_entry; rewrite <- ?app_assoc.
  apply (fails_bind _ _ _ _ (e_code e)); [now apply parses_i32|].
  apply (fails_bind _ _ _ _ (e_name e)); [now apply parses_string_bytes|].
  apply (fails_bind _ _ _ _ (e_message e)); [now apply parses_string_bytes|].
  apply (fails_bind _ _ _ _ (e_stack e)); [now apply parses_string_bytes|].
  apply (fails_bind _ _ _ _ [x01]); [now apply parses_bytes|]. apply IH; [cbn in Hl; lia|assumption].
Qed.

(** An exception packet is reported as the code and name of its first exception with
    the texts of the whole chain, for every chain a server can send up to the depth
    limit; a deeper chain is the protocol error that names the limit. *)
Theorem exception_chain_reported (root : ExceptionEntry) (nested : list ExceptionEntry) (pre suf : bytes) :
  Forall wf_entry (root :: nested) -> blen (pre ++ write_chain root nested ++ suf) <= ISIZE_MAX ->
  parse_exception_chain (pre ++ write_chain root nested ++ suf) (blen pre) =
  if blen (root :: nested) <=? MAX_EXCEPTION_CHAIN_DEPTH
  then Ok ((e_code root, from_utf8_lossy (e_name root), join_nested (map entry_part (root :: nested))),
           blen (pre ++ write_chain root nested))
  else Err (Protocol (Msg "exception nesting too deep: more than {} levels" [AZ MAX_EXCEPTION_CHAIN_DEPTH])).
Proof.
  intros Hwf Hs. rewrite blen_cons. unfold parse_exception_chain.
  destruct (Z.leb_spec (1 + blen nested) MAX_EXCEPTION_CHAIN_DEPTH) as [Hle|Hgt];
    unfold blen in *; unfold MAX_EXCEPTION_CHAIN_DEPTH in *.
  - apply (parses_chain nested _ root [] None); auto. lia.
  - apply (fails_chain nested _ root [] None); auto. lia.
Qed.

Lemma exception_chain_reported_witness :
  exists pos, parse_exception_chain
    (write_chain (mkEntry 60 (str "DB::Exception") (str "Table is missing") [])
                 [mkEntry (-3) [xff] (str "cause") (str "stack")]) 0
  = Ok (60, str "DB::Exception",
        str "DB::Exception (code 60): Table is missing | nested: " ++ replacement ++ str " (code -3): cause", pos).
Proof.
  eexists.
  rewrite <- (app_nil_r (write_chain _ _)).
  refine (exception_chain_reported (mkEntry 60 (str "DB::Exception") (str "Table is missing") [])
            [mkEntry (-3) [xff] (str "cause") (str "stack")] [] [] _ _).
  - repeat constructor; discriminate.
  - discriminate.
Defined.

(** ** Whole responses *)

Definition wf_message (m : ServerMessage) : Prop :=
  match m with
  | SData t b => wire_text t = true /\ wf_block b = true
  | SException root nested =>
      Forall wf_entry (root :: nested) /\ blen (root :: nested) <= MAX_EXCEPTION_CHAIN_DEPTH
  | SProgress p => wf_progress p
  | SPong | SEndOfStream => True
  | SProfileInfo p => wf_profile p
  | SBlock code t b => In code [7; 8; 10; 14] /\ wire_text t = true /\ wf_block b = true
  | STableColumns t c => wire_text t = true /\ wire_text c = true
  | SPartUUIDs uuids => blen uuids mod 16 = 0 /\ blen uuids <= 16 * MAX_PART_UUIDS
  | STimezoneUpdate tz => wire_text tz = true
  end.

(** What one packet does. *)
Definition message_effect (m : ServerMessage) : result error packet_effect :=
  match m with
  | SData _ b => Ok (Push b)
  | SException root nested => Err (chain_error root nested)
  | SEndOfStream => Ok Break
  | _ => Ok Nothing_
  end.

Lemma parse_packet_message rev m :
  wf_message m ->
  match message_effect m with
  | Ok e => parses (parse_packet rev) (write_message rev m) e
  | Err e => fails (parse_packet rev) (write_message rev m) e
  end.
Proof.
  intros Hwf. destruct m; cbn [message_effect write_message wf_message] in *; unfold parse_packet.
  - apply (parses_bind _ _ _ _ 1); [now apply parses_varint|]. destruct Hwf.
    apply (parses_last _ _ _ b); auto with parses.
  - apply (fails_bind _ _ _ _ 2); [now apply parses_varint|]. destruct Hwf as [Hwf Hd].
    rewrite <- (app_nil_r (write_chain root nested)).
    apply (fails_bind _ _ _ _ (e_code root, from_utf8_lossy (e_name root), join_nested (map entry_part (root :: nested))));
      [|apply fails_throw].
    apply (parses_chain nested _ root [] None); auto. unfold blen, MAX_EXCEPTION_CHAIN_DEPTH in *. cbn in Hd. lia.
  - apply (parses_bind _ _ _ _ 3); [now apply parses_varint|].
    apply (parses_last _ _ _ tt); [now apply parses_progress|auto with parses].
  - apply (parses_last _ _ _ 4); [now apply parses_varint|auto with parses].
  - apply (parses_last _ _ _ 5); [now apply parses_varint|auto with parses].
  - apply (parses_bind _ _ _ _ 6); [now apply parses_varint|].
    apply (parses_last _ _ _ tt); [now apply parses_profile_info|auto with parses].
  - destruct Hwf as (Hcode & Ht & Hb).
    apply (parses_bind _ _ _ _ code);
      [apply parses_varint; cbn in Hcode; unfold U64_MAX; lia|].
    destruct Hcode as [<-|[<-|[<-|[<-|[]]]]];
      try (apply (parses_last _ _ _ b); auto with parses; fail);
      (apply (parses_bind _ _ _ _ table); [now apply parses_string|]);
      (apply (parses_last _ _ _ b); auto with parses).
  - destruct Hwf. apply (parses_bind _ _ _ _ 11); [now apply parses_varint|].
    apply (parses_bind _ _ _ _ table); [now apply parses_string|].
    apply (parses_last _ _ _ columns); auto with parses.
  - destruct Hwf. apply (parses_bind _ _ _ _ 12); [now apply parses_varint|].
    apply (parses_last _ _ _ tt); [now apply parses_part_uuids|auto with parses].
  - apply (parses_bind _ _ _ _ 17); [now apply parses_varint|].
    apply (parses_last _ _ _ timezone); auto with parses.
Qed.

Lemma write_message_nonempty rev m : exists b l, write_message rev m = b :: l.
Proof. destruct m; cbn [write_message]; unfold write_varint, encode_varint; cbn; eauto. Qed.

Lemma response_loop_messages rev tail R ms :
  (forall fuel pre blocks, blen (pre ++ tail) <= ISIZE_MAX -> (length tail <= fuel)%nat ->
     response_loop fuel rev (pre ++ tail) blocks (blen pre) = R blocks) ->
  forall fuel pre blocks,
  Forall wf_message ms ->
  blen (pre ++ concat (map (write_message rev) ms) ++ tail) <= ISIZE_MAX ->
  (length (concat (map (write_message rev) ms) ++ tail) <= fuel)%nat ->
  response_loop fuel rev (pre ++ concat (map (write_message rev) ms) ++ tail) blocks (blen pre) = meaning_then R ms blocks.
Proof.
  intros Htail. induction ms as [|m ms IH]; intros fuel pre blocks Hwf Hs Hf; cbn [map concat] in *; [now apply Htail|].
  inversion Hwf as [|? ? Hm Hwf']; subst. pose proof (parse_packet_message rev m Hm) as Hp.
  destruct (write_message_nonempty rev m) as (b & l & Hbl). rewrite <- app_assoc in *.
  set (w := write_message rev m) in *. set (ws := concat (map (write_message rev) ms) ++ tail) in *.
  assert (1 <= blen w) by (rewrite Hbl, blen_cons; pose proof (blen_nonneg l); lia).
  rewrite length_app in Hf. destruct fuel as [|fuel]; [unfold blen in *; lia|]. cbn [response_loop].
  destruct (Z.leb_spec (blen (pre ++ w ++ ws)) (blen pre)) as [Hle|_].
  { rewrite !blen_app in Hle. pose proof (blen_nonneg ws). lia. }
  assert (forall blocks', response_loop fuel rev (pre ++ w ++ ws) blocks' (blen (pre ++ w)) = meaning_then R ms blocks') as Hnext.
  { intros blocks'. rewrite app_assoc in *. apply IH; auto. unfold blen in *. lia. }
  destruct (message_effect m) as [e|e] eqn:He.
  - rewrite (Hp pre ws Hs). cbn [bind result_monad].
    destruct m; cbn in He; inj; cbn [meaning_then]; auto; discriminate.
  - rewrite (Hp pre ws Hs). destruct m; try discriminate He. injection He as <-. reflexivity.
Qed.

Lemma parse_packet_refused rev code : refused code = true -> 0 <= code <= U64_MAX -> fails (parse_packet rev) (write_varint code) (refusal code).
Proof.
  intros Hr Hc. rewrite <- (app_nil_r (write_varint code)). unfold parse_packet.
  apply (fails_bind _ _ _ _ code); [apply parses_varint; exact Hc|].
  destruct code as [|p|p]; [apply fails_throw| |lia].
  do 5 (destruct p as [p|p|]; try (apply fails_throw); try discriminate Hr).
Qed.

Lemma response_loop_refused rev code suffix fuel pre blocks :
  refused code = true -> 0 <= code <= U64_MAX ->
  blen (pre ++ write_varint code ++ suffix) <= ISIZE_MAX -> (length (write_varint code ++ suffix) <= fuel)%nat ->
  response_loop fuel rev (pre ++ write_varint code ++ suffix) blocks (blen pre) = Err (refusal code).
Proof.
  intros Hr Hc Hs Hf. assert (exists b l, write_varint code = b :: l) as (b & l & Hbl)
    by (unfold write_varint, encode_varint; cbn; destruct (code <? 128); eauto).
  assert (1 <= blen (write_varint code)) as Hw by (rewrite Hbl, blen_cons; pose proof (blen_nonneg l); lia).
  rewrite length_app in Hf. destruct fuel as [|fuel]; [unfold blen in *; lia|]. cbn [response_loop].
  destruct (Z.leb_spec (blen (pre ++ write_varint code ++ suffix)) (blen pre)) as [Hle|_].
  { rewrite !blen_app in Hle. pose proof (blen_nonneg suffix). lia. }
  now rewrite (parse_packet_refused rev code Hr Hc pre suffix Hs).
Qed.

(** C32: the packet walk never loses its place.  For every sequence of well-formed Data,
    Exception, Progress, Pong, EndOfStream, ProfileInfo, Totals, Extremes, Log,
    ProfileEvents, TableColumns, PartUUIDs and TimezoneUpdate packets, whose blocks have
    columns stored as they are sent (no LowCardinality, JSON or Dynamic), at every protocol
    revision, parsing their bytes gives what the packets mean: the data blocks in order, up
    to the end of the stream, or the first exception.  If the packets do not end the
    response and a read-task request, an SSH challenge or an unknown packet follows, the
    result is the protocol error for it. *)
Theorem parse_response_correct (revision : Z) (ms : list ServerMessage) :
  Forall wf_message ms ->
  (blen (concat (map (write_message revision) ms)) <= ISIZE_MAX ->
   parse_response (concat (map (write_message revision) ms)) revision = meaning ms []) /\
  (forall code suffix, refused code = true -> 0 <= code <= U64_MAX ->
   blen (concat (map (write_message revision) ms) ++ write_varint code ++ suffix) <= ISIZE_MAX ->
   parse_response (concat (map (write_message revision) ms) ++ write_varint code ++ suffix) revision =
   meaning_then (fun _ => Err (refusal code)) ms []).
Proof.
  intros Hwf. split.
  - intros Hs. unfold parse_response, parse_response_with_revision. rewrite <- (app_nil_r (concat _)) in *.
    apply (response_loop_messages revision [] Ok ms) with (pre := []); auto. intros fuel pre blocks _ _. rewrite app_nil_r.
    destruct fuel; cbn; destruct (Z.leb_spec (blen pre) (blen pre)); auto; lia.
  - intros code suffix Hr Hc Hs. apply (response_loop_messages revision _ _ ms) with (pre := []); auto.
    intros. now apply response_loop_refused.
Qed.

Lemma parse_response_correct_witness :
  let ms := [SProgress (mkProgress 1 2 3 4 5 6 7); SData [] written_sample; STimezoneUpdate (str "UTC");
             SBlock 14 (str "t") written_sample] in
  parse_response (concat (map (write_message 54460) ms)) 54460 = Ok [written_sample] /\
  parse_response (concat (map (write_message 54460) ms) ++ write_varint 13 ++ []) 54460 = Err (refusal 13).
Proof.
  cbv zeta. destruct (parse_response_correct 54460
    [SProgress (mkProgress 1 2 3 4 5 6 7); SData [] written_sample; STimezoneUpdate (str "UTC");
     SBlock 14 (str "t") written_sample]) as [H1 H2].
  - repeat (apply Forall_cons; [|]); try apply Forall_nil; cbn [wf_message]; conj; auto;
      try reflexivity; try (repeat split; discriminate); cbn; tauto.
  - split; [apply H1; discriminate|apply H2; [reflexivity|split; discriminate|discriminate]].
Defined.

(** ** Termination of the packet loop *)

Lemma advances_parse_string : advances parse_string.
Proof.
  apply parse_varint_bind_advances. intros v Hv. apply lift_bind_advances. intros len Hlen.
  apply wire_checked_string_len_inv in Hlen as [-> _]. intros buf pos a pos' Hpos. unfold parse_utf8_slice.
  destruct (checked_add pos v) as [e|] eqn:E; [|discriminate]. apply checked_add_inv in E as [-> _].
  destruct (Z.ltb_spec (blen buf) (pos + v)); [discriminate|]. destruct (utf8_valid _); [|discriminate].
  intros. inj. lia.
Qed.
#[export] Hint Resolve advances_parse_string : advances.

Lemma advances_skip_block_info : advances skip_block_info.
Proof.
  enough (forall fuel, advances (skip_block_info_fuel fuel)) as Hf by (intros buf; apply (Hf (S (length buf)) buf)).
  induction fuel as [|fuel IH]; [apply advances_throw|]. cbn [skip_block_info_fuel].
  pose proof (advances_advance_pos 1 ltac:(lia)). pose proof (advances_advance_pos 4 ltac:(lia)). advances.
Qed.

Lemma advances_column_data_start start ct n : advances (column_data_start start ct n).
Proof.
  intros buf pos a pos' Hpos. unfold column_data_start.
  destruct (materialized_column_data_start _ _ _ _); intros; inj; lia.
Qed.

Lemma advances_lc_from_buffer inner n :
  wf_type inner = true -> 0 <= n -> advances (read_low_cardinality_from_buffer inner n).
Proof.
  intros Hwf Hn. unfold read_low_cardinality_from_buffer. apply advances_if; [apply advances_ret|].
  apply advances_bind; [advances|]. intros meta. apply lift_bind_advances. intros [w k] Hh.
  apply lc_header_inv in Hh as [Hw Hk]. apply advances_bind; [advances|]. intros d1.
  apply advances_bind; [now apply advances_skip_column_data|]. intros _.
  apply advances_bind; [advances|]. intros d2. apply advances_bind; [advances|]. intros dict.
  apply advances_bind; [advances|]. intros count. apply lift_bind_advances. intros i Hi.
  apply lc_index_count_inv in Hi as ->. apply lift_bind_advances. intros len Hlen.
  pose proof (proj1 (column_len_checked _ _ _ _) Hlen) as Hlen'. apply checked_len_inv in Hlen' as [-> _].
  apply advances_bind; [apply advances_parse_bytes; nia|]. intros idx. apply advances_lift.
Qed.

Lemma advances_parse_column_bytes ct n :
  wf_type ct = true -> 0 <= n -> advances (parse_column_bytes ct n).
Proof.
  intros Hwf Hn. pose proof (advances_skip_column_data ct Hwf n Hn). pose proof advances_column_data_start.
  unfold parse_column_bytes. destruct ct; try (now apply advances_lc_from_buffer); advances.
Qed.

Lemma advances_parse_column n : 0 <= n -> advances (parse_column parse_column_type n).
Proof.
  intros Hn. unfold parse_column. do 3 (apply advances_bind; [advances|intros ?]).
  apply lift_bind_advances. intros ct Hct. rewrite parse_column_type_checked in Hct.
  apply map_err_inv, parse_type_wf in Hct. apply advances_bind; [now apply advances_parse_column_bytes|advances].
Qed.

Lemma advances_parse_block_counts : advances parse_block_counts.
Proof. pose proof advances_skip_block_info. unfold parse_block_counts. advances. Qed.

Lemma advances_parse_block_body : advances parse_block_body_shared.
Proof.
  intros buf pos b pos' Hpos H. unfold parse_block_body_shared in H. rewrite parse_block_body_counts in H.
  apply parser_bind_inv in H as ([c r] & p1 & H1 & H). pose proof (parse_block_counts_nonneg _ _ _ _ _ H1) as [_ Hr].
  apply advances_parse_block_counts in H1; [|assumption].
  enough (p1 <= pos' <= blen buf) by lia. revert H. apply advances_bind; [|advances|lia].
  now apply advances_collect_n, advances_parse_column.
Qed.
#[export] Hint Resolve advances_parse_block_body : advances.

Lemma advances_parse_block : advances parse_block_shared.
Proof. unfold parse_block_shared. advances. Qed.

Lemma advances_parse_i32 : advances parse_i32.
Proof.
  intros buf pos a pos' Hpos. unfold parse_i32.
  destruct (checked_add pos 4) as [e|] eqn:E; [|discriminate]. apply checked_add_inv in E as [-> _].
  destruct (Z.ltb_spec (blen buf) (pos + 4)); [discriminate|]. intros. inj. lia.
Qed.

Lemma advances_packet_advance n : 0 <= n -> advances (packet_advance n).
Proof.
  intros Hn buf pos a pos' Hpos. unfold packet_advance.
  destruct (checked_add pos n) as [e|] eqn:E; [|discriminate]. apply checked_add_inv in E as [-> _].
  destruct (Z.ltb_spec (blen buf) (pos + n)); [discriminate|]. intros. inj. lia.
Qed.
#[export] Hint Resolve advances_parse_block advances_parse_i32 : advances.

Lemma advances_exception_loop levels : forall parts rt, advances (exception_loop levels parts rt).
Proof.
  induction levels as [|levels IH]; intros parts rt; [apply advances_throw|]. cbn [exception_loop]. advances.
Qed.

(** A skipped list of 16-byte items. *)
Lemma advances_items count : 0 <= count -> advances (let* len := lift (packet_len count 16) in packet_advance len).
Proof.
  intros Hc. apply lift_bind_advances. intros len Hlen. apply ok_or_inv, checked_mul_inv in Hlen as [-> _].
  apply advances_packet_advance. lia.
Qed.

Lemma advances_part_uuids : advances skip_part_uuids.
Proof.
  apply parse_varint_bind_advances. intros v Hv. apply lift_bind_advances. intros c Hc.
  apply map_err_inv, checked_count_inv in Hc as [-> _]; [|split; discriminate]. now apply advances_items.
Qed.

Lemma usize_try_from_inv v n : usize_try_from v = Some n -> n = v.
Proof. unfold usize_try_from, try_from_max. destruct (v <=? USIZE_MAX); intros; [now inj|discriminate]. Qed.

Lemma advances_mark_ranges : advances skip_mark_ranges.
Proof.
  unfold skip_mark_ranges, parse_u64_le. intros buf pos a pos' Hpos H.
  apply parser_bind_inv in H as (v & p1 & H1 & H). apply parser_bind_inv in H1 as (bs & p2 & H1 & H2).
  cbn in H2. inj. apply advances_parse_bytes in H1; [|lia|assumption].
  apply parser_bind_inv in H as (c & p3 & H2 & H). apply parser_lift_inv in H2 as [H2 ->].
  apply ok_or_inv, usize_try_from_inv in H2 as ->. pose proof (from_le_bound bs).
  apply advances_items in H; lia.
Qed.

Lemma advances_announcement : advances skip_parallel_read_announcement.
Proof.
  pose proof advances_mark_ranges.
  unfold skip_parallel_read_announcement, skip_ranges_in_data_parts_description, skip_part_ranges,
    skip_merge_tree_part_info, when, skip_u64, parse_u64_le, skip_string, skip_varint, skip_byte. advances.
Qed.

Lemma parse_packet_progress rev buf pos e pos' :
  0 <= pos <= blen buf -> parse_packet rev buf pos = Ok (e, pos') -> pos < pos' <= blen buf.
Proof.
  intros Hpos H. unfold parse_packet in H. apply parser_bind_inv in H as (t & p1 & H1 & H).
  apply parse_varint_progress in H1; [|assumption].
  enough (p1 <= pos' <= blen buf) by lia. revert H.
  pose proof advances_part_uuids. pose proof advances_announcement.
  pose proof (advances_exception_loop (Z.to_nat MAX_EXCEPTION_CHAIN_DEPTH) [] None).
  enough (forall q : parser packet_effect, advances q -> q buf p1 = Ok (e, pos') -> p1 <= pos' <= blen buf) as Hq.
  { apply Hq. unfold parse_exception_chain, skip_progress, skip_profile_info, when, skip_varint, skip_byte.
    repeat match goal with |- advances (match ?x with _ => _ end) => destruct x end; advances. }
  intros q Ha. apply Ha. lia.
Qed.
