(* ===== verification/Totality.v ===== *)
(** * Parsing a response always ends

    The loops of the buffered parsers are given fuel: the length of the buffer, the number of
    its eight-byte words, or a constant.  [answers buf lo p] says that [p], started at [lo] or
    behind it, does not run out of it.  It is shown for the parsers of every column type, of
    blocks and of every packet, and so for the packet loop: parsing a response gives blocks or
    an error of the code, whatever the bytes are. *)

From Stdlib Require Import String ZArith Lia Bool List.
From Stdlib Require Import Strings.Byte.
From coqutil Require Import Byte.
From S2P Require Import Prelude Revision Reader Limits Utf8 Wire TypeParser SkipColumn Arena ColumnReader Framing BlockReader BlockWriter Response.
Import ListNotations.

(** ** Results *)

Definition in_fuel {A} (r : result error A) : Prop := r <> Err ModelFuel.

Lemma in_fuel_bind {A B} (r : result error A) (f : A -> result error B) :
  in_fuel r -> (forall a, r = Ok a -> in_fuel (f a)) -> in_fuel (bind r f).
Proof. unfold in_fuel. destruct r; cbn; [auto|congruence]. Qed.

Lemma in_fuel_protocol {A} (r : result message A) : in_fuel (protocol r).
Proof. unfold in_fuel. destruct r; cbn; discriminate. Qed.

Lemma in_fuel_map_err {E A} (f : E -> message) (r : result E A) : in_fuel (map_err (fun e => Protocol (f e)) r).
Proof. unfold in_fuel. destruct r; cbn; discriminate. Qed.

Lemma in_fuel_ok_or {A} (o : option A) m : in_fuel (ok_or o (Protocol m)).
Proof. unfold in_fuel. destruct o; cbn; discriminate. Qed.

Lemma in_fuel_ok {A} (a : A) : in_fuel (Ok a).
Proof. discriminate. Qed.

Lemma in_fuel_err {A} m : in_fuel (A := A) (Err (Protocol m)).
Proof. discriminate. Qed.

Lemma in_fuel_map_each {A B} (l : list A) (f : A -> result error B) :
  (forall a, in_fuel (f a)) -> in_fuel (map_each l f).
Proof.
  intros Hf. induction l as [|a l IH]; [apply in_fuel_ok|]. rewrite map_each_cons.
  apply in_fuel_bind; [apply Hf|]. intros b _. apply in_fuel_bind; [exact IH|]. intros bs _. apply in_fuel_ok.
Qed.

Create HintDb in_fuel discriminated.
#[export] Hint Resolve in_fuel_protocol in_fuel_map_err in_fuel_ok_or in_fuel_ok in_fuel_err : in_fuel.

(** Follow the structure of a result. *)
Ltac in_fuel :=
  intros; cbv zeta;
  repeat first
    [ solve [auto with in_fuel]
    | apply in_fuel_bind; intros
    | apply in_fuel_map_each; intros
    | lazymatch goal with |- in_fuel (match ?x with _ => _ end) => destruct x end ].

Lemma in_fuel_lc_header meta : in_fuel (lc_header meta).
Proof. unfold lc_header, lc_idx_width. in_fuel. Qed.

Lemma in_fuel_lc_index_count c rows : in_fuel (lc_index_count c rows).
Proof. unfold lc_index_count, checked_usize. in_fuel. Qed.

Lemma in_fuel_dynamic_counts {A} (decode : A -> result error Z) null what items :
  (forall a, in_fuel (decode a)) -> forall counts, in_fuel (dynamic_counts decode null what counts items).
Proof. intros Hd. induction items as [|a items IH]; intros counts; cbn [dynamic_counts]; in_fuel. Qed.

Lemma in_fuel_discriminator bs : in_fuel (decode_dynamic_discriminator bs).
Proof. unfold decode_dynamic_discriminator, skip_checked_usize. in_fuel. Qed.

Lemma in_fuel_checked_len rows width : in_fuel (checked_len rows width).
Proof. apply in_fuel_protocol. Qed.

Lemma in_fuel_column_len rows width what : in_fuel (column_len rows width what).
Proof. apply in_fuel_protocol. Qed.

#[export] Hint Resolve in_fuel_checked_len in_fuel_column_len in_fuel_lc_header in_fuel_lc_index_count in_fuel_dynamic_counts in_fuel_discriminator : in_fuel.

(** ** Parsers *)

Definition answers {A} (buf : bytes) (lo : Z) (p : parser A) : Prop :=
  forall pos, lo <= pos <= blen buf -> in_fuel (p buf pos).

Section Answers.
Variables (buf : bytes) (lo : Z).
Hypothesis lo_nonneg : 0 <= lo.

Lemma answers_ret {A} (a : A) : answers buf lo (ret a).
Proof. intros pos _. discriminate. Qed.

Lemma answers_throw {A} m : answers buf lo (throw (Protocol m) : parser A).
Proof. intros pos _. discriminate. Qed.

Lemma answers_throw_server {A} code name m : answers buf lo (throw (ServerError code name m) : parser A).
Proof. intros pos _. discriminate. Qed.

Lemma answers_lift {A} (r : result error A) : in_fuel r -> answers buf lo (lift r).
Proof. intros Hr pos _. destruct r; [discriminate|]. intros E. apply Hr. cbn in E. congruence. Qed.

(** The rule for [bind], with what is known of the value. *)
Lemma answers_bind_if {A B} (P : A -> Prop) (p : parser A) (f : A -> parser B) :
  advances p -> answers buf lo p -> (forall pos a pos', p buf pos = Ok (a, pos') -> P a) ->
  (forall a, P a -> answers buf lo (f a)) -> answers buf lo (bind p f).
Proof.
  intros Ha Hp HP Hf pos Hpos. specialize (Hp pos Hpos). unfold in_fuel in *. cbn.
  destruct (p buf pos) as [[a pos']|e] eqn:E; [|congruence].
  apply (Hf a (HP _ _ _ E)). apply Ha in E; lia.
Qed.

Lemma answers_bind {A B} (p : parser A) (f : A -> parser B) :
  advances p -> answers buf lo p -> (forall a, answers buf lo (f a)) -> answers buf lo (bind p f).
Proof. intros Ha Hp Hf. apply (answers_bind_if (fun _ => True)); auto. Qed.

Lemma answers_lift_bind {A B} (r : result error A) (f : A -> parser B) :
  in_fuel r -> (forall a, r = Ok a -> answers buf lo (f a)) -> answers buf lo (let* a := lift r in f a).
Proof.
  intros Hr Hf. apply (answers_bind_if (fun a => r = Ok a)); auto using advances_lift, answers_lift.
  intros pos a pos' E. now apply parser_lift_inv in E as [E _].
Qed.

Lemma answers_repeat_n n (p : parser unit) : advances p -> answers buf lo p -> answers buf lo (repeat_n n p).
Proof. intros Ha Hp. induction n as [|n IH]; [apply answers_ret|]. now apply answers_bind. Qed.

Lemma answers_collect_n {A} n (p : parser A) : advances p -> answers buf lo p -> answers buf lo (collect_n n p).
Proof.
  intros Ha Hp. induction n as [|n IH]; [apply answers_ret|]. apply answers_bind; auto. intros a.
  apply answers_bind; auto using advances_collect_n. intros l. apply answers_ret.
Qed.

Lemma answers_for_each {A} (l : list A) (f : A -> parser unit) :
  Forall (fun a => advances (f a) /\ answers buf lo (f a)) l -> answers buf lo (for_each l f).
Proof.
  induction 1 as [|a l [Ha Hp] Hl IH]; [apply answers_ret|]. rewrite for_each_cons. now apply answers_bind.
Qed.

Lemma answers_map_each {A B} (l : list A) (f : A -> parser B) :
  Forall (fun a => advances (f a) /\ answers buf lo (f a)) l -> answers buf lo (map_each l f).
Proof.
  induction 1 as [|a l [Ha Hp] Hl IH]; [apply answers_ret|]. rewrite map_each_cons. apply answers_bind; auto.
  intros b. apply answers_bind; auto; [|intros; apply answers_ret].
  apply advances_map_each. eapply Forall_impl; [|exact Hl]. now intros ? [? _].
Qed.

Lemma answers_if {A} (b : bool) (p q : parser A) :
  answers buf lo p -> answers buf lo q -> answers buf lo (if b then p else q).
Proof. now destruct b. Qed.
End Answers.

Lemma answers_get_pos buf lo : answers buf lo get_pos.
Proof. intros pos _. discriminate. Qed.

Lemma answers_get_slice buf lo a b : answers buf lo (get_slice a b).
Proof. intros pos _. discriminate. Qed.

Create HintDb answers discriminated.
#[export] Hint Resolve answers_ret answers_throw answers_throw_server answers_get_pos answers_get_slice : answers.
#[export] Hint Extern 2 (answers _ _ (lift _)) => apply answers_lift; in_fuel : answers.
#[export] Hint Extern 1 (0 <= _) => assumption : answers.

(** Follow the structure of a parser. *)
Ltac answers :=
  intros; cbv zeta;
  repeat first
    [ solve [auto with answers]
    | lazymatch goal with |- answers _ _ (bind (lift _) _) => apply answers_lift_bind; [assumption|solve [in_fuel]|intros] end
    | apply answers_bind; [assumption|solve [advances]| |intros]
    | apply answers_if
    | apply answers_repeat_n; [assumption|solve [advances]|]
    | apply answers_collect_n; [assumption|solve [advances]|]
    | lazymatch goal with |- answers _ _ (match ?x with _ => _ end) => destruct x end ].

(** ** Leaves *)

(** The eleventh test of [shift] refuses. *)
Lemma varint_loop_answers buf lo fuel : forall r shift,
  shift <= 70 -> 77 <= shift + 7 * Z.of_nat fuel -> answers buf lo (parse_varint_loop fuel r shift).
Proof.
  induction fuel as [|fuel IH]; intros r shift Hs Hf pos Hpos; [lia|]. cbn [parse_varint_loop].
  destruct (Z.leb_spec (blen buf) pos); [discriminate|]. destruct (Z.ltb_spec 63 shift); [discriminate|].
  destruct (_ && _); [discriminate|]. destruct (_ =? 0); [discriminate|]. apply IH; lia.
Qed.

Lemma answers_parse_varint buf lo : answers buf lo parse_varint.
Proof. apply varint_loop_answers; lia. Qed.

Lemma answers_parse_bytes buf lo n : answers buf lo (parse_bytes n).
Proof.
  intros pos _. unfold parse_bytes. destruct (checked_add pos n); [|discriminate]. now destruct (_ <? _).
Qed.

Lemma answers_advance_pos buf lo n : answers buf lo (advance_pos n).
Proof.
  intros pos _. unfold advance_pos. destruct (checked_add pos n); [|discriminate]. now destruct (_ <? _).
Qed.

Lemma answers_packet_advance buf lo n : answers buf lo (packet_advance n).
Proof.
  intros pos _. unfold packet_advance. destruct (checked_add pos n); [|discriminate]. now destruct (_ <? _).
Qed.

Lemma answers_parse_i32 buf lo : answers buf lo parse_i32.
Proof.
  intros pos _. unfold parse_i32. destruct (checked_add pos 4); [|discriminate]. now destruct (_ <? _).
Qed.

Lemma answers_utf8_slice buf lo n : answers buf lo (parse_utf8_slice n).
Proof.
  intros pos _. unfold parse_utf8_slice. destruct (checked_add pos n); [|discriminate].
  destruct (_ <? _); [discriminate|]. now destruct (utf8_valid _).
Qed.

Lemma answers_skip_offset_bytes buf lo n name : answers buf lo (skip_offset_bytes n name).
Proof.
  intros pos _. unfold skip_offset_bytes. destruct (checked_add pos n); [|discriminate].
  destruct (_ <? _); [discriminate|]. in_fuel.
Qed.

#[export] Hint Resolve answers_parse_varint answers_parse_bytes answers_advance_pos answers_packet_advance
  answers_parse_i32 answers_utf8_slice answers_skip_offset_bytes : answers.

Section Columns.
Variables (buf : bytes) (lo : Z).
Hypothesis lo_nonneg : 0 <= lo.

Lemma in_fuel_wire_len v : in_fuel (wire_checked_string_len v).
Proof. unfold wire_checked_string_len. in_fuel. Qed.

Lemma in_fuel_from_utf8 what s : in_fuel (from_utf8 what s).
Proof. unfold from_utf8. in_fuel. Qed.
#[local] Hint Resolve in_fuel_wire_len in_fuel_from_utf8 : in_fuel.

Lemma answers_parse_string_bytes : answers buf lo parse_string_bytes.
Proof. unfold parse_string_bytes. answers. Qed.

Lemma answers_parse_string : answers buf lo parse_string.
Proof. unfold parse_string. answers. Qed.

Lemma answers_read_u64_le name : answers buf lo (read_u64_le name).
Proof. unfold read_u64_le. answers. Qed.
#[local] Hint Resolve answers_parse_string_bytes answers_parse_string answers_read_u64_le : answers.

Lemma answers_skip_fixed rows width : answers buf lo (skip_fixed rows width).
Proof. unfold skip_fixed. answers. Qed.

Lemma answers_skip_offsets rows name : answers buf lo (skip_offsets rows name).
Proof. unfold skip_offsets. answers. Qed.

(** The body of a loop over strings. *)
Lemma advances_string_row name :
  advances (let* v := parse_varint in let* len := lift (protocol (checked_string_len v name)) in advance_pos len).
Proof.
  apply parse_varint_bind_advances. intros v Hv. apply lift_bind_advances. intros n H.
  apply map_err_inv, checked_string_len_inv in H as [-> _]. now apply advances_advance_pos.
Qed.

Lemma answers_skip_string_rows rows name : answers buf lo (skip_string_rows rows name).
Proof. apply answers_repeat_n; [assumption|apply advances_string_row|answers]. Qed.
#[local] Hint Resolve answers_skip_fixed answers_skip_offsets answers_skip_string_rows : answers.

Lemma answers_skip_simple ct rows : answers buf lo (skip_simple ct rows).
Proof. destruct ct; cbn [skip_simple]; answers. Qed.

Lemma answers_nonzero rows p : (0 < rows -> answers buf lo p) -> 0 <= rows -> answers buf lo (nonzero rows p).
Proof.
  intros Hp Hr. unfold nonzero. destruct (Z.eqb_spec rows 0); [apply answers_ret|]. apply Hp. lia.
Qed.

Lemma answers_array_of name inner rows :
  0 <= rows -> (forall total, 0 <= total -> answers buf lo (inner total)) -> answers buf lo (array_of name inner rows).
Proof.
  intros Hr Hi. apply answers_bind; auto with answers; [now apply advances_skip_offsets|]. intros total.
  destruct (Z.ltb_spec 0 total); [|apply answers_ret]. apply Hi. lia.
Qed.

Lemma answers_lc_column dict rows :
  0 <= rows -> (forall n, 0 <= n -> advances (dict n) /\ answers buf lo (dict n)) -> answers buf lo (lc_column dict rows).
Proof.
  intros Hr Hd. unfold lc_column. apply answers_bind; [assumption|advances|answers|]. intros meta.
  apply answers_lift_bind; [assumption|unfold lc_idx_width; in_fuel|]. intros w _.
  apply answers_lift_bind; [assumption|in_fuel|]. intros n _. apply answers_bind; [assumption|..].
  - destruct (Z.ltb_spec 0 n); [apply Hd; lia|apply advances_ret].
  - destruct (Z.ltb_spec 0 n); [apply Hd; lia|apply answers_ret].
  - intros _. unfold skip_checked_usize. answers.
Qed.

(** *** Variant *)

Definition answering (bodies : list (Z -> parser unit)) : Prop :=
  Forall (fun body => forall n, 0 <= n -> advances (body n) /\ answers buf lo (body n)) bodies.

Lemma answering_advancing bodies : answering bodies -> advancing_bodies bodies.
Proof. apply Forall_impl. intros body Hb n Hn. now apply Hb. Qed.

Lemma answers_skip_counted bodies counts : answering bodies -> nonneg counts -> answers buf lo (skip_counted bodies counts).
Proof.
  intros Hb. revert counts. induction Hb as [|body bodies Hbody Hbs IH]; intros [|c counts] Hc;
    cbn [skip_counted]; try apply answers_ret. inversion Hc; subst.
  apply answers_bind; [assumption|..|intros _; now apply IH].
  - apply advances_if; [apply advances_ret|]. now apply Hbody.
  - apply answers_if; [apply answers_ret|]. now apply Hbody.
Qed.

Lemma answers_variant_body bodies rows : answering bodies -> 0 <= rows -> answers buf lo (variant_body bodies rows).
Proof.
  intros Hb Hr. unfold variant_body. apply answers_bind; [assumption|advances|answers|]. intros mode.
  apply answers_if; [apply answers_ret|]. apply answers_if.
  - do 3 (apply answers_bind; [assumption|advances|answers|intros ?]).
    apply answers_skip_counted; [assumption|apply nonneg_variant_counts].
  - apply answers_if; [|apply answers_throw]. unfold skip_checked_usize.
    do 4 (apply answers_bind; [assumption|advances|answers|intros ?]).
    apply answers_if; [apply answers_throw|].
    destruct (Z.ltb_spec 0 a2); [|rewrite andb_false_r; apply answers_ret].
    apply answers_if; [|apply answers_ret].
    destruct (nth_in_or_default (Z.to_nat a0) bodies (fun _ => ret tt)) as [Hin| ->]; [|apply answers_ret].
    unfold answering in Hb. rewrite Forall_forall in Hb. apply Hb; [assumption|lia].
Qed.

(** *** State prefixes *)

Lemma in_fuel_dynamic_type name : in_fuel (parse_dynamic_type name).
Proof. apply in_fuel_map_err. Qed.
#[local] Hint Resolve in_fuel_dynamic_type : in_fuel.

Lemma answers_skip_json_state dynamic :
  advances dynamic -> answers buf lo dynamic -> answers buf lo (skip_json_state dynamic).
Proof.
  intros Ha Hd. assert (answers buf lo (skip_json_paths dynamic)) as Hp by (unfold skip_json_paths; answers).
  pose proof (advances_skip_json_paths dynamic Ha). unfold skip_json_state. answers.
Qed.

Lemma answers_state_prefix dynamic ct :
  advances dynamic -> answers buf lo dynamic -> answers buf lo (skip_state_prefix_with dynamic ct).
Proof.
  intros Ha Hd. pose proof (fun ct => advances_state_prefix dynamic ct Ha) as Hadv.
  assert (forall ts, Forall (fun t => answers buf lo (skip_state_prefix_with dynamic t)) ts ->
    forall k : list SkipState -> SkipState,
    answers buf lo (let* states := map_each ts (skip_state_prefix_with dynamic) in ret (k states))) as Heach.
  { intros ts Hts k. apply answers_bind; [assumption|apply advances_map_each, Forall_forall; auto| |answers].
    apply answers_map_each; [assumption|]. eapply Forall_impl; [|exact Hts]. auto. }
  type_induction ct; cbn [skip_state_prefix_with]; intros; auto;
    try (repeat (apply answers_bind; auto; intros); answers; fail).
  destruct t; try exact I; cbn [skip_state_prefix_with]; try apply answers_ret.
  - apply answers_bind; auto using advances_skip_json_state, answers_skip_json_state. answers.
  - apply answers_bind; auto. answers.
Qed.

Lemma answers_skip_dynamic_names version : answers buf lo (skip_dynamic_names version).
Proof.
  assert (forall name, answers buf lo (read_type_names name)) by (intros; unfold read_type_names; answers).
  pose proof advances_read_type_names. unfold skip_dynamic_names. answers.
Qed.
End Columns.

#[export] Hint Resolve in_fuel_wire_len in_fuel_from_utf8 in_fuel_dynamic_type : in_fuel.
#[export] Hint Resolve answers_parse_string_bytes answers_parse_string answers_read_u64_le answers_skip_fixed
  answers_skip_offsets answers_skip_string_rows answers_skip_simple answers_skip_dynamic_names : answers.

(** ** Dynamic

    A nested state starts eight bytes further on. *)
Lemma dynamic_state_answers buf fuel : forall lo,
  0 <= lo -> blen buf - lo < 8 * Z.of_nat fuel -> answers buf lo (skip_dynamic_state_fuel fuel).
Proof.
  induction fuel as [|fuel IH]; intros lo Hlo Hf pos Hpos; [lia|]. cbn [skip_dynamic_state_fuel].
  destruct (read_u64_le (str "Dynamic serialization version") buf pos) as [[v p1]|e] eqn:E.
  2: { pose proof (answers_read_u64_le buf lo Hlo (str "Dynamic serialization version") pos Hpos) as Hr.
       unfold in_fuel in *. rewrite E in Hr. cbn [bind parser_monad]. rewrite E. congruence. }
  rewrite (parser_bind_ok _ _ _ _ _ _ E). apply read_u64_le_pos in E as (-> & Hp1 & _).
  pose proof (advances_skip_dynamic_state_fuel fuel) as Ha. specialize (IH (lo + 8) ltac:(lia) ltac:(lia)).
  assert (0 <= lo + 8) as Hlo' by lia.
  assert (forall name, advances (let* ct := lift (parse_dynamic_type name) in
            skip_state_prefix_with (skip_dynamic_state_fuel fuel) ct)) as Hadv
    by (intros; apply advances_bind; [advances|]; intros; now apply advances_state_prefix).
  enough (answers buf (lo + 8) (let* type_names := skip_dynamic_names v in
    let* type_states := map_each type_names (fun type_name =>
      let* ct := lift (parse_dynamic_type type_name) in
      skip_state_prefix_with (skip_dynamic_state_fuel fuel) ct) in
    ret (mkDynamic v type_names type_states))) as Hs by (apply Hs; lia).
  apply answers_bind; [assumption|apply advances_skip_dynamic_names|auto with answers|]. intros names.
  apply answers_bind; [assumption|apply advances_map_each, Forall_forall; auto| |answers].
  apply answers_map_each; [assumption|]. apply Forall_forall. intros name _. split; [apply Hadv|].
  apply answers_lift_bind; [assumption|in_fuel|]. intros ct _. now apply answers_state_prefix.
Qed.

Lemma answers_skip_dynamic_state buf lo : 0 <= lo -> answers buf lo skip_dynamic_state.
Proof.
  intros Hlo. pose proof (Z.div_mod (blen buf) 8 ltac:(lia)). pose proof (Z.mod_pos_bound (blen buf) 8 ltac:(lia)).
  pose proof (Z.div_pos (blen buf) 8 (blen_nonneg buf) ltac:(lia)).
  apply (dynamic_state_answers buf (S (Z.to_nat (blen buf / 8))) lo); lia.
Qed.

Section Bodies.
Variables (buf : bytes) (lo : Z).
Hypothesis lo_nonneg : 0 <= lo.
Variable dynamic_body : DynamicSkipState -> Z -> parser unit.
Variable L : nat.
Hypothesis dynamic_advances : forall d rows, 0 <= rows -> advances (dynamic_body d rows).
Hypothesis dynamic_answers :
  forall d rows, (dynamic_depth d <= L)%nat -> 0 <= rows -> answers buf lo (dynamic_body d rows).

Lemma answers_skip_point rows : 0 <= rows -> answers buf lo (skip_point rows).
Proof. intros. apply answers_nonzero; [|assumption]. intros. answers. Qed.

Lemma answers_skip_ring rows : 0 <= rows -> answers buf lo (skip_ring rows).
Proof. intros. apply answers_nonzero; [|assumption]. intros. apply answers_array_of; auto using answers_skip_point. Qed.

Lemma answers_skip_polygon rows : 0 <= rows -> answers buf lo (skip_polygon rows).
Proof. intros. apply answers_nonzero; [|assumption]. intros. apply answers_array_of; auto using answers_skip_ring. Qed.

Lemma answers_json_body j rows :
  (json_depth j <= L)%nat -> 0 <= rows -> answers buf lo (skip_json_body_raw dynamic_body j rows).
Proof.
  intros Hj Hr. destruct j as [v paths]. cbn [json_depth] in Hj. apply list_max_le in Hj.
  rewrite Forall_map, Forall_forall in Hj. cbn [skip_json_body_raw].
  assert (advances (for_each paths (fun d => dynamic_body d rows)))
    by (apply advances_for_each, Forall_forall; auto).
  assert (answers buf lo (for_each paths (fun d => dynamic_body d rows)))
    by (apply answers_for_each; [assumption|]; apply Forall_forall; auto).
  answers.
Qed.

Definition body_answers (ct : ColumnType) : Prop :=
  forall state rows, (state_depth state <= L)%nat -> 0 <= rows ->
  answers buf lo (skip_body_raw_with dynamic_body ct state rows).

Lemma answering_bodies types states :
  forallb wf_type types = true -> Forall (fun t => wf_type t = true -> body_answers t) types ->
  (list_max (map state_depth states) <= L)%nat ->
  answering buf lo (bodies (skip_body_raw_with dynamic_body) types states).
Proof.
  intros Hwf H. revert Hwf states. induction H as [|t types Ht _ IH]; intros Hwf states Hs; constructor.
  - cbn in Hwf. apply andb_prop in Hwf as [Hwf _]. intros n Hn.
    split; [now apply advances_skip_body_raw_with|]. apply Ht; auto. destruct states; cbn in *; lia.
  - cbn in Hwf. apply andb_prop in Hwf as [_ Hwf]. apply IH; [assumption|]. destruct states; cbn in *; lia.
Qed.

Lemma answers_skip_body_raw_with ct : wf_type ct = true -> body_answers ct.
Proof.
  pose proof (advances_skip_body_raw_with dynamic_body dynamic_advances) as Hadv.
  type_induction ct; cbn [wf_type].
  - intros t IH Hwf s rows Hs Hr. apply answers_nonzero; [intros|assumption].
    apply answers_bind; [assumption|advances|answers|]. intros _. apply IH; auto. destruct s; cbn in *; lia.
  - intros t IH Hwf s rows Hs Hr. apply answers_nonzero; [intros|assumption].
    apply answers_array_of; auto. intros. apply IH; auto. destruct s; cbn in *; lia.
  - intros k v IHk IHv Hwf s rows Hs Hr. apply andb_prop in Hwf as [Hk Hv].
    apply answers_nonzero; [intros|assumption].
    destruct s; cbn in *; (apply answers_array_of; [assumption..|]); intros total Ht;
      (apply answers_bind; auto; [apply IHk|intros _; apply IHv]; cbn; auto; lia).
  - intros ts IH Hwf s rows Hs Hr. apply answers_nonzero; [intros|assumption].
    apply answers_for_each; [assumption|].
    eapply Forall_impl; [|apply (answering_bodies ts (match s with STuple l => l | _ => [] end)); auto].
    + intros body Hb. now apply Hb.
    + destruct s; cbn in *; lia.
  - intros t IH Hwf s rows Hs Hr. apply answers_nonzero; [intros|assumption].
    apply answers_lc_column; auto. intros n Hn. split; [now apply Hadv|]. apply IH; auto. destruct s; cbn in *; lia.
  - intros ts IH Hwf s rows Hs Hr. apply answers_nonzero; [intros|assumption].
    apply answers_variant_body; auto. apply answering_bodies; auto. destruct s; cbn in *; lia.
  - pose proof answers_skip_point. pose proof answers_skip_ring. pose proof answers_skip_polygon.
    intros t. destruct t; try exact I; intros Hwf state rows Hs Hr; cbn [skip_body_raw_with];
      (apply answers_nonzero; [intros|assumption]);
      try (now apply answers_skip_simple); try (now apply answers_array_of); try (answers; fail).
    destruct state; try apply answers_throw. now apply answers_json_body.
Qed.
End Bodies.

Lemma dynamic_body_answers buf lo fuel : 0 <= lo -> forall state rows,
  (dynamic_depth state <= fuel)%nat -> 0 <= rows -> answers buf lo (skip_dynamic_body_fuel fuel state rows).
Proof.
  intros Hlo. induction fuel as [|fuel IH]; intros [version names states] rows Hd Hr; cbn [dynamic_depth] in Hd; [lia|].
  cbn [skip_dynamic_body_fuel]. set (sub := counted_bodies _ _ _).
  assert (answering buf lo sub) as Hsub.
  { apply Forall_map, Forall_forall. intros [i name] _ n Hn.
    assert (forall ct, parse_dynamic_type name = Ok ct -> wf_type ct = true) as Hwf
      by (intros ct H; apply map_err_inv in H; now apply parse_type_wf in H).
    pose proof (advances_skip_dynamic_body_fuel fuel) as Ha.
    split; [apply lift_bind_advances|apply answers_lift_bind; [assumption|in_fuel|]]; intros ct Hct.
    - apply advances_skip_body_raw_with; auto.
    - apply (answers_skip_body_raw_with buf lo Hlo _ fuel); auto.
      destruct (nth_in_or_default i states SNone) as [Hin| ->]; [|cbn; lia].
      apply le_S_n, list_max_le in Hd. rewrite Forall_map, Forall_forall in Hd. auto. }
  pose proof (nonneg_zeros (length names)) as Hz. pose proof (dynamic_width_pos (blen names)).
  assert (forall A (decode : A -> _) null what items, (forall a, in_fuel (decode a)) ->
    answers buf lo (let* counts := lift (dynamic_counts decode null what (repeat 0 (length names)) items) in
                    skip_counted sub counts)) as Hcounted.
  { intros. apply answers_lift_bind; [assumption|now apply in_fuel_dynamic_counts|]. intros counts Hc.
    apply nonneg_dynamic_counts in Hc; [|assumption]. now apply answers_skip_counted. }
  repeat apply answers_if; try (answers; fail).
  - do 3 (apply answers_bind; [assumption|advances|answers|intros ?]). apply Hcounted. in_fuel.
  - apply answers_bind; [assumption|advances|answers|intros start]. apply answers_lift_bind; [assumption|in_fuel|].
    intros len Hlen. apply checked_len_inv in Hlen as [-> _].
    apply answers_bind; [assumption|apply advances_advance_pos; nia|answers|intros _].
    do 2 (apply answers_bind; [assumption|advances|answers|intros ?]). apply Hcounted. in_fuel.
Qed.

Lemma answers_skip_column_data buf lo ct :
  0 <= lo -> wf_type ct = true -> forall rows, 0 <= rows -> answers buf lo (skip_column_data ct rows).
Proof.
  intros Hlo. pose proof advances_skip_dynamic_body as Hda. pose proof (advances_skip_dynamic_state) as Hsa.
  assert (forall d rows, 0 <= rows -> answers buf lo (skip_dynamic_body d rows)) as Hd
    by (intros; now apply dynamic_body_answers).
  assert (forall t s n, wf_type t = true -> 0 <= n ->
    advances (skip_body_raw t s n) /\ answers buf lo (skip_body_raw t s n)) as Hraw.
  { intros t s n Hwf Hn. split; [now apply advances_skip_body_raw_with|].
    apply (answers_skip_body_raw_with buf lo Hlo skip_dynamic_body (state_depth s)); auto. }
  pose proof (answers_skip_dynamic_state buf lo Hlo) as Hs. pose proof advances_skip_column_data as Hadv.
  type_induction ct; cbn [wf_type].
  - intros t IH Hwf rows Hr. apply answers_nonzero; [intros|assumption]. apply answers_bind; auto with answers. advances.
  - intros t IH Hwf rows Hr. apply answers_nonzero; [intros|assumption]. apply answers_array_of; auto.
  - intros k v IHk IHv Hwf rows Hr. apply andb_prop in Hwf as [Hk Hv]. apply answers_nonzero; [intros|assumption].
    apply answers_array_of; auto. intros total Ht. apply answers_bind; auto.
  - intros ts IH Hwf rows Hr. apply answers_nonzero; [intros|assumption]. apply answers_for_each; [assumption|].
    rewrite forallb_forall in Hwf. rewrite Forall_forall in *. auto.
  - intros t IH Hwf rows Hr. apply answers_nonzero; [intros|assumption]. apply answers_lc_column; auto.
  - intros ts IH Hwf rows Hr. apply answers_nonzero; [intros|assumption].
    rewrite forallb_forall in Hwf. unfold skip_state_prefix. apply answers_bind; [assumption|..].
    + apply advances_map_each, Forall_forall. intros t _. now apply advances_state_prefix.
    + apply answers_map_each; [assumption|]. apply Forall_forall. intros t _.
      auto using advances_state_prefix, answers_state_prefix.
    + intros states. apply answers_variant_body; auto. clear IH. revert states Hwf.
      induction ts as [|t ts IHts]; intros states Hwf; constructor; [intros; apply Hraw; auto; apply Hwf; now left|].
      apply IHts. intros. apply Hwf. now right.
  - pose proof (answers_skip_point buf lo Hlo). pose proof (answers_skip_ring buf lo Hlo).
    pose proof (answers_skip_polygon buf lo Hlo).
    intros t. destruct t; try exact I; intros Hwf rows Hr; cbn [skip_column_data];
      (apply answers_nonzero; [intros|assumption]);
      try (now apply answers_skip_simple); try (now apply answers_array_of); try (answers; fail).
    unfold skip_materialized_json, json_version_error. answers.
Qed.

(** ** Expanding a dictionary *)

Lemma string_entries_in_fuel dict fuel : forall pos,
  0 <= pos <= blen dict -> blen dict - pos < Z.of_nat fuel -> in_fuel (lc_string_entries fuel dict pos).
Proof.
  induction fuel as [|fuel IH]; intros pos Hpos Hf; cbn [lc_string_entries]; [lia|].
  destruct (Z.ltb_spec pos (blen dict)); [|apply in_fuel_ok].
  apply in_fuel_bind; [apply (answers_parse_varint dict 0); lia|]. intros [v p1] Hv.
  pose proof (parse_varint_nonneg _ _ _ _ Hv) as Hv0. apply parse_varint_progress in Hv; [|lia].
  apply in_fuel_bind; [apply in_fuel_ok_or|]. intros len Hlen. apply ok_or_inv, usize_try_from_inv in Hlen as ->.
  apply in_fuel_bind; [apply in_fuel_ok_or|]. intros e He. apply ok_or_inv, checked_add_inv in He as [-> _].
  destruct (Z.ltb_spec (blen dict) (p1 + v)); [apply in_fuel_err|]. apply in_fuel_bind; [apply IH; lia|]. in_fuel.
Qed.

Lemma in_fuel_read_lc_index data row width : in_fuel (read_lc_index data row width).
Proof. unfold read_lc_index, checked_usize. in_fuel. Qed.
#[export] Hint Resolve in_fuel_read_lc_index : in_fuel.

Lemma expand_strings_in_fuel dict entries indexes w rows : forall total,
  in_fuel (expand_strings dict entries indexes w total rows).
Proof.
  induction rows as [|row rows IH]; intros total; cbn [expand_strings]; in_fuel.
Qed.

Lemma materialize_in_fuel inner : forall dict indexes w n,
  in_fuel (materialize_low_cardinality_inner dict inner indexes w n).
Proof.
  assert (forall dict width indexes w n, in_fuel (materialize_lc_fixed dict width indexes w n)) as Hfixed.
  { intros. unfold materialize_lc_fixed. in_fuel. }
  assert (forall dict indexes w n, in_fuel (materialize_lc_string dict indexes w n)) as Hstring.
  { intros. apply in_fuel_bind; [apply string_entries_in_fuel; unfold blen; lia|].
    intros. apply expand_strings_in_fuel. }
  induction inner; intros; cbn [materialize_low_cardinality_inner]; auto with in_fuel.
  apply in_fuel_bind.
  - unfold infer_lc_dictionary_rows. destruct (fixed_width inner); [|apply in_fuel_err]. now destruct (_ <? _).
  - intros k _. apply in_fuel_bind; [apply (answers_parse_bytes dict 0); pose proof (blen_nonneg dict); lia|].
    intros [nulls p] _. apply in_fuel_bind; [apply IHinner|]. in_fuel.
Qed.

(** ** Blocks *)

Lemma block_info_answers buf fuel : forall lo,
  0 <= lo -> blen buf - lo < Z.of_nat fuel -> answers buf lo (skip_block_info_fuel fuel).
Proof.
  induction fuel as [|fuel IH]; intros lo Hlo Hf pos Hpos; [lia|]. cbn [skip_block_info_fuel].
  pose proof (answers_parse_varint buf lo pos Hpos) as Hv. unfold in_fuel in *. cbn [bind parser_monad].
  destruct (parse_varint buf pos) as [[d p1]|e] eqn:E; [|congruence].
  apply parse_varint_progress in E; [|lia]. specialize (IH (lo + 1) ltac:(lia) ltac:(lia)).
  assert (0 <= lo + 1) as Hlo' by lia.
  pose proof (advances_advance_pos 1 ltac:(lia)). pose proof (advances_advance_pos 4 ltac:(lia)).
  enough (answers buf (lo + 1) (if d =? 0 then ret tt
      else if d =? 1 then advance_pos 1 ;; skip_block_info_fuel fuel
      else if d =? 2 then advance_pos 4 ;; skip_block_info_fuel fuel
      else if d =? 3 then parse_varint ;; skip_block_info_fuel fuel else ret tt)) as Hs by (apply Hs; lia).
  answers.
Qed.

Section Blocks.
Variables (buf : bytes) (lo : Z).
Hypothesis lo_nonneg : 0 <= lo.

Lemma answers_skip_block_info : answers buf lo skip_block_info.
Proof. apply (block_info_answers buf (S (length buf)) lo); unfold blen; lia. Qed.

Lemma answers_column_data_start start ct n : answers buf lo (column_data_start start ct n).
Proof.
  intros pos _. unfold column_data_start.
  assert (in_fuel (materialized_column_data_start buf start ct n)) as Hm
    by (unfold materialized_column_data_start; in_fuel).
  unfold in_fuel in *. destruct (materialized_column_data_start _ _ _ _); congruence.
Qed.

Lemma answers_lc_from_buffer inner n :
  wf_type inner = true -> 0 <= n -> answers buf lo (read_low_cardinality_from_buffer inner n).
Proof.
  intros Hwf Hn. unfold read_low_cardinality_from_buffer. apply answers_if; [apply answers_ret|].
  apply answers_bind; [assumption|advances|answers|]. intros meta.
  apply answers_lift_bind; [assumption|in_fuel|]. intros [w k] Hh. apply lc_header_inv in Hh as [Hw Hk].
  apply answers_bind; [assumption|advances|answers|]. intros d1.
  apply answers_bind; [assumption|now apply advances_skip_column_data|now apply answers_skip_column_data|]. intros _.
  do 3 (apply answers_bind; [assumption|advances|answers|]; intros ?).
  apply answers_lift_bind; [assumption|in_fuel|]. intros i Hi. apply lc_index_count_inv in Hi as ->.
  apply answers_lift_bind; [assumption|in_fuel|]. intros len Hlen.
  pose proof (proj1 (column_len_checked _ _ _ _) Hlen) as Hlen'. apply checked_len_inv in Hlen' as [-> _].
  apply answers_bind; [assumption|apply advances_parse_bytes; nia|answers|]. intros idx.
  apply answers_lift, materialize_in_fuel.
Qed.

Lemma answers_parse_column_bytes ct n : wf_type ct = true -> 0 <= n -> answers buf lo (parse_column_bytes ct n).
Proof.
  intros Hwf Hn. pose proof (answers_skip_column_data buf lo ct lo_nonneg Hwf n Hn).
  pose proof (advances_skip_column_data ct Hwf n Hn). pose proof advances_column_data_start.
  pose proof answers_column_data_start.
  unfold parse_column_bytes. destruct ct; try (now apply answers_lc_from_buffer); answers.
Qed.

Lemma answers_parse_column n : 0 <= n -> answers buf lo (parse_column parse_column_type n).
Proof.
  intros Hn. unfold parse_column. do 3 (apply answers_bind; [assumption|advances|answers|]; intros ?).
  apply answers_lift_bind; [assumption|rewrite parse_column_type_checked; apply in_fuel_map_err|]. intros ct Hct.
  rewrite parse_column_type_checked in Hct. apply map_err_inv, parse_type_wf in Hct.
  apply answers_bind; [assumption|now apply advances_parse_column_bytes|now apply answers_parse_column_bytes|answers].
Qed.

Lemma answers_parse_block_body : answers buf lo parse_block_body_shared.
Proof.
  intros pos Hpos. unfold parse_block_body_shared. rewrite parse_block_body_counts. revert pos Hpos.
  pose proof advances_parse_block_counts. pose proof advances_skip_block_info. pose proof answers_skip_block_info.
  apply (answers_bind_if buf lo lo_nonneg (fun c : Z * Z => 0 <= snd c)); [assumption| | |].
  - unfold parse_block_counts. answers.
  - intros pos [c r] pos' E. now apply parse_block_counts_nonneg in E as [_ ?].
  - intros [c r] Hr. cbn in Hr. apply answers_bind; [assumption|..|answers].
    + now apply advances_collect_n, advances_parse_column.
    + apply answers_collect_n; [assumption|now apply advances_parse_column|now apply answers_parse_column].
Qed.

(** ** Packets *)

Lemma answers_exception_loop levels : forall parts rt, answers buf lo (exception_loop levels parts rt).
Proof.
  pose proof (answers_parse_string_bytes buf lo lo_nonneg) as Hs.
  induction levels as [|levels IH]; intros parts rt; [apply answers_throw|]. cbn [exception_loop]. answers.
Qed.

Lemma answers_items count : answers buf lo (let* len := lift (packet_len count 16) in packet_advance len).
Proof. unfold packet_len. answers. Qed.

Lemma advances_part_ranges version : advances (skip_part_ranges version).
Proof.
  pose proof advances_mark_ranges.
  unfold skip_part_ranges, skip_merge_tree_part_info, when, skip_u64, parse_u64_le, skip_string, skip_varint, skip_byte.
  advances.
Qed.

Lemma answers_announcement : answers buf lo skip_parallel_read_announcement.
Proof.
  pose proof advances_mark_ranges. pose proof advances_part_ranges.
  assert (answers buf lo skip_mark_ranges) as Hm
    by (unfold skip_mark_ranges, parse_u64_le, packet_usize; pose proof answers_items; answers).
  assert (answers buf lo (skip_ranges_in_data_parts_description DBMS_PARALLEL_REPLICAS_PROTOCOL_VERSION)) as Hd.
  { unfold skip_ranges_in_data_parts_description, packet_usize.
    apply answers_bind; [assumption|advances|answers|]. intros v. apply answers_lift_bind; [assumption|in_fuel|].
    intros c _. apply answers_repeat_n; [assumption|apply advances_part_ranges|].
    unfold skip_part_ranges, skip_merge_tree_part_info, when, skip_u64, parse_u64_le, skip_string, skip_varint, skip_byte.
    answers. }
  assert (advances (skip_ranges_in_data_parts_description DBMS_PARALLEL_REPLICAS_PROTOCOL_VERSION)) as Ha.
  { unfold skip_ranges_in_data_parts_description. advances. }
  unfold skip_parallel_read_announcement, when, skip_u64, parse_u64_le, skip_string, skip_varint, skip_byte. answers.
Qed.

Lemma answers_parse_packet revision : answers buf lo (parse_packet revision).
Proof.
  pose proof advances_part_uuids. pose proof advances_announcement. pose proof answers_parse_block_body.
  pose proof answers_announcement. pose proof (answers_parse_string buf lo lo_nonneg).
  pose proof (advances_exception_loop (Z.to_nat MAX_EXCEPTION_CHAIN_DEPTH) [] None).
  pose proof (answers_exception_loop (Z.to_nat MAX_EXCEPTION_CHAIN_DEPTH) [] None).
  assert (answers buf lo parse_block_shared) by (unfold parse_block_shared; answers).
  assert (answers buf lo skip_part_uuids) by (unfold skip_part_uuids; pose proof answers_items; answers).
  unfold parse_packet, parse_exception_chain, skip_progress, skip_profile_info, when, skip_varint, skip_byte.
  apply answers_bind; [assumption|advances|answers|]. intros t.
  repeat match goal with |- answers _ _ (match ?x with _ => _ end) => destruct x end; answers.
Qed.
End Blocks.

(** ** The packet loop *)

Lemma response_loop_answers revision buf fuel : forall blocks pos,
  0 <= pos -> blen buf - pos <= Z.of_nat fuel -> in_fuel (response_loop fuel revision buf blocks pos).
Proof.
  induction fuel as [|fuel IH]; intros blocks pos Hpos Hlen; cbn [response_loop];
    (destruct (Z.leb_spec (blen buf) pos); [apply in_fuel_ok|]); [lia|].
  apply in_fuel_bind; [apply (answers_parse_packet buf 0); lia|]. intros [e pos'] E.
  apply parse_packet_progress in E; [|lia]. destruct e; try (apply IH; lia). apply in_fuel_ok.
Qed.

Lemma response_loop_more revision buf f : forall f' blocks pos,
  0 <= pos -> blen buf - pos <= Z.of_nat f -> (f <= f')%nat ->
  response_loop f' revision buf blocks pos = response_loop f revision buf blocks pos.
Proof.
  induction f as [|f IH]; intros f' blocks pos Hpos Hlen Hle.
  - destruct f'; cbn [response_loop]; destruct (Z.leb_spec (blen buf) pos); auto; lia.
  - destruct f' as [|f']; [lia|]. cbn [response_loop].
    destruct (Z.leb_spec (blen buf) pos); [reflexivity|]. cbn [bind result_monad].
    destruct (parse_packet revision buf pos) as [[e pos']|err] eqn:E; [|reflexivity].
    apply parse_packet_progress in E; [|lia]. destruct e; try apply IH; auto; lia.
Qed.

