(* ===== verification/Incremental.v ===== *)
(** * Parsing a buffer that is still being filled

    The streaming interface of the blocking client parses packets out of a buffer that may
    end anywhere in a packet, and on a protocol error waits for more bytes and parses again
    from the same place.  That is right for parsers that are [steady]: where a buffer is
    parsed, an initial part of it gives the same value if it holds all the bytes that were
    used, and a protocol error if it does not.  The parsers of columns, blocks, exceptions
    and of the packets that are skipped are shown to be steady. *)

From Stdlib Require Import String ZArith Lia Bool List.
From Stdlib Require Import Strings.Byte.
From coqutil Require Import Byte.
From S2P Require Import Prelude Revision Reader Limits Utf8 Wire TypeParser SkipColumn Arena ColumnReader Framing BlockReader BlockWriter Response.
Import ListNotations.

#[local] Set Warnings "-register-all".

(** [lo]: a lower bound of the positions the parser is used at. *)
Definition steady_from {A} (lo : Z) (p : parser A) : Prop :=
  forall buf more pos a pos', lo <= pos -> 0 <= pos <= blen buf -> blen (buf ++ more) <= ISIZE_MAX ->
  p (buf ++ more) pos = Ok (a, pos') ->
  pos <= pos' <= blen (buf ++ more) /\ (pos' <= blen buf -> p buf pos = Ok (a, pos')) /\
  (blen buf < pos' -> exists m, p buf pos = Err (Protocol m)).

Abbreviation steady := (steady_from 0).

Lemma steady_above {A} lo lo' (p : parser A) : lo <= lo' -> steady_from lo p -> steady_from lo' p.
Proof. intros Hlo Hp buf more pos a pos' Hpos. apply Hp. lia. Qed.

Lemma steady_ret {A} lo (a : A) : steady_from lo (ret a).
Proof. intros buf more pos x pos' _ Hpos _ H. cbn in H. inj. rewrite blen_app. pose proof (blen_nonneg more). conj; try lia; auto; lia. Qed.

Lemma steady_throw {A} lo (e : error) : steady_from (A := A) lo (throw e).
Proof. intros buf more pos x pos' _ _ _ H. discriminate H. Qed.

Lemma steady_lift {A} lo (r : result error A) : steady_from lo (lift r).
Proof. destruct r; [apply steady_ret|apply steady_throw]. Qed.

Lemma steady_get_pos lo : steady_from lo get_pos.
Proof. intros buf more pos x pos' _ Hpos _ H. cbn in H. unfold get_pos in *. inj. rewrite blen_app. pose proof (blen_nonneg more). conj; try lia; auto; lia. Qed.

(** What a run established is known of the rest. *)
Lemma steady_bind_run {A B} lo (p : parser A) (f : A -> parser B) :
  steady_from lo p ->
  (forall buf pos a pos', lo <= pos -> 0 <= pos <= blen buf -> p buf pos = Ok (a, pos') -> pos <= pos' -> steady_from pos' (f a)) ->
  steady_from lo (bind p f).
Proof.
  intros Hp Hf buf more pos b p2 Hlo Hpos Hlen H. apply parser_bind_inv in H as (a & p1 & H1 & H2).
  destruct (Hp buf more pos a p1 Hlo Hpos Hlen H1) as (Hp1 & Hok & Herr).
  assert (steady_from p1 (f a)) as Hs. { eapply Hf; [exact Hlo| |exact H1|lia]. rewrite blen_app. pose proof (blen_nonneg more). lia. }
  destruct (Hs (buf ++ more) [] p1 b p2) as (Hp2 & _); [lia|lia|now rewrite app_nil_r|now rewrite app_nil_r|].
  rewrite app_nil_r in Hp2. conj; [lia|lia| |].
  - intros Hb. specialize (Hok ltac:(lia)). rewrite (parser_bind_ok _ _ _ _ _ _ Hok).
    now apply (Hs buf more p1 b p2 (Z.le_refl _) ltac:(lia) Hlen H2).
  - intros Hb. destruct (Z.le_gt_cases p1 (blen buf)) as [Hle|Hgt].
    + specialize (Hok Hle). rewrite (parser_bind_ok _ _ _ _ _ _ Hok).
      now apply (Hs buf more p1 b p2 (Z.le_refl _) ltac:(lia) Hlen H2).
    + destruct Herr as [m E]; [lia|]. exists m. cbn [bind parser_monad]. now rewrite E.
Qed.

Lemma steady_bind {A B} lo (p : parser A) (f : A -> parser B) :
  steady_from lo p -> (forall a, steady_from lo (f a)) -> steady_from lo (bind p f).
Proof.
  intros Hp Hf. apply steady_bind_run; [exact Hp|]. intros. eapply steady_above; [|apply Hf]. lia.
Qed.

Lemma steady_lift_bind {A B} lo (r : result error A) (f : A -> parser B) :
  (forall a, r = Ok a -> steady_from lo (f a)) -> steady_from lo (let* a := lift r in f a).
Proof. intros Hf. destruct r as [a|e]; [now apply Hf|]. intros buf more pos b pos' _ _ _ H. discriminate H. Qed.

Lemma steady_if {A} lo (b : bool) (p q : parser A) : steady_from lo p -> steady_from lo q -> steady_from lo (if b then p else q).
Proof. now destruct b. Qed.

Lemma steady_repeat_n lo n (p : parser unit) : steady_from lo p -> steady_from lo (repeat_n n p).
Proof. intros H. induction n as [|n IH]; [apply steady_ret|]. now apply steady_bind. Qed.

Lemma steady_collect_n {A} lo n (p : parser A) : steady_from lo p -> steady_from lo (collect_n n p).
Proof.
  intros H. induction n as [|n IH]; [apply steady_ret|]. repeat (apply steady_bind; auto; intros). apply steady_ret.
Qed.

Lemma steady_for_each {A} lo (l : list A) (f : A -> parser unit) :
  Forall (fun a => steady_from lo (f a)) l -> steady_from lo (for_each l f).
Proof. induction 1; [apply steady_ret|]. rewrite for_each_cons. now apply steady_bind. Qed.

Lemma steady_map_each {A B} lo (l : list A) (f : A -> parser B) :
  Forall (fun a => steady_from lo (f a)) l -> steady_from lo (map_each l f).
Proof.
  induction 1; [apply steady_ret|]. rewrite map_each_cons. repeat (apply steady_bind; auto; intros). apply steady_ret.
Qed.

(** ** Leaves *)

Lemma slice_prefix {A} (l more : list A) a b : 0 <= a -> b <= blen l -> slice (l ++ more) a b = slice l a b.
Proof.
  intros Ha Hb. destruct (Z.le_gt_cases b a) as [|Hab].
  { unfold slice, take. now replace (Z.to_nat (b - a)) with 0%nat by lia. }
  unfold slice. rewrite drop_app_le by lia. unfold take. rewrite firstn_app.
  replace (Z.to_nat (b - a) - length (drop a l))%nat with 0%nat; [cbn; now rewrite app_nil_r|].
  unfold drop. rewrite length_skipn. unfold blen in *. lia.
Qed.

Lemma steady_get_slice a b : 0 <= a -> steady_from b (get_slice a b).
Proof.
  intros Ha buf more pos x pos' Hlo Hpos _ H. unfold get_slice in *. inj. rewrite blen_app. pose proof (blen_nonneg more).
  conj; try lia. intros _. now rewrite slice_prefix by lia.
Qed.

(** A parser that checks the end of a slice and decodes the slice. *)
Lemma steady_slice {A} lo n (p : parser A) (decode : bytes -> result error A) e1 m :
  0 <= n ->
  (forall buf pos, p buf pos = match checked_add pos n with
    | None => Err e1
    | Some end_ => if blen buf <? end_ then Err (Protocol m)
                   else match decode (slice buf pos end_) with Ok a => Ok (a, end_) | Err e => Err e end
    end) ->
  steady_from lo p.
Proof.
  intros Hn Hp buf more pos a pos' _ Hpos Hlen H. rewrite Hp in H |- *.
  destruct (checked_add pos n) as [e|] eqn:E; [|discriminate]. apply checked_add_inv in E as [-> _].
  destruct (Z.ltb_spec (blen (buf ++ more)) (pos + n)); [discriminate|].
  destruct (decode _) as [x|x] eqn:D; [|discriminate]. inj. conj; [lia|lia| |]; intros Hb.
  - destruct (Z.ltb_spec (blen buf) (pos + n)); [lia|]. rewrite slice_prefix in D by lia. now rewrite D.
  - destruct (Z.ltb_spec (blen buf) (pos + n)); [|lia]. now exists m.
Qed.

Lemma steady_parse_bytes lo n : 0 <= n -> steady_from lo (parse_bytes n).
Proof. intros Hn. now eapply (steady_slice lo n _ Ok); [|reflexivity]. Qed.

Lemma steady_advance_pos lo n : 0 <= n -> steady_from lo (advance_pos n).
Proof. intros Hn. now eapply (steady_slice lo n _ (fun _ => Ok tt)); [|reflexivity]. Qed.

Lemma steady_packet_advance lo n : 0 <= n -> steady_from lo (packet_advance n).
Proof. intros Hn. now eapply (steady_slice lo n _ (fun _ => Ok tt)); [|reflexivity]. Qed.

Lemma steady_utf8_slice lo n : 0 <= n -> steady_from lo (parse_utf8_slice n).
Proof.
  intros Hn. eapply (steady_slice lo n _ (fun s => if utf8_valid s then Ok s else Err (Protocol (msg "invalid utf8 in response")))); [exact Hn|].
  intros buf pos. unfold parse_utf8_slice. destruct (checked_add pos n); [|reflexivity].
  destruct (_ <? _); [reflexivity|]. now destruct (utf8_valid _).
Qed.

Lemma steady_offset_bytes lo n name : 0 <= n -> steady_from lo (skip_offset_bytes n name).
Proof.
  intros Hn. eapply (steady_slice lo n _ (fun s => protocol (fold_offsets 0 (map from_le (chunks_exact 8 s)) name))); [exact Hn|].
  intros buf pos. unfold skip_offset_bytes. destruct (checked_add pos n); [|reflexivity].
  destruct (_ <? _); [reflexivity|]. cbn [bind result_monad]. now destruct (protocol _).
Qed.

Lemma steady_i32 lo : steady_from lo parse_i32.
Proof.
  eapply (steady_slice lo 4 _ (fun s => Ok (i32_from_le s))); [lia|]. intros buf pos. unfold parse_i32.
  destruct (checked_add pos 4) eqn:E; [|reflexivity]. apply checked_add_inv in E as [-> _]. reflexivity.
Qed.

Lemma steady_varint_loop lo fuel : forall r shift, steady_from lo (parse_varint_loop fuel r shift).
Proof.
  induction fuel as [|fuel IH]; intros r shift buf more pos a pos' Hlo Hpos Hlen H; [discriminate|]. cbn [parse_varint_loop] in *.
  destruct (Z.leb_spec (blen (buf ++ more)) pos) as [|Hin]; [discriminate|].
  destruct (Z.leb_spec (blen buf) pos) as [Hend|Hbuf].
  - destruct (advances_parse_varint_loop (S fuel) r shift (buf ++ more) pos a pos') as [Hle Hge]; [lia| |].
    { cbn [parse_varint_loop]. destruct (Z.leb_spec (blen (buf ++ more)) pos); [lia|exact H]. }
    conj; try lia; [|intros _; eexists; reflexivity]. intros Hb. exfalso.
    destruct (63 <? shift); [discriminate|]. destruct (_ && _); [discriminate|]. destruct (_ =? 0); [inj; lia|].
    apply advances_parse_varint_loop in H; lia.
  - rewrite drop_app_le in H by lia.
    assert (byte0 (drop pos buf ++ more) = byte0 (drop pos buf)) as E0.
    { destruct (drop pos buf) eqn:E; [|reflexivity]. apply (f_equal blen) in E. unfold drop, blen in *. rewrite length_skipn in E. cbn in E. lia. }
    rewrite E0 in H. clear E0. destruct (63 <? shift); [discriminate|]. destruct (_ && _); [discriminate|].
    destruct (_ =? 0).
    + inj. conj; try lia; auto.
    + apply IH in H; [|lia..]. intuition lia.
Qed.

Lemma steady_varint lo : steady_from lo parse_varint.
Proof. apply steady_varint_loop. Qed.

Lemma steady_varint_bind {A} lo (f : Z -> parser A) :
  (forall v, 0 <= v -> steady_from lo (f v)) -> steady_from lo (let* v := parse_varint in f v).
Proof.
  intros Hf. apply steady_bind_run; [apply steady_varint|]. intros buf pos v pos' Hlo Hpos H Hle.
  eapply steady_above; [|apply Hf; now apply parse_varint_nonneg in H]. lia.
Qed.

Lemma steady_string_bytes lo : steady_from lo parse_string_bytes.
Proof.
  apply steady_varint_bind. intros v Hv. apply steady_lift_bind. intros len Hlen.
  apply wire_checked_string_len_inv in Hlen as [-> _]. now apply steady_parse_bytes.
Qed.

Lemma steady_string lo : steady_from lo parse_string.
Proof.
  apply steady_varint_bind. intros v Hv. apply steady_lift_bind. intros len Hlen.
  apply wire_checked_string_len_inv in Hlen as [-> _]. now apply steady_utf8_slice.
Qed.

Create HintDb steady discriminated.
#[export] Hint Resolve steady_ret steady_throw steady_lift steady_get_pos steady_varint steady_string_bytes steady_string
  steady_i32 steady_repeat_n steady_collect_n steady_advance_pos steady_offset_bytes : steady.
#[export] Hint Extern 2 (steady_from _ (parse_bytes _)) => apply steady_parse_bytes; lia : steady.

(** Follow the structure of a parser. *)
Ltac steady :=
  repeat first
    [ solve [auto with steady]
    | apply steady_bind; [|intros]
    | apply steady_if
    | apply steady_repeat_n
    | apply steady_collect_n
    | lazymatch goal with |- steady_from _ (match ?x with _ => _ end) => destruct x end ].

(** ** Columns *)

Lemma steady_skip_fixed lo rows width : 0 <= rows -> 0 <= width -> steady_from lo (skip_fixed rows width).
Proof.
  intros Hr Hw. apply steady_lift_bind. intros n H. apply checked_len_inv in H as [-> _]. apply steady_advance_pos. nia.
Qed.

Lemma steady_skip_string_rows lo rows name : steady_from lo (skip_string_rows rows name).
Proof.
  apply steady_repeat_n, steady_varint_bind. intros v Hv. apply steady_lift_bind. intros n H.
  apply map_err_inv, checked_string_len_inv in H as [-> _]. now apply steady_advance_pos.
Qed.

Lemma steady_read_u64 lo name : steady_from lo (SkipColumn.read_u64_le name).
Proof. unfold SkipColumn.read_u64_le. steady. Qed.

Lemma steady_skip_offsets lo rows name : 0 <= rows -> steady_from lo (skip_offsets rows name).
Proof.
  intros Hr. apply steady_lift_bind. intros n H. apply checked_len_inv in H as [-> _]. apply steady_offset_bytes. lia.
Qed.
#[export] Hint Resolve steady_skip_fixed steady_skip_string_rows steady_read_u64 : steady.
#[export] Hint Extern 3 (steady_from _ (skip_fixed _ _)) => apply steady_skip_fixed; lia : steady.

Lemma steady_skip_simple lo ct rows : wf_type ct = true -> 0 <= rows -> steady_from lo (skip_simple ct rows).
Proof. intros Hwf Hr. destruct ct; cbn [skip_simple]; cbn [wf_type] in Hwf; steady. Qed.

Lemma steady_nonzero lo rows p : 0 <= rows -> steady_from lo p -> steady_from lo (nonzero rows p).
Proof. intros _ Hp. unfold nonzero. steady. Qed.

Lemma steady_array_of lo name inner rows :
  0 <= rows -> (forall total, 0 <= total -> steady_from lo (inner total)) -> steady_from lo (array_of name inner rows).
Proof.
  intros Hr Hi. apply steady_bind; [now apply steady_skip_offsets|]. intros total.
  destruct (Z.ltb_spec 0 total); [|apply steady_ret]. apply Hi. lia.
Qed.

Lemma steady_lc_column lo dict rows :
  0 <= rows -> (forall n, 0 <= n -> steady_from lo (dict n)) -> steady_from lo (lc_column dict rows).
Proof.
  intros Hr Hd. unfold lc_column. apply steady_bind; [steady|]. intros meta.
  apply steady_lift_bind. intros w Hw. apply lc_idx_width_pos in Hw. apply steady_lift_bind. intros n _. apply steady_bind.
  { destruct (Z.ltb_spec 0 n); [apply Hd; lia|apply steady_ret]. }
  intros _. apply steady_bind; [steady|]. intros count. apply steady_bind; [steady|].
  intros indexes. destruct (Z.eqb_spec indexes rows) as [->|]; [|apply steady_throw].
  cbn [negb]. apply steady_lift_bind. intros len Hlen. apply checked_len_inv in Hlen as [-> _]. apply steady_advance_pos. nia.
Qed.

Definition steady_bodies (lo : Z) (bodies : list (Z -> parser unit)) : Prop :=
  Forall (fun body => forall n, 0 <= n -> steady_from lo (body n)) bodies.

Lemma steady_skip_counted lo bodies counts : steady_bodies lo bodies -> nonneg counts -> steady_from lo (skip_counted bodies counts).
Proof.
  intros Hb. revert counts. induction Hb as [|body bodies Hbody Hbs IH]; intros [|c counts] Hc;
    cbn [skip_counted]; try apply steady_ret. inversion Hc; subst.
  apply steady_bind; [|intros _; now apply IH]. apply steady_if; [apply steady_ret|auto].
Qed.

Lemma advance_pos_inv n buf pos u pos' : advance_pos n buf pos = Ok (u, pos') -> pos' = pos + n.
Proof.
  unfold advance_pos. destruct (checked_add pos n) as [e|] eqn:E; [|discriminate]. apply checked_add_inv in E as [-> _].
  destruct (_ <? _); [discriminate|]. intros. now inj.
Qed.

(** A slice is taken of what was passed over. *)
Lemma steady_scan {A} lo n (f : bytes -> parser A) :
  0 <= n -> (forall bs, steady (f bs)) ->
  steady_from lo (let* start := get_pos in advance_pos n ;; let* bs := get_slice start (start + n) in f bs).
Proof.
  intros Hn Hf. apply steady_bind_run; [apply steady_get_pos|]. intros buf pos start pos' Hlo Hpos H Hle.
  unfold get_pos in H. inj. apply steady_bind_run; [now apply steady_advance_pos|].
  intros buf' pos p2 pos2 Hlo' Hpos' H' Hle'. apply advance_pos_inv in H' as ->.
  apply steady_bind; [eapply steady_above; [|apply steady_get_slice]; lia|]. intros bs. eapply steady_above; [|apply Hf]. lia.
Qed.

Lemma steady_variant_body bodies rows : steady_bodies 0 bodies -> 0 <= rows -> steady (variant_body bodies rows).
Proof.
  intros Hb Hr. unfold variant_body. apply steady_bind; [steady|]. intros mode.
  apply steady_if; [apply steady_ret|]. apply steady_if.
  - apply (steady_scan 0 rows (fun ds => skip_counted bodies (variant_counts (length bodies) ds))); [assumption|].
    intros ds. apply steady_skip_counted; [assumption|apply nonneg_variant_counts].
  - apply steady_if; [|apply steady_throw].
    do 4 (apply steady_bind; [steady|intros ?]). apply steady_if; [apply steady_throw|].
    destruct (Z.ltb_spec 0 a2); [|rewrite andb_false_r; apply steady_ret]. apply steady_if; [|apply steady_ret].
    destruct (nth_in_or_default (Z.to_nat a0) bodies (fun _ => ret tt)) as [Hin| ->]; [|apply steady_ret].
    unfold steady_bodies in Hb. rewrite Forall_forall in Hb. apply Hb; [assumption|lia].
Qed.

(** *** State prefixes and bodies *)

Lemma steady_json_state dynamic : steady dynamic -> steady (skip_json_state dynamic).
Proof. intros H. assert (steady (skip_json_paths dynamic)) by (unfold skip_json_paths; steady). unfold skip_json_state. steady. Qed.

Lemma steady_state_prefix dynamic ct : steady dynamic -> steady (skip_state_prefix_with dynamic ct).
Proof.
  intros Hd. type_induction ct; cbn [skip_state_prefix_with]; intros; try (steady; fail).
  - apply steady_bind; [now apply steady_map_each|steady].
  - apply steady_bind; [now apply steady_map_each|steady].
  - destruct t; try exact I; cbn [skip_state_prefix_with]; try apply steady_ret.
    + apply steady_bind; [now apply steady_json_state|steady].
    + steady.
Qed.

Lemma steady_dynamic_state_fuel fuel : steady (skip_dynamic_state_fuel fuel).
Proof.
  assert (forall name, steady (read_type_names name)) by (intros; unfold read_type_names; steady).
  induction fuel as [|fuel IH]; [apply steady_throw|]. cbn [skip_dynamic_state_fuel].
  apply steady_bind; [steady|]. intros version. apply steady_bind; [unfold skip_dynamic_names; steady|]. intros names.
  apply steady_bind; [|steady]. apply steady_map_each, Forall_forall. intros name _.
  apply steady_bind; [steady|]. intros ct. now apply steady_state_prefix.
Qed.

(** A fuel that grows with the buffer and is always enough. *)
Lemma steady_fuel {A} (F : nat -> parser A) (bound : bytes -> nat) :
  (forall fuel, steady (F fuel)) -> (forall buf more, (bound buf <= bound (buf ++ more))%nat) ->
  (forall buf k pos, 0 <= pos <= blen buf -> (bound buf <= k)%nat -> F k buf pos = F (bound buf) buf pos) ->
  steady (fun buf pos => F (bound buf) buf pos).
Proof.
  intros Hs Hmono Henough buf more pos a pos' Hlo Hpos Hlen H.
  destruct (Hs _ buf more pos a pos' Hlo Hpos Hlen H) as (Hb & Hok & Herr). rewrite Henough in Hok, Herr by auto. auto.
Qed.

Lemma steady_dynamic_state : steady skip_dynamic_state.
Proof.
  apply (steady_fuel skip_dynamic_state_fuel (fun buf => S (Z.to_nat (blen buf / 8)))).
  - apply steady_dynamic_state_fuel.
  - intros buf more. rewrite blen_app. pose proof (blen_nonneg more). pose proof (blen_nonneg buf).
    pose proof (Z.div_le_mono (blen buf) (blen buf + blen more) 8 ltac:(lia) ltac:(lia)). lia.
  - intros buf k pos Hpos Hk. apply (skip_dynamic_state_fuel_enough buf k (S (Z.to_nat (blen buf / 8))) pos); try lia;
      pose proof (Z.mod_pos_bound (blen buf) 8 ltac:(lia)); pose proof (Z.div_mod (blen buf) 8 ltac:(lia)); lia.
Qed.

Section SteadyBodies.
Variable dynamic_body : DynamicSkipState -> Z -> parser unit.
Hypothesis dynamic_body_steady : forall d rows, 0 <= rows -> steady (dynamic_body d rows).

Lemma steady_skip_point rows : 0 <= rows -> steady (skip_point rows).
Proof. intros. apply steady_nonzero; [assumption|]. steady. Qed.

Lemma steady_skip_ring rows : 0 <= rows -> steady (skip_ring rows).
Proof. intros. apply steady_nonzero; [assumption|]. apply steady_array_of; [assumption|apply steady_skip_point]. Qed.

Lemma steady_skip_polygon rows : 0 <= rows -> steady (skip_polygon rows).
Proof. intros. apply steady_nonzero; [assumption|]. apply steady_array_of; [assumption|apply steady_skip_ring]. Qed.

Lemma steady_json_body j rows : 0 <= rows -> steady (skip_json_body_raw dynamic_body j rows).
Proof.
  intros Hr. destruct j as [v paths]. cbn [skip_json_body_raw].
  assert (steady (for_each paths (fun d => dynamic_body d rows))) by (apply steady_for_each, Forall_forall; auto). steady.
Qed.

Lemma steady_bodies_of f types states :
  Forall (fun t => forall s n, 0 <= n -> steady (f t s n)) types -> steady_bodies 0 (bodies f types states).
Proof. intros H. revert states. induction H as [|t types Ht Hts IH]; intros states; constructor; auto. apply IH. Qed.

Lemma steady_skip_body_raw_with ct :
  wf_type ct = true -> forall state rows, 0 <= rows -> steady (skip_body_raw_with dynamic_body ct state rows).
Proof.
  type_induction ct; cbn [wf_type].
  - intros t IH Hwf s rows Hr. apply steady_nonzero; [assumption|]. apply steady_bind; [steady|auto].
  - intros t IH Hwf s rows Hr. apply steady_nonzero; [assumption|]. apply steady_array_of; auto.
  - intros k v IHk IHv Hwf s rows Hr. apply andb_prop in Hwf as [Hk Hv]. apply steady_nonzero; [assumption|].
    destruct (match s with SMap k v => (k, v) | _ => (SNone, SNone) end) as [ks vs].
    apply steady_array_of; [assumption|]. intros total Ht. apply steady_bind; auto.
  - intros ts IH Hwf s rows Hr. apply steady_nonzero; [assumption|].
    apply steady_for_each. rewrite forallb_forall in Hwf. rewrite Forall_forall in IH.
    eapply Forall_impl; [|apply (steady_bodies_of (skip_body_raw_with dynamic_body) ts)].
    + intros body Hb. now apply Hb.
    + apply Forall_forall. auto.
  - intros t IH Hwf s rows Hr. apply steady_nonzero; [assumption|]. apply steady_lc_column; auto.
  - intros ts IH Hwf s rows Hr. apply steady_nonzero; [assumption|].
    apply steady_variant_body; [|assumption]. apply steady_bodies_of.
    rewrite forallb_forall in Hwf. rewrite Forall_forall in *. auto.
  - pose proof steady_skip_point. pose proof steady_skip_ring. pose proof steady_skip_polygon.
    intros t. destruct t; try exact I; intros Hwf state rows Hr; cbn [skip_body_raw_with]; (apply steady_nonzero; [assumption|]);
      try (now apply steady_skip_simple); try (now apply steady_array_of); try (steady; fail).
    destruct state; try apply steady_throw. now apply steady_json_body.
Qed.
End SteadyBodies.

Lemma steady_counted body names states :
  (forall ct s n, wf_type ct = true -> 0 <= n -> steady (body ct s n)) -> steady_bodies 0 (counted_bodies body names states).
Proof.
  intros Hb. apply Forall_map, Forall_forall. intros [i name] _ n Hn. cbn. apply steady_lift_bind. intros ct H.
  apply Hb; [|assumption]. apply map_err_inv in H. now apply parse_type_wf in H.
Qed.

Lemma steady_dynamic_body_fuel fuel : forall state rows, 0 <= rows -> steady (skip_dynamic_body_fuel fuel state rows).
Proof.
  induction fuel as [|fuel IH]; intros [version names states] rows Hr; [apply steady_throw|].
  cbn [skip_dynamic_body_fuel]. set (sub := counted_bodies _ _ _).
  assert (steady_bodies 0 sub) as Hsub. { apply steady_counted. intros ct s n Hwf Hn. apply steady_skip_body_raw_with; auto. }
  pose proof (nonneg_zeros (length names)) as Hz. pose proof (dynamic_width_pos (blen names)).
  assert (forall A (decode : A -> _) null what items,
    steady (let* counts := lift (dynamic_counts decode null what (repeat 0 (length names)) items) in skip_counted sub counts)) as Hcounted.
  { intros. apply steady_lift_bind. intros counts Hc. apply nonneg_dynamic_counts in Hc; [|assumption]. now apply steady_skip_counted. }
  repeat apply steady_if; try (steady; fail).
  - apply (steady_scan 0 rows (fun ds => let* counts := lift _ in skip_counted sub counts)); auto.
  - apply steady_bind_run; [apply steady_get_pos|]. intros buf pos start pos' Hlo Hpos H' Hle. unfold get_pos in H'. inj.
    apply steady_lift_bind. intros len Hlen. apply checked_len_inv in Hlen as [-> _].
    apply steady_bind; [apply steady_advance_pos; nia|intros _]. apply steady_bind_run; [apply steady_get_pos|].
    intros buf2 pos2 e pos3 Hlo2 Hpos2 H2 Hle2. unfold get_pos in H2. inj.
    apply steady_bind; [apply steady_get_slice; lia|]. intros bs. eapply steady_above; [|apply Hcounted]. lia.
Qed.

Lemma steady_dynamic_body state rows : 0 <= rows -> steady (skip_dynamic_body state rows).
Proof. apply steady_dynamic_body_fuel. Qed.

Lemma steady_skip_column_data ct : wf_type ct = true -> forall rows, 0 <= rows -> steady (skip_column_data ct rows).
Proof.
  pose proof steady_dynamic_body as Hdyn. pose proof steady_dynamic_state.
  type_induction ct; cbn [wf_type].
  - intros t IH Hwf rows Hr. apply steady_nonzero; [assumption|]. apply steady_bind; [steady|auto].
  - intros t IH Hwf rows Hr. apply steady_nonzero; [assumption|]. apply steady_array_of; auto.
  - intros k v IHk IHv Hwf rows Hr. apply andb_prop in Hwf as [Hk Hv]. apply steady_nonzero; [assumption|].
    apply steady_array_of; [assumption|]. intros total Ht. apply steady_bind; auto.
  - intros ts IH Hwf rows Hr. apply steady_nonzero; [assumption|].
    apply steady_for_each. rewrite forallb_forall in Hwf. rewrite Forall_forall in *. auto.
  - intros t IH Hwf rows Hr. apply steady_nonzero; [assumption|].
    apply steady_lc_column; [assumption|]. intros n Hn. now apply steady_skip_body_raw_with.
  - intros ts IH Hwf rows Hr. apply steady_nonzero; [assumption|]. apply steady_bind.
    + apply steady_map_each, Forall_forall. intros t _. now apply steady_state_prefix.
    + intros states. apply steady_variant_body; [|assumption]. apply steady_bodies_of.
      rewrite forallb_forall in Hwf. apply Forall_forall. intros t Ht s n Hn. apply steady_skip_body_raw_with; auto.
  - pose proof steady_skip_point. pose proof steady_skip_ring. pose proof steady_skip_polygon.
    intros t. destruct t; try exact I; intros Hwf rows Hr; cbn [skip_column_data]; (apply steady_nonzero; [assumption|]);
      try (now apply steady_skip_simple); try (now apply steady_array_of); try (steady; fail).
Qed.

(** ** Blocks *)

Lemma steady_block_info_fuel fuel : steady (skip_block_info_fuel fuel).
Proof.
  pose proof (steady_advance_pos 0 1 ltac:(lia)). pose proof (steady_advance_pos 0 4 ltac:(lia)).
  induction fuel as [|fuel IH]; [apply steady_throw|]. cbn [skip_block_info_fuel]. steady.
Qed.

Lemma block_info_fuel_enough buf : forall k1 k2 pos,
  0 <= pos <= blen buf -> blen buf - pos < Z.of_nat k1 -> blen buf - pos < Z.of_nat k2 ->
  skip_block_info_fuel k1 buf pos = skip_block_info_fuel k2 buf pos.
Proof.
  induction k1 as [|k1 IH]; intros k2 pos Hpos H1 H2; [lia|]. destruct k2 as [|k2]; [lia|]. cbn [skip_block_info_fuel].
  destruct (parse_varint buf pos) as [[d p1]|e] eqn:E; [|cbn [bind parser_monad]; now rewrite E].
  rewrite !(parser_bind_ok _ _ _ _ _ _ E). apply parse_varint_progress in E; [|assumption].
  assert (forall A (p : parser A), advances p -> bind p (fun _ => skip_block_info_fuel k1) buf p1 = bind p (fun _ => skip_block_info_fuel k2) buf p1) as Hrest.
  { intros A p Hp. cbn [bind parser_monad]. destruct (p buf p1) as [[x p2]|] eqn:Ep; [|reflexivity].
    apply Hp in Ep; [|lia]. apply IH; lia. }
  pose proof (Hrest _ _ (advances_advance_pos 1 ltac:(lia))). pose proof (Hrest _ _ (advances_advance_pos 4 ltac:(lia))).
  pose proof (Hrest _ _ advances_parse_varint). now repeat (destruct (_ =? _)).
Qed.

Lemma steady_block_info : steady skip_block_info.
Proof.
  apply (steady_fuel skip_block_info_fuel (fun buf => S (length buf))).
  - apply steady_block_info_fuel.
  - intros buf more. rewrite length_app. lia.
  - intros buf k pos Hpos Hk. apply block_info_fuel_enough; unfold blen in *; lia.
Qed.

Lemma steady_lc_from_buffer inner n : wf_type inner = true -> 0 <= n -> steady (read_low_cardinality_from_buffer inner n).
Proof.
  intros Hwf Hn. unfold read_low_cardinality_from_buffer. apply steady_if; [apply steady_ret|].
  apply steady_bind; [steady|]. intros meta. apply steady_lift_bind. intros [w k] Hh. apply lc_header_inv in Hh as [Hw Hk].
  apply steady_bind_run; [apply steady_get_pos|]. intros buf pos start pos' Hlo Hpos H Hle. unfold get_pos in H. inj.
  apply steady_bind; [eapply steady_above; [|now apply steady_skip_column_data]; lia|]. intros _.
  apply steady_bind_run; [apply steady_get_pos|]. intros buf2 pos2 e pos3 Hlo2 Hpos2 H2 Hle2. unfold get_pos in H2. inj.
  apply steady_bind; [apply steady_get_slice; lia|]. intros dict. apply steady_bind; [steady|]. intros count.
  apply steady_lift_bind. intros i Hi. apply lc_index_count_inv in Hi as ->. apply steady_lift_bind. intros len Hlen.
  pose proof (proj1 (column_len_checked _ _ _ _) Hlen) as Hlen'. apply checked_len_inv in Hlen' as [-> _].
  apply steady_bind; [apply steady_parse_bytes; nia|]. intros idx. apply steady_lift.
Qed.

(** The version of a JSON column has been passed when its data is delimited. *)
Lemma column_data_start_le ct n buf pos u e start :
  0 <= n -> wf_type ct = true -> 0 <= pos <= blen buf -> skip_column_data ct n buf pos = Ok (u, e) ->
  materialized_column_data_start buf pos ct n = Ok start -> pos <= start <= e.
Proof.
  intros Hn Hwf Hpos Hskip Hstart. pose proof (advances_skip_column_data ct Hwf n Hn buf pos u e Hpos Hskip) as He.
  unfold materialized_column_data_start in Hstart. destruct (_ && _); [discriminate|]. destruct ct; try (inj; lia).
  destruct (Z.eqb_spec n 0) as [->|Hn0]; [inj; lia|]. apply result_bind_inv in Hstart as (x & Hx & Hstart).
  apply ok_or_inv, checked_add_inv in Hx as [-> _]. destruct (_ <? _); [discriminate|]. inj.
  cbn [skip_column_data] in Hskip. unfold nonzero in Hskip. destruct (Z.eqb_spec n 0); [lia|].
  unfold skip_materialized_json in Hskip. apply parser_bind_inv in Hskip as (v & p1 & H1 & Hskip).
  apply read_u64_le_pos in H1 as (-> & Hp1 & _). destruct (_ && _); [discriminate|].
  apply advances_skip_string_rows in Hskip; lia.
Qed.

Lemma data_start_prefix ct n buf more pos start :
  materialized_column_data_start (buf ++ more) pos ct n = Ok start -> start <= blen buf ->
  materialized_column_data_start buf pos ct n = Ok start.
Proof.
  unfold materialized_column_data_start. intros H Hle. destruct (_ && _); [discriminate|]. destruct ct; try exact H.
  destruct (n =? 0); [exact H|]. apply result_bind_inv in H as (x & Hx & H). cbn [bind result_monad]. rewrite Hx.
  destruct (_ <? _); [discriminate|]. inj. destruct (Z.ltb_spec (blen buf) start); [lia|reflexivity].
Qed.

Lemma steady_plain_column ct n : wf_type ct = true -> 0 <= n ->
  steady (let* col_start := get_pos in
          skip_column_data ct n ;;
          let* col_end := get_pos in
          let* col_data_start := column_data_start col_start ct n in
          get_slice col_data_start col_end).
Proof.
  intros Hwf Hn buf more pos a pos' Hlo Hpos Hlen H. cbn [bind parser_monad] in *. unfold get_pos, get_slice, column_data_start in *.
  destruct (skip_column_data ct n (buf ++ more) pos) as [[u e]|x] eqn:E; [|discriminate].
  destruct (materialized_column_data_start (buf ++ more) pos ct n) as [start|x] eqn:Es; [|discriminate]. inj.
  destruct (steady_skip_column_data ct Hwf n Hn buf more pos u pos' Hlo Hpos Hlen E) as (Hb & Hok & Herr).
  pose proof (column_data_start_le ct n (buf ++ more) pos u pos' start Hn Hwf ltac:(lia) E Es) as Hstart.
  conj; [lia|lia| |]; intros Hle.
  - rewrite (Hok Hle), (data_start_prefix _ _ _ _ _ _ Es) by lia. now rewrite slice_prefix by lia.
  - destruct (Herr Hle) as [m Em]. exists m. now rewrite Em.
Qed.

Lemma steady_parse_column type_of n :
  (forall name ct, type_of name = Ok ct -> wf_type ct = true) -> 0 <= n -> steady (parse_column type_of n).
Proof.
  intros Hof Hn. unfold parse_column. do 3 (apply steady_bind; [steady|intros ?]). apply steady_lift_bind. intros ct Hct.
  apply Hof in Hct. apply steady_bind; [|steady]. unfold parse_column_bytes.
  destruct ct; try (now apply steady_lc_from_buffer); now apply steady_plain_column.
Qed.

Lemma steady_parse_block_body : steady parse_block_body.
Proof.
  unfold parse_block_body, parse_block_body_with. apply steady_bind; [apply steady_block_info|intros _].
  apply steady_bind; [steady|intros c]. apply steady_bind; [steady|intros cols].
  apply steady_varint_bind. intros r Hr. apply steady_lift_bind. intros rows Hrows.
  apply map_err_inv, checked_count_inv in Hrows as [-> _]; [|split; discriminate].
  apply steady_bind; [|steady]. apply steady_collect_n, steady_parse_column; [|exact Hr].
  intros name ct Hct. now apply map_err_inv, parse_type_wf in Hct.
Qed.
#[export] Hint Resolve steady_parse_block_body : steady.

Lemma steady_parse_block : steady parse_block.
Proof. unfold parse_block. steady. Qed.

Lemma steady_exception_chain : steady parse_exception_chain.
Proof.
  unfold parse_exception_chain. generalize (Z.to_nat MAX_EXCEPTION_CHAIN_DEPTH) as levels. intros levels.
  generalize (@nil bytes) as parts. generalize (@None (Z * bytes)) as rt.
  induction levels as [|levels IH]; intros rt parts; [apply steady_throw|]. cbn [exception_loop]. steady.
Qed.
