(* ===== verification/Handshake.v ===== *)
(** * The handshake ([sync/protocol/handshake.rs], [protocol/handshake.rs], [shared/ssh_auth.rs])

    The client hello, the SSH-key challenge, the server hello with the fields that the
    negotiated revision brings, and the addendum, for the synchronous engine ([Sync], with
    [SyncClient::handshake_and_negotiate]) and the asynchronous one ([Async], with the
    negotiation of [connect_raw_inner]).  Both are sessions with a server; what a server
    sends is given by the layout of its hello at a revision. *)

From Stdlib Require Import String ZArith Lia Bool List.
From Stdlib Require Import Strings.Byte.
From coqutil Require Import Byte.
From S2P Require Import Prelude Revision Reader Session Limits Utf8 Wire TypeParser BlockWriter Chunked Compression Response.
Import ListNotations.

(** ** SSH authentication ([shared/ssh_auth.rs]) *)

Definition SSH_KEY_AUTHENTICATION_MARKER : bytes := str " SSH KEY AUTHENTICATION ".

Definition SshSigner : Type := bytes -> result message bytes.

Definition ssh_auth_user (user : bytes) : bytes := SSH_KEY_AUTHENTICATION_MARKER ++ user.

Definition ssh_signature_message (revision : Z) (database user challenge : bytes) : bytes :=
  show revision ++ database ++ user ++ challenge.

Definition is_some {A} (o : option A) : bool := match o with Some _ => true | None => false end.

(** A field that is only on the wire from some revision on; [absent] is its value before. *)
Definition field_since {A} (min_revision revision : Z) (absent : A) (m : reader A) : reader A :=
  if min_revision <=? revision then m else ret absent.

(** [i64::from_le_bytes] *)
Definition i64_from_le (bs : bytes) : Z :=
  let u := from_le bs in if u <? 2 ^ 63 then u else u - 2 ^ 64.

(** The refusal of a client configuration before anything is written. *)
Definition ssh_revision_error : message :=
  Msg "SSH-key authentication requires protocol revision >= {}" [AZ DBMS_MIN_REVISION_WITH_SSH_AUTHENTICATION].

Definition exception_too_deep : error :=
  Protocol (Msg "exception nesting too deep: more than {} levels" [AZ MAX_EXCEPTION_CHAIN_DEPTH]).

(** ** The synchronous engine *)
Module Sync.

(** The fields of [ClientConfig] that the bytes of a connection depend on.  [settings] are
    the entries of the hash map in the order of its iteration. *)
Record ClientConfig := mkConfig {
  user : bytes;
  password : bytes;
  database : bytes;
  client_name : bytes;
  os_user : bytes;
  client_hostname : bytes;
  client_version_major : Z;
  client_version_minor : Z;
  client_version_patch : Z;
  client_revision : Z;
  compression : option CompressionMethod;
  settings : list (bytes * bytes);
  quota_key : bytes;
  chunked_mode : bytes * bytes;
  parallel_replicas_version : Z;
  initial_query_id : bytes;
  initial_user : bytes;
  initial_address : bytes;
  ssh_signer : option SshSigner;
}.

Definition default_config : ClientConfig := {|
  user := str "default"; password := []; database := []; client_name := str "st-clickhouse-sync";
  os_user := []; client_hostname := str "localhost";
  client_version_major := 26; client_version_minor := 4; client_version_patch := 1;
  client_revision := DEFAULT_PROTOCOL_REVISION; compression := None; settings := []; quota_key := [];
  chunked_mode := (str "chunked_optional", str "chunked_optional");
  parallel_replicas_version := 7; initial_query_id := []; initial_user := [];
  initial_address := str "0.0.0.0:0"; ssh_signer := None |}.

Record ServerInfo := mkServerInfo {
  name : bytes;
  major : Z;
  minor : Z;
  patch : Z;
  revision : Z;
  negotiated_revision : Z;
  timezone : option bytes;
  display_name : option bytes;
  server_parallel_replicas_protocol_version : Z;
  proto_send_chunked_srv : bytes;
  proto_recv_chunked_srv : bytes;
  use_chunked_send : bool;
  use_chunked_recv : bool;
  password_complexity_rules : list (bytes * bytes);
  interserver_secret_nonce : option Z;
  server_query_plan_serialization_version : option Z;
  worker_cluster_function_protocol_version : Z;
}.

(** The loop of [read_exception_chain]; the recursion bound is the depth limit. *)
Fixpoint exception_chain_loop (levels : nat) (parts : list bytes) : reader bytes :=
  match levels with
  | O => throw exception_too_deep
  | S levels =>
      let* code_buf := read_exact_r 4 in
      let code := i32_from_le code_buf in
      let* name := read_string in
      let* message := read_string in
      let* _stack := read_string in
      let parts := parts ++ [exception_part code name message] in
      let* has_nested := read_exact_r 1 in
      if byte0 has_nested =? 0 then ret (join_nested parts) else exception_chain_loop levels parts
  end.

Definition read_exception_chain : reader bytes :=
  exception_chain_loop (Z.to_nat MAX_EXCEPTION_CHAIN_DEPTH) [].

Definition settings_step (self : unit -> reader unit) (_ : unit) : reader unit :=
  let* name := read_string in
  if blen name =? 0 then ret tt
  else read_varint ;; read_string ;; self tt.

Definition skip_settings_strings_with_flags : reader unit :=
  deep STREAM_BITS settings_step (fun _ => throw ModelFuel) tt.

Definition client_hello (config : ClientConfig) : bytes :=
  encode_varint (ClientPacket.code ClientPacket.Hello) ++
  write_string (client_name config) ++
  write_varint (client_version_major config) ++
  write_varint (client_version_minor config) ++
  write_varint (client_revision config) ++
  write_string (database config) ++
  (if is_some (ssh_signer config)
   then write_string (ssh_auth_user (user config)) ++ write_string []
   else write_string (user config) ++ write_string (password config)).

(** The error a packet other than the expected one means. *)
Definition auth_exception {A} : reader A :=
  let* text := read_exception_chain in throw (Authentication (Msg "{}" [AS text])).

Definition read_challenge : reader bytes :=
  let* packet_type := read_varint in
  if packet_type =? ServerPacket.code ServerPacket.SSHChallenge then read_string_bytes
  else if packet_type =? ServerPacket.code ServerPacket.Exception then auth_exception
  else throw (Protocol (Msg "expected SSHChallenge or Exception packet, got {packet_type}" [AZ packet_type])).

Definition perform_ssh_auth (config : ClientConfig) (signer : SshSigner) : session unit :=
  send (write_varint (ClientPacket.code ClientPacket.SSHChallengeRequest)) ;;
  let* challenge := recv read_challenge in
  let to_sign := ssh_signature_message (client_revision config) (database config) (user config) challenge in
  let* signature := lift (map_err Authentication (signer to_sign)) in
  send (write_varint (ClientPacket.code ClientPacket.SSHChallengeResponse) ++ write_string signature).

Definition read_rules : reader (list (bytes * bytes)) :=
  let* v := read_varint in
  let* count := lift (protocol (checked_count v (str "password complexity rule") MAX_PASSWORD_COMPLEXITY_RULES)) in
  collect_n (Z.to_nat count) (let* pattern := read_string in let* message := read_string in ret (pattern, message)).

(** The part of [handshake] that reads the server hello. *)
Definition read_server_hello (client_revision : Z) : reader ServerInfo :=
  let* packet_type := read_varint in
  if packet_type =? ServerPacket.code ServerPacket.Exception then auth_exception
  else if negb (packet_type =? ServerPacket.code ServerPacket.Hello)
  then throw (Protocol (Msg "expected hello (0), got {packet_type}" [AZ packet_type]))
  else
    let* name := read_string in
    let* major := read_varint in
    let* minor := read_varint in
    let* server_revision := read_varint in
    let rev := effective_revision client_revision server_revision in
    let* replicas := field_since DBMS_MIN_REVISION_WITH_VERSIONED_PARALLEL_REPLICAS_PROTOCOL rev
                       DBMS_PARALLEL_REPLICAS_PROTOCOL_VERSION read_varint in
    let* timezone := field_since DBMS_MIN_REVISION_WITH_SERVER_TIMEZONE rev None
                       (let* s := read_string in ret (Some s)) in
    let* display_name := field_since DBMS_MIN_REVISION_WITH_SERVER_DISPLAY_NAME rev None
                           (let* s := read_string in ret (Some s)) in
    let* patch := field_since DBMS_MIN_REVISION_WITH_VERSION_PATCH rev 0 read_varint in
    let* (send_srv, recv_srv) := field_since DBMS_MIN_PROTOCOL_VERSION_WITH_CHUNKED_PACKETS rev ([], [])
        (let* s := read_string in let* r := read_string in ret (s, r)) in
    let* rules := field_since DBMS_MIN_PROTOCOL_VERSION_WITH_PASSWORD_COMPLEXITY_RULES rev [] read_rules in
    let* nonce := field_since DBMS_MIN_REVISION_WITH_INTERSERVER_SECRET_V2 rev None
                    (let* buf := read_exact_r 8 in ret (Some (i64_from_le buf))) in
    field_since DBMS_MIN_REVISION_WITH_SERVER_SETTINGS rev tt skip_settings_strings_with_flags ;;
    let* plan := field_since DBMS_MIN_REVISION_WITH_QUERY_PLAN_SERIALIZATION rev None
                   (let* v := read_varint in ret (Some v)) in
    let* cluster := field_since DBMS_MIN_REVISION_WITH_VERSIONED_CLUSTER_FUNCTION_PROTOCOL rev
                      DBMS_CLUSTER_PROCESSING_PROTOCOL_VERSION read_varint in
    ret (mkServerInfo name major minor patch server_revision rev timezone display_name replicas
           send_srv recv_srv false false rules nonce plan cluster).

Definition handshake (config : ClientConfig) : session ServerInfo :=
  lift (map_err Protocol (validate_supported_revision (client_revision config))) ;;
  if is_some (ssh_signer config) && (client_revision config <? DBMS_MIN_REVISION_WITH_SSH_AUTHENTICATION)
  then throw (Protocol ssh_revision_error)
  else
    send (client_hello config) ;;
    match ssh_signer config with Some signer => perform_ssh_auth config signer | None => ret tt end ;;
    recv (read_server_hello (client_revision config)).

(** [SyncClient::handshake_and_negotiate] of sync/client.rs. *)
Definition set_chunked (info : ServerInfo) (chunked : ChunkedNegotiation) : ServerInfo :=
  mkServerInfo (name info) (major info) (minor info) (patch info) (revision info) (negotiated_revision info)
    (timezone info) (display_name info) (server_parallel_replicas_protocol_version info)
    (proto_send_chunked_srv info) (proto_recv_chunked_srv info) (send_chunked chunked) (recv_chunked chunked)
    (password_complexity_rules info) (interserver_secret_nonce info)
    (server_query_plan_serialization_version info) (worker_cluster_function_protocol_version info).

Definition offer (info : ServerInfo) (config : ClientConfig) : ChunkedOffer :=
  mkOffer (negotiated_revision info) (proto_send_chunked_srv info) (proto_recv_chunked_srv info) (chunked_mode config).

Definition addendum (rev : Z) (quota_key : bytes) (chunked : ChunkedNegotiation) : bytes :=
  write_string quota_key ++
  since DBMS_MIN_PROTOCOL_VERSION_WITH_CHUNKED_PACKETS rev
    (write_string (send_mode chunked) ++ write_string (recv_mode chunked)) ++
  since DBMS_MIN_REVISION_WITH_VERSIONED_PARALLEL_REPLICAS_PROTOCOL rev
    (write_varint DBMS_PARALLEL_REPLICAS_PROTOCOL_VERSION).

Definition handshake_and_negotiate (config : ClientConfig) : session ServerInfo :=
  let* info := handshake config in
  if DBMS_MIN_PROTOCOL_VERSION_WITH_ADDENDUM <=? negotiated_revision info then
    let* chunked := lift (negotiate_chunked_transport (offer info config)) in
    send (addendum (negotiated_revision info) (quota_key config) chunked) ;;
    ret (set_chunked info chunked)
  else ret info.
End Sync.

(** ** The asynchronous engine *)
Module Async.

Record ServerInfo := mkServerInfo {
  name : bytes;
  version_major : Z;
  version_minor : Z;
  version_patch : Z;
  revision : Z;
  negotiated_revision : Z;
  timezone : bytes;
  display_name : bytes;
  server_parallel_replicas_protocol_version : Z;
  proto_send_chunked_srv : bytes;
  proto_recv_chunked_srv : bytes;
  password_complexity_rules : list (bytes * bytes);
  interserver_secret_nonce : option Z;
  server_query_plan_serialization_version : option Z;
  worker_cluster_function_protocol_version : Z;
  chunked_send : bytes;
  chunked_recv : bytes;
}.

Fixpoint exception_chain_loop (levels : nat) (parts : list bytes) : reader bytes :=
  match levels with
  | O => throw exception_too_deep
  | S levels =>
      let* code := async_read_i32 in
      let* name := async_read_string in
      let* message := async_read_string in
      let* _stack := async_read_string in
      let parts := parts ++ [exception_part code name message] in
      let* has_nested := read_exact_r 1 in
      if byte0 has_nested =? 0 then ret (join_nested parts) else exception_chain_loop levels parts
  end.

Definition read_exception_chain : reader bytes :=
  exception_chain_loop (Z.to_nat MAX_EXCEPTION_CHAIN_DEPTH) [].

Definition settings_step (self : unit -> reader unit) (_ : unit) : reader unit :=
  let* name := async_read_string in
  if blen name =? 0 then ret tt
  else async_read_varint ;; async_read_string ;; self tt.

Definition skip_settings_strings_with_flags : reader unit :=
  deep STREAM_BITS settings_step (fun _ => throw ModelFuel) tt.

Definition client_hello (client_name : bytes) (revision : Z) (database user password : bytes)
    (ssh_signer : option SshSigner) : bytes :=
  write_varint (ClientPacket.code ClientPacket.Hello) ++
  write_string client_name ++
  write_varint 26 ++
  write_varint 4 ++
  write_varint revision ++
  write_string database ++
  (if is_some ssh_signer
   then write_string (ssh_auth_user user) ++ write_string []
   else write_string user ++ write_string password).

Definition auth_exception {A} : reader A :=
  let* text := read_exception_chain in throw (Authentication (Msg "{}" [AS text])).

Definition read_challenge : reader bytes :=
  let* packet_type := async_read_varint in
  if packet_type =? ServerPacket.code ServerPacket.SSHChallenge then async_read_string_bytes
  else if packet_type =? ServerPacket.code ServerPacket.Exception then auth_exception
  else throw (Protocol (Msg "expected SSHChallenge or Exception packet, got {packet_type}" [AZ packet_type])).

Definition perform_ssh_auth (revision : Z) (database user : bytes) (signer : SshSigner) : session unit :=
  send (write_varint (ClientPacket.code ClientPacket.SSHChallengeRequest)) ;;
  let* challenge := recv read_challenge in
  let to_sign := ssh_signature_message revision database user challenge in
  let* signature := lift (map_err Authentication (signer to_sign)) in
  send (write_varint (ClientPacket.code ClientPacket.SSHChallengeResponse) ++ write_string signature).

Definition read_rules : reader (list (bytes * bytes)) :=
  let* v := async_read_varint in
  let* count := lift (protocol (checked_count v (str "password complexity rule") MAX_PASSWORD_COMPLEXITY_RULES)) in
  collect_n (Z.to_nat count)
    (let* pattern := async_read_string in let* message := async_read_string in ret (pattern, message)).

Definition read_server_hello (client_revision : Z) : reader ServerInfo :=
  let* packet_type := async_read_varint in
  if packet_type =? ServerPacket.code ServerPacket.Exception then auth_exception
  else if negb (packet_type =? ServerPacket.code ServerPacket.Hello)
  then throw (Protocol (Msg "expected Hello packet, got {packet_type}" [AZ packet_type]))
  else
    let* name := async_read_string in
    let* version_major := async_read_varint in
    let* version_minor := async_read_varint in
    let* server_revision := async_read_varint in
    let rev := effective_revision client_revision server_revision in
    let* replicas := field_since DBMS_MIN_REVISION_WITH_VERSIONED_PARALLEL_REPLICAS_PROTOCOL rev
                       DBMS_PARALLEL_REPLICAS_PROTOCOL_VERSION async_read_varint in
    let* timezone := field_since DBMS_MIN_REVISION_WITH_SERVER_TIMEZONE rev [] async_read_string in
    let* display_name := field_since DBMS_MIN_REVISION_WITH_SERVER_DISPLAY_NAME rev [] async_read_string in
    let* version_patch := field_since DBMS_MIN_REVISION_WITH_VERSION_PATCH rev 0 async_read_varint in
    let* (send_srv, recv_srv) := field_since DBMS_MIN_PROTOCOL_VERSION_WITH_CHUNKED_PACKETS rev ([], [])
        (let* s := async_read_string in let* r := async_read_string in ret (s, r)) in
    let* rules := field_since DBMS_MIN_PROTOCOL_VERSION_WITH_PASSWORD_COMPLEXITY_RULES rev [] read_rules in
    let* nonce := field_since DBMS_MIN_REVISION_WITH_INTERSERVER_SECRET_V2 rev None
                    (let* buf := read_exact_r 8 in ret (Some (i64_from_le buf))) in
    field_since DBMS_MIN_REVISION_WITH_SERVER_SETTINGS rev tt skip_settings_strings_with_flags ;;
    let* plan := field_since DBMS_MIN_REVISION_WITH_QUERY_PLAN_SERIALIZATION rev None
                   (let* v := async_read_varint in ret (Some v)) in
    let* cluster := field_since DBMS_MIN_REVISION_WITH_VERSIONED_CLUSTER_FUNCTION_PROTOCOL rev
                      DBMS_CLUSTER_PROCESSING_PROTOCOL_VERSION async_read_varint in
    ret (mkServerInfo name version_major version_minor version_patch server_revision rev timezone display_name
           replicas send_srv recv_srv rules nonce plan cluster [] []).

Definition handshake (client_name : bytes) (revision : Z) (database user password : bytes)
    (ssh_signer : option SshSigner) : session ServerInfo :=
  lift (map_err Config (validate_supported_revision revision)) ;;
  if is_some ssh_signer && (revision <? DBMS_MIN_REVISION_WITH_SSH_AUTHENTICATION)
  then throw (Config ssh_revision_error)
  else
    send (client_hello client_name revision database user password ssh_signer) ;;
    match ssh_signer with Some signer => perform_ssh_auth revision database user signer | None => ret tt end ;;
    recv (read_server_hello revision).

(** [negotiate_chunked_transport] of pool.rs. *)
Definition negotiate_chunked_transport (info : ServerInfo) : result error ChunkedNegotiation :=
  if negotiated_revision info <? DBMS_MIN_PROTOCOL_VERSION_WITH_CHUNKED_PACKETS
  then Ok (mkNegotiation (str "notchunked") (str "notchunked") false false)
  else
    let* send_chunked := choose_chunked_mode (proto_recv_chunked_srv info) (str "chunked_optional") "send" in
    let* recv_chunked := choose_chunked_mode (proto_send_chunked_srv info) (str "chunked_optional") "recv" in
    Ok (mkNegotiation (mode_name send_chunked) (mode_name recv_chunked) send_chunked recv_chunked).

Definition set_chunked (info : ServerInfo) (chunked : ChunkedNegotiation) : ServerInfo :=
  mkServerInfo (name info) (version_major info) (version_minor info) (version_patch info) (revision info)
    (negotiated_revision info) (timezone info) (display_name info) (server_parallel_replicas_protocol_version info)
    (proto_send_chunked_srv info) (proto_recv_chunked_srv info) (password_complexity_rules info)
    (interserver_secret_nonce info) (server_query_plan_serialization_version info)
    (worker_cluster_function_protocol_version info) (send_mode chunked) (recv_mode chunked).

(** The part of [connect_raw_inner] from the handshake to the addendum; the ping follows.
    When the framing is switched, [StreamWrapper::set_chunked] also drops what the stream
    had read ahead, which is nothing while the server is silent from the end of its hello
    until the Ping; here it stays to be read. *)
Definition connect_session (database user password quota_key : bytes) (ssh_signer : option SshSigner)
  : session (ServerInfo * ChunkedNegotiation) :=
  let* info := handshake (str "st-clickhouse") DEFAULT_PROTOCOL_REVISION database user password ssh_signer in
  let* chunked := lift (negotiate_chunked_transport info) in
  let info := set_chunked info chunked in
  (if DBMS_MIN_PROTOCOL_VERSION_WITH_ADDENDUM <=? negotiated_revision info then
     send (write_string quota_key ++
       since DBMS_MIN_PROTOCOL_VERSION_WITH_CHUNKED_PACKETS (negotiated_revision info)
         (write_string (send_mode chunked) ++ write_string (recv_mode chunked)) ++
       since DBMS_MIN_REVISION_WITH_VERSIONED_PARALLEL_REPLICAS_PROTOCOL (negotiated_revision info)
         (write_varint DBMS_PARALLEL_REPLICAS_PROTOCOL_VERSION))
   else ret tt) ;;
  ret (info, chunked).
End Async.

(** ** What a server sends

    The fields of a server hello, and its layout for a client whose revision makes [rev]
    the negotiated one. *)
Record ServerHello := mkHello {
  h_name : bytes;
  h_major : Z;
  h_minor : Z;
  h_revision : Z;
  h_replicas : Z;
  h_timezone : bytes;
  h_display_name : bytes;
  h_patch : Z;
  h_send_chunked : bytes;
  h_recv_chunked : bytes;
  h_rules : list (bytes * bytes);
  h_nonce : Z;
  h_settings : list (bytes * Z * bytes);
  h_plan : Z;
  h_cluster : Z;
}.

Definition write_rule (rule : bytes * bytes) : bytes := write_string (fst rule) ++ write_string (snd rule).

Definition write_setting (setting : bytes * Z * bytes) : bytes :=
  let '(name, flags, value) := setting in write_string name ++ write_varint flags ++ write_string value.

Definition write_server_hello (rev : Z) (h : ServerHello) : bytes :=
  write_varint 0 ++ write_string (h_name h) ++ write_varint (h_major h) ++ write_varint (h_minor h) ++
  write_varint (h_revision h) ++
  since DBMS_MIN_REVISION_WITH_VERSIONED_PARALLEL_REPLICAS_PROTOCOL rev (write_varint (h_replicas h)) ++
  since DBMS_MIN_REVISION_WITH_SERVER_TIMEZONE rev (write_string (h_timezone h)) ++
  since DBMS_MIN_REVISION_WITH_SERVER_DISPLAY_NAME rev (write_string (h_display_name h)) ++
  since DBMS_MIN_REVISION_WITH_VERSION_PATCH rev (write_varint (h_patch h)) ++
  since DBMS_MIN_PROTOCOL_VERSION_WITH_CHUNKED_PACKETS rev
    (write_string (h_send_chunked h) ++ write_string (h_recv_chunked h)) ++
  since DBMS_MIN_PROTOCOL_VERSION_WITH_PASSWORD_COMPLEXITY_RULES rev
    (write_varint (blen (h_rules h)) ++ concat (map write_rule (h_rules h))) ++
  since DBMS_MIN_REVISION_WITH_INTERSERVER_SECRET_V2 rev (to_le 8 (h_nonce h)) ++
  since DBMS_MIN_REVISION_WITH_SERVER_SETTINGS rev (concat (map write_setting (h_settings h)) ++ write_string []) ++
  since DBMS_MIN_REVISION_WITH_QUERY_PLAN_SERIALIZATION rev (write_varint (h_plan h)) ++
  since DBMS_MIN_REVISION_WITH_VERSIONED_CLUSTER_FUNCTION_PROTOCOL rev (write_varint (h_cluster h)).

Definition u64_value (v : Z) : bool := (0 <=? v) && (v <=? U64_MAX).

Definition wf_setting (setting : bytes * Z * bytes) : bool :=
  let '(name, flags, value) := setting in
  wire_text name && negb (blen name =? 0) && u64_value flags && wire_text value.

(** A hello whose strings are text and whose numbers fit their fields. *)
Definition wf_hello (h : ServerHello) : bool :=
  wire_text (h_name h) && u64_value (h_major h) && u64_value (h_minor h) && u64_value (h_revision h) &&
  u64_value (h_replicas h) && wire_text (h_timezone h) && wire_text (h_display_name h) && u64_value (h_patch h) &&
  wire_text (h_send_chunked h) && wire_text (h_recv_chunked h) &&
  (blen (h_rules h) <=? MAX_PASSWORD_COMPLEXITY_RULES) &&
  forallb (fun rule => wire_text (fst rule) && wire_text (snd rule)) (h_rules h) &&
  (- 2 ^ 63 <=? h_nonce h) && (h_nonce h <? 2 ^ 63) && (Z.of_nat (length (h_settings h)) <? ISIZE_MAX) &&
  forallb wf_setting (h_settings h) && u64_value (h_plan h) && u64_value (h_cluster h).

(** A field the client knows only from some revision on. *)
Definition known_since {A} (min_revision revision : Z) (absent present : A) : A :=
  if min_revision <=? revision then present else absent.

(** What the client is to learn from a hello. *)
Definition learned (rev : Z) (h : ServerHello) : Sync.ServerInfo :=
  Sync.mkServerInfo (h_name h) (h_major h) (h_minor h)
    (known_since DBMS_MIN_REVISION_WITH_VERSION_PATCH rev 0 (h_patch h))
    (h_revision h) rev
    (known_since DBMS_MIN_REVISION_WITH_SERVER_TIMEZONE rev None (Some (h_timezone h)))
    (known_since DBMS_MIN_REVISION_WITH_SERVER_DISPLAY_NAME rev None (Some (h_display_name h)))
    (known_since DBMS_MIN_REVISION_WITH_VERSIONED_PARALLEL_REPLICAS_PROTOCOL rev
       DBMS_PARALLEL_REPLICAS_PROTOCOL_VERSION (h_replicas h))
    (known_since DBMS_MIN_PROTOCOL_VERSION_WITH_CHUNKED_PACKETS rev [] (h_send_chunked h))
    (known_since DBMS_MIN_PROTOCOL_VERSION_WITH_CHUNKED_PACKETS rev [] (h_recv_chunked h))
    false false
    (known_since DBMS_MIN_PROTOCOL_VERSION_WITH_PASSWORD_COMPLEXITY_RULES rev [] (h_rules h))
    (known_since DBMS_MIN_REVISION_WITH_INTERSERVER_SECRET_V2 rev None (Some (h_nonce h)))
    (known_since DBMS_MIN_REVISION_WITH_QUERY_PLAN_SERIALIZATION rev None (Some (h_plan h)))
    (known_since DBMS_MIN_REVISION_WITH_VERSIONED_CLUSTER_FUNCTION_PROTOCOL rev
       DBMS_CLUSTER_PROCESSING_PROTOCOL_VERSION (h_cluster h)).

(** The two engines' records of the same server. *)
Definition same_server (s : Sync.ServerInfo) (a : Async.ServerInfo) : Prop :=
  Sync.name s = Async.name a /\ Sync.major s = Async.version_major a /\ Sync.minor s = Async.version_minor a /\
  Sync.patch s = Async.version_patch a /\ Sync.revision s = Async.revision a /\
  Sync.negotiated_revision s = Async.negotiated_revision a /\
  match Sync.timezone s with Some t => t | None => [] end = Async.timezone a /\
  match Sync.display_name s with Some t => t | None => [] end = Async.display_name a /\
  Sync.server_parallel_replicas_protocol_version s = Async.server_parallel_replicas_protocol_version a /\
  Sync.proto_send_chunked_srv s = Async.proto_send_chunked_srv a /\
  Sync.proto_recv_chunked_srv s = Async.proto_recv_chunked_srv a /\
  Sync.password_complexity_rules s = Async.password_complexity_rules a /\
  Sync.interserver_secret_nonce s = Async.interserver_secret_nonce a /\
  Sync.server_query_plan_serialization_version s = Async.server_query_plan_serialization_version a /\
  Sync.worker_cluster_function_protocol_version s = Async.worker_cluster_function_protocol_version a.

(** ** Reading a hello back *)

(** Split a conjunction of checks into its checks, without unfolding them. *)
Ltac andb_all :=
  repeat match goal with
  | H : context [(_ && _) = true] |- _ => rewrite andb_true_iff in H
  | H : _ /\ _ |- _ => destruct H
  end.

Lemma u64_value_inv v : u64_value v = true -> 0 <= v <= U64_MAX.
Proof. unfold u64_value. intros H. apply andb_prop in H as [? ?]. lia. Qed.

Lemma reads_varint v : u64_value v = true -> reads read_varint (write_varint v) v.
Proof. intros H rest. apply read_encode_varint. now apply u64_value_inv. Qed.

Lemma reads_string s : wire_text s = true -> reads read_string (write_string s) s.
Proof. intros H rest. apply wire_text_inv in H as [? ?]. now apply read_string_written. Qed.

Lemma reads_string_bytes s : blen s <= MAX_STRING_BYTES -> reads read_string_bytes (write_string s) s.
Proof. intros H rest. now apply read_write_string_bytes. Qed.

Lemma reads_since {A} min rev (m : reader A) w absent present :
  reads m w present ->
  reads (field_since min rev absent m) (since min rev w) (known_since min rev absent present).
Proof. unfold field_since, since, known_since. destruct (min <=? rev); [auto|intros _; apply reads_ret]. Qed.

Lemma reads_map {A B} (m : reader A) (f : A -> B) w a :
  reads m w a -> reads (let* x := m in ret (f x)) w (f a).
Proof. intros H. eapply reads_last; [exact H|apply reads_ret]. Qed.

Lemma reads_rules rules :
  (blen rules <=? MAX_PASSWORD_COMPLEXITY_RULES) = true ->
  forallb (fun rule => wire_text (fst rule) && wire_text (snd rule)) rules = true ->
  reads Sync.read_rules (write_varint (blen rules) ++ concat (map write_rule rules)) rules.
Proof.
  intros Hn Hrules. pose proof (blen_nonneg rules). unfold MAX_PASSWORD_COMPLEXITY_RULES in *.
  eapply reads_bind; [apply reads_varint; unfold u64_value, U64_MAX; lia|].
  eapply reads_first; [apply reads_lift|].
  - unfold checked_count, usize_try_from, try_from_max. cbn -[Z.leb Z.ltb USIZE_MAX MAX_PASSWORD_COMPLEXITY_RULES].
    unfold MAX_PASSWORD_COMPLEXITY_RULES, USIZE_MAX. bool_cases; try lia. reflexivity.
  - unfold blen. rewrite Nat2Z.id. apply reads_collect_n. apply Forall_forall. intros [p m] Hin.
    rewrite forallb_forall in Hrules. specialize (Hrules _ Hin). apply andb_prop in Hrules as [Hp Hm].
    eapply reads_bind; [now apply reads_string|]. now apply reads_map, reads_string.
Qed.

(** The settings loop, within [n] rounds. *)
Lemma reads_settings settings :
  (Z.of_nat (length settings) <? ISIZE_MAX) = true -> forallb wf_setting settings = true ->
  reads Sync.skip_settings_strings_with_flags (concat (map write_setting settings) ++ write_string []) tt.
Proof.
  intros Hlen Hwf. unfold Sync.skip_settings_strings_with_flags.
  assert (forall n f, (forall l, Z.of_nat (length l) < n -> forallb wf_setting l = true ->
            reads (f tt) (concat (map write_setting l) ++ write_string []) tt) ->
          (forall l, Z.of_nat (length l) < n + 1 -> forallb wf_setting l = true ->
            reads (Sync.settings_step f tt) (concat (map write_setting l) ++ write_string []) tt)) as Hstep.
  { intros n f IH [|[[name flags] value] l] Hl Hw.
    - intros rest. unfold Sync.settings_step. cbn [map concat app].
      rewrite (run_bind_ok _ _ _ _ _ (reads_string [] eq_refl rest)). reflexivity.
    - cbn [forallb] in Hw. apply andb_prop in Hw as [H1 Hw]. unfold wf_setting in H1.
      andb_all. cbn [map concat write_setting]. rewrite <- !app_assoc.
      eapply reads_bind; [now apply reads_string|]. destruct (blen name =? 0); [discriminate|].
      eapply reads_bind; [now apply reads_varint|]. eapply reads_bind; [now apply reads_string|].
      apply IH; [cbn [length] in Hl; lia|exact Hw]. }
  apply (deep_ind Sync.settings_step (fun n f => forall l, Z.of_nat (length l) < n -> forallb wf_setting l = true ->
           reads (f tt) (concat (map write_setting l) ++ write_string []) tt) Hstep STREAM_BITS 0).
  - intros l Hl. lia.
  - unfold STREAM_BITS, ISIZE_MAX in *. lia.
  - exact Hwf.
Qed.

Lemma i64_from_to_le z : (- 2 ^ 63 <=? z) = true -> (z <? 2 ^ 63) = true -> i64_from_le (to_le 8 z) = z.
Proof.
  intros H1 H2. unfold i64_from_le, from_le, to_le.
  rewrite LittleEndianList.le_combine_split. change (2 ^ (Z.of_nat 8 * 8)) with (2 ^ 64).
  destruct (Z.leb_spec 0 z).
  - rewrite Z.mod_small by lia. destruct (Z.ltb_spec z (2 ^ 63)); lia.
  - replace (z mod 2 ^ 64) with (z + 2 ^ 64).
    + destruct (Z.ltb_spec (z + 2 ^ 64) (2 ^ 63)); lia.
    + rewrite <- (Z.mod_add z 1) by lia. rewrite Z.mod_small; lia.
Qed.

Lemma reads_hello client_revision h :
  wf_hello h = true ->
  reads (Sync.read_server_hello client_revision)
    (write_server_hello (effective_revision client_revision (h_revision h)) h)
    (learned (effective_revision client_revision (h_revision h)) h).
Proof.
  intros Hwf. unfold wf_hello in Hwf. andb_all.
  unfold Sync.read_server_hello, write_server_hello, learned.
  eapply reads_bind; [now apply reads_varint|]. cbv iota beta.
  cbn [ServerPacket.code Z.eqb Pos.eqb negb].
  eapply reads_bind; [now apply reads_string|]. eapply reads_bind; [now apply reads_varint|].
  eapply reads_bind; [now apply reads_varint|]. eapply reads_bind; [now apply reads_varint|]. cbv zeta.
  generalize (effective_revision client_revision (h_revision h)). intros rev.
  eapply reads_bind; [now apply reads_since, reads_varint|].
  eapply reads_bind; [now apply reads_since, reads_map, reads_string|].
  eapply reads_bind; [now apply reads_since, reads_map, reads_string|].
  eapply reads_bind; [now apply reads_since, reads_varint|].
  eapply (reads_bind _ _ _ _ (known_since _ rev ([], []) (h_send_chunked h, h_recv_chunked h))).
  { apply reads_since. eapply reads_bind; [now apply reads_string|]. now apply reads_map, reads_string. }
  replace (known_since DBMS_MIN_PROTOCOL_VERSION_WITH_CHUNKED_PACKETS rev ([], []) (h_send_chunked h, h_recv_chunked h))
    with (known_since DBMS_MIN_PROTOCOL_VERSION_WITH_CHUNKED_PACKETS rev [] (h_send_chunked h),
          known_since DBMS_MIN_PROTOCOL_VERSION_WITH_CHUNKED_PACKETS rev [] (h_recv_chunked h))
    by (unfold known_since; now destruct (_ <=? rev)).
  cbv iota beta.
  eapply reads_bind; [now apply reads_since, reads_rules|].
  eapply reads_bind.
  { apply (reads_since _ _ _ _ None (Some (h_nonce h))).
    rewrite <- (i64_from_to_le (h_nonce h)) at 2 by assumption.
    apply (reads_map _ (fun buf => Some (i64_from_le buf))). now apply reads_exact. }
  eapply reads_bind; [now apply reads_since, reads_settings|].
  eapply reads_bind; [now apply reads_since, reads_map, reads_varint|].
  eapply reads_last; [now apply reads_since, reads_varint|]. apply reads_ret.
Qed.

(** ** A server that lets the client in *)

Section Server.
Context {S : Type} `{Peer S} (config : Sync.ClientConfig).

(** The server's side of the authentication, from state [s] to state [s']; [out] is what it
    sends once it is satisfied. *)
Inductive admits (s s' : S) (out : bytes) : Prop :=
| admits_password :
    Sync.ssh_signer config = None ->
    hears s (Sync.client_hello config) = (s', out) -> admits s s' out
| admits_key s1 s2 signer challenge signature :
    Sync.ssh_signer config = Some signer ->
    DBMS_MIN_REVISION_WITH_SSH_AUTHENTICATION <= Sync.client_revision config ->
    blen challenge <= MAX_STRING_BYTES ->
    hears s (Sync.client_hello config) = (s1, []) ->
    hears s1 (write_varint (ClientPacket.code ClientPacket.SSHChallengeRequest)) =
      (s2, write_varint (ServerPacket.code ServerPacket.SSHChallenge) ++ write_string challenge) ->
    signer (ssh_signature_message (Sync.client_revision config) (Sync.database config) (Sync.user config) challenge) =
      Ok signature ->
    hears s2 (write_varint (ClientPacket.code ClientPacket.SSHChallengeResponse) ++ write_string signature) = (s', out) ->
    admits s s' out.

Lemma reads_challenge challenge :
  blen challenge <= MAX_STRING_BYTES ->
  reads Sync.read_challenge
    (write_varint (ServerPacket.code ServerPacket.SSHChallenge) ++ write_string challenge) challenge.
Proof. intros Hc. eapply reads_bind; [now apply reads_varint|]. now apply reads_string_bytes. Qed.

(** Up to the server hello, the handshake depends on the server only through [admits]. *)
Lemma handshake_admitted s s' out :
  validate_supported_revision (Sync.client_revision config) = Ok tt -> admits s s' out ->
  play (Sync.handshake config) s [] =
  match run (Sync.read_server_hello (Sync.client_revision config)) out with
  | Ok (info, rest) => Ok (info, (s', rest))
  | Err e => Err e
  end.
Proof.
  intros Hrev Hadm. unfold Sync.handshake. rewrite play_bind, Hrev. cbn [map_err]. rewrite play_lift.
  destruct Hadm as [Hs Hh | s1 s2 signer challenge signature Hs Hmin Hc Hh Hreq Hsig Hresp]; rewrite Hs.
  - cbn [is_some andb]. erewrite play_bind_ok by (apply play_send, Hh). cbv beta.
    erewrite play_bind_ok by reflexivity. apply play_recv.
  - cbn [is_some]. destruct (Z.ltb_spec (Sync.client_revision config) DBMS_MIN_REVISION_WITH_SSH_AUTHENTICATION); [lia|].
    cbn [andb]. erewrite play_bind_ok by (apply play_send, Hh). cbv beta. cbn [app].
    assert (play (Sync.perform_ssh_auth config signer) s1 [] = Ok (tt, (s', out))) as E.
    { unfold Sync.perform_ssh_auth. erewrite play_bind_ok by (apply play_send, Hreq). cbv beta. cbn [app].
      erewrite play_bind_ok; [|apply play_recv_ok; rewrite <- (app_nil_r (_ ++ _)); now apply reads_challenge].
      cbv beta zeta. rewrite Hsig. erewrite play_bind_ok by reflexivity. exact (play_send _ _ [] _ _ Hresp). }
    rewrite (play_bind_ok _ _ _ _ _ _ _ E). apply play_recv.
Qed.
End Server.

(** C21: The handshake succeeds, by password or by key, with a conforming server of a
    revision that has the addendum (54458 or later) and with whose framing the client's can
    be negotiated: the client learns the fields of the hello that the negotiated revision
    brings, tells the server the framing they agree on, and leaves what follows the hello
    unread. *)
Theorem handshake_establishes {S : Type} `{Peer S} (config : Sync.ClientConfig) (h : ServerHello)
    (s s1 s2 : S) (rest answer : bytes) (chunked : ChunkedNegotiation) :
  let rev := effective_revision (Sync.client_revision config) (h_revision h) in
  validate_supported_revision (Sync.client_revision config) = Ok tt -> wf_hello h = true ->
  admits config s s1 (write_server_hello rev h ++ rest) ->
  DBMS_MIN_PROTOCOL_VERSION_WITH_ADDENDUM <= rev ->
  negotiate_chunked_transport (Sync.offer (learned rev h) config) = Ok chunked ->
  hears s1 (Sync.addendum rev (Sync.quota_key config) chunked) = (s2, answer) ->
  play (Sync.handshake_and_negotiate config) s [] =
    Ok (Sync.set_chunked (learned rev h) chunked, (s2, rest ++ answer)).
Proof.
  intros rev Hrev Hh Hadm Hadd Hneg Hs2. unfold Sync.handshake_and_negotiate.
  rewrite play_bind, (handshake_admitted config s s1 _ Hrev Hadm). unfold rev.
  rewrite (reads_hello (Sync.client_revision config) h Hh rest). fold rev.
  change (Sync.negotiated_revision (learned _ h)) with rev.
  destruct (Z.leb_spec DBMS_MIN_PROTOCOL_VERSION_WITH_ADDENDUM rev); [|lia].
  rewrite play_bind, play_lift, Hneg.
  erewrite play_bind_ok by (apply play_send, Hs2). reflexivity.
Qed.


(** ** Both engines shake hands alike *)

Lemma varint_alike : reads_alike eq read_varint async_read_varint.
Proof. apply reads_alike_eq. intros l. symmetry. apply async_read_varint_eq. Qed.

Lemma string_alike : reads_alike eq read_string async_read_string.
Proof.
  eapply reads_alike_bind; [exact varint_alike|]. intros v ? <-.
  eapply reads_alike_bind; [apply reads_alike_refl|]. intros len ? <-.
  eapply reads_alike_bind; [apply reads_alike_refl|]. intros buf ? <-.
  apply reads_alike_lift. unfold from_utf8. now destruct (utf8_valid buf).
Qed.

Lemma string_bytes_alike : reads_alike eq read_string_bytes async_read_string_bytes.
Proof.
  eapply reads_alike_bind; [exact varint_alike|]. intros v ? <-. apply reads_alike_refl.
Qed.

#[export] Hint Resolve varint_alike string_alike string_bytes_alike : alike.

Lemma exception_alike {A B} (R : A -> B -> Prop) : reads_alike R Sync.auth_exception Async.auth_exception.
Proof.
  unfold Sync.auth_exception, Async.auth_exception. eapply reads_alike_bind; [|intros; apply reads_alike_throw].
  unfold Sync.read_exception_chain, Async.read_exception_chain.
  generalize (Z.to_nat MAX_EXCEPTION_CHAIN_DEPTH) as n, (@nil bytes) as parts.
  induction n as [|n IH]; intros parts; [apply (reads_alike_throw eq)|].
  cbn [Sync.exception_chain_loop Async.exception_chain_loop].
  apply (reads_alike_bind (fun buf code => i32_from_le buf = code)).
  { intros l. unfold async_read_i32. rewrite run_bind. destruct (run (read_exact_r 4) l) as [[buf rest]|e]; cbn; auto. }
  intros buf code <-. repeat alike_step; [now apply reads_alike_ret|apply IH].
Qed.

Lemma settings_alike :
  reads_alike eq Sync.skip_settings_strings_with_flags Async.skip_settings_strings_with_flags.
Proof.
  apply (deep_related (fun f g => reads_alike eq (f tt) (g tt))); [|apply reads_alike_throw].
  intros f g Hfg. unfold Sync.settings_step, Async.settings_step.
  repeat alike_step; [now apply reads_alike_ret|exact Hfg].
Qed.

Lemma rules_alike : reads_alike eq Sync.read_rules Async.read_rules.
Proof.
  unfold Sync.read_rules, Async.read_rules. repeat alike_step. apply reads_alike_collect_n.
  repeat alike_step. now apply reads_alike_ret.
Qed.

Lemma since_alike {A B} (R : A -> B -> Prop) min rev absent absent' m m' :
  R absent absent' -> reads_alike R m m' ->
  reads_alike R (field_since min rev absent m) (field_since min rev absent' m').
Proof. intros Ha Hm. apply reads_alike_if; [exact Hm|now apply reads_alike_ret]. Qed.

Lemma since_alike_eq {A} min rev (absent : A) m m' :
  reads_alike eq m m' -> reads_alike eq (field_since min rev absent m) (field_since min rev absent m').
Proof. now apply since_alike. Qed.

Lemma map_alike {A B} (f : A -> B) m m' :
  reads_alike eq m m' -> reads_alike eq (let* x := m in ret (f x)) (let* x := m' in ret (f x)).
Proof. intros Hm. eapply reads_alike_bind; [exact Hm|]. intros a ? <-. now apply reads_alike_ret. Qed.

(** An optional string of the one engine and the possibly empty one of the other. *)
Lemma some_alike min rev m m' :
  reads_alike eq m m' ->
  reads_alike (fun (o : option bytes) s => match o with Some t => t | None => [] end = s)
    (field_since min rev None (let* s := m in ret (Some s))) (field_since min rev [] m').
Proof.
  intros Hm. apply since_alike; [reflexivity|]. intros l. specialize (Hm l). rewrite run_bind.
  destruct (run m l) as [[a rest]|e], (run m' l) as [[b rest']|e']; cbn; auto.
Qed.

(** The two records right after the hello: the framing is not negotiated yet. *)
Definition fresh_server (s : Sync.ServerInfo) (a : Async.ServerInfo) : Prop :=
  same_server s a /\ Sync.use_chunked_send s = false /\ Sync.use_chunked_recv s = false.

#[local] Hint Resolve since_alike_eq map_alike rules_alike : alike.

Lemma hello_alike client_revision :
  reads_alike fresh_server (Sync.read_server_hello client_revision) (Async.read_server_hello client_revision).
Proof.
  unfold Sync.read_server_hello, Async.read_server_hello. alike_step.
  apply reads_alike_if; [apply exception_alike|]. apply reads_alike_if; [apply reads_alike_throw|].
  do 5 alike_step.
  eapply reads_alike_bind; [apply some_alike, string_alike|]. intros tz ? <-.
  eapply reads_alike_bind; [apply some_alike, string_alike|]. intros dn ? <-.
  alike_step.
  eapply reads_alike_bind.
  { apply since_alike_eq. repeat alike_step. apply reads_alike_ret. reflexivity. }
  intros [send_srv recv_srv] ? <-. do 2 alike_step.
  eapply reads_alike_bind; [exact (since_alike_eq _ _ _ _ _ settings_alike)|]. intros ? ? _.
  do 2 alike_step. apply reads_alike_ret. repeat split.
Qed.

(** The configuration of the synchronous client that the asynchronous one has built in. *)
Definition matching_config (database user password quota_key : bytes) (ssh_signer : option SshSigner)
  : Sync.ClientConfig :=
  let d := Sync.default_config in
  Sync.mkConfig user password database (str "st-clickhouse") (Sync.os_user d) (Sync.client_hostname d)
    26 4 (Sync.client_version_patch d) DEFAULT_PROTOCOL_REVISION None [] quota_key (Sync.chunked_mode d)
    (Sync.parallel_replicas_version d) [] [] (Sync.initial_address d) ssh_signer.

Lemma handshake_alike database user password quota_key ssh_signer :
  alike fresh_server (Sync.handshake (matching_config database user password quota_key ssh_signer))
    (Async.handshake (str "st-clickhouse") DEFAULT_PROTOCOL_REVISION database user password ssh_signer).
Proof.
  unfold Sync.handshake, Async.handshake.
  eapply (alike_bind eq); [apply alike_lift; reflexivity|]. intros _ _ _. cbn [Sync.ssh_signer matching_config].
  apply alike_if; [apply alike_throw|].
  eapply (alike_bind eq); [apply alike_send|]. intros _ _ _.
  eapply (alike_bind eq).
  - destruct ssh_signer as [signer|]; [|now apply alike_ret]. unfold Sync.perform_ssh_auth, Async.perform_ssh_auth.
    eapply (alike_bind eq); [apply alike_send|]. intros _ _ _.
    eapply (alike_bind eq).
    + apply alike_recv. unfold Sync.read_challenge, Async.read_challenge. alike_step.
      repeat (apply reads_alike_if; [first [apply string_bytes_alike|apply exception_alike]|]). apply reads_alike_throw.
    + intros challenge ? <-. cbv zeta. eapply (alike_bind eq); [|intros signature ? <-; apply alike_send].
      apply alike_lift. cbn [Sync.client_revision Sync.database Sync.user matching_config].
      now destruct (signer _).
  - intros _ _ _. apply alike_recv. apply hello_alike.
Qed.

Lemma negotiate_alike info info' database user password quota_key ssh_signer :
  same_server info info' ->
  negotiate_chunked_transport (Sync.offer info (matching_config database user password quota_key ssh_signer)) =
  Async.negotiate_chunked_transport info'.
Proof.
  intros (_ & _ & _ & _ & _ & Hrev & _ & _ & _ & Hs & Hr & _).
  unfold negotiate_chunked_transport, Async.negotiate_chunked_transport, Sync.offer. cbn. now rewrite Hrev, Hs, Hr.
Qed.

(** C22: The two engines connect alike: against every server they write the same bytes at the
    same points, read the same bytes, and end up with the same view of the server and the
    same framing, or both fail. *)
Theorem engines_connect_alike (database user password quota_key : bytes) (ssh_signer : option SshSigner) :
  alike (fun (info : Sync.ServerInfo) '(info', chunked) =>
           same_server info info' /\ Sync.use_chunked_send info = send_chunked chunked /\
           Sync.use_chunked_recv info = recv_chunked chunked)
    (Sync.handshake_and_negotiate (matching_config database user password quota_key ssh_signer))
    (Async.connect_session database user password quota_key ssh_signer).
Proof.
  unfold Sync.handshake_and_negotiate, Async.connect_session.
  eapply alike_bind; [apply handshake_alike|]. intros info info' (Hsame & Hsend & Hrecv).
  pose proof (negotiate_alike info info' database user password quota_key ssh_signer Hsame) as Hneg.
  assert (Sync.negotiated_revision info = Async.negotiated_revision info') as Hrev by apply Hsame.
  destruct (Z.leb_spec DBMS_MIN_PROTOCOL_VERSION_WITH_ADDENDUM (Sync.negotiated_revision info)) as [Hadd|Hadd].
  - eapply (alike_bind eq); [apply alike_lift; rewrite Hneg; now destruct (Async.negotiate_chunked_transport info')|].
    intros chunked ? <-. cbv zeta. cbn [Async.set_chunked Async.negotiated_revision]. rewrite <- Hrev.
    destruct (Z.leb_spec DBMS_MIN_PROTOCOL_VERSION_WITH_ADDENDUM (Sync.negotiated_revision info)); [|lia].
    eapply (alike_bind eq); [apply alike_send|]. intros _ _ _. apply alike_ret. split; [exact Hsame|]. split; reflexivity.
  - unfold Async.negotiate_chunked_transport. rewrite <- Hrev.
    unfold DBMS_MIN_PROTOCOL_VERSION_WITH_ADDENDUM, DBMS_MIN_PROTOCOL_VERSION_WITH_CHUNKED_PACKETS in *.
    destruct (Z.ltb_spec (Sync.negotiated_revision info) 54470); [|lia]. cbn [Async.set_chunked Async.negotiated_revision].
    intros S P s inbox. cbn -[Z.leb]. rewrite <- Hrev.
    destruct (Z.leb_spec 54458 (Sync.negotiated_revision info)); [lia|]. cbn. auto.
Qed.

(** ** A server that refuses *)

Definition wf_auth_entry (e : ExceptionEntry) : bool :=
  (- 2 ^ 31 <=? e_code e) && (e_code e <? 2 ^ 31) &&
  wire_text (e_name e) && wire_text (e_message e) && wire_text (e_stack e).

Definition auth_part (e : ExceptionEntry) : bytes := exception_part (e_code e) (e_name e) (e_message e).

Lemma reads_entry e flag {A} (k : list bytes -> bytes -> reader A) parts w a :
  wf_auth_entry e = true -> reads (k (parts ++ [auth_part e]) [flag]) w a ->
  reads (let* code_buf := read_exact_r 4 in
         let code := i32_from_le code_buf in
         let* name := read_string in let* message := read_string in let* _stack := read_string in
         let parts := parts ++ [exception_part code name message] in
         let* has_nested := read_exact_r 1 in k parts has_nested) (write_entry e flag ++ w) a.
Proof.
  unfold wf_auth_entry, write_entry. intros Hwf Hk. andb_all. rewrite <- !app_assoc.
  eapply reads_bind; [apply reads_exact, blen_to_le|]. cbv zeta. rewrite i32_from_to_le by lia.
  eapply reads_bind; [now apply reads_string|]. eapply reads_bind; [now apply reads_string|].
  eapply reads_bind; [now apply reads_string|]. eapply reads_bind; [now apply (reads_exact 1 [flag])|]. exact Hk.
Qed.

Lemma reads_chain levels root nested : forall parts,
  (length nested < levels)%nat -> forallb wf_auth_entry (root :: nested) = true ->
  reads (Sync.exception_chain_loop levels parts) (write_chain root nested)
    (join_nested (parts ++ map auth_part (root :: nested))).
Proof.
  revert root nested. induction levels as [|levels IH]; intros root nested parts Hlen Hwf; [lia|].
  cbn [forallb] in Hwf. apply andb_prop in Hwf as [Hroot Hwf]. cbn [Sync.exception_chain_loop].
  pose (k := fun parts has_nested =>
    if byte0 has_nested =? 0 then ret (join_nested parts) else Sync.exception_chain_loop levels parts).
  destruct nested as [|e nested]; cbn [write_chain].
  - rewrite <- (app_nil_r (write_entry root x00)). apply (reads_entry root x00 k); [exact Hroot|]. apply reads_ret.
  - apply (reads_entry root x01 k); [exact Hroot|]. cbn [map].
    replace (parts ++ auth_part root :: auth_part e :: map auth_part nested)
      with ((parts ++ [auth_part root]) ++ map auth_part (e :: nested)) by now rewrite <- app_assoc.
    apply IH; [cbn in Hlen; lia|exact Hwf].
Qed.

(** A server that refuses the client: its exceptions, nested ones included, are the
    authentication error of the handshake. *)
Theorem handshake_refused {S : Type} `{Peer S} (config : Sync.ClientConfig) (s s1 : S) (rest : bytes)
    (root : ExceptionEntry) (nested : list ExceptionEntry) :
  validate_supported_revision (Sync.client_revision config) = Ok tt ->
  Z.of_nat (length nested) < MAX_EXCEPTION_CHAIN_DEPTH -> forallb wf_auth_entry (root :: nested) = true ->
  admits config s s1 (write_varint 2 ++ write_chain root nested ++ rest) ->
  play (Sync.handshake config) s [] =
    Err (Authentication (Msg "{}" [AS (join_nested (map auth_part (root :: nested)))])).
Proof.
  intros Hrev Hlen Hwf Hadm. assert (length nested < Z.to_nat MAX_EXCEPTION_CHAIN_DEPTH)%nat as Hn by lia.
  rewrite (handshake_admitted config s s1 _ Hrev Hadm).
  unfold Sync.read_server_hello, Sync.auth_exception, Sync.read_exception_chain.
  rewrite (run_bind_ok _ _ _ _ _ (reads_varint 2 eq_refl _)). cbn [ServerPacket.code Z.eqb Pos.eqb negb].
  rewrite (run_bind_ok _ _ _ _ _ (reads_chain _ root nested [] Hn Hwf rest)). reflexivity.
Qed.

(** ** A conversation *)

Definition sample_hello : ServerHello :=
  mkHello (str "ClickHouse") 26 4 54483 7 (str "UTC") (str "replica-1") 2 (str "chunked") (str "notchunked_optional")
    [(str ".{12}", str "be at least 12 characters long")] (-2) [(str "max_threads", 0, str "8")] 1 6.

Definition sample_config : Sync.ClientConfig :=
  matching_config (str "db") (str "alice") (str "secret") (str "tenant") None.

(** A signer that signs with the length of the message. *)
Definition sample_key_config : Sync.ClientConfig :=
  matching_config (str "db") (str "alice") [] (str "tenant") (Some (fun m => Ok (show (blen m)))).

Definition sample_chunked : ChunkedNegotiation := mkNegotiation (str "chunked") (str "chunked") true true.

Definition sample_addendum : bytes := Sync.addendum 54483 (str "tenant") sample_chunked.

Lemma handshake_establishes_witness :
  play (Sync.handshake_and_negotiate sample_key_config)
    (mkScripted [(Sync.client_hello sample_key_config, []);
                 (write_varint 11, write_varint 18 ++ write_string (str "challenge"));
                 (write_varint 12 ++ write_string (str "21"), write_server_hello 54483 sample_hello ++ [x2a]);
                 (sample_addendum, [x04])] []) [] =
  Ok (Sync.set_chunked (learned 54483 sample_hello) sample_chunked,
      (mkScripted [] (Sync.client_hello sample_key_config ++ write_varint 11 ++ write_varint 12 ++
                      write_string (str "21") ++ sample_addendum), [x2a] ++ [x04])).
Proof.
  apply (handshake_establishes sample_key_config sample_hello _
    (mkScripted [(sample_addendum, [x04])] (Sync.client_hello sample_key_config ++ write_varint 11 ++
                 write_varint 12 ++ write_string (str "21")))).
  - reflexivity.
  - reflexivity.
  - eapply (admits_key sample_key_config _ _ _ _ _ (fun m => Ok (show (blen m))) (str "challenge") (str "21"));
      [reflexivity|discriminate|discriminate|vm_compute; reflexivity..].
  - vm_compute. discriminate.
  - reflexivity.
  - reflexivity.
Defined.

Definition sample_refusal : ExceptionEntry :=
  mkEntry 516 (str "DB::Exception") (str "alice: Authentication failed") (str "stack").

Lemma handshake_refused_witness :
  play (Sync.handshake sample_config)
    (mkScripted [(Sync.client_hello sample_config, write_varint 2 ++ write_chain sample_refusal [] ++ [])] []) [] =
  Err (Authentication (Msg "{}" [AS (str "DB::Exception (code 516): alice: Authentication failed")])).
Proof.
  apply (handshake_refused sample_config _ (mkScripted [] (Sync.client_hello sample_config)) [] sample_refusal []).
  - reflexivity.
  - reflexivity.
  - reflexivity.
  - apply admits_password; vm_compute; reflexivity.
Defined.
