(* ===== verification/Packets.v ===== *)
(** * Packets read off a stream ([sync/client.rs], [connection/io.rs])

    Both engines read the small packets of a response straight off the connection:
    exceptions, progress, profile information, part UUIDs, table states and the requests
    of the parallel-replica coordinator.  Each engine has its own readers; they are shown
    to read what the server wrote, and to agree with each other where they do. *)

From Stdlib Require Import String ZArith Lia Bool List.
From Stdlib Require Import Strings.Byte.
From coqutil Require Import Byte.
From S2P Require Import Prelude Revision Reader Session Limits Utf8 Wire TypeParser BlockWriter Response Handshake.
Import ListNotations.

(** ** Shared pieces *)

(** Bytes dropped in reads of at most [chunk]. *)
Fixpoint discard_loop (fuel : nat) (chunk len : Z) : reader unit :=
  match fuel with
  | O => throw ModelFuel
  | S fuel =>
      if len =? 0 then ret tt
      else
        let n := Z.min len chunk in
        read_exact_r n ;; discard_loop fuel chunk (len - n)
  end.

Definition discard_by (chunk len : Z) : reader unit :=
  discard_loop (Z.to_nat (len / chunk + 2)) chunk len.

(** [root.unwrap_or((0, "unknown".to_string()))] and the joined messages. *)
Definition server_error (root : option (Z * bytes)) (messages : list bytes) : error :=
  let '(code, name) := match root with Some r => r | None => (0, str "unknown") end in
  ServerError code name (join_nested messages).

Definition first_root (root : option (Z * bytes)) (code : Z) (name : bytes) : option (Z * bytes) :=
  match root with None => Some (code, name) | Some _ => root end.

(** *** Answers to the coordinator (shared/read_task_macros.rs) *)

Definition build_empty_cluster_function_read_task_response : bytes :=
  write_varint 9 ++ write_varint 1 ++ write_string [].

Definition build_finished_merge_tree_read_task_response (stream_id : bytes) : bytes :=
  write_varint 10 ++ to_le 8 DBMS_PARALLEL_REPLICAS_PROTOCOL_VERSION ++ str "1" ++ write_varint 0 ++
  (if 7 <=? DBMS_PARALLEL_REPLICAS_PROTOCOL_VERSION then write_string stream_id else []).

(** *** Ignored parts (shared/part_uuid.rs) *)

Definition build_ignored_part_uuids_packet (uuids : list bytes) : bytes :=
  write_varint (ClientPacket.code ClientPacket.IgnoredPartUUIDs) ++ write_varint (Z.of_nat (length uuids)) ++
  concat uuids.

(** *** Table states (shared/table_status.rs) *)

Definition MAX_TABLE_STATUS_ENTRIES : Z := 0x00FFFFFF.

Record QualifiedTableName := mkTableName { database : bytes; table : bytes }.

(** [PartialEq for QualifiedTableName] *)
Definition same_table (a b : QualifiedTableName) : bool :=
  bytes_eqb (database a) (database b) && bytes_eqb (table a) (table b).

Record TableStatus := mkTableStatus { is_replicated : bool; absolute_delay : Z; is_readonly : bool }.

(** [TableStatus::default()] *)
Definition default_table_status : TableStatus := mkTableStatus false 0 false.

(** The entries of the map, the last inserted first. *)
Record TablesStatusResponse := mkTablesStatus {
  table_states_by_id : list (QualifiedTableName * TableStatus);
}.

(** [HashMap::get]: the value inserted last under the key. *)
Fixpoint lookup_table (t : QualifiedTableName) (l : list (QualifiedTableName * TableStatus)) : option TableStatus :=
  match l with
  | [] => None
  | (t', s) :: l => if same_table t t' then Some s else lookup_table t l
  end.

Definition get_table_status (r : TablesStatusResponse) (database table : bytes) : option TableStatus :=
  lookup_table (mkTableName database table) (table_states_by_id r).

Definition validate_tables_status_revision (rev : Z) : result error unit :=
  if rev <? DBMS_MIN_REVISION_WITH_TABLES_STATUS
  then Err (Protocol (Msg "TablesStatus requires protocol revision >= {}" [AZ DBMS_MIN_REVISION_WITH_TABLES_STATUS]))
  else Ok tt.

Definition build_tables_status_request (tables : list QualifiedTableName) (revision : Z) : result error bytes :=
  let* _ := validate_tables_status_revision revision in
  Ok (write_varint (ClientPacket.code ClientPacket.TablesStatusRequest) ++
      write_varint (Z.of_nat (length tables)) ++
      concat (map (fun t => write_string (database t) ++ write_string (table t)) tables)).

Definition checked_entry_count (value : Z) : result error Z :=
  let* count := ok_or (usize_try_from value) (Protocol (msg "TablesStatus entry count too large")) in
  if MAX_TABLE_STATUS_ENTRIES <? count
  then Err (Protocol (Msg "TablesStatus entry count {count} exceeds limit {MAX_TABLE_STATUS_ENTRIES}"
                          [AZ count; AZ MAX_TABLE_STATUS_ENTRIES]))
  else Ok count.

(** [for _ in 0..count { map.insert(..) }] *)
Definition collect_states (count : Z) (entry : reader (QualifiedTableName * TableStatus)) : reader TablesStatusResponse :=
  let* entries := collect_n (Z.to_nat count) entry in
  ret (mkTablesStatus (rev entries)).

(** ** The blocking engine *)
Module Sync.

Definition read_u64_le : reader Z := let* buf := read_exact_r 8 in ret (from_le buf).

Definition read_u8 : reader Z := let* buf := read_exact_r 1 in ret (byte0 buf).

Definition discard_exact (len : Z) : reader unit := discard_by 1024 len.

Definition checked_len (count elem_size : Z) (what : string) : result error Z :=
  ok_or (checked_mul count elem_size) (Protocol (Msg "{what} byte length overflow" [AS (str what)])).

Definition skip_mark_ranges : reader unit :=
  let* v := read_u64_le in
  let* count := lift (ok_or (usize_try_from v) (Protocol (msg "parallel replica mark range count too large"))) in
  let* len := lift (checked_len count 16 "parallel replica mark ranges") in
  discard_exact len.

Definition skip_merge_tree_part_info : reader unit :=
  let* _version := read_u64_le in
  let* _partition_id := read_string in
  let* _min_block := read_u64_le in
  let* _max_block := read_u64_le in
  let* _level := read_u64_le in
  let* _mutation := read_u64_le in
  let* _use_legacy_max_level := read_u8 in
  ret tt.

Definition skip_part_description (version : Z) : reader unit :=
  skip_merge_tree_part_info ;; skip_mark_ranges ;;
  let* _rows := read_varint in
  (if 5 <=? version then read_string ;; ret tt else ret tt) ;;
  (if 6 <=? version then read_varint ;; ret tt else ret tt).

Definition skip_ranges_in_data_parts_description (version : Z) : reader unit :=
  let* v := read_varint in
  let* count := lift (ok_or (usize_try_from v) (Protocol (msg "parallel replica part range count too large"))) in
  repeat_n (Z.to_nat count) (skip_part_description version).

Definition skip_parallel_read_announcement : reader unit :=
  let* _version := read_u64_le in
  let* _mode := read_u8 in
  skip_ranges_in_data_parts_description DBMS_PARALLEL_REPLICAS_PROTOCOL_VERSION ;;
  let* _replica_num := read_u64_le in
  (if 4 <=? DBMS_PARALLEL_REPLICAS_PROTOCOL_VERSION then read_u64_le ;; ret tt else ret tt) ;;
  (if 5 <=? DBMS_PARALLEL_REPLICAS_PROTOCOL_VERSION then read_varint ;; ret tt else ret tt) ;;
  (if 6 <=? DBMS_PARALLEL_REPLICAS_PROTOCOL_VERSION then read_varint ;; ret tt else ret tt) ;;
  (if 7 <=? DBMS_PARALLEL_REPLICAS_PROTOCOL_VERSION then read_string ;; ret tt else ret tt).

Definition read_parallel_read_request_stream_id : reader bytes :=
  let* _version := read_u64_le in
  let* _mode := read_u8 in
  let* _replica_num := read_u64_le in
  let* _min_marks_per_request := read_u64_le in
  skip_ranges_in_data_parts_description DBMS_PARALLEL_REPLICAS_PROTOCOL_VERSION ;;
  if 7 <=? DBMS_PARALLEL_REPLICAS_PROTOCOL_VERSION then read_string else ret [].

Definition read_string_lossy : reader bytes :=
  let* bytes := read_string_bytes in ret (from_utf8_lossy bytes).

(** One level of the chain; the loop has no depth limit, every level takes bytes. *)
Definition exception_step (self : option (Z * bytes) * list bytes -> reader error)
    (st : option (Z * bytes) * list bytes) : reader error :=
  let '(root, messages) := st in
  let* code_bytes := read_bytes 4 in
  let code := i32_from_le code_bytes in
  let* name := read_string_lossy in
  let* message := read_string_lossy in
  let* _stack := read_string_bytes in
  let messages := messages ++ [exception_part code name message] in
  let root := first_root root code name in
  let* flag := read_bytes 1 in
  if negb (byte0 flag =? 0) then self (root, messages)
  else ret (server_error root messages).

(** The function returns an [Error]: the server's, or a failure of its own, which is a
    failure of this reader.  Its callers return either as their error. *)
Definition read_exception_packet : reader error :=
  deep STREAM_BITS exception_step (fun _ => throw ModelFuel) (None, []).

Definition skip_progress_packet (rev : Z) : reader unit :=
  read_varint ;; read_varint ;; read_varint ;;
  (if DBMS_MIN_REVISION_WITH_CLIENT_WRITE_INFO <=? rev then read_varint ;; read_varint ;; ret tt else ret tt) ;;
  (if DBMS_MIN_PROTOCOL_VERSION_WITH_SERVER_QUERY_TIME_IN_PROGRESS <=? rev then read_varint ;; ret tt else ret tt) ;;
  (if DBMS_MIN_PROTOCOL_VERSION_WITH_TOTAL_BYTES_IN_PROGRESS <=? rev then read_varint ;; ret tt else ret tt).

(** The same fields again, for a revision known at compile time. *)
Definition skip_progress_packet_const (REV : Z) : reader unit :=
  read_varint ;; read_varint ;; read_varint ;;
  (if DBMS_MIN_REVISION_WITH_CLIENT_WRITE_INFO <=? REV then read_varint ;; read_varint ;; ret tt else ret tt) ;;
  (if DBMS_MIN_PROTOCOL_VERSION_WITH_SERVER_QUERY_TIME_IN_PROGRESS <=? REV then read_varint ;; ret tt else ret tt) ;;
  (if DBMS_MIN_PROTOCOL_VERSION_WITH_TOTAL_BYTES_IN_PROGRESS <=? REV then read_varint ;; ret tt else ret tt).

Definition skip_progress_packet_for_revision (rev : Z) : reader unit :=
  if rev =? 54459 then skip_progress_packet_const 54459
  else if rev =? 54464 then skip_progress_packet_const 54464
  else if rev =? 54483 then skip_progress_packet_const 54483
  else skip_progress_packet rev.

Definition skip_profile_info_packet (rev : Z) : reader unit :=
  read_varint ;; read_varint ;; read_varint ;;
  read_exact_r 1 ;; read_varint ;; read_exact_r 1 ;;
  (if DBMS_MIN_REVISION_WITH_ROWS_BEFORE_AGGREGATION <=? rev then read_exact_r 1 ;; read_varint ;; ret tt else ret tt).

Definition skip_profile_info_packet_const (REV : Z) : reader unit :=
  read_varint ;; read_varint ;; read_varint ;;
  read_exact_r 1 ;; read_varint ;; read_exact_r 1 ;;
  (if DBMS_MIN_REVISION_WITH_ROWS_BEFORE_AGGREGATION <=? REV then read_exact_r 1 ;; read_varint ;; ret tt else ret tt).

Definition skip_profile_info_packet_for_revision (rev : Z) : reader unit :=
  if rev =? 54459 then skip_profile_info_packet_const 54459
  else if rev =? 54464 then skip_profile_info_packet_const 54464
  else if rev =? 54483 then skip_profile_info_packet_const 54483
  else skip_profile_info_packet rev.

Definition skip_part_uuids_packet : reader unit :=
  let* v := read_varint in
  let* count := lift (ok_or (usize_try_from v) (Protocol (msg "PartUUIDs count too large"))) in
  let* len := lift (ok_or (checked_mul count 16) (Protocol (msg "PartUUIDs byte length overflow"))) in
  discard_by 1024 len.

Definition read_table_status (revision : Z) : reader TableStatus :=
  let* flag := read_exact_r 1 in
  if byte0 flag =? 0 then ret default_table_status
  else
    let* absolute_delay := read_varint in
    let* is_readonly :=
      if DBMS_MIN_REVISION_WITH_TABLE_READ_ONLY_CHECK <=? revision
      then let* v := read_varint in ret (negb (v =? 0)) else ret false in
    ret (mkTableStatus true absolute_delay is_readonly).

Definition read_table_entry (revision : Z) : reader (QualifiedTableName * TableStatus) :=
  let* database := read_string in
  let* table := read_string in
  let* status := read_table_status revision in
  ret (mkTableName database table, status).

Definition read_tables_status_response (revision : Z) : reader TablesStatusResponse :=
  lift (validate_tables_status_revision revision) ;;
  let* v := read_varint in
  let* count := lift (checked_entry_count v) in
  collect_states count (read_table_entry revision).
End Sync.

(** ** The asynchronous engine *)
Module Async.

(** The first byte is looked at on its own, the others in a loop. *)
Fixpoint read_varint_more (fuel : nat) (result shift : Z) : reader Z :=
  match fuel with
  | O => throw ModelFuel
  | S fuel =>
      if 64 <=? shift then throw varint_overflow
      else
        let* byte := read_exact_r 1 in
        let b := byte0 byte in
        if (shift =? 63) && (1 <? Z.land b 0x7F) then throw varint_overflow
        else
          let result := Z.lor result (u64_shl (Z.land b 0x7F) shift) in
          if Z.land b 0x80 =? 0 then ret result else read_varint_more fuel result (shift + 7)
  end.

Definition read_varint_async : reader Z :=
  let* buf := read_exact_r 1 in
  if Z.land (byte0 buf) 0x80 =? 0 then ret (byte0 buf)
  else read_varint_more 10 (Z.land (byte0 buf) 0x7F) 7.

Definition read_string_async : reader bytes :=
  let* v := read_varint_async in
  let* len := lift (protocol (checked_string_len v (str "string length"))) in
  let* buf := read_exact_r len in
  lift (from_utf8 "utf8: {e}" buf).

Definition read_u64_le_async : reader Z := let* buf := read_exact_r 8 in ret (from_le buf).

Definition read_u8_async : reader Z := let* buf := read_exact_r 1 in ret (byte0 buf).

Definition discard_exact (len : Z) : reader unit := discard_by 8192 len.

Definition checked_len (rows width : Z) : result error Z :=
  ok_or (checked_mul rows width) (Protocol (msg "column byte length overflow")).

Definition checked_usize (value : Z) (name : string) : result error Z :=
  ok_or (usize_try_from value) (Protocol (Msg "{name} count too large" [AS (str name)])).

Definition skip_mark_ranges : reader unit :=
  let* v := read_u64_le_async in
  let* count := lift (checked_usize v "parallel replica mark ranges") in
  let* len := lift (checked_len count 16) in
  discard_exact len.

Definition skip_merge_tree_part_info : reader unit :=
  let* _version := read_u64_le_async in
  let* _partition_id := read_string_async in
  let* _min_block := read_u64_le_async in
  let* _max_block := read_u64_le_async in
  let* _level := read_u64_le_async in
  let* _mutation := read_u64_le_async in
  let* _use_legacy_max_level := read_u8_async in
  ret tt.

Definition skip_part_description (version : Z) : reader unit :=
  skip_merge_tree_part_info ;; skip_mark_ranges ;;
  let* _rows := read_varint_async in
  (if 5 <=? version then read_string_async ;; ret tt else ret tt) ;;
  (if 6 <=? version then read_varint_async ;; ret tt else ret tt).

Definition skip_ranges_in_data_parts_description (version : Z) : reader unit :=
  let* v := read_varint_async in
  let* count := lift (checked_usize v "parallel replica part ranges") in
  repeat_n (Z.to_nat count) (skip_part_description version).

(** There is no field for protocol version 5 here. *)
Definition skip_parallel_read_announcement : reader unit :=
  let* _version := read_u64_le_async in
  let* _mode := read_u8_async in
  skip_ranges_in_data_parts_description DBMS_PARALLEL_REPLICAS_PROTOCOL_VERSION ;;
  let* _replica_num := read_u64_le_async in
  (if 4 <=? DBMS_PARALLEL_REPLICAS_PROTOCOL_VERSION then read_u64_le_async ;; ret tt else ret tt) ;;
  (if 6 <=? DBMS_PARALLEL_REPLICAS_PROTOCOL_VERSION then read_varint_async ;; ret tt else ret tt) ;;
  (if 7 <=? DBMS_PARALLEL_REPLICAS_PROTOCOL_VERSION then read_string_async ;; ret tt else ret tt).

Definition read_parallel_read_request_stream_id : reader bytes :=
  let* _version := read_u64_le_async in
  let* _mode := read_u8_async in
  let* _replica_num := read_u64_le_async in
  let* _min_marks_per_request := read_u64_le_async in
  skip_ranges_in_data_parts_description DBMS_PARALLEL_REPLICAS_PROTOCOL_VERSION ;;
  if 7 <=? DBMS_PARALLEL_REPLICAS_PROTOCOL_VERSION then read_string_async else ret [].

(** A long text is dropped and replaced by its length. *)
Definition read_string_lossy_async : reader bytes :=
  let* v := read_varint_async in
  let* len := lift (protocol (checked_string_len v (str "string length"))) in
  if 1048576 <? len then discard_exact len ;; ret (str "<large string " ++ show len ++ str "b>")
  else if len =? 0 then ret []
  else
    let* buf := read_exact_r len in
    ret (from_utf8_lossy buf).

Fixpoint exception_levels (levels : nat) (root : option (Z * bytes)) (messages : list bytes) : reader error :=
  match levels with
  | O => throw exception_too_deep
  | S levels =>
      let* buf := read_exact_r 4 in
      let code := i32_from_le buf in
      let* name := read_string_lossy_async in
      let* message := read_string_lossy_async in
      let* _stack := read_string_lossy_async in
      let root := first_root root code name in
      let messages := messages ++ [exception_part code name message] in
      let* buf := read_exact_r 1 in
      if byte0 buf =? 0 then ret (server_error root messages) else exception_levels levels root messages
  end.

Definition read_exception : reader error :=
  exception_levels (Z.to_nat MAX_EXCEPTION_CHAIN_DEPTH) None [].

(** What is told to the callbacks of a query. *)
Record Progress := mkProgressInfo {
  rows : Z; bytes_read : Z; total_rows : Z; written_rows : Z; written_bytes : Z;
}.

Record Profile := mkProfileInfo {
  profile_rows : Z; blocks : Z; profile_bytes : Z; rows_before_limit : Z;
  applied_limit : bool; calculated_rows_before_limit : bool;
}.

(** The revision is the one the client offers, not the negotiated one. *)
Definition read_progress_packet : reader Progress :=
  let* rows := read_varint_async in
  let* bytes := read_varint_async in
  let* total_rows := read_varint_async in
  let* (written_rows, written_bytes) :=
    if DBMS_MIN_REVISION_WITH_CLIENT_WRITE_INFO <=? DEFAULT_PROTOCOL_REVISION then
      let* r := read_varint_async in let* b := read_varint_async in ret (r, b)
    else ret (0, 0) in
  (if DBMS_MIN_PROTOCOL_VERSION_WITH_SERVER_QUERY_TIME_IN_PROGRESS <=? DEFAULT_PROTOCOL_REVISION
   then read_varint_async ;; ret tt else ret tt) ;;
  (if DBMS_MIN_PROTOCOL_VERSION_WITH_TOTAL_BYTES_IN_PROGRESS <=? DEFAULT_PROTOCOL_REVISION
   then read_varint_async ;; ret tt else ret tt) ;;
  ret (mkProgressInfo rows bytes total_rows written_rows written_bytes).

Definition read_profile_info_packet : reader Profile :=
  let* rows := read_varint_async in
  let* blocks := read_varint_async in
  let* bytes := read_varint_async in
  let* flag := read_exact_r 1 in
  let applied_limit := negb (byte0 flag =? 0) in
  let* rows_before_limit := read_varint_async in
  let* flag := read_exact_r 1 in
  let calculated := negb (byte0 flag =? 0) in
  (if DBMS_MIN_REVISION_WITH_ROWS_BEFORE_AGGREGATION <=? DEFAULT_PROTOCOL_REVISION
   then read_exact_r 1 ;; read_varint_async ;; ret tt else ret tt) ;;
  ret (mkProfileInfo rows blocks bytes rows_before_limit applied_limit calculated).

Definition read_part_uuids_packet : reader (list bytes) :=
  let* v := read_varint_async in
  let* count := lift (protocol (checked_count v (str "PartUUID") MAX_PART_UUIDS)) in
  collect_n (Z.to_nat count) (read_exact_r 16).

Definition skip_part_uuids_packet : reader unit := read_part_uuids_packet ;; ret tt.

Definition read_table_status (protocol_revision : Z) : reader TableStatus :=
  let* flag := read_u8_async in
  if flag =? 0 then ret default_table_status
  else
    let* absolute_delay := read_varint_async in
    let* is_readonly :=
      if DBMS_MIN_REVISION_WITH_TABLE_READ_ONLY_CHECK <=? protocol_revision
      then let* v := read_varint_async in ret (negb (v =? 0)) else ret false in
    ret (mkTableStatus true absolute_delay is_readonly).

Definition read_table_entry (protocol_revision : Z) : reader (QualifiedTableName * TableStatus) :=
  let* database := read_string_async in
  let* table := read_string_async in
  let* status := read_table_status protocol_revision in
  ret (mkTableName database table, status).

Definition read_tables_status_response (protocol_revision : Z) : reader TablesStatusResponse :=
  if protocol_revision <? DBMS_MIN_REVISION_WITH_TABLES_STATUS
  then throw (Protocol (Msg "TablesStatus requires protocol revision >= {}" [AZ DBMS_MIN_REVISION_WITH_TABLES_STATUS]))
  else
    let* v := read_varint_async in
    let* count := lift (checked_usize v "TablesStatus") in
    if 0x00FFFFFF <? count
    then throw (Protocol (Msg "TablesStatus entry count {count} exceeds limit 16777215" [AZ count]))
    else collect_states count (read_table_entry protocol_revision).
End Async.

(** ** Both engines read alike *)

Lemma run_discard_loop chunk fuel : forall len l,
  0 < chunk -> 0 <= len -> len <= (Z.of_nat fuel - 1) * chunk ->
  run (discard_loop fuel chunk len) l = if len <=? blen l then Ok (tt, drop len l) else Err (Io UnexpectedEof).
Proof.
  induction fuel as [|fuel IH]; intros len l Hc Hlen Hf; [lia|]. pose proof (blen_nonneg l).
  cbn [discard_loop]. destruct (Z.eqb_spec len 0) as [->|Hne].
  { rewrite drop_0. now destruct (Z.leb_spec 0 (blen l)); [|lia]. }
  set (n := Z.min len chunk). assert (0 < n <= len) by (unfold n; lia).
  assert (1 <= Z.of_nat fuel) by (destruct fuel; lia).
  assert (len - n <= (Z.of_nat fuel - 1) * chunk) by (unfold n; destruct (Z.min_spec len chunk) as [[? ->]|[? ->]]; nia).
  rewrite run_bind, run_read_exact. destruct (Z.leb_spec n (blen l)).
  - rewrite IH by lia. rewrite blen_drop by lia. rewrite drop_drop by lia.
    replace (len - n + n) with len by lia. now bool_cases; try lia.
  - now destruct (Z.leb_spec len (blen l)); [lia|].
Qed.

Lemma run_discard_by chunk len l :
  0 < chunk -> 0 <= len ->
  run (discard_by chunk len) l = if len <=? blen l then Ok (tt, drop len l) else Err (Io UnexpectedEof).
Proof.
  intros Hc Hlen. apply run_discard_loop; auto.
  pose proof (Z.div_mod len chunk ltac:(lia)). pose proof (Z.mod_pos_bound len chunk ltac:(lia)).
  assert (0 <= len / chunk) by (apply Z.div_pos; lia). rewrite Z2Nat.id by lia. nia.
Qed.

Lemma discards_alike chunk chunk' len :
  0 < chunk -> 0 < chunk' -> 0 <= len -> reads_alike eq (discard_by chunk len) (discard_by chunk' len).
Proof. intros. apply reads_alike_eq. intros l. now rewrite !run_discard_by. Qed.

Lemma varint_more_eq : Async.read_varint_more = read_varint_loop.
Proof. reflexivity. Qed.

Lemma varint_async_alike : reads_alike eq read_varint Async.read_varint_async.
Proof.
  apply reads_alike_eq. intros l. unfold read_varint, Async.read_varint_async. rewrite varint_more_eq.
  change (read_varint_loop 11 0 0) with
    (let* bs := read_exact_r 1 in
     let r := Z.lor 0 (u64_shl (Z.land (byte0 bs) 0x7F) 0) in
     if Z.land (byte0 bs) 0x80 =? 0 then ret r else read_varint_loop 10 r 7).
  rewrite !run_bind, run_read1. destruct l as [|b l]; [reflexivity|]. cbn [byte0].
  rewrite Z.lor_0_l. unfold u64_shl. rewrite Z.shiftl_0_r.
  rewrite Z.mod_small by (rewrite byte_low7; pose proof (Z.mod_pos_bound (byte.unsigned b) 128); lia).
  rewrite byte_cont. destruct (Z.ltb_spec (byte.unsigned b) 128); [|reflexivity].
  now rewrite byte_low7_small.
Qed.

(** Two checks of a count that differ in their message. *)
Definition checks_alike {A} (r r' : result error A) : Prop :=
  match r, r' with Ok a, Ok b => a = b | Err _, Err _ => True | _, _ => False end.

Lemma string_len_alike v what :
  checks_alike (wire_checked_string_len v) (protocol (checked_string_len v what)).
Proof.
  unfold wire_checked_string_len, checked_string_len. destruct (usize_try_from v) as [n|]; [|exact I].
  cbn. now destruct (MAX_STRING_BYTES <? n).
Qed.

Lemma ok_or_alike {A} (o : option A) e e' : checks_alike (ok_or o e) (ok_or o e').
Proof. now destruct o. Qed.

Lemma lift_alike {A} (r r' : result error A) : checks_alike r r' -> reads_alike eq (lift r) (lift r').
Proof. apply reads_alike_lift. Qed.

#[export] Hint Resolve varint_async_alike string_len_alike ok_or_alike lift_alike : alike.

Lemma string_async_alike : reads_alike eq read_string Async.read_string_async.
Proof.
  unfold read_string, Async.read_string_async. repeat alike_step.
  apply lift_alike. unfold from_utf8. now destruct (utf8_valid _).
Qed.

Lemma u64_alike : reads_alike eq Sync.read_u64_le Async.read_u64_le_async.
Proof. apply reads_alike_refl. Qed.

Lemma u8_alike : reads_alike eq Sync.read_u8 Async.read_u8_async.
Proof. apply reads_alike_refl. Qed.

#[export] Hint Resolve string_async_alike u64_alike u8_alike : alike.

Lemma run_u64_le_nonneg l v rest : run Sync.read_u64_le l = Ok (v, rest) -> 0 <= v.
Proof.
  intros E. apply run_bind_inv in E as (buf & l' & _ & E). apply Ok_inj in E. injection E as <- _.
  pose proof (from_le_bound buf). lia.
Qed.

Lemma mark_ranges_alike : reads_alike eq Sync.skip_mark_ranges Async.skip_mark_ranges.
Proof.
  apply (reads_alike_bind_if (fun v => 0 <= v)); [apply u64_alike|exact run_u64_le_nonneg|]. intros v Hv.
  apply (reads_alike_bind_if (fun n => 0 <= n)); [eauto with alike| |].
  { intros l n rest E. apply run_lift_inv in E as [E _]. apply ok_or_inv in E.
    exact (usize_try_from_nonneg v n Hv E). }
  intros n Hn. apply (reads_alike_bind_if (fun len => 0 <= len)); [unfold Sync.checked_len, Async.checked_len; eauto with alike| |].
  { intros l len rest E. apply run_lift_inv in E as [E _]. apply ok_or_inv, checked_mul_inv in E. lia. }
  intros len Hlen. apply discards_alike; lia.
Qed.

#[export] Hint Resolve mark_ranges_alike : alike.

Lemma part_info_alike : reads_alike eq Sync.skip_merge_tree_part_info Async.skip_merge_tree_part_info.
Proof. unfold Sync.skip_merge_tree_part_info, Async.skip_merge_tree_part_info. repeat alike_step. apply reads_alike_refl. Qed.

(** A field that is there from some version on. *)
Lemma optional_alike {A} (c : bool) (m m' : reader A) :
  reads_alike eq m m' ->
  reads_alike eq (if c then m ;; ret tt else ret tt) (if c then m' ;; ret tt else ret tt).
Proof.
  intros Hm. apply reads_alike_if; [|apply reads_alike_refl].
  eapply reads_alike_bind; [exact Hm|]. intros. apply reads_alike_refl.
Qed.

#[export] Hint Resolve part_info_alike : alike.

Lemma part_ranges_alike version :
  reads_alike eq (Sync.skip_ranges_in_data_parts_description version)
    (Async.skip_ranges_in_data_parts_description version).
Proof.
  unfold Sync.skip_ranges_in_data_parts_description, Async.skip_ranges_in_data_parts_description, Async.checked_usize.
  do 2 alike_step. apply reads_alike_repeat_n. unfold Sync.skip_part_description, Async.skip_part_description.
  do 3 alike_step. apply (reads_alike_bind eq); [apply optional_alike, string_async_alike|intros ? ? _].
  apply optional_alike, varint_async_alike.
Qed.

#[export] Hint Resolve part_ranges_alike : alike.

Lemma read_request_alike :
  reads_alike eq Sync.read_parallel_read_request_stream_id Async.read_parallel_read_request_stream_id.
Proof.
  unfold Sync.read_parallel_read_request_stream_id, Async.read_parallel_read_request_stream_id.
  do 5 alike_step. apply string_async_alike.
Qed.

(** ** Table states *)

Lemma table_status_alike rev : reads_alike eq (Sync.read_table_status rev) (Async.read_table_status rev).
Proof.
  unfold Sync.read_table_status, Async.read_table_status.
  apply (reads_alike_bind (fun buf v => byte0 buf = v)).
  { intros l. unfold Async.read_u8_async. rewrite run_bind. destruct (run (read_exact_r 1) l) as [[bs rest]|]; cbn; auto. }
  intros buf ? <-. apply reads_alike_if; [apply reads_alike_refl|]. alike_step.
  apply (reads_alike_bind eq); [|intros ? ? <-; apply reads_alike_refl].
  apply reads_alike_if; [|apply reads_alike_refl]. alike_step. apply reads_alike_refl.
Qed.

Lemma entry_count_alike v :
  checks_alike (checked_entry_count v)
    (let* count := Async.checked_usize v "TablesStatus" in
     if 0x00FFFFFF <? count
     then Err (Protocol (Msg "TablesStatus entry count {count} exceeds limit 16777215" [AZ count]))
     else Ok count).
Proof.
  unfold checked_entry_count, Async.checked_usize. destruct (usize_try_from v) as [n|]; [|exact I].
  cbn [ok_or bind result_monad]. change MAX_TABLE_STATUS_ENTRIES with 0x00FFFFFF. now destruct (_ <? n).
Qed.

Lemma table_entries_alike count rev :
  reads_alike eq (collect_states count (Sync.read_table_entry rev)) (collect_states count (Async.read_table_entry rev)).
Proof.
  unfold collect_states. apply (reads_alike_bind eq); [|intros ? ? <-; apply reads_alike_refl].
  apply reads_alike_collect_n. unfold Sync.read_table_entry, Async.read_table_entry. do 2 alike_step.
  apply (reads_alike_bind eq); [apply table_status_alike|]. intros ? ? <-. apply reads_alike_refl.
Qed.

Lemma tables_status_alike rev :
  reads_alike eq (Sync.read_tables_status_response rev) (Async.read_tables_status_response rev).
Proof.
  unfold Sync.read_tables_status_response, Async.read_tables_status_response, validate_tables_status_revision.
  destruct (rev <? DBMS_MIN_REVISION_WITH_TABLES_STATUS); [intros l; exact I|].
  apply (reads_alike_bind eq eq read_varint); [apply varint_async_alike|]. intros v ? <- l.
  pose proof (entry_count_alike v) as Hc. revert Hc. rewrite !run_bind, !run_lift.
  destruct (checked_entry_count v) as [n|]; cbn [checks_alike];
    destruct (Async.checked_usize v "TablesStatus") as [n'|]; cbn [bind result_monad]; try contradiction; auto;
    destruct (0x00FFFFFF <? n'); try contradiction; auto.
  intros <-. apply table_entries_alike.
Qed.

(** What the server writes about a table at a revision. *)
Definition write_table_status (rev : Z) (s : TableStatus) : bytes :=
  if is_replicated s then
    [x01] ++ write_varint (absolute_delay s) ++
    since DBMS_MIN_REVISION_WITH_TABLE_READ_ONLY_CHECK rev (write_varint (if is_readonly s then 1 else 0))
  else [x00].

Definition write_table_entry (rev : Z) (e : QualifiedTableName * TableStatus) : bytes :=
  write_string (database (fst e)) ++ write_string (table (fst e)) ++ write_table_status rev (snd e).

Definition write_tables_status (rev : Z) (entries : list (QualifiedTableName * TableStatus)) : bytes :=
  write_varint (Z.of_nat (length entries)) ++ concat (map (write_table_entry rev) entries).

(** What a client that speaks revision [rev] can know of a state. *)
Definition known_status (rev : Z) (s : TableStatus) : TableStatus :=
  if is_replicated s then
    mkTableStatus true (absolute_delay s)
      (known_since DBMS_MIN_REVISION_WITH_TABLE_READ_ONLY_CHECK rev false (is_readonly s))
  else default_table_status.

Definition wf_table_entry (e : QualifiedTableName * TableStatus) : bool :=
  wire_text (database (fst e)) && wire_text (table (fst e)) && u64_value (absolute_delay (snd e)).

Lemma reads_table_status rev s :
  u64_value (absolute_delay s) = true -> reads (Sync.read_table_status rev) (write_table_status rev s) (known_status rev s).
Proof.
  intros Hd. unfold Sync.read_table_status, write_table_status, known_status.
  destruct (is_replicated s); [|now apply (reads_last _ _ _ [x00]); [apply reads_exact|apply reads_ret]].
  eapply reads_bind; [now apply reads_exact|]. cbn [byte0]. change (byte.unsigned x01 =? 0) with false.
  eapply reads_bind; [now apply reads_varint|].
  eapply reads_last; [|apply reads_ret]. apply (reads_since _ rev). eapply reads_last; [now apply reads_varint; destruct (is_readonly s)|].
  destruct (is_readonly s); apply reads_ret.
Qed.

Lemma collect_entries rev l :
  forallb wf_table_entry l = true ->
  reads (collect_n (length l) (Sync.read_table_entry rev)) (concat (map (write_table_entry rev) l))
    (map (fun e => (fst e, known_status rev (snd e))) l).
Proof.
  induction l as [|[[d t] s] l IH]; intros Hwf; [apply reads_ret|].
  cbn [forallb] in Hwf. apply andb_prop in Hwf as [He Hl]. unfold wf_table_entry in He. cbn [fst snd database table] in He.
  andb_all. cbn [map concat length collect_n]. eapply reads_bind; [|eapply reads_last; [now apply IH|apply reads_ret]].
  unfold Sync.read_table_entry, write_table_entry. cbn [fst snd database table].
  eapply reads_bind; [now apply reads_string|]. eapply reads_bind; [now apply reads_string|].
  eapply reads_last; [now apply reads_table_status|apply reads_ret].
Qed.

Lemma same_table_spec a b : same_table a b = true <-> a = b.
Proof.
  unfold same_table. destruct a as [d t], b as [d' t']. cbn [database table].
  rewrite andb_true_iff, !bytes_eqb_eq. split; [now intros [-> ->]|intros E; injection E; auto].
Qed.

Lemma lookup_table_in t s l : NoDup (map fst l) -> In (t, s) l -> lookup_table t l = Some s.
Proof.
  induction l as [|[t' s'] l IH]; intros Hnd Hin; [destruct Hin|]. cbn [map fst lookup_table] in *.
  apply NoDup_cons_iff in Hnd as [Hni Hnd]. destruct Hin as [E|Hin].
  - injection E as -> ->. now rewrite (proj2 (same_table_spec t t) eq_refl).
  - destruct (same_table t t') eqn:E; [|now apply IH]. apply same_table_spec in E as ->.
    destruct Hni. apply in_map_iff. now exists (t', s).
Qed.

Lemma lookup_table_not_in t l : ~ In t (map fst l) -> lookup_table t l = None.
Proof.
  induction l as [|[t' s'] l IH]; intros Hni; [reflexivity|]. cbn [map fst lookup_table] in *.
  destruct (same_table t t') eqn:E; [apply same_table_spec in E as ->; destruct Hni; now left|].
  apply IH. intros Hin. apply Hni. now right.
Qed.

Lemma reads_tables_status rev entries :
  DBMS_MIN_REVISION_WITH_TABLES_STATUS <= rev -> forallb wf_table_entry entries = true ->
  Z.of_nat (length entries) <= MAX_TABLE_STATUS_ENTRIES ->
  reads (Sync.read_tables_status_response rev) (write_tables_status rev entries)
    (mkTablesStatus (List.rev (map (fun e => (fst e, known_status rev (snd e))) entries))).
Proof.
  intros Hrev Hwf Hlen. unfold Sync.read_tables_status_response, write_tables_status.
  apply (reads_first _ _ _ tt).
  { apply reads_lift. unfold validate_tables_status_revision. now destruct (Z.ltb_spec rev DBMS_MIN_REVISION_WITH_TABLES_STATUS); [lia|]. }
  unfold MAX_TABLE_STATUS_ENTRIES in Hlen.
  eapply reads_bind; [apply reads_varint; unfold u64_value, U64_MAX; apply andb_true_intro; split; lia|].
  apply (reads_first _ _ _ (Z.of_nat (length entries))).
  { apply reads_lift. unfold checked_entry_count, usize_try_from, try_from_max, USIZE_MAX, MAX_TABLE_STATUS_ENTRIES.
    destruct (Z.leb_spec (Z.of_nat (length entries)) (2 ^ 64 - 1)); [|lia]. cbn [ok_or bind result_monad].
    now destruct (Z.ltb_spec 0xFFFFFF (Z.of_nat (length entries))); [lia|]. }
  unfold collect_states. rewrite Nat2Z.id. eapply reads_last; [now apply collect_entries|apply reads_ret].
Qed.

(** C28: a TablesStatus answer is understood.  Both engines take exactly its bytes and know
    of every table it names what the revision tells, and nothing of any other table. *)
Theorem tables_status_understood (rev : Z) (entries : list (QualifiedTableName * TableStatus)) (rest : bytes) :
  DBMS_MIN_REVISION_WITH_TABLES_STATUS <= rev -> forallb wf_table_entry entries = true ->
  Z.of_nat (length entries) <= MAX_TABLE_STATUS_ENTRIES -> NoDup (map fst entries) ->
  exists response,
    run (Sync.read_tables_status_response rev) (write_tables_status rev entries ++ rest) = Ok (response, rest) /\
    run (Async.read_tables_status_response rev) (write_tables_status rev entries ++ rest) = Ok (response, rest) /\
    (forall d t s, In (mkTableName d t, s) entries -> get_table_status response d t = Some (known_status rev s)) /\
    (forall d t, ~ In (mkTableName d t) (map fst entries) -> get_table_status response d t = None).
Proof.
  intros Hrev Hwf Hlen Hnd. pose proof (reads_tables_status rev entries Hrev Hwf Hlen) as Hs.
  destruct (reads_alike_reads _ _ _ _ _ (tables_status_alike rev) Hs rest) as (b & Ha & <-).
  eexists. split; [apply Hs|]. split; [exact Ha|]. unfold get_table_status. cbn [table_states_by_id].
  set (known := map _ entries). assert (map fst known = map fst entries) as Hk by (unfold known; now rewrite map_map).
  assert (NoDup (map fst (List.rev known))) as Hr by (rewrite map_rev; apply NoDup_rev; now rewrite Hk).
  split.
  - intros d t s Hin. apply lookup_table_in; [exact Hr|]. apply in_rev. rewrite rev_involutive.
    apply in_map_iff. exists (mkTableName d t, s). split; [reflexivity|exact Hin].
  - intros d t Hni. apply lookup_table_not_in. rewrite map_rev, Hk, <- in_rev. exact Hni.
Qed.

Definition sample_tables : list (QualifiedTableName * TableStatus) :=
  [(mkTableName (str "db") (str "t"), mkTableStatus true 42 true);
   (mkTableName (str "db") (str "u"), mkTableStatus false 7 false)].

Lemma tables_status_understood_witness :
  exists response,
    run (Sync.read_tables_status_response 54483) (write_tables_status 54483 sample_tables ++ [x2a]) = Ok (response, [x2a]) /\
    run (Async.read_tables_status_response 54483) (write_tables_status 54483 sample_tables ++ [x2a]) = Ok (response, [x2a]) /\
    (forall d t s, In (mkTableName d t, s) sample_tables ->
       get_table_status response d t = Some (known_status 54483 s)) /\
    (forall d t, ~ In (mkTableName d t) (map fst sample_tables) -> get_table_status response d t = None).
Proof.
  apply (tables_status_understood 54483 sample_tables [x2a]).
  - discriminate.
  - reflexivity.
  - discriminate.
  - apply NoDup_cons; [intros [E|[]]; discriminate E|]. apply NoDup_cons; [intros []|apply NoDup_nil].
Defined.

(** ** Requests of the parallel-replica coordinator

    As the server writes them at [DBMS_PARALLEL_REPLICAS_PROTOCOL_VERSION], which has
    every field. *)

Record PartDescription := mkPart {
  part_version : Z; partition_id : bytes; min_block : Z; max_block : Z; level : Z; mutation : Z;
  use_legacy_max_level : Init.Byte.byte; mark_ranges : bytes; part_rows : Z; projection_name : bytes;
  min_marks_per_task : Z;
}.

Record Announcement := mkAnnouncement {
  an_version : Z; an_mode : Init.Byte.byte; an_parts : list PartDescription; an_replica_num : Z;
  an_mark_segment_size : Z; an_participating_replicas : Z; an_min_marks_per_request : Z; an_stream_id : bytes;
}.

Record ReadRequest := mkReadRequest {
  rq_version : Z; rq_mode : Init.Byte.byte; rq_replica_num : Z; rq_min_marks_per_request : Z;
  rq_parts : list PartDescription; rq_stream_id : bytes;
}.

Definition write_part (p : PartDescription) : bytes :=
  (to_le 8 (part_version p) ++ write_string (partition_id p) ++ to_le 8 (min_block p) ++ to_le 8 (max_block p) ++
   to_le 8 (level p) ++ to_le 8 (mutation p) ++ [use_legacy_max_level p]) ++
  (to_le 8 (blen (mark_ranges p) / 16) ++ mark_ranges p) ++ write_varint (part_rows p) ++
  write_string (projection_name p) ++ write_varint (min_marks_per_task p).

Definition write_parts (parts : list PartDescription) : bytes :=
  write_varint (Z.of_nat (length parts)) ++ concat (map write_part parts).

Definition write_announcement (a : Announcement) : bytes :=
  to_le 8 (an_version a) ++ [an_mode a] ++ write_parts (an_parts a) ++ to_le 8 (an_replica_num a) ++
  to_le 8 (an_mark_segment_size a) ++ write_varint (an_participating_replicas a) ++
  write_varint (an_min_marks_per_request a) ++ write_string (an_stream_id a).

Definition write_read_request (r : ReadRequest) : bytes :=
  to_le 8 (rq_version r) ++ [rq_mode r] ++ to_le 8 (rq_replica_num r) ++ to_le 8 (rq_min_marks_per_request r) ++
  write_parts (rq_parts r) ++ write_string (rq_stream_id r).

Definition wf_part (p : PartDescription) : bool :=
  wire_text (partition_id p) && wire_text (projection_name p) && u64_value (part_rows p) &&
  u64_value (min_marks_per_task p) && (blen (mark_ranges p) mod 16 =? 0) && (blen (mark_ranges p) <=? ISIZE_MAX).

Definition wf_parts (parts : list PartDescription) : bool :=
  forallb wf_part parts && u64_value (Z.of_nat (length parts)).

Definition wf_announcement (a : Announcement) : bool :=
  wf_parts (an_parts a) && u64_value (an_participating_replicas a) && u64_value (an_min_marks_per_request a) &&
  wire_text (an_stream_id a).

Definition wf_read_request (r : ReadRequest) : bool := wf_parts (rq_parts r) && wire_text (rq_stream_id r).

Lemma reads_u64_le v : reads Sync.read_u64_le (to_le 8 v) (from_le (to_le 8 v)).
Proof. eapply reads_last; [apply reads_exact, blen_to_le|apply reads_ret]. Qed.

Lemma reads_u8 b : reads Sync.read_u8 [b] (byte.unsigned b).
Proof. eapply reads_last; [now apply reads_exact|apply reads_ret]. Qed.

Lemma reads_discard chunk bs : 0 < chunk -> reads (discard_by chunk (blen bs)) bs tt.
Proof.
  intros Hc rest. pose proof (blen_nonneg bs). pose proof (blen_nonneg rest). rewrite run_discard_by, blen_app by lia.
  destruct (Z.leb_spec (blen bs) (blen bs + blen rest)); [|lia]. now rewrite drop_app_exact.
Qed.

Lemma reads_skip {A B} (m : reader A) (k : reader B) w1 w2 a b :
  reads m w1 a -> reads k w2 b -> reads (m ;; k) (w1 ++ w2) b.
Proof. intros Hm Hk. now apply (reads_bind m (fun _ => k) w1 w2 a). Qed.

Lemma reads_field {A} (m : reader A) w a : reads m w a -> reads (m ;; ret tt) w tt.
Proof. intros Hm. eapply reads_last; [exact Hm|apply reads_ret]. Qed.

Lemma div16 n : 0 <= n -> n mod 16 = 0 -> n / 16 * 16 = n.
Proof. intros. pose proof (Z.div_mod n 16 ltac:(lia)). lia. Qed.

Lemma reads_mark_ranges marks :
  blen marks mod 16 = 0 -> blen marks <= ISIZE_MAX ->
  reads Sync.skip_mark_ranges (to_le 8 (blen marks / 16) ++ marks) tt.
Proof.
  intros Hmod Hlen. pose proof (blen_nonneg marks). pose proof (div16 _ H Hmod) as Hdiv. unfold ISIZE_MAX in Hlen.
  assert (0 <= blen marks / 16 < 2 ^ 64) as Hr by (assert (0 <= blen marks / 16) by (apply Z.div_pos; lia); lia).
  eapply reads_bind; [apply reads_u64_le|]. rewrite from_to_le by exact Hr.
  apply (reads_first _ _ _ (blen marks / 16)).
  { apply reads_lift. unfold usize_try_from, try_from_max, USIZE_MAX. now destruct (Z.leb_spec (blen marks / 16) (2 ^ 64 - 1)); [|lia]. }
  apply (reads_first _ _ _ (blen marks)); [|now apply reads_discard].
  apply reads_lift. unfold Sync.checked_len, checked_mul, USIZE_MAX. rewrite Hdiv.
  now destruct (Z.leb_spec (blen marks) (2 ^ 64 - 1)); [|lia].
Qed.

Create HintDb reads discriminated.
#[export] Hint Resolve reads_varint reads_string reads_u64_le reads_u8 reads_ret reads_field : reads.

(** Read the fields of a packet one after the other. *)
Ltac reads_fields :=
  repeat first [ solve [eauto with reads]
               | eapply reads_skip; [solve [eauto with reads]|] ].

Lemma reads_part p : wf_part p = true -> reads (Sync.skip_part_description DBMS_PARALLEL_REPLICAS_PROTOCOL_VERSION) (write_part p) tt.
Proof.
  unfold wf_part. intros Hwf. andb_all. unfold Sync.skip_part_description, write_part.
  eapply reads_skip; [unfold Sync.skip_merge_tree_part_info; reads_fields; rewrite <- (app_nil_r [_]); reads_fields|].
  eapply reads_skip; [apply reads_mark_ranges; lia|]. unfold DBMS_PARALLEL_REPLICAS_PROTOCOL_VERSION. cbn [Z.leb Z.compare Pos.compare Pos.compare_cont].
  reads_fields.
Qed.

Lemma reads_parts parts :
  wf_parts parts = true ->
  reads (Sync.skip_ranges_in_data_parts_description DBMS_PARALLEL_REPLICAS_PROTOCOL_VERSION) (write_parts parts) tt.
Proof.
  unfold wf_parts. intros Hwf. apply andb_prop in Hwf as [Hp Hn]. unfold Sync.skip_ranges_in_data_parts_description, write_parts.
  eapply reads_bind; [now apply reads_varint|]. apply (reads_first _ _ _ (Z.of_nat (length parts))).
  { apply reads_lift. unfold usize_try_from, try_from_max. apply u64_value_inv in Hn. unfold U64_MAX, USIZE_MAX in *.
    now destruct (Z.leb_spec (Z.of_nat (length parts)) (2 ^ 64 - 1)); [|lia]. }
  rewrite Nat2Z.id. clear Hn. induction parts as [|p parts IH]; [apply reads_ret|]. cbn [forallb] in Hp.
  apply andb_prop in Hp as [Hp Hps]. cbn [length repeat_n map concat]. eapply reads_skip; [now apply reads_part|now apply IH].
Qed.

#[export] Hint Resolve reads_parts : reads.

Lemma reads_announcement a : wf_announcement a = true -> reads Sync.skip_parallel_read_announcement (write_announcement a) tt.
Proof.
  unfold wf_announcement. intros Hwf. andb_all. unfold Sync.skip_parallel_read_announcement, write_announcement.
  do 4 (eapply reads_skip; [solve [eauto with reads]|]).
  unfold DBMS_PARALLEL_REPLICAS_PROTOCOL_VERSION. cbn [Z.leb Z.compare Pos.compare Pos.compare_cont]. reads_fields.
Qed.

Lemma reads_read_request r :
  wf_read_request r = true -> reads Sync.read_parallel_read_request_stream_id (write_read_request r) (rq_stream_id r).
Proof.
  unfold wf_read_request. intros Hwf. andb_all. unfold Sync.read_parallel_read_request_stream_id, write_read_request.
  do 5 (eapply reads_skip; [solve [eauto with reads]|]).
  unfold DBMS_PARALLEL_REPLICAS_PROTOCOL_VERSION. cbn [Z.leb Z.compare Pos.compare Pos.compare_cont]. reads_fields.
Qed.

(** What one engine reads back, the other does. *)
Lemma reads_transfer {A} (m m' : reader A) w a : reads_alike eq m m' -> reads m w a -> reads m' w a.
Proof.
  intros Hm Ha rest. destruct (reads_alike_reads eq m m' w a Hm Ha rest) as (b & E & ->). exact E.
Qed.

Lemma read_string_takes v X s rest :
  u64_value v = true -> run read_string (write_varint v ++ X) = Ok (s, rest) -> v <= blen X /\ rest = drop v X.
Proof.
  intros Hv E. unfold read_string in E. rewrite (run_bind_ok _ _ _ _ _ (reads_varint v Hv X)) in E.
  apply run_bind_inv in E as (n & l & E1 & E). apply run_lift_inv in E1 as [E1 ->].
  apply wire_checked_string_len_inv in E1 as [-> _].
  apply run_bind_inv in E as (buf & l & E1 & E). apply run_read_exact_inv in E1 as (? & -> & ->).
  apply run_lift_inv in E as [_ ->]. auto.
Qed.

(** Where the asynchronous engine is after the fields it knows of. *)
Lemma async_announcement_tail a rest :
  wf_announcement a = true ->
  run Async.skip_parallel_read_announcement (write_announcement a ++ rest) =
  run (Async.read_string_async ;; ret tt)
    (write_varint (an_min_marks_per_request a) ++ write_string (an_stream_id a) ++ rest).
Proof.
  unfold wf_announcement. intros Hwf. andb_all. unfold Async.skip_parallel_read_announcement, write_announcement.
  rewrite <- !app_assoc.
  rewrite (run_bind_ok _ _ _ _ _ (reads_u64_le (an_version a) _)).
  rewrite (run_bind_ok _ _ _ _ _ (reads_u8 (an_mode a) _)).
  rewrite (run_bind_ok _ _ _ _ _ (reads_transfer _ _ _ _ (part_ranges_alike _) (reads_parts _ H) _)).
  rewrite (run_bind_ok _ _ _ _ _ (reads_u64_le (an_replica_num a) _)).
  unfold DBMS_PARALLEL_REPLICAS_PROTOCOL_VERSION. cbn [Z.leb Z.compare Pos.compare Pos.compare_cont].
  rewrite (run_bind_ok _ _ _ _ _ (reads_field _ _ _ (reads_u64_le (an_mark_segment_size a)) _)).
  rewrite (run_bind_ok _ _ _ _ _ (reads_field _ _ _ (reads_transfer _ _ _ _ varint_async_alike (reads_varint _ H2)) _)).
  reflexivity.
Qed.

(** The engines disagree about a coordinator's announcement.  The blocking client
    skips exactly the packet; the asynchronous one knows no number of participating
    replicas, takes the number of marks per request for the length of the stream id,
    and goes on at another byte unless that number happens to be the size of the id. *)
Theorem announcement_desynchronises (a : Announcement) (rest : bytes) :
  wf_announcement a = true ->
  run Sync.skip_parallel_read_announcement (write_announcement a ++ rest) = Ok (tt, rest) /\
  forall rest', run Async.skip_parallel_read_announcement (write_announcement a ++ rest) = Ok (tt, rest') ->
    rest' = drop (an_min_marks_per_request a) (write_string (an_stream_id a) ++ rest) /\
    (an_min_marks_per_request a <> blen (write_string (an_stream_id a)) -> rest' <> rest).
Proof.
  intros Hwf. split; [now apply reads_announcement|]. intros rest' E. rewrite (async_announcement_tail a rest Hwf) in E.
  unfold wf_announcement in Hwf. andb_all.
  apply run_bind_inv in E as (s & l & E & E'). apply Ok_inj in E'. injection E' as ->.
  pose proof (string_async_alike (write_varint (an_min_marks_per_request a) ++ write_string (an_stream_id a) ++ rest)) as Ha.
  rewrite E in Ha. destruct (run read_string _) as [[s' l]|] eqn:Es in Ha; [|contradiction]. destruct Ha as [_ ->].
  apply read_string_takes in Es as [Hle ->]; [|assumption]. split; [reflexivity|]. intros Hne Heq.
  apply (f_equal blen) in Heq. pose proof (u64_value_inv _ H1). rewrite blen_drop, blen_app in Heq by lia. lia.
Qed.

Definition sample_announcement : Announcement :=
  mkAnnouncement 7 x00 [mkPart 1 (str "all") 0 1 0 0 x00 (repeat x00 16) 100 [] 8] 1 128 2 0 (str "s1").

Lemma announcement_desynchronises_witness :
  run Sync.skip_parallel_read_announcement (write_announcement sample_announcement ++ [x05]) = Ok (tt, [x05]) /\
  forall rest', run Async.skip_parallel_read_announcement (write_announcement sample_announcement ++ [x05]) = Ok (tt, rest') ->
    rest' = drop (an_min_marks_per_request sample_announcement)
              (write_string (an_stream_id sample_announcement) ++ [x05]) /\
    (an_min_marks_per_request sample_announcement <> blen (write_string (an_stream_id sample_announcement)) -> rest' <> [x05]).
Proof. apply (announcement_desynchronises sample_announcement [x05]). reflexivity. Defined.

(** The asynchronous engine is then three bytes early. *)
Lemma announcement_leaves_stream_id :
  run Async.skip_parallel_read_announcement (write_announcement sample_announcement ++ [x05]) =
  Ok (tt, [x02] ++ str "s1" ++ [x05]).
Proof. vm_compute. reflexivity. Qed.

(** ** Progress, profile and part UUIDs *)

Lemma u64_value_intro v : u64 v -> u64_value v = true.
Proof. unfold u64, u64_value. intros. apply andb_true_intro. split; lia. Qed.

#[export] Hint Resolve u64_value_intro : reads.

Lemma reads_when {A} min rev (m : reader A) w a :
  reads m w a -> reads (if min <=? rev then m ;; ret tt else ret tt) (since min rev w) tt.
Proof. intros Hm. unfold since. destruct (min <=? rev); [now apply (reads_field m w a)|apply reads_ret]. Qed.

Lemma reads_when2 {A B} min rev (m : reader A) (n : reader B) w w' a b :
  reads m w a -> reads n w' b -> reads (if min <=? rev then m ;; n ;; ret tt else ret tt) (since min rev (w ++ w')) tt.
Proof.
  intros Hm Hn. unfold since. destruct (min <=? rev); [|apply reads_ret].
  eapply reads_skip; [exact Hm|]. eapply reads_field, Hn.
Qed.

Lemma progress_const rev : Sync.skip_progress_packet_for_revision rev = Sync.skip_progress_packet rev.
Proof.
  unfold Sync.skip_progress_packet_for_revision.
  repeat match goal with |- context [rev =? ?c] => destruct (Z.eqb_spec rev c) as [->|]; [reflexivity|] end. reflexivity.
Qed.

Lemma profile_const rev : Sync.skip_profile_info_packet_for_revision rev = Sync.skip_profile_info_packet rev.
Proof.
  unfold Sync.skip_profile_info_packet_for_revision.
  repeat match goal with |- context [rev =? ?c] => destruct (Z.eqb_spec rev c) as [->|]; [reflexivity|] end. reflexivity.
Qed.

Lemma reads_progress rev p : wf_progress p -> reads (Sync.skip_progress_packet_for_revision rev) (write_progress rev p) tt.
Proof.
  intros (? & ? & ? & ? & ? & ? & ?). rewrite progress_const. unfold Sync.skip_progress_packet, write_progress.
  do 3 (eapply reads_skip; [eauto with reads|]).
  eapply reads_skip; [eapply reads_when2; eauto with reads|].
  eapply reads_skip; eapply reads_when; eauto with reads.
Qed.

Lemma reads_flag b : reads (read_exact_r 1) [b] [b].
Proof. now apply reads_exact. Qed.

#[export] Hint Resolve reads_flag : reads.

Lemma reads_profile_info rev p : wf_profile p -> reads (Sync.skip_profile_info_packet_for_revision rev) (write_profile_info rev p) tt.
Proof.
  intros (? & ? & ? & ? & ?). rewrite profile_const. unfold Sync.skip_profile_info_packet, write_profile_info.
  do 6 (eapply reads_skip; [eauto with reads|]). eapply reads_when2; eauto with reads.
Qed.

Lemma reads_part_uuids uuids :
  blen uuids mod 16 = 0 -> blen uuids <= ISIZE_MAX ->
  reads Sync.skip_part_uuids_packet (write_varint (blen uuids / 16) ++ uuids) tt.
Proof.
  intros Hmod Hlen. pose proof (blen_nonneg uuids). pose proof (div16 _ H Hmod) as Hdiv. unfold ISIZE_MAX in Hlen.
  assert (u64 (blen uuids / 16)) as Hr
    by (assert (0 <= blen uuids / 16) by (apply Z.div_pos; lia); unfold u64, U64_MAX; lia).
  eapply reads_bind; [eauto with reads|]. unfold u64, U64_MAX in Hr.
  apply (reads_first _ _ _ (blen uuids / 16)).
  { apply reads_lift. unfold usize_try_from, try_from_max, USIZE_MAX. now destruct (Z.leb_spec (blen uuids / 16) (2 ^ 64 - 1)); [|lia]. }
  apply (reads_first _ _ _ (blen uuids)); [|now apply reads_discard].
  apply reads_lift. unfold checked_mul, USIZE_MAX. rewrite Hdiv. now destruct (Z.leb_spec (blen uuids) (2 ^ 64 - 1)); [|lia].
Qed.

(** ** Exceptions *)

(** One level of a chain and a whole chain as they are reported, with the rendering [text]
    of names and messages: [entry_part] and [chain_error] are those of [from_utf8_lossy]. *)
Definition told (text : bytes -> bytes) (e : ExceptionEntry) : bytes :=
  exception_part (e_code e) (text (e_name e)) (text (e_message e)).

Definition reported (text : bytes -> bytes) (e : ExceptionEntry) (nested : list ExceptionEntry) : error :=
  ServerError (e_code e) (text (e_name e)) (join_nested (map (told text) (e :: nested))).

(** The error a chain ends in, from the levels read before. *)
Definition chain_end (text : bytes -> bytes) (root : option (Z * bytes)) (messages : list bytes)
    (e : ExceptionEntry) (nested : list ExceptionEntry) : error :=
  server_error (first_root root (e_code e) (text (e_name e))) (messages ++ map (told text) (e :: nested)).

Lemma chain_end_whole text e nested : chain_end text None [] e nested = reported text e nested.
Proof. reflexivity. Qed.

Lemma chain_end_step text root messages e e' nested :
  chain_end text (first_root root (e_code e) (text (e_name e))) (messages ++ [told text e]) e' nested =
  chain_end text root messages e (e' :: nested).
Proof.
  unfold chain_end. rewrite <- app_assoc. cbn [map app]. f_equal. unfold first_root. now destruct root.
Qed.

Lemma reads_i32 z : - 2 ^ 31 <= z < 2 ^ 31 -> reads (read_bytes 4) (i32_to_le z) (i32_to_le z).
Proof. intros _. apply reads_exact, blen_to_le. Qed.

Lemma reads_lossy s : blen s <= MAX_STRING_BYTES -> reads Sync.read_string_lossy (write_string_bytes s) (from_utf8_lossy s).
Proof. intros Hs. eapply reads_last; [now apply reads_string_bytes|apply reads_ret]. Qed.

(** One level of the blocking engine's loop. *)
Lemma run_exception_step (self : option (Z * bytes) * list bytes -> reader error) root messages e flag rest :
  wf_entry e ->
  run (Sync.exception_step self (root, messages)) (write_entry e flag ++ rest) =
  let root := first_root root (e_code e) (from_utf8_lossy (e_name e)) in
  let messages := messages ++ [told from_utf8_lossy e] in
  if byte.unsigned flag =? 0 then Ok (server_error root messages, rest) else run (self (root, messages)) rest.
Proof.
  intros (Hc & Hn & Hm & Hs). unfold Sync.exception_step, write_entry. rewrite <- !app_assoc.
  rewrite (run_bind_ok _ _ _ _ _ (reads_i32 _ Hc _)).
  rewrite (run_bind_ok _ _ _ _ _ (reads_lossy _ Hn _)), (run_bind_ok _ _ _ _ _ (reads_lossy _ Hm _)).
  rewrite (run_bind_ok _ _ _ _ _ (reads_string_bytes _ Hs _)), (run_bind_ok _ _ _ _ _ (reads_flag flag rest)).
  rewrite i32_from_to_le by exact Hc. cbn [byte0]. now destruct (byte.unsigned flag =? 0).
Qed.

Lemma run_exception_packet h bottom : forall nested e root messages rest,
  Forall wf_entry (e :: nested) -> Z.of_nat (length nested) < 2 ^ Z.of_nat h ->
  run (deep h Sync.exception_step bottom (root, messages)) (write_chain e nested ++ rest) =
  Ok (chain_end from_utf8_lossy root messages e nested, rest).
Proof.
  pose proof (deep_ind Sync.exception_step (fun k f => 0 <= k /\
    forall nested e root messages rest, Forall wf_entry (e :: nested) -> Z.of_nat (length nested) < k ->
    run (f (root, messages)) (write_chain e nested ++ rest) = Ok (chain_end from_utf8_lossy root messages e nested, rest))) as Hdeep.
  intros nested e root messages rest Hwf Hlt. eapply Hdeep; [| |exact Hwf|rewrite Z.add_0_l; exact Hlt].
  - intros k f [Hk Hf]. split; [lia|]. clear - Hf. intros [|e' nested] e root messages rest Hwf Hlt;
      inversion Hwf as [|? ? He Hrest]; subst; cbn [write_chain].
    + now rewrite (run_exception_step f).
    + rewrite <- app_assoc, (run_exception_step f) by exact He. cbv zeta. change (byte.unsigned x01 =? 0) with false.
      cbv iota. cbn [length] in Hlt. rewrite Hf; [|exact Hrest|lia]. now rewrite chain_end_step.
  - split; [lia|]. intros. lia.
Qed.

Lemma reads_varint_async v : u64_value v = true -> reads Async.read_varint_async (write_varint v) v.
Proof. intros Hv. eapply reads_transfer; [apply varint_async_alike|now apply reads_varint]. Qed.

Lemma string_len_u64 (s : bytes) : blen s <= MAX_STRING_BYTES -> u64_value (blen s) = true.
Proof. intros Hs. pose proof (blen_nonneg s). apply u64_value_intro. unfold u64, U64_MAX, MAX_STRING_BYTES in *. lia. Qed.

(** The text of an exception, or its length when it is long. *)
Definition shortened (s : bytes) : bytes :=
  if 1048576 <? blen s then str "<large string " ++ show (blen s) ++ str "b>" else from_utf8_lossy s.

Lemma reads_lossy_async s :
  blen s <= MAX_STRING_BYTES -> reads Async.read_string_lossy_async (write_string_bytes s) (shortened s).
Proof.
  intros Hs. eapply reads_bind; [now apply reads_varint_async, string_len_u64|].
  apply (reads_first _ _ _ (blen s)).
  { apply reads_lift. now rewrite checked_string_len_ok. }
  unfold shortened. destruct (1048576 <? blen s).
  - eapply reads_last; [now apply reads_discard|apply reads_ret].
  - destruct (Z.eqb_spec (blen s) 0) as [E|].
    + apply blen_zero in E as ->. apply reads_ret.
    + eapply reads_last; [now apply reads_exact|apply reads_ret].
Qed.

(** Texts of at most 1 MiB are not shortened. *)
Lemma reported_brief e nested :
  Forall (fun e => blen (e_name e) <= 1048576 /\ blen (e_message e) <= 1048576) (e :: nested) ->
  reported shortened e nested = chain_error e nested.
Proof.
  assert (forall s : bytes, blen s <= 1048576 -> shortened s = from_utf8_lossy s) as Hs
    by (intros s H; unfold shortened; now destruct (Z.ltb_spec 1048576 (blen s)); [lia|]).
  intros H. unfold reported, chain_error. f_equal; [inversion H; now apply Hs|]. f_equal. apply map_ext_in. intros x Hx.
  rewrite Forall_forall in H. destruct (H x Hx) as [Hn Hm]. unfold told, entry_part. now rewrite !Hs.
Qed.

Lemma run_exception_level levels root messages e flag rest :
  wf_entry e ->
  run (Async.exception_levels (S levels) root messages) (write_entry e flag ++ rest) =
  let root := first_root root (e_code e) (shortened (e_name e)) in
  let messages := messages ++ [told shortened e] in
  if byte.unsigned flag =? 0 then Ok (server_error root messages, rest)
  else run (Async.exception_levels levels root messages) rest.
Proof.
  intros (Hc & Hn & Hm & Hs). cbn [Async.exception_levels]. unfold write_entry. rewrite <- !app_assoc.
  rewrite (run_bind_ok _ _ _ _ _ (reads_i32 _ Hc _)).
  rewrite (run_bind_ok _ _ _ _ _ (reads_lossy_async _ Hn _)), (run_bind_ok _ _ _ _ _ (reads_lossy_async _ Hm _)).
  rewrite (run_bind_ok _ _ _ _ _ (reads_lossy_async _ Hs _)), (run_bind_ok _ _ _ _ _ (reads_flag flag rest)).
  rewrite i32_from_to_le by assumption. cbn [byte0]. now destruct (byte.unsigned flag =? 0).
Qed.

Lemma run_exception_levels nested : forall levels e root messages rest,
  Forall wf_entry (e :: nested) ->
  run (Async.exception_levels levels root messages) (write_chain e nested ++ rest) =
  if (length nested <? levels)%nat then Ok (chain_end shortened root messages e nested, rest) else Err exception_too_deep.
Proof.
  induction nested as [|e' nested IH]; intros [|levels] e root messages rest Hwf; try reflexivity;
    inversion Hwf as [|? ? He Hrest]; subst; cbn [write_chain].
  - now rewrite run_exception_level.
  - rewrite <- app_assoc, run_exception_level by exact He. cbv zeta. change (byte.unsigned x01 =? 0) with false.
    cbv iota. rewrite IH by exact Hrest. cbn [length]. change (S (length nested) <? S levels)%nat with (length nested <? levels)%nat.
    now rewrite chain_end_step.
Qed.

Lemma write_chain_long nested : forall e, Z.of_nat (length nested) < blen (write_chain e nested).
Proof.
  induction nested as [|e' nested IH]; intros e; cbn [write_chain length]; unfold write_entry.
  - rewrite !blen_app. unfold i32_to_le. rewrite blen_to_le. change (blen [x00]) with 1.
    pose proof (blen_nonneg (write_string_bytes (e_name e))). pose proof (blen_nonneg (write_string_bytes (e_message e))).
    pose proof (blen_nonneg (write_string_bytes (e_stack e))). lia.
  - specialize (IH e'). rewrite !blen_app. unfold i32_to_le. rewrite blen_to_le. change (blen [x01]) with 1.
    pose proof (blen_nonneg (write_string_bytes (e_name e))). pose proof (blen_nonneg (write_string_bytes (e_message e))).
    pose proof (blen_nonneg (write_string_bytes (e_stack e))). lia.
Qed.

Lemma reads_exception_packet e nested :
  Forall wf_entry (e :: nested) -> blen (write_chain e nested) <= ISIZE_MAX ->
  reads Sync.read_exception_packet (write_chain e nested) (chain_error e nested).
Proof.
  intros Hwf Hlen rest. unfold Sync.read_exception_packet. rewrite run_exception_packet; [reflexivity|exact Hwf|].
  pose proof (write_chain_long nested e). unfold ISIZE_MAX in Hlen. change (2 ^ Z.of_nat STREAM_BITS) with (2 ^ 63). lia.
Qed.

(** C29: an exception packet surfaces as the server's error in both engines, and is taken
    off the stream exactly, however its chain is nested: the blocking engine reports every
    level, the asynchronous one does so up to the depth limit and rejects a deeper chain.
    In the asynchronous error a name or message of more than 1 MiB is replaced by its
    length; where there is none, the two errors are the same. *)
Theorem exception_packet_surfaces (e : ExceptionEntry) (nested : list ExceptionEntry) (rest : bytes) :
  Forall wf_entry (e :: nested) -> blen (write_chain e nested) <= ISIZE_MAX ->
  run Sync.read_exception_packet (write_chain e nested ++ rest) = Ok (chain_error e nested, rest) /\
  run Async.read_exception (write_chain e nested ++ rest) =
    (if Z.of_nat (length nested) <? MAX_EXCEPTION_CHAIN_DEPTH then Ok (reported shortened e nested, rest)
     else Err exception_too_deep) /\
  (Forall (fun e => blen (e_name e) <= 1048576 /\ blen (e_message e) <= 1048576) (e :: nested) ->
   reported shortened e nested = chain_error e nested).
Proof.
  intros Hwf Hlen. conj; [now apply reads_exception_packet| |apply reported_brief].
  unfold Async.read_exception. rewrite run_exception_levels by exact Hwf. rewrite chain_end_whole.
  destruct (Nat.ltb_spec (length nested) (Z.to_nat MAX_EXCEPTION_CHAIN_DEPTH)),
    (Z.ltb_spec (Z.of_nat (length nested)) MAX_EXCEPTION_CHAIN_DEPTH); unfold MAX_EXCEPTION_CHAIN_DEPTH in *; try lia; reflexivity.
Qed.

Definition deep_chain : list ExceptionEntry := repeat (mkEntry 60 (str "DB::Exception") (str "no table") (str "0. main")) 70.

Lemma exception_packet_surfaces_witness :
  let e := mkEntry (-1) (str "DB::NetException") (str "reset") [] in
  run Sync.read_exception_packet (write_chain e deep_chain ++ [x05]) = Ok (chain_error e deep_chain, [x05]) /\
  run Async.read_exception (write_chain e deep_chain ++ [x05]) = Ok (chain_error e deep_chain, [x05]).
Proof.
  cbv zeta.
  assert (forall e, blen (e_name e) <= 1000 -> blen (e_message e) <= 1000 -> blen (e_stack e) <= 1000 ->
            - 2 ^ 31 <= e_code e < 2 ^ 31 -> wf_entry e) as Hbrief
    by (intros e ? ? ? ?; unfold wf_entry, MAX_STRING_BYTES; lia).
  destruct (exception_packet_surfaces (mkEntry (-1) (str "DB::NetException") (str "reset") []) deep_chain [x05]) as (H1 & H2 & H3).
  - apply Forall_cons; [apply Hbrief; vm_compute; intuition discriminate|].
    apply Forall_forall. intros e He. apply repeat_spec in He as ->. apply Hbrief; vm_compute; intuition discriminate.
  - vm_compute. discriminate.
  - split; [exact H1|]. rewrite <- H3; [exact H2|]. apply Forall_cons; [vm_compute; intuition discriminate|].
    apply Forall_forall. intros e He. apply repeat_spec in He as ->. vm_compute; intuition discriminate.
Defined.

(** ** Progress from an older server *)

Lemma varint_async_shrinks l v rest : run Async.read_varint_async l = Ok (v, rest) -> blen rest < blen l.
Proof.
  intros E. pose proof (varint_async_alike l) as Ha. rewrite E in Ha.
  destruct (run read_varint l) as [[v' rest']|] eqn:E'; [|contradiction]. destruct Ha as [_ ->].
  apply read_varint_inv in E' as (enc & -> & Henc & _). apply varint_length in Henc. rewrite blen_app. lia.
Qed.

(** The last fields of a Progress packet, which every revision since 54463 has. *)
Definition late_fields : reader unit := Async.read_varint_async ;; ret tt.

Lemma late_fields_shrink l rest : run late_fields l = Ok (tt, rest) -> blen rest < blen l.
Proof.
  intros E. apply run_bind_inv in E as (v & l' & E1 & E). apply Ok_inj in E. injection E as <-.
  now apply varint_async_shrinks in E1.
Qed.

(** After the five fields that every supported server sends. *)
Lemma async_progress_tail rev p rest :
  MIN_SUPPORTED_PROTOCOL_REVISION <= rev -> wf_progress p ->
  run Async.read_progress_packet (write_progress rev p ++ rest) =
  run (late_fields ;; late_fields ;;
       ret (Async.mkProgressInfo (pr_rows p) (pr_bytes p) (pr_total_rows p) (pr_written_rows p) (pr_written_bytes p)))
    (since DBMS_MIN_PROTOCOL_VERSION_WITH_SERVER_QUERY_TIME_IN_PROGRESS rev (write_varint (pr_elapsed p)) ++
     since DBMS_MIN_PROTOCOL_VERSION_WITH_TOTAL_BYTES_IN_PROGRESS rev (write_varint (pr_total_bytes p)) ++ rest).
Proof.
  intros Hrev (H1 & H2 & H3 & H4 & H5 & _). unfold Async.read_progress_packet, write_progress.
  change (MIN_SUPPORTED_PROTOCOL_REVISION) with 54459 in Hrev.
  unfold since at 1. change DBMS_MIN_REVISION_WITH_CLIENT_WRITE_INFO with 54420.
  destruct (Z.leb_spec 54420 rev); [|lia]. rewrite <- !app_assoc.
  rewrite (run_bind_ok _ _ _ _ _ (reads_varint_async _ (u64_value_intro _ H1) _)).
  rewrite (run_bind_ok _ _ _ _ _ (reads_varint_async _ (u64_value_intro _ H2) _)).
  rewrite (run_bind_ok _ _ _ _ _ (reads_varint_async _ (u64_value_intro _ H3) _)).
  change (54420 <=? DEFAULT_PROTOCOL_REVISION) with true. cbv iota.
  pose proof (reads_bind _ (fun r => let* b := Async.read_varint_async in ret (r, b)) _ _ _ _
    (reads_varint_async _ (u64_value_intro _ H4)) (reads_map _ (fun b => (pr_written_rows p, b)) _ _
      (reads_varint_async _ (u64_value_intro _ H5)))) as H45.
  specialize (H45 (since DBMS_MIN_PROTOCOL_VERSION_WITH_SERVER_QUERY_TIME_IN_PROGRESS rev (write_varint (pr_elapsed p)) ++
     since DBMS_MIN_PROTOCOL_VERSION_WITH_TOTAL_BYTES_IN_PROGRESS rev (write_varint (pr_total_bytes p)) ++ rest)).
  rewrite <- app_assoc in H45. rewrite (run_bind_ok _ _ _ _ _ H45). reflexivity.
Qed.

(** Progress of an older server.  The blocking engine takes exactly the packet at every
    revision.  The asynchronous one does so, and reports the counters, for servers that
    send the newest fields; from an older supported server it reads on into the next
    packet, since it goes by its own revision and not by the negotiated one. *)
Theorem progress_follows_own_revision (rev : Z) (p : Progress) (rest : bytes) :
  MIN_SUPPORTED_PROTOCOL_REVISION <= rev -> wf_progress p ->
  run (Sync.skip_progress_packet_for_revision rev) (write_progress rev p ++ rest) = Ok (tt, rest) /\
  (DBMS_MIN_PROTOCOL_VERSION_WITH_TOTAL_BYTES_IN_PROGRESS <= rev ->
   run Async.read_progress_packet (write_progress rev p ++ rest) =
   Ok (Async.mkProgressInfo (pr_rows p) (pr_bytes p) (pr_total_rows p) (pr_written_rows p) (pr_written_bytes p), rest)) /\
  (rev < DBMS_MIN_PROTOCOL_VERSION_WITH_TOTAL_BYTES_IN_PROGRESS ->
   forall info rest', run Async.read_progress_packet (write_progress rev p ++ rest) = Ok (info, rest') ->
   blen rest' < blen rest).
Proof.
  intros Hrev Hp. split; [now apply reads_progress|]. rewrite (async_progress_tail rev p rest Hrev Hp).
  destruct Hp as (_ & _ & _ & _ & _ & H6 & H7).
  pose proof (reads_field _ _ _ (reads_varint_async _ (u64_value_intro _ H6))) as R6.
  pose proof (reads_field _ _ _ (reads_varint_async _ (u64_value_intro _ H7))) as R7.
  change DBMS_MIN_PROTOCOL_VERSION_WITH_TOTAL_BYTES_IN_PROGRESS with 54463.
  change DBMS_MIN_PROTOCOL_VERSION_WITH_SERVER_QUERY_TIME_IN_PROGRESS with 54460. unfold since. split.
  - intros H. destruct (Z.leb_spec 54460 rev); [|lia]. destruct (Z.leb_spec 54463 rev); [|lia].
    unfold late_fields. rewrite (run_bind_ok _ _ _ _ _ (R6 _)), (run_bind_ok _ _ _ _ _ (R7 _)). reflexivity.
  - intros H info rest' E. destruct (Z.leb_spec 54463 rev); [lia|]. cbn [app] in E.
    apply run_bind_inv in E as ([] & l1 & E1 & E). apply run_bind_inv in E as ([] & l2 & E2 & E).
    apply Ok_inj in E. injection E as _ <-. apply late_fields_shrink in E2.
    destruct (Z.leb_spec 54460 rev).
    + unfold late_fields in E1. rewrite R6 in E1. apply Ok_inj in E1. injection E1 as <-. exact E2.
    + cbn [app] in E1. apply late_fields_shrink in E1. lia.
Qed.

Lemma progress_follows_own_revision_witness :
  let p := mkProgress 1 2 3 4 5 6 7 in
  run (Sync.skip_progress_packet_for_revision 54459) (write_progress 54459 p ++ [x05; x00]) = Ok (tt, [x05; x00]) /\
  (DBMS_MIN_PROTOCOL_VERSION_WITH_TOTAL_BYTES_IN_PROGRESS <= 54459 ->
   run Async.read_progress_packet (write_progress 54459 p ++ [x05; x00]) =
   Ok (Async.mkProgressInfo 1 2 3 4 5, [x05; x00])) /\
  (54459 < DBMS_MIN_PROTOCOL_VERSION_WITH_TOTAL_BYTES_IN_PROGRESS ->
   forall info rest', run Async.read_progress_packet (write_progress 54459 p ++ [x05; x00]) = Ok (info, rest') ->
   blen rest' < blen [x05; x00]).
Proof.
  cbv zeta. apply (progress_follows_own_revision 54459 (mkProgress 1 2 3 4 5 6 7) [x05; x00]).
  - discriminate.
  - unfold wf_progress, u64, U64_MAX. cbn. lia.
Defined.
