(* ===== verification/AsyncReader.v ===== *)
(** * Blocks of the asynchronous engine ([connection/block_reader.rs], [connection/io.rs], [cursor.rs])

    [read_data_block] reads a block from an [AsyncRead].  It differs from the blocking reader
    of [BlockReader] in more than its being asynchronous: the components of a type are read by
    printing and parsing their names again, strings are read with the first byte of the next
    length in one piece and written back with the shortest length, and LowCardinality columns
    are expanded by other code.

    [tidy] is a reference for all this: it reads a column by its type, one value at a time, and
    gives the bytes of the column with every string length in its shortest form and every
    LowCardinality row in place.  [read_column_async] is shown to be [tidy] up to its caps,
    [discard_column_async] to pass over the same bytes, and a block that [write_block] wrote to
    be read back.  Types whose names do not print what they are ([Enum8] inside [Array]) are
    read as something else ([nested_enum_misread]). *)

From Stdlib Require Import String ZArith Lia Bool List.
From Stdlib Require Import Strings.Byte.
From coqutil Require Import Byte.
From S2P Require Import Columns AnyColumn.
From S2P Require Import Prelude Reader Limits Utf8 Wire TypeParser SkipColumn Arena ColumnReader Framing BlockReader.
From S2P Require Import Session RawReader BlockWriter Packets.
Import ListNotations.

(** ** Strings ([io.rs]) *)

Definition STRING_COL_MERGED_MAX : Z := 4096.

(** The first byte of a length: the one read ahead, or the next of the stream. *)
Definition first_byte (pending : option byte) : reader Z :=
  match pending with
  | Some b => ret (byte.unsigned b)
  | None => let* bs := read_exact_r 1 in ret (byte0 bs)
  end.

Definition read_length (pending : option byte) : reader Z :=
  let* first := first_byte pending in
  if Z.land first 0x80 =? 0 then ret first
  else Async.read_varint_more 10 (Z.land first 0x7F) 7.

Definition column_overflow : error := Protocol (msg "column buffer length overflow").

(** The bytes of a value behind [start] others of the column, and the byte read ahead. *)
Definition string_body (start len : Z) (last : bool) : reader (bytes * option byte) :=
  if STRING_COL_MERGED_MAX <? len then
    lift (ok_or (checked_add start len) column_overflow) ;;
    let* body := read_exact_r len in ret (body, None)
  else
    let n := len + (if last then 0 else 1) in
    if 0 <? n then
      let* scratch := read_exact_r n in
      ret (take len scratch, if last then None else hd_error (drop len scratch))
    else ret ([], None).

(** The loop of [read_string_column_with_prefixes]: [rows] values are left. *)
Fixpoint string_rows_prefixed (rows : nat) (length_name : string) (pending : option byte) (total : Z)
    (data : bytes) : reader bytes :=
  match rows with
  | O => ret data
  | S rows =>
      let* value := read_length pending in
      let* len := lift (protocol (checked_string_len value (str length_name))) in
      let* needed := lift (ok_or (checked_add (varint_len len) len) column_overflow) in
      let* total := lift (protocol (checked_column_bytes total needed (str length_name))) in
      let data := data ++ encode_varint len in
      let last := match rows with O => true | S _ => false end in
      let* (body, pending) := string_body (blen data) len last in
      string_rows_prefixed rows length_name pending total (data ++ body)
  end.

Definition read_string_column_with_prefixes (rows : Z) (length_name : string) : reader bytes :=
  if rows =? 0 then ret [] else string_rows_prefixed (Z.to_nat rows) length_name None 0 [].

Definition read_offsets_column (rows : Z) (name : string) : reader (bytes * Z) :=
  let* nbytes := lift (column_len rows 8 name) in
  let* offsets := read_exact_r nbytes in
  let* total := lift (protocol (fold_offsets 0 (map from_le (chunks_exact 8 offsets)) (str name))) in
  ret (offsets, total).

(** ** LowCardinality ([cursor.rs]) *)

Module Cursor.

(** Out-of-range bytes and unknown widths give zero. *)
Definition read_lc_idx (data : bytes) (i w : Z) : Z :=
  match checked_mul i w with
  | None => 0
  | Some off =>
      match checked_add off w with
      | None => 0
      | Some end_ =>
          if blen data <? end_ then 0
          else if (w =? 1) || (w =? 2) || (w =? 4) || (w =? 8) then from_le (slice data off end_)
          else 0
      end
  end.

Definition out_of_bounds : error := Protocol (msg "LowCardinality dictionary index out of bounds").

Definition materialize_lc_fixed (dict : bytes) (es : Z) (idxs : bytes) (iw ni : Z) : result error bytes :=
  if (ni =? 0) || (es =? 0) then Ok []
  else if blen dict <? es then Err (Protocol (msg "LowCardinality dictionary smaller than one entry"))
  else
    let* cap := ok_or (checked_mul ni es) (Protocol (msg "LowCardinality materialized size overflow")) in
    if MAX_COLUMN_BYTES <? cap
    then Err (Protocol (Msg "LowCardinality materialized column byte length {cap} exceeds limit {}"
                            [AZ cap; AZ MAX_COLUMN_BYTES]))
    else
      let overflow := Protocol (msg "LowCardinality dictionary index overflow") in
      let* rows := map_each (row_numbers ni) (fun i =>
        let* start := ok_or (checked_mul (read_lc_idx idxs i iw) es) overflow in
        let* end_ := ok_or (checked_add start es) overflow in
        if blen dict <? end_ then Err out_of_bounds else Ok (slice dict start end_)) in
      Ok (concat rows).

Fixpoint encode_varint_to_loop (fuel : nat) (v : Z) : bytes :=
  match fuel with
  | O => []
  | S fuel =>
      byte.of_Z (Z.lor (Z.land v 0x7F) (if 0x7F <? v then 0x80 else 0))
      :: (let v := Z.shiftr v 7 in if v =? 0 then [] else encode_varint_to_loop fuel v)
  end.

Definition encode_varint_to (v : Z) : bytes := encode_varint_to_loop 10 v.

(** The value and the number of bytes it takes. *)
Fixpoint read_varint_bytes_loop (data : bytes) (r s c : Z) : result error (Z * Z) :=
  match data with
  | [] => Err (Protocol (msg "truncated varint"))
  | b :: data =>
      let b := byte.unsigned b in
      let c := c + 1 in
      if (63 <? s) || ((s =? 63) && (1 <? Z.land b 0x7F)) then Err varint_overflow
      else
        let r := Z.lor r (u64_shl (Z.land b 0x7F) s) in
        if Z.land b 0x80 =? 0 then Ok (r, c) else read_varint_bytes_loop data r (s + 7) c
  end.

Definition read_varint_bytes (data : bytes) : result error (Z * Z) := read_varint_bytes_loop data 0 0 0.

(** The ranges of the strings of a dictionary; every entry takes at least one byte. *)
Fixpoint string_offsets (fuel : nat) (dict_data : bytes) (pos : Z) : result error (list (Z * Z)) :=
  match fuel with
  | O => Err ModelFuel
  | S fuel =>
      if pos <? blen dict_data then
        let* (len, consumed) := read_varint_bytes (drop pos dict_data) in
        let pos := pos + consumed in
        let* len := ok_or (usize_try_from len) (Protocol (msg "LowCardinality string length too large")) in
        let* end_ := ok_or (checked_add pos len) (Protocol (msg "LowCardinality string length overflow")) in
        if blen dict_data <? end_
        then Err (Protocol (msg "LowCardinality string dictionary is truncated"))
        else let* offsets := string_offsets fuel dict_data end_ in Ok ((pos, end_) :: offsets)
      else Ok []
  end.

Fixpoint expand_strings (dict_data : bytes) (offsets : list (Z * Z)) (indexes : bytes) (idx_width total : Z)
    (rows : list Z) : result error bytes :=
  match rows with
  | [] => Ok []
  | i :: rows =>
      let* (start, end_) := ok_or (nth_error offsets (Z.to_nat (read_lc_idx indexes i idx_width))) out_of_bounds in
      let l := end_ - start in
      let* total := protocol (checked_column_bytes total l (str "LowCardinality materialized column")) in
      let* out := expand_strings dict_data offsets indexes idx_width total rows in
      Ok (encode_varint_to l ++ slice dict_data start end_ ++ out)
  end.

(** The other types are given back as they came, with the length of the dictionary in bytes
    where the wire has the number of its keys. *)
Definition raw_column (dict_data indexes : bytes) (idx_width num_idx : Z) : bytes :=
  let st := if idx_width =? 1 then 0 else if idx_width =? 2 then 1 else if idx_width =? 4 then 2 else 3 in
  to_le 8 1 ++ to_le 8 st ++ to_le 8 (blen dict_data) ++ dict_data ++ to_le 8 num_idx ++ indexes.

Definition materialize_lc_inner (dict_data : bytes) (inner : ColumnType) (indexes : bytes)
    (idx_width num_idx : Z) : result error bytes :=
  (if 0 <? num_idx then
     let* needed := ok_or (checked_mul num_idx idx_width)
                          (Protocol (msg "LowCardinality index byte length overflow")) in
     if blen indexes <? needed
     then Err (Protocol (Msg "LowCardinality index data truncated: need {needed} bytes, have {}"
                             [AZ needed; AZ (blen indexes)]))
     else Ok tt
   else Ok tt) ;;
  match inner with
  | UInt8 | Int8 | TBool | Enum8 => materialize_lc_fixed dict_data 1 indexes idx_width num_idx
  | UInt16 | Int16 | Date | Enum16 => materialize_lc_fixed dict_data 2 indexes idx_width num_idx
  | UInt32 | Int32 | Float32 | Date32 | DateTime | IPv4 => materialize_lc_fixed dict_data 4 indexes idx_width num_idx
  | UInt64 | Int64 | Float64 | DateTime64 _ => materialize_lc_fixed dict_data 8 indexes idx_width num_idx
  | UInt128 | Int128 | UUID | IPv6 => materialize_lc_fixed dict_data 16 indexes idx_width num_idx
  | UInt256 | Int256 => materialize_lc_fixed dict_data 32 indexes idx_width num_idx
  | TString | Other _ =>
      let* offsets := string_offsets (S (length dict_data)) dict_data 0 in
      expand_strings dict_data offsets indexes idx_width 0 (row_numbers num_idx)
  | FixedString n => materialize_lc_fixed dict_data n indexes idx_width num_idx
  | _ => Ok (raw_column dict_data indexes idx_width num_idx)
  end.

End Cursor.

(** ** Columns ([block_reader.rs]) *)

Definition column_by_name : Type := bytes -> Z -> reader bytes.

Definition read_fixed_async (rows width : Z) (what : string) : reader bytes :=
  let* len := lift (column_len rows width what) in read_exact_r len.

(** The rows of a column whose type name is not understood. *)
Fixpoint unknown_rows (rows : nat) (total : Z) (data : bytes) : reader bytes :=
  match rows with
  | O => ret data
  | S rows =>
      let* v := Async.read_varint_async in
      let* l := lift (protocol (checked_string_len v (str "string value length"))) in
      let* total := lift (protocol (checked_column_bytes total l (str "string value length"))) in
      let data := data ++ encode_varint l in
      lift (ok_or (checked_add (blen data) l) column_overflow) ;;
      let* body := read_exact_r l in
      unknown_rows rows total (data ++ body)
  end.

Definition read_lc_async (self : column_by_name) (inner : ColumnType) (rows : Z) : reader bytes :=
  if rows =? 0 then ret []
  else
    let* meta := read_exact_r 24 in
    let version := from_le (slice meta 0 8) in
    let* num_keys := lift (protocol (checked_count (from_le (slice meta 16 24)) (str "LowCardinality key")
                                       MAX_JSON_DYNAMIC_ITEMS)) in
    let serial_type := from_le (slice meta 8 16) in
    let* idx_width := lift (lc_idx_width version serial_type) in
    let* dict_data := if 0 <? num_keys then self (to_string inner) num_keys else ret [] in
    let* il := read_exact_r 8 in
    let* ni := lift (lc_index_count il rows) in
    let* nbytes := lift (column_len ni idx_width "LowCardinality index") in
    let* indexes := if 0 <? ni then read_exact_r nbytes else ret (repeat x00 (Z.to_nat nbytes)) in
    if (ni =? 0) || (num_keys =? 0) then ret []
    else lift (Cursor.materialize_lc_inner dict_data inner indexes idx_width ni).

Definition array_async (self : Z -> reader bytes) (rows : Z) (name : string) : reader bytes :=
  let* (obuf, total) := read_offsets_column rows name in
  if 0 <? total then let* inner_data := self total in ret (obuf ++ inner_data) else ret obuf.

Definition json_async {A} (rows_of_strings : reader A) : reader A :=
  let* ver := read_exact_r 8 in
  let version := from_le ver in
  if negb (version =? 1) && negb (version =? 4) then throw (json_version_error version) else rows_of_strings.

(** What the recorded readers put in an empty buffer. *)
Definition recorded_bytes {A} (m : arena A) : reader bytes :=
  let* (_, data, _) := m [] MAX_COLUMN_BYTES in ret data.

Definition read_arm (self : column_by_name) (type_name : bytes) (ct : ColumnType) (rows : Z) : reader bytes :=
  match ct with
  | Nothing => read_exact_r rows
  | Nullable inner =>
      let* data := read_exact_r rows in
      let* inner_data := self (to_string inner) rows in
      ret (data ++ inner_data)
  | Array inner => array_async (self (to_string inner)) rows "array offset"
  | TMap k v =>
      array_async (fun total => let* keys := self (to_string k) total in
                                let* values := self (to_string v) total in
                                ret (keys ++ values)) rows "map offset"
  | Tuple elems =>
      let* raw := map_each elems (fun elem => self (to_string elem) rows) in ret (concat raw)
  | LowCardinality inner => read_lc_async self inner rows
  | Point =>
      let* xs := self (str "Float64") rows in
      let* ys := self (str "Float64") rows in
      ret (xs ++ ys)
  | Ring => self (str "Array(Point)") rows
  | Polygon => self (str "Array(Ring)") rows
  | MultiPolygon => self (str "Array(Polygon)") rows
  | JSON => json_async (read_string_column_with_prefixes rows "JSON string length")
  | Dynamic => recorded_bytes (read_column_raw_recorded type_name rows)
  | AggregateFunction | SimpleAggregateFunction =>
      throw (Protocol (msg "AggregateFunction type not yet supported in wire reader"))
  | Variant types =>
      recorded_bytes (let* state := read_column_state_prefix_recorded ct in
                      read_variant_body_raw_recorded recorded_recursion types (variant_states state) rows)
  | TString | Other _ => read_string_column_with_prefixes rows "string value length"
  | FixedString n => read_fixed_async rows n "FixedString column"
  | _ =>
      let* w := lift (ok_or (fixed_width ct) (Protocol (Msg "unknown type {ct}" [AS (to_string ct)]))) in
      read_fixed_async rows w "fixed-width column"
  end.

(** A level of a type takes one recursive call, and a geo type at most seven more, so that a
    name the parser accepts is read within [NAME_LEVELS] calls. *)
Definition NAME_LEVELS : nat := MAX_TYPE_NESTING + 8.

Fixpoint read_column_levels (fuel : nat) (type_name : bytes) (rows : Z) : reader bytes :=
  match fuel with
  | O => throw ModelFuel
  | S fuel =>
      if rows =? 0 then ret []
      else
        match parse_type type_name with
        | Err _ => unknown_rows (Z.to_nat rows) 0 []
        | Ok ct => read_arm (read_column_levels fuel) type_name ct rows
        end
  end.

Definition read_column_async : column_by_name := read_column_levels NAME_LEVELS.

(** *** Discarding *)

Definition discard_exact_async (len : Z) : reader unit := discard_by (16 * 1024) len.

(** Windows of 8 KiB, which hold whole offsets. *)
Fixpoint discard_windows (fuel : nat) (remaining total : Z) (name : string) : reader Z :=
  match fuel with
  | O => throw ModelFuel
  | S fuel =>
      if 0 <? remaining then
        let n := Z.min remaining (8 * 1024) in
        let* window := read_exact_r n in
        let* total := lift (protocol (fold_offsets total (map from_le (chunks_exact 8 window)) (str name))) in
        discard_windows fuel (remaining - n) total name
      else ret total
  end.

Definition discard_offsets_async (rows : Z) (name : string) : reader Z :=
  let* remaining := lift (column_len rows 8 name) in
  discard_windows (Z.to_nat (remaining / (8 * 1024) + 2)) remaining 0 name.

Definition discard_strings_async (rows : Z) (length_name : string) : reader unit :=
  repeat_n (Z.to_nat rows)
    (let* v := Async.read_varint_async in
     let* len := lift (protocol (checked_string_len v (str length_name))) in
     discard_exact_async len).

Definition discard_lc_async (self : bytes -> Z -> reader unit) (inner : ColumnType) (rows : Z) : reader unit :=
  let* meta := read_exact_r 24 in
  let* (idx_width, num_keys) := lift (lc_header meta) in
  self (to_string inner) num_keys ;;
  let* count := read_exact_r 8 in
  let* indexes := lift (lc_index_count count rows) in
  let* len := lift (column_len indexes idx_width "LowCardinality index") in
  discard_exact_async len.

Definition discard_width (rows width : Z) : reader unit :=
  let* len := lift (Async.checked_len rows width) in discard_exact_async len.

Definition discard_arm (self : bytes -> Z -> reader unit) (type_name : bytes) (ct : ColumnType) (rows : Z)
  : reader unit :=
  match ct with
  | UInt8 | Int8 | TBool | Enum8 => discard_exact_async rows
  | UInt16 | Int16 | Date | Enum16 => discard_width rows 2
  | UInt32 | Int32 | Float32 | Date32 | DateTime | Time | IPv4 => discard_width rows 4
  | UInt64 | Int64 | Float64 | DateTime64 _ | Time64 _ => discard_width rows 8
  | UInt128 | Int128 | UUID | IPv6 => discard_width rows 16
  | UInt256 | Int256 => discard_width rows 32
  | Decimal p _ =>
      if (1 <=? p) && (p <=? 9) then discard_width rows 4
      else if (10 <=? p) && (p <=? 18) then discard_width rows 8
      else if (19 <=? p) && (p <=? 38) then discard_width rows 16
      else if (39 <=? p) && (p <=? 76) then discard_width rows 32
      else throw (Protocol (Msg "unsupported Decimal precision {precision}" [AZ p]))
  | TString => discard_strings_async rows "string value length"
  | JSON => json_async (discard_strings_async rows "JSON string length")
  | FixedString n => discard_width rows n
  | Nullable inner => discard_exact_async rows ;; self (to_string inner) rows
  | Array inner =>
      let* total := discard_offsets_async rows "array offset" in self (to_string inner) total
  | TMap k v =>
      let* total := discard_offsets_async rows "map offset" in
      self (to_string k) total ;; self (to_string v) total
  | Tuple elems => for_each elems (fun elem => self (to_string elem) rows)
  | LowCardinality inner => discard_lc_async self inner rows
  | Point => self (str "Float64") rows ;; self (str "Float64") rows
  | Ring => self (str "Array(Point)") rows
  | Polygon => self (str "Array(Ring)") rows
  | MultiPolygon => self (str "Array(Polygon)") rows
  | Dynamic | Variant _ | AggregateFunction | SimpleAggregateFunction | Other _ =>
      read_column_async type_name rows ;; ret tt
  | Nothing => discard_exact_async rows
  end.

Fixpoint discard_column_levels (fuel : nat) (type_name : bytes) (rows : Z) : reader unit :=
  match fuel with
  | O => throw ModelFuel
  | S fuel =>
      if rows =? 0 then ret tt
      else
        match parse_type type_name with
        | Err _ => discard_strings_async rows "string value length"
        | Ok ct => discard_arm (discard_column_levels fuel) type_name ct rows
        end
  end.

Definition discard_column_async : bytes -> Z -> reader unit := discard_column_levels NAME_LEVELS.

(** ** Blocks *)

(** The fields of BlockInfo, up to a zero or an unknown number. *)
Definition block_info_async_step (self : unit -> reader unit) (_ : unit) : reader unit :=
  let* d := Async.read_varint_async in
  if d =? 0 then ret tt
  else if d =? 1 then read_exact_r 1 ;; self tt
  else if d =? 2 then read_exact_r 4 ;; self tt
  else if d =? 3 then Async.read_varint_async ;; self tt
  else ret tt.

(** The code that [read_block_header] and the readers of compressed bodies share. *)
Definition block_counts_async : reader (Z * Z) :=
  deep STREAM_BITS block_info_async_step (fun _ => throw ModelFuel) tt ;;
  let* c := Async.read_varint_async in
  let* columns := lift (protocol (checked_count c (str "block column") MAX_BLOCK_COLUMNS)) in
  let* r := Async.read_varint_async in
  let* rows := lift (protocol (checked_count r (str "block row") MAX_BLOCK_ROWS)) in
  ret (columns, rows).

Definition read_block_header : reader (Z * Z) := Async.read_string_async ;; block_counts_async.

(** The custom serialization byte is read and not looked at. *)
Definition read_column_info (rows : Z) : reader ColumnInfo :=
  let* name := Async.read_string_async in
  let* type_name := Async.read_string_async in
  read_exact_r 1 ;;
  let* raw := if 0 <? rows then read_column_async type_name rows else ret [] in
  ret (mkColumnInfo name type_name raw []).

Definition read_columns_async (counts : Z * Z) : reader Block :=
  let '(cols, rows) := counts in
  let* columns := collect_n (Z.to_nat cols) (read_column_info rows) in ret (mkBlock columns rows).

Definition read_data_block : reader Block :=
  let* counts := read_block_header in read_columns_async counts.

Definition read_data_block_body : reader Block :=
  let* counts := block_counts_async in read_columns_async counts.

Definition discard_column_info (rows : Z) : reader unit :=
  let* name := Async.read_string_async in
  let* type_name := Async.read_string_async in
  let* custom := read_exact_r 1 in
  if negb (byte0 custom =? 0)
  then throw (Protocol (Msg "unsupported custom serialization for column '{name}'" [AS name]))
  else discard_column_async type_name rows.

Definition discard_columns_async (counts : Z * Z) : reader Z :=
  let '(cols, rows) := counts in
  repeat_n (Z.to_nat cols) (discard_column_info rows) ;; ret rows.

Definition discard_data_block : reader Z :=
  let* counts := read_block_header in discard_columns_async counts.

Definition discard_data_block_body : reader Z :=
  let* counts := block_counts_async in discard_columns_async counts.

(** ** The reference *)

Definition string_value (length_name : string) : reader bytes :=
  let* v := read_varint in
  let* len := lift (protocol (checked_string_len v (str length_name))) in
  read_exact_r len.

Definition tidy_strings (rows : Z) (length_name : string) : reader bytes :=
  let* values := collect_n (Z.to_nat rows) (string_value length_name) in ret (concat (map write_string values)).

Definition tidy_array (name : string) (inner : Z -> reader bytes) (rows : Z) : reader bytes :=
  let* offsets := read_exact_r (rows * 8) in
  let* total := lift (protocol (fold_offsets 0 (map from_le (chunks_exact 8 offsets)) (str name))) in
  let* values := inner total in
  ret (offsets ++ values).

(** The types a LowCardinality dictionary is expanded for. *)
Definition lc_plain (inner : ColumnType) : bool :=
  match inner with
  | UInt8 | Int8 | TBool | UInt16 | Int16 | Date | UInt32 | Int32 | Float32 | Date32 | DateTime | IPv4
  | UInt64 | Int64 | Float64 | UInt128 | Int128 | UUID | IPv6 | UInt256 | Int256 | TString => true
  | DateTime64 _ => printable inner
  | FixedString n => printable inner && (0 <? n)
  | _ => false
  end.

(** One key of a dictionary, and the form it has in a column. *)
Definition lc_key (inner : ColumnType) : reader bytes :=
  match fixed_width inner with
  | Some w => read_exact_r w
  | None => string_value "string value length"
  end.

Definition lc_render (inner : ColumnType) (key : bytes) : bytes :=
  match fixed_width inner with Some _ => key | None => write_string key end.

(** The rows of a column, by their indexes; the keys they take may not exceed the cap. *)
Definition lc_rows (inner : ColumnType) (keys : list bytes) (indexes : list Z) : result error bytes :=
  let* picked := map_each indexes (fun i => ok_or (nth_error keys (Z.to_nat i)) Cursor.out_of_bounds) in
  if MAX_COLUMN_BYTES <? blen (concat picked)
  then Err (Protocol (msg "LowCardinality column too long"))
  else Ok (concat (map (lc_render inner) picked)).

Definition tidy_lc (inner : ColumnType) (rows : Z) : reader bytes :=
  let* meta := read_exact_r 24 in
  let* (idx_width, num_keys) := lift (lc_header meta) in
  let* keys := collect_n (Z.to_nat num_keys) (lc_key inner) in
  let* count := read_exact_r 8 in
  let* ni := lift (lc_index_count count rows) in
  let* indexes := read_exact_r (ni * idx_width) in
  if num_keys =? 0 then ret [] else lift (lc_rows inner keys (map from_le (chunks_exact idx_width indexes))).

Definition tidy_fixed (rows width : Z) : reader bytes := read_exact_r (rows * width).

Definition tidy_nonempty (rows : Z) (m : reader bytes) : reader bytes := if rows =? 0 then ret [] else m.

Definition tidy_pairs (rows : Z) : reader bytes :=
  let* xs := tidy_fixed rows 8 in let* ys := tidy_fixed rows 8 in ret (xs ++ ys).

Definition tidy_point (rows : Z) : reader bytes := tidy_nonempty rows (tidy_pairs rows).

Definition tidy_ring (rows : Z) : reader bytes := tidy_nonempty rows (tidy_array "array offset" tidy_point rows).

Definition tidy_polygon (rows : Z) : reader bytes := tidy_nonempty rows (tidy_array "array offset" tidy_ring rows).

Fixpoint tidy (ct : ColumnType) (rows : Z) : reader bytes :=
  tidy_nonempty rows
    match ct with
    | Nothing => read_exact_r rows
    | TString | Other _ => tidy_strings rows "string value length"
    | JSON => json_async (tidy_strings rows "JSON string length")
    | Nullable inner =>
        let* nulls := read_exact_r rows in let* values := tidy inner rows in ret (nulls ++ values)
    | Array inner => tidy_array "array offset" (tidy inner) rows
    | TMap k v =>
        tidy_array "map offset"
          (fun total => let* keys := tidy k total in let* values := tidy v total in ret (keys ++ values)) rows
    | Tuple elems => let* parts := map_each elems (fun elem => tidy elem rows) in ret (concat parts)
    | LowCardinality inner => tidy_lc inner rows
    | Point => tidy_pairs rows
    | Ring => tidy_array "array offset" tidy_point rows
    | Polygon => tidy_array "array offset" tidy_ring rows
    | MultiPolygon => tidy_array "array offset" tidy_polygon rows
    | _ =>
        match fixed_width ct with
        | Some w => tidy_fixed rows w
        | None => throw (Protocol (Msg "unknown type {ct}" [AS (to_string ct)]))
        end
    end.

(** The types [tidy] describes: no Variant and no Dynamic, and components that are read back
    from their names. *)
Fixpoint portable (ct : ColumnType) : bool :=
  match ct with
  | Nullable t | Array t => printable t && portable t
  | TMap k v => (printable k && portable k) && (printable v && portable v)
  | Tuple ts => forallb (fun t => printable t && portable t) ts
  | LowCardinality t => lc_plain t
  | Variant _ | Dynamic | AggregateFunction | SimpleAggregateFunction => false
  | _ => true
  end.

(** ** Readers that agree up to the cap

    [within m m']: what [m] reads [m'] reads, and what [m'] reads from at most
    [MAX_COLUMN_BYTES] bytes [m] reads. *)

Lemma run_shrinks {A} (m : reader A) l a rest : run m l = Ok (a, rest) -> blen rest <= blen l.
Proof.
  revert l. induction m as [b|e|n k IH]; intros l H; unfold run in *; cbn [run_with] in H.
  - inj. lia.
  - discriminate.
  - destruct (Z.leb_spec n (blen l)) as [Hn|]; [|discriminate]. apply IH in H.
    pose proof (length_skipn (Z.to_nat n) l). unfold drop, blen in *. lia.
Qed.

Record within {A} (m m' : reader A) : Prop := {
  within_reads : forall l a rest, run m l = Ok (a, rest) -> run m' l = Ok (a, rest);
  within_covers : forall l a rest, run m' l = Ok (a, rest) -> blen l - blen rest <= MAX_COLUMN_BYTES ->
    run m l = Ok (a, rest);
}.

Lemma within_eq {A} (m m' : reader A) :
  (forall l a rest, run m l = Ok (a, rest) <-> run m' l = Ok (a, rest)) -> within m m'.
Proof. intros H. split; intros; now apply H. Qed.

Lemma within_refl {A} (m : reader A) : within m m.
Proof. now apply within_eq. Qed.

Lemma within_bind_if {A B} (P : A -> Prop) (m m' : reader A) (f f' : A -> reader B) :
  within m m' -> (forall l a rest, run m' l = Ok (a, rest) -> P a) -> (forall a, P a -> within (f a) (f' a)) ->
  within (bind m f) (bind m' f').
Proof.
  intros [Hm Hm'] HP Hf. split; intros l b rest H.
  - apply run_bind_inv in H as (a & l' & H1 & H2). apply Hm in H1. rewrite (run_bind_ok _ _ _ _ _ H1).
    destruct (Hf a (HP _ _ _ H1)) as [H _]. now apply H.
  - intros Hlen. apply run_bind_inv in H as (a & l' & H1 & H2).
    pose proof (run_shrinks _ _ _ _ H1). pose proof (run_shrinks _ _ _ _ H2).
    destruct (Hf a (HP _ _ _ H1)) as [_ H']. apply Hm' in H1; [|lia].
    rewrite (run_bind_ok _ _ _ _ _ H1). apply H'; [assumption|lia].
Qed.

Lemma within_bind {A B} (m m' : reader A) (f f' : A -> reader B) :
  within m m' -> (forall a, within (f a) (f' a)) -> within (bind m f) (bind m' f').
Proof. intros. apply (within_bind_if (fun _ => True)); auto. Qed.

Lemma within_map_each {A B} (l : list A) (f f' : A -> reader B) :
  Forall (fun a => within (f a) (f' a)) l -> within (map_each l f) (map_each l f').
Proof.
  induction 1 as [|a l Ha _ IH]; [apply within_refl|]. rewrite !map_each_cons.
  apply within_bind; [assumption|intros b]. apply within_bind; [assumption|intros; apply within_refl].
Qed.

Lemma run_fixed_read n l bs rest :
  0 <= n -> run (read_exact_r n) l = Ok (bs, rest) -> blen bs = n /\ l = bs ++ rest.
Proof.
  intros Hn H. apply run_read_exact_inv in H as (Hl & -> & ->). split; [now apply blen_take|].
  symmetry. apply take_drop.
Qed.

Lemma column_len_ok rows width what :
  rows * width <= MAX_COLUMN_BYTES -> column_len rows width what = Ok (rows * width).
Proof. intros. apply column_len_checked. now apply checked_len_ok. Qed.

Lemma column_len_inv rows width what n :
  column_len rows width what = Ok n -> n = rows * width /\ n <= MAX_COLUMN_BYTES.
Proof. rewrite column_len_checked. intros H. apply checked_len_inv in H as [-> H]. auto. Qed.

Lemma within_fixed rows width what :
  0 <= rows -> 0 <= width -> within (read_fixed_async rows width what) (tidy_fixed rows width).
Proof.
  intros Hr Hw. unfold read_fixed_async, tidy_fixed. split; intros l a rest H.
  - apply run_bind_inv in H as (n & l' & H1 & H). apply run_lift_inv in H1 as [H1 ->].
    apply column_len_inv in H1 as [-> _]. assumption.
  - intros Hlen. pose proof H as H'. apply run_fixed_read in H' as [Ha ->]; [|nia].
    rewrite blen_app in Hlen. erewrite run_bind_ok; [exact H|]. rewrite run_lift, column_len_ok by lia. reflexivity.
Qed.

(** ** Strings *)

Lemma varint_shortest enc v : varint enc v -> forall fuel, blen (encode_varint_loop fuel v) <= blen enc.
Proof.
  induction 1 as [b Hb|b enc v Hb He IH]; intros [|fuel]; try apply blen_nonneg;
    pose proof (byte.unsigned_range b); cbn [encode_varint_loop]; rewrite !blen_cons, Z.shiftr_div_pow2 by lia.
  - rewrite Z.div_small by lia. reflexivity.
  - replace ((byte.unsigned b - 128 + 128 * v) / 2 ^ 7) with v
      by (change (2 ^ 7) with 128; rewrite (Z.mul_comm 128 v), Z.div_add, Z.div_small by lia; lia).
    specialize (IH fuel). pose proof (blen_nonneg enc). destruct (v =? 0); [change (blen []) with 0|]; lia.
Qed.

Lemma alike_ok {A} (m m' : reader A) : reads_alike eq m m' ->
  forall l a rest, run m l = Ok (a, rest) <-> run m' l = Ok (a, rest).
Proof.
  intros H l a rest. specialize (H l). destruct (run m l) as [[b r]|e], (run m' l) as [[b' r']|e']; try easy.
  destruct H as [-> ->]. reflexivity.
Qed.

Lemma varint_async_ok l v rest : run Async.read_varint_async l = Ok (v, rest) <-> run read_varint l = Ok (v, rest).
Proof. symmetry. apply alike_ok, varint_async_alike. Qed.

Lemma string_async_ok l s rest : run Async.read_string_async l = Ok (s, rest) <-> run read_string l = Ok (s, rest).
Proof. symmetry. apply alike_ok, string_async_alike. Qed.

(** The byte read ahead, in front of the stream again. *)
Definition pend (pending : option byte) : bytes := match pending with Some b => [b] | None => [] end.

Lemma read_length_ok pending l v rest :
  run (read_length pending) l = Ok (v, rest) <-> run read_varint (pend pending ++ l) = Ok (v, rest).
Proof.
  rewrite <- varint_async_ok. unfold read_length, Async.read_varint_async, first_byte. destruct pending as [b|]; cbn [pend app].
  { rewrite run_bind_read1. reflexivity. }
  rewrite !run_bind. now destruct (run (read_exact_r 1) l) as [[bs l']|e].
Qed.

Lemma string_body_reads start len last l body p rest :
  0 <= len -> run (string_body start len last) l = Ok ((body, p), rest) ->
  blen body = len /\ l = body ++ pend p ++ rest /\ (last = true -> p = None).
Proof.
  intros Hlen H. unfold string_body in H. destruct (STRING_COL_MERGED_MAX <? len).
  - apply run_bind_inv in H as (n & l1 & H1 & H). apply run_lift_inv in H1 as [_ ->].
    apply run_bind_inv in H as (bs & l2 & H1 & H). apply run_fixed_read in H1 as [? ->]; [|assumption].
    rewrite run_ret in H. inj. auto.
  - destruct (Z.ltb_spec 0 (len + (if last then 0 else 1))) as [Hn|Hn].
    + apply run_bind_inv in H as (bs & l2 & H1 & H). apply run_fixed_read in H1 as [Hb ->]; [|lia].
      rewrite run_ret in H. inj. split; [apply blen_take; destruct last; lia|]. split; [|now intros ->].
      rewrite app_assoc. f_equal. rewrite <- (take_drop len bs) at 1. f_equal.
      destruct last; cbn [pend].
      * rewrite Z.add_0_r in Hb. rewrite <- Hb. apply drop_all.
      * assert (blen (drop len bs) = 1) as H1 by (rewrite blen_drop; lia).
        destruct (drop len bs) as [|b [|b' tl]]; [easy|reflexivity|].
        rewrite !blen_cons in H1. pose proof (blen_nonneg tl). lia.
    + rewrite run_ret in H. inj. destruct last; [|lia]. change (blen []) with 0. split; [lia|auto].
Qed.

Lemma string_body_covers start len last body l :
  blen body = len -> start + len <= USIZE_MAX -> (last = false -> l <> []) ->
  exists p rest, run (string_body start len last) (body ++ l) = Ok ((body, p), rest) /\
    l = pend p ++ rest /\ (last = true -> p = None).
Proof.
  intros Hb Hs Hl. pose proof (blen_nonneg body). unfold string_body. destruct (STRING_COL_MERGED_MAX <? len).
  - exists None, l. split; [|auto]. unfold checked_add.
    destruct (Z.leb_spec (start + len) USIZE_MAX); [|lia]. erewrite run_bind_ok by reflexivity.
    erewrite run_bind_ok by now apply run_read_exact_app. reflexivity.
  - destruct last.
    + exists None, l. split; [|auto]. rewrite Z.add_0_r. destruct (Z.ltb_spec 0 len).
      * erewrite run_bind_ok by now apply run_read_exact_app. rewrite run_ret, <- Hb, take_all. reflexivity.
      * assert (body = []) as -> by (apply blen_zero; lia). reflexivity.
    + destruct l as [|b l]; [now specialize (Hl eq_refl)|]. exists (Some b), l. split; [|split; [reflexivity|easy]].
      destruct (Z.ltb_spec 0 (len + 1)); [|lia].
      change (b :: l) with ([b] ++ l). rewrite app_assoc.
      erewrite run_bind_ok by (apply run_read_exact_app; rewrite blen_app; change (blen [b]) with 1; lia).
      rewrite run_ret, take_app_len, drop_app_len by assumption. reflexivity.
Qed.

(** *** A column of strings *)

Lemma string_len_inv v what n : protocol (checked_string_len v what) = Ok n -> n = v /\ v <= MAX_STRING_BYTES.
Proof. intros H. now apply map_err_inv, checked_string_len_inv in H. Qed.

Lemma string_value_inv name l s rest :
  run (string_value name) l = Ok (s, rest) ->
  exists enc, l = enc ++ s ++ rest /\ run read_varint l = Ok (blen s, s ++ rest) /\
    protocol (checked_string_len (blen s) (str name)) = Ok (blen s) /\ varint_len (blen s) <= blen enc /\
    varint enc (blen s) /\ blen s <= MAX_STRING_BYTES.
Proof.
  intros H. apply run_bind_inv in H as (v & l1 & Hv & H). apply run_bind_inv in H as (n & l2 & Hn & H).
  apply run_lift_inv in Hn as [Hn ->]. pose proof (string_len_inv _ _ _ Hn) as [-> Hmax].
  pose proof (read_varint_inv _ _ _ Hv) as (enc & -> & He & Hu & _). pose proof (varint_nonneg _ _ He).
  apply run_fixed_read in H as [Hs ->]; [|assumption]. exists enc. rewrite Hs. conj; auto.
  rewrite varint_len_spec by lia. now apply varint_shortest.
Qed.

Lemma string_rows_reads name k : forall pending total data l out rest,
  (k = 0%nat -> pending = None) -> run (string_rows_prefixed k name pending total data) l = Ok (out, rest) ->
  exists values, run (collect_n k (string_value name)) (pend pending ++ l) = Ok (values, rest) /\
    out = data ++ concat (map write_string values).
Proof.
  induction k as [|k IH]; intros pending total data l out rest Hp H.
  { rewrite (Hp eq_refl). cbn in H. inj. exists []. cbn. now rewrite app_nil_r. }
  cbn [string_rows_prefixed] in H. apply run_bind_inv in H as (v & l1 & Hv & H).
  apply read_length_ok in Hv. apply run_bind_inv in H as (len & l2 & Hlen & H).
  apply run_lift_inv in Hlen as [Hlen ->]. pose proof (string_len_inv _ _ _ Hlen) as [-> _].
  pose proof (read_varint_inv _ _ _ Hv) as (enc & _ & He & _). pose proof (varint_nonneg _ _ He).
  apply run_bind_inv in H as (n & l2 & Hn & H). apply run_lift_inv in Hn as [_ ->].
  apply run_bind_inv in H as (t & l2 & Ht & H). apply run_lift_inv in Ht as [_ ->].
  apply run_bind_inv in H as ((body & p) & l2 & Hb & H).
  apply string_body_reads in Hb as (Hbl & -> & Hlast); [|assumption].
  apply IH in H as (values & Hvs & ->); [|intros ->; now apply Hlast].
  exists (body :: values). cbn [collect_n map concat]. split.
  - erewrite run_bind_ok; [erewrite run_bind_ok by exact Hvs; reflexivity|].
    unfold string_value. erewrite run_bind_ok by exact Hv. erewrite run_bind_ok by (rewrite run_lift, Hlen; reflexivity).
    now apply run_read_exact_app.
  - unfold write_string, write_varint. now rewrite Hbl, <- !app_assoc.
Qed.

Lemma string_rows_covers name k : forall pending total data l values rest,
  run (collect_n k (string_value name)) (pend pending ++ l) = Ok (values, rest) ->
  (k = 0%nat -> pending = None) -> 0 <= total -> blen data <= total ->
  total + blen (pend pending ++ l) - blen rest <= MAX_COLUMN_BYTES ->
  run (string_rows_prefixed k name pending total data) l = Ok (data ++ concat (map write_string values), rest).
Proof.
  induction k as [|k IH]; intros pending total data l values rest H Hp Ht Hd Hcap.
  { rewrite (Hp eq_refl) in *. cbn in *. inj. cbn. now rewrite app_nil_r. }
  cbn [collect_n] in H. apply run_bind_inv in H as (s & l1 & Hs & H). apply run_bind_inv in H as (values' & l2 & Hvs & H).
  rewrite run_ret in H. inj. pose proof (string_value_inv _ _ _ _ Hs) as (enc & El & Hv & Hlen & Hshort & He & Hmax).
  pose proof (blen_nonneg s). pose proof (varint_length _ _ He). pose proof (run_shrinks _ _ _ _ Hvs).
  rewrite El, !blen_app in Hcap. unfold MAX_COLUMN_BYTES in Hcap.
  pose proof (varint_len_bound (blen s) ltac:(unfold U64_MAX, MAX_STRING_BYTES in *; lia)).
  assert (blen (encode_varint (blen s)) = varint_len (blen s)) as Henc
    by (symmetry; apply varint_len_spec; unfold U64_MAX, MAX_STRING_BYTES in *; lia).
  cbn [string_rows_prefixed]. erewrite run_bind_ok by (apply read_length_ok; exact Hv).
  erewrite run_bind_ok by (rewrite run_lift, Hlen; reflexivity).
  unfold checked_add at 1. destruct (Z.leb_spec (varint_len (blen s) + blen s) USIZE_MAX) as [_|]; [|unfold USIZE_MAX in *; lia].
  erewrite run_bind_ok by reflexivity. unfold checked_column_bytes, checked_add.
  destruct (Z.leb_spec (total + (varint_len (blen s) + blen s)) USIZE_MAX) as [_|]; [|unfold USIZE_MAX in *; lia].
  cbn [ok_or bind result_monad]. destruct (Z.ltb_spec MAX_COLUMN_BYTES (total + (varint_len (blen s) + blen s)));
    [unfold MAX_COLUMN_BYTES in *; lia|]. erewrite run_bind_ok by reflexivity.
  destruct (string_body_covers (blen (data ++ encode_varint (blen s))) (blen s)
    (match k with O => true | S _ => false end) s l1) as (p & l' & Hb & -> & Hlast); auto.
  { rewrite blen_app. unfold USIZE_MAX in *. lia. }
  { destruct k; [discriminate|]. intros _ ->. cbn [collect_n] in Hvs. apply run_bind_inv in Hvs as (x & y & Hx & _).
    discriminate Hx. }
  rewrite (run_bind_ok _ _ _ _ _ Hb). erewrite IH; [|exact Hvs|intros ->; now apply Hlast|lia|rewrite !blen_app; lia|].
  - cbn [map concat]. unfold write_string, write_varint. now rewrite <- !app_assoc.
  - rewrite blen_app in *. unfold MAX_COLUMN_BYTES. lia.
Qed.

(** ** LowCardinality *)

Lemma lc_width_cases version serial_type w : lc_idx_width version serial_type = Ok w -> w = 1 \/ w = 2 \/ w = 4 \/ w = 8.
Proof.
  intros H. apply lc_width_ok in H as [_ ->]. change 3 with (Z.ones 2). rewrite Z.land_ones by lia.
  rewrite Z.shiftl_mul_pow2 by (apply Z.mod_pos_bound; reflexivity).
  pose proof (Z.mod_pos_bound serial_type (2 ^ 2) eq_refl) as Hb. change (2 ^ 2) with 4 in *.
  assert (serial_type mod 4 = 0 \/ serial_type mod 4 = 1 \/ serial_type mod 4 = 2 \/ serial_type mod 4 = 3) as [->|[->|[->| ->]]];
    cbn; lia.
Qed.

(** The indexes the cursor looks at are the ones of the wire. *)
Lemma lc_indexes_read (indexes : bytes) (iw ni : Z) :
  iw = 1 \/ iw = 2 \/ iw = 4 \/ iw = 8 -> 0 <= ni -> blen indexes = ni * iw -> ni * iw <= MAX_COLUMN_BYTES ->
  map (fun i => Cursor.read_lc_idx indexes i iw) (row_numbers ni) = map from_le (chunks_exact iw indexes).
Proof.
  intros Hw Hn Hl Hcap. rewrite <- (full_chunks_exact iw (Z.to_nat ni)) by lia.
  apply nth_error_ext. intros i. unfold row_numbers. rewrite !nth_error_map.
  destruct (Nat.lt_ge_cases i (Z.to_nat ni)) as [Hi|Hi].
  - rewrite nth_full_chunks by lia. rewrite (nth_error_nth' _ 0%nat) by now rewrite length_seq.
    rewrite seq_nth by assumption. cbn [option_map Nat.add]. f_equal. unfold Cursor.read_lc_idx, checked_mul, checked_add.
    assert (Z.of_nat i * iw + iw <= ni * iw) by nia. unfold MAX_COLUMN_BYTES, USIZE_MAX in *.
    bool_cases; try nia. now destruct Hw as [->|[->|[->| ->]]].
  - rewrite !(proj2 (nth_error_None _ _)); [reflexivity|rewrite length_full_chunks; lia|rewrite length_seq; lia].
Qed.

Lemma map_each_map {A B C} (f : A -> B) (g : B -> result error C) l :
  map_each (map f l) g = map_each l (fun a => g (f a)).
Proof. induction l as [|a l IH]; [reflexivity|]. cbn [map]. rewrite !map_each_cons. now rewrite IH. Qed.

Lemma map_each_ext {A B} (f g : A -> result error B) l :
  (forall a b, In a l -> f a = Ok b <-> g a = Ok b) -> forall r, map_each l f = Ok r <-> map_each l g = Ok r.
Proof.
  induction l as [|a l IH]; intros H r; [reflexivity|]. rewrite !map_each_cons. split; intros E;
    apply result_bind_inv in E as (b & Hb & E); apply (H a b) in Hb; try (now left); rewrite Hb; cbn [bind result_monad] in *;
    apply result_bind_inv in E as (bs & Hbs & E); apply IH in Hbs; try (intros; apply H; now right); now rewrite Hbs.
Qed.

Lemma map_each_length {A B} (f : A -> result error B) l r : map_each l f = Ok r -> length r = length l.
Proof.
  revert r. induction l as [|a l IH]; intros r H; [cbn in H; now inj|]. rewrite map_each_cons in H.
  apply result_bind_inv in H as (b & _ & H). apply result_bind_inv in H as (bs & Hbs & H). cbn in H. inj.
  cbn [length]. now rewrite (IH _ Hbs).
Qed.

Lemma map_each_forall {A B} (P : B -> Prop) (f : A -> result error B) l r :
  (forall a b, f a = Ok b -> P b) -> map_each l f = Ok r -> Forall P r.
Proof.
  intros Hf. revert r. induction l as [|a l IH]; intros r H; [cbn in H; inj; constructor|]. rewrite map_each_cons in H.
  apply result_bind_inv in H as (b & Hb & H). apply result_bind_inv in H as (bs & Hbs & H). cbn in H. inj.
  constructor; eauto.
Qed.

Lemma lc_rows_ok inner keys indexes out :
  lc_rows inner keys indexes = Ok out <->
  exists picked, map_each indexes (fun i => ok_or (nth_error keys (Z.to_nat i)) Cursor.out_of_bounds) = Ok picked /\
    blen (concat picked) <= MAX_COLUMN_BYTES /\ out = concat (map (lc_render inner) picked).
Proof.
  unfold lc_rows. split.
  - intros H. apply result_bind_inv in H as (picked & Hp & H). exists picked. bool_cases; [discriminate|]. inj. auto.
  - intros (picked & -> & Hcap & ->). cbn [bind result_monad]. bool_cases; [lia|reflexivity].
Qed.

(** *** Dictionaries of a fixed width *)

Lemma fixed_keys_pick (keys : list bytes) (es i : Z) (key : bytes) :
  0 < es -> 0 <= i -> Forall (fun k => blen k = es) keys ->
  nth_error keys (Z.to_nat i) = Some key ->
  i * es + es <= blen (concat keys) /\ slice (concat keys) (i * es) (i * es + es) = key.
Proof.
  intros Hes Hi Hw Hk. pose proof (nth_error_lt _ _ _ Hk) as Hlt. split.
  - rewrite (blen_concat es) by assumption. unfold blen. nia.
  - pose proof (nth_full_chunks es (length keys) (concat keys) (Z.to_nat i) ltac:(lia) Hlt) as Hn.
    rewrite <- (app_nil_r (concat keys)), full_chunks_concat in Hn by assumption.
    rewrite app_nil_r, Z2Nat.id in Hn by lia. congruence.
Qed.

Lemma read_lc_idx_nonneg idxs i iw : 0 <= Cursor.read_lc_idx idxs i iw.
Proof.
  unfold Cursor.read_lc_idx. destruct (checked_mul i iw) as [off|]; [|lia].
  destruct (checked_add off iw) as [e|]; [|lia]. destruct (_ <? _); [lia|].
  destruct (_ || _); [apply from_le_bound|lia].
Qed.

(** The lookup of a key by its offset is the lookup by its number. *)
Lemma fixed_pick_ok (keys : list bytes) (es idx : Z) (overflow : error) (key : bytes) :
  0 < es -> 0 <= idx -> Forall (fun k => blen k = es) keys -> blen (concat keys) <= MAX_COLUMN_BYTES ->
  (let* start := ok_or (checked_mul idx es) overflow in
   let* end_ := ok_or (checked_add start es) overflow in
   if blen (concat keys) <? end_ then Err Cursor.out_of_bounds else Ok (slice (concat keys) start end_)) = Ok key <->
  ok_or (nth_error keys (Z.to_nat idx)) Cursor.out_of_bounds = Ok key.
Proof.
  intros Hes Hidx Hw Hcap. split; intros H.
  - apply result_bind_inv in H as (start & Hs & H). apply result_bind_inv in H as (e & He & H).
    unfold checked_mul in Hs. unfold checked_add in He. bool_cases; try discriminate. cbn in Hs, He. inj.
    destruct (nth_error keys (Z.to_nat idx)) as [k|] eqn:E.
    + apply (fixed_keys_pick keys es) in E as [_ <-]; auto.
    + apply nth_error_None in E. rewrite (blen_concat es) in * by assumption. unfold blen in *. nia.
  - destruct (nth_error keys (Z.to_nat idx)) as [k|] eqn:E; [|discriminate]. cbn in H. inj.
    apply (fixed_keys_pick keys es) in E as [Hle <-]; auto.
    assert (MAX_COLUMN_BYTES <= USIZE_MAX) by discriminate. unfold checked_mul, checked_add.
    destruct (Z.leb_spec (idx * es) USIZE_MAX); [|nia]. cbn [ok_or bind result_monad].
    destruct (Z.leb_spec (idx * es + es) USIZE_MAX); [|nia]. cbn [ok_or bind result_monad].
    bool_cases; [lia|reflexivity].
Qed.

Lemma picked_length (keys picked : list bytes) (es : Z) (indexes : list Z) :
  Forall (fun k => blen k = es) keys ->
  map_each indexes (fun i => ok_or (nth_error keys (Z.to_nat i)) Cursor.out_of_bounds) = Ok picked ->
  blen (concat picked) = blen indexes * es.
Proof.
  intros Hw H. rewrite (blen_concat es).
  - apply map_each_length in H. unfold blen. now rewrite H.
  - eapply map_each_forall; [|exact H]. intros i b E. cbn beta in E.
    destruct (nth_error keys _) as [k|] eqn:Ek; [|discriminate]. cbn in E. inj. rewrite Forall_forall in Hw.
    apply Hw. eapply nth_error_In. exact Ek.
Qed.

Lemma materialize_fixed_ok (keys : list bytes) (es : Z) (idxs : bytes) (iw ni : Z) (out : bytes) :
  0 < es -> 0 < ni -> keys <> [] -> Forall (fun k => blen k = es) keys -> blen (concat keys) <= MAX_COLUMN_BYTES ->
  Cursor.materialize_lc_fixed (concat keys) es idxs iw ni = Ok out <->
  exists picked, map_each (map (fun i => Cursor.read_lc_idx idxs i iw) (row_numbers ni))
      (fun i => ok_or (nth_error keys (Z.to_nat i)) Cursor.out_of_bounds) = Ok picked /\
    blen (concat picked) <= MAX_COLUMN_BYTES /\ out = concat picked.
Proof.
  intros Hes Hni Hne Hw Hcap. unfold Cursor.materialize_lc_fixed. cbv zeta.
  assert (es <= blen (concat keys)) as Hdict.
  { rewrite (blen_concat es) by assumption. destruct keys as [|k keys]; [easy|].
    rewrite blen_cons. pose proof (blen_nonneg keys). nia. }
  assert (forall picked, map_each (map (fun i => Cursor.read_lc_idx idxs i iw) (row_numbers ni))
            (fun i => ok_or (nth_error keys (Z.to_nat i)) Cursor.out_of_bounds) = Ok picked ->
            blen (concat picked) = ni * es) as Hlen.
  { intros picked H. rewrite (picked_length keys picked es _ Hw H). f_equal. unfold blen, row_numbers.
    rewrite !length_map, length_seq. lia. }
  rewrite map_each_map in *.
  pose proof (fun overflow => map_each_ext _ _ (row_numbers ni) (fun i key _ =>
    fixed_pick_ok keys es (Cursor.read_lc_idx idxs i iw) overflow key Hes (read_lc_idx_nonneg idxs i iw) Hw Hcap)) as Hpick.
  assert (MAX_COLUMN_BYTES <= USIZE_MAX) as Hmax by discriminate.
  destruct (Z.eqb_spec ni 0) as [|_]; [lia|]. destruct (Z.eqb_spec es 0) as [|_]; [lia|]. cbn [orb].
  destruct (Z.ltb_spec (blen (concat keys)) es) as [|_]; [lia|]. split; intros H.
  - apply result_bind_inv in H as (cap & Hc & H). destruct (Z.ltb_spec MAX_COLUMN_BYTES cap); [discriminate|].
    apply result_bind_inv in H as (picked & Hp & H). inj. exists picked. apply Hpick in Hp.
    unfold checked_mul in Hc. destruct (_ <=? _); [|discriminate]. cbn in Hc. inj. rewrite (Hlen _ Hp). auto.
  - destruct H as (picked & Hp & Hc & ->). rewrite (Hlen _ Hp) in Hc.
    apply (Hpick (Protocol (msg "LowCardinality dictionary index overflow"))) in Hp. rewrite Hp. unfold checked_mul.
    destruct (Z.leb_spec (ni * es) USIZE_MAX); [|lia]. cbn [ok_or bind result_monad].
    now destruct (Z.ltb_spec MAX_COLUMN_BYTES (ni * es)); [lia|].
Qed.

(** *** Dictionaries of strings *)

Lemma encode_varint_to_eq v : 0 <= v <= U64_MAX -> Cursor.encode_varint_to v = encode_varint v.
Proof.
  unfold Cursor.encode_varint_to, encode_varint. generalize 10%nat as fuel. intros fuel [Hv _]. revert v Hv.
  induction fuel as [|fuel IH]; intros v Hv; [reflexivity|]. cbn [Cursor.encode_varint_to_loop encode_varint_loop].
  rewrite Z.shiftr_div_pow2 by lia. change (2 ^ 7) with 128.
  pose proof (Z.div_mod v 128 ltac:(lia)). pose proof (Z.mod_pos_bound v 128 ltac:(lia)).
  assert (0 <= v / 128) by (apply Z.div_pos; lia).
  destruct (Z.ltb_spec 0x7F v), (Z.eqb_spec (v / 128) 0); try lia; rewrite ?Z.lor_0_r; [|reflexivity].
  f_equal. now apply IH.
Qed.

Lemma read_varint_bytes_ok fuel : forall r s c data v rest,
  run (read_varint_loop fuel r s) data = Ok (v, rest) ->
  Cursor.read_varint_bytes_loop data r s c = Ok (v, c + blen data - blen rest).
Proof.
  induction fuel as [|fuel IH]; intros r s c data v rest H; [discriminate|]. cbn [read_varint_loop] in H.
  destruct (Z.leb_spec 64 s); [discriminate|]. apply run_bind_inv in H as (bs & l & Hr & H).
  rewrite run_read1 in Hr. destruct data as [|b data]; [discriminate|]. inj. cbn [byte0] in H.
  cbn [Cursor.read_varint_bytes_loop]. destruct (Z.ltb_spec 63 s); [lia|]. cbn [orb].
  destruct ((s =? 63) && _); [discriminate|]. rewrite blen_cons. destruct (Z.land (byte.unsigned b) 128 =? 0).
  - rewrite run_ret in H. inj. do 2 f_equal. lia.
  - erewrite IH by exact H. do 2 f_equal. lia.
Qed.

(** Where the strings of a dictionary lie behind [pos] bytes. *)
Fixpoint key_ranges (pos : Z) (keys : list bytes) : list (Z * Z) :=
  match keys with
  | [] => []
  | key :: keys =>
      let start := pos + blen (write_varint (blen key)) in
      (start, start + blen key) :: key_ranges (start + blen key) keys
  end.

Definition short_keys (keys : list bytes) : Prop := Forall (fun k => blen k <= MAX_STRING_BYTES) keys.

Lemma string_offsets_written fuel : forall keys pre,
  short_keys keys -> (length keys < fuel)%nat -> blen (pre ++ concat (map write_string keys)) <= MAX_COLUMN_BYTES ->
  Cursor.string_offsets fuel (pre ++ concat (map write_string keys)) (blen pre) = Ok (key_ranges (blen pre) keys).
Proof.
  induction fuel as [|fuel IH]; intros keys pre Hs Hf Hcap; [lia|]. cbn [Cursor.string_offsets].
  destruct keys as [|key keys]; cbn [map concat] in *.
  { rewrite app_nil_r. now destruct (Z.ltb_spec (blen pre) (blen pre)); [lia|]. }
  inversion Hs as [|? ? Hk Hs']; subst. set (tail := concat (map write_string keys)) in *.
  unfold write_string, write_varint in *. rewrite !blen_app in *. pose proof (blen_nonneg key). pose proof (blen_nonneg tail).
  assert (0 <= blen key <= U64_MAX) as Hu by (unfold U64_MAX, MAX_STRING_BYTES in *; lia).
  pose proof (encode_varint_varint _ Hu) as [He _]. pose proof (varint_length _ _ He). pose proof (blen_nonneg pre).
  destruct (Z.ltb_spec (blen pre) (blen pre + (blen (encode_varint (blen key)) + blen key + blen tail))) as [_|]; [|lia].
  rewrite drop_app_exact, <- app_assoc. unfold Cursor.read_varint_bytes.
  erewrite (read_varint_bytes_ok 11) by now apply read_encode_varint. cbn [bind result_monad].
  specialize (IH keys (pre ++ encode_varint (blen key) ++ key) Hs' ltac:(cbn [length] in Hf; lia)).
  fold tail in IH. rewrite !blen_app, <- !app_assoc in IH. rewrite !blen_app, Z.add_0_l, Z.add_simpl_r.
  cbn [key_ranges]. unfold write_varint. set (n := blen (encode_varint (blen key))) in *.
  rewrite Z.add_assoc in IH. assert (MAX_COLUMN_BYTES <= USIZE_MAX) as Hmax by discriminate.
  unfold usize_try_from, try_from_max, checked_add.
  destruct (Z.leb_spec (blen key) USIZE_MAX) as [_|]; [|lia]. cbn [ok_or bind result_monad].
  destruct (Z.leb_spec (blen pre + n + blen key) USIZE_MAX) as [_|]; [|lia]. cbn [ok_or bind result_monad].
  destruct (Z.ltb_spec (blen pre + (n + blen key + blen tail)) (blen pre + n + blen key)) as [|_]; [lia|].
  rewrite IH by lia. reflexivity.
Qed.

Lemma key_ranges_nth keys : forall pre i,
  match nth_error keys i with
  | Some key => exists start, nth_error (key_ranges (blen pre) keys) i = Some (start, start + blen key) /\
                  slice (pre ++ concat (map write_string keys)) start (start + blen key) = key
  | None => nth_error (key_ranges (blen pre) keys) i = None
  end.
Proof.
  induction keys as [|key keys IH]; intros pre [|i]; try reflexivity; cbn [nth_error key_ranges map concat].
  - exists (blen pre + blen (write_varint (blen key))). split; [reflexivity|].
    unfold write_string. unfold slice. rewrite <- blen_app, <- !app_assoc, app_assoc, drop_app_exact.
    replace (blen (pre ++ write_varint (blen key)) + blen key - blen (pre ++ write_varint (blen key))) with (blen key) by lia.
    now apply take_app_len.
  - specialize (IH (pre ++ write_string key) i). unfold write_string in *. rewrite !blen_app, <- !app_assoc in *.
    now rewrite <- !Z.add_assoc in *.
Qed.

Lemma column_bytes_ok total l what t :
  checked_column_bytes total l what = Ok t <-> t = total + l /\ total + l <= MAX_COLUMN_BYTES.
Proof.
  unfold checked_column_bytes, checked_add. assert (MAX_COLUMN_BYTES <= USIZE_MAX) as Hmax by discriminate.
  destruct (Z.leb_spec (total + l) USIZE_MAX); cbn [ok_or bind result_monad].
  - destruct (Z.ltb_spec MAX_COLUMN_BYTES (total + l)); split; [discriminate|lia|intros; inj; auto|].
    intros [-> _]. reflexivity.
  - split; [discriminate|lia].
Qed.

Lemma expand_strings_ok (keys : list bytes) (indexes : bytes) (iw : Z) : short_keys keys ->
  forall rows total out, 0 <= total <= MAX_COLUMN_BYTES ->
  Cursor.expand_strings (concat (map write_string keys)) (key_ranges 0 keys) indexes iw total rows = Ok out <->
  exists picked, map_each (map (fun i => Cursor.read_lc_idx indexes i iw) rows)
      (fun i => ok_or (nth_error keys (Z.to_nat i)) Cursor.out_of_bounds) = Ok picked /\
    total + blen (concat picked) <= MAX_COLUMN_BYTES /\ out = concat (map write_string picked).
Proof.
  intros Hs. induction rows as [|i rows IH]; intros total out Ht.
  { cbn. split; intros H.
    - inj. exists []. conj; auto. change (blen (concat [])) with 0. unfold MAX_COLUMN_BYTES in Ht. lia.
    - destruct H as (picked & H & _ & ->). now inj. }
  cbn [Cursor.expand_strings map]. rewrite map_each_cons.
  pose proof (key_ranges_nth keys [] (Z.to_nat (Cursor.read_lc_idx indexes i iw))) as Hk. change (blen []) with 0 in Hk.
  destruct (nth_error keys (Z.to_nat (Cursor.read_lc_idx indexes i iw))) as [key|] eqn:Ekey.
  2: { rewrite Hk. split; [discriminate|]. now intros (picked & H & _). }
  destruct Hk as (start & -> & Hslice). cbn [app] in Hslice. cbn [ok_or bind result_monad]. rewrite Hslice.
  replace (start + blen key - start) with (blen key) by lia. pose proof (blen_nonneg key).
  assert (blen key <= MAX_STRING_BYTES) as Hk by (apply (proj1 (Forall_forall _ _) Hs); eapply nth_error_In; exact Ekey).
  rewrite encode_varint_to_eq by (unfold U64_MAX, MAX_STRING_BYTES in *; lia). split; intros E.
  - destruct (protocol _) as [t|e] eqn:Et; [|discriminate]. apply map_err_inv, column_bytes_ok in Et as [-> Et].
    destruct (Cursor.expand_strings _ _ _ _ _ _) as [tail|e] eqn:Etail; [|discriminate]. inj.
    apply IH in Etail as (picked & Hp & Hcap & ->); [|lia]. rewrite Hp. exists (key :: picked).
    cbn [map concat]. rewrite blen_app. conj; auto; [lia|]. unfold write_string, write_varint. now rewrite <- app_assoc.
  - destruct E as (picked & Hp & Hcap & ->). destruct (map_each _ _) as [ps|e] eqn:Eps; [|discriminate]. cbn in Hp. inj.
    cbn [map concat] in *. rewrite blen_app in Hcap. pose proof (blen_nonneg (concat ps)).
    assert (total + blen key <= MAX_COLUMN_BYTES) as Hle by lia.
    unfold protocol. rewrite (proj2 (column_bytes_ok total (blen key) _ _) (conj eq_refl Hle)). cbn [map_err].
    rewrite (proj2 (IH (total + blen key) (concat (map write_string ps)) ltac:(lia))).
    + unfold write_string, write_varint. now rewrite <- app_assoc.
    + exists ps. conj; auto. lia.
Qed.

(** *** The keys of a dictionary *)

Lemma run_read_iff n l bs rest : 0 <= n -> run (read_exact_r n) l = Ok (bs, rest) <-> blen bs = n /\ l = bs ++ rest.
Proof.
  intros Hn. split; [now apply run_fixed_read|]. intros [Hb ->]. now apply run_read_exact_app.
Qed.

Lemma run_collect_fixed w k : 0 <= w -> forall l keys rest,
  run (collect_n k (read_exact_r w)) l = Ok (keys, rest) <->
  length keys = k /\ Forall (fun key => blen key = w) keys /\ l = concat keys ++ rest.
Proof.
  intros Hw. induction k as [|k IH]; intros l keys rest; cbn [collect_n].
  - rewrite run_ret. split; [intros; inj; auto|]. intros (Hk & _ & ->). now destruct keys.
  - split.
    + intros H. apply run_bind_inv in H as (key & l1 & H1 & H). apply run_fixed_read in H1 as [Hl ->]; [|assumption].
      apply run_bind_inv in H as (keys' & l2 & H1 & H). rewrite run_ret in H. inj. apply IH in H1 as (Hk & Hf & ->).
      cbn [length concat]. rewrite <- app_assoc. auto.
    + intros (Hk & Hf & ->). destruct keys as [|key keys]; [discriminate|]. inversion Hf; subst. cbn [concat].
      rewrite <- app_assoc. erewrite run_bind_ok by now apply run_read_exact_app.
      injection Hk as Hk. erewrite run_bind_ok by (apply IH; split; [exact Hk|split; [assumption|reflexivity]]). reflexivity.
Qed.

Lemma concat_full_chunks w n : 0 <= w -> forall l, blen l = Z.of_nat n * w ->
  concat (full_chunks n w l) = l /\ Forall (fun p => blen p = w) (full_chunks n w l).
Proof.
  intros Hw. induction n as [|n IH]; intros l Hl; cbn [full_chunks concat].
  - split; [|constructor]. symmetry. apply blen_zero. lia.
  - destruct (IH (drop w l)) as [Hc Hf]; [rewrite blen_drop; nia|]. rewrite Hc, take_drop. split; [reflexivity|].
    constructor; [apply blen_take; nia|assumption].
Qed.

Lemma lc_plain_cases inner : lc_plain inner = true ->
  inner = TString \/
  exists w, fixed_width inner = Some w /\ 0 < w /\
    (forall n, tidy inner n = tidy_nonempty n (tidy_fixed n w)) /\
    (forall dict idxs iw ni, 0 < ni -> blen idxs = ni * iw -> ni * iw <= USIZE_MAX ->
       Cursor.materialize_lc_inner dict inner idxs iw ni = Cursor.materialize_lc_fixed dict w idxs iw ni).
Proof.
  intros H. destruct inner; try discriminate H; try (now left); right; cbn [lc_plain printable] in H; eexists;
    (split; [reflexivity|]); (split; [lia|]); (split; [reflexivity|]);
    intros dict idxs iw ni Hni Hl Hmax; unfold Cursor.materialize_lc_inner, checked_mul;
    (destruct (Z.ltb_spec 0 ni); [|lia]); (destruct (Z.leb_spec (ni * iw) USIZE_MAX); [|lia]);
    cbn [ok_or bind result_monad]; (destruct (Z.ltb_spec (blen idxs) (ni * iw)); [lia|reflexivity]).
Qed.

Definition keys_shape (inner : ColumnType) (keys : list bytes) : Prop :=
  match fixed_width inner with
  | Some w => Forall (fun key => blen key = w) keys
  | None => short_keys keys
  end.

Lemma string_keys_shape name k : forall l keys rest,
  run (collect_n k (string_value name)) l = Ok (keys, rest) -> length keys = k /\ short_keys keys.
Proof.
  induction k as [|k IH]; intros l keys rest H; cbn [collect_n] in H.
  - rewrite run_ret in H. inj. split; [reflexivity|constructor].
  - apply run_bind_inv in H as (key & l1 & H1 & H). apply run_bind_inv in H as (keys' & l2 & H2 & H).
    rewrite run_ret in H. inj. apply IH in H2 as [Hk Hs]. apply string_value_inv in H1 as (enc & _ & _ & _ & _ & _ & Hmax).
    split; [cbn; now rewrite Hk|now constructor].
Qed.

Lemma lc_keys_shape inner k l keys rest :
  lc_plain inner = true -> run (collect_n k (lc_key inner)) l = Ok (keys, rest) ->
  length keys = k /\ keys_shape inner keys.
Proof.
  intros Hp H. unfold lc_key, keys_shape in *. destruct (lc_plain_cases inner Hp) as [->|(w & Ew & Hw & _)].
  - now apply string_keys_shape in H.
  - rewrite Ew in *. apply run_collect_fixed in H as (? & ? & _); [auto|lia].
Qed.

Lemma render_fixed inner w keys : fixed_width inner = Some w -> map (lc_render inner) keys = keys.
Proof. intros Ew. rewrite <- (map_id keys) at 2. apply map_ext. intros key. unfold lc_render. now rewrite Ew. Qed.

Lemma lc_dict_ok inner n l dict rest : lc_plain inner = true -> 0 <= n ->
  run (tidy inner n) l = Ok (dict, rest) <->
  exists keys, run (collect_n (Z.to_nat n) (lc_key inner)) l = Ok (keys, rest) /\ dict = concat (map (lc_render inner) keys).
Proof.
  intros Hp Hn. destruct (lc_plain_cases inner Hp) as [->|(w & Ew & Hw & -> & _)].
  - cbn [tidy]. unfold tidy_nonempty, lc_key, lc_render. cbn [fixed_width]. destruct (Z.eqb_spec n 0) as [->|Hne].
    + cbn. split; [intros; inj; now exists []|]. intros (keys & H & ->). now inj.
    + unfold tidy_strings. split; intros H.
      * apply run_bind_inv in H as (keys & l1 & H1 & H). rewrite run_ret in H. inj. eauto.
      * destruct H as (keys & H & ->). now rewrite (run_bind_ok _ _ _ _ _ H).
  - unfold tidy_nonempty, tidy_fixed, lc_key. rewrite Ew. destruct (Z.eqb_spec n 0) as [->|Hne].
    + cbn. split; [intros; inj; now exists []|]. intros (keys & H & ->). now inj.
    + rewrite run_read_iff by nia. split.
      * intros [Hb ->]. destruct (concat_full_chunks w (Z.to_nat n) ltac:(lia) dict) as [Hc Hf]; [nia|].
        exists (full_chunks (Z.to_nat n) w dict). rewrite (render_fixed inner w), Hc by assumption. split; [|reflexivity].
        apply run_collect_fixed; [lia|]. rewrite length_full_chunks, Hc. auto.
      * intros (keys & H & ->). apply run_collect_fixed in H as (Hk & Hf & ->); [|lia].
        rewrite (render_fixed inner w) by assumption. split; [|reflexivity]. rewrite (blen_concat w) by assumption. unfold blen. nia.
Qed.

Lemma materialize_inner_ok inner keys idxs iw ni out :
  lc_plain inner = true -> keys_shape inner keys -> keys <> [] ->
  blen (concat (map (lc_render inner) keys)) <= MAX_COLUMN_BYTES ->
  iw = 1 \/ iw = 2 \/ iw = 4 \/ iw = 8 -> 0 < ni -> blen idxs = ni * iw -> ni * iw <= MAX_COLUMN_BYTES ->
  Cursor.materialize_lc_inner (concat (map (lc_render inner) keys)) inner idxs iw ni = Ok out <->
  lc_rows inner keys (map from_le (chunks_exact iw idxs)) = Ok out.
Proof.
  intros Hp Hs Hne Hcap Hiw Hni Hl Hmax. rewrite lc_rows_ok, <- (lc_indexes_read idxs iw ni) by lia.
  assert (MAX_COLUMN_BYTES <= USIZE_MAX) as Hm by discriminate. unfold keys_shape in *.
  destruct (lc_plain_cases inner Hp) as [->|(w & Ew & Hw & _ & Hmat)].
  - cbn [fixed_width] in *. change (lc_render TString) with write_string in *.
    unfold Cursor.materialize_lc_inner, checked_mul.
    destruct (Z.ltb_spec 0 ni); [|lia]. destruct (Z.leb_spec (ni * iw) USIZE_MAX); [|lia]. cbn [ok_or bind result_monad].
    destruct (Z.ltb_spec (blen idxs) (ni * iw)); [lia|].
    pose proof (string_offsets_written (S (length (concat (map write_string keys)))) keys [] Hs) as Hoff.
    cbn [app] in Hoff. change (blen []) with 0 in Hoff. rewrite Hoff; [|clear|assumption].
    + cbn [bind result_monad]. apply (expand_strings_ok keys idxs iw Hs). unfold MAX_COLUMN_BYTES; lia.
    + induction keys as [|key keys IH]; [cbn; lia|]. cbn [map concat length]. unfold write_string at 1.
      rewrite !length_app. unfold write_varint, encode_varint. cbn [encode_varint_loop length]. lia.
  - rewrite Ew in *. rewrite (render_fixed inner w) in * by assumption. rewrite Hmat by lia.
    rewrite (materialize_fixed_ok keys w idxs iw ni out) by auto.
    split; intros (picked & H1 & H2 & ->); exists picked; rewrite (render_fixed inner w) in * by assumption; auto.
Qed.

(** A LowCardinality column of the wire, with its rows in [out]. *)
Definition lc_wire (inner : ColumnType) (rows : Z) (l out rest : bytes) : Prop :=
  exists meta w k keys body count idxs,
    l = meta ++ body /\ blen meta = 24 /\ lc_header meta = Ok (w, k) /\
    run (collect_n (Z.to_nat k) (lc_key inner)) body = Ok (keys, count ++ idxs ++ rest) /\
    blen count = 8 /\ lc_index_count count rows = Ok rows /\ blen idxs = rows * w /\
    (if k =? 0 then Ok [] else lc_rows inner keys (map from_le (chunks_exact w idxs))) = Ok out.

Lemma lc_header_widths meta w k :
  lc_header meta = Ok (w, k) -> (w = 1 \/ w = 2 \/ w = 4 \/ w = 8) /\ 0 <= k.
Proof.
  unfold lc_header. intros H. apply result_bind_inv in H as (w' & Hw & H). apply result_bind_inv in H as (k' & Hk & H). inj.
  apply lc_width_cases in Hw. split; [assumption|]. apply map_err_inv in Hk.
  pose proof (from_le_bound (slice meta 16 24)). apply checked_count_inv in Hk as [-> _]; [lia|split; discriminate].
Qed.

Lemma tidy_lc_wire inner rows l out rest : 0 <= rows ->
  run (tidy_lc inner rows) l = Ok (out, rest) <-> lc_wire inner rows l out rest.
Proof.
  intros Hr. unfold tidy_lc. split.
  - intros H. apply run_bind_inv in H as (meta & l1 & H1 & H). apply run_fixed_read in H1 as [Hm ->]; [|lia].
    apply run_bind_inv in H as ([w k] & l2 & H1 & H). apply run_lift_inv in H1 as [Hh ->].
    apply run_bind_inv in H as (keys & l2 & Hk & H). apply run_bind_inv in H as (count & l3 & H1 & H).
    apply run_fixed_read in H1 as [Hc ->]; [|lia]. apply run_bind_inv in H as (ni & l4 & H1 & H).
    apply run_lift_inv in H1 as [Hi ->]. pose proof (lc_index_count_inv _ _ _ Hi) as ->.
    apply run_bind_inv in H as (idxs & l4 & H1 & H). destruct (lc_header_widths _ _ _ Hh).
    apply run_fixed_read in H1 as [Hx ->]; [|nia]. exists meta, w, k, keys, l1, count, idxs.
    destruct (k =? 0); [rewrite run_ret in H|apply run_lift_inv in H as [H ->]]; inj; conj; auto.
  - intros (meta & w & k & keys & body & count & idxs & -> & Hm & Hh & Hk & Hc & Hi & Hx & Ho).
    erewrite run_bind_ok by now apply run_read_exact_app. erewrite run_bind_ok by (rewrite run_lift, Hh; reflexivity).
    cbv beta iota. erewrite run_bind_ok by exact Hk. erewrite run_bind_ok by now apply run_read_exact_app.
    erewrite run_bind_ok by (rewrite run_lift, Hi; reflexivity). erewrite run_bind_ok by now apply run_read_exact_app.
    destruct (k =? 0); [inj; reflexivity|]. now rewrite Ho.
Qed.

Section LowCardinalityColumn.
Context (self : column_by_name) (inner : ColumnType) (rows : Z).
Hypothesis Hplain : lc_plain inner = true.
Hypothesis Hrows : 0 < rows.
Hypothesis Hself : forall n, 0 < n -> within (self (to_string inner) n) (tidy inner n).
Hypothesis Hcap : forall n l dict rest,
  0 < n -> run (self (to_string inner) n) l = Ok (dict, rest) -> blen dict <= MAX_COLUMN_BYTES.

Lemma lc_header_parts meta w k :
  lc_header meta = Ok (w, k) <->
  protocol (checked_count (from_le (slice meta 16 24)) (str "LowCardinality key") MAX_JSON_DYNAMIC_ITEMS) = Ok k /\
  lc_idx_width (from_le (slice meta 0 8)) (from_le (slice meta 8 16)) = Ok w.
Proof.
  unfold lc_header. split.
  - intros H. apply result_bind_inv in H as (w' & Hw & H). apply result_bind_inv in H as (k' & Hk & H). inj. auto.
  - intros [Hk Hw]. rewrite Hw. cbn [bind result_monad]. now rewrite Hk.
Qed.

Lemma read_lc_reads l out rest : run (read_lc_async self inner rows) l = Ok (out, rest) -> lc_wire inner rows l out rest.
Proof.
  intros H. unfold read_lc_async in H. destruct (Z.eqb_spec rows 0); [lia|].
  apply run_bind_inv in H as (meta & l1 & H1 & H). apply run_fixed_read in H1 as [Hm ->]; [|lia].
  apply run_bind_inv in H as (k & l2 & H1 & H). apply run_lift_inv in H1 as [Hk ->].
  apply run_bind_inv in H as (w & l2 & H1 & H). apply run_lift_inv in H1 as [Hw ->].
  pose proof (proj2 (lc_header_parts meta w k) (conj Hk Hw)) as Hh. destruct (lc_header_widths _ _ _ Hh) as [Hws Hk0].
  apply run_bind_inv in H as (dict & l2 & Hd & H). apply run_bind_inv in H as (count & l3 & H1 & H).
  apply run_fixed_read in H1 as [Hc ->]; [|lia]. apply run_bind_inv in H as (ni & l4 & H1 & H).
  apply run_lift_inv in H1 as [Hi ->]. pose proof (lc_index_count_inv _ _ _ Hi) as ->.
  apply run_bind_inv in H as (nb & l4 & H1 & H). apply run_lift_inv in H1 as [Hn ->].
  apply column_len_inv in Hn as [-> Hmax]. destruct (Z.ltb_spec 0 rows) as [_|]; [|lia].
  apply run_bind_inv in H as (idxs & l4 & H1 & H). apply run_fixed_read in H1 as [Hx ->]; [|nia].
  destruct (Z.eqb_spec rows 0) as [|_]; [lia|]. cbn [orb] in H.
  assert (exists keys, run (collect_n (Z.to_nat k) (lc_key inner)) l1 = Ok (keys, count ++ idxs ++ l4) /\
            dict = concat (map (lc_render inner) keys)) as (keys & Hkeys & ->).
  { destruct (Z.ltb_spec 0 k) as [Hpos|Hz].
    - apply lc_dict_ok; auto. now apply (within_reads _ _ (Hself k Hpos)).
    - rewrite run_ret in Hd. inj. replace k with 0 by lia. exists []. auto. }
  exists meta, w, k, keys, l1, count, idxs. destruct (Z.eqb_spec k 0) as [E|E].
  { rewrite run_ret in H. inj. conj; auto. }
  apply run_lift_inv in H as [H <-]. destruct (lc_keys_shape _ _ _ _ _ Hplain Hkeys) as [Hlen Hs].
  destruct (Z.ltb_spec 0 k) as [Hpos|]; [|lia]. apply Hcap in Hd; [|assumption].
  conj; auto. apply (materialize_inner_ok inner keys idxs w rows); auto.
  intros ->. cbn in Hlen. lia.
Qed.

Lemma read_lc_covers l out rest :
  lc_wire inner rows l out rest -> blen l - blen rest <= MAX_COLUMN_BYTES ->
  run (read_lc_async self inner rows) l = Ok (out, rest).
Proof.
  intros (meta & w & k & keys & body & count & idxs & -> & Hm & Hh & Hk & Hc & Hi & Hx & Ho) Hlen.
  destruct (lc_header_widths _ _ _ Hh) as [Hws Hk0]. apply lc_header_parts in Hh as [Hkc Hw].
  pose proof (run_shrinks _ _ _ _ Hk) as Hsh. rewrite !blen_app in *. pose proof (blen_nonneg idxs).
  unfold read_lc_async. destruct (Z.eqb_spec rows 0); [lia|].
  erewrite run_bind_ok by now apply run_read_exact_app. erewrite run_bind_ok by (rewrite run_lift, Hkc; reflexivity).
  erewrite run_bind_ok by (rewrite run_lift, Hw; reflexivity).
  assert (exists dict, run (if 0 <? k then self (to_string inner) k else ret []) body = Ok (dict, count ++ idxs ++ rest) /\
            dict = concat (map (lc_render inner) keys)) as (dict & Hd & ->).
  { destruct (Z.ltb_spec 0 k) as [Hpos|Hz].
    - exists (concat (map (lc_render inner) keys)). split; [|reflexivity].
      apply (within_covers _ _ (Hself k Hpos)); [apply lc_dict_ok; eauto|rewrite !blen_app; lia].
    - replace k with 0 in * by lia. cbn in Hk. inj. now exists []. }
  rewrite (run_bind_ok _ _ _ _ _ Hd). erewrite run_bind_ok by now apply run_read_exact_app.
  erewrite run_bind_ok by (rewrite run_lift, Hi; reflexivity).
  erewrite run_bind_ok by (rewrite run_lift, column_len_ok by lia; reflexivity).
  destruct (Z.ltb_spec 0 rows) as [_|]; [|lia]. erewrite run_bind_ok by now apply run_read_exact_app.
  destruct (Z.eqb_spec rows 0) as [|_]; [lia|]. cbn [orb]. destruct (Z.eqb_spec k 0) as [E|E]; [inj; reflexivity|].
  destruct (Z.ltb_spec 0 k) as [Hpos|]; [|lia]. apply Hcap in Hd; [|assumption].
  destruct (lc_keys_shape _ _ _ _ _ Hplain Hk) as [Hl Hs].
  rewrite run_lift, (proj2 (materialize_inner_ok inner keys idxs w rows out Hplain Hs ltac:(intros ->; cbn in Hl; lia)
    Hd Hws Hrows Hx ltac:(lia)) Ho). reflexivity.
Qed.

Lemma within_lc : within (read_lc_async self inner rows) (tidy_lc inner rows).
Proof.
  split; intros l out rest H.
  - apply tidy_lc_wire; [lia|]. now apply read_lc_reads.
  - intros Hlen. apply read_lc_covers; [|assumption]. apply tidy_lc_wire; [lia|assumption].
Qed.
End LowCardinalityColumn.

(** ** Columns *)

Lemma within_throw {A} (e e' : error) : within (A := A) (throw e) (throw e').
Proof. split; intros l a rest H; discriminate H. Qed.

Lemma within_strings rows name : 0 <= rows ->
  within (read_string_column_with_prefixes rows name) (tidy_strings rows name).
Proof.
  intros Hr. unfold read_string_column_with_prefixes, tidy_strings. destruct (Z.eqb_spec rows 0) as [->|Hne].
  { apply within_refl. }
  split; intros l out rest H.
  - apply string_rows_reads in H as (values & Hv & ->); [|reflexivity]. cbn [pend app] in Hv.
    now rewrite (run_bind_ok _ _ _ _ _ Hv).
  - intros Hlen. apply run_bind_inv in H as (values & l' & Hv & H). rewrite run_ret in H. inj.
    apply (string_rows_covers name _ None 0 []); auto; cbn [pend app]; change (blen []) with 0; lia.
Qed.

Lemma within_json {A} (m m' : reader A) : within m m' -> within (json_async m) (json_async m').
Proof.
  intros H. apply within_bind; [apply within_refl|intros ver]. cbv zeta.
  destruct (negb _ && negb _); [apply within_throw|assumption].
Qed.

Lemma fold_offsets_nonneg name : forall offs t t', 0 <= t -> Forall (fun o => 0 <= o) offs ->
  fold_offsets t offs name = Ok t' -> 0 <= t'.
Proof.
  induction offs as [|o offs IH]; intros t t' Ht Hf H; cbn [fold_offsets] in H; [now inj|].
  inversion Hf; subst. apply result_bind_inv in H as (t1 & H1 & H).
  apply checked_monotonic_offset_inv in H1 as [-> _]. now apply IH in H.
Qed.

Lemma offsets_nonneg name bs t : protocol (fold_offsets 0 (map from_le (chunks_exact 8 bs)) name) = Ok t -> 0 <= t.
Proof.
  intros H. apply map_err_inv, fold_offsets_nonneg in H; [assumption|lia|].
  apply Forall_map, Forall_forall. intros b _. apply from_le_bound.
Qed.

Lemma within_array self inner rows name : 0 <= rows ->
  (forall n, 0 < n -> within (self n) (inner n)) -> (forall l, run (inner 0) l = Ok ([], l)) ->
  within (array_async self rows name) (tidy_array name inner rows).
Proof.
  intros Hr Hi H0. unfold array_async, tidy_array, read_offsets_column. split; intros l out rest H.
  - apply run_bind_inv in H as ([obuf total] & l1 & H1 & H). apply run_bind_inv in H1 as (nb & l2 & H2 & H1).
    apply run_lift_inv in H2 as [Hn ->]. apply column_len_inv in Hn as [-> _].
    apply run_bind_inv in H1 as (offs & l2 & Ho & H1). apply run_bind_inv in H1 as (t & l3 & Ht & H1).
    apply run_lift_inv in Ht as [Ht ->]. rewrite run_ret in H1. inj.
    erewrite run_bind_ok by exact Ho. erewrite run_bind_ok by (rewrite run_lift, Ht; reflexivity).
    destruct (Z.ltb_spec 0 total) as [Hpos|Hz].
    + apply run_bind_inv in H as (vs & l3 & Hv & H). apply (within_reads _ _ (Hi total Hpos)) in Hv.
      erewrite run_bind_ok by exact Hv. exact H.
    + apply offsets_nonneg in Ht. replace total with 0 by lia. erewrite run_bind_ok by apply H0. now rewrite app_nil_r.
  - intros Hlen. apply run_bind_inv in H as (offs & l1 & Ho & H). pose proof Ho as Ho'.
    apply run_fixed_read in Ho' as [Hol ->]; [|lia]. rewrite blen_app in Hlen.
    pose proof (run_shrinks _ _ _ _ H). apply run_bind_inv in H as (total & l2 & Ht & H). apply run_lift_inv in Ht as [Ht ->].
    apply run_bind_inv in H as (vs & l2 & Hv & H). rewrite run_ret in H. inj.
    erewrite run_bind_ok.
    2: { erewrite run_bind_ok by (rewrite run_lift, column_len_ok by lia; reflexivity). erewrite run_bind_ok by exact Ho.
         erewrite run_bind_ok by (rewrite run_lift, Ht; reflexivity). reflexivity. }
    cbv beta iota. apply offsets_nonneg in Ht. destruct (Z.ltb_spec 0 total) as [Hpos|Hz].
    + apply (within_covers _ _ (Hi total Hpos)) in Hv; [|pose proof (blen_nonneg offs); lia].
      now rewrite (run_bind_ok _ _ _ _ _ Hv).
    + replace total with 0 in Hv by lia. rewrite H0 in Hv. inj. now rewrite app_nil_r.
Qed.

Lemma within_nonempty rows m m' :
  (rows <> 0 -> within m m') -> within (if rows =? 0 then ret [] else m) (tidy_nonempty rows m').
Proof. unfold tidy_nonempty. destruct (Z.eqb_spec rows 0); [intros; apply within_refl|auto]. Qed.

Lemma tidy_zero ct l : run (tidy ct 0) l = Ok ([], l).
Proof. now destruct ct. Qed.

(** One level of the recursion through names. *)
Lemma within_level fuel name ct rows m' :
  parse_type name = Ok ct -> (rows <> 0 -> within (read_arm (read_column_levels fuel) name ct rows) m') ->
  within (read_column_levels (S fuel) name rows) (tidy_nonempty rows m').
Proof. intros Hp H. cbn [read_column_levels]. rewrite Hp. now apply within_nonempty. Qed.

(** *** Geo types, each read through the name of the one below *)

Lemma within_float64 fuel rows : 0 <= rows -> rows <> 0 ->
  within (read_column_levels (S fuel) (str "Float64") rows) (tidy_fixed rows 8).
Proof.
  intros Hr Hne. pose proof (within_level fuel (str "Float64") Float64 rows (tidy_fixed rows 8) eq_refl) as H.
  unfold tidy_nonempty in H. destruct (Z.eqb_spec rows 0) as [|_]; [lia|]. apply H. intros _. apply within_fixed; lia.
Qed.

Lemma within_pairs fuel name rows : 0 <= rows -> rows <> 0 ->
  within (read_arm (read_column_levels (S fuel)) name Point rows) (tidy_pairs rows).
Proof.
  intros Hr Hne. apply within_bind; [now apply within_float64|intros xs].
  apply within_bind; [now apply within_float64|intros; apply within_refl].
Qed.

Lemma within_point fuel rows : 0 <= rows -> within (read_column_levels (S (S fuel)) (str "Point") rows) (tidy_point rows).
Proof. intros Hr. apply (within_level _ _ Point); [reflexivity|]. now apply within_pairs. Qed.

(** An array of a geo type whose name is [name]. *)
Lemma within_geo_array fuel name elem inner rows : 0 <= rows -> rows <> 0 ->
  parse_type name = Ok (Array elem) -> (forall l, run (inner 0) l = Ok ([], l)) ->
  (forall n, 0 <= n -> within (read_column_levels fuel (to_string elem) n) (inner n)) ->
  within (read_column_levels (S fuel) name rows) (tidy_array "array offset" inner rows).
Proof.
  intros Hr Hne Hp H0 Hi. pose proof (within_level fuel name _ rows (tidy_array "array offset" inner rows) Hp) as H.
  unfold tidy_nonempty in H. destruct (Z.eqb_spec rows 0) as [|_]; [lia|]. apply H. intros _.
  apply within_array; auto. intros n Hn. apply Hi. lia.
Qed.

Lemma within_ring fuel rows : 0 <= rows ->
  within (read_column_levels (4 + fuel) (str "Ring") rows) (tidy_ring rows).
Proof.
  intros Hr. apply (within_level _ _ Ring); [reflexivity|]. intros Hne. cbn [read_arm].
  apply (within_geo_array (2 + fuel) _ Point); auto. intros. now apply within_point.
Qed.

Lemma within_polygon fuel rows : 0 <= rows ->
  within (read_column_levels (6 + fuel) (str "Polygon") rows) (tidy_polygon rows).
Proof.
  intros Hr. apply (within_level _ _ Polygon); [reflexivity|]. intros Hne. cbn [read_arm].
  apply (within_geo_array (4 + fuel) _ Ring); auto. intros. now apply within_ring.
Qed.

(** *** All types *)

Lemma portable_elem name ct inner : parse_type name = Ok ct -> (nesting inner < nesting ct)%nat -> printable inner = true ->
  parse_type (to_string inner) = Ok inner.
Proof.
  intros Hp Hn Hi. apply parse_type_rec_bounded in Hp as [_ Hb]. apply parse_to_string; [assumption|]. lia.
Qed.

Lemma within_simple self name ct rows : wf_type ct = true -> portable ct = true -> 0 <= rows ->
  match ct with
  | Nullable _ | Array _ | TMap _ _ | Tuple _ | LowCardinality _ | Variant _ | Point | Ring | Polygon | MultiPolygon => True
  | _ => exists m', tidy ct rows = tidy_nonempty rows m' /\ within (read_arm self name ct rows) m'
  end.
Proof.
  intros Hwf Hp Hr. destruct ct; try exact I; try discriminate Hp; cbn [wf_type] in Hwf;
    (eexists; split; [reflexivity|]); cbn [read_arm fixed_width];
    try apply within_refl; try (now apply within_strings); try (apply within_fixed; lia).
  - repeat match goal with |- context [if ?b then Some _ else _] => destruct b end;
      try (apply within_fixed; lia). apply within_throw.
  - apply within_json. now apply within_strings.
Qed.

Lemma string_rows_capped name k : forall pending total data l out rest,
  blen data <= total <= MAX_COLUMN_BYTES ->
  run (string_rows_prefixed k name pending total data) l = Ok (out, rest) -> blen out <= MAX_COLUMN_BYTES.
Proof.
  induction k as [|k IH]; intros pending total data l out rest Hd H; cbn [string_rows_prefixed] in H.
  { rewrite run_ret in H. inj. lia. }
  apply run_bind_inv in H as (v & l1 & Hv & H). apply read_length_ok, read_varint_inv in Hv as (enc & _ & He & Hu & _).
  pose proof (varint_nonneg _ _ He). apply run_bind_inv in H as (len & l2 & H1 & H). apply run_lift_inv in H1 as [H1 ->].
  apply string_len_inv in H1 as [-> _]. apply run_bind_inv in H as (n & l2 & H1 & H). apply run_lift_inv in H1 as [H1 ->].
  unfold checked_add in H1. destruct (_ <=? _) in H1; [|discriminate]. cbn [ok_or] in H1. inj.
  apply run_bind_inv in H as (t & l2 & H1 & H). apply run_lift_inv in H1 as [H1 ->].
  apply map_err_inv, column_bytes_ok in H1 as [-> Ht]. apply run_bind_inv in H as ([body p] & l2 & H1 & H).
  apply string_body_reads in H1 as (Hb & _); [|assumption]. apply IH in H; [assumption|].
  rewrite !blen_app, <- varint_len_spec by lia. lia.
Qed.

Lemma lc_dict_capped fuel inner name n l dict rest : lc_plain inner = true -> parse_type name = Ok inner -> 0 < n ->
  run (read_column_levels (S fuel) name n) l = Ok (dict, rest) -> blen dict <= MAX_COLUMN_BYTES.
Proof.
  intros Hp Hname Hn H. cbn [read_column_levels] in H. destruct (Z.eqb_spec n 0) as [|_]; [lia|]. rewrite Hname in H.
  assert (forall w what, run (read_fixed_async n w what) l = Ok (dict, rest) -> 0 <= w -> blen dict <= MAX_COLUMN_BYTES) as Hfix.
  { intros w what E Hw. apply run_bind_inv in E as (k & l1 & E1 & E). apply run_lift_inv in E1 as [E1 ->].
    apply column_len_inv in E1 as [-> Hk]. apply run_fixed_read in E as [-> _]; nia. }
  destruct inner; try discriminate Hp; cbn [read_arm fixed_width lc_plain printable] in H, Hp;
    try (eapply Hfix; [exact H|lia]).
  unfold read_string_column_with_prefixes in H. destruct (Z.eqb_spec n 0) as [|_]; [lia|].
  eapply string_rows_capped; [|exact H]. split; discriminate.
Qed.

Lemma tuple_nesting ts t : In t ts -> (nesting t < nesting (Tuple ts))%nat.
Proof.
  intros Ht. pose proof (proj1 (nesting_list ts (nesting (Tuple ts))) (le_n _)) as HF.
  rewrite Forall_forall in HF. now apply HF.
Qed.

Lemma lc_plain_portable t : lc_plain t = true -> printable t = true /\ portable t = true.
Proof. intros Hp. destruct t; try discriminate Hp; cbn in *; split; auto; lia. Qed.

(** The reader of a name is the reference reader of its type. *)
Lemma within_named ct : forall fuel name rows,
  parse_type name = Ok ct -> portable ct = true -> 0 <= rows -> (nesting ct + 8 <= fuel)%nat ->
  within (read_column_levels fuel name rows) (tidy ct rows).
Proof.
  type_induction ct; cbn [portable nesting].
  - intros t IH [|fuel] name rows Hn Hp Hr Hf; [lia|]. apply andb_prop in Hp as [Hpr Hp].
    apply (within_level _ _ (Nullable t)); [assumption|]. intros Hne. cbn [read_arm].
    apply within_bind; [apply within_refl|intros nulls]. apply within_bind; [|intros; apply within_refl].
    apply IH; auto; [|lia]. now apply (portable_elem name (Nullable t)); [|cbn; lia|].
  - intros t IH [|fuel] name rows Hn Hp Hr Hf; [lia|]. apply andb_prop in Hp as [Hpr Hp].
    apply (within_level _ _ (Array t)); [assumption|]. intros Hne. apply within_array; [assumption| |apply tidy_zero].
    intros n Hn'. apply IH; auto; [|lia|lia]. now apply (portable_elem name (Array t)); [|cbn; lia|].
  - intros k v IHk IHv [|fuel] name rows Hn Hp Hr Hf; [lia|].
    apply andb_prop in Hp as [Hk Hv]. apply andb_prop in Hk as [Hkp Hk]. apply andb_prop in Hv as [Hvp Hv].
    assert (nesting k < nesting (TMap k v) /\ nesting v < nesting (TMap k v))%nat as [Hnk Hnv] by (cbn; lia).
    apply (within_level _ _ (TMap k v)); [assumption|]. intros Hne. apply within_array; [assumption| |].
    + intros n Hn'. apply within_bind; [|intros keys; apply within_bind; [|intros; apply within_refl]].
      * apply IHk; auto; [|lia|lia]. now apply (portable_elem name (TMap k v)).
      * apply IHv; auto; [|lia|lia]. now apply (portable_elem name (TMap k v)).
    + intros l. rewrite (run_bind_ok _ _ _ _ _ (tidy_zero k l)). now rewrite (run_bind_ok _ _ _ _ _ (tidy_zero v l)).
  - intros ts IH [|fuel] name rows Hn Hp Hr Hf; [lia|]. apply (within_level _ _ (Tuple ts)); [assumption|]. intros Hne.
    apply within_bind; [|intros; apply within_refl]. apply within_map_each. rewrite forallb_forall in Hp.
    rewrite Forall_forall in *. intros t Ht. specialize (Hp t Ht). apply andb_prop in Hp as [Hpr Hp].
    assert (nesting t < nesting (Tuple ts))%nat as Hlt by now apply tuple_nesting.
    apply IH; auto; [now apply (portable_elem name (Tuple ts))|]. cbn [nesting] in Hlt. lia.
  - intros t IH [|[|fuel]] name rows Hn Hp Hr Hf; try lia. apply (within_level _ _ (LowCardinality t)); [assumption|]. intros Hne.
    destruct (lc_plain_portable t Hp) as [Hpr Hpt].
    assert (parse_type (to_string t) = Ok t) as Ht by now apply (portable_elem name (LowCardinality t)); [|cbn; lia|].
    apply within_lc; [assumption|lia| |].
    + intros n Hn'. apply IH; auto; lia.
    + intros n l dict rest Hn' H. now apply lc_dict_capped with (inner := t) in H.
  - discriminate.
  - intros t. destruct t; try exact I; intros [|fuel] name rows Hn Hp Hr Hf; try (cbn in Hf; lia); try discriminate Hp;
      try (destruct (within_simple (read_column_levels fuel) name _ rows (parse_type_wf _ _ Hn) Hp Hr) as (m' & -> & Hw);
           apply (within_level _ _ _ _ _ Hn); auto).
    all: apply (within_level _ _ _ _ _ Hn); intros Hne; do 7 (destruct fuel as [|fuel]; [cbn in Hf; lia|]).
    + now apply within_pairs.
    + apply (within_geo_array _ _ Point); auto. intros. now apply within_point.
    + apply (within_geo_array _ _ Ring); auto. intros. now apply (within_ring (2 + fuel)).
    + apply (within_geo_array _ _ Polygon); auto. intros. now apply (within_polygon fuel).
Qed.

(** ** Discarding

    [discards m d]: [d] passes over what [m] reads from at most [MAX_COLUMN_BYTES] bytes. *)
Definition discards {A} (m : reader A) (d : reader unit) : Prop :=
  forall l a rest, run m l = Ok (a, rest) -> blen l - blen rest <= MAX_COLUMN_BYTES -> run d l = Ok (tt, rest).

Lemma discards_ret {A} (a : A) : discards (ret a) (ret tt).
Proof. intros l b rest H _. rewrite run_ret in H. inj. reflexivity. Qed.

Lemma discards_bind {A B} (m : reader A) (f : A -> reader B) d d' :
  discards m d -> (forall a, discards (f a) d') -> discards (bind m f) (d ;; d').
Proof.
  intros Hm Hf l b rest H Hlen. apply run_bind_inv in H as (a & l' & H1 & H2).
  pose proof (run_shrinks _ _ _ _ H1). pose proof (run_shrinks _ _ _ _ H2).
  rewrite (run_bind_ok _ _ _ _ _ (Hm _ _ _ H1 ltac:(lia))). apply (Hf a _ _ _ H2). lia.
Qed.

Lemma discards_map {A B} (m : reader A) (g : A -> B) d : discards m d -> discards (let* a := m in ret (g a)) d.
Proof.
  intros Hm l b rest H Hlen. apply run_bind_inv in H as (a & l' & H1 & H2). rewrite run_ret in H2. inj. eauto.
Qed.

Lemma discards_lift {A B} (r : result error A) (f : A -> reader B) d :
  (forall a, r = Ok a -> discards (f a) d) -> discards (let* a := lift r in f a) d.
Proof.
  intros Hf l b rest H Hlen. apply run_bind_inv in H as (a & l' & H1 & H2). apply run_lift_inv in H1 as [-> ->].
  now apply (Hf a eq_refl _ _ _ H2).
Qed.

Lemma discards_exact n : 0 <= n -> discards (read_exact_r n) (discard_exact_async n).
Proof.
  intros Hn l bs rest H _. apply run_read_exact_inv in H as (Hl & _ & ->). unfold discard_exact_async.
  rewrite run_discard_by by lia. now destruct (Z.leb_spec n (blen l)); [|lia].
Qed.

Lemma discards_width rows w : 0 <= rows -> 0 <= w -> discards (tidy_fixed rows w) (discard_width rows w).
Proof.
  intros Hr Hw l bs rest H Hlen. pose proof H as H'. apply run_fixed_read in H' as [Hb ->]; [|nia]. rewrite blen_app in Hlen.
  assert (MAX_COLUMN_BYTES <= USIZE_MAX) as Hmax by discriminate. unfold discard_width, Async.checked_len, checked_mul.
  destruct (Z.leb_spec (rows * w) USIZE_MAX); [|lia]. erewrite run_bind_ok by reflexivity.
  apply (discards_exact (rows * w) ltac:(nia) _ _ _ H). rewrite blen_app. lia.
Qed.

Lemma discards_collect {A} (m : reader A) d n : discards m d -> discards (collect_n n m) (repeat_n n d).
Proof.
  intros H. induction n as [|n IH]; [apply discards_ret|]. cbn [collect_n repeat_n].
  apply discards_bind; [assumption|intros a]. now apply discards_map.
Qed.

Lemma discards_map_each {A B} (l : list A) (f : A -> reader B) (g : A -> reader unit) :
  Forall (fun a => discards (f a) (g a)) l -> discards (map_each l f) (for_each l g).
Proof.
  induction 1 as [|a l Ha _ IH]; [apply discards_ret|]. rewrite map_each_cons, for_each_cons.
  apply discards_bind; [assumption|intros b]. now apply discards_map.
Qed.

Lemma discards_strings rows name : discards (tidy_strings rows name) (discard_strings_async rows name).
Proof.
  apply discards_map, discards_collect. intros l s rest H Hlen.
  apply string_value_inv in H as (enc & -> & Hv & Hs & _). apply varint_async_ok in Hv.
  erewrite run_bind_ok by exact Hv. erewrite run_bind_ok by (rewrite run_lift, Hs; reflexivity).
  pose proof (blen_nonneg s).
  apply (discards_exact (blen s) H _ s); [now apply run_read_exact_app|]. rewrite !blen_app in *. pose proof (blen_nonneg enc). lia.
Qed.

Lemma discards_json {A} (m : reader A) d : discards m d -> discards (json_async m) (json_async d).
Proof.
  intros Hm l a rest H Hlen. apply run_bind_inv in H as (ver & l' & H1 & H2). pose proof (run_shrinks _ _ _ _ H1).
  unfold json_async. rewrite (run_bind_ok _ _ _ _ _ H1). cbv zeta in *. destruct (negb _ && negb _); [discriminate|].
  apply (Hm _ _ _ H2). lia.
Qed.

(** *** Offsets in windows *)

Lemma take_app_le {A} n (a b : list A) : n <= blen a -> take n (a ++ b) = take n a.
Proof.
  unfold blen, take. intros H. rewrite firstn_app. replace (Z.to_nat n - length a)%nat with 0%nat by lia. apply app_nil_r.
Qed.

Lemma chunks_exact_app w k : forall a b : bytes, 0 < w -> blen a = Z.of_nat k * w ->
  chunks_exact w (a ++ b) = chunks_exact w a ++ chunks_exact w b.
Proof.
  induction k as [|k IH]; intros a b Hw Ha.
  { assert (a = []) as -> by (apply blen_zero; lia). reflexivity. }
  pose proof (blen_nonneg b). rewrite (chunks_exact_cons w (a ++ b)), (chunks_exact_cons w a) by (rewrite ?blen_app; nia).
  rewrite take_app_le, drop_app_le by nia. cbn [app]. f_equal. apply IH; [assumption|]. rewrite blen_drop; nia.
Qed.

Lemma fold_offsets_app name a : forall t b,
  fold_offsets t (a ++ b) name = (let* t' := fold_offsets t a name in fold_offsets t' b name).
Proof.
  induction a as [|o a IH]; intros t b; [reflexivity|]. cbn [app fold_offsets bind result_monad].
  destruct (checked_monotonic_offset t o name); [apply IH|reflexivity].
Qed.

Lemma run_discard_windows name fuel : forall remaining total l t rest,
  0 <= remaining -> remaining mod 8 = 0 -> remaining <= (Z.of_nat fuel - 1) * (8 * 1024) ->
  run (let* bs := read_exact_r remaining in
       lift (protocol (fold_offsets total (map from_le (chunks_exact 8 bs)) (str name)))) l = Ok (t, rest) ->
  run (discard_windows fuel remaining total name) l = Ok (t, rest).
Proof.
  induction fuel as [|fuel IH]; intros remaining total l t rest Hr Hm Hf H; [lia|]. cbn [discard_windows].
  apply run_bind_inv in H as (bs & l1 & H1 & H). apply run_fixed_read in H1 as [Hb ->]; [|assumption].
  apply run_lift_inv in H as [H ->]. destruct (Z.ltb_spec 0 remaining) as [Hpos|Hz].
  2: { assert (bs = []) as -> by (apply blen_zero; lia). cbn in H. inj. reflexivity. }
  set (n := Z.min remaining (8 * 1024)). assert (0 < n <= remaining /\ n mod 8 = 0) as [Hn Hn8].
  { unfold n. destruct (Z.min_spec remaining (8 * 1024)) as [[? ->]|[? ->]]; split; lia || assumption || reflexivity. }
  rewrite <- (take_drop n bs), <- app_assoc.
  erewrite run_bind_ok by (apply run_read_exact_app; apply blen_take; lia).
  apply map_err_inv in H. rewrite <- (take_drop n bs) in H.
  rewrite (chunks_exact_app 8 (Z.to_nat (n / 8))) in H by (rewrite ?blen_take; pose proof (Z.div_mod n 8); lia).
  rewrite map_app, fold_offsets_app in H. apply result_bind_inv in H as (t1 & H1 & H).
  erewrite run_bind_ok by (rewrite run_lift, H1; reflexivity). apply IH; [lia| |unfold n in *; lia|].
  - rewrite Zminus_mod, Hm, Hn8. reflexivity.
  - erewrite run_bind_ok by (apply run_read_exact_app; rewrite blen_drop; lia). now rewrite run_lift, H.
Qed.

Lemma discards_offsets rows name : 0 <= rows -> forall l offs t rest,
  run (read_exact_r (rows * 8)) l = Ok (offs, rest) -> rows * 8 <= MAX_COLUMN_BYTES ->
  protocol (fold_offsets 0 (map from_le (chunks_exact 8 offs)) (str name)) = Ok t ->
  run (discard_offsets_async rows name) l = Ok (t, rest).
Proof.
  intros Hr l offs t rest Ho Hcap Ht. unfold discard_offsets_async.
  erewrite run_bind_ok by (rewrite run_lift, column_len_ok by assumption; reflexivity).
  apply run_discard_windows; [lia|apply Z.mod_mul; lia| |].
  - pose proof (Z.div_mod (rows * 8) (8 * 1024)). pose proof (Z.mod_pos_bound (rows * 8) (8 * 1024)).
    assert (0 <= rows * 8 / (8 * 1024)) by (apply Z.div_pos; lia). rewrite Z2Nat.id by lia. lia.
  - rewrite (run_bind_ok _ _ _ _ _ Ho). now rewrite run_lift, Ht.
Qed.

Lemma discards_array name inner rows (d : Z -> reader unit) : 0 <= rows -> (forall n, 0 <= n -> discards (inner n) (d n)) ->
  discards (tidy_array name inner rows) (let* total := discard_offsets_async rows name in d total).
Proof.
  intros Hr Hd l out rest H Hlen. apply run_bind_inv in H as (offs & l1 & Ho & H). pose proof (run_shrinks _ _ _ _ H) as Hsh.
  pose proof Ho as Ho'. apply run_fixed_read in Ho' as [Hol ->]; [|lia]. rewrite blen_app in Hlen.
  apply run_bind_inv in H as (t & l2 & Ht & H). apply run_lift_inv in Ht as [Ht ->].
  rewrite (run_bind_ok _ _ _ _ _ (discards_offsets rows name Hr _ _ _ _ Ho ltac:(lia) Ht)).
  apply run_bind_inv in H as (vs & l2 & Hv & H). rewrite run_ret in H. inj.
  apply (Hd t (offsets_nonneg _ _ _ Ht) _ _ _ Hv). pose proof (blen_nonneg offs). lia.
Qed.

(** *** All types *)

Lemma discards_lc (self : bytes -> Z -> reader unit) inner rows : lc_plain inner = true -> 0 <= rows ->
  (forall n, 0 <= n -> discards (tidy inner n) (self (to_string inner) n)) ->
  discards (tidy_lc inner rows) (discard_lc_async self inner rows).
Proof.
  intros Hp Hr Hself l out rest H Hlen. apply tidy_lc_wire in H; [|assumption].
  destruct H as (meta & w & k & keys & body & count & idxs & -> & Hm & Hh & Hk & Hc & Hi & Hx & _).
  destruct (lc_header_widths _ _ _ Hh) as [Hws Hk0]. pose proof (run_shrinks _ _ _ _ Hk) as Hsh.
  rewrite !blen_app in *. pose proof (blen_nonneg idxs). unfold discard_lc_async.
  erewrite run_bind_ok by now apply run_read_exact_app. erewrite run_bind_ok by (rewrite run_lift, Hh; reflexivity).
  cbv beta iota. assert (run (self (to_string inner) k) body = Ok (tt, count ++ idxs ++ rest)) as Hd.
  { apply (Hself k Hk0 _ (concat (map (lc_render inner) keys))); [apply lc_dict_ok; eauto|rewrite !blen_app; lia]. }
  rewrite (run_bind_ok _ _ _ _ _ Hd). erewrite run_bind_ok by now apply run_read_exact_app.
  erewrite run_bind_ok by (rewrite run_lift, Hi; reflexivity).
  erewrite run_bind_ok by (rewrite run_lift, column_len_ok by lia; reflexivity).
  apply (discards_exact (rows * w) ltac:(nia) _ idxs); [now apply run_read_exact_app|rewrite blen_app; lia].
Qed.

Lemma discards_nonempty rows m d : (rows <> 0 -> discards m d) -> discards (tidy_nonempty rows m) (if rows =? 0 then ret tt else d).
Proof. unfold tidy_nonempty. destruct (Z.eqb_spec rows 0); [intros _; apply discards_ret|auto]. Qed.

Lemma discards_level fuel name ct rows m :
  parse_type name = Ok ct -> (rows <> 0 -> discards m (discard_arm (discard_column_levels fuel) name ct rows)) ->
  discards (tidy_nonempty rows m) (discard_column_levels (S fuel) name rows).
Proof. intros Hp H. cbn [discard_column_levels]. rewrite Hp. now apply discards_nonempty. Qed.

(** A level for a column that has rows. *)
Lemma discards_rows {A} fuel name ct rows (m : reader A) : rows <> 0 -> parse_type name = Ok ct ->
  discards m (discard_arm (discard_column_levels fuel) name ct rows) -> discards m (discard_column_levels (S fuel) name rows).
Proof.
  intros Hne Hp H. cbn [discard_column_levels]. rewrite Hp. now destruct (Z.eqb_spec rows 0); [lia|].
Qed.

Lemma discards_pairs fuel name rows : 0 <= rows -> rows <> 0 ->
  discards (tidy_pairs rows) (discard_arm (discard_column_levels (S fuel)) name Point rows).
Proof.
  intros Hr Hne. apply discards_bind; [|intros xs; apply discards_map];
    (apply (discards_rows _ _ Float64); [assumption|reflexivity|]; apply discards_width; lia).
Qed.

Lemma discards_point fuel rows : 0 <= rows ->
  discards (tidy_point rows) (discard_column_levels (S (S fuel)) (str "Point") rows).
Proof. intros Hr. apply (discards_level _ _ Point); [reflexivity|]. now apply discards_pairs. Qed.

Lemma discards_geo_array fuel name elem inner rows : 0 <= rows -> rows <> 0 -> parse_type name = Ok (Array elem) ->
  (forall n, 0 <= n -> discards (inner n) (discard_column_levels fuel (to_string elem) n)) ->
  discards (tidy_array "array offset" inner rows) (discard_column_levels (S fuel) name rows).
Proof. intros Hr Hne Hp Hi. apply (discards_rows _ _ (Array elem)); auto. now apply discards_array. Qed.

Lemma discards_ring fuel rows : 0 <= rows ->
  discards (tidy_ring rows) (discard_column_levels (4 + fuel) (str "Ring") rows).
Proof.
  intros Hr. apply (discards_level _ _ Ring); [reflexivity|]. intros Hne.
  apply (discards_geo_array (2 + fuel) _ Point); auto. intros. now apply discards_point.
Qed.

Lemma discards_polygon fuel rows : 0 <= rows ->
  discards (tidy_polygon rows) (discard_column_levels (6 + fuel) (str "Polygon") rows).
Proof.
  intros Hr. apply (discards_level _ _ Polygon); [reflexivity|]. intros Hne.
  apply (discards_geo_array (4 + fuel) _ Ring); auto. intros. now apply discards_ring.
Qed.

(** A column read in full is discarded. *)
Lemma discards_read name ct rows : parse_type name = Ok ct -> portable ct = true -> 0 <= rows ->
  discards (tidy ct rows) (read_column_async name rows ;; ret tt).
Proof.
  intros Hn Hp Hr l out rest H Hlen. pose proof (parse_type_rec_bounded _ _ _ Hn) as [_ Hb].
  pose proof (within_named ct NAME_LEVELS name rows Hn Hp Hr ltac:(unfold NAME_LEVELS; lia)) as [_ Hw].
  now rewrite (run_bind_ok _ _ _ _ _ (Hw _ _ _ H Hlen)).
Qed.

Lemma discards_simple self name ct rows : parse_type name = Ok ct -> portable ct = true -> 0 <= rows -> rows <> 0 ->
  match ct with
  | Nullable _ | Array _ | TMap _ _ | Tuple _ | LowCardinality _ | Variant _ | Point | Ring | Polygon | MultiPolygon => True
  | _ => discards (tidy ct rows) (discard_arm self name ct rows)
  end.
Proof.
  intros Hn Hp Hr Hne. pose proof (parse_type_wf _ _ Hn) as Hwf. pose proof (discards_read name ct rows Hn Hp Hr) as Hother.
  destruct ct; try exact I; try discriminate Hp; try exact Hother; cbn [wf_type] in Hwf; cbn [tidy discard_arm fixed_width];
    unfold tidy_nonempty; (destruct (Z.eqb_spec rows 0) as [|_]; [lia|]);
    try apply discards_strings; try (now apply discards_exact); try (apply discards_width; lia);
    try (apply discards_json, discards_strings);
    try (unfold tidy_fixed; rewrite Z.mul_1_r; now apply discards_exact).
  repeat match goal with |- context [if ?b then Some _ else _] => destruct b end; try (apply discards_width; lia).
  intros l a rest H. discriminate H.
Qed.

Lemma discards_named ct : forall fuel name rows,
  parse_type name = Ok ct -> portable ct = true -> 0 <= rows -> (nesting ct + 8 <= fuel)%nat ->
  discards (tidy ct rows) (discard_column_levels fuel name rows).
Proof.
  type_induction ct; cbn [portable nesting].
  - intros t IH [|fuel] name rows Hn Hp Hr Hf; [lia|]. apply andb_prop in Hp as [Hpr Hp].
    apply (discards_level _ _ (Nullable t)); [assumption|]. intros Hne.
    apply discards_bind; [now apply discards_exact|intros nulls]. apply discards_map.
    apply IH; auto; [|lia]. now apply (portable_elem name (Nullable t)); [|cbn; lia|].
  - intros t IH [|fuel] name rows Hn Hp Hr Hf; [lia|]. apply andb_prop in Hp as [Hpr Hp].
    apply (discards_level _ _ (Array t)); [assumption|]. intros Hne. apply discards_array; [assumption|].
    intros n Hn'. apply IH; auto; [|lia]. now apply (portable_elem name (Array t)); [|cbn; lia|].
  - intros k v IHk IHv [|fuel] name rows Hn Hp Hr Hf; [lia|].
    apply andb_prop in Hp as [Hk Hv]. apply andb_prop in Hk as [Hkp Hk]. apply andb_prop in Hv as [Hvp Hv].
    assert (nesting k < nesting (TMap k v) /\ nesting v < nesting (TMap k v))%nat as [Hnk Hnv] by (cbn; lia).
    apply (discards_level _ _ (TMap k v)); [assumption|]. intros Hne.
    apply (discards_array "map offset" _ rows
             (fun n => discard_column_levels fuel (to_string k) n ;; discard_column_levels fuel (to_string v) n)); [assumption|].
    intros n Hn'. apply discards_bind; [|intros keys; apply discards_map].
    + apply IHk; auto; [|lia]. now apply (portable_elem name (TMap k v)).
    + apply IHv; auto; [|lia]. now apply (portable_elem name (TMap k v)).
  - intros ts IH [|fuel] name rows Hn Hp Hr Hf; [lia|]. apply (discards_level _ _ (Tuple ts)); [assumption|]. intros Hne.
    apply discards_map, discards_map_each. rewrite forallb_forall in Hp.
    rewrite Forall_forall in *. intros t Ht. specialize (Hp t Ht). apply andb_prop in Hp as [Hpr Hp].
    assert (nesting t < nesting (Tuple ts))%nat as Hlt by now apply tuple_nesting.
    apply IH; auto; [now apply (portable_elem name (Tuple ts))|]. cbn [nesting] in Hlt. lia.
  - intros t IH [|fuel] name rows Hn Hp Hr Hf; [lia|]. apply (discards_level _ _ (LowCardinality t)); [assumption|]. intros Hne.
    apply discards_lc; [assumption|assumption|]. intros n Hn'. destruct (lc_plain_portable t Hp) as [Hpr Hpt].
    apply IH; auto; [|lia]. now apply (portable_elem name (LowCardinality t)); [|cbn; lia|].
  - discriminate.
  - intros t. destruct t; try exact I; intros [|fuel] name rows Hn Hp Hr Hf; try (cbn in Hf; lia); try discriminate Hp;
      apply (discards_level _ _ _ _ _ Hn); intros Hne;
      try (pose proof (discards_simple (discard_column_levels fuel) name _ rows Hn Hp Hr Hne) as H; cbn [tidy] in H;
           unfold tidy_nonempty in H; destruct (Z.eqb_spec rows 0) as [|_]; [lia|exact H]).
    all: do 7 (destruct fuel as [|fuel]; [cbn in Hf; lia|]).
    + now apply discards_pairs.
    + apply (discards_geo_array _ _ Point); auto. intros. now apply discards_point.
    + apply (discards_geo_array _ _ Ring); auto. intros. now apply (discards_ring (2 + fuel)).
    + apply (discards_geo_array _ _ Polygon); auto. intros. now apply (discards_polygon fuel).
Qed.

(** ** What the skipper accepts *)

(** [accepts p m]: where the buffer parser [p] succeeds the reader [m] takes the same bytes. *)
Definition accepts {A B} (p : parser A) (m : reader B) : Prop :=
  advances p /\
  forall buf pos a pos', 0 <= pos <= blen buf -> blen buf <= ISIZE_MAX -> p buf pos = Ok (a, pos') ->
  exists b, run m (drop pos buf) = Ok (b, drop pos' buf).

Lemma accepts_covers {A} (p : parser A) (m : reader A) : covers p m -> accepts p m.
Proof. intros [Ha Hc]. split; [assumption|]. intros buf pos a pos' H1 H2 H. exists a. now apply Hc. Qed.

Lemma accepts_throw {A B} (e : error) (m : reader B) : accepts (A := A) (throw e) m.
Proof. split; [apply advances_throw|]. intros buf pos a pos' _ _ H. discriminate H. Qed.

Lemma accepts_seq {A A' B B'} (p : parser A) (p' : parser A') (m : reader B) (f : B -> reader B') :
  accepts p m -> (forall b, accepts p' (f b)) -> advances p' -> accepts (p ;; p') (bind m f).
Proof.
  intros [Ha Hm] Hf Ha'. split; [apply advances_bind; [assumption|intros _; assumption]|].
  intros buf pos a pos' Hpos Hbuf H. apply parser_bind_inv in H as (x & p1 & H1 & H2).
  pose proof (Ha _ _ _ _ Hpos H1). apply Hm in H1 as (b & H1); try assumption.
  rewrite (run_bind_ok _ _ _ _ _ H1). apply (proj2 (Hf b)) in H2; auto. lia.
Qed.

Lemma accepts_map {A B B'} (p : parser A) (m : reader B) (g : B -> B') : accepts p m -> accepts p (let* b := m in ret (g b)).
Proof.
  intros [Ha Hm]. split; [assumption|]. intros buf pos a pos' H1 H2 H. apply Hm in H as (b & H); try assumption.
  exists (g b). now rewrite (run_bind_ok _ _ _ _ _ H).
Qed.

Lemma accepts_exact n : 0 <= n -> accepts (advance_pos n) (read_exact_r n).
Proof.
  intros Hn. split; [now apply advances_advance_pos|]. intros buf pos a pos' Hpos Hbuf H.
  apply advance_pos_ok in H as [H Hle]; try lia. inj. eexists. rewrite run_read_exact, blen_drop by lia.
  destruct (Z.leb_spec n (blen buf - pos)); [|lia]. now rewrite drop_drop, Z.add_comm by lia.
Qed.

Lemma accepts_fixed rows w : 0 <= rows -> 0 <= w -> accepts (skip_fixed rows w) (tidy_fixed rows w).
Proof.
  intros Hr Hw. split; [now apply advances_skip_fixed|]. intros buf pos a pos' Hpos Hbuf H.
  apply skip_fixed_ok in H as (_ & H & Hle); try lia. inj. apply (accepts_exact (rows * w)) with (a := tt); auto; try nia.
  apply advance_pos_ok; auto; nia.
Qed.

Lemma accepts_strings rows name name' : accepts (skip_string_rows rows name) (tidy_strings rows name').
Proof.
  apply accepts_map.
  assert (accepts (let* v := parse_varint in let* len := lift (protocol (checked_string_len v name)) in advance_pos len)
                  (string_value name')) as Hone.
  { split.
    - apply parse_varint_bind_advances. intros v Hv. apply lift_bind_advances. intros n H.
      apply string_len_inv in H as [-> _]. now apply advances_advance_pos.
    - intros buf pos a pos' Hpos Hbuf H. apply parser_bind_inv in H as (v & p1 & Hv & H).
      pose proof (advances_parse_varint _ _ _ _ Hpos Hv) as Hp1. pose proof (parse_varint_nonneg _ _ _ _ Hv) as Hv0.
      apply (proj2 covers_parse_varint) in Hv; try assumption.
      apply parser_bind_inv in H as (len & p2 & Hl & H). apply parser_lift_inv in Hl as [Hl ->].
      apply string_len_inv in Hl as [-> Hmax]. unfold string_value. rewrite (run_bind_ok _ _ _ _ _ Hv).
      erewrite run_bind_ok by (rewrite run_lift; unfold protocol; rewrite checked_string_len_ok by lia; reflexivity).
      apply (accepts_exact v) in H; auto. lia. }
  unfold skip_string_rows. induction (Z.to_nat rows) as [|n IH]; [split; [apply advances_ret|]|].
  - intros buf pos a pos' _ _ H. cbn in H. inj. now exists [].
  - cbn [repeat_n collect_n]. apply accepts_seq; [assumption|intros s; now apply accepts_map|apply IH].
Qed.

Lemma accepts_array name inner inner' rows : 0 <= rows -> (forall n, 0 <= n -> accepts (inner n) (inner' n)) ->
  (forall l, run (inner' 0) l = Ok ([], l)) ->
  accepts (array_of (str name) inner rows) (tidy_array name inner' rows).
Proof.
  intros Hr Hi H0. split; [apply advances_array_of; [assumption|intros n Hn; now apply Hi]|].
  intros buf pos a pos' Hpos Hbuf H. unfold array_of in H. apply parser_bind_inv in H as (t & p1 & Ht & H).
  pose proof (skip_offsets_nonneg _ _ _ _ _ _ Ht) as Ht0. apply skip_offsets_ok in Ht as (_ & t' & E & Hle & Hf); try assumption. inj.
  unfold tidy_array. erewrite run_bind_ok by (rewrite run_read_exact, blen_drop, take_drop_slice, drop_drop by lia;
    destruct (Z.leb_spec (rows * 8) (blen buf - pos)); [reflexivity|lia]).
  erewrite run_bind_ok by (rewrite run_lift; unfold protocol; rewrite Hf; reflexivity).
  replace (rows * 8 + pos) with (pos + rows * 8) by lia. destruct (Z.ltb_spec 0 t') as [Hpos'|Hz].
  - apply (Hi t' Ht0) in H as (vs & H); try lia. eexists. rewrite (run_bind_ok _ _ _ _ _ H). reflexivity.
  - replace t' with 0 by lia. eexists. rewrite (run_bind_ok _ _ _ _ _ (H0 _)). cbn in H. inj. reflexivity.
Qed.

Lemma accepts_nonempty rows p m : (rows <> 0 -> accepts p m) -> accepts (nonzero rows p) (tidy_nonempty rows m).
Proof.
  unfold nonzero, tidy_nonempty. destruct (Z.eqb_spec rows 0); [intros _|auto].
  split; [apply advances_ret|]. intros buf pos a pos' _ _ H. cbn in H. inj. now exists [].
Qed.

Lemma accepts_tuple {A} (l : list A) (f : A -> parser unit) (g : A -> reader bytes) :
  Forall (fun a => accepts (f a) (g a)) l -> accepts (for_each l f) (map_each l g).
Proof.
  induction 1 as [|a l Ha _ IH]; [split; [apply advances_ret|]|].
  - intros buf pos a pos' _ _ H. cbn in H. inj. now exists [].
  - rewrite for_each_cons, map_each_cons. apply accepts_seq; [assumption|intros b; now apply accepts_map|apply IH].
Qed.

Lemma accepts_point rows : 0 <= rows -> accepts (skip_point rows) (tidy_point rows).
Proof.
  intros Hr. apply accepts_nonempty. intros _. apply accepts_seq; [apply accepts_fixed; lia| |apply advances_skip_fixed; lia].
  intros xs. apply accepts_map, accepts_fixed; lia.
Qed.

Lemma accepts_ring rows : 0 <= rows -> accepts (skip_ring rows) (tidy_ring rows).
Proof. intros Hr. apply accepts_nonempty. intros _. apply accepts_array; [assumption|apply accepts_point|reflexivity]. Qed.

Lemma accepts_polygon rows : 0 <= rows -> accepts (skip_polygon rows) (tidy_polygon rows).
Proof. intros Hr. apply accepts_nonempty. intros _. apply accepts_array; [assumption|apply accepts_ring|reflexivity]. Qed.

Lemma accepts_simple ct rows : wf_type ct = true -> portable ct = true -> 0 <= rows -> rows <> 0 ->
  match ct with
  | Nullable _ | Array _ | TMap _ _ | Tuple _ | LowCardinality _ | Variant _ | JSON
  | Point | Ring | Polygon | MultiPolygon => True
  | _ => accepts (skip_simple ct rows) (tidy ct rows)
  end.
Proof.
  intros Hwf Hp Hr Hne. destruct ct; try exact I; try discriminate Hp; cbn [wf_type] in Hwf;
    cbn [skip_simple tidy fixed_width]; unfold tidy_nonempty; (destruct (Z.eqb_spec rows 0) as [|_]; [lia|]);
    try apply accepts_strings; try (now apply accepts_exact); try (apply accepts_fixed; lia);
    try (unfold tidy_fixed; rewrite Z.mul_1_r; now apply accepts_exact).
  repeat match goal with |- context [if ?b then Some _ else _] => destruct b end; try (apply accepts_fixed; lia).
  apply accepts_throw.
Qed.

(** What the skipper passes over is a column of the reference reader. *)
Lemma accepts_column ct : wf_type ct = true -> verbatim ct = true -> portable ct = true ->
  forall rows, 0 <= rows -> accepts (skip_column_data ct rows) (tidy ct rows).
Proof.
  type_induction ct; cbn [wf_type verbatim portable].
  - intros t IH Hwf Hv Hp rows Hr. apply andb_prop in Hp as [_ Hp]. apply accepts_nonempty. intros _.
    apply accepts_seq; [now apply accepts_exact|intros nulls; apply accepts_map|]; now apply IH.
  - intros t IH Hwf Hv Hp rows Hr. apply andb_prop in Hp as [_ Hp]. apply accepts_nonempty. intros _.
    apply accepts_array; [assumption|intros; now apply IH|apply tidy_zero].
  - intros k v IHk IHv Hwf Hv Hp rows Hr. apply andb_prop in Hwf as [Hwk Hwv], Hv as [Hvk Hvv], Hp as [Hpk Hpv].
    apply andb_prop in Hpk as [_ Hpk], Hpv as [_ Hpv]. apply accepts_nonempty. intros _.
    apply (accepts_array "map offset" (fun n => skip_column_data k n ;; skip_column_data v n)); [assumption| |].
    + intros n Hn. apply accepts_seq; [now apply IHk|intros keys; now apply accepts_map, IHv|now apply IHv].
    + intros l. rewrite (run_bind_ok _ _ _ _ _ (tidy_zero k l)). now rewrite (run_bind_ok _ _ _ _ _ (tidy_zero v l)).
  - intros ts IH Hwf Hv Hp rows Hr. apply accepts_nonempty. intros _. apply accepts_map, accepts_tuple.
    rewrite forallb_forall in Hwf, Hv, Hp. rewrite Forall_forall in *. intros t Ht.
    specialize (Hp t Ht). apply andb_prop in Hp as [_ Hp]. apply IH; auto.
  - discriminate.
  - discriminate.
  - intros t. destruct t; try exact I; intros Hwf Hv Hp rows Hr; try discriminate Hv; try discriminate Hp;
      apply accepts_nonempty; intros Hne;
      try (pose proof (accepts_simple _ rows Hwf Hp Hr Hne) as H; cbn [tidy] in H;
           unfold tidy_nonempty in H; destruct (Z.eqb_spec rows 0) as [|_]; [lia|exact H]).
    + apply accepts_seq; [apply accepts_fixed; lia| |apply advances_skip_fixed; lia].
      intros xs. apply accepts_map, accepts_fixed; lia.
    + apply accepts_array; [assumption|apply accepts_point|reflexivity].
    + apply accepts_array; [assumption|apply accepts_ring|reflexivity].
    + apply accepts_array; [assumption|apply accepts_polygon|reflexivity].
Qed.

(** ** Blocks *)

Lemma block_info_alike h : reads_alike eq (deep h block_info_step (fun _ => throw ModelFuel) tt)
                                          (deep h block_info_async_step (fun _ => throw ModelFuel) tt).
Proof.
  apply (deep_related (fun (f g : unit -> reader unit) => reads_alike eq (f tt) (g tt))).
  - intros f g Hfg. unfold block_info_step, block_info_async_step.
    apply (reads_alike_bind eq); [apply varint_async_alike|]. intros d ? <-.
    repeat match goal with |- reads_alike _ (if ?b then _ else _) _ => destruct b end;
      try apply reads_alike_refl; (eapply (reads_alike_bind eq); [apply varint_async_alike || apply reads_alike_refl|]);
      intros ? ? _; assumption.
  - intros l. exact I.
Qed.

Lemma block_counts_alike : reads_alike eq read_block_counts block_counts_async.
Proof.
  unfold read_block_counts, block_counts_async. rewrite skip_block_info_from_reader_unfold.
  apply (reads_alike_bind eq); [apply block_info_alike|intros ? ? _].
  apply (reads_alike_bind eq); [apply varint_async_alike|intros c ? <-].
  apply (reads_alike_bind eq); [apply reads_alike_refl|intros cols ? <-].
  apply (reads_alike_bind eq); [apply varint_async_alike|intros r ? <-].
  apply reads_alike_refl.
Qed.

Lemma counts_async_ok l counts rest :
  run read_block_counts l = Ok (counts, rest) -> run block_counts_async l = Ok (counts, rest).
Proof.
  pose proof (block_counts_alike l) as H. intros E. rewrite E in H.
  destruct (run block_counts_async l) as [[c r]|e]; [|contradiction]. now destruct H as [<- <-].
Qed.

(** The columns of a block in the form the asynchronous reader gives them. *)
Definition tidied_column (n : Z) (col : ColumnInfo) : ColumnInfo :=
  mkColumnInfo (name col) (type_name col)
    match parse_type (type_name col) with
    | Ok ct => match run (tidy ct n) (data col) with Ok (out, _) => out | Err _ => data col end
    | Err _ => data col
    end (lc_materialized col).

Definition tidied (b : Block) : Block := mkBlock (map (tidied_column (rows b)) (columns b)) (rows b).

Definition portable_column (col : ColumnInfo) : bool :=
  match parse_type (type_name col) with Ok ct => portable ct | Err _ => false end.

Lemma column_read_back n col rest : wf_column n col = true -> portable_column col = true -> 0 <= n ->
  run (read_column_async (type_name col) n) (data col ++ rest) = Ok (data (tidied_column n col), rest) /\
  run (discard_column_async (type_name col) n) (data col ++ rest) = Ok (tt, rest) /\
  (n = 0 -> data col = [] /\ data (tidied_column n col) = []).
Proof.
  intros Hwf Hp Hn. apply wf_column_inv in Hwf as (_ & _ & Hlen & _ & ct & Hct & Hv & Hf).
  unfold portable_column in Hp. unfold tidied_column. cbn [data]. rewrite Hct in *.
  pose proof (parse_type_rec_bounded _ _ _ Hct) as [Hwft Hnest]. apply framed_inv in Hf. pose proof (blen_nonneg (data col)).
  destruct (accepts_column ct Hwft Hv Hp n Hn) as [_ Hacc].
  destruct (Hacc (data col) 0 tt (blen (data col))) as (out & Hout); auto; [lia|unfold MAX_COLUMN_BYTES, ISIZE_MAX in *; lia|].
  rewrite drop_0, drop_all in Hout. rewrite Hout. apply (run_app _ _ _ _ rest) in Hout as Hrest. cbn [app] in Hrest.
  assert (blen (data col ++ rest) - blen rest <= MAX_COLUMN_BYTES) as Hsize by (rewrite blen_app; lia).
  split; [|split].
  - apply (within_covers _ _ (within_named ct NAME_LEVELS _ n Hct Hp Hn ltac:(unfold NAME_LEVELS; lia))); assumption.
  - apply (discards_named ct NAME_LEVELS _ n Hct Hp Hn ltac:(unfold NAME_LEVELS; lia) _ _ _ Hrest). assumption.
  - intros ->. rewrite tidy_zero in Hout. injection Hout as <- <-. auto.
Qed.

(** A byte of a stream that starts with a string. *)
Lemma header_read_back nm tn rest : wire_text nm = true -> wire_text tn = true ->
  forall A (k : bytes -> bytes -> reader A),
  run (let* n := Async.read_string_async in let* t := Async.read_string_async in k n t)
    (write_string nm ++ write_string tn ++ rest) = run (k nm tn) rest.
Proof.
  intros Hn Ht A k. apply wire_text_inv in Hn as [? ?], Ht as [? ?].
  erewrite run_bind_ok by (apply string_async_ok; now apply read_string_written).
  erewrite run_bind_ok by (apply string_async_ok; now apply read_string_written). reflexivity.
Qed.

Lemma columns_read_back n rest : 0 <= n -> forall cols, forallb (wf_column n) cols = true -> forallb portable_column cols = true ->
  run (collect_n (length cols) (read_column_info n)) (concat (map write_column cols) ++ rest)
    = Ok (map (tidied_column n) cols, rest) /\
  run (repeat_n (length cols) (discard_column_info n)) (concat (map write_column cols) ++ rest) = Ok (tt, rest).
Proof.
  intros Hn. induction cols as [|col cols IH]; intros Hwf Hp; [split; reflexivity|].
  cbn [forallb] in Hwf, Hp. apply andb_prop in Hwf as [Hc Hwf], Hp as [Hpc Hp]. destruct (IH Hwf Hp) as [IH1 IH2].
  pose proof (wf_column_inv _ _ Hc) as (Hnm & Htn & _ & Hlc & _).
  destruct (column_read_back n col (concat (map write_column cols) ++ rest) Hc Hpc Hn) as (Hr & Hd & Hz).
  assert (write_column col = write_string (name col) ++ write_string (type_name col) ++ [x00] ++ data col) as Hw by reflexivity.
  cbn [map concat length collect_n repeat_n]. rewrite Hw, <- !app_assoc. split.
  - erewrite run_bind_ok; [erewrite run_bind_ok by exact IH1; reflexivity|].
    unfold read_column_info. rewrite header_read_back by assumption. cbn [app].
    erewrite run_bind_ok by (apply (run_read_exact_app 1 [x00]); reflexivity).
    assert (run (if 0 <? n then read_column_async (type_name col) n else ret [])
              (data col ++ concat (map write_column cols) ++ rest) =
            Ok (data (tidied_column n col), concat (map write_column cols) ++ rest)) as Hread.
    { destruct (Z.ltb_spec 0 n); [exact Hr|]. destruct (Hz ltac:(lia)) as [-> ->]. reflexivity. }
    rewrite (run_bind_ok _ _ _ _ _ Hread), run_ret. do 2 f_equal. unfold tidied_column. cbn [data]. now rewrite Hlc.
  - erewrite run_bind_ok; [exact IH2|]. unfold discard_column_info. rewrite header_read_back by assumption. cbn [app].
    erewrite run_bind_ok by (apply (run_read_exact_app 1 [x00]); reflexivity). exact Hd.
Qed.

(** A reader run before the header of another only moves to where that one starts. *)
Lemma header_first {A B C} (name : reader A) (header : reader B) (body : B -> reader C) l a rest :
  run name l = Ok (a, rest) ->
  run (let* x := (name ;; header) in body x) l = run (let* x := header in body x) rest.
Proof. intros H. now rewrite !run_bind, H. Qed.

Lemma body_read_back b rest : wf_block b = true -> forallb portable_column (columns b) = true ->
  run (let* counts := block_counts_async in read_columns_async counts) (write_block b ++ rest) = Ok (tidied b, rest) /\
  run (let* counts := block_counts_async in discard_columns_async counts) (write_block b ++ rest) = Ok (rows b, rest).
Proof.
  intros Hwf Hp. pose proof (wf_block_inv _ Hwf) as (_ & Hr & Hcols).
  destruct (columns_read_back (rows b) rest (proj1 Hr) (columns b) Hcols Hp) as [H1 H2].
  pose proof (read_counts_written b (concat (map write_column (columns b)) ++ rest) Hwf) as Hc.
  apply counts_async_ok in Hc. unfold write_block. rewrite <- !app_assoc.
  assert (Z.to_nat (blen (columns b)) = length (columns b)) as Hl by (unfold blen; lia).
  rewrite !(run_bind_ok _ _ _ _ _ Hc).
  unfold read_columns_async, discard_columns_async. rewrite Hl. split.
  - now rewrite (run_bind_ok _ _ _ _ _ H1).
  - now rewrite (run_bind_ok _ _ _ _ _ H2).
Qed.


(** Two maps, of one and of two entries; the second key of the dictionary has an overlong length. *)
Definition map_sample : bytes :=
  to_le 8 1 ++ to_le 8 3 ++ [x01; x61; x00; x02; x62; x63] ++
  to_le 8 1 ++ to_le 8 512 ++ to_le 8 2 ++ [x00; x81; x00; x64] ++ to_le 8 3 ++ [x01; x00; x01].


(** The name of the table is read first, then the same counts and columns as a body. *)
Lemma named_block {C} (body : Z * Z -> reader C) table l :
  wire_text table = true ->
  run (let* counts := read_block_header in body counts) (write_string table ++ l) =
  run (let* counts := block_counts_async in body counts) l.
Proof.
  intros Ht. apply wire_text_inv in Ht as [? ?]. apply (header_first Async.read_string_async block_counts_async body _ table).
  apply string_async_ok. now apply read_string_written.
Qed.

(** C5: the asynchronous engine reads what [write_block] wrote.  A well-formed block whose
    types are all [portable] (no Variant, Dynamic, LowCardinality, JSON or aggregate-function
    parts, no enums inside other types) comes back with the same columns and rows, in which
    every string length is in its shortest form (the bytes 81 00 61 come back as 01 61),
    plain or as the body of a decompressed packet; discarding it gives its number of rows;
    both leave what follows the block. *)
Theorem async_block_roundtrip (table : bytes) (b : Block) (rest : bytes) :
  wf_block b = true -> forallb portable_column (columns b) = true -> wire_text table = true ->
  run read_data_block (write_string table ++ write_block b ++ rest) = Ok (tidied b, rest) /\
  run discard_data_block (write_string table ++ write_block b ++ rest) = Ok (rows b, rest) /\
  run read_data_block_body (write_block b ++ rest) = Ok (tidied b, rest) /\
  run discard_data_block_body (write_block b ++ rest) = Ok (rows b, rest).
Proof.
  intros Hwf Hp Ht. destruct (body_read_back b rest Hwf Hp) as [H1 H2].
  unfold read_data_block, discard_data_block, read_data_block_body, discard_data_block_body.
  split; [exact (eq_trans (named_block read_columns_async table _ Ht) H1)|].
  split; [exact (eq_trans (named_block discard_columns_async table _ Ht) H2)|exact (conj H1 H2)].
Qed.

Lemma async_block_roundtrip_witness :
  run read_data_block (write_string [] ++ write_block written_sample ++ [x2a]) = Ok (written_sample, [x2a]).
Proof.
  destruct (async_block_roundtrip [] written_sample [x2a]) as [H _]; [reflexivity|reflexivity|reflexivity|].
  rewrite H. reflexivity.
Defined.

(** ** Where the asynchronous readers differ

    The name printed for an enum inside another type is not read back as an enum: its values are
    taken for strings, and the column for longer than it is. *)
Lemma nested_enum_misread :
  let column := to_le 8 1 ++ [x01] in
  run (read_column_data_into (Array Enum8) 1 [] MAX_COLUMN_BYTES) (column ++ [x41])
    = Ok ((tt, column, MAX_COLUMN_BYTES - blen column), [x41]) /\
  run (read_column_async (str "Array(Enum8('a' = 1))") 1) (column ++ [x41]) = Ok (column ++ [x41], []).
Proof. split; vm_compute; reflexivity. Qed.

(** A LowCardinality column of another type, here [Time], is given back in a form no reader
    takes: the length of the dictionary in bytes stands for the number of its keys.  The
    blocking engine expands it. *)
Lemma lc_time_not_expanded :
  let column := to_le 8 1 ++ to_le 8 512 ++ to_le 8 1 ++ [x07; x00; x00; x00] ++ to_le 8 1 ++ [x00] in
  run (read_column_async (str "LowCardinality(Time)") 1) column
    = Ok (to_le 8 1 ++ to_le 8 0 ++ to_le 8 4 ++ [x07; x00; x00; x00] ++ to_le 8 1 ++ [x00], []) /\
  exists budget, run (read_column_data_into (LowCardinality Time) 1 [] MAX_COLUMN_BYTES) column
    = Ok ((tt, [x07; x00; x00; x00], budget), []).
Proof. split; [vm_compute; reflexivity|]. eexists. vm_compute. reflexivity. Qed.

(** Rows without a dictionary are given back as no data, which the blocking engine refuses. *)
Lemma lc_without_keys :
  let column := to_le 8 1 ++ to_le 8 512 ++ to_le 8 0 ++ to_le 8 1 ++ [x00] in
  run (read_column_async (str "LowCardinality(UInt8)") 1) column = Ok ([], []) /\
  run (read_column_data_into (LowCardinality UInt8) 1 [] MAX_COLUMN_BYTES) column = Err Cursor.out_of_bounds.
Proof. split; vm_compute; reflexivity. Qed.
