(* ===== verification/SyncResponse.v ===== *)
(** * The response loops of the blocking client ([sync/client.rs])

    A query's response is read packet by packet until its end: into blocks under a size
    budget, into borrowed views, or as a row count; an insert waits for the structure of
    its table.  Requests of the parallel-replica coordinator are answered on the way.
    The packets a server sends are given with their bytes; each loop is shown to take
    exactly one response and to return what it means. *)

From Stdlib Require Import String ZArith Lia Bool List.
From Stdlib Require Import Strings.Byte.
From coqutil Require Import Byte.
From S2P Require Import Prelude Revision Reader Session Limits Utf8 Wire TypeParser SkipColumn Arena ColumnReader Framing BlockReader BlockWriter Chunked Duplex Compression BlockPackets Transport Response Handshake Packets.
Import ListNotations.

Import Packets.Sync.

(** [Error::response_budget_exceeded] *)
Definition response_budget_exceeded (budget : ResponseBudget) : error :=
  ResponseTooLarge (limit budget) (used budget).

Definition total_row_count_step (total : result error Z) (block : Block) : result error Z :=
  let* total := total in
  ok_or (checked_add total (rows block)) (Protocol (msg "total row count overflow while materializing rows")).

Definition total_row_count (blocks : list Block) : result error Z :=
  fold_left total_row_count_step blocks (Ok 0).

Section Loops.
Context `{Codecs} {R : Type} `{Read R} `{Write R}.

Definition write_native_packet (pkt : bytes) (chunked_send : bool) : io R unit :=
  if chunked_send then let* w := lift (write_chunked_packet pkt) in writing w else writing pkt.

(** Whether the packet was one of the coordinator's. *)
Definition handle_coordinator_packet (packet_type : Z) (chunked_send : bool) : io R bool :=
  match packet_type with
  | 13 => write_native_packet build_empty_cluster_function_read_task_response chunked_send ;; ret true
  | 15 => reading skip_parallel_read_announcement ;; ret true
  | 16 =>
      let* stream_id := reading read_parallel_read_request_stream_id in
      write_native_packet (build_finished_merge_tree_read_task_response stream_id) chunked_send ;;
      ret true
  | _ => ret false
  end.

(** The packet type; a socket timeout gets a message of its own. *)
Definition read_packet_type : io R Z := fun r =>
  match reading read_varint r with
  | Err (Io (TimedOut _)) => Err (Protocol (msg "response read timed out"))
  | out => out
  end.

(** The readings of the clock, one per round, and the deadline. *)
Context (now : nat -> Z) (deadline : Z) (rev : Z) (chunked_send compressed : bool).

Definition deadline_exceeded {A} : io R A := throw (Protocol (msg "response read deadline exceeded")).

(** The arms that the response loops share: a packet without a part in the result. *)
Definition pass_packet {A} (packet_type : Z) (continue : io R A) : io R A :=
  match packet_type with
  | 3 => reading (skip_progress_packet_for_revision rev) ;; continue
  | 4 => continue
  | 6 => reading (skip_profile_info_packet_for_revision rev) ;; continue
  | 12 => reading skip_part_uuids_packet ;; continue
  | 11 => read_table_columns_from compressed ;; continue
  | 17 => reading read_string ;; continue
  | other =>
      let* handled := handle_coordinator_packet other chunked_send in
      if handled : bool then continue else throw (Protocol (Msg "unknown packet type: {other}" [AZ other]))
  end.

(** The inner result is an error that leaves the stream at a packet boundary: the server's
    exception, or the budget. *)
Definition blocks_step (self : nat * list Block * ResponseBudget -> io R (result error (list Block)))
    (st : nat * list Block * ResponseBudget) : io R (result error (list Block)) :=
  let '(i, blocks, budget) := st in
  if deadline <? now i then deadline_exceeded
  else
    let* packet_type := read_packet_type in
    match packet_type with
    | 1 =>
        let* block := read_block_from compressed in
        match charge budget (payload_bytes block) with
        | (Err _, budget) => ret (Err (response_budget_exceeded budget))
        | (Ok _, budget) => self (S i, blocks ++ [block], budget)
        end
    | 2 => let* e := reading read_exception_packet in ret (Err e)
    | 5 => ret (Ok blocks)
    | 7 | 8 => read_block_from compressed ;; self (S i, blocks, budget)
    | 10 => reading read_string ;; reading read_block_body ;; self (S i, blocks, budget)
    | 14 => read_tagged_block_body_from compressed ;; self (S i, blocks, budget)
    | other => pass_packet other (self (S i, blocks, budget))
    end.

Definition read_response_blocks (blocks : list Block) (budget : ResponseBudget) : io R (result error (list Block)) :=
  deep STREAM_BITS blocks_step (fun _ => throw ModelFuel) (0%nat, blocks, budget).

Definition views_step (visitor : BlockView -> result error unit) (self : nat -> io R (result error unit)) (i : nat)
  : io R (result error unit) :=
  if deadline <? now i then deadline_exceeded
  else
    let* packet_type := read_packet_type in
    match packet_type with
    | 1 =>
        (if compressed then reading read_string ;; inflated (read_block_body_view visitor)
         else reading (read_block_view visitor)) ;;
        self (S i)
    | 2 => let* e := reading read_exception_packet in ret (Err e)
    | 5 => ret (Ok tt)
    | 7 | 8 => discard_block_from compressed ;; self (S i)
    | 10 => reading read_string ;; reading discard_block_body ;; self (S i)
    | 14 => discard_tagged_block_body_from compressed ;; self (S i)
    | other => pass_packet other (self (S i))
    end.

Definition read_response_block_views (visitor : BlockView -> result error unit) : io R (result error unit) :=
  deep STREAM_BITS (views_step visitor) (fun _ => throw ModelFuel) 0%nat.

Definition row_count_step (self : nat * Z -> io R (result error Z)) (st : nat * Z) : io R (result error Z) :=
  let '(i, rows) := st in
  if deadline <? now i then deadline_exceeded
  else
    let* packet_type := read_packet_type in
    match packet_type with
    | 1 =>
        let* n := discard_block_from compressed in
        let* rows := lift (ok_or (checked_add rows n) (Protocol (msg "row count overflow"))) in
        self (S i, rows)
    | 2 => let* e := reading read_exception_packet in ret (Err e)
    | 5 => ret (Ok rows)
    | 7 | 8 => discard_block_from compressed ;; self (S i, rows)
    | 10 => reading read_string ;; reading discard_block_body ;; self (S i, rows)
    | 14 => discard_tagged_block_body_from compressed ;; self (S i, rows)
    | other => pass_packet other (self (S i, rows))
    end.

Definition read_response_row_count : io R (result error Z) :=
  deep STREAM_BITS row_count_step (fun _ => throw ModelFuel) (0%nat, 0).

Definition structure_step (self : nat -> io R (result error unit)) (i : nat) : io R (result error unit) :=
  if deadline <? now i then throw (Protocol (msg "insert table-structure deadline exceeded"))
  else
    let* packet_type := reading read_varint in
    match packet_type with
    | 1 => read_block_from compressed ;; ret (Ok tt)
    | 2 => let* e := reading read_exception_packet in ret (Err e)
    | 3 => reading (skip_progress_packet rev) ;; self (S i)
    | 4 => self (S i)
    | 5 => throw (Protocol (msg "unexpected EndOfStream before insert data"))
    | 6 => reading (skip_profile_info_packet rev) ;; self (S i)
    | 7 | 8 => read_block_from compressed ;; self (S i)
    | 10 => reading read_string ;; reading read_block_body ;; self (S i)
    | 14 => read_tagged_block_body_from compressed ;; self (S i)
    | 12 => reading skip_part_uuids_packet ;; self (S i)
    | 11 => read_table_columns_from compressed ;; self (S i)
    | 17 => reading read_string ;; self (S i)
    | other =>
        let* handled := handle_coordinator_packet other chunked_send in
        if handled : bool then self (S i)
        else throw (Protocol (Msg "unknown packet type while starting insert: {other}" [AZ other]))
    end.

Definition wait_for_insert_table_structure_from_reader : io R (result error unit) :=
  deep STREAM_BITS structure_step (fun _ => throw ModelFuel) 0%nat.
End Loops.

(** ** What the server sends *)

(** A packet of a response: one of [Response]'s, or a request of the coordinator. *)
Inductive Packet :=
| PMessage (m : ServerMessage)
| PReadTask
| PAnnouncement (a : Announcement)
| PReadRequest (r : ReadRequest).

Definition code_of (p : Packet) : Z :=
  match p with
  | PMessage (SData _ _) => 1
  | PMessage (SException _ _) => 2
  | PMessage (SProgress _) => 3
  | PMessage SPong => 4
  | PMessage SEndOfStream => 5
  | PMessage (SProfileInfo _) => 6
  | PMessage (SBlock code _ _) => code
  | PMessage (STableColumns _ _) => 11
  | PMessage (SPartUUIDs _) => 12
  | PMessage (STimezoneUpdate _) => 17
  | PReadTask => 13
  | PAnnouncement _ => 15
  | PReadRequest _ => 16
  end.

(** The bytes behind the code.  Block bodies and TableColumns are compressed on a
    compressed connection, logs (code 10) never are. *)
Inductive payload `{Codecs} (compressed : bool) (rev : Z) : Packet -> bytes -> Prop :=
| p_data t b body :
    body_bytes compressed (write_block b) body -> payload compressed rev (PMessage (SData t b)) (write_string t ++ body)
| p_block code t b body :
    body_bytes (compressed && negb (code =? 10)) (write_block b) body ->
    payload compressed rev (PMessage (SBlock code t b)) (write_string t ++ body)
| p_columns t c body :
    body_bytes compressed (write_string t ++ write_string c) body ->
    payload compressed rev (PMessage (STableColumns t c)) body
| p_exception root nested : payload compressed rev (PMessage (SException root nested)) (write_chain root nested)
| p_progress p : payload compressed rev (PMessage (SProgress p)) (write_progress rev p)
| p_pong : payload compressed rev (PMessage SPong) []
| p_end : payload compressed rev (PMessage SEndOfStream) []
| p_profile p : payload compressed rev (PMessage (SProfileInfo p)) (write_profile_info rev p)
| p_uuids uuids : payload compressed rev (PMessage (SPartUUIDs uuids)) (write_varint (blen uuids / 16) ++ uuids)
| p_timezone tz : payload compressed rev (PMessage (STimezoneUpdate tz)) (write_string tz)
| p_task : payload compressed rev PReadTask []
| p_announcement a : payload compressed rev (PAnnouncement a) (write_announcement a)
| p_request r : payload compressed rev (PReadRequest r) (write_read_request r).

Definition sends `{Codecs} (compressed : bool) (rev : Z) (p : Packet) (w : bytes) : Prop :=
  exists body, payload compressed rev p body /\ w = write_varint (code_of p) ++ body.

Definition wf_packet (p : Packet) : Prop :=
  match p with
  | PMessage (SException root nested) =>
      Forall wf_entry (root :: nested) /\ blen (write_chain root nested) <= ISIZE_MAX
  | PMessage m => wf_message m
  | PReadTask => True
  | PAnnouncement a => wf_announcement a = true
  | PReadRequest r => wf_read_request r = true
  end.

(** What the client writes when it has read a packet. *)
Definition native_packet (chunked_send : bool) (pkt : bytes) : bytes :=
  if chunked_send then to_le 4 (blen pkt) ++ pkt ++ to_le 4 0 else pkt.

Definition answer (chunked_send : bool) (p : Packet) : bytes :=
  match p with
  | PReadTask => native_packet chunked_send build_empty_cluster_function_read_task_response
  | PReadRequest r => native_packet chunked_send (build_finished_merge_tree_read_task_response (rq_stream_id r))
  | _ => []
  end.

(** Packets that have no part in a result. *)
Definition passed (p : Packet) : bool :=
  match p with PMessage (SData _ _) | PMessage (SException _ _) | PMessage SEndOfStream => false | _ => true end.

(** One response and what it means to a client with [budget] that holds [blocks]. *)
Inductive response : ResponseBudget -> list Block -> list Packet -> result error (list Block) -> Prop :=
| r_end budget blocks : response budget blocks [PMessage SEndOfStream] (Ok blocks)
| r_exception budget blocks root nested :
    response budget blocks [PMessage (SException root nested)] (Err (chain_error root nested))
| r_breach budget blocks t b spent :
    charge budget (payload_bytes b) = (Err tt, spent) ->
    response budget blocks [PMessage (SData t b)] (Err (response_budget_exceeded spent))
| r_data budget blocks t b budget' ps res :
    charge budget (payload_bytes b) = (Ok tt, budget') -> response budget' (blocks ++ [b]) ps res ->
    response budget blocks (PMessage (SData t b) :: ps) res
| r_passed budget blocks p ps res :
    passed p = true -> response budget blocks ps res -> response budget blocks (p :: ps) res.

(** ** Reading one packet *)

Section Reads.
Context `{CodecLaws} {R : Type} `{DuplexLaws R}.
Context (now : nat -> Z) (deadline : Z) (rev : Z) (chunked_send compressed : bool).

Lemma performs_type code : u64 code -> performs (R := R) read_packet_type (write_varint code) [] code.
Proof.
  intros Hc r rest Hr Hw. destruct (performs_reading _ _ _ (reads_varint code (u64_value_intro _ Hc)) r rest Hr Hw) as (r' & E & Hrest).
  exists r'. unfold read_packet_type. rewrite E. auto.
Qed.

Lemma performs_native pkt : blen pkt <= U32_MAX ->
  performs (R := R) (write_native_packet pkt chunked_send) [] (native_packet chunked_send pkt) tt.
Proof.
  intros Hp. unfold write_native_packet, native_packet. destruct chunked_send; [|apply performs_writing].
  unfold write_chunked_packet, write_chunk_header. destruct (Z.leb_spec (blen pkt) U32_MAX); [|lia].
  apply (performs_bind (lift _) _ [] [] [] _ (to_le 4 (blen pkt) ++ pkt ++ to_le 4 0)); [now apply performs_lift|].
  apply performs_writing.
Qed.

Lemma finished_response_small stream_id :
  blen stream_id <= MAX_STRING_BYTES -> blen (build_finished_merge_tree_read_task_response stream_id) <= U32_MAX.
Proof.
  intros Hs. unfold build_finished_merge_tree_read_task_response, write_string. rewrite !blen_app, blen_to_le.
  change (7 <=? DBMS_PARALLEL_REPLICAS_PROTOCOL_VERSION) with true. cbv iota. rewrite blen_app.
  change (blen (write_varint 10)) with 1. change (blen (str "1")) with 1. change (blen (write_varint 0)) with 1.
  pose proof (blen_nonneg stream_id). unfold write_varint.
  rewrite <- varint_len_spec by (unfold U64_MAX, MAX_STRING_BYTES in *; lia).
  pose proof (varint_len_bound (blen stream_id) ltac:(unfold U64_MAX, MAX_STRING_BYTES in *; lia)).
  unfold U32_MAX, MAX_STRING_BYTES in *. lia.
Qed.

(** A skipped packet, then the rest. *)
Lemma performs_skip {A B} (m : io R A) (k : io R B) w1 w2 out a b :
  performs m w1 [] a -> performs k w2 out b -> performs (m ;; k) (w1 ++ w2) out b.
Proof. intros Hm Hk. exact (performs_then m (fun _ => k) w1 w2 out a b Hm Hk). Qed.

Lemma read_request_inv r : wf_read_request r = true -> blen (rq_stream_id r) <= MAX_STRING_BYTES.
Proof.
  unfold wf_read_request. intros Hwf. apply andb_prop in Hwf as [_ Hwf]. now apply wire_text_inv in Hwf as [_ ?].
Qed.

Definition coordinators (p : Packet) : bool :=
  match p with PMessage _ => false | _ => true end.

Lemma performs_coordinator p body :
  coordinators p = true -> wf_packet p -> payload compressed rev p body ->
  performs (R := R) (handle_coordinator_packet (code_of p) chunked_send) body (answer chunked_send p) true.
Proof.
  intros Hp Hwf Hbody. destruct Hbody; try discriminate Hp; cbn [code_of answer wf_packet] in *; unfold handle_coordinator_packet.
  - eapply performs_last; [apply performs_native; discriminate|apply performs_ret].
  - eapply performs_last; [now apply performs_reading, reads_announcement|apply performs_ret].
  - pose proof (read_request_inv _ Hwf) as Hlen. rewrite <- (app_nil_r (write_read_request r)).
    eapply performs_then; [now apply performs_reading, reads_read_request|].
    eapply performs_last; [now apply performs_native, finished_response_small|apply performs_ret].
Qed.

(** The arms the loops share. *)
Lemma performs_pass {A} p code body (k : io R A) w out a :
  code_of p = code -> passed p = true -> (forall code t b, p <> PMessage (SBlock code t b)) -> wf_packet p -> payload compressed rev p body ->
  performs k w out a ->
  performs (pass_packet rev chunked_send compressed code k) (body ++ w) (answer chunked_send p ++ out) a.
Proof.
  intros <- Hpass Hblock Hwf Hbody Hk. destruct Hbody; try discriminate Hpass; cbn [code_of answer app wf_packet wf_message] in *;
    unfold pass_packet.
  - edestruct Hblock. reflexivity.
  - destruct Hwf as [Ht Hc]. eapply performs_skip; [|exact Hk]. eapply performs_body; [|eassumption].
    eapply reads_bind; [now apply reads_string|]. now apply reads_field with (a := c), reads_string.
  - eapply performs_skip; [|exact Hk]. now apply performs_reading, reads_progress.
  - exact Hk.
  - eapply performs_skip; [|exact Hk]. now apply performs_reading, reads_profile_info.
  - destruct Hwf as [Hm Hl]. eapply performs_skip; [|exact Hk]. apply performs_reading, reads_part_uuids; [exact Hm|].
    unfold MAX_PART_UUIDS, ISIZE_MAX in *. lia.
  - eapply performs_skip; [|exact Hk]. now apply performs_reading with (a := tz), reads_string.
  - apply (performs_bind _ _ [] w _ out true a); [apply (performs_coordinator PReadTask []); [reflexivity|exact Hwf|constructor]|exact Hk].
  - apply (performs_bind _ _ (write_announcement a0) w [] out true a); [apply (performs_coordinator (PAnnouncement a0)); [reflexivity|exact Hwf|constructor]|exact Hk].
  - apply (performs_bind _ _ (write_read_request r) w _ out true a); [apply (performs_coordinator (PReadRequest r)); [reflexivity|exact Hwf|constructor]|exact Hk].
Qed.

(** *** Block packets *)

Lemma performs_text t : wire_text t = true -> performs (R := R) (reading read_string) (write_string t) [] t.
Proof. intros Ht. now apply performs_reading, reads_string. Qed.

Lemma reads_block_body b : wf_block b = true -> reads read_block_body (write_block b) b.
Proof. intros Hb rest. now apply read_block_written. Qed.

Lemma performs_tagged t b body :
  wire_text t = true -> wf_block b = true -> body_bytes compressed (write_block b) body ->
  performs (R := R) (read_tagged_block_body_from compressed) (write_string t ++ body) [] tt.
Proof.
  intros Ht Hb Hbody. eapply performs_then; [now apply performs_text|].
  eapply performs_last; [apply body_of_block; eassumption|apply performs_ret].
Qed.

Lemma plain_body_bytes data body : body_bytes false data body -> body = data.
Proof. now inversion 1. Qed.

Lemma block_code code t b : wf_packet (PMessage (SBlock code t b)) -> u64 code.
Proof. intros (Hc & _). cbn in Hc. unfold u64, U64_MAX. lia. Qed.

Lemma packet_code p : wf_packet p -> u64 (code_of p).
Proof.
  destruct p as [m| | |]; [destruct m| | |]; cbn [code_of]; intros Hwf; try (unfold u64, U64_MAX; lia).
  exact (block_code _ _ _ Hwf).
Qed.

(** The packet type of a packet, within the deadline. *)
Lemma performs_round {A} (i : nat) (arm : Z -> io R A) p body w out a (late : io R A) :
  now i <= deadline -> wf_packet p -> (forall code, code_of p = code -> performs (arm code) (body ++ w) out a) ->
  performs (if deadline <? now i then late else let* t := read_packet_type in arm t)
    ((write_varint (code_of p) ++ body) ++ w) out a.
Proof.
  intros Hi Hwf Harm. destruct (Z.ltb_spec deadline (now i)); [lia|]. rewrite <- app_assoc.
  exact (performs_then read_packet_type arm _ _ _ _ _ (performs_type _ (packet_code p Hwf)) (Harm _ eq_refl)).
Qed.

Definition is_block (p : Packet) : bool := match p with PMessage (SBlock _ _ _) => true | _ => false end.

Lemma not_block p : is_block p = false -> forall code t b, p <> PMessage (SBlock code t b).
Proof. intros Hp code t b ->. discriminate. Qed.

(** A passed packet in the loop that keeps the blocks. *)
Lemma blocks_passed f i blocks budget p body w out res :
  now i <= deadline -> passed p = true -> wf_packet p -> payload compressed rev p body ->
  performs (f (S i, blocks, budget)) w out res ->
  performs (blocks_step (R := R) now deadline rev chunked_send compressed f (i, blocks, budget))
    ((write_varint (code_of p) ++ body) ++ w) (answer chunked_send p ++ out) res.
Proof.
  intros Hi Hpass Hwf Hbody Hk. unfold blocks_step. apply performs_round; [exact Hi|exact Hwf|]. intros c Hc.
  destruct (is_block p) eqn:Hb.
  - destruct Hbody; try discriminate Hb. cbn [code_of] in Hc. subst c. cbn [answer app] in *. destruct Hwf as (Hcode & Ht & Hwf). rewrite <- app_assoc.
    destruct Hcode as [<-|[<-|[<-|[<-|[]]]]]; cbn [Z.eqb Pos.eqb negb] in *; rewrite ?andb_true_r, ?andb_false_r in *.
    1, 2: rewrite app_assoc; eapply performs_skip; [apply performs_block_from; eassumption|exact Hk].
    + eapply performs_skip; [now apply performs_text|]. eapply performs_skip; [|exact Hk].
      rewrite (plain_body_bytes _ _ H5). apply performs_reading, reads_block_body. assumption.
    + rewrite app_assoc. eapply performs_skip; [eapply performs_tagged; eassumption|exact Hk].
  - pose proof (performs_pass p c body (f (S i, blocks, budget)) w out res Hc Hpass (not_block p Hb) Hwf Hbody Hk) as Hperf.
    destruct Hbody; try discriminate Hpass; try discriminate Hb; cbn [code_of] in Hc; subst c; exact Hperf.
Qed.
End Reads.

(** ** The loop that keeps the blocks *)

Section Blocks.
Context `{CodecLaws} {R : Type} `{DuplexLaws R}.
Context (now : nat -> Z) (deadline : Z) (rev : Z) (chunked_send compressed : bool).
Context (in_time : forall i, now i <= deadline).

(** What a loop has to do with the packets of one response. *)
Definition reads_responses (k : Z) (f : nat * list Block * ResponseBudget -> io R (result error (list Block))) : Prop :=
  forall budget blocks ps res, response budget blocks ps res -> forall i ws,
  Forall wf_packet ps -> Forall2 (sends compressed rev) ps ws -> Z.of_nat (length ps) <= k ->
  performs (f (i, blocks, budget)) (concat ws) (concat (map (answer chunked_send) ps)) res.

(** A packet in the loop: its type, then its arm. *)
Lemma blocks_round f i blocks budget p body w out res :
  wf_packet p ->
  (forall code, code_of p = code ->
   performs (match code with
     | 1 =>
         let* block := read_block_from compressed in
         match charge budget (payload_bytes block) with
         | (Err _, budget) => ret (Err (response_budget_exceeded budget))
         | (Ok _, budget) => f (S i, blocks ++ [block], budget)
         end
     | 2 => let* e := reading read_exception_packet in ret (Err e)
     | 5 => ret (Ok blocks)
     | _ => throw ModelPanic
     end) (body ++ w) out res) ->
  passed p = false ->
  performs (blocks_step (R := R) now deadline rev chunked_send compressed f (i, blocks, budget))
    ((write_varint (code_of p) ++ body) ++ w) out res.
Proof.
  intros Hwf Harm Hpass. unfold blocks_step. apply performs_round; [apply in_time|exact Hwf|]. intros c Hc.
  specialize (Harm c Hc). destruct p as [m| | |]; [destruct m| | |]; try discriminate Hpass; cbn [code_of] in Hc; subst c; exact Harm.
Qed.

Lemma blocks_step_reads k f :
  reads_responses k f -> reads_responses (k + 1) (blocks_step (R := R) now deadline rev chunked_send compressed f).
Proof.
  intros Hf budget blocks ps res Hres i ws Hwf Hs Hk.
  destruct Hres as [budget blocks|budget blocks root nested|budget blocks t b spent Hc|budget blocks t b budget' ps res Hc Hres|
                    budget blocks p ps res Hp Hres];
    inversion Hwf as [|? ? Hwf1 Hwf2]; subst; inversion Hs as [|? w0 ? ws0 (body & Hbody & ->) Hs2]; subst; cbn [concat map] in *.
  1-3: inversion Hs2; subst; cbn [concat map]; rewrite ?app_nil_r; rewrite <- (app_nil_r (write_varint _ ++ body));
       apply blocks_round; [exact Hwf1| |reflexivity]; intros c Hcode; cbn [code_of] in Hcode; subst c; rewrite app_nil_r;
       inversion Hbody; subst.
  - apply performs_ret.
  - destruct Hwf1 as [He Hl]. eapply performs_last; [now apply performs_reading, reads_exception_packet|apply performs_ret].
  - destruct Hwf1 as [Ht Hb]. eapply performs_last; [apply performs_block_from; eassumption|]. rewrite Hc. apply performs_ret.
  - apply blocks_round; [exact Hwf1| |reflexivity]. intros c Hcode; cbn [code_of] in Hcode; subst c. cbn [answer app].
    inversion Hbody; subst. destruct Hwf1 as [Ht Hb].
    eapply performs_then; [apply performs_block_from; eassumption|]. rewrite Hc. apply (Hf _ _ _ _ Hres); auto.
    cbn [length] in Hk. lia.
  - apply blocks_passed; auto. apply (Hf _ _ _ _ Hres); auto. cbn [length] in Hk. lia.
Qed.

Lemma response_blocks_performs budget ps ws res :
  response budget [] ps res -> Forall wf_packet ps -> Forall2 (sends compressed rev) ps ws ->
  Z.of_nat (length ps) <= 2 ^ 63 ->
  performs (R := R) (read_response_blocks now deadline rev chunked_send compressed [] budget) (concat ws)
    (concat (map (answer chunked_send) ps)) res.
Proof.
  intros Hres Hwf Hs Hlen. unfold read_response_blocks.
  pose proof (deep_ind (blocks_step (R := R) now deadline rev chunked_send compressed) reads_responses
    blocks_step_reads STREAM_BITS 0 (fun _ => throw ModelFuel)) as Hdeep.
  apply (Hdeep ltac:(intros ? ? ? ? Hr ? ? _ _ Hl; destruct Hr; cbn [length] in Hl; lia) _ _ _ _ Hres); auto.
Qed.
End Blocks.

(** ** The loop that counts rows *)

(** A block whose columns can be dropped unread. *)
Definition discardable_block (b : Block) : Prop :=
  Forall (fun col => discardable_name (type_name col) = true) (columns b) /\ blen (write_block b) <= ISIZE_MAX.

Definition discardable_packet (p : Packet) : Prop :=
  match p with PMessage (SData _ b) | PMessage (SBlock _ _ b) => discardable_block b | _ => True end.

(** One response and the rows it adds to [n]. *)
Inductive counted : Z -> list Packet -> result error Z -> Prop :=
| c_end n : counted n [PMessage SEndOfStream] (Ok n)
| c_exception n root nested : counted n [PMessage (SException root nested)] (Err (chain_error root nested))
| c_data n t b n' ps res :
    checked_add n (BlockReader.rows b) = Some n' -> counted n' ps res -> counted n (PMessage (SData t b) :: ps) res
| c_passed n p ps res : passed p = true -> counted n ps res -> counted n (p :: ps) res.

Lemma reads_discard_block b :
  wf_block b = true -> discardable_block b -> reads discard_block_body (write_block b) (BlockReader.rows b).
Proof.
  intros Hwf [Hd Hlen] rest. pose proof (blen_nonneg (write_block b)).
  pose proof (discard_matches (write_block b) 0 b [] ltac:(lia) Hlen) as Hm. rewrite drop_0 in Hm.
  pose proof (read_block_written b [] Hwf) as Hr. rewrite app_nil_r in Hr.
  pose proof (run_app discard_block_body (write_block b) (BlockReader.rows b) [] rest (Hm Hr Hd)) as Ha. exact Ha.
Qed.

Section Counts.
Context `{CodecLaws} {R : Type} `{DuplexLaws R}.
Context (now : nat -> Z) (deadline : Z) (rev : Z) (chunked_send compressed : bool).
Context (in_time : forall i, now i <= deadline).

Lemma performs_discard_body b body :
  wf_block b = true -> discardable_block b -> body_bytes compressed (write_block b) body ->
  performs (R := R) (body_reader compressed discard_block_body) body [] (BlockReader.rows b).
Proof. intros Hb Hd Hbody. eapply performs_body; [now apply reads_discard_block|exact Hbody]. Qed.

Lemma performs_discard_from t b body :
  wire_text t = true -> wf_block b = true -> discardable_block b -> body_bytes compressed (write_block b) body ->
  performs (R := R) (discard_block_from compressed) (write_string t ++ body) [] (BlockReader.rows b).
Proof. intros Ht Hb Hd Hbody. eapply performs_then; [now apply performs_text|now apply performs_discard_body]. Qed.

Lemma performs_discard_tagged t b body :
  wire_text t = true -> wf_block b = true -> discardable_block b -> body_bytes compressed (write_block b) body ->
  performs (R := R) (discard_tagged_block_body_from compressed) (write_string t ++ body) [] tt.
Proof.
  intros Ht Hb Hd Hbody. eapply performs_then; [now apply performs_text|].
  eapply performs_last; [eapply performs_discard_body; eassumption|apply performs_ret].
Qed.

(** The block packets that are dropped, in any of the loops. *)
Definition drop_block {A} (code : Z) (k : io R A) : io R A :=
  match code with
  | 7 | 8 => discard_block_from compressed ;; k
  | 10 => reading read_string ;; reading discard_block_body ;; k
  | _ => discard_tagged_block_body_from compressed ;; k
  end.

Lemma performs_drop_block {A} code t b body (k : io R A) w out a :
  wf_packet (PMessage (SBlock code t b)) -> discardable_block b ->
  payload compressed rev (PMessage (SBlock code t b)) body -> performs k w out a ->
  performs (drop_block code k) (body ++ w) out a.
Proof.
  intros (Hcode & Ht & Hwf) Hd Hbody Hk. inversion Hbody as [|? ? ? body' Hb| | | | | | | | | | |]; subst. rewrite <- app_assoc.
  destruct Hcode as [<-|[<-|[<-|[<-|[]]]]]; cbn [Z.eqb Pos.eqb negb] in Hb; rewrite ?andb_true_r, ?andb_false_r in Hb.
  1, 2: rewrite app_assoc; eapply performs_skip; [eapply performs_discard_from; eassumption|exact Hk].
  - eapply performs_skip; [now apply performs_text|]. eapply performs_skip; [|exact Hk].
    rewrite (plain_body_bytes _ _ Hb). apply performs_reading, reads_discard_block; assumption.
  - rewrite app_assoc. eapply performs_skip; [eapply performs_discard_tagged; eassumption|exact Hk].
Qed.

Lemma counts_passed f i n p body w out res :
  passed p = true -> wf_packet p -> discardable_packet p -> payload compressed rev p body ->
  performs (f (S i, n)) w out res ->
  performs (row_count_step (R := R) now deadline rev chunked_send compressed f (i, n))
    ((write_varint (code_of p) ++ body) ++ w) (answer chunked_send p ++ out) res.
Proof.
  intros Hpass Hwf Hd Hbody Hk. unfold row_count_step. apply performs_round; [apply in_time|exact Hwf|]. intros c Hc.
  destruct (is_block p) eqn:Hb.
  - destruct p as [m| | |]; try discriminate Hb. destruct m; try discriminate Hb. cbn [code_of] in Hc. subst c.
    pose proof (performs_drop_block code table b body (f (S i, n)) w out res Hwf Hd Hbody Hk) as Hperf.
    destruct Hwf as (Hcode & _). destruct Hcode as [<-|[<-|[<-|[<-|[]]]]]; exact Hperf.
  - pose proof (performs_pass rev chunked_send compressed p c body (f (S i, n)) w out res Hc Hpass (not_block p Hb) Hwf Hbody Hk) as Hperf.
    destruct Hbody; try discriminate Hpass; try discriminate Hb; cbn [code_of] in Hc; subst c; exact Hperf.
Qed.

Definition counts_responses (k : Z) (f : nat * Z -> io R (result error Z)) : Prop :=
  forall n ps res, counted n ps res -> forall i ws,
  Forall wf_packet ps -> Forall discardable_packet ps -> Forall2 (sends compressed rev) ps ws ->
  Z.of_nat (length ps) <= k ->
  performs (f (i, n)) (concat ws) (concat (map (answer chunked_send) ps)) res.

Lemma counts_step_reads k f :
  counts_responses k f -> counts_responses (k + 1) (row_count_step (R := R) now deadline rev chunked_send compressed f).
Proof.
  intros Hf n ps res Hres i ws Hwf Hd Hs Hk.
  destruct Hres as [n|n root nested|n t b n' ps res Hc Hres|n p ps res Hp Hres];
    inversion Hwf as [|? ? Hwf1 Hwf2]; subst; inversion Hd as [|? ? Hd1 Hd2]; subst;
    inversion Hs as [|? w0 ? ws0 (body & Hbody & ->) Hs2]; subst; cbn [concat map] in *.
  1, 2: inversion Hs2; subst; cbn [concat map]; rewrite ?app_nil_r; rewrite <- (app_nil_r (write_varint _ ++ body));
       unfold row_count_step; apply performs_round; [apply in_time|exact Hwf1|]; intros c Hcode; cbn [code_of] in Hcode;
       subst c; rewrite app_nil_r; inversion Hbody; subst.
  - apply performs_ret.
  - destruct Hwf1 as [He Hl]. eapply performs_last; [now apply performs_reading, reads_exception_packet|apply performs_ret].
  - unfold row_count_step; apply performs_round; [apply in_time|exact Hwf1|]. intros c Hcode; cbn [code_of] in Hcode; subst c.
    inversion Hbody; subst. destruct Hwf1 as [Ht Hb]. cbn [answer app].
    eapply performs_then; [apply performs_discard_from; eassumption|]. rewrite Hc.
    apply (Hf _ _ _ Hres); auto. cbn [length] in Hk. lia.
  - apply counts_passed; auto. apply (Hf _ _ _ Hres); auto. cbn [length] in Hk. lia.
Qed.

Lemma response_count_performs ps ws res :
  counted 0 ps res -> Forall wf_packet ps -> Forall discardable_packet ps -> Forall2 (sends compressed rev) ps ws ->
  Z.of_nat (length ps) <= 2 ^ 63 ->
  performs (R := R) (read_response_row_count now deadline rev chunked_send compressed) (concat ws)
    (concat (map (answer chunked_send) ps)) res.
Proof.
  intros Hres Hwf Hd Hs Hlen. unfold read_response_row_count.
  pose proof (deep_ind (row_count_step (R := R) now deadline rev chunked_send compressed) counts_responses
    counts_step_reads STREAM_BITS 0 (fun _ => throw ModelFuel)) as Hdeep.
  apply (Hdeep ltac:(intros ? ? ? Hr ? ? _ _ _ Hl; destruct Hr; cbn [length] in Hl; lia) _ _ _ Hres); auto.
Qed.

(** ** The loop that shows each block to a visitor *)

(** One response and what becomes of a visitor that accepts its blocks. *)
Inductive viewed (visitor : BlockView -> result error unit) : list Packet -> result error unit -> Prop :=
| v_end : viewed visitor [PMessage SEndOfStream] (Ok tt)
| v_exception root nested : viewed visitor [PMessage (SException root nested)] (Err (chain_error root nested))
| v_data t b ps res :
    visitor (view_of b) = Ok tt -> viewed visitor ps res -> viewed visitor (PMessage (SData t b) :: ps) res
| v_passed p ps res : passed p = true -> viewed visitor ps res -> viewed visitor (p :: ps) res.

Lemma reads_block_view visitor b :
  wf_block b = true -> visitor (view_of b) = Ok tt -> reads (read_block_body_view visitor) (write_block b) tt.
Proof.
  intros Hb Hv rest. pose proof (read_block_written b rest Hb) as Hr. rewrite read_block_body_unfold in Hr.
  rewrite read_block_body_view_unfold, run_bind. rewrite run_bind in Hr.
  destruct (run read_block_counts (write_block b ++ rest)) as [[cr l]|]; [|discriminate].
  rewrite run_view_block_columns, run_bind, Hr, run_lift, Hv. reflexivity.
Qed.

Lemma performs_view visitor t b body :
  wire_text t = true -> wf_block b = true -> visitor (view_of b) = Ok tt -> body_bytes compressed (write_block b) body ->
  performs (R := R)
    (if compressed then reading read_string ;; inflated (read_block_body_view visitor) else reading (read_block_view visitor))
    (write_string t ++ body) [] tt.
Proof.
  intros Ht Hb Hv Hbody. destruct compressed.
  - eapply performs_then; [now apply performs_text|].
    eapply performs_inflated; [apply reads_block_view; eassumption|exact Hbody].
  - rewrite (plain_body_bytes _ _ Hbody). apply performs_reading. unfold read_block_view.
    eapply reads_bind; [now apply reads_string|now apply reads_block_view].
Qed.

Lemma views_passed visitor f i p body w out res :
  passed p = true -> wf_packet p -> discardable_packet p -> payload compressed rev p body ->
  performs (f (S i)) w out res ->
  performs (views_step (R := R) now deadline rev chunked_send compressed visitor f i)
    ((write_varint (code_of p) ++ body) ++ w) (answer chunked_send p ++ out) res.
Proof.
  intros Hpass Hwf Hd Hbody Hk. unfold views_step. apply performs_round; [apply in_time|exact Hwf|]. intros c Hc.
  destruct (is_block p) eqn:Hb.
  - destruct p as [m| | |]; try discriminate Hb. destruct m; try discriminate Hb. cbn [code_of] in Hc. subst c.
    pose proof (performs_drop_block code table b body (f (S i)) w out res Hwf Hd Hbody Hk) as Hperf.
    destruct Hwf as (Hcode & _). destruct Hcode as [<-|[<-|[<-|[<-|[]]]]]; exact Hperf.
  - pose proof (performs_pass rev chunked_send compressed p c body (f (S i)) w out res Hc Hpass (not_block p Hb) Hwf Hbody Hk) as Hperf.
    destruct Hbody; try discriminate Hpass; try discriminate Hb; cbn [code_of] in Hc; subst c; exact Hperf.
Qed.

Definition views_responses visitor (k : Z) (f : nat -> io R (result error unit)) : Prop :=
  forall ps res, viewed visitor ps res -> forall i ws,
  Forall wf_packet ps -> Forall discardable_packet ps -> Forall2 (sends compressed rev) ps ws ->
  Z.of_nat (length ps) <= k ->
  performs (f i) (concat ws) (concat (map (answer chunked_send) ps)) res.

Lemma views_step_reads visitor k f :
  views_responses visitor k f ->
  views_responses visitor (k + 1) (views_step (R := R) now deadline rev chunked_send compressed visitor f).
Proof.
  intros Hf ps res Hres i ws Hwf Hd Hs Hk.
  destruct Hres as [|root nested|t b ps res Hc Hres|p ps res Hp Hres];
    inversion Hwf as [|? ? Hwf1 Hwf2]; subst; inversion Hd as [|? ? Hd1 Hd2]; subst;
    inversion Hs as [|? w0 ? ws0 (body & Hbody & ->) Hs2]; subst; cbn [concat map] in *.
  1, 2: inversion Hs2; subst; cbn [concat map]; rewrite ?app_nil_r; rewrite <- (app_nil_r (write_varint _ ++ body));
       unfold views_step; apply performs_round; [apply in_time|exact Hwf1|]; intros c Hcode; cbn [code_of] in Hcode;
       subst c; rewrite app_nil_r; inversion Hbody; subst.
  - apply performs_ret.
  - destruct Hwf1 as [He Hl]. eapply performs_last; [now apply performs_reading, reads_exception_packet|apply performs_ret].
  - unfold views_step; apply performs_round; [apply in_time|exact Hwf1|]. intros c Hcode; cbn [code_of] in Hcode; subst c.
    inversion Hbody; subst. destruct Hwf1 as [Ht Hb]. cbn [answer app].
    eapply performs_skip; [eapply performs_view; eassumption|].
    apply (Hf _ _ Hres); auto. cbn [length] in Hk. lia.
  - apply views_passed; auto. apply (Hf _ _ Hres); auto. cbn [length] in Hk. lia.
Qed.

Lemma response_views_performs visitor ps ws res :
  viewed visitor ps res -> Forall wf_packet ps -> Forall discardable_packet ps -> Forall2 (sends compressed rev) ps ws ->
  Z.of_nat (length ps) <= 2 ^ 63 ->
  performs (R := R) (read_response_block_views now deadline rev chunked_send compressed visitor) (concat ws)
    (concat (map (answer chunked_send) ps)) res.
Proof.
  intros Hres Hwf Hd Hs Hlen. unfold read_response_block_views.
  pose proof (deep_ind (views_step (R := R) now deadline rev chunked_send compressed visitor) (views_responses visitor)
    (views_step_reads visitor) STREAM_BITS 0 (fun _ => throw ModelFuel)) as Hdeep.
  apply (Hdeep ltac:(intros ? ? Hr ? ? _ _ _ Hl; destruct Hr; cbn [length] in Hl; lia) _ _ Hres); auto.
Qed.
End Counts.

(** ** The loop that waits for the structure of a table *)

(** The packets up to the block that starts an insert, or to the server's refusal. *)
Inductive structure : list Packet -> result error unit -> Prop :=
| s_block t b : structure [PMessage (SData t b)] (Ok tt)
| s_exception root nested : structure [PMessage (SException root nested)] (Err (chain_error root nested))
| s_passed p ps res : passed p = true -> structure ps res -> structure (p :: ps) res.

Section Structure.
Context `{CodecLaws} {R : Type} `{DuplexLaws R}.
Context (now : nat -> Z) (deadline : Z) (rev : Z) (chunked_send compressed : bool).
Context (in_time : forall i, now i <= deadline).

Lemma performs_insert_round {A} (i : nat) (arm : Z -> io R A) p body w out a (late : io R A) :
  wf_packet p -> (forall code, code_of p = code -> performs (arm code) (body ++ w) out a) ->
  performs (if deadline <? now i then late else let* t := reading read_varint in arm t)
    ((write_varint (code_of p) ++ body) ++ w) out a.
Proof.
  intros Hwf Harm. pose proof (in_time i). destruct (Z.ltb_spec deadline (now i)); [lia|]. rewrite <- app_assoc.
  eapply (performs_then (reading read_varint) arm); [|exact (Harm _ eq_refl)].
  now apply performs_reading, reads_varint, u64_value_intro, packet_code.
Qed.

Lemma structure_passed f i p body w out res :
  passed p = true -> wf_packet p -> payload compressed rev p body -> performs (f (S i)) w out res ->
  performs (structure_step (R := R) now deadline rev chunked_send compressed f i)
    ((write_varint (code_of p) ++ body) ++ w) (answer chunked_send p ++ out) res.
Proof.
  intros Hpass Hwf Hbody Hk. unfold structure_step. apply performs_insert_round; [exact Hwf|]. intros c Hc.
  destruct (coordinators p) eqn:Hco.
  { pose proof (performs_coordinator rev chunked_send compressed p body Hco Hwf Hbody) as Hperf.
    destruct Hbody; try discriminate Hco; cbn [code_of] in Hc, Hperf; subst c;
      exact (performs_bind _ (fun handled : bool => if handled then f (S i) else _) _ w _ out true res Hperf Hk). }
  destruct Hbody; try discriminate Hpass; try discriminate Hco; cbn [code_of] in Hc; subst c; cbn [answer app].
  - destruct Hwf as (Hcode & Ht & Hwf). rewrite <- app_assoc.
    destruct Hcode as [<-|[<-|[<-|[<-|[]]]]]; cbn [Z.eqb Pos.eqb negb] in *; rewrite ?andb_true_r, ?andb_false_r in *.
    1, 2: rewrite app_assoc; eapply performs_skip; [apply performs_block_from; eassumption|exact Hk].
    + eapply performs_skip; [now apply performs_text|]. eapply performs_skip; [|exact Hk].
      rewrite (plain_body_bytes _ _ H5). apply performs_reading, reads_block_body. assumption.
    + rewrite app_assoc. eapply performs_skip; [eapply performs_tagged; eassumption|exact Hk].
  - destruct Hwf as [Ht Hcol]. eapply performs_skip; [|exact Hk]. eapply performs_body; [|eassumption].
    eapply reads_bind; [now apply reads_string|]. now apply reads_field with (a := c0), reads_string.
  - eapply performs_skip; [|exact Hk]. rewrite <- progress_const. now apply performs_reading, reads_progress.
  - exact Hk.
  - eapply performs_skip; [|exact Hk]. rewrite <- profile_const. now apply performs_reading, reads_profile_info.
  - destruct Hwf as [Hm Hl]. eapply performs_skip; [|exact Hk]. apply performs_reading, reads_part_uuids; [exact Hm|].
    unfold MAX_PART_UUIDS, ISIZE_MAX in *. lia.
  - eapply performs_skip; [|exact Hk]. now apply performs_reading with (a := tz), reads_string.
Qed.

Definition waits (k : Z) (f : nat -> io R (result error unit)) : Prop :=
  forall ps res, structure ps res -> forall i ws,
  Forall wf_packet ps -> Forall2 (sends compressed rev) ps ws -> Z.of_nat (length ps) <= k ->
  performs (f i) (concat ws) (concat (map (answer chunked_send) ps)) res.

Lemma structure_step_waits k f :
  waits k f -> waits (k + 1) (structure_step (R := R) now deadline rev chunked_send compressed f).
Proof.
  intros Hf ps res Hres i ws Hwf Hs Hk.
  destruct Hres as [t b|root nested|p ps res Hp Hres];
    inversion Hwf as [|? ? Hwf1 Hwf2]; subst; inversion Hs as [|? w0 ? ws0 (body & Hbody & ->) Hs2]; subst; cbn [concat map] in *.
  1, 2: inversion Hs2; subst; cbn [concat map]; rewrite ?app_nil_r; rewrite <- (app_nil_r (write_varint _ ++ body));
       unfold structure_step; apply performs_insert_round; [exact Hwf1|]; intros c Hcode; cbn [code_of] in Hcode;
       subst c; rewrite app_nil_r; inversion Hbody; subst.
  - destruct Hwf1 as [Ht Hb]. eapply performs_last; [apply performs_block_from; eassumption|apply performs_ret].
  - destruct Hwf1 as [He Hl]. eapply performs_last; [now apply performs_reading, reads_exception_packet|apply performs_ret].
  - apply structure_passed; auto. apply (Hf _ _ Hres); auto. cbn [length] in Hk. lia.
Qed.

Lemma structure_performs ps ws res :
  structure ps res -> Forall wf_packet ps -> Forall2 (sends compressed rev) ps ws -> Z.of_nat (length ps) <= 2 ^ 63 ->
  performs (R := R) (wait_for_insert_table_structure_from_reader now deadline rev chunked_send compressed) (concat ws)
    (concat (map (answer chunked_send) ps)) res.
Proof.
  intros Hres Hwf Hs Hlen. unfold wait_for_insert_table_structure_from_reader.
  pose proof (deep_ind (structure_step (R := R) now deadline rev chunked_send compressed) waits
    structure_step_waits STREAM_BITS 0 (fun _ => throw ModelFuel)) as Hdeep.
  apply (Hdeep ltac:(intros ? ? Hr ? ? _ _ Hl; destruct Hr; cbn [length] in Hl; lia) _ _ Hres); auto.
Qed.
End Structure.

(** ** The loops agree *)

(** The blocks of a successful response, their rows and their visitors. *)
Lemma response_blocks_counted budget blocks ps all :
  response budget blocks ps (Ok all) -> exists more, all = blocks ++ more /\
    (forall n total, fold_left total_row_count_step more (Ok n) = Ok total -> counted n ps (Ok total)) /\
    (forall visitor, Forall (fun b => visitor (view_of b) = Ok tt) more -> viewed visitor ps (Ok tt)).
Proof.
  intros Hres. remember (Ok all) as res eqn:Eres. revert all Eres.
  induction Hres as [budget blocks| | |budget blocks t b budget' ps res Hc Hres IH|budget blocks p ps res Hp Hres IH]; intros all Eres;
    try discriminate Eres.
  - apply Ok_inj in Eres. subst all. exists []. rewrite app_nil_r. conj; [reflexivity| |constructor].
    cbn [fold_left]. intros n total E. apply Ok_inj in E. subst. constructor.
  - destruct (IH all Eres) as (more & -> & Hcount & Hview). exists (b :: more). rewrite <- app_assoc. conj; [reflexivity| |].
    + cbn [fold_left]. intros n total E. unfold total_row_count_step at 2 in E. cbn [bind result_monad] in E.
      destruct (checked_add n (BlockReader.rows b)) as [n'|] eqn:Ec; [eapply c_data; eauto|].
      exfalso. clear - E. induction more as [|b' more IHm]; [discriminate|]. exact (IHm E).
    + intros visitor Hv. inversion Hv; subst. eapply v_data; eauto.
  - destruct (IH all Eres) as (more & -> & Hcount & Hview). exists more. conj; [reflexivity| |].
    + intros n total E. apply c_passed; auto.
    + intros visitor Hv. apply v_passed; auto.
Qed.

(** ** The theorems *)

Section Responses.
Context `{CodecLaws} {R : Type} `{DuplexLaws R}.

(** C6: one response is read as one response.  For every sequence of well-formed packets that
    ends a response, at every revision, on a plain or a compressed connection (each body in
    any number of frames), as long as the deadline is not reached, [read_response_blocks]
    returns what they mean -- the data blocks in order, the server's exception, or the breach
    of the size budget -- answers the coordinator's requests on the way, and takes exactly
    the packets up to that point, so that whatever follows is read from its first byte.  The
    columns of the blocks are of types stored as they are sent (no LowCardinality, JSON or
    Dynamic). *)
Theorem response_read_exactly (r : R) (now : nat -> Z) (deadline rev : Z) (chunked_send compressed : bool)
    (budget : ResponseBudget) (ps : list Packet) (ws : list bytes) (res : result error (list Block)) (rest : bytes) :
  (forall i, now i <= deadline) -> response budget [] ps res ->
  Forall wf_packet ps -> Forall2 (sends compressed rev) ps ws -> Z.of_nat (length ps) <= 2 ^ 63 ->
  sound r -> content r = concat ws ++ rest ->
  exists r', read_response_blocks now deadline rev chunked_send compressed [] budget r = Ok (res, r') /\
    content r' = rest /\ sent r' = sent r ++ concat (map (answer chunked_send) ps).
Proof.
  intros Ht Hres Hwf Hs Hlen Hr Hc.
  destruct (response_blocks_performs now deadline rev chunked_send compressed Ht budget ps ws res Hres Hwf Hs Hlen r rest Hr Hc)
    as (r' & E & _ & Hc' & _ & Hs'). exists r'. auto.
Qed.

(** C27: the three ways to read a response agree.  On the same bytes of a response that ends
    in EndOfStream and whose blocks are of types that the discarding reader supports (no
    Nothing, Variant or Dynamic, nor LowCardinality and JSON), counting the rows gives the
    total of the blocks that reading returns, a visitor that accepts each of these blocks is
    run to the end, and all three leave the stream at the same byte. *)
Theorem response_loops_agree (r : R) (now : nat -> Z) (deadline rev : Z) (chunked_send compressed : bool)
    (budget : ResponseBudget) (ps : list Packet) (ws : list bytes) (blocks : list Block) (total : Z) (rest : bytes) :
  (forall i, now i <= deadline) -> response budget [] ps (Ok blocks) -> total_row_count blocks = Ok total ->
  Forall wf_packet ps -> Forall discardable_packet ps -> Forall2 (sends compressed rev) ps ws ->
  Z.of_nat (length ps) <= 2 ^ 63 -> sound r -> content r = concat ws ++ rest ->
  (exists r', read_response_blocks now deadline rev chunked_send compressed [] budget r = Ok (Ok blocks, r') /\
     content r' = rest) /\
  (exists r', read_response_row_count now deadline rev chunked_send compressed r = Ok (Ok total, r') /\ content r' = rest) /\
  (forall visitor, Forall (fun b => visitor (view_of b) = Ok tt) blocks ->
   exists r', read_response_block_views now deadline rev chunked_send compressed visitor r = Ok (Ok tt, r') /\
     content r' = rest).
Proof.
  intros Ht Hres Htotal Hwf Hd Hs Hlen Hr Hc.
  destruct (response_blocks_counted _ _ _ _ Hres) as (more & -> & Hcount & Hview). cbn [app] in *. conj.
  - destruct (response_blocks_performs now deadline rev chunked_send compressed Ht budget ps ws _ Hres Hwf Hs Hlen r rest Hr Hc)
      as (r' & E & _ & Hc' & _). exists r'. auto.
  - destruct (response_count_performs now deadline rev chunked_send compressed Ht ps ws _ (Hcount 0 total Htotal) Hwf Hd Hs Hlen r rest Hr Hc)
      as (r' & E & _ & Hc' & _). exists r'. auto.
  - intros visitor Hv.
    destruct (response_views_performs now deadline rev chunked_send compressed Ht visitor ps ws _ (Hview visitor Hv) Hwf Hd Hs Hlen r rest Hr Hc)
      as (r' & E & _ & Hc' & _). exists r'. auto.
Qed.
End Responses.

(** ** A compressed response with requests of the coordinator *)

#[local] Existing Instance sample_codecs.

Definition sample_request : ReadRequest := mkReadRequest 7 x00 1 8 [] (str "s1").

Definition sample_packets : list Packet :=
  [PMessage (SProgress (mkProgress 1 2 3 4 5 6 7)); PReadTask; PMessage (SData (str "t") written_sample);
   PReadRequest sample_request; PMessage (SBlock 14 [] written_sample); PMessage SEndOfStream].

Definition sample_sent : list bytes :=
  [write_varint 3 ++ write_progress 54483 (mkProgress 1 2 3 4 5 6 7); write_varint 13 ++ [];
   write_varint 1 ++ write_string (str "t") ++ concat sample_frames;
   write_varint 16 ++ write_read_request sample_request;
   write_varint 14 ++ write_string [] ++ concat sample_frames; write_varint 5 ++ []].

Lemma sample_packets_wf : Forall wf_packet sample_packets.
Proof.
  unfold sample_packets. repeat (apply Forall_cons; [|]); try apply Forall_nil; cbn [wf_packet wf_message]; auto.
  - unfold wf_progress, u64, U64_MAX. cbn. lia.
  - split; [cbn; auto|split; reflexivity].
Qed.

Lemma sample_packets_sent : Forall2 (sends true 54483) sample_packets sample_sent.
Proof.
  unfold sample_packets, sample_sent. repeat (apply Forall2_cons; [eexists; split; [|reflexivity]; constructor|]); try apply Forall2_nil;
    exact sample_body.
Qed.

Lemma sample_packets_response : response (new_budget 1000000) [] sample_packets (Ok [written_sample]).
Proof.
  unfold sample_packets. do 2 (apply r_passed; [reflexivity|]).
  eapply r_data; [vm_compute; reflexivity|]. do 2 (apply r_passed; [reflexivity|]). apply r_end.
Qed.

Definition sample_conn (next : bytes) : Wired socket :=
  mkWired (Socket (map (fun b => [b]) (concat sample_sent ++ next))) [].

Lemma sample_conn_sound next : (length next < 1000)%nat -> sound (sample_conn next) /\ content (sample_conn next) = concat sample_sent ++ next.
Proof.
  intros Hn. assert (content (sample_conn next) = concat sample_sent ++ next) as Hc.
  { unfold sample_conn. generalize (concat sample_sent ++ next) as l. induction l as [|b l IH]; [reflexivity|].
    cbn in *. now rewrite IH. }
  split; [|exact Hc]. split.
  - apply Forall_forall. intros seg Hin. apply in_map_iff in Hin as (b & <- & _). discriminate.
  - rewrite Hc, blen_app. assert (blen (concat sample_sent) <= 10000) by (vm_compute; discriminate). unfold blen at 2, ISIZE_MAX. lia.
Qed.

Lemma response_read_exactly_witness :
  exists r', read_response_blocks (fun _ => 0) 10 54483 true true [] (new_budget 1000000) (sample_conn [x04]) =
    Ok (Ok [written_sample], r') /\ content r' = [x04] /\
    sent r' = sent (sample_conn [x04]) ++ concat (map (answer true) sample_packets).
Proof.
  destruct (sample_conn_sound [x04] ltac:(cbn; lia)) as [Hs Hc].
  apply (@response_read_exactly sample_codecs sample_codec_laws (Wired socket) _ _ _ _ (sample_conn [x04]) (fun _ => 0) 10 54483
    true true (new_budget 1000000) sample_packets sample_sent (Ok [written_sample]) [x04]).
  - intros _. discriminate.
  - exact sample_packets_response.
  - exact sample_packets_wf.
  - exact sample_packets_sent.
  - discriminate.
  - exact Hs.
  - exact Hc.
Defined.

Lemma response_loops_agree_witness :
  (exists r', read_response_blocks (fun _ => 0) 10 54483 true true [] (new_budget 1000000) (sample_conn [x04]) =
     Ok (Ok [written_sample], r') /\ content r' = [x04]) /\
  (exists r', read_response_row_count (fun _ => 0) 10 54483 true true (sample_conn [x04]) =
     Ok (Ok (BlockReader.rows written_sample), r') /\ content r' = [x04]) /\
  (forall visitor, Forall (fun b => visitor (view_of b) = Ok tt) [written_sample] ->
   exists r', read_response_block_views (fun _ => 0) 10 54483 true true visitor (sample_conn [x04]) = Ok (Ok tt, r') /\
     content r' = [x04]).
Proof.
  destruct (sample_conn_sound [x04] ltac:(cbn; lia)) as [Hs Hc].
  apply (@response_loops_agree sample_codecs sample_codec_laws (Wired socket) _ _ _ _ (sample_conn [x04]) (fun _ => 0) 10 54483
    true true (new_budget 1000000) sample_packets sample_sent [written_sample] (BlockReader.rows written_sample) [x04]).
  - intros _. discriminate.
  - exact sample_packets_response.
  - reflexivity.
  - exact sample_packets_wf.
  - unfold sample_packets. repeat (apply Forall_cons; [|]); try apply Forall_nil; try exact I;
      (split; [apply Forall_forall; intros col Hin; repeat (destruct Hin as [<-|Hin]; [vm_compute; reflexivity|]); destruct Hin|vm_compute; discriminate]).
  - exact sample_packets_sent.
  - discriminate.
  - exact Hs.
  - exact Hc.
Defined.
