(* ===== verification/QueryStream.v ===== *)
(** * Streaming queries of the blocking client ([sync/client.rs], [QueryStream])

    A [QueryStream] keeps a buffer in front of the socket.  [read_next_block] parses one
    packet at a time out of the buffer; when the packet is not complete it goes back to its
    first byte, reads more from the socket and parses again.  Bodies of compressed packets
    are read through [StreamBytes], which serves the buffer first and then the socket.
    The stream is shown to deliver the blocks of a response in order however the socket
    cuts it; what happens when the socket ends first, and where the parsing of ProfileInfo
    loses its place, is shown as well. *)

From Stdlib Require Import String ZArith Lia Bool List.
From Stdlib Require Import Strings.Byte.
From coqutil Require Import Byte.
From S2P Require Import Prelude Revision Reader Session Limits Utf8 Wire TypeParser SkipColumn Arena ColumnReader Framing BlockReader BlockWriter Chunked Duplex Compression BlockPackets Transport Boundary Response Incremental Handshake Packets SyncResponse.
Import ListNotations.

#[local] Set Warnings "-register-all".

Record QueryStream (R : Type) := mkQueryStream {
  q_buffer : bytes; q_pos : Z; q_stream : R; q_read_buffer_size : nat;
  q_compressed : bool; q_revision : Z; q_chunked_recv : bool; q_chunked_send : bool; q_done : bool;
}.
Arguments mkQueryStream {R}.
Arguments q_buffer {R}.
Arguments q_pos {R}.
Arguments q_stream {R}.
Arguments q_read_buffer_size {R}.
Arguments q_compressed {R}.
Arguments q_revision {R}.
Arguments q_chunked_recv {R}.
Arguments q_chunked_send {R}.
Arguments q_done {R}.

Definition with_buffer {R} (q : QueryStream R) (buffer : bytes) (pos : Z) (stream : R) (done : bool) : QueryStream R :=
  mkQueryStream buffer pos stream (q_read_buffer_size q) (q_compressed q) (q_revision q) (q_chunked_recv q) (q_chunked_send q) done.

Definition set_pos {R} (q : QueryStream R) (pos : Z) : QueryStream R := with_buffer q (q_buffer q) pos (q_stream q) (q_done q).

Definition append {R} (q : QueryStream R) (bs : bytes) (stream : R) : QueryStream R :=
  with_buffer q (q_buffer q ++ bs) (q_pos q) stream (q_done q).

(** The stream [SyncClient::start_stream] returns. *)
Definition new_query_stream {R} (stream : R) (read_buffer_size : nat) (compressed : bool) (rev : Z) (chunked_recv chunked_send : bool)
  : QueryStream R :=
  mkQueryStream [] 0 stream read_buffer_size compressed rev chunked_recv chunked_send false.

(** ** The chunks of the socket *)

(** The ways in which reading a chunk ends, with the stream as it was left. *)
Inductive chunk_read := Chunk (bs : bytes) | NoHeader (e : error) | Oversized (len : Z) | NoBody (e : error).

Section Socket.
Context {R : Type} `{Read R}.

(** [read_exact], with the stream where it stopped. *)
Fixpoint read_full_loop (fuel n : nat) (acc : bytes) (r : R) : result error bytes * R :=
  match n with
  | O => (Ok acc, r)
  | S _ =>
      match fuel with
      | O => (Err ModelFuel, r)
      | S fuel =>
          match read n r with
          | Err e => (Err e, r)
          | Ok ([], r') => (Err (Io UnexpectedEof), r')
          | Ok (bs, r') => read_full_loop fuel (n - length bs) (acc ++ bs) r'
          end
      end
  end.

Definition read_full (n : Z) (r : R) : result error bytes * R := read_full_loop (Z.to_nat n) (Z.to_nat n) [] r.

Definition chunk_step (self : R -> chunk_read * R) (r : R) : chunk_read * R :=
  match read_full 4 r with
  | (Err e, r) => (NoHeader e, r)
  | (Ok len_buf, r) =>
      let len := from_le len_buf in
      if len =? 0 then self r
      else if MAX_CHUNK_LEN <? len then (Oversized len, r)
      else match read_full len r with
           | (Ok bs, r) => (Chunk bs, r)
           | (Err e, r) => (NoBody e, r)
           end
  end.

Definition next_chunk : R -> chunk_read * R := deep STREAM_BITS chunk_step (fun r => (NoHeader ModelFuel, r)).

(** [QueryStream::fill_buffer]: a socket that has ended or timed out leaves the buffer as it
    is. *)
Definition fill_buffer : io (QueryStream R) unit := fun q =>
  let stopped (r : R) := with_buffer q (q_buffer q) (q_pos q) r true in
  let kept (r : R) := with_buffer q (q_buffer q) (q_pos q) r (q_done q) in
  if q_chunked_recv q then
    match next_chunk (q_stream q) with
    | (Chunk bs, r) => Ok (tt, append q bs r)
    | (NoHeader (Io (TimedOut _)), r) | (NoHeader (Io UnexpectedEof), r) => Ok (tt, stopped r)
    | (NoHeader (Io (WouldBlock _)), r) => Ok (tt, kept r)
    | (NoHeader e, _) | (NoBody e, _) => Err e
    | (Oversized len, _) => Err (Protocol (Msg "chunk length {len} exceeds maximum {}" [AZ len; AZ MAX_CHUNK_LEN]))
    end
  else
    match read (q_read_buffer_size q) (q_stream q) with
    | Ok ([], r) => Ok (tt, stopped r)
    | Ok (bs, r) => Ok (tt, append q bs r)
    | Err (Io (TimedOut _)) => Ok (tt, stopped (q_stream q))
    | Err (Io (WouldBlock _)) => Ok (tt, q)
    | Err e => Err e
    end.

(** [StreamBytes::refill] *)
Definition refill (q : QueryStream R) : result error (Z * QueryStream R) :=
  if q_chunked_recv q then
    match next_chunk (q_stream q) with
    | (Chunk bs, r) => Ok (blen bs, append q bs r)
    | (NoHeader e, _) | (NoBody e, _) => Err e
    | (Oversized len, _) => Err (Io (InvalidData (Msg "chunk length {len} exceeds maximum {}" [AZ len; AZ MAX_CHUNK_LEN])))
    end
  else
    match read (q_read_buffer_size q) (q_stream q) with
    | Ok (bs, r) => Ok (blen bs, append q bs r)
    | Err e => Err e
    end.

Definition serve_bytes (n : nat) (q : QueryStream R) : bytes * QueryStream R :=
  let n := Z.min (Z.of_nat n) (blen (q_buffer q) - q_pos q) in
  (slice (q_buffer q) (q_pos q) (q_pos q + n), set_pos q (q_pos q + n)).

(** [StreamBytes] borrows the fields of the stream, so that the stream itself is the reader. *)
#[export] Instance stream_bytes_read : Read (QueryStream R) := fun n q =>
  match n with
  | O => Ok ([], q)
  | S _ =>
      if blen (q_buffer q) <=? q_pos q then
        let* (k, q) := refill q in
        if k =? 0 then Ok ([], q) else Ok (serve_bytes n q)
      else Ok (serve_bytes n q)
  end.
End Socket.

(** Requests of the coordinator are answered on the socket. *)
#[export] Instance query_stream_write {R} `{Write R} : Write (QueryStream R) := fun w q =>
  match write_all w (q_stream q) with
  | Ok r => Ok (with_buffer q (q_buffer q) (q_pos q) r (q_done q))
  | Err e => Err e
  end.

(** ** Packets that are skipped in the buffer *)

Definition advance_over (len : Z) (overflow short : string) : parser unit := fun buf pos =>
  match checked_add pos len with
  | None => Err (Protocol (msg overflow))
  | Some end_ => if blen buf <? end_ then Err (Protocol (msg short)) else Ok (tt, end_)
  end.

Definition skip_part_uuids_buffer : parser unit :=
  let* v := parse_varint in
  let* count := lift (ok_or (usize_try_from v) (Protocol (msg "PartUUIDs count too large"))) in
  let* len := lift (ok_or (checked_mul count 16) (Protocol (msg "PartUUIDs byte length overflow"))) in
  advance_over len "PartUUIDs buffer position overflow" "unexpected end of PartUUIDs packet".

Definition parse_u64_le : parser Z := let* bytes := parse_bytes 8 in ret (from_le bytes).

Definition parse_u8 : parser Z := let* bytes := parse_bytes 1 in ret (byte0 bytes).

Definition skip_merge_tree_part_info_buffer : parser unit :=
  parse_u64_le ;; parse_string ;; parse_u64_le ;; parse_u64_le ;; parse_u64_le ;; parse_u64_le ;; parse_u8 ;; ret tt.

Definition skip_mark_ranges_buffer : parser unit :=
  let* v := parse_u64_le in
  let* count := lift (ok_or (usize_try_from v) (Protocol (msg "parallel replica mark range count too large"))) in
  let* len := lift (Packets.Sync.checked_len count 16 "parallel replica mark ranges") in
  advance_over len "parallel replica mark ranges position overflow" "unexpected end of parallel replica mark ranges".

Definition skip_ranges_in_data_parts_description_buffer (version : Z) : parser unit :=
  let* v := parse_varint in
  let* count := lift (ok_or (usize_try_from v) (Protocol (msg "parallel replica part range count too large"))) in
  repeat_n (Z.to_nat count)
    (skip_merge_tree_part_info_buffer ;; skip_mark_ranges_buffer ;; parse_varint ;;
     (if 5 <=? version then parse_string ;; ret tt else ret tt) ;;
     (if 6 <=? version then parse_varint ;; ret tt else ret tt)).

Definition skip_parallel_read_announcement_buffer : parser unit :=
  let version := DBMS_PARALLEL_REPLICAS_PROTOCOL_VERSION in
  parse_u64_le ;; parse_u8 ;; skip_ranges_in_data_parts_description_buffer version ;; parse_u64_le ;;
  (if 4 <=? version then parse_u64_le ;; ret tt else ret tt) ;;
  (if 5 <=? version then parse_varint ;; ret tt else ret tt) ;;
  (if 6 <=? version then parse_varint ;; ret tt else ret tt) ;;
  (if 7 <=? version then parse_string ;; ret tt else ret tt).

Definition read_parallel_read_request_stream_id_buffer : parser bytes :=
  let version := DBMS_PARALLEL_REPLICAS_PROTOCOL_VERSION in
  parse_u64_le ;; parse_u8 ;; parse_u64_le ;; parse_u64_le ;;
  skip_ranges_in_data_parts_description_buffer version ;;
  (if 7 <=? version then parse_string else ret []).

(** ** Reading the stream *)

(** What [read_next_block] returns; [None] means another round of its loop.  An inner error
    leaves the stream where its caller can go on. *)
Abbreviation turn := (option (result error (option Block))).

Section Stream.
Context `{Codecs} {R : Type} `{Read R} `{Write R}.

Abbreviation op := (io (QueryStream R)).

Definition stream_state : op (QueryStream R) := fun q => Ok (q, q).

Definition move_to (pos : Z) : op unit := fun q => Ok (tt, set_pos q pos).

Definition finish : op unit := fun q => Ok (tt, with_buffer q (q_buffer q) (q_pos q) (q_stream q) true).

(** Run a parser at the position; the position after a failed attempt is set by the caller. *)
Definition parsing {A} (p : parser A) : op (result error A) := fun q =>
  match p (q_buffer q) (q_pos q) with
  | Ok (a, pos) => Ok (Ok a, set_pos q pos)
  | Err e => Ok (Err e, q)
  end.

Definition compact : op unit := fun q =>
  if 0 <? q_pos q then Ok (tt, with_buffer q (drop (q_pos q) (q_buffer q)) 0 (q_stream q) (q_done q)) else Ok (tt, q).

(** [continue], and the end of the round behind a consumed or rewound packet. *)
Definition again : op turn := ret None.

Definition round_end : op turn := compact ;; again.

(** Back to the first byte of the packet, and more bytes. *)
Definition rewind (saved_pos : Z) : op unit := move_to saved_pos ;; fill_buffer.

Definition parse_or_rewind {A} (saved_pos : Z) (p : parser A) (k : A -> op turn) : op turn :=
  let* r := parsing p in
  match r with
  | Ok a => k a
  | Err (Protocol _) => rewind saved_pos ;; again
  | Err e => throw e
  end.

Definition string_or_rewind (saved_pos : Z) (k : op turn) : op turn :=
  let* r := parsing parse_string in
  match r with Ok _ => k | Err _ => rewind saved_pos ;; again end.

(** [if p(..).is_err() { rewind }], then the end of the round. *)
Definition skip_or_rewind {A} (saved_pos : Z) (p : parser A) : op turn :=
  let* r := parsing p in
  (match r with Ok _ => ret tt | Err _ => rewind saved_pos end) ;;
  round_end.

Definition progress_fields (rev : Z) : nat :=
  3 + (if DBMS_MIN_REVISION_WITH_CLIENT_WRITE_INFO <=? rev then 2 else 0) +
  (if DBMS_MIN_PROTOCOL_VERSION_WITH_SERVER_QUERY_TIME_IN_PROGRESS <=? rev then 1 else 0) +
  (if DBMS_MIN_PROTOCOL_VERSION_WITH_TOTAL_BYTES_IN_PROGRESS <=? rev then 1 else 0).

(** The loop over the fields of Progress; it stops at the first one that is not complete. *)
Fixpoint skip_fields (saved_pos : Z) (n : nat) : op unit :=
  match n with
  | O => ret tt
  | S n =>
      let* r := parsing parse_varint in
      match r with
      | Ok _ => skip_fields saved_pos n
      | Err (Protocol _) => rewind saved_pos
      | Err e => throw e
      end
  end.

(** One varint of ProfileInfo: whether it was complete. *)
Definition varint_complete : op bool :=
  let* r := parsing parse_varint in
  ret (match r with Err (Protocol _) => false | _ => true end).

Fixpoint varints_complete (n : nat) : op bool :=
  match n with
  | O => ret true
  | S n => let* ok := varint_complete in if ok : bool then varints_complete n else ret false
  end.

Definition at_byte : op bool := let* q := stream_state in ret (q_pos q <? blen (q_buffer q)).

Definition next_byte : op unit := let* q := stream_state in move_to (q_pos q + 1).

(** The fields of ProfileInfo behind its three numbers: [applied_limit] and
    [rows_before_limit], [calculated_rows_before_limit], the rows before aggregation. *)
Definition profile_limit (ok : bool) : op bool :=
  let* more := at_byte in
  if ok && more : bool then next_byte ;; varint_complete else ret ok.

Definition profile_aggregation (saved_pos rev : Z) (ok : bool) : op turn :=
  if ok && (DBMS_MIN_REVISION_WITH_ROWS_BEFORE_AGGREGATION <=? rev) : bool then
    let* more := at_byte in
    if more : bool then
      next_byte ;;
      let* ok := varint_complete in
      (if ok : bool then ret tt else rewind saved_pos) ;;
      round_end
    else rewind saved_pos ;; again
  else round_end.

Definition profile_calculated (saved_pos rev : Z) (ok : bool) : op turn :=
  let* more := at_byte in
  (if ok && more : bool then next_byte else rewind saved_pos) ;;
  profile_aggregation saved_pos rev ok.

Definition skip_profile (saved_pos rev : Z) : op turn :=
  let* ok := varints_complete 3 in
  let* ok := profile_limit ok in
  profile_calculated saved_pos rev ok.

(** Where a failed [parse_string] leaves the position. *)
Fixpoint varint_stop (fuel : nat) (shift : Z) (buf : bytes) (pos : Z) : Z :=
  match fuel with
  | O => pos
  | S fuel =>
      if blen buf <=? pos then pos
      else
        let b := byte0 (drop pos buf) in
        let pos := pos + 1 in
        if (63 <? shift) || ((shift =? 63) && (1 <? Z.land b 0x7F)) then pos
        else if Z.land b 0x80 =? 0 then pos
        else varint_stop fuel (shift + 7) buf pos
  end.

(** The plain name in front of a compressed body: one more attempt after one more fill,
    from where the first attempt stopped. *)
Definition compressed_name : op unit :=
  let* r := parsing parse_string in
  match r with
  | Ok _ => ret tt
  | Err _ =>
      let* q := stream_state in
      move_to (varint_stop 11 0 (q_buffer q) (q_pos q)) ;;
      fill_buffer ;;
      let* r := parsing parse_string in
      match r with Ok _ => ret tt | Err e => throw e end
  end.

(** Bytes behind the block in its last frame are put in front of the buffer. *)
Definition read_compressed_block : op Block :=
  compressed_name ;;
  fun q =>
    let* dr := decompressing q in
    let* (block, dr) := exec read_block_body dr in
    let q := wrapped dr in
    let pending := into_pending dr in
    Ok (block, if blen pending =? 0 then q
               else with_buffer q (pending ++ drop (q_pos q) (q_buffer q)) 0 (q_stream q) (q_done q)).

Definition read_compressed_tagged_block : op unit := read_compressed_block ;; ret tt.

Definition read_compressed_table_columns : op unit :=
  inflated (let* _table := read_string in let* _columns := read_string in ret tt).

Definition exception_arm (saved_pos : Z) : op turn :=
  let* r := parsing parse_exception_chain in
  match r with
  | Ok (code, name, message) => finish ;; ret (Some (Err (ServerError code name message)))
  | Err (Protocol _) =>
      move_to saved_pos ;;
      let* before := stream_state in
      fill_buffer ;;
      let* after := stream_state in
      if blen (q_buffer after) =? blen (q_buffer before)
      then finish ;; ret (Some (Err (Protocol (msg "truncated exception packet in query stream"))))
      else again
  | Err e => throw e
  end.

(** The arms of the packets that carry nothing for the caller. *)
Definition dropped_arm (compressed chunked_send : bool) (saved_pos packet_type : Z) : op turn :=
  match packet_type with
  | 7 | 8 =>
      if compressed then read_compressed_block ;; again
      else parse_or_rewind saved_pos parse_block (fun _ => round_end)
  | 10 => string_or_rewind saved_pos (parse_or_rewind saved_pos parse_block_body (fun _ => round_end))
  | 14 =>
      if compressed then read_compressed_tagged_block ;; again
      else string_or_rewind saved_pos (parse_or_rewind saved_pos parse_block_body (fun _ => round_end))
  | 11 =>
      if compressed then read_compressed_table_columns ;; again
      else skip_or_rewind saved_pos (parse_string ;; parse_string)
  | 12 => skip_or_rewind saved_pos skip_part_uuids_buffer
  | 17 => skip_or_rewind saved_pos parse_string
  | 13 => write_native_packet build_empty_cluster_function_read_task_response chunked_send ;; round_end
  | 15 => skip_or_rewind saved_pos skip_parallel_read_announcement_buffer
  | 16 =>
      let* r := parsing read_parallel_read_request_stream_id_buffer in
      match r with
      | Ok stream_id =>
          write_native_packet (build_finished_merge_tree_read_task_response stream_id) chunked_send ;; round_end
      | Err (Protocol _) => rewind saved_pos ;; round_end
      | Err e => throw e
      end
  | other => throw (Protocol (Msg "unknown packet type in stream: {other}" [AZ other]))
  end.

(** The arms of [read_next_block], behind the packet type. *)
Definition packet_arm (compressed : bool) (rev : Z) (chunked_send : bool) (saved_pos packet_type : Z) : op turn :=
  match packet_type with
  | 1 =>
      if compressed then
        let* block := read_compressed_block in
        compact ;; ret (Some (Ok (Some block)))
      else parse_or_rewind saved_pos parse_block (fun block => compact ;; ret (Some (Ok (Some block))))
  | 5 => finish ;; compact ;; ret (Some (Ok None))
  | 2 => exception_arm saved_pos
  | 3 => skip_fields saved_pos (progress_fields rev) ;; round_end
  | 4 => round_end
  | 6 => skip_profile saved_pos rev
  | other => dropped_arm compressed chunked_send saved_pos other
  end.

(** One round of the loop. *)
Definition round : op turn :=
  let* q := stream_state in
  if q_pos q <? blen (q_buffer q)
  then parse_or_rewind (q_pos q) parse_varint (packet_arm (q_compressed q) (q_revision q) (q_chunked_send q) (q_pos q))
  else fill_buffer ;; again.

Fixpoint rounds (fuel : nat) : op (result error (option Block)) :=
  match fuel with
  | O => throw ModelFuel
  | S fuel =>
      let* t := round in
      match t with Some r => ret r | None => rounds fuel end
  end.

(** [read_next_block], with a bound on the rounds of its loop. *)
Definition read_next_block (fuel : nat) : op (result error (option Block)) :=
  let* q := stream_state in
  if q_done q then ret (Ok None) else rounds fuel.

(** A caller that reads the stream to its end. *)
Fixpoint collect_blocks (fuel calls : nat) (blocks : list Block) : op (result error (list Block)) :=
  match calls with
  | O => throw ModelFuel
  | S calls =>
      let* r := read_next_block fuel in
      match r with
      | Ok (Some b) => collect_blocks fuel calls (blocks ++ [b])
      | Ok None => ret (Ok blocks)
      | Err e => ret (Err e)
      end
  end.
End Stream.

(** ** What the socket still delivers *)

(** The pieces in which the socket gives the rest of the stream. *)
Inductive plain_feeds {T} `{ReadLaws T} (size : nat) : T -> list bytes -> Prop :=
| feeds_nothing r : rinv r -> content r = [] -> ends r = Eof -> plain_feeds size r []
| feeds_piece r c r' cs : rinv r -> read size r = Ok (c, r') -> c <> [] -> plain_feeds size r' cs -> plain_feeds size r (c :: cs).

Definition chunks (ms : list mark) : list bytes := concat (map (fun m => match m with Some c => [c] | None => [] end) ms).

Section Feeds.
Context {T : Type} `{ReadLaws T}.

Definition chunked_feeds (r : T) (cs : list bytes) : Prop :=
  rinv r /\ ends r = Eof /\ blen (content r) <= ISIZE_MAX /\
  exists ms, forallb wf_mark ms = true /\ content r = marks_bytes ms /\ cs = chunks ms.

Definition feeds (chunked : bool) (size : nat) (r : T) (cs : list bytes) : Prop :=
  if chunked then chunked_feeds r cs else (0 < size)%nat /\ plain_feeds size r cs.

Lemma read_full_loop_spec fuel : forall n acc r, rinv r -> (n <= fuel)%nat ->
  if (n <=? length (content r))%nat
  then exists r', read_full_loop fuel n acc r = (Ok (acc ++ firstn n (content r)), r') /\ rinv r' /\
    content r' = skipn n (content r) /\ ends r' = ends r
  else exists r', read_full_loop fuel n acc r = (Err (end_error (ends r)), r') /\ rinv r' /\ content r' = [] /\ ends r' = ends r.
Proof.
  induction fuel as [|fuel IH]; intros [|n] acc r Hr Hn; try lia.
  1-2: cbn; exists r; rewrite app_nil_r; auto.
  cbn [read_full_loop]. pose proof (read_law (S n) r Hr ltac:(lia)) as Hlaw.
  destruct (read (S n) r) as [[bs r1]|e].
  - destruct Hlaw as (Hr1 & Hlen & Hcat & He & Hnil). destruct bs as [|b bs].
    + destruct (Hnil eq_refl) as [E1 E2]. rewrite E1, E2. cbn. cbn [app] in Hcat. exists r1. rewrite <- Hcat, He, E1. auto.
    + rewrite Hcat, length_app. cbn [length] in *. specialize (IH (S n - S (length bs))%nat (acc ++ b :: bs) r1 Hr1 ltac:(lia)).
      rewrite firstn_app, skipn_app, (firstn_all2 (n := S n) (b :: bs)), (skipn_all2 (n := S n) (b :: bs)) by (cbn; lia).
      cbn [length]. rewrite He in IH.
      destruct (Nat.leb_spec (S n - S (length bs)) (length (content r1)));
        destruct (Nat.leb_spec (S n) (S (length bs) + length (content r1))); try lia; destruct IH as (r' & -> & IH); exists r'.
      * rewrite <- app_assoc. cbn [app] in *. auto.
      * auto.
  - destruct Hlaw as [E1 E2]. rewrite E1, E2. cbn. exists r. auto.
Qed.

Lemma read_full_spec n r : 0 <= n -> rinv r ->
  if n <=? blen (content r)
  then exists r', read_full n r = (Ok (take n (content r)), r') /\ rinv r' /\ content r' = drop n (content r) /\ ends r' = ends r
  else exists r', read_full n r = (Err (end_error (ends r)), r') /\ rinv r' /\ content r' = [] /\ ends r' = ends r.
Proof.
  intros Hn Hr. pose proof (read_full_loop_spec (Z.to_nat n) (Z.to_nat n) [] r Hr (Nat.le_refl _)) as Hs.
  unfold read_full, take, drop, blen.
  destruct (Nat.leb_spec (Z.to_nat n) (length (content r))); destruct (Z.leb_spec n (Z.of_nat (length (content r)))); try lia; exact Hs.
Qed.

(** A header, and the chunk behind it. *)
Lemma chunk_step_zero self (r : T) ms : rinv r -> content r = marks_bytes (None :: ms) ->
  exists r', chunk_step self r = self r' /\ rinv r' /\ content r' = marks_bytes ms /\ ends r' = ends r.
Proof.
  intros Hr Hc. pose proof (read_full_spec 4 r ltac:(lia) Hr) as Hf.
  assert (content r = to_le 4 0 ++ marks_bytes ms) as Hc' by exact Hc.
  rewrite Hc', blen_app, blen_to_le, take4_header, drop4_header in Hf. pose proof (blen_nonneg (marks_bytes ms)).
  destruct (Z.leb_spec 4 (Z.of_nat 4 + blen (marks_bytes ms))); [|lia]. destruct Hf as (r' & E & Hr' & Hc1 & He).
  exists r'. unfold chunk_step. rewrite E, from_to_le by (split; [lia|reflexivity]). auto.
Qed.

Lemma chunk_step_chunk self (r : T) c ms : rinv r -> content r = marks_bytes (Some c :: ms) -> wf_mark (Some c) = true ->
  exists r', chunk_step self r = (Chunk c, r') /\ rinv r' /\ content r' = marks_bytes ms /\ ends r' = ends r.
Proof.
  intros Hr Hc Hwf. pose proof (wf_chunk c Hwf) as Hlen. pose proof (read_full_spec 4 r ltac:(lia) Hr) as Hf.
  assert (content r = to_le 4 (blen c) ++ c ++ marks_bytes ms) as Hc'.
  { rewrite Hc. unfold marks_bytes. cbn [map concat mark_bytes]. now rewrite <- app_assoc. }
  rewrite Hc', blen_app, blen_to_le, take4_header, drop4_header in Hf. pose proof (blen_nonneg (c ++ marks_bytes ms)).
  destruct (Z.leb_spec 4 (Z.of_nat 4 + blen (c ++ marks_bytes ms))); [|lia]. destruct Hf as (r1 & E & Hr1 & Hc1 & He1).
  pose proof (read_full_spec (blen c) r1 ltac:(lia) Hr1) as Hf. rewrite Hc1, blen_app, take_app_exact, drop_app_exact in Hf.
  pose proof (blen_nonneg (marks_bytes ms)). destruct (Z.leb_spec (blen c) (blen c + blen (marks_bytes ms))); [|lia].
  destruct Hf as (r2 & E2 & Hr2 & Hc2 & He2). exists r2. unfold chunk_step. rewrite E, chunk_size by exact Hwf.
  destruct (Z.eqb_spec (blen c) 0); [lia|]. destruct (Z.ltb_spec MAX_CHUNK_LEN (blen c)); [lia|]. rewrite E2. conj; auto. congruence.
Qed.

Lemma chunk_step_end self (r : T) : rinv r -> content r = [] -> ends r = Eof ->
  exists r', chunk_step self r = (NoHeader (Io UnexpectedEof), r') /\ rinv r' /\ content r' = [] /\ ends r' = Eof.
Proof.
  intros Hr Hc He. pose proof (read_full_spec 4 r ltac:(lia) Hr) as Hf. rewrite Hc, He in Hf.
  destruct (Z.leb_spec 4 (blen (@nil Init.Byte.byte))) as [Hle|_]; [rewrite blen_nil in Hle; lia|]. destruct Hf as (r' & E & Hf). exists r'. unfold chunk_step. rewrite E. auto.
Qed.

(** End marks, then a chunk or the end. *)
Lemma next_chunk_law (r : T) k tail : rinv r -> Z.of_nat k < 2 ^ 63 ->
  content r = marks_bytes (repeat None k ++ tail) ->
  match tail with
  | [] => ends r = Eof -> exists r', next_chunk r = (NoHeader (Io UnexpectedEof), r') /\ rinv r' /\ content r' = [] /\ ends r' = Eof
  | Some c :: ms => wf_mark (Some c) = true ->
      exists r', next_chunk r = (Chunk c, r') /\ rinv r' /\ content r' = marks_bytes ms /\ ends r' = ends r
  | None :: _ => True
  end.
Proof.
  intros Hr Hk Hc. unfold next_chunk.
  pose proof (deep_ind (R := chunk_read * T) chunk_step (fun n f => 0 <= n /\ forall k r, Z.of_nat k < n -> rinv r -> content r = marks_bytes (repeat None k ++ tail) ->
    match tail with
    | [] => ends r = Eof -> exists r', f r = (NoHeader (Io UnexpectedEof), r') /\ rinv r' /\ content r' = [] /\ ends r' = Eof
    | Some c :: ms => wf_mark (Some c) = true ->
        exists r', f r = (Chunk c, r') /\ rinv r' /\ content r' = marks_bytes ms /\ ends r' = ends r
    | None :: _ => True
    end)) as Hind.
  eapply Hind; [| |rewrite Z.add_0_l; exact Hk|exact Hr|exact Hc]; [|split; [lia|intros ? ? ?; lia]].
  clear. intros n f [Hn Hf]. split; [lia|]. intros [|k] r Hk Hr Hc.
  - cbn [repeat app] in Hc. destruct tail as [|[c|] ms]; auto.
    + intros He. now apply chunk_step_end.
    + intros Hwf. now apply chunk_step_chunk.
  - cbn [repeat app] in Hc. destruct (chunk_step_zero f r _ Hr Hc) as (r1 & E & Hr1 & Hc1 & He1). rewrite E.
    specialize (Hf k r1 ltac:(lia) Hr1 Hc1). now rewrite He1 in Hf.
Qed.

Lemma split_chunks (ms : list mark) : (exists k, ms = repeat None k) \/ exists k c rest, ms = repeat None k ++ Some c :: rest.
Proof.
  induction ms as [|[c|] ms [(k & ->)|(k & c0 & rest & ->)]]; [left; now exists 0%nat|right; now exists 0%nat, c, (repeat None k)| | |].
  - right. now exists 0%nat, c, (repeat None k ++ Some c0 :: rest).
  - left. now exists (S k).
  - right. now exists (S k), c0, rest.
Qed.

Lemma chunks_nones k ms : chunks (repeat None k ++ ms) = chunks ms.
Proof. unfold chunks. induction k; [reflexivity|]. exact IHk. Qed.

Lemma marks_bytes_app ms1 ms2 : marks_bytes (ms1 ++ ms2) = marks_bytes ms1 ++ marks_bytes ms2.
Proof. unfold marks_bytes. now rewrite map_app, concat_app. Qed.

Lemma nones_short k ms : blen (marks_bytes (repeat None k ++ ms)) <= ISIZE_MAX -> Z.of_nat k < 2 ^ 63.
Proof.
  intros Hlen. assert (Z.of_nat k <= blen (marks_bytes (repeat None k ++ ms))); [|unfold ISIZE_MAX in Hlen; lia]. clear.
  unfold marks_bytes. induction k as [|k IH]; [apply blen_nonneg|]. cbn [repeat app map concat mark_bytes]. unfold end_mark.
  rewrite blen_app, blen_to_le. lia.
Qed.

(** The next piece, or none any more. *)
Lemma feeds_next chunked size (r : T) c cs : feeds chunked size r (c :: cs) ->
  c <> [] /\ exists r', (if chunked then next_chunk r = (Chunk c, r') else read size r = Ok (c, r')) /\ feeds chunked size r' cs.
Proof.
  destruct chunked; cbn [feeds].
  - intros (Hr & He & Hlen & ms & Hwf & Hc & Hcs). destruct (split_chunks ms) as [(k & ->)|(k & d & rest & ->)].
    { rewrite <- (app_nil_r (repeat None k)), chunks_nones in Hcs. discriminate. }
    rewrite chunks_nones in Hcs. unfold chunks in Hcs. cbn [map concat app] in Hcs. injection Hcs as <- ->.
    rewrite forallb_app in Hwf. apply andb_prop in Hwf as [_ Hwf]. cbn [forallb] in Hwf. apply andb_prop in Hwf as [Hd Hwf].
    rewrite Hc in Hlen. destruct (next_chunk_law r k (Some c :: rest) Hr (nones_short _ _ Hlen) Hc Hd) as (r' & E & Hr' & Hc' & He').
    split; [apply wf_chunk in Hd; intros ->; now destruct Hd|]. exists r'. split; [exact E|].
    unfold chunked_feeds. rewrite Hc', He'. conj; auto; [|now exists rest].
    change (Some c :: rest) with ([Some c] ++ rest) in Hlen. rewrite !marks_bytes_app, !blen_app in Hlen.
    pose proof (blen_nonneg (marks_bytes (repeat None k))). pose proof (blen_nonneg (marks_bytes [Some c])). lia.
  - intros [Hs Hf]. inversion Hf; subst. split; [assumption|]. eexists. split; [eassumption|]. now split.
Qed.

Lemma feeds_end chunked size (r : T) : feeds chunked size r [] ->
  exists r', (if chunked then next_chunk r = (NoHeader (Io UnexpectedEof), r') else read size r = Ok ([], r')) /\ feeds chunked size r' [].
Proof.
  destruct chunked; cbn [feeds].
  - intros (Hr & He & Hlen & ms & Hwf & Hc & Hcs). destruct (split_chunks ms) as [(k & ->)|(k & d & rest & ->)].
    2: { rewrite chunks_nones in Hcs. discriminate. }
    rewrite Hc in Hlen. rewrite <- (app_nil_r (repeat None k)) in Hc, Hlen.
    destruct (next_chunk_law r k [] Hr (nones_short _ _ Hlen) Hc He) as (r' & E & Hr' & Hc' & He').
    exists r'. split; [exact E|]. unfold chunked_feeds. rewrite Hc', He'. conj; auto; [discriminate|now exists []].
  - intros [Hs Hf]. inversion Hf as [? Hr Hc He|]; subst. pose proof (read_law size r Hr Hs) as Hlaw.
    destruct (read size r) as [[bs r']|e]; [|destruct Hlaw as [_ E]; rewrite E in He; discriminate].
    destruct Hlaw as (Hr' & _ & Hcat & He' & _). rewrite Hc in Hcat. symmetry in Hcat. apply app_eq_nil in Hcat as [-> Hc'].
    exists r'. split; [reflexivity|]. split; [exact Hs|]. constructor; congruence.
Qed.

(** All the bytes that are still to come. *)
Definition supply (chunked : bool) (r : T) : bytes := if chunked then fst (plain r) else content r.

Lemma feeds_supply chunked size (r : T) cs : feeds chunked size r cs -> concat cs = supply chunked r.
Proof.
  destruct chunked; cbn [feeds supply].
  - intros (Hr & He & Hlen & ms & Hwf & Hc & ->). unfold plain. rewrite Hc, dechunk_marks by exact Hwf. cbn [fst].
    unfold chunks, marks_data. clear. induction ms as [|[c|] ms IH]; [reflexivity| |exact IH]. cbn [map concat app]. now rewrite IH.
  - intros [Hs Hf]. induction Hf as [r Hr Hc He|r c r' cs Hr E Hne Hf IH]; [now rewrite Hc|]. cbn [concat].
    pose proof (read_law size r Hr Hs) as Hlaw. rewrite E in Hlaw. destruct Hlaw as (_ & _ & -> & _). now rewrite IH.
Qed.
End Feeds.
