(* ===== verification/StreamDelivery.v ===== *)
(** * What a streaming query delivers ([sync/client.rs], [QueryStream])

    The blocks of a response are delivered in order and its exception is reported, however
    the socket cuts the response, plain or chunked, compressed or not.  Two conditions are
    needed and shown to be needed: no piece may end right before a flag of ProfileInfo, and
    the names in front of compressed bodies are empty, as servers send them.  A socket that
    ends inside a response leaves [read_next_block] going round for ever. *)

From Stdlib Require Import String ZArith Lia Bool List.
From Stdlib Require Import Strings.Byte.
From coqutil Require Import Byte.
From S2P Require Import Prelude Revision Reader Session Limits Utf8 Wire TypeParser SkipColumn Arena ColumnReader Framing BlockReader BlockWriter Chunked Duplex Compression BlockPackets Transport Boundary Response Incremental Handshake Packets SyncResponse QueryStream.
Import ListNotations.

#[local] Set Warnings "-register-all".

(** ** The stream as a transport *)

(** What no [read] changes, fetching a chunk does not change. *)
Section Keeps.
Context {T B : Type} `{Read T} (g : T -> B) (read_keeps : forall n r bs r', read n r = Ok (bs, r') -> g r' = g r).

Lemma read_full_keeps n r x r' : read_full n r = (x, r') -> g r' = g r.
Proof.
  unfold read_full. generalize (@nil Init.Byte.byte) as acc. generalize (Z.to_nat n) at 2 as k. revert r.
  induction (Z.to_nat n) as [|fuel IH]; intros r [|k] acc E; cbn [read_full_loop] in E; try (now injection E as _ <-).
  destruct (read (S k) r) as [[bs r1]|] eqn:Er; [|now injection E as _ <-]. apply read_keeps in Er.
  destruct bs; [injection E as _ <-; exact Er|]. apply IH in E. congruence.
Qed.

Lemma next_chunk_keeps r x r' : next_chunk r = (x, r') -> g r' = g r.
Proof.
  unfold next_chunk. revert r x r'.
  apply (deep_ind (R := chunk_read * T) chunk_step (fun _ f => forall r x r', f r = (x, r') -> g r' = g r)) with (n := 0).
  - intros _ f Hf r out r' E. unfold chunk_step in E. destruct (read_full 4 r) as [[h|e] r1] eqn:E1; apply read_full_keeps in E1; [|now injection E as _ <-].
    cbv zeta in E. destruct (_ =? 0); [apply Hf in E; congruence|]. destruct (_ <? _); [injection E as _ <-; exact E1|].
    destruct (read_full _ r1) as [[b|e] r2] eqn:E2; apply read_full_keeps in E2; injection E as _ <-; congruence.
  - intros r out r' E. now injection E as _ <-.
Qed.
End Keeps.

Section Laws.
Context {R : Type} `{ReadLaws R}.

Abbreviation Stream := (QueryStream (Wired R)).

Definition settings (q : Stream) : nat * bool * Z * bool * bool :=
  (q_read_buffer_size q, q_compressed q, q_revision q, q_chunked_recv q, q_chunked_send q).

(** The buffer is in bounds and the socket goes on with the pieces [cs]. *)
Record ready (q : Stream) (cs : list bytes) : Prop := {
  r_pos : 0 <= q_pos q <= blen (q_buffer q);
  r_feeds : feeds (q_chunked_recv q) (q_read_buffer_size q) (q_stream q) cs;
  r_size : blen (q_buffer q ++ concat cs) <= ISIZE_MAX;
}.

(** What the stream has not parsed yet. *)
Definition unparsed (q : Stream) : bytes := drop (q_pos q) (q_buffer q).

Definition stream_content (q : Stream) : bytes := unparsed q ++ supply (q_chunked_recv q) (q_stream q).

Lemma ready_content q cs : ready q cs -> stream_content q = unparsed q ++ concat cs.
Proof. intros [_ Hf _]. unfold stream_content. now rewrite (feeds_supply _ _ _ _ Hf). Qed.

(** Every socket that ends cleanly delivers its bytes in some pieces. *)
Lemma plain_feeds_exist {T} `{ReadLaws T} size (r : T) :
  (0 < size)%nat -> rinv r -> ends r = Eof -> exists cs, plain_feeds size r cs.
Proof.
  intros Hs. remember (length (content r)) as n eqn:En. revert r En. induction n as [n IH] using lt_wf_ind. intros r En Hr He.
  destruct (content r) as [|b l] eqn:Ec; [exists []; now constructor|].
  pose proof (read_law size r Hr Hs) as Hlaw. destruct (read size r) as [[c r']|e] eqn:E.
  - destruct Hlaw as (Hr' & _ & Hcat & He' & Hnil). destruct c as [|x c].
    { destruct (Hnil eq_refl) as [E0 _]. rewrite E0 in Ec. discriminate. }
    destruct (IH (length (content r'))) with (r := r') as [cs Hf]; auto; [|congruence|].
    { rewrite Ec in Hcat. apply (f_equal (@length _)) in Hcat. cbn [length app] in Hcat. rewrite length_app in Hcat.
      rewrite En. cbn [length]. lia. }
    exists ((x :: c) :: cs). econstructor; eauto. discriminate.
  - destruct Hlaw as [E0 _]. rewrite E0 in Ec. discriminate.
Qed.

(** Writing does not disturb what is to be read. *)
Lemma feeds_write chunked size (r : Wired R) out cs :
  feeds chunked size r cs -> feeds chunked size (mkWired (incoming r) out) cs.
Proof.
  destruct chunked; cbn [feeds]; [exact (fun h => h)|]. intros [Hs Hf]. split; [exact Hs|].
  induction Hf as [r Hr Hc He|r c r' cs Hr E Hne Hf IH]; [now constructor|].
  econstructor; [exact Hr| |exact Hne|exact IH]. unfold read, wired_read in *. cbn [incoming].
  destruct (@read R _ size (incoming r)) as [[bs r1]|]; [|discriminate]. apply Ok_inj in E. injection E as <- <-. reflexivity.
Qed.

Lemma wired_outgoing n (r : Wired R) bs r' : read n r = Ok (bs, r') -> outgoing r' = outgoing r.
Proof. exact (@read_sent _ _ _ _ wired_laws n r bs r'). Qed.

(** The next piece goes into the buffer. *)
Lemma piece_comes q c cs : ready q (c :: cs) ->
  c <> [] /\ exists r, (if q_chunked_recv q then next_chunk (q_stream q) = (Chunk c, r)
    else read (q_read_buffer_size q) (q_stream q) = Ok (c, r)) /\
  ready (append q c r) cs /\ outgoing r = outgoing (q_stream q).
Proof.
  intros [Hp Hf Hs]. destruct (feeds_next _ _ _ _ _ Hf) as (Hne & r & E & Hf'). split; [exact Hne|]. exists r.
  conj; [exact E|split|].
  - cbn [append with_buffer q_pos q_buffer]. rewrite blen_app. pose proof (blen_nonneg c). lia.
  - exact Hf'.
  - cbn [append with_buffer q_buffer]. rewrite <- app_assoc. exact Hs.
  - destruct (q_chunked_recv q); [|now apply wired_outgoing in E]. revert E. apply next_chunk_keeps, wired_outgoing.
Qed.

Lemma fill_grows q c cs : ready q (c :: cs) ->
  c <> [] /\ exists r, fill_buffer q = Ok (tt, append q c r) /\ ready (append q c r) cs /\ outgoing r = outgoing (q_stream q).
Proof.
  intros Hq. destruct (piece_comes q c cs Hq) as (Hne & r & E & Hr). split; [exact Hne|]. exists r. split; [|exact Hr].
  unfold fill_buffer. destruct (q_chunked_recv q); rewrite E; [reflexivity|]. now destruct c.
Qed.

Lemma refill_grows q c cs : ready q (c :: cs) ->
  c <> [] /\ exists r, refill q = Ok (blen c, append q c r) /\ ready (append q c r) cs /\ outgoing r = outgoing (q_stream q).
Proof.
  intros Hq. destruct (piece_comes q c cs Hq) as (Hne & r & E & Hr). split; [exact Hne|]. exists r. split; [|exact Hr].
  unfold refill. now destruct (q_chunked_recv q); rewrite E.
Qed.

Lemma fill_ends q : ready q [] -> exists r, fill_buffer q = Ok (tt, with_buffer q (q_buffer q) (q_pos q) r true) /\
  ready (with_buffer q (q_buffer q) (q_pos q) r true) [] /\ outgoing r = outgoing (q_stream q).
Proof.
  intros [Hp Hf Hs]. destruct (feeds_end _ _ _ Hf) as (r & E & Hf'). exists r. conj.
  - unfold fill_buffer. destruct (q_chunked_recv q); now rewrite E.
  - split; assumption.
  - destruct (q_chunked_recv q); [|now apply wired_outgoing in E]. revert E. apply next_chunk_keeps, wired_outgoing.
Qed.

(** The stream has these settings, is not done, and goes on with a rest of the pieces. *)
Definition streaming (kept : nat * bool * Z * bool * bool) (pieces : list bytes) (q : Stream) : Prop :=
  settings q = kept /\ q_done q = false /\ exists taken cs, pieces = taken ++ cs /\ ready q cs.

Definition stream_ends (q : Stream) : ending := if q_chunked_recv q then Broken (Io UnexpectedEof) else Eof.

Lemma unparsed_nil q : 0 <= q_pos q <= blen (q_buffer q) -> (unparsed q = [] <-> blen (q_buffer q) <= q_pos q).
Proof.
  intros Hp. unfold unparsed. split; intros E; [|now apply drop_past].
  apply (f_equal blen) in E. rewrite blen_drop, blen_nil in E by lia. lia.
Qed.

(** Serving part of the buffer. *)
Lemma serve_bytes_law n q cs : ready q cs -> q_pos q < blen (q_buffer q) -> (0 < n)%nat ->
  exists bs q', serve_bytes n q = (bs, q') /\ bs <> [] /\ (length bs <= n)%nat /\ unparsed q = bs ++ unparsed q' /\ ready q' cs /\
    q_stream q' = q_stream q /\ settings q' = settings q /\ q_done q' = q_done q.
Proof.
  intros [Hp Hf Hs] Hlt Hn. unfold serve_bytes. do 2 eexists. split; [reflexivity|].
  set (k := Z.min (Z.of_nat n) (blen (q_buffer q) - q_pos q)).
  assert (blen (slice (q_buffer q) (q_pos q) (q_pos q + k)) = k) as Hk by (rewrite blen_slice; lia).
  conj; auto.
  - intros E. rewrite E, blen_nil in Hk. lia.
  - unfold blen in Hk. lia.
  - unfold unparsed, set_pos. cbn [with_buffer q_pos q_buffer]. unfold slice.
    rewrite <- (take_drop (q_pos q + k - q_pos q) (drop (q_pos q) (q_buffer q))) at 1.
    rewrite drop_drop by lia. now replace (q_pos q + k - q_pos q + q_pos q) with (q_pos q + k) by lia.
  - split; cbn [set_pos with_buffer q_pos q_buffer q_chunked_recv q_read_buffer_size q_stream]; auto. lia.
Qed.

(** The laws of [StreamBytes]. *)
Definition stream_laws (kept : nat * bool * Z * bool * bool) (pieces : list bytes) : ReadLaws Stream.
Proof.
  refine {| rinv := streaming kept pieces; content := stream_content; ends := stream_ends |}.
  intros n q (Hk & Hd & taken & cs & Epieces & Hq) Hn. unfold read, stream_bytes_read. destruct n as [|n]; [lia|].
  pose proof (ready_content q cs Hq) as Hc. destruct (Z.leb_spec (blen (q_buffer q)) (q_pos q)) as [Hend|Hlt].
  - pose proof (proj2 (unparsed_nil q (r_pos q cs Hq)) Hend) as Hnil. rewrite Hnil in Hc. destruct cs as [|c cs].
    + pose proof (r_feeds _ _ Hq) as Hf. destruct (feeds_end _ _ _ Hf) as (r & E & Hf'). unfold refill, stream_ends.
      destruct (q_chunked_recv q) eqn:Ech; rewrite E; cbn [bind result_monad]; [auto|]. change (blen (@nil Init.Byte.byte) =? 0) with true. cbv iota.
      assert (append q [] r = with_buffer q (q_buffer q) (q_pos q) r (q_done q)) as -> by (unfold append; now rewrite app_nil_r).
      set (q' := with_buffer _ _ _ _ _). assert (ready q' []) as Hq'.
      { destruct Hq as [Hp _ Hs]. split; auto. cbn [q' with_buffer q_chunked_recv q_read_buffer_size q_stream]. now rewrite Ech. }
      rewrite (ready_content q' [] Hq'), Hc. change (unparsed q') with (unparsed q). rewrite Hnil.
      cbn [q' with_buffer q_chunked_recv]. rewrite Ech. conj; auto; try reflexivity; [|cbn; lia]. split; [exact Hk|]. split; [exact Hd|].
      now exists taken, [].
    + destruct (refill_grows q c cs Hq) as (Hne & r & E & Hq1 & _). rewrite E. cbn [bind result_monad].
      assert (0 < blen c) as Hlen by (destruct c; [easy|rewrite blen_cons; pose proof (blen_nonneg c); lia]).
      destruct (Z.eqb_spec (blen c) 0); [lia|]. destruct (serve_bytes_law (S n) _ cs Hq1) as (bs & q' & -> & Hb & Hl & Hu & Hq' & Hst & Hk' & Hd'); [|lia|].
      { cbn [append with_buffer q_pos q_buffer]. rewrite blen_app. destruct Hq as [Hp _ _]. lia. }
      assert (unparsed (append q c r) = c) as Hu'.
      { unfold unparsed. cbn [append with_buffer q_pos q_buffer]. destruct Hq as [Hp _ _]. rewrite drop_app_le by lia.
        change (drop (q_pos q) (q_buffer q)) with (unparsed q). now rewrite Hnil. }
      rewrite Hu' in Hu. rewrite (ready_content q' cs Hq'), Hc. cbn [concat app]. rewrite Hu at 1. rewrite <- app_assoc.
      assert (stream_ends q' = stream_ends q) as He by (unfold stream_ends; unfold settings in Hk'; injection Hk' as _ _ _ -> _; reflexivity).
      conj; auto; [|contradiction..]. split; [rewrite Hk'; exact Hk|]. split; [rewrite Hd'; exact Hd|].
      exists (taken ++ [c]), cs. now rewrite <- app_assoc.
  - destruct (serve_bytes_law (S n) _ cs Hq ltac:(lia) ltac:(lia)) as (bs & q' & -> & Hb & Hl & Hu & Hq' & Hst & Hk' & Hd').
    rewrite (ready_content q' cs Hq'), Hc, Hu, <- app_assoc.
    assert (stream_ends q' = stream_ends q) as He by (unfold stream_ends; unfold settings in Hk'; injection Hk' as _ _ _ -> _; reflexivity).
    conj; auto; [|contradiction..]. split; [rewrite Hk'; exact Hk|]. split; [rewrite Hd'; exact Hd|]. now exists taken, cs.
Defined.

Definition stream_duplex (kept : nat * bool * Z * bool * bool) (pieces : list bytes) : @DuplexLaws Stream _ (stream_laws kept pieces) _.
Proof.
  unshelve refine (@Build_DuplexLaws _ _ (stream_laws kept pieces) _ (fun q => outgoing (q_stream q)) _ _).
  - intros w q (Hk & Hd & taken & cs & Epieces & Hq). unfold write_all, query_stream_write, write_all, wired_write.
    eexists. split; [reflexivity|]. set (q' := with_buffer _ _ _ _ _). assert (ready q' cs) as Hq'.
    { destruct Hq as [Hp Hf Hs]. split; auto. cbn [q' with_buffer q_chunked_recv q_read_buffer_size q_stream]. now apply feeds_write. }
    split; [split; [exact Hk|]; split; [exact Hd|]; now exists taken, cs|]. split; [|split; reflexivity].
    cbn [content stream_laws]. now rewrite (ready_content q' cs Hq'), (ready_content q cs Hq).
  - intros n q bs q'. unfold read, stream_bytes_read. destruct n as [|n]; [intros E; apply Ok_inj in E; now injection E as _ <-|].
    assert (forall q n, outgoing (q_stream (snd (serve_bytes n q))) = outgoing (q_stream (R := Wired R) q)) as Hserve by reflexivity.
    destruct (_ <=? _).
    + intros E. apply result_bind_inv in E as ((k & q1) & E1 & E). assert (outgoing (q_stream q1) = outgoing (q_stream q)) as Ho.
      { unfold refill in E1. destruct (q_chunked_recv q).
        - destruct (next_chunk _) as [[?|?|?|?] r] eqn:En; try discriminate E1. apply Ok_inj in E1. injection E1 as _ <-.
          revert En. apply next_chunk_keeps, wired_outgoing.
        - destruct (read _ _) as [[? r]|] eqn:Er; [|discriminate]. apply Ok_inj in E1. injection E1 as _ <-. now apply wired_outgoing in Er. }
      destruct (k =? 0); apply Ok_inj in E; [injection E as _ <-; exact Ho|].
      apply (f_equal (fun x => outgoing (q_stream (snd x)))) in E. rewrite Hserve in E. cbn [snd] in E. congruence.
    + intros E. apply Ok_inj in E. apply (f_equal (fun x => outgoing (q_stream (snd x)))) in E. rewrite Hserve in E. exact (eq_sym E).
Defined.
End Laws.

(** ** Packets in the buffer *)

Lemma steady_advance_over lo n overflow short : 0 <= n -> steady_from lo (advance_over n overflow short).
Proof. intros Hn. now eapply (steady_slice lo n _ (fun _ => Ok tt)); [|reflexivity]. Qed.

Lemma parses_advance_over bs overflow short : parses (advance_over (blen bs) overflow short) bs tt.
Proof.
  intros pre suf Hs. unfold advance_over, checked_add. rewrite !blen_app in *. pose proof (blen_nonneg suf).
  unfold ISIZE_MAX, USIZE_MAX in *. destruct (Z.leb_spec (blen pre + blen bs) (2 ^ 64 - 1)); [|lia].
  now destruct (Z.ltb_spec (blen pre + (blen bs + blen suf)) (blen pre + blen bs)); [lia|].
Qed.

Lemma steady_part_uuids_buffer : steady skip_part_uuids_buffer.
Proof.
  apply steady_varint_bind. intros v Hv. apply steady_lift_bind. intros c Hc. apply ok_or_inv, usize_try_from_inv in Hc as ->.
  apply steady_lift_bind. intros len Hlen. apply ok_or_inv, checked_mul_inv in Hlen as [-> _]. apply steady_advance_over. lia.
Qed.

Lemma steady_u64 lo : steady_from lo parse_u64_le.
Proof. unfold parse_u64_le. steady. Qed.

Lemma steady_u8 lo : steady_from lo parse_u8.
Proof. unfold parse_u8. steady. Qed.
#[local] Hint Resolve steady_u64 steady_u8 : steady.

Lemma steady_mark_ranges_buffer : steady skip_mark_ranges_buffer.
Proof.
  unfold skip_mark_ranges_buffer. apply steady_bind_run; [apply steady_u64|]. intros buf pos v pos' _ _ Hv Hle.
  assert (0 <= v) as Hv0.
  { unfold parse_u64_le in Hv. apply parser_bind_inv in Hv as (bs & p1 & _ & Hv). cbn in Hv. inj. apply from_le_bound. }
  apply steady_lift_bind. intros c Hc. apply ok_or_inv, usize_try_from_inv in Hc as ->.
  apply steady_lift_bind. intros len Hlen. apply ok_or_inv, checked_mul_inv in Hlen as [-> _]. apply steady_advance_over. lia.
Qed.
#[local] Hint Resolve steady_mark_ranges_buffer : steady.

Lemma steady_ranges_buffer version : steady (skip_ranges_in_data_parts_description_buffer version).
Proof. unfold skip_ranges_in_data_parts_description_buffer, skip_merge_tree_part_info_buffer. steady. Qed.
#[local] Hint Resolve steady_ranges_buffer : steady.

Lemma steady_announcement_buffer : steady skip_parallel_read_announcement_buffer.
Proof. unfold skip_parallel_read_announcement_buffer. steady. Qed.

Lemma steady_request_buffer : steady read_parallel_read_request_stream_id_buffer.
Proof. unfold read_parallel_read_request_stream_id_buffer. steady. Qed.

(** They take what a server writes. *)
Lemma parses_skip {A B} (p : parser A) (k : parser B) w1 w2 a b : parses p w1 a -> parses k w2 b -> parses (p ;; k) (w1 ++ w2) b.
Proof. intros Hp Hk. exact (parses_bind p (fun _ => k) w1 w2 a b Hp Hk). Qed.

Lemma parses_field {A} (p : parser A) w a : parses p w a -> parses (p ;; ret tt) w tt.
Proof. intros Hp. eapply parses_last; [exact Hp|apply parses_ret]. Qed.

Lemma parses_u64_le v : parses parse_u64_le (to_le 8 v) (from_le (to_le 8 v)).
Proof. eapply parses_last; [apply parses_bytes, blen_to_le|apply parses_ret]. Qed.

Lemma parses_u8 b : parses parse_u8 [b] (byte.unsigned b).
Proof. eapply parses_last; [now apply parses_bytes|apply parses_ret]. Qed.

Lemma parses_wire_varint v : u64_value v = true -> parses parse_varint (write_varint v) v.
Proof. intros Hv. apply parses_varint. now apply u64_value_inv in Hv. Qed.

Create HintDb fields discriminated.
#[local] Hint Resolve parses_wire_varint parses_string parses_u64_le parses_u8 parses_ret parses_field : fields.

(** The fields of a packet one after the other. *)
Ltac parses_fields :=
  repeat first [ solve [eauto with fields] | eapply parses_skip; [solve [eauto with fields]|] ].

Lemma usize_count n : 0 <= n <= U64_MAX -> usize_try_from n = Some n.
Proof. intros Hn. unfold usize_try_from, try_from_max, U64_MAX, USIZE_MAX in *. now destruct (Z.leb_spec n (2 ^ 64 - 1)); [|lia]. Qed.

Lemma sixteenths (bs : bytes) : blen bs mod 16 = 0 -> blen bs <= ISIZE_MAX -> 0 <= blen bs / 16 <= U64_MAX /\ checked_mul (blen bs / 16) 16 = Some (blen bs).
Proof.
  intros Hmod Hlen. pose proof (blen_nonneg bs) as Hb. pose proof (div16 _ Hb Hmod) as Hdiv. unfold checked_mul, U64_MAX, USIZE_MAX, ISIZE_MAX in *.
  rewrite Hdiv. split; [pose proof (Z.div_pos (blen bs) 16 Hb ltac:(lia)); lia|]. now destruct (Z.leb_spec (blen bs) (2 ^ 64 - 1)); [|lia].
Qed.

Lemma parses_part_uuids_buffer uuids : blen uuids mod 16 = 0 -> blen uuids <= ISIZE_MAX ->
  parses skip_part_uuids_buffer (write_varint (blen uuids / 16) ++ uuids) tt.
Proof.
  intros Hmod Hlen. destruct (sixteenths uuids Hmod Hlen) as [Hc Hm]. eapply parses_bind; [now apply parses_varint|].
  eapply parses_first; [apply parses_lift; now rewrite usize_count by exact Hc|].
  eapply parses_first; [apply parses_lift; now rewrite Hm|]. apply parses_advance_over.
Qed.

Lemma parses_mark_ranges_buffer marks : blen marks mod 16 = 0 -> blen marks <= ISIZE_MAX ->
  parses skip_mark_ranges_buffer (to_le 8 (blen marks / 16) ++ marks) tt.
Proof.
  intros Hmod Hlen. destruct (sixteenths marks Hmod Hlen) as [Hc Hm]. eapply parses_bind; [apply parses_u64_le|].
  rewrite from_to_le by (unfold U64_MAX in Hc; lia).
  eapply parses_first; [apply parses_lift; now rewrite usize_count by exact Hc|].
  eapply parses_first; [apply parses_lift; unfold Sync.checked_len; now rewrite Hm|]. apply parses_advance_over.
Qed.

Lemma parses_parts parts : wf_parts parts = true ->
  parses (skip_ranges_in_data_parts_description_buffer DBMS_PARALLEL_REPLICAS_PROTOCOL_VERSION) (write_parts parts) tt.
Proof.
  unfold wf_parts. intros Hwf. apply andb_prop in Hwf as [Hp Hn]. unfold skip_ranges_in_data_parts_description_buffer, write_parts.
  apply u64_value_inv in Hn. eapply parses_bind; [now apply parses_varint|].
  eapply parses_first; [apply parses_lift; now rewrite usize_count by exact Hn|]. rewrite Nat2Z.id. clear Hn.
  induction parts as [|p parts IH]; [apply parses_ret|]. cbn [forallb] in Hp. apply andb_prop in Hp as [Hp Hps].
  cbn [length repeat_n map concat]. eapply parses_skip; [|now apply IH]. unfold wf_part in Hp. andb_all. unfold write_part.
  eapply parses_skip; [unfold skip_merge_tree_part_info_buffer; parses_fields; rewrite <- (app_nil_r [_]); parses_fields|].
  eapply parses_skip; [apply parses_mark_ranges_buffer; lia|].
  change (5 <=? DBMS_PARALLEL_REPLICAS_PROTOCOL_VERSION) with true. change (6 <=? DBMS_PARALLEL_REPLICAS_PROTOCOL_VERSION) with true. cbv iota.
  parses_fields.
Qed.
#[local] Hint Resolve parses_parts : fields.

Lemma parses_announcement a : wf_announcement a = true -> parses skip_parallel_read_announcement_buffer (write_announcement a) tt.
Proof.
  unfold wf_announcement. intros Hwf. andb_all. unfold skip_parallel_read_announcement_buffer, write_announcement. cbv zeta.
  change (4 <=? DBMS_PARALLEL_REPLICAS_PROTOCOL_VERSION) with true. change (5 <=? DBMS_PARALLEL_REPLICAS_PROTOCOL_VERSION) with true.
  change (6 <=? DBMS_PARALLEL_REPLICAS_PROTOCOL_VERSION) with true. change (7 <=? DBMS_PARALLEL_REPLICAS_PROTOCOL_VERSION) with true. cbv iota.
  parses_fields.
Qed.

Lemma parses_read_request r : wf_read_request r = true ->
  parses read_parallel_read_request_stream_id_buffer (write_read_request r) (rq_stream_id r).
Proof.
  unfold wf_read_request. intros Hwf. andb_all. unfold read_parallel_read_request_stream_id_buffer, write_read_request. cbv zeta.
  change (7 <=? DBMS_PARALLEL_REPLICAS_PROTOCOL_VERSION) with true. cbv iota. parses_fields.
Qed.

(** The fields of Progress are so many numbers. *)
Lemma parses_progress_fields rev p : wf_progress p -> parses (repeat_n (progress_fields rev) skip_varint) (write_progress rev p) tt.
Proof.
  intros (? & ? & ? & ? & ? & ? & ?). unfold progress_fields, write_progress, since.
  destruct (_ <=? rev), (_ <=? rev), (_ <=? rev); cbn [Nat.add repeat_n app]; rewrite <- ?app_assoc, ?app_nil_r;
    repeat (first [apply parses_then; [now apply parses_skip_varint|]|eapply parses_last; [now apply parses_skip_varint|apply parses_ret]]).
Qed.

(** ** One round *)

Lemma blen_positive (w : bytes) : w <> [] -> 0 < blen w.
Proof. destruct w as [|x w]; [easy|]. rewrite blen_cons. pose proof (blen_nonneg w). lia. Qed.

Section Rounds.
Context `{CodecLaws} {R : Type} `{ReadLaws R}.

Abbreviation Stream := (QueryStream (Wired R)).

(** What a round does not change, and what it has written. *)
Definition moved (q q' : Stream) (out : bytes) : Prop :=
  settings q' = settings q /\ outgoing (q_stream q') = outgoing (q_stream q) ++ out.

(** The packet at the position is not complete: the piece [c] that came, if any, is behind it
    in the buffer. *)
Definition waits (t : result error (turn * Stream)) (q : Stream) (c : bytes) (cs : list bytes) (done : bool) : Prop :=
  exists q', t = Ok (None, q') /\ ready q' cs /\ unparsed q' = unparsed q ++ c /\ moved q q' [] /\ q_done q' = done /\
    blen (q_buffer q') <= blen (q_buffer q) + blen c.

(** The packet was taken and [l] is left of the buffer. *)
Definition takes (t : result error (turn * Stream)) (q : Stream) (l : bytes) (cs : list bytes) (out : bytes) (res : turn) (done : bool) : Prop :=
  exists q', t = Ok (res, q') /\ ready q' cs /\ unparsed q' = l /\ moved q q' out /\ q_done q' = done.

Lemma moved_nil q q' : settings q' = settings q -> outgoing (q_stream q') = outgoing (q_stream q) -> moved q q' [].
Proof. intros Hs Ho. split; [exact Hs|]. now rewrite app_nil_r. Qed.

(** Going back to the packet brings the piece [c]. *)
Definition rewinds (q : Stream) (c : bytes) (cs : list bytes) (done : bool) : Prop :=
  exists q', (forall x, rewind (q_pos q) (set_pos q x) = Ok (tt, q')) /\ ready q' cs /\ unparsed q' = unparsed q ++ c /\
    moved q q' [] /\ q_done q' = done /\ q_buffer q' = q_buffer q ++ c.

Lemma rewind_grows q c cs : ready q (c :: cs) -> rewinds q c cs (q_done q) /\ c <> [].
Proof.
  intros Hq. destruct (fill_grows q c cs Hq) as (Hne & r & E & Hq' & Ho). split; [|exact Hne]. exists (append q c r). conj; auto.
  - intros x. unfold rewind. cbn [bind io_monad move_to]. destruct q; exact E.
  - unfold unparsed. cbn [append with_buffer q_pos q_buffer]. apply drop_app_le. apply (r_pos _ _ Hq).
  - now apply moved_nil.
Qed.

Lemma rewind_ends q : ready q [] -> rewinds q [] [] true.
Proof.
  intros Hq. destruct (fill_ends q Hq) as (r & E & Hq' & Ho). eexists. conj; [|exact Hq'|now rewrite app_nil_r|now apply moved_nil|reflexivity|now rewrite app_nil_r].
  intros x. unfold rewind. cbn [bind io_monad move_to]. destruct q; exact E.
Qed.

Lemma compact_ready q cs : ready q cs -> exists q', compact q = Ok (tt, q') /\ ready q' cs /\ unparsed q' = unparsed q /\
  settings q' = settings q /\ q_stream q' = q_stream q /\ q_done q' = q_done q /\ blen (q_buffer q') <= blen (q_buffer q).
Proof.
  intros Hq. pose proof Hq as [Hp Hf Hs]. unfold compact. destruct (Z.ltb_spec 0 (q_pos q)); [|exists q; conj; auto; lia].
  eexists. split; [reflexivity|]. conj; auto; [|cbn [with_buffer q_buffer]; rewrite blen_drop; lia]. split; cbn [with_buffer q_pos q_buffer q_chunked_recv q_read_buffer_size q_stream]; auto.
  - split; [lia|apply blen_nonneg].
  - rewrite blen_app in *. rewrite blen_drop by lia. lia.
Qed.

(** A round that goes back and waits. *)
Lemma waits_again q c cs d x : rewinds q c cs d -> waits ((rewind (q_pos q) ;; again) (set_pos q x)) q c cs d.
Proof.
  intros (q' & E & Hr & Hu & Hm & Hd & Hb). exists q'. cbn [bind io_monad]. rewrite E, Hb, blen_app. conj; auto. lia.
Qed.

Lemma waits_round_end q c cs d x : rewinds q c cs d -> waits ((rewind (q_pos q) ;; round_end) (set_pos q x)) q c cs d.
Proof.
  intros (q' & E & Hr & Hu & Hm & Hd & Hb). destruct (compact_ready q' cs Hr) as (q2 & E2 & Hr2 & Hu2 & Hs2 & Hst2 & Hd2 & Hb2).
  exists q2. cbn [bind io_monad]. rewrite E. unfold round_end. cbn [bind io_monad]. rewrite E2. rewrite Hb, blen_app in Hb2.
  conj; auto; try congruence. destruct Hm as [Hm1 Hm2]. apply moved_nil; [congruence|]. rewrite Hst2, Hm2. apply app_nil_r.
Qed.

(** The position behind bytes that were parsed. *)
Lemma ready_behind q cs w l : ready q cs -> unparsed q = w ++ l ->
  ready (set_pos q (q_pos q + blen w)) cs /\ unparsed (set_pos q (q_pos q + blen w)) = l.
Proof.
  intros [Hp Hf Hs] Hu. assert (blen w <= blen (q_buffer q) - q_pos q) as Hle.
  { apply (f_equal blen) in Hu. unfold unparsed in Hu. rewrite blen_drop, blen_app in Hu by lia. pose proof (blen_nonneg l). lia. }
  pose proof (blen_nonneg w). split; [split; cbn [set_pos with_buffer q_pos q_buffer q_chunked_recv q_read_buffer_size q_stream]; auto; lia|].
  unfold unparsed in *. cbn [set_pos with_buffer q_pos q_buffer]. rewrite Z.add_comm, <- drop_drop by lia. rewrite Hu. apply drop_app_exact.
Qed.

Lemma takes_round_end q q1 cs l : ready q1 cs -> unparsed q1 = l -> settings q1 = settings q -> q_done q1 = q_done q ->
  forall out, outgoing (q_stream q1) = outgoing (q_stream q) ++ out ->
  takes (round_end q1) q l cs out None (q_done q).
Proof.
  intros Hr Hu Hs Hd out Ho. destruct (compact_ready q1 cs Hr) as (q2 & E2 & Hr2 & Hu2 & Hs2 & Hst2 & Hd2 & _). exists q2.
  unfold round_end. cbn [bind io_monad]. rewrite E2. conj; auto; try congruence. split; congruence.
Qed.

(** Parsing at the position: the packet is there, or only a part of it. *)
Lemma parse_there {A} (p : parser A) q cs w l a : ready q cs -> parses p w a -> unparsed q = w ++ l ->
  p (q_buffer q) (q_pos q) = Ok (a, q_pos q + blen w).
Proof.
  intros [Hp Hf Hs] Hparse Hu. unfold unparsed in Hu. assert (q_buffer q = take (q_pos q) (q_buffer q) ++ w ++ l) as E by (rewrite <- Hu; symmetry; apply take_drop).
  assert (blen (take (q_pos q) (q_buffer q)) = q_pos q) as Hlen by (apply blen_take; lia).
  rewrite blen_app in Hs. pose proof (blen_nonneg (concat cs)).
  specialize (Hparse (take (q_pos q) (q_buffer q)) l). rewrite <- E, Hlen in Hparse. rewrite blen_app, Hlen in Hparse. apply Hparse. lia.
Qed.

Lemma parse_missing {A} (p : parser A) q cs l l2 a : ready q cs -> steady p -> parses p (l ++ l2) a -> l2 <> [] ->
  unparsed q = l -> blen (q_buffer q) + blen l2 <= ISIZE_MAX -> exists m, p (q_buffer q) (q_pos q) = Err (Protocol m).
Proof.
  intros [Hp Hf Hs] Hsteady Hparse Hne Hu Hc. unfold unparsed in Hu.
  assert (q_buffer q = take (q_pos q) (q_buffer q) ++ l) as E by (rewrite <- Hu; symmetry; apply take_drop).
  assert (blen (take (q_pos q) (q_buffer q)) = q_pos q) as Hlen by (apply blen_take; lia).
  specialize (Hparse (take (q_pos q) (q_buffer q)) []). rewrite app_nil_r, app_assoc, <- E, Hlen in Hparse.
  specialize (Hparse ltac:(rewrite blen_app; lia)).
  destruct (Hsteady (q_buffer q) l2 (q_pos q) a _ ltac:(lia) Hp ltac:(rewrite blen_app; lia) Hparse) as (_ & _ & Herr).
  apply Herr. rewrite blen_app. destruct l2; [easy|]. rewrite blen_cons. pose proof (blen_nonneg l2). lia.
Qed.

(** *** ProfileInfo *)

Section Profile.
Context (q : Stream) (cs : list bytes).

(** The position [x] and what is behind it in the buffer. *)
Definition at_pos (x : Z) (m : bytes) : Prop := ready (set_pos q x) cs /\ unparsed (set_pos q x) = m.

Lemma at_behind x w m : at_pos x (w ++ m) -> at_pos (x + blen w) m.
Proof. intros [Hr Hm]. exact (ready_behind (set_pos q x) cs w m Hr Hm). Qed.

Lemma at_next x f m : at_pos x (f :: m) -> at_pos (x + 1) m.
Proof. exact (at_behind x [f] m). Qed.

Lemma more_at x m : at_pos x m -> at_byte (set_pos q x) = Ok (negb (blen m =? 0), set_pos q x).
Proof.
  intros [[Hp _ _] Hm]. change (at_byte (set_pos q x)) with (Ok (E := error) (x <? blen (q_buffer q), set_pos q x)).
  apply (f_equal blen) in Hm. unfold unparsed in Hm. cbn [set_pos with_buffer q_pos q_buffer] in *. rewrite blen_drop in Hm by lia.
  destruct (Z.ltb_spec x (blen (q_buffer q))), (Z.eqb_spec (blen m) 0); try reflexivity; lia.
Qed.

Lemma varints_there n : forall x w m, at_pos x (w ++ m) -> parses (repeat_n n skip_varint) w tt ->
  varints_complete n (set_pos q x) = Ok (true, set_pos q (x + blen w)).
Proof.
  intros x w m [Hr Hm] Hp. pose proof (parse_there _ _ _ _ _ _ Hr Hp Hm) as E. cbn [set_pos with_buffer q_pos q_buffer] in E. remember (x + blen w) as y eqn:Ey.
  clear Ey Hr Hm Hp. revert x E. induction n as [|n IH]; intros x E; cbn [repeat_n varints_complete] in *.
  { cbn in E. apply Ok_inj in E. injection E as <-. reflexivity. }
  unfold skip_varint in E. cbn [bind parser_monad io_monad] in *. unfold varint_complete, parsing. cbn [bind io_monad set_pos with_buffer q_pos q_buffer].
  destruct (parse_varint (q_buffer q) x) as [[v p1]|e]; [|discriminate]. exact (IH p1 E).
Qed.

Lemma varints_missing n : forall x m m2, at_pos x m -> parses (repeat_n n skip_varint) (m ++ m2) tt -> m2 <> [] ->
  blen (q_buffer q) + blen m2 <= ISIZE_MAX -> exists y, varints_complete n (set_pos q x) = Ok (false, set_pos q y).
Proof.
  intros x m m2 [Hr Hm] Hp Hne Hcat.
  destruct (parse_missing (repeat_n n skip_varint) (set_pos q x) cs m m2 tt) as [e E]; auto.
  { apply steady_repeat_n. unfold skip_varint. steady. }
  cbn [set_pos with_buffer q_pos q_buffer] in E. clear Hr Hm Hp. revert x E.
  induction n as [|n IH]; intros x E; cbn [repeat_n varints_complete] in *; [discriminate|].
  unfold skip_varint in E. cbn [bind parser_monad io_monad] in *. unfold varint_complete, parsing. cbn [bind io_monad set_pos with_buffer q_pos q_buffer].
  destruct (parse_varint (q_buffer q) x) as [[v p1]|e1]; [exact (IH p1 E)|]. injection E as ->. now exists x.
Qed.

Lemma one_varint v w : parses parse_varint w v -> parses (repeat_n 1 skip_varint) w tt.
Proof. intros Hv. eapply parses_last; [eapply parses_last; [exact Hv|apply parses_ret]|apply parses_ret]. Qed.

Lemma one_complete (s : Stream) b' s' : varints_complete 1 s = Ok (b', s') -> varint_complete s = Ok (b', s').
Proof. cbn [varints_complete bind io_monad]. now destruct (varint_complete s) as [[[] s1]|e]. Qed.

(** The bytes of ProfileInfo from its flags on. *)
Definition profile_end (rev : Z) (p : ProfileInfo) : bytes :=
  since DBMS_MIN_REVISION_WITH_ROWS_BEFORE_AGGREGATION rev ([pi_applied_aggregation p] ++ write_varint (pi_rows_before_aggregation p)).

Definition from_calculated (rev : Z) (p : ProfileInfo) : bytes := pi_calculated p :: profile_end rev p.

Definition from_applied (rev : Z) (p : ProfileInfo) : bytes :=
  pi_applied_limit p :: write_varint (pi_rows_before_limit p) ++ from_calculated rev p.

Lemma three_numbers p : wf_profile p ->
  parses (repeat_n 3 skip_varint) (write_varint (pi_rows p) ++ write_varint (pi_blocks p) ++ write_varint (pi_bytes p)) tt.
Proof.
  intros (H3 & H4 & H5 & _). cbn [repeat_n]. apply parses_then; [now apply parses_skip_varint|].
  apply parses_then; [now apply parses_skip_varint|]. eapply parses_last; [now apply parses_skip_varint|apply parses_ret].
Qed.

(** The stages of the arm. *)
Lemma limit_false (s : Stream) : profile_limit false s = Ok (false, s).
Proof. reflexivity. Qed.

Lemma limit_missing x : at_pos x [] -> profile_limit true (set_pos q x) = Ok (true, set_pos q x).
Proof. intros Hat. unfold profile_limit. cbn [bind io_monad]. now rewrite (more_at x [] Hat). Qed.

Lemma limit_number x f m : at_pos x (f :: m) -> profile_limit true (set_pos q x) = varint_complete (set_pos q (x + 1)).
Proof.
  intros Hat. unfold profile_limit. cbn [bind io_monad]. rewrite (more_at x _ Hat), blen_cons. pose proof (blen_nonneg m).
  destruct (Z.eqb_spec (1 + blen m) 0); [lia|]. reflexivity.
Qed.

Lemma calculated_there x f m rev : at_pos x (f :: m) ->
  profile_calculated (q_pos q) rev true (set_pos q x) = profile_aggregation (q_pos q) rev true (set_pos q (x + 1)).
Proof.
  intros Hat. unfold profile_calculated. cbn [bind io_monad]. rewrite (more_at x _ Hat), blen_cons. pose proof (blen_nonneg m).
  destruct (Z.eqb_spec (1 + blen m) 0); [lia|]. reflexivity.
Qed.

Lemma aggregation_number x f m rev : at_pos x (f :: m) -> DBMS_MIN_REVISION_WITH_ROWS_BEFORE_AGGREGATION <= rev ->
  profile_aggregation (q_pos q) rev true (set_pos q x) =
  (let* ok := varint_complete in (if ok : bool then ret tt else rewind (q_pos q)) ;; round_end) (set_pos q (x + 1)).
Proof.
  intros Hat Hrev. unfold profile_aggregation. destruct (Z.leb_spec DBMS_MIN_REVISION_WITH_ROWS_BEFORE_AGGREGATION rev); [|lia]. cbn [andb bind io_monad].
  rewrite (more_at x _ Hat), blen_cons. pose proof (blen_nonneg m). destruct (Z.eqb_spec (1 + blen m) 0); [lia|]. reflexivity.
Qed.

(** One number that is cut. *)
Lemma number_missing x m m2 v : at_pos x m -> write_varint v = m ++ m2 -> u64 v -> m2 <> [] -> blen (q_buffer q) + blen m2 <= ISIZE_MAX ->
  exists y, varint_complete (set_pos q x) = Ok (false, set_pos q y).
Proof.
  intros Hat Hw Hv Hne Hcat. destruct (varints_missing 1 x m m2 Hat) as [y E]; auto.
  { rewrite <- Hw. apply (one_varint v). now apply parses_varint. }
  exists y. now apply one_complete.
Qed.

End Profile.

(** *** Packets that are parsed in the buffer

    [q] stands at the type of the packet, of which [l] is in the buffer behind the type and
    [l2] is still to come. *)
Section Partly.
Context (q : Stream) (ds : list bytes) (c : bytes) (cs : list bytes) (d : bool) (b : Init.Byte.byte) (l l2 : bytes).
Context (Hq : ready q ds) (Hrw : rewinds q c cs d) (Hu : unparsed q = b :: l) (Hl2 : l2 <> []).
Context (Hc : blen (q_buffer q) + blen l2 <= ISIZE_MAX).

Let qt : Stream := set_pos q (q_pos q + 1).

Lemma behind_type : ready qt ds /\ unparsed qt = l.
Proof. exact (ready_behind q ds [b] l Hq Hu). Qed.

Lemma missing {A} (p : parser A) a : steady p -> parses p (l ++ l2) a -> exists m, parsing p qt = Ok (Err (Protocol m), qt).
Proof.
  intros Hs Hp. destruct behind_type as [Hr Hl]. destruct (parse_missing p qt ds l l2 a Hr Hs Hp Hl2 Hl Hc) as [m E].
  exists m. unfold parsing. now rewrite E.
Qed.

Lemma parse_waits {A} (p : parser A) k a : steady p -> parses p (l ++ l2) a -> waits (parse_or_rewind (q_pos q) p k qt) q c cs d.
Proof.
  intros Hs Hp. destruct (missing p a Hs Hp) as [m E]. unfold parse_or_rewind. cbn [bind io_monad]. rewrite E. now apply waits_again.
Qed.

Lemma named_parse_waits {A} (p : parser A) k a : steady (parse_string ;; p) -> parses (parse_string ;; p) (l ++ l2) a ->
  waits (string_or_rewind (q_pos q) (parse_or_rewind (q_pos q) p k) qt) q c cs d.
Proof.
  intros Hs Hp. destruct (missing _ a Hs Hp) as [m E]. unfold string_or_rewind, parse_or_rewind, parsing in *. cbn [bind io_monad parser_monad] in *.
  destruct (parse_string (q_buffer qt) (q_pos qt)) as [[s p1]|e]; [|now apply waits_again].
  cbn [set_pos with_buffer q_buffer q_pos qt] in *. destruct (p (q_buffer q) p1) as [[x p2]|e]; [apply Ok_inj in E; discriminate|].
  apply Ok_inj in E. injection E as ->. exact (waits_again q c cs d p1 Hrw).
Qed.

Lemma skip_waits {A} (p : parser A) a : steady p -> parses p (l ++ l2) a -> waits (skip_or_rewind (q_pos q) p qt) q c cs d.
Proof.
  intros Hs Hp. destruct (missing p a Hs Hp) as [m E]. unfold skip_or_rewind. cbn [bind io_monad]. rewrite E.
  exact (waits_round_end q c cs d (q_pos q + 1) Hrw).
Qed.

Lemma request_waits k a : parses read_parallel_read_request_stream_id_buffer (l ++ l2) a ->
  waits (bind (parsing read_parallel_read_request_stream_id_buffer) (fun r => match r with
    | Ok stream_id => k stream_id
    | Err (Protocol _) => rewind (q_pos q) ;; round_end
    | Err e => throw e
    end) qt) q c cs d.
Proof.
  intros Hp. destruct (missing _ a steady_request_buffer Hp) as [m E]. cbn [bind io_monad]. rewrite E.
  exact (waits_round_end q c cs d (q_pos q + 1) Hrw).
Qed.

Lemma exception_waits a : c <> [] -> parses parse_exception_chain (l ++ l2) a -> waits (exception_arm (q_pos q) qt) q c cs d.
Proof.
  intros Hne Hp. destruct (missing _ a steady_exception_chain Hp) as [m E]. unfold exception_arm. cbn [bind io_monad]. rewrite E.
  destruct Hrw as (q' & Er & Hr & Hu' & Hm & Hd & Hb). specialize (Er (q_pos q + 1)).
  unfold rewind in Er. cbn [bind io_monad] in Er. cbn [bind io_monad]. fold qt in Er.
  cbn [move_to] in *. cbn [stream_state]. destruct (fill_buffer _) as [[[] q1]|e] eqn:Ef; [|discriminate]. apply Ok_inj in Er. injection Er as ->.
  cbn [set_pos with_buffer q_buffer qt]. rewrite Hb, blen_app. destruct (Z.eqb_spec (blen (q_buffer q) + blen c) (blen (q_buffer q))).
  { apply blen_positive in Hne. lia. }
  exists q'. conj; auto. rewrite Hb, blen_app. lia.
Qed.

Lemma skip_fields_fails n : forall x, (exists m, repeat_n n skip_varint (q_buffer q) x = Err (Protocol m)) ->
  skip_fields (q_pos q) n (set_pos q x) = rewind (q_pos q) qt.
Proof.
  induction n as [|n IH]; intros x [m E]; [discriminate|]. cbn [skip_fields repeat_n bind io_monad] in *. unfold skip_varint in E.
  unfold parsing. cbn [set_pos with_buffer q_buffer q_pos]. cbn [bind parser_monad] in E.
  destruct (parse_varint (q_buffer q) x) as [[v p1]|e]; [apply (IH p1); now exists m|]. injection E as ->. reflexivity.
Qed.

Lemma progress_waits n : parses (repeat_n n skip_varint) (l ++ l2) tt -> waits ((skip_fields (q_pos q) n ;; round_end) qt) q c cs d.
Proof.
  intros Hp. destruct (missing (repeat_n n skip_varint) tt) as [m E]; [apply steady_repeat_n; unfold skip_varint; steady|exact Hp|].
  unfold parsing in E. destruct (repeat_n n skip_varint (q_buffer qt) (q_pos qt)) as [[x p1]|e] eqn:Ep; [apply Ok_inj in E; discriminate|].
  apply Ok_inj in E. injection E as ->. cbn [bind io_monad].
  unfold qt. rewrite (skip_fields_fails n (q_pos q + 1)) by now exists m. exact (waits_round_end q c cs d (q_pos q + 1) Hrw).
Qed.

Lemma calculated_false x rev : waits (profile_calculated (q_pos q) rev false (set_pos q x)) q c cs d.
Proof. exact (waits_round_end q c cs d x Hrw). Qed.

Lemma calculated_missing x rev : at_pos q ds x [] -> rev < DBMS_MIN_REVISION_WITH_ROWS_BEFORE_AGGREGATION ->
  waits (profile_calculated (q_pos q) rev true (set_pos q x)) q c cs d.
Proof.
  intros Hat Hrev. unfold profile_calculated. cbn [bind io_monad]. rewrite (more_at q ds x _ Hat). change (negb (blen (@nil Init.Byte.byte) =? 0)) with false.
  unfold profile_aggregation. destruct (Z.leb_spec DBMS_MIN_REVISION_WITH_ROWS_BEFORE_AGGREGATION rev); [lia|]. cbn [andb].
  exact (waits_round_end q c cs d x Hrw).
Qed.

Lemma aggregation_missing x rev : at_pos q ds x [] -> DBMS_MIN_REVISION_WITH_ROWS_BEFORE_AGGREGATION <= rev ->
  waits (profile_aggregation (q_pos q) rev true (set_pos q x)) q c cs d.
Proof.
  intros Hat Hrev. unfold profile_aggregation. destruct (Z.leb_spec DBMS_MIN_REVISION_WITH_ROWS_BEFORE_AGGREGATION rev); [|lia]. cbn [andb bind io_monad].
  rewrite (more_at q ds x _ Hat). exact (waits_again q c cs d x Hrw).
Qed.

Lemma cons_tail {A} (x y : A) xs ys : x :: xs = y :: ys -> xs = ys.
Proof. congruence. Qed.

(** What is left of [w ++ t] when [m] of it is there. *)
Lemma cut_at (w t m m2 : bytes) : w ++ t = m ++ m2 -> m2 <> [] ->
  (exists k, k <> [] /\ w = m ++ k /\ m2 = k ++ t) \/ exists k, m = w ++ k /\ t = k ++ m2.
Proof.
  intros E Hne. apply app_eq_app in E as (k & [[-> ->]|[-> ->]]); [|right; now exists k].
  destruct k as [|x k]; [right; exists []; now rewrite !app_nil_r|left; exists (x :: k); split; [discriminate|auto]].
Qed.

Lemma aggregation_waits p x m : at_pos q ds x m -> u64 (pi_rows_before_aggregation p) -> profile_end (q_revision q) p = m ++ l2 ->
  waits (profile_aggregation (q_pos q) (q_revision q) true (set_pos q x)) q c cs d.
Proof.
  intros Hat Hv Hm. unfold profile_end, since in Hm. destruct (Z.leb_spec DBMS_MIN_REVISION_WITH_ROWS_BEFORE_AGGREGATION (q_revision q)) as [Hrev|].
  2: { symmetry in Hm. now apply app_eq_nil in Hm as [_ Hm]. }
  destruct m as [|f m]; [now apply aggregation_missing|]. rewrite (aggregation_number q ds x f m) by assumption. apply cons_tail in Hm.
  destruct (number_missing q ds (x + 1) m l2 _ (at_next q ds x f m Hat) Hm Hv Hl2 Hc) as [y E]. cbn [bind io_monad]. rewrite E.
  exact (waits_round_end q c cs d y Hrw).
Qed.

Lemma profile_waits p : wf_profile p -> write_profile_info (q_revision q) p = l ++ l2 ->
  (DBMS_MIN_REVISION_WITH_ROWS_BEFORE_AGGREGATION <= q_revision q ->
   l2 <> from_applied (q_revision q) p /\ l2 <> from_calculated (q_revision q) p) ->
  waits (skip_profile (q_pos q) (q_revision q) qt) q c cs d.
Proof.
  intros Hwf Hw Huncut. pose proof (three_numbers p Hwf) as Hthree. destruct Hwf as (_ & _ & _ & Hlimit & Hagg).
  assert (at_pos q ds (q_pos q + 1) l) as Hat by exact behind_type. unfold qt.
  set (three := write_varint (pi_rows p) ++ write_varint (pi_blocks p) ++ write_varint (pi_bytes p)) in *.
  assert (three ++ from_applied (q_revision q) p = l ++ l2) as Hsplit.
  { rewrite <- Hw. unfold three, from_applied, from_calculated, profile_end, write_profile_info. cbn [app]. now rewrite <- !app_assoc. }
  unfold skip_profile. cbn [bind io_monad]. destruct (cut_at _ _ _ _ Hsplit Hl2) as [(k & Hk & E3 & E2)|(k & E1 & E2)].
  { rewrite E3 in Hthree. rewrite E2, blen_app in Hc. pose proof (blen_nonneg (from_applied (q_revision q) p)).
    destruct (varints_missing q ds 3 _ l k Hat Hthree Hk ltac:(lia)) as [y E].
    rewrite E, limit_false. apply calculated_false. }
  rewrite E1 in Hat. rewrite (varints_there q ds 3 _ three k Hat Hthree). apply at_behind in Hat.
  destruct k as [|f k].
  { rewrite (limit_missing q ds) by exact Hat. destruct (Z.lt_ge_cases (q_revision q) DBMS_MIN_REVISION_WITH_ROWS_BEFORE_AGGREGATION) as [Hrev|Hrev];
      [now apply calculated_missing|]. destruct (Huncut Hrev) as [Hno _]. now rewrite E2 in Hno. }
  rewrite (limit_number q ds _ f k Hat). apply at_next in Hat. apply cons_tail in E2.
  destruct (cut_at _ _ _ _ E2 Hl2) as [(k' & Hk & E3 & E4)|(k' & E3 & E4)].
  { rewrite E4, blen_app in Hc. pose proof (blen_nonneg (from_calculated (q_revision q) p)).
    destruct (number_missing q ds _ k k' _ Hat E3 Hlimit Hk ltac:(lia)) as [y E]. rewrite E. apply calculated_false. }
  rewrite E3 in Hat. pose proof (varints_there q ds 1 _ _ _ Hat (one_varint _ _ (parses_varint _ Hlimit))) as E. rewrite (one_complete _ _ _ E).
  apply at_behind in Hat. destruct k' as [|f' k'].
  { destruct (Z.lt_ge_cases (q_revision q) DBMS_MIN_REVISION_WITH_ROWS_BEFORE_AGGREGATION) as [Hrev|Hrev];
      [now apply calculated_missing|]. destruct (Huncut Hrev) as [_ Hno]. now rewrite E4 in Hno. }
  rewrite (calculated_there q ds _ f' k') by exact Hat. apply cons_tail in E4. eapply aggregation_waits; [exact (at_next q ds _ f' k' Hat)|exact Hagg|exact E4].
Qed.
End Partly.

Lemma skip_fields_there (q : Stream) saved n y : forall x, repeat_n n skip_varint (q_buffer q) x = Ok (tt, y) ->
  skip_fields saved n (set_pos q x) = Ok (tt, set_pos q y).
Proof.
  induction n as [|n IH]; intros x E; cbn [repeat_n skip_fields] in *.
  { cbn in E. apply Ok_inj in E. injection E as <-. reflexivity. }
  unfold skip_varint in E. cbn [bind parser_monad io_monad] in *. unfold parsing. cbn [set_pos with_buffer q_pos q_buffer].
  destruct (parse_varint (q_buffer q) x) as [[v p1]|e]; [|discriminate]. exact (IH p1 E).
Qed.

(** [q] stands at the type of a packet that is whole in the buffer. *)
Section Whole.
Context (q : Stream) (cs : list bytes) (b : Init.Byte.byte) (body l : bytes).
Context (Hq : ready q cs) (Hu : unparsed q = b :: body ++ l).

Let qt : Stream := set_pos q (q_pos q + 1).
Let qb : Stream := set_pos q (q_pos q + 1 + blen body).

Lemma type_taken : ready qt cs /\ unparsed qt = body ++ l.
Proof. exact (ready_behind q cs [b] (body ++ l) Hq Hu). Qed.

Lemma body_taken : ready qb cs /\ unparsed qb = l.
Proof. destruct type_taken as [Hr Hl]. exact (ready_behind qt cs body l Hr Hl). Qed.

Lemma there {A} (p : parser A) a : parses p body a -> p (q_buffer q) (q_pos q + 1) = Ok (a, q_pos q + 1 + blen body).
Proof. intros Hp. destruct type_taken as [Hr Hl]. exact (parse_there p qt cs body l a Hr Hp Hl). Qed.

Lemma parsed {A} (p : parser A) a : parses p body a -> parsing p qt = Ok (Ok a, qb).
Proof. intros Hp. unfold parsing. cbn [qt set_pos with_buffer q_buffer q_pos]. now rewrite (there p a Hp). Qed.

Lemma parse_takes {A} (p : parser A) k a : parses p body a -> parse_or_rewind (q_pos q) p k qt = k a qb.
Proof. intros Hp. unfold parse_or_rewind. cbn [bind io_monad]. now rewrite (parsed p a Hp). Qed.

Lemma named_parse_takes {A} (p : parser A) k a : parses (parse_string ;; p) body a ->
  string_or_rewind (q_pos q) (parse_or_rewind (q_pos q) p k) qt = k a qb.
Proof.
  intros Hp. pose proof (there _ a Hp) as E. apply parser_bind_inv in E as (s & p1 & E1 & E2).
  unfold string_or_rewind, parse_or_rewind, parsing. cbn [bind io_monad]. cbn [qt set_pos with_buffer q_buffer q_pos]. rewrite E1.
  cbn [set_pos with_buffer q_buffer q_pos]. change (q_buffer qt) with (q_buffer q). now rewrite E2.
Qed.

Lemma skip_takes {A} (p : parser A) a : parses p body a -> skip_or_rewind (q_pos q) p qt = round_end qb.
Proof. intros Hp. unfold skip_or_rewind. cbn [bind io_monad]. now rewrite (parsed p a Hp). Qed.

Lemma fields_take n : parses (repeat_n n skip_varint) body tt -> skip_fields (q_pos q) n qt = Ok (tt, qb).
Proof. intros Hp. apply skip_fields_there. exact (there _ tt Hp). Qed.

Lemma round_end_takes : takes (round_end qb) q l cs [] None (q_done q).
Proof. destruct body_taken as [Hr Hl]. apply takes_round_end; auto. now rewrite app_nil_r. Qed.
End Whole.

Lemma profile_takes q cs b p l : ready q cs -> wf_profile p -> unparsed q = b :: write_profile_info (q_revision q) p ++ l ->
  skip_profile (q_pos q) (q_revision q) (set_pos q (q_pos q + 1)) =
  round_end (set_pos q (q_pos q + 1 + blen (write_profile_info (q_revision q) p))).
Proof.
  intros Hq Hwf Hu. pose proof (three_numbers p Hwf) as Hthree. destruct Hwf as (_ & _ & _ & Hlimit & Hagg).
  set (three := write_varint (pi_rows p) ++ write_varint (pi_blocks p) ++ write_varint (pi_bytes p)) in *.
  assert (write_profile_info (q_revision q) p = three ++ from_applied (q_revision q) p) as Hsplit.
  { unfold three, from_applied, from_calculated, profile_end, write_profile_info. cbn [app]. now rewrite <- !app_assoc. }
  rewrite Hsplit in *. assert (at_pos q cs (q_pos q + 1) ((three ++ from_applied (q_revision q) p) ++ l)) as Hat by exact (type_taken q cs b _ l Hq Hu).
  rewrite <- app_assoc in Hat. unfold skip_profile. cbn [bind io_monad]. rewrite (varints_there q cs 3 _ _ _ Hat Hthree). apply at_behind in Hat.
  unfold from_applied in *. cbn [app] in Hat. rewrite (limit_number q cs _ _ _ Hat). apply at_next in Hat. rewrite <- app_assoc in Hat.
  rewrite (one_complete _ _ _ (varints_there q cs 1 _ _ _ Hat (one_varint _ _ (parses_varint _ Hlimit)))). apply at_behind in Hat.
  unfold from_calculated in *. cbn [app] in Hat. rewrite (calculated_there q cs _ _ _ _ Hat). apply at_next in Hat.
  rewrite !blen_app, !blen_cons, !blen_app, !blen_cons. unfold profile_end, since in *.
  destruct (Z.leb_spec DBMS_MIN_REVISION_WITH_ROWS_BEFORE_AGGREGATION (q_revision q)) as [Hrev|Hrev].
  - cbn [app] in Hat. rewrite (aggregation_number q cs _ _ _ _ Hat Hrev). apply at_next in Hat.
    cbn [bind io_monad]. rewrite (one_complete _ _ _ (varints_there q cs 1 _ _ _ Hat (one_varint _ _ (parses_varint _ Hagg)))).
    cbn [ret io_monad]. cbn [app]. rewrite blen_cons. f_equal. f_equal. lia.
  - unfold profile_aggregation. destruct (Z.leb_spec DBMS_MIN_REVISION_WITH_ROWS_BEFORE_AGGREGATION (q_revision q)); [lia|].
    cbn [andb]. rewrite blen_nil. f_equal. f_equal. lia.
Qed.

(** *** The packets of a response *)

(** Packets the stream can take: exceptions of bounded depth and, in front of compressed
    bodies, the empty names that servers send. *)
Definition streamable (compressed : bool) (p : Packet) : Prop :=
  match p with
  | PMessage (SException root nested) => blen (root :: nested) <= MAX_EXCEPTION_CHAIN_DEPTH
  | PMessage (SData t _) => compressed = true -> t = []
  | PMessage (SBlock code t _) => compressed && negb (code =? 10) = true -> t = []
  | _ => True
  end.

(** The packets that are read through [StreamBytes]. *)
Definition inflates (compressed : bool) (p : Packet) : bool :=
  compressed && match p with
    | PMessage (SData _ _) | PMessage (STableColumns _ _) => true
    | PMessage (SBlock code _ _) => negb (code =? 10)
    | _ => false
    end.

(** Where a piece must not begin: the two flags of ProfileInfo. *)
Definition profile_tails (rev : Z) (p : Packet) : list bytes :=
  match p with
  | PMessage (SProfileInfo p) =>
      if DBMS_MIN_REVISION_WITH_ROWS_BEFORE_AGGREGATION <=? rev then [from_applied rev p; from_calculated rev p] else []
  | _ => []
  end.

Definition outcome (p : Packet) : turn :=
  match p with
  | PMessage (SData _ b) => Some (Ok (Some b))
  | PMessage SEndOfStream => Some (Ok None)
  | PMessage (SException root nested) => Some (Err (chain_error root nested))
  | _ => None
  end.

Definition ends_response (p : Packet) : bool :=
  match p with PMessage SEndOfStream | PMessage (SException _ _) => true | _ => false end.

Lemma round_empty q ds c cs d : ready q ds -> rewinds q c cs d -> unparsed q = [] -> waits (round q) q c cs d.
Proof.
  intros Hq Hrw Hu. apply unparsed_nil in Hu; [|apply (r_pos _ _ Hq)]. unfold round. cbn [bind io_monad stream_state].
  destruct (Z.ltb_spec (q_pos q) (blen (q_buffer q))); [lia|]. pose proof (waits_again q c cs d (q_pos q) Hrw) as Hw.
  unfold rewind in Hw. cbn [bind io_monad move_to] in Hw. cbn [bind io_monad]. now destruct q.
Qed.

Lemma round_type q cs code b m : ready q cs -> u64 code -> write_varint code = [b] -> unparsed q = b :: m ->
  round q = packet_arm (q_compressed q) (q_revision q) (q_chunked_send q) (q_pos q) code (set_pos q (q_pos q + 1)).
Proof.
  intros Hq Hcode Hb Hu. unfold round. cbn [bind io_monad stream_state].
  assert (q_pos q < blen (q_buffer q)) as Hlt.
  { destruct (Z.lt_ge_cases (q_pos q) (blen (q_buffer q))) as [|Hge]; [assumption|]. apply unparsed_nil in Hge; [|apply (r_pos _ _ Hq)].
    rewrite Hge in Hu. discriminate. }
  destruct (Z.ltb_spec (q_pos q) (blen (q_buffer q))); [|lia]. unfold parse_or_rewind, parsing. cbn [bind io_monad].
  rewrite (parse_there _ q cs (write_varint code) m code Hq (parses_varint _ Hcode)) by (rewrite Hb; exact Hu). now rewrite Hb.
Qed.

Lemma parses_data t b : wire_text t = true -> wf_block b = true -> parses (parse_string ;; parse_block_body) (write_string t ++ write_block b) b.
Proof.
  intros Ht Hb. eapply parses_skip; [now apply parses_string|]. pose proof (parses_block b Hb) as Hp. intros pre suf Hs.
  rewrite <- (Hp pre suf Hs). unfold parse_block_body, parse_block_body_shared. apply parse_block_body_with_ext. intros n. symmetry. apply parse_column_type_checked.
Qed.

Lemma steady_named_block : steady (parse_string ;; parse_block_body).
Proof. steady. Qed.

Lemma parses_exception root nested : Forall wf_entry (root :: nested) -> blen (root :: nested) <= MAX_EXCEPTION_CHAIN_DEPTH ->
  parses parse_exception_chain (write_chain root nested) (e_code root, from_utf8_lossy (e_name root), join_nested (map entry_part (root :: nested))).
Proof. intros Hwf Hd. apply (parses_chain nested _ root [] None); auto. unfold blen, MAX_EXCEPTION_CHAIN_DEPTH in *. cbn in Hd. lia. Qed.

(** The type of a packet is one byte. *)
Lemma type_byte p : wf_packet p -> exists x, write_varint (code_of p) = [x] /\ u64 (code_of p).
Proof.
  intros Hwf. destruct p as [[]| | |]; cbn [code_of wf_packet wf_message] in *; try (eexists; split; [reflexivity|split; discriminate]).
  destruct Hwf as [[<-|[<-|[<-|[<-|[]]]]] _]; eexists; split; (reflexivity || (split; discriminate)).
Qed.

Lemma plain_body_inv compressed data body : body_bytes compressed data body -> compressed = false -> body = data.
Proof. now destruct 1. Qed.

(** The blocks that are parsed and dropped. *)
Lemma block_arm compressed rev send saved code (s : Stream) : In code [7; 8; 10; 14] -> compressed && negb (code =? 10) = false ->
  packet_arm compressed rev send saved code s = parse_or_rewind saved parse_block (fun _ => round_end) s \/
  packet_arm compressed rev send saved code s = string_or_rewind saved (parse_or_rewind saved parse_block_body (fun _ => round_end)) s.
Proof.
  intros [<-|[<-|[<-|[<-|[]]]]] Hplain; destruct compressed; try discriminate Hplain; cbn [packet_arm dropped_arm];
    first [left; reflexivity|right; reflexivity].
Qed.

Lemma packet_waits q ds c cs d p l l2 : ready q ds -> rewinds q c cs d -> unparsed q = l -> l2 <> [] ->
  blen (q_buffer q) + blen l2 <= ISIZE_MAX -> c <> [] \/ ends_response p = false ->
  sends (q_compressed q) (q_revision q) p (l ++ l2) -> wf_packet p -> streamable (q_compressed q) p ->
  inflates (q_compressed q) p = false \/ l = [] -> ~ In l2 (profile_tails (q_revision q) p) -> waits (round q) q c cs d.
Proof.
  intros Hq Hrw Hu Hne Hc Hexc (body & Hbody & Hw) Hwf Hst Hplain Htails. destruct l as [|b l]; [now apply (round_empty q ds)|].
  destruct Hplain as [Hplain|]; [|discriminate].
  destruct (type_byte p Hwf) as (x & Hx & Hcode).
  rewrite Hx in Hw. injection Hw as -> Hw. rewrite (round_type q ds (code_of p) x l Hq Hcode Hx Hu).
  unfold inflates in Hplain. destruct Hbody; cbn [code_of wf_packet wf_message streamable] in *; cbn [packet_arm dropped_arm].
  - rewrite andb_true_r in Hplain. rewrite Hplain. destruct Hwf as [Ht Hb]. apply plain_body_inv in H3; [|exact Hplain]. subst.
    apply (parse_waits q ds c cs d x l l2 Hq Hrw Hu Hne Hc parse_block _ b steady_named_block). rewrite Hw. now apply parses_data.
  - destruct Hwf as (Hin & Ht & Hb). apply plain_body_inv in H3; [|exact Hplain]. subst.
    assert (parses (parse_string ;; parse_block_body) (l ++ l2) b) as Hp by (rewrite Hw; now apply parses_data).
    pose proof steady_named_block as Hs.
    destruct (block_arm _ (q_revision q) (q_chunked_send q) (q_pos q) code (set_pos q (q_pos q + 1)) Hin Hplain) as [-> | ->].
    + exact (parse_waits q ds c cs d x l l2 Hq Hrw Hu Hne Hc parse_block _ b Hs Hp).
    + exact (named_parse_waits q ds c cs d x l l2 Hq Hrw Hu Hne Hc parse_block_body _ b Hs Hp).
  - rewrite andb_true_r in Hplain. rewrite Hplain. destruct Hwf as [Ht Hcol]. apply plain_body_inv in H3; [|exact Hplain]. subst.
    eapply (skip_waits q ds c cs d x l l2 Hq Hrw Hu Hne Hc (parse_string ;; parse_string)); [steady|]. rewrite Hw. eapply parses_skip; now apply parses_string.
  - destruct Hexc as [Hexc|]; [|discriminate]. eapply (exception_waits q ds c cs d x l l2 Hq Hrw Hu Hne Hc); [exact Hexc|]. rewrite Hw. now apply parses_exception.
  - eapply (progress_waits q ds c cs d x l l2 Hq Hrw Hu Hne Hc). rewrite Hw. now apply parses_progress_fields.
  - now apply app_eq_nil in Hw as [_ Hw].
  - now apply app_eq_nil in Hw as [_ Hw].
  - apply (profile_waits q ds c cs d x l l2 Hq Hrw Hu Hne Hc p Hwf (eq_sym Hw)). intros Hrev. cbn [profile_tails] in Htails.
    destruct (Z.leb_spec DBMS_MIN_REVISION_WITH_ROWS_BEFORE_AGGREGATION (q_revision q)); [|lia]. cbn [In] in Htails. split; intros ->; tauto.
  - destruct Hwf as [Hmod Hmax]. eapply (skip_waits q ds c cs d x l l2 Hq Hrw Hu Hne Hc); [apply steady_part_uuids_buffer|]. rewrite Hw. apply parses_part_uuids_buffer; auto.
    unfold MAX_PART_UUIDS, ISIZE_MAX in *. lia.
  - eapply (skip_waits q ds c cs d x l l2 Hq Hrw Hu Hne Hc); [apply steady_string|]. rewrite Hw. now apply parses_string.
  - now apply app_eq_nil in Hw as [_ Hw].
  - eapply (skip_waits q ds c cs d x l l2 Hq Hrw Hu Hne Hc); [apply steady_announcement_buffer|]. rewrite Hw. now apply parses_announcement.
  - eapply (request_waits q ds c cs d x l l2 Hq Hrw Hu Hne Hc). rewrite Hw. now apply parses_read_request.
Qed.

(** Results that end a call. *)
Lemma takes_result q q1 cs l res : ready q1 cs -> unparsed q1 = l -> settings q1 = settings q -> q_stream q1 = q_stream q ->
  takes ((compact ;; ret res) q1) q l cs [] res (q_done q1).
Proof.
  intros Hr Hu Hs Hst. destruct (compact_ready q1 cs Hr) as (q2 & E2 & Hr2 & Hu2 & Hs2 & Hst2 & Hd2 & _). exists q2.
  cbn [bind io_monad]. rewrite E2. conj; auto; try congruence. apply moved_nil; congruence.
Qed.

(** An answer to the coordinator. *)
Lemma native_written q cs chunked_send pkt : ready q cs -> blen pkt <= U32_MAX ->
  exists q', write_native_packet pkt chunked_send q = Ok (tt, q') /\ ready q' cs /\ unparsed q' = unparsed q /\
    settings q' = settings q /\ q_done q' = q_done q /\ outgoing (q_stream q') = outgoing (q_stream q) ++ native_packet chunked_send pkt.
Proof.
  intros Hq Hp. assert (forall w, exists q', writing w q = Ok (tt, q') /\ ready q' cs /\ unparsed q' = unparsed q /\
    settings q' = settings q /\ q_done q' = q_done q /\ outgoing (q_stream q') = outgoing (q_stream q) ++ w) as Hw.
  { intros w. eexists. split; [reflexivity|]. conj; auto. destruct Hq as [Hpos Hf Hs]. split; auto.
    cbn [with_buffer q_chunked_recv q_read_buffer_size q_stream]. now apply feeds_write. }
  unfold write_native_packet, native_packet. destruct chunked_send; [|apply Hw]. unfold write_chunked_packet, write_chunk_header.
  destruct (Z.leb_spec (blen pkt) U32_MAX); [|lia]. apply Hw.
Qed.

Lemma packet_takes q cs p w l : ready q cs -> unparsed q = w ++ l ->
  sends (q_compressed q) (q_revision q) p w -> wf_packet p -> streamable (q_compressed q) p -> inflates (q_compressed q) p = false ->
  takes (round q) q l cs (answer (q_chunked_send q) p) (outcome p) (ends_response p || q_done q).
Proof.
  intros Hq Hu (body & Hbody & Hw) Hwf Hst Hplain.
  destruct (type_byte p Hwf) as (x & Hx & Hcode).
  rewrite Hw, Hx in Hu. cbn [app] in Hu. rewrite (round_type q cs (code_of p) x _ Hq Hcode Hx Hu).
  destruct (body_taken q cs x body l Hq Hu) as [Hb Hl]. pose proof (round_end_takes q cs x body l Hq Hu) as Hend.
  unfold inflates in Hplain. destruct Hbody; cbn [code_of wf_packet wf_message streamable answer outcome ends_response orb] in *; cbn [packet_arm dropped_arm].
  - rewrite andb_true_r in Hplain. rewrite Hplain. destruct Hwf as [Ht Hblk]. apply plain_body_inv in H3; [|exact Hplain]. subst body.
    rewrite (parse_takes q cs x _ l Hq Hu parse_block _ b) by now apply parses_data.
    exact (takes_result q _ cs l _ Hb Hl eq_refl eq_refl).
  - destruct Hwf as (Hin & Ht & Hblk). apply plain_body_inv in H3; [|exact Hplain]. subst body.
    pose proof (parses_data t b Ht Hblk) as Hp.
    destruct (block_arm _ (q_revision q) (q_chunked_send q) (q_pos q) code (set_pos q (q_pos q + 1)) Hin Hplain) as [-> | ->].
    + rewrite (parse_takes q cs x _ l Hq Hu parse_block _ b Hp). exact Hend.
    + rewrite (named_parse_takes q cs x _ l Hq Hu parse_block_body _ b Hp). exact Hend.
  - rewrite andb_true_r in Hplain. rewrite Hplain. destruct Hwf as [Ht Hcol]. apply plain_body_inv in H3; [|exact Hplain]. subst body.
    rewrite (skip_takes q cs x _ l Hq Hu (parse_string ;; parse_string) c); [exact Hend|]. eapply parses_skip; now apply parses_string.
  - unfold exception_arm. cbn [bind io_monad]. rewrite (parsed q cs x _ l Hq Hu _ _ (parses_exception root nested (proj1 Hwf) Hst)).
    eexists. split; [reflexivity|]. conj; [|exact Hl|now apply moved_nil|reflexivity]. destruct Hb as [? ? ?]. now split.
  - cbn [bind io_monad]. rewrite (fields_take q cs x _ l Hq Hu _ (parses_progress_fields _ _ Hwf)). exact Hend.
  - cbn [app] in *. replace (q_pos q + 1 + blen []) with (q_pos q + 1) in Hend by (rewrite blen_nil; lia). exact Hend.
  - cbn [bind io_monad finish]. replace (q_pos q + 1 + blen []) with (q_pos q + 1) in * by (rewrite blen_nil; lia).
    set (q1 := with_buffer _ _ _ _ _). assert (ready q1 cs) as Hr by (destruct Hb; now split).
    apply (takes_result q q1 cs l (Some (Ok None))); auto.
  - rewrite (profile_takes q cs x p l Hq Hwf Hu). exact Hend.
  - destruct Hwf as [Hmod Hmax]. rewrite (skip_takes q cs x _ l Hq Hu skip_part_uuids_buffer tt); [exact Hend|].
    apply parses_part_uuids_buffer; auto. unfold MAX_PART_UUIDS, ISIZE_MAX in *. lia.
  - rewrite (skip_takes q cs x _ l Hq Hu parse_string tz); [exact Hend|]. now apply parses_string.
  - cbn [bind io_monad]. replace (q_pos q + 1 + blen []) with (q_pos q + 1) in * by (rewrite blen_nil; lia).
    destruct (native_written _ cs (q_chunked_send q) build_empty_cluster_function_read_task_response Hb ltac:(discriminate)) as (q1 & E & Hr1 & Hu1 & Hs1 & Hd1 & Ho1).
    rewrite E. apply takes_round_end; auto; congruence.
  - rewrite (skip_takes q cs x _ l Hq Hu skip_parallel_read_announcement_buffer tt); [exact Hend|]. now apply parses_announcement.
  - cbn [bind io_monad]. rewrite (parsed q cs x _ l Hq Hu _ _ (parses_read_request r Hwf)).
    destruct (native_written _ cs (q_chunked_send q) _ Hb (finished_response_small _ (read_request_inv r Hwf))) as (q1 & E & Hr1 & Hu1 & Hs1 & Hd1 & Ho1).
    rewrite E. apply takes_round_end; auto; congruence.
Qed.

(** *** Packets with compressed bodies *)

(** The empty name in front of a compressed body, wherever the buffer ends. *)
Lemma name_taken q cs m : ready q cs -> unparsed q ++ concat cs = x00 :: m ->
  exists q' taken cs', compressed_name q = Ok (tt, q') /\ ready q' cs' /\ cs = taken ++ cs' /\ unparsed q' ++ concat cs' = m /\
    moved q q' [] /\ q_done q' = q_done q.
Proof.
  intros Hq Hm. assert (parses parse_string [x00] []) as Hname by exact (parses_string [] eq_refl).
  destruct (unparsed q) as [|b l] eqn:Hu; cbn [app] in Hm.
  - destruct cs as [|c cs]; [discriminate|]. destruct (rewind_grows q c cs Hq) as [(q1 & E & Hr & Hu1 & Hmv & Hd & Hb) Hne].
    rewrite Hu in Hu1. cbn [app] in Hu1. destruct c as [|b c]; [contradiction|]. cbn [concat app] in Hm. injection Hm as -> Hm.
    pose proof (parse_there parse_string q1 cs [x00] c [] Hr Hname Hu1) as E1. destruct (ready_behind q1 cs [x00] c Hr Hu1) as [Hr2 Hu2].
    exists (set_pos q1 (q_pos q1 + 1)), [x00 :: c], cs. unfold compressed_name. cbn [bind io_monad]. unfold parsing at 1.
    pose proof (proj1 (unparsed_nil q (r_pos _ _ Hq)) Hu) as Hend.
    destruct (parse_missing parse_string q ((x00 :: c) :: cs) [] [x00] [] Hq (steady_string 0) Hname ltac:(discriminate) Hu) as [e Ee].
    { pose proof (r_size _ _ Hq) as Hs. cbn [concat app] in Hs. rewrite blen_app, blen_cons in Hs. pose proof (blen_nonneg (c ++ concat cs)). change (blen [x00]) with 1. lia. }
    rewrite Ee. cbn [stream_state varint_stop]. destruct (Z.leb_spec (blen (q_buffer q)) (q_pos q)); [|lia].
    specialize (E (q_pos q)). unfold rewind in E. cbn [bind io_monad] in E. assert (set_pos q (q_pos q) = q) as Eq by now destruct q.
    rewrite Eq in E. cbn [bind io_monad]. destruct (move_to (q_pos q) q) as [[[] q0]|]; [|discriminate]. rewrite E. unfold parsing. rewrite E1. conj; auto.
    change 1 with (blen [x00]). now rewrite Hu2.
  - injection Hm as -> Hm. pose proof (parse_there parse_string q cs [x00] l [] Hq Hname Hu) as E.
    destruct (ready_behind q cs [x00] l Hq Hu) as [Hr1 Hu1]. exists (set_pos q (q_pos q + 1)), [], cs.
    unfold compressed_name. cbn [bind io_monad]. unfold parsing. rewrite E. change 1 with (blen [x00]). conj; auto; [now rewrite Hu1|now apply moved_nil].
Qed.

Lemma ready_sound q cs : ready q cs -> q_done q = false ->
  @sound _ _ (stream_laws (settings q) cs) q.
Proof.
  intros Hq Hd. split; [split; [reflexivity|]; split; [exact Hd|]; now exists [], cs|]. cbn [content stream_laws].
  rewrite (ready_content q cs Hq). pose proof (r_size _ _ Hq) as Hs. rewrite blen_app in *. unfold unparsed.
  rewrite blen_drop by apply (r_pos _ _ Hq). pose proof (r_pos _ _ Hq). lia.
Qed.

(** The rest of a streamed body is where the socket and the buffer are. *)
Lemma sound_ready (q q' : Stream) cs : @sound _ _ (stream_laws (settings q) cs) q' ->
  exists taken cs', cs = taken ++ cs' /\ ready q' cs' /\ settings q' = settings q /\ q_done q' = false.
Proof. intros [(Hs & Hd & taken & cs' & E & Hr) _]. exists taken, cs'. auto. Qed.

Lemma block_inflated q cs blk body rest : ready q cs -> q_done q = false -> wf_block blk = true ->
  unparsed q ++ concat cs = x00 :: body ++ rest -> body_bytes true (write_block blk) body ->
  exists q' taken cs', read_compressed_block q = Ok (blk, q') /\ ready q' cs' /\ cs = taken ++ cs' /\ unparsed q' ++ concat cs' = rest /\
    moved q q' [] /\ q_done q' = false.
Proof.
  intros Hq Hd Hwf Hc Hbody. destruct (name_taken q cs _ Hq Hc) as (q1 & taken & cs1 & E & Hr1 & Ecs & Hc1 & [Hs1 Ho1] & Hd1).
  rewrite Hd in Hd1. pose proof (ready_content q1 cs1 Hr1) as Hcont. rewrite Hc1 in Hcont.
  destruct (@inflate_exact _ _ _ _ _ _ (stream_duplex (settings q1) cs1) _ read_block_body _ _ _ q1 rest (reads_block_body blk Hwf) Hbody
    (ready_sound q1 cs1 Hr1 Hd1) Hcont) as (dr & dr' & Edr & Ek & Hpend & Hsound & Hc' & _ & Hsent).
  destruct (sound_ready q1 _ cs1 Hsound) as (taken' & cs' & Ecs' & Hr' & Hs' & Hd'). exists (wrapped dr'), (taken ++ taken'), cs'.
  unfold read_compressed_block. cbn [bind io_monad result_monad]. rewrite E. cbv beta. cbn [bind result_monad]. rewrite Edr, Ek, Hpend.
  change (blen (@nil Init.Byte.byte) =? 0) with true. cbv iota. conj; auto.
  - rewrite <- app_assoc, <- Ecs'. exact Ecs.
  - rewrite <- Hc'. symmetry. exact (ready_content _ _ Hr').
  - split; [congruence|]. change (outgoing (q_stream (wrapped dr')) = outgoing (q_stream q1)) in Hsent. congruence.
Qed.

Lemma reads_columns t col : wire_text t = true -> wire_text col = true ->
  reads (let* _table := read_string in let* _columns := read_string in ret tt) (write_string t ++ write_string col) tt.
Proof.
  intros Ht Hcol. eapply reads_bind; [exact (reads_string t Ht)|]. eapply reads_last; [exact (reads_string col Hcol)|apply reads_ret].
Qed.

Lemma columns_inflated q cs t col body rest : ready q cs -> q_done q = false -> wire_text t = true -> wire_text col = true ->
  unparsed q ++ concat cs = body ++ rest -> body_bytes true (write_string t ++ write_string col) body ->
  exists q' taken cs', read_compressed_table_columns q = Ok (tt, q') /\ ready q' cs' /\ cs = taken ++ cs' /\ unparsed q' ++ concat cs' = rest /\
    moved q q' [] /\ q_done q' = false.
Proof.
  intros Hq Hd Ht Hcol Hc Hbody. pose proof (ready_content q cs Hq) as Hcont. rewrite Hc in Hcont.
  destruct (@performs_inflated _ _ _ _ _ _ (stream_duplex (settings q) cs) _ _ _ body tt (reads_columns t col Ht Hcol) Hbody q rest (ready_sound q cs Hq Hd) Hcont)
    as (q' & E & Hsound & Hc' & _ & Hsent).
  destruct (sound_ready q _ cs Hsound) as (taken & cs' & Ecs' & Hr' & Hs' & Hd'). exists q', taken, cs'. conj; auto.
  - rewrite <- Hc'. symmetry. exact (ready_content _ _ Hr').
  - split; [exact Hs'|exact Hsent].
Qed.

Lemma inflated_arm rev send saved code (s : Stream) : In code [7; 8; 10; 14] -> negb (code =? 10) = true ->
  packet_arm true rev send saved code s = (read_compressed_block ;; again) s.
Proof.
  intros [<-|[<-|[<-|[<-|[]]]]] Hinf; try discriminate Hinf; cbn [packet_arm dropped_arm]; [reflexivity..|].
  unfold read_compressed_tagged_block. cbn [bind ret io_monad]. now destruct (read_compressed_block s) as [[? ?]|].
Qed.

Lemma round_inflates q cs p w rest : ready q cs -> q_done q = false -> unparsed q <> [] -> unparsed q ++ concat cs = w ++ rest ->
  sends (q_compressed q) (q_revision q) p w -> wf_packet p -> streamable (q_compressed q) p -> inflates (q_compressed q) p = true ->
  exists q' taken cs', round q = Ok (outcome p, q') /\ ready q' cs' /\ cs = taken ++ cs' /\ unparsed q' ++ concat cs' = rest /\
    moved q q' [] /\ q_done q' = false.
Proof.
  intros Hq Hd Hne Hc (body & Hbody & Hw) Hwf Hst Hinf. destruct (unparsed q) as [|b l] eqn:Hu; [contradiction|].
  assert (q_compressed q = true) as Hcomp by (unfold inflates in Hinf; now apply andb_prop in Hinf).
  rewrite Hcomp in *. unfold inflates in Hinf. cbn [andb] in Hinf.
  destruct Hbody; try discriminate Hinf; cbn [code_of wf_packet wf_message streamable outcome] in *.
  - destruct Hwf as [Ht Hblk]. rewrite (Hst eq_refl) in Hw. rewrite Hw in Hc. cbn [app] in Hc. injection Hc as -> Hc.
    rewrite (round_type q cs 1 _ l Hq ltac:(split; discriminate) eq_refl Hu), Hcomp. cbn [packet_arm dropped_arm].
    destruct (ready_behind q cs [x01] l Hq Hu) as [Hr1 Hu1]. 
    destruct (block_inflated _ cs b0 body rest Hr1 Hd Hblk ltac:(rewrite Hu1; exact Hc) H3) as (q1 & taken & cs' & E & Hr' & Ecs & Hc' & Hm & Hd').
    destruct (compact_ready q1 cs' Hr') as (q2 & E2 & Hr2 & Hu2 & Hs2 & Hst2 & Hd2 & _). exists q2, taken, cs'.
    cbn [bind io_monad]. change (blen [x01]) with 1 in E. rewrite E, E2. destruct Hm as [Hm1 Hm2]. conj; auto; try congruence.
    split; [rewrite Hs2; exact Hm1|rewrite Hst2; exact Hm2].
  - destruct (type_byte (PMessage (SBlock code t b0)) Hwf) as (x & Hx & Hcode). cbn [code_of] in Hx, Hcode.
    destruct Hwf as (Hin & Ht & Hblk). rewrite Hinf in Hst, H3. rewrite (Hst eq_refl), Hx in Hw. rewrite Hw in Hc. cbn [app] in Hc. injection Hc as -> Hc.
    rewrite (round_type q cs code x l Hq Hcode Hx Hu), Hcomp, (inflated_arm _ _ _ code _ Hin Hinf).
    destruct (ready_behind q cs [x] l Hq Hu) as [Hr1 Hu1].
    destruct (block_inflated _ cs b0 body rest Hr1 Hd Hblk ltac:(rewrite Hu1; exact Hc) H3) as (q1 & taken & cs' & E & Hr' & Ecs & Hc' & Hm & Hd').
    exists q1, taken, cs'. cbn [bind io_monad]. change (blen [x]) with 1 in E. rewrite E. conj; auto.
  - destruct Hwf as [Ht Hcol]. rewrite Hw in Hc. cbn [app] in Hc. injection Hc as -> Hc.
    rewrite (round_type q cs 11 _ l Hq ltac:(split; discriminate) eq_refl Hu), Hcomp. cbn [packet_arm dropped_arm].
    destruct (ready_behind q cs [x0b] l Hq Hu) as [Hr1 Hu1].
    destruct (columns_inflated _ cs t c body rest Hr1 Hd Ht Hcol ltac:(rewrite Hu1; exact Hc) H3) as (q1 & taken & cs' & E & Hr' & Ecs & Hc' & Hm & Hd').
    exists q1, taken, cs'. cbn [bind io_monad]. change (blen [x0b]) with 1 in E. rewrite E. conj; auto.
Qed.

(** *** One packet *)

(** After some rounds the packet has been taken. *)
Definition delivered (p : Packet) (q : Stream) (cs : list bytes) (rest : bytes) : Prop :=
  exists k q' taken cs', (k <= S (length taken))%nat /\
    (forall fuel, rounds (k + fuel) q = match outcome p with Some r => Ok (r, q') | None => rounds fuel q' end) /\
    ready q' cs' /\ cs = taken ++ cs' /\ unparsed q' ++ concat cs' = rest /\ moved q q' (answer (q_chunked_send q) p) /\
    q_done q' = ends_response p.

Lemma rounds_once (q : Stream) t q' fuel : round q = Ok (t, q') ->
  rounds (1 + fuel) q = match t with Some r => Ok (r, q') | None => rounds fuel q' end.
Proof. intros E. cbn [Nat.add rounds]. cbn [bind io_monad]. rewrite E. now destruct t. Qed.

Lemma moved_send q q' out : moved q q' out -> q_chunked_send q' = q_chunked_send q /\ q_compressed q' = q_compressed q /\ q_revision q' = q_revision q.
Proof. intros [Hs _]. unfold settings in Hs. now injection Hs as _ -> -> _ ->. Qed.

Lemma delivered_later p q q1 c cs rest : round q = Ok (None, q1) -> moved q q1 [] -> delivered p q1 cs rest -> delivered p q (c :: cs) rest.
Proof.
  intros E Hm (k & q' & taken & cs' & Hk & Hrounds & Hr & Ecs & Hc & Hm' & Hd). exists (S k), q', (c :: taken), cs'. subst cs.
  destruct (moved_send q q1 [] Hm) as (Hsend & _ & _). conj; auto.
  - cbn [length]. lia.
  - intros fuel. rewrite <- (Hrounds fuel). exact (rounds_once q None q1 (k + fuel) E).
  - destruct Hm as [Hs1 Ho1], Hm' as [Hs2 Ho2]. split; [congruence|]. rewrite Ho2, Ho1, Hsend. now rewrite app_nil_r.
Qed.

Lemma delivered_at_once p q cs l rest : rest = l ++ concat cs -> q_done q = false ->
  takes (round q) q l cs (answer (q_chunked_send q) p) (outcome p) (ends_response p || q_done q) -> delivered p q cs rest.
Proof.
  intros -> Hd (q' & E & Hr & Hu & Hm & Hd'). rewrite Hd, orb_false_r in Hd'. exists 1%nat, q', [], cs. conj; auto.
  - intros fuel. now apply rounds_once.
  - now rewrite Hu.
Qed.

Lemma delivered_inflated p q cs rest : inflates (q_compressed q) p = true ->
  (exists q' taken cs', round q = Ok (outcome p, q') /\ ready q' cs' /\ cs = taken ++ cs' /\ unparsed q' ++ concat cs' = rest /\
    moved q q' [] /\ q_done q' = false) -> delivered p q cs rest.
Proof.
  intros Hinf (q' & taken & cs' & E & Hr & Ecs & Hc & Hm & Hd). exists 1%nat, q', taken, cs'.
  assert (answer (q_chunked_send q) p = [] /\ ends_response p = false) as [-> ->].
  { unfold inflates in Hinf. apply andb_prop in Hinf as [_ Hinf]. destruct p as [[]| | |]; try discriminate Hinf; auto. }
  conj; auto; [lia|]. intros fuel. now apply rounds_once.
Qed.

Lemma packet_delivered p cs : forall q w rest, ready q cs -> q_done q = false -> unparsed q ++ concat cs = w ++ rest ->
  sends (q_compressed q) (q_revision q) p w -> wf_packet p -> streamable (q_compressed q) p ->
  (forall t taken cs', In t (profile_tails (q_revision q) p) -> cs = taken ++ cs' -> concat cs' <> t ++ rest) ->
  delivered p q cs rest.
Proof.
  induction cs as [|c cs IH]; intros q w rest Hq Hd Hc Hsends Hwf Hst Huncut.
  all: destruct (inflates (q_compressed q) p && negb (blen (unparsed q) =? 0)) eqn:Hinf.
  1, 3: apply andb_prop in Hinf as [Hinf Hne]; apply delivered_inflated; [exact Hinf|]; eapply round_inflates; eauto;
    intros E; rewrite E in Hne; discriminate.
  all: assert (inflates (q_compressed q) p = false \/ unparsed q = []) as Hor
    by (destruct (inflates _ p); [right|now left]; destruct (unparsed q) as [|x u]; [reflexivity|]; cbn [andb] in Hinf;
        rewrite blen_cons in Hinf; pose proof (blen_nonneg u); destruct (Z.eqb_spec (1 + blen u) 0); [lia|discriminate]).
  all: assert (w <> []) as Hw by (destruct Hsends as (body & _ & ->); destruct (type_byte p Hwf) as (x & -> & _); discriminate).
  all: pose proof Hc as Hc0; apply app_eq_app in Hc as (k & [[Hu Hrest]|[Hu Hrest]]).
  1, 3: destruct Hor as [Hor|Hor]; [|rewrite Hor in Hu; symmetry in Hu; now apply app_eq_nil in Hu as [Hu _]];
    eapply delivered_at_once; [exact Hrest|exact Hd|]; eapply packet_takes; eauto.
  - symmetry in Hrest. apply app_eq_nil in Hrest as [-> ->]. rewrite app_nil_r in Hu. destruct Hor as [Hor|Hor]; [|now rewrite Hor in Hu].
    apply (delivered_at_once p q [] [] []); auto. apply (packet_takes q [] p w []); auto. now rewrite app_nil_r.
  - destruct k as [|x k].
    { rewrite app_nil_r in Hu. cbn [app] in Hrest. destruct Hor as [Hor|Hor]; [|now rewrite Hor in Hu].
      apply (delivered_at_once p q (c :: cs) [] rest); auto. apply (packet_takes q (c :: cs) p w []); auto. now rewrite app_nil_r. }
    destruct (rewind_grows q c cs Hq) as [Hrw Hne].
    destruct (packet_waits q (c :: cs) c cs (q_done q) p (unparsed q) (x :: k)) as (q1 & E & Hr & Hu1 & Hm & Hd1 & _); auto; [discriminate| |now rewrite <- Hu| |].
    { pose proof (r_size _ _ Hq) as Hs. rewrite Hrest, !blen_app in Hs. pose proof (blen_nonneg rest). lia. }
    { intros Hin. apply (Huncut _ [] (c :: cs) Hin eq_refl). exact Hrest. }
    apply (delivered_later p q q1 c cs rest E Hm). destruct (moved_send q q1 [] Hm) as (_ & Hcomp & Hrev).
    apply (IH q1 w rest Hr); rewrite ?Hcomp, ?Hrev, ?Hd1; auto.
    + rewrite Hu1, <- app_assoc. exact Hc0.
    + intros t taken cs' Hin Ecs. apply (Huncut t (c :: taken) cs' Hin). now rewrite Ecs.
Qed.

(** ** A whole response *)

(** The blocks of a response and how it ends. *)
Inductive streamed : list Block -> list Packet -> result error (list Block) -> Prop :=
| s_end blocks : streamed blocks [PMessage SEndOfStream] (Ok blocks)
| s_exception blocks root nested : streamed blocks [PMessage (SException root nested)] (Err (chain_error root nested))
| s_data blocks t b ps res : streamed (blocks ++ [b]) ps res -> streamed blocks (PMessage (SData t b) :: ps) res
| s_passed blocks p ps res : passed p = true -> streamed blocks ps res -> streamed blocks (p :: ps) res.

(** The parts of a list behind some of its elements. *)
Fixpoint suffixes (cs : list bytes) : list (list bytes) :=
  cs :: match cs with [] => [] | _ :: cs => suffixes cs end.

(** No piece begins at a flag of a ProfileInfo packet. *)
Fixpoint uncut (rev : Z) (pieces : list bytes) (ps : list Packet) (ws : list bytes) (later : bytes) : bool :=
  match ps, ws with
  | p :: ps, _ :: ws =>
      forallb (fun t => forallb (fun cs => negb (bytes_eqb (concat cs) (t ++ concat ws ++ later))) (suffixes pieces)) (profile_tails rev p) &&
      uncut rev pieces ps ws later
  | _, _ => true
  end.

Lemma suffixes_all taken cs : In cs (suffixes (taken ++ cs)).
Proof. induction taken as [|c taken IH]; [destruct cs; now left|]. right. exact IH. Qed.

Lemma suffixes_app taken cs l : In l (suffixes cs) -> In l (suffixes (taken ++ cs)).
Proof. intros Hl. induction taken as [|c taken IH]; [exact Hl|]. right. exact IH. Qed.

Lemma uncut_suffix rev taken cs later : forall ps ws, uncut rev (taken ++ cs) ps ws later = true -> uncut rev cs ps ws later = true.
Proof.
  induction ps as [|p ps IH]; intros [|w ws] Hu; auto. cbn [uncut] in *. apply andb_prop in Hu as [Hp Hu]. apply andb_true_intro. split; [|now apply IH].
  rewrite forallb_forall in *. intros t Ht. specialize (Hp t Ht). rewrite forallb_forall in *. intros l Hl. apply Hp. now apply suffixes_app.
Qed.

Lemma uncut_here rev pieces p ps w ws later : uncut rev pieces (p :: ps) (w :: ws) later = true ->
  forall t taken cs, In t (profile_tails rev p) -> pieces = taken ++ cs -> concat cs <> t ++ concat ws ++ later.
Proof.
  intros Hu t taken cs Ht -> E. cbn [uncut] in Hu. apply andb_prop in Hu as [Hp _]. rewrite forallb_forall in Hp. specialize (Hp t Ht).
  rewrite forallb_forall in Hp. specialize (Hp cs (suffixes_all taken cs)). rewrite E in Hp. now rewrite bytes_eqb_refl in Hp.
Qed.

(** Going on with a call that has [rest] rounds left. *)
Definition collect_from (fuel calls rest : nat) (blocks : list Block) : io Stream (result error (list Block)) :=
  let* r := rounds rest in
  match r with
  | Ok (Some b) => collect_blocks fuel calls (blocks ++ [b])
  | Ok None => ret (Ok blocks)
  | Err e => ret (Err e)
  end.

Lemma collect_call fuel calls blocks q : q_done q = false -> collect_blocks fuel (S calls) blocks q = collect_from fuel calls fuel blocks q.
Proof. intros Hd. cbn [collect_blocks]. unfold collect_from, read_next_block. cbn [bind io_monad stream_state]. now rewrite Hd. Qed.

Definition collected (q : Stream) (cs : list bytes) (ps : list Packet) (later : bytes) (res : result error (list Block))
    (run : result error (result error (list Block) * Stream)) : Prop :=
  exists q' taken cs', run = Ok (res, q') /\ cs = taken ++ cs' /\ ready q' cs' /\ unparsed q' ++ concat cs' = later /\
    moved q q' (concat (map (answer (q_chunked_send q)) ps)) /\ q_done q' = true.

Lemma collected_later q q1 taken cs1 p ps later res run : moved q q1 (answer (q_chunked_send q) p) ->
  collected q1 cs1 ps later res run -> collected q (taken ++ cs1) (p :: ps) later res run.
Proof.
  intros Hm (q' & taken' & cs' & E & Ecs & Hr & Hc & Hm' & Hd). destruct (moved_send q q1 _ Hm) as (Hsend & _ & _).
  exists q', (taken ++ taken'), cs'. conj; auto; [now rewrite Ecs, app_assoc|]. destruct Hm as [Hs1 Ho1], Hm' as [Hs2 Ho2].
  split; [congruence|]. cbn [map concat]. now rewrite Ho2, Ho1, Hsend, <- app_assoc.
Qed.

(** A stream in front of the packets [ps], with enough rounds. *)
Record before (q : Stream) (cs : list bytes) (ps : list Packet) (ws : list bytes) (later : bytes) (fuel : nat) : Prop := {
  b_ready : ready q cs;
  b_open : q_done q = false;
  b_bytes : unparsed q ++ concat cs = concat ws ++ later;
  b_wf : Forall wf_packet ps;
  b_streamable : Forall (streamable (q_compressed q)) ps;
  b_sends : Forall2 (sends (q_compressed q) (q_revision q)) ps ws;
  b_uncut : uncut (q_revision q) cs ps ws later = true;
  b_fuel : (length cs + length ps <= fuel)%nat;
}.

Lemma collect_packet fuel calls rest blocks q cs p ps w ws later :
  before q cs (p :: ps) (w :: ws) later rest ->
  exists q1 taken cs1 rest1, cs = taken ++ cs1 /\ moved q q1 (answer (q_chunked_send q) p) /\ ready q1 cs1 /\
    unparsed q1 ++ concat cs1 = concat ws ++ later /\ q_done q1 = ends_response p /\
    (q_done q1 = false -> before q1 cs1 ps ws later rest1 /\ forall fuel, (length cs + S (length ps) <= fuel)%nat -> before q1 cs1 ps ws later fuel) /\
    collect_from fuel calls rest blocks q =
      match outcome p with
      | Some (Ok (Some b)) => collect_blocks fuel calls (blocks ++ [b]) q1
      | Some (Ok None) => Ok (Ok blocks, q1)
      | Some (Err e) => Ok (Err e, q1)
      | None => collect_from fuel calls rest1 blocks q1
      end.
Proof.
  intros [Hq Hd Hc Hwf Hst Hs Hu Hrest]. inversion Hs as [|? ? ? ? Hw Hws]; subst. inversion Hwf as [|? ? Hp Hwf']; subst.
  inversion Hst as [|? ? Hp' Hst']; subst. cbn [concat length] in Hc, Hrest. rewrite <- app_assoc in Hc.
  destruct (packet_delivered p cs q w _ Hq Hd Hc Hw Hp Hp' (uncut_here _ _ _ _ _ _ _ Hu)) as
    (k & q1 & taken & cs1 & Hk & Hrounds & Hq1 & -> & Hc1 & Hm & Hd1).
  rewrite length_app in Hrest. exists q1, taken, cs1, (rest - k)%nat. destruct (moved_send q q1 _ Hm) as (_ & Hcomp & Hrev).
  assert (uncut (q_revision q1) cs1 ps ws later = true) as Hu1.
  { rewrite Hrev. cbn [uncut] in Hu. apply andb_prop in Hu as [_ Hu]. now apply uncut_suffix in Hu. }
  rewrite <- Hcomp in Hst'. rewrite <- Hcomp, <- Hrev in Hws. conj; auto.
  - intros Hopen. split; [split; auto; lia|]. intros f Hf. rewrite length_app in Hf. split; auto. lia.
  - unfold collect_from. cbn [bind io_monad]. specialize (Hrounds (rest - k)%nat). replace (k + (rest - k))%nat with rest in Hrounds by lia.
    rewrite Hrounds. destruct (outcome p) as [[[b|]|e]|]; reflexivity.
Qed.

Lemma collect_streamed fuel blocks ps res (Hres : streamed blocks ps res) : forall q cs ws later rest calls,
  before q cs ps ws later rest -> (length cs + length ps <= fuel)%nat -> (length ps <= S calls)%nat ->
  collected q cs ps later res (collect_from fuel calls rest blocks q).
Proof.
  induction Hres as [blocks|blocks root nested|blocks t b ps res Hres IH|blocks p ps res Hpass Hres IH];
    intros q cs ws later rest calls Hbefore Hfuel Hcalls; pose proof (b_sends _ _ _ _ _ _ Hbefore) as Hs; inversion Hs as [|? w ? ws' Hw Hws]; subst;
    destruct (collect_packet fuel calls rest blocks q cs _ _ w ws' later Hbefore) as (q1 & taken & cs1 & rest1 & -> & Hm & Hq1 & Hc1 & Hd1 & Hgo & E);
    rewrite E; cbn [outcome ends_response] in *.
  - inversion Hws; subst. cbn [concat app] in Hc1. exists q1, taken, cs1. cbn [map concat]. rewrite app_nil_r. auto 8.
  - inversion Hws; subst. cbn [concat app] in Hc1. exists q1, taken, cs1. cbn [map concat]. rewrite app_nil_r. auto 8.
  - apply (collected_later q q1 _ _ _ _ _ _ _ Hm). destruct (Hgo Hd1) as [_ Hgo']. destruct calls as [|calls]; [destruct Hres; cbn in Hcalls; lia|].
    rewrite collect_call by exact Hd1. rewrite length_app in *. cbn [length] in *. apply (IH q1 cs1 ws'); [apply Hgo'; lia|lia|lia].
  - assert (ends_response p = false /\ outcome p = None) as [He Ho] by (destruct p as [[]| | |]; try discriminate Hpass; auto).
    rewrite He in Hd1. rewrite Ho. apply (collected_later q q1 _ _ _ _ _ _ _ Hm). destruct (Hgo Hd1) as [Hb _]. rewrite length_app in *. cbn [length] in *.
    apply (IH q1 cs1 ws'); [exact Hb|lia|lia].
Qed.

(** C8: a streamed query delivers the response.  However the socket cuts the response into
    pieces, plain or chunked, compressed or not, the blocks come out of [read_next_block] in
    order, an exception of the server is reported in its place, the coordinator's requests
    are answered, and what follows the response is still to be read; the number of rounds is
    bounded by the packets and the pieces.  Assumed is that no piece begins at one of the two
    flags of a ProfileInfo packet, that compressed packets carry the empty table name, and
    that the blocks' columns are of types stored as they are sent (no LowCardinality, JSON or
    Dynamic). *)
Theorem stream_delivers (r : Wired R) (size : nat) (compressed : bool) (rev : Z) (recv send : bool) (cs : list bytes)
    (ps : list Packet) (ws : list bytes) (later : bytes) (res : result error (list Block)) (fuel calls : nat) :
  feeds recv size r cs -> concat cs = concat ws ++ later -> blen (concat cs) <= ISIZE_MAX ->
  streamed [] ps res -> Forall wf_packet ps -> Forall (streamable compressed) ps -> Forall2 (sends compressed rev) ps ws ->
  uncut rev cs ps ws later = true -> (length cs + length ps <= fuel)%nat -> (length ps <= calls)%nat ->
  exists q, collect_blocks fuel calls [] (new_query_stream r size compressed rev recv send) = Ok (res, q) /\
    stream_content q = later /\ outgoing (q_stream q) = outgoing r ++ concat (map (answer send) ps).
Proof.
  intros Hf Hc Hlen Hres Hwf Hst Hs Hu Hfuel Hcalls. set (q0 := new_query_stream r size compressed rev recv send).
  assert (before q0 cs ps ws later fuel) as Hb.
  { split; auto. split; [split; [reflexivity|discriminate]|exact Hf|exact Hlen]. }
  destruct calls as [|calls]; [destruct Hres; cbn in Hcalls; lia|]. rewrite collect_call by reflexivity.
  destruct (collect_streamed fuel [] ps res Hres q0 cs ws later fuel calls Hb Hfuel Hcalls) as (q & taken & cs' & E & _ & Hr & Hc' & [_ Ho] & _).
  exists q. conj; [exact E| |exact Ho]. now rewrite (ready_content q cs' Hr).
Qed.

(** ** A socket that ends *)

(** C40: a response that is cut short is never reported.  When the socket has ended and the
    buffer holds nothing, or a part of a packet that is neither an exception or EndOfStream
    nor compressed (a cut compressed block is reported as an error) and is not cut right
    before a flag of ProfileInfo, [read_next_block] does not return, whatever number of
    rounds it is given: the end is recorded in [done], which only the next call looks at. *)
Theorem truncated_response_never_returns (q : Stream) (p : Packet) (l l2 : bytes) (fuel : nat) :
  ready q [] -> q_done q = false -> unparsed q = l -> sends (q_compressed q) (q_revision q) p (l ++ l2) -> l2 <> [] ->
  blen (q_buffer q) + blen l2 <= ISIZE_MAX -> wf_packet p -> streamable (q_compressed q) p ->
  l = [] \/ inflates (q_compressed q) p = false /\ ends_response p = false /\ ~ In l2 (profile_tails (q_revision q) p) ->
  read_next_block fuel q = Err ModelFuel.
Proof.
  intros Hq Hd Hu Hs Hne Hlen Hwf Hst Hor. unfold read_next_block. cbn [bind io_monad stream_state]. rewrite Hd. clear Hd.
  revert q Hq Hu Hs Hlen Hst Hor. induction fuel as [|fuel IH]; intros q Hq Hu Hs Hlen Hst Hor; [reflexivity|].
  pose proof (rewind_ends q Hq) as Hrw.
  assert (waits (round q) q [] [] true) as (q' & E & Hr & Hu' & Hm & _ & Hb).
  { destruct Hor as [->|(Hinf & He & Ht)]; [now apply (round_empty q [])|]. now apply (packet_waits q [] [] [] true p l l2); auto. }
  cbn [rounds]. cbn [bind io_monad]. rewrite E. destruct (moved_send q q' [] Hm) as (_ & Hcomp & Hrev). rewrite app_nil_r in Hu'.
  rewrite blen_nil in Hb. apply IH; rewrite ?Hcomp, ?Hrev; auto; [congruence|lia].
Qed.
End Rounds.

(** ** Streams over a socket *)

#[local] Existing Instance sample_codecs.

Lemma socket_feeds size segs out : Forall (fun s => s <> [] /\ (length s <= size)%nat) segs ->
  plain_feeds size (mkWired (Socket segs) out) segs.
Proof.
  intros Hsegs. assert (Forall (fun s : bytes => s <> []) segs) as Hne by (eapply Forall_impl; [|exact Hsegs]; now intros s [? _]).
  induction Hsegs as [|s segs [Hs Hlen] Hsegs IH]; [now constructor|]. inversion Hne as [|? ? _ Hne']; subst.
  apply (feeds_piece size (mkWired (Socket (s :: segs)) out) s (mkWired (Socket segs) out) segs); [exact Hne| |exact Hs|exact (IH Hne')].
  cbn. now rewrite firstn_all2, skipn_all2 by lia.
Qed.

(** A compressed response that a server sends in pieces of five bytes. *)
Definition sample_profile : ProfileInfo := mkProfile 2 1 30 x00 0 x01 x00 0.

Definition streamed_packets : list Packet :=
  [PMessage (SProgress (mkProgress 1 2 3 4 5 6 7)); PMessage (SData [] written_sample); PReadRequest sample_request;
   PMessage (SData [] written_sample); PMessage (SProfileInfo sample_profile); PMessage SEndOfStream].

Definition streamed_bytes : list bytes :=
  [write_varint 3 ++ write_progress 54483 (mkProgress 1 2 3 4 5 6 7); write_varint 1 ++ write_string [] ++ concat sample_frames;
   write_varint 16 ++ write_read_request sample_request; write_varint 1 ++ write_string [] ++ concat sample_frames;
   write_varint 6 ++ write_profile_info 54483 sample_profile; write_varint 5 ++ []].

Fixpoint in_pieces (fuel size : nat) (w : bytes) : list bytes :=
  match fuel, w with
  | S fuel, _ :: _ => firstn size w :: in_pieces fuel size (skipn size w)
  | _, _ => []
  end.

Definition in_fives (w : bytes) : list bytes := in_pieces (length w) 5 w.

Lemma streamed_packets_wf : Forall wf_packet streamed_packets.
Proof.
  unfold streamed_packets. repeat (apply Forall_cons; [|]); try apply Forall_nil; cbn [wf_packet wf_message]; auto;
    repeat split; discriminate || reflexivity.
Qed.

Lemma streamed_packets_sent : Forall2 (sends true 54483) streamed_packets streamed_bytes.
Proof.
  unfold streamed_packets, streamed_bytes. repeat (apply Forall2_cons; [eexists; split; [|reflexivity]; constructor|]); try apply Forall2_nil;
    exact sample_body.
Qed.

Lemma stream_delivers_witness :
  exists q, collect_blocks 200 6 [] (new_query_stream (mkWired (Socket (in_fives (concat streamed_bytes ++ [x04]))) []) 16 true 54483 false true) =
      Ok (Ok [written_sample; written_sample], q) /\
    stream_content q = [x04] /\ outgoing (q_stream q) = [] ++ concat (map (answer true) streamed_packets).
Proof.
  apply (@stream_delivers sample_codecs sample_codec_laws socket _ _ (mkWired (Socket (in_fives (concat streamed_bytes ++ [x04]))) []) 16 true 54483
    false true (in_fives (concat streamed_bytes ++ [x04])) streamed_packets streamed_bytes [x04]).
  - split; [lia|]. apply socket_feeds. assert (forallb (fun s => negb (length s =? 0)%nat && (length s <=? 16)%nat) (in_fives (concat streamed_bytes ++ [x04])) = true) as Hb
      by (vm_compute; reflexivity).
    rewrite forallb_forall in Hb. apply Forall_forall. intros s Hs. specialize (Hb s Hs). apply andb_prop in Hb as [Hb1 Hb2].
    split; [intros ->; discriminate|now apply Nat.leb_le].
  - vm_compute. reflexivity.
  - vm_compute. discriminate.
  - unfold streamed_packets. repeat first [apply s_passed; [reflexivity|]|apply s_data]. apply s_end.
  - exact streamed_packets_wf.
  - unfold streamed_packets. repeat (apply Forall_cons; [|]); try apply Forall_nil; cbn [streamable]; auto.
  - exact streamed_packets_sent.
  - vm_compute. reflexivity.
  - vm_compute. lia.
  - cbn. lia.
Defined.

(** The socket ends after six of the bytes of a Progress packet. *)
Definition truncated_stream : QueryStream (Wired socket) :=
  mkQueryStream (firstn 6 (nth 0 streamed_bytes [])) 0 (mkWired (Socket []) []) 16 false 54483 false false false.

Lemma truncated_response_never_returns_witness : read_next_block 1000 truncated_stream = Err ModelFuel.
Proof.
  apply (@truncated_response_never_returns sample_codecs socket _ _ truncated_stream
    (PMessage (SProgress (mkProgress 1 2 3 4 5 6 7))) (firstn 6 (nth 0 streamed_bytes [])) (skipn 6 (nth 0 streamed_bytes []))).
  - split; [vm_compute; split; discriminate| |vm_compute; discriminate]. split; [cbn; lia|]. constructor; [constructor|reflexivity|reflexivity].
  - reflexivity.
  - reflexivity.
  - rewrite firstn_skipn. eexists. split; [constructor|reflexivity].
  - vm_compute. discriminate.
  - vm_compute. discriminate.
  - cbn [wf_packet wf_message]. repeat split; discriminate.
  - exact I.
  - right. split; [reflexivity|]. split; [reflexivity|]. cbn. tauto.
Defined.

(** ** Where the place is lost *)

(** The same ProfileInfo packet, cut somewhere else: a piece that ends before
    [applied_limit] makes the next type be read from inside the packet. *)
Lemma profile_cut_loses_place :
  let w := write_varint 6 ++ write_profile_info 54483 sample_profile in
  let stream := fun k => new_query_stream (mkWired (Socket [firstn k w; skipn k w ++ write_varint 5]) []) 16 false 54483 false false in
  map (fun k => match collect_blocks 20 5 [] (stream k) with Ok (r, _) => Some r | Err _ => None end) [3; 4; 5; 6; 7; 8]%nat =
  [Some (Ok []); None; Some (Ok []); None; Some (Ok []); Some (Ok [])].
Proof. vm_compute. reflexivity. Qed.
