(* ===== verification/QueryPacket.v ===== *)
(** * Query packets ([sync/query_packet.rs], [sync/client_info.rs], [connection/query_packet.rs],
      [connection/io.rs], [client_info.rs], [shared/parameters.rs], [shared/settings.rs], [query_id.rs])

    How the two engines write a query: its id, the client information, the settings (the
    client's own, the session's and the query's), the query text, its parameters and the
    closing empty block.  [read_query] is the server's side of the format; the packets are
    shown to say what they are meant to say, and the two engines to write the same bytes. *)

From Stdlib Require Import String ZArith Lia Bool List.
From Stdlib Require Import Strings.Byte.
From coqutil Require Import Byte.
From S2P Require Import Prelude Revision Reader Session Limits Utf8 Wire TypeParser BlockReader BlockWriter Chunked Compression Response Handshake.
Import ListNotations.

(** ** Settings *)

Definition OUTPUT_FORMAT_NATIVE_WRITE_JSON_AS_STRING : bytes := str "output_format_native_write_json_as_string".
Definition RATIO_OF_DEFAULTS_FOR_SPARSE_SERIALIZATION : bytes := str "ratio_of_defaults_for_sparse_serialization".

(** A [HashMap<String, String>] is the list of its entries, in the order of its iteration. *)
Abbreviation settings_map := (list (bytes * bytes)).

(** [HashMap::get] and [HashMap::contains_key] *)
Fixpoint get_key (m : settings_map) (k : bytes) : option bytes :=
  match m with
  | [] => None
  | (n, v) :: m => if bytes_eqb n k then Some v else get_key m k
  end.

Definition contains_key (m : settings_map) (k : bytes) : bool := is_some (get_key m k).

(** A setting on the wire: its name, no flags, its value. *)
Definition write_entry0 (entry : bytes * bytes) : bytes :=
  write_string (fst entry) ++ write_varint 0 ++ write_string (snd entry).

(** ** Query parameters ([shared/parameters.rs]) *)

Record QueryParameter := mkParameter { p_name : bytes; p_value : option bytes }.

Definition QUERY_PARAMETER_CUSTOM_FLAG : Z := 2.

(** What the loop of [write_quoted_string_to_vec] writes for one byte. *)
Definition quote_byte (b : Init.Byte.byte) : bytes :=
  match b with
  | x00 => str "\x00"
  | x08 => str "\x08"
  | x09 => str "\\\t"
  | x0a => str "\\\n"
  | x27 => str "\x27"
  | x5c => str "\\\\"
  | _ => [b]
  end.

Definition quoted_len (value : bytes) : Z :=
  fold_right Z.add 0 (map (fun b => match b with x00 | x08 | x09 | x0a | x27 | x5c => 4 | _ => 1 end) value) + 2.

Definition write_quoted_string_to_vec (value : bytes) : bytes :=
  write_varint (quoted_len value) ++ [x27] ++ concat (map quote_byte value) ++ [x27].

Definition write_param_null_to_vec : bytes := write_string (str "'\\N'").

Definition write_query_parameters_to_vec (params : list QueryParameter) : bytes :=
  concat (map (fun p =>
    write_string (p_name p) ++ write_varint QUERY_PARAMETER_CUSTOM_FLAG ++
    match p_value p with
    | Some value => write_quoted_string_to_vec value
    | None => write_param_null_to_vec
    end) params) ++ write_string [].

Definition query_parameters_capacity (params : list QueryParameter) : Z :=
  match params with
  | [] => 1
  | _ => fold_right Z.add 0 (map (fun p =>
           blen (p_name p) + match p_value p with Some v => quoted_len v | None => 5 end + 8) params) + 1
  end.

(** ** Query ids ([query_id.rs]) *)

Definition hex_lower (digit : Z) : Init.Byte.byte :=
  byte.of_Z (if digit <? 10 then 48 + digit else 97 + (digit - 10)).

(** The loop over the digits, from the highest; [digits] is the number of digits left. *)
Fixpoint write_hex (digits : nat) (n : Z) (started : bool) : bytes :=
  match digits with
  | O => []
  | S digits =>
      let shift := 4 * Z.of_nat digits in
      let digit := Z.land (Z.shiftr n shift) 0x0F in
      if negb (digit =? 0) || started || (shift =? 0)
      then hex_lower digit :: write_hex digits n true
      else write_hex digits n started
  end.

(** The id, and the counter after [fetch_add]. *)
Definition next_query_id_with_prefix (prefix : bytes) (process_id counter : Z) : bytes * Z :=
  let process_prefix_value := Z.shiftl (Z.land process_id 0xFFFFFFFF) 32 in
  let n := Z.lor process_prefix_value (Z.land counter 0xFFFFFFFF) in
  (prefix ++ write_hex 16 n false, (counter + 1) mod 2 ^ 64).

Definition STANDARD_QUERY_ID_PREFIX : bytes := str "st-ch-".

Definition next_query_id (process_id counter : Z) : bytes * Z :=
  next_query_id_with_prefix STANDARD_QUERY_ID_PREFIX process_id counter.

(** ** Client information *)

Record ClientInfoTemplate := mkInfoTemplate {
  before_initial_query_id : bytes;
  after_initial_query_id : bytes;
}.

Definition write_client_info_from_template (template : ClientInfoTemplate) (query_id : bytes) : bytes :=
  before_initial_query_id template ++ write_string_bytes query_id ++ after_initial_query_id template.

(** The block that both engines send after a query without external tables. *)
Definition empty_block_body : bytes :=
  write_varint 1 ++ [x00] ++ write_varint 2 ++ i32_to_le (-1) ++ write_varint 0 ++ write_varint 0 ++ write_varint 0.

Section Packets.
Context `{Codecs}.

(** ** The synchronous engine *)

Definition sync_client_info_template (config : Sync.ClientConfig) (rev : Z) : ClientInfoTemplate :=
  mkInfoTemplate
    ([x01] ++ write_string (Sync.initial_user config))
    (write_string (Sync.initial_address config) ++
     since DBMS_MIN_REVISION_WITH_INITIAL_QUERY_START_TIME rev (to_le 8 0) ++
     [x01] ++
     write_string (Sync.os_user config) ++ write_string (Sync.client_hostname config) ++
     write_string (Sync.client_name config) ++
     write_varint (Sync.client_version_major config) ++ write_varint (Sync.client_version_minor config) ++
     write_varint rev ++
     since DBMS_MIN_REVISION_WITH_QUOTA_KEY_IN_CLIENT_INFO rev (write_string (Sync.quota_key config)) ++
     since DBMS_MIN_REVISION_WITH_DISTRIBUTED_DEPTH rev (write_varint 0) ++
     since DBMS_MIN_REVISION_WITH_VERSION_PATCH rev (write_varint (Sync.client_version_patch config)) ++
     since DBMS_MIN_REVISION_WITH_OPENTELEMETRY rev [x00] ++
     since DBMS_MIN_REVISION_WITH_PARALLEL_REPLICAS rev (write_varint 0 ++ write_varint 0 ++ write_varint 0) ++
     since DBMS_MIN_REVISION_WITH_QUERY_AND_LINE_NUMBERS rev (write_varint 0 ++ write_varint 0) ++
     since DBMS_MIN_REVISION_WITH_JWT_IN_INTERSERVER rev [x00]).

Definition write_serialized_settings_overlay (base overlay : settings_map) (rev : Z) : bytes :=
  (if (DBMS_MIN_REVISION_WITH_SPARSE_SERIALIZATION <=? rev) &&
      negb (contains_key base RATIO_OF_DEFAULTS_FOR_SPARSE_SERIALIZATION) &&
      negb (contains_key overlay RATIO_OF_DEFAULTS_FOR_SPARSE_SERIALIZATION)
   then write_entry0 (RATIO_OF_DEFAULTS_FOR_SPARSE_SERIALIZATION, str "1") else []) ++
  (if negb (contains_key base OUTPUT_FORMAT_NATIVE_WRITE_JSON_AS_STRING) &&
      negb (contains_key overlay OUTPUT_FORMAT_NATIVE_WRITE_JSON_AS_STRING)
   then write_entry0 (OUTPUT_FORMAT_NATIVE_WRITE_JSON_AS_STRING, str "1") else []) ++
  concat (map (fun entry => if contains_key overlay (fst entry) then [] else write_entry0 entry) base) ++
  concat (map write_entry0 overlay) ++
  write_string [].

(** [write_empty_data_block_for]: the bytes that are in the buffer when it returns, and
    what it returns. *)
Definition write_empty_data_block_for (compression : option CompressionMethod) : bytes * result error unit :=
  let header := write_varint 2 ++ write_string [] in
  match compression with
  | Some (Lz4 as method) | Some (Zstd as method) =>
      match encode_frame empty_block_body method with
      | Ok frame => (header ++ frame, Ok tt)
      | Err e => (header, Err e)
      end
  | Some MNone | None => (header ++ empty_block_body, Ok tt)
  end.

Record QueryPacketTemplate := mkTemplate {
  prefix : bytes;
  client_info : option ClientInfoTemplate;
  before_query : bytes;
  settings_len : Z;
  select_suffix : bytes;
  insert_suffix : bytes;
  select_capacity : Z;
  insert_capacity : Z;
}.

Definition sync_query_packet_template (config : Sync.ClientConfig) (rev : Z) : QueryPacketTemplate :=
  let prefix := write_varint 1 in
  let client_info :=
    if DBMS_MIN_REVISION_WITH_CLIENT_INFO <=? rev then Some (sync_client_info_template config rev) else None in
  let settings := write_serialized_settings_overlay (Sync.settings config) [] rev in
  let before_query := settings ++
    since DBMS_MIN_PROTOCOL_VERSION_WITH_INTERSERVER_EXTERNALLY_GRANTED_ROLES rev (write_string []) ++
    since DBMS_MIN_REVISION_WITH_INTERSERVER_SECRET rev (write_string []) ++
    write_varint 2 ++ write_varint (if is_some (Sync.compression config) then 1 else 0) in
  let insert_suffix := since DBMS_MIN_PROTOCOL_VERSION_WITH_PARAMETERS rev (write_string []) in
  let select_suffix := insert_suffix ++ fst (write_empty_data_block_for (Sync.compression config)) in
  let client_info_len :=
    match client_info with
    | Some t => blen (before_initial_query_id t) + blen (after_initial_query_id t)
    | None => 0
    end in
  let fixed_capacity := blen prefix + client_info_len + blen before_query in
  mkTemplate prefix client_info before_query (blen settings) select_suffix insert_suffix
    (fixed_capacity + blen select_suffix) (fixed_capacity + blen insert_suffix).

(** The fields of [SyncClient] a packet is built from. *)
Record SyncClient := mkClient {
  config : Sync.ClientConfig;
  server_revision : Z;
  query_template : QueryPacketTemplate;
}.

(** [SyncClient::refresh_query_template], and the template of a new client. *)
Definition refresh_query_template (config : Sync.ClientConfig) (rev : Z) : SyncClient :=
  mkClient config rev (sync_query_packet_template config rev).

(** [SyncClient::set_setting] *)
Definition insert_key (m : settings_map) (k v : bytes) : settings_map :=
  if contains_key m k then map (fun e => if bytes_eqb (fst e) k then (k, v) else e) m else m ++ [(k, v)].

Definition build_query_packet_inner (c : SyncClient) (query_id query : bytes) (include_empty_block : bool)
    (params : list QueryParameter) (settings : settings_map) : bytes :=
  let t := query_template c in
  prefix t ++ write_string_bytes query_id ++
  match client_info t with Some info => write_client_info_from_template info query_id | None => [] end ++
  (if blen settings =? 0 then before_query t
   else write_serialized_settings_overlay (Sync.settings (config c)) settings (server_revision c) ++
        drop (settings_len t) (before_query t)) ++
  write_string query ++
  match params, include_empty_block with
  | [], true => select_suffix t
  | [], false => insert_suffix t
  | _, _ =>
      (if server_revision c <? DBMS_MIN_PROTOCOL_VERSION_WITH_PARAMETERS then write_string []
       else write_query_parameters_to_vec params) ++
      (if include_empty_block then fst (write_empty_data_block_for (Sync.compression (config c))) else [])
  end.

(** ** The asynchronous engine *)

Definition compression_flag (compression : option CompressionMethod) : Z :=
  match compression with Some Lz4 | Some Zstd => 1 | Some MNone | None => 0 end.

Definition write_empty_data_for (compression : option CompressionMethod) : bytes :=
  match compression with
  | Some (Lz4 as method) | Some (Zstd as method) =>
      write_varint 2 ++ write_string [] ++
      match encode_frame empty_block_body method with Ok frame => frame | Err _ => [] end
  | Some MNone | None => write_varint 2 ++ write_string [] ++ empty_block_body
  end.

Definition async_client_info_template (rev : Z) (quota_key : bytes) : ClientInfoTemplate :=
  mkInfoTemplate
    (write_string [])
    (write_string (str "0.0.0.0:0") ++
     since DBMS_MIN_REVISION_WITH_INITIAL_QUERY_START_TIME rev (to_le 8 0) ++
     [x01] ++
     write_string [] ++ write_string (str "rust-client") ++ write_string (str "st-clickhouse") ++
     write_varint 26 ++ write_varint 4 ++ write_varint rev ++
     since DBMS_MIN_REVISION_WITH_QUOTA_KEY_IN_CLIENT_INFO rev (write_string quota_key) ++
     since DBMS_MIN_REVISION_WITH_DISTRIBUTED_DEPTH rev (write_varint 0) ++
     since DBMS_MIN_REVISION_WITH_VERSION_PATCH rev (write_varint 2) ++
     since DBMS_MIN_REVISION_WITH_OPENTELEMETRY rev [x00] ++
     since DBMS_MIN_REVISION_WITH_PARALLEL_REPLICAS rev (write_varint 0 ++ write_varint 0 ++ write_varint 0) ++
     since DBMS_MIN_REVISION_WITH_QUERY_AND_LINE_NUMBERS rev (write_varint 0 ++ write_varint 0) ++
     since DBMS_MIN_REVISION_WITH_JWT_IN_INTERSERVER rev [x00]).

Definition write_protocol_default_settings (settings : settings_map) (rev : Z) : bytes :=
  (if (DBMS_MIN_REVISION_WITH_SPARSE_SERIALIZATION <=? rev) &&
      negb (contains_key settings RATIO_OF_DEFAULTS_FOR_SPARSE_SERIALIZATION)
   then write_entry0 (RATIO_OF_DEFAULTS_FOR_SPARSE_SERIALIZATION, str "1") else []) ++
  (if negb (contains_key settings OUTPUT_FORMAT_NATIVE_WRITE_JSON_AS_STRING)
   then write_entry0 (OUTPUT_FORMAT_NATIVE_WRITE_JSON_AS_STRING, str "1") else []).

(** [merge_settings]: the base, overwritten and extended by the overrides. *)
Definition merge_settings (base overrides : settings_map) : settings_map :=
  fold_left (fun m '(k, v) => insert_key m k v) overrides base.

Record QueryPacketCommonTemplate := mkCommon {
  c_prefix : bytes;
  c_client_info : option ClientInfoTemplate;
  c_before_query : bytes;
}.

Definition build_query_packet_common_template (settings : settings_map) (compression : option CompressionMethod)
    (rev : Z) (quota_key : bytes) : QueryPacketCommonTemplate :=
  mkCommon (write_varint 1)
    (if DBMS_MIN_REVISION_WITH_CLIENT_INFO <=? rev then Some (async_client_info_template rev quota_key) else None)
    (write_protocol_default_settings settings rev ++
     concat (map write_entry0 settings) ++
     write_string [] ++
     since DBMS_MIN_PROTOCOL_VERSION_WITH_INTERSERVER_EXTERNALLY_GRANTED_ROLES rev (write_string []) ++
     since DBMS_MIN_REVISION_WITH_INTERSERVER_SECRET rev (write_string []) ++
     write_varint 2 ++ write_varint (compression_flag compression)).

Definition write_query_packet_common_from_template (t : QueryPacketCommonTemplate) (query_id : bytes) : bytes :=
  c_prefix t ++ write_string_bytes query_id ++
  match c_client_info t with
  | Some info => write_varint 1 ++ write_client_info_from_template info query_id
  | None => []
  end ++
  c_before_query t.

Record AsyncTemplate := mkAsyncTemplate {
  t_revision : Z;
  t_compression : option CompressionMethod;
  t_quota_key : bytes;
  t_common : QueryPacketCommonTemplate;
  t_select_suffix : bytes;
  t_insert_suffix : bytes;
}.

Definition async_query_packet_template (settings : settings_map) (compression : option CompressionMethod)
    (rev : Z) (quota_key : bytes) : AsyncTemplate :=
  let insert_suffix := since DBMS_MIN_PROTOCOL_VERSION_WITH_PARAMETERS rev (write_string []) in
  mkAsyncTemplate rev compression quota_key
    (build_query_packet_common_template settings compression rev quota_key)
    (insert_suffix ++ write_empty_data_for compression) insert_suffix.

Definition build_query_packet_from_template (t : AsyncTemplate) (query query_id : bytes)
    (include_empty_block : bool) (params : list QueryParameter) : bytes :=
  write_query_packet_common_from_template (t_common t) query_id ++
  write_string query ++
  match params, include_empty_block with
  | [], true => t_select_suffix t
  | [], false => t_insert_suffix t
  | _, _ =>
      since DBMS_MIN_PROTOCOL_VERSION_WITH_PARAMETERS (t_revision t) (write_query_parameters_to_vec params) ++
      (if include_empty_block then write_empty_data_for (t_compression t) else [])
  end.

Definition build_query_packet (t : AsyncTemplate) (query : bytes) (external_tables : list (bytes * Block))
    (query_id : bytes) (params : list QueryParameter) : bytes :=
  build_query_packet_from_template t query query_id false params ++
  concat (map (fun '(name, block) => if 0 <? rows block then write_data_packet name block else []) external_tables) ++
  write_empty_data_for (t_compression t).

Definition build_query_packet_from_cached_or_revision (cached : AsyncTemplate) (settings : settings_map) (rev : Z)
    (query query_id : bytes) (include_empty_block : bool) (params : list QueryParameter) : bytes :=
  if t_revision cached =? rev
  then build_query_packet_from_template cached query query_id include_empty_block params
  else build_query_packet_from_template (async_query_packet_template settings (t_compression cached) rev (t_quota_key cached))
         query query_id include_empty_block params.

Definition cached_template_reusable (per_query_settings : settings_map)
    (per_query_compression : option CompressionMethod) (cached_rev negotiated_rev : Z) : bool :=
  (blen per_query_settings =? 0) && negb (is_some per_query_compression) && (cached_rev =? negotiated_rev).
End Packets.

(** ** The server's side of the format *)

Record ClientInfo := mkInfo {
  i_kind : Z;
  i_initial_user : bytes;
  i_query_id : bytes;
  i_address : bytes;
  i_interface : Z;
  i_os_user : bytes;
  i_hostname : bytes;
  i_client_name : bytes;
  i_major : Z;
  i_minor : Z;
  i_revision : Z;
  i_quota_key : bytes;
  i_patch : Z;
}.

Record QueryMessage := mkQuery {
  q_id : bytes;
  q_info : option ClientInfo;
  q_settings : list (bytes * Z * bytes);
  q_stage : Z;
  q_compression : Z;
  q_text : bytes;
  q_params : list (bytes * Z * bytes);
}.

Definition read_byte : reader Z := let* bs := read_exact_r 1 in ret (byte0 bs).

Definition read_client_info (rev : Z) : reader ClientInfo :=
  let* kind := read_byte in
  let* user := read_string_bytes in
  let* id := read_string_bytes in
  let* address := read_string_bytes in
  field_since DBMS_MIN_REVISION_WITH_INITIAL_QUERY_START_TIME rev [] (read_exact_r 8) ;;
  let* interface := read_byte in
  let* os_user := read_string_bytes in
  let* hostname := read_string_bytes in
  let* client_name := read_string_bytes in
  let* major := read_varint in
  let* minor := read_varint in
  let* revision := read_varint in
  let* quota_key := field_since DBMS_MIN_REVISION_WITH_QUOTA_KEY_IN_CLIENT_INFO rev [] read_string_bytes in
  field_since DBMS_MIN_REVISION_WITH_DISTRIBUTED_DEPTH rev 0 read_varint ;;
  let* patch := field_since DBMS_MIN_REVISION_WITH_VERSION_PATCH rev 0 read_varint in
  field_since DBMS_MIN_REVISION_WITH_OPENTELEMETRY rev 0 read_byte ;;
  field_since DBMS_MIN_REVISION_WITH_PARALLEL_REPLICAS rev 0 (read_varint ;; read_varint ;; read_varint) ;;
  field_since DBMS_MIN_REVISION_WITH_QUERY_AND_LINE_NUMBERS rev 0 (read_varint ;; read_varint) ;;
  field_since DBMS_MIN_REVISION_WITH_JWT_IN_INTERSERVER rev 0 read_byte ;;
  ret (mkInfo kind user id address interface os_user hostname client_name major minor revision quota_key patch).

(** Entries of settings or parameters, up to the empty name. *)
Definition entries_step (self : unit -> reader (list (bytes * Z * bytes))) (_ : unit)
  : reader (list (bytes * Z * bytes)) :=
  let* name := read_string_bytes in
  if blen name =? 0 then ret []
  else
    let* flags := read_varint in
    let* value := read_string_bytes in
    let* rest := self tt in
    ret ((name, flags, value) :: rest).

Definition read_entries : reader (list (bytes * Z * bytes)) :=
  deep STREAM_BITS entries_step (fun _ => throw ModelFuel) tt.

(** A query packet, up to the data packets that follow it. *)
Definition read_query (rev : Z) : reader QueryMessage :=
  let* code := read_varint in
  if negb (code =? ClientPacket.code ClientPacket.Query) then throw (Protocol (msg "not a query"))
  else
    let* id := read_string_bytes in
    let* info := field_since DBMS_MIN_REVISION_WITH_CLIENT_INFO rev None
                   (let* info := read_client_info rev in ret (Some info)) in
    let* settings := read_entries in
    field_since DBMS_MIN_PROTOCOL_VERSION_WITH_INTERSERVER_EXTERNALLY_GRANTED_ROLES rev [] read_string_bytes ;;
    field_since DBMS_MIN_REVISION_WITH_INTERSERVER_SECRET rev [] read_string_bytes ;;
    let* stage := read_varint in
    let* compression := read_varint in
    let* text := read_string_bytes in
    let* params := field_since DBMS_MIN_PROTOCOL_VERSION_WITH_PARAMETERS rev [] read_entries in
    ret (mkQuery id info settings stage compression text params).

Definition short (s : bytes) : bool := blen s <=? MAX_STRING_BYTES.

(** An entry the format can carry: an empty name would end the list. *)
Definition wf_entry0 (entry : bytes * bytes) : bool :=
  negb (blen (fst entry) =? 0) && short (fst entry) && short (snd entry).

Definition flagged (flags : Z) (entry : bytes * bytes) : bytes * Z * bytes := (fst entry, flags, snd entry).

(** Entries as they stand on the wire. *)
Definition write_entry_flags (flags : Z) (entry : bytes * bytes) : bytes :=
  write_string (fst entry) ++ write_varint flags ++ write_string (snd entry).

Lemma reads_byte b : reads read_byte [b] (byte.unsigned b).
Proof. exact (reads_map (read_exact_r 1) byte0 [b] [b] (reads_exact 1 [b] eq_refl)). Qed.

Lemma reads_str s : short s = true -> reads read_string_bytes (write_string s) s.
Proof. unfold short. intros. apply reads_string_bytes. lia. Qed.

Lemma reads_str_bytes s : short s = true -> reads read_string_bytes (write_string_bytes s) s.
Proof. apply reads_str. Qed.

Lemma reads_entries flags l :
  u64_value flags = true -> Z.of_nat (length l) < ISIZE_MAX -> forallb wf_entry0 l = true ->
  reads read_entries (concat (map (write_entry_flags flags) l) ++ write_string []) (map (flagged flags) l).
Proof.
  intros Hflags Hlen Hwf. unfold read_entries.
  assert (forall n f, (forall l, Z.of_nat (length l) < n -> forallb wf_entry0 l = true ->
            reads (f tt) (concat (map (write_entry_flags flags) l) ++ write_string []) (map (flagged flags) l)) ->
          (forall l, Z.of_nat (length l) < n + 1 -> forallb wf_entry0 l = true ->
            reads (entries_step f tt) (concat (map (write_entry_flags flags) l) ++ write_string [])
              (map (flagged flags) l))) as Hstep.
  { intros n f IH [|[name value] l'] Hl Hw.
    - intros rest. unfold entries_step. cbn [map concat app].
      rewrite (run_bind_ok _ _ _ _ _ (reads_str [] eq_refl rest)). reflexivity.
    - cbn [forallb] in Hw. apply andb_prop in Hw as [H1 Hw]. unfold wf_entry0 in H1. cbn [fst snd] in H1. andb_all.
      cbn [map concat]. unfold write_entry_flags at 1. cbn [fst snd]. rewrite <- !app_assoc.
      eapply reads_bind; [now apply reads_str|]. destruct (blen name =? 0); [discriminate|].
      eapply reads_bind; [now apply reads_varint|]. eapply reads_bind; [now apply reads_str|].
      eapply reads_last; [apply IH; [cbn [length] in Hl; lia|exact Hw]|]. apply reads_ret. }
  apply (deep_ind entries_step (fun n f => forall l, Z.of_nat (length l) < n -> forallb wf_entry0 l = true ->
           reads (f tt) (concat (map (write_entry_flags flags) l) ++ write_string []) (map (flagged flags) l))
           Hstep STREAM_BITS 0).
  - intros l' Hl. lia.
  - unfold STREAM_BITS, ISIZE_MAX in *. lia.
  - exact Hwf.
Qed.

(** ** The settings of a query *)

(** The settings block, entry by entry: the client's defaults, the session's settings that
    the query does not override, the query's settings. *)
Definition effective_settings (base overlay : settings_map) (rev : Z) : settings_map :=
  (if (DBMS_MIN_REVISION_WITH_SPARSE_SERIALIZATION <=? rev) &&
      negb (contains_key base RATIO_OF_DEFAULTS_FOR_SPARSE_SERIALIZATION) &&
      negb (contains_key overlay RATIO_OF_DEFAULTS_FOR_SPARSE_SERIALIZATION)
   then [(RATIO_OF_DEFAULTS_FOR_SPARSE_SERIALIZATION, str "1")] else []) ++
  (if negb (contains_key base OUTPUT_FORMAT_NATIVE_WRITE_JSON_AS_STRING) &&
      negb (contains_key overlay OUTPUT_FORMAT_NATIVE_WRITE_JSON_AS_STRING)
   then [(OUTPUT_FORMAT_NATIVE_WRITE_JSON_AS_STRING, str "1")] else []) ++
  filter (fun entry => negb (contains_key overlay (fst entry))) base ++ overlay.

Lemma concat_filter {A B} (p : A -> bool) (f : A -> list B) l :
  concat (map (fun a => if p a then [] else f a) l) = concat (map f (filter (fun a => negb (p a)) l)).
Proof. induction l as [|a l IH]; [reflexivity|]. cbn. destruct (p a); cbn; now rewrite IH. Qed.

Lemma settings_overlay_entries base overlay rev :
  write_serialized_settings_overlay base overlay rev =
  concat (map (write_entry_flags 0) (effective_settings base overlay rev)) ++ write_string [].
Proof.
  unfold write_serialized_settings_overlay, effective_settings.
  rewrite (concat_filter (fun e => contains_key overlay (fst e)) write_entry0), !map_app, !concat_app, <- !app_assoc.
  f_equal; [|f_equal]; match goal with |- context [if ?b then _ else _] => destruct b end; reflexivity.
Qed.

Lemma get_key_app a b k : get_key (a ++ b) k = match get_key a k with Some v => Some v | None => get_key b k end.
Proof. induction a as [|[n v] a IH]; [reflexivity|]. cbn. now destruct (bytes_eqb n k). Qed.

Lemma get_key_in m k v : get_key m k = Some v -> In (k, v) m.
Proof.
  induction m as [|[n w] m IH]; [discriminate|]. cbn. destruct (bytes_eqb_spec n k); [left; congruence|auto].
Qed.

Lemma get_key_none m k : get_key m k = None <-> ~ In k (map fst m).
Proof.
  induction m as [|[n w] m IH]; [cbn; intuition|]. cbn. destruct (bytes_eqb_spec n k) as [->|Hn].
  - split; [discriminate|]. intros []. now left.
  - rewrite IH. intuition.
Qed.

Lemma get_key_filter overlay base k :
  get_key (filter (fun e => negb (contains_key overlay (fst e))) base) k =
  if contains_key overlay k then None else get_key base k.
Proof.
  induction base as [|[n v] base IH]; cbn [filter get_key fst]; [now destruct (contains_key overlay k)|].
  destruct (contains_key overlay n) eqn:E; cbn [negb get_key]; destruct (bytes_eqb_spec n k) as [->|Hn]; auto.
  - now rewrite IH, E.
  - now rewrite E.
Qed.

(** The value of a setting that nobody set. *)
Definition default_setting (rev : Z) (k : bytes) : option bytes :=
  if bytes_eqb RATIO_OF_DEFAULTS_FOR_SPARSE_SERIALIZATION k && (DBMS_MIN_REVISION_WITH_SPARSE_SERIALIZATION <=? rev)
  then Some (str "1")
  else if bytes_eqb OUTPUT_FORMAT_NATIVE_WRITE_JSON_AS_STRING k then Some (str "1") else None.

Definition first_some {A} (a b : option A) : option A := match a with Some _ => a | None => b end.

Lemma get_key_if (c : bool) n v k :
  get_key (if c then [(n, v)] else []) k = if bytes_eqb n k && c then Some v else None.
Proof. destruct c; cbn; [now destruct (bytes_eqb n k)|now rewrite andb_false_r]. Qed.

Lemma effective_settings_get base overlay rev k :
  get_key (effective_settings base overlay rev) k =
  first_some (get_key overlay k) (first_some (get_key base k) (default_setting rev k)).
Proof.
  unfold effective_settings, default_setting. rewrite !get_key_app, get_key_filter, !get_key_if.
  destruct (bytes_eqb_spec RATIO_OF_DEFAULTS_FOR_SPARSE_SERIALIZATION k) as [<-|_];
    [|destruct (bytes_eqb_spec OUTPUT_FORMAT_NATIVE_WRITE_JSON_AS_STRING k) as [<-|_]]; unfold contains_key; cbn [andb].
  - destruct (_ <=? rev), (get_key base _), (get_key overlay _); reflexivity.
  - destruct (get_key base _), (get_key overlay _); reflexivity.
  - destruct (get_key overlay _), (get_key base _); reflexivity.
Qed.

Lemma NoDup_map_filter {A B} (f : A -> B) (p : A -> bool) l : NoDup (map f l) -> NoDup (map f (filter p l)).
Proof.
  induction l as [|a l IH]; [auto|]. cbn. intros Hd. apply NoDup_cons_iff in Hd as [Ha Hd].
  destruct (p a); [|now apply IH]. cbn. constructor; [|now apply IH].
  intros Hin. apply Ha. apply in_map_iff in Hin as (b & <- & Hb). apply filter_In in Hb as [Hb _]. now apply in_map.
Qed.

Lemma contains_key_false m k : contains_key m k = false -> ~ In k (map fst m).
Proof. unfold contains_key. intros Hk. apply get_key_none. now destruct (get_key m k). Qed.

Lemma NoDup_default (c : bool) (n v : bytes) l :
  NoDup (map fst l) -> (c = true -> ~ In n (map fst l)) -> NoDup (map fst ((if c then [(n, v)] else []) ++ l)).
Proof. destruct c; cbn; intros; [constructor; auto|assumption]. Qed.

Lemma in_map_filter {A B} (f : A -> B) p l b : In b (map f (filter p l)) -> In b (map f l).
Proof.
  intros Hin. apply in_map_iff in Hin as (a & <- & Ha). apply filter_In in Ha as [Ha _]. now apply in_map.
Qed.

Lemma effective_settings_names base overlay rev :
  NoDup (map fst base) -> NoDup (map fst overlay) -> NoDup (map fst (effective_settings base overlay rev)).
Proof.
  intros Hb Ho. unfold effective_settings.
  assert (NoDup (map fst (filter (fun e => negb (contains_key overlay (fst e))) base ++ overlay))) as Hbase.
  { rewrite map_app. apply NoDup_app; [now apply NoDup_map_filter|assumption|].
    intros k Hin. apply in_map_iff in Hin as (e & <- & He). apply filter_In in He as [_ He].
    apply contains_key_false. now destruct (contains_key overlay (fst e)). }
  assert (forall k, contains_key base k = false -> contains_key overlay k = false ->
    ~ In k (map fst (filter (fun e => negb (contains_key overlay (fst e))) base ++ overlay))) as Hnot.
  { intros k H1 H2. rewrite map_app, in_app_iff. intros [Hin|Hin].
    - apply in_map_filter in Hin. now apply (contains_key_false base k).
    - now apply (contains_key_false overlay k). }
  apply NoDup_default; [apply NoDup_default; [exact Hbase|]|]; intros Hc; andb_all; rewrite negb_true_iff in *.
  - now apply Hnot.
  - rewrite map_app, in_app_iff. intros [Hin|Hin]; [|now apply (Hnot RATIO_OF_DEFAULTS_FOR_SPARSE_SERIALIZATION)].
    match type of Hin with context [if ?c then _ else _] => destruct c end; [|contradiction].
    destruct Hin as [Hin|[]]. discriminate Hin.
Qed.

(** The settings of a query, as the server reads them: every name once; the query's value
    if it has one, else the session's, else the client's default. *)
Theorem settings_overlay_wins (base overlay : settings_map) (rev : Z) :
  NoDup (map fst base) -> NoDup (map fst overlay) ->
  forallb wf_entry0 base = true -> forallb wf_entry0 overlay = true ->
  Z.of_nat (length base + length overlay + 2) < ISIZE_MAX ->
  exists entries,
    reads read_entries (write_serialized_settings_overlay base overlay rev) (map (flagged 0) entries) /\
    NoDup (map fst entries) /\
    forall k, get_key entries k =
      first_some (get_key overlay k) (first_some (get_key base k) (default_setting rev k)).
Proof.
  intros Hb Ho Wb Wo Hlen. exists (effective_settings base overlay rev).
  split; [|split; [now apply effective_settings_names|apply effective_settings_get]].
  rewrite settings_overlay_entries. apply reads_entries; [reflexivity| |].
  - unfold effective_settings. rewrite !length_app.
    pose proof (filter_length_le (fun entry => negb (contains_key overlay (fst entry))) base).
    repeat match goal with |- context [if ?c then _ else _] => destruct c end; cbn [length]; lia.
  - unfold effective_settings. rewrite !forallb_app, Wo, andb_true_r.
    assert (forallb wf_entry0 (filter (fun entry => negb (contains_key overlay (fst entry))) base) = true) as ->.
    { apply forallb_forall. intros e He. apply filter_In in He as [He _]. rewrite forallb_forall in Wb. auto. }
    repeat match goal with |- context [if ?c then _ else _] => destruct c end; reflexivity.
Qed.

Lemma settings_overlay_wins_witness :
  exists entries,
    reads read_entries
      (write_serialized_settings_overlay [(str "max_threads", str "4"); (str "max_block_size", str "1000")]
         [(str "max_threads", str "9")] DEFAULT_PROTOCOL_REVISION) (map (flagged 0) entries) /\
    NoDup (map fst entries) /\
    forall k, get_key entries k =
      first_some (get_key [(str "max_threads", str "9")] k)
        (first_some (get_key [(str "max_threads", str "4"); (str "max_block_size", str "1000")] k)
           (default_setting DEFAULT_PROTOCOL_REVISION k)).
Proof.
  apply settings_overlay_wins.
  - repeat constructor; cbn; intuition discriminate.
  - repeat constructor; cbn; intuition discriminate.
  - reflexivity.
  - reflexivity.
  - reflexivity.
Defined.

(** ** Reading parameters back *)

(** The escapes of a quoted value, and the bytes they stand for. *)
Definition escapes : list (bytes * Init.Byte.byte) :=
  [(str "\x00", x00); (str "\x08", x08); (str "\\\t", x09); (str "\\\n", x0a); (str "\x27", x27); (str "\\\\", x5c)].

Fixpoint match_escape (table : list (bytes * Init.Byte.byte)) (s : bytes) : option (Init.Byte.byte * bytes) :=
  match table with
  | [] => None
  | (e, b) :: table => match strip_prefix e s with Some rest => Some (b, rest) | None => match_escape table s end
  end.

(** Undoing the escapes; a bare quote or backslash has no meaning inside a value. *)
Fixpoint unescape (fuel : nat) (s : bytes) : option bytes :=
  match s, fuel with
  | [], _ => Some []
  | _, O => None
  | b :: s', S fuel =>
      match match_escape escapes s with
      | Some (c, rest) => let* v := unescape fuel rest in Some (c :: v)
      | None =>
          if Byte.eqb b x27 || Byte.eqb b x5c then None
          else let* v := unescape fuel s' in Some (b :: v)
      end
  end.

(** A parameter's value: [None] for SQL's NULL. *)
Definition read_param (quoted : bytes) : option (option bytes) :=
  if bytes_eqb quoted (str "'\\N'") then Some None
  else
    let* s := strip_prefix [x27] quoted in
    let* s := strip_suffix [x27] s in
    let* v := unescape (length s) s in
    Some (Some v).

Definition quoted (value : bytes) : bytes := [x27] ++ concat (map quote_byte value) ++ [x27].

Definition param_payload (p : QueryParameter) : bytes :=
  match p_value p with Some value => quoted value | None => str "'\\N'" end.

Lemma blen_quoted value : blen (quoted value) = quoted_len value.
Proof.
  unfold quoted, quoted_len. rewrite !blen_app. change (blen [x27]) with 1.
  enough (blen (concat (map quote_byte value)) =
          fold_right Z.add 0 (map (fun b => match b with x00 | x08 | x09 | x0a | x27 | x5c => 4 | _ => 1 end) value)) by lia.
  induction value as [|b value IH]; [reflexivity|]. cbn [map concat fold_right]. rewrite blen_app, IH.
  f_equal. now destruct b.
Qed.

Lemma unescape_quote_byte b fuel s :
  unescape (S fuel) (quote_byte b ++ s) = let* v := unescape fuel s in Some (b :: v).
Proof. destruct b; reflexivity. Qed.

Lemma unescape_quoted value : forall fuel,
  (length value <= fuel)%nat -> unescape fuel (concat (map quote_byte value)) = Some value.
Proof.
  induction value as [|b value IH]; intros fuel Hf; [now destruct fuel|].
  destruct fuel as [|fuel]; [cbn in Hf; lia|]. cbn [map concat]. rewrite unescape_quote_byte, IH by (cbn in Hf; lia).
  reflexivity.
Qed.

Lemma length_quote value : (length value <= length (concat (map quote_byte value)))%nat.
Proof.
  induction value as [|b value IH]; [cbn; lia|]. cbn [map concat length]. rewrite length_app.
  assert (1 <= length (quote_byte b))%nat by (destruct b; cbn; lia). lia.
Qed.

Lemma strip_suffix_app s t : strip_suffix t (s ++ t) = Some s.
Proof.
  unfold strip_suffix. rewrite rev_app_distr.
  assert (forall p s, strip_prefix p (p ++ s) = Some s) as Hp.
  { induction p as [|b p IH]; intros s'; [reflexivity|]. cbn. now rewrite byte_dec_lb, IH. }
  now rewrite Hp, rev_involutive.
Qed.

Lemma read_param_quoted value : read_param (quoted value) = Some (Some value).
Proof.
  unfold read_param. destruct (bytes_eqb_spec (quoted value) (str "'\\N'")) as [E|_].
  - unfold quoted in E. change (str "'\\N'") with ([x27] ++ str "\\N" ++ [x27]) in E.
    apply app_inv_head, app_inv_tail in E.
    pose proof (unescape_quoted value (length value) (Nat.le_refl _)) as Hu. rewrite E in Hu.
    destruct value as [|b [|b' [|b'' value]]]; discriminate Hu.
  - change (strip_prefix [x27] (quoted value)) with (Some (concat (map quote_byte value) ++ [x27])).
    unfold bind, option_monad. rewrite strip_suffix_app. rewrite unescape_quoted; [reflexivity|apply length_quote].
Qed.

Definition wf_param (p : QueryParameter) : bool :=
  negb (blen (p_name p) =? 0) && short (p_name p) && short (param_payload p).

Lemma write_params_entries params :
  write_query_parameters_to_vec params =
  concat (map (write_entry_flags QUERY_PARAMETER_CUSTOM_FLAG) (map (fun p => (p_name p, param_payload p)) params)) ++
  write_string [].
Proof.
  unfold write_query_parameters_to_vec. f_equal. rewrite map_map. f_equal. apply map_ext. intros [name [value|]].
  - unfold write_entry_flags, param_payload. cbn [fst snd p_name p_value]. do 2 f_equal.
    unfold write_quoted_string_to_vec, write_string. now rewrite <- blen_quoted.
  - reflexivity.
Qed.

Lemma reads_params params :
  Z.of_nat (length params) < ISIZE_MAX -> forallb wf_param params = true ->
  reads read_entries (write_query_parameters_to_vec params)
    (map (fun p => (p_name p, QUERY_PARAMETER_CUSTOM_FLAG, param_payload p)) params).
Proof.
  intros Hlen Hwf. rewrite write_params_entries.
  replace (map (fun p => (p_name p, QUERY_PARAMETER_CUSTOM_FLAG, param_payload p)) params)
    with (map (flagged QUERY_PARAMETER_CUSTOM_FLAG) (map (fun p => (p_name p, param_payload p)) params))
    by now rewrite map_map.
  apply reads_entries; [reflexivity|now rewrite length_map|].
  apply forallb_forall. intros e He. apply in_map_iff in He as (p & <- & Hp).
  rewrite forallb_forall in Hwf. exact (Hwf _ Hp).
Qed.

(** Parameters arrive as they were given: each under its name with the custom flag, its
    quoted text of the announced length, and from the text the value: no value is
    mistaken for another or for NULL, whatever quotes or backslashes it holds. *)
Theorem query_parameters_roundtrip (params : list QueryParameter) :
  Z.of_nat (length params) < ISIZE_MAX -> forallb wf_param params = true ->
  exists entries,
    reads read_entries (write_query_parameters_to_vec params) entries /\
    map (fun '(name, flags, text) => (name, flags, read_param text)) entries =
    map (fun p => (p_name p, 2, Some (p_value p))) params.
Proof.
  intros Hlen Hwf. eexists. split; [now apply reads_params|].
  rewrite map_map. apply map_ext. intros [name [value|]]; cbn [p_name p_value]; [|reflexivity].
  unfold param_payload. cbn [p_value]. now rewrite read_param_quoted.
Qed.

Lemma query_parameters_roundtrip_witness :
  let params := [mkParameter (str "id") (Some (str "a'b\N")); mkParameter (str "name") None] in
  exists entries,
    reads read_entries (write_query_parameters_to_vec params) entries /\
    map (fun '(name, flags, text) => (name, flags, read_param text)) entries =
    map (fun p => (p_name p, 2, Some (p_value p))) params.
Proof. cbv zeta. apply query_parameters_roundtrip; reflexivity. Defined.

(** ** What the server gets *)

Section Understood.
Context `{CodecLaws}.

(** The data that closes a query, after its parameters. *)
Definition closing (compression : option CompressionMethod) (include_empty_block : bool) : bytes :=
  if include_empty_block then fst (write_empty_data_block_for compression) else [].

(** The fields between the settings and the query text. *)
Definition query_options (rev flag : Z) : bytes :=
  since DBMS_MIN_PROTOCOL_VERSION_WITH_INTERSERVER_EXTERNALLY_GRANTED_ROLES rev (write_string []) ++
  since DBMS_MIN_REVISION_WITH_INTERSERVER_SECRET rev (write_string []) ++ write_varint 2 ++ write_varint flag.

(** From the revision with parameters on, cached template or not, overlay or not, a packet
    is laid out the same way. *)
Lemma sync_packet_layout cfg rev query_id query include_empty_block params overlay :
  DBMS_MIN_PROTOCOL_VERSION_WITH_PARAMETERS <= rev ->
  build_query_packet_inner (refresh_query_template cfg rev) query_id query include_empty_block params overlay =
  write_varint 1 ++ write_string query_id ++
  write_client_info_from_template (sync_client_info_template cfg rev) query_id ++
  write_serialized_settings_overlay (Sync.settings cfg) overlay rev ++
  query_options rev (if is_some (Sync.compression cfg) then 1 else 0) ++
  write_string query ++ write_query_parameters_to_vec params ++ closing (Sync.compression cfg) include_empty_block.
Proof.
  intros Hrev. unfold build_query_packet_inner, refresh_query_template, sync_query_packet_template, query_options.
  cbn [query_template server_revision config prefix client_info before_query settings_len select_suffix insert_suffix].
  unfold DBMS_MIN_REVISION_WITH_CLIENT_INFO, DBMS_MIN_PROTOCOL_VERSION_WITH_PARAMETERS in *.
  destruct (Z.leb_spec 54032 rev); [|lia]. unfold since at 5 6 7. destruct (Z.leb_spec 54459 rev); [|lia].
  destruct (Z.ltb_spec rev 54459); [lia|]. f_equal. f_equal. f_equal.
  rewrite drop_app_exact, <- !app_assoc.
  match goal with |- (if _ then ?x ++ ?tail else _) ++ _ = _ =>
    assert ((if blen overlay =? 0 then x ++ tail
             else write_serialized_settings_overlay (Sync.settings cfg) overlay rev ++ tail) =
            write_serialized_settings_overlay (Sync.settings cfg) overlay rev ++ tail) as -> end.
  { destruct overlay; [reflexivity|]. destruct (Z.eqb_spec (blen (p :: overlay)) 0); [|reflexivity].
    rewrite blen_cons in *. pose proof (blen_nonneg overlay). lia. }
  rewrite <- !app_assoc. do 6 f_equal. unfold closing.
  destruct params as [|p params], include_empty_block; rewrite ?app_nil_r; reflexivity.
Qed.

(** A configuration whose strings and numbers the format can carry. *)
Definition wf_config (cfg : Sync.ClientConfig) : bool :=
  short (Sync.initial_user cfg) && short (Sync.initial_address cfg) && short (Sync.os_user cfg) &&
  short (Sync.client_hostname cfg) && short (Sync.client_name cfg) && short (Sync.quota_key cfg) &&
  u64_value (Sync.client_version_major cfg) && u64_value (Sync.client_version_minor cfg) &&
  u64_value (Sync.client_version_patch cfg).

(** What a client says about itself. *)
Definition info_of (cfg : Sync.ClientConfig) (rev : Z) (query_id : bytes) : ClientInfo :=
  mkInfo 1 (Sync.initial_user cfg) query_id (Sync.initial_address cfg) 1 (Sync.os_user cfg) (Sync.client_hostname cfg)
    (Sync.client_name cfg) (Sync.client_version_major cfg) (Sync.client_version_minor cfg) rev
    (known_since DBMS_MIN_REVISION_WITH_QUOTA_KEY_IN_CLIENT_INFO rev [] (Sync.quota_key cfg))
    (known_since DBMS_MIN_REVISION_WITH_VERSION_PATCH rev 0 (Sync.client_version_patch cfg)).

Lemma reads_client_info cfg rev query_id :
  wf_config cfg = true -> u64_value rev = true -> short query_id = true ->
  reads (read_client_info rev) (write_client_info_from_template (sync_client_info_template cfg rev) query_id)
    (info_of cfg rev query_id).
Proof.
  intros Hcfg Hrev Hid. unfold wf_config in Hcfg. andb_all.
  unfold write_client_info_from_template, sync_client_info_template, read_client_info, info_of.
  cbn [before_initial_query_id after_initial_query_id]. rewrite <- !app_assoc.
  eapply reads_bind; [apply reads_byte|]. eapply reads_bind; [now apply reads_str|].
  eapply reads_bind; [now apply reads_str|]. eapply reads_bind; [now apply reads_str|].
  eapply reads_bind; [now apply reads_since, reads_exact|]. eapply reads_bind; [apply reads_byte|].
  do 3 (eapply reads_bind; [now apply reads_str|]). do 3 (eapply reads_bind; [now apply reads_varint|]).
  eapply reads_bind; [now apply reads_since, reads_str|].
  eapply reads_bind; [now apply reads_since, reads_varint|]. eapply reads_bind; [now apply reads_since, reads_varint|].
  eapply reads_bind; [now apply reads_since, reads_byte|].
  eapply reads_bind; [apply reads_since; do 2 (eapply reads_bind; [now apply reads_varint|]); now apply reads_varint|].
  eapply reads_bind; [apply reads_since; eapply reads_bind; [now apply reads_varint|]; now apply reads_varint|].
  eapply reads_last; [now apply reads_since, reads_byte|]. apply reads_ret.
Qed.

(** The server's side of the data that closes a query: a Data packet whose block is in a
    compressed frame exactly when the query said so. *)
Definition read_closing (compressed : Z) : reader Block :=
  let* code := read_varint in
  if negb (code =? ClientPacket.code ClientPacket.Data) then throw (Protocol (msg "not a Data packet"))
  else
    let* table := read_string_bytes in
    if compressed =? 1 then
      let* body := decode_frame in
      let* (block, _) := lift (run read_block_body body) in
      ret block
    else read_block_body.

(** A compression setting that a query can announce: none at all, or a codec that is
    compiled in and encodes the empty block. *)
Definition announceable (compression : option CompressionMethod) : Prop :=
  match compression with
  | None => True
  | Some MNone => False
  | Some method => exists frame, encode_frame empty_block_body method = Ok frame /\ blen frame <= CHECKSUM_LEN + MAX_FRAME_SIZE
  end.

Lemma read_empty_block rest : run read_block_body (empty_block_body ++ rest) = Ok (empty_block, rest).
Proof. change empty_block_body with (write_block empty_block). now apply read_block_written. Qed.

Lemma frame_understood method rest :
  announceable (Some method) ->
  exists frame, encode_frame empty_block_body method = Ok frame /\
  run (let* body := decode_frame in let* (block, _) := lift (run read_block_body body) in ret block) (frame ++ rest) =
  Ok (empty_block, rest).
Proof.
  intros Ha. assert (exists frame, encode_frame empty_block_body method = Ok frame /\
    blen frame <= CHECKSUM_LEN + MAX_FRAME_SIZE) as (frame & E & Hf) by (now destruct method).
  exists frame. split; [exact E|].
  erewrite run_bind_ok by (apply (decode_encoded empty_block_body method frame rest E); [vm_compute; discriminate|exact Hf]).
  pose proof (read_empty_block []) as Hb. rewrite app_nil_r in Hb. rewrite Hb. reflexivity.
Qed.

Lemma closing_understood compression rest :
  announceable compression ->
  run (read_closing (if is_some compression then 1 else 0)) (closing compression true ++ rest) = Ok (empty_block, rest).
Proof.
  intros Ha. unfold read_closing.
  assert (exists body, closing compression true = write_varint 2 ++ write_string [] ++ body /\
    run (if (if is_some compression then 1 else 0) =? 1
         then let* body := decode_frame in let* (block, _) := lift (run read_block_body body) in ret block
         else read_block_body) (body ++ rest) = Ok (empty_block, rest)) as (body & -> & E).
  { unfold closing, write_empty_data_block_for. destruct compression as [[| |]|]; [contradiction|..].
    1, 2: destruct (frame_understood _ rest Ha) as (frame & -> & E); exists frame; split; [apply eq_sym, app_assoc|exact E].
    exists empty_block_body. split; [apply eq_sym, app_assoc|apply read_empty_block]. }
  rewrite <- !app_assoc. erewrite run_bind_ok by (now apply reads_varint). cbn [ClientPacket.code Z.eqb Pos.eqb negb].
  erewrite run_bind_ok by (now apply reads_str). exact E.
Qed.

(** C25: A query packet says what it is meant to say: at every revision with parameters,
    with compression off or with a method other than "none" whose codec is compiled in,
    the server reads from it the query's id, the client's information, the effective
    settings, the stage, whether data is compressed, the text and the parameters; what is
    left is the data that closes the query, and the server, reading it compressed exactly
    if the packet said so, finds the empty block. *)
Theorem query_packet_understood (cfg : Sync.ClientConfig) (rev : Z) (query_id query : bytes)
    (include_empty_block : bool) (params : list QueryParameter) (overlay : settings_map) :
  DBMS_MIN_PROTOCOL_VERSION_WITH_PARAMETERS <= rev <= U64_MAX -> wf_config cfg = true ->
  announceable (Sync.compression cfg) -> short query_id = true -> short query = true ->
  forallb wf_entry0 (effective_settings (Sync.settings cfg) overlay rev) = true ->
  Z.of_nat (length (effective_settings (Sync.settings cfg) overlay rev)) < ISIZE_MAX ->
  forallb wf_param params = true -> Z.of_nat (length params) < ISIZE_MAX ->
  forall rest,
  run (read_query rev)
    (build_query_packet_inner (refresh_query_template cfg rev) query_id query include_empty_block params overlay ++ rest) =
  Ok (mkQuery query_id (Some (info_of cfg rev query_id))
        (map (flagged 0) (effective_settings (Sync.settings cfg) overlay rev)) 2
        (if is_some (Sync.compression cfg) then 1 else 0) query
        (map (fun p => (p_name p, QUERY_PARAMETER_CUSTOM_FLAG, param_payload p)) params),
      closing (Sync.compression cfg) include_empty_block ++ rest) /\
  run (read_closing (if is_some (Sync.compression cfg) then 1 else 0)) (closing (Sync.compression cfg) true ++ rest) =
  Ok (empty_block, rest).
Proof.
  intros Hrev Hcfg Hann Hid Hq Hset Hsetl Hp Hpl rest. split; [|now apply closing_understood]. rewrite sync_packet_layout by lia.
  replace (_ ++ rest) with (((write_varint 1 ++ write_string query_id ++
    write_client_info_from_template (sync_client_info_template cfg rev) query_id ++
    write_serialized_settings_overlay (Sync.settings cfg) overlay rev ++
    query_options rev (if is_some (Sync.compression cfg) then 1 else 0) ++
    write_string query ++ write_query_parameters_to_vec params)) ++
    (closing (Sync.compression cfg) include_empty_block ++ rest)) by now rewrite <- !app_assoc.
  generalize (closing (Sync.compression cfg) include_empty_block ++ rest) as tail. clear rest.
  unfold query_options. rewrite <- !app_assoc. unfold read_query.
  assert (u64_value rev = true) as Hu
    by (unfold u64_value, DBMS_MIN_PROTOCOL_VERSION_WITH_PARAMETERS in *; apply andb_true_intro; split; lia).
  unfold DBMS_MIN_REVISION_WITH_CLIENT_INFO, DBMS_MIN_PROTOCOL_VERSION_WITH_PARAMETERS in *.
  eapply reads_bind; [now apply reads_varint|]. cbn [ClientPacket.code Z.eqb Pos.eqb negb].
  eapply reads_bind; [now apply reads_str|].
  eapply reads_bind.
  { unfold field_since. destruct (Z.leb_spec 54032 rev); [|lia]. apply reads_map. now apply reads_client_info. }
  eapply reads_bind; [rewrite settings_overlay_entries; now apply reads_entries|].
  do 2 (eapply reads_bind; [now apply reads_since, reads_str|]).
  eapply reads_bind; [now apply reads_varint|].
  eapply reads_bind; [apply reads_varint; now destruct (is_some (Sync.compression cfg))|].
  eapply reads_bind; [now apply reads_str|].
  eapply reads_last; [|apply reads_ret]. unfold field_since. destruct (Z.leb_spec 54459 rev); [|lia].
  now apply reads_params.
Qed.
End Understood.

(** ** Both engines send the same query *)

(** The synchronous configuration that says what the asynchronous engine says. *)
Definition query_config (settings : settings_map) (compression : option CompressionMethod) (quota_key : bytes)
  : Sync.ClientConfig :=
  let d := Sync.default_config in
  Sync.mkConfig (Sync.user d) (Sync.password d) (Sync.database d) (str "st-clickhouse") [] (str "rust-client")
    26 4 2 DEFAULT_PROTOCOL_REVISION compression settings quota_key (Sync.chunked_mode d)
    (Sync.parallel_replicas_version d) [] [] (str "0.0.0.0:0") None.

Section SameQuery.
Context `{Codecs}.

Lemma filter_all {A} (l : list A) : filter (fun _ => true) l = l.
Proof. induction l as [|a l IH]; [reflexivity|]. cbn. now rewrite IH. Qed.

Lemma async_settings settings rev :
  write_protocol_default_settings settings rev ++ concat (map write_entry0 settings) ++ write_string [] =
  write_serialized_settings_overlay settings [] rev.
Proof.
  unfold write_protocol_default_settings, write_serialized_settings_overlay. cbn [contains_key get_key is_some negb map concat].
  rewrite !andb_true_r, <- !app_assoc. reflexivity.
Qed.

Lemma async_closing compression :
  write_empty_data_for compression = fst (write_empty_data_block_for compression).
Proof.
  unfold write_empty_data_for, write_empty_data_block_for. destruct compression as [[| |]|];
    try rewrite <- app_assoc; try reflexivity; destruct (encode_frame _ _); cbn [fst];
    rewrite ?app_nil_r, <- ?app_assoc; reflexivity.
Qed.

(** C26: Given what the asynchronous engine has built in, the two engines write a query as the
    same bytes, for every revision with parameters and every method that compresses. *)
Theorem engines_send_same_query (settings : settings_map) (compression : option CompressionMethod) (rev : Z)
    (quota_key query query_id : bytes) (include_empty_block : bool) (params : list QueryParameter) :
  DBMS_MIN_PROTOCOL_VERSION_WITH_PARAMETERS <= rev -> compression <> Some MNone ->
  build_query_packet_from_template (async_query_packet_template settings compression rev quota_key)
    query query_id include_empty_block params =
  build_query_packet_inner (refresh_query_template (query_config settings compression quota_key) rev)
    query_id query include_empty_block params [].
Proof.
  intros Hrev Hc. rewrite sync_packet_layout by assumption.
  unfold build_query_packet_from_template, async_query_packet_template, write_query_packet_common_from_template,
    build_query_packet_common_template, closing, query_options.
  cbn [t_common t_select_suffix t_insert_suffix t_revision t_compression c_prefix c_client_info c_before_query
       query_config Sync.settings Sync.compression].
  unfold DBMS_MIN_REVISION_WITH_CLIENT_INFO, DBMS_MIN_PROTOCOL_VERSION_WITH_PARAMETERS in *.
  destruct (Z.leb_spec 54032 rev); [|lia]. rewrite <- !app_assoc. f_equal. f_equal.
  rewrite (app_assoc (write_varint 1)).
  replace (write_varint 1 ++ write_client_info_from_template (async_client_info_template rev quota_key) query_id)
    with (write_client_info_from_template (sync_client_info_template (query_config settings compression quota_key) rev) query_id)
    by reflexivity.
  f_equal. rewrite (app_assoc (concat _)), (app_assoc (write_protocol_default_settings _ _)), async_settings.
  f_equal. f_equal. f_equal. f_equal.
  replace (compression_flag compression) with (if is_some compression then 1 else 0)
    by (destruct compression as [[| |]|]; [congruence|reflexivity..]).
  f_equal. f_equal. rewrite async_closing. unfold since. destruct (Z.leb_spec 54459 rev); [|lia].
  destruct params as [|p params], include_empty_block; rewrite ?app_nil_r; reflexivity.
Qed.
End SameQuery.

(** ** Query ids are distinct *)

Definition hex_value_of (b : Init.Byte.byte) : Z :=
  let c := byte.unsigned b in if c <? 58 then c - 48 else c - 97 + 10.

Definition hex_value (acc : Z) (s : bytes) : Z := fold_left (fun acc b => acc * 16 + hex_value_of b) s acc.

Definition is_lower_hex (b : Init.Byte.byte) : bool :=
  let c := byte.unsigned b in ((48 <=? c) && (c <=? 57)) || ((97 <=? c) && (c <=? 102)).

Lemma hex_lower_spec d : 0 <= d < 16 -> hex_value_of (hex_lower d) = d /\ is_lower_hex (hex_lower d) = true.
Proof.
  intros Hd. assert (d = 0 \/ d = 1 \/ d = 2 \/ d = 3 \/ d = 4 \/ d = 5 \/ d = 6 \/ d = 7 \/ d = 8 \/ d = 9 \/ d = 10 \/
    d = 11 \/ d = 12 \/ d = 13 \/ d = 14 \/ d = 15) as Hcases by lia.
  repeat (destruct Hcases as [->|Hcases]; [now split|]). subst d. now split.
Qed.

Lemma hex_digit_of n d : Z.land (Z.shiftr n (4 * Z.of_nat d)) 0x0F = (n / 16 ^ Z.of_nat d) mod 16.
Proof.
  change 0x0F with (Z.ones 4). rewrite Z.land_ones by lia. rewrite Z.shiftr_div_pow2 by lia.
  change (2 ^ 4) with 16. rewrite Z.pow_mul_r by lia. reflexivity.
Qed.

Lemma mod_16_succ n d : n mod 16 ^ Z.of_nat (S d) = (n / 16 ^ Z.of_nat d) mod 16 * 16 ^ Z.of_nat d + n mod 16 ^ Z.of_nat d.
Proof.
  assert (0 < 16 ^ Z.of_nat d) by (apply Z.pow_pos_nonneg; lia).
  rewrite Nat2Z.inj_succ, Z.pow_succ_r, Z.mul_comm, Z.rem_mul_r by lia. lia.
Qed.

Lemma write_hex_value d : forall n started acc,
  (started = false -> acc = 0) -> 0 <= acc ->
  hex_value acc (write_hex d n started) = acc * 16 ^ Z.of_nat d + n mod 16 ^ Z.of_nat d /\
  forallb is_lower_hex (write_hex d n started) = true /\ (length (write_hex d n started) <= d)%nat.
Proof.
  induction d as [|d IH]; intros n started acc Hacc Hpos.
  - cbn. rewrite Z.mod_1_r. repeat split; lia.
  - cbn [write_hex]. rewrite hex_digit_of, mod_16_succ.
    set (digit := (n / 16 ^ Z.of_nat d) mod 16).
    assert (0 <= digit < 16) as Hd by (apply Z.mod_pos_bound; lia).
    rewrite Nat2Z.inj_succ, Z.pow_succ_r by lia.
    destruct (negb (digit =? 0) || started || (4 * Z.of_nat d =? 0)) eqn:Ed.
    + destruct (hex_lower_spec digit Hd) as [Hv Hh].
      destruct (IH n true (acc * 16 + digit)) as (Hval & Hall & Hlen); [discriminate|lia|].
      unfold hex_value in *. cbn [fold_left forallb length]. rewrite Hv, Hh, Hval.
      split; [|split; [exact Hall|lia]]. generalize (16 ^ Z.of_nat d) (n mod 16 ^ Z.of_nat d). intros. lia.
    + apply orb_false_iff in Ed as [Ed _]. apply orb_false_iff in Ed as [Ed ->].
      rewrite negb_false_iff, Z.eqb_eq in Ed. rewrite Ed, (Hacc eq_refl).
      destruct (IH n false 0) as (Hval & Hall & Hlen); [auto|lia|]. rewrite Hval.
      split; [|split; [exact Hall|lia]]. lia.
Qed.

Definition id_number (process_id counter : Z) : Z :=
  Z.lor (Z.shiftl (Z.land process_id 0xFFFFFFFF) 32) (Z.land counter 0xFFFFFFFF).

Lemma id_number_split process_id counter :
  0 <= process_id < 2 ^ 32 -> id_number process_id counter = process_id * 2 ^ 32 + counter mod 2 ^ 32.
Proof.
  intros Hp. unfold id_number. change 0xFFFFFFFF with (Z.ones 32). rewrite !Z.land_ones by lia.
  rewrite (Z.mod_small process_id) by lia. rewrite Z.shiftl_mul_pow2 by lia.
  pose proof (Z.mod_pos_bound counter (2 ^ 32) ltac:(lia)). rewrite <- Z.add_lor_land.
  enough (Z.land (process_id * 2 ^ 32) (counter mod 2 ^ 32) = 0) by lia.
  apply Z.bits_inj'. intros i Hi. rewrite Z.land_spec, Z.bits_0. destruct (Z.ltb_spec i 32).
  - now rewrite Z.mul_pow2_bits_low by lia.
  - rewrite (Z.mod_pow2_bits_high counter) by lia. apply andb_false_r.
Qed.

(** A query id fits its buffer of 22 bytes, is the prefix and lower-case hexadecimal
    digits, and tells the process and the counter: two ids are equal only for the same
    process and counters a multiple of 2^32 apart. *)
Theorem query_ids_distinct (p1 p2 c1 c2 : Z) :
  0 <= p1 < 2 ^ 32 -> 0 <= p2 < 2 ^ 32 ->
  (exists digits, fst (next_query_id p1 c1) = STANDARD_QUERY_ID_PREFIX ++ digits /\
     forallb is_lower_hex digits = true) /\
  blen (fst (next_query_id p1 c1)) <= 22 /\
  (fst (next_query_id p1 c1) = fst (next_query_id p2 c2) -> p1 = p2 /\ c1 mod 2 ^ 32 = c2 mod 2 ^ 32).
Proof.
  intros Hp1 Hp2. unfold next_query_id, next_query_id_with_prefix. cbn [fst]. fold (id_number p1 c1) (id_number p2 c2).
  destruct (write_hex_value 16 (id_number p1 c1) false 0) as (Hv1 & Hh & Hl); [auto|lia|].
  destruct (write_hex_value 16 (id_number p2 c2) false 0) as (Hv2 & _ & _); [auto|lia|].
  split; [eauto|]. split.
  - rewrite blen_app. change (blen STANDARD_QUERY_ID_PREFIX) with 6. unfold blen. lia.
  - intros E. apply app_inv_head in E. rewrite E, Hv2 in Hv1.
    rewrite !id_number_split in Hv1 by assumption. change (16 ^ Z.of_nat 16) with (2 ^ 32 * 2 ^ 32) in Hv1.
    pose proof (Z.mod_pos_bound c1 (2 ^ 32) ltac:(lia)). pose proof (Z.mod_pos_bound c2 (2 ^ 32) ltac:(lia)).
    revert Hv1. generalize dependent (c1 mod 2 ^ 32). generalize dependent (c2 mod 2 ^ 32). intros r2 Hr2 r1 Hr1 Hv1.
    rewrite !Z.mod_small in Hv1 by lia. lia.
Qed.

Lemma query_ids_distinct_witness :
  (exists digits, fst (next_query_id 4242 7) = STANDARD_QUERY_ID_PREFIX ++ digits /\ forallb is_lower_hex digits = true) /\
  blen (fst (next_query_id 4242 7)) <= 22 /\
  (fst (next_query_id 4242 7) = fst (next_query_id 4242 8) -> 4242 = 4242 /\ 7 mod 2 ^ 32 = 8 mod 2 ^ 32).
Proof. apply query_ids_distinct; lia. Defined.

(** ** Evaluated packets *)

#[local] Existing Instance sample_codecs.

Definition sample_query_config : Sync.ClientConfig :=
  query_config [(str "max_threads", str "4")] (Some Lz4) (str "tenant").

Definition sample_params : list QueryParameter :=
  [mkParameter (str "id") (Some (str "a'b")); mkParameter (str "name") None].

Lemma query_packet_understood_witness :
  run (read_query DEFAULT_PROTOCOL_REVISION)
    (build_query_packet_inner (refresh_query_template sample_query_config DEFAULT_PROTOCOL_REVISION)
       (str "st-ch-1") (str "SELECT {id:String}") true sample_params [(str "max_threads", str "9")] ++ []) =
  Ok (mkQuery (str "st-ch-1") (Some (info_of sample_query_config DEFAULT_PROTOCOL_REVISION (str "st-ch-1")))
        [(RATIO_OF_DEFAULTS_FOR_SPARSE_SERIALIZATION, 0, str "1");
         (OUTPUT_FORMAT_NATIVE_WRITE_JSON_AS_STRING, 0, str "1"); (str "max_threads", 0, str "9")] 2 1
        (str "SELECT {id:String}") [(str "id", 2, str "'a\x27b'"); (str "name", 2, str "'\\N'")],
      closing (Some Lz4) true ++ []) /\
  run (read_closing 1) (closing (Some Lz4) true ++ []) = Ok (empty_block, []).
Proof.
  apply (@query_packet_understood sample_codecs sample_codec_laws sample_query_config DEFAULT_PROTOCOL_REVISION (str "st-ch-1") (str "SELECT {id:String}")
           true sample_params [(str "max_threads", str "9")]).
  - unfold DBMS_MIN_PROTOCOL_VERSION_WITH_PARAMETERS, DEFAULT_PROTOCOL_REVISION,
      DBMS_MIN_REVISION_WITH_NULLABLE_SPARSE_SERIALIZATION, U64_MAX. lia.
  - reflexivity.
  - eexists. split; [vm_compute; reflexivity|vm_compute; discriminate].
  - reflexivity.
  - reflexivity.
  - reflexivity.
  - reflexivity.
  - reflexivity.
  - reflexivity.
Defined.

Lemma engines_send_same_query_witness :
  build_query_packet_from_template
    (async_query_packet_template [(str "max_threads", str "4")] (Some Lz4) DEFAULT_PROTOCOL_REVISION (str "tenant"))
    (str "SELECT 1") (str "st-ch-1") true sample_params =
  build_query_packet_inner (refresh_query_template sample_query_config DEFAULT_PROTOCOL_REVISION)
    (str "st-ch-1") (str "SELECT 1") true sample_params [].
Proof. apply engines_send_same_query; [vm_compute; discriminate|discriminate]. Defined.

(** The compression method "none" of the synchronous engine: the packet announces
    compressed data, and the block that closes it is plain, too short even for the header
    of a frame.  The asynchronous engine announces plain data. *)
Lemma method_none_announced :
  let cfg := query_config [] (Some MNone) [] in
  match run (read_query DEFAULT_PROTOCOL_REVISION)
          (build_query_packet_inner (refresh_query_template cfg DEFAULT_PROTOCOL_REVISION)
             (str "st-ch-1") (str "SELECT 1") true [] []) with
  | Ok (m, rest) =>
      q_compression m = 1 /\ rest = write_varint 2 ++ write_string [] ++ empty_block_body /\
      run decode_frame empty_block_body = Err (Io UnexpectedEof) /\ compression_flag (Some MNone) = 0
  | Err _ => False
  end.
Proof. vm_compute. repeat split. Qed.

(** Parameters for a server that is too old for them: the synchronous engine leaves an
    empty string where the server expects the closing block; the asynchronous engine
    drops them without a word. *)
Lemma parameters_for_old_server :
  let rev := 54458 in
  match run (read_query rev)
          (build_query_packet_inner (refresh_query_template (query_config [] None []) rev)
             (str "st-ch-1") (str "SELECT 1") true sample_params []) with
  | Ok (_, rest) => rest = [x00] ++ closing None true
  | Err _ => False
  end /\
  build_query_packet_from_template (async_query_packet_template [] None rev []) (str "SELECT 1") (str "st-ch-1") true
    sample_params =
  build_query_packet_from_template (async_query_packet_template [] None rev []) (str "SELECT 1") (str "st-ch-1") true [].
Proof. vm_compute. repeat split. Qed.

(** External tables of the asynchronous engine are sent plain, also when the packet has
    announced compressed data. *)
Lemma external_tables_plain :
  let t := async_query_packet_template [] (Some Lz4) DEFAULT_PROTOCOL_REVISION [] in
  match run (read_query DEFAULT_PROTOCOL_REVISION)
          (build_query_packet t (str "SELECT 1") [(str "ext", written_sample)] (str "st-ch-1") []) with
  | Ok (m, rest) =>
      q_compression m = 1 /\
      rest = write_varint 2 ++ write_string (str "ext") ++ write_block written_sample ++ write_empty_data_for (Some Lz4)
  | Err _ => False
  end.
Proof. vm_compute. repeat split. Qed.
