(* ===== verification/Schema.v ===== *)
(** * Table schemas and identifiers ([schema.rs], [sync/schema.rs])

    The client quotes the table names it puts into queries, keeps the columns that
    [DESCRIBE TABLE] answered, and checks blocks against them before an insert.  The two
    engines have the same code.  A path is scanned byte by byte: the characters that the
    scan looks for are ASCII, so it splits a UTF-8 string where the source does. *)

From Stdlib Require Import String ZArith Lia Bool List.
From Stdlib Require Import Strings.Byte.
From coqutil Require Import Byte.
From S2P Require Import Prelude Reader Utf8 TypeParser Arena ColumnReader Framing BlockReader BlockWriter Columns CompoundColumns DynamicVariant AnyColumn TypedBlocks.
Import ListNotations.

Record TableColumn := mkTableColumn { tc_name : bytes; tc_type_name : bytes }.

Record TableSchema := mkTableSchema { schema_columns : list TableColumn }.

(** The hash map from names to types: a later column replaces an earlier one. *)
Fixpoint column_type (cols : list TableColumn) (nm : bytes) : option bytes :=
  match cols with
  | [] => None
  | col :: cols =>
      match column_type cols nm with
      | Some t => Some t
      | None => if bytes_eqb (tc_name col) nm then Some (tc_type_name col) else None
      end
  end.

Definition unknown_column (table nm : bytes) : error :=
  Protocol (Msg "insert block for {table} contains unknown column '{}'" [AS table; AS nm]).

Definition wrong_type (table nm actual expected : bytes) : error :=
  Protocol (Msg "insert block for {table} column '{}' has type '{}', expected '{}'" [AS table; AS nm; AS actual; AS expected]).

Fixpoint validate_columns (schema : TableSchema) (table : bytes) (cols : list ColumnInfo) : result error unit :=
  match cols with
  | [] => Ok tt
  | col :: cols =>
      match column_type (schema_columns schema) (name col) with
      | None => Err (unknown_column table (name col))
      | Some expected =>
          if bytes_eqb expected (type_name col) then validate_columns schema table cols
          else Err (wrong_type table (name col) (type_name col) expected)
      end
  end.

(** [TableSchema::validate_insert_block] *)
Definition validate_insert_block (schema : TableSchema) (table : bytes) (block : Block) : result error unit :=
  validate_columns schema table (columns block).

(** ** Identifiers *)

Definition backtick : Init.Byte.byte := x60.

(** A back quote inside is doubled. *)
Definition quote_char (ch : Init.Byte.byte) : bytes := if Byte.eqb ch backtick then [backtick; ch] else [ch].

Definition quote_identifier (identifier : bytes) : bytes :=
  [backtick] ++ concat (map quote_char identifier) ++ [backtick].

Definition invalid_name (path : bytes) : error := Protocol (Msg "invalid table name '{path}'" [AS path]).

(** The end of a part: white space around it is dropped, and it must not be empty. *)
Definition finish_part (path : bytes) (part : bytes) (parts : list bytes) : result error (list bytes) :=
  match trim part with
  | [] => Err (invalid_name path)
  | trimmed => Ok (parts ++ [trimmed])
  end.

(** The loop over the characters of [path], with one of look-ahead. *)
Fixpoint split_loop (path chars : bytes) (quoted : bool) (part : bytes) (parts : list bytes) : result error (list bytes) :=
  match chars with
  | [] =>
      if quoted then Err (Protocol (Msg "unterminated quoted identifier in '{path}'" [AS path]))
      else finish_part path part parts
  | ch :: rest =>
      if Byte.eqb ch backtick then
        match quoted, rest with
        | true, next :: rest' =>
            if Byte.eqb next backtick then split_loop path rest' true (part ++ [backtick]) parts
            else split_loop path rest false part parts
        | _, _ => split_loop path rest (negb quoted) part parts
        end
      else if Byte.eqb ch x2e && negb quoted then
        let* parts := finish_part path part parts in
        split_loop path rest quoted [] parts
      else split_loop path rest quoted (part ++ [ch]) parts
  end.

Definition split_identifier_path (path : bytes) : result error (list bytes) :=
  split_loop path (trim path) false [] [].

(** The parts with dots between them. *)
Fixpoint join_quoted (parts : list bytes) : bytes :=
  match parts with
  | [] => []
  | [part] => quote_identifier part
  | part :: parts => quote_identifier part ++ [x2e] ++ join_quoted parts
  end.

Definition quote_identifier_path (path : bytes) : result error bytes :=
  let* parts := split_identifier_path path in
  match parts with
  | [] => Err (Protocol (msg "empty table name"))
  | _ => Ok (join_quoted parts)
  end.

(** ** Statements that change a schema *)

(** [split_whitespace().next()], one character per step. *)
Fixpoint until_space (s : bytes) : bytes :=
  match s with
  | [] => []
  | a :: s1 =>
      if ascii_space a then []
      else match s1 with
           | b :: s2 =>
               if space2 a b then []
               else match s2 with
                    | c :: _ => if space3 a b c then [] else a :: until_space s1
                    | [] => a :: until_space s1
                    end
           | [] => [a]
           end
  end.

Definition first_word (s : bytes) : option bytes :=
  match trim_start s with [] => None | s => Some (until_space s) end.

Definition ascii_upper (b : Init.Byte.byte) : Init.Byte.byte :=
  let n := byte.unsigned b in
  if (97 <=? n) && (n <=? 122) then byte.of_Z (n - 32) else b.

Definition schema_statements : list bytes :=
  map str ["ALTER"; "ATTACH"; "CREATE"; "DETACH"; "DROP"; "EXCHANGE"; "RENAME"; "TRUNCATE"]%string.

Definition query_may_change_schema (query : bytes) : bool :=
  match first_word query with
  | None => false
  | Some first => existsb (bytes_eqb (map ascii_upper first)) schema_statements
  end.

(** ** The answer of [DESCRIBE TABLE] ([fetch_schema_for_table]) *)

Fixpoint schema_rows (n : nat) (names types : StringColumnData) (row : Z) : result error (list TableColumn) :=
  match n with
  | O => Ok []
  | S n =>
      let* nm := str_get_string names row in
      let* ty := str_get_string types row in
      let* cols := schema_rows n names types (row + 1) in
      Ok (mkTableColumn (text_bytes nm) (text_bytes ty) :: cols)
  end.

Definition schema_of_block (block : Block) : result error (list TableColumn) :=
  let* names := column text block (str "name") in
  let* types := column text block (str "type") in
  schema_rows (Z.to_nat (rows block)) names types 0.

Fixpoint schema_of_blocks (blocks : list Block) : result error (list TableColumn) :=
  match blocks with
  | [] => Ok []
  | block :: blocks =>
      let* cols := schema_of_block block in
      let* more := schema_of_blocks blocks in
      Ok (cols ++ more)
  end.

(** ** White space *)

(** A string that starts, or read backwards, with white space. *)
Definition spaced (s : bytes) : bool :=
  match s with
  | a :: b :: c :: _ => ascii_space a || space2 a b || space3 a b c
  | [a; b] => ascii_space a || space2 a b
  | [a] => ascii_space a
  | [] => false
  end.

Definition spaced_rev (s : bytes) : bool :=
  match s with
  | c :: b :: a :: _ => ascii_space c || space2 b c || space3 a b c
  | [c; b] => ascii_space c || space2 b c
  | [c] => ascii_space c
  | [] => false
  end.

Lemma trim_start_done s : spaced (trim_start s) = false.
Proof.
  induction s as [s IH] using (induction_ltof1 _ (@length _)). unfold ltof in IH.
  destruct s as [|a s1]; [reflexivity|]. cbn [trim_start]. destruct (ascii_space a) eqn:E1; [apply IH; cbn [length]; lia|].
  destruct s1 as [|b s2]; [cbn [spaced]; now rewrite E1|].
  destruct (space2 a b) eqn:E2; [apply IH; cbn [length]; lia|].
  destruct s2 as [|c s3]; [cbn [spaced]; now rewrite E1, E2|].
  destruct (space3 a b c) eqn:E3; [apply IH; cbn [length]; lia|]. cbn [spaced]. now rewrite E1, E2, E3.
Qed.

Lemma trim_rev_done s : spaced_rev (trim_rev s) = false.
Proof.
  induction s as [s IH] using (induction_ltof1 _ (@length _)). unfold ltof in IH.
  destruct s as [|c s1]; [reflexivity|]. cbn [trim_rev]. destruct (ascii_space c) eqn:E1; [apply IH; cbn [length]; lia|].
  destruct s1 as [|b s2]; [cbn [spaced_rev]; now rewrite E1|].
  destruct (space2 b c) eqn:E2; [apply IH; cbn [length]; lia|].
  destruct s2 as [|a s3]; [cbn [spaced_rev]; now rewrite E1, E2|].
  destruct (space3 a b c) eqn:E3; [apply IH; cbn [length]; lia|]. cbn [spaced_rev]. now rewrite E1, E2, E3.
Qed.

Lemma trim_start_id s : spaced s = false -> trim_start s = s.
Proof.
  destruct s as [|a [|b [|c s]]]; cbn [spaced trim_start]; intros E; rewrite ?orb_false_iff in E;
    decompose [and] E; repeat match goal with E : _ = false |- _ => rewrite E; clear E end; reflexivity.
Qed.

Lemma trim_rev_id s : spaced_rev s = false -> trim_rev s = s.
Proof.
  destruct s as [|c [|b [|a s]]]; cbn [spaced_rev trim_rev]; intros E; rewrite ?orb_false_iff in E;
    decompose [and] E; repeat match goal with E : _ = false |- _ => rewrite E; clear E end; reflexivity.
Qed.

Lemma spaced_prefix s t : spaced (s ++ t) = false -> spaced s = false.
Proof.
  destruct s as [|a [|b [|c s]]]; [reflexivity| | |auto]; destruct t as [|d [|e t]]; cbn [app spaced]; rewrite ?orb_false_iff; tauto.
Qed.

Lemma trim_rev_suffix s : exists p, s = p ++ trim_rev s.
Proof.
  induction s as [s IH] using (induction_ltof1 _ (@length _)). unfold ltof in IH.
  assert (forall t u, (length u < length s)%nat -> s = t ++ u -> exists p, s = p ++ trim_rev u) as Hstep.
  { intros t u Hlen E. destruct (IH u Hlen) as [p Hp]. exists (t ++ p). now rewrite <- app_assoc, <- Hp. }
  destruct s as [|c s1]; [now exists []|]. cbn [trim_rev].
  destruct (ascii_space c); [apply (Hstep [c]); [cbn [length]; lia|reflexivity]|].
  destruct s1 as [|b s2]; [now exists []|].
  destruct (space2 b c); [apply (Hstep [c; b]); [cbn [length]; lia|reflexivity]|].
  destruct s2 as [|a s3]; [now exists []|].
  destruct (space3 a b c); [apply (Hstep [c; b; a]); [cbn [length]; lia|reflexivity]|]. now exists [].
Qed.

Lemma trim_trim s : trim (trim s) = trim s.
Proof.
  unfold trim, trim_end. destruct (trim_rev_suffix (rev (trim_start s))) as [p Hp].
  apply (f_equal (@rev _)) in Hp. rewrite rev_involutive, rev_app_distr in Hp.
  rewrite (trim_start_id (rev _)); [rewrite rev_involutive; now rewrite (trim_rev_id _ (trim_rev_done _))|].
  apply (spaced_prefix _ (rev p)). rewrite <- Hp. apply trim_start_done.
Qed.

(** ** Quoting *)

Lemma split_quoted path ident rest part parts :
  split_loop path (concat (map quote_char ident) ++ backtick :: rest) true part parts =
  split_loop path (backtick :: rest) true (part ++ ident) parts.
Proof.
  revert part. induction ident as [|ch ident IH]; intros part; cbn [map concat app]; [now rewrite app_nil_r|].
  rewrite <- app_assoc. unfold quote_char at 1. destruct (Byte.eqb ch backtick) eqn:E.
  - apply byte_dec_bl in E as ->. cbn [app split_loop]. change (Byte.eqb backtick backtick) with true. cbv iota.
    now rewrite IH, <- app_assoc.
  - cbn [app split_loop]. rewrite E, andb_false_r, IH. now rewrite <- app_assoc.
Qed.

(** A part the splitter can return. *)
Definition tidy (part : bytes) : bool := negb (blen part =? 0) && bytes_eqb (trim part) part.

Lemma tidy_finish path part parts : tidy part = true -> finish_part path part parts = Ok (parts ++ [part]).
Proof.
  unfold tidy, finish_part. intros H. apply andb_prop in H as [Hne Htrim]. apply bytes_eqb_eq in Htrim. rewrite Htrim.
  destruct part; [discriminate Hne|reflexivity].
Qed.

Lemma finish_tidy path part parts out : finish_part path part parts = Ok out ->
  forallb tidy parts = true -> forallb tidy out = true /\ out <> [].
Proof.
  unfold finish_part. destruct (trim part) as [|b t] eqn:E; [discriminate|]. intros H Hp. apply Ok_inj in H. subst out.
  rewrite forallb_app, Hp. cbn [forallb]. split; [|now destruct parts]. rewrite andb_true_r. unfold tidy. cbn [andb].
  rewrite <- E, trim_trim, bytes_eqb_refl, andb_true_r, E, blen_cons. pose proof (blen_nonneg t).
  destruct (Z.eqb_spec (1 + blen t) 0); [lia|reflexivity].
Qed.

Lemma split_loop_tidy path : forall n chars quoted part parts out, (length chars <= n)%nat ->
  split_loop path chars quoted part parts = Ok out -> forallb tidy parts = true -> forallb tidy out = true /\ out <> [].
Proof.
  induction n as [|n IH]; intros [|ch rest] quoted part parts out Hn H Hp; cbn [length] in Hn; try lia; cbn [split_loop] in H;
    try (destruct quoted; [discriminate|]; eapply finish_tidy; eassumption).
  assert (forall q p, split_loop path rest q p parts = Ok out -> forallb tidy out = true /\ out <> []) as Hrest
    by (intros q p E; apply (IH rest q p parts out ltac:(lia) E Hp)).
  destruct (Byte.eqb ch backtick).
  - destruct quoted, rest as [|next rest']; try (eapply Hrest; exact H).
    destruct (Byte.eqb next backtick); [|eapply Hrest; exact H]. eapply IH; [|exact H|exact Hp]. cbn [length] in Hn. lia.
  - destruct (_ && _); [|eapply Hrest; exact H]. apply result_bind_inv in H as (parts' & Hf & H).
    destruct (finish_tidy _ _ _ _ Hf Hp) as [Hp' _]. eapply IH; [|exact H|exact Hp']. lia.
Qed.

Lemma split_joined path parts : forall acc, parts <> [] -> forallb tidy parts = true ->
  split_loop path (join_quoted parts) false [] acc = Ok (acc ++ parts).
Proof.
  assert (forall part rest acc, split_loop path (quote_identifier part ++ rest) false [] acc =
            split_loop path (backtick :: rest) true part acc) as Hopen.
  { intros part rest acc. unfold quote_identifier. rewrite <- !app_assoc. cbn [app split_loop].
    change (Byte.eqb backtick backtick) with true. cbn [negb]. cbv iota. exact (split_quoted path part rest [] acc). }
  induction parts as [|part parts IH]; intros acc Hne Ht; [easy|]. cbn [forallb] in Ht. apply andb_prop in Ht as [Ht Hts].
  destruct parts as [|next parts].
  - cbn [join_quoted]. rewrite <- (app_nil_r (quote_identifier part)), Hopen. cbn [split_loop].
    change (Byte.eqb backtick backtick) with true. cbn [negb]. cbv iota. now apply tidy_finish.
  - change (join_quoted (part :: next :: parts)) with (quote_identifier part ++ [x2e] ++ join_quoted (next :: parts)).
    rewrite Hopen. cbn [app split_loop]. change (Byte.eqb backtick backtick) with true.
    change (Byte.eqb x2e backtick) with false. change (Byte.eqb x2e x2e) with true. cbn [negb andb]. cbv iota.
    rewrite (tidy_finish _ _ _ Ht). cbn [bind result_monad]. rewrite IH by easy. now rewrite <- app_assoc.
Qed.

Lemma join_quoted_ends parts : parts <> [] -> exists s, join_quoted parts = backtick :: s /\ exists t, join_quoted parts = t ++ [backtick].
Proof.
  induction parts as [|part parts IH]; [easy|]. intros _. destruct parts as [|next parts].
  - cbn [join_quoted]. unfold quote_identifier. eexists. split; [reflexivity|]. eexists. now rewrite app_assoc.
  - destruct (IH ltac:(easy)) as (s & _ & t & Ht).
    change (join_quoted (part :: next :: parts)) with (quote_identifier part ++ [x2e] ++ join_quoted (next :: parts)).
    eexists. split; [unfold quote_identifier; cbn [app]; reflexivity|]. rewrite Ht. eexists. now rewrite !app_assoc.
Qed.

Lemma trim_joined parts : parts <> [] -> trim (join_quoted parts) = join_quoted parts.
Proof.
  intros Hne. destruct (join_quoted_ends parts Hne) as (s & Es & t & Et). apply trim_solid. unfold solid_ends.
  apply andb_true_intro. split; [now rewrite Es|]. rewrite Et, rev_app_distr. reflexivity.
Qed.

(** C30: Quoting a table name loses nothing and is canonical.  The path [quote_identifier_path]
    returns is split into the very parts the name was split into, whatever characters they
    hold, so that no name can escape its quotes; and quoting it again changes nothing. *)
Theorem quoted_path_canonical (path out : bytes) :
  quote_identifier_path path = Ok out ->
  split_identifier_path out = split_identifier_path path /\ quote_identifier_path out = Ok out.
Proof.
  unfold quote_identifier_path at 1. intros H. apply result_bind_inv in H as (parts & Hs & H).
  assert (forallb tidy parts = true /\ parts <> []) as [Ht Hne]
    by (eapply split_loop_tidy; [apply le_n|exact Hs|reflexivity]).
  assert (out = join_quoted parts) as -> by (destruct parts; [easy|now apply Ok_inj in H]).
  assert (split_identifier_path (join_quoted parts) = Ok parts) as Hback.
  { unfold split_identifier_path. rewrite trim_joined by exact Hne. now apply split_joined. }
  rewrite Hback, Hs. split; [reflexivity|]. unfold quote_identifier_path. rewrite Hback. cbn [bind result_monad].
  now destruct parts.
Qed.

(** A name with a quote, a dot and a space inside its quotes. *)
Lemma quoted_path_canonical_witness :
  let path := str "db . `ta``b.le x`" in
  split_identifier_path path = Ok [str "db"; str "ta`b.le x"] /\
  split_identifier_path (str "`db`.`ta``b.le x`") = split_identifier_path path /\
  quote_identifier_path (str "`db`.`ta``b.le x`") = Ok (str "`db`.`ta``b.le x`").
Proof.
  intros path. split; [vm_compute; reflexivity|].
  apply (quoted_path_canonical path (str "`db`.`ta``b.le x`")). vm_compute. reflexivity.
Defined.

(** White space inside the quotes of a name does not survive. *)
Lemma quoted_space_lost : quote_identifier_path (str "`t `") = Ok (str "`t`").
Proof. vm_compute. reflexivity. Qed.

(** ** Schemas *)

Lemma column_type_in cols nm ty : NoDup (map tc_name cols) ->
  column_type cols nm = Some ty <-> In (mkTableColumn nm ty) cols.
Proof.
  induction cols as [|[n t] cols IH]; cbn [column_type map In tc_name tc_type_name]; intros Hd; [easy|].
  inversion Hd as [|? ? Hn Hd']; subst. specialize (IH Hd').
  destruct (column_type cols nm) as [t'|] eqn:E.
  - split; [intros [= ->]; right; now apply IH|]. intros [[= -> ->]|Hin]; [|now apply IH].
    exfalso. apply Hn. apply in_map_iff. exists (mkTableColumn nm t'). split; [reflexivity|].
    clear - E Hd'. revert E. induction cols as [|[n0 t0] cols IHc]; cbn [column_type tc_name tc_type_name]; [easy|].
    inversion Hd'; subst. destruct (column_type cols nm); [intros [= ->]; right; auto|].
    destruct (bytes_eqb_spec n0 nm); [|easy]. intros [= ->]. subst. now left.
  - destruct (bytes_eqb_spec n nm) as [->|Hne].
    + split; [intros [= ->]; now left|]. intros [[= ->]|Hin]; [reflexivity|]. apply IH in Hin. discriminate.
    + split; [easy|]. intros [[= -> ->]|Hin]; [easy|]. apply IH in Hin. discriminate.
Qed.

Lemma validate_columns_ok schema table cols :
  validate_columns schema table cols = Ok tt <->
  Forall (fun col => column_type (schema_columns schema) (name col) = Some (type_name col)) cols.
Proof.
  induction cols as [|col cols IH]; cbn [validate_columns]; [split; auto|]. rewrite Forall_cons_iff, <- IH.
  destruct (column_type _ (name col)) as [expected|]; [|split; [easy|intros [[=] _]]].
  destruct (bytes_eqb_spec expected (type_name col)) as [->|Hne]; [tauto|]. split; [easy|]. intros [[=] _]. congruence.
Qed.

Lemma schema_rows_hold (names types : StringColumnData) (cols : list TableColumn) : forall done rest, cols = done ++ rest ->
  column_holds (T := text) names (map (fun c => Text (tc_name c)) cols) -> column_holds (T := text) types (map (fun c => Text (tc_type_name c)) cols) ->
  schema_rows (length rest) names types (blen done) = Ok rest.
Proof.
  intros done rest. revert done. induction rest as [|[n t] rest IH]; intros done E Hn Ht; [reflexivity|].
  cbn [length schema_rows]. pose proof (blen_nonneg done).
  pose proof (proj2 Hn (blen done) ltac:(lia)) as Gn. pose proof (proj2 Ht (blen done) ltac:(lia)) as Gt.
  rewrite to_nat_blen, E, nth_error_map, nth_error_app2, Nat.sub_diag in Gn, Gt by lia.
  cbn [nth_error option_map tc_name tc_type_name column_get text_column] in Gn, Gt.
  rewrite Gn, Gt. cbn [bind result_monad].
  replace (blen done + 1) with (blen (done ++ [mkTableColumn n t])) by (rewrite blen_app; reflexivity).
  rewrite IH; [reflexivity|now rewrite <- app_assoc|exact Hn|exact Ht].
Qed.

(** The columns a table is described with. *)
Definition valid_column (col : TableColumn) : Prop := utf8_valid (tc_name col) = true /\ utf8_valid (tc_type_name col) = true.

(** What the server described is what an insert is checked against.  The answer of
    [DESCRIBE TABLE], whatever columns it has besides the names and the types, gives the
    schema with exactly those columns, and [validate_insert_block] accepts a block just
    when each of its columns is one of them, by name and by type. *)
Theorem described_schema_enforced (cols : list TableColumn) :
  Forall valid_column cols -> NoDup (map tc_name cols) ->
  exists names types,
    Columns.write_column (map (fun c => Text (tc_name c)) cols) = Ok names /\
    Columns.write_column (map (fun c => Text (tc_type_name c)) cols) = Ok types /\
    (blen names <= ISIZE_MAX -> blen types <= ISIZE_MAX -> forall more,
     schema_of_block (mkBlock (mkColumnInfo (str "name") (str "String") names [] ::
                               mkColumnInfo (str "type") (str "String") types [] :: more) (blen cols)) = Ok cols) /\
    forall table block,
      validate_insert_block (mkTableSchema cols) table block = Ok tt <->
      Forall (fun col => In (mkTableColumn (name col) (type_name col)) cols) (columns block).
Proof.
  intros Hv Hd.
  assert (forall f : TableColumn -> bytes, (forall c, valid_column c -> utf8_valid (f c) = true) ->
    exists bs, Columns.write_column (map (fun c => Text (f c)) cols) = Ok bs /\
      forall block info, blen bs <= ISIZE_MAX -> rows block = blen cols -> column_buf info = bs ->
      exists c, decode_column block info (read_column text) = Ok c /\ column_holds (T := text) c (map (fun c => Text (f c)) cols)) as Hcol.
  { intros f Hf. destruct (column_written (T := text) (map (fun c => Text (f c)) cols)) as (bs & Hw & Hr).
    { apply Forall_map. eapply Forall_impl; [|exact Hv]. exact Hf. }
    exists bs. split; [exact Hw|]. intros block info Hmax Hrows Hbuf.
    apply (decode_typed (map (fun c => Text (f c)) cols) block info bs Hw Hr); auto. now rewrite blen_map. }
  destruct (Hcol tc_name ltac:(now intros c [])) as (nb & Hn & Hnread), (Hcol tc_type_name ltac:(now intros c [])) as (tb & Ht & Htread).
  exists nb, tb. conj; auto.
  - intros Hnm Htm more. unfold schema_of_block, column, find_column. cbn [columns List.find name].
    change (bytes_eqb (str "name") (str "name")) with true. change (bytes_eqb (str "name") (str "type")) with false.
    change (bytes_eqb (str "type") (str "type")) with true. cbv iota. cbn [ok_or bind result_monad].
    match goal with |- context [decode_column ?b ?i _] => destruct (Hnread b i Hnm eq_refl eq_refl) as (c1 & -> & Hc1) end.
    cbn [bind result_monad].
    match goal with |- context [decode_column ?b ?i _] => destruct (Htread b i Htm eq_refl eq_refl) as (c2 & -> & Hc2) end.
    cbn [rows bind result_monad]. rewrite to_nat_blen. now apply (schema_rows_hold c1 c2 cols [] cols).
  - intros table block. unfold validate_insert_block. rewrite validate_columns_ok, !Forall_forall.
    split; intros H col Hin; apply (column_type_in _ _ _ Hd); auto.
Qed.

Lemma described_schema_enforced_witness :
  let cols := [mkTableColumn (str "id") (str "UInt64"); mkTableColumn (str "tags") (str "Array(String)")] in
  forall table block, validate_insert_block (mkTableSchema cols) table block = Ok tt <->
    Forall (fun col => In (mkTableColumn (name col) (type_name col)) cols) (columns block).
Proof.
  intros cols. destruct (described_schema_enforced cols) as (nb & tb & _ & _ & _ & H).
  - repeat constructor.
  - repeat constructor; vm_compute; intuition discriminate.
  - exact H.
Defined.
