(* ===== verification/SyncClient.v ===== *)
(** * The blocking client ([SyncClient] of [sync/client.rs])

    The methods of the client put the parts together: they build a packet, write it on the
    connection, and read the response through readers that are built for it and dropped
    afterwards.  A [call] is a method on a connection; its reply says what the method
    returned and what became of the connection. *)

From Stdlib Require Import String ZArith Lia Bool List.
From Stdlib Require Import Strings.Byte.
From coqutil Require Import Byte.
From S2P Require Import Prelude Revision Reader Session Limits Utf8 Wire TypeParser Arena ColumnReader Framing BlockReader BlockWriter Chunked Duplex Compression BlockPackets Transport Boundary Response Handshake Packets SyncResponse QueryPacket Schema.
Import ListNotations.

(** The fields of [SyncClient] and of its configuration.  [loops] counts the response
    loops that were run, [counter] the query ids of the process. *)
Record Connection (R : Type) := mkConnection {
  stream : R;
  client : SyncClient;
  use_chunked_send : bool;
  use_chunked_recv : bool;
  read_buffer_size : nat;
  query_timeout : Z;
  max_response_size : Z;
  validate_schema : bool;
  schema_cache : list (bytes * TableSchema);
  process_id : Z;
  counter : Z;
  loops : nat;
}.
Arguments mkConnection {R}.
Arguments stream {R}.
Arguments client {R}.
Arguments use_chunked_send {R}.
Arguments use_chunked_recv {R}.
Arguments read_buffer_size {R}.
Arguments query_timeout {R}.
Arguments max_response_size {R}.
Arguments validate_schema {R}.
Arguments schema_cache {R}.
Arguments process_id {R}.
Arguments counter {R}.
Arguments loops {R}.

Definition set_stream {R} (c : Connection R) (r : R) : Connection R :=
  mkConnection r (client c) (use_chunked_send c) (use_chunked_recv c) (read_buffer_size c) (query_timeout c)
    (max_response_size c) (validate_schema c) (schema_cache c) (process_id c) (counter c) (loops c).

Definition set_cache {R} (c : Connection R) (cache : list (bytes * TableSchema)) : Connection R :=
  mkConnection (stream c) (client c) (use_chunked_send c) (use_chunked_recv c) (read_buffer_size c) (query_timeout c)
    (max_response_size c) (validate_schema c) cache (process_id c) (counter c) (loops c).

Definition set_client {R} (c : Connection R) (cl : SyncClient) : Connection R :=
  mkConnection (stream c) cl (use_chunked_send c) (use_chunked_recv c) (read_buffer_size c) (query_timeout c)
    (max_response_size c) (validate_schema c) (schema_cache c) (process_id c) (counter c) (loops c).

Definition set_counter {R} (c : Connection R) (n : Z) : Connection R :=
  mkConnection (stream c) (client c) (use_chunked_send c) (use_chunked_recv c) (read_buffer_size c) (query_timeout c)
    (max_response_size c) (validate_schema c) (schema_cache c) (process_id c) n (loops c).

Definition tick {R} (c : Connection R) : Connection R :=
  mkConnection (stream c) (client c) (use_chunked_send c) (use_chunked_recv c) (read_buffer_size c) (query_timeout c)
    (max_response_size c) (validate_schema c) (schema_cache c) (process_id c) (counter c) (S (loops c)).

(** What became of a call: it returned a value or an error and left the connection at a
    known byte; it failed somewhere in the middle of a packet; or it failed and shut the
    socket down. *)
Inductive reply (R A : Type) :=
| Done (x : result error A) (c : Connection R)
| Astray (e : error)
| Closed (e : error).
Arguments Done {R A}.
Arguments Astray {R A}.
Arguments Closed {R A}.

Definition call (R A : Type) : Type := Connection R -> reply R A.

#[export] Instance call_monad R : Monad (call R) := {
  ret A a := fun c => Done (Ok a) c;
  bind A B m f := fun c =>
    match m c with
    | Done (Ok a) c => f a c
    | Done (Err e) c => Done (Err e) c
    | Astray e => Astray e
    | Closed e => Closed e
    end;
}.

#[export] Instance call_lift R : MonadResult (call R) := fun A x c => Done x c.

Section Methods.
Context `{Codecs} {R : Type} `{Read R} `{Write R}.

(** The clock: the start of the [k]-th response loop, then its readings, one per round. *)
Context (clock : nat -> nat -> Z).

Definition get : call R (Connection R) := fun c => Done (Ok c) c.

(** A write to the socket that fails leaves a part of the packet on it. *)
Definition write_stream (w : bytes) : call R unit := fun c =>
  match write_all w (stream c) with
  | Ok r => Done (Ok tt) (set_stream c r)
  | Err e => Astray e
  end.

(** [SyncClient::write_packet], with the [flush] that follows it. *)
Definition write_packet (pkt : bytes) : call R unit :=
  let* c := get in
  if use_chunked_send c then let* w := lift (write_chunked_packet pkt) in write_stream w
  else write_stream pkt.

(** The readers of one response, dropped with what they hold when it was read. *)
Definition with_response {A} (loop : forall S, Read S -> Write S -> (nat -> Z) -> Z -> io S (result error A)) : call R A :=
  fun c =>
  let deadline := clock (loops c) 0%nat + query_timeout c in
  let now i := clock (loops c) (S i) in
  if use_chunked_recv c then
    match loop _ _ _ now deadline (chunked_transport (stream c) (read_buffer_size c)) with
    | Ok (x, reader) => Done x (tick (set_stream c (transport (inner reader))))
    | Err e => Astray e
    end
  else
    match loop _ _ _ now deadline (new_transport_reader (stream c) (read_buffer_size c)) with
    | Ok (x, reader) => Done x (tick (set_stream c (transport reader)))
    | Err e => Astray e
    end.

Definition negotiated_revision (c : Connection R) : Z := server_revision (client c).

Definition compressed (c : Connection R) : bool := is_some (Sync.compression (config (client c))).

(** [drain_response] *)
Definition drain_response : call R unit :=
  let* c := get in
  let* _ := with_response (fun T _ _ now deadline =>
    read_response_row_count (R := T) now deadline (negotiated_revision c) (use_chunked_send c) (compressed c)) in
  ret tt.

Definition wait_for_insert_table_structure : call R unit :=
  let* c := get in
  with_response (fun T _ _ now deadline =>
    wait_for_insert_table_structure_from_reader (R := T) now deadline (negotiated_revision c) (use_chunked_send c) (compressed c)).

(** [build_query_packet_with_params_and_settings] and its relatives: every packet takes a
    query id. *)
Definition build_query (query : bytes) (include_empty_block : bool) (params : list QueryParameter) (settings : settings_map)
  : call R bytes := fun c =>
  let '(query_id, counter) := next_query_id (process_id c) (counter c) in
  Done (Ok (build_query_packet_inner (client c) query_id query include_empty_block params settings)) (set_counter c counter).

Definition clear_schema_cache : call R unit := fun c => Done (Ok tt) (set_cache c []).

Definition send_ignored_part_uuids (uuids : list bytes) : call R unit :=
  match uuids with
  | [] => ret tt
  | _ => write_packet (build_ignored_part_uuids_packet uuids)
  end.

Definition execute_with_params_settings_and_ignored_part_uuids (query : bytes) (params : list QueryParameter)
    (settings : settings_map) (uuids : list bytes) : call R unit :=
  send_ignored_part_uuids uuids ;;
  let* pkt := build_query query true params settings in
  write_packet pkt ;;
  drain_response ;;
  if query_may_change_schema query then clear_schema_cache else ret tt.

Definition execute (query : bytes) : call R unit :=
  execute_with_params_settings_and_ignored_part_uuids query [] [] [].

Definition query_with_params_block_view (query : bytes) (params : list QueryParameter)
    (visitor : BlockView -> result error unit) : call R unit :=
  let* pkt := build_query query true params [] in
  write_packet pkt ;;
  let* c := get in
  with_response (fun T _ _ now deadline =>
    read_response_block_views (R := T) now deadline (negotiated_revision c) (use_chunked_send c) (compressed c) visitor).

Definition query_with_params_row_count (query : bytes) (params : list QueryParameter) : call R Z :=
  let* pkt := build_query query true params [] in
  write_packet pkt ;;
  let* c := get in
  with_response (fun T _ _ now deadline =>
    read_response_row_count (R := T) now deadline (negotiated_revision c) (use_chunked_send c) (compressed c)).

(** ** Queries whose blocks are kept *)

Definition is_too_large (e : error) : bool := match e with ResponseTooLarge _ _ => true | _ => false end.

(** [Duration::from_secs(5)] in nanoseconds. *)
Definition FIVE_SECONDS : Z := 5000000000.

(** A loop over the reader of a response, through a chunked reader of its own if the
    connection is chunked. *)
Definition over_reader {A} (chunked : bool) (loop : forall S, Read S -> Write S -> io S A) : io (TransportReader R) A := fun reader =>
  if chunked then
    match loop _ _ _ (new_chunked_reader reader) with Ok (x, ch) => Ok (x, inner ch) | Err e => Err e end
  else loop _ _ _ reader.

(** After a breach of the budget: Cancel, then the rest of the response is discarded. *)
Definition cancel_and_discard (c : Connection R) : io (TransportReader R) (result error Z) :=
  let deadline := clock (loops c) 0%nat + Z.min (query_timeout c) FIVE_SECONDS in
  let* w := lift (write_cancel_packet (use_chunked_send c)) in
  writing w ;;
  over_reader (use_chunked_recv c) (fun T _ _ =>
    read_response_row_count (R := T) (fun i => clock (loops c) (S i)) deadline (negotiated_revision c) (use_chunked_send c) (compressed c)).

Definition read_blocks : call R (list Block) := fun c =>
  let deadline := clock (loops c) 0%nat + query_timeout c in
  let loop := over_reader (use_chunked_recv c) (fun T _ _ =>
    read_response_blocks (R := T) (fun i => clock (loops c) (S i)) deadline (negotiated_revision c) (use_chunked_send c)
      (compressed c) [] (new_budget (max_response_size c))) in
  match loop (new_transport_reader (stream c) (read_buffer_size c)) with
  | Err e => Astray e
  | Ok (Ok blocks, reader) => Done (Ok blocks) (tick (set_stream c (transport reader)))
  | Ok (Err e, reader) =>
      if is_too_large e then
        match cancel_and_discard (tick c) reader with
        | Ok (Ok _, reader) => Done (Err e) (tick (tick (set_stream c (transport reader))))
        | _ => Closed e
        end
      else Done (Err e) (tick (set_stream c (transport reader)))
  end.

Definition query_with_params_settings_and_ignored_part_uuids (query : bytes) (params : list QueryParameter)
    (settings : settings_map) (uuids : list bytes) : call R (list Block) :=
  send_ignored_part_uuids uuids ;;
  let* pkt := build_query query true params settings in
  write_packet pkt ;;
  read_blocks.

Definition query (text : bytes) : call R (list Block) :=
  query_with_params_settings_and_ignored_part_uuids text [] [] [].

(** ** Ping and table status *)

(** One byte of the server, without a buffered reader. *)
Definition read_pong : call R bytes := fun c =>
  if use_chunked_recv c then
    match exec (read_exact_r 1) (new_chunked_reader (stream c)) with
    | Ok (pkt, reader) => Done (Ok pkt) (set_stream c (inner reader))
    | Err e => Astray e
    end
  else
    match exec (read_exact_r 1) (stream c) with
    | Ok (pkt, r) => Done (Ok pkt) (set_stream c r)
    | Err e => Astray e
    end.

Definition expected_pong : call R unit := fun _ => Astray (Protocol (msg "expected Pong")).

Definition ping : call R unit :=
  write_packet [x04] ;;
  let* pkt := read_pong in
  if byte0 pkt =? 4 then ret tt else expected_pong.

Definition status_packet {S} `{Read S} (rev : Z) : io S (result error TablesStatusResponse) :=
  let* packet_type := reading read_varint in
  match packet_type with
  | 2 => let* e := reading Packets.Sync.read_exception_packet in ret (Err e)
  | 9 => let* response := reading (Packets.Sync.read_tables_status_response rev) in ret (Ok response)
  | _ => throw (Protocol (Msg "expected TablesStatusResponse packet, got {packet_type}" [AZ packet_type]))
  end.

(** The answer is read through the chunked reader alone, or through a buffer. *)
Definition read_status : call R TablesStatusResponse := fun c =>
  if use_chunked_recv c then
    match status_packet (negotiated_revision c) (new_chunked_reader (stream c)) with
    | Ok (x, reader) => Done x (set_stream c (inner reader))
    | Err e => Astray e
    end
  else
    match status_packet (negotiated_revision c) (new_transport_reader (stream c) (Z.to_nat 8192)) with
    | Ok (x, reader) => Done x (set_stream c (transport reader))
    | Err e => Astray e
    end.

Definition tables_status (tables : list QualifiedTableName) : call R TablesStatusResponse :=
  let* c := get in
  let* pkt := lift (build_tables_status_request tables (negotiated_revision c)) in
  write_packet pkt ;;
  read_status.

Definition table_status (database table : bytes) : call R (option TableStatus) :=
  let* response := tables_status [mkTableName database table] in
  ret (get_table_status response database table).

(** ** Schemas *)

Fixpoint cached (cache : list (bytes * TableSchema)) (table : bytes) : option TableSchema :=
  match cache with
  | [] => None
  | (name, schema) :: cache => if bytes_eqb name table then Some schema else cached cache table
  end.

Definition fetch_schema_for_table (table : bytes) : call R TableSchema :=
  let* quoted := lift (quote_identifier_path table) in
  let* blocks := query (str "DESCRIBE TABLE " ++ quoted) in
  let* columns := lift (schema_of_blocks blocks) in
  ret (mkTableSchema columns).

Definition insert_cache (table : bytes) (schema : TableSchema) : call R unit := fun c =>
  Done (Ok tt) (set_cache c ((table, schema) :: schema_cache c)).

Definition schema_for_table (table : bytes) : call R TableSchema :=
  let* c := get in
  match cached (schema_cache c) table with
  | Some schema => ret schema
  | None =>
      let* schema := fetch_schema_for_table table in
      insert_cache table schema ;;
      ret schema
  end.

Definition refresh_schema_for_table (table : bytes) : call R TableSchema :=
  let* schema := fetch_schema_for_table table in
  insert_cache table schema ;;
  ret schema.

(** ** Inserts *)

Definition client_validate_insert_block (table_name : bytes) (block : Block) : call R unit :=
  let* c := get in
  if negb (validate_schema c) || (blen table_name =? 0) then ret tt
  else
    let* schema := schema_for_table table_name in
    lift (validate_insert_block schema table_name block).

(** The slices handed to [write_vectored]: the header of the packet, then for every column
    its description and, unless it is empty, its data. *)
Definition data_slices (table_name : bytes) (block : Block) : list bytes :=
  let header :=
    write_varint 2 ++ write_string table_name ++ write_varint 1 ++ [x00] ++ write_varint 2 ++ to_le 4 (-1) ++
    write_varint 0 ++ write_varint (blen (columns block)) ++ write_varint (rows block) in
  header :: concat (map (fun col =>
    let meta := write_string (name col) ++ write_string (type_name col) ++ [x00] in
    if blen (data col) =? 0 then [meta] else [meta; data col]) (columns block)).

(** [write_all_vectored] writes its slices one behind the other. *)
Definition write_all_vectored (slices : list bytes) : call R unit := write_stream (concat slices).

Definition send_data_vectored (table_name : bytes) (block : Block) : call R unit :=
  let slices := data_slices table_name block in
  let* c := get in
  if use_chunked_send c then
    let* header := lift (write_chunk_header (fold_right Z.add 0 (map blen slices))) in
    write_stream header ;;
    write_all_vectored slices ;;
    write_stream (to_le 4 0)
  else write_all_vectored slices.

Definition send_data (table_name : bytes) (block : Block) : call R unit :=
  client_validate_insert_block table_name block ;;
  let* c := get in
  match Sync.compression (config (client c)) with
  | Some method =>
      let* buf := lift (write_data_packet_compressed table_name block method) in
      write_packet buf
  | None => send_data_vectored table_name block
  end.

Definition begin_insert (text : bytes) : call R unit :=
  let* pkt := build_query text true [] [] in
  write_packet pkt ;;
  wait_for_insert_table_structure.

Definition end_insert : call R unit :=
  let* c := get in
  write_packet (fst (write_empty_data_block_for (Sync.compression (config (client c))))) ;;
  drain_response.

Fixpoint send_blocks (blocks : list Block) : call R unit :=
  match blocks with
  | [] => ret tt
  | block :: blocks => send_data [] block ;; send_blocks blocks
  end.

Fixpoint validate_blocks (schema : TableSchema) (table_name : bytes) (blocks : list Block) : result error unit :=
  match blocks with
  | [] => Ok tt
  | block :: blocks => validate_insert_block schema table_name block ;; validate_blocks schema table_name blocks
  end.

Definition insert (text table_name : bytes) (blocks : list Block) : call R unit :=
  let* c := get in
  (if validate_schema c && negb (blen table_name =? 0) then
     let* schema := schema_for_table table_name in
     lift (validate_blocks schema table_name blocks)
   else ret tt) ;;
  begin_insert text ;;
  send_blocks blocks ;;
  end_insert.

(** ** Settings *)

Definition set_setting (setting value : bytes) : call R unit := fun c =>
  let cfg := config (client c) in
  let cfg := Sync.mkConfig (Sync.user cfg) (Sync.password cfg) (Sync.database cfg) (Sync.client_name cfg) (Sync.os_user cfg)
    (Sync.client_hostname cfg) (Sync.client_version_major cfg) (Sync.client_version_minor cfg) (Sync.client_version_patch cfg)
    (Sync.client_revision cfg) (Sync.compression cfg) (insert_key (Sync.settings cfg) setting value) (Sync.quota_key cfg)
    (Sync.chunked_mode cfg) (Sync.parallel_replicas_version cfg) (Sync.initial_query_id cfg) (Sync.initial_user cfg)
    (Sync.initial_address cfg) (Sync.ssh_signer cfg) in
  Done (Ok tt) (set_client c (refresh_query_template cfg (server_revision (client c)))).
End Methods.

(** ** One response *)

(** The data of a response as it stands on the connection. *)
Definition carries (chunked : bool) (data wire : bytes) : Prop :=
  if chunked then exists ms, forallb wf_mark ms = true /\ ended ms /\ marks_data ms = data /\ wire = marks_bytes ms
  else wire = data.

(** What may be left of it: nothing, or a part of the last end mark. *)
Definition tail_of (chunked : bool) : bytes := if chunked then end_mark else [].

Definition left_over (chunked : bool) (l : bytes) : Prop := exists dropped, tail_of chunked = dropped ++ l.

Lemma carries_tail chunked data w : carries chunked data w -> carries chunked data (tail_of chunked ++ w).
Proof.
  destruct chunked; [|auto]. intros (ms & Hwf & (ms' & c & ->) & Hd & ->). exists (None :: ms' ++ [Some c; None]).
  conj; auto. now exists (None :: ms'), c.
Qed.

Section Responses.
Context `{CodecLaws} {R : Type} `{DuplexLaws R}.

(** A loop that takes exactly some data, whatever it runs over. *)
Definition takes {A} (loop : forall T, Read T -> Write T -> io T A) (data out : bytes) (x : A) : Prop :=
  forall T (HR : Read T) (HL : ReadLaws T) (HW : Write T) (HD : DuplexLaws T), performs (loop T HR HW) data out x.

Lemma over_reader_takes {A} (loop : forall T, Read T -> Write T -> io T A) chunked data out x w1 w2 (t : TransportReader R) :
  takes loop data out x -> carries chunked data w1 -> w2 = [] \/ (exists data2, carries chunked data2 w2) ->
  sound t -> content t = w1 ++ w2 ->
  exists t', over_reader chunked loop t = Ok (x, t') /\ sound t' /\ content t' = tail_of chunked ++ w2 /\ sent t' = sent t ++ out.
Proof.
  intros Hloop Hw1 Hw2 Ht Hc. destruct chunked; cbn [over_reader tail_of app].
  - destruct Hw1 as (ms1 & Hwf1 & Hend & <- & ->).
    assert (exists ms2, forallb wf_mark ms2 = true /\ w2 = marks_bytes ms2) as (ms2 & Hwf2 & ->).
    { destruct Hw2 as [->|(d2 & ms2 & Hwf2 & _ & _ & ->)]; [now exists []|now exists ms2]. }
    assert (forallb wf_mark (ms1 ++ ms2) = true) as Hwf by now rewrite forallb_app, Hwf1.
    destruct (chunked_loop (loop _ _ _) ms1 ms2 out x t Hwf) as (c & E & Hs & Hin & Hout).
    + apply Hloop.
    + exact Hend.
    + exact Ht.
    + rewrite Hc. unfold marks_bytes. now rewrite map_app, concat_app.
    + exists (inner c). unfold over_reader. rewrite E. auto.
  - cbn [carries] in Hw1. subst w1. destruct (Hloop _ _ _ _ _ t w2 Ht Hc) as (t' & E & Hs & Hc' & _ & Hout). exists t'. auto.
Qed.

Lemma dropped_reader chunked (t : TransportReader R) : sound t -> content t = tail_of chunked ++ [] ->
  sound (transport t) /\ left_over chunked (content (transport t)).
Proof.
  intros [Hr Hlen] Hc. rewrite app_nil_r in Hc. cbn [content transport_laws rinv] in *. split; [|exists (buffered t); now rewrite <- Hc].
  split; [exact Hr|]. rewrite blen_app in Hlen. pose proof (blen_nonneg (buffered t)). lia.
Qed.

Lemma fresh_reader (r : R) cap : sound r -> sound (new_transport_reader r cap) /\ content (new_transport_reader r cap) = content r /\
  sent (new_transport_reader r cap) = sent r.
Proof. intros [Hr Hlen]. conj; [split; assumption|reflexivity|reflexivity]. Qed.

(** ** Writing *)

Lemma write_stream_sends w (c : Connection R) : sound (stream c) ->
  exists r, write_stream w c = Done (Ok tt) (set_stream c r) /\ sound r /\ content r = content (stream c) /\ sent r = sent (stream c) ++ w.
Proof.
  intros [Hr Hlen]. destruct (write_law w (stream c) Hr) as (r & E & Hr' & Hc & _ & Hs). exists r. unfold write_stream. rewrite E.
  conj; auto. split; [exact Hr'|]. now rewrite Hc.
Qed.

(** What fits a chunk, on a connection that sends chunks. *)
Definition sendable (chunked_send : bool) (pkt : bytes) : Prop := chunked_send = true -> blen pkt <= U32_MAX.

Lemma write_packet_sends pkt (c : Connection R) : sound (stream c) -> sendable (use_chunked_send c) pkt ->
  exists r, write_packet pkt c = Done (Ok tt) (set_stream c r) /\ sound r /\ content r = content (stream c) /\
    sent r = sent (stream c) ++ native_packet (use_chunked_send c) pkt.
Proof.
  intros Hr Hp. unfold write_packet, native_packet. cbn [bind call_monad get].
  destruct (use_chunked_send c); [specialize (Hp eq_refl)|now apply write_stream_sends].
  unfold write_chunked_packet, write_chunk_header. destruct (Z.leb_spec (blen pkt) U32_MAX); [|lia].
  cbn [bind result_monad call_lift lift call_monad]. now apply write_stream_sends.
Qed.

(** The packet that names the parts a query must ignore. *)
Definition uuids_packet (chunked_send : bool) (uuids : list bytes) : bytes :=
  match uuids with [] => [] | _ => native_packet chunked_send (build_ignored_part_uuids_packet uuids) end.

Lemma send_uuids uuids (c : Connection R) : sound (stream c) -> sendable (use_chunked_send c) (build_ignored_part_uuids_packet uuids) ->
  exists r, send_ignored_part_uuids uuids c = Done (Ok tt) (set_stream c r) /\ sound r /\ content r = content (stream c) /\
    sent r = sent (stream c) ++ uuids_packet (use_chunked_send c) uuids.
Proof.
  intros Hr Hp. destruct uuids as [|u us]; [|now apply write_packet_sends]. exists (stream c). cbn [uuids_packet]. rewrite app_nil_r.
  conj; auto. destruct c; reflexivity.
Qed.

(** Everything up to the response: the parts to ignore, then the query under a new id. *)
Definition query_id_of (c : Connection R) : bytes := fst (next_query_id (process_id c) (counter c)).

Definition query_packet_of (c : Connection R) (text : bytes) (params : list QueryParameter) (settings : settings_map) : bytes :=
  build_query_packet_inner (client c) (query_id_of c) text true params settings.

Definition asked (c : Connection R) (r : R) : Connection R :=
  set_counter (set_stream c r) (snd (next_query_id (process_id c) (counter c))).

Lemma query_sent {A} text params settings uuids (k : call R A) (c : Connection R) :
  sound (stream c) -> sendable (use_chunked_send c) (build_ignored_part_uuids_packet uuids) ->
  sendable (use_chunked_send c) (query_packet_of c text params settings) ->
  exists r, (send_ignored_part_uuids uuids ;; let* pkt := build_query text true params settings in write_packet pkt ;; k) c = k (asked c r) /\
    sound r /\ content r = content (stream c) /\
    sent r = sent (stream c) ++ uuids_packet (use_chunked_send c) uuids ++
      native_packet (use_chunked_send c) (query_packet_of c text params settings).
Proof.
  intros Hr Hu Hp. destruct (send_uuids uuids c Hr Hu) as (r1 & E1 & Hr1 & Hc1 & Hs1).
  destruct (write_packet_sends (query_packet_of c text params settings) (asked c r1) Hr1 Hp) as (r2 & E2 & Hr2 & Hc2 & Hs2).
  exists r2. cbn [bind call_monad]. rewrite E1. unfold build_query. cbn [process_id counter set_stream].
  unfold asked, query_packet_of, query_id_of in *. destruct (next_query_id (process_id c) (counter c)) as [id n].
  cbn [fst snd client set_stream] in *. rewrite E2. conj; auto.
  - cbn [stream set_counter set_stream] in Hc2. congruence.
  - rewrite Hs2. cbn [stream set_counter set_stream use_chunked_send]. now rewrite Hs1, <- app_assoc.
Qed.

Context (clock : nat -> nat -> Z).

(** No reading of the clock is past the deadline. *)
Definition in_time (timeout : Z) : Prop := forall k i, clock k (S i) <= clock k 0%nat + timeout.

Lemma read_blocks_answered (c : Connection R) ps ws res w :
  in_time (query_timeout c) -> response (new_budget (max_response_size c)) [] ps res ->
  (forall e, res = Err e -> is_too_large e = false) ->
  Forall wf_packet ps -> Forall2 (sends (compressed c) (negotiated_revision c)) ps ws -> Z.of_nat (length ps) <= 2 ^ 63 ->
  sound (stream c) -> carries (use_chunked_recv c) (concat ws) w -> content (stream c) = w ->
  exists r, read_blocks clock c = Done res (tick (set_stream c r)) /\ sound r /\ left_over (use_chunked_recv c) (content r) /\
    sent r = sent (stream c) ++ concat (map (answer (use_chunked_send c)) ps).
Proof.
  intros Ht Hres Hsmall Hwf Hs Hlen Hr Hw Hc. destruct (fresh_reader (stream c) (read_buffer_size c) Hr) as (Hf & Hfc & Hfs).
  rewrite <- (app_nil_r w) in Hc. rewrite Hc in Hfc.
  edestruct (over_reader_takes (fun T _ _ => read_response_blocks (R := T) (fun i => clock (loops c) (S i))
    (clock (loops c) 0%nat + query_timeout c) (negotiated_revision c) (use_chunked_send c) (compressed c) []
    (new_budget (max_response_size c)))) as (t & E & Hst & Hct & Hout);
    [|exact Hw|left; reflexivity|exact Hf|exact Hfc|].
  { intros T HR HL HW HD. apply (response_blocks_performs (fun i => clock (loops c) (S i)) _ _ _ _ (fun i => Ht (loops c) i) _ _ _ _ Hres Hwf Hs Hlen). }
  destruct (dropped_reader _ t Hst Hct) as [Hrt Hleft]. exists (transport t). unfold read_blocks. rewrite E.
  rewrite Hfs in Hout. destruct res as [blocks|e]; [auto|]. rewrite (Hsmall e eq_refl). auto.
Qed.

Lemma with_response_answered {A} (loop : forall T, Read T -> Write T -> (nat -> Z) -> Z -> io T (result error A)) (c : Connection R) data out x :
  takes (fun T HR HW => loop T HR HW (fun i => clock (loops c) (S i)) (clock (loops c) 0%nat + query_timeout c)) data out x ->
  sound (stream c) -> carries (use_chunked_recv c) data (content (stream c)) ->
  exists r, with_response clock loop c = Done x (tick (set_stream c r)) /\ sound r /\ left_over (use_chunked_recv c) (content r) /\
    sent r = sent (stream c) ++ out.
Proof.
  intros Hloop Hr Hw. destruct (fresh_reader (stream c) (read_buffer_size c) Hr) as (Hf & Hfc & Hfs).
  rewrite <- (app_nil_r (content (stream c))) in Hfc.
  destruct (over_reader_takes _ _ _ _ _ _ [] _ Hloop Hw (or_introl eq_refl) Hf Hfc) as (t & E & Hst & Hct & Hout).
  destruct (dropped_reader _ t Hst Hct) as [Hrt Hleft]. exists (transport t). rewrite Hfs in Hout. conj; auto.
  unfold with_response, over_reader, chunked_transport in *. destruct (use_chunked_recv c).
  - destruct (loop _ _ _ _ _ _) as [[y ch]|]; [|discriminate]. apply Ok_inj in E. now injection E as -> ->.
  - destruct (loop _ _ _ _ _ _) as [[y ch]|]; [|discriminate]. apply Ok_inj in E. now injection E as -> ->.
Qed.

(** The row count of a response, which is also how a response is discarded. *)
Lemma row_count_takes (timeout rev : Z) (chunked_send compressed : bool) (k : nat) ps ws res :
  in_time timeout -> counted 0 ps res -> Forall wf_packet ps -> Forall discardable_packet ps ->
  Forall2 (sends compressed rev) ps ws -> Z.of_nat (length ps) <= 2 ^ 63 ->
  takes (fun T _ _ => read_response_row_count (R := T) (fun i => clock k (S i)) (clock k 0%nat + timeout) rev chunked_send compressed)
    (concat ws) (concat (map (answer chunked_send) ps)) res.
Proof.
  intros Ht Hres Hwf Hd Hs Hlen T HR HL HW HD.
  exact (response_count_performs (fun i => clock k (S i)) _ rev chunked_send compressed (fun i => Ht k i) ps ws res Hres Hwf Hd Hs Hlen).
Qed.

Lemma cancel_bytes chunked_send : write_cancel_packet chunked_send = Ok (native_packet chunked_send [x03]).
Proof. destruct chunked_send; reflexivity. Qed.

Lemma read_blocks_breached (c : Connection R) ps1 ws1 limit used ps2 ws2 n w1 w2 :
  in_time (Z.min (query_timeout c) FIVE_SECONDS) ->
  response (new_budget (max_response_size c)) [] ps1 (Err (ResponseTooLarge limit used)) -> counted 0 ps2 (Ok n) ->
  Forall wf_packet (ps1 ++ ps2) -> Forall discardable_packet ps2 ->
  Forall2 (sends (compressed c) (negotiated_revision c)) ps1 ws1 -> Forall2 (sends (compressed c) (negotiated_revision c)) ps2 ws2 ->
  Z.of_nat (length (ps1 ++ ps2)) <= 2 ^ 63 ->
  sound (stream c) -> carries (use_chunked_recv c) (concat ws1) w1 -> carries (use_chunked_recv c) (concat ws2) w2 ->
  content (stream c) = w1 ++ w2 ->
  exists r, read_blocks clock c = Done (Err (ResponseTooLarge limit used)) (tick (tick (set_stream c r))) /\ sound r /\
    left_over (use_chunked_recv c) (content r) /\
    sent r = sent (stream c) ++ concat (map (answer (use_chunked_send c)) ps1) ++ native_packet (use_chunked_send c) [x03] ++
      concat (map (answer (use_chunked_send c)) ps2).
Proof.
  intros Ht Hres Hcount Hwf Hd Hs1 Hs2 Hlen Hr Hw1 Hw2 Hc. apply Forall_app in Hwf as [Hwf1 Hwf2]. rewrite length_app in Hlen.
  assert (in_time (query_timeout c)) as Ht' by (intros k i; specialize (Ht k i); lia).
  destruct (fresh_reader (stream c) (read_buffer_size c) Hr) as (Hf & Hfc & Hfs). rewrite Hc in Hfc.
  edestruct (over_reader_takes (fun T _ _ => read_response_blocks (R := T) (fun i => clock (loops c) (S i))
    (clock (loops c) 0%nat + query_timeout c) (negotiated_revision c) (use_chunked_send c) (compressed c) []
    (new_budget (max_response_size c)))) as (t & E & Hst & Hct & Hout);
    [|exact Hw1|right; exists (concat ws2); exact Hw2|exact Hf|exact Hfc|].
  { intros T HR HL HW HD. apply (response_blocks_performs (fun i => clock (loops c) (S i)) _ _ _ _ (fun i => Ht' (loops c) i) _ _ _ _ Hres Hwf1 Hs1). lia. }
  destruct (performs_writing (native_packet (use_chunked_send c) [x03]) t _ Hst Hct) as (t1 & E1 & Hst1 & Hct1 & _ & Hout1).
  rewrite <- (app_nil_r (_ ++ w2)) in Hct1.
  destruct (over_reader_takes _ _ _ _ _ _ [] t1
    (row_count_takes _ (negotiated_revision c) (use_chunked_send c) (compressed c) (S (loops c)) ps2 ws2 (Ok n) Ht Hcount Hwf2 Hd Hs2 ltac:(lia))
    (carries_tail _ _ _ Hw2) (or_introl eq_refl) Hst1 Hct1) as (t2 & E2 & Hst2 & Hct2 & Hout2).
  destruct (dropped_reader _ t2 Hst2 Hct2) as [Hrt Hleft]. exists (transport t2).
  unfold read_blocks. rewrite E. cbn [is_too_large]. unfold cancel_and_discard. cbn [tick loops query_timeout use_chunked_send
    use_chunked_recv]. rewrite cancel_bytes. cbn [lift io_lift bind io_monad]. rewrite E1.
  unfold compressed, negotiated_revision in *. cbn [tick client] in *. rewrite E2. conj; auto.
  change (sent (transport t2)) with (sent t2). rewrite Hout2, Hout1, Hout, Hfs, <- !app_assoc. reflexivity.
Qed.
End Responses.

(** ** What the methods promise *)

Section Promises.
Context `{CodecLaws} {R : Type} `{DuplexLaws R} (clock : nat -> nat -> Z).

(** C23: a query is answered.  Whatever the settings, parameters and parts to ignore, the
    client sends one query packet under a fresh id, behind the list of parts, and returns
    what the server's response means, its blocks or its exception; every byte of the response
    is taken, on a plain connection all of it and on a chunked one up to the end mark of its
    last packet, and only the requests of the coordinator are answered.  The response is
    within the size budget and is read before the deadline; the columns of its blocks are of
    types stored as they are sent. *)
Theorem query_answered (c : Connection R) (text : bytes) (params : list QueryParameter) (settings : settings_map)
    (uuids : list bytes) (ps : list Packet) (ws : list bytes) (res : result error (list Block)) :
  in_time clock (query_timeout c) -> response (new_budget (max_response_size c)) [] ps res ->
  (forall e, res = Err e -> is_too_large e = false) ->
  Forall wf_packet ps -> Forall2 (sends (compressed c) (negotiated_revision c)) ps ws -> Z.of_nat (length ps) <= 2 ^ 63 ->
  sound (stream c) -> carries (use_chunked_recv c) (concat ws) (content (stream c)) ->
  sendable (use_chunked_send c) (build_ignored_part_uuids_packet uuids) -> sendable (use_chunked_send c) (query_packet_of c text params settings) ->
  exists r, query_with_params_settings_and_ignored_part_uuids clock text params settings uuids c = Done res (tick (asked c r)) /\
    left_over (use_chunked_recv c) (content r) /\
    sent r = sent (stream c) ++ uuids_packet (use_chunked_send c) uuids ++
      native_packet (use_chunked_send c) (query_packet_of c text params settings) ++
      concat (map (answer (use_chunked_send c)) ps).
Proof.
  intros Ht Hres Hsmall Hwf Hs Hlen Hr Hw Hu Hp.
  destruct (query_sent text params settings uuids (read_blocks clock) c Hr Hu Hp) as (r1 & E1 & Hr1 & Hc1 & Hs1).
  rewrite <- Hc1 in Hw.
  destruct (read_blocks_answered clock (asked c r1) ps ws res (content r1) Ht Hres Hsmall Hwf Hs Hlen Hr1 Hw eq_refl)
    as (r2 & E2 & _ & Hl2 & Hs2).
  exists r2. unfold query_with_params_settings_and_ignored_part_uuids. rewrite E1, E2. conj; auto.
  rewrite Hs2. cbn [asked set_counter set_stream stream use_chunked_send]. rewrite Hs1, <- !app_assoc. reflexivity.
Qed.

(** C24: a response that breaches the size budget does not cost the connection.  The client
    reports the breach, sends Cancel and discards what the server still sends, so that the
    connection is left as after any other response, plain or chunked. Assumed is that what
    the server still sends ends in EndOfStream before the deadline of the drain and has only
    blocks of types that the discarding reader supports (no Nothing, Variant or Dynamic),
    and, on a chunked connection, that the packet of the breach ends where a chunk ends (the
    drain starts with a new [ChunkedReader]). *)
Theorem budget_breach_recovers (c : Connection R) (text : bytes) (ps1 ps2 : list Packet) (ws1 ws2 : list bytes)
    (limit used n : Z) (w1 w2 : bytes) :
  in_time clock (Z.min (query_timeout c) FIVE_SECONDS) ->
  response (new_budget (max_response_size c)) [] ps1 (Err (ResponseTooLarge limit used)) -> counted 0 ps2 (Ok n) ->
  Forall wf_packet (ps1 ++ ps2) -> Forall discardable_packet ps2 ->
  Forall2 (sends (compressed c) (negotiated_revision c)) ps1 ws1 -> Forall2 (sends (compressed c) (negotiated_revision c)) ps2 ws2 ->
  Z.of_nat (length (ps1 ++ ps2)) <= 2 ^ 63 ->
  sound (stream c) -> carries (use_chunked_recv c) (concat ws1) w1 -> carries (use_chunked_recv c) (concat ws2) w2 ->
  content (stream c) = w1 ++ w2 -> sendable (use_chunked_send c) (query_packet_of c text [] []) ->
  exists r, query clock text c = Done (Err (ResponseTooLarge limit used)) (tick (tick (asked c r))) /\
    left_over (use_chunked_recv c) (content r) /\
    sent r = sent (stream c) ++ native_packet (use_chunked_send c) (query_packet_of c text [] []) ++
      concat (map (answer (use_chunked_send c)) ps1) ++ native_packet (use_chunked_send c) [x03] ++
      concat (map (answer (use_chunked_send c)) ps2).
Proof.
  intros Ht Hres Hcount Hwf Hd Hs1 Hs2 Hlen Hr Hw1 Hw2 Hc Hp.
  destruct (query_sent text [] [] [] (read_blocks clock) c Hr ltac:(intros _; discriminate) Hp) as (r1 & E1 & Hr1 & Hc1 & Ho1).
  rewrite <- Hc1 in Hc.
  destruct (read_blocks_breached clock (asked c r1) ps1 ws1 limit used ps2 ws2 n w1 w2 Ht Hres Hcount Hwf Hd Hs1 Hs2 Hlen Hr1 Hw1 Hw2 Hc)
    as (r2 & E2 & _ & Hl2 & Ho2).
  exists r2. unfold query, query_with_params_settings_and_ignored_part_uuids. rewrite E1, E2. conj; auto.
  rewrite Ho2. cbn [asked set_counter set_stream stream use_chunked_send]. rewrite Ho1. cbn [uuids_packet app].
  rewrite <- !app_assoc. reflexivity.
Qed.

(** A statement reports its failure.  [execute] succeeds exactly when the response ends
    well, returns the server's exception otherwise, and forgets the cached schemas only
    after a statement that succeeded and may have changed one. *)
Theorem execute_reports (c : Connection R) (text : bytes) (ps : list Packet) (ws : list bytes) (res : result error Z) :
  in_time clock (query_timeout c) -> counted 0 ps res -> Forall wf_packet ps -> Forall discardable_packet ps ->
  Forall2 (sends (compressed c) (negotiated_revision c)) ps ws -> Z.of_nat (length ps) <= 2 ^ 63 ->
  sound (stream c) -> carries (use_chunked_recv c) (concat ws) (content (stream c)) ->
  sendable (use_chunked_send c) (query_packet_of c text [] []) ->
  exists r, execute clock text c =
    (match res with
     | Ok _ => Done (Ok tt) (if query_may_change_schema text then set_cache (tick (asked c r)) [] else tick (asked c r))
     | Err e => Done (Err e) (tick (asked c r))
     end) /\ left_over (use_chunked_recv c) (content r).
Proof.
  intros Ht Hres Hwf Hd Hs Hlen Hr Hw Hp.
  pose (rest := (drain_response clock ;; if query_may_change_schema text then clear_schema_cache else ret tt) : call R unit).
  destruct (query_sent text [] [] [] rest c Hr ltac:(intros _; discriminate) Hp) as (r1 & E1 & Hr1 & Hc1 & _).
  rewrite <- Hc1 in Hw.
  pose proof (row_count_takes clock (query_timeout c) (negotiated_revision c) (use_chunked_send c) (compressed c) (loops c) ps ws res
    Ht Hres Hwf Hd Hs Hlen) as Htakes.
  destruct (with_response_answered clock (fun T _ _ now deadline => read_response_row_count (R := T) now deadline
    (negotiated_revision c) (use_chunked_send c) (compressed c)) (asked c r1) _ _ _ Htakes Hr1 Hw) as (r2 & E2 & _ & Hl2 & _).
  exists r2. split; [|exact Hl2]. unfold execute, execute_with_params_settings_and_ignored_part_uuids. fold rest. rewrite E1.
  unfold rest, drain_response. cbn [bind call_monad get].
  change (negotiated_revision (asked c r1)) with (negotiated_revision c). change (compressed (asked c r1)) with (compressed c).
  change (use_chunked_send (asked c r1)) with (use_chunked_send c). rewrite E2.
  destruct res; [|reflexivity]. destruct (query_may_change_schema text); reflexivity.
Qed.
End Promises.

(** ** A chunked connection *)

#[local] Existing Instance sample_codecs.

Definition sample_client : SyncClient := refresh_query_template (query_config [] (Some Lz4) []) 54483.

Definition sample_connection (max_response_size : Z) (wire : bytes) : Connection (Wired socket) :=
  mkConnection (mkWired (Socket (map (fun b => [b]) wire)) []) sample_client true true 16 1000 max_response_size false [] 7 0 0.

(** Every packet in a chunk of its own. *)
Definition one_chunk_each (ws : list bytes) : list mark := concat (map (fun w => [Some w; None]) ws).

Lemma bytewise (wire : bytes) : sound (mkWired (Socket (map (fun b => [b]) wire)) []) <-> blen wire <= ISIZE_MAX.
Proof.
  assert (concat (map (fun b => [b]) wire) = wire) as Hc by (induction wire as [|b l IH]; cbn; congruence).
  unfold sound. cbn [rinv content wired_read_laws socket_laws incoming segments]. rewrite Hc. split; [tauto|]. intros Hl.
  split; [|exact Hl]. apply Forall_forall. intros seg Hin. apply in_map_iff in Hin as (b & <- & _). discriminate.
Qed.

Lemma bytewise_content (wire : bytes) : content (mkWired (Socket (map (fun b => [b]) wire)) []) = wire.
Proof. cbn [content wired_read_laws socket_laws incoming segments]. induction wire as [|b l IH]; cbn; congruence. Qed.

Lemma one_chunk_each_carries ws w : forallb wf_mark (one_chunk_each (ws ++ [w])) = true ->
  carries true (concat (ws ++ [w])) (marks_bytes (one_chunk_each (ws ++ [w]))).
Proof.
  intros Hwf. exists (one_chunk_each (ws ++ [w])). conj; auto.
  - exists (one_chunk_each ws), w. unfold one_chunk_each. rewrite map_app, concat_app. reflexivity.
  - clear Hwf. unfold one_chunk_each, marks_data. induction (ws ++ [w]) as [|x l IH]; cbn [map concat app]; [reflexivity|].
    cbn [app] in *. now rewrite IH.
Qed.

Definition sample_response_wire : bytes := marks_bytes (one_chunk_each sample_sent).

Lemma query_answered_witness :
  let c := sample_connection 1000000 sample_response_wire in
  exists r, query_with_params_settings_and_ignored_part_uuids (fun _ _ => 0) (str "SELECT 1") sample_params [] [] c =
      Done (Ok [written_sample]) (tick (asked c r)) /\ left_over true (content r) /\
    sent r = sent (stream c) ++ [] ++ native_packet true (query_packet_of c (str "SELECT 1") sample_params []) ++
      concat (map (answer true) sample_packets).
Proof.
  intros c. apply (@query_answered sample_codecs sample_codec_laws (Wired socket) _ _ _ _ (fun _ _ => 0) c (str "SELECT 1") sample_params [] []
    sample_packets sample_sent (Ok [written_sample])).
  - intros k i. discriminate.
  - exact sample_packets_response.
  - discriminate.
  - exact sample_packets_wf.
  - exact sample_packets_sent.
  - discriminate.
  - apply bytewise. vm_compute. discriminate.
  - unfold c, sample_connection. cbn [stream]. rewrite bytewise_content. apply (one_chunk_each_carries (firstn 5 sample_sent) (write_varint 5 ++ [])).
    vm_compute. reflexivity.
  - intros _. discriminate.
  - intros _. vm_compute. discriminate.
Defined.

(** The block breaches a budget of ten bytes; the server answers Cancel with progress and
    the end of the stream. *)
Definition breach_packets : list Packet := [PReadTask; PMessage (SData (str "t") written_sample)].

Definition breach_sent : list bytes := [write_varint 13 ++ []; write_varint 1 ++ write_string (str "t") ++ concat sample_frames].

Definition drain_packets : list Packet := [PMessage (SProgress (mkProgress 1 2 3 4 5 6 7)); PMessage SEndOfStream].

Definition drain_sent : list bytes := [write_varint 3 ++ write_progress 54483 (mkProgress 1 2 3 4 5 6 7); write_varint 5 ++ []].

Definition breach_wires : bytes * bytes := (marks_bytes (one_chunk_each breach_sent), marks_bytes (one_chunk_each drain_sent)).

Definition breach_used : Z := used (snd (charge (new_budget 10) (payload_bytes written_sample))).

Lemma budget_breach_recovers_witness :
  let c := sample_connection 10 (fst breach_wires ++ snd breach_wires) in
  exists r, query (fun _ _ => 0) (str "SELECT 1") c = Done (Err (ResponseTooLarge 10 breach_used)) (tick (tick (asked c r))) /\
    left_over true (content r) /\
    sent r = sent (stream c) ++ native_packet true (query_packet_of c (str "SELECT 1") [] []) ++
      concat (map (answer true) breach_packets) ++ native_packet true [x03] ++ concat (map (answer true) drain_packets).
Proof.
  intros c. apply (@budget_breach_recovers sample_codecs sample_codec_laws (Wired socket) _ _ _ _ (fun _ _ => 0) c (str "SELECT 1")
    breach_packets drain_packets breach_sent drain_sent 10 breach_used 0 (fst breach_wires) (snd breach_wires)).
  - intros k i. discriminate.
  - apply r_passed; [reflexivity|].
    change (ResponseTooLarge 10 breach_used) with (response_budget_exceeded (snd (charge (new_budget 10) (payload_bytes written_sample)))).
    apply r_breach. vm_compute. reflexivity.
  - apply c_passed; [reflexivity|]. apply c_end.
  - unfold breach_packets, drain_packets. cbn [app]. repeat (apply Forall_cons; [|]); try apply Forall_nil; cbn [wf_packet wf_message]; auto.
    unfold wf_progress, u64, U64_MAX. cbn. lia.
  - repeat (apply Forall_cons; [exact I|]). apply Forall_nil.
  - unfold breach_packets, breach_sent. repeat (apply Forall2_cons; [eexists; split; [|reflexivity]; constructor|]); try apply Forall2_nil.
    exact sample_body.
  - unfold drain_packets, drain_sent. repeat (apply Forall2_cons; [eexists; split; [|reflexivity]; constructor|]); apply Forall2_nil.
  - discriminate.
  - apply bytewise. vm_compute. discriminate.
  - apply (one_chunk_each_carries [write_varint 13 ++ []]). vm_compute. reflexivity.
  - apply (one_chunk_each_carries [write_varint 3 ++ write_progress 54483 (mkProgress 1 2 3 4 5 6 7)]). vm_compute. reflexivity.
  - unfold c, sample_connection. cbn [stream]. apply bytewise_content.
  - intros _. vm_compute. discriminate.
Defined.

Lemma execute_reports_witness :
  let c := sample_connection 10 (snd breach_wires) in
  exists r, execute (fun _ _ => 0) (str "  drop TABLE t") c = Done (Ok tt) (set_cache (tick (asked c r)) []) /\ left_over true (content r).
Proof.
  intros c. apply (@execute_reports sample_codecs sample_codec_laws (Wired socket) _ _ _ _ (fun _ _ => 0) c (str "  drop TABLE t")
    drain_packets drain_sent (Ok 0)).
  - intros k i. discriminate.
  - apply c_passed; [reflexivity|]. apply c_end.
  - unfold drain_packets. repeat (apply Forall_cons; [|]); try apply Forall_nil; cbn [wf_packet wf_message]; auto.
    unfold wf_progress, u64, U64_MAX. cbn. lia.
  - repeat (apply Forall_cons; [exact I|]). apply Forall_nil.
  - unfold drain_packets, drain_sent. repeat (apply Forall2_cons; [eexists; split; [|reflexivity]; constructor|]); apply Forall2_nil.
  - discriminate.
  - apply bytewise. vm_compute. discriminate.
  - unfold c, sample_connection. cbn [stream]. rewrite bytewise_content.
    apply (one_chunk_each_carries [write_varint 3 ++ write_progress 54483 (mkProgress 1 2 3 4 5 6 7)]). vm_compute. reflexivity.
  - intros _. vm_compute. discriminate.
Defined.
