(* ===== verification/Conversation.v ===== *)
(** * Conversations of the blocking client with a server

    A server answers a request when it has read it, so the segments of one response do not
    hold bytes of the next one.  On a socket that keeps this discipline the buffered reader
    of a response never reads into the next, and the methods of the client can be called
    one after the other: every call gets its own answer.  An insert is such a conversation
    of two turns. *)

From Stdlib Require Import String ZArith Lia Bool List.
From Stdlib Require Import Strings.Byte.
From coqutil Require Import Byte.
From S2P Require Import Prelude Revision Reader Session Limits Utf8 Wire TypeParser Arena ColumnReader Framing BlockReader BlockWriter Chunked Duplex Compression BlockPackets Transport Boundary Response Handshake Packets SyncResponse QueryPacket Schema SyncClient.
Import ListNotations.

Section Turn.
(** The segments of the turns to come. *)
Context (later : list bytes).

(** The buffered reader has not begun a later turn, or has taken a byte of it. *)
Definition in_turn (t : TransportReader (Wired socket)) : Prop :=
  (exists now, segments (incoming (transport t)) = now ++ later) \/ blen (content t) < blen (concat later).

Lemma socket_read_turn now n bs s : segments s = now ++ later -> now <> [] ->
  forall s', read n s = Ok (bs, s') -> exists now', segments s' = now' ++ later.
Proof.
  intros E Hne s' Er. unfold read, socket_read in Er. rewrite E in Er. destruct now as [|seg now]; [easy|]. cbn [app] in Er.
  apply Ok_inj in Er. injection Er as _ <-. cbn [segments]. destruct (skipn n seg) as [|b l]; [now exists now|].
  now exists ((b :: l) :: now).
Qed.

Lemma read_in_turn n (t : TransportReader (Wired socket)) bs t' :
  rinv t -> in_turn t -> (0 < n)%nat -> read n t = Ok (bs, t') -> in_turn t'.
Proof.
  intros Hr Hin Hn E. pose proof (read_law n t Hr Hn) as Hlaw. rewrite E in Hlaw. destruct Hlaw as (_ & _ & Hc & _ & Hnil).
  assert (blen (content t) < blen (concat later) -> in_turn t') as Hpast.
  { intros Hlt. right. rewrite Hc, blen_app in Hlt. pose proof (blen_nonneg bs). lia. }
  destruct Hin as [(now & Es)|]; [|auto]. unfold read, transport_read in E.
  destruct (buffered t) as [|b held] eqn:Eb.
  2: { apply Ok_inj in E. injection E as _ <-. left. now exists now. }
  destruct now as [|seg now].
  - destruct bs as [|b bs].
    + destruct (Hnil eq_refl) as [Hempty _]. left. exists [].
      cbn [content transport_laws wired_read_laws socket_laws] in Hempty. rewrite Eb, Es in Hempty.
      unfold read, wired_read, read, socket_read in E. destruct (segments (incoming (transport t))) as [|s ss] eqn:Ess.
      * destruct (_ <=? _)%nat; apply Ok_inj, (f_equal snd) in E; cbn [snd] in E; subst t'; cbn [transport incoming]; now rewrite Ess.
      * exfalso. cbn [rinv transport_laws wired_read_laws socket_laws] in Hr. rewrite Ess in Hr. inversion Hr; subst.
        rewrite <- Es in Hempty. cbn [app concat] in Hempty. apply app_eq_nil in Hempty as [-> _]. easy.
    + right.
      assert (concat later = content (transport t)) as ->
        by (change (content (transport t)) with (concat (segments (incoming (transport t)))); now rewrite Es).
      cbn [content transport_laws] in Hc. rewrite Eb in Hc. cbn [app] in Hc.
      change (content t') with (buffered t' ++ content (transport t')). rewrite Hc, blen_cons, (blen_app bs).
      pose proof (blen_nonneg bs). lia.
  - left. unfold read, wired_read in E.
    destruct (_ <=? _)%nat; destruct (read _ (incoming (transport t))) as [[got s]|] eqn:Er; try discriminate;
      destruct (socket_read_turn _ _ _ _ Es ltac:(discriminate) _ Er) as [now' Es'];
      apply Ok_inj in E; injection E as _ <-; now exists now'.
Qed.

Definition turn_laws : ReadLaws (TransportReader (Wired socket)).
Proof.
  refine {| rinv t := @rinv _ _ transport_laws t /\ in_turn t; content := @content _ _ transport_laws; ends := @ends _ _ transport_laws |}.
  intros n t [Hr Hin] Hn. pose proof (@read_law _ _ transport_laws n t Hr Hn) as Hlaw.
  destruct (read n t) as [[bs t']|e] eqn:E; [|exact Hlaw]. destruct Hlaw as (Hi & Hlaw).
  split; [|exact Hlaw]. split; [exact Hi|]. exact (read_in_turn n t bs t' Hr Hin Hn E).
Defined.

Definition turn_duplex : @DuplexLaws (TransportReader (Wired socket)) _ turn_laws _.
Proof.
  unshelve refine (@Build_DuplexLaws _ _ turn_laws _ (@sent _ _ _ _ transport_duplex) _ _).
  - intros w t [Hr Hin]. destruct (@write_law _ _ _ _ transport_duplex w t Hr) as (t' & E & Hr' & Hc & He & Hs). exists t'.
    split; [exact E|]. split; [|auto]. split; [exact Hr'|]. unfold write_all, transport_write in E. cbn in E. apply Ok_inj in E. subst t'.
    exact Hin.
  - intros n t bs t' E. exact (@read_sent _ _ _ _ transport_duplex n t bs t' E).
Defined.

(** When exactly the present turn was read, the socket holds the later ones and the buffer
    nothing. *)
Lemma turn_over (t : TransportReader (Wired socket)) : @rinv _ _ transport_laws t -> in_turn t -> content t = concat later ->
  incoming (transport t) = Socket later.
Proof.
  intros Hr Hin Hc. destruct Hin as [(now & Es)|Hlt]; [|rewrite Hc in Hlt; lia].
  cbn [content transport_laws wired_read_laws socket_laws] in Hc. rewrite Es, concat_app in Hc.
  apply (f_equal blen) in Hc. rewrite !blen_app in Hc. pose proof (blen_nonneg (buffered t)). pose proof (blen_nonneg (concat now)).
  destruct now as [|seg now].
  - cbn [app] in Es. destruct (incoming (transport t)). cbn in Es. now f_equal.
  - exfalso. cbn [rinv transport_laws wired_read_laws socket_laws] in Hr. rewrite Es in Hr. inversion Hr as [|? ? Hseg _]; subst.
    cbn [concat] in *. rewrite blen_app in *. destruct seg as [|b seg]; [easy|]. rewrite blen_cons in *.
    pose proof (blen_nonneg seg). pose proof (blen_nonneg (concat now)). lia.
Qed.
End Turn.

(** ** One turn *)

(** The segments of a connection: none is empty, and a buffer could hold them. *)
Definition wf_segments (segs : list bytes) : Prop := Forall (fun seg => seg <> []) segs /\ blen (concat segs) <= ISIZE_MAX.

Lemma wf_segments_later now later : wf_segments (now ++ later) -> wf_segments later.
Proof.
  intros [Hne Hlen]. apply Forall_app in Hne as [_ Hne]. split; [exact Hne|]. rewrite concat_app, blen_app in Hlen.
  pose proof (blen_nonneg (concat now)). lia.
Qed.

Lemma turn_taken `{Codecs} {A} (loop : forall T, Read T -> Write T -> io T A) data out x now later o cap :
  takes loop data out x -> concat now = data -> wf_segments (now ++ later) ->
  exists t, loop _ _ _ (new_transport_reader (mkWired (Socket (now ++ later)) o) cap) = Ok (x, t) /\
    transport t = mkWired (Socket later) (o ++ out).
Proof.
  intros Hloop <- [Hne Hlen].
  destruct (Hloop _ _ (turn_laws later) _ (turn_duplex later) (new_transport_reader (mkWired (Socket (now ++ later)) o) cap) (concat later))
    as (t & E & [[Hr Hin] _] & Hc & _ & Hs).
  - split; [split; [exact Hne|left; now exists now]|]. exact Hlen.
  - change (concat (now ++ later) = concat now ++ concat later). apply concat_app.
  - exists t. split; [exact E|]. pose proof (turn_over later t Hr Hin Hc) as Hin'. cbn [sent turn_duplex transport_duplex wired_laws] in Hs.
    change (outgoing (transport t) = o ++ out) in Hs. destruct (transport t) as [i o']. cbn [incoming outgoing] in *. congruence.
Qed.

(** A connection without chunks in either direction, on a socket. *)
Definition plain_connection (c : Connection (Wired socket)) : Prop := use_chunked_send c = false /\ use_chunked_recv c = false.

(** The connection after a turn. *)
Definition moved (c : Connection (Wired socket)) (later : list bytes) (out : bytes) : Connection (Wired socket) :=
  set_stream c (mkWired (Socket later) (outgoing (stream c) ++ out)).

Section Turns.
Context `{CodecLaws} (clock : nat -> nat -> Z).

Lemma with_response_turn {A} (loop : forall T, Read T -> Write T -> (nat -> Z) -> Z -> io T (result error A)) c data out x now later :
  takes (fun T HR HW => loop T HR HW (fun i => clock (loops c) (S i)) (clock (loops c) 0%nat + query_timeout c)) data out x ->
  plain_connection c -> segments (incoming (stream c)) = now ++ later -> concat now = data -> wf_segments (now ++ later) ->
  with_response clock loop c = Done x (tick (moved c later out)).
Proof.
  intros Hloop [_ Hp] Es Hd Hwf. unfold with_response, moved. rewrite Hp. destruct (stream c) as [[segs] o] eqn:Ec. cbn in Es. subst segs.
  destruct (turn_taken _ _ _ _ _ _ o (read_buffer_size c) Hloop Hd Hwf) as (t & E & Et). cbv zeta. rewrite E, Et. reflexivity.
Qed.

Lemma write_stream_plain w (c : Connection (Wired socket)) :
  write_stream w c = Done (Ok tt) (moved c (segments (incoming (stream c))) w).
Proof. unfold write_stream, moved. destruct (stream c) as [[segs] o]. reflexivity. Qed.

Lemma write_packet_plain w (c : Connection (Wired socket)) : use_chunked_send c = false ->
  write_packet w c = Done (Ok tt) (moved c (segments (incoming (stream c))) w).
Proof. intros Hp. unfold write_packet. cbn [bind call_monad get]. rewrite Hp. apply write_stream_plain. Qed.

(** What the server answers a query with. *)
Definition answers (c : Connection (Wired socket)) (segs : list bytes) (res : result error (list Block)) : Prop :=
  exists ps ws, response (new_budget (max_response_size c)) [] ps res /\ (forall e, res = Err e -> is_too_large e = false) /\
    Forall wf_packet ps /\ Forall2 (sends (compressed c) (negotiated_revision c)) ps ws /\ Z.of_nat (length ps) <= 2 ^ 63 /\
    concat segs = concat ws.

Lemma read_blocks_turn c res now later :
  in_time clock (query_timeout c) -> plain_connection c -> answers c now res ->
  segments (incoming (stream c)) = now ++ later -> wf_segments (now ++ later) ->
  exists out, read_blocks clock c = Done res (tick (moved c later out)).
Proof.
  intros Ht [_ Hp] (ps & ws & Hres & Hsmall & Hwf & Hs & Hlen & Hd) Es Hsegs.
  exists (concat (map (answer (use_chunked_send c)) ps)). unfold read_blocks, over_reader, moved. rewrite Hp.
  destruct (stream c) as [[segs] o] eqn:Ec. cbn in Es. subst segs.
  edestruct (turn_taken (fun T _ _ => read_response_blocks (R := T) (fun i => clock (loops c) (S i))
    (clock (loops c) 0%nat + query_timeout c) (negotiated_revision c) (use_chunked_send c) (compressed c) []
    (new_budget (max_response_size c)))) as (t & E & Et); [|exact Hd|exact Hsegs|].
  { intros T HR HL HW HD. apply (response_blocks_performs (fun i => clock (loops c) (S i)) _ _ _ _ (fun i => Ht (loops c) i) _ _ _ _ Hres Hwf Hs Hlen). }
  cbv zeta. rewrite E. destruct res as [blocks|e]; [|rewrite (Hsmall e eq_refl)]; now rewrite Et.
Qed.

(** ** Queries one after the other *)

Record Question := mkQuestion { q_text : bytes; q_params : list QueryParameter; q_settings : settings_map }.

Fixpoint converse (qs : list Question) (c : Connection (Wired socket)) : option (list (result error (list Block)) * Connection (Wired socket)) :=
  match qs with
  | [] => Some ([], c)
  | q :: qs =>
      match query_with_params_settings_and_ignored_part_uuids clock (q_text q) (q_params q) (q_settings q) [] c with
      | Done res c =>
          match converse qs c with
          | Some (rs, c) => Some (res :: rs, c)
          | None => None
          end
      | _ => None
      end
  end.

Lemma query_sent_plain {A} text params settings (k : call (Wired socket) A) c : use_chunked_send c = false ->
  (send_ignored_part_uuids [] ;; let* pkt := build_query text true params settings in write_packet pkt ;; k) c =
  k (asked c (mkWired (incoming (stream c)) (outgoing (stream c) ++ query_packet_of c text params settings))).
Proof.
  intros Hp. unfold send_ignored_part_uuids, build_query, asked, query_packet_of, query_id_of. cbn [bind call_monad ret].
  destruct (next_query_id (process_id c) (counter c)) as [id n]. rewrite write_packet_plain by exact Hp.
  unfold moved. destruct c as [[[segs] o]]. reflexivity.
Qed.

Lemma query_turn c q res now later :
  in_time clock (query_timeout c) -> plain_connection c -> answers c now res ->
  segments (incoming (stream c)) = now ++ later -> wf_segments (now ++ later) ->
  exists out, query_with_params_settings_and_ignored_part_uuids clock (q_text q) (q_params q) (q_settings q) [] c =
      Done res (tick (asked c (mkWired (Socket later) out))).
Proof.
  intros Ht Hp Ha Es Hsegs. unfold query_with_params_settings_and_ignored_part_uuids. rewrite query_sent_plain by apply Hp.
  edestruct (read_blocks_turn (asked c (mkWired (incoming (stream c)) (outgoing (stream c) ++ query_packet_of c (q_text q) (q_params q) (q_settings q)))) res now later)
    as [out E]; [exact Ht|exact Hp|exact Ha|exact Es|exact Hsegs|].
  rewrite E. eexists. reflexivity.
Qed.

(** C7: the client stays in step with the server.  On a plain connection every query of a
    sequence gets its own answer, blocks or exception, however the responses are cut into
    segments, for every size of the read buffer, as long as no segment spans two responses;
    a failed query does not disturb the ones behind it, and what comes after the last
    response is still on the socket. *)
Theorem conversation_in_step (c : Connection (Wired socket)) (turns : list (Question * list bytes * result error (list Block)))
    (later : list bytes) :
  in_time clock (query_timeout c) -> plain_connection c ->
  Forall (fun '(_, segs, res) => answers c segs res) turns ->
  segments (incoming (stream c)) = concat (map (fun '(_, segs, _) => segs) turns) ++ later ->
  wf_segments (segments (incoming (stream c))) ->
  exists c', converse (map (fun '(q, _, _) => q) turns) c = Some (map (fun '(_, _, res) => res) turns, c') /\
    segments (incoming (stream c')) = later.
Proof.
  revert c. induction turns as [|[[q segs] res] turns IH]; intros c Ht Hp Ha Es Hsegs; cbn [map concat app converse] in *.
  { exists c. split; [reflexivity|exact Es]. }
  inversion Ha as [|? ? Hq Hrest]; subst. rewrite <- app_assoc in Es. rewrite Es in Hsegs.
  destruct (query_turn c q res segs _ Ht Hp Hq Es Hsegs) as [out E]. rewrite E.
  destruct (IH (tick (asked c (mkWired (Socket (concat (map (fun '(_, segs, _) => segs) turns) ++ later)) out)))) as (c' & E' & Hl).
  - exact Ht.
  - exact Hp.
  - exact Hrest.
  - reflexivity.
  - eapply wf_segments_later. exact Hsegs.
  - exists c'. rewrite E'. auto.
Qed.

(** ** Inserts *)

(** The gathered write is the packet that [write_data_packet] builds in one buffer. *)
Lemma data_slices_packet table b : concat (data_slices table b) = write_data_packet table b.
Proof.
  pose (meta := fun col => write_string (name col) ++ write_string (type_name col) ++ [x00]).
  assert (forall cols, concat (concat (map (fun col => if blen (data col) =? 0 then [meta col] else [meta col; data col]) cols)) =
    concat (map write_column cols)) as Hcols.
  { induction cols as [|col cols IH]; [reflexivity|]. cbn [map concat]. rewrite concat_app, IH. f_equal. unfold write_column.
    destruct (Z.eqb_spec (blen (data col)) 0) as [E|]; cbn [concat]; unfold meta; rewrite ?app_nil_r, <- ?app_assoc; [|reflexivity].
    apply blen_zero in E. now rewrite E, app_nil_r. }
  unfold data_slices, write_data_packet, write_block, write_block_info. cbn [concat]. unfold meta in Hcols. rewrite Hcols, <- !app_assoc.
  reflexivity.
Qed.

(** The packets of the blocks of an insert. *)
Fixpoint data_packets (compression : option CompressionMethod) (blocks : list Block) : result error (list bytes) :=
  match blocks with
  | [] => Ok []
  | b :: blocks =>
      let* pkt := match compression with Some method => write_data_packet_compressed [] b method | None => Ok (write_data_packet [] b) end in
      let* pkts := data_packets compression blocks in
      Ok (pkt :: pkts)
  end.

Lemma moved_moved c l1 l2 o1 o2 : moved (moved c l1 o1) l2 o2 = moved c l2 (o1 ++ o2).
Proof. unfold moved. cbn [stream set_stream outgoing]. now rewrite app_assoc. Qed.

Lemma moved_here c : moved c (segments (incoming (stream c))) [] = c.
Proof. unfold moved. rewrite app_nil_r. now destruct c as [[[segs] o]]. Qed.

Lemma send_data_plain c b pkt : use_chunked_send c = false ->
  match Sync.compression (config (client c)) with Some method => write_data_packet_compressed [] b method | None => Ok (write_data_packet [] b) end = Ok pkt ->
  send_data clock [] b c = Done (Ok tt) (moved c (segments (incoming (stream c))) pkt).
Proof.
  intros Hp E. unfold send_data, client_validate_insert_block. cbn [bind call_monad get].
  change (blen (@nil Init.Byte.byte) =? 0) with true. rewrite orb_true_r. change (@ret (call (Wired socket)) _ unit tt c) with (@Done (Wired socket) unit (Ok tt) c). cbv iota.
  destruct (Sync.compression (config (client c))) as [method|].
  - rewrite E. cbn [lift call_lift bind call_monad]. now apply write_packet_plain.
  - apply Ok_inj in E. subst pkt. unfold send_data_vectored, write_all_vectored. cbn [bind call_monad get]. rewrite Hp, data_slices_packet.
    apply write_stream_plain.
Qed.

Lemma send_blocks_plain blocks : forall c pkts, use_chunked_send c = false ->
  data_packets (Sync.compression (config (client c))) blocks = Ok pkts ->
  send_blocks clock blocks c = Done (Ok tt) (moved c (segments (incoming (stream c))) (concat pkts)).
Proof.
  induction blocks as [|b blocks IH]; intros c pkts Hp E; cbn [data_packets send_blocks] in *.
  { apply Ok_inj in E. subst. cbn [concat]. now rewrite moved_here. }
  apply result_bind_inv in E as (pkt & Eb & E). apply result_bind_inv in E as (pkts' & Er & E). apply Ok_inj in E. subst pkts.
  cbn [bind call_monad]. rewrite (send_data_plain c b pkt Hp Eb). rewrite (IH (moved c (segments (incoming (stream c))) pkt) pkts' Hp Er).
  rewrite moved_moved. reflexivity.
Qed.

Lemma begin_insert_turn c text ps ws now later :
  in_time clock (query_timeout c) -> plain_connection c -> structure ps (Ok tt) -> Forall wf_packet ps ->
  Forall2 (sends (compressed c) (negotiated_revision c)) ps ws -> Z.of_nat (length ps) <= 2 ^ 63 ->
  segments (incoming (stream c)) = now ++ later -> concat now = concat ws -> wf_segments (now ++ later) ->
  begin_insert clock text c = Done (Ok tt) (tick (asked c (mkWired (Socket later) (outgoing (stream c) ++ query_packet_of c text [] [] ++
    concat (map (answer (use_chunked_send c)) ps))))).
Proof.
  intros Ht Hp Hst Hwf Hs Hlen Es Hd Hsegs.
  change (begin_insert clock text c) with ((send_ignored_part_uuids [] ;; let* pkt := build_query text true [] [] in write_packet pkt ;;
    wait_for_insert_table_structure clock) c).
  rewrite query_sent_plain by apply Hp. set (c1 := asked c _).
  change (wait_for_insert_table_structure clock c1) with (with_response clock (fun T _ _ now deadline =>
    wait_for_insert_table_structure_from_reader (R := T) now deadline (negotiated_revision c1) (use_chunked_send c1) (compressed c1)) c1).
  rewrite (with_response_turn _ c1 (concat ws) (concat (map (answer (use_chunked_send c)) ps)) (Ok tt) now later);
    [|intros T HR HL HW HD|exact Hp|exact Es|exact Hd|exact Hsegs].
  - unfold c1, moved, asked. cbn [stream set_stream set_counter outgoing]. now rewrite <- app_assoc.
  - apply structure_performs; auto.
Qed.

Lemma end_insert_turn c ps ws n now later :
  in_time clock (query_timeout c) -> plain_connection c -> counted 0 ps (Ok n) -> Forall wf_packet ps -> Forall discardable_packet ps ->
  Forall2 (sends (compressed c) (negotiated_revision c)) ps ws -> Z.of_nat (length ps) <= 2 ^ 63 ->
  segments (incoming (stream c)) = now ++ later -> concat now = concat ws -> wf_segments (now ++ later) ->
  end_insert clock c = Done (Ok tt) (tick (moved c later (fst (write_empty_data_block_for (Sync.compression (config (client c)))) ++
    concat (map (answer (use_chunked_send c)) ps)))).
Proof.
  intros Ht Hp Hcount Hwf Hd Hs Hlen Es Hc Hsegs. unfold end_insert. cbn [bind call_monad get]. rewrite write_packet_plain by apply Hp.
  set (c1 := moved c _ _). unfold drain_response. cbn [bind call_monad get].
  rewrite (with_response_turn (fun T _ _ now deadline => read_response_row_count (R := T) now deadline
    (negotiated_revision c1) (use_chunked_send c1) (compressed c1)) c1 (concat ws) (concat (map (answer (use_chunked_send c)) ps)) (Ok n) now later);
    [|now apply row_count_takes|exact Hp|exact Es|exact Hc|exact Hsegs].
  unfold c1. rewrite moved_moved. reflexivity.
Qed.

(** C13: the insert protocol.  On a plain connection without schema validation an insert
    sends the query, waits for the structure of the table, sends one Data packet per block --
    gathered from the buffers of the columns, with the bytes a single buffer would have, or
    compressed -- and the empty block that ends the data, then reads the response to its end
    and leaves what comes after it on the socket.  Assumed is that the structure and the
    response arrive in separate segments (the reader of the structure drops what it read
    ahead) and that blocks in the response are of types that the discarding reader supports
    (no Nothing, Variant or Dynamic). *)
Theorem insert_protocol (c : Connection (Wired socket)) (text table : bytes) (blocks : list Block) (pkts : list bytes)
    (ps1 ps2 : list Packet) (ws1 ws2 : list bytes) (n : Z) (turn1 turn2 later : list bytes) :
  in_time clock (query_timeout c) -> plain_connection c -> validate_schema c = false ->
  data_packets (Sync.compression (config (client c))) blocks = Ok pkts ->
  structure ps1 (Ok tt) -> Forall wf_packet ps1 -> Forall2 (sends (compressed c) (negotiated_revision c)) ps1 ws1 ->
  counted 0 ps2 (Ok n) -> Forall wf_packet ps2 -> Forall discardable_packet ps2 ->
  Forall2 (sends (compressed c) (negotiated_revision c)) ps2 ws2 -> Z.of_nat (length (ps1 ++ ps2)) <= 2 ^ 63 ->
  segments (incoming (stream c)) = turn1 ++ turn2 ++ later -> concat turn1 = concat ws1 -> concat turn2 = concat ws2 ->
  wf_segments (turn1 ++ turn2 ++ later) ->
  exists c', insert clock text table blocks c = Done (Ok tt) c' /\
    stream c' = mkWired (Socket later) (outgoing (stream c) ++ query_packet_of c text [] [] ++
      concat (map (answer (use_chunked_send c)) ps1) ++ concat pkts ++
      fst (write_empty_data_block_for (Sync.compression (config (client c)))) ++ concat (map (answer (use_chunked_send c)) ps2)).
Proof.
  intros Ht Hp Hv Hpkts Hst Hwf1 Hs1 Hcount Hwf2 Hd2 Hs2 Hlen Es Ht1 Ht2 Hsegs. rewrite length_app in Hlen.
  pose proof (begin_insert_turn c text ps1 ws1 turn1 (turn2 ++ later) Ht Hp Hst Hwf1 Hs1 ltac:(lia) Es Ht1 Hsegs) as Ebegin.
  set (c2 := tick _) in Ebegin. pose proof (send_blocks_plain blocks c2 pkts (proj1 Hp) Hpkts) as Esend.
  set (c3 := moved c2 _ _) in Esend.
  pose proof (end_insert_turn c3 ps2 ws2 n turn2 later Ht Hp Hcount Hwf2 Hd2 Hs2 ltac:(lia) eq_refl Ht2 (wf_segments_later _ _ Hsegs)) as Eend.
  exists (tick (moved c3 later (fst (write_empty_data_block_for (Sync.compression (config (client c)))) ++
    concat (map (answer (use_chunked_send c)) ps2)))). split.
  - unfold insert. cbn [bind call_monad get]. rewrite Hv. cbn [andb].
    change (@ret (call (Wired socket)) _ unit tt c) with (@Done (Wired socket) unit (Ok tt) c). cbv iota. now rewrite Ebegin, Esend, Eend.
  - unfold c3, c2. cbn [stream tick moved set_stream asked set_counter outgoing]. unfold moved. cbn [stream tick set_stream asked set_counter outgoing].
    now rewrite <- !app_assoc.
Qed.
End Turns.

(** ** Conversations *)

#[local] Existing Instance sample_codecs.

Definition on_socket (chunked : bool) (segs : list bytes) : Connection (Wired socket) :=
  mkConnection (mkWired (Socket segs) []) sample_client chunked chunked 16 1000 1000000 false [] 7 0 0.

Definition no_table : ExceptionEntry := mkEntry 60 (str "DB::Exception") (str "no table") (str "0. main").

(** A query that fails, in three segments, then one that succeeds. *)
Definition sample_turns : list (Question * list bytes * result error (list Block)) :=
  [(mkQuestion (str "SELECT * FROM t") [] [],
    [write_varint 2; firstn 9 (write_chain no_table []); skipn 9 (write_chain no_table [])], Err (chain_error no_table []));
   (mkQuestion (str "SELECT 1") sample_params [], sample_sent, Ok [written_sample])].

Lemma conversation_in_step_witness :
  let c := on_socket false (concat (map (fun '(_, segs, _) => segs) sample_turns) ++ [[x04]]) in
  exists c', converse (fun _ _ => 0) (map (fun '(q, _, _) => q) sample_turns) c =
      Some ([Err (chain_error no_table []); Ok [written_sample]], c') /\ segments (incoming (stream c')) = [[x04]].
Proof.
  intros c. apply (@conversation_in_step sample_codecs sample_codec_laws (fun _ _ => 0) c sample_turns [[x04]]).
  - intros k i. discriminate.
  - split; reflexivity.
  - apply Forall_cons; [|apply Forall_cons; [|apply Forall_nil]].
    + exists [PMessage (SException no_table [])], [write_varint 2 ++ write_chain no_table []]. conj.
      * apply r_exception.
      * intros e E. injection E as <-. reflexivity.
      * apply Forall_cons; [|apply Forall_nil]. split; [|vm_compute; discriminate]. apply Forall_cons; [|apply Forall_nil]. repeat split; vm_compute; congruence.
      * apply Forall2_cons; [eexists; split; [|reflexivity]; constructor|apply Forall2_nil].
      * discriminate.
      * vm_compute. reflexivity.
    + exists sample_packets, sample_sent. conj; [exact sample_packets_response|discriminate|exact sample_packets_wf|exact sample_packets_sent|discriminate|reflexivity].
  - reflexivity.
  - split; [|vm_compute; discriminate]. repeat (apply Forall_cons; [discriminate|]). apply Forall_nil.
Defined.

Definition insert_turns : list bytes * list bytes := (breach_sent, drain_sent).

Lemma insert_protocol_witness :
  let c := on_socket false (fst insert_turns ++ snd insert_turns ++ []) in
  exists pkts c', data_packets (Some Lz4) [written_sample] = Ok pkts /\
    insert (fun _ _ => 0) (str "INSERT INTO t VALUES") (str "t") [written_sample] c = Done (Ok tt) c' /\
    stream c' = mkWired (Socket []) ([] ++ query_packet_of c (str "INSERT INTO t VALUES") [] [] ++
      concat (map (answer false) breach_packets) ++ concat pkts ++
      fst (write_empty_data_block_for (Some Lz4)) ++ concat (map (answer false) drain_packets)).
Proof.
  intros c. destruct (data_packets (Some Lz4) [written_sample]) as [pkts|e] eqn:E; [|discriminate E].
  destruct (@insert_protocol sample_codecs sample_codec_laws (fun _ _ => 0) c (str "INSERT INTO t VALUES") (str "t") [written_sample] pkts
    breach_packets drain_packets breach_sent drain_sent 0 (fst insert_turns) (snd insert_turns) []) as (c' & E1 & E2).
  - intros k i. discriminate.
  - split; reflexivity.
  - reflexivity.
  - exact E.
  - apply s_passed; [reflexivity|]. apply s_block.
  - repeat (apply Forall_cons; [|]); try apply Forall_nil; cbn [wf_packet wf_message]; auto.
  - unfold breach_packets, breach_sent. repeat (apply Forall2_cons; [eexists; split; [|reflexivity]; constructor|]); try apply Forall2_nil.
    exact sample_body.
  - apply c_passed; [reflexivity|]. apply c_end.
  - unfold drain_packets. repeat (apply Forall_cons; [|]); try apply Forall_nil; cbn [wf_packet wf_message]; auto.
    unfold wf_progress, u64, U64_MAX. cbn. lia.
  - repeat (apply Forall_cons; [exact I|]). apply Forall_nil.
  - unfold drain_packets, drain_sent. repeat (apply Forall2_cons; [eexists; split; [|reflexivity]; constructor|]); apply Forall2_nil.
  - discriminate.
  - reflexivity.
  - reflexivity.
  - reflexivity.
  - split; [|vm_compute; discriminate]. repeat (apply Forall_cons; [discriminate|]). apply Forall_nil.
  - exists pkts, c'. auto.
Defined.

(** On a chunked connection the end mark of a response may be cut by the segments.  The part
    the buffered reader had read is dropped with it, and the next response is taken apart
    at the wrong bytes: of two equal queries with equal responses the second one fails. *)
Definition end_of_stream_wire : bytes := marks_bytes (one_chunk_each drain_sent).

Lemma cut_end_mark_loses_step :
  let q := mkQuestion (str "SELECT 1") [] [] in
  let whole := on_socket true [end_of_stream_wire; end_of_stream_wire] in
  let cut := on_socket true [firstn 8 (end_of_stream_wire); skipn 8 (firstn (length end_of_stream_wire - 2) end_of_stream_wire);
                             [x00; x00]; end_of_stream_wire] in
  option_map fst (converse (fun _ _ => 0) [q; q] whole) = Some [Ok []; Ok []] /\ converse (fun _ _ => 0) [q; q] cut = None.
Proof. vm_compute. split; reflexivity. Qed.

(** The reader that waited for the structure of the table is dropped with what it read
    ahead: when the first bytes of the response to the data share a segment with the
    structure, an insert whose bytes are all in order fails. *)
Definition with_buffer (c : Connection (Wired socket)) (size : Z) : Connection (Wired socket) :=
  mkConnection (stream c) (client c) (use_chunked_send c) (use_chunked_recv c) (Z.to_nat size) (query_timeout c)
    (max_response_size c) (validate_schema c) (schema_cache c) (process_id c) (counter c) (loops c).

Definition succeeds {R A} (x : reply R A) : bool := match x with Done (Ok _) _ => true | _ => false end.

Lemma insert_drops_read_ahead :
  let run segs := succeeds (insert (fun _ _ => 0) (str "INSERT INTO t VALUES") [] [written_sample] (with_buffer (on_socket false segs) 4096)) in
  let structure := concat breach_sent in
  let reply := concat drain_sent in
  run [structure; reply] = true /\ run [structure ++ firstn 3 reply; skipn 3 reply] = false.
Proof. vm_compute. split; reflexivity. Qed.
