(* ===== verification/Pool.v ===== *)
(** * The connection pool

    [SimplePool] of src/src/pool.rs: slots behind asynchronous mutexes, opened on first
    use by [connect_round_robin], which walks the addresses in a rotating order and keeps
    a circuit breaker ([dead_addrs], [failure_counts]) over them.  The network, the
    resolver and the clock are an interface ([Network]); a time is a number of
    nanoseconds.

    Dialing shares its state with the other tasks of the pool.  A call is a [task]: a
    sequence of critical sections, each under one lock, and of awaits.  [exec] runs it
    while other tasks do anything ([others]) before each of its critical sections; [quiet]
    is the environment of a call that runs alone.  The life of the slots under every
    interleaving is in [PoolLifecycle]. *)

From Stdlib Require Import String ZArith Lia Bool List.
From S2P Require Import Prelude Wire.
From stdpp Require Import base decidable option list gmap.

Open Scope Z_scope.

(** ** Errors of the asynchronous client (src/src/error.rs) *)

Inductive Error :=
| EProtocol (m : message)
| EIo (m : message)
| ECompression (m : message)
| EAuthentication (m : message)
| EServerError (code : Z) (name text : bytes)
| ETimeout (m : message)
| EConnectionClosed (m : message)
| EConfig (m : message)
| EPoolTimeout (m : message)
| EResponseTooLarge (limit received : Z)
| EPanic.            (** the model's image of a panic *)

Definition is_broken_connection (e : Error) : bool :=
  match e with EConnectionClosed _ | EIo _ | ETimeout _ | EResponseTooLarge _ _ => true | _ => false end.

Definition is_retryable (e : Error) : bool :=
  match e with EIo _ | ETimeout _ | EConnectionClosed _ | EPoolTimeout _ => true | _ => false end.

Definition is_server_error (e : Error) : bool :=
  match e with EServerError _ _ _ => true | _ => false end.

(** ** Durations *)

Definition SECOND : Z := 1000000000.
Definition DURATION_MAX : Z := U64_MAX * SECOND + (SECOND - 1).

(** [Duration::saturating_mul] *)
Definition duration_mul (d factor : Z) : Z := Z.min (d * factor) DURATION_MAX.

(** [u32::saturating_add(1)] *)
Definition U32_MAX : Z := 2 ^ 32 - 1.
Definition count_failure (n : Z) : Z := Z.min (n + 1) U32_MAX.

Definition MAX_COOLDOWN : Z := 300 * SECOND.
Definition DNS_INTERVAL : Z := 300 * SECOND.

(** Exponential backoff: the base, doubled for each failure after the first at most ten
    times, capped at 300 seconds. *)
Definition backoff (dead_addr_cooldown cnt : Z) : Z :=
  let factor := if 1 <? cnt then Z.shiftl 1 (Z.min (cnt - 1) 10) else 1 in
  Z.min (duration_mul dead_addr_cooldown factor) MAX_COOLDOWN.

(** ** State *)

(** [Connection].  [server_info] is data the pool never looks at, part of the stream here. *)
Record Connection (stream : Type) := mkConnection {
  conn_stream : stream;
  created_at : Z;
  last_used_at : Z;
  conn_generation : Z;          (** [config_generation] *)
  response_in_flight : bool;
}.
Arguments mkConnection {stream}.
Arguments conn_stream {stream}.
Arguments created_at {stream}.
Arguments last_used_at {stream}.
Arguments conn_generation {stream}.
Arguments response_in_flight {stream}.

(** The fields of [SimplePool] that only the [&mut self] setters change. *)
Record PoolConfig := mkConfig {
  ttl : Z;
  connect_timeout : option Z;
  acquire_timeout : option Z;
  ping_idle_threshold : Z;
  user : bytes;
  password : bytes;
  database : bytes;
  quota_key : bytes;
  ssh_signer : option bytes;    (** the key the signer holds *)
  dead_addr_cooldown : Z;
  send_timeout : option Z;
}.

Record Metrics := mkMetrics { pool_slots : Z; pool_in_use : Z; connection_errors : Z }.

(** The fields that dialing an address reads and changes. *)
Record Dialer (addr : Type) `{Countable addr} := mkDialer {
  addrs : list addr;
  current_addr : Z;
  dead_addrs : gmap addr Z;
  failure_counts : gmap addr Z;
  dns_hostname : option bytes;
  dns_last_refresh : Z;
  metrics : option Metrics;
}.
Arguments mkDialer {addr _ _}.
Arguments addrs {addr _ _}.
Arguments current_addr {addr _ _}.
Arguments dead_addrs {addr _ _}.
Arguments failure_counts {addr _ _}.
Arguments dns_hostname {addr _ _}.
Arguments dns_last_refresh {addr _ _}.
Arguments metrics {addr _ _}.

(** Who holds the mutex of a slot: nobody, a task inside [get], or a [PoolGuard]. *)
Inductive Holder := Free | Getting | Guarded.
#[export] Instance holder_eq_dec : EqDecision Holder.
Proof. solve_decision. Defined.

Record Slot (stream : Type) := mkSlot { holder : Holder; conn : option (Connection stream) }.
Arguments mkSlot {stream}.
Arguments holder {stream}.
Arguments conn {stream}.

Record SimplePool (addr : Type) `{Countable addr} (stream : Type) := mkPool {
  config : PoolConfig;
  config_generation : Z;
  dialer : Dialer addr;
  slots : list (Slot stream);
  next_idx : Z;
}.
Arguments mkPool {addr _ _ stream}.
Arguments config {addr _ _ stream}.
Arguments config_generation {addr _ _ stream}.
Arguments dialer {addr _ _ stream}.
Arguments slots {addr _ _ stream}.
Arguments next_idx {addr _ _ stream}.

(** ** The world outside the pool

    Each operation takes the time it starts at and returns the time it ends at. *)
Class Network (addr stream : Type) := {
  show_addr : addr -> bytes;
  (** TCP, TLS, handshake, addendum and a first ping, as [connect_raw_inner] runs them *)
  connect_raw_inner : PoolConfig -> addr -> Z -> result Error stream * Z;
  lookup_host : bytes -> Z -> option (list addr) * Z;
  write_packet : stream -> bytes -> Z -> bool * stream * Z;
  flush : stream -> Z -> bool * stream * Z;
  (** one byte, within a budget: [None] when the time is up or the read fails *)
  read_byte_within : Z -> stream -> Z -> option Z * stream * Z;
}.

(** The clock does not run backwards. *)
Class NetworkLaws (addr stream : Type) `{Network addr stream} := {
  connect_takes_time cfg a now : now <= snd (connect_raw_inner cfg a now);
  lookup_takes_time h now : now <= snd (lookup_host h now);
}.

(** ** Tasks *)

Section Tasks.
Context {addr : Type} `{Countable addr}.

Inductive task (A : Type) : Type :=
| Done (a : A)
| Sync (X : Type) (f : Z -> Dialer addr -> X * Dialer addr) (k : X -> task A)
| Await (X : Type) (f : Z -> X * Z) (k : X -> task A).
Arguments Done {A}.
Arguments Sync {A}.
Arguments Await {A}.

Fixpoint task_bind {A B} (t : task A) (f : A -> task B) : task B :=
  match t with
  | Done a => f a
  | Sync X g k => Sync X g (fun x => task_bind (k x) f)
  | Await X g k => Await X g (fun x => task_bind (k x) f)
  end.

#[export] Instance task_monad : Prelude.Monad task := { ret A a := Done a; bind A B := task_bind }.
#[export] Instance task_mbind : MBind task := fun A B f t => task_bind t f.

(** A read and a write under a lock; the write may look at the clock. *)
Definition reads {X} (f : Dialer addr -> X) : task X := Sync X (fun _ d => (f d, d)) Done.
Definition writes (f : Z -> Dialer addr -> Dialer addr) : task unit := Sync unit (fun now d => (tt, f now d)) Done.
Definition awaits {X} (f : Z -> X * Z) : task X := Await X f Done.
Definition clock : task Z := Sync Z (fun now d => (now, d)) Done.

(** What the other tasks do before the [k]-th critical section of a call. *)
Definition others : Type := nat -> Z -> Dialer addr -> Dialer addr.
Definition later (env : others) : others := fun k => env (S k).
Definition quiet : others := fun _ _ d => d.

Fixpoint exec {A} (env : others) (t : task A) (d : Dialer addr) (now : Z) : A * Dialer addr * Z :=
  match t with
  | Done a => (a, d, now)
  | Sync X f k => let '(x, d) := f now (env 0%nat now d) in exec (later env) (k x) d now
  | Await X f k => let '(x, now) := f now in exec env (k x) d now
  end.
End Tasks.
Arguments task addr {_ _} A.
Arguments Done {addr _ _ A}.
Arguments Sync {addr _ _ A}.
Arguments Await {addr _ _ A}.
Arguments others addr {_ _}.
Arguments quiet {addr _ _} _ _ _ /.

Section Dialing.
Context {addr stream : Type} `{Countable addr} `{Network addr stream}.
Implicit Types (d : Dialer addr) (a : addr) (now : Z).

Definition set_addrs d (l : list addr) : Dialer addr :=
  mkDialer l (current_addr d) (dead_addrs d) (failure_counts d) (dns_hostname d) (dns_last_refresh d) (metrics d).

Definition set_dead d (dead : gmap addr Z) : Dialer addr :=
  mkDialer (addrs d) (current_addr d) dead (failure_counts d) (dns_hostname d) (dns_last_refresh d) (metrics d).

Definition set_failures d (fails : gmap addr Z) : Dialer addr :=
  mkDialer (addrs d) (current_addr d) (dead_addrs d) fails (dns_hostname d) (dns_last_refresh d) (metrics d).

Definition set_metrics d (m : option Metrics) : Dialer addr :=
  mkDialer (addrs d) (current_addr d) (dead_addrs d) (failure_counts d) (dns_hostname d)
    (dns_last_refresh d) m.

Definition set_dns d (hostname : option bytes) (last : Z) : Dialer addr :=
  mkDialer (addrs d) (current_addr d) (dead_addrs d) (failure_counts d) hostname last (metrics d).

(** [AtomicUsize::fetch_add(1)], which wraps. *)
Definition fetch_add (n : Z) : Z := (n + 1) mod (USIZE_MAX + 1).

Definition bump_current_addr d : Z * Dialer addr :=
  (current_addr d, mkDialer (addrs d) (fetch_add (current_addr d)) (dead_addrs d) (failure_counts d) (dns_hostname d)
    (dns_last_refresh d) (metrics d)).

Definition record_connection_error d : Dialer addr :=
  set_metrics d ((fun m => mkMetrics (pool_slots m) (pool_in_use m) (connection_errors m + 1)) <$> metrics d).

(** [set_hostname] *)
Definition set_hostname (hostname : option bytes) : task addr unit :=
  writes (fun _ d => set_dns d hostname (dns_last_refresh d)) ;;
  writes (fun now d => set_dns d (dns_hostname d) now).

(** [retain(|a, _| new.contains(a))] *)
Definition retain (new : list addr) (m : gmap addr Z) : gmap addr Z := filter (fun kv => kv.1 ∈ new) m.

(** [refresh_dns].  The lock of the address list is held while the two maps are pruned;
    what other tasks do to the maps in between is part of the environment. *)
Definition refresh_dns : task addr bool :=
  let* hostname := reads dns_hostname in
  match hostname with
  | None => ret false
  | Some hostname =>
      let* now := clock in
      let* last := reads dns_last_refresh in
      if Z.max 0 (now - last) <? DNS_INTERVAL then ret false
      else
        writes (fun _ d => set_dns d (dns_hostname d) now) ;;
        let* found := awaits (lookup_host hostname) in
        match found with
        | Some (a :: l) =>
            let new := a :: l in
            writes (fun _ d => set_addrs d new) ;;
            writes (fun _ d => set_dead d (retain new (dead_addrs d))) ;;
            writes (fun _ d => set_failures d (retain new (failure_counts d))) ;;
            ret true
        | _ => ret false
        end
  end.

(** [connect_raw]: the connect budget around the whole setup of a connection. *)
Definition connect_raw (cfg : PoolConfig) a now : result Error (Connection stream) * Z :=
  let opened '(r, t) :=
    (match r with Ok s => Ok (mkConnection s t t 0 false) | Err e => Err e end, t) in
  match connect_timeout cfg with
  | Some budget =>
      let '(r, t) := connect_raw_inner cfg a now in
      if budget <? t - now
      then (Err (ETimeout (Msg "connect to {addr} (TCP + TLS + handshake + ping) timed out after {budget:?}"
                               [AS (show_addr a); AZ budget])), now + budget)
      else opened (r, t)
  | None => opened (connect_raw_inner cfg a now)
  end.

(** A connection to [a] was opened: the breaker forgets the address. *)
Definition connected a : task addr unit :=
  writes (fun _ d => set_dead d (delete a (dead_addrs d))) ;;
  writes (fun _ d => set_failures d (delete a (failure_counts d))).

(** A connection to [a] failed: one failure more, and a longer cooldown. *)
Definition add_failure a d : Z * Dialer addr :=
  let cnt := count_failure (default 0 (failure_counts d !! a)) in
  (cnt, set_failures d (<[a := cnt]> (failure_counts d))).

Definition mark_dead (cfg : PoolConfig) a (cnt now : Z) d : Dialer addr :=
  set_dead d (<[a := now + backoff (dead_addr_cooldown cfg) cnt]> (dead_addrs d)).

Definition failed (cfg : PoolConfig) a : task addr unit :=
  let* cnt := Sync Z (fun _ d => add_failure a d) Done in
  writes (mark_dead cfg a cnt) ;;
  writes (fun _ d => record_connection_error d).

(** The [for] loop of [connect_round_robin] over the indices that are left. *)
Fixpoint try_addrs (cfg : PoolConfig) (generation : Z) (idxs : list nat) (last_err : option Error)
  : task addr (result Error (Connection stream)) :=
  match idxs with
  | [] => ret (Err (default (EProtocol (msg "all addresses failed")) last_err))
  | idx :: rest =>
      let* entry := reads (fun d => addrs d !! idx) in
      match entry with
      | None => ret (Err EPanic)
      | Some a =>
          let* dead := reads (fun d => bool_decide (is_Some (dead_addrs d !! a))) in
          if (dead : bool) then try_addrs cfg generation rest last_err
          else
            let* conn := awaits (connect_raw cfg a) in
            match conn with
            | Ok c =>
                connected a ;;
                ret (Ok (mkConnection (conn_stream c) (created_at c) (last_used_at c) generation (response_in_flight c)))
            | Err e => failed cfg a ;; try_addrs cfg generation rest (Some e)
            end
      end
  end.

(** The order in which [n] addresses are tried. *)
Definition rotation (start n : nat) : list nat := map (fun i => (start + i) mod n)%nat (seq 0 n).

(** Expired entries of [dead_addrs] go. *)
Definition prune now d : Dialer addr := set_dead d (filter (fun kv => now < kv.2) (dead_addrs d)).

(** [connect_round_robin] *)
Definition connect_round_robin (cfg : PoolConfig) (generation : Z) : task addr (result Error (Connection stream)) :=
  let* empty := reads (fun d => bool_decide (addrs d = [])) in
  if (empty : bool) then ret (Err (EConfig (msg "no addresses configured")))
  else if decide (connect_timeout cfg = Some 0) then
    ret (Err (EConfig (msg "connect_timeout must be greater than zero; Duration::ZERO would remove the connect deadline")))
  else
    refresh_dns ;;
    let* n := reads (fun d => length (addrs d)) in
    let* current := Sync Z (fun _ d => bump_current_addr d) Done in
    if decide (n = 0%nat) then ret (Err EPanic)
    else
      writes prune ;;
      try_addrs cfg generation (rotation (Z.to_nat (current mod Z.of_nat n)) n) None.
End Dialing.

(** ** The pool *)

Section Pool.
Context {addr stream : Type} `{Countable addr} `{Network addr stream}.
Implicit Types (p : SimplePool addr stream) (c : Connection stream) (now : Z).

Definition set_config p (cfg : PoolConfig) : SimplePool addr stream :=
  mkPool cfg (config_generation p) (dialer p) (slots p) (next_idx p).

Definition set_dialer p (d : Dialer addr) : SimplePool addr stream :=
  mkPool (config p) (config_generation p) d (slots p) (next_idx p).

Definition set_slot p (i : nat) (s : Slot stream) : SimplePool addr stream :=
  mkPool (config p) (config_generation p) (dialer p) (<[i := s]> (slots p)) (next_idx p).

(** [SimplePool::new] *)
Definition new_pool (addresses : list addr) (size : nat) (started : Z) : SimplePool addr stream :=
  mkPool (mkConfig 0 None None (15 * SECOND) (str "default") [] [] [] None (30 * SECOND) None) 0
    (mkDialer addresses 0 ∅ ∅ None started None)
    (replicate (Nat.max size 1) (mkSlot Free None)) 0.

Definition slot_count p : nat := length (slots p).

Definition bump_config_generation p : SimplePool addr stream :=
  mkPool (config p) ((config_generation p + 1) mod (U64_MAX + 1)) (dialer p) (slots p) (next_idx p).

Definition set_ttl p (t : Z) : SimplePool addr stream :=
  let c := config p in
  set_config p (mkConfig t (connect_timeout c) (acquire_timeout c) (ping_idle_threshold c) (user c)
    (password c) (database c) (quota_key c) (ssh_signer c) (dead_addr_cooldown c) (send_timeout c)).

Definition set_send_timeout p (t : option Z) : SimplePool addr stream :=
  let c := config p in
  bump_config_generation (set_config p (mkConfig (ttl c) (connect_timeout c) (acquire_timeout c)
    (ping_idle_threshold c) (user c) (password c) (database c) (quota_key c) (ssh_signer c)
    (dead_addr_cooldown c) t)).

Definition set_acquire_timeout p (t : option Z) : SimplePool addr stream :=
  let c := config p in
  set_config p (mkConfig (ttl c) (connect_timeout c) t (ping_idle_threshold c) (user c) (password c)
    (database c) (quota_key c) (ssh_signer c) (dead_addr_cooldown c) (send_timeout c)).

Definition set_ping_idle_threshold p (t : Z) : SimplePool addr stream :=
  let c := config p in
  set_config p (mkConfig (ttl c) (connect_timeout c) (acquire_timeout c) t (user c) (password c)
    (database c) (quota_key c) (ssh_signer c) (dead_addr_cooldown c) (send_timeout c)).

Definition set_connect_timeout p (t : Z) : SimplePool addr stream :=
  let c := config p in
  set_config p (mkConfig (ttl c) (Some t) (acquire_timeout c) (ping_idle_threshold c) (user c) (password c)
    (database c) (quota_key c) (ssh_signer c) (dead_addr_cooldown c) (send_timeout c)).

(** The three setters that change who the pool logs in as. *)
Definition set_login p (user password : bytes) (signer : option bytes) : SimplePool addr stream :=
  let c := config p in
  bump_config_generation (set_config p (mkConfig (ttl c) (connect_timeout c) (acquire_timeout c)
    (ping_idle_threshold c) user password (database c) (quota_key c) signer (dead_addr_cooldown c)
    (send_timeout c))).

Definition set_credentials p (user password : bytes) : SimplePool addr stream :=
  set_login p user password None.

Definition set_ssh_signer p (user signer : bytes) : SimplePool addr stream :=
  set_login p user [] (Some signer).

Definition set_database p (name : bytes) : SimplePool addr stream :=
  let c := config p in
  bump_config_generation (set_config p (mkConfig (ttl c) (connect_timeout c) (acquire_timeout c)
    (ping_idle_threshold c) (user c) (password c) name (quota_key c) (ssh_signer c)
    (dead_addr_cooldown c) (send_timeout c))).

Definition set_quota_key p (key : bytes) : SimplePool addr stream :=
  let c := config p in
  bump_config_generation (set_config p (mkConfig (ttl c) (connect_timeout c) (acquire_timeout c)
    (ping_idle_threshold c) (user c) (password c) (database c) key (ssh_signer c)
    (dead_addr_cooldown c) (send_timeout c))).

(** [with_metrics]: the metrics object starts with every other counter at [in_use] and [errors]. *)
Definition with_metrics p (in_use errors : Z) : SimplePool addr stream :=
  set_dialer p (set_metrics (dialer p) (Some (mkMetrics (Z.of_nat (slot_count p)) in_use errors))).

(** ** Acquiring a slot *)

Definition connection_expired c (ttl now : Z) : bool :=
  negb (ttl =? 0) && (ttl <=? now - created_at c).

Definition connection_config_stale p c : bool := negb (conn_generation c =? config_generation p).

Definition should_liveness_ping (idle threshold : Z) : bool := threshold <=? idle.

(** [is_connection_alive]: Ping out, one byte back within a second, and it is Pong. *)
Definition is_connection_alive c now : bool * Connection stream * Z :=
  let keep s := mkConnection s (created_at c) (last_used_at c) (conn_generation c) (response_in_flight c) in
  match write_packet (conn_stream c) [Init.Byte.x04] now with
  | (false, s, now) => (false, keep s, now)
  | (true, s, now) =>
      match flush s now with
      | (false, s, now) => (false, keep s, now)
      | (true, s, now) =>
          let '(b, s, now) := read_byte_within SECOND s now in
          (bool_decide (b = Some 4), keep s, now)
      end
  end.

(** The try-lock sweep of [get] from the assigned slot. *)
Definition is_free p (i : nat) : bool :=
  match slots p !! i with Some s => bool_decide (holder s = Free) | None => false end.

Definition assigned p : nat := Z.to_nat (next_idx p mod Z.of_nat (slot_count p)).

Definition sweep p : option nat :=
  head (List.filter (is_free p) (rotation (assigned p) (slot_count p))).

Definition lock p (i : nat) : SimplePool addr stream :=
  match slots p !! i with
  | Some s => set_slot p i (mkSlot Getting (conn s))
  | None => p
  end.

Inductive Entered :=
| Locked (i : nat)                           (** a free slot, now held by this task *)
| Waiting (i : nat) (until : option Z).      (** suspended on the mutex of slot [i] *)

(** [get] up to the first point where it can wait. *)
Definition get_enter p now : Entered * SimplePool addr stream :=
  let idx := assigned p in
  let swept := sweep p in
  let p := mkPool (config p) (config_generation p) (dialer p) (slots p) (fetch_add (next_idx p)) in
  match swept with
  | Some i => (Locked i, lock p i)
  | None => (Waiting idx ((fun t => now + t) <$> acquire_timeout (config p)), p)
  end.

(** The wait for the mutex ran out of time. *)
Definition get_timed_out p : result Error nat * SimplePool addr stream :=
  (Err (EPoolTimeout (Msg "no connection slot available within {t:?}"
                          [AZ (default 0 (acquire_timeout (config p)))])),
   set_dialer p (record_connection_error (dialer p))).

(** Leave [get] with an error: the mutex is released with [c] in the slot. *)
Definition get_fails p (i : nat) (c : option (Connection stream)) (e : Error)
  : result Error nat * SimplePool addr stream :=
  (Err e, set_slot p i (mkSlot Free c)).

Definition in_use p (delta : Z) : SimplePool addr stream :=
  set_dialer p (set_metrics (dialer p)
    ((fun m => mkMetrics (pool_slots m) ((pool_in_use m + delta) mod (U64_MAX + 1)) (connection_errors m))
       <$> metrics (dialer p))).

Definition get_succeeds p (i : nat) (c : Connection stream) : result Error nat * SimplePool addr stream :=
  (Ok i, in_use (set_slot p i (mkSlot Guarded (Some c))) 1).

(** Whether the connection in the slot has to be replaced, and the connection after the
    check, which may have pinged the server. *)
Definition should_reconnect p c now : bool * Connection stream * Z :=
  if connection_expired c (ttl (config p)) now || connection_config_stale p c then (true, c, now)
  else if should_liveness_ping (now - last_used_at c) (ping_idle_threshold (config p))
  then let '(alive, c, now) := is_connection_alive c now in (negb alive, c, now)
  else (false, c, now).

Definition dial (env : others addr) p now : result Error (Connection stream) * SimplePool addr stream * Z :=
  let '(r, d, now) := exec env (connect_round_robin (config p) (config_generation p)) (dialer p) now in
  (r, set_dialer p d, now).

(** [get] once it holds the mutex of slot [i] with [c] in it. *)
Definition get_checked (env : others addr) p (i : nat) c now : result Error nat * SimplePool addr stream * Z :=
  let '(reconnect, c, now) := should_reconnect p c now in
  if reconnect then
    match dial env p now with
    | (Ok c, p, now) => (get_succeeds p i c, now)
    | (Err e, p, now) => (get_fails p i None e, now)
    end
  else (get_succeeds p i c, now).

(** [env] is what other tasks do during the connect of an empty slot, [env'] during a
    reconnect. *)
Definition get_locked (env env' : others addr) p (i : nat) now : result Error nat * SimplePool addr stream * Z :=
  match slots p !! i with
  | Some (mkSlot _ (Some c)) => get_checked env' p i c now
  | _ =>
      match dial env p now with
      | (Ok c, p, now) => get_checked env' p i c now
      | (Err e, p, now) => (get_fails p i None e, now)
      end
  end.

(** ** [PoolGuard] on slot [i] *)

Definition guarded p (i : nat) : option (Connection stream) :=
  match slots p !! i with Some s => conn s | None => None end.

Definition update_guarded p (i : nat) (c : option (Connection stream)) : SimplePool addr stream :=
  set_slot p i (mkSlot Guarded c).

Definition take_stream p (i : nat) : option stream * SimplePool addr stream :=
  (conn_stream <$> guarded p i, update_guarded p i None).

Definition set_in_flight p (i : nat) (b : bool) : SimplePool addr stream :=
  match guarded p i with
  | Some c => update_guarded p i
      (Some (mkConnection (conn_stream c) (created_at c) (last_used_at c) (conn_generation c) b))
  | None => p
  end.

Definition mark_response_in_flight p (i : nat) : SimplePool addr stream := set_in_flight p i true.
Definition clear_response_in_flight p (i : nat) : SimplePool addr stream := set_in_flight p i false.

Definition guard_in_flight p (i : nat) : bool :=
  match guarded p i with Some c => response_in_flight c | None => false end.

Definition invalidate_on_err {A} p (i : nat) (r : result Error A) : SimplePool addr stream :=
  match r with
  | Err e => if is_broken_connection e then snd (take_stream p i) else p
  | Ok _ => p
  end.

Definition finish_response {A} p (i : nat) (r : result Error A) : SimplePool addr stream :=
  invalidate_on_err (clear_response_in_flight p i) i r.

(** [PoolGuard::drop]: the mutex is released, the connection kept only when no response
    is pending on it. *)
Definition drop_guard p (i : nat) now : SimplePool addr stream :=
  let p := in_use p (-1) in
  if guard_in_flight p i then set_slot p i (mkSlot Free None)
  else set_slot p i (mkSlot Free ((fun c =>
         mkConnection (conn_stream c) (created_at c) now (conn_generation c) (response_in_flight c))
           <$> guarded p i)).

(** What the client does with the stream of its guard. *)
Definition set_stream p (i : nat) (s : stream) : SimplePool addr stream :=
  match guarded p i with
  | Some c => update_guarded p i
      (Some (mkConnection s (created_at c) (last_used_at c) (conn_generation c) (response_in_flight c)))
  | None => p
  end.
End Pool.

(** ** The circuit breaker *)

Lemma backoff_bounds base cnt : 0 <= base -> 0 <= backoff base cnt <= MAX_COOLDOWN.
Proof.
  intros Hb. unfold backoff, duration_mul, MAX_COOLDOWN, DURATION_MAX, SECOND, U64_MAX.
  assert (0 <= (if 1 <? cnt then Z.shiftl 1 (Z.min (cnt - 1) 10) else 1)) as Hf.
  { destruct (1 <? cnt); [apply Z.shiftl_nonneg|]; lia. }
  pose proof (Z.mul_nonneg_nonneg _ _ Hb Hf). lia.
Qed.

Lemma shiftl_1 n : 0 <= n -> Z.shiftl 1 n = 2 ^ n.
Proof. intros Hn. rewrite Z.shiftl_mul_pow2 by lia. lia. Qed.

(** More failures never make the cooldown shorter. *)
Lemma backoff_mono base n m : 0 <= base -> n <= m -> backoff base n <= backoff base m.
Proof.
  intros Hb Hnm. unfold backoff, duration_mul.
  enough ((if 1 <? n then Z.shiftl 1 (Z.min (n - 1) 10) else 1) <=
          (if 1 <? m then Z.shiftl 1 (Z.min (m - 1) 10) else 1)) as Hf.
  { pose proof (Z.mul_le_mono_nonneg_l _ _ base Hb Hf). lia. }
  destruct (Z.ltb_spec 1 n), (Z.ltb_spec 1 m); try lia; rewrite ?shiftl_1 by lia.
  - apply Z.pow_le_mono_r; lia.
  - pose proof (Z.pow_pos_nonneg 2 (Z.min (m - 1) 10) ltac:(lia) ltac:(lia)). lia.
Qed.

Lemma rotation_lt start n k : k ∈ rotation start n -> (k < n)%nat.
Proof.
  unfold rotation. intros Hk. apply list_elem_of_In, in_map_iff in Hk as (i & <- & Hi).
  apply in_seq in Hi. apply Nat.mod_upper_bound. lia.
Qed.

(** Every address has its turn, whatever the start. *)
Lemma rotation_complete start n k : (start < n)%nat -> (k < n)%nat -> k ∈ rotation start n.
Proof.
  intros Hs Hk. apply list_elem_of_In, in_map_iff.
  destruct (Nat.le_gt_cases start k).
  - exists (k - start)%nat. rewrite in_seq. split; [|lia].
    replace (start + (k - start))%nat with k by lia. now apply Nat.mod_small.
  - exists (n + k - start)%nat. rewrite in_seq. split; [|lia].
    replace (start + (n + k - start))%nat with (k + 1 * n)%nat by lia.
    rewrite Nat.Div0.mod_add. now apply Nat.mod_small.
Qed.

(** ** Reasoning about tasks *)

Section TaskLaws.
Context {addr : Type} `{Countable addr}.
Implicit Types (d : Dialer addr) (env : others addr) (now : Z).

(** Every critical section of a task that starts in a state with [I] is a step of [G],
    and its awaits do not turn the clock back. *)
Fixpoint sections {A} (I : Z -> Dialer addr -> Prop) (G : Z -> Dialer addr -> Dialer addr -> Prop)
    (t : task addr A) : Prop :=
  match t with
  | Done _ => True
  | Sync X f k => forall now d, I now d -> G now d (f now d).2 /\ sections I G (k (f now d).1)
  | Await X f k => forall now, now <= (f now).2 /\ sections I G (k (f now).1)
  end.

Lemma sections_bind {A B} I G (t : task addr A) (f : A -> task addr B) :
  sections I G t -> (forall a, sections I G (f a)) -> sections I G (task_bind t f).
Proof.
  intros Ht Hf. induction t as [a|X g k IH|X g k IH]; cbn in *; [auto|..].
  - intros now d Hd. destruct (Ht now d Hd). auto.
  - intros now. destruct (Ht now). auto.
Qed.

(** An invariant that survives the passing of time, the other tasks and the sections of
    a call survives the call. *)
Lemma task_keeps {A} (I : Z -> Dialer addr -> Prop) (G : Z -> Dialer addr -> Dialer addr -> Prop) (t : task addr A) :
  (forall now now' d, I now d -> now <= now' -> I now' d) -> (forall now d d', I now d -> G now d d' -> I now d') ->
  sections I G t -> forall env d now,
  (forall k now d, I now d -> I now (env k now d)) -> I now d ->
  let '(_, d', now') := exec env t d now in I now' d' /\ now <= now'.
Proof.
  intros Hlater HG. induction t as [a|X f k IH|X f k IH]; intros Hs env d now Henv HI; cbn in *.
  - split; [done|lia].
  - pose proof (Henv 0%nat now d HI) as HI'. destruct (Hs now _ HI') as [Hg Hk].
    destruct (f now (env 0%nat now d)) as [x d1]. apply (IH x Hk (later env)); [intros; now apply Henv|eauto].
  - destruct (Hs now) as [Ht Hk]. destruct (f now) as [x t]. cbn in *.
    specialize (IH x Hk env d t Henv (Hlater _ _ _ HI Ht)). destruct (exec env (k x) d t) as [[? ?] ?].
    destruct IH. split; [done|lia].
Qed.

(** What holds of the result and the time of a task, whatever the state is. *)
Fixpoint always {A} (t : task addr A) (Q : A -> Z -> Prop) now : Prop :=
  match t with
  | Done a => Q a now
  | Sync X f k => forall d, always (k (f now d).1) Q now
  | Await X f k => always (k (f now).1) Q (f now).2
  end.

Lemma always_bind {A B} (t : task addr A) (f : A -> task addr B) Q : forall now,
  always t (fun a now => always (f a) Q now) now -> always (task_bind t f) Q now.
Proof. induction t; cbn; auto. Qed.

Lemma always_any {A} (t : task addr A) (Q : A -> Z -> Prop) : (forall a now, Q a now) -> forall now, always t Q now.
Proof. intros HQ. induction t; cbn; auto. Qed.

Lemma exec_always {A} (t : task addr A) (Q : A -> Z -> Prop) : forall env d now,
  always t Q now -> let '(a, _, now') := exec env t d now in Q a now'.
Proof.
  induction t as [a|X f k IH|X f k IH]; intros env d now Ha; cbn in *; [done|..].
  - specialize (Ha (env 0%nat now d)). destruct (f now (env 0%nat now d)) as [x d']. now apply IH.
  - destruct (f now) as [x t]. now apply IH.
Qed.

(** What holds at the end when the other tasks move the state along [R]. *)
Fixpoint yields {A} (R : Dialer addr -> Dialer addr -> Prop) (Q : A -> Z -> Dialer addr -> Prop) (t : task addr A)
    now d : Prop :=
  match t with
  | Done a => Q a now d
  | Sync X f k => forall d', R d d' -> yields R Q (k (f now d').1) now (f now d').2
  | Await X f k => yields R Q (k (f now).1) (f now).2 d
  end.

Lemma yields_bind {A B} R Q (t : task addr A) (f : A -> task addr B) : forall now d,
  yields R (fun a now d => yields R Q (f a) now d) t now d -> yields R Q (t ≫= f) now d.
Proof. unfold mbind, task_mbind. induction t; cbn; auto. Qed.

Lemma yields_weaken {A} R (P Q : A -> Z -> Dialer addr -> Prop) (t : task addr A) : forall now d,
  (forall a now d, P a now d -> Q a now d) -> yields R P t now d -> yields R Q t now d.
Proof. induction t; cbn; auto. Qed.

Lemma exec_yields {A} R Q (t : task addr A) : forall env now d,
  (forall k now d, R d (env k now d)) -> yields R Q t now d ->
  let '(a, d', now') := exec env t d now in Q a now' d'.
Proof.
  induction t as [a|X f k IH|X f k IH]; intros env now d Henv Hy; cbn in *; [done|..].
  - specialize (Hy _ (Henv 0%nat now d)). destruct (f now (env 0%nat now d)) as [x d']. apply (IH x (later env)); [|done].
    intros. apply Henv.
  - destruct (f now) as [x t]. now apply IH.
Qed.
End TaskLaws.

Section DialingLaws.
Context {addr stream : Type} `{Countable addr} `{NetworkLaws addr stream}.
Implicit Types (d : Dialer addr) (a : addr) (now : Z) (cfg : PoolConfig) (env : others addr).

Lemma connect_raw_time cfg a now :
  (forall b, connect_timeout cfg = Some b -> 0 <= b) -> now <= snd (connect_raw cfg a now).
Proof.
  intros Hb. unfold connect_raw. pose proof (connect_takes_time cfg a now) as Ht.
  destruct (connect_timeout cfg) as [b|] eqn:E.
  - specialize (Hb b eq_refl). destruct (connect_raw_inner cfg a now) as [r t]. cbn in Ht.
    destruct (b <? t - now); cbn; lia.
  - destruct (connect_raw_inner cfg a now) as [r t]. exact Ht.
Qed.

Lemma connect_raw_budget cfg a now b :
  connect_timeout cfg = Some b -> snd (connect_raw cfg a now) <= now + b.
Proof.
  intros E. unfold connect_raw. rewrite E. destruct (connect_raw_inner cfg a now) as [r t].
  destruct (Z.ltb_spec b (t - now)); cbn; lia.
Qed.

Lemma connect_raw_fresh cfg a now c t :
  connect_raw cfg a now = (Ok c, t) ->
  exists s, connect_raw_inner cfg a now = (Ok s, t) /\ c = mkConnection s t t 0 false.
Proof.
  unfold connect_raw. destruct (connect_raw_inner cfg a now) as [[s|e] t'];
    (destruct (connect_timeout cfg) as [b|]; [destruct (b <? t' - now)|]); intros E; simplify_eq; eauto.
Qed.

(** *** What holds at every moment *)

(** Failure counts are between 1 and the [u32] maximum, and no address is out for more
    than 300 seconds. *)
Definition bounded now d : Prop :=
  (forall a e, dead_addrs d !! a = Some e -> e <= now + MAX_COOLDOWN) /\
  (forall a n, failure_counts d !! a = Some n -> 1 <= n <= U32_MAX).

Lemma bounded_later now now' d : bounded now d -> now <= now' -> bounded now' d.
Proof. intros [A B] Hle. split; [|done]. intros a e Hd. specialize (A a e Hd). lia. Qed.

(** A section keeps the bounds and does not empty the address list. *)
Definition keeps_bounds now d d' : Prop := bounded now d' /\ (addrs d <> [] -> addrs d' <> []).

Lemma bounded_dead now d m : bounded now d -> m ⊆ dead_addrs d -> keeps_bounds now d (set_dead d m).
Proof. intros [A B] Hm. split; [|done]. split; [|done]. intros a e He. apply (A a). cbn in He. eapply lookup_weaken; eauto. Qed.

Lemma bounded_failures now d m : bounded now d -> m ⊆ failure_counts d -> keeps_bounds now d (set_failures d m).
Proof. intros [A B] Hm. split; [|done]. split; [done|]. intros a e He. apply (B a). cbn in He. eapply lookup_weaken; eauto. Qed.

Lemma bounded_mark cfg a cnt now d :
  0 <= dead_addr_cooldown cfg -> bounded now d -> keeps_bounds now d (mark_dead cfg a cnt now d).
Proof.
  intros Hc [A B]. split; [|done]. split; [|done]. intros b e Hd. cbn in Hd.
  apply lookup_insert_Some in Hd as [[<- <-]|[Hne Hd]]; [|eauto].
  pose proof (backoff_bounds (dead_addr_cooldown cfg) cnt Hc). lia.
Qed.

Lemma bounded_count a now d : bounded now d -> keeps_bounds now d (add_failure a d).2.
Proof.
  intros [A B]. split; [|done]. split; [done|]. intros b n Hd. cbn in Hd.
  apply lookup_insert_Some in Hd as [[<- <-]|[Hne Hd]]; [|eauto].
  unfold count_failure, U32_MAX. destruct (failure_counts d !! a) as [m|] eqn:E; cbn; [|lia].
  specialize (B a m E). unfold U32_MAX in *. lia.
Qed.

Lemma keeps_same now d d' :
  bounded now d -> dead_addrs d' = dead_addrs d -> failure_counts d' = failure_counts d -> (addrs d <> [] -> addrs d' <> []) ->
  keeps_bounds now d d'.
Proof. intros [A B] Hd Hf Ha. split; [|done]. split; [now rewrite Hd|now rewrite Hf]. Qed.

Lemma refresh_dns_bounded : sections bounded keeps_bounds (refresh_dns (addr := addr) (stream := stream)).
Proof.
  cbn. intros now d Hd. split; [now apply keeps_same|]. destruct (dns_hostname d) as [h|]; [|done]. cbn.
  intros now1 d1 Hd1. split; [now apply keeps_same|]. intros now2 d2 Hd2. split; [now apply keeps_same|].
  destruct (_ <? _); [done|]. cbn. intros now3 d3 Hd3. split; [now apply keeps_same|].
  intros now4. split; [apply lookup_takes_time|]. destruct (lookup_host h now4) as [[[|a l]|] t]; cbn; [done| |done].
  intros now5 d5 Hd5. split; [now apply keeps_same|]. intros now6 d6 Hd6. split; [apply bounded_dead, map_filter_subseteq; done|].
  intros now7 d7 Hd7. split; [apply bounded_failures, map_filter_subseteq; done|done].
Qed.

Lemma try_addrs_bounded cfg g idxs : forall le,
  0 <= dead_addr_cooldown cfg -> (forall b, connect_timeout cfg = Some b -> 0 <= b) ->
  sections bounded keeps_bounds (try_addrs (addr := addr) (stream := stream) cfg g idxs le).
Proof.
  induction idxs as [|k idxs IH]; intros le Hc Hb; cbn; [done|].
  intros now d Hd. split; [now apply keeps_same|]. destruct (addrs d !! k) as [a|]; [|done]. cbn.
  intros now1 d1 Hd1. split; [now apply keeps_same|]. destruct (bool_decide _); [auto|]. cbn.
  intros now2. split; [now apply connect_raw_time|]. destruct (connect_raw cfg a now2).1 as [c|e]; cbn.
  - intros now3 d3 Hd3. split; [apply bounded_dead, delete_subseteq; done|].
    intros now4 d4 Hd4. split; [apply bounded_failures, delete_subseteq; done|done].
  - intros now3 d3 Hd3. split; [now apply bounded_count|]. intros now4 d4 Hd4. split; [now apply bounded_mark|].
    intros now5 d5 Hd5. split; [now apply keeps_same|auto].
Qed.

Lemma connect_bounded cfg g :
  0 <= dead_addr_cooldown cfg -> (forall b, connect_timeout cfg = Some b -> 0 <= b) ->
  sections bounded keeps_bounds (connect_round_robin (addr := addr) (stream := stream) cfg g).
Proof.
  intros Hc Hb. cbn. intros now d Hd. split; [now apply keeps_same|]. destruct (bool_decide _); [done|].
  destruct (decide _); [done|]. apply (sections_bind _ _ refresh_dns); [apply refresh_dns_bounded|]. intros _. cbn.
  intros now1 d1 Hd1. split; [now apply keeps_same|]. intros now2 d2 Hd2. split; [now apply keeps_same|].
  destruct (decide _); [done|]. cbn. intros now3 d3 Hd3. split; [apply bounded_dead, map_filter_subseteq; done|].
  now apply try_addrs_bounded.
Qed.

(** The loop takes at most the connect timeout per address, whatever other tasks do. *)
Lemma try_addrs_time cfg g b idxs : forall le env d now,
  connect_timeout cfg = Some b -> 0 <= b ->
  (exec env (try_addrs cfg g idxs le) d now).2 <= now + b * Z.of_nat (length idxs).
Proof.
  induction idxs as [|k idxs IH]; intros le env d now E Hb; [cbn; lia|]. cbn [length].
  rewrite Nat2Z.inj_succ, Z.mul_succ_r. pose proof (Z.mul_nonneg_nonneg b (Z.of_nat (length idxs)) Hb ltac:(lia)) as Hn.
  cbn. destruct (addrs _ !! k) as [a|]; cbn; [|lia]. destruct (bool_decide _).
  - match goal with |- context [exec ?env' _ ?d' now] => specialize (IH le env' d' now E Hb) end. lia.
  - cbn. pose proof (connect_raw_budget cfg a now b E) as Ht. destruct (connect_raw cfg a now) as [[c|e] t]; cbn in *; [lia|].
    match goal with |- context [exec ?env' _ ?d' t] => specialize (IH (Some e) env' d' t E Hb) end. lia.
Qed.

(** *** Alone *)

(** What the breaker knows is about addresses of the pool, and each dead address has
    failed. *)
Record breaker_ok now d : Prop := {
  breaker_bounded : bounded now d;
  dead_listed a : is_Some (dead_addrs d !! a) -> a ∈ addrs d /\ is_Some (failure_counts d !! a);
  failures_listed a : is_Some (failure_counts d !! a) -> a ∈ addrs d;
}.

Lemma breaker_later now now' d : breaker_ok now d -> now <= now' -> breaker_ok now' d.
Proof. intros [A B C] Hle. split; [eauto using bounded_later|done..]. Qed.

Lemma breaker_dead now d m : breaker_ok now d -> m ⊆ dead_addrs d -> breaker_ok now (set_dead d m).
Proof.
  intros [A B C] Hm. split; [now apply bounded_dead|cbn|done]. intros a [e He]. apply B. exists e. eapply lookup_weaken; eauto.
Qed.

Lemma breaker_forget now d a :
  breaker_ok now d ->
  breaker_ok now (set_failures (set_dead d (delete a (dead_addrs d))) (delete a (failure_counts d))).
Proof.
  intros [A B C]. split; cbn.
  - apply (bounded_failures now (set_dead d (delete a (dead_addrs d)))); [|apply delete_subseteq].
    now apply bounded_dead, delete_subseteq.
  - intros b [e He]. apply lookup_delete_Some in He as [Hne He]. rewrite lookup_delete_ne by done. eauto.
  - intros b [n Hn]. apply lookup_delete_Some in Hn as [Hne Hn]. eauto.
Qed.

Lemma breaker_failed cfg now d a :
  0 <= dead_addr_cooldown cfg -> a ∈ addrs d -> breaker_ok now d ->
  breaker_ok now (record_connection_error (mark_dead cfg a (add_failure a d).1 now (add_failure a d).2)).
Proof.
  intros Hc Ha [A B C]. split; cbn.
  - assert (bounded now (mark_dead cfg a (add_failure a d).1 now (add_failure a d).2)) as [D E]; [|done].
    apply bounded_mark; [done|]. now apply bounded_count.
  - intros b. destruct (decide (b = a)) as [->|Hne].
    + split; [done|]. rewrite lookup_insert_eq. eauto.
    + rewrite !lookup_insert_ne by done. eauto.
  - intros b [n Hn]. apply lookup_insert_Some in Hn as [[<- _]|[Hne Hn]]; eauto.
Qed.

Lemma try_addrs_alone cfg g idxs : forall le d now,
  0 <= dead_addr_cooldown cfg -> (forall b, connect_timeout cfg = Some b -> 0 <= b) -> breaker_ok now d ->
  let '(_, d', now') := exec quiet (try_addrs cfg g idxs le) d now in breaker_ok now' d'.
Proof.
  induction idxs as [|k idxs IH]; intros le d now Hc Hb Hok; [done|]. cbn.
  destruct (addrs d !! k) as [a|] eqn:Ha; [|done]. cbn. destruct (bool_decide _); [now apply IH|]. cbn.
  pose proof (connect_raw_time cfg a now Hb) as Ht. apply (breaker_later _ (connect_raw cfg a now).2) in Hok; [|done].
  destruct (connect_raw cfg a now) as [[c|e] t]; cbn in *; [now apply breaker_forget|].
  apply IH; [done..|]. apply breaker_failed; [done| |done]. eapply list_elem_of_lookup_2; eauto.
Qed.

Lemma breaker_dns now d h last : breaker_ok now d -> breaker_ok now (set_dns d h last).
Proof. intros [[A A'] B C]. split; [split|..]; done. Qed.

Lemma refresh_alone d now :
  breaker_ok now d ->
  let '(_, d', now') := exec quiet (refresh_dns (addr := addr) (stream := stream)) d now in breaker_ok now' d'.
Proof.
  intros Hok. cbn. destruct (dns_hostname d) as [h|]; [|done]. cbn. destruct (_ <? _); [done|]. cbn.
  pose proof (lookup_takes_time h now) as Ht. apply (breaker_later _ (lookup_host h now).2) in Hok; [|done].
  destruct (lookup_host h now) as [[[|a l]|] t]; cbn in *; [now apply breaker_dns| |now apply breaker_dns].
  destruct Hok as [[A A'] B C]. assert (forall m b (x : Z), retain (a :: l) m !! b = Some x -> m !! b = Some x /\ b ∈ a :: l) as Hr
    by (intros m b x Hx; now apply map_lookup_filter_Some in Hx).
  split; cbn.
  - split; cbn; intros b x Hx; apply Hr in Hx as [Hx _]; eauto.
  - intros b [e He]. apply Hr in He as [He Hin]. split; [done|]. destruct (B b) as [_ [n Hn]]; [eauto|].
    exists n. now apply map_lookup_filter_Some.
  - intros b [n Hn]. now apply Hr in Hn as [_ Hin].
Qed.

Lemma exec_bind_quiet {A B} (t : task addr A) (f : A -> task addr B) : forall d now,
  exec quiet (t ≫= f) d now = let '(a, d, now) := exec quiet t d now in exec quiet (f a) d now.
Proof.
  unfold mbind, task_mbind. induction t as [a|X g k IH|X g k IH]; intros d now; cbn; [done|..].
  - destruct (g now d) as [x d']. apply IH.
  - destruct (g now) as [x t]. apply IH.
Qed.

Lemma connect_alone cfg g d now :
  0 <= dead_addr_cooldown cfg -> (forall b, connect_timeout cfg = Some b -> 0 <= b) -> breaker_ok now d ->
  let '(_, d', now') := exec quiet (connect_round_robin cfg g) d now in breaker_ok now' d'.
Proof.
  intros Hc Hb Hok. unfold connect_round_robin. cbn [bind task_monad task_bind reads exec quiet].
  destruct (bool_decide _); [done|]. destruct (decide _); [done|]. rewrite exec_bind_quiet. pose proof (refresh_alone d now Hok) as Hr.
  destruct (exec quiet refresh_dns d now) as [[b d1] now1]. cbn. destruct (decide _); [now destruct Hr; split|]. cbn.
  apply try_addrs_alone; [done..|]. apply (breaker_dead now1 (bump_current_addr d1).2); [now destruct Hr; split|].
  apply map_filter_subseteq.
Qed.

(** *** Finding a working server *)

(** Other tasks leave the address list alone and do not mark [a] dead. *)
Definition spares a d d' : Prop :=
  addrs d' = addrs d /\ (forall e, dead_addrs d' !! a = Some e -> dead_addrs d !! a = Some e).

(** [a] is in the list and its cooldown, if it has one, is over by [t0]. *)
Definition available a (t0 now : Z) d : Prop :=
  t0 <= now /\ a ∈ addrs d /\ (forall e, dead_addrs d !! a = Some e -> e <= t0).

Lemma available_spared a t0 now d d' : available a t0 now d -> spares a d d' -> available a t0 now d'.
Proof. intros (Ht & Ha & Hd) [El Hs]. split; [done|]. rewrite El. auto. Qed.

Section Live.
Context (cfg : PoolConfig) (g : Z) (a : addr).
Context (Hto : connect_timeout cfg <> Some 0).
Context (Hup : forall t, exists c t', connect_raw cfg a t = (Ok c, t')).
Context (Hdns : forall h t l t', lookup_host h t = (Some l, t') -> l = [] \/ a ∈ l).

Lemma refresh_available t0 now d :
  available a t0 now d -> yields (spares a) (fun _ now' d' => available a t0 now' d') refresh_dns now d.
Proof.
  intros Ha. cbn. intros d1 S1. pose proof (available_spared _ _ _ _ _ Ha S1) as A1.
  destruct (dns_hostname d1) as [h|]; [|done]. cbn. intros d2 S2 d3 S3.
  pose proof (available_spared _ _ _ _ _ (available_spared _ _ _ _ _ A1 S2) S3) as A3. destruct (_ <? _); [done|].
  cbn. intros d4 S4. pose proof (available_spared _ _ _ _ _ A3 S4) as (Ht & Hin & Hd).
  pose proof (lookup_takes_time h now) as Hl. pose proof (Hdns h now) as Hn.
  destruct (lookup_host h now) as [[[|b l]|] t]; cbn in *; [split; [lia|auto]| |split; [lia|auto]].
  destruct (Hn _ _ eq_refl) as [|Hnew]; [done|].
  intros d5 [_ S5] d6 [L6 S6] d7 [L7 S7]. split; [lia|]. cbn in *. rewrite L7, L6. split; [done|].
  intros e He. apply S7 in He. apply map_lookup_filter_Some in He as [He _]. auto.
Qed.

Definition opened (r : result Error (Connection stream)) now d : Prop := exists c, r = Ok c.

Lemma try_addrs_live idxs : forall le now d,
  Forall (fun k => k < length (addrs d))%nat idxs ->
  dead_addrs d !! a = None -> (exists k, k ∈ idxs /\ addrs d !! k = Some a) ->
  yields (spares a) opened (try_addrs cfg g idxs le) now d.
Proof.
  assert (forall d d', spares a d d' -> dead_addrs d !! a = None -> dead_addrs d' !! a = None) as Hstay.
  { intros d d' [_ Hs] Hd. destruct (dead_addrs d' !! a) as [e|] eqn:E; [|done]. specialize (Hs e eq_refl). congruence. }
  induction idxs as [|k idxs IH]; intros le now d Hk Hlive (k' & Hin & Ha).
  { now apply not_elem_of_nil in Hin. }
  apply Forall_cons_1 in Hk as [Hk Hrest]. cbn. intros d1 S1. pose proof S1 as [L1 _]. rewrite L1.
  pose proof (Hstay _ _ S1 Hlive) as Hd1.
  destruct (addrs d !! k) as [b|] eqn:Hb; [|apply lookup_ge_None_1 in Hb; lia]. cbn.
  intros d2 S2. pose proof S2 as [L2 _]. pose proof (Hstay _ _ S2 Hd1) as Hd2.
  destruct (decide (b = a)) as [->|Hne].
  - rewrite Hd2, bool_decide_false by (intros [? ?]; done). cbn. destruct (Hup now) as (c & t & ->). cbn.
    intros d3 _ d4 _. unfold opened. eauto.
  - assert (exists k', k' ∈ idxs /\ addrs d !! k' = Some a) as Hlater.
    { apply elem_of_cons in Hin as [->|Hin]; [congruence|eauto]. }
    destruct (bool_decide _); [apply IH; rewrite ?L2, ?L1; auto|]. cbn.
    destruct (connect_raw cfg b now) as [[c|e] t]; cbn; [intros d3 _ d4 _; unfold opened; eauto|].
    intros d3 S3 d4 S4 d5 S5. pose proof S3 as [L3 _]. pose proof S4 as [L4 _]. pose proof S5 as [L5 _]. cbn in *.
    apply IH; cbn; rewrite ?L5, ?L4, ?L3, ?L2, ?L1; auto.
    apply (Hstay _ _ S5). cbn. rewrite lookup_insert_ne by done. apply (Hstay _ _ S4). cbn. now apply (Hstay _ _ S3).
Qed.

Lemma in_rotation (l : list addr) (current : Z) :
  a ∈ l -> exists k, k ∈ rotation (Z.to_nat (current mod Z.of_nat (length l))) (length l) /\ l !! k = Some a.
Proof.
  intros Ha. apply list_elem_of_lookup_1 in Ha as [k Hk]. exists k. split; [|done].
  apply lookup_lt_Some in Hk as Hlt. apply rotation_complete; [|done].
  pose proof (Z.mod_pos_bound current (Z.of_nat (length l))). lia.
Qed.

Lemma connect_live t0 now d :
  available a t0 now d -> yields (spares a) opened (connect_round_robin cfg g) now d.
Proof.
  intros Ha. unfold connect_round_robin. cbn [bind task_monad task_bind reads yields].
  intros d1 S1. pose proof (available_spared _ _ _ _ _ Ha S1) as A1. cbn [fst snd].
  rewrite bool_decide_false by (intros E; destruct A1 as (_ & Hin & _); rewrite E in Hin; now apply not_elem_of_nil in Hin).
  rewrite decide_False by done. apply yields_bind.
  eapply yields_weaken; [|apply (refresh_available t0 now d1 A1)]. cbn. intros _ now1 d2 A2 d3 S3 d4 S4.
  pose proof (available_spared _ _ _ _ _ A2 S3) as (Ht & Hin & Hd). pose proof S4 as [L4 _].
  rewrite decide_False by (destruct (addrs d3); [now apply not_elem_of_nil in Hin|done]). cbn. intros d5 S5.
  pose proof S5 as [L5 D5]. cbn in L5, D5. apply try_addrs_live; cbn.
  - rewrite L5, L4. apply Forall_forall. intros k Hk. now apply rotation_lt in Hk.
  - apply map_lookup_filter_None. right. intros e He. apply D5 in He. apply S4, Hd in He. cbn. lia.
  - rewrite L5, L4. now apply in_rotation.
Qed.
End Live.

(** A call that refreshes no address list spares an address that answers. *)
Lemma try_addrs_spares cfg g a idxs : forall le,
  (forall b, connect_timeout cfg = Some b -> 0 <= b) -> (forall t, exists c t', connect_raw cfg a t = (Ok c, t')) ->
  sections (fun _ d => dns_hostname d = None) (fun _ d d' => spares a d d' /\ dns_hostname d' = None)
    (try_addrs (addr := addr) (stream := stream) cfg g idxs le).
Proof.
  intros le Hb Hup. revert le. induction idxs as [|k idxs IH]; intros le; cbn; [done|].
  intros now d Hd. split; [done|]. destruct (addrs d !! k) as [b|]; [|done]. cbn.
  intros now1 d1 Hd1. split; [done|]. destruct (bool_decide _); [auto|]. cbn.
  intros now2. split; [now apply connect_raw_time|]. destruct (connect_raw cfg b now2) as [[c|e] t] eqn:Ec; cbn.
  - intros now3 d3 Hd3. split; [split; [split; [done|]|done]|].
    { cbn. intros e He. now apply lookup_delete_Some in He as [_ He]. }
    intros now4 d4 Hd4. done.
  - intros now3 d3 Hd3. split; [done|]. intros now4 d4 Hd4. split; [|intros now5 d5 Hd5; split; [done|auto]].
    split; [|done]. split; [done|]. cbn. intros x Hx. apply lookup_insert_Some in Hx as [[-> _]|[_ Hx]]; [|done].
    destruct (Hup now2) as (c & t' & E). congruence.
Qed.

Lemma connect_spares cfg g a :
  (forall b, connect_timeout cfg = Some b -> 0 <= b) -> (forall t, exists c t', connect_raw cfg a t = (Ok c, t')) ->
  sections (fun _ d => dns_hostname d = None) (fun _ d d' => spares a d d' /\ dns_hostname d' = None)
    (connect_round_robin (addr := addr) (stream := stream) cfg g).
Proof.
  intros Hb Hup. cbn. intros now d Hd. split; [done|]. destruct (bool_decide _); [done|]. destruct (decide _); [done|].
  cbn. intros now1 d1 Hd1. split; [done|]. rewrite Hd1. cbn. intros now2 d2 Hd2. split; [done|].
  intros now3 d3 Hd3. split; [done|]. destruct (decide _); [done|]. cbn. intros now4 d4 Hd4. split.
  - split; [split; [done|]|done]. cbn. intros e He. now apply map_lookup_filter_Some in He as [He _].
  - now apply try_addrs_spares.
Qed.

(** C37: [connect_round_robin] finds a working server.  Take an address of the pool that
    answers every attempt, that the resolver lists, and whose cooldown is over (or that
    never failed).  Whatever the other addresses do, wherever the rotation starts, and
    whatever other tasks do before each critical section of the call as long as they
    neither replace the address list nor mark that address dead, the call returns a
    connection.  Other calls of [connect_round_robin] on a pool without a hostname to
    resolve are such tasks. *)
Theorem connect_reaches_live_address cfg g a :
  connect_timeout cfg <> Some 0 -> (forall b, connect_timeout cfg = Some b -> 0 <= b) ->
  (forall t, exists c t', connect_raw cfg a t = (Ok c, t')) ->
  (forall h t l t', lookup_host h t = (Some l, t') -> l = [] \/ a ∈ l) ->
  (forall env d now,
     a ∈ addrs d -> (forall e, dead_addrs d !! a = Some e -> e <= now) -> (forall k now d, spares a d (env k now d)) ->
     exists c d' now', exec env (connect_round_robin cfg g) d now = (Ok c, d', now')) /\
  (forall g', sections (fun _ d => dns_hostname d = None) (fun _ d d' => spares a d d' /\ dns_hostname d' = None)
                (connect_round_robin (addr := addr) (stream := stream) cfg g')).
Proof.
  intros Hto Hb Hup Hdns. split; [|intros; now apply connect_spares]. intros env d now Ha Hcool Henv.
  assert (available a now now d) as Hav by (split; [lia|auto]).
  pose proof (exec_yields _ _ _ env now d Henv (connect_live cfg g a Hto Hup Hdns now now d Hav)) as Hy.
  destruct (exec env (connect_round_robin cfg g) d now) as [[r d'] now']. destruct Hy as [c ->]. eauto.
Qed.

(** C38: the circuit breaker stays in bounds.  Every critical section of a call of
    [connect_round_robin], in whatever state the other tasks left the pool, keeps the
    failure counts between 1 and the [u32] maximum and every cooldown within 300 seconds
    from then, and does not empty the address list; so these hold at every moment of any
    interleaving of calls, and in particular at the end of a call.  A call that runs alone
    also leaves only addresses of the pool tracked, each dead one with its failure count.
    With a connect timeout the attempts of a call, which start after the DNS lookup, take
    at most that timeout for each address of the list. *)
Theorem breaker_invariant cfg g :
  0 <= dead_addr_cooldown cfg -> (forall b, connect_timeout cfg = Some b -> 0 <= b) ->
  sections bounded keeps_bounds (connect_round_robin (addr := addr) (stream := stream) cfg g) /\
  (forall env d now,
     (forall k now d, bounded now d -> bounded now (env k now d)) -> bounded now d ->
     let '(_, d', now') := exec env (connect_round_robin cfg g) d now in bounded now' d' /\ now <= now') /\
  (forall d now, breaker_ok now d ->
     let '(_, d', now') := exec quiet (connect_round_robin cfg g) d now in breaker_ok now' d') /\
  (forall b env idxs le d now, connect_timeout cfg = Some b ->
     (exec env (try_addrs cfg g idxs le) d now).2 <= now + b * Z.of_nat (length idxs)).
Proof.
  intros Hc Hb. pose proof (connect_bounded cfg g Hc Hb) as Hs. conj; [done|..].
  - intros env d now Henv Hd. apply (task_keeps bounded keeps_bounds); [exact bounded_later|now intros ? ? ? _ [? _]|done..].
  - intros d now Hok. now apply connect_alone.
  - intros b env idxs le d now E. apply try_addrs_time; auto.
Qed.
End DialingLaws.

(** ** Acquiring *)

Section PoolLaws.
Context {addr stream : Type} `{Countable addr} `{Network addr stream}.
Implicit Types (p : SimplePool addr stream) (c : Connection stream) (now : Z).

(** The sweep locks a free slot when there is one, the assigned one when that is free;
    otherwise the call queues on the assigned slot. *)
Lemma get_enter_spec p now :
  (0 < slot_count p)%nat ->
  match get_enter p now with
  | (Locked i, p') =>
      (is_free p (assigned p) = true -> i = assigned p) /\
      exists found, slots p !! i = Some (mkSlot Free found) /\
                    slots p' = <[i := mkSlot Getting found]> (slots p)
  | (Waiting i until, p') =>
      (forall k, is_free p k = false) /\ slots p' = slots p /\ i = assigned p /\ (i < slot_count p)%nat /\
      until = (fun t => now + t) <$> acquire_timeout (config p)
  end.
Proof.
  intros Hn. unfold get_enter, sweep.
  assert (assigned p < slot_count p)%nat as Hlt.
  { unfold assigned. pose proof (Z.mod_pos_bound (next_idx p) (Z.of_nat (slot_count p))). lia. }
  pose proof (rotation_complete (assigned p) (slot_count p)) as Hall.
  destruct (slot_count p) as [|n] eqn:En; [lia|].
  assert (exists l, rotation (assigned p) (S n) = assigned p :: l) as [l El].
  { unfold rotation. cbn [seq map]. rewrite Nat.add_0_r, Nat.mod_small by lia. eauto. }
  destruct (List.filter (is_free p) (rotation (assigned p) (S n))) as [|i l'] eqn:Ef; cbn.
  - conj; auto. intros k. destruct (is_free p k) eqn:Hk; [|done].
    assert (k < S n)%nat as Hkn.
    { unfold is_free in Hk. destruct (slots p !! k) eqn:Es; [|done]. apply lookup_lt_Some in Es.
      unfold slot_count in En. lia. }
    assert (In k (List.filter (is_free p) (rotation (assigned p) (S n)))) as Hin.
    { apply filter_In. split; [apply list_elem_of_In; auto|done]. }
    now rewrite Ef in Hin.
  - assert (In i (i :: l')) as Hin by now left. rewrite <- Ef in Hin. apply filter_In in Hin as [_ Hfree].
    split; [intros Ha; rewrite El in Ef; cbn in Ef; rewrite Ha in Ef; congruence|].
    unfold lock, is_free in *. cbn. destruct (slots p !! i) as [[h found]|]; [|done].
    apply bool_decide_eq_true in Hfree. cbn in Hfree. subst h. eauto.
Qed.

Lemma try_addrs_fresh cfg g idxs : forall le now,
  always (try_addrs cfg g idxs le) (fun r t => match r with
    | Ok c => exists a t0 s, connect_raw_inner (addr := addr) cfg a t0 = (Ok s, t) /\ c = mkConnection s t t g false
    | Err _ => True end) now.
Proof.
  induction idxs as [|k idxs IH]; intros le now; cbn; [done|]. intros d. destruct (addrs d !! k) as [a|]; [|done].
  cbn. intros d1. destruct (bool_decide _); [apply IH|]. cbn. destruct (connect_raw cfg a now) as [[c|e] t] eqn:E; cbn.
  - intros _ _. apply connect_raw_fresh in E as (s & E & ->). cbn. eauto.
  - intros _ _ _. apply IH.
Qed.

(** A connection opened at [now] under the configuration of the pool. *)
Definition just_opened p c now : Prop :=
  exists a t s, connect_raw_inner (config p) a t = (Ok s, now) /\
    c = mkConnection s now now (config_generation p) false.

Lemma connect_fresh env cfg g d now c d' now' :
  exec env (connect_round_robin cfg g) d now = (Ok c, d', now') ->
  exists a t s, connect_raw_inner (addr := addr) cfg a t = (Ok s, now') /\ c = mkConnection s now' now' g false.
Proof.
  intros E. pose proof (exec_always (connect_round_robin cfg g) (fun r t => match r with
    | Ok c => exists a t0 s, connect_raw_inner (addr := addr) cfg a t0 = (Ok s, t) /\ c = mkConnection s t t g false
    | Err _ => True end) env d now) as Ha. rewrite E in Ha. apply Ha. clear. cbn. intros d. destruct (bool_decide _); [done|].
  destruct (decide _); [done|]. apply (always_bind refresh_dns), always_any. intros _ now1. cbn. intros d1 d2.
  destruct (decide _); [done|]. cbn. intros _. apply try_addrs_fresh.
Qed.

Lemma dial_spec env p now r p' now' :
  dial env p now = (r, p', now') ->
  (exists d, p' = set_dialer p d) /\ match r with Ok c => just_opened p c now' | Err _ => True end.
Proof.
  unfold dial. destruct (exec _ _ _ _) as [[r0 d] t] eqn:E. intros [= -> <- <-].
  split; [eauto|]. destruct r; [|done]. exact (connect_fresh _ _ _ _ _ _ _ _ E).
Qed.

(** The check that [get] makes of a connection at time [t], and what it leaves. *)
Definition vetted p c t c' now' : Prop :=
  connection_expired c (ttl (config p)) t = false /\ connection_config_stale p c = false /\
  if should_liveness_ping (t - last_used_at c) (ping_idle_threshold (config p))
  then is_connection_alive c t = (true, c', now')
  else c' = c /\ now' = t.

Lemma should_reconnect_false p c t c' now' :
  should_reconnect p c t = (false, c', now') -> vetted p c t c' now'.
Proof.
  unfold should_reconnect, vetted.
  destruct (connection_expired _ _ _); [done|]. destruct (connection_config_stale _ _); [done|]. cbn.
  destruct (should_liveness_ping _ _); [|intros; now simplify_eq].
  destruct (is_connection_alive c t) as [[alive c1] t1]. destruct alive; intros; now simplify_eq.
Qed.

Lemma get_checked_outcome env p i c now :
  let '(r, p', now') := get_checked env p i c now in
  match r with
  | Ok j => j = i /\ exists c', slots p' = <[i := mkSlot Guarded (Some c')]> (slots p) /\
              (just_opened p c' now' \/ vetted p c now c' now')
  | Err _ => slots p' = <[i := mkSlot Free None]> (slots p)
  end.
Proof.
  unfold get_checked. destruct (should_reconnect p c now) as [[b c1] t] eqn:E.
  destruct b.
  - destruct (dial env p t) as [[[c2|e] p'] t'] eqn:Ed; apply dial_spec in Ed as [[d ->] Hf]; cbn; [|done].
    split; [done|]. eauto.
  - apply should_reconnect_false in E. cbn. eauto.
Qed.

Lemma get_enter_config p now :
  config (get_enter p now).2 = config p /\ config_generation (get_enter p now).2 = config_generation p.
Proof.
  unfold get_enter. destruct (sweep p) as [i|]; [|done]. unfold lock. now destruct (slots _ !! i).
Qed.

Lemma get_locked_slots env env' p i now s :
  slots p !! i = Some s ->
  let '(r, p', now') := get_locked env env' p i now in
  match r with
  | Ok j => j = i /\ exists c', slots p' = <[i := mkSlot Guarded (Some c')]> (slots p) /\
              (just_opened p c' now' \/
               exists c t, (conn s = Some c \/ just_opened p c t) /\ vetted p c t c' now')
  | Err _ => slots p' = <[i := mkSlot Free None]> (slots p)
  end.
Proof.
  intros Hs. unfold get_locked. rewrite Hs. destruct s as [h [c|]].
  - pose proof (get_checked_outcome env' p i c now) as Hout.
    destruct (get_checked env' p i c now) as [[[j|e] p'] now']; [|done].
    destruct Hout as (-> & c' & E & [Hf|Hv]); eauto 10.
  - destruct (dial env p now) as [[[c|e] p1] t] eqn:Ed; apply dial_spec in Ed as [[d ->] Hf]; [|done].
    pose proof (get_checked_outcome env' (set_dialer p d) i c t) as Hout.
    destruct (get_checked env' _ i c t) as [[[j|e] p'] now']; [|done].
    destruct Hout as (-> & c' & E & Hv). split; [done|]. exists c'. split; [done|].
    destruct Hv as [Hf'|Hv]; [left; exact Hf'|right; exists c, t; auto].
Qed.

(** What [get] does.  It waits only when every slot is busy, on the assigned slot
    and until its deadline.  Otherwise it locks a free slot, the assigned one when that is
    free, and then either fails and leaves that slot free and empty, or hands out a
    connection that was just opened under the current configuration, or one that passed
    the check: not expired, not opened under an older configuration, and either used within
    the idle threshold or answering a ping.  No other slot is touched.  This holds whatever
    other tasks do to the addresses and the breaker during its connects. *)
Theorem get_outcome env env' p now :
  (0 < slot_count p)%nat ->
  match get_enter p now with
  | (Waiting i until, p') =>
      (forall k, is_free p k = false) /\ slots p' = slots p /\ i = assigned p /\ (i < slot_count p)%nat /\
      until = (fun t => now + t) <$> acquire_timeout (config p)
  | (Locked i, p1) =>
      (is_free p (assigned p) = true -> i = assigned p) /\
      exists found, slots p !! i = Some (mkSlot Free found) /\
      let '(r, p', now') := get_locked env env' p1 i now in
      match r with
      | Ok j => j = i /\ exists c', slots p' = <[i := mkSlot Guarded (Some c')]> (slots p) /\
                  (just_opened p c' now' \/
                   exists c t, (found = Some c \/ just_opened p c t) /\ vetted p c t c' now')
      | Err _ => slots p' = <[i := mkSlot Free None]> (slots p)
      end
  end.
Proof.
  intros Hn. pose proof (get_enter_spec p now Hn) as Henter.
  pose proof (get_enter_config p now) as [Hcfg Hgen].
  destruct (get_enter p now) as [[i|i until] p1]; [|done].
  destruct Henter as (Hfirst & found & Hs & Hslots). split; [done|]. exists found. split; [done|].
  cbn in Hcfg, Hgen. apply lookup_lt_Some in Hs as Hlt.
  assert (slots p1 !! i = Some (mkSlot Getting found)) as Hs1
    by (rewrite Hslots; now apply list_lookup_insert_eq).
  pose proof (get_locked_slots env env' p1 i now _ Hs1) as Hout.
  assert (forall x, <[i := x]> (slots p1) = <[i := x]> (slots p)) as Hins
    by (intros x; now rewrite Hslots, list_insert_insert_eq).
  destruct (get_locked env env' p1 i now) as [[[j|e] p'] now']; rewrite Hins in Hout || setoid_rewrite Hins in Hout; [|done].
  unfold just_opened, vetted, connection_config_stale in *. now rewrite Hcfg, Hgen in Hout.
Qed.
End PoolLaws.

(** ** A network to run on

    Address 1 refuses connections, every other address answers after a second; the name
    resolves to address 2.  The stream is the number of replies that are on their way: a
    packet asks for one, and every reply is a Pong. *)
Definition sample_net : Network Z nat := {|
  show_addr _ := [];
  connect_raw_inner _ a now :=
    ((if a =? 1 then Err (EIo (msg "connection refused")) else Ok 0%nat), now + SECOND);
  lookup_host _ now := (Some [2], now + 1);
  write_packet s _ now := (true, S s, now);
  flush s now := (true, s, now);
  read_byte_within _ s now := match s with O => (None, O, now) | S s => (Some 4, s, now) end;
|}.

#[export] Existing Instance sample_net.

Lemma sample_net_laws : NetworkLaws Z nat.
Proof. split; intros; cbn; unfold SECOND; lia. Qed.

Definition sample_config : PoolConfig := config (new_pool (stream := nat) [1; 2] 1 0).

Definition sample_dialer (l : list Z) : Dialer Z := dialer (new_pool (stream := nat) l 1 0).

Lemma connect_reaches_live_address_witness :
  let others_prune : others Z := fun _ now d => prune now d in
  exists c d' now', exec others_prune (connect_round_robin sample_config 0) (sample_dialer [1; 2]) 7 = (Ok c, d', now').
Proof.
  apply (@connect_reaches_live_address Z nat _ _ _ sample_net_laws sample_config 0 2).
  - discriminate.
  - discriminate.
  - intros t. eexists _, _. reflexivity.
  - intros h t l t' [= <- _]. right. left.
  - right. left.
  - discriminate.
  - intros k now d. split; [done|]. cbn. intros e He. now apply map_lookup_filter_Some in He as [He _].
Defined.

Lemma breaker_invariant_witness :
  let '(_, d', now') := exec quiet (connect_round_robin sample_config 0) (sample_dialer [1; 2]) 7 in breaker_ok now' d'.
Proof.
  apply (@breaker_invariant Z nat _ _ _ sample_net_laws sample_config 0).
  - discriminate.
  - discriminate.
  - split; [split; discriminate|..]; intros a [x Hx]; discriminate Hx.
Defined.

Lemma get_outcome_witness :
  let p : SimplePool Z nat := new_pool [2] 2 0 in
  match get_enter p 7 with
  | (Waiting i until, p') =>
      (forall k, is_free p k = false) /\ slots p' = slots p /\ i = assigned p /\ (i < slot_count p)%nat /\
      until = (fun t => 7 + t) <$> acquire_timeout (config p)
  | (Locked i, p1) =>
      (is_free p (assigned p) = true -> i = assigned p) /\
      exists found, slots p !! i = Some (mkSlot Free found) /\
      let '(r, p', now') := get_locked quiet quiet p1 i 7 in
      match r with
      | Ok j => j = i /\ exists c', slots p' = <[i := mkSlot Guarded (Some c')]> (slots p) /\
                  (just_opened p c' now' \/
                   exists c t, (found = Some c \/ just_opened p c t) /\ vetted p c t c' now')
      | Err _ => slots p' = <[i := mkSlot Free None]> (slots p)
      end
  end.
Proof. apply (get_outcome quiet quiet (new_pool [2] 2 0) 7). unfold slot_count. cbn. lia. Defined.

(** *** A refresh of the address list during a call

    The name was resolved almost 300 seconds ago, so a call that starts now does not
    refresh the list, but another task does while the call waits for its first address. *)
Definition due_dialer (l : list Z) : Dialer Z := mkDialer l 0 ∅ ∅ (Some (str "ch")) (1 - DNS_INTERVAL) None.

Definition refreshed_before (n : nat) : others Z := fun k now d =>
  if decide (k = n) then (exec quiet refresh_dns d now).1.2 else d.

(** The list shrinks to one address before the call reads its second one: the index is
    out of range. *)
Theorem refresh_breaks_rotation :
  (exec (refreshed_before 12) (connect_round_robin sample_config 0) (due_dialer [1; 3]) 0).1.1 = Err EPanic.
Proof. vm_compute. reflexivity. Qed.

(** The list no longer has the address when its failure is recorded: the breaker tracks an
    address that the pool does not have. *)
Theorem refresh_leaves_stale_failure :
  let d' := (exec (refreshed_before 9) (connect_round_robin sample_config 0) (due_dialer [1]) 0).1.2 in
  addrs d' = [2] /\ is_Some (dead_addrs d' !! 1) /\ failure_counts d' !! 1 = Some 1.
Proof. vm_compute. conj; eauto. Qed.
