(* ===== verification/PoolLifecycle.v ===== *)
(** * The life of the pool's connections

    The tasks that use a [SimplePool] interleave at their await points, and the runtime may
    drop any of their futures there.  A step of this transition system is what one task
    does between two such points; [run] is any interleaving.  A task that holds a
    [PoolGuard] is at one of the points of the method it runs: [point] has those of every
    method of the client that acquires a guard, and [user_step] what the method does from
    there.  The invariant is the one the comments of [PoolGuard] promise: a connection that
    is back in the pool has nothing of an earlier exchange pending on its socket. *)

From Stdlib Require Import String ZArith Lia Bool List.
From S2P Require Import Prelude Pool.
From stdpp Require Import base decidable option list gmap.

Open Scope Z_scope.

(** Whether a stream is in the middle of an exchange: a request that was begun, or packets
    of a reply that were not read.  A connection that was just opened is not, nor is one
    that was not before a Ping, once the Ping was written and its Pong was read.  Nothing
    is known of a Ping that was given up. *)
Class Responses (addr stream : Type) `{Network addr stream} := {
  mid_response : stream -> bool;
  connect_clean cfg a now s t : connect_raw_inner cfg a now = (Ok s, t) -> mid_response s = false;
  pong_clean s now s1 t1 s2 t2 s3 t3 :
    mid_response s = false -> write_packet s [Init.Byte.x04] now = (true, s1, t1) ->
    flush s1 t1 = (true, s2, t2) -> read_byte_within SECOND s2 t2 = (Some 4, s3, t3) ->
    mid_response s3 = false;
}.

(** ** The methods that hold a guard *)

Inductive method :=
| ServerInfo          (* [server_info], [new_connected], [warmup]: the guard only *)
| Ping
| TablesStatus
| Execute             (* [_execute_with_params_and_ignored_part_uuids] *)
| Select              (* [block], [blocks], [row_count], [all], raw: [send_select_query], then the response *)
| Rows                (* [rows]: [send_select_query], then the reader task owns the stream *)
| Batch               (* [BatchBuilder::execute] *)
| BeginSelect         (* [begin_select], then the [BlockStream] *)
| BeginInsert.        (* [begin_insert], then the [InsertSession] *)

(** Where a holder of a guard is. *)
Inductive point :=
| Start (m : method)             (* the guard was just acquired *)
| Sending (m : method)           (* marked, the request is going out; errors return by [?] *)
| Reading (m : method)           (* marked, up to [finish_response] *)
| Streaming (in_step : bool)     (* a [BlockStream] with [done] unset; whether its reader is between packets *)
| Stopped                        (* a [BlockStream] with [done] set *)
| Inserting                      (* an [InsertSession] with [active] set *)
| Leaving.                       (* the guard goes out of scope *)

(** [Drop] of the object that owns the guard: a [BlockStream] that is not done and an
    active [InsertSession] take the stream before the guard is dropped. *)
Definition takes_on_drop (pt : point) : bool :=
  match pt with Streaming _ | Inserting => true | _ => false end.

(** What a run does that breaks the promise; see the three counterexamples below. *)
Inductive fault :=
| NoFault
| KeptUnsettled     (* [finish_response] keeps a connection after an error from mid-response *)
| ResumedStream     (* [next_block] goes on after it failed or was dropped inside a packet *)
| DroppedPing.      (* a [get] is dropped during or after its own Ping *)

Section Lifecycle.
Context {addr stream : Type} `{Countable addr} `{Responses addr stream}.
Implicit Types (p : SimplePool addr stream) (c : Connection stream) (s : Slot stream) (now : Z).
Implicit Types (us : gmap nat point) (pt : point) (i : nat).

Definition with_stream c (st : stream) : Connection stream :=
  mkConnection st (created_at c) (last_used_at c) (conn_generation c) (response_in_flight c).

Definition held p i (h : Holder) : Prop := exists s, slots p !! i = Some s /\ holder s = h.

(** What a [get] that is dropped while it holds a mutex leaves in the slot: what it found,
    a connection it had already opened, or either of them after a part of a Ping, in
    whatever state that left the stream. *)
Inductive left_behind p (found : option (Connection stream)) : fault -> option (Connection stream) -> Prop :=
| left_as_found : left_behind p found NoFault found
| left_opened c env now p' now' :
    found = None -> dial env p now = (Ok c, p', now') -> left_behind p found NoFault (Some c)
| left_pinging c st :
    left_behind p found NoFault (Some c) -> left_behind p found DroppedPing (Some (with_stream c st)).

(** The reader of a response stops behind its terminal packet, after which the server is
    silent: so it is when the response ends in a result, and when it ends in a server
    exception.  Any other error may come from the middle of it. *)
Definition settled p i (r : result Error unit) : Prop :=
  forall c, guarded p i = Some c ->
  match r with Ok _ => True | Err e => is_server_error e = true end -> mid_response (conn_stream c) = false.

Definition keeps_unsettled (r : result Error unit) : fault :=
  match r with
  | Err e => if is_broken_connection e || is_server_error e then NoFault else KeptUnsettled
  | Ok _ => NoFault
  end.

(** The steps of each method with the guard on slot [i], from point to point.  Reading the
    response, with whatever the exchange does to the stream, up to [finish_response]: *)
Inductive response_step p i (m : method) : point -> fault -> SimplePool addr stream -> point -> Prop :=
| response_talks st : response_step p i m (Reading m) NoFault (set_stream p i st) (Reading m)
| response_ends r : settled p i r ->
    response_step p i m (Reading m) (keeps_unsettled r) (finish_response p i r) Leaving.

(** [server_info]; [new_connected] and [warmup] likewise drop the guard at once. *)
Inductive server_info_step p i : point -> fault -> SimplePool addr stream -> point -> Prop :=
| server_info_returns : server_info_step p i (Start ServerInfo) NoFault p Leaving.

(** [ping]: the errors of the writes are part of the result too. *)
Inductive ping_step p i : point -> fault -> SimplePool addr stream -> point -> Prop :=
| ping_marks : ping_step p i (Start Ping) NoFault (mark_response_in_flight p i) (Reading Ping)
| ping_responds pt f p' pt' : response_step p i Ping pt f p' pt' -> ping_step p i pt f p' pt'.

(** [tables_status]: the request may be rejected before anything is sent. *)
Inductive tables_status_step p i : point -> fault -> SimplePool addr stream -> point -> Prop :=
| status_rejected : tables_status_step p i (Start TablesStatus) NoFault p Leaving
| status_marks : tables_status_step p i (Start TablesStatus) NoFault (mark_response_in_flight p i) (Reading TablesStatus)
| status_responds pt f p' pt' : response_step p i TablesStatus pt f p' pt' -> tables_status_step p i pt f p' pt'.

(** [_execute_with_params_and_ignored_part_uuids]: an error of the send returns by [?],
    with the mark set. *)
Inductive execute_step p i : point -> fault -> SimplePool addr stream -> point -> Prop :=
| execute_marks : execute_step p i (Start Execute) NoFault (mark_response_in_flight p i) (Sending Execute)
| execute_sends st : execute_step p i (Sending Execute) NoFault (set_stream p i st) (Sending Execute)
| execute_fails : execute_step p i (Sending Execute) NoFault p Leaving
| execute_sent : execute_step p i (Sending Execute) NoFault p (Reading Execute)
| execute_responds pt f p' pt' : response_step p i Execute pt f p' pt' -> execute_step p i pt f p' pt'.

(** [send_select_query], which gives up the stream on a broken connection. *)
Inductive send_select_step p i (m : method) : point -> fault -> SimplePool addr stream -> point -> Prop :=
| select_marks : send_select_step p i m (Start m) NoFault (mark_response_in_flight p i) (Sending m)
| select_sends st : send_select_step p i m (Sending m) NoFault (set_stream p i st) (Sending m)
| select_fails (e : Error) :
    send_select_step p i m (Sending m) NoFault (invalidate_on_err p i (Err e : result Error unit)) Leaving.

(** The methods of [QueryBuilder] that read the response themselves, and [rows], which
    hands the stream to a reader task. *)
Inductive select_step p i : point -> fault -> SimplePool addr stream -> point -> Prop :=
| select_sending pt f p' pt' : send_select_step p i Select pt f p' pt' -> select_step p i pt f p' pt'
| select_sent : select_step p i (Sending Select) NoFault p (Reading Select)
| select_responds pt f p' pt' : response_step p i Select pt f p' pt' -> select_step p i pt f p' pt'.

Inductive rows_step p i : point -> fault -> SimplePool addr stream -> point -> Prop :=
| rows_sending pt f p' pt' : send_select_step p i Rows pt f p' pt' -> rows_step p i pt f p' pt'
| rows_taken : rows_step p i (Sending Rows) NoFault (take_stream p i).2 Leaving.

(** [BatchBuilder::execute]: the reader task gets the stream. *)
Inductive batch_step p i : point -> fault -> SimplePool addr stream -> point -> Prop :=
| batch_marks : batch_step p i (Start Batch) NoFault (mark_response_in_flight p i) (Sending Batch)
| batch_sends st : batch_step p i (Sending Batch) NoFault (set_stream p i st) (Sending Batch)
| batch_fails : batch_step p i (Sending Batch) NoFault p Leaving
| batch_taken : batch_step p i (Sending Batch) NoFault (take_stream (clear_response_in_flight p i) i).2 Leaving.

(** [begin_select] *)
Inductive begin_select_step p i : point -> fault -> SimplePool addr stream -> point -> Prop :=
| begin_select_marks : begin_select_step p i (Start BeginSelect) NoFault (mark_response_in_flight p i) (Sending BeginSelect)
| begin_select_sends st : begin_select_step p i (Sending BeginSelect) NoFault (set_stream p i st) (Sending BeginSelect)
| begin_select_fails : begin_select_step p i (Sending BeginSelect) NoFault p Leaving
| begin_select_sent : begin_select_step p i (Sending BeginSelect) NoFault p (Streaming true).

(** [BlockStream]: [next_block] reads packets; it returns by [?] inside one, or is dropped
    there, with [done] unset; at the exception or EndOfStream it clears the mark, and when
    no packet type can be read it takes the stream, on a deadline after [cancel_and_drain].
    [cancel] sends Cancel and takes the stream.  Both set [done] before they await. *)
Inductive block_stream_step p i : point -> fault -> SimplePool addr stream -> point -> Prop :=
| next_block_reads b st : block_stream_step p i (Streaming b) NoFault (set_stream p i st) (Streaming b)
| next_block_fails b : block_stream_step p i (Streaming b) NoFault p (Streaming false)
| next_block_terminal (b : bool) : (b = true -> settled p i (Ok tt)) ->
    block_stream_step p i (Streaming b) (if b then NoFault else ResumedStream) (clear_response_in_flight p i) Stopped
| next_block_unread b : block_stream_step p i (Streaming b) NoFault (take_stream p i).2 Stopped
| stream_stops b : block_stream_step p i (Streaming b) NoFault p Stopped
| stopped_talks st : guard_in_flight p i = true -> block_stream_step p i Stopped NoFault (set_stream p i st) Stopped
| stopped_takes : block_stream_step p i Stopped NoFault (take_stream p i).2 Stopped.

(** [begin_insert]: [finish_response] clears the mark once the structure of the table was
    read, in the middle of the INSERT, which the session's [active] covers from then on. *)
Inductive begin_insert_step p i : point -> fault -> SimplePool addr stream -> point -> Prop :=
| begin_insert_marks : begin_insert_step p i (Start BeginInsert) NoFault (mark_response_in_flight p i) (Sending BeginInsert)
| begin_insert_sends st : begin_insert_step p i (Sending BeginInsert) NoFault (set_stream p i st) (Sending BeginInsert)
| begin_insert_fails : begin_insert_step p i (Sending BeginInsert) NoFault p Leaving
| begin_insert_structure r : (forall e, r = Err e -> settled p i r) ->
    begin_insert_step p i (Sending BeginInsert) (keeps_unsettled r) (finish_response p i r)
      (match r with Ok _ => Inserting | Err _ => Leaving end).

(** [InsertSession]: [send_data], and [end], which unsets [active] only when the response
    ended well. *)
Inductive insert_session_step p i : point -> fault -> SimplePool addr stream -> point -> Prop :=
| session_sends st : insert_session_step p i Inserting NoFault (set_stream p i st) Inserting
| session_ends r : settled p i r ->
    insert_session_step p i Inserting NoFault (finish_response p i r) (match r with Ok _ => Leaving | Err _ => Inserting end).

Inductive user_step p i pt f p' pt' : Prop :=
| user_server_info (Hu : server_info_step p i pt f p' pt')
| user_ping (Hu : ping_step p i pt f p' pt')
| user_tables_status (Hu : tables_status_step p i pt f p' pt')
| user_execute (Hu : execute_step p i pt f p' pt')
| user_select (Hu : select_step p i pt f p' pt')
| user_rows (Hu : rows_step p i pt f p' pt')
| user_batch (Hu : batch_step p i pt f p' pt')
| user_begin_select (Hu : begin_select_step p i pt f p' pt')
| user_block_stream (Hu : block_stream_step p i pt f p' pt')
| user_begin_insert (Hu : begin_insert_step p i pt f p' pt')
| user_insert_session (Hu : insert_session_step p i pt f p' pt').

(** ** The pool and its users *)

Record world := mkWorld { pool : SimplePool addr stream; users : gmap nat point }.

Definition new_world (addresses : list addr) (size : nat) (started : Z) : world :=
  mkWorld (new_pool addresses size started) ∅.

Definition use_count (d : Dialer addr) : option Z := pool_in_use <$> metrics d.

(** Other tasks, while a call dials.  What they do to the slots and to the number of guards
    are steps of their own. *)
Definition dials_only (env : others addr) : Prop := forall k now d, use_count (env k now d) = use_count d.

(** The guard is dropped, at the end of its method or with a future or an object that the
    caller drops. *)
Definition drop_user p i pt now : SimplePool addr stream :=
  drop_guard (if takes_on_drop pt then (take_stream p i).2 else p) i now.

Inductive step : world -> fault -> world -> Prop :=
| step_enter p us now : step (mkWorld p us) NoFault (mkWorld (get_enter p now).2 us)
| step_granted p us i : held p i Free -> step (mkWorld p us) NoFault (mkWorld (lock p i) us)
| step_timed_out p us : step (mkWorld p us) NoFault (mkWorld (get_timed_out p).2 us)
| step_dialing p us d : use_count d = use_count (dialer p) -> step (mkWorld p us) NoFault (mkWorld (set_dialer p d) us)
| step_got p us i env env' now m j p' now' :
    held p i Getting -> dials_only env -> dials_only env' -> get_locked env env' p i now = (Ok j, p', now') ->
    step (mkWorld p us) NoFault (mkWorld p' (<[j := Start m]> us))
| step_refused p us i env env' now e p' now' :
    held p i Getting -> dials_only env -> dials_only env' -> get_locked env env' p i now = (Err e, p', now') ->
    step (mkWorld p us) NoFault (mkWorld p' us)
| step_abandoned p us i s f left :
    slots p !! i = Some s -> holder s = Getting -> left_behind p (conn s) f left ->
    step (mkWorld p us) f (mkWorld (set_slot p i (mkSlot Free left)) us)
| step_reconfigured p us cfg :
    step (mkWorld p us) NoFault (mkWorld (bump_config_generation (set_config p cfg)) us)
| step_user p us i pt f p' pt' :
    held p i Guarded -> us !! i = Some pt -> user_step p i pt f p' pt' ->
    step (mkWorld p us) f (mkWorld p' (<[i := pt']> us))
| step_dropped p us i pt now :
    held p i Guarded -> us !! i = Some pt ->
    step (mkWorld p us) NoFault (mkWorld (drop_user p i pt now) (delete i us)).

Inductive run : world -> list fault -> world -> Prop :=
| run_nil w : run w [] w
| run_snoc w tr w' f w'' : run w tr w' -> step w' f w'' -> run w (tr ++ [f]) w''.

(** ** The invariant *)

Definition clean c : Prop := response_in_flight c = false /\ mid_response (conn_stream c) = false.

(** What a point says of the connection of its guard. *)
Definition point_ok pt c : Prop :=
  match pt with
  | Start _ => clean c
  | Sending _ | Reading _ | Streaming _ => response_in_flight c = true
  | Inserting => True
  | Stopped | Leaving => response_in_flight c = false -> mid_response (conn_stream c) = false
  end.

Definition slot_ok us i s : Prop :=
  forall c, conn s = Some c ->
  match holder s with
  | Guarded => exists pt, us !! i = Some pt /\ point_ok pt c
  | _ => clean c
  end.

Definition world_ok (w : world) : Prop := forall i s, slots (pool w) !! i = Some s -> slot_ok (users w) i s.

Lemma opened_clean p c now : just_opened p c now -> clean c.
Proof. intros (a & t & s & Hs & ->). split; [done|]. exact (connect_clean _ _ _ _ _ Hs). Qed.

Lemma ping_clean c now c' now' : clean c -> is_connection_alive c now = (true, c', now') -> clean c'.
Proof.
  intros [Hf Hm]. unfold is_connection_alive.
  destruct (write_packet _ _ _) as [[[|] s2] t2] eqn:E2; [|done].
  destruct (flush _ _) as [[[|] s3] t3] eqn:E3; [|done].
  destruct (read_byte_within _ _ _) as [[b s4] t4] eqn:E4. intros [= Hb <- <-].
  apply bool_decide_eq_true in Hb as ->. split; [done|]. exact (pong_clean _ _ _ _ _ _ _ _ Hm E2 E3 E4).
Qed.

Lemma vetted_clean p c t c' now' : clean c -> vetted p c t c' now' -> clean c'.
Proof.
  intros Hc (_ & _ & Hv). destruct (should_liveness_ping _ _); [eauto using ping_clean|].
  now destruct Hv as [-> _].
Qed.

Lemma left_behind_clean p found left :
  (forall c, found = Some c -> clean c) -> left_behind p found NoFault left -> forall c, left = Some c -> clean c.
Proof.
  intros Hf Hl c Hc. inversion Hl as [E|c' env now p' now' E Hd|]; subst; [eauto|].
  simplify_eq. apply dial_spec in Hd as [_ Hfr]. eauto using opened_clean.
Qed.

(** One slot changes, and nobody but its user moves. *)
Lemma world_insert p us p' us' i s :
  world_ok (mkWorld p us) -> slots p' = <[i := s]> (slots p) ->
  (forall j, j <> i -> us' !! j = us !! j) -> slot_ok us' i s -> world_ok (mkWorld p' us').
Proof.
  intros Hok Hp' Hus Hs j s' Hj. cbn in *. rewrite Hp' in Hj.
  apply list_lookup_insert_Some in Hj as [(<- & <- & _)|[Hij Hj]]; [done|].
  intros c Hc. specialize (Hok j s' Hj c Hc). cbn in Hok. now rewrite Hus.
Qed.

Lemma world_insert_free p us p' i h oc :
  world_ok (mkWorld p us) -> slots p' = <[i := mkSlot h oc]> (slots p) -> h <> Guarded ->
  (forall c, oc = Some c -> clean c) -> world_ok (mkWorld p' us).
Proof.
  intros Hok Hp' Hh Hc. apply (world_insert p us p' us i (mkSlot h oc)); auto. intros c E. cbn in *.
  destruct h; auto; done.
Qed.

Lemma found_clean p us i s :
  world_ok (mkWorld p us) -> slots p !! i = Some s -> holder s <> Guarded -> forall c, conn s = Some c -> clean c.
Proof. intros Hok Hs Hh c Hc. specialize (Hok i s Hs c Hc). destruct (holder s); auto; done. Qed.

(** ** Acquiring *)

Lemma sweep_free p i : sweep p = Some i -> held p i Free.
Proof.
  unfold sweep. destruct (List.filter _ _) as [|k l] eqn:E; [done|]. intros [= ->].
  assert (In i (i :: l)) as Hin by now left. rewrite <- E in Hin. apply filter_In in Hin as [_ Hf].
  unfold is_free in Hf. destruct (slots p !! i) as [s|] eqn:Es; [|done].
  exists s. split; [done|]. now apply bool_decide_eq_true in Hf.
Qed.

(** [get_enter] as a lock of a free slot, or no change of the slots. *)
Lemma get_enter_slots p now :
  slots (get_enter p now).2 = slots p \/
  exists i, held p i Free /\ slots (get_enter p now).2 = slots (lock p i).
Proof.
  unfold get_enter. destruct (sweep p) as [i|] eqn:E; [|now left]. right. exists i.
  split; [now apply sweep_free|]. unfold lock. cbn. now destruct (slots p !! i).
Qed.

Lemma lock_slots p i s : slots p !! i = Some s -> slots (lock p i) = <[i := mkSlot Getting (conn s)]> (slots p).
Proof. unfold lock. now intros ->. Qed.

Lemma lock_ok p p' us i : world_ok (mkWorld p us) -> held p i Free -> slots p' = slots (lock p i) -> world_ok (mkWorld p' us).
Proof.
  intros Hok (s & Hs & Hh) E. rewrite (lock_slots p i s Hs) in E. apply (world_insert_free _ _ _ _ _ _ Hok E); [done|].
  eapply found_clean; eauto. congruence.
Qed.

Lemma got_ok p us i env env' now m j p' now' :
  world_ok (mkWorld p us) -> held p i Getting -> get_locked env env' p i now = (Ok j, p', now') ->
  world_ok (mkWorld p' (<[j := Start m]> us)).
Proof.
  intros Hok (s & Hs & Hh) E. pose proof (get_locked_slots env env' p i now s Hs) as Hout. rewrite E in Hout.
  destruct Hout as (-> & c' & Hslots & Hc).
  apply (world_insert p us _ _ i _ Hok Hslots); [intros; now apply lookup_insert_ne|].
  intros c [= <-]. cbn. exists (Start m). split; [apply lookup_insert_eq|].
  assert (forall c, conn s = Some c -> clean c) as Hclean by (eapply found_clean; eauto; congruence).
  destruct Hc as [Hf|(c & t & [Hc|Hf] & Hv)]; cbn; eauto using opened_clean, vetted_clean.
Qed.

Lemma refused_ok p us i env env' now e p' now' :
  world_ok (mkWorld p us) -> held p i Getting -> get_locked env env' p i now = (Err e, p', now') ->
  world_ok (mkWorld p' us).
Proof.
  intros Hok (s & Hs & Hh) E. pose proof (get_locked_slots env env' p i now s Hs) as Hout. rewrite E in Hout.
  now apply (world_insert_free p us p' i Free None).
Qed.

(** ** The operations of a guard, as changes of the connection it holds *)

Definition in_flight (b : bool) c : Connection stream :=
  mkConnection (conn_stream c) (created_at c) (last_used_at c) (conn_generation c) b.

Definition finished (r : result Error unit) c : option (Connection stream) :=
  match r with
  | Err e => if is_broken_connection e then None else Some (in_flight false c)
  | Ok _ => Some (in_flight false c)
  end.

(** [p'] is [p] with the connection of the guard on [i] changed by [f]. *)
Definition changes p i (f : Connection stream -> option (Connection stream)) p' : Prop :=
  slots p' = <[i := mkSlot Guarded (guarded p i ≫= f)]> (slots p) /\ dialer p' = dialer p.

Lemma changes_same p i : held p i Guarded -> changes p i Some p.
Proof.
  intros ([h oc] & Hs & Hh). cbn in Hh. subst h. split; [|done]. unfold guarded. rewrite Hs. cbn.
  rewrite bind_with_Some. symmetry. now apply list_insert_id.
Qed.

Lemma changes_update p i f oc : oc = (guarded p i ≫= f) -> changes p i f (update_guarded p i oc).
Proof. now intros ->. Qed.

Lemma guarded_none p i f : held p i Guarded -> guarded p i = None -> changes p i f p.
Proof.
  intros Hh E. destruct (changes_same p i Hh) as [Hs _]. split; [|done]. rewrite E in *. exact Hs.
Qed.

Lemma changes_in_flight p i b : held p i Guarded -> changes p i (fun c => Some (in_flight b c)) (set_in_flight p i b).
Proof.
  intros Hh. unfold set_in_flight. destruct (guarded p i) as [c|] eqn:E; [|now apply guarded_none].
  apply changes_update. now rewrite E.
Qed.

Lemma changes_stream p i st : held p i Guarded -> changes p i (fun c => Some (with_stream c st)) (set_stream p i st).
Proof.
  intros Hh. unfold set_stream. destruct (guarded p i) as [c|] eqn:E; [|now apply guarded_none].
  apply changes_update. now rewrite E.
Qed.

Lemma changes_take p i : changes p i (fun _ => None) (take_stream p i).2.
Proof. apply changes_update. now destruct (guarded p i). Qed.

Lemma changes_then_take p i f p' : changes p i f p' -> changes p i (fun _ => None) (take_stream p' i).2.
Proof.
  intros [Hs Hd]. split; [|exact Hd]. cbn. rewrite Hs, list_insert_insert_eq. now destruct (guarded p i).
Qed.

Lemma changes_finish p i r : held p i Guarded -> changes p i (finished r) (finish_response p i r).
Proof.
  intros Hh. pose proof (changes_in_flight p i false Hh) as Hc.
  unfold finish_response, invalidate_on_err, clear_response_in_flight, finished.
  destruct r as [u|e]; [exact Hc|]. destruct (is_broken_connection e); [|exact Hc]. eapply changes_then_take, Hc.
Qed.

Lemma changes_invalidate p i (e : Error) :
  held p i Guarded ->
  changes p i (fun c => if is_broken_connection e then None else Some c) (invalidate_on_err p i (Err e : result Error unit)).
Proof.
  intros Hh. unfold invalidate_on_err. destruct (is_broken_connection e); [apply changes_take|now apply changes_same].
Qed.

(** A response that ended well, or that was given up with its connection, leaves nothing
    pending. *)
Lemma finished_ok p i r c c' :
  guarded p i = Some c -> settled p i r -> keeps_unsettled r = NoFault -> finished r c = Some c' ->
  mid_response (conn_stream c') = false.
Proof.
  intros Hc Hset Hf. specialize (Hset c Hc). unfold keeps_unsettled, finished in *.
  destruct r as [u|e]; [intros [= <-]; now apply Hset|].
  destruct (is_broken_connection e); [done|]. intros [= <-]. cbn in *. apply Hset.
  now destruct (is_server_error e).
Qed.

(** A user's step is such a change, and unless it is a fault it takes the connection to
    what the next point says. *)
Definition moves p i pt f p' pt' (g : Connection stream -> option (Connection stream)) : Prop :=
  changes p i g p' /\
  (f = NoFault -> forall c c', guarded p i = Some c -> point_ok pt c -> g c = Some c' -> point_ok pt' c').

Lemma moves_same p i pt pt' :
  held p i Guarded -> (forall c, point_ok pt c -> point_ok pt' c) -> moves p i pt NoFault p pt' Some.
Proof. intros Hh Hc. split; [now apply changes_same|]. intros _ c c' _ Hok [= <-]. auto. Qed.

Lemma moves_mark p i pt pt' :
  held p i Guarded -> (forall c, response_in_flight c = true -> point_ok pt' c) ->
  moves p i pt NoFault (mark_response_in_flight p i) pt' (fun c => Some (in_flight true c)).
Proof. intros Hh Hc. split; [now apply changes_in_flight|]. intros _ c c' _ _ [= <-]. now apply Hc. Qed.

Lemma moves_talk p i pt st :
  held p i Guarded -> (forall c, point_ok pt c -> point_ok pt (with_stream c st)) ->
  moves p i pt NoFault (set_stream p i st) pt (fun c => Some (with_stream c st)).
Proof. intros Hh Hc. split; [now apply changes_stream|]. intros _ c c' _ Hok [= <-]. auto. Qed.

Lemma moves_take p i pt pt' : moves p i pt NoFault (take_stream p i).2 pt' (fun _ => None).
Proof. split; [apply changes_take|done]. Qed.

Lemma moves_clear_take p i pt pt' :
  held p i Guarded -> moves p i pt NoFault (take_stream (clear_response_in_flight p i) i).2 pt' (fun _ => None).
Proof. intros Hh. split; [eapply changes_then_take, changes_in_flight, Hh|done]. Qed.

Lemma moves_finish p i pt pt' f r :
  held p i Guarded ->
  (f = NoFault -> forall c c', guarded p i = Some c -> finished r c = Some c' -> point_ok pt' c') ->
  moves p i pt f (finish_response p i r) pt' (finished r).
Proof. intros Hh Hc. split; [now apply changes_finish|eauto]. Qed.

#[local] Hint Resolve moves_same moves_mark moves_talk moves_take moves_clear_take moves_finish : core.

(** A request that is under way is marked: it may be given up where it is. *)
Lemma sending_leaves m c : point_ok (Sending m) c -> point_ok Leaving c.
Proof. cbn. congruence. Qed.

Lemma streaming_stops b c : point_ok (Streaming b) c -> point_ok Stopped c.
Proof. cbn. congruence. Qed.

Lemma start_leaves m c : point_ok (Start m) c -> point_ok Leaving c.
Proof. intros [_ Hm] _. exact Hm. Qed.

#[local] Hint Resolve sending_leaves streaming_stops start_leaves : core.

Lemma response_step_moves p i m pt f p' pt' :
  held p i Guarded -> response_step p i m pt f p' pt' -> exists g, moves p i pt f p' pt' g.
Proof.
  intros Hh [st|r Hset]; [eauto|]. eexists. apply moves_finish; [done|].
  intros Hf c c' Hc Hg _. eapply finished_ok; eauto.
Qed.

Lemma send_select_moves p i m pt f p' pt' :
  held p i Guarded -> send_select_step p i m pt f p' pt' -> exists g, moves p i pt f p' pt' g.
Proof.
  intros Hh [|st|e]; [eauto..|]. eexists. split; [now apply changes_invalidate|]. intros _ c c' _ Hc Hg. cbn in *.
  destruct (is_broken_connection e); simplify_eq. congruence.
Qed.

Lemma block_stream_moves p i pt f p' pt' :
  held p i Guarded -> block_stream_step p i pt f p' pt' -> exists g, moves p i pt f p' pt' g.
Proof.
  intros Hh [b st|b|b Hset|b|b|st Hf|]; [eauto|eauto| |eauto|eauto| |eauto].
  - eexists. split; [now apply changes_in_flight|]. intros Hf c c' Hc _ [= <-] _. destruct b; [|done].
    exact (Hset eq_refl c Hc I).
  - eexists. split; [now apply changes_stream|]. intros _ c c' Hc _ [= <-].
    unfold guard_in_flight in Hf. rewrite Hc in Hf. cbn. congruence.
Qed.

Lemma begin_insert_moves p i pt f p' pt' :
  held p i Guarded -> begin_insert_step p i pt f p' pt' -> exists g, moves p i pt f p' pt' g.
Proof.
  intros Hh [|st| |r Hset]; [eauto..|]. eexists. apply moves_finish; [done|]. intros Hf c c' Hc Hg.
  destruct r as [u|e]; [exact I|]. intros _. eapply finished_ok; eauto.
Qed.

Lemma insert_session_moves p i pt f p' pt' :
  held p i Guarded -> insert_session_step p i pt f p' pt' -> exists g, moves p i pt f p' pt' g.
Proof.
  intros Hh [st|r Hset]; [eauto|]. eexists. apply moves_finish; [done|]. intros _ c c' Hc Hg.
  destruct r as [u|e]; [|exact I]. intros _. eapply finished_ok; eauto.
Qed.

Lemma user_step_moves p i pt f p' pt' :
  held p i Guarded -> user_step p i pt f p' pt' -> exists g, moves p i pt f p' pt' g.
Proof.
  intros Hh Hu. destruct Hu as [Hu|Hu|Hu|Hu|Hu|Hu|Hu|Hu|Hu|Hu|Hu];
    eauto using block_stream_moves, begin_insert_moves, insert_session_moves;
    destruct Hu; eauto using response_step_moves, send_select_moves.
Qed.

Lemma user_ok p us i pt p' pt' :
  world_ok (mkWorld p us) -> held p i Guarded -> us !! i = Some pt -> user_step p i pt NoFault p' pt' ->
  world_ok (mkWorld p' (<[i := pt']> us)).
Proof.
  intros Hok Hh Hpt Hu. destruct (user_step_moves _ _ _ _ _ _ Hh Hu) as (g & [Hslots _] & Hg).
  apply (world_insert p us _ _ i _ Hok Hslots); [intros; now apply lookup_insert_ne|].
  intros c' Hc'. cbn in *. exists pt'. split; [apply lookup_insert_eq|].
  destruct (guarded p i) as [c|] eqn:E; [|done]. apply (Hg eq_refl c); auto.
  destruct Hh as (s & Hs & Hh). unfold guarded in E. rewrite Hs in E.
  specialize (Hok i s Hs c E). rewrite Hh in Hok. destruct Hok as (pt0 & Hq & Hp0). cbn in Hq. assert (pt0 = pt) as -> by congruence. exact Hp0.
Qed.

(** A guard that is dropped leaves a clean connection or none. *)
Lemma drop_guard_slots p i now :
  exists oc, slots (drop_guard p i now) = <[i := mkSlot Free oc]> (slots p) /\
    forall c', oc = Some c' -> exists c, guarded p i = Some c /\ response_in_flight c = false /\
      response_in_flight c' = false /\ conn_stream c' = conn_stream c.
Proof.
  unfold drop_guard, guard_in_flight, guarded, in_use. cbn.
  destruct (slots p !! i) as [[h [c|]]|]; cbn; [|eexists; split; [reflexivity|]; done..].
  destruct (response_in_flight c) eqn:Ef; eexists; (split; [reflexivity|]); [done|].
  intros c' [= <-]. now exists c.
Qed.

Lemma dropped_ok p us i pt now :
  world_ok (mkWorld p us) -> held p i Guarded -> us !! i = Some pt ->
  world_ok (mkWorld (drop_user p i pt now) (delete i us)).
Proof.
  intros Hok (s & Hs & Hh) Hpt. unfold drop_user.
  set (q := if takes_on_drop pt then (take_stream p i).2 else p).
  destruct (drop_guard_slots q i now) as (oc & Hslots & Hoc).
  assert (<[i := mkSlot Free oc]> (slots q) = <[i := mkSlot Free oc]> (slots p)) as E
    by (unfold q; destruct (takes_on_drop pt); [apply list_insert_insert_eq|done]).
  rewrite E in Hslots. apply (world_insert p us _ _ i _ Hok Hslots); [intros; now apply lookup_delete_ne|].
  intros c' Hc'. cbn in *. destruct (Hoc c' Hc') as (c & Hc & Hf & Hf' & Hstream). split; [done|]. rewrite Hstream.
  unfold q, guarded in Hc. destruct (takes_on_drop pt) eqn:Et.
  { cbn in Hc. rewrite list_lookup_insert_eq in Hc by (now apply lookup_lt_Some in Hs). done. }
  rewrite Hs in Hc. specialize (Hok i s Hs c Hc). rewrite Hh in Hok. destruct Hok as (pt0 & Hq & Hp0).
  cbn in Hq. assert (pt0 = pt) as -> by congruence.
  destruct pt; cbn in *; try congruence; [apply Hp0|auto..].
Qed.

Lemma step_ok w w' : step w NoFault w' -> world_ok w -> world_ok w'.
Proof.
  intros Hstep Hok. remember NoFault as f. destruct Hstep; subst; try exact Hok.
  - destruct (get_enter_slots p now) as [E|(i & Hi & E)]; [|eapply lock_ok; eauto].
    intros i s Hs. cbn in Hs. rewrite E in Hs. exact (Hok i s Hs).
  - eapply lock_ok; eauto.
  - eapply got_ok; eauto.
  - eapply refused_ok; eauto.
  - eapply (world_insert_free p us _ i Free left); [done..|]. eapply left_behind_clean; [|eassumption].
    eapply found_clean; eauto. congruence.
  - eapply user_ok; eauto.
  - eapply dropped_ok; eauto.
Qed.

Lemma run_ok w tr w' : run w tr w' -> Forall (fun f => f = NoFault) tr -> world_ok w -> world_ok w'.
Proof.
  induction 1 as [|w tr w' f w'' Hrun IH Hstep]; [done|].
  intros [Htr Hf]%Forall_app Hok. apply Forall_cons_1 in Hf as [-> _]. eauto using step_ok.
Qed.


(** ** The number of guards *)

Definition guards (l : list (Slot stream)) : Z :=
  Z.of_nat (length (List.filter (fun s => bool_decide (holder s = Guarded)) l)).

Definition guard_bit s : Z := match holder s with Guarded => 1 | _ => 0 end.

Lemma guards_cons s l : guards (s :: l) = guard_bit s + guards l.
Proof.
  unfold guards, guard_bit. cbn. destruct (holder s); rewrite ?bool_decide_true, ?bool_decide_false by done;
    cbn [length]; lia.
Qed.

Lemma guards_insert s' : forall (l : list (Slot stream)) i s,
  l !! i = Some s -> guards (<[i := s']> l) = guards l - guard_bit s + guard_bit s'.
Proof.
  induction l as [|x l IH]; intros [|i] s Hs; cbn in Hs; simplify_eq.
  - change (<[0%nat := s']> (s :: l)) with (s' :: l). rewrite !guards_cons. lia.
  - change (<[S i := s']> (x :: l)) with (x :: <[i := s']> l). rewrite !guards_cons, (IH i s Hs). lia.
Qed.

(** Dialing does not touch the number of guards. *)
Definition same_use (d d' : Dialer addr) : Prop := use_count d' = use_count d.

Lemma use_record_error (d : Dialer addr) : use_count (record_connection_error d) = use_count d.
Proof. unfold record_connection_error, use_count. cbn. now destruct (metrics d). Qed.

Lemma use_refresh n now d :
  use_count d = n -> yields same_use (fun _ _ d => use_count d = n) (refresh_dns (stream := stream)) now d.
Proof.
  unfold same_use, use_count. intros Hd. cbn. intros d1 E1. destruct (dns_hostname d1) as [h|]; cbn; [|congruence].
  intros d2 E2 d3 E3. destruct (_ <? _); cbn; [congruence|]. intros d4 E4.
  destruct (lookup_host h now) as [[[|a l]|] t]; cbn in *; [congruence| |congruence].
  intros d5 E5 d6 E6 d7 E7. congruence.
Qed.

Lemma use_try_addrs n cfg g idxs : forall le now d,
  use_count d = n -> yields same_use (fun _ _ d => use_count d = n) (try_addrs (stream := stream) cfg g idxs le) now d.
Proof.
  unfold same_use. induction idxs as [|k idxs IH]; intros le now d Hd; cbn; [done|]. intros d1 E1.
  destruct (addrs d1 !! k) as [a|]; cbn; [|congruence]. intros d2 E2.
  destruct (bool_decide _); [apply IH; congruence|]. cbn.
  destruct (connect_raw cfg a now) as [[c|e] t]; cbn.
  - intros d3 E3 d4 E4. unfold use_count in *. cbn in *. congruence.
  - intros d3 E3 d4 E4 d5 E5. apply IH. rewrite use_record_error. unfold use_count in *. cbn in *. congruence.
Qed.

Lemma use_connect n cfg g now d :
  use_count d = n ->
  yields same_use (fun _ _ d => use_count d = n) (connect_round_robin (stream := stream) cfg g) now d.
Proof.
  intros Hd. cbn. intros d1 E1. destruct (bool_decide _); [cbn; now rewrite E1|].
  destruct (decide _); [cbn; now rewrite E1|]. apply (yields_bind _ _ refresh_dns).
  apply (yields_weaken _ (fun _ _ d => use_count d = n)); [|apply use_refresh; now rewrite E1].
  clear d d1 Hd E1. intros _ now1 d2 E2. unfold same_use. cbn. intros d3 E3 d4 E4.
  destruct (decide _); cbn; [unfold use_count in *; cbn; congruence|]. intros d5 E5.
  apply use_try_addrs. unfold use_count in *. cbn in *. congruence.
Qed.

Lemma use_dial env p now : dials_only env -> use_count (dialer (dial env p now).1.2) = use_count (dialer p).
Proof.
  intros Henv. unfold dial.
  pose proof (exec_yields same_use _ _ env now (dialer p) Henv
    (use_connect _ (config p) (config_generation p) now (dialer p) eq_refl)) as Hy.
  now destruct (exec _ _ _ _) as [[r d] t].
Qed.

Definition use_after (r : result Error nat) (n : option Z) : option Z :=
  match r with Ok _ => (fun n => (n + 1) mod (U64_MAX + 1)) <$> n | Err _ => n end.

Lemma use_in_use p delta :
  use_count (dialer (in_use p delta)) = (fun n => (n + delta) mod (U64_MAX + 1)) <$> use_count (dialer p).
Proof. unfold in_use, use_count. cbn. now destruct (metrics (dialer p)). Qed.

Lemma use_get_checked env p i c now :
  dials_only env ->
  let '(r, p', _) := get_checked env p i c now in use_count (dialer p') = use_after r (use_count (dialer p)).
Proof.
  intros Henv. unfold get_checked. destruct (should_reconnect p c now) as [[[|] c'] t]; [|apply use_in_use].
  pose proof (use_dial env p t Henv) as Hd. destruct (dial env p t) as [[[c2|e] p'] t']; cbn [fst snd] in Hd; rewrite <- Hd.
  - apply use_in_use.
  - done.
Qed.

Lemma use_get_locked env env' p i now :
  dials_only env -> dials_only env' ->
  let '(r, p', _) := get_locked env env' p i now in use_count (dialer p') = use_after r (use_count (dialer p)).
Proof.
  intros Henv Henv'.
  assert (let '(r, p', _) :=
            match dial env p now with
            | (Ok c, p, now) => get_checked env' p i c now
            | (Err e, p, now) => (get_fails p i None e, now)
            end in use_count (dialer p') = use_after r (use_count (dialer p))) as Hdial.
  { pose proof (use_dial env p now Henv) as Hd. destruct (dial env p now) as [[[c|e] p'] t]; cbn [fst snd] in Hd; rewrite <- Hd.
    - now apply use_get_checked.
    - done. }
  unfold get_locked. destruct (slots p !! i) as [[h [c|]]|]; [now apply use_get_checked|exact Hdial..].
Qed.

(** The counter is the number of guards. *)
Definition count_ok p : Prop :=
  forall n, use_count (dialer p) = Some n -> n = guards (slots p) mod (U64_MAX + 1).

Lemma count_insert p p' i s s' :
  slots p !! i = Some s -> slots p' = <[i := s']> (slots p) -> guard_bit s = guard_bit s' ->
  use_count (dialer p') = use_count (dialer p) -> count_ok p -> count_ok p'.
Proof.
  intros Hs Hs' Hbit Hu Hok n Hn. rewrite Hs', (guards_insert s' _ i s Hs), (Hok n) by congruence.
  f_equal. lia.
Qed.

Lemma count_lock p i : held p i Free -> count_ok p -> count_ok (lock p i).
Proof.
  intros (s & Hs & Hh). apply (count_insert p _ i s (mkSlot Getting (conn s))); auto.
  - now apply lock_slots.
  - unfold guard_bit. now rewrite Hh.
  - unfold lock. now rewrite Hs.
Qed.

Lemma count_got env env' p i now :
  held p i Getting -> dials_only env -> dials_only env' -> count_ok p -> count_ok (get_locked env env' p i now).1.2.
Proof.
  intros (s & Hs & Hh) Henv Henv' Hok. pose proof (get_locked_slots env env' p i now s Hs) as Hout.
  pose proof (use_get_locked env env' p i now Henv Henv') as Hu.
  destruct (get_locked env env' p i now) as [[[j|e] p'] now']; cbn [fst snd] in *.
  - destruct Hout as (_ & c' & Hslots & _). intros n Hn. rewrite Hu in Hn. cbn in Hn.
    destruct (use_count (dialer p)) as [m|] eqn:Em; [|done]. cbn in Hn. simplify_eq.
    rewrite Hslots, (guards_insert _ _ i s Hs), (Hok m Em).
    unfold guard_bit. rewrite Hh. cbn. rewrite Zplus_mod_idemp_l. f_equal. lia.
  - apply (count_insert p p' i s (mkSlot Free None)); auto. unfold guard_bit. now rewrite Hh.
Qed.

Lemma count_changes p i g p' : held p i Guarded -> changes p i g p' -> count_ok p -> count_ok p'.
Proof.
  intros (s & Hs & Hh) [Hs' Hd]. eapply (count_insert p p' i s); eauto; [|now rewrite Hd].
  unfold guard_bit. now rewrite Hh.
Qed.

Lemma held_changes p i g p' : held p i Guarded -> changes p i g p' -> held p' i Guarded.
Proof.
  intros (s & Hs & _) [Hs' _]. exists (mkSlot Guarded (guarded p i ≫= g)). rewrite Hs'. split; [|done].
  apply list_lookup_insert_eq. now apply lookup_lt_Some in Hs.
Qed.

Lemma count_release p i now : held p i Guarded -> count_ok p -> count_ok (drop_guard p i now).
Proof.
  intros (s & Hs & Hh) Hok n Hn.
  assert (exists oc, slots (drop_guard p i now) = <[i := mkSlot Free oc]> (slots p)) as [oc ->]
    by (unfold drop_guard; destruct (guard_in_flight _ _); cbn; eauto).
  assert (use_count (dialer (drop_guard p i now)) = (fun n => (n + -1) mod (U64_MAX + 1)) <$> use_count (dialer p))
    as Hu by (rewrite <- use_in_use; unfold drop_guard; now destruct (guard_in_flight _ _)).
  rewrite Hu in Hn. destruct (use_count (dialer p)) as [m|] eqn:Em; [|done]. cbn in Hn. simplify_eq.
  rewrite (guards_insert _ _ i s Hs), (Hok m Em). unfold guard_bit. rewrite Hh. cbn.
  rewrite Zplus_mod_idemp_l. f_equal. lia.
Qed.

Lemma step_count w f w' : step w f w' -> count_ok (pool w) -> count_ok (pool w').
Proof.
  intros Hstep Hok. destruct Hstep as
    [p us now|p us i Hh|p us|p us d Hd|p us i env env' now m j p' now' Hh He He' E|p us i env env' now e p' now' Hh He He' E
    |p us i s f left Hs Hh Hl|p us cfg|p us i pt f p' pt' Hh Hpt Hu|p us i pt now Hh Hpt]; cbn in *.
  - unfold get_enter. destruct (sweep p) as [i|] eqn:E; [|exact Hok].
    apply count_lock; [now apply sweep_free in E|exact Hok].
  - now apply count_lock.
  - intros n Hn. apply Hok. rewrite <- Hn. cbn. unfold use_count. cbn. now destruct (metrics (dialer p)).
  - intros n Hn. apply Hok. rewrite <- Hd. exact Hn.
  - pose proof (count_got env env' p i now Hh He He' Hok) as Hc. now rewrite E in Hc.
  - pose proof (count_got env env' p i now Hh He He' Hok) as Hc. now rewrite E in Hc.
  - apply (count_insert p _ i s (mkSlot Free left)); auto. unfold guard_bit. now rewrite Hh.
  - exact Hok.
  - destruct (user_step_moves _ _ _ _ _ _ Hh Hu) as (g & Hg & _). eauto using count_changes.
  - unfold drop_user. destruct (takes_on_drop pt); [|now apply count_release].
    apply count_release; eauto using changes_take, count_changes, held_changes.
Qed.

(** The [pool_in_use] metric counts the guards.  In every interleaving from a new pool
    whose metrics start at zero, whatever errors and dropped futures occur, the counter is
    the number of slots that a [PoolGuard] holds; it is never off by a lost decrement. *)
Theorem in_use_counts_guards addresses size started tr w m :
  run (mkWorld (with_metrics (new_pool addresses size started) 0 0) ∅) tr w -> metrics (dialer (pool w)) = Some m ->
  pool_in_use m =
    Z.of_nat (length (List.filter (fun s => bool_decide (holder s = Guarded)) (slots (pool w)))) mod (U64_MAX + 1).
Proof.
  intros Hrun Hm. enough (count_ok (pool w)) as Hok by (apply (Hok (pool_in_use m)); unfold use_count; now rewrite Hm).
  clear m Hm. set (w0 := mkWorld _ _) in Hrun.
  assert (count_ok (pool w0)) as Hzero.
  { intros n Hn. cbn in Hn. simplify_eq. unfold guards, w0. cbn.
    now induction (Nat.max size 1) as [|k IH]. }
  clearbody w0. induction Hrun as [|w0 tr w f w' Hrun IH Hstep]; eauto using step_count.
Qed.
End Lifecycle.

(** ** Runs on the sample network *)

Lemma sample_connect_clean cfg (a now : Z) (s : nat) t :
  connect_raw_inner cfg a now = (Ok s, t) -> negb (s =? 0)%nat = false.
Proof. cbn. destruct (a =? 1); intros E; now simplify_eq. Qed.

Lemma sample_pong_clean (s : nat) (now : Z) s1 t1 s2 t2 s3 t3 :
  negb (s =? 0)%nat = false -> write_packet s [Init.Byte.x04] now = (true, s1, t1) ->
  flush s1 t1 = (true, s2, t2) -> read_byte_within SECOND s2 t2 = (Some 4, s3, t3) -> negb (s3 =? 0)%nat = false.
Proof. cbn. intros Hs ? ?. simplify_eq. cbn. intros. now simplify_eq. Qed.

#[export] Instance sample_responses : Responses Z nat := {|
  mid_response s := negb (s =? 0)%nat;
  connect_clean := sample_connect_clean;
  pong_clean := sample_pong_clean;
|}.

Lemma held_only h (p : SimplePool Z nat) c : slots p = [mkSlot h c] -> held p 0 h.
Proof. intros E. exists (mkSlot h c). now rewrite E. Qed.

Lemma dials_quiet : dials_only (addr := Z) quiet.
Proof. done. Qed.

(** The only slot is acquired and marked, for a [ping] or by [begin_select]. *)
Definition entered_pool : SimplePool Z nat := (get_enter (new_pool [2] 1 0) 7).2.

Definition opened_pool : SimplePool Z nat := (get_locked quiet quiet entered_pool 0 7).1.2.

Definition marked_world (pt : point) : world :=
  mkWorld (mark_response_in_flight opened_pool 0) {[ 0%nat := pt ]}.

Lemma run_marked m pt :
  user_step opened_pool 0 (Start m) NoFault (mark_response_in_flight opened_pool 0) pt ->
  run (new_world [2] 1 0) [NoFault; NoFault; NoFault] (marked_world pt).
Proof.
  intros Hu. change [NoFault; NoFault; NoFault] with ((([] ++ [NoFault]) ++ [NoFault]) ++ [NoFault]).
  unfold marked_world. rewrite <- (insert_singleton_eq (M := gmap nat) 0%nat pt (Start m)).
  eapply run_snoc; [eapply run_snoc; [eapply run_snoc; [apply run_nil|]|]|].
  - apply (step_enter _ _ 7).
  - eapply (step_got _ _ 0 quiet quiet 7 m); [|apply dials_quiet..|reflexivity]. eapply held_only; reflexivity.
  - apply step_user with (pt := Start m); [eapply held_only; reflexivity|apply lookup_insert_eq|exact Hu].
Qed.

(** A step of the user of the slot, and the drop of its guard. *)
Lemma run_user tr (w : world (addr := Z) (stream := nat)) p p' pt f pt' :
  run w tr (mkWorld p {[ 0%nat := pt ]}) -> held p 0 Guarded -> user_step p 0 pt f p' pt' ->
  run w (tr ++ [f]) (mkWorld p' {[ 0%nat := pt' ]}).
Proof.
  intros Hrun Hs Hu. eapply run_snoc; [exact Hrun|]. rewrite <- (insert_singleton_eq (M := gmap nat) 0%nat pt' pt).
  eapply step_user; [exact Hs|apply lookup_singleton_eq|exact Hu].
Qed.

Lemma run_dropped tr (w : world (addr := Z) (stream := nat)) p pt now :
  run w tr (mkWorld p {[ 0%nat := pt ]}) -> held p 0 Guarded ->
  run w (tr ++ [NoFault]) (mkWorld (drop_user p 0 pt now) ∅).
Proof.
  intros Hrun Hs. eapply run_snoc; [exact Hrun|]. rewrite <- (delete_singleton_eq (M := gmap nat) 0%nat pt).
  apply step_dropped; [exact Hs|apply lookup_singleton_eq].
Qed.

(** A [ping] that ends in [r] with [unread] replies unread. *)
Definition pinging (unread : nat) : SimplePool Z nat := set_stream (mark_response_in_flight opened_pool 0) 0 unread.

Definition pinged (unread : nat) (r : result Error unit) : world :=
  mkWorld (drop_user (finish_response (pinging unread) 0 r) 0 Leaving 9) ∅.

Lemma run_pinged unread r :
  settled (pinging unread) 0 r -> is_Some (guarded (finish_response (pinging unread) 0 r) 0) ->
  run (new_world [2] 1 0) [NoFault; NoFault; NoFault; NoFault; keeps_unsettled r; NoFault] (pinged unread r).
Proof.
  intros Hset [c Hc].
  change [NoFault; NoFault; NoFault; NoFault; keeps_unsettled r; NoFault]
    with ((([NoFault; NoFault; NoFault] ++ [NoFault]) ++ [keeps_unsettled r]) ++ [NoFault]).
  eapply run_dropped; [eapply run_user; [eapply run_user; [apply (run_marked Ping), user_ping, ping_marks|..]|..]|].
  - eapply held_only; reflexivity.
  - apply user_ping, ping_responds, (response_talks _ _ _ unread).
  - eapply held_only; reflexivity.
  - now apply user_ping, ping_responds, response_ends.
  - destruct r as [|e]; [eapply held_only; reflexivity|]. unfold finish_response, invalidate_on_err in *.
    destruct (is_broken_connection e); [done|eapply held_only; reflexivity].
Qed.

(** A concrete connection is read off by evaluation. *)
Ltac settle := intros ? E _; vm_compute in E; injection E as <-; reflexivity.


Lemma in_use_counts_guards_witness :
  let p := (get_enter (with_metrics (new_pool [2] 2 0 : SimplePool Z nat) 0 0) 7).2 in
  exists m, metrics (dialer p) = Some m /\
    pool_in_use m = Z.of_nat (length (List.filter (fun s => bool_decide (holder s = Guarded)) (slots p))) mod (U64_MAX + 1).
Proof.
  cbv zeta. eexists. split; [reflexivity|].
  apply (in_use_counts_guards [2] 2 0 ([] ++ [NoFault])
    (mkWorld (get_enter (with_metrics (new_pool [2] 2 0 : SimplePool Z nat) 0 0) 7).2 ∅)); [|reflexivity].
  eapply run_snoc; [apply run_nil|apply step_enter].
Defined.

(** ** The three exceptions

    An unmarked connection in the free slot of [w] is in the middle of an exchange, and the
    next [get] hands it out so. *)
Definition poisoned (w : world (addr := Z) (stream := nat)) (now : Z) : Prop :=
  exists c c', slots (pool w) = [mkSlot Free (Some c)] /\ response_in_flight c = false /\
    mid_response (conn_stream c) = true /\
    let '(r, p, _) := get_locked quiet quiet (get_enter (pool w) now).2 0 now in
    r = Ok 0%nat /\ slots p = [mkSlot Guarded (Some c')] /\ mid_response (conn_stream c') = true.

Ltac poison := vm_compute; do 2 eexists; repeat split.

(** An error that is neither connection-fatal nor a server exception: [ping] finds another
    byte than a Pong and ends in [Error::Protocol], [finish_response] clears the mark and
    keeps the connection, with the rest of that packet on it. *)
Theorem protocol_error_poisons_slot :
  exists w, run (new_world [2] 1 0) [NoFault; NoFault; NoFault; NoFault; KeptUnsettled; NoFault] w /\ poisoned w 10.
Proof.
  set (err := EProtocol (msg "expected Pong (4), got {}")). exists (pinged 1 (Err err)). split; [|poison].
  apply (run_pinged 1 (Err err)); [intros c _; discriminate|vm_compute; eauto].
Qed.

(** A [BlockStream] whose [next_block] failed, or was dropped, inside a packet keeps [done]
    unset: the next call reads on from there, and a byte 5 inside the packet ends the
    stream and clears the mark. *)
Theorem resumed_stream_poisons_slot :
  exists w, run (new_world [2] 1 0)
    [NoFault; NoFault; NoFault; NoFault; NoFault; NoFault; ResumedStream; NoFault] w /\ poisoned w 10.
Proof.
  exists (mkWorld (drop_user (clear_response_in_flight (pinging 1) 0) 0 Stopped 9) ∅). split; [|poison].
  change [NoFault; NoFault; NoFault; NoFault; NoFault; NoFault; ResumedStream; NoFault]
    with ((((([NoFault; NoFault; NoFault] ++ [NoFault]) ++ [NoFault]) ++ [NoFault]) ++ [ResumedStream]) ++ [NoFault]).
  eapply run_dropped; [eapply run_user; [eapply run_user; [eapply run_user; [eapply run_user;
    [apply (run_marked BeginSelect), user_begin_select, begin_select_marks|..]|..]|..]|..]|].
  - eapply held_only; reflexivity.
  - apply user_begin_select, (begin_select_sends _ _ 1%nat).
  - eapply held_only; reflexivity.
  - apply user_begin_select, begin_select_sent.
  - eapply held_only; reflexivity.
  - apply user_block_stream, next_block_fails.
  - eapply held_only; reflexivity.
  - now apply user_block_stream, (next_block_terminal _ _ false).
  - eapply held_only; reflexivity.
Qed.

(** A [get] that is dropped while it waits for the Pong of its own Ping leaves the
    connection unmarked with the Pong on its way.  The next [get] takes that Pong for the
    answer to its own Ping, and hands the connection out with a reply pending. *)
Theorem dropped_ping_poisons_slot :
  exists w, run (new_world [2] 1 0)
    [NoFault; NoFault; NoFault; NoFault; NoFault; NoFault; NoFault; DroppedPing] w /\ poisoned w (60 * SECOND).
Proof.
  eexists. split.
  - change [NoFault; NoFault; NoFault; NoFault; NoFault; NoFault; NoFault; DroppedPing]
      with (([NoFault; NoFault; NoFault; NoFault; NoFault; NoFault] ++ [NoFault]) ++ [DroppedPing]).
    eapply run_snoc; [eapply run_snoc; [apply (run_pinged 0 (Ok tt))|]|].
    + settle.
    + vm_compute. eauto.
    + apply (step_enter _ _ (50 * SECOND)).
    + eapply (step_abandoned _ _ 0); [reflexivity|reflexivity|]. eapply (left_pinging _ _ _ 1%nat), left_as_found.
  - poison.
Qed.
